(* ===== verification/_CoqProject ===== *)
-Q . S2P
Prelude.v
Double.v
Interval.v
IntMath.v
SatCounter.v
Clocked.v
EventQ.v
EventQFacts.v
EventQRef.v
EventQTheorems.v
PrefetchBase.v
PrefetchQueue.v
PrefetchQueueFacts.v
Children.v
Tagged.v
QueueTheorems.v
QTable.v
CacheCounters.v
MLController.v
MLFacts.v
MLTheorems.v
MLWords.v
SavedTable.v
Replacement.v
TreePLRU.v
Dueling.v
Indexing.v
AssocCache.v
MemCmd.v
Mshr.v
MshrFacts.v
MissQueue.v
MissQueueFacts.v
CacheBlk.v
Partitioning.v
TagStore.v
TagFacts.v
CacheQueues.v
CacheQueueFacts.v
Tables.v
Stride.v
CircularQueue.v
DCPT.v
AMPM.v
SPP.v
ISB.v
SMS.v
STeMS.v
PIF.v
IndirectMemory.v
FDP.v
SBOOE.v
BOP.v
Multi.v
Evaluated.v
Simulation.v
