(* ===== verification/Prelude.v ===== *)
(** * Verification of the machine-learning prefetch controller

    The repository is the gem5 simulator with one prefetcher of its own: an online
    learner that switches between hardware prefetchers
    ([src/src/mem/cache/prefetch/ml_prefetch_controller.{hh,cc}]).  This library is a
    shallow embedding in Rocq of that controller and of the parts of gem5 it is built
    on, with the theorems that make each part correct.

    ** The program

    A cache reports its accesses to a prefetcher through probes.  The base class
    ([base.cc]) decides which accesses count and keeps the usefulness statistics.
    The queued prefetchers ([queued.cc]) train on an access, filter the candidates,
    translate those that leave the page, and keep two queues from which the cache
    takes packets.  The controller is a queued prefetcher whose children are queued
    prefetchers: an access trains every child, and the candidates of the child the
    current action names are queued.  At the end of an epoch an event reads the
    cache's counters and the CPU's progress, smooths and discretises them to a state,
    rewards the last action, updates a Q-table, and picks the next action
    epsilon-greedily; the table is saved to and loaded from a file.  The children of
    the evaluated configuration are two stride prefetchers ([stride.cc]) and a tagged
    one ([tagged.cc]).  The stride prefetcher keeps its history in associative tables
    ([associative_cache.hh]), which rely on an indexing policy and on a replacement
    policy; so do most of gem5's other prefetchers, any of which can be a child.  All
    of it is driven by the event queue ([eventq.cc]), on which the controller's event
    recurs.

    On the other side is the cache that takes the packets.  It keeps its blocks in a tag
    store, its outstanding misses in registers (MSHRs) that collect the requests for a
    block, and its writes in a write buffer.  When neither queue has an entry ready it asks
    the prefetcher for a packet; a prefetch is dropped if the block is in the cache or in a
    queue, and takes a register otherwise.

    ** Files and what they model (paths below src/src)

    - [Prelude]: outcomes of routines that may stop the simulation ([panic], [fatal],
      [assert]), machine words, shared lemmas and tactics.
    - [Double], [Interval]: IEEE binary64 as the standard library's [spec_float] at
      precision 53, with the rounding facts the reward and rate computations need, and
      interval reasoning over them.
    - [IntMath]: base/intmath.hh.  [SatCounter]: base/sat_counter.hh.
      [Clocked]: sim/clocked_object.hh.
    - [EventQ]: sim/eventq.{hh,cc}, base/flags.hh and the loop of sim/simulate.cc, with
      the events in a heap and the links of the source; [EventQFacts]: what the linked
      bins are; [EventQRef]: a list of pending events and its simulation by the bins;
      [EventQTheorems].
    - [PrefetchBase]: mem/cache/prefetch/base.{hh,cc}, mem/cache/cache_probe_arg.hh.
    - [PrefetchQueue], [PrefetchQueueFacts], [QueueTheorems]: queued.{hh,cc}; the two
      queues as lists of nodes with identities, and the prefetcher as a transition
      system (access, packet request, MMU answer).
    - [Children]: the virtual method [calculatePrefetch] as an interface: the class
      [SafePrefetcher] is what a parent relies on, [AnyPrefetcher] a child of any class.
    - [Tagged]: tagged.{hh,cc}.
    - [QTable]: [saveQTable] and [loadQTable], byte by byte.  [SavedTable] runs the
      model on a table file of the repository.
    - [CacheCounters]: the counters of mem/cache/base.hh the controller reads.
    - [MLController], [MLFacts], [MLTheorems], [MLWords]: the controller; its state is the
      record [ML], one definition per step of [endEpoch].
    - [Replacement], [TreePLRU], [Dueling]: mem/cache/replacement_policies and
      mem/cache/tags/dueling.{hh,cc}; the class [ReplPolicy] is the abstract base class
      and [ReplLaws] what tables rely on.
    - [Indexing]: mem/cache/tags/indexing_policies and base/bitfield.hh.
    - [AssocCache]: base/cache/associative_cache.hh with its entries, over a store
      that tables and policies share; [Tables]: the same for one table whose entries
      have members of their own.
    - [MemCmd]: the commands, flags and operations of mem/packet.{hh,cc} and
      mem/request.hh that the cache uses.
    - [Mshr], [MshrFacts]: mem/cache/mshr.{hh,cc}: the targets of a register, those that
      are deferred, snoops, promotion, and the registers of the caches above, which are a
      heap ([Upstream]); a register as a transition system.
    - [MissQueue], [MissQueueFacts]: mem/cache/queue.hh, mshr_queue.{hh,cc},
      write_queue.cc and write_queue_entry.{hh,cc}; the class [QEntry] is what the queue
      asks of its entries.
    - [CacheBlk]: mem/cache/cache_blk.{hh,cc}.  [Partitioning]:
      mem/cache/tags/partitioning_policies.  [TagStore], [TagFacts]: mem/cache/tags/base
      and base_set_assoc, over any indexing and replacement policy.
    - [CacheQueues], [CacheQueueFacts]: the request path of mem/cache/base.{hh,cc} and
      cache.cc: misses, blocking, the choice of what is sent, prefetches, write
      coalescing, and what a response does to the queues; the class [CachePrefetcher] is
      what the cache asks of its prefetcher, [PrefetcherLaws] what it relies on.
    - [Stride]: stride.{hh,cc}.
    - [CircularQueue]: base/circular_queue.hh.  [SBOOE], [BOP], [Multi]: the
      prefetchers of the same names.
    - [DCPT]: delta_correlating_prediction_tables.{hh,cc}.  [AMPM]:
      access_map_pattern_matching.{hh,cc} and slim_ampm.{hh,cc}.  [SPP]:
      signature_path.{hh,cc} and signature_path_v2.{hh,cc}.  [ISB]:
      irregular_stream_buffer.{hh,cc}.  [SMS]: sms.{hh,cc}.  [STeMS]:
      spatio_temporal_memory_streaming.{hh,cc}.  [PIF]: pif.{hh,cc}.  [IndirectMemory]:
      indirect_memory.{hh,cc}.  [FDP]: fdp.{hh,cc}, as a transition system (targets that
      come and go, translations that end, packets taken).
    - [Evaluated]: the controller closed with children of any modelled class, and with
      those of configs/machsuite/machsuite_config.py.
    - [Simulation]: the controller's event in the event queue, beside the events of a
      machine that is a parameter.

    ** What the theorems show

    - The system: over children that keep their invariants (every modelled prefetcher
      but the best-offset, sandbox, second signature-path and indirect memory ones has an
      instance) the controller
      never stops the simulation, in any reachable state, on accesses that carry their
      addresses and a program counter, packet requests, MMU answers and ends of epochs
      ([Evaluated]); and in the event queue its epochs keep coming, each at its tick
      ([Simulation]).
    - The event queue ([EventQTheorems]): the bins implement a list sorted by tick and
      priority; the earliest event is served and time does not go back; every event of
      handlers that look ahead is served; the self-check and the checkpoint code.
    - The controller ([MLTheorems]): the invariant of its reachable states (the action
      is valid, the Q-table has at most 45 rows with one bounded value per action,
      tracking is bounded); an epoch completes with a bounded reward; an update moves
      one value; the choice is greedy outside exploration; all children are trained;
      a saved table loads back, a truncated one is rejected, any file is survived;
      the miss rate is the ratio the cache counted; a learning rate of zero freezes;
      every member holds a value of its C++ type ([MLWords]).
    - The queues ([QueueTheorems]): bounded from two entries on, free of duplicates when
      the filter is on, total, FIFO under equal priorities, throttled within bounds,
      squashing exactly a block.
    - The cache: a register serves its requests in order, each once, and is freed by as
      many answers as it holds requests ([MshrFacts]); the miss queue loses and invents no
      request, hands out the earliest entry, and a prefetch leaves it room
      ([MissQueueFacts]); the cache is blocked exactly while a queue is full or a register
      has no room, and what it sends respects older writes ([CacheQueueFacts]); the tag
      store is a map from blocks to places and its statistics are counts ([TagFacts]);
      store conditionals are atomic ([CacheBlk]).  The theorems on registers and queues
      are for requests other than upgrades, locked reads and cache maintenance that come
      from a processor, not from another cache.
    - The children: a stride is learned from the third access on ([Stride]); tables
      behave as maps under replacement ([AssocCache]); skewed indexing is invertible
      ([Indexing]); victims are what the policies promise ([Replacement], [TreePLRU]);
      the dueling policy follows the score of its samples ([Dueling]).
    - Other prefetchers: learning phases and offset list of the best-offset
      prefetcher ([BOP]), the choice of the sandbox prefetcher ([SBOOE]), round robin
      ([Multi]), the ring buffer they share ([CircularQueue]); periodic deltas are
      predicted ([DCPT]); the access maps of zones match the map of memory ([AMPM]); the
      lookahead of the signature path ends and its candidates are the right blocks
      ([SPP]); a recorded stream is predicted ([ISB]); a generation is replayed ([SMS]);
      the regions that followed a trigger are proposed in order ([STeMS]); a recorded region
      is predicted, one block too far ([PIF]); a pattern is detected exactly when there is
      one ([IndirectMemory]); what is issued was announced and has not left, and the
      statistics add up ([FDP]).
    - Where the code does not do what its comments say, a theorem shows what it does:
      the OFF action is penalised with few children, the first reward goes to child 0,
      useful prefetches are never counted with default parameters, a packet can
      overtake one of higher priority in the queue, stride tables of different
      requestors overwrite each other, a checkpoint loses the scheduled events, the
      recency queues of spatial memory streaming grow without bound, the lookahead of the
      second signature-path prefetcher need not end, an idle epoch takes the limit off
      the access-map prefetcher, spatio-temporal streaming asks for first blocks only, a
      compacted region is lost, a block above 2 GiB is announced twice, a block that is moved
      in the tag store is lost, a partition without a capacity gets the capacity zero,
      delaying a register moves nothing, and assertions fail for a cleaning request between
      two writes and for a write that conflicts with a delayed register.

    ** Modelling choices

    A [w]-bit unsigned integer is a [Z] with the wrap-around written out ([wrap]);
    a null or dangling pointer, an index out of range and a division by zero are
    stops, like the failures the code reports itself.  Arithmetic on an [int] is
    rendered as wrap-around ([swrap]); the theorem on strides assumes that none of
    its products overflows.
    Random numbers are streams given as functions.  The MMU, the cache's lookups and
    the CPU's operation count are arguments.  An [std::map] or [std::unordered_map] is a
    [gmap]; where the order of iteration matters (the Q-table file) the entries are
    sorted.

    Fuel appears where the recursion is not structural, and is shown to suffice.
    Loading a table has one more than the number of bytes, and each round consumes at
    least twelve ([load_rows_total]).  The second-chance search has one more than the
    number of candidates, and each round takes a second chance away
    ([sc_search_spec]).  The walks in a PLRU tree have one more than its size and their
    index moves strictly ([update_path_spec], [walk_spec]).  The divisions of the
    best-offset list have one more than the logarithm of the dividend
    ([divide_out_spec]); for the loop around them every fuel from some number on gives
    the same list ([bop_offsets_smooth]).

    A walk along the links of the event queue has one more than the number of events of
    the heap, which the list it follows cannot exceed ([nodup_size], [bins_length]); a
    pending event is served within [rounds_left] rounds, bounded by the ticks to go times
    the number of events ([rounds_left_bound]).  A ring of deltas is filled with as many
    zeros as its capacity.  The lookahead of the signature path has 32 rounds per bit of
    its threshold ([spp_access_returns]), the announcement of a fetch target one per block
    ([fdp_insert_returns]).  Clearing the registers upstream is given one more than their
    number as depth, since each call takes one away ([clearing_terminates]).

    ** Not modelled

    Of the cache, the movement of data, the coherence protocol of the cache itself (its
    snoops and fills), atomic and functional accesses, latencies and compression are left
    out, as are the other tag stores; what a response finds in the tag store is an
    argument of the model.  MMU, CPU, memory controllers and the statistics package are
    the environment; locks, other threads and asynchronous signals of the event queue are
    left out, as is debug output. *)

From Stdlib Require Import ZArith Lia.
From stdpp Require Import base option list numbers strings gmap.

#[global] Open Scope Z_scope.

(** ** Failures *)

(** How a gem5 routine stops the simulation: [panic] and [panic_if] (an
    internal invariant is broken), [fatal] and [fatal_if] (a bad
    configuration), and a failing [assert]. *)
Inductive failure :=
| Panic (msg : string)
| Fatal (msg : string)
| AssertFail (msg : string).

(** The outcome of a routine that may stop the simulation. *)
Inductive outcome (A : Type) :=
| Ok (a : A)
| Stop (f : failure).
Arguments Ok {A} _.
Arguments Stop {A} _.

#[global] Instance outcome_ret : MRet outcome := @Ok.
#[global] Instance outcome_bind : MBind outcome := λ A B f m,
  match m with Ok a => f a | Stop e => Stop e end.
#[global] Instance outcome_fmap : FMap outcome := λ A B f m,
  match m with Ok a => Ok (f a) | Stop e => Stop e end.

(** [panic_if c msg], [fatal_if c msg] and [assert c] as statements. *)
Definition panic_if (c : bool) (msg : string) : outcome unit :=
  if c then Stop (Panic msg) else Ok tt.
Definition fatal_if (c : bool) (msg : string) : outcome unit :=
  if c then Stop (Fatal msg) else Ok tt.
Definition assert_that (c : bool) (msg : string) : outcome unit :=
  if c then Ok tt else Stop (AssertFail msg).

Definition is_ok {A} (m : outcome A) : Prop := ∃ a, m = Ok a.

(** The result of a computation that is known to succeed. *)
Definition is_okb {A} (m : outcome A) : bool := match m with Ok _ => true | Stop _ => false end.
Definition the_result {A} (m : outcome A) : is_okb m = true → A :=
  match m with Ok a => λ _, a | Stop _ => λ H, False_rect A (Bool.diff_false_true H) end.

Lemma the_result_ok {A} (m : outcome A) (H : is_okb m = true) : m = Ok (the_result m H).
Proof. by destruct m. Qed.

Lemma the_result_eq {A} (m : outcome A) (H : is_okb m = true) a : m = Ok a → the_result m H = a.
Proof. intros E. rewrite (the_result_ok m H) in E. congruence. Qed.

Lemma outcome_bind_ok {A B} (m : outcome A) (f : A → outcome B) b :
  (m ≫= f) = Ok b ↔ ∃ a, m = Ok a ∧ f a = Ok b.
Proof.
  destruct m as [a|e]; simpl; split; [eauto| |done|].
  - by intros (a' & [= <-] & ?).
  - by intros (a' & ? & ?).
Qed.

(** Running past a call whose result has been rewritten to [Ok]. *)
Ltac run_ok := cbn [mbind outcome_bind].

(** [succeeds m P]: [m] does not stop the simulation and its result satisfies
    [P]; the form in which totality is proved through sequences of calls. *)
Definition succeeds {A} (m : outcome A) (P : A → Prop) : Prop :=
  match m with Ok a => P a | Stop _ => False end.

Lemma succeeds_bind {A B} (m : outcome A) (f : A → outcome B) (Q : B → Prop) :
  succeeds m (λ a, succeeds (f a) Q) → succeeds (m ≫= f) Q.
Proof. by destruct m. Qed.

Lemma succeeds_mono {A} (m : outcome A) (P Q : A → Prop) :
  succeeds m P → (∀ a, P a → Q a) → succeeds m Q.
Proof. destruct m; simpl; auto. Qed.

Lemma succeeds_ok {A} (m : outcome A) (P : A → Prop) :
  succeeds m P ↔ ∃ a, m = Ok a ∧ P a.
Proof.
  destruct m as [a|e]; simpl; split.
  - eauto.
  - by intros (a' & [= <-] & ?).
  - done.
  - by intros (a' & ? & ?).
Qed.

(** ** Lists *)

Lemma join_cons {A} (l : list A) (ls : list (list A)) : mjoin (l :: ls) = l ++ mjoin ls.
Proof. done. Qed.

Lemma app_eq_long {A} (l1 l2 k1 k2 : list A) :
  l1 ++ l2 = k1 ++ k2 → (length l1 ≤ length k1)%nat → ∃ k, k1 = l1 ++ k ∧ l2 = k ++ k2.
Proof.
  intros [(k & -> & ->)|?]%app_eq_inv Hl; [|done].
  rewrite length_app in Hl. destruct k; [|simpl in Hl; lia].
  exists []. by rewrite !app_nil_r.
Qed.

Lemma NoDup_submseteq_inv {A} (l k : list A) : l ⊆+ k → NoDup k → NoDup l.
Proof.
  intros (k' & Hk)%submseteq_Permutation Hn. rewrite Hk in Hn. by apply NoDup_app in Hn as [? _].
Qed.

Lemma Forall_submseteq {A} (P : A → Prop) (l k : list A) : l ⊆+ k → Forall P k → Forall P l.
Proof.
  intros (k' & Hk)%submseteq_Permutation Hn. rewrite Hk in Hn. by apply Forall_app in Hn as [? _].
Qed.

Lemma filter_id {A} (P : A → Prop) `{∀ x, Decision (P x)} (l : list A) : Forall P l → filter P l = l.
Proof. induction 1 as [|x l Hx _ IH]; [done|]. by rewrite filter_cons_True, IH. Qed.

(** The number of elements that pass a test. *)
Fixpoint num_of {A} (p : A → bool) (l : list A) : Z :=
  match l with [] => 0 | x :: l => Z.b2z (p x) + num_of p l end.

Lemma num_of_insert {A} (p : A → bool) (l : list A) i x y :
  l !! i = Some x → num_of p (<[i := y]> l) = num_of p l - Z.b2z (p x) + Z.b2z (p y).
Proof.
  revert i. induction l as [|z l IH]; intros [|i]; simpl; [done|done| |].
  - intros [= ->]. lia.
  - intros Hi. rewrite (IH i Hi). lia.
Qed.

Lemma num_of_nonneg {A} (p : A → bool) (l : list A) : 0 ≤ num_of p l.
Proof. induction l as [|x l IH]; simpl; [done|]. destruct (p x); simpl; lia. Qed.

Lemma num_of_length {A} (p : A → bool) (l : list A) : num_of p l ≤ Z.of_nat (length l).
Proof. induction l as [|x l IH]; simpl; [done|]. destruct (p x); simpl; lia. Qed.

Lemma num_of_pos {A} (p : A → bool) (l : list A) i x : l !! i = Some x → p x = true → 0 < num_of p l.
Proof.
  revert i. induction l as [|z l IH]; intros [|i]; simpl; [done|done| |].
  - intros [= ->] ->. pose proof (num_of_nonneg p l). simpl. lia.
  - intros Hi Hp. specialize (IH i Hi Hp). destruct (p z); simpl; lia.
Qed.

Lemma num_of_replicate {A} (p : A → bool) n x : p x = false → num_of p (replicate n x) = 0.
Proof. intros Hp. induction n as [|n IH]; simpl; [done|]. by rewrite Hp, IH. Qed.

(** ** Machine integers

    An unsigned [w]-bit integer is a [Z] in [[0, 2^w)]; every operation that
    can leave the range is followed by the wrap-around the hardware does. *)

Definition wrap (w z : Z) : Z := z mod 2 ^ w.
Definition swrap (w z : Z) : Z := (z + 2 ^ (w - 1)) mod 2 ^ w - 2 ^ (w - 1).

Abbreviation u8 := (wrap 8).
Abbreviation u16 := (wrap 16).
Abbreviation u32 := (wrap 32).
Abbreviation u64 := (wrap 64).
Abbreviation i16 := (swrap 16).
Abbreviation i32 := (swrap 32).
Abbreviation i64 := (swrap 64).

Definition in_u (w z : Z) : Prop := 0 ≤ z < 2 ^ w.
Definition in_s (w z : Z) : Prop := - 2 ^ (w - 1) ≤ z < 2 ^ (w - 1).

Declare Scope word_scope.
Delimit Scope word_scope with word.
Notation "a +w b" := (u64 (a + b)) (at level 50, left associativity) : word_scope.
Notation "a -w b" := (u64 (a - b)) (at level 50, left associativity) : word_scope.

(** Side conditions that a value fits its width. *)
Ltac in_word := unfold in_u, in_s; lia.
Ltac in_int := try done; unfold in_s; change (2 ^ (32 - 1)) with 2147483648; lia.

Lemma wrap_range w z : 0 ≤ w → in_u w (wrap w z).
Proof. intros. unfold in_u, wrap. apply Z.mod_pos_bound. lia. Qed.

Lemma wrap_id w z : in_u w z → wrap w z = z.
Proof. unfold in_u, wrap. intros. by apply Z.mod_small. Qed.

Lemma wrap_wrap w z : wrap w (wrap w z) = wrap w z.
Proof.
  unfold wrap. destruct (decide (2 ^ w = 0)) as [->|];
    [by rewrite !Z.mod_0_r|by rewrite Zmod_mod].
Qed.

Lemma wrap_add_l w a b : wrap w (wrap w a + b) = wrap w (a + b).
Proof.
  unfold wrap. destruct (decide (2 ^ w = 0)) as [->|];
    [by rewrite !Z.mod_0_r|by rewrite Z.add_mod_idemp_l].
Qed.

Lemma wrap_add_r w a b : wrap w (a + wrap w b) = wrap w (a + b).
Proof. by rewrite Z.add_comm, wrap_add_l, Z.add_comm. Qed.

Lemma wrap_add_ll w a b c : wrap w (wrap w a + b + c) = wrap w (a + b + c).
Proof. by rewrite <-!Z.add_assoc, wrap_add_l. Qed.

Lemma wrap_sub_l w a b : wrap w (wrap w a - b) = wrap w (a - b).
Proof. by rewrite <-!Z.add_opp_r, wrap_add_l. Qed.

Lemma wrap_mul_l w a b : wrap w (wrap w a * b) = wrap w (a * b).
Proof.
  unfold wrap. destruct (decide (2 ^ w = 0)) as [->|];
    [by rewrite !Z.mod_0_r|by rewrite Z.mul_mod_idemp_l].
Qed.

Lemma swrap_range w z : 0 < w → in_s w (swrap w z).
Proof.
  intros Hw. unfold in_s, swrap.
  assert (2 ^ w = 2 * 2 ^ (w - 1)) as Hp
    by (rewrite <-Z.pow_succ_r by lia; f_equal; lia).
  pose proof (Z.mod_pos_bound (z + 2 ^ (w - 1)) (2 ^ w)). lia.
Qed.

Lemma swrap_id w z : 0 < w → in_s w z → swrap w z = z.
Proof.
  intros Hw. unfold in_s, swrap. intros Hz.
  assert (2 ^ w = 2 * 2 ^ (w - 1)) as Hp
    by (rewrite <-Z.pow_succ_r by lia; f_equal; lia).
  rewrite Z.mod_small; lia.
Qed.

(** Storing a small signed number in an unsigned word and reading it back as an [int]. *)
Lemma i32_u64 d : in_s 32 d → i32 (u64 d) = d.
Proof.
  unfold in_s, swrap, wrap. change (2 ^ (32 - 1)) with 2147483648. change (2 ^ 32) with 4294967296.
  change (2 ^ 64) with 18446744073709551616. intros Hd. Z.div_mod_to_equations. lia.
Qed.

Create HintDb word.
#[export] Hint Resolve wrap_range swrap_range : word.
Create Rewrite HintDb word.
#[export] Hint Rewrite wrap_wrap wrap_add_l wrap_add_r wrap_add_ll wrap_sub_l wrap_mul_l : word.

(** Equality of two words whose arguments are equal numbers. *)
Ltac word_eq := autorewrite with word; apply (f_equal (wrap _)); lia.
