(* ===== verification/Double.v ===== *)
(** * IEEE-754 binary64 arithmetic

    The C++ [double] of the sources.  A value is a [spec_float] of the Standard
    Library at precision 53 and maximal exponent 1024, and the operators are
    the library's correctly rounded ones (round to nearest, ties to even), so
    every computation of the model is the one the compiled code performs in
    double arithmetic and can be evaluated.

    The second part is the rounding theory the component proofs use: a result
    never crosses a representable number ([rounds]), the comparisons decide
    the order of the represented rationals, and the bit pattern of a valid
    number can be written and read back. *)

From Stdlib Require Import ZArith QArith Qpower Lia Lqa Bool.
From Stdlib Require Import SpecFloat.

#[local] Open Scope Z_scope.

(** ** The type and its operators *)

Definition double := spec_float.

Definition dprec : Z := 53.
Definition demax : Z := 1024.

Definition dadd : double -> double -> double := SFadd dprec demax.
Definition dsub : double -> double -> double := SFsub dprec demax.
Definition dmul : double -> double -> double := SFmul dprec demax.
Definition ddiv : double -> double -> double := SFdiv dprec demax.
Definition dopp : double -> double := SFopp.
Definition dltb : double -> double -> bool := SFltb.
Definition dleb : double -> double -> bool := SFleb.
Definition dgtb (x y : double) : bool := SFltb y x.

(** [(double) z] for an integer [z]. *)
Definition d_of_Z (z : Z) : double := binary_normalize dprec demax z 0 false.

(** The decimal literal [n/d]; numerator and denominator are exact doubles, so
    the rounded quotient is the double nearest to the literal. *)
Definition dlit (n : Z) (d : positive) : double := ddiv (d_of_Z n) (d_of_Z (Zpos d)).

(** [std::max(a, b)] is [(a < b) ? b : a]. *)
Definition dmax (a b : double) : double := if dltb a b then b else a.

Definition d0 : double := S754_zero false.
Definition d1 : double := d_of_Z 1.

Definition dvalid (x : double) : bool := valid_binary dprec demax x.
Definition dfinite (x : double) : bool :=
  match x with S754_zero _ | S754_finite _ _ _ => true | _ => false end.
(** A finite number in canonical form. *)
Definition dok (x : double) : bool := dfinite x && dvalid x.

(** Conversion to an integer truncates; infinities and NaN, which have no value there, are
    rendered by zero. *)
Definition d_trunc (x : double) : Z :=
  match x with
  | S754_finite s m e =>
      let n := if 0 <=? e then Z.pos m * 2 ^ e else Z.pos m / 2 ^ (- e) in
      if s then - n else n
  | _ => 0
  end.

(** ** The represented rational *)

Definition bp (e : Z) : Q := Qpower 2 e.

Definition dval (x : double) : Q :=
  match x with
  | S754_finite s m e => inject_Z (cond_Zopp s (Zpos m)) * bp e
  | _ => 0
  end.

(** [rounds z x]: [z] is a valid double and lies between every two doubles that
    [x] lies between.  In particular [z] is finite as soon as [x] is within the
    range of the format, and equal to [x] when [x] is representable. *)
Definition rounds (z : double) (x : Q) : Prop :=
  dvalid z = true /\
  forall lo hi, dok lo = true -> dok hi = true ->
    (dval lo <= x)%Q -> (x <= dval hi)%Q ->
    dfinite z = true /\ (dval lo <= dval z)%Q /\ (dval z <= dval hi)%Q.

(** ** Powers of two *)

Section Bp.
#[local] Open Scope Q_scope.

Lemma bp_pos e : 0 < bp e.
Proof. unfold bp. apply Qpower_0_lt. reflexivity. Qed.

Lemma bp_plus a b : bp (a + b) == bp a * bp b.
Proof. unfold bp. apply Qpower_plus. discriminate. Qed.

Lemma bp_nonneg_Z e : (0 <= e)%Z -> bp e == inject_Z (2 ^ e).
Proof.
  intros He. unfold bp. change 2 with (inject_Z 2).
  rewrite Zpower_Qpower by lia. reflexivity.
Qed.

Lemma bp_le a b : (a <= b)%Z -> bp a <= bp b.
Proof.
  intros H. replace b with (a + (b - a))%Z by lia. rewrite bp_plus.
  rewrite (bp_nonneg_Z (b - a)) by lia.
  pose proof (bp_pos a).
  assert (1 <= inject_Z (2 ^ (b - a))).
  { change 1 with (inject_Z 1). rewrite <- Zle_Qle.
    pose proof (Z.pow_pos_nonneg 2 (b - a)). lia. }
  nra.
Qed.

Lemma bp_succ e : bp (e + 1) == 2 * bp e.
Proof. rewrite bp_plus. unfold bp at 2. simpl. ring. Qed.

Lemma bp_0 : bp 0 == 1.
Proof. reflexivity. Qed.

(** [a * 2^e] with an integer [a] and a larger exponent, seen at [e']. *)
Lemma bp_shift a e e' :
  (e' <= e)%Z -> inject_Z a * bp e == inject_Z (a * 2 ^ (e - e')) * bp e'.
Proof.
  intros H. replace e with ((e - e') + e')%Z at 1 by lia.
  rewrite bp_plus, (bp_nonneg_Z (e - e')), inject_Z_mult by lia. ring.
Qed.
End Bp.

(** ** Shifting with guard and sticky bits *)

Section Rounding.
#[local] Open Scope Q_scope.

(** The rationals a mantissa with its round and sticky bits stands for. *)
Definition rep (mrs : shr_record) (x : Q) : Prop :=
  let m := inject_Z (shr_m mrs) in
  match shr_r mrs, shr_s mrs with
  | false, false => x == m
  | false, true => m < x /\ x < m + (1#2)
  | true, false => x == m + (1#2)
  | true, true => m + (1#2) < x /\ x < m + 1
  end.

Lemma rep_floor mrs x :
  rep mrs x -> inject_Z (shr_m mrs) <= x /\ x < inject_Z (shr_m mrs) + 1.
Proof. unfold rep. destruct (shr_r mrs), (shr_s mrs); intros; split; lra. Qed.

Lemma rep_ext mrs x y : x == y -> rep mrs x -> rep mrs y.
Proof.
  intros E. unfold rep. destruct (shr_r mrs), (shr_s mrs); rewrite E; exact id.
Qed.

Lemma shr_1_nonneg m r s :
  (0 <= m)%Z ->
  shr_1 (Build_shr_record m r s) = Build_shr_record (Z.div2 m) (Z.odd m) (r || s).
Proof. destruct m as [|[p|p|]|p]; simpl; intros; try lia; reflexivity. Qed.

Lemma inject_Z_div2 m :
  inject_Z m == 2 * inject_Z (Z.div2 m) + (if Z.odd m then 1 else 0).
Proof.
  rewrite (Z.div2_odd m) at 1.
  rewrite inject_Z_plus, inject_Z_mult. destruct (Z.odd m); reflexivity.
Qed.

Lemma rep_shr_1 mrs x :
  (0 <= shr_m mrs)%Z -> rep mrs x ->
  (0 <= shr_m (shr_1 mrs))%Z /\ rep (shr_1 mrs) (x * (1#2)).
Proof.
  destruct mrs as [m r s]. cbn [shr_m]. intros Hm Hr.
  rewrite shr_1_nonneg by assumption. split; [simpl; now apply Z.div2_nonneg|].
  unfold rep in *. cbn [shr_m shr_r shr_s] in *.
  pose proof (inject_Z_div2 m) as Hd.
  set (q := inject_Z (Z.div2 m)) in *. set (i := inject_Z m) in *. clearbody q i.
  destruct (Z.odd m), r, s; cbn [orb] in *; try split; lra.
Qed.

Lemma rep_iter p : forall mrs x,
  (0 <= shr_m mrs)%Z -> rep mrs x ->
  (0 <= shr_m (iter_pos shr_1 p mrs))%Z /\
  rep (iter_pos shr_1 p mrs) (x * bp (- Zpos p)).
Proof.
  induction p as [p IH|p IH|]; intros mrs x Hm Hr; cbn [iter_pos].
  - destruct (rep_shr_1 _ _ Hm Hr) as [Hm1 Hr1].
    destruct (IH _ _ Hm1 Hr1) as [Hm2 Hr2].
    destruct (IH _ _ Hm2 Hr2) as [Hm3 Hr3].
    split; [exact Hm3|]. eapply rep_ext with (2 := Hr3).
    replace (- Zpos (xI p))%Z with (-1 + - Zpos p + - Zpos p)%Z by lia.
    rewrite !bp_plus. change (bp (-1)) with (1#2). ring.
  - destruct (IH _ _ Hm Hr) as [Hm2 Hr2].
    destruct (IH _ _ Hm2 Hr2) as [Hm3 Hr3].
    split; [exact Hm3|]. eapply rep_ext with (2 := Hr3).
    replace (- Zpos (xO p))%Z with (- Zpos p + - Zpos p)%Z by lia.
    rewrite !bp_plus. ring.
  - exact (rep_shr_1 _ _ Hm Hr).
Qed.

Lemma rep_shr mrs e n x :
  (0 <= n)%Z -> (0 <= shr_m mrs)%Z -> rep mrs x ->
  snd (shr mrs e n) = (e + n)%Z /\
  (0 <= shr_m (fst (shr mrs e n)))%Z /\
  rep (fst (shr mrs e n)) (x * bp (- n)).
Proof.
  intros Hn Hm Hr. destruct n as [|p|p]; simpl; [|now (split; [|apply rep_iter])|lia].
  split; [lia|]. split; [exact Hm|]. eapply rep_ext with (2 := Hr).
  change (bp (-0)) with 1. ring.
Qed.

Lemma digits2_log2 p : Zpos (digits2_pos p) = (Z.log2 (Zpos p) + 1)%Z.
Proof.
  induction p as [p IH|p IH|]; simpl digits2_pos; [| |reflexivity];
    rewrite Pos2Z.inj_succ, IH.
  - change (Zpos (xI p)) with (2 * Zpos p + 1)%Z.
    rewrite Z.log2_succ_double by lia. lia.
  - change (Zpos (xO p)) with (2 * Zpos p)%Z.
    rewrite Z.log2_double by lia. lia.
Qed.

Lemma digits2_bounds m :
  (0 < m -> 2 ^ (Zdigits2 m - 1) <= m < 2 ^ Zdigits2 m /\ 0 < Zdigits2 m)%Z.
Proof.
  intros Hm. destruct m as [|p|p]; try lia. simpl Zdigits2.
  rewrite digits2_log2. pose proof (Z.log2_spec (Zpos p) Hm).
  pose proof (Z.log2_nonneg (Zpos p)).
  replace (Z.log2 (Zpos p) + 1 - 1)%Z with (Z.log2 (Zpos p)) by lia.
  rewrite <- Z.add_1_r in H. lia.
Qed.

Lemma Zdigits2_0 m : (0 <= m -> 0 <= Zdigits2 m /\ m < 2 ^ Zdigits2 m)%Z.
Proof.
  intros Hm. destruct (Z.eq_dec m 0) as [->|]; [simpl; lia|].
  pose proof (digits2_bounds m). lia.
Qed.

Lemma Zdigits2_unique m d :
  (0 < d)%Z -> (2 ^ (d - 1) <= m < 2 ^ d)%Z -> Zdigits2 m = d.
Proof.
  intros Hd Hm. pose proof (Z.pow_pos_nonneg 2 (d - 1)).
  destruct m as [|p|p]; try lia. simpl. rewrite digits2_log2.
  rewrite (Z.log2_unique (Zpos p) (d - 1)); [lia|lia|].
  rewrite <- Z.add_1_r. replace (d - 1 + 1)%Z with d by lia. lia.
Qed.

Lemma fexp_eq k : fexp dprec demax k = Z.max (k - 53) (-1074).
Proof. reflexivity. Qed.

Lemma inject_Z_le_bp m k : (0 <= k)%Z -> (m < 2 ^ k)%Z -> inject_Z m + 1 <= bp k.
Proof.
  intros Hk Hm. rewrite bp_nonneg_Z by assumption.
  change 1 with (inject_Z 1). rewrite <- inject_Z_plus, <- Zle_Qle. lia.
Qed.

(** Mantissas of the format at the exponent [fexp] selects. *)
Definition on_grid (m e : Z) : Prop :=
  (0 <= m < 2 ^ 53 /\ -1074 <= e /\ (-1074 < e -> 2 ^ 52 <= m))%Z.

Lemma shr_fexp_spec m e l x :
  let e' := fexp dprec demax (Zdigits2 m + e) in
  (0 <= m)%Z -> (e <= e')%Z -> rep (shr_record_of_loc m l) x ->
  exists mrs, shr_fexp dprec demax m e l = (mrs, e') /\
    rep mrs (x * bp (e - e')) /\ on_grid (shr_m mrs) e'.
Proof.
  intros e' Hm He Hr. unfold shr_fexp. fold e'.
  assert (shr_m (shr_record_of_loc m l) = m) as Em by (destruct l as [|[]]; reflexivity).
  destruct (rep_shr _ e (e' - e) x ltac:(lia) ltac:(rewrite Em; exact Hm) Hr)
    as (Hs & Hn & Hrep).
  destruct (shr _ _ _) as [mrs e1]. cbn [fst snd] in *.
  replace (- (e' - e))%Z with (e - e')%Z in Hrep by lia.
  exists mrs. split; [f_equal; lia|]. split; [exact Hrep|].
  pose proof (rep_floor _ _ Hr) as [Hx1 Hx2]. rewrite Em in Hx1, Hx2.
  pose proof (rep_floor _ _ Hrep) as [Hy1 Hy2].
  pose proof (bp_pos (e - e')) as Hp.
  assert (e' = Z.max (Zdigits2 m + e - 53) (-1074)) as Ee by reflexivity.
  clearbody e'. unfold on_grid. destruct (Zdigits2_0 m Hm) as [Hd0 Hd].
  split; [split; [exact Hn|]|split; [lia|]].
  - rewrite Zlt_Qlt, <- (bp_nonneg_Z 53) by lia.
    eapply Qle_lt_trans; [exact Hy1|].
    apply Qlt_le_trans with (bp (Zdigits2 m + (e - e'))); [|apply bp_le; lia].
    rewrite bp_plus. pose proof (inject_Z_le_bp m (Zdigits2 m) Hd0 Hd). nra.
  - intros Hgt. assert (0 < m)%Z as Hm0.
    { destruct (Z.eq_dec m 0) as [->|]; [simpl in Ee|]; lia. }
    pose proof (digits2_bounds m Hm0) as [[Hlo _] Hdp].
    apply Z.lt_succ_r. rewrite Zlt_Qlt, <- (bp_nonneg_Z 52) by lia.
    unfold Z.succ. rewrite inject_Z_plus.
    eapply Qle_lt_trans; [|exact Hy2].
    replace 52%Z with ((Zdigits2 m - 1) + (e - e'))%Z by lia.
    rewrite bp_plus, (bp_nonneg_Z (Zdigits2 m - 1)) by lia.
    rewrite Zle_Qle in Hlo. nra.
Qed.

Lemma rne_spec mrs x (i : Z) :
  rep mrs x ->
  let m'' := round_nearest_even (shr_m mrs) (loc_of_shr_record mrs) in
  (shr_m mrs <= m'' <= shr_m mrs + 1)%Z /\
  (x <= inject_Z i -> (m'' <= i)%Z) /\ (inject_Z i <= x -> (i <= m'')%Z).
Proof.
  intros Hr m''. pose proof (rep_floor _ _ Hr) as [H1 H2].
  assert (inject_Z i <= x -> (i <= shr_m mrs)%Z) as Hlo.
  { intros Hi. apply Z.lt_succ_r. rewrite Zlt_Qlt. unfold Z.succ.
    rewrite inject_Z_plus. change (inject_Z 1) with 1. lra. }
  assert (x <= inject_Z i -> (shr_m mrs <= i)%Z) as Hhi.
  { intros Hi. rewrite Zle_Qle. lra. }
  assert (inject_Z (shr_m mrs) < x -> x <= inject_Z i -> (shr_m mrs + 1 <= i)%Z) as Hup.
  { intros Hx Hi. apply Zlt_le_succ. rewrite Zlt_Qlt. lra. }
  unfold rep in Hr. destruct mrs as [m r s]; cbn [shr_m shr_r shr_s] in *.
  subst m''. cbn [loc_of_shr_record].
  destruct r, s; cbn [round_nearest_even]; [..|destruct (Z.even m)];
    try (destruct (Z.even m)); (split; [lia|]);
    (split; intros Hi; [|specialize (Hlo Hi); lia]);
    first [apply Hup; [lra|exact Hi] | apply Hhi; exact Hi].
Qed.

(** Renormalising after the increment: only [2^53] moves, to [2^52]. *)
Lemma renormalize m e :
  on_grid m e \/ (m = 2 ^ 53 /\ -1074 <= e)%Z ->
  exists m3 e3, shr_fexp dprec demax m e loc_Exact =
      (Build_shr_record m3 false false, e3) /\
    on_grid m3 e3 /\ inject_Z m3 * bp e3 == inject_Z m * bp e.
Proof.
  unfold shr_fexp. cbn [shr_record_of_loc]. intros [Hg|[-> He]].
  - exists m, e. split; [|split; [exact Hg|reflexivity]].
    destruct Hg as (Hm & He & _).
    assert (fexp dprec demax (Zdigits2 m + e) - e <= 0)%Z as Hn.
    { rewrite fexp_eq. destruct (Z.eq_dec m 0) as [->|]; [simpl; lia|].
      pose proof (digits2_bounds m ltac:(lia)) as [[Hlo _] _].
      assert (Zdigits2 m - 1 < 53)%Z; [|lia].
      apply (Z.pow_lt_mono_r_iff 2); lia. }
    destruct (_ - _)%Z; simpl; [reflexivity|lia|reflexivity].
  - exists (2 ^ 52)%Z, (e + 1)%Z. split; [|split].
    + replace (fexp dprec demax (Zdigits2 (2 ^ 53) + e) - e)%Z with 1%Z; [reflexivity|].
      rewrite fexp_eq. change (Zdigits2 (2 ^ 53)) with 54%Z. lia.
    + unfold on_grid. lia.
    + rewrite bp_succ. change (2 ^ 53)%Z with (2 * 2 ^ 52)%Z.
      rewrite inject_Z_mult. ring.
Qed.

Lemma on_grid_bounded p e :
  on_grid (Zpos p) e -> (e <= 971)%Z -> bounded dprec demax p e = true.
Proof.
  intros (Hm & He & Hn) Hx. unfold bounded, canonical_mantissa.
  rewrite fexp_eq. apply andb_true_intro. split; [|apply Z.leb_le; exact Hx].
  apply Z.eqb_eq. change (Zpos (digits2_pos p)) with (Zdigits2 (Zpos p)).
  destruct (Z.eq_dec e (-1074)) as [->|].
  - pose proof (digits2_bounds (Zpos p) ltac:(lia)) as [[Hlo _] _].
    assert (Zdigits2 (Zpos p) - 1 < 53)%Z; [|lia].
    apply (Z.pow_lt_mono_r_iff 2); lia.
  - rewrite (Zdigits2_unique _ 53) by lia. lia.
Qed.

(** Where a result of magnitude [M * 2^E] on the grid lies with respect to
    another grid point. *)
Lemma grid_lt_bp G k : (0 <= G < 2 ^ 53)%Z -> inject_Z G * bp k < bp (53 + k).
Proof.
  intros HG. rewrite bp_plus, (bp_nonneg_Z 53) by lia. pose proof (bp_pos k).
  destruct HG as [_ HG]. rewrite Zlt_Qlt in HG. nra.
Qed.

Lemma normal_ge_bp m e : (2 ^ 52 <= m)%Z -> bp (52 + e) <= inject_Z m * bp e.
Proof.
  intros Hm. rewrite bp_plus, (bp_nonneg_Z 52) by lia. pose proof (bp_pos e).
  rewrite Zle_Qle in Hm. nra.
Qed.

(** The rounding of a nonnegative rational [x * 2^e]. *)
Lemma round_aux_spec sx m e l x :
  (0 <= m)%Z -> (e <= fexp dprec demax (Zdigits2 m + e))%Z ->
  rep (shr_record_of_loc m l) x ->
  let z := binary_round_aux dprec demax sx m e l in
  exists m3 e3, on_grid m3 e3 /\
    z = match m3 with
        | Z0 => S754_zero sx
        | Zpos p => if (e3 <=? 971)%Z then S754_finite sx p e3 else S754_infinity sx
        | Zneg _ => S754_nan
        end /\
    forall G k, (0 <= G < 2 ^ 53)%Z -> (-1074 <= k)%Z ->
      (x * bp e <= inject_Z G * bp k -> inject_Z m3 * bp e3 <= inject_Z G * bp k) /\
      (inject_Z G * bp k <= x * bp e -> inject_Z G * bp k <= inject_Z m3 * bp e3).
Proof.
  intros Hm He Hr z.
  destruct (shr_fexp_spec m e l x Hm He Hr) as (mrs & Es & Hrep & Hg).
  set (e' := fexp dprec demax (Zdigits2 m + e)) in *.
  set (m2 := round_nearest_even (shr_m mrs) (loc_of_shr_record mrs)).
  assert (on_grid m2 e' \/ (m2 = 2 ^ 53 /\ -1074 <= e')%Z) as Hg2.
  { pose proof (rne_spec mrs _ 0 Hrep) as [Hb _]. fold m2 in Hb.
    unfold on_grid in *. lia. }
  destruct (renormalize m2 e' Hg2) as (m3 & e3 & Er & Hg3 & Ev).
  exists m3, e3. split; [exact Hg3|]. split.
  { subst z. unfold binary_round_aux. rewrite Es. fold m2. rewrite Er. reflexivity. }
  assert (x * bp e == x * bp (e - e') * bp e') as Ex.
  { rewrite <- Qmult_assoc, <- bp_plus. replace (e - e' + e')%Z with e by lia. reflexivity. }
  intros G k HG Hk. rewrite Ex, Ev. clear Ex.
  set (x' := x * bp (e - e')) in *. clearbody x'. pose proof (bp_pos e') as Hpe.
  destruct (Z.le_gt_cases e' k) as [Hle|Hgt].
  - rewrite (bp_shift G k e' Hle). set (i := (G * 2 ^ (k - e'))%Z).
    pose proof (rne_spec mrs x' i Hrep) as (_ & Hup & Hdn). fold m2 in Hup, Hdn.
    split; intros H.
    + assert (x' <= inject_Z i) as Hx by nra.
      specialize (Hup Hx). rewrite Zle_Qle in Hup. nra.
    + assert (inject_Z i <= x') as Hx by nra.
      specialize (Hdn Hx). rewrite Zle_Qle in Hdn. nra.
  - pose proof (grid_lt_bp G k HG) as Hlt.
    assert (bp (53 + k) <= bp (52 + e')) as Hb by (apply bp_le; lia).
    assert (2 ^ 52 <= shr_m mrs)%Z as Hm' by (apply Hg; lia).
    pose proof (rep_floor _ _ Hrep) as [Hf _].
    pose proof (normal_ge_bp (shr_m mrs) e' Hm') as Hn.
    assert (shr_m mrs <= m2)%Z as Hle by (apply (rne_spec mrs _ 0 Hrep)).
    pose proof (normal_ge_bp m2 e' ltac:(lia)).
    split; intros H0; [exfalso; nra|lra].
Qed.
End Rounding.

(** ** Correct rounding of the operators *)

Section Operators.
#[local] Open Scope Q_scope.

Definition qsign (s : bool) (x : Q) : Q := if s then - x else x.

Lemma rounds_ext z x y : x == y -> rounds z x -> rounds z y.
Proof.
  intros E [Hv H]. split; [exact Hv|]. intros lo hi ? ? Hl Hh.
  rewrite <- E in Hl, Hh. now apply H.
Qed.

Lemma dval_finite s p e : dval (S754_finite s p e) == qsign s (inject_Z (Zpos p) * bp e).
Proof. destruct s; unfold dval, cond_Zopp, qsign; [rewrite inject_Z_opp|]; ring. Qed.

(** Every finite valid double is a signed grid point. *)
Lemma dok_grid d :
  dok d = true ->
  exists G k, (- 2 ^ 53 < G < 2 ^ 53)%Z /\ (-1074 <= k <= 971)%Z /\
    dval d == inject_Z G * bp k.
Proof.
  unfold dok. intros [Hf Hv]%andb_prop. destruct d as [s|s| |s p e]; try discriminate.
  - exists 0%Z, 0%Z. split; [lia|]. split; [lia|reflexivity].
  - unfold dvalid, valid_binary, bounded, canonical_mantissa in Hv.
    apply andb_prop in Hv as [Hc He].
    apply Z.eqb_eq in Hc. apply Z.leb_le in He. rewrite fexp_eq in Hc.
    change (demax - dprec)%Z with 971%Z in He.
    change (Zpos (digits2_pos p)) with (Zdigits2 (Zpos p)) in Hc.
    pose proof (digits2_bounds (Zpos p) ltac:(lia)) as [[_ Hhi] Hd].
    assert (2 ^ Zdigits2 (Zpos p) <= 2 ^ 53)%Z by (apply Z.pow_le_mono_r; lia).
    exists (cond_Zopp s (Zpos p)), e.
    split; [destruct s; simpl cond_Zopp; lia|]. split; [lia|reflexivity].
Qed.

Lemma inject_Z_nonneg n : (0 <= n)%Z -> 0 <= inject_Z n.
Proof. rewrite Zle_Qle. easy. Qed.

Lemma dopp_val x : dval (dopp x) == - dval x.
Proof.
  destruct x as [| | |s p e]; try reflexivity. cbn [dopp SFopp].
  rewrite !dval_finite. destruct s; cbn [negb qsign]; ring.
Qed.

Lemma dopp_ok x : dok (dopp x) = dok x.
Proof. destruct x as [| | |[] p e]; reflexivity. Qed.

Lemma dopp_valid x : dvalid (dopp x) = dvalid x.
Proof. destruct x as [| | |[] p e]; reflexivity. Qed.

Lemma dopp_finite x : dfinite (dopp x) = dfinite x.
Proof. destruct x as [| | |[] p e]; reflexivity. Qed.

Lemma rounds_opp z x : rounds z x -> rounds (dopp z) (- x).
Proof.
  intros [Hv H]. split; [now rewrite dopp_valid|]. intros lo hi Hlo Hhi Hl Hh.
  destruct (H (dopp hi) (dopp lo)) as (Hf & H1 & H2);
    rewrite ?dopp_ok; try assumption; rewrite ?dopp_val in *; try lra.
  rewrite dopp_finite. split; [exact Hf|]. lra.
Qed.

Lemma round_aux_opp m e l :
  binary_round_aux dprec demax true m e l = dopp (binary_round_aux dprec demax false m e l).
Proof.
  unfold binary_round_aux. destruct (shr_fexp _ _ m e l) as [mrs e1].
  destruct (shr_fexp _ _ _ e1 _) as [mrs2 e2].
  destruct (shr_m mrs2); try reflexivity. now destruct (e2 <=? _)%Z.
Qed.

Lemma round_aux_rounds_pos m e l x :
  (0 <= m)%Z -> (e <= fexp dprec demax (Zdigits2 m + e))%Z ->
  rep (shr_record_of_loc m l) x -> 0 <= x ->
  rounds (binary_round_aux dprec demax false m e l) (x * bp e).
Proof.
  intros Hm He Hr Hx0.
  destruct (round_aux_spec false m e l x Hm He Hr) as (m3 & e3 & Hg & Ez & Hb).
  assert (0 <= x * bp e) as Hxe by (pose proof (bp_pos e); nra).
  rewrite Ez. set (v := inject_Z m3 * bp e3) in *.
  set (z := match m3 with Z0 => _ | _ => _ end).
  assert (0 <= v) as Hv0.
  { pose proof (inject_Z_nonneg m3 ltac:(apply Hg)). pose proof (bp_pos e3). subst v. nra. }
  assert ((e3 <= 971)%Z -> dfinite z = true /\ dval z == v) as Hfin.
  { intros Hle. subst z v. destruct m3 as [|p|p]; [| |destruct Hg; lia].
    - split; [reflexivity|]. simpl. ring.
    - rewrite (proj2 (Z.leb_le _ _) Hle). split; [reflexivity|apply dval_finite]. }
  split.
  - subst z. destruct m3 as [|p|p]; [reflexivity| |reflexivity].
    destruct (Z.leb_spec e3 971); [|reflexivity].
    unfold dvalid. simpl. now apply on_grid_bounded.
  - intros lo hi Hlo Hhi Hl Hh.
    destruct (dok_grid lo Hlo) as (Gl & kl & HGl & Hkl & El).
    destruct (dok_grid hi Hhi) as (Gh & kh & HGh & Hkh & Eh).
    rewrite El in Hl |- *. rewrite Eh in Hh |- *. clear El Eh.
    pose proof (bp_pos kl) as Pl. pose proof (bp_pos kh) as Ph.
    assert (0 <= Gh)%Z as Hs.
    { rewrite Zle_Qle. change (inject_Z 0) with 0. nra. }
    apply (Hb Gh kh ltac:(lia) ltac:(lia)) in Hh.
    assert (e3 <= 971)%Z as Hle.
    { destruct (Z.le_gt_cases e3 971) as [|Hgt]; [easy|exfalso].
      pose proof (grid_lt_bp Gh kh ltac:(lia)).
      pose proof (normal_ge_bp m3 e3 ltac:(apply Hg; lia)).
      assert (bp (53 + kh) <= bp (52 + e3)) by (apply bp_le; lia). subst v. lra. }
    destruct (Hfin Hle) as [-> ->]. split; [easy|]. split; [|exact Hh].
    destruct (Z.le_gt_cases 0 Gl) as [Hpos|Hneg].
    + apply (Hb Gl kl ltac:(lia) ltac:(lia)) in Hl. exact Hl.
    + pose proof (inject_Z_nonneg (- Gl) ltac:(lia)) as Hn.
      rewrite inject_Z_opp in Hn. nra.
Qed.

(** The signed result [binary_round_aux] delivers. *)
Lemma round_aux_rounds sx m e l x :
  (0 <= m)%Z -> (e <= fexp dprec demax (Zdigits2 m + e))%Z ->
  rep (shr_record_of_loc m l) x ->
  rounds (binary_round_aux dprec demax sx m e l) (qsign sx (x * bp e)).
Proof.
  intros Hm He Hr.
  assert (0 <= x) as Hx0.
  { pose proof (rep_floor _ _ Hr) as [H0 _].
    assert (shr_m (shr_record_of_loc m l) = m) as Em by (destruct l as [|[]]; reflexivity).
    rewrite Em in H0. pose proof (inject_Z_nonneg m Hm). lra. }
  pose proof (round_aux_rounds_pos m e l x Hm He Hr Hx0).
  destruct sx; [rewrite round_aux_opp; now apply rounds_opp|assumption].
Qed.

Lemma dok_finite x : dok x = true -> dfinite x = true.
Proof. unfold dok. now intros [? _]%andb_prop. Qed.

Lemma dok_intro x : dfinite x = true -> dvalid x = true -> dok x = true.
Proof. intros. unfold dok. now apply andb_true_intro. Qed.

Lemma dok_valid x : dok x = true -> dvalid x = true.
Proof. unfold dok. now intros [_ ?]%andb_prop. Qed.

Lemma rounds_self x : dok x = true -> rounds x (dval x).
Proof.
  intros Hx. split; [now apply dok_valid|].
  intros lo hi _ _ Hl Hh. split; [now apply dok_finite|]. now split.
Qed.

Lemma shl_align_spec m e e' :
  snd (shl_align m e e') = Z.min e e' /\
  Zpos (fst (shl_align m e e')) = (Zpos m * 2 ^ (e - Z.min e e'))%Z.
Proof.
  unfold shl_align. destruct (e' - e)%Z as [|d|d] eqn:Ed; cbn [fst snd].
  1,2: replace (Z.min e e') with e by lia; rewrite Z.sub_diag; lia.
  split; [lia|]. replace (e - Z.min e e')%Z with (Zpos d) by lia.
  rewrite <- Pos2Z.inj_pow. clear. induction d using Pos.peano_ind.
  - simpl. lia.
  - rewrite Pos.iter_succ, Pos.pow_succ_r. lia.
Qed.

Lemma binary_round_rounds s m e :
  rounds (binary_round dprec demax s m e) (qsign s (inject_Z (Zpos m) * bp e)).
Proof.
  unfold binary_round. set (e' := fexp _ _ _).
  destruct (shl_align_spec m e e') as [H1 H2].
  destruct (shl_align m e e') as [mz ez]. cbn [fst snd] in *.
  eapply rounds_ext; [|apply (round_aux_rounds s (Zpos mz) ez loc_Exact (inject_Z (Zpos mz)))];
    [|lia| |reflexivity].
  - assert (inject_Z (Zpos m) * bp e == inject_Z (Zpos mz) * bp ez) as E.
    { rewrite H2, H1. apply bp_shift. lia. }
    destruct s; unfold qsign; rewrite E; reflexivity.
  - subst ez. rewrite fexp_eq. change (Zpos (digits2_pos m)) with (Zdigits2 (Zpos m)) in e'.
    assert (e' = Z.max (Zdigits2 (Zpos m) + e - 53) (-1074)) as Ee by reflexivity.
    clearbody e'. pose proof (digits2_bounds (Zpos m) ltac:(lia)) as [Hd Hd0].
    assert (Zdigits2 (Zpos mz) = Zdigits2 (Zpos m) + (e - Z.min e e'))%Z as ->; [|lia].
    apply Zdigits2_unique; [lia|]. rewrite H2.
    replace (Zdigits2 (Zpos m) + (e - Z.min e e') - 1)%Z
      with ((Zdigits2 (Zpos m) - 1) + (e - Z.min e e'))%Z by lia.
    rewrite !Z.pow_add_r by lia.
    pose proof (Z.pow_pos_nonneg 2 (e - Z.min e e')). nia.
Qed.

Lemma binary_normalize_rounds m e s :
  rounds (binary_normalize dprec demax m e s) (inject_Z m * bp e).
Proof.
  destruct m as [|p|p]; cbn [binary_normalize].
  - eapply rounds_ext; [|apply (rounds_self (S754_zero s)); reflexivity].
    change (inject_Z 0) with 0. simpl dval. ring.
  - apply (binary_round_rounds false p e).
  - eapply rounds_ext; [|apply (binary_round_rounds true p e)].
    unfold qsign. change (Zneg p) with (- Zpos p)%Z. rewrite inject_Z_opp. ring.
Qed.

Lemma d_of_Z_rounds z : rounds (d_of_Z z) (inject_Z z).
Proof.
  eapply rounds_ext; [|apply binary_normalize_rounds]. rewrite bp_0. ring.
Qed.

Lemma dval_align s m e e' :
  (e' <= e)%Z ->
  inject_Z (cond_Zopp s (Zpos (fst (shl_align m e e')))) * bp e' == dval (S754_finite s m e).
Proof.
  intros He. destruct (shl_align_spec m e e') as [_ ->].
  rewrite dval_finite. replace (Z.min e e') with e' by lia.
  destruct s; unfold cond_Zopp, qsign; rewrite ?inject_Z_opp, (bp_shift (Zpos m) e e') by lia; ring.
Qed.

(** Addition and subtraction round the exact sum and difference. *)
Lemma dadd_rounds x y :
  dok x = true -> dok y = true -> rounds (dadd x y) (dval x + dval y).
Proof.
  intros Hx Hy.
  destruct x as [sx|sx| |sx mx ex]; try discriminate;
    destruct y as [sy|sy| |sy my ey]; try discriminate.
  - eapply rounds_ext; [|apply (rounds_self (dadd (S754_zero sx) (S754_zero sy)))];
      destruct sx, sy; reflexivity.
  - eapply rounds_ext; [|apply rounds_self; exact Hy]. simpl dval. ring.
  - eapply rounds_ext; [|apply rounds_self; exact Hx]. simpl dval. ring.
  - unfold dadd, SFadd. eapply rounds_ext; [|apply binary_normalize_rounds].
    rewrite inject_Z_plus, Qmult_plus_distr_l, !dval_align by lia. reflexivity.
Qed.

Lemma dsub_rounds x y :
  dok x = true -> dok y = true -> rounds (dsub x y) (dval x - dval y).
Proof.
  intros Hx Hy.
  destruct x as [sx|sx| |sx mx ex]; try discriminate;
    destruct y as [sy|sy| |sy my ey]; try discriminate.
  - eapply rounds_ext; [|apply (rounds_self (dsub (S754_zero sx) (S754_zero sy)))];
      destruct sx, sy; reflexivity.
  - change (dsub (S754_zero sx) (S754_finite sy my ey)) with (dopp (S754_finite sy my ey)).
    eapply rounds_ext; [|apply rounds_opp, rounds_self; exact Hy].
    simpl (dval (S754_zero _)). ring.
  - eapply rounds_ext; [|apply rounds_self; exact Hx]. simpl dval. ring.
  - unfold dsub, SFsub. eapply rounds_ext; [|apply binary_normalize_rounds].
    unfold Z.sub, Qminus.
    rewrite inject_Z_plus, inject_Z_opp, Qmult_plus_distr_l, dval_align by lia.
    assert (forall a b : Q, - a * b == - (a * b)) as -> by (intros; ring).
    rewrite dval_align by lia. reflexivity.
Qed.

Lemma dok_canonical s m e :
  dok (S754_finite s m e) = true ->
  e = Z.max (Zdigits2 (Zpos m) + e - 53) (-1074) /\ (e <= 971)%Z.
Proof.
  intros [_ Hv]%andb_prop. unfold dvalid, valid_binary, bounded, canonical_mantissa in Hv.
  apply andb_prop in Hv as [Hc He]. apply Z.eqb_eq in Hc. apply Z.leb_le in He.
  split; [|exact He]. symmetry. exact Hc.
Qed.

Lemma Zdigits2_mul m n :
  (0 < m)%Z -> (0 < n)%Z -> (Zdigits2 m + Zdigits2 n - 1 <= Zdigits2 (m * n))%Z.
Proof.
  intros Hm Hn. destruct (digits2_bounds m Hm) as [[H1 _] ?].
  destruct (digits2_bounds n Hn) as [[H2 _] ?].
  destruct (digits2_bounds (m * n) ltac:(nia)) as [[_ H3] ?].
  assert (Zdigits2 m - 1 + (Zdigits2 n - 1) < Zdigits2 (m * n))%Z; [|lia].
  apply (Z.pow_lt_mono_r_iff 2); [lia|lia|]. rewrite Z.pow_add_r by lia. nia.
Qed.

(** Multiplication rounds the exact product. *)
Lemma dmul_rounds x y :
  dok x = true -> dok y = true -> rounds (dmul x y) (dval x * dval y).
Proof.
  intros Hx Hy.
  destruct x as [sx|sx| |sx mx ex]; try discriminate;
    destruct y as [sy|sy| |sy my ey]; try discriminate.
  1-3: (eapply rounds_ext; [|apply (rounds_self (S754_zero (xorb sx sy))); reflexivity]);
    simpl dval; ring.
  destruct (dok_canonical _ _ _ Hx) as [Ex _]. destruct (dok_canonical _ _ _ Hy) as [Ey _].
  unfold dmul, SFmul.
  eapply rounds_ext; [|apply (round_aux_rounds _ _ _ _ (inject_Z (Zpos (mx * my))))];
    [|lia| |reflexivity].
  - rewrite !dval_finite, Pos2Z.inj_mul.
    destruct sx, sy; cbn [qsign xorb]; rewrite bp_plus, inject_Z_mult; ring.
  - rewrite fexp_eq. rewrite Pos2Z.inj_mul.
    pose proof (Zdigits2_mul (Zpos mx) (Zpos my) ltac:(lia) ltac:(lia)).
    pose proof (digits2_bounds (Zpos mx) ltac:(lia)).
    pose proof (digits2_bounds (Zpos my) ltac:(lia)). lia.
Qed.

(** The location of a quotient between two integers. *)
Lemma new_location_rep q r n :
  (0 < n)%Z -> (0 <= r < n)%Z ->
  rep (shr_record_of_loc q (new_location n r)) (inject_Z q + inject_Z r / inject_Z n).
Proof.
  intros Hn Hr. assert (0 < inject_Z n) as Hn' by (rewrite Zlt_Qlt in Hn; exact Hn).
  set (f := inject_Z r / inject_Z n).
  assert (f * inject_Z n == inject_Z r) as Ef by (unfold f; field; lra).
  assert (0 <= inject_Z r) as Hr0 by (apply inject_Z_nonneg; lia).
  pose proof (proj2 Hr) as Hrn. rewrite Zlt_Qlt in Hrn.
  clearbody f.
  assert (forall a b, a * inject_Z n < b * inject_Z n -> a < b) as Hs
    by (intros a b; apply (Qmult_lt_r a b (inject_Z n) Hn')).
  assert (f < 1) by (apply Hs; lra).
  unfold new_location, new_location_even, new_location_odd.
  destruct (Z.eqb_spec r 0) as [->|Hr1].
  { change (inject_Z 0) with 0 in *.
    assert (f == 0) by (apply (Qmult_inj_r f 0 (inject_Z n)); [intro|]; lra).
    destruct (Z.even n); unfold rep; simpl; lra. }
  assert (0 < inject_Z r) by (change 0 with (inject_Z 0); rewrite <- Zlt_Qlt; lia).
  assert (0 < f) by (apply Hs; lra).
  assert (inject_Z (2 * r) == 2 * inject_Z r) as E2 by (rewrite inject_Z_mult; reflexivity).
  assert ((2 * r < n)%Z -> f < 1#2) as Hlt.
  { rewrite Zlt_Qlt. intros. apply Hs. lra. }
  assert ((n < 2 * r)%Z -> (1#2) < f) as Hgt.
  { rewrite Zlt_Qlt. intros. apply Hs. lra. }
  assert ((2 * r = n)%Z -> f == 1#2) as Heq.
  { intros <-. apply (Qmult_inj_r f (1#2) (inject_Z (2 * r))); [intro|]; lra. }
  apply Z.eqb_neq in Hr1. destruct (Z.even n) eqn:Ev; rewrite Hr1.
  - destruct (Z.compare_spec (2 * r) n); unfold rep; simpl;
      [pose proof (Heq ltac:(assumption)); lra|pose proof (Hlt ltac:(lia)); lra|
       pose proof (Hgt ltac:(lia)); lra].
  - assert (2 * r <> n)%Z.
    { intros <-. rewrite Z.even_mul in Ev. discriminate. }
    destruct (Z.compare_spec (2 * r + 1) n); unfold rep; simpl;
      [pose proof (Hlt ltac:(lia)); lra|pose proof (Hlt ltac:(lia)); lra|
       pose proof (Hgt ltac:(lia)); lra].
Qed.

Lemma Zdigits2_ge q k : (2 ^ (k - 1) <= q)%Z -> (0 < k)%Z -> (k <= Zdigits2 q)%Z.
Proof.
  intros Hq Hk. pose proof (Z.pow_pos_nonneg 2 (k - 1)).
  destruct (digits2_bounds q ltac:(lia)) as [[_ H1] H2].
  assert (k - 1 < Zdigits2 q)%Z; [|lia]. apply (Z.pow_lt_mono_r_iff 2); lia.
Qed.

(** The quotient is computed with enough digits. *)
Lemma Zdigits2_quot m n q r :
  (0 < m)%Z -> (0 < n)%Z -> (m = n * q + r)%Z -> (0 <= r < n)%Z ->
  (0 <= q)%Z /\ (Zdigits2 m - Zdigits2 n <= Zdigits2 q)%Z.
Proof.
  intros Hm Hn E Hr. assert (0 <= q)%Z as Hq by nia. split; [exact Hq|].
  destruct (digits2_bounds m Hm) as [[Hm1 _] _].
  destruct (digits2_bounds n Hn) as [[_ Hn2] Hn0].
  destruct (Z.le_gt_cases (Zdigits2 m - Zdigits2 n) 0) as [|Hk];
    [pose proof (Zdigits2_0 q Hq); lia|].
  apply Zdigits2_ge; [|lia].
  replace (Zdigits2 m - 1)%Z
    with ((Zdigits2 m - Zdigits2 n - 1) + Zdigits2 n)%Z in Hm1 by lia.
  rewrite Z.pow_add_r in Hm1 by lia.
  set (a := (2 ^ (Zdigits2 m - Zdigits2 n - 1))%Z) in *.
  destruct (Z.le_gt_cases a q); [assumption|]. nia.
Qed.

Lemma Zdigits2_shift m k :
  (0 < m)%Z -> (0 <= k)%Z -> Zdigits2 (m * 2 ^ k) = (Zdigits2 m + k)%Z.
Proof.
  intros Hm Hk. destruct (digits2_bounds m Hm) as [[H1 H2] H3].
  pose proof (Z.pow_pos_nonneg 2 k). apply Zdigits2_unique; [lia|].
  replace (Zdigits2 m + k - 1)%Z with (Zdigits2 m - 1 + k)%Z by lia.
  rewrite !Z.pow_add_r by lia. nia.
Qed.

Lemma div_core_spec m1 e1 m2 e2 :
  (0 < m1)%Z -> (0 < m2)%Z ->
  let '(q, e, l) := SFdiv_core_binary dprec demax m1 e1 m2 e2 in
  exists x, (0 <= q)%Z /\ (e <= fexp dprec demax (Zdigits2 q + e))%Z /\
    rep (shr_record_of_loc q l) x /\
    x * bp e == inject_Z m1 * bp e1 / (inject_Z m2 * bp e2).
Proof.
  intros H1 H2. unfold SFdiv_core_binary.
  set (e' := Z.min _ (e1 - e2)).
  assert (e' <= Z.max (Zdigits2 m1 + e1 - (Zdigits2 m2 + e2) - 53) (-1074) /\
          e' <= e1 - e2)%Z as [He He'] by (subst e'; rewrite fexp_eq; lia).
  clearbody e'. set (s := (e1 - e2 - e')%Z).
  assert (0 <= s)%Z as Hs by lia.
  set (m' := match s with Z0 => _ | _ => _ end).
  assert (m' = m1 * 2 ^ s)%Z as Em.
  { subst m'. destruct s as [|p|p]; [lia|now rewrite Z.shiftl_mul_pow2|lia]. }
  clearbody m'. pose proof (Z.pow_pos_nonneg 2 s).
  pose proof (Z_div_mod m' m2 ltac:(lia)) as Hdm.
  destruct (Z.div_eucl m' m2) as [q r]. destruct Hdm as [Eq Hr].
  destruct (Zdigits2_quot m' m2 q r ltac:(nia) H2 Eq Hr) as [Hq Hd].
  exists (inject_Z q + inject_Z r / inject_Z m2). split; [exact Hq|]. split; [|split].
  - rewrite Em, Zdigits2_shift in Hd by lia. rewrite fexp_eq. subst s. lia.
  - apply new_location_rep; assumption.
  - assert (0 < inject_Z m2) by (rewrite Zlt_Qlt in H2; exact H2).
    pose proof (bp_pos e2). pose proof (bp_pos e').
    assert (inject_Z m1 * bp e1 == inject_Z m' * bp e2 * bp e') as ->.
    { rewrite Em, inject_Z_mult, <- (bp_nonneg_Z s) by lia.
      replace e1 with (s + e2 + e')%Z at 1 by (subst s; lia). rewrite !bp_plus. ring. }
    rewrite Eq, inject_Z_plus, inject_Z_mult. field. lra.
Qed.

(** Division by a nonzero number rounds the exact quotient. *)
Lemma ddiv_rounds x y :
  dok x = true -> dok y = true -> ~ dval y == 0 -> rounds (ddiv x y) (dval x / dval y).
Proof.
  intros Hx Hy Hy0.
  destruct x as [sx|sx| |sx mx ex]; try discriminate;
    destruct y as [sy|sy| |sy my ey]; try discriminate; try (now contradict Hy0).
  - eapply rounds_ext; [|apply (rounds_self (S754_zero (xorb sx sy))); reflexivity].
    simpl (dval (S754_zero _)). field. exact Hy0.
  - unfold ddiv, SFdiv.
    pose proof (div_core_spec (Zpos mx) ex (Zpos my) ey ltac:(lia) ltac:(lia)) as Hd.
    destruct (SFdiv_core_binary _ _ _ _ _ _) as [[q e] l].
    destruct Hd as (x & Hq & He & Hr & Ev).
    eapply rounds_ext; [|apply (round_aux_rounds _ q e l x Hq He Hr)].
    rewrite !dval_finite. rewrite dval_finite in Hy0.
    set (a := inject_Z (Zpos mx) * bp ex) in *.
    set (b := inject_Z (Zpos my) * bp ey) in *. clearbody a b.
    assert (~ b == 0) by (intros E; apply Hy0; destruct sy; cbn [qsign]; lra).
    destruct sx, sy; cbn [qsign xorb] in *; rewrite Ev; field;
      repeat split; assumption.
Qed.

(** ** Comparisons *)

Lemma mag_lt m1 e1 m2 e2 s1 s2 :
  dok (S754_finite s1 m1 e1) = true -> dok (S754_finite s2 m2 e2) = true -> (e1 < e2)%Z ->
  inject_Z (Zpos m1) * bp e1 < inject_Z (Zpos m2) * bp e2.
Proof.
  intros H1 H2 He. destruct (dok_canonical _ _ _ H1) as [E1 _].
  destruct (dok_canonical _ _ _ H2) as [E2 _].
  destruct (digits2_bounds (Zpos m1) ltac:(lia)) as [[_ Hd1] _].
  destruct (digits2_bounds (Zpos m2) ltac:(lia)) as [[Hd2 _] _].
  assert (Zdigits2 (Zpos m1) <= 53)%Z by lia.
  assert (Zdigits2 (Zpos m2) = 53)%Z as E53 by lia. rewrite E53 in Hd2.
  assert (2 ^ Zdigits2 (Zpos m1) <= 2 ^ 53)%Z by (apply Z.pow_le_mono_r; lia).
  pose proof (grid_lt_bp (Zpos m1) e1 ltac:(lia)).
  pose proof (normal_ge_bp (Zpos m2) e2 Hd2).
  assert (bp (53 + e1) <= bp (52 + e2)) by (apply bp_le; lia). lra.
Qed.

Lemma mag_pos m e : 0 < inject_Z (Zpos m) * bp e.
Proof.
  pose proof (bp_pos e). assert (0 < inject_Z (Zpos m)) by reflexivity. nra.
Qed.

Lemma mag_compare s1 m1 e1 s2 m2 e2 :
  dok (S754_finite s1 m1 e1) = true -> dok (S754_finite s2 m2 e2) = true ->
  match Z.compare e1 e2 with Lt => Lt | Gt => Gt | Eq => Pos.compare_cont Eq m1 m2 end =
  Qcompare (inject_Z (Zpos m1) * bp e1) (inject_Z (Zpos m2) * bp e2).
Proof.
  intros H1 H2. symmetry. destruct (Z.compare_spec e1 e2) as [->|Hlt|Hgt].
  - change (Pos.compare_cont Eq m1 m2) with (Pos.compare m1 m2).
    pose proof (bp_pos e2). change (Pos.compare m1 m2) with (Z.compare (Zpos m1) (Zpos m2)).
    destruct (Z.compare_spec (Zpos m1) (Zpos m2)) as [E|Hl|Hl].
    + injection E as ->. rewrite <- Qeq_alt. reflexivity.
    + rewrite Zlt_Qlt in Hl. rewrite <- Qlt_alt. now apply Qmult_lt_r.
    + rewrite Zlt_Qlt in Hl. rewrite <- Qgt_alt. now apply Qmult_lt_r.
  - rewrite <- Qlt_alt. now apply (mag_lt m1 e1 m2 e2 s1 s2).
  - rewrite <- Qgt_alt. now apply (mag_lt m2 e2 m1 e1 s2 s1).
Qed.

Lemma Qcompare_opp a b : Qcompare (- a) (- b) = CompOpp (Qcompare a b).
Proof.
  destruct (Qcompare_spec a b); cbn [CompOpp]; [rewrite <- Qeq_alt|rewrite <- Qgt_alt|rewrite <- Qlt_alt]; lra.
Qed.

(** On finite valid numbers the comparison is that of the rationals. *)
Lemma dcompare_spec x y :
  dok x = true -> dok y = true -> SFcompare x y = Some (Qcompare (dval x) (dval y)).
Proof.
  intros Hx Hy.
  destruct x as [sx|sx| |sx mx ex]; try discriminate;
    destruct y as [sy|sy| |sy my ey]; try discriminate; cbn [SFcompare]; f_equal.
  - symmetry. rewrite dval_finite. simpl dval. pose proof (mag_pos my ey).
    destruct sy; cbn [qsign]; [rewrite <- Qgt_alt|rewrite <- Qlt_alt]; lra.
  - symmetry. rewrite dval_finite. simpl (dval (S754_zero _)). pose proof (mag_pos mx ex).
    destruct sx; cbn [qsign]; [rewrite <- Qlt_alt|rewrite <- Qgt_alt]; lra.
  - rewrite !dval_finite. pose proof (mag_pos my ey). pose proof (mag_pos mx ex).
    pose proof (mag_compare _ _ _ _ _ _ Hx Hy) as Hc.
    destruct sx, sy; cbn [qsign].
    + rewrite Qcompare_opp, <- Hc. now destruct (Z.compare ex ey).
    + symmetry. rewrite <- Qlt_alt. lra.
    + symmetry. rewrite <- Qgt_alt. lra.
    + exact Hc.
Qed.

Lemma dltb_spec x y :
  dok x = true -> dok y = true -> (dltb x y = true <-> dval x < dval y).
Proof.
  intros Hx Hy. unfold dltb, SFltb. rewrite dcompare_spec, Qlt_alt by assumption.
  destruct (Qcompare _ _); easy.
Qed.

Lemma dleb_spec x y :
  dok x = true -> dok y = true -> (dleb x y = true <-> dval x <= dval y).
Proof.
  intros Hx Hy. unfold dleb, SFleb. rewrite dcompare_spec, Qle_alt by assumption.
  destruct (Qcompare _ _); easy.
Qed.
End Operators.

(** A result between two known doubles, in the form the clients use. *)
Lemma rounds_between z x lo hi :
  rounds z x -> dok lo = true -> dok hi = true ->
  (dval lo <= x)%Q -> (x <= dval hi)%Q ->
  dok z = true /\ (dval lo <= dval z)%Q /\ (dval z <= dval hi)%Q.
Proof.
  intros [Hv H] Hlo Hhi H1 H2. destruct (H lo hi Hlo Hhi H1 H2) as (Hf & Hb).
  split; [now apply dok_intro|exact Hb].
Qed.

(** The same with the bounds' rational values named. *)
Lemma rounds_in z x lo hi ql qh :
  rounds z x -> dok lo = true -> dok hi = true ->
  (dval lo == ql)%Q -> (dval hi == qh)%Q -> (ql <= x)%Q -> (x <= qh)%Q ->
  dok z = true /\ (ql <= dval z)%Q /\ (dval z <= qh)%Q.
Proof.
  intros Hr Hlo Hhi E1 E2 H1 H2. rewrite <- E1, <- E2 in *.
  exact (rounds_between z x lo hi Hr Hlo Hhi H1 H2).
Qed.

Lemma dval_d0 : (dval d0 == 0)%Q.
Proof. reflexivity. Qed.

Lemma dval_d1 : (dval d1 == 1)%Q.
Proof. reflexivity. Qed.

(** A representable result is exact. *)
Lemma rounds_exact z f :
  rounds z (dval f) -> dok f = true -> dok z = true /\ (dval z == dval f)%Q.
Proof.
  intros Hr Hf.
  destruct (rounds_between z _ f f Hr Hf Hf) as (Hz & H1 & H2); [apply Qle_refl..|].
  split; [exact Hz|]. apply Qle_antisym; assumption.
Qed.

(** Integers below [2^53], and their fractions by a power of two, are exact. *)
Lemma pos_dyadic_double z e :
  (0 < z < 2 ^ 53)%Z -> (0 <= e <= 1000)%Z ->
  exists f, dok f = true /\ (dval f == inject_Z z * bp (- e))%Q.
Proof.
  intros Hz He. destruct (digits2_bounds z ltac:(lia)) as [[H1 H2] H3].
  assert (Zdigits2 z - 1 < 53)%Z by (apply (Z.pow_lt_mono_r_iff 2); lia).
  set (k := (53 - Zdigits2 z)%Z). assert (0 <= k)%Z by lia.
  pose proof (Z.pow_pos_nonneg 2 k).
  assert (2 ^ (53 - 1) <= z * 2 ^ k < 2 ^ 53)%Z as Hm.
  { replace (53 - 1)%Z with (Zdigits2 z - 1 + k)%Z by lia.
    replace 53%Z with (Zdigits2 z + k)%Z by lia. rewrite !Z.pow_add_r by lia. nia. }
  exists (S754_finite false (Z.to_pos (z * 2 ^ k)) (- k - e)). split.
  - apply dok_intro; [reflexivity|]. apply on_grid_bounded; [|lia].
    unfold on_grid. rewrite Z2Pos.id by lia. lia.
  - rewrite dval_finite. cbn [qsign]. rewrite Z2Pos.id by lia.
    rewrite inject_Z_mult, <- bp_nonneg_Z, <- Qmult_assoc, <- bp_plus by lia.
    replace (k + (- k - e))%Z with (- e)%Z by lia. reflexivity.
Qed.

Lemma dyadic_double z e :
  (- 2 ^ 53 < z < 2 ^ 53)%Z -> (0 <= e <= 1000)%Z ->
  exists f, dok f = true /\ (dval f == inject_Z z * bp (- e))%Q.
Proof.
  intros Hz He. destruct (Z.lt_trichotomy z 0) as [Hn|[->|Hp]].
  - destruct (pos_dyadic_double (- z) e) as (f & Hf & Ef); [lia..|].
    exists (dopp f). rewrite dopp_ok, dopp_val, Ef, inject_Z_opp. split; [exact Hf|ring].
  - exists d0. split; [reflexivity|]. rewrite dval_d0. ring.
  - apply pos_dyadic_double; lia.
Qed.

Lemma d_of_Z_exact z :
  (- 2 ^ 53 < z < 2 ^ 53)%Z -> dok (d_of_Z z) = true /\ (dval (d_of_Z z) == inject_Z z)%Q.
Proof.
  intros Hz. pose proof (d_of_Z_rounds z) as Hr.
  destruct (dyadic_double z 0 ltac:(lia) ltac:(lia)) as (f & Hf & Ef).
  rewrite Z.opp_0, bp_0, Qmult_1_r in Ef.
  rewrite <- Ef. apply rounds_exact; [|exact Hf].
  apply rounds_ext with (inject_Z z); [now symmetry|exact Hr].
Qed.

(** ** Bit patterns *)

Definition bits_of_double (x : double) : Z :=
  match x with
  | S754_zero s => (if s then 2 ^ 63 else 0)
  | S754_infinity s => (if s then 2 ^ 63 else 0) + 2047 * 2 ^ 52
  | S754_nan => 2047 * 2 ^ 52 + 2 ^ 51
  | S754_finite s m e =>
      (if s then 2 ^ 63 else 0) +
      (if Z.leb (2 ^ 52) (Zpos m) then (e + 1075) * 2 ^ 52 + (Zpos m - 2 ^ 52) else Zpos m)
  end.

Definition double_of_bits (b : Z) : double :=
  let s := Z.leb (2 ^ 63) b in
  let ex := (b / 2 ^ 52) mod 2048 in
  let fr := b mod 2 ^ 52 in
  if Z.eqb ex 0 then
    match fr with Zpos p => S754_finite s p (-1074) | _ => S754_zero s end
  else if Z.eqb ex 2047 then
    (if Z.eqb fr 0 then S754_infinity s else S754_nan)
  else S754_finite s (Z.to_pos (fr + 2 ^ 52)) (ex - 1075).

Lemma dvalid_fields s m e :
  dvalid (S754_finite s m e) = true ->
  (2 ^ 52 <= Zpos m < 2 ^ 53 /\ -1074 <= e <= 971) \/ (Zpos m < 2 ^ 52 /\ e = -1074).
Proof.
  intros Hv. destruct (dok_canonical s m e) as [E H]; [now apply dok_intro|].
  destruct (digits2_bounds (Zpos m) ltac:(lia)) as [[H1 H2] H3].
  destruct (Z.eq_dec (Zdigits2 (Zpos m)) 53) as [E3|]; [rewrite E3 in *; left; lia|].
  right. split; [|lia].
  assert (2 ^ Zdigits2 (Zpos m) <= 2 ^ 52) by (apply Z.pow_le_mono_r; lia). lia.
Qed.

Lemma bits_of_double_range x : dvalid x = true -> 0 <= bits_of_double x < 2 ^ 64.
Proof.
  destruct x as [[]|[]| |s m e]; intros Hv; [vm_compute; split; congruence..|].
  unfold bits_of_double. destruct (dvalid_fields s m e Hv) as [H|H];
    destruct (Z.leb_spec (2 ^ 52) (Zpos m)); destruct s; lia.
Qed.

(** The three fields of an assembled bit pattern. *)
Lemma bits_fields (s : bool) ex fr :
  0 <= ex < 2048 -> 0 <= fr < 2 ^ 52 ->
  let b := (if s then 2 ^ 63 else 0) + (ex * 2 ^ 52 + fr) in
  Z.leb (2 ^ 63) b = s /\ (b / 2 ^ 52) mod 2048 = ex /\ b mod 2 ^ 52 = fr.
Proof.
  intros He Hf b.
  assert (b = ((if s then 2048 else 0) + ex) * 2 ^ 52 + fr) as Eb by (subst b; destruct s; lia).
  split; [|split].
  - subst b. destruct s; [apply Z.leb_le|apply Z.leb_gt]; lia.
  - rewrite Eb, Z.div_add_l, (Z.div_small fr) by lia.
    rewrite Z.add_0_r. destruct s; [|apply Z.mod_small; lia].
    rewrite <- Z.add_mod_idemp_l by lia. apply Z.mod_small. lia.
  - rewrite Eb, Z.add_comm, Z_mod_plus_full. apply Z.mod_small. lia.
Qed.

(** Reading back the written pattern of a valid number gives the number. *)
Lemma double_of_bits_of_double x :
  dvalid x = true -> double_of_bits (bits_of_double x) = x.
Proof.
  destruct x as [[]|[]| |s m e]; intros Hv; try reflexivity.
  unfold bits_of_double. destruct (dvalid_fields s m e Hv) as [[Hm He]|[Hm ->]].
  - rewrite (proj2 (Z.leb_le _ _)) by lia.
    destruct (bits_fields s (e + 1075) (Zpos m - 2 ^ 52)) as (Hs & Hx & Hf); [lia..|].
    unfold double_of_bits. rewrite Hs, Hx, Hf.
    rewrite (proj2 (Z.eqb_neq _ _)), (proj2 (Z.eqb_neq _ _)) by lia.
    f_equal; [|lia]. replace (Zpos m - 2 ^ 52 + 2 ^ 52) with (Zpos m) by lia. reflexivity.
  - rewrite (proj2 (Z.leb_gt _ _)) by lia.
    destruct (bits_fields s 0 (Zpos m)) as (Hs & Hx & Hf); [lia..|].
    replace (0 * 2 ^ 52 + Zpos m) with (Zpos m) in * by lia.
    unfold double_of_bits. rewrite Hs, Hx, Hf. reflexivity.
Qed.

(** What is read from any 64-bit pattern is a valid number. *)
Lemma double_of_bits_valid b : 0 <= b < 2 ^ 64 -> dvalid (double_of_bits b) = true.
Proof.
  intros Hb. unfold double_of_bits.
  pose proof (Z.mod_pos_bound (b / 2 ^ 52) 2048 ltac:(lia)) as He.
  pose proof (Z.mod_pos_bound b (2 ^ 52) ltac:(lia)) as Hf.
  set (ex := (b / 2 ^ 52) mod 2048) in *. set (fr := b mod 2 ^ 52) in *. clearbody ex fr.
  destruct (Z.eqb_spec ex 0) as [->|H0].
  - destruct fr as [|p|p]; try reflexivity.
    apply on_grid_bounded; unfold on_grid; lia.
  - destruct (Z.eqb_spec ex 2047); [now destruct (fr =? 0)|].
    apply on_grid_bounded; [|lia]. unfold on_grid. rewrite Z2Pos.id by lia. lia.
Qed.
