(* ===== verification/Interval.v ===== *)
(** * Interval reasoning on doubles

    [within x lo hi]: [x] is a finite number between two rationals.  Because a
    result never crosses a representable number, an operation keeps its
    operands' intervals as long as the end points are representable. *)

From Stdlib Require Import ZArith QArith Qround Lia Lqa Bool.
From S2P Require Import Double.
#[local] Open Scope Q_scope.

Definition repr (q : Q) : Prop := exists f, dok f = true /\ dval f == q.

Definition within (x : double) (lo hi : Q) : Prop := dok x = true /\ lo <= dval x /\ dval x <= hi.

(** Closes [repr q] for a closed rational with an exact literal. *)
Ltac repr_lit n d := exists (dlit n d); split; vm_compute; reflexivity.

Lemma repr_dval x : dok x = true -> repr (dval x).
Proof. intros H. exists x. split; [exact H|reflexivity]. Qed.

Lemma repr_opp q : repr q -> repr (- q).
Proof. intros (f & H & E). exists (dopp f). rewrite dopp_ok, dopp_val, E. split; [exact H|reflexivity]. Qed.

Lemma repr_ext p q : p == q -> repr p -> repr q.
Proof. intros E (f & H & Ef). exists f. split; [exact H|]. now rewrite Ef. Qed.

Lemma repr_Z z : (- 2 ^ 53 < z < 2 ^ 53)%Z -> repr (inject_Z z).
Proof. intros H. destruct (d_of_Z_exact z H) as [Ho E]. now exists (d_of_Z z). Qed.

Lemma within_ok x lo hi : within x lo hi -> dok x = true.
Proof. now intros [H _]. Qed.

Lemma within_weaken x lo hi lo' hi' :
  within x lo hi -> lo' <= lo -> hi <= hi' -> within x lo' hi'.
Proof. intros (H & H1 & H2) Hl Hh. split; [exact H|]. split; lra. Qed.

Lemma within_self x : dok x = true -> within x (dval x) (dval x).
Proof. intros H. split; [exact H|]. split; lra. Qed.

Lemma within_lit x q : dok x = true -> dval x == q -> within x q q.
Proof. intros H E. split; [exact H|]. rewrite E. split; lra. Qed.

Lemma rounds_within z x lo hi :
  rounds z x -> repr lo -> repr hi -> lo <= x -> x <= hi -> within z lo hi.
Proof.
  intros Hr (f & Hf & Ef) (g & Hg & Eg) H1 H2.
  exact (rounds_in z x f g lo hi Hr Hf Hg Ef Eg H1 H2).
Qed.

Section Ops.
Context (x y : double) (a b c d : Q) (Hx : within x a b) (Hy : within y c d).

Lemma within_add : repr (a + c) -> repr (b + d) -> within (dadd x y) (a + c) (b + d).
Proof using Hx Hy.
  destruct Hx as (Ox & X1 & X2), Hy as (Oy & Y1 & Y2). intros Hl Hh.
  apply (rounds_within _ _ _ _ (dadd_rounds x y Ox Oy)); [exact Hl|exact Hh|lra|lra].
Qed.

Lemma within_sub : repr (a - d) -> repr (b - c) -> within (dsub x y) (a - d) (b - c).
Proof using Hx Hy.
  destruct Hx as (Ox & X1 & X2), Hy as (Oy & Y1 & Y2). intros Hl Hh.
  apply (rounds_within _ _ _ _ (dsub_rounds x y Ox Oy)); [exact Hl|exact Hh|lra|lra].
Qed.
End Ops.

(** A product with a factor in [0, 1] stays between 0 and the other factor. *)
Lemma within_scale_pos x y b :
  within x 0 1 -> within y 0 b -> repr b -> within (dmul x y) 0 b.
Proof.
  intros (Ox & X1 & X2) (Oy & Y1 & Y2) Hb.
  apply (rounds_within _ _ _ _ (dmul_rounds x y Ox Oy)); [exact (repr_Z 0 ltac:(lia))|exact Hb| |].
  - apply Qmult_le_0_compat; assumption.
  - assert (dval x * dval y <= 1 * dval y) by (apply Qmult_le_compat_r; assumption). lra.
Qed.

Lemma within_scale x y a b :
  within x 0 1 -> within y a b -> a <= 0 -> 0 <= b -> within (dmul x y) a b.
Proof.
  intros (Ox & X1 & X2) (Oy & Y1 & Y2) Ha Hb.
  pose proof (dmul_rounds x y Ox Oy) as Hr.
  destruct (Qlt_le_dec (dval y) 0) as [Hn|Hp].
  - eapply within_weaken; [apply (rounds_within _ _ (dval y) 0 Hr)| |].
    + now apply repr_dval.
    + exact (repr_Z 0 ltac:(lia)).
    + assert (dval x * - dval y <= 1 * - dval y) by (apply Qmult_le_compat_r; lra). lra.
    + assert (0 <= dval x * - dval y) by (apply Qmult_le_0_compat; lra). lra.
    + lra.
    + lra.
  - eapply within_weaken; [apply (rounds_within _ _ 0 (dval y) Hr)| |].
    + exact (repr_Z 0 ltac:(lia)).
    + now apply repr_dval.
    + apply Qmult_le_0_compat; lra.
    + assert (dval x * dval y <= 1 * dval y) by (apply Qmult_le_compat_r; lra). lra.
    + lra.
    + lra.
Qed.

(** A quotient by something at least as large stays in [0, 1]. *)
Lemma within_ratio x y :
  dok x = true -> dok y = true -> 0 <= dval x -> dval x <= dval y -> 0 < dval y ->
  within (ddiv x y) 0 1.
Proof.
  intros Ox Oy H0 Hle Hpos. assert (~ dval y == 0) as Hne by lra.
  apply (rounds_within _ _ _ _ (ddiv_rounds x y Ox Oy Hne)).
  - exact (repr_Z 0 ltac:(lia)).
  - exact (repr_Z 1 ltac:(lia)).
  - apply Qle_shift_div_l; [exact Hpos|lra].
  - apply Qle_shift_div_r; [exact Hpos|lra].
Qed.

Lemma within_Z z : (- 2 ^ 53 < z < 2 ^ 53)%Z -> within (d_of_Z z) (inject_Z z) (inject_Z z).
Proof. intros H. destruct (d_of_Z_exact z H) as [Ho E]. now apply within_lit. Qed.

(** The ratio of two counters. *)
Lemma count_ratio m n :
  (0 <= m <= n)%Z -> (0 < n < 2 ^ 53)%Z -> within (ddiv (d_of_Z m) (d_of_Z n)) 0 1.
Proof.
  intros Hm Hn. destruct (d_of_Z_exact m ltac:(lia)) as [Om Em].
  destruct (d_of_Z_exact n ltac:(lia)) as [On En].
  apply within_ratio; try assumption; rewrite ?Em, ?En.
  - change 0 with (inject_Z 0). rewrite <- Zle_Qle. lia.
  - rewrite <- Zle_Qle. lia.
  - change 0 with (inject_Z 0). rewrite <- Zlt_Qlt. lia.
Qed.

(** A clamp written as two comparisons. *)
Lemma clamp_within x s :
  dok x = true -> dok s = true -> 0 <= dval s ->
  within (let r := if dgtb x s then s else x in if dltb r (dopp s) then dopp s else r)
    (- dval s) (dval s).
Proof.
  intros Ox Os Hs. cbv zeta. change (dgtb x s) with (dltb s x).
  assert (dok (if dltb s x then s else x) = true) as Or by now destruct (dltb s x).
  assert (dval (if dltb s x then s else x) <= dval s) as Hr.
  { destruct (dltb s x) eqn:E; [lra|]. apply Qnot_lt_le. intros H.
    apply (dltb_spec s x Os Ox) in H. congruence. }
  set (r := if dltb s x then s else x) in *.
  assert (dok (dopp s) = true) as Oo by now rewrite dopp_ok.
  destruct (dltb r (dopp s)) eqn:E.
  - split; [exact Oo|]. rewrite dopp_val. split; lra.
  - split; [exact Or|]. split; [|exact Hr]. rewrite <- dopp_val. apply Qnot_lt_le. intros H.
    apply (dltb_spec r (dopp s) Or Oo) in H. congruence.
Qed.

(** Moving a value towards a target that lies inside a slightly smaller
    interval: the rounded result stays in the larger one.  The interval is
    [-17/16, 17/16], the targets are in [-33/32, 1]. *)
Lemma step_towards lr old r :
  within lr 0 1 -> within old (- (17 # 16)) (17 # 16) -> within r (- (33 # 32)) 1 ->
  within (dadd old (dmul lr (dsub r old))) (- (17 # 16)) (17 # 16).
Proof.
  intros Hlr Hold Hr. destruct Hold as (Oo & O1 & O2), Hr as (Or & R1 & R2).
  pose proof (dsub_rounds r old Or Oo) as Hs.
  assert (forall k, (- 128 <= k <= 128)%Z -> repr (inject_Z k * (1 # 32))) as Hgrid.
  { intros k Hk. destruct (dyadic_double k 5 ltac:(lia) ltac:(lia)) as (f & Hf & Ef).
    exists f. split; [exact Hf|]. rewrite Ef. reflexivity. }
  set (up := Qceiling ((1 - dval old) * 32)). set (dn := Qfloor ((- (33 # 32) - dval old) * 32)).
  pose proof (Qle_ceiling ((1 - dval old) * 32)) as U1. fold up in U1.
  pose proof (Qceiling_lt ((1 - dval old) * 32)) as U2. fold up in U2.
  pose proof (Qfloor_le ((- (33 # 32) - dval old) * 32)) as D1. fold dn in D1.
  pose proof (Qlt_floor ((- (33 # 32) - dval old) * 32)) as D2. fold dn in D2.
  unfold Z.sub in U2. rewrite inject_Z_plus in U2. rewrite inject_Z_plus in D2.
  change (inject_Z (- (1))) with (-1#1) in U2. change (inject_Z 1) with 1 in D2.
  assert (-128 <= up <= 128)%Z as Bu.
  { split; rewrite Zle_Qle; [change (inject_Z (-128)) with (-128#1)|change (inject_Z 128) with (128#1)];
      lra. }
  assert (-128 <= dn <= 128)%Z as Bd.
  { split; rewrite Zle_Qle; [change (inject_Z (-128)) with (-128#1)|change (inject_Z 128) with (128#1)];
      lra. }
  assert (within (dsub r old) (- (17 # 16) - dval old) ((17 # 16) - dval old)) as Hd.
  { eapply within_weaken; [apply (rounds_within _ _ _ _ Hs (Hgrid dn Bd) (Hgrid up Bu))| |]; lra. }
  assert (within (dmul lr (dsub r old)) (- (17 # 16) - dval old) ((17 # 16) - dval old)) as He
    by (apply within_scale; [exact Hlr|exact Hd|lra|lra]).
  destruct He as (Oe & E1 & E2).
  apply (rounds_within _ _ _ _ (dadd_rounds _ _ Oo Oe)); [|repr_lit 17%Z 16%positive|lra|lra].
  apply repr_opp. repr_lit 17%Z 16%positive.
Qed.
