(* ===== verification/IntMath.v ===== *)
(** * Integer helpers (src/base/intmath.hh)

    [floorLog2], [ceilLog2], [isPowerOf2], [divCeil], [roundUp], [roundDown]
    and the portable double-width multiplications, at the machine width of
    their arguments. *)

From Stdlib Require Import ZArith Lia.
From stdpp Require Import base numbers option strings.
From S2P Require Import Prelude.

(** One conditional of [floorLog2]: [if (en && (ux & mask)) { y += s; ux >>= s; }]. *)
Definition log2_step (en : bool) (msk s : Z) (yu : Z * Z) : Z * Z :=
  let '(y, ux) := yu in
  if en && negb (Z.land ux msk =? 0) then (y + s, Z.shiftr ux s) else (y, ux).

(** [floorLog2<T>] for a type [T] of [ts] bytes. *)
Definition floorLog2 (ts x : Z) : outcome Z :=
  _ ← assert_that (0 <? x) "x > 0";
  let yu := log2_step (8 <=? ts) 0xffffffff00000000 32 (0, x) in
  let yu := log2_step (4 <=? ts) 0x00000000ffff0000 16 yu in
  let yu := log2_step (2 <=? ts) 0x000000000000ff00 8 yu in
  let yu := log2_step true 0x00000000000000f0 4 yu in
  let yu := log2_step true 0x000000000000000c 2 yu in
  let '(y, ux) := yu in
  Ok (if negb (Z.land ux 0x0000000000000002 =? 0) then y + 1 else y).

Definition ceilLog2 (ts n : Z) : outcome Z :=
  _ ← assert_that (0 <? n) "n > 0";
  if n =? 1 then Ok 0 else y ← floorLog2 ts (n - 1); Ok (y + 1).

(** [n && !(n & (n - 1))]. *)
Definition isPowerOf2 (n : Z) : bool :=
  negb (n =? 0) && (Z.land n (n - 1) =? 0).

(** [(a + b - 1) / b] for an unsigned type of [w] bits. *)
Definition divCeil (w a b : Z) : Z := wrap w (a + b - 1) / b.

(** [~x] for an unsigned type of [w] bits. *)
Definition ulnot (w x : Z) : Z := wrap w (Z.lnot x).

Definition roundUp (w val align : Z) : outcome Z :=
  _ ← assert_that (isPowerOf2 align) "isPowerOf2(align)";
  let msk := wrap w (align - 1) in
  Ok (Z.land (wrap w (val + msk)) (ulnot w msk)).

Definition roundDown (w val align : Z) : outcome Z :=
  _ ← assert_that (isPowerOf2 align) "isPowerOf2(align)";
  let msk := wrap w (align - 1) in
  Ok (Z.land val (ulnot w msk)).

(** The portable 64 x 64 multiplication: [(high, low)]. *)
Definition mulUnsignedManual (val_a val_b : Z) : Z * Z :=
  let low := u64 (val_a * val_b) in
  let A := u32 (Z.shiftr val_a 32) in
  let a := u32 val_a in
  let B := u32 (Z.shiftr val_b 32) in
  let b := u32 val_b in
  let ab := u64 (a * b) in
  let Ab := u64 (A * b) in
  let aB := u64 (a * B) in
  let AB := u64 (A * B) in
  let c1 := u32 (Z.shiftr ab 32) in
  let c2 := u64 (Z.shiftr c1 1 + Z.shiftr Ab 1 + Z.shiftr aB 1) in
  let c2 := u64 (c2 + Z.shiftr (Z.land c1 1 + Z.land Ab 1 + Z.land aB 1) 1) in
  let c2 := Z.shiftr c2 31 in
  (u64 (AB + c2), low).

(** The signed variant on top of it; arguments are signed 64-bit values. *)
Definition mulSignedManual (val_a val_b : Z) : Z * Z :=
  let '(u_high, u_low) := mulUnsignedManual (u64 val_a) (u64 val_b) in
  let u_high := if val_a <? 0 then u64 (u_high - val_b) else u_high in
  let u_high := if val_b <? 0 then u64 (u_high - val_a) else u_high in
  (i64 u_high, i64 u_low).

(** ** Powers of two *)

Lemma isPowerOf2_spec n : 0 ≤ n → isPowerOf2 n = true ↔ ∃ k, 0 ≤ k ∧ n = 2 ^ k.
Proof.
  intros Hn. unfold isPowerOf2. split.
  - intros [Hz%negb_true_iff%Z.eqb_neq Hl%Z.eqb_eq]%andb_prop.
    assert (0 < n) as Hp by lia. pose proof (Z.log2_spec n Hp) as [H1 H2].
    pose proof (Z.log2_nonneg n) as H0. pose proof (Z.pow_pos_nonneg 2 (Z.log2 n)).
    exists (Z.log2 n). split; [done|].
    destruct (decide (n = 2 ^ Z.log2 n)) as [|Hne]; [done|exfalso].
    assert (Z.testbit (Z.land n (n - 1)) (Z.log2 n) = true) as Hb; [|by rewrite Hl, Z.bits_0 in Hb].
    rewrite Z.land_spec, Z.bit_log2 by done.
    replace (Z.log2 n) with (Z.log2 (n - 1)); [by apply Z.bit_log2; lia|].
    apply Z.log2_unique; [apply Z.log2_nonneg|lia].
  - intros (k & Hk & ->). pose proof (Z.pow_pos_nonneg 2 k).
    apply andb_true_intro. split; [apply negb_true_iff, Z.eqb_neq; lia|].
    apply Z.eqb_eq. replace (2 ^ k - 1) with (Z.ones k) by (rewrite Z.ones_equiv; lia).
    rewrite Z.land_ones by done. apply Z.mod_same. lia.
Qed.

(** ** Logarithms *)

(** The mask of a step covers bits [s .. 2s-1]; on a value below [2^(2s)] the
    test asks whether the value reaches [2^s]. *)
Lemma log2_step_mask s ux :
  0 < s → 0 ≤ ux < 2 ^ (2 * s) →
  (Z.land ux (Z.shiftl (Z.ones s) s) =? 0) = (ux <? 2 ^ s).
Proof.
  intros Hs Hu. rewrite <-(Z.land_comm (Z.shiftl (Z.ones s) s)).
  assert (Z.land (Z.shiftl (Z.ones s) s) ux = Z.shiftl (Z.shiftr ux s) s) as ->.
  { apply Z.bits_inj'. intros n Hn. rewrite Z.land_spec.
    destruct (decide (n < s)) as [Hlt|Hge].
    { by rewrite !Z.shiftl_spec_low. }
    rewrite !Z.shiftl_spec, Z.shiftr_spec by lia.
    replace (n - s + s) with n by lia.
    destruct (decide (n < 2 * s)) as [Hlt|Hge2].
    - by rewrite Z.ones_spec_low by lia.
    - rewrite Z.ones_spec_high by lia. simpl.
      destruct (decide (ux = 0)) as [->|]; [by rewrite Z.bits_0|].
      rewrite Z.bits_above_log2; [done|lia|].
      apply Z.lt_le_trans with (2 * s); [|lia]. apply Z.log2_lt_pow2; lia. }
  rewrite Z.shiftl_mul_pow2, Z.shiftr_div_pow2 by lia.
  pose proof (Z.pow_pos_nonneg 2 s).
  destruct (Z.ltb_spec ux (2 ^ s)) as [Hlt|Hge].
  - rewrite Z.div_small by lia. done.
  - apply Z.eqb_neq. assert (1 ≤ ux / 2 ^ s) by (apply Z.div_le_lower_bound; lia). nia.
Qed.

Lemma log2_step_spec msk s y ux :
  0 < s → msk = Z.shiftl (Z.ones s) s → 0 < ux < 2 ^ (2 * s) →
  ∃ y' ux', log2_step true msk s (y, ux) = (y', ux') ∧
    0 < ux' < 2 ^ s ∧ y' + Z.log2 ux' = y + Z.log2 ux.
Proof.
  intros Hs -> Hu. unfold log2_step. rewrite log2_step_mask by lia.
  destruct (Z.ltb_spec ux (2 ^ s)) as [Hlt|Hge]; simpl.
  { eexists _, _; split; [done|lia]. }
  eexists _, _; split; [done|]. pose proof (Z.pow_pos_nonneg 2 s).
  assert (s ≤ Z.log2 ux) by (apply Z.log2_le_pow2; lia).
  rewrite Z.log2_shiftr by lia. rewrite Z.shiftr_div_pow2 by lia. split; [|lia].
  split; [apply Z.div_str_pos; lia|]. apply Z.div_lt_upper_bound; [lia|].
  replace (2 * s) with (s + s) in Hu by lia. rewrite Z.pow_add_r in Hu by lia. lia.
Qed.

(** The last test reads the one bit that is left. *)
Lemma log2_last y ux :
  0 < ux < 2 ^ 2 → (if negb (Z.land ux 2 =? 0) then y + 1 else y) = y + Z.log2 ux.
Proof.
  intros Hu. assert (ux = 1 ∨ ux = 2 ∨ ux = 3) as [-> | [-> | ->]] by lia; simpl; lia.
Qed.

Ltac log2_cascade :=
  repeat lazymatch goal with
  | |- context [log2_step false ?m ?s ?p] => change (log2_step false m s p) with p
  | |- context [log2_step true ?m ?s (?y, ?u)] =>
      let y' := fresh "y" in let u' := fresh "u" in
      destruct (log2_step_spec m s y u) as (y' & u' & -> & ? & ?); [lia|done|lia|]
  end.

(** The cascade of six tests computes the base-2 logarithm at every width. *)
Lemma floorLog2_log2 ts x :
  ts ∈ [1; 2; 4; 8] → 0 < x < 2 ^ (8 * ts) → floorLog2 ts x = Ok (Z.log2 x).
Proof.
  intros Hts Hx. unfold floorLog2, assert_that.
  rewrite (proj2 (Z.ltb_lt 0 x)) by lia. run_ok. cbv zeta.
  repeat (apply elem_of_cons in Hts as [->|Hts]; [
    cbn [Z.leb Z.compare Pos.compare Pos.compare_cont]; log2_cascade;
    rewrite log2_last by lia; f_equal; lia|]).
  by apply not_elem_of_nil in Hts.
Qed.

Lemma ceilLog2_log2_up ts n :
  ts ∈ [1; 2; 4; 8] → 0 < n < 2 ^ (8 * ts) → ceilLog2 ts n = Ok (Z.log2_up n).
Proof.
  intros Hts Hn. unfold ceilLog2, assert_that. rewrite (proj2 (Z.ltb_lt 0 n)) by lia.
  run_ok. destruct (Z.eqb_spec n 1) as [->|]; [done|].
  rewrite floorLog2_log2 by (done || lia). run_ok.
  by rewrite Z.log2_up_eqn, <-Z.add_1_r, <-Z.sub_1_r by lia.
Qed.

(** ** Alignment *)

(** [val & ~(2^k - 1)] clears the low [k] bits. *)
Lemma land_ulnot_mask w k v :
  0 ≤ k ≤ w → in_u w v → Z.land v (ulnot w (2 ^ k - 1)) = v - v mod 2 ^ k.
Proof.
  intros Hk Hv. unfold in_u in Hv.
  assert (Z.land v (ulnot w (2 ^ k - 1)) = Z.ldiff v (Z.ones k)) as ->.
  { apply Z.bits_inj'. intros n Hn. unfold ulnot, wrap.
    rewrite Z.land_spec, Z.ldiff_spec.
    destruct (decide (n < w)) as [Hlt|Hge].
    - rewrite Z.mod_pow2_bits_low, Z.lnot_spec by lia.
      do 3 f_equal. rewrite Z.ones_equiv. lia.
    - assert (Z.testbit v n = false) as ->; [|done].
      destruct (decide (v = 0)) as [->|]; [apply Z.bits_0|].
      apply Z.bits_above_log2; [lia|]. apply Z.lt_le_trans with w; [|lia].
      apply Z.log2_lt_pow2; lia. }
  rewrite Z.ldiff_ones_r, Z.shiftl_mul_pow2, Z.shiftr_div_pow2 by lia.
  pose proof (Z.div_mod v (2 ^ k)). pose proof (Z.pow_pos_nonneg 2 k). lia.
Qed.

Lemma mask_wrap w k : 0 ≤ k ≤ w → wrap w (2 ^ k - 1) = 2 ^ k - 1.
Proof.
  intros Hk. apply wrap_id. unfold in_u. pose proof (Z.pow_pos_nonneg 2 k).
  assert (2 ^ k ≤ 2 ^ w) by (apply Z.pow_le_mono_r; lia). lia.
Qed.

Lemma isPowerOf2_pow2 k : 0 ≤ k → isPowerOf2 (2 ^ k) = true.
Proof.
  intros Hk. apply isPowerOf2_spec; [pose proof (Z.pow_pos_nonneg 2 k); lia|eauto].
Qed.

Lemma roundDown_pow2 w v k :
  0 ≤ k ≤ w → in_u w v → roundDown w v (2 ^ k) = Ok (v - v mod 2 ^ k).
Proof.
  intros Hk Hv. unfold roundDown, assert_that. rewrite isPowerOf2_pow2 by lia.
  run_ok. by rewrite mask_wrap, land_ulnot_mask.
Qed.

Lemma roundUp_pow2 w v k :
  0 ≤ k ≤ w → in_u w v → v + (2 ^ k - 1) < 2 ^ w →
  roundUp w v (2 ^ k) = Ok (2 ^ k * ((v + (2 ^ k - 1)) / 2 ^ k)).
Proof.
  intros Hk Hv Ho. unfold in_u in Hv. unfold roundUp, assert_that.
  rewrite isPowerOf2_pow2 by lia. run_ok.
  pose proof (Z.pow_pos_nonneg 2 k).
  rewrite mask_wrap, (wrap_id w (v + _)), land_ulnot_mask by in_word.
  f_equal. pose proof (Z.div_mod (v + (2 ^ k - 1)) (2 ^ k)). lia.
Qed.

(** ** Double-width multiplication *)

Lemma u32_split v : in_u 64 v → v = u32 (Z.shiftr v 32) * 2 ^ 32 + u32 v.
Proof.
  unfold in_u, wrap. intros Hv. rewrite Z.shiftr_div_pow2 by lia.
  rewrite (Z.mod_small (v / 2 ^ 32)); [pose proof (Z.div_mod v (2 ^ 32)); lia|].
  split; [apply Z.div_pos; lia|]. apply Z.div_lt_upper_bound; lia.
Qed.

(** Adding halves and the carried low bits is halving the sum. *)
Lemma half_sum a b c :
  Z.shiftr a 1 + Z.shiftr b 1 + Z.shiftr c 1 +
    Z.shiftr (Z.land a 1 + Z.land b 1 + Z.land c 1) 1 = (a + b + c) / 2.
Proof.
  rewrite !Z.shiftr_div_pow2 by lia.
  assert (∀ z, Z.land z 1 = z mod 2) as Hl by (intros; apply (Z.land_ones _ 1); lia).
  rewrite !Hl. change (2 ^ 1) with 2.
  pose proof (Z.div_mod a 2). pose proof (Z.div_mod b 2). pose proof (Z.div_mod c 2).
  apply Z.div_unique with ((a mod 2 + b mod 2 + c mod 2) mod 2).
  - left. apply Z.mod_pos_bound. lia.
  - pose proof (Z.div_mod (a mod 2 + b mod 2 + c mod 2) 2). lia.
Qed.

(** The schoolbook sum of four 32-bit partial products. *)
Lemma partial_products A a0 B b0 :
  in_u 32 A → in_u 32 a0 → in_u 32 B → in_u 32 b0 →
  let S := a0 * b0 / 2 ^ 32 + A * b0 + a0 * B in
  let P := (A * 2 ^ 32 + a0) * (B * 2 ^ 32 + b0) in
  0 ≤ S < 2 ^ 65 ∧ P / 2 ^ 64 = A * B + S / 2 ^ 32 ∧ 0 ≤ P < 2 ^ 128.
Proof.
  intros HA Ha HB Hb S P. unfold in_u in *.
  pose proof (Z.div_mod (a0 * b0) (2 ^ 32) ltac:(lia)) as E.
  pose proof (Z.mod_pos_bound (a0 * b0) (2 ^ 32) ltac:(lia)) as R.
  set (c := a0 * b0 / 2 ^ 32) in *. set (r := (a0 * b0) mod 2 ^ 32) in *. clearbody c r.
  pose proof (Z.div_mod S (2 ^ 32) ltac:(lia)) as ES.
  pose proof (Z.mod_pos_bound S (2 ^ 32) ltac:(lia)) as RS.
  assert (P = A * B * 2 ^ 64 + S * 2 ^ 32 + r) as EP by (subst P S; nia).
  split; [subst S; nia|]. split; [|subst P; nia].
  symmetry. apply Z.div_unique with (S mod 2 ^ 32 * 2 ^ 32 + r); [left; nia|nia].
Qed.

Lemma mulUnsignedManual_exact a b :
  in_u 64 a → in_u 64 b →
  mulUnsignedManual a b = (a * b / 2 ^ 64, (a * b) mod 2 ^ 64).
Proof.
  intros Ha Hb. unfold mulUnsignedManual. cbv zeta. f_equal.
  pose proof (u32_split a Ha) as Ea. pose proof (u32_split b Hb) as Eb.
  pose proof (wrap_range 32 (Z.shiftr a 32) ltac:(lia)) as RA.
  pose proof (wrap_range 32 a ltac:(lia)) as Ra.
  pose proof (wrap_range 32 (Z.shiftr b 32) ltac:(lia)) as RB.
  pose proof (wrap_range 32 b ltac:(lia)) as Rb.
  set (A := u32 (Z.shiftr a 32)) in *. set (a0 := u32 a) in *.
  set (B := u32 (Z.shiftr b 32)) in *. set (b0 := u32 b) in *. clearbody A a0 B b0. subst a b.
  destruct (partial_products A a0 B b0 RA Ra RB Rb) as (HS & HE & HP).
  rewrite HE. unfold in_u in *.
  rewrite (wrap_id 64 (a0 * b0)), (wrap_id 64 (A * b0)), (wrap_id 64 (a0 * B)),
    (wrap_id 64 (A * B)) by (unfold in_u; nia).
  assert (u32 (Z.shiftr (a0 * b0) 32) = a0 * b0 / 2 ^ 32) as ->.
  { rewrite Z.shiftr_div_pow2 by lia. apply wrap_id. unfold in_u.
    split; [apply Z.div_pos; nia|apply Z.div_lt_upper_bound; nia]. }
  set (c := a0 * b0 / 2 ^ 32) in *. set (S := c + A * b0 + a0 * B) in *.
  rewrite wrap_add_l, half_sum. fold S.
  assert (in_u 64 (S / 2)) as HS2
    by (split; [apply Z.div_pos|apply Z.div_lt_upper_bound]; lia).
  rewrite (wrap_id 64 (S / 2) HS2), Z.shiftr_div_pow2, Z.div_div by lia.
  change (2 * 2 ^ 31) with (2 ^ 32). apply wrap_id. unfold in_u.
  rewrite <-HE. split; [apply Z.div_pos; lia|]. apply Z.div_lt_upper_bound; lia.
Qed.

(** The unsigned reading of a signed word. *)
Lemma u64_signed a : in_s 64 a → u64 a = if a <? 0 then a + 2 ^ 64 else a.
Proof.
  unfold in_s, wrap. intros Ha. destruct (Z.ltb_spec a 0); [|apply Z.mod_small; lia].
  symmetry. apply Z.mod_unique with (-1); lia.
Qed.

Lemma i64_u64 z : i64 (u64 z) = i64 z.
Proof. unfold swrap, wrap. by rewrite Z.add_mod_idemp_l by lia. Qed.

Lemma i64_u64_sub x y : i64 (u64 x - y) = i64 (x - y).
Proof.
  rewrite <-(i64_u64 (u64 x - y)), <-(i64_u64 (x - y)). f_equal.
  unfold wrap. by rewrite Zminus_mod_idemp_l.
Qed.

Lemma i64_u64_mul x y : i64 (u64 x * u64 y) = i64 (x * y).
Proof.
  rewrite <-(i64_u64 (u64 x * u64 y)), <-(i64_u64 (x * y)). f_equal.
  unfold wrap. by rewrite <-Z.mul_mod by lia.
Qed.

Lemma u64_i64 z : u64 (i64 z) = u64 z.
Proof.
  unfold swrap, wrap. rewrite Zminus_mod_idemp_l. f_equal. lia.
Qed.

Lemma i64_shift z k : i64 (z + k * 2 ^ 64) = i64 z.
Proof.
  unfold swrap. replace (z + k * 2 ^ 64 + 2 ^ (64 - 1)) with (z + 2 ^ (64 - 1) + k * 2 ^ 64) by lia.
  by rewrite Z_mod_plus_full.
Qed.

(** The corrections for the operands' signs restore the signed high word. *)
Lemma signed_high a b :
  in_s 64 a → in_s 64 b →
  i64 (u64 a * u64 b / 2 ^ 64 - (if a <? 0 then b else 0) - (if b <? 0 then a else 0))
    = a * b / 2 ^ 64.
Proof.
  intros Ha Hb. rewrite !u64_signed by done.
  assert (in_s 64 (a * b / 2 ^ 64)) as Hr.
  { unfold in_s in *. split; [apply Z.div_le_lower_bound|apply Z.div_lt_upper_bound]; nia. }
  transitivity (i64 (a * b / 2 ^ 64)); [|by apply swrap_id].
  destruct (a <? 0), (b <? 0).
  - replace ((a + 2 ^ 64) * (b + 2 ^ 64)) with (a * b + (a + b + 2 ^ 64) * 2 ^ 64) by lia.
    rewrite Z.div_add by lia. rewrite <-(i64_shift (a * b / 2 ^ 64) 1). f_equal. lia.
  - replace ((a + 2 ^ 64) * b) with (a * b + b * 2 ^ 64) by lia.
    rewrite Z.div_add by lia. f_equal. lia.
  - replace (a * (b + 2 ^ 64)) with (a * b + a * 2 ^ 64) by lia.
    rewrite Z.div_add by lia. f_equal. lia.
  - f_equal. lia.
Qed.

(** The signed product, as a 128-bit two's complement pair. *)
Lemma mulSignedManual_exact a b :
  in_s 64 a → in_s 64 b → mulSignedManual a b = (a * b / 2 ^ 64, i64 (a * b)).
Proof.
  intros Ha Hb. unfold mulSignedManual.
  rewrite mulUnsignedManual_exact by auto with word lia. f_equal.
  - rewrite <-(signed_high a b) by done.
    destruct (a <? 0), (b <? 0); rewrite ?i64_u64, ?i64_u64_sub; f_equal; lia.
  - change ((u64 a * u64 b) mod 2 ^ 64) with (u64 (u64 a * u64 b)).
    by rewrite i64_u64, i64_u64_mul.
Qed.
