(* ===== verification/SatCounter.v ===== *)
(** * Saturating counters (src/base/sat_counter.hh)

    [GenericSatCounter<T>] for an unsigned type [T] of [w] bits: construction,
    increment and decrement, shifts, signed additions and subtractions, reset,
    saturation and the saturation percentile.  [SatCounter8] is the instance
    the prefetchers use. *)

From Stdlib Require Import ZArith Lia QArith Lqa.
From stdpp Require Import base numbers option strings.
From S2P Require Import Prelude Double.
#[local] Open Scope Z_scope.

Record SatCounter := mkSat { initialVal : Z; maxVal : Z; counter : Z }.

Definition with_counter (c : SatCounter) (v : Z) : SatCounter :=
  mkSat (initialVal c) (maxVal c) v.

(** The constructor, for [T] of [w] bits. *)
Definition sat_new (w bits initial_val : Z) : outcome SatCounter :=
  let c := mkSat initial_val (wrap w (u64 (Z.shiftl 1 bits) - 1)) initial_val in
  _ ← fatal_if (w <? bits) "Number of bits exceeds counter size";
  _ ← fatal_if (maxVal c <? initial_val)
        "Saturating counter's initial value exceeds max value.";
  Ok c.

(** [++c]; the postfix form has the same effect on the counter. *)
Definition sat_inc (c : SatCounter) : SatCounter :=
  if counter c <? maxVal c then with_counter c (counter c + 1) else c.

Definition sat_dec (c : SatCounter) : SatCounter :=
  if 0 <? counter c then with_counter c (counter c - 1) else c.

(** [c >>= shift] and [c <<= shift]; the shifted value is stored back in the
    [w]-bit counter before the comparison with the maximum. *)
Definition sat_shr (c : SatCounter) (shift : Z) : outcome SatCounter :=
  _ ← assert_that (0 <=? shift) "shift >= 0";
  Ok (with_counter c (Z.shiftr (counter c) shift)).

Definition sat_shl (w : Z) (c : SatCounter) (shift : Z) : outcome SatCounter :=
  _ ← assert_that (0 <=? shift) "shift >= 0";
  let v := wrap w (Z.shiftl (counter c) shift) in
  Ok (with_counter c (if maxVal c <? v then maxVal c else v)).

(** The branches of [+=] and [-=] for a nonnegative amount. *)
Definition sat_add_nonneg (c : SatCounter) (value : Z) : SatCounter :=
  if value <=? maxVal c - counter c
  then with_counter c (counter c + value) else with_counter c (maxVal c).

Definition sat_sub_nonneg (c : SatCounter) (value : Z) : SatCounter :=
  if value <? counter c
  then with_counter c (counter c - value) else with_counter c 0.

(** [c += value] and [c -= value]; a negative amount is handed to the other
    operator with its sign changed. *)
Definition sat_add (c : SatCounter) (value : Z) : SatCounter :=
  if 0 <=? value then sat_add_nonneg c value else sat_sub_nonneg c (- value).

Definition sat_sub (c : SatCounter) (value : Z) : SatCounter :=
  if 0 <=? value then sat_sub_nonneg c value else sat_add_nonneg c (- value).

Definition sat_reset (c : SatCounter) : SatCounter := with_counter c (initialVal c).

(** [(double) counter / maxVal]. *)
Definition calcSaturation (c : SatCounter) : double :=
  ddiv (d_of_Z (counter c)) (d_of_Z (maxVal c)).

Definition isSaturated (c : SatCounter) : bool := counter c =? maxVal c.

(** [saturate()] returns the amount that was added. *)
Definition saturate (c : SatCounter) : Z * SatCounter :=
  (maxVal c - counter c, with_counter c (maxVal c)).

(** ** The invariant *)

Definition sat_wf (w : Z) (c : SatCounter) : Prop :=
  0 ≤ counter c ≤ maxVal c ∧ 0 ≤ initialVal c ≤ maxVal c ∧ maxVal c < 2 ^ w.

Lemma sat_new_wf w bits v c :
  0 ≤ bits → 0 ≤ v → 0 ≤ w ≤ 64 → sat_new w bits v = Ok c → bits < 64 →
  sat_wf w c ∧ maxVal c = 2 ^ bits - 1 ∧ counter c = v.
Proof.
  intros Hb Hv Hw E Hb64. unfold sat_new, fatal_if in E.
  destruct (Z.ltb_spec w bits) as [|Hle]; [done|]. cbn [mbind outcome_bind] in E.
  cbn [maxVal] in E. rewrite Z.shiftl_1_l in E.
  assert (0 < 2 ^ bits ≤ 2 ^ w) by
    (split; [apply Z.pow_pos_nonneg; lia|apply Z.pow_le_mono_r; lia]).
  assert (2 ^ bits < 2 ^ 64) by (apply Z.pow_lt_mono_r; lia).
  rewrite (wrap_id 64 (2 ^ bits)), (wrap_id w (2 ^ bits - 1)) in E by in_word.
  destruct (Z.ltb_spec (2 ^ bits - 1) v); [done|]. injection E as <-.
  unfold sat_wf. simpl. lia.
Qed.

(** Signed addition clamps to the counter's range. *)
Lemma sat_add_clamp w c v :
  sat_wf w c → sat_add c v = with_counter c (Z.max 0 (Z.min (maxVal c) (counter c + v))).
Proof.
  unfold sat_add, sat_add_nonneg, sat_sub_nonneg, sat_wf. intros Hw.
  repeat case_match; f_equal; lia.
Qed.

Lemma sat_sub_add w c v : sat_wf w c → sat_sub c v = sat_add c (- v).
Proof.
  intros Hw. rewrite (sat_add_clamp w) by done.
  unfold sat_sub, sat_add_nonneg, sat_sub_nonneg, sat_wf in *.
  repeat case_match; f_equal; lia.
Qed.

Lemma sat_inc_add w c : sat_wf w c → sat_inc c = sat_add c 1.
Proof.
  intros Hw. rewrite (sat_add_clamp w) by done. unfold sat_inc, sat_wf in *.
  destruct c as [i m k]; simpl in *. unfold with_counter; simpl.
  case_match; f_equal; lia.
Qed.

Lemma sat_dec_add w c : sat_wf w c → sat_dec c = sat_add c (-1).
Proof.
  intros Hw. rewrite (sat_add_clamp w) by done. unfold sat_dec, sat_wf in *.
  destruct c as [i m k]; simpl in *. unfold with_counter; simpl.
  case_match; f_equal; lia.
Qed.

Lemma with_counter_wf w c v : sat_wf w c → 0 ≤ v ≤ maxVal c → sat_wf w (with_counter c v).
Proof. unfold sat_wf, with_counter. simpl. lia. Qed.

Lemma sat_add_wf w c v : sat_wf w c → sat_wf w (sat_add c v).
Proof.
  intros Hw. rewrite (sat_add_clamp w) by done. apply with_counter_wf; [done|].
  unfold sat_wf in Hw. lia.
Qed.

Lemma sat_inc_wf w c : sat_wf w c → sat_wf w (sat_inc c).
Proof. intros. rewrite (sat_inc_add w) by done. by apply sat_add_wf. Qed.

Lemma sat_dec_wf w c : sat_wf w c → sat_wf w (sat_dec c).
Proof. intros. rewrite (sat_dec_add w) by done. by apply sat_add_wf. Qed.

Lemma sat_reset_wf w c : sat_wf w c → sat_wf w (sat_reset c).
Proof. intros. apply with_counter_wf; [done|]. unfold sat_wf in *. lia. Qed.

Create HintDb sat.
#[export] Hint Resolve sat_inc_wf sat_dec_wf sat_reset_wf sat_add_wf : sat.

(** An 8-bit counter that starts at zero. *)
Definition count_wf (c : SatCounter) : Prop := sat_wf 8 c ∧ initialVal c = 0 ∧ 0 < maxVal c.

Lemma count_dec c : count_wf c → count_wf (sat_dec c) ∧ counter (sat_dec c) ≤ counter c ∧ maxVal (sat_dec c) = maxVal c.
Proof. unfold count_wf, sat_wf, sat_dec. intros. case_match; simpl; lia. Qed.

Lemma count_inc c : count_wf c → count_wf (sat_inc c) ∧ maxVal (sat_inc c) = maxVal c.
Proof. unfold count_wf, sat_wf, sat_inc. intros. case_match; simpl; lia. Qed.

Lemma count_reset c : count_wf c → count_wf (sat_reset c) ∧ counter (sat_reset c) = 0.
Proof. unfold count_wf, sat_wf, sat_reset. simpl. lia. Qed.

Lemma count_new bits c : 1 ≤ bits ≤ 8 → sat_new 8 bits 0 = Ok c → count_wf c ∧ counter c = 0.
Proof.
  intros Hb E. pose proof E as E'. apply sat_new_wf in E' as (Hc & Hm & Hcnt); [|lia..].
  split; [|done]. split; [done|]. split; [|rewrite Hm; pose proof (Z.pow_le_mono_r 2 1 bits); lia].
  unfold sat_new in E. do 2 (apply outcome_bind_ok in E as (? & _ & E)). by injection E as <-.
Qed.

(** ** The saturation percentile *)

Lemma counter_exact w c :
  w ≤ 53 → sat_wf w c →
  dok (d_of_Z (counter c)) = true ∧ dok (d_of_Z (maxVal c)) = true ∧
  (dval (d_of_Z (counter c)) == inject_Z (counter c))%Q ∧
  (dval (d_of_Z (maxVal c)) == inject_Z (maxVal c))%Q.
Proof.
  unfold sat_wf. intros Hw H.
  assert (2 ^ w ≤ 2 ^ 53) by (apply Z.pow_le_mono_r; lia).
  destruct (d_of_Z_exact (counter c)) as [? ?]; [lia|].
  destruct (d_of_Z_exact (maxVal c)) as [? ?]; [lia|]. done.
Qed.

Lemma count_value c : count_wf c →
  dok (d_of_Z (counter c)) = true ∧ (dval (d_of_Z (counter c)) == inject_Z (counter c))%Q.
Proof. intros [Hc _]. destruct (counter_exact 8 c ltac:(lia) Hc) as (H1 & _ & E1 & _). done. Qed.

(** The percentile is a number between 0 and 1, and 1 on a saturated counter. *)
Lemma calcSaturation_range w c :
  w ≤ 53 → sat_wf w c → 0 < maxVal c →
  dok (calcSaturation c) = true ∧
  (0 <= dval (calcSaturation c))%Q ∧ (dval (calcSaturation c) <= 1)%Q ∧
  (isSaturated c = true → (dval (calcSaturation c) == 1)%Q).
Proof.
  intros Hw Hc Hm. destruct (counter_exact w c Hw Hc) as (H1 & H2 & E1 & E2).
  assert (0 < inject_Z (maxVal c))%Q as Hm'.
  { change 0%Q with (inject_Z 0). by rewrite <-Zlt_Qlt. }
  assert (0 <= inject_Z (counter c) / inject_Z (maxVal c))%Q as Hlo.
  { apply Qle_shift_div_l; [done|]. rewrite Qmult_0_l. change 0%Q with (inject_Z 0).
    rewrite <-Zle_Qle. apply Hc. }
  assert (inject_Z (counter c) / inject_Z (maxVal c) <= 1)%Q as Hhi.
  { apply Qle_shift_div_r; [done|]. rewrite Qmult_1_l, <-Zle_Qle. apply Hc. }
  assert (rounds (calcSaturation c) (inject_Z (counter c) / inject_Z (maxVal c))) as Hr.
  { eapply rounds_ext; [|apply ddiv_rounds; try done; rewrite E2; lra].
    by rewrite E1, E2. }
  destruct (rounds_in _ _ d0 d1 0 1 Hr eq_refl eq_refl dval_d0 dval_d1 Hlo Hhi)
    as (Hd & Hl & Hh).
  split; [done|]. split; [done|]. split; [done|].
  intros Hs%Z.eqb_eq. rewrite <-dval_d1. apply (rounds_exact _ d1); [|done].
  eapply rounds_ext; [|done]. rewrite Hs, dval_d1. field. lra.
Qed.
