(* ===== verification/Clocked.v ===== *)
(** * Clocked objects

    [src/src/sim/clocked_object.hh]: an object remembers the next edge of its clock and the
    number of cycles up to it, and brings both up to date when it is asked.  [update] takes
    a shortcut when a single period is enough; the theorem is that it always agrees with
    rounding the current time up to a multiple of the period. *)

From Stdlib Require Import ZArith Lia.
From stdpp Require Import base numbers option list strings.
From S2P Require Import Prelude IntMath.
#[local] Open Scope Z_scope.

Record Clocked := mkClocked { clk_tick : Z; clk_cycle : Z }.

Definition clocked_new : Clocked := mkClocked 0 0.

Definition clk_update (period curTick : Z) (c : Clocked) : Clocked :=
  if curTick <=? clk_tick c then c else
  let c := mkClocked (u64 (clk_tick c + period)) (u64 (clk_cycle c + 1)) in
  if curTick <=? clk_tick c then c else
  let elapsedCycles := divCeil 64 (u64 (curTick - clk_tick c)) period in
  mkClocked (u64 (clk_tick c + u64 (elapsedCycles * period))) (u64 (clk_cycle c + elapsedCycles)).

Definition resetClock (period curTick : Z) : Clocked :=
  let elapsedCycles := divCeil 64 curTick period in
  mkClocked (u64 (elapsedCycles * period)) elapsedCycles.

(** [clockEdge(cycles)]: the time of the edge, and the object after [update]. *)
Definition clockEdge (period curTick cycles : Z) (c : Clocked) : Z * Clocked :=
  let c := clk_update period curTick c in
  (u64 (clk_tick c + u64 (period * cycles)), c).

Definition curCycle (period curTick : Z) (c : Clocked) : Z * Clocked :=
  let c := clk_update period curTick c in (clk_cycle c, c).

Definition nextCycle (period curTick : Z) (c : Clocked) : Z * Clocked := clockEdge period curTick 1 c.

Definition ticksToCycles (period t : Z) : Z := divCeil 64 t period.
Definition cyclesToTicks (period c : Z) : Z := u64 (period * c).

(** ** Facts *)

(** The number of periods that cover a time. *)
Definition periods (p t : Z) : Z := (t + p - 1) / p.

(** The object is up to date for some earlier time. *)
Definition clk_ok (p now : Z) (c : Clocked) : Prop :=
  ∃ t, 0 ≤ t ≤ now ∧ clk_cycle c = periods p t ∧ clk_tick c = periods p t * p.

Lemma periods_bounds p t : 0 < p → t ≤ periods p t * p < t + p.
Proof. intros Hp. unfold periods. Z.div_mod_to_equations. nia. Qed.

Lemma periods_unique p t k : 0 < p → t ≤ k * p < t + p → periods p t = k.
Proof. intros Hp Hk. pose proof (periods_bounds p t Hp). nia. Qed.

Lemma divCeil_periods p t :
  0 < p → 0 ≤ t → t + p ≤ 2 ^ 64 → divCeil 64 t p = periods p t.
Proof.
  intros Hp Ht Hb. unfold divCeil, periods. rewrite wrap_id by in_word. done.
Qed.

Lemma clk_update_eq p now c :
  0 < p → clk_ok p now c → now + 2 * p ≤ 2 ^ 64 →
  clk_update p now c = mkClocked (periods p now * p) (periods p now).
Proof.
  intros Hp (t & Ht & Hcy & Hti) Hb. pose proof (periods_bounds p t Hp) as Hpt.
  unfold clk_update. destruct c as [tk cy]. simpl in *. subst tk cy.
  assert (0 ≤ periods p t) by nia. assert (periods p t ≤ periods p t * p) by nia.
  destruct (Z.leb_spec now (periods p t * p)) as [Hle|Hlt].
  { rewrite (periods_unique p now (periods p t)) by lia. done. }
  rewrite (wrap_id 64 (periods p t * p + p)), (wrap_id 64 (periods p t + 1)) by in_word.
  replace (periods p t * p + p) with ((periods p t + 1) * p) by lia.
  set (k := periods p t + 1) in *. assert (k * p = periods p t * p + p) as Hk by lia.
  destruct (Z.leb_spec now (k * p)) as [Hle|Hlt2].
  { rewrite (periods_unique p now k) by lia. done. }
  rewrite (wrap_id 64 (now - k * p)) by in_word. rewrite divCeil_periods by lia.
  pose proof (periods_bounds p (now - k * p) Hp) as Hd. set (d := periods p (now - k * p)) in *.
  assert (0 ≤ d ≤ d * p) by nia. rewrite (wrap_id 64 (d * p)) by in_word.
  rewrite (wrap_id 64 (k * p + d * p)), (wrap_id 64 (k + d)) by (unfold in_u; nia).
  rewrite (periods_unique p now (k + d)) by nia. f_equal. lia.
Qed.

Lemma clockEdge_eq p now n c :
  0 < p → clk_ok p now c → 0 ≤ n → now + (n + 2) * p < 2 ^ 64 →
  clockEdge p now n c = (periods p now * p + n * p, resetClock p now).
Proof.
  intros Hp Hc Hn Hb. pose proof Hc as (t0 & Ht0 & _). pose proof (periods_bounds p now Hp) as Hd.
  unfold clockEdge, resetClock. rewrite clk_update_eq by (done || nia). simpl.
  rewrite divCeil_periods by nia. assert (0 ≤ periods p now) by nia.
  rewrite (wrap_id 64 (periods p now * p)) by (unfold in_u; nia).
  rewrite (wrap_id 64 (p * n)) by (unfold in_u; nia). rewrite wrap_id by (unfold in_u; nia).
  do 2 f_equal; lia.
Qed.

(** ** Theorem *)

(** The incremental clock agrees with its definition.  However an object has been
    asked before, [clockEdge] returns the time of the edge [cycles] periods after the first
    edge that is not before the current time, [curCycle] returns the number of periods up to
    that edge, and both leave the object as [resetClock] would. *)
Theorem clock_edge_aligned (p now n : Z) (c : Clocked) :
  0 < p → clk_ok p now c → 0 ≤ n → now + (n + 2) * p < 2 ^ 64 →
  let edge := (now + p - 1) / p in
  clockEdge p now n c = (edge * p + n * p, resetClock p now) ∧
  curCycle p now c = (edge, resetClock p now) ∧ clk_ok p now (resetClock p now).
Proof.
  intros Hp Hc Hn Hb edge. rewrite clockEdge_eq by done. fold (periods p now) in edge. subst edge.
  pose proof (clockEdge_eq p now n c Hp Hc Hn Hb) as E. unfold clockEdge in E. injection E as _ E.
  unfold curCycle. rewrite E. pose proof Hc as (t0 & Ht0 & _). pose proof (periods_bounds p now Hp) as Hd.
  assert (resetClock p now = mkClocked (periods p now * p) (periods p now)) as ->.
  { rewrite <-E. by apply clk_update_eq; [..|nia]. }
  split_and!; try done. exists now. split_and!; [lia..|done|done].
Qed.

Lemma clock_edge_aligned_witness :
  clk_ok 500 1200 (mkClocked 1000 2) ∧ (clockEdge 500 1200 3 (mkClocked 1000 2)).1 = 3000.
Proof.
  assert (clk_ok 500 1200 (mkClocked 1000 2)) as Hc by (exists 700; split; [lia|by vm_compute]).
  split; [exact Hc|].
  destruct (clock_edge_aligned 500 1200 3 (mkClocked 1000 2) ltac:(lia) Hc ltac:(lia) ltac:(lia)) as [E _].
  rewrite E. reflexivity.
Defined.
