(* ===== verification/EventQ.v ===== *)
(** * The event queue

    [src/src/sim/eventq.{hh,cc}], [src/src/base/flags.hh] and the simulation loop of
    [src/src/sim/simulate.cc].  The queue is a linked list of bins, a bin being the stack of
    the events of one tick and priority: [nextBin] leads from the top event of a bin to the
    top event of the next one, [nextInBin] through the stack, and the [nextBin] of an event
    that is not on top is stale.  Events live in a heap, since the operations work on
    pointers to them; what an event does when it is processed is a parameter.

    The theorems are in the file of the queue's facts and in that of its theorems. *)

From Stdlib Require Import ZArith Lia.
From stdpp Require Import base numbers option list strings gmap.
From S2P Require Import Prelude.
#[local] Open Scope Z_scope.

(** ** Flags *)

Definition isSet (flags mask : Z) : bool := negb (Z.land flags mask =? 0).
Definition noneSet (flags mask : Z) : bool := Z.land flags mask =? 0.
Definition flags_set (mask flags : Z) : Z := Z.lor flags mask.
Definition flags_clear (mask flags : Z) : Z := Z.land flags (u16 (Z.lnot mask)).

Definition PublicWrite : Z := 0x001d.
Definition Squashed : Z := 0x0001.
Definition Scheduled : Z := 0x0002.
Definition Managed : Z := 0x0004.
Definition IsExitEvent : Z := 0x0010.
Definition IsMainQueue : Z := 0x0020.
Definition Initialized : Z := 0x7a40.
Definition InitMask : Z := 0xffc0.

Definition Default_Pri : Z := 0.
Definition Stat_Event_Pri : Z := 90.
Definition Sim_Exit_Pri : Z := 100.

(** ** Events *)

(** A pointer to an event. *)
Abbreviation ptr := positive.

Record Event := mkEvent {
  nextBin : option ptr;
  nextInBin : option ptr;
  _when : Z;
  _priority : Z;
  ev_flags : Z;
  ev_queue : option Z   (** the queue the event was last scheduled on *)
}.

Definition with_nextBin (p : option ptr) (e : Event) : Event :=
  mkEvent p (nextInBin e) (_when e) (_priority e) (ev_flags e) (ev_queue e).
Definition with_nextInBin (p : option ptr) (e : Event) : Event :=
  mkEvent (nextBin e) p (_when e) (_priority e) (ev_flags e) (ev_queue e).
Definition with_flags (f : Z) (e : Event) : Event :=
  mkEvent (nextBin e) (nextInBin e) (_when e) (_priority e) f (ev_queue e).
Definition setWhen (w q : Z) (e : Event) : Event :=
  mkEvent (nextBin e) (nextInBin e) w (_priority e) (ev_flags e) (Some q).

(** The constructor. *)
Definition event_new (p f : Z) : outcome Event :=
  _ ← assert_that (noneSet f (u16 (Z.lnot PublicWrite))) "f.noneSet(~PublicWrite)";
  Ok (mkEvent None None 0 p (Z.lor Initialized f) None).

Definition scheduled (e : Event) : bool := isSet (ev_flags e) Scheduled.
Definition squashed (e : Event) : bool := isSet (ev_flags e) Squashed.
Definition isManaged (e : Event) : bool := isSet (ev_flags e) Managed.
Definition isExitEvent (e : Event) : bool := isSet (ev_flags e) IsExitEvent.
Definition initialized (e : Event) : bool := Z.land (ev_flags e) InitMask =? Initialized.
Definition squash (e : Event) : Event := with_flags (flags_set Squashed (ev_flags e)) e.

(** The operators that compare events. *)
Definition ev_lt (l r : Event) : bool := (_when l <? _when r) || ((_when l =? _when r) && (_priority l <? _priority r)).
Definition ev_le (l r : Event) : bool := (_when l <? _when r) || ((_when l =? _when r) && (_priority l <=? _priority r)).
Definition ev_eq (l r : Event) : bool := (_when l =? _when r) && (_priority l =? _priority r).

(** ** The heap *)

Abbreviation heap := (gmap ptr Event).

Definition deref (h : heap) (p : ptr) : outcome Event :=
  match h !! p with Some e => Ok e | None => Stop (Panic "not an event") end.

Definition update (f : Event → Event) (p : ptr) (h : heap) : outcome heap :=
  e ← deref h p; Ok (<[p := f e]> h).

(** [Event::insertBefore]: the bin's list with the event on top; it returns [event]. *)
Definition insertBefore (event : ptr) (curr : option ptr) (h : heap) : outcome heap :=
  e ← deref h event;
  match curr with
  | None => Ok (<[event := with_nextInBin None (with_nextBin None e)]> h)
  | Some c =>
      cv ← deref h c;
      if ev_lt e cv
      then Ok (<[event := with_nextInBin None (with_nextBin (Some c) e)]> h)
      else Ok (<[event := with_nextInBin (Some c) (with_nextBin (nextBin cv) e)]> h)
  end.

(** [while (event != next)] of [Event::removeItem]: the event before [event] in the bin. *)
Fixpoint find_in_bin (fuel : nat) (event curr : ptr) (next : option ptr) (h : heap) : outcome ptr :=
  match fuel with
  | O => Stop (Panic "endless list")
  | S fuel =>
      match next with
      | None => Stop (Panic "event not found!")
      | Some n =>
          if decide (event = n) then Ok curr else
          nv ← deref h n; find_in_bin fuel event n (nextInBin nv) h
      end
  end.

(** [Event::removeItem]: the new top of the bin, or of the next bin when the bin is empty. *)
Definition removeItem (event top : ptr) (h : heap) : outcome (option ptr * heap) :=
  tv ← deref h top;
  if decide (event = top) then
    match nextInBin tv with
    | None => Ok (nextBin tv, h)
    | Some n => h ← update (with_nextBin (nextBin tv)) n h; Ok (Some n, h)
    end
  else
    curr ← find_in_bin (S (size h)) event top (nextInBin tv) h;
    ev ← deref h event;
    h ← update (with_nextInBin (nextInBin ev)) curr h;
    Ok (Some top, h).

(** ** The queue *)

Record EventQueue := mkEQ {
  eq_id : Z;
  eq_heap : heap;
  head : option ptr;
  _curTick : Z;
  async_queue : list ptr
}.

Definition with_heap (q : EventQueue) (h : heap) : EventQueue := mkEQ (eq_id q) h (head q) (_curTick q) (async_queue q).
Definition with_head (q : EventQueue) (h : heap) (p : option ptr) : EventQueue := mkEQ (eq_id q) h p (_curTick q) (async_queue q).
Definition setCurTick (t : Z) (q : EventQueue) : EventQueue := mkEQ (eq_id q) (eq_heap q) (head q) t (async_queue q).

Definition eventq_new (id : Z) (h : heap) : EventQueue := mkEQ id h None 0 [].

(** [while (curr && *curr < *event)]: the last bin before the event's and the bin after it. *)
Fixpoint find_bin (fuel : nat) (e : Event) (prev : ptr) (curr : option ptr) (h : heap) : outcome (ptr * option ptr) :=
  match fuel with
  | O => Stop (Panic "endless list")
  | S fuel =>
      match curr with
      | None => Ok (prev, None)
      | Some c => cv ← deref h c; if ev_lt cv e then find_bin fuel e c (nextBin cv) h else Ok (prev, Some c)
      end
  end.

Definition insert (event : ptr) (q : EventQueue) : outcome EventQueue :=
  let h := eq_heap q in
  e ← deref h event;
  match head q with
  | None => h ← insertBefore event None h; Ok (with_head q h (Some event))
  | Some hd =>
      hv ← deref h hd;
      if ev_le e hv then h ← insertBefore event (Some hd) h; Ok (with_head q h (Some event)) else
      '(prev, curr) ← find_bin (S (size h)) e hd (nextBin hv) h;
      h ← insertBefore event curr h;
      h ← update (with_nextBin (Some event)) prev h;
      Ok (with_heap q h)
  end.

Definition remove (event : ptr) (q : EventQueue) : outcome EventQueue :=
  let h := eq_heap q in
  match head q with
  | None => Stop (Panic "event not found!")
  | Some hd =>
      e ← deref h event;
      _ ← assert_that (bool_decide (ev_queue e = Some (eq_id q))) "event->queue == this";
      hv ← deref h hd;
      if ev_eq hv e then '(p, h) ← removeItem event hd h; Ok (with_head q h p) else
      '(prev, curr) ← find_bin (S (size h)) e hd (nextBin hv) h;
      match curr with
      | None => Stop (Panic "event not found!")
      | Some c =>
          cv ← deref h c;
          if negb (ev_eq cv e) then Stop (Panic "event not found!") else
          '(p, h) ← removeItem event c h;
          h ← update (with_nextBin p) prev h;
          Ok (with_heap q h)
      end
  end.

Definition empty (q : EventQueue) : bool := bool_decide (head q = None).

Definition nextTick (q : EventQueue) : outcome Z :=
  match head q with None => Stop (Panic "not an event") | Some hd => hv ← deref (eq_heap q) hd; Ok (_when hv) end.

(** [Event::release]: a managed event that is not scheduled any more is deleted. *)
Definition release (event : ptr) (q : EventQueue) : outcome EventQueue :=
  e ← deref (eq_heap q) event;
  Ok (if isManaged e && negb (scheduled e) then with_heap q (delete event (eq_heap q)) else q).

(** [schedule]; [parallel] is [inParallelMode], [here] whether this is the thread's current
    queue. *)
Definition schedule (parallel here global : bool) (event : ptr) (when : Z) (q : EventQueue) : outcome EventQueue :=
  e ← deref (eq_heap q) event;
  _ ← assert_that (_curTick q <=? when) "when >= getCurTick()";
  _ ← assert_that (negb (scheduled e)) "!event->scheduled()";
  _ ← assert_that (initialized e) "event->initialized()";
  let q := with_heap q (<[event := setWhen when (eq_id q) e]> (eq_heap q)) in
  q ← (if parallel && (negb here || global)
       then Ok (mkEQ (eq_id q) (eq_heap q) (head q) (_curTick q) (async_queue q ++ [event]))
       else insert event q);
  e ← deref (eq_heap q) event;
  Ok (with_heap q (<[event := with_flags (flags_set Scheduled (ev_flags e)) e]> (eq_heap q))).

Definition deschedule (parallel here : bool) (event : ptr) (q : EventQueue) : outcome EventQueue :=
  e ← deref (eq_heap q) event;
  _ ← assert_that (scheduled e) "event->scheduled()";
  _ ← assert_that (initialized e) "event->initialized()";
  _ ← assert_that (negb parallel || here) "!inParallelMode || this == curEventQueue()";
  q ← remove event q;
  e ← deref (eq_heap q) event;
  let q := with_heap q (<[event := with_flags (flags_clear Scheduled (flags_clear Squashed (ev_flags e))) e]> (eq_heap q)) in
  release event q.

Definition reschedule (parallel here : bool) (event : ptr) (when : Z) (always : bool) (q : EventQueue) : outcome EventQueue :=
  e ← deref (eq_heap q) event;
  _ ← assert_that (_curTick q <=? when) "when >= getCurTick()";
  _ ← assert_that (always || scheduled e) "always || event->scheduled()";
  _ ← assert_that (initialized e) "event->initialized()";
  _ ← assert_that (negb parallel || here) "!inParallelMode || this == curEventQueue()";
  q ← (if scheduled e then remove event q else Ok q);
  e ← deref (eq_heap q) event;
  let q := with_heap q (<[event := setWhen when (eq_id q) e]> (eq_heap q)) in
  q ← insert event q;
  e ← deref (eq_heap q) event;
  Ok (with_heap q (<[event := with_flags (flags_set Scheduled (flags_clear Squashed (ev_flags e))) e]> (eq_heap q))).

(** [handleAsyncInsertions], of the thread's current queue. *)
Fixpoint insert_all (l : list ptr) (q : EventQueue) : outcome EventQueue :=
  match l with
  | [] => Ok q
  | e :: l => q ← insert e q; insert_all l q
  end.

Definition handleAsyncInsertions (here : bool) (q : EventQueue) : outcome EventQueue :=
  _ ← assert_that here "this == curEventQueue()";
  q' ← insert_all (async_queue q) q;
  Ok (mkEQ (eq_id q') (eq_heap q') (head q') (_curTick q') []).

(** The destructor: every event is descheduled. *)
Fixpoint deschedule_all (fuel : nat) (parallel here : bool) (q : EventQueue) : outcome EventQueue :=
  match head q with
  | None => Ok q
  | Some hd =>
      match fuel with
      | O => Stop (Panic "endless list")
      | S fuel => q ← deschedule parallel here hd q; deschedule_all fuel parallel here q
      end
  end.

Definition eventq_destroy (parallel here : bool) (q : EventQueue) : outcome EventQueue :=
  deschedule_all (size (eq_heap q)) parallel here q.

(** [replaceHead]. *)
Definition replaceHead (s : option ptr) (q : EventQueue) : option ptr * EventQueue := (head q, with_head q (eq_heap q) s).

(** ** Service *)

Section Service.
(** What processing an event does, to the world and to the queue. *)
Context {W : Type} (process : ptr → W → EventQueue → outcome (W * EventQueue)).

(** [serviceOne]; the exit event if it was one. *)
Definition serviceOne (w : W) (q : EventQueue) : outcome (option ptr * W * EventQueue) :=
  match head q with
  | None => Stop (Panic "not an event")
  | Some event =>
      e ← deref (eq_heap q) event;
      let h := <[event := with_flags (flags_clear Scheduled (ev_flags e)) e]> (eq_heap q) in
      q ← match nextInBin e with
          | Some next => h ← update (with_nextBin (nextBin e)) next h; Ok (with_head q h (Some next))
          | None => Ok (with_head q h (nextBin e))
          end;
      e ← deref (eq_heap q) event;
      if negb (squashed e) then
        '(w, q) ← process event w (setCurTick (_when e) q);
        e ← deref (eq_heap q) event;
        if isExitEvent e then
          _ ← assert_that (negb (isManaged e) || negb (isSet (ev_flags e) IsMainQueue))
                "!event->flags.isSet(Event::Managed) || !event->flags.isSet(Event::IsMainQueue)";
          Ok (Some event, w, q)
        else
          q ← release event q; Ok (None, w, q)
      else
        let q := with_heap q (<[event := with_flags (flags_clear Squashed (ev_flags e)) e]> (eq_heap q)) in
        q ← release event q; Ok (None, w, q)
  end.

(** [serviceEvents], with at most [fuel] events. *)
Fixpoint serviceEvents (fuel : nat) (when : Z) (w : W) (q : EventQueue) : outcome (W * EventQueue) :=
  if empty q then Ok (w, setCurTick when q) else
  t ← nextTick q;
  if when <? t then Ok (w, setCurTick when q) else
  match fuel with
  | O => Stop (Panic "out of fuel")
  | S fuel => '(_, w, q) ← serviceOne w q; serviceEvents fuel when w q
  end.

(** [fuel] rounds of the loop of [doSimLoop], without asynchronous signals: the exit event, or
    [None] when the loop is still running. *)
Fixpoint sim_rounds (fuel : nat) (w : W) (q : EventQueue) : outcome (option ptr * W * EventQueue) :=
  match fuel with
  | O => Ok (None, w, q)
  | S fuel =>
      _ ← assert_that (negb (empty q)) "!eventq->empty()";
      t ← nextTick q;
      _ ← assert_that (_curTick q <=? t) "event scheduled in the past";
      '(x, w, q) ← serviceOne w q;
      match x with
      | Some e => Ok (Some e, w, q)
      | None => sim_rounds fuel w q
      end
  end.

Definition doSimLoop (fuel : nat) (w : W) (q : EventQueue) : outcome (option ptr * W * EventQueue) :=
  q ← handleAsyncInsertions true q; sim_rounds fuel w q.
End Service.

(** ** Checking *)

(** [debugVerify]: the walk over one bin, and over all of them; the time, the priority and the
    set of events seen are carried along. *)
Fixpoint verify_bin (fuel : nat) (p : option ptr) (time priority : Z) (seen : gset ptr) (h : heap)
    : outcome (option (Z * Z * gset ptr)) :=
  match fuel with
  | O => Stop (Panic "endless list")
  | S fuel =>
      match p with
      | None => Ok (Some (time, priority, seen))
      | Some e =>
          ev ← deref h e;
          if _when ev <? time then Ok None else
          if (_when ev =? time) && (_priority ev <? priority) then Ok None else
          if bool_decide (e ∈ seen) then Ok None else
          verify_bin fuel (nextInBin ev) (_when ev) (_priority ev) ({[e]} ∪ seen) h
      end
  end.

Fixpoint verify_bins (fuel : nat) (p : option ptr) (time priority : Z) (seen : gset ptr) (h : heap) : outcome bool :=
  match fuel with
  | O => Stop (Panic "endless list")
  | S fuel =>
      match p with
      | None => Ok true
      | Some e =>
          r ← verify_bin (S (size h)) (Some e) time priority seen h;
          match r with
          | None => Ok false
          | Some (time, priority, seen) => ev ← deref h e; verify_bins fuel (nextBin ev) time priority seen h
          end
      end
  end.

Definition debugVerify (q : EventQueue) : outcome bool := verify_bins (S (size (eq_heap q))) (head q) 0 0 ∅ (eq_heap q).

(** ** Checkpoints *)

(** The three numbers [serialize] writes. *)
Definition event_serialize (e : Event) : Z * Z * Z := (_when e, _priority e, i16 (ev_flags e)).

Definition event_unserialize (cp : Z * Z * Z) (e : Event) : outcome Event :=
  let '(w, p, f) := cp in
  _ ← assert_that (negb (scheduled e)) "!scheduled()";
  _ ← assert_that (initialized e) "initialized()";
  let f := flags_set Initialized (u16 f) in
  let f := if isSet f Scheduled && negb (isSet f Squashed) then flags_clear (Z.lor Squashed Scheduled) f else f in
  Ok (mkEvent (nextBin e) (nextInBin e) w p f (ev_queue e)).

Definition checkpointReschedule (event : ptr) (q : EventQueue) : outcome EventQueue :=
  e ← deref (eq_heap q) event;
  if isSet (ev_flags e) Scheduled then insert event q else Ok q.

(** [UNSERIALIZE_EVENT]. *)
Definition UNSERIALIZE_EVENT (cp : Z * Z * Z) (event : ptr) (q : EventQueue) : outcome EventQueue :=
  e ← deref (eq_heap q) event;
  e ← event_unserialize cp e;
  checkpointReschedule event (with_heap q (<[event := e]> (eq_heap q))).
