(* ===== verification/EventQFacts.v ===== *)
(** * Facts about the event queue

    The representation of the queue as a list of bins over the heap, and the refinement of
    the pointer operations of [EventQ] by operations on the list of the pending events in the
    order in which they will be served. *)

From Stdlib Require Import ZArith Lia.
From stdpp Require Import base numbers option list strings gmap sorting.
From S2P Require Import Prelude EventQ.
#[local] Open Scope Z_scope.

(** ** Keys *)

(** The tick and the priority, in lexicographic order. *)
Definition key (e : Event) : Z * Z := (_when e, _priority e).

Definition klt (a b : Z * Z) : Prop := a.1 < b.1 ∨ (a.1 = b.1 ∧ a.2 < b.2).
Definition kle (a b : Z * Z) : Prop := a.1 < b.1 ∨ (a.1 = b.1 ∧ a.2 ≤ b.2).

#[export] Instance kle_dec a b : Decision (kle a b) := ltac:(unfold kle; solve_decision).
#[export] Instance klt_trans : Transitive klt.
Proof. intros [] [] []. unfold klt. simpl. lia. Qed.

(** Facts about the order on keys are facts about integers. *)
Ltac keys := unfold kle, klt, key in *; cbn [fst snd] in *; lia.

Lemma ev_lt_spec l r : reflect (klt (key l) (key r)) (ev_lt l r).
Proof. apply iff_reflect. unfold ev_lt, klt, key. cbn. rewrite orb_true_iff, andb_true_iff, !Z.ltb_lt, Z.eqb_eq. done. Qed.

Lemma ev_le_spec l r : reflect (kle (key l) (key r)) (ev_le l r).
Proof. apply iff_reflect. unfold ev_le, kle, key. cbn. rewrite orb_true_iff, andb_true_iff, Z.ltb_lt, Z.leb_le, Z.eqb_eq. done. Qed.

Lemma ev_eq_spec l r : reflect (key l = key r) (ev_eq l r).
Proof.
  apply iff_reflect. unfold ev_eq, key. rewrite andb_true_iff, !Z.eqb_eq. split; [by intros [= -> ->]|intros [-> ->]; done].
Qed.

(** ** Linked lists in the heap *)

(** From [p] along the links [f] through the events of [l] to [r]. *)
Fixpoint lseg (f : Event → option ptr) (h : heap) (p : option ptr) (l : list ptr) (r : option ptr) : Prop :=
  match l with
  | [] => p = r
  | x :: l => p = Some x ∧ ∃ e, h !! x = Some e ∧ lseg f h (f e) l r
  end.

Lemma lseg_app f h p l1 l2 r : lseg f h p (l1 ++ l2) r ↔ ∃ m, lseg f h p l1 m ∧ lseg f h m l2 r.
Proof.
  revert p. induction l1 as [|x l1 IH]; intros p; cbn.
  - split; [by exists p|]. by intros (m & -> & ?).
  - split.
    + intros (-> & e & He & (m & H1 & H2)%IH). exists m. eauto.
    + intros (m & (-> & e & He & H1) & H2). split; [done|]. exists e. split; [done|]. apply IH. eauto.
Qed.

Lemma lseg_frame f h h' p l r :
  (∀ x, x ∈ l → f <$> h' !! x = f <$> h !! x) → lseg f h p l r → lseg f h' p l r.
Proof.
  revert p. induction l as [|x l IH]; intros p Hf; [done|]. cbn. intros (-> & e & He & Hl). split; [done|].
  pose proof (Hf x ltac:(left)) as Hx. rewrite He in Hx. cbn in Hx. apply fmap_Some in Hx as (e' & He' & Ee). rewrite Ee in Hl.
  exists e'. split; [done|]. apply IH; [|done]. intros y Hy. apply Hf. by right.
Qed.

Lemma lseg_alloc f h p l r x : lseg f h p l r → x ∈ l → is_Some (h !! x).
Proof.
  revert p. induction l as [|y l IH]; intros p; [by intros _ ?%not_elem_of_nil|]. cbn. intros (-> & e & He & Hl) [->|Hx]%elem_of_cons; [by eexists|].
  by eapply IH.
Qed.

(** Changing the link of the last event of a list. *)
Lemma lseg_relink f h h' p l x r r' :
  (∀ y, y ∈ l → f <$> h' !! y = f <$> h !! y) → (∀ e, h !! x = Some e → ∃ e', h' !! x = Some e' ∧ f e' = r') →
  lseg f h p (l ++ [x]) r → lseg f h' p (l ++ [x]) r'.
Proof.
  intros Hf Hx. rewrite !lseg_app. intros (m & H1 & -> & e & He & _). exists (Some x). split; [by eapply lseg_frame|].
  destruct (Hx e He) as (e' & He' & <-). cbn. eauto.
Qed.

(** As many events as the heap has room for. *)
Lemma nodup_size {V} (h : gmap ptr V) l : NoDup l → (∀ x, x ∈ l → is_Some (h !! x)) → (length l ≤ size h)%nat.
Proof.
  revert h. induction l as [|x l IH]; intros h Hn Hl; cbn; [lia|]. apply NoDup_cons in Hn as [Hx Hn].
  destruct (Hl x ltac:(left)) as [v Hv]. specialize (IH (delete x h) Hn).
  rewrite map_size_delete_Some in IH by (by exists v).
  assert (0 < size h)%nat.
  { assert (size h ≠ 0%nat); [|lia]. intros ->%map_size_empty_inv. by rewrite lookup_empty in Hv. }
  assert (length l ≤ pred (size h))%nat; [|lia]. apply IH. intros y Hy. rewrite lookup_delete_ne; [apply Hl; by right|]. intros ->. done.
Qed.

(** ** Bins *)

(** A bin is its top event and the others below it. *)
Abbreviation bin := (ptr * list ptr)%type.

Definition members (b : bin) : list ptr := b.1 :: b.2.
Definition flat (L : list bin) : list ptr := L ≫= members.

(** The key of an event of the heap. *)
Definition kof (h : heap) (x : ptr) : Z * Z := default (0, 0) (key <$> h !! x).

(** The events of a bin are linked and have one key. *)
Definition bin_ok (h : heap) (b : bin) : Prop :=
  lseg nextInBin h (Some b.1) (members b) None ∧ Forall (λ x, kof h x = kof h b.1) b.2.

(** The bins are in strictly ascending order. *)
Definition ascending (h : heap) (L : list bin) : Prop := StronglySorted (λ a b, klt (kof h a.1) (kof h b.1)) L.

Record bins_ok (h : heap) (p : option ptr) (L : list bin) : Prop := {
  bo_tops : lseg nextBin h p L.*1 None;
  bo_bins : Forall (bin_ok h) L;
  bo_nodup : NoDup (flat L);
  bo_sorted : ascending h L
}.

(** The pending events with their keys, in the order in which they are served. *)
Definition pending (h : heap) (L : list bin) : list (ptr * (Z * Z)) := (λ x, (x, kof h x)) <$> flat L.

(** *** Frames *)

(** What is not a link. *)
Definition core (e : Event) : Z * Z * Z * option Z := (_when e, _priority e, ev_flags e, ev_queue e).
Definition same_core (h h' : heap) : Prop := ∀ x, core <$> h' !! x = core <$> h !! x.

Lemma same_core_kof h h' x : same_core h h' → kof h' x = kof h x.
Proof.
  intros Hc. unfold kof. specialize (Hc x). destruct (h !! x), (h' !! x); try done. cbn in *. unfold core, key in *. congruence.
Qed.

Lemma same_core_trans h1 h2 h3 : same_core h1 h2 → same_core h2 h3 → same_core h1 h3.
Proof. intros H1 H2 x. by rewrite H2. Qed.

Lemma same_core_insert h x e e' : h !! x = Some e → core e' = core e → same_core h (<[x := e']> h).
Proof.
  intros He Hc y. destruct (decide (y = x)) as [->|Hne]; [by rewrite lookup_insert_eq, He; cbn; rewrite Hc|].
  by rewrite lookup_insert_ne.
Qed.

Lemma same_core_size h h' : same_core h h' → size h' = size h.
Proof.
  intros Hc. rewrite <-(map_size_fmap core h), <-(map_size_fmap core h'). f_equal. apply map_eq. intros x. by rewrite !lookup_fmap.
Qed.

Lemma flat_app L1 L2 : flat (L1 ++ L2) = flat L1 ++ flat L2.
Proof. apply bind_app. Qed.

Lemma flat_cons b L : flat (b :: L) = b.1 :: b.2 ++ flat L.
Proof. done. Qed.

Lemma in_flat x L : x ∈ flat L ↔ ∃ b, b ∈ L ∧ x ∈ members b.
Proof. unfold flat. rewrite list_elem_of_bind. naive_solver. Qed.

Lemma top_in_flat x L : x ∈ L.*1 → x ∈ flat L.
Proof. intros (b & -> & Hb)%list_elem_of_fmap. apply in_flat. exists b. split; [done|left]. Qed.

Lemma bin_frame h h' b :
  same_core h h' → (∀ x, x ∈ members b → nextInBin <$> h' !! x = nextInBin <$> h !! x) → bin_ok h b → bin_ok h' b.
Proof.
  intros Hc Hf [H1 H2]. split; [by eapply lseg_frame|]. eapply Forall_impl; [exact H2|]. intros x. cbn.
  by rewrite !(same_core_kof h h').
Qed.

Lemma ascending_frame h h' L : same_core h h' → ascending h L → ascending h' L.
Proof.
  intros Hc. unfold ascending. induction 1 as [|b L _ IH Hb]; constructor; [done|]. eapply Forall_impl; [exact Hb|].
  intros a. cbn. by rewrite !(same_core_kof h h').
Qed.

Lemma bins_frame h h' p L :
  same_core h h' → (∀ x, x ∈ flat L → h' !! x = h !! x) → bins_ok h p L → bins_ok h' p L.
Proof.
  intros Hc Hf [H1 H2 H3 H4]. split; [|rewrite Forall_forall in *|done|by eapply ascending_frame].
  - eapply lseg_frame; [|exact H1]. intros x Hx. by rewrite Hf by by apply top_in_flat.
  - intros b Hb. apply (bin_frame h); [done| |by apply H2]. intros x Hx. rewrite Hf; [done|]. apply in_flat. eauto.
Qed.

Lemma bins_alloc h p L x : bins_ok h p L → x ∈ flat L → is_Some (h !! x).
Proof.
  intros [_ H2 _ _] (b & Hb & Hx)%in_flat. rewrite Forall_forall in H2. destruct (H2 b Hb) as [Hl _]. by eapply lseg_alloc.
Qed.

Lemma bins_length h p L : bins_ok h p L → (length L ≤ size h)%nat ∧ (length (flat L) ≤ size h)%nat.
Proof.
  intros HL. assert (length (flat L) ≤ size h)%nat as Hf.
  { apply nodup_size; [apply HL|]. intros x. by eapply bins_alloc. }
  split; [|done]. etrans; [|exact Hf]. clear. induction L as [|b L IH]; [done|]. rewrite flat_cons. cbn. rewrite length_app. lia.
Qed.

Lemma kof_eq h x e : h !! x = Some e → kof h x = key e.
Proof. unfold kof. by intros ->. Qed.

(** The keys along a list of bins. *)
Lemma member_key h b x : bin_ok h b → x ∈ members b → kof h x = kof h b.1.
Proof. intros [_ Hk] [->|Hx]%elem_of_cons; [done|]. rewrite Forall_forall in Hk. by apply Hk. Qed.

(** ** Insertion *)

(** The event on top of the first bin when it has its key, in a bin of its own before it
    otherwise. *)
Definition put_bin (h : heap) (x : ptr) (k : Z * Z) (B : list bin) : list bin :=
  match B with
  | [] => [(x, [])]
  | b :: B' => if decide (klt k (kof h b.1)) then (x, []) :: B else (x, members b) :: B'
  end.

Lemma flat_put h x k B : flat (put_bin h x k B) = x :: flat B.
Proof. destruct B as [|b B]; [done|]. cbn [put_bin]. by case_decide. Qed.

(** Every key of the list is at least [k]. *)
Definition from_key (h : heap) (k : Z * Z) (B : list bin) : Prop := ∀ b, b ∈ B → kle k (kof h b.1).

Lemma from_key_head h k b B : ascending h (b :: B) → kle k (kof h b.1) → from_key h k (b :: B).
Proof.
  intros [_ Hb]%StronglySorted_inv Hk c [->|Hc]%elem_of_cons; [done|]. rewrite Forall_forall in Hb. specialize (Hb c Hc). keys.
Qed.

Lemma insertBefore_spec h x e p B :
  h !! x = Some e → bins_ok h p B → x ∉ flat B → from_key h (key e) B →
  ∃ e', insertBefore x p h = Ok (<[x := e']> h) ∧ core e' = core e ∧ bins_ok (<[x := e']> h) (Some x) (put_bin h x (key e) B).
Proof.
  intros He HB Hx Hk. unfold insertBefore, deref. rewrite He. cbn [mbind outcome_bind].
  assert (∀ e', core e' = core e → same_core h (<[x := e']> h)) as Hcore by (intros; by apply (same_core_insert h x e)).
  assert (∀ e' y, core e' = core e → kof (<[x := e']> h) y = kof h y) as Hkof by (intros; by apply same_core_kof, Hcore).
  assert (∀ e', core e' = core e → bins_ok (<[x := e']> h) p B) as HB'.
  { intros e' He'. apply (bins_frame h); [by apply Hcore| |done]. intros y Hy. rewrite lookup_insert_ne; [done|]. by intros ->. }
  destruct B as [|b B]; cbn [put_bin].
  - destruct HB as [Ht _ _ _]. cbn in Ht. subst p. eexists. split; [done|]. split; [done|].
    split; [| |apply NoDup_singleton|repeat constructor].
    + cbn. rewrite lookup_insert_eq. eauto.
    + constructor; [|constructor]. split; [|constructor]. cbn. rewrite lookup_insert_eq. eauto.
  - pose proof HB as [Ht Hb Hn Hs]. cbn in Ht. destruct Ht as (-> & bv & Hbv & Ht). rewrite Hbv. cbn [mbind outcome_bind].
    pose proof (Hk b ltac:(left)) as Hkb. rewrite (kof_eq _ _ _ Hbv) in *.
    destruct (ev_lt_spec e bv) as [Hlt|Hge].
    + rewrite decide_True by done. eexists. split; [done|]. split; [done|]. destruct (HB' _ (eq_refl : core (with_nextInBin None (with_nextBin (Some b.1) e)) = core e)) as [T1 T2 T3 T4].
      split.
      * cbn [fmap list_fmap fst]. split; [done|]. eexists. split; [apply lookup_insert_eq|exact T1].
      * constructor; [|exact T2]. split; [|constructor]. cbn. rewrite lookup_insert_eq. eauto.
      * change (flat ((x, []) :: b :: B)) with (x :: flat (b :: B)). by constructor.
      * constructor; [exact T4|]. apply Forall_forall. intros c Hc. cbn. rewrite !Hkof by done.
        rewrite (kof_eq h x e He). specialize (Hk c Hc). apply elem_of_cons in Hc as [->|Hc]; [by rewrite (kof_eq _ _ _ Hbv)|].
        apply StronglySorted_inv in Hs as [_ Hs]. rewrite Forall_forall in Hs. specialize (Hs c Hc). rewrite (kof_eq _ _ _ Hbv) in Hs. keys.
    + rewrite decide_False by done. assert (key bv = key e) as Eb by (unfold key in *; f_equal; keys).
      eexists. split; [done|]. split; [done|].
      set (e' := with_nextInBin (Some b.1) (with_nextBin (nextBin bv) e)). destruct (HB' e' eq_refl) as [T1 T2 T3 T4].
      cbn in T1. destruct T1 as (_ & bv' & Hbv' & T1). apply Forall_cons in T2 as [T2 T2'].
      assert (bv' = bv) as -> by (rewrite lookup_insert_ne in Hbv' by (intros ->; apply Hx; left); congruence).
      split.
      * cbn [fmap list_fmap fst]. split; [done|]. eexists. split; [apply lookup_insert_eq|exact T1].
      * constructor; [|done]. split.
        -- cbn [fst]. split; [done|]. exists e'. split; [apply lookup_insert_eq|]. apply T2.
        -- cbn [fst snd]. apply Forall_forall. intros y Hy. rewrite (member_key _ b) by done.
           rewrite !Hkof by done. by rewrite (kof_eq _ _ _ He), (kof_eq _ _ _ Hbv).
      * change (flat ((x, members b) :: B)) with (x :: flat (b :: B)). by constructor.
      * apply StronglySorted_inv in T4 as [T4 T4']. constructor; [done|]. eapply Forall_impl; [exact T4'|]. intros c. cbn.
        rewrite !Hkof by done. by rewrite (kof_eq _ _ _ He), (kof_eq _ _ _ Hbv), Eb.
Qed.

Definition first_top (B : list bin) : option ptr := match B with [] => None | b :: _ => Some b.1 end.

Lemma first_top_lseg h p B : lseg nextBin h p B.*1 None → p = first_top B.
Proof. destruct B; cbn; [done|]. by intros [-> _]. Qed.

(** The loop that looks for the bin: [A] are the bins before the event's. *)
Lemma find_bin_spec h e L : ∀ fuel prev curr,
  lseg nextBin h curr L.*1 None → ascending h L → (length L < fuel)%nat →
  ∃ A B, L = A ++ B ∧ find_bin fuel e prev curr h = Ok (default prev (last A.*1), first_top B) ∧
    (∀ b, b ∈ A → klt (kof h b.1) (key e)) ∧ from_key h (key e) B.
Proof.
  induction L as [|b L IH]; intros [|fuel] prev curr Hl Hs Hlen; try (cbn in Hlen; lia); cbn [find_bin].
  { cbn in Hl. subst curr. exists [], []. split_and!; try done; by intros ? ?%not_elem_of_nil. }
  cbn in Hl. destruct Hl as (-> & bv & Hbv & Hl). unfold deref. rewrite Hbv. cbn [mbind outcome_bind].
  destruct (ev_lt_spec bv e) as [Hlt|Hge].
  - apply StronglySorted_inv in Hs as [Hs Hb]. destruct (IH fuel b.1 (nextBin bv) Hl Hs ltac:(cbn in Hlen; lia)) as (A & B & -> & -> & HA & HB).
    exists (b :: A), B. split; [done|]. split; [|split; [|done]].
    + do 2 f_equal. cbn [fmap list_fmap]. rewrite last_cons. by destruct (last A.*1).
    + intros c [->|Hc]%elem_of_cons; [by rewrite (kof_eq _ _ _ Hbv)|by apply HA].
  - exists [], (b :: L). split; [done|]. split; [done|]. split; [by intros ? ?%not_elem_of_nil|].
    apply from_key_head; [done|]. rewrite (kof_eq _ _ _ Hbv). keys.
Qed.

(** The part of a queue before a bin, and that bin, joined to another list of bins. *)
Lemma relink h h1 p q P t r B B' :
  bins_ok h p (P ++ (t, r) :: B) → bins_ok h1 q B' → same_core h h1 →
  (∀ y, y ∈ flat (P ++ [(t, r)]) → h1 !! y = h !! y) → (∀ y, y ∈ flat B' → y ∉ flat (P ++ [(t, r)])) →
  (∀ a b, a ∈ P ++ [(t, r)] → b ∈ B' → klt (kof h a.1) (kof h b.1)) →
  ∃ tv, h1 !! t = Some tv ∧ same_core h1 (<[t := with_nextBin q tv]> h1) ∧ bins_ok (<[t := with_nextBin q tv]> h1) p (P ++ (t, r) :: B').
Proof.
  intros HL HB' Hc Hf Hdis Hord. rewrite cons_middle, app_assoc in HL. rewrite cons_middle, app_assoc. set (P1 := P ++ [(t, r)]) in *.
  assert (t ∈ flat P1) as Ht by (apply in_flat; exists (t, r); split; [unfold P1; set_solver|left]).
  assert (∃ tv, h !! t = Some tv) as [tv Htv] by (apply (bins_alloc h p (P1 ++ B)); [done|rewrite flat_app; set_solver]).
  exists tv. rewrite (Hf t Ht). split; [done|].
  set (h2 := <[t := with_nextBin q tv]> h1).
  assert (same_core h1 h2) as Hc2 by (apply (same_core_insert _ _ tv); [by rewrite Hf|done]). split; [done|].
  assert (∀ y, y ≠ t → h2 !! y = h1 !! y) as Hf2 by (intros y Hy; unfold h2; by rewrite lookup_insert_ne).
  assert (∀ y, kof h2 y = kof h y) as Hk by (intros y; by rewrite (same_core_kof h1 h2), (same_core_kof h h1)).
  destruct HL as [T1 T2 T3 T4]. destruct HB' as [B1 B2 B3 B4]. unfold ascending in *.
  rewrite fmap_app, lseg_app in T1. destruct T1 as (m & T1 & _). rewrite flat_app in T3. apply NoDup_app in T3 as (T3 & _ & _).
  apply Forall_app in T2 as [T2 _]. apply StronglySorted_app in T4 as (_ & T4 & _).
  assert (∀ y, y ∈ flat P1 → nextInBin <$> h2 !! y = nextInBin <$> h !! y) as Hin.
  { intros y Hy. destruct (decide (y = t)) as [->|Hne]; [|by rewrite Hf2, Hf]. unfold h2. by rewrite lookup_insert_eq, Htv. }
  split.
  - rewrite fmap_app, lseg_app. exists q. split.
    + unfold P1 in *. rewrite fmap_app in *. cbn in *. eapply lseg_relink; [| |exact T1].
      * intros y Hy. assert (y ∈ flat P) as HyP by by apply top_in_flat. rewrite flat_app in T3. apply NoDup_app in T3 as (_ & T3 & _).
        rewrite Hf2, Hf; [done|rewrite flat_app; set_solver|]. intros ->. apply (T3 t HyP). left.
      * intros e _. unfold h2. rewrite lookup_insert_eq. by eexists.
    + eapply lseg_frame; [|exact B1]. intros y Hy%top_in_flat. rewrite Hf2; [done|]. intros ->. by apply (Hdis t).
  - apply Forall_app. split; apply Forall_forall; intros b Hb.
    + apply (bin_frame h); [by eapply same_core_trans| |by eapply (proj1 (Forall_forall _ _)) in T2].
      intros y Hy. apply Hin. apply in_flat. eauto.
    + apply (bin_frame h1); [done| |by eapply (proj1 (Forall_forall _ _)) in B2]. intros y Hy. rewrite Hf2; [done|]. intros ->.
      apply (Hdis t); [apply in_flat; eauto|done].
  - rewrite flat_app. apply NoDup_app. split_and!; [done| |done]. intros y Hy Hy'. by apply (Hdis y).
  - apply StronglySorted_app. split_and!.
    + intros a b Ha Hb. rewrite !Hk. by apply Hord.
    + apply (ascending_frame h h2 P1); [by eapply same_core_trans|done].
    + by apply (ascending_frame h1 h2 B').
Qed.

(** The reference operation: before the first pending event that is not earlier. *)
Fixpoint enqueue (x : ptr * (Z * Z)) (l : list (ptr * (Z * Z))) : list (ptr * (Z * Z)) :=
  match l with
  | [] => [x]
  | y :: l' => if decide (kle x.2 y.2) then x :: l else y :: enqueue x l'
  end.

Lemma enqueue_at x l1 l2 :
  Forall (λ y, klt y.2 x.2) l1 → (∀ y, y ∈ l2 → kle x.2 y.2) → enqueue x (l1 ++ l2) = l1 ++ x :: l2.
Proof.
  induction 1 as [|y l1 Hy _ IH]; intros H2; cbn.
  - destruct l2 as [|y l2]; [done|]. cbn. rewrite decide_True; [done|]. apply H2. left.
  - rewrite decide_False by keys. by rewrite IH.
Qed.

Lemma pending_app h L1 L2 : pending h (L1 ++ L2) = pending h L1 ++ pending h L2.
Proof. unfold pending. by rewrite flat_app, fmap_app. Qed.

Lemma pending_core h h' L : same_core h h' → pending h' L = pending h L.
Proof. intros Hc. unfold pending. apply list_fmap_ext. intros i x _. by rewrite (same_core_kof h h'). Qed.

Lemma pending_key h p L y : bins_ok h p L → y ∈ pending h L → ∃ b, b ∈ L ∧ y.2 = kof h b.1.
Proof.
  intros HL (x & -> & (b & Hb & Hx)%in_flat)%list_elem_of_fmap. exists b. split; [done|]. cbn. apply member_key; [|done].
  pose proof (bo_bins _ _ _ HL) as HF. rewrite Forall_forall in HF. by apply HF.
Qed.

Lemma pending_put h h' x e B :
  h !! x = Some e → same_core h h' → pending h' (put_bin h x (key e) B) = (x, key e) :: pending h B.
Proof.
  intros He Hc. unfold pending. rewrite flat_put. cbn [fmap list_fmap]. rewrite (same_core_kof h h'), (kof_eq _ _ _ He) by done. f_equal.
  by apply pending_core.
Qed.

Lemma put_keys h x e B b : h !! x = Some e → from_key h (key e) B → b ∈ put_bin h x (key e) B → kle (key e) (kof h b.1).
Proof.
  intros He Hk. destruct B as [|c B]; cbn [put_bin].
  - intros ->%list_elem_of_singleton. cbn. rewrite (kof_eq _ _ _ He). keys.
  - case_decide; intros [->|Hb]%elem_of_cons; cbn; try (rewrite (kof_eq _ _ _ He); keys); apply Hk; [done|by right].
Qed.

(** The bins from some point on. *)
Lemma bins_suffix h p A B : bins_ok h p (A ++ B) → bins_ok h (first_top B) B.
Proof.
  intros [T1 T2 T3 T4]. rewrite fmap_app, lseg_app in T1. destruct T1 as (m & _ & T1).
  rewrite flat_app in T3. apply NoDup_app in T3 as (_ & _ & T3). apply Forall_app in T2 as [_ T2].
  apply StronglySorted_app in T4 as (_ & _ & T4). split; [|done..]. by rewrite <-(first_top_lseg _ _ _ T1).
Qed.

(** The last bin before some point, where the loop stops. *)
Lemma last_before (b0 : bin) A : ∃ P t r, b0 :: A = P ++ [(t, r)] ∧ default b0.1 (last A.*1) = t.
Proof.
  destruct (exists_last (l := b0 :: A)) as (P & [t r] & EP); [done|]. exists P, t, r. split; [done|].
  assert (last (b0 :: A).*1 = Some t) as El by (rewrite EP, fmap_app; apply last_snoc).
  cbn in El. rewrite last_cons in El. destruct (last A.*1); by injection El.
Qed.

Lemma flat_disjoint h p A B y : bins_ok h p (A ++ B) → y ∈ flat B → y ∉ flat A.
Proof. intros HL Hy Hy'. pose proof (bo_nodup _ _ _ HL) as Hn. rewrite flat_app in Hn. apply NoDup_app in Hn as (_ & Hn & _). by apply (Hn y). Qed.

(** An insertion in front. *)
Lemma insert_front q x e L :
  eq_heap q !! x = Some e → bins_ok (eq_heap q) (head q) L → x ∉ flat L → from_key (eq_heap q) (key e) L →
  ∃ h' p' L', (h ← insertBefore x (head q) (eq_heap q); Ok (with_head q h (Some x))) = Ok (with_head q h' p') ∧
    same_core (eq_heap q) h' ∧ bins_ok h' p' L' ∧ pending h' L' = enqueue (x, key e) (pending (eq_heap q) L).
Proof.
  intros He HL Hx Hk. destruct (insertBefore_spec _ x e (head q) L He HL Hx Hk) as (e' & -> & Hc & HL'). run_ok.
  assert (same_core (eq_heap q) (<[x := e']> (eq_heap q))) as Hsc by by apply (same_core_insert _ _ e).
  eexists _, _, _. split; [done|]. split; [done|]. split; [exact HL'|]. rewrite (pending_put (eq_heap q)) by done.
  symmetry. apply (enqueue_at (x, key e) []); [constructor|]. intros y (b & Hb & ->)%(pending_key _ (head q)); [|done]. by apply Hk.
Qed.

(** An insertion after the bins [A], the last of them being [(t, r)]. *)
Lemma insert_after h x e p P t r B :
  h !! x = Some e → bins_ok h p (P ++ (t, r) :: B) → x ∉ flat (P ++ (t, r) :: B) →
  (∀ b, b ∈ P ++ [(t, r)] → klt (kof h b.1) (key e)) → from_key h (key e) B →
  ∃ h' L', (h1 ← insertBefore x (first_top B) h; update (with_nextBin (Some x)) t h1) = Ok h' ∧ same_core h h' ∧ bins_ok h' p L' ∧
    pending h' L' = enqueue (x, key e) (pending h (P ++ (t, r) :: B)).
Proof.
  intros He HL Hx HA HB. pose proof HL as HL1. rewrite cons_middle, app_assoc in HL1, Hx. pose proof (bins_suffix _ _ _ _ HL1) as HB0.
  assert (¬ x ∈ flat (P ++ [(t, r)]) ∧ ¬ x ∈ flat B) as [HxP HxB] by (rewrite flat_app in Hx; set_solver).
  destruct (insertBefore_spec h x e (first_top B) B He HB0 HxB HB) as (e' & -> & Hc & HB1). run_ok.
  assert (same_core h (<[x := e']> h)) as Hsc by by apply (same_core_insert _ _ e).
  destruct (relink h (<[x := e']> h) p (Some x) P t r B (put_bin h x (key e) B) HL HB1 Hsc) as (tv & Htv & Hsc2 & HL2).
  - intros y Hy. apply lookup_insert_ne. by intros ->.
  - intros y Hy. rewrite flat_put in Hy. apply elem_of_cons in Hy as [->|Hy]; [done|]. by eapply flat_disjoint.
  - intros a b Ha Hb. pose proof (put_keys _ _ _ _ _ He HB Hb). specialize (HA a Ha). keys.
  - unfold update, deref. rewrite Htv. cbn [mbind outcome_bind].
    eexists _, _. split; [done|]. split; [by eapply same_core_trans|]. split; [exact HL2|].
    rewrite (pending_core _ _ _ Hsc2), !(cons_middle (t, r) P), !app_assoc, !(pending_app _ (P ++ [(t, r)])), (pending_put h) by done.
    rewrite (pending_core _ _ _ Hsc). symmetry. apply enqueue_at.
    + apply Forall_forall. intros y (z & -> & (b & Hb & Hz)%in_flat)%list_elem_of_fmap. cbn [snd].
      pose proof (bo_bins _ _ _ HL1) as HF. rewrite Forall_forall in HF. rewrite (member_key _ b) by first [done|apply HF; set_solver]. by apply HA.
    + intros y (b & Hb & ->)%(pending_key h (first_top B)); [|done]. by apply HB.
Qed.

Lemma insert_refines q x e L :
  eq_heap q !! x = Some e → bins_ok (eq_heap q) (head q) L → x ∉ flat L →
  ∃ h' p' L', insert x q = Ok (with_head q h' p') ∧ same_core (eq_heap q) h' ∧ bins_ok h' p' L' ∧
    pending h' L' = enqueue (x, key e) (pending (eq_heap q) L).
Proof.
  intros He HL Hx. pose proof (insert_front q x e L He HL Hx) as Hfront. unfold insert, deref. rewrite He. cbn [mbind outcome_bind].
  pose proof HL as [Ht _ _ Hs]. destruct L as [|b0 L0]; cbn in Ht.
  { rewrite Ht in *. apply Hfront. by intros ? ?%not_elem_of_nil. }
  destruct Ht as (Eh & v0 & Hv0 & Ht). rewrite Eh in *. rewrite Hv0. cbn [mbind outcome_bind].
  destruct (ev_le_spec e v0) as [Hle|Hgt].
  { apply Hfront, from_key_head; [done|]. by rewrite (kof_eq _ _ _ Hv0). }
  clear Hfront. apply StronglySorted_inv in Hs as [Hs0 _]. set (h := eq_heap q) in *.
  destruct (find_bin_spec h e L0 (S (size h)) b0.1 (nextBin v0) Ht Hs0) as (A & B & -> & -> & HA & HB).
  { pose proof (bins_length _ _ _ HL) as [Hlen _]. cbn in Hlen. lia. }
  run_ok. destruct (last_before b0 A) as (P & t & r & EP & ->). change (b0 :: A ++ B) with ((b0 :: A) ++ B) in *.
  rewrite EP, <-app_assoc in *. cbn [app] in *.
  destruct (insert_after h x e (Some b0.1) P t r B He HL Hx) as (h' & L' & E & Hsc & HL' & Hp); [|done|].
  { intros b Hb. rewrite <-EP in Hb. apply elem_of_cons in Hb as [->|Hb]; [rewrite (kof_eq _ _ _ Hv0); keys|by apply HA]. }
  apply outcome_bind_ok in E as (h1 & -> & E). run_ok. rewrite E. run_ok.
  exists h', (Some b0.1), L'. split; [|done]. unfold with_heap, with_head. by rewrite Eh.
Qed.

(** ** Removal *)

Definition remove_bin (x : ptr) (b : bin) : list bin :=
  if decide (x = b.1) then match b.2 with [] => [] | n :: r => [(n, r)] end
  else [(b.1, filter (λ y, y ≠ x) b.2)].

Lemma filter_absent (x : ptr) (l : list ptr) : x ∉ l → filter (λ y, y ≠ x) l = l.
Proof.
  induction l as [|y l IH]; [done|]. intros [Hy Hl]%not_elem_of_cons. by rewrite filter_cons_True, IH.
Qed.

Lemma flat_remove x b B : NoDup (flat (b :: B)) → x ∈ members b → flat (remove_bin x b ++ B) = filter (λ y, y ≠ x) (flat (b :: B)).
Proof.
  intros Hn Hx. rewrite flat_app, flat_cons in *. destruct b as [t r]. cbn [fst snd members] in *. apply NoDup_cons in Hn as [Ht Hn].
  apply NoDup_app in Hn as (_ & Hd & _). rewrite not_elem_of_app in Ht. unfold remove_bin. cbn [fst snd]. destruct (decide (x = t)) as [->|Hne].
  - rewrite filter_cons_False, filter_app, !filter_absent by naive_solver. by destruct r; cbn; rewrite ?app_nil_r.
  - rewrite filter_cons_True, filter_app by done. apply elem_of_cons in Hx as [|Hx]; [done|]. cbn. rewrite app_nil_r. do 2 f_equal.
    symmetry. apply filter_absent. intros Hx'. by apply (Hd x).
Qed.

(** The loop that looks for the event in its bin: it stops at the event before it. *)
Lemma find_in_bin_spec h x l1 l2 : ∀ fuel curr next,
  lseg nextInBin h next (l1 ++ x :: l2) None → x ∉ l1 → (length l1 < fuel)%nat →
  find_in_bin fuel x curr next h = Ok (default curr (last l1)).
Proof.
  induction l1 as [|y l1 IH]; intros [|fuel] curr next Hl Hx Hf; try (cbn in Hf; lia); cbn in Hl; cbn [find_in_bin].
  - destruct Hl as [-> _]. by rewrite decide_True.
  - destruct Hl as (-> & e & He & Hl). rewrite decide_False by set_solver. unfold deref. rewrite He. cbn [mbind outcome_bind].
    rewrite (IH fuel y (nextInBin e) Hl) by (set_solver || cbn in Hf; lia). f_equal. rewrite last_cons. by destruct (last l1).
Qed.

(** Below the top. *)
Lemma removeItem_below h t r x :
  bin_ok h (t, r) → NoDup (t :: r) → x ∈ r →
  ∃ y yv yv', h !! y = Some yv ∧ y ∈ t :: r ∧ core yv' = core yv ∧ nextBin yv' = nextBin yv ∧
    removeItem x t h = Ok (Some t, <[y := yv']> h) ∧ bin_ok (<[y := yv']> h) (t, filter (λ y, y ≠ x) r).
Proof.
  intros [Hl Hk] Hn (l1 & l2 & ->)%list_elem_of_split. cbn [fst snd] in Hk.
  change (lseg nextInBin h (Some t) (t :: l1 ++ x :: l2) None) in Hl.
  assert (x ≠ t ∧ ¬ x ∈ l1 ∧ ¬ x ∈ l2) as (Hxt & Hx1 & Hx2).
  { apply NoDup_cons in Hn as [Ht Hn]. apply NoDup_app in Hn as (_ & Hd & [Hx _]%NoDup_cons). split_and!; [set_solver| |done]. intros Hx'. apply (Hd x Hx'). left. }
  assert (filter (λ y, y ≠ x) (l1 ++ x :: l2) = l1 ++ l2) as ->.
  { rewrite filter_app, filter_cons_False, !filter_absent by naive_solver. done. }
  pose proof Hl as (_ & tv & Htv & Hl'). fold lseg in Hl'. unfold removeItem, deref. rewrite Htv. cbn [mbind outcome_bind]. rewrite decide_False by done.
  rewrite (find_in_bin_spec h x l1 l2 _ _ _ Hl' Hx1).
  - run_ok. rewrite app_comm_cons in Hl. apply lseg_app in Hl as Hl2. destruct Hl2 as (m & H1 & -> & xv & Hxv & H2).
    rewrite Hxv. cbn [mbind outcome_bind].
    destruct (exists_last (l := t :: l1)) as (P & y & EP); [done|]. assert (default t (last l1) = y) as ->.
    { assert (last (t :: l1) = Some y) as El by (rewrite EP; apply last_snoc). rewrite last_cons in El. destruct (last l1); by injection El. }
    rewrite EP in *. destruct (lseg_alloc _ _ _ _ _ y H1 ltac:(set_solver)) as [yv Hyv]. unfold update, deref. rewrite Hyv. cbn [mbind outcome_bind].
    exists y, yv, (with_nextInBin (nextInBin xv) yv). split_and!; try done.
    + change (t :: l1 ++ x :: l2) with ((t :: l1) ++ x :: l2). rewrite EP. set_solver.
    + set (h' := <[y := _]> h). assert (same_core h h') as Hc by by apply (same_core_insert _ _ yv).
      assert (NoDup ((P ++ [y]) ++ x :: l2)) as Hn' by by rewrite <-EP. apply NoDup_app in Hn' as (HnP & Hd & _). apply NoDup_app in HnP as (_ & HyP & _).
      split; cbn [fst snd].
      * change (members (t, l1 ++ l2)) with ((t :: l1) ++ l2). rewrite EP. apply lseg_app. exists (nextInBin xv). split.
        -- eapply lseg_relink; [| |exact H1].
           ++ intros z Hz. unfold h'. rewrite lookup_insert_ne; [done|]. intros <-. apply (HyP y Hz). left.
           ++ intros v _. unfold h'. rewrite lookup_insert_eq. by eexists.
        -- eapply lseg_frame; [|exact H2]. intros z Hz. unfold h'. rewrite lookup_insert_ne; [done|]. intros <-. apply (Hd y); set_solver.
      * apply Forall_app in Hk as [Hk1 Hk2]. apply Forall_cons in Hk2 as [_ Hk2]. apply Forall_app.
        split; (eapply Forall_impl; [eassumption|]); intros z; cbn; by rewrite !(same_core_kof h h').
  - pose proof (nodup_size h (t :: l1 ++ x :: l2) Hn (λ y, lseg_alloc _ _ _ _ _ y Hl)) as Hlen. cbn in Hlen. rewrite length_app in Hlen. lia.
Qed.

Lemma bins_cons h p b B : bins_ok h p (b :: B) → ∃ bv, p = Some b.1 ∧ h !! b.1 = Some bv ∧ bins_ok h (nextBin bv) B ∧ bin_ok h b ∧
  NoDup (members b) ∧ (∀ y, y ∈ members b → y ∉ flat B) ∧ Forall (λ c, klt (kof h b.1) (kof h c.1)) B.
Proof.
  intros HL. pose proof HL as [T1 T2 T3 T4]. cbn in T1. destruct T1 as (-> & bv & Hbv & T1). exists bv.
  pose proof (bins_suffix h _ [b] B HL) as HB. rewrite <-(first_top_lseg _ _ _ T1) in HB. apply Forall_cons in T2 as [T2 _].
  change (flat (b :: B)) with (members b ++ flat B) in T3. apply NoDup_app in T3 as (T3 & T3' & _).
  apply StronglySorted_inv in T4 as [_ T4]. done.
Qed.

(** A bin with another top in front of the same bins. *)
Lemma bins_retop h h' n r bv b B :
  bins_ok h (nextBin bv) B → same_core h h' → (∀ y, y ∈ flat B → h' !! y = h !! y) → bin_ok h' (n, r) → NoDup (n :: r) →
  (∀ y, y ∈ n :: r → y ∉ flat B) → kof h n = kof h b → Forall (λ c, klt (kof h b) (kof h c.1)) B →
  (∃ nv, h' !! n = Some nv ∧ nextBin nv = nextBin bv) → bins_ok h' (Some n) ((n, r) :: B).
Proof.
  intros HB Hc Hf Hb Hn Hd Hk Hs (nv & Hnv & Enb). destruct (bins_frame h h' _ _ Hc Hf HB) as [T1 T2 T3 T4]. split.
  - cbn. split; [done|]. exists nv. by rewrite Enb.
  - by constructor.
  - change (flat ((n, r) :: B)) with ((n :: r) ++ flat B). apply NoDup_app. done.
  - constructor; [done|]. eapply Forall_impl; [exact Hs|]. intros c. cbn. by rewrite !(same_core_kof h h'), Hk.
Qed.

Lemma removeItem_spec h p b B x :
  bins_ok h p (b :: B) → x ∈ members b →
  ∃ p' h', removeItem x b.1 h = Ok (p', h') ∧ same_core h h' ∧ bins_ok h' p' (remove_bin x b ++ B) ∧ (∀ y, y ∉ members b → h' !! y = h !! y).
Proof.
  intros HL Hx. destruct (bins_cons _ _ _ _ HL) as (bv & _ & Hbv & HB & Hb & Hn & Hd & Hs). destruct b as [t r]. cbn [fst snd] in *.
  unfold remove_bin. cbn [fst snd]. destruct (decide (x = t)) as [->|Hne].
  - unfold removeItem, deref. rewrite Hbv. cbn [mbind outcome_bind]. rewrite decide_True by done.
    destruct r as [|n r]; cbn [app]; destruct Hb as [Hl Hk]; cbn in Hl; destruct Hl as (_ & bv' & Hbv' & Hl); simplify_eq.
    + rewrite Hl. eexists _, _. split; [done|]. done.
    + destruct Hl as (-> & nv & Hnv & Hl). unfold update, deref. rewrite Hnv. cbn [mbind outcome_bind].
      set (h' := <[n := with_nextBin (nextBin bv) nv]> h). assert (same_core h h') as Hc by by apply (same_core_insert _ _ nv).
      assert (∀ y, y ≠ n → h' !! y = h !! y) as Hf by (intros; unfold h'; by rewrite lookup_insert_ne).
      exists (Some n), h'. split; [done|]. split; [done|]. apply NoDup_cons in Hn as [_ Hn].
      cbn [snd] in Hk. apply Forall_cons in Hk as [Hkn Hk]. cbn in Hkn.
      split; [|intros y Hy; apply Hf; intros ->; apply Hy; right; left].
      apply (bins_retop h h' n r bv t B); try done.
      * intros y Hy. apply Hf. intros ->. apply (Hd n); [right; left|done].
      * apply NoDup_cons in Hn as [Hnr _]. split; cbn [fst snd members].
        -- cbn. split; [done|]. unfold h'. rewrite lookup_insert_eq. eexists. split; [done|].
           eapply lseg_frame; [|exact Hl]. intros y Hy. fold h'. rewrite Hf; [done|]. by intros ->.
        -- eapply Forall_impl; [exact Hk|]. intros y. cbn. rewrite !(same_core_kof h h') by done. by rewrite Hkn.
      * intros y Hy. apply Hd. by right.
      * unfold h'. rewrite lookup_insert_eq. by eexists.
  - apply elem_of_cons in Hx as [|Hx]; [done|].
    destruct (removeItem_below h t r x Hb Hn Hx) as (y & yv & yv' & Hyv & Hy & Hc & Enb & -> & Hb').
    assert (same_core h (<[y := yv']> h)) as Hsc by by apply (same_core_insert _ _ yv).
    assert (∀ z, z ≠ y → <[y := yv']> h !! z = h !! z) as Hf by (intros; by rewrite lookup_insert_ne).
    eexists _, _. split; [done|]. split; [done|]. split; [|intros z Hz; apply Hf; by intros ->].
    apply (bins_retop h _ t _ bv t B); try done.
    + intros z Hz. apply Hf. intros ->. by apply (Hd y).
    + apply NoDup_cons in Hn as [Ht Hn]. constructor; [rewrite list_elem_of_filter; by intros [_ ?]|by apply NoDup_filter].
    + intros z Hz. apply Hd. apply elem_of_cons in Hz as [->|[_ Hz]%list_elem_of_filter]; [left|by right].
    + destruct (decide (y = t)) as [->|Hyt]; [rewrite lookup_insert_eq; exists yv'; split; [done|]; congruence|].
      exists bv. by rewrite Hf.
Qed.

(** The reference operation. *)
Definition dequeue (x : ptr) (l : list (ptr * (Z * Z))) : list (ptr * (Z * Z)) := filter (λ y, y.1 ≠ x) l.

Lemma pending_dequeue h h' x L L' :
  same_core h h' → flat L' = filter (λ y, y ≠ x) (flat L) → pending h' L' = dequeue x (pending h L).
Proof.
  intros Hc E. unfold pending, dequeue. rewrite E. generalize (flat L) as l. induction l as [|y l IH]; [done|].
  cbn [fmap list_fmap]. destruct (decide (y = x)) as [->|Hne].
  - rewrite !filter_cons_False by (cbn; naive_solver). exact IH.
  - rewrite !filter_cons_True by done. cbn. by rewrite (same_core_kof h h'), IH.
Qed.

Lemma flat_key h p L c x : bins_ok h p L → c ∈ L → x ∈ members c → kof h x = kof h c.1.
Proof. intros HL Hc Hx. apply member_key; [|done]. pose proof (bo_bins _ _ _ HL) as HF. rewrite Forall_forall in HF. by apply HF. Qed.

(** An event with the key of the first bin is in the first bin, when no bin is earlier. *)
Lemma bin_of_key h p b B x : bins_ok h p (b :: B) → x ∈ flat (b :: B) → kof h x = kof h b.1 → x ∈ members b.
Proof.
  intros HL (c & Hc & Hx)%in_flat Hk. destruct (bins_cons _ _ _ _ HL) as (_ & _ & _ & _ & _ & _ & _ & Hs).
  rewrite (flat_key _ _ _ _ _ HL Hc Hx) in Hk.
  apply elem_of_cons in Hc as [->|Hc]; [done|]. rewrite Forall_forall in Hs. specialize (Hs c Hc). rewrite Hk in Hs. keys.
Qed.

Lemma filter_flat_app x A B : x ∉ flat A → filter (λ y, y ≠ x) (flat (A ++ B)) = flat A ++ filter (λ y, y ≠ x) (flat B).
Proof. intros Hx. by rewrite flat_app, filter_app, filter_absent. Qed.

Lemma remove_bin_keys x b c h : bin_ok h b → c ∈ remove_bin x b → kof h c.1 = kof h b.1 ∧ ∀ y, y ∈ members c → y ∈ members b.
Proof.
  intros [_ Hk] Hc. destruct b as [t r]. unfold remove_bin in Hc. cbn [fst snd] in *. case_decide.
  - destruct r as [|n r]; [by apply not_elem_of_nil in Hc|]. apply list_elem_of_singleton in Hc as ->. apply Forall_cons in Hk as [Hk _].
    split; [done|]. intros y Hy. by right.
  - apply list_elem_of_singleton in Hc as ->. split; [done|]. cbn [members fst snd]. intros y [->|[_ Hy]%list_elem_of_filter]%elem_of_cons; [left|by right].
Qed.

(** A removal from the bin after [(t, r)]. *)
Lemma remove_after h x p P t r b B :
  bins_ok h p (P ++ (t, r) :: b :: B) → x ∈ members b →
  ∃ p1 h1 h' L', removeItem x b.1 h = Ok (p1, h1) ∧ update (with_nextBin p1) t h1 = Ok h' ∧ same_core h h' ∧ bins_ok h' p L' ∧
    pending h' L' = dequeue x (pending h (P ++ (t, r) :: b :: B)).
Proof.
  intros HL Hx. pose proof HL as HL1. rewrite cons_middle, app_assoc in HL1. pose proof (bins_suffix _ _ _ _ HL1) as HB.
  destruct (removeItem_spec h _ b B x HB Hx) as (p1 & h1 & E & Hc & HB1 & Hf).
  destruct (bins_cons _ _ _ _ HB) as (_ & _ & _ & _ & Hb & _ & _ & Hs). rewrite Forall_forall in Hs.
  assert (∀ y, y ∈ flat (remove_bin x b ++ B) → y ∈ flat (b :: B)) as Hsub.
  { intros y. rewrite flat_remove by (done || apply HB). by intros [_ ?]%list_elem_of_filter. }
  destruct (relink h h1 p p1 P t r (b :: B) (remove_bin x b ++ B) HL HB1 Hc) as (tv & Htv & Hc2 & HL2).
  - intros y Hy. apply Hf. intros Hy'. eapply (flat_disjoint _ _ _ _ y HL1); [|done]. change (y ∈ members b ++ flat B). set_solver.
  - intros y Hy%Hsub. by eapply flat_disjoint.
  - pose proof (bo_sorted _ _ _ HL1) as Hso. apply StronglySorted_app in Hso as (Hso & _ & _).
    intros a c Ha Hc'. apply elem_of_app in Hc' as [Hc'|Hc'].
    + destruct (remove_bin_keys x b c h Hb Hc') as [-> _]. apply Hso; [done|left].
    + apply Hso; [done|by right].
  - exists p1, h1, (<[t := with_nextBin p1 tv]> h1), (P ++ (t, r) :: remove_bin x b ++ B). split; [done|].
    split; [unfold update, deref; by rewrite Htv|]. split; [by eapply same_core_trans|]. split; [done|].
    apply pending_dequeue; [by eapply same_core_trans|]. rewrite !(cons_middle (t, r) P), !app_assoc. rewrite <-app_assoc, (flat_app (P ++ _)).
    rewrite filter_flat_app; [by rewrite flat_remove by (done || apply HB)|].
    eapply (flat_disjoint _ _ _ _ x HL1). change (x ∈ members b ++ flat B). set_solver.
Qed.

Lemma remove_refines q x e L :
  eq_heap q !! x = Some e → ev_queue e = Some (eq_id q) → bins_ok (eq_heap q) (head q) L → x ∈ flat L →
  ∃ h' p' L', remove x q = Ok (with_head q h' p') ∧ same_core (eq_heap q) h' ∧ bins_ok h' p' L' ∧
    pending h' L' = dequeue x (pending (eq_heap q) L).
Proof.
  intros He Hq HL Hx. unfold remove, deref. destruct L as [|b0 L0]; [by apply not_elem_of_nil in Hx|].
  destruct (bins_cons _ _ _ _ HL) as (v0 & Eh & Hv0 & HB0 & Hb0 & _ & _ & _). rewrite Eh, He. cbn [mbind outcome_bind].
  rewrite bool_decide_true by done. cbn [assert_that mbind outcome_bind]. rewrite Hv0. cbn [mbind outcome_bind].
  rewrite Eh in HL. set (h := eq_heap q) in *. destruct (ev_eq_spec v0 e) as [Ek|Hne].
  - assert (x ∈ members b0) as Hx0 by (eapply bin_of_key; [done..|]; by rewrite (kof_eq _ _ _ He), (kof_eq _ _ _ Hv0)).
    destruct (removeItem_spec h _ b0 L0 x HL Hx0) as (p1 & h1 & -> & Hc & HL1 & _). run_ok.
    eexists _, _, _. split; [done|]. split; [done|]. split; [exact HL1|]. apply pending_dequeue; [done|]. apply flat_remove; [apply HL|done].
  - destruct (find_bin_spec h e L0 (S (size h)) b0.1 (nextBin v0) (bo_tops _ _ _ HB0) (bo_sorted _ _ _ HB0)) as (A & B & -> & -> & HA & HB).
    { pose proof (bins_length _ _ _ HL) as [Hlen _]. cbn in Hlen. lia. }
    run_ok. destruct (last_before b0 A) as (P & t & r & EP & ->). change (b0 :: A ++ B) with ((b0 :: A) ++ B) in *.
    pose proof (bins_suffix _ _ _ _ HL) as HBB.
    assert (x ∈ flat B) as HxB.
    { rewrite flat_app in Hx. apply elem_of_app in Hx as [Hx|Hx]; [|done]. exfalso. apply in_flat in Hx as (c & Hc & Hxc).
      pose proof (flat_key h _ _ c x HL ltac:(set_solver) Hxc) as Hk. rewrite (kof_eq _ _ _ He) in Hk. apply elem_of_cons in Hc as [->|Hc]; [rewrite (kof_eq _ _ _ Hv0) in Hk; by apply Hne|].
      specialize (HA c Hc). rewrite <-Hk in HA. keys. }
    destruct B as [|b B]; [by apply not_elem_of_nil in HxB|]. cbn [first_top].
    destruct (bins_cons _ _ _ _ HBB) as (bv & _ & Hbv & _ & _ & _ & _ & Hs). rewrite Hbv. cbn [mbind outcome_bind].
    assert (kof h x = kof h b.1) as Hkx.
    { apply in_flat in HxB as (c & Hc & Hxc). pose proof (flat_key h _ _ c x HBB Hc Hxc) as Hk.
      apply elem_of_cons in Hc as [->|Hc]; [done|]. rewrite Forall_forall in Hs. specialize (Hs c Hc).
      pose proof (HB b ltac:(left)) as Hkb. rewrite <-Hk, (kof_eq _ _ _ He) in Hs. keys. }
    rewrite (kof_eq _ _ _ He), (kof_eq _ _ _ Hbv) in Hkx. destruct (ev_eq_spec bv e) as [_|Hn]; [|by destruct Hn]. cbn [negb].
    rewrite EP, <-app_assoc in HL |- *. cbn [app] in HL |- *.
    destruct (remove_after h x (Some b0.1) P t r b B HL) as (p1 & h1 & h' & L' & -> & E & Hc & HL' & Hp).
    { eapply bin_of_key; [exact HBB|done|]. by rewrite (kof_eq _ _ _ He), (kof_eq _ _ _ Hbv). }
    run_ok. rewrite E. run_ok. exists h', (Some b0.1), L'. split; [|done]. unfold with_heap, with_head. by rewrite Eh.
Qed.
