(* ===== verification/EventQRef.v ===== *)
(** * The event queue as a list of pending events

    A reference machine whose state is the current tick, the list of the pending events in
    the order in which they will be served, and what is known of every event; and the
    simulation of that machine by the linked bins of [EventQ]: every operation of the queue
    succeeds exactly when the reference operation is defined, and then does the same. *)

From Stdlib Require Import ZArith Lia.
From stdpp Require Import base numbers option list strings gmap sorting.
From S2P Require Import Prelude EventQ EventQFacts.
#[local] Open Scope Z_scope.

(** ** The reference machine *)

(** What does not depend on the queue: the priority, and the flags that are read. *)
Record Info := mkInfo { i_priority : Z; i_managed : bool; i_squashed : bool; i_exit : bool; i_main : bool }.

Record Ref := mkRef {
  now : Z;
  pend : list (ptr * (Z * Z));
  infos : gmap ptr Info
}.

(** What a handler can ask of the queue. *)
Inductive cmd : Type :=
  | CSchedule (x : ptr) (when : Z)
  | CDeschedule (x : ptr)
  | CReschedule (x : ptr) (when : Z) (always : bool)
  | CSquash (x : ptr).

Definition is_pending (x : ptr) (s : Ref) : bool := bool_decide (x ∈ (pend s).*1).

Definition set_squashed (b : bool) (i : Info) : Info := mkInfo (i_priority i) (i_managed i) b (i_exit i) (i_main i).

(** A managed event that is not pending is deleted. *)
Definition ref_release (x : ptr) (s : Ref) : Ref :=
  match infos s !! x with
  | Some i => if i_managed i && negb (is_pending x s) then mkRef (now s) (pend s) (delete x (infos s)) else s
  | None => s
  end.

Definition ref_do (c : cmd) (s : Ref) : option Ref :=
  match c with
  | CSchedule x t =>
      i ← infos s !! x;
      if negb (is_pending x s) && (now s <=? t) then Some (mkRef (now s) (enqueue (x, (t, i_priority i)) (pend s)) (infos s)) else None
  | CDeschedule x =>
      i ← infos s !! x;
      if is_pending x s
      then Some (ref_release x (mkRef (now s) (dequeue x (pend s)) (<[x := set_squashed false i]> (infos s)))) else None
  | CReschedule x t always =>
      i ← infos s !! x;
      if (now s <=? t) && (always || is_pending x s)
      then Some (mkRef (now s) (enqueue (x, (t, i_priority i)) (dequeue x (pend s))) (<[x := set_squashed false i]> (infos s))) else None
  | CSquash x => i ← infos s !! x; Some (mkRef (now s) (pend s) (<[x := set_squashed true i]> (infos s)))
  end.

Fixpoint ref_run (cs : list cmd) (s : Ref) : option Ref :=
  match cs with
  | [] => Some s
  | c :: cs => s ← ref_do c s; ref_run cs s
  end.

Section Machine.
(** A handler sees the world and the current tick, changes the world and gives commands. *)
Context {W : Type} (act : ptr → W → Z → list cmd * W).

(** Serving the first pending event. *)
Definition ref_service (w : W) (s : Ref) : option (option ptr * W * Ref) :=
  match pend s with
  | [] => None
  | (x, (t, _)) :: rest =>
      i ← infos s !! x;
      if negb (i_squashed i) then
        let '(cs, w) := act x w t in
        s ← ref_run cs (mkRef t rest (infos s));
        i ← infos s !! x;
        if i_exit i then if negb (i_managed i) || negb (i_main i) then Some (Some x, w, s) else None
        else Some (None, w, ref_release x s)
      else Some (None, w, ref_release x (mkRef (now s) rest (<[x := set_squashed false i]> (infos s))))
  end.

(** [n] rounds of the simulation loop. *)
Fixpoint ref_rounds (n : nat) (w : W) (s : Ref) : option (option ptr * W * Ref) :=
  match n with
  | O => Some (None, w, s)
  | S n =>
      '(x, w, s) ← ref_service w s;
      match x with
      | Some e => Some (Some e, w, s)
      | None => ref_rounds n w s
      end
  end.

(** ** The same handlers on the queue *)

Definition eq_do (c : cmd) (q : EventQueue) : outcome EventQueue :=
  match c with
  | CSchedule x t => schedule false true false x t q
  | CDeschedule x => deschedule false true x q
  | CReschedule x t always => reschedule false true x t always q
  | CSquash x => h ← update squash x (eq_heap q); Ok (with_heap q h)
  end.

Fixpoint eq_run (cs : list cmd) (q : EventQueue) : outcome EventQueue :=
  match cs with
  | [] => Ok q
  | c :: cs => q ← eq_do c q; eq_run cs q
  end.

Definition act_process (x : ptr) (w : W) (q : EventQueue) : outcome (W * EventQueue) :=
  let '(cs, w) := act x w (_curTick q) in q ← eq_run cs q; Ok (w, q).
End Machine.

(** ** Flags *)

(** A mask against a changed flag word is the mask against the old one. *)
Ltac flags :=
  unfold squash, with_flags in *; cbn [ev_flags] in *;
  unfold scheduled, squashed, isManaged, isExitEvent, initialized, isSet, flags_set, flags_clear in *; cbn [ev_flags] in *; rewrite ?Z.land_lor_distr_l, <-?Z.land_assoc.

Lemma set_scheduled e : let e' := with_flags (flags_set Scheduled (ev_flags e)) e in
  scheduled e' = true ∧ initialized e' = initialized e.
Proof.
  cbv zeta. flags. change (Z.land Scheduled Scheduled) with 2. change (Z.land Scheduled InitMask) with 0. rewrite Z.lor_0_r. split; [|done].
  apply negb_true_iff, Z.eqb_neq. intros [_ [=]]%Z.lor_eq_0_iff.
Qed.

Lemma clear_scheduled f e : let e' := with_flags (flags_clear Scheduled f) e in scheduled e' = false.
Proof. cbv zeta. flags. change (Z.land (u16 (Z.lnot Scheduled)) Scheduled) with 0. by rewrite Z.land_0_r. Qed.

Lemma clear_init m e : Z.land (u16 (Z.lnot m)) InitMask = InitMask → initialized (with_flags (flags_clear m (ev_flags e)) e) = initialized e.
Proof. intros Hm. flags. by rewrite Hm. Qed.

Lemma set_init m e : Z.land m InitMask = 0 → initialized (with_flags (flags_set m (ev_flags e)) e) = initialized e.
Proof. intros Hm. flags. by rewrite Hm, Z.lor_0_r. Qed.

Definition info (e : Event) : Info :=
  mkInfo (_priority e) (isManaged e) (squashed e) (isExitEvent e) (isSet (ev_flags e) IsMainQueue).

Lemma info_core e e' : core e' = core e → info e' = info e.
Proof. unfold core, info, isManaged, squashed, isExitEvent. intros [= _ -> -> _]. done. Qed.

Lemma info_set_scheduled e : info (with_flags (flags_set Scheduled (ev_flags e)) e) = info e.
Proof.
  unfold info. flags. change (Z.land Scheduled Managed) with 0. change (Z.land Scheduled Squashed) with 0.
  change (Z.land Scheduled IsExitEvent) with 0. change (Z.land Scheduled IsMainQueue) with 0. by rewrite !Z.lor_0_r.
Qed.

Lemma info_clear_scheduled e : info (with_flags (flags_clear Scheduled (ev_flags e)) e) = info e.
Proof. unfold info. flags. done. Qed.

Lemma info_clear_squashed e : info (with_flags (flags_clear Squashed (ev_flags e)) e) = set_squashed false (info e).
Proof.
  unfold info, set_squashed. flags. change (Z.land (u16 (Z.lnot Squashed)) Squashed) with 0. rewrite Z.land_0_r. done.
Qed.

Lemma info_squash e : info (squash e) = set_squashed true (info e).
Proof.
  unfold info, set_squashed. flags. change (Z.land Squashed Managed) with 0. change (Z.land Squashed Squashed) with 1.
  change (Z.land Squashed IsExitEvent) with 0. change (Z.land Squashed IsMainQueue) with 0. rewrite !Z.lor_0_r. cbn [i_priority i_managed i_exit i_main].
  f_equal. apply negb_true_iff, Z.eqb_neq. intros [_ [=]]%Z.lor_eq_0_iff.
Qed.

(** ** The simulation *)

(** The queue represents the list [l], except that nothing is said about the scheduled flag of
    [x], which is not pending. *)
Record eq_but (x : ptr) (q : EventQueue) (l : list (ptr * (Z * Z))) : Prop := {
  eb_bins : ∃ L, bins_ok (eq_heap q) (head q) L ∧ pending (eq_heap q) L = l;
  eb_out : x ∉ l.*1;
  eb_sched y e : y ≠ x → eq_heap q !! y = Some e → scheduled e = bool_decide (y ∈ l.*1);
  eb_queue y e : y ∈ l.*1 → eq_heap q !! y = Some e → ev_queue e = Some (eq_id q);
  eb_init y e : eq_heap q !! y = Some e → initialized e = true;
  eb_future : Forall (λ y, _curTick q ≤ y.2.1) l;
  eb_async : async_queue q = []
}.

Record eq_ok (q : EventQueue) (l : list (ptr * (Z * Z))) : Prop := {
  eo_bins : ∃ L, bins_ok (eq_heap q) (head q) L ∧ pending (eq_heap q) L = l;
  eo_sched y e : eq_heap q !! y = Some e → scheduled e = bool_decide (y ∈ l.*1);
  eo_queue y e : y ∈ l.*1 → eq_heap q !! y = Some e → ev_queue e = Some (eq_id q);
  eo_init y e : eq_heap q !! y = Some e → initialized e = true;
  eo_future : Forall (λ y, _curTick q ≤ y.2.1) l;
  eo_async : async_queue q = []
}.

Definition sim (q : EventQueue) (s : Ref) : Prop :=
  eq_ok q (pend s) ∧ now s = _curTick q ∧ infos s = info <$> eq_heap q.

Lemma pending_fst h L : (pending h L).*1 = flat L.
Proof. unfold pending. rewrite <-list_fmap_compose. apply list_fmap_id. Qed.

Lemma enqueue_in y a l : y ∈ (enqueue a l).*1 ↔ y = a.1 ∨ y ∈ l.*1.
Proof.
  induction l as [|b l IH]; cbn; [set_solver|]. case_decide; cbn; [set_solver|]. rewrite !elem_of_cons, IH. naive_solver.
Qed.

Lemma enqueue_forall (P : ptr * (Z * Z) → Prop) a l : Forall P (enqueue a l) ↔ P a ∧ Forall P l.
Proof. induction l as [|b l IH]; cbn; [by rewrite Forall_singleton, Forall_nil; naive_solver|]. case_decide; rewrite !Forall_cons, ?IH; naive_solver. Qed.

Lemma dequeue_in y x l : y ∈ (dequeue x l).*1 ↔ y ≠ x ∧ y ∈ l.*1.
Proof.
  unfold dequeue. rewrite !list_elem_of_fmap. setoid_rewrite list_elem_of_filter. naive_solver.
Qed.

Lemma dequeue_absent x l : x ∉ l.*1 → dequeue x l = l.
Proof.
  unfold dequeue. induction l as [|y l IH]; [done|]. intros [Hy Hl]%not_elem_of_cons. rewrite filter_cons_True by done. by rewrite IH.
Qed.

Lemma core_lookup h h' y e' : same_core h h' → h' !! y = Some e' → ∃ e, h !! y = Some e ∧ core e' = core e.
Proof. intros Hc Hy. specialize (Hc y). rewrite Hy in Hc. cbn in Hc. symmetry in Hc. apply fmap_Some in Hc as (e & He & ->). eauto. Qed.

Lemma core_lookup_r h h' y e : same_core h h' → h !! y = Some e → ∃ e', h' !! y = Some e' ∧ core e' = core e.
Proof. intros Hc Hy. specialize (Hc y). rewrite Hy in Hc. cbn in Hc. apply fmap_Some in Hc as (e' & He & Ec). eauto. Qed.

Lemma core_flags e e' : core e' = core e → scheduled e' = scheduled e ∧ initialized e' = initialized e ∧ ev_queue e' = ev_queue e.
Proof. unfold core, scheduled, initialized. by intros [= _ _ -> ->]. Qed.

Lemma core_infos h h' : same_core h h' → info <$> h' = info <$> h.
Proof.
  intros Hc. apply map_eq. intros y. rewrite !lookup_fmap. specialize (Hc y). destruct (h' !! y), (h !! y); try done. cbn in *.
  f_equal. apply info_core. congruence.
Qed.

(** A change of a heap outside the links and the keys. *)
Lemma bins_relabel h p L x e e' :
  bins_ok h p L → h !! x = Some e → nextBin e' = nextBin e → nextInBin e' = nextInBin e → key e' = key e →
  bins_ok (<[x := e']> h) p L ∧ pending (<[x := e']> h) L = pending h L.
Proof.
  intros [T1 T2 T3 T4] He E1 E2 Ek. set (h' := <[x := e']> h).
  assert (∀ y, kof h' y = kof h y) as Hk.
  { intros y. unfold kof, h'. destruct (decide (y = x)) as [->|Hne]; [by rewrite lookup_insert_eq, He; cbn; rewrite Ek|by rewrite lookup_insert_ne]. }
  assert (∀ f : Event → option ptr, f e' = f e → ∀ y, f <$> h' !! y = f <$> h !! y) as Hf.
  { intros f Ef y. unfold h'. destruct (decide (y = x)) as [->|Hne]; [by rewrite lookup_insert_eq, He; cbn; rewrite Ef|by rewrite lookup_insert_ne]. }
  split.
  - split; [eapply lseg_frame; [intros; by apply Hf|exact T1]| |done|].
    + eapply Forall_impl; [exact T2|]. intros b [B1 B2]. split; [eapply lseg_frame; [intros; by apply Hf|exact B1]|].
      eapply Forall_impl; [exact B2|]. intros y. cbn. by rewrite !Hk.
    + unfold ascending in *. clear -Hk T4. induction T4 as [|b L _ IH Hb]; constructor; [done|]. eapply Forall_impl; [exact Hb|]. intros c. cbn. by rewrite !Hk.
  - unfold pending. apply list_fmap_ext. intros i y _. by rewrite Hk.
Qed.

(** Setting the flags of an event that is not in the list any more. *)
Lemma but_ok x q l e f :
  eq_but x q l → eq_heap q !! x = Some e → scheduled (with_flags f e) = false → initialized (with_flags f e) = true →
  eq_ok (with_heap q (<[x := with_flags f e]> (eq_heap q))) l.
Proof.
  intros [(L & HL & Hp) H2 H3 H4 H5 H6 H7] He Hs Hi.
  destruct (bins_relabel _ _ _ x e (with_flags f e) HL He eq_refl eq_refl eq_refl) as [HL' Hp'].
  split; cbn [eq_heap head eq_id _curTick async_queue with_heap]; try done.
  - exists L. split; [done|]. by rewrite Hp'.
  - intros y ev [[<- <-]|[Hne Hy]]%lookup_insert_Some; [by rewrite bool_decide_false|by apply H3].
  - intros y ev Hin [[<- <-]|[Hne Hy]]%lookup_insert_Some; [done|by eapply H4].
  - intros y ev [[<- <-]|[Hne Hy]]%lookup_insert_Some; [done|by eapply H5].
Qed.

(** A heap that agrees on the events of the bins. *)
Lemma bins_agree h h1 p L :
  bins_ok h p L → (∀ y, y ∈ flat L → h1 !! y = h !! y) → bins_ok h1 p L ∧ pending h1 L = pending h L.
Proof.
  intros [T1 T2 T3 T4] Hf. assert (∀ y, y ∈ flat L → kof h1 y = kof h y) as Hk by (intros y Hy; unfold kof; by rewrite Hf).
  split; [split|]; [|rewrite Forall_forall in *|done| |].
  - eapply lseg_frame; [|exact T1]. intros y Hy. by rewrite Hf by by apply top_in_flat.
  - intros b Hb. destruct (T2 b Hb) as [B1 B2]. assert (∀ y, y ∈ members b → y ∈ flat L) as Hm by (intros y Hy; apply in_flat; eauto).
    split; [eapply lseg_frame; [|exact B1]; intros y Hy; by rewrite Hf by by apply Hm|]. rewrite Forall_forall in *. intros y Hy.
    rewrite !Hk by (apply Hm; (left || by right)). by apply B2.
  - unfold ascending in *. assert (∀ b, b ∈ L → kof h1 b.1 = kof h b.1) as Hk'.
    { intros b Hb. apply Hk, in_flat. exists b. split; [done|left]. }
    clear -Hk' T4. induction T4 as [|b L _ IH Hb]; constructor; [apply IH; intros; apply Hk'; by right|].
    rewrite Forall_forall in *. intros c Hc. rewrite !Hk'; [by apply Hb|by right|left].
  - unfold pending. apply list_fmap_ext. intros i y Hy%list_elem_of_lookup_2. by rewrite Hk.
Qed.

(** Inserting an event with its new tick, and setting its flags. *)
Lemma insert_set x q l e t :
  eq_but x q l → eq_heap q !! x = Some e → _curTick q ≤ t →
  ∃ q' e', insert x (with_heap q (<[x := setWhen t (eq_id q) e]> (eq_heap q))) = Ok q' ∧
    eq_heap q' !! x = Some e' ∧ core e' = core (setWhen t (eq_id q) e) ∧ _curTick q' = _curTick q ∧
    ∀ f, scheduled (with_flags f e') = true → initialized (with_flags f e') = true →
    let q'' := with_heap q' (<[x := with_flags f e']> (eq_heap q')) in
    eq_ok q'' (enqueue (x, (t, _priority e)) l) ∧ info <$> eq_heap q'' = <[x := info (with_flags f e')]> (info <$> eq_heap q).
Proof.
  intros [(L & HL & Hp) H2 H3 H4 H5 H6 H7] He Ht. set (e1 := setWhen t (eq_id q) e). set (h1 := <[x := e1]> (eq_heap q)).
  assert (x ∉ flat L) as Hx by by rewrite <-(pending_fst (eq_heap q)), Hp.
  assert (bins_ok h1 (head q) L ∧ pending h1 L = l) as [HL1 Hp1].
  { rewrite <-Hp. apply bins_agree; [done|]. intros y Hy. unfold h1. rewrite lookup_insert_ne; [done|]. by intros ->. }
  destruct (insert_refines (with_heap q h1) x e1 L) as (h' & p' & L' & E & Hc & HL' & Hp'); [apply lookup_insert_eq|done|done|].
  cbn [eq_heap with_heap] in Hc, Hp'. destruct (core_lookup_r h1 h' x e1 Hc ltac:(apply lookup_insert_eq)) as (e' & He' & Ec).
  eexists _, e'. split; [exact E|]. cbn [eq_heap with_head with_heap _curTick]. split; [done|]. split; [done|]. split; [done|].
  intros f Hs Hi. destruct (bins_relabel _ _ _ x e' (with_flags f e') HL' He' eq_refl eq_refl eq_refl) as [HL2 Hp2]. rewrite Hp1 in Hp'.
  assert (key e1 = (t, _priority e)) as Ek by done. rewrite Ek in Hp'.
  assert (∀ y ev, y ≠ x → h' !! y = Some ev → ∃ ev0, eq_heap q !! y = Some ev0 ∧ core ev = core ev0) as Hother.
  { intros y ev Hne Hy. destruct (core_lookup _ _ _ _ Hc Hy) as (ev0 & Hy0 & Ec0). unfold h1 in Hy0. rewrite lookup_insert_ne in Hy0 by done. eauto. }
  split.
  - split; cbn [eq_heap head eq_id _curTick async_queue with_heap with_head].
    + exists L'. split; [done|]. by rewrite Hp2.
    + intros y ev [[<- <-]|[Hne Hy]]%lookup_insert_Some.
      * rewrite bool_decide_true; [done|]. apply enqueue_in. by left.
      * destruct (Hother y ev ltac:(done) Hy) as (ev0 & Hy0 & (-> & _ & _)%core_flags). rewrite (H3 y ev0) by done. apply bool_decide_ext. rewrite enqueue_in. cbn. naive_solver.
    + intros y ev [->|Hin]%enqueue_in [[Hxy <-]|[Hne Hy]]%lookup_insert_Some; cbn in *; try done.
      * unfold core in Ec. by injection Ec as _ _ _ ->.
      * by subst y.
      * destruct (Hother y ev ltac:(done) Hy) as (ev0 & Hy0 & (_ & _ & ->)%core_flags). by eapply H4.
    + intros y ev [[<- <-]|[Hne Hy]]%lookup_insert_Some; [done|].
      destruct (Hother y ev ltac:(done) Hy) as (ev0 & Hy0 & (_ & -> & _)%core_flags). by eapply H5.
    + apply enqueue_forall. split; [cbn; lia|done].
    + done.
  - cbn [eq_heap with_heap]. rewrite fmap_insert. apply map_eq. intros y. destruct (decide (y = x)) as [->|Hne]; [by rewrite !lookup_insert_eq|].
    rewrite !lookup_insert_ne by done. rewrite !lookup_fmap. specialize (Hc y). unfold h1 in Hc. rewrite lookup_insert_ne in Hc by done.
    destruct (h' !! y), (eq_heap q !! y); try done. cbn in *. f_equal. apply info_core. congruence.
Qed.

Lemma remove_set x q l e :
  eq_ok q l → eq_heap q !! x = Some e → x ∈ l.*1 →
  ∃ q' e', remove x q = Ok q' ∧ eq_heap q' !! x = Some e' ∧ core e' = core e ∧ _curTick q' = _curTick q ∧ eq_id q' = eq_id q ∧
    eq_but x q' (dequeue x l) ∧ info <$> eq_heap q' = info <$> eq_heap q.
Proof.
  intros [(L & HL & Hp) H3 H4 H5 H6 H7] He Hx.
  destruct (remove_refines q x e L He (H4 x e Hx He) HL) as (h' & p' & L' & E & Hc & HL' & Hp').
  { by rewrite <-(pending_fst (eq_heap q)), Hp. }
  destruct (core_lookup_r _ h' x e Hc He) as (e' & He' & Ec). rewrite Hp in Hp'.
  eexists _, e'. split; [exact E|]. cbn [eq_heap with_head _curTick eq_id]. split; [done|]. split; [done|]. split; [done|]. split; [done|].
  split; [|by apply core_infos]. split; cbn [eq_heap with_head _curTick eq_id async_queue head].
  - by exists L'.
  - rewrite dequeue_in. by intros [? _].
  - intros y ev Hne Hy. destruct (core_lookup _ _ _ _ Hc Hy) as (ev0 & Hy0 & (-> & _ & _)%core_flags). rewrite (H3 y ev0 Hy0).
    apply bool_decide_ext. rewrite dequeue_in. naive_solver.
  - intros y ev [_ Hin]%dequeue_in Hy. destruct (core_lookup _ _ _ _ Hc Hy) as (ev0 & Hy0 & (_ & _ & ->)%core_flags). by eapply H4.
  - intros y ev Hy. destruct (core_lookup _ _ _ _ Hc Hy) as (ev0 & Hy0 & (_ & -> & _)%core_flags). by eapply H5.
  - apply Forall_forall. intros y [_ Hy]%list_elem_of_filter. rewrite Forall_forall in H6. by apply H6.
  - done.
Qed.

(** An operation succeeds exactly when the reference operation is defined, with related
    results. *)
Definition agrees {A B : Type} (m : outcome A) (o : option B) (R : A → B → Prop) : Prop :=
  match o with
  | Some b => ∃ a, m = Ok a ∧ R a b
  | None => ∃ s, m = Stop s
  end.

Lemma agrees_bind {A B A' B'} (m : outcome A) (o : option B) R (f : A → outcome A') (g : B → option B') (R' : A' → B' → Prop) :
  agrees m o R → (∀ a b, R a b → agrees (f a) (g b) R') → agrees (m ≫= f) (o ≫= g) R'.
Proof.
  destruct o as [b|]; cbn.
  - intros (a & -> & Hab) Hf. exact (Hf a b Hab).
  - intros (s & ->) _. by exists s.
Qed.

Lemma sim_info q s x : sim q s → infos s !! x = info <$> eq_heap q !! x.
Proof. intros (_ & _ & ->). apply lookup_fmap. Qed.

Lemma sim_pending q s x e : sim q s → eq_heap q !! x = Some e → scheduled e = is_pending x s.
Proof. intros (Hok & _ & _) He. by apply (eo_sched _ _ Hok). Qed.

(** An event that is not pending. *)
Lemma ok_but x q l : eq_ok q l → x ∉ l.*1 → eq_but x q l.
Proof. intros [H1 H2 H3 H4 H5 H6] Hx. split; try done. intros y e _. apply H2. Qed.

Lemma release_sim q s x : sim q s → is_Some (infos s !! x) → ∃ q', release x q = Ok q' ∧ sim q' (ref_release x s).
Proof.
  intros Hsim [i Hi]. pose proof Hsim as (Hok & Hn & Hin). pose proof Hi as Hi'. rewrite (sim_info q s x Hsim) in Hi'.
  apply fmap_Some in Hi' as (e & He & ->). unfold release, deref, ref_release. rewrite He, Hi. cbn [mbind outcome_bind].
  change (i_managed (info e)) with (isManaged e). rewrite (sim_pending q s x e Hsim He).
  destruct (isManaged e && negb (is_pending x s)) eqn:Ec; [|by exists q].
  apply andb_true_iff in Ec as [_ Hx]. apply negb_true_iff, bool_decide_eq_false in Hx.
  eexists. split; [done|]. split; [|split; [done|]]; cbn [pend now infos eq_heap with_heap _curTick].
  - destruct Hok as [(L & HL & Hp) H2 H3 H4 H5 H6]. split; cbn [eq_heap with_heap head eq_id _curTick async_queue]; try done.
    + exists L. assert (∀ y, y ∈ flat L → delete x (eq_heap q) !! y = eq_heap q !! y) as Hf.
      { intros y Hy. apply lookup_delete_ne. intros <-. apply Hx. by rewrite <-Hp, pending_fst. }
      destruct (bins_agree _ (delete x (eq_heap q)) _ _ HL Hf) as [HL' Hp']. by rewrite Hp'.
    + intros y ev [_ Hy]%lookup_delete_Some. by apply H2.
    + intros y ev Hy [_ Hy']%lookup_delete_Some. by eapply H3.
    + intros y ev [_ Hy]%lookup_delete_Some. by eapply H4.
  - by rewrite fmap_delete, Hin.
Qed.

(** The commands, each of them on an event of the heap. *)
Section Commands.
Context (q : EventQueue) (s : Ref) (x : ptr) (e : Event).
Context (Hsim : sim q s) (He : eq_heap q !! x = Some e).

Lemma schedule_sim t : agrees (eq_do (CSchedule x t) q) (ref_do (CSchedule x t) s) sim.
Proof using Hsim He.
  pose proof Hsim as (Hok & Hn & Hin). cbn [eq_do ref_do]. rewrite (sim_info q s x Hsim). unfold schedule, deref. rewrite He.
  cbn [mbind outcome_bind fmap option_fmap option_map option_bind].
  rewrite (sim_pending q s x e Hsim He), (eo_init _ _ Hok x e He), <-Hn.
  destruct (now s <=? t) eqn:Et; cbn [assert_that mbind outcome_bind]; [|rewrite andb_false_r; by eexists].
  destruct (is_pending x s) eqn:Ep; cbn [negb assert_that mbind outcome_bind andb]; [by eexists|]. apply bool_decide_eq_false in Ep.
  destruct (insert_set x q (pend s) e t (ok_but x q _ Hok Ep) He ltac:(lia)) as (q' & e' & -> & He' & Ec & Ecur & Hf).
  run_ok. rewrite He'. cbn [mbind outcome_bind].
  destruct (Hf (flags_set Scheduled (ev_flags e'))) as [Hok' Hinf].
  { apply set_scheduled. }
  { rewrite (proj2 (set_scheduled e')). pose proof (core_flags _ _ Ec) as (_ & -> & _). by apply (eo_init _ _ Hok x e He). }
  eexists. split; [done|]. split; [exact Hok'|]. split; [cbn; lia|]. rewrite Hinf, info_set_scheduled, (info_core _ _ Ec). cbn [infos].
  rewrite Hin. symmetry. apply insert_id. rewrite lookup_fmap, He. done.
Qed.

Lemma deschedule_sim : agrees (eq_do (CDeschedule x) q) (ref_do (CDeschedule x) s) sim.
Proof using Hsim He.
  pose proof Hsim as (Hok & Hn & Hin). cbn [eq_do ref_do]. rewrite (sim_info q s x Hsim). unfold deschedule, deref. rewrite He.
  cbn [mbind outcome_bind fmap option_fmap option_map option_bind].
  rewrite (sim_pending q s x e Hsim He), (eo_init _ _ Hok x e He).
  destruct (is_pending x s) eqn:Ep; cbn [negb orb assert_that mbind outcome_bind]; [|by eexists]. apply bool_decide_eq_true in Ep.
  destruct (remove_set x q (pend s) e Hok He Ep) as (q' & e' & -> & He' & Ec & Ecur & _ & Hbut & Hinf). run_ok. rewrite He'. cbn [mbind outcome_bind].
  set (f := flags_clear Scheduled (flags_clear Squashed (ev_flags e'))).
  assert (info (with_flags f e') = set_squashed false (info e)) as Ei.
  { rewrite <-(info_core _ _ Ec), <-(info_clear_squashed e'). exact (info_clear_scheduled (with_flags (flags_clear Squashed (ev_flags e')) e')). }
  apply (release_sim _ (mkRef (now s) (dequeue x (pend s)) (<[x := set_squashed false (info e)]> (infos s)))).
  - split; [|split]; cbn [pend now infos eq_heap with_heap _curTick].
    + apply but_ok; [done|done|apply clear_scheduled|].
      assert (initialized (with_flags f e') = initialized e') as -> by
        (transitivity (initialized (with_flags (flags_clear Squashed (ev_flags e')) e')); [exact (clear_init Scheduled (with_flags (flags_clear Squashed (ev_flags e')) e') eq_refl)|by apply clear_init]).
      by eapply (eb_init _ _ _ Hbut).
    + lia.
    + by rewrite fmap_insert, Ei, Hinf, Hin.
  - cbn. rewrite lookup_insert_eq. by eexists.
Qed.

Lemma reschedule_sim t always : agrees (eq_do (CReschedule x t always) q) (ref_do (CReschedule x t always) s) sim.
Proof using Hsim He.
  pose proof Hsim as (Hok & Hn & Hin). cbn [eq_do ref_do]. rewrite (sim_info q s x Hsim). unfold reschedule, deref. rewrite He.
  cbn [mbind outcome_bind fmap option_fmap option_map option_bind].
  rewrite (sim_pending q s x e Hsim He), (eo_init _ _ Hok x e He), <-Hn.
  destruct (now s <=? t) eqn:Et; cbn [andb assert_that mbind outcome_bind]; [|by eexists].
  destruct (always || is_pending x s) eqn:Ea; cbn [negb orb assert_that mbind outcome_bind]; [|by eexists].
  assert (∃ q1 e1, (if is_pending x s then remove x q else Ok q) = Ok q1 ∧ eq_heap q1 !! x = Some e1 ∧ core e1 = core e ∧
    _curTick q1 = _curTick q ∧ eq_but x q1 (dequeue x (pend s)) ∧ info <$> eq_heap q1 = info <$> eq_heap q) as (q1 & e1 & -> & He1 & Ec1 & Ecur1 & Hbut & Hinf1).
  { destruct (is_pending x s) eqn:Ep.
    - apply bool_decide_eq_true in Ep. destruct (remove_set x q (pend s) e Hok He Ep) as (q1 & e1 & E1 & He1 & Ec1 & Ecur1 & _ & Hb1 & Hi1). by exists q1, e1.
    - apply bool_decide_eq_false in Ep. exists q, e. split_and!; try done. rewrite dequeue_absent by done. by apply ok_but. }
  run_ok. rewrite He1. cbn [mbind outcome_bind].
  destruct (insert_set x q1 _ e1 t Hbut He1 ltac:(lia)) as (q' & e' & -> & He' & Ec & Ecur & Hf). run_ok. rewrite He'. cbn [mbind outcome_bind].
  set (e2 := with_flags (flags_clear Squashed (ev_flags e')) e'). set (f := flags_set Scheduled (flags_clear Squashed (ev_flags e'))).
  destruct (Hf f) as [Hok' Hinf].
  { apply (set_scheduled e2). }
  { transitivity (initialized e2); [exact (proj2 (set_scheduled e2))|]. unfold e2. rewrite clear_init by done. pose proof (core_flags _ _ Ec) as (_ & -> & _).
    by apply (eb_init _ _ _ Hbut x e1). }
  assert (_priority e1 = _priority e) as Epri by (unfold core in Ec1; congruence). rewrite Epri in Hok'.
  eexists. split; [done|]. split; [exact Hok'|]. split; [cbn; lia|]. rewrite Hinf, Hinf1, Hin. cbn [infos]. f_equal. symmetry.
  transitivity (info e2); [|unfold e2; rewrite info_clear_squashed; f_equal; rewrite (info_core _ _ Ec); exact (info_core e e1 Ec1)].
  exact (info_set_scheduled e2).
Qed.

Lemma squash_sim : agrees (eq_do (CSquash x) q) (ref_do (CSquash x) s) sim.
Proof using Hsim He.
  pose proof Hsim as (Hok & Hn & Hin). cbn [eq_do ref_do]. rewrite (sim_info q s x Hsim). unfold update, deref. rewrite He.
  cbn [mbind outcome_bind fmap option_fmap option_map option_bind]. eexists. split; [done|].
  assert (scheduled (squash e) = scheduled e ∧ initialized (squash e) = initialized e) as [Es Ei].
  { split; [|exact (set_init Squashed e eq_refl)]. flags. change (Z.land Squashed Scheduled) with 0. by rewrite Z.lor_0_r. }
  split; [|split]; cbn [pend now infos eq_heap with_heap _curTick].
  - destruct Hok as [(L & HL & Hp) H2 H3 H4 H5 H6]. destruct (bins_relabel _ _ _ x e (squash e) HL He eq_refl eq_refl eq_refl) as [HL' Hp'].
    split; cbn [eq_heap with_heap head eq_id _curTick async_queue]; try done.
    + exists L. by rewrite Hp'.
    + intros y ev [[<- <-]|[_ Hy]]%lookup_insert_Some; [rewrite Es|]; by apply H2.
    + intros y ev Hy [[<- <-]|[_ Hy']]%lookup_insert_Some; [by apply (H3 x e)|by eapply H3].
    + intros y ev [[<- <-]|[_ Hy]]%lookup_insert_Some; [rewrite Ei|]; by eapply H4.
  - done.
  - by rewrite fmap_insert, info_squash, Hin.
Qed.
End Commands.

Lemma do_sim c q s : sim q s → agrees (eq_do c q) (ref_do c s) sim.
Proof.
  intros Hsim.
  assert (∀ x, match c with CSchedule y _ | CDeschedule y | CReschedule y _ _ | CSquash y => y end = x →
    eq_heap q !! x = None → agrees (eq_do c q) (ref_do c s) sim) as Hnone.
  { intros x <- He. destruct c; cbn [eq_do ref_do]; rewrite (sim_info _ _ _ Hsim), He; unfold schedule, deschedule, reschedule, update, deref;
      rewrite He; by eexists. }
  destruct c as [x t|x|x t always|x]; (destruct (eq_heap q !! x) as [e|] eqn:He; [|by apply (Hnone x)]).
  - by eapply schedule_sim.
  - by eapply deschedule_sim.
  - by eapply reschedule_sim.
  - by eapply squash_sim.
Qed.

Lemma run_sim cs : ∀ q s, sim q s → agrees (eq_run cs q) (ref_run cs s) sim.
Proof.
  induction cs as [|c cs IH]; intros q s Hsim; cbn [eq_run ref_run]; [by exists q|].
  eapply agrees_bind; [by apply do_sim|]. intros q' s' Hsim'. by apply IH.
Qed.

(** *** Service *)

(** The pending events are in the order of their keys. *)
Lemma pending_sorted h p L : bins_ok h p L → StronglySorted (λ a b, kle a.2 b.2) (pending h L).
Proof.
  revert p. induction L as [|b L IH]; intros p HL; [constructor|].
  destruct (bins_cons _ _ _ _ HL) as (bv & _ & _ & HB & Hb & _ & _ & Hs). change (b :: L) with ([b] ++ L). rewrite pending_app. apply StronglySorted_app.
  assert (∀ y, y ∈ pending h [b] → y.2 = kof h b.1) as Hkb.
  { unfold pending, flat. cbn [mbind list_bind]. rewrite app_nil_r. intros y (z & -> & Hz)%list_elem_of_fmap. cbn. by apply member_key. }
  split_and!; [| |by eapply IH].
  - intros y z Hy%Hkb (c & Hc & Hz)%(pending_key h (nextBin bv)); [|done]. rewrite Forall_forall in Hs. specialize (Hs c Hc). rewrite Hy, Hz. keys.
  - assert (∀ l : list (ptr * (Z * Z)), (∀ y, y ∈ l → y.2 = kof h b.1) → StronglySorted (λ a b, kle a.2 b.2) l) as Hall; [|by apply Hall].
    induction l as [|y l IHl]; intros Hl; constructor; [apply IHl; intros; apply Hl; by right|]. apply Forall_forall. intros z Hz.
    rewrite (Hl y), (Hl z) by (left || by right). keys.
Qed.

(** The part of [serviceOne] that takes the first event out of the queue. *)
Lemma pop_ok q x k rest :
  eq_ok q ((x, k) :: rest) →
  ∃ e q1 e1, head q = Some x ∧ eq_heap q !! x = Some e ∧ key e = k ∧
    (let h := <[x := with_flags (flags_clear Scheduled (ev_flags e)) e]> (eq_heap q) in
     match nextInBin e with
     | Some next => h ← update (with_nextBin (nextBin e)) next h; Ok (with_head q h (Some next))
     | None => Ok (with_head q h (nextBin e))
     end) = Ok q1 ∧
    eq_heap q1 !! x = Some e1 ∧ core e1 = core (with_flags (flags_clear Scheduled (ev_flags e)) e) ∧ _curTick q1 = _curTick q ∧ eq_ok q1 rest ∧
    info <$> eq_heap q1 = info <$> eq_heap q ∧ Forall (λ y, k.1 ≤ y.2.1) rest.
Proof.
  intros [(L & HL & Hp) H2 H3 H4 H5 H6]. pose proof (pending_sorted _ _ _ HL) as Hso. rewrite Hp in Hso. apply StronglySorted_inv in Hso as [_ Hso].
  destruct L as [|b B]; [done|]. destruct (bins_cons _ _ _ _ HL) as (e & Eh & He & _). unfold pending in Hp. rewrite flat_cons in Hp.
  cbn [fmap list_fmap] in Hp. injection Hp as <- Hk Hrest. rewrite (kof_eq _ _ _ He) in Hk.
  set (e0 := with_flags (flags_clear Scheduled (ev_flags e)) e). set (h := <[b.1 := e0]> (eq_heap q)).
  destruct (bins_relabel _ _ _ b.1 e e0 HL He eq_refl eq_refl eq_refl) as [HL0 Hp0]. fold h in HL0, Hp0.
  destruct (removeItem_spec h _ b B b.1 HL0 ltac:(left)) as (p1 & h1 & E & Hc & HL1 & _).
  destruct (core_lookup_r h h1 b.1 e0 Hc ltac:(apply lookup_insert_eq)) as (e1 & He1 & Ec1).
  assert (b.1 ∉ rest.*1) as Hout.
  { pose proof (bo_nodup _ _ _ HL) as Hn. rewrite flat_cons in Hn. apply NoDup_cons in Hn as [Hn _]. rewrite <-Hrest, <-list_fmap_compose. by rewrite list_fmap_id. }
  assert (pending h1 (remove_bin b.1 b ++ B) = rest) as Hp1.
  { rewrite (pending_dequeue h h1 b.1 (b :: B)); [|done|apply flat_remove; [apply HL|left]]. rewrite Hp0. unfold pending, dequeue. rewrite flat_cons.
    cbn [fmap list_fmap]. rewrite filter_cons_False by (cbn; naive_solver). rewrite Hrest. by apply dequeue_absent. }
  exists e, (with_head q h1 p1), e1. split_and!; try done.
  - unfold removeItem, deref in E. assert (h !! b.1 = Some e0) as Hh0 by apply lookup_insert_eq. rewrite Hh0 in E. cbn [mbind outcome_bind] in E. rewrite decide_True in E by done.
    cbv zeta. fold e0 h. change (nextInBin e0) with (nextInBin e) in E. change (nextBin e0) with (nextBin e) in E.
    destruct (nextInBin e) as [n|]; [|by injection E as -> ->]. apply outcome_bind_ok in E as (h2 & -> & E). run_ok. by injection E as <- <-.
  - assert (∀ y ev, h1 !! y = Some ev → y = b.1 ∧ core ev = core e0 ∨ y ≠ b.1 ∧ ∃ ev0, eq_heap q !! y = Some ev0 ∧ core ev = core ev0) as Hev.
    { intros y ev Hy. destruct (core_lookup _ _ _ _ Hc Hy) as (ev0 & [[<- <-]|[Hne Hy0]]%lookup_insert_Some & Ec); [by left|right; eauto]. }
    split; cbn [eq_heap with_head head eq_id _curTick async_queue].
    + exists (remove_bin b.1 b ++ B). done.
    + intros y ev Hy. destruct (Hev y ev Hy) as [[-> Ec]|(Hne & ev0 & Hy0 & Ec)]; destruct (core_flags _ _ Ec) as (-> & _ & _).
      * rewrite bool_decide_false by done. apply clear_scheduled.
      * rewrite (H2 y ev0 Hy0). apply bool_decide_ext. cbn. rewrite elem_of_cons. naive_solver.
    + intros y ev Hin Hy. destruct (Hev y ev Hy) as [[-> Ec]|(Hne & ev0 & Hy0 & Ec)]; [done|]. destruct (core_flags _ _ Ec) as (_ & _ & ->).
      apply (H3 y ev0); [by right|done].
    + intros y ev Hy. destruct (Hev y ev Hy) as [[-> Ec]|(Hne & ev0 & Hy0 & Ec)]; destruct (core_flags _ _ Ec) as (_ & -> & _).
      * unfold e0. rewrite clear_init by done. by eapply H4.
      * by eapply H4.
    + by apply Forall_cons in H5 as [_ H5].
    + done.
  - cbn [eq_heap with_head]. rewrite (core_infos h h1) by done. unfold h. rewrite fmap_insert. unfold e0. rewrite info_clear_scheduled. apply insert_id. by rewrite lookup_fmap, He.
  - eapply Forall_impl; [exact Hso|]. intros y. cbn. keys.
Qed.

Section Service.
Context {W : Type} (act : ptr → W → Z → list cmd * W).

Lemma service_sim w q s :
  sim q s → agrees (serviceOne (act_process act) w q) (ref_service act w s) (λ a b, a.1 = b.1 ∧ sim a.2 b.2).
Proof.
  intros Hsim. pose proof Hsim as (Hok & Hn & Hin). unfold serviceOne, ref_service. destruct (pend s) as [|[x [t p]] rest] eqn:Epend.
  { destruct Hok as [(L & HL & Hp) _ _ _ _ _]. destruct L as [|b L]; [|done]. rewrite (bo_tops _ _ _ HL). by eexists. }
  destruct (pop_ok q x (t, p) rest Hok) as (e & q1 & e1 & Eh & He & Ek & E & He1 & Ec & Ecur & Hok1 & Hinf & Hfut).
  rewrite Eh, (sim_info q s x Hsim), He. unfold deref. rewrite ?He. cbn [mbind outcome_bind fmap option_fmap option_map option_bind]. cbv zeta in E |- *.
  rewrite E. clear E. cbn [mbind outcome_bind]. rewrite ?He1. cbn [mbind outcome_bind].
  assert (info e1 = info e) as Ei by (rewrite (info_core _ _ Ec); apply info_clear_scheduled).
  change (squashed e1) with (i_squashed (info e1)). rewrite Ei.
  assert (_when e1 = t) as Ew by (unfold core, key in *; cbn in Ec; congruence).
  destruct (i_squashed (info e)) eqn:Esq; cbn [negb].
  - set (s1 := mkRef (now s) rest (<[x := set_squashed false (info e)]> (infos s))).
    destruct (release_sim (with_heap q1 (<[x := with_flags (flags_clear Squashed (ev_flags e1)) e1]> (eq_heap q1))) s1 x) as (q2 & E2 & Hsim2).
    + split; [|split].
      * assert (x ∉ rest.*1) as Hx.
        { pose proof (eo_sched _ _ Hok1 x e1 He1) as Hs1. destruct (core_flags _ _ Ec) as (Ecs & _ & _). rewrite Ecs, clear_scheduled in Hs1.
          symmetry in Hs1. by apply bool_decide_eq_false in Hs1. }
        apply (but_ok x q1 rest e1); [by apply ok_but|done| |].
        -- destruct (core_flags _ _ Ec) as (Ecs & _ & _). rewrite clear_scheduled in Ecs. revert Ecs. flags. done.
        -- rewrite clear_init by done. by eapply (eo_init _ _ Hok1).
      * cbn. lia.
      * cbn [infos s1 eq_heap with_heap]. rewrite fmap_insert, info_clear_squashed, Ei, Hinf. by rewrite Hin.
    + cbn. rewrite lookup_insert_eq. by eexists.
    + rewrite E2. run_ok. eexists. split; [done|]. done.
  - unfold act_process at 1. cbn [_curTick setCurTick]. rewrite Ew. destruct (act x w t) as [cs w'].
    assert (sim (setCurTick t q1) (mkRef t rest (infos s))) as Hsim1.
    { split; [|split; [done|cbn; by rewrite Hinf]]. destruct Hok1 as [H1 H2 H3 H4 H5 H6]. by split. }
    pose proof (run_sim cs _ _ Hsim1) as Hrun. unfold agrees in Hrun. destruct (ref_run cs (mkRef t rest (infos s))) as [s2|]; cbn [mbind option_bind].
    2:{ destruct Hrun as (st & ->). by eexists. }
    destruct Hrun as (q2 & -> & Hsim2). cbn [mbind outcome_bind]. unfold deref. rewrite (sim_info q2 s2 x Hsim2).
    destruct (eq_heap q2 !! x) as [e2|] eqn:He2; cbn [mbind outcome_bind fmap option_fmap option_map option_bind]; [|by eexists].
    change (isExitEvent e2) with (i_exit (info e2)). change (isManaged e2) with (i_managed (info e2)).
    change (isSet (ev_flags e2) IsMainQueue) with (i_main (info e2)).
    destruct (i_exit (info e2)).
    + destruct (negb (i_managed (info e2)) || negb (i_main (info e2))); cbn [assert_that mbind outcome_bind]; by eexists.
    + destruct (release_sim q2 s2 x Hsim2) as (q3 & E3 & Hsim3); [rewrite (sim_info q2 s2 x Hsim2), He2; by eexists|].
      rewrite E3. run_ok. by eexists.
Qed.

(** A pending event is never in the past. *)
Lemma rounds_sim n : ∀ w q s,
  sim q s → agrees (sim_rounds (act_process act) n w q) (ref_rounds act n w s) (λ a b, a.1 = b.1 ∧ sim a.2 b.2).
Proof.
  induction n as [|n IH]; intros w q s Hsim; cbn [sim_rounds ref_rounds]; [by eexists|].
  destruct (pend s) as [|[x [t p]] rest] eqn:Epend.
  { pose proof Hsim as (Hok & _ & _). unfold ref_service. rewrite Epend in *. destruct Hok as [(L & HL & Hp) _ _ _ _ _]. destruct L as [|b L]; [|done].
    unfold empty. rewrite (bo_tops _ _ _ HL). by eexists. }
  pose proof Hsim as (Hok & Hn & _). rewrite Epend in Hok. destruct (pop_ok q x (t, p) rest Hok) as (e & _ & _ & Eh & He & Ek & _).
  unfold empty, nextTick, deref. rewrite Eh, He. cbn [mbind outcome_bind]. rewrite bool_decide_false by done. cbn [negb assert_that mbind outcome_bind].
  assert (_when e = t) as -> by (unfold key in Ek; congruence). pose proof (eo_future _ _ Hok) as Hf. apply Forall_cons in Hf as [Hf _]. cbn in Hf.
  rewrite (proj2 (Z.leb_le _ _)) by done. cbn [assert_that mbind outcome_bind].
  eapply agrees_bind; [by apply service_sim|]. intros [[y w1] q1] [[y' w1'] s1] [Ey Hs1]. cbn [fst snd] in *. injection Ey as -> ->.
  destruct y'; [by eexists|]. by apply IH.
Qed.
End Service.
