(* ===== verification/EventQTheorems.v ===== *)
(** * Theorems about the event queue

    The queue of linked bins is a list of pending events in the order of tick and priority,
    last scheduled first ([eventq_refines]); the event that is served is the earliest one and
    time does not go back ([eventq_serves_earliest]); every scheduled event is served
    ([event_is_served]); what the self-check of the queue and the checkpoint code do. *)

From Stdlib Require Import ZArith Lia.
From stdpp Require Import base numbers option list strings gmap sorting.
From S2P Require Import Prelude EventQ EventQFacts EventQRef.
#[local] Open Scope Z_scope.

(** ** The start of a simulation *)

(** Events as their constructor makes them: initialised and not scheduled. *)
Definition fresh (h : heap) : Prop := ∀ x e, h !! x = Some e → initialized e = true ∧ scheduled e = false.

Lemma sim_new id h : fresh h → sim (eventq_new id h) (mkRef 0 [] (info <$> h)).
Proof.
  intros Hf. split; [|done]. split; cbn; try done.
  - exists []. split; [|done]. split; try constructor.
  - intros y e He. by destruct (Hf y e He) as [_ ->].
  - by intros y e ?%not_elem_of_nil.
  - intros y e He. by destruct (Hf y e He) as [-> _].
Qed.

(** What a related reference state satisfies. *)
Lemma sim_wf q s : sim q s →
  StronglySorted (λ a b, kle a.2 b.2) (pend s) ∧ NoDup (pend s).*1 ∧ (∀ y, y ∈ (pend s).*1 → is_Some (infos s !! y)) ∧
  Forall (λ y, now s ≤ y.2.1) (pend s).
Proof.
  intros (Hok & Hn & Hin). pose proof Hok as [(L & HL & Hp) _ _ _ H5 _]. rewrite Hn. split_and!; [| | |done].
  - rewrite <-Hp. by eapply pending_sorted.
  - rewrite <-Hp, pending_fst. apply HL.
  - intros y. rewrite <-Hp, pending_fst, Hin, lookup_fmap. intros Hy. destruct (bins_alloc _ _ _ _ HL Hy) as [e ->]. by eexists.
Qed.

(** ** Liveness *)

Section Live.
Context {W : Type} (act : ptr → W → Z → list cmd * W).

Definition cmd_event (c : cmd) : ptr :=
  match c with CSchedule x _ | CDeschedule x | CReschedule x _ _ | CSquash x => x end.

(** A command that leaves [x] alone and schedules nothing at or before tick [t]. *)
Definition later_cmd (x : ptr) (t : Z) (c : cmd) : Prop :=
  cmd_event c ≠ x ∧ match c with CSchedule _ t' | CReschedule _ t' _ => t < t' | _ => True end.

(** How many events are pending at tick [t]. *)
Definition count_at (t : Z) (l : list (ptr * (Z * Z))) : nat := length (filter (λ y, y.2.1 = t) l).

Lemma count_enqueue t a l : t < a.2.1 → count_at t (enqueue a l) = count_at t l.
Proof.
  intros Ha. unfold count_at. induction l as [|b l IH]; cbn [enqueue]; [by rewrite filter_cons_False by lia|].
  case_decide; [by rewrite filter_cons_False by lia|]. destruct (decide (b.2.1 = t)).
  - rewrite !filter_cons_True by done. cbn. by rewrite IH.
  - by rewrite !filter_cons_False.
Qed.

Lemma count_dequeue t x l : (count_at t (dequeue x l) ≤ count_at t l)%nat.
Proof.
  unfold count_at, dequeue. induction l as [|b l IH]; [done|]. destruct (decide (b.1 = x)) as [Hx|Hx].
  - rewrite (filter_cons_False (λ y, y.1 ≠ x)) by naive_solver. etrans; [exact IH|]. rewrite filter_cons. case_decide; cbn; lia.
  - rewrite (filter_cons_True (λ y, y.1 ≠ x)) by done. rewrite !(filter_cons (λ y, y.2.1 = t)). case_decide; cbn; lia.
Qed.

Lemma enqueue_elem a b l : b ∈ enqueue a l ↔ b = a ∨ b ∈ l.
Proof. induction l as [|c l IH]; cbn; [set_solver|]. case_decide; [set_solver|]. rewrite !elem_of_cons, IH. naive_solver. Qed.

Lemma dequeue_elem x b l : b ∈ dequeue x l ↔ b.1 ≠ x ∧ b ∈ l.
Proof. unfold dequeue. by rewrite list_elem_of_filter. Qed.

(** What commands that leave [x] alone and look ahead of tick [t] keep. *)
Definition keeps (x : ptr) (t : Z) (s s' : Ref) : Prop :=
  (∀ k, (x, k) ∈ pend s → (x, k) ∈ pend s') ∧ (count_at t (pend s') ≤ count_at t (pend s))%nat ∧
  (size (infos s') ≤ size (infos s))%nat ∧ (Forall (λ y, t ≤ y.2.1) (pend s) → Forall (λ y, t ≤ y.2.1) (pend s')).

Lemma keeps_trans x t s1 s2 s3 : keeps x t s1 s2 → keeps x t s2 s3 → keeps x t s1 s3.
Proof. intros (A1 & A2 & A3 & A4) (B1 & B2 & B3 & B4). split_and!; eauto; lia. Qed.

Lemma keeps_release x y t s : keeps x t s (ref_release y s).
Proof.
  unfold ref_release. destruct (infos s !! y) as [i|] eqn:Hi; [|split_and!; (done || lia)]. destruct (_ && _); [|split_and!; (done || lia)].
  unfold keeps; cbn [pend infos]; split_and!; try done. rewrite map_size_delete, Hi. cbn. lia.
Qed.

Lemma keeps_do x t c s s' : later_cmd x t c → ref_do c s = Some s' → keeps x t s s'.
Proof.
  intros [Hx Ht] E.
  assert (∀ y i j, infos s !! y = Some i → size (<[y := j]> (infos s)) = size (infos s)) as Hsz.
  { intros y i j Hi. apply map_size_insert_Some. by exists i. }
  destruct c as [y t'|y|y t' always|y]; cbn [ref_do cmd_event] in *; destruct (infos s !! y) as [i|] eqn:Hi; try done; cbn [mbind option_bind] in E.
  - case_match; [|done]. injection E as <-. unfold keeps; cbn [pend infos]; split_and!; [|by rewrite count_enqueue|lia|].
    + intros k Hk. apply enqueue_elem. by right.
    + intros Hf. apply enqueue_forall. split; [cbn; lia|done].
  - case_match; [|done]. injection E as <-. eapply keeps_trans; [|apply keeps_release]. unfold keeps; cbn [pend infos]; split_and!; [|apply count_dequeue|by erewrite Hsz|].
    + intros k Hk. apply dequeue_elem. naive_solver.
    + intros Hf. apply Forall_forall. intros z [_ Hz]%dequeue_elem. rewrite Forall_forall in Hf. by apply Hf.
  - case_match; [|done]. injection E as <-. unfold keeps; cbn [pend infos]; split_and!; [|rewrite count_enqueue by done; apply count_dequeue|by erewrite Hsz|].
    + intros k Hk. apply enqueue_elem. right. apply dequeue_elem. naive_solver.
    + intros Hf. apply enqueue_forall. split; [cbn; lia|]. apply Forall_forall. intros z [_ Hz]%dequeue_elem. rewrite Forall_forall in Hf. by apply Hf.
  - injection E as <-. unfold keeps; cbn [pend infos]; split_and!; try done. by erewrite Hsz.
Qed.

Lemma keeps_run x t cs : ∀ s s', Forall (later_cmd x t) cs → ref_run cs s = Some s' → keeps x t s s'.
Proof.
  induction cs as [|c cs IH]; intros s s' Hcs E; cbn [ref_run] in E; [injection E as <-; split_and!; (done || lia)|].
  apply Forall_cons in Hcs as [Hc Hcs]. destruct (ref_do c s) as [s1|] eqn:E1; [|done]. cbn [mbind option_bind] in E.
  eapply keeps_trans; [by eapply keeps_do|by apply IH].
Qed.

(** How many events can be served before the one at tick [t], with [N] events in all: those of
    the first tick, and up to [N] for each later one. *)
Definition rounds_left (t : Z) (N : nat) (s : Ref) : nat :=
  match pend s with
  | [] => 0
  | (_, (T, _)) :: _ => Z.to_nat (t - T) * S N + count_at T (pend s)
  end.

Lemma pend_length q s : sim q s → (length (pend s) ≤ size (infos s))%nat.
Proof.
  intros (_ & Hn & Hd & _)%sim_wf. rewrite <-(length_fmap fst). by apply nodup_size.
Qed.

Lemma count_length t l : (count_at t l ≤ length l)%nat.
Proof. apply length_filter. Qed.

(** A round that serves another event than [x]. *)
Lemma round_keeps x y T p' rest w s w' s' :
  pend s = (y, (T, p')) :: rest → Forall (later_cmd x T) (act y w T).1 → ref_service act w s = Some (None, w', s') →
  ∃ s1, pend s1 = rest ∧ size (infos s1) = size (infos s) ∧ keeps x T s1 s'.
Proof.
  intros Ep Hl E. unfold ref_service in E. rewrite Ep in E. destruct (infos s !! y) as [i|] eqn:Hi; [|done]. cbn [mbind option_bind] in E.
  destruct (i_squashed i); cbn [negb] in E.
  - injection E as <- <-. eexists. split; [|split; [|apply keeps_release]]; [done|]. cbn. apply map_size_insert_Some. by exists i.
  - destruct (act y w T) as [cs w1]. destruct (ref_run cs (mkRef T rest (infos s))) as [s2|] eqn:E2; [|done]. cbn [mbind option_bind] in E.
    exists (mkRef T rest (infos s)). split; [done|]. split; [done|]. destruct (infos s2 !! y) as [i2|]; [|done]. cbn [mbind option_bind] in E.
    destruct (i_exit i2); [by case_match|]. injection E as <- <-. eapply keeps_trans; [by eapply keeps_run|apply keeps_release].
Qed.

Lemma round_progress x t p y T p' rest w q q' s w' s' N :
  sim q s → sim q' s' → pend s = (y, (T, p')) :: rest → y ≠ x → (x, (t, p)) ∈ pend s → (size (infos s) ≤ N)%nat →
  Forall (later_cmd x T) (act y w T).1 → ref_service act w s = Some (None, w', s') →
  (x, (t, p)) ∈ pend s' ∧ (size (infos s') ≤ N)%nat ∧ (rounds_left t N s' < rounds_left t N s)%nat.
Proof.
  intros Hsim Hsim' Ep Hne Hx HN Hl E. destruct (round_keeps x y T p' rest w s w' s' Ep Hl E) as (s1 & E1 & Es1 & K1 & K2 & K3 & K4).
  rewrite E1 in *. destruct (sim_wf _ _ Hsim) as (Hso & _ & _ & _). rewrite Ep in Hso, Hx. apply StronglySorted_inv in Hso as [_ Hso].
  apply elem_of_cons in Hx as [Hx|Hx]; [congruence|]. specialize (K1 _ Hx). split; [done|]. split; [lia|].
  assert (Forall (λ z, T ≤ z.2.1) (pend s')) as HT.
  { apply K4. eapply Forall_impl; [exact Hso|]. intros z. cbn. keys. }
  assert (T ≤ t) as HTt by (rewrite Forall_forall in Hso; specialize (Hso _ Hx); cbn in Hso; keys).
  unfold rounds_left at 2. rewrite Ep. unfold count_at at 1. rewrite filter_cons_True by done. cbn [length].
  change (length (filter _ rest)) with (count_at T rest).
  unfold rounds_left. destruct (sim_wf _ _ Hsim') as (Hso' & _ & _ & _). pose proof (pend_length _ _ Hsim') as Hlen.
  destruct (pend s') as [|[z [T' p'']] rest'] eqn:Ep'; [by apply not_elem_of_nil in K1|].
  apply Forall_cons in HT as [HT _]. cbn in HT. destruct (decide (T' = T)) as [->|HneT].
  - lia.
  - assert (T' ≤ t).
    { apply StronglySorted_inv in Hso' as [_ Hso']. apply elem_of_cons in K1 as [[= _ -> _]|K1]; [lia|].
      rewrite Forall_forall in Hso'. specialize (Hso' _ K1). cbn in Hso'. keys. }
    pose proof (count_length T' ((z, (T', p'')) :: rest')) as Hc.
    assert (Z.to_nat (t - T) = Z.to_nat (t - T') + Z.to_nat (T' - T))%nat as -> by lia.
    assert (1 ≤ Z.to_nat (T' - T))%nat by lia. nia.
Qed.

(** Every pending event comes to the front, when the handlers that run before it look ahead
    and the simulation does not end; the invariant may depend on the rounds that are left. *)
Lemma comes_to_front (I : nat → W → Ref → Prop) x t p N :
  (∀ y w T, y ≠ x → Forall (later_cmd x T) (act y w T).1) →
  (∀ j w q s y k rest, sim q s → I (S j) w s → pend s = (y, k) :: rest → y ≠ x → ∃ w' s', ref_service act w s = Some (None, w', s') ∧ I j w' s') →
  ∀ m w q s, (rounds_left t N s ≤ m)%nat → sim q s → I m w s → (size (infos s) ≤ N)%nat → (x, (t, p)) ∈ pend s →
  ∃ n w' q' s' rest, (n ≤ m)%nat ∧ ref_rounds act n w s = Some (None, w', s') ∧ sim q' s' ∧ I (m - n)%nat w' s' ∧ (size (infos s') ≤ N)%nat ∧
    pend s' = (x, (t, p)) :: rest.
Proof.
  intros Hlater HI. induction m as [|m IH]; intros w q s Hm Hsim Hinv HN Hx.
  all: destruct (pend s) as [|[y [T p']] rest] eqn:Ep; [by apply not_elem_of_nil in Hx|].
  all: destruct (decide (y = x)) as [->|Hne];
    [destruct (sim_wf _ _ Hsim) as (_ & Hn & _ & _); rewrite Ep in Hn; cbn in Hn; apply NoDup_cons in Hn as [Hn _];
     apply elem_of_cons in Hx as [[= <- <-]|Hx]; [|destruct Hn; apply list_elem_of_fmap; by exists (x, (t, p))];
     exists 0%nat, w, q, s, rest; rewrite Nat.sub_0_r; split_and!; try done; lia|].
  - exfalso. unfold rounds_left in Hm. rewrite Ep in Hm. unfold count_at in Hm. rewrite filter_cons_True in Hm by done. cbn [length] in Hm. nia.
  - destruct (HI m w q s y (T, p') rest Hsim Hinv Ep Hne) as (w1 & s1 & E1 & Hinv1).
    pose proof (service_sim act w q s Hsim) as Hss. rewrite E1 in Hss. destruct Hss as ([[o1 w1'] q1] & _ & _ & Hsim1). cbn [snd] in Hsim1.
    rewrite <-Ep in Hx. destruct (round_progress x t p y T p' rest w q q1 s w1 s1 N Hsim Hsim1 Ep Hne Hx HN (Hlater y w T Hne) E1) as (Hx1 & HN1 & Hm1).
    destruct (IH w1 q1 s1 ltac:(lia) Hsim1 Hinv1 HN1 Hx1) as (n & w2 & q2 & s2 & rest2 & Hn & E2 & H2).
    exists (S n), w2, q2, s2, rest2. split; [lia|]. split; [|done]. cbn [ref_rounds]. rewrite E1. cbn [mbind option_bind]. exact E2.
Qed.
End Live.

(** *** Events that schedule themselves *)

(** Processing an event schedules nothing, or the event itself for a later tick. *)
Definition self_scheduling {W} (act : ptr → W → Z → list cmd * W) : Prop :=
  ∀ y w t, (act y w t).1 = [] ∨ ∃ t', t < t' ∧ (act y w t).1 = [CSchedule y t'].

(** No event is managed or ends the simulation. *)
Definition plain_infos (s : Ref) : Prop := ∀ y i, infos s !! y = Some i → i_managed i = false ∧ i_exit i = false.

Lemma plain_release s y : plain_infos s → ref_release y s = s.
Proof. intros Hp. unfold ref_release. destruct (infos s !! y) as [i|] eqn:Hi; [|done]. by destruct (Hp y i Hi) as [-> _]. Qed.

(** A round that serves an event which schedules nothing but itself: the event is pending
    again only if it has done so. *)
Lemma self_round {W} (act : ptr → W → Z → list cmd * W) w q s y T p rest :
  (act y w T).1 = [] ∨ (∃ t', T ≤ t' ∧ (act y w T).1 = [CSchedule y t']) → sim q s → plain_infos s → pend s = (y, (T, p)) :: rest →
  ∃ i w' s', infos s !! y = Some i ∧ ref_service act w s = Some (None, w', s') ∧ plain_infos s' ∧
    infos s' = <[y := set_squashed false i]> (infos s) ∧
    if i_squashed i then w' = w ∧ now s' = now s ∧ pend s' = rest
    else w' = (act y w T).2 ∧ now s' = T ∧
      ((act y w T).1 = [] ∧ pend s' = rest ∨ ∃ t', (act y w T).1 = [CSchedule y t'] ∧ pend s' = enqueue (y, (t', i_priority i)) rest).
Proof.
  intros Hself Hsim Hp Ep. destruct (sim_wf _ _ Hsim) as (_ & Hn & Hd & _). rewrite Ep in Hn, Hd. cbn in Hn. apply NoDup_cons in Hn as [Hn _].
  destruct (Hd y ltac:(left)) as [i Hi]. exists i. unfold ref_service. rewrite Ep, Hi. cbn [mbind option_bind]. destruct (i_squashed i) eqn:Hsq; cbn [negb].
  - eexists _, _. split; [done|]. rewrite plain_release; [split; [done|]; split; [|done]|]; intros z j; cbn;
      (intros [[<- <-]|[_ Hj]]%lookup_insert_Some; [exact (Hp y i Hi)|exact (Hp z j Hj)]).
  - assert (infos s = <[y := set_squashed false i]> (infos s)) as Hid.
    { symmetry. apply insert_id. rewrite Hi. destruct i. cbn in Hsq. by subst. }
    destruct Hself as [E|(t' & Ht & E)]; destruct (act y w T) as [cs w1]; cbn [fst] in E; subst cs; cbn [ref_run mbind option_bind infos].
    + rewrite Hi. cbn [mbind option_bind]. destruct (Hp y i Hi) as [_ ->]. eexists _, _. split; [done|]. rewrite plain_release by (intros z j; apply Hp).
      split; [done|]. split; [intros z j; apply Hp|]. split; [exact Hid|]. split_and!; try done. by left.
    + assert (is_pending y (mkRef T rest (infos s)) = false) as Hnp by (by apply bool_decide_eq_false).
      cbn [ref_do infos]. rewrite Hi. cbn [mbind option_bind]. rewrite Hnp. cbn [negb andb now]. rewrite (proj2 (Z.leb_le _ _)) by lia.
      cbn [mbind option_bind infos]. rewrite Hi. cbn [mbind option_bind]. destruct (Hp y i Hi) as [_ ->]. eexists _, _. split; [done|].
      rewrite plain_release by (intros z j; apply Hp). split; [done|]. split; [intros z j; apply Hp|]. split; [exact Hid|]. split_and!; try done. right. by exists t'.
Qed.

Lemma self_here {W} (act : ptr → W → Z → list cmd * W) y w T :
  self_scheduling act → (act y w T).1 = [] ∨ ∃ t', T ≤ t' ∧ (act y w T).1 = [CSchedule y t'].
Proof. intros Hself. destruct (Hself y w T) as [->|(t' & Ht & ->)]; [by left|right]. exists t'. split; [lia|done]. Qed.

Lemma self_live {W} (act : ptr → W → Z → list cmd * W) x t p N w q s :
  self_scheduling act → sim q s → plain_infos s → (size (infos s) ≤ N)%nat → (x, (t, p)) ∈ pend s →
  ∃ n w' q' s' rest, (n ≤ rounds_left t N s)%nat ∧ ref_rounds act n w s = Some (None, w', s') ∧ sim q' s' ∧ plain_infos s' ∧
    (size (infos s') ≤ N)%nat ∧ pend s' = (x, (t, p)) :: rest.
Proof.
  intros Hself Hsim Hp HN Hx. eapply (comes_to_front act (λ _ _, plain_infos)); [| |done|exact Hsim|exact Hp|exact HN|exact Hx].
  - intros y v T Hne. destruct (Hself y v T) as [->|(t' & Ht & ->)]; [constructor|]. repeat constructor; done.
  - intros j v q1 s1 y [T p1] rest Hs1 Hp1 Ep Hne. destruct (self_round act v q1 s1 y T p1 rest (self_here _ _ _ _ Hself) Hs1 Hp1 Ep) as (i & w' & s' & _ & E & Hp' & _). eauto.
Qed.

Lemma rounds_left_bound t N s :
  (length (pend s) ≤ N)%nat → Forall (λ y, now s ≤ y.2.1) (pend s) → (rounds_left t N s ≤ (Z.to_nat (t - now s) + 1) * S N)%nat.
Proof.
  intros HN Hf. unfold rounds_left. destruct (pend s) as [|[y [T p]] rest] eqn:Ep; [apply Nat.le_0_l|]. apply Forall_cons in Hf as [Hf _]. cbn in Hf.
  pose proof (count_length T ((y, (T, p)) :: rest)). assert (Z.to_nat (t - T) ≤ Z.to_nat (t - now s))%nat by lia. nia.
Qed.

(** ** What the queue promises *)

(** The simulation from its start: the commands that set it up, then [n] rounds. *)
Definition run_queue {W} (act : ptr → W → Z → list cmd * W) (id : Z) (h : heap) (cs : list cmd) (n : nat) (w : W)
    : outcome (option ptr * W * EventQueue) :=
  q ← eq_run cs (eventq_new id h); sim_rounds (act_process act) n w q.

Definition run_ref {W} (act : ptr → W → Z → list cmd * W) (h : heap) (cs : list cmd) (n : nat) (w : W)
    : option (option ptr * W * Ref) :=
  s ← ref_run cs (mkRef 0 [] (info <$> h)); ref_rounds act n w s.

Lemma run_agrees {W} (act : ptr → W → Z → list cmd * W) id h cs n w :
  fresh h → agrees (run_queue act id h cs n w) (run_ref act h cs n w) (λ a b, a.1 = b.1 ∧ sim a.2 b.2).
Proof.
  intros Hf. eapply agrees_bind; [by apply run_sim, sim_new|]. intros q s Hsim. by apply rounds_sim.
Qed.

Lemma run_reaches {W} (act : ptr → W → Z → list cmd * W) id h cs n w o w' q :
  fresh h → run_queue act id h cs n w = Ok (o, w', q) → ∃ s, run_ref act h cs n w = Some (o, w', s) ∧ sim q s.
Proof.
  intros Hf E. pose proof (run_agrees act id h cs n w Hf) as Ha. destruct (run_ref act h cs n w) as [[[o1 w1] s]|]; cbn in Ha.
  - destruct Ha as ([[o2 w2] q2] & E2 & Ew & Hsim). rewrite E in E2. injection E2 as -> -> ->. cbn in Ew. injection Ew as -> ->. by exists s.
  - destruct Ha as (st & E2). by rewrite E in E2.
Qed.

(** A scheduled event is pending under its tick and priority, and conversely. *)
Lemma pend_scheduled q s x k :
  sim q s → (x, k) ∈ pend s ↔ ∃ e, eq_heap q !! x = Some e ∧ scheduled e = true ∧ key e = k.
Proof.
  intros ([(L & HL & Hp) Hsch _ _ _ _] & _ & _). split.
  - intros Hx. assert (x ∈ (pend s).*1) as Hx1 by (apply list_elem_of_fmap; by exists (x, k)).
    pose proof Hx1 as Hx2. rewrite <-Hp, pending_fst in Hx2. destruct (bins_alloc _ _ _ _ HL Hx2) as [e He]. exists e. split; [done|].
    rewrite (Hsch x e He). split; [by apply bool_decide_eq_true|]. rewrite <-Hp in Hx. unfold pending in Hx.
    apply list_elem_of_fmap in Hx as (y & [= -> ->] & _). unfold kof. by rewrite He.
  - intros (e & He & Hs & <-). rewrite (Hsch x e He) in Hs. apply bool_decide_eq_true in Hs. rewrite <-Hp in Hs |- *. rewrite pending_fst in Hs.
    unfold pending. apply list_elem_of_fmap. exists x. split; [|done]. unfold kof. by rewrite He.
Qed.

Lemma head_pend q s x : sim q s → head q = Some x ↔ ∃ k rest, pend s = (x, k) :: rest.
Proof.
  intros ([(L & HL & Hp) _ _ _ _ _] & _ & _). pose proof (bo_tops _ _ _ HL) as Ht. rewrite <-Hp. destruct L as [|b L]; cbn in Ht.
  - rewrite Ht. split; [done|]. by intros (k & rest & [=]).
  - destruct Ht as [-> _]. unfold pending, flat, members. cbn. split; [intros [= <-]; by eexists _, _|]. by intros (k & rest & [= -> _ _]).
Qed.

(** *** Order *)

Lemma ref_do_now c s s' : ref_do c s = Some s' → now s' = now s.
Proof.
  unfold ref_do, ref_release. destruct c; destruct (infos s !! x); cbn [mbind option_bind]; try done; repeat case_match; naive_solver.
Qed.

Lemma ref_run_now cs : ∀ s s', ref_run cs s = Some s' → now s' = now s.
Proof.
  induction cs as [|c cs IH]; intros s s'; cbn [ref_run]; [naive_solver|]. destruct (ref_do c s) as [s1|] eqn:E; [|done]. cbn. intros ->%IH. by eapply ref_do_now.
Qed.

Lemma release_now x s : now (ref_release x s) = now s.
Proof. unfold ref_release. repeat case_match; done. Qed.

(** Serving an event moves time to its tick, or not at all when it was squashed. *)
Lemma service_now {W} (act : ptr → W → Z → list cmd * W) w s x t p rest o w' s' :
  pend s = (x, (t, p)) :: rest → ref_service act w s = Some (o, w', s') →
  ∃ i, infos s !! x = Some i ∧ now s' = if i_squashed i then now s else t.
Proof.
  intros Ep. unfold ref_service. rewrite Ep. destruct (infos s !! x) as [i|]; [|done]. cbn [mbind option_bind]. intros E. exists i. split; [done|].
  destruct (i_squashed i); cbn [negb] in E.
  - injection E as <- <- <-. by rewrite release_now.
  - destruct (act x w t) as [cs w1]. destruct (ref_run cs _) as [s1|] eqn:Er; [|done]. cbn [mbind option_bind] in E. apply ref_run_now in Er. cbn in Er.
    destruct (infos s1 !! x) as [i1|]; [|done]. cbn [mbind option_bind] in E. destruct (i_exit i1).
    + destruct (_ || _); [|done]. by injection E as <- <- <-.
    + injection E as <- <- <-. by rewrite release_now.
Qed.

(** C4: the queue implements a sorted list.  Whatever handlers run, after any commands that set
    the simulation up and any number of rounds, the linked bins and the list of pending events
    (ordered by tick and priority, last scheduled first) have both stopped with an error or
    have served the same events and hold the same pending ones. *)
Theorem eventq_refines {W} (act : ptr → W → Z → list cmd * W) (id : Z) (h : heap) (cs : list cmd) (n : nat) (w : W) :
  fresh h → agrees (run_queue act id h cs n w) (run_ref act h cs n w) (λ a b, a.1 = b.1 ∧ sim a.2 b.2).
Proof. apply run_agrees. Qed.

(** C23: in every state a simulation reaches, the event at the head of the queue is scheduled, not
    in the past, and no scheduled event has an earlier tick, or the same tick and a smaller
    priority; serving it moves the current tick to its tick (to no tick when it was squashed),
    so time never goes back. *)
Theorem eventq_serves_earliest {W} (act : ptr → W → Z → list cmd * W) (id : Z) (h : heap) (cs : list cmd) (n : nat) (w w' : W) (q : EventQueue) (x : ptr) :
  fresh h → run_queue act id h cs n w = Ok (None, w', q) → head q = Some x →
  ∃ e, eq_heap q !! x = Some e ∧ scheduled e = true ∧ _curTick q ≤ _when e ∧
    (∀ y e', eq_heap q !! y = Some e' → scheduled e' = true →
       _when e < _when e' ∨ _when e = _when e' ∧ _priority e ≤ _priority e') ∧
    (∀ o w'' q', serviceOne (act_process act) w' q = Ok (o, w'', q') →
       _curTick q' = if squashed e then _curTick q else _when e).
Proof.
  intros Hf E Hh. destruct (run_reaches _ _ _ _ _ _ _ _ _ Hf E) as (s & _ & Hsim). pose proof (sim_wf _ _ Hsim) as (Hso & _ & _ & Hfu).
  destruct (proj1 (head_pend q s x Hsim) Hh) as (k & rest & Ep). destruct (proj1 (pend_scheduled q s x k Hsim)) as (e & He & Hs & Hk); [rewrite Ep; left|].
  exists e. pose proof Hsim as (_ & Hn & Hi). rewrite Ep in Hso, Hfu. apply Forall_cons in Hfu as [Hfu _]. subst k. cbn in Hfu. rewrite Hn in Hfu.
  split_and!; try done.
  - intros y e' He' Hs'. assert ((y, key e') ∈ pend s) as Hy by (apply (pend_scheduled q s y _ Hsim); by exists e').
    rewrite Ep in Hy. apply elem_of_cons in Hy as [[= -> Hw Hp]|Hy]; [lia|]. apply StronglySorted_inv in Hso as [_ Hso].
    rewrite Forall_forall in Hso. specialize (Hso _ Hy). unfold key in Hso. cbn in Hso. keys.
  - intros o w'' q' Es. pose proof (service_sim act w' q s Hsim) as Ha. destruct (ref_service act w' s) as [[[o1 w1] s1]|] eqn:Er; cbn in Ha.
    + destruct Ha as ([[o2 w2] q2] & E2 & _ & Hsim2). rewrite Es in E2. injection E2 as <- <- <-. destruct Hsim2 as (_ & Hn2 & _). cbn in Hn2.
      destruct (service_now act w' s x _ _ rest _ _ _ Ep Er) as (i & Ei & Ht). rewrite Hi, lookup_fmap, He in Ei. cbn in Ei. injection Ei as <-.
      rewrite <-Hn2, Ht. cbn. by rewrite Hn.
    + destruct Ha as (st & E2). by rewrite Es in E2.
Qed.

(** *** Service *)

Lemma plain_insert s y i b t l :
  plain_infos s → infos s !! y = Some i → plain_infos (mkRef t l (<[y := set_squashed b i]> (infos s))).
Proof. intros Hp Hi z j. cbn. intros [[<- <-]|[_ Hj]]%lookup_insert_Some; [exact (Hp y i Hi)|exact (Hp z j Hj)]. Qed.

Lemma plain_do c s s' : plain_infos s → ref_do c s = Some s' → plain_infos s'.
Proof.
  intros Hp. destruct c; cbn [ref_do]; destruct (infos s !! x) as [i|] eqn:Hi; cbn [mbind option_bind]; try done; repeat case_match; try done; intros [= <-].
  - exact Hp.
  - rewrite plain_release; by apply plain_insert.
  - by apply plain_insert.
  - by apply plain_insert.
Qed.

Lemma plain_run cs : ∀ s s', plain_infos s → ref_run cs s = Some s' → plain_infos s'.
Proof.
  induction cs as [|c cs IH]; intros s s' Hp; cbn [ref_run]; [naive_solver|]. destruct (ref_do c s) as [s1|] eqn:E; [|done]. cbn.
  intros E2. by eapply IH, E2; eapply plain_do.
Qed.

Lemma plain_service {W} (act : ptr → W → Z → list cmd * W) w s o w' s' :
  plain_infos s → ref_service act w s = Some (o, w', s') → plain_infos s'.
Proof.
  intros Hp. unfold ref_service. destruct (pend s) as [|[x [t p]] rest]; [done|]. destruct (infos s !! x) as [i|] eqn:Hi; [|done]. cbn [mbind option_bind].
  destruct (i_squashed i); cbn [negb].
  - intros [= <- <- <-]. rewrite plain_release; by apply plain_insert.
  - destruct (act x w t) as [cs w1]. destruct (ref_run cs _) as [s1|] eqn:Er; [|done]. cbn [mbind option_bind].
    assert (plain_infos s1) as Hp1 by (eapply plain_run, Er; intros y j; apply Hp).
    destruct (infos s1 !! x) as [i1|]; [|done]. cbn [mbind option_bind]. destruct (i_exit i1); [destruct (_ || _)|]; [..|rewrite plain_release by done]; naive_solver.
Qed.

Lemma plain_rounds {W} (act : ptr → W → Z → list cmd * W) n : ∀ w s o w' s',
  plain_infos s → ref_rounds act n w s = Some (o, w', s') → plain_infos s'.
Proof.
  induction n as [|n IH]; intros w s o w' s' Hp; cbn [ref_rounds]; [naive_solver|].
  destruct (ref_service act w s) as [[[o1 w1] s1]|] eqn:E; [|done]. cbn [mbind option_bind]. assert (plain_infos s1) by (by eapply plain_service).
  destruct o1; [naive_solver|]. by apply IH.
Qed.

(** No event of the heap is managed or ends the simulation. *)
Definition plain (h : heap) : Prop := ∀ x e, h !! x = Some e → isManaged e = false ∧ isExitEvent e = false.

Lemma plain_ref {W} (act : ptr → W → Z → list cmd * W) h cs n w o w' s :
  plain h → run_ref act h cs n w = Some (o, w', s) → plain_infos s.
Proof.
  intros Hp. unfold run_ref. destruct (ref_run cs _) as [s0|] eqn:E; [|done]. cbn [mbind option_bind]. apply plain_rounds. eapply plain_run, E.
  intros y i. cbn. rewrite lookup_fmap. destruct (h !! y) as [e|] eqn:He; [|done]. cbn. intros [= <-]. exact (Hp y e He).
Qed.

(** C22: a simulation whose events schedule nothing but themselves, for later ticks, serves every
    scheduled event: from any state it reaches, after a bounded number of rounds, none of which
    fails, the event is at the head of the queue with the tick it had been given, and the
    next round processes it at that tick, unless it was squashed. *)
Theorem event_is_served {W} (act : ptr → W → Z → list cmd * W) (id : Z) (h : heap) (cs : list cmd) (n0 : nat) (w0 w : W) (q : EventQueue) (x : ptr) (e : Event) :
  self_scheduling act → fresh h → plain h → run_queue act id h cs n0 w0 = Ok (None, w, q) →
  eq_heap q !! x = Some e → scheduled e = true →
  ∃ n w' q' e' w'' q'', (n ≤ (Z.to_nat (_when e - _curTick q) + 1) * S (size (eq_heap q)))%nat ∧
    sim_rounds (act_process act) n w q = Ok (None, w', q') ∧
    head q' = Some x ∧ eq_heap q' !! x = Some e' ∧ scheduled e' = true ∧ key e' = key e ∧
    serviceOne (act_process act) w' q' = Ok (None, w'', q'') ∧
    w'' = if squashed e' then w' else (act x w' (_when e)).2.
Proof.
  intros Hself Hf Hp E He Hs. destruct (run_reaches _ _ _ _ _ _ _ _ _ Hf E) as (s & Er & Hsim). pose proof (plain_ref _ _ _ _ _ _ _ _ Hp Er) as Hpl.
  pose proof Hsim as (_ & Hn & Hi). assert (size (infos s) = size (eq_heap q)) as Hsz by (rewrite Hi; apply map_size_fmap).
  assert ((x, key e) ∈ pend s) as Hx by (apply (pend_scheduled q s x _ Hsim); by exists e). pose proof (pend_length _ _ Hsim) as Hlen.
  destruct (self_live act x (_when e) (_priority e) (size (eq_heap q)) w q s Hself Hsim Hpl) as (n & w' & q1 & s' & rest & Hb & Err & Hsim1 & Hpl1 & _ & Ep); [lia|done|].
  pose proof (rounds_sim act n w q s Hsim) as Ha. rewrite Err in Ha. destruct Ha as ([[o2 w2] q2] & E2 & Ew & Hsim2). cbn in Ew, Hsim2. injection Ew as -> ->.
  destruct (proj1 (pend_scheduled q2 s' x (key e) Hsim2)) as (e' & He' & Hs' & Hk'); [rewrite Ep; left|].
  destruct (self_round act w' q2 s' x _ _ rest (self_here _ _ _ _ Hself) Hsim2 Hpl1 Ep) as (i & w'' & s'' & Hii & E3 & _ & _ & Hend).
  pose proof (service_sim act w' q2 s' Hsim2) as Ha. rewrite E3 in Ha. destruct Ha as ([[o4 w4] q4] & E4 & Ew & _). cbn in Ew. injection Ew as -> ->.
  exists n, w', q2, e', w'', q4. split; [|split_and!; try done].
  - etrans; [exact Hb|]. rewrite <-Hn. apply rounds_left_bound; [lia|]. by apply (sim_wf q).
  - apply (head_pend q2 s' x Hsim2). by eexists _, _.
  - destruct Hsim2 as (_ & _ & Hi2). rewrite Hi2, lookup_fmap, He' in Hii. cbn in Hii. injection Hii as <-. cbn in Hend. destruct (squashed e'); by destruct Hend.
Qed.

(** ** The self-check *)

(** The walk over a bin of key [k], entered with an earlier key. *)
Lemma verify_bin_ok h k : ∀ l fuel p time priority seen,
  (length l < fuel)%nat → lseg nextInBin h p l None → Forall (λ x, kof h x = k) l → NoDup l → (∀ x, x ∈ l → x ∉ seen) → kle (time, priority) k → l ≠ [] →
  verify_bin fuel p time priority seen h = Ok (Some (k.1, k.2, list_to_set (reverse l) ∪ seen)).
Proof.
  induction l as [|x l IH]; intros fuel p time priority seen Hfu Hl Hk Hnd Hseen Hle Hne; [done|]. destruct fuel as [|fuel]; [cbn in Hfu; lia|].
  destruct Hl as (-> & e & He & Hl). apply Forall_cons in Hk as [Hkx Hk]. apply NoDup_cons in Hnd as [Hx Hnd].
  assert (key e = k) as Hke by (unfold kof in Hkx; rewrite He in Hkx; exact Hkx).
  cbn [verify_bin]. unfold deref. rewrite He. cbn [mbind outcome_bind]. unfold key in Hke. clear Hkx. subst k.
  rewrite (proj2 (Z.ltb_ge (_when e) time)) by (clear -Hle; keys).
  assert ((_when e =? time) && (_priority e <? priority) = false) as ->.
  { apply andb_false_iff. rewrite Z.eqb_neq, Z.ltb_ge. clear -Hle. keys. }
  rewrite bool_decide_eq_false_2 by (apply Hseen; left). rewrite reverse_cons, list_to_set_app_L. cbn [list_to_set].
  destruct l as [|y l].
  - cbn in Hl. rewrite Hl. destruct fuel; cbn in Hfu; [lia|]. cbn [verify_bin fst snd]. do 2 f_equal. f_equal. cbn. set_solver.
  - rewrite (IH fuel (nextInBin e)); [|cbn in Hfu |- *; lia|done|done|done|set_solver|by right|done].
    do 2 f_equal. f_equal. set_solver.
Qed.

Lemma verify_bin_early h p x e fuel time priority seen :
  p = Some x → h !! x = Some e → klt (key e) (time, priority) → verify_bin (S fuel) p time priority seen h = Ok None.
Proof.
  intros -> He Hlt. cbn [verify_bin]. unfold deref. rewrite He. cbn [mbind outcome_bind]. destruct (_when e <? time) eqn:E1; [done|].
  assert ((_when e =? time) && (_priority e <? priority) = true) as ->; [|done]. apply Z.ltb_ge in E1. apply andb_true_iff. rewrite Z.eqb_eq, Z.ltb_lt. keys.
Qed.

Lemma bin_walk h b :
  bin_ok h b → NoDup (members b) → (∀ y, y ∈ members b → is_Some (h !! y)) → ∀ time priority seen, (∀ x, x ∈ members b → x ∉ seen) → kle (time, priority) (kof h b.1) →
  verify_bin (S (size h)) (Some b.1) time priority seen h = Ok (Some ((kof h b.1).1, (kof h b.1).2, list_to_set (reverse (members b)) ∪ seen)).
Proof.
  intros [Hl Hk] Hnd Hal time priority seen Hseen Hle. apply verify_bin_ok; try done.
  - apply Nat.lt_succ_r. by apply nodup_size.
  - by constructor.
Qed.

Lemma verify_bins_ok h : ∀ L fuel p time priority seen,
  (length L < fuel)%nat → bins_ok h p L → (∀ x, x ∈ flat L → x ∉ seen) → match L with [] => True | b :: _ => kle (time, priority) (kof h b.1) end →
  verify_bins fuel p time priority seen h = Ok true.
Proof.
  induction L as [|b L IH]; intros fuel p time priority seen Hfu HL Hseen Hle; destruct fuel as [|fuel]; cbn [length] in Hfu; try lia; cbn [verify_bins].
  - by rewrite (bo_tops _ _ _ HL).
  - destruct (bins_cons _ _ _ _ HL) as (bv & -> & Hbv & HB & Hb & Hnd & Hdis & Hlt). change (flat (b :: L)) with (members b ++ flat L) in Hseen.
    rewrite bin_walk; [|done|done| |by intros x Hx; apply Hseen, elem_of_app; left|done].
    + cbn [mbind outcome_bind]. unfold deref. rewrite Hbv. cbn [mbind outcome_bind]. apply IH; [lia|done| |].
      * intros x Hx. rewrite elem_of_union, elem_of_list_to_set, elem_of_reverse. intros [Hm|Hs]; [by eapply Hdis|].
        eapply Hseen, Hs. apply elem_of_app. by right.
      * destruct L as [|c L]; [done|]. apply Forall_cons in Hlt as [Hlt _]. destruct (kof h b.1). clear -Hlt. keys.
    + intros y Hy. eapply bins_alloc; [exact HL|]. change (flat (b :: L)) with (members b ++ flat L). apply elem_of_app. by left.
Qed.

(** The key from which the self-check starts is tick 0 and priority 0. *)
Lemma verify_sim q s :
  sim q s → (∀ y, y ∈ pend s → 0 ≤ y.2.1) →
  debugVerify q = Ok (match pend s with (_, (t, p)) :: _ => negb ((t =? 0) && (p <? 0)) | [] => true end).
Proof.
  intros ([(L & HL & Hp) _ _ _ _ _] & _ & _) Hpos. rewrite <-Hp in *. unfold debugVerify. pose proof (bins_length _ _ _ HL) as [Hlen _].
  destruct L as [|b L].
  - apply (verify_bins_ok _ []); [cbn; lia|done|set_solver|done].
  - destruct (bins_cons _ _ _ _ HL) as (bv & Eh & Hbv & _).
    change (pending (eq_heap q) (b :: L)) with ((b.1, kof (eq_heap q) b.1) :: ((λ x, (x, kof (eq_heap q) x)) <$> (b.2 ++ flat L))) in *.
    specialize (Hpos (b.1, kof (eq_heap q) b.1) ltac:(left)). cbn in Hpos.
    assert (kof (eq_heap q) b.1 = key bv) as Ek by (unfold kof; by rewrite Hbv). rewrite Ek in *. unfold key. cbn [key fst snd] in Hpos.
    destruct ((_when bv =? 0) && (_priority bv <? 0)) eqn:E0.
    + apply andb_true_iff in E0 as [E0 E1]. apply Z.eqb_eq in E0. apply Z.ltb_lt in E1. rewrite Eh. cbn [verify_bins].
      rewrite (verify_bin_early _ _ b.1 bv); [done|done|done|]. clear -E0 E1. keys.
    + apply (verify_bins_ok _ (b :: L)); [cbn in Hlen |- *; lia|done|set_solver|]. rewrite Ek. apply andb_false_iff in E0.
      rewrite Z.eqb_neq, Z.ltb_ge in E0. clear -E0 Hpos. keys.
Qed.

Lemma service_forward {W} (act : ptr → W → Z → list cmd * W) w q s o w' s' :
  sim q s → ref_service act w s = Some (o, w', s') → now s ≤ now s' ∧ ∃ q', sim q' s'.
Proof.
  intros Hsim E. split.
  - destruct (pend s) as [|[x [t p]] rest] eqn:Ep; [unfold ref_service in E; by rewrite Ep in E|].
    destruct (service_now act w s x t p rest _ _ _ Ep E) as (i & _ & ->). destruct (sim_wf _ _ Hsim) as (_ & _ & _ & Hfu).
    rewrite Ep in Hfu. apply Forall_cons in Hfu as [Hfu _]. cbn in Hfu. destruct (i_squashed i); lia.
  - pose proof (service_sim act w q s Hsim) as Ha. rewrite E in Ha. destruct Ha as ([y q'] & _ & _ & Hs'). by exists q'.
Qed.

Lemma rounds_forward {W} (act : ptr → W → Z → list cmd * W) n : ∀ w q s o w' s',
  sim q s → ref_rounds act n w s = Some (o, w', s') → now s ≤ now s'.
Proof.
  induction n as [|n IH]; intros w q s o w' s' Hsim; cbn [ref_rounds]; [naive_solver lia|].
  destruct (ref_service act w s) as [[[o1 w1] s1]|] eqn:E; [|done]. cbn [mbind option_bind].
  destruct (service_forward act w q s o1 w1 s1 Hsim E) as [Hle (q1 & Hs1)]. destruct o1; [naive_solver|]. intros E2. specialize (IH _ _ _ _ _ _ Hs1 E2). lia.
Qed.

Lemma run_ref_now {W} (act : ptr → W → Z → list cmd * W) h cs n w o w' s :
  fresh h → run_ref act h cs n w = Some (o, w', s) → 0 ≤ now s.
Proof.
  intros Hf. unfold run_ref. destruct (ref_run cs _) as [s0|] eqn:E; [|done]. cbn [mbind option_bind]. intros E2.
  pose proof (run_sim cs _ _ (sim_new 0 h Hf)) as Ha. rewrite E in Ha. destruct Ha as (q0 & _ & Hsim0).
  pose proof (rounds_forward _ _ _ _ _ _ _ _ Hsim0 E2) as Hle. apply ref_run_now in E. cbn in E. lia.
Qed.

(** What the self-check of the queue finds.  In every state a simulation reaches, a state in
    which the bins are in order and no event occurs twice, [debugVerify] returns, and finds the
    queue correct unless its first event is at tick 0 with a negative priority. *)
Theorem debugVerify_exact {W} (act : ptr → W → Z → list cmd * W) (id : Z) (h : heap) (cs : list cmd) (n : nat) (w w' : W) (o : option ptr) (q : EventQueue) :
  fresh h → run_queue act id h cs n w = Ok (o, w', q) →
  debugVerify q = Ok (match head q ≫= λ x, eq_heap q !! x with
                      | Some e => negb ((_when e =? 0) && (_priority e <? 0))
                      | None => true
                      end).
Proof.
  intros Hf E. destruct (run_reaches _ _ _ _ _ _ _ _ _ Hf E) as (s & Er & Hsim). pose proof (run_ref_now _ _ _ _ _ _ _ _ Hf Er) as H0.
  rewrite (verify_sim q s Hsim).
  - destruct (pend s) as [|[x [t p]] rest] eqn:Ep.
    + destruct (head q) as [x|] eqn:Eh; [|done]. destruct (proj1 (head_pend q s x Hsim) Eh) as (k & rest & Ep2). by rewrite Ep in Ep2.
    + rewrite (proj2 (head_pend q s x Hsim)) by (by eexists _, _). destruct (proj1 (pend_scheduled q s x (t, p) Hsim)) as (e & He & _ & Hk); [rewrite Ep; left|].
      cbn [mbind option_bind]. rewrite He. unfold key in Hk. by injection Hk as -> ->.
  - destruct (sim_wf _ _ Hsim) as (_ & _ & _ & Hfu). rewrite Forall_forall in Hfu. intros y Hy. specialize (Hfu y Hy). cbn in Hfu. lia.
Qed.

(** ** Checkpoints *)

Lemma flags_roundtrip f : in_u 16 f → u16 (i16 f) = f.
Proof. intros Hf. unfold swrap, wrap. rewrite Zminus_mod_idemp_l. replace (f + 2 ^ (16 - 1) - 2 ^ (16 - 1)) with f by lia. by apply Z.mod_small. Qed.

(** A checkpoint loses the events that were scheduled.  When the event [x] of a new
    simulation is restored from what a scheduled event that was not squashed has written, the
    tick and the priority come back, but the event is not scheduled and the queue holds what it
    held before: [unserialize] has cleared the flag by which [checkpointReschedule] decides to
    insert the event. *)
Theorem checkpoint_loses_event (e e0 : Event) (x : ptr) (q : EventQueue) :
  in_u 16 (ev_flags e) → scheduled e = true → squashed e = false →
  eq_heap q !! x = Some e0 → scheduled e0 = false → initialized e0 = true →
  ∃ e', UNSERIALIZE_EVENT (event_serialize e) x q = Ok (with_heap q (<[x := e']> (eq_heap q))) ∧ key e' = key e ∧ scheduled e' = false.
Proof.
  intros Hf Hs Hq Hx Hs0 Hi0. unfold UNSERIALIZE_EVENT, checkpointReschedule, event_unserialize, event_serialize.
  assert (deref (eq_heap q) x = Ok e0) as -> by (unfold deref; by rewrite Hx). cbn [mbind outcome_bind]. rewrite Hs0, Hi0. cbn [negb assert_that mbind outcome_bind]. rewrite flags_roundtrip by done.
  assert (isSet (flags_set Initialized (ev_flags e)) Scheduled && negb (isSet (flags_set Initialized (ev_flags e)) Squashed) = true) as ->.
  { clear -Hs Hq. revert Hs Hq. flags. change (Z.land Initialized Scheduled) with 0. change (Z.land Initialized Squashed) with 0. rewrite !Z.lor_0_r. by intros -> ->. }
  cbn [mbind outcome_bind]. unfold deref. cbn [eq_heap with_heap]. rewrite lookup_insert_eq. cbn [mbind outcome_bind ev_flags].
  assert (isSet (flags_clear (Z.lor Squashed Scheduled) (flags_set Initialized (ev_flags e))) Scheduled = false) as Hc.
  { clear. flags. change (Z.land (u16 (Z.lnot (Z.lor Squashed Scheduled))) Scheduled) with 0. by rewrite Z.land_0_r. }
  rewrite Hc. eexists. split; [done|]. split; [done|exact Hc].
Qed.

(** ** A simulation *)

(** Two events that recur, every 3 and every 5 ticks; the world is the list of what was served. *)
Definition ex_act (y : ptr) (w : list (ptr * Z)) (t : Z) : list cmd * list (ptr * Z) :=
  ([CSchedule y (t + if decide (y = 1%positive) then 3 else 5)], (y, t) :: w).

Definition ex_events (p : Z) : heap :=
  list_to_map [(1%positive, mkEvent None None 0 Default_Pri Initialized None); (2%positive, mkEvent None None 0 p Initialized None)].

Definition ex_setup : list cmd := [CSchedule 1%positive 3; CSchedule 2%positive 5].

Definition ex_sim (n : nat) : outcome (option ptr * list (ptr * Z) * EventQueue) := run_queue ex_act 0 (ex_events Stat_Event_Pri) ex_setup n [].

Lemma ex_sim_runs : is_okb (ex_sim 2) = true.
Proof. by vm_compute. Qed.

Definition ex_queue : EventQueue := (the_result (ex_sim 2) ex_sim_runs).2.

Lemma ex_sim_eq : ex_sim 2 = Ok (None, [(2%positive, 5); (1%positive, 3)], ex_queue).
Proof. by vm_compute. Qed.

Lemma ex_fresh p : fresh (ex_events p).
Proof.
  intros x e. unfold ex_events. cbn. intros [[_ <-]|[_ [[_ <-]|[_ Hx]]%lookup_insert_Some]]%lookup_insert_Some; [done|done|]. by rewrite lookup_empty in Hx.
Qed.

Lemma ex_plain p : plain (ex_events p).
Proof.
  intros x e. unfold ex_events. cbn. intros [[_ <-]|[_ [[_ <-]|[_ Hx]]%lookup_insert_Some]]%lookup_insert_Some; [done|done|]. by rewrite lookup_empty in Hx.
Qed.

Lemma ex_self : self_scheduling ex_act.
Proof. intros y w t. right. eexists. split; [|done]. case_decide; lia. Qed.

(** At tick 15 both events are due; the smaller priority comes first. *)
Example ex_sim_served :
  the_result (ex_sim 8) ltac:(by vm_compute) = 
  (None, [(2%positive, 15); (1%positive, 15); (1%positive, 12); (2%positive, 10); (1%positive, 9); (1%positive, 6); (2%positive, 5); (1%positive, 3)],
   (the_result (ex_sim 8) ltac:(by vm_compute)).2).
Proof. by vm_compute. Qed.

Lemma eventq_refines_witness :
  fresh (ex_events Stat_Event_Pri) ∧ agrees (ex_sim 8) (run_ref ex_act (ex_events Stat_Event_Pri) ex_setup 8 []) (λ a b, a.1 = b.1 ∧ sim a.2 b.2).
Proof. split; [apply ex_fresh|]. exact (eventq_refines ex_act 0 (ex_events Stat_Event_Pri) ex_setup 8 [] (ex_fresh _)). Defined.

Lemma eventq_serves_earliest_witness :
  ∃ e, eq_heap ex_queue !! 1%positive = Some e ∧ scheduled e = true ∧ _curTick ex_queue ≤ _when e ∧
    (∀ y e', eq_heap ex_queue !! y = Some e' → scheduled e' = true →
       _when e < _when e' ∨ _when e = _when e' ∧ _priority e ≤ _priority e') ∧
    (∀ o w'' q', serviceOne (act_process ex_act) [(2%positive, 5); (1%positive, 3)] ex_queue = Ok (o, w'', q') →
       _curTick q' = if squashed e then _curTick ex_queue else _when e).
Proof. exact (eventq_serves_earliest ex_act 0 _ ex_setup 2 [] _ ex_queue 1%positive (ex_fresh Stat_Event_Pri) ex_sim_eq ltac:(by vm_compute)). Defined.

Definition ex_event : Event := the_result (deref (eq_heap ex_queue) 2%positive) ltac:(by vm_compute).

Lemma event_is_served_witness :
  ∃ n w' q' e' w'' q'', (n ≤ (Z.to_nat (_when ex_event - _curTick ex_queue) + 1) * S (size (eq_heap ex_queue)))%nat ∧
    sim_rounds (act_process ex_act) n [(2%positive, 5); (1%positive, 3)] ex_queue = Ok (None, w', q') ∧
    head q' = Some 2%positive ∧ eq_heap q' !! 2%positive = Some e' ∧ scheduled e' = true ∧ key e' = key ex_event ∧
    serviceOne (act_process ex_act) w' q' = Ok (None, w'', q'') ∧
    w'' = if squashed e' then w' else (ex_act 2%positive w' (_when ex_event)).2.
Proof.
  exact (event_is_served ex_act 0 _ ex_setup 2 [] _ ex_queue 2%positive ex_event ex_self (ex_fresh Stat_Event_Pri) (ex_plain _) ex_sim_eq
    ltac:(by vm_compute) ltac:(by vm_compute)).
Defined.

(** An event of priority -30 scheduled for tick 0. *)
Definition ex_early : outcome (option ptr * list (ptr * Z) * EventQueue) := run_queue ex_act 0 (ex_events (-30)) [CSchedule 2%positive 0] 0 [].

Lemma ex_early_runs : is_okb ex_early = true.
Proof. by vm_compute. Qed.

Lemma debugVerify_exact_witness :
  debugVerify ex_queue = Ok true ∧ debugVerify (the_result ex_early ex_early_runs).2 = Ok false.
Proof.
  split.
  - exact (debugVerify_exact ex_act 0 _ ex_setup 2 [] _ _ ex_queue (ex_fresh Stat_Event_Pri) ex_sim_eq).
  - refine (eq_trans (debugVerify_exact ex_act 0 _ [CSchedule 2%positive 0] 0 [] [] None _ (ex_fresh (-30)) _) _); by vm_compute.
Defined.

Lemma checkpoint_loses_event_witness :
  ∃ e', UNSERIALIZE_EVENT (event_serialize ex_event) 2%positive (eventq_new 0 (ex_events 0)) =
          Ok (with_heap (eventq_new 0 (ex_events 0)) (<[2%positive := e']> (ex_events 0))) ∧
        key e' = key ex_event ∧ scheduled e' = false.
Proof.
  apply (checkpoint_loses_event ex_event (mkEvent None None 0 0 Initialized None) 2%positive (eventq_new 0 (ex_events 0))); by vm_compute.
Defined.

(** A squashed event, which would do nothing, is the one that is inserted. *)
Example checkpoint_keeps_squashed :
  head <$> (match UNSERIALIZE_EVENT (event_serialize (squash ex_event)) 2%positive (eventq_new 0 (ex_events 0)) with Ok q => Some q | Stop _ => None end)
  = Some (Some 2%positive).
Proof. by vm_compute. Qed.
