(* ===== verification/PrefetchBase.v ===== *)
(** * The prefetcher base class (src/mem/cache/prefetch/base.{hh,cc})

    The data a prefetcher sees of a cache access, the address helpers, the
    filter that decides which accesses are observed, the probe entry point and
    its statistics. *)

From Stdlib Require Import ZArith Lia QArith.
From stdpp Require Import base numbers option list strings sets.
From S2P Require Import Prelude Double IntMath.
#[local] Open Scope Z_scope.

Definition MaxTick : Z := 2 ^ 64 - 1.

(** ** Requests, packets and the cache accessor

    Only what the prefetchers read of them: the accessors of [Request] and
    [Packet] as fields, with an absent value where the class keeps a validity
    flag. *)

Record Request := mkRequest {
  req_paddr : option Z;
  req_vaddr : option Z;
  req_size : Z;
  req_flags : Z;
  req_requestorId : Z;
  req_pc : option Z;
  req_contextId : option Z;
  isInstFetch : bool;
  isUncacheable : bool;
  isCacheMaintenance : bool
}.

Record Packet := mkPacket {
  pkt_req : Request;
  pkt_addr : Z;
  pkt_isSecure : bool;
  isRead : bool;
  isWrite : bool;
  isInvalidate : bool;
  isSWPrefetch : bool;
  isCleanEvict : bool;       (** [cmd == MemCmd::CleanEvict] *)
  isCleanEviction : bool;
  pkt_data : option (list Z) (** the payload, when the command has data *)
}.

(** The value behind an accessor that asserts its validity flag. *)
Definition get_valid (o : option Z) (what : string) : outcome Z :=
  match o with Some v => Ok v | None => Stop (AssertFail what) end.

(** The lookups a cache offers to its prefetcher (src/mem/cache/cache_probe_arg.hh). *)
Record CacheAccessor := mkAccessor {
  inCache : Z → bool → bool;
  hasBeenPrefetched : Z → bool → bool;
  hasBeenPrefetchedBy : Z → bool → Z → bool;
  inMissQueue : Z → bool → bool;
  coalesce : bool
}.

Record CacheAccessProbeArg := mkProbeArg { acc_pkt : Packet; acc_cache : CacheAccessor }.

(** The part of [CacheDataUpdateProbeArg] the eviction listener reads. *)
Record EvictionInfo := mkEviction {
  ev_addr : Z;
  ev_isSecure : bool;
  ev_requestorID : Z;
  ev_oldData : list Z;
  ev_newData : list Z;
  ev_hwPrefetched : bool
}.

(** ** [PrefetchInfo] *)

Record PrefetchInfo := mkPfi {
  pfi_address : Z;
  pfi_pc : Z;
  pfi_requestorId : Z;
  pfi_validPC : bool;
  pfi_secure : bool;
  pfi_size : Z;
  pfi_write : bool;
  pfi_paddress : Z;
  pfi_cacheMiss : bool;
  pfi_data : option (list Z)
}.

Definition getPC (pfi : PrefetchInfo) : outcome Z :=
  _ ← assert_that (pfi_validPC pfi) "hasPC()"; Ok (pfi_pc pfi).

Definition sameAddr (a b : PrefetchInfo) : bool :=
  (pfi_address a =? pfi_address b) && eqb (pfi_secure a) (pfi_secure b).

(** [PrefetchInfo(pkt, addr, miss)]: the requested bytes are copied out of the
    packet unless it is a read miss or carries no data. *)
Definition pfi_of_packet (pkt : Packet) (addr : Z) (miss : bool) : outcome PrefetchInfo :=
  let req := pkt_req pkt in
  paddr ← get_valid (req_paddr req) "hasPaddr()";
  let data :=
    if (negb (isWrite pkt) && miss) then None else
    match pkt_data pkt with
    | None => None
    | Some bytes =>
        let offset := u64 (paddr - pkt_addr pkt) in
        Some (take (Z.to_nat (req_size req)) (drop (Z.to_nat offset) bytes))
    end in
  Ok (mkPfi addr (default 0 (req_pc req)) (req_requestorId req)
        (bool_decide (is_Some (req_pc req))) (pkt_isSecure pkt) (req_size req)
        (isWrite pkt) paddr miss data).

(** [PrefetchInfo(pfi, addr)]. *)
Definition pfi_with_addr (pfi : PrefetchInfo) (addr : Z) : PrefetchInfo :=
  mkPfi addr (pfi_pc pfi) (pfi_requestorId pfi) (pfi_validPC pfi) (pfi_secure pfi)
    (pfi_size pfi) (pfi_write pfi) (pfi_paddress pfi) (pfi_cacheMiss pfi) None.

(** ** Configuration and state of the base class *)

Record BaseCfg := mkBaseCfg {
  blkSize : Z;
  lBlkSize : Z;
  onMiss : bool;
  onRead : bool;
  onWrite : bool;
  onData : bool;
  onInst : bool;
  requestorId : Z;
  pageBytes : Z;
  prefetchOnAccess : bool;
  prefetchOnPfHit : bool;
  useVirtualAddresses : bool
}.

(** The constructor derives [lBlkSize] from the block size. *)
Definition base_new (block_size : Z) (on_miss on_read on_write on_data on_inst : bool)
    (req_id page_bytes : Z) (on_access on_pf_hit virt : bool) : outcome BaseCfg :=
  l ← floorLog2 4 block_size;
  Ok (mkBaseCfg block_size l on_miss on_read on_write on_data on_inst req_id
        page_bytes on_access on_pf_hit virt).

(** [setParentInfo] takes over the block size of the parent cache; [set]
    tells whether a parent was already recorded. *)
Definition setParentInfo (parent_set : bool) (c : BaseCfg) (blk_size : Z)
    : outcome (bool * BaseCfg) :=
  _ ← assert_that (negb parent_set) "!system && !probeManager";
  l ← floorLog2 4 blk_size;
  Ok (true, mkBaseCfg blk_size l (onMiss c) (onRead c) (onWrite c) (onData c) (onInst c)
        (requestorId c) (pageBytes c) (prefetchOnAccess c) (prefetchOnPfHit c)
        (useVirtualAddresses c)).

Record BaseStats := mkBaseStats {
  demandMshrMisses : Z;
  pfIssued : Z;
  pfUnused : Z;
  pfUseful : Z;
  pfUsefulButMiss : Z;
  pfHitInCache : Z;
  pfHitInMSHR : Z;
  pfHitInWB : Z
}.

Definition base_stats0 : BaseStats := mkBaseStats 0 0 0 0 0 0 0 0.

(** [accuracy], [coverage] and [pfLate] of the statistics group. *)
Definition stat_accuracy (s : BaseStats) : double :=
  ddiv (d_of_Z (pfUseful s)) (d_of_Z (pfIssued s)).
Definition stat_coverage (s : BaseStats) : double :=
  ddiv (d_of_Z (pfUseful s)) (dadd (d_of_Z (pfUseful s)) (d_of_Z (demandMshrMisses s))).
Definition stat_pfLate (s : BaseStats) : Z :=
  pfHitInCache s + pfHitInMSHR s + pfHitInWB s.

Record BaseState := mkBase {
  stats : BaseStats;
  issuedPrefetches : Z;
  usefulPrefetches : Z;
  mmu : bool  (** whether an MMU was registered *)
}.

Definition addMMU (b : BaseState) : outcome BaseState :=
  _ ← fatal_if (mmu b) "Only one MMU can be registered";
  Ok (mkBase (stats b) (issuedPrefetches b) (usefulPrefetches b) true).

Definition stat_unused (s : BaseStats) : BaseStats :=
  mkBaseStats (demandMshrMisses s) (pfIssued s) (pfUnused s + 1) (pfUseful s)
    (pfUsefulButMiss s) (pfHitInCache s) (pfHitInMSHR s) (pfHitInWB s).

Definition stat_demand_miss (s : BaseStats) : BaseStats :=
  mkBaseStats (demandMshrMisses s + 1) (pfIssued s) (pfUnused s) (pfUseful s)
    (pfUsefulButMiss s) (pfHitInCache s) (pfHitInMSHR s) (pfHitInWB s).

Definition stat_issued (s : BaseStats) : BaseStats :=
  mkBaseStats (demandMshrMisses s) (pfIssued s + 1) (pfUnused s) (pfUseful s)
    (pfUsefulButMiss s) (pfHitInCache s) (pfHitInMSHR s) (pfHitInWB s).

Definition stat_hit_cache (s : BaseStats) : BaseStats :=
  mkBaseStats (demandMshrMisses s) (pfIssued s) (pfUnused s) (pfUseful s)
    (pfUsefulButMiss s) (pfHitInCache s + 1) (pfHitInMSHR s) (pfHitInWB s).

Definition stat_hit_mshr (s : BaseStats) : BaseStats :=
  mkBaseStats (demandMshrMisses s) (pfIssued s) (pfUnused s) (pfUseful s)
    (pfUsefulButMiss s) (pfHitInCache s) (pfHitInMSHR s + 1) (pfHitInWB s).

Definition stat_hit_wb (s : BaseStats) : BaseStats :=
  mkBaseStats (demandMshrMisses s) (pfIssued s) (pfUnused s) (pfUseful s)
    (pfUsefulButMiss s) (pfHitInCache s) (pfHitInMSHR s) (pfHitInWB s + 1).

(** ** Addresses *)

Definition samePage (c : BaseCfg) (a b : Z) : outcome bool :=
  pa ← roundDown 64 a (pageBytes c);
  pb ← roundDown 64 b (pageBytes c);
  Ok (pa =? pb).

Definition blockAddress (c : BaseCfg) (a : Z) : Z :=
  Z.land a (ulnot 64 (u64 (blkSize c - 1))).

Definition blockIndex (c : BaseCfg) (a : Z) : Z := Z.shiftr a (lBlkSize c).

Definition pageAddress (c : BaseCfg) (a : Z) : outcome Z := roundDown 64 a (pageBytes c).

Definition pageOffset (c : BaseCfg) (a : Z) : Z := Z.land a (u64 (pageBytes c - 1)).

(** The shifted block index is a 32-bit value. *)
Definition pageIthBlockAddress (c : BaseCfg) (page i : Z) : Z :=
  u64 (page + u32 (Z.shiftl i (lBlkSize c))).

(** ** Observation filter and probe entry point *)

Definition observeAccess (c : BaseCfg) (pkt : Packet) (miss prefetched : bool) : bool :=
  let fetch := isInstFetch (pkt_req pkt) in
  let read := isRead pkt in
  let inv := isInvalidate pkt in
  let rest :=
    if isUncacheable (pkt_req pkt) then false
    else if fetch && negb (onInst c) then false
    else if negb fetch && negb (onData c) then false
    else if negb fetch && read && negb (onRead c) then false
    else if negb fetch && negb read && negb (onWrite c) then false
    else if negb fetch && negb read && inv then false
    else if isCleanEvict pkt then false
    else if onMiss c then miss
    else true in
  if negb miss then
    if prefetchOnPfHit c then prefetched
    else if negb (prefetchOnAccess c) then false
    else rest
  else rest.

(** The counters of a demand access to a line this prefetcher brought in. *)
Definition count_useful (b : BaseState) (miss : bool) : BaseState :=
  let s := stats b in
  mkBase
    (mkBaseStats (demandMshrMisses s) (pfIssued s) (pfUnused s) (pfUseful s + 1)
       (if miss then pfUsefulButMiss s + 1 else pfUsefulButMiss s)
       (pfHitInCache s) (pfHitInMSHR s) (pfHitInWB s))
    (issuedPrefetches b) (u64 (usefulPrefetches b + 1)) (mmu b).

Section Probe.
(** [D] is the state a derived class adds; [notify] is its virtual method. *)
Context {D : Type}.
Variable notify : CacheAccessProbeArg → PrefetchInfo → BaseState * D → outcome (BaseState * D).
Variable notifyFill : CacheAccessProbeArg → BaseState * D → outcome (BaseState * D).
Variable notifyEvict : EvictionInfo → BaseState * D → outcome (BaseState * D).

Definition probeNotify (c : BaseCfg) (acc : CacheAccessProbeArg) (miss : bool)
    (st : BaseState * D) : outcome (BaseState * D) :=
  let pkt := acc_pkt acc in
  let cache := acc_cache acc in
  if isSWPrefetch pkt then Ok st
  else if isCacheMaintenance (pkt_req pkt) then Ok st
  else if isCleanEviction pkt then Ok st
  else if isWrite pkt && coalesce cache then Ok st
  else match req_paddr (pkt_req pkt) with
  | None => Stop (Panic "Request must have a physical address")
  | Some paddr =>
      let has_been_prefetched :=
        hasBeenPrefetchedBy cache (pkt_addr pkt) (pkt_isSecure pkt) (requestorId c) in
      let st := if has_been_prefetched then (count_useful st.1 miss, st.2) else st in
      if observeAccess c pkt miss has_been_prefetched then
        match useVirtualAddresses c, req_vaddr (pkt_req pkt) with
        | true, Some vaddr => pfi ← pfi_of_packet pkt vaddr miss; notify acc pfi st
        | true, None => Ok st
        | false, _ => pfi ← pfi_of_packet pkt paddr miss; notify acc pfi st
        end
      else Ok st
  end.

(** The listeners a prefetcher connects, and what each delivers. *)
Inductive Listener :=
| PrefetchListener (isFill miss : bool)
| PrefetchEvictListener.

Definition listener_notify (c : BaseCfg) (l : Listener) (acc : CacheAccessProbeArg)
    (info : EvictionInfo) (st : BaseState * D) : outcome (BaseState * D) :=
  match l with
  | PrefetchListener isFill miss =>
      if isFill then notifyFill acc st else probeNotify c acc miss st
  | PrefetchEvictListener =>
      match ev_newData info with [] => notifyEvict info st | _ => Ok st end
  end.

(** Probe points by name, as [regProbeListeners] and [addEventProbe] fill them. *)
Definition regProbeListeners (has_manager : bool) (ls : list (string * Listener))
    : list (string * Listener) :=
  match ls with
  | [] => if has_manager then
            [("Miss", PrefetchListener false true); ("Fill", PrefetchListener true false);
             ("Hit", PrefetchListener false false); ("Data Update", PrefetchEvictListener)]
          else []
  | _ => ls
  end.

Definition addEventProbe (ls : list (string * Listener)) (name : string)
    : list (string * Listener) :=
  ls ++ [(name, PrefetchListener false false)].
End Probe.

(** ** Facts about addresses *)

(** A configuration whose block and page sizes are powers of two, as the
    constructor's and [roundDown]'s assertions demand. *)
Record cfg_wf (c : BaseCfg) : Prop := {
  wf_lblk : 0 ≤ lBlkSize c < 32;
  wf_blk : blkSize c = 2 ^ lBlkSize c;
  wf_page : ∃ p, lBlkSize c ≤ p ≤ 63 ∧ pageBytes c = 2 ^ p
}.

Lemma base_new_lblk c k om r w d i q pb oa oh v :
  0 ≤ k < 32 → base_new (2 ^ k) om r w d i q pb oa oh v = Ok c →
  blkSize c = 2 ^ lBlkSize c ∧ lBlkSize c = k.
Proof.
  intros Hk. unfold base_new. pose proof (Z.pow_pos_nonneg 2 k).
  assert (2 ^ k < 2 ^ (8 * 4)) by (apply Z.pow_lt_mono_r; lia).
  rewrite floorLog2_log2 by (set_solver || lia). run_ok.
  intros [= <-]. simpl. rewrite Z.log2_pow2 by lia. done.
Qed.

Section Addresses.
Context (c : BaseCfg) (Hc : cfg_wf c).

Lemma blkSize_pos : 0 < blkSize c.
Proof using Hc. rewrite (wf_blk c Hc). apply Z.pow_pos_nonneg; [lia|apply Hc]. Qed.

Lemma blockAddress_eq a : in_u 64 a → blockAddress c a = a - a mod blkSize c.
Proof using Hc.
  intros Ha. destruct Hc as [H1 H2 _]. unfold blockAddress. rewrite H2.
  by rewrite mask_wrap, land_ulnot_mask by (done || lia).
Qed.

Lemma blockIndex_eq a : blockIndex c a = a / blkSize c.
Proof using Hc. destruct Hc as [H1 -> _]. apply Z.shiftr_div_pow2. lia. Qed.

Lemma blockAddress_index a :
  in_u 64 a → blockAddress c a = blkSize c * blockIndex c a.
Proof using Hc.
  intros Ha. rewrite blockAddress_eq, blockIndex_eq by done. pose proof blkSize_pos.
  pose proof (Z.div_mod a (blkSize c)). lia.
Qed.

Lemma blockAddress_range a : in_u 64 a → in_u 64 (blockAddress c a).
Proof using Hc.
  intros Ha. rewrite blockAddress_eq by done. pose proof blkSize_pos.
  pose proof (Z.mod_pos_bound a (blkSize c)).
  pose proof (Z.mod_le a (blkSize c)). unfold in_u in *. lia.
Qed.

Lemma blockAddress_idemp a : in_u 64 a → blockAddress c (blockAddress c a) = blockAddress c a.
Proof using Hc.
  intros Ha. rewrite (blockAddress_eq (blockAddress c a)) by by apply blockAddress_range.
  rewrite (blockAddress_index a), Z.mul_comm, Z.mod_mul by (done || (pose proof blkSize_pos; lia)).
  lia.
Qed.

Lemma same_block_iff a b :
  in_u 64 a → in_u 64 b →
  blockAddress c a = blockAddress c b ↔ blockIndex c a = blockIndex c b.
Proof using Hc.
  intros Ha Hb. rewrite !blockAddress_index by done. pose proof blkSize_pos. nia.
Qed.

Lemma page_pow2 : ∃ p, 0 ≤ p ≤ 64 ∧ pageBytes c = 2 ^ p.
Proof using Hc. destruct Hc as [? _ (p & ? & ?)]. exists p. split; [lia|done]. Qed.

Lemma samePage_total a b : ∃ r, samePage c a b = Ok r.
Proof using Hc.
  destruct page_pow2 as (p & Hp & E). unfold samePage, roundDown, assert_that. rewrite E.
  rewrite !isPowerOf2_pow2 by lia. eexists. reflexivity.
Qed.

Lemma samePage_eq a b :
  in_u 64 a → in_u 64 b →
  samePage c a b = Ok (a / pageBytes c =? b / pageBytes c).
Proof using Hc.
  intros Ha Hb. destruct page_pow2 as (p & Hp & E). unfold samePage. rewrite E.
  rewrite !roundDown_pow2 by done. run_ok. f_equal.
  pose proof (Z.pow_pos_nonneg 2 p).
  pose proof (Z.div_mod a (2 ^ p)). pose proof (Z.div_mod b (2 ^ p)).
  destruct (Z.eqb_spec (a / 2 ^ p) (b / 2 ^ p)) as [Heq|Hne]; [apply Z.eqb_eq|apply Z.eqb_neq]; nia.
Qed.

(** An address is its page plus its offset in the page. *)
Lemma page_split a :
  in_u 64 a →
  ∃ pa, pageAddress c a = Ok pa ∧ pa + pageOffset c a = a ∧
    0 ≤ pageOffset c a < pageBytes c.
Proof using Hc.
  intros Ha. destruct page_pow2 as (p & Hp & E). unfold pageAddress, pageOffset.
  rewrite E, roundDown_pow2, mask_wrap by done. eexists; split; [done|].
  replace (2 ^ p - 1) with (Z.ones p) by (rewrite Z.ones_equiv; lia).
  rewrite Z.land_ones by lia. pose proof (Z.mod_pos_bound a (2 ^ p)).
  pose proof (Z.pow_pos_nonneg 2 p). lia.
Qed.
End Addresses.

(** ** Facts about the probe entry point *)

Definition base_inv (b : BaseState) : Prop :=
  0 ≤ pfUsefulButMiss (stats b) ≤ pfUseful (stats b) ∧
  usefulPrefetches b = u64 (pfUseful (stats b)).

Lemma count_useful_inv b miss : base_inv b → base_inv (count_useful b miss).
Proof.
  unfold base_inv, count_useful. simpl. intros [H1 H2].
  split; [destruct miss; lia|]. rewrite H2. by autorewrite with word.
Qed.
