(* ===== verification/PrefetchQueue.v ===== *)
(** * Queued prefetchers (src/mem/cache/prefetch/queued.{hh,cc})

    [Queued] keeps two lists of deferred packets: [pfq], ready to issue, and
    [pfqMissingTranslation], waiting for the MMU.  A list node has an identity
    ([loc]) that stays with its position when [std::swap] exchanges the
    contents of two nodes, because the MMU holds a pointer to the node. *)

From Stdlib Require Import ZArith Lia.
From stdpp Require Import base numbers option list strings sets sorting.
From S2P Require Import Prelude IntMath PrefetchBase.
#[local] Open Scope Z_scope.

(** ** Data *)

(** The memory packet of a prefetch ([MemCmd::HardPFReq]). *)
Record PfPacket := mkPfPacket {
  pf_paddr : Z;
  pf_size : Z;
  pf_requestor : Z;
  pf_secure : bool;
  pf_pc : option Z
}.

(** The request handed to the MMU for a page-crossing prefetch. *)
Record TransReq := mkTransReq {
  tr_vaddr : Z;
  tr_size : Z;
  tr_flags : Z;
  tr_requestor : Z;
  tr_pc : Z;
  tr_context : Z
}.

Record DeferredPacket := mkDP {
  dp_info : PrefetchInfo;
  dp_tick : Z;
  dp_pkt : option PfPacket;
  dp_priority : Z;
  dp_trans : option TransReq;
  dp_ongoing : bool
}.

(** [DeferredPacket(o, pfi, t, prio, cache)]. *)
Definition dp_new (pfi : PrefetchInfo) (t prio : Z) : DeferredPacket :=
  mkDP pfi t None prio None false.

Definition dp_gt (a b : DeferredPacket) : bool := dp_priority b <? dp_priority a.
Definition dp_le (a b : DeferredPacket) : bool := negb (dp_gt a b).

Definition REQ_PREFETCH : Z := 0x01000000.

(** [createPkt]. *)
Definition createPkt (dp : DeferredPacket) (paddr blk_size requestor_id : Z)
    (tag_prefetch : bool) (t : Z) : DeferredPacket :=
  let info := dp_info dp in
  let pkt := mkPfPacket paddr blk_size requestor_id (pfi_secure info)
    (if tag_prefetch && pfi_validPC info then Some (pfi_pc info) else None) in
  mkDP info t (Some pkt) (dp_priority dp) (dp_trans dp) (dp_ongoing dp).

Definition with_priority (dp : DeferredPacket) (p : Z) : DeferredPacket :=
  mkDP (dp_info dp) (dp_tick dp) (dp_pkt dp) p (dp_trans dp) (dp_ongoing dp).
Definition with_trans (dp : DeferredPacket) (r : TransReq) : DeferredPacket :=
  mkDP (dp_info dp) (dp_tick dp) (dp_pkt dp) (dp_priority dp) (Some r) (dp_ongoing dp).
Definition with_ongoing (dp : DeferredPacket) (b : bool) : DeferredPacket :=
  mkDP (dp_info dp) (dp_tick dp) (dp_pkt dp) (dp_priority dp) (dp_trans dp) b.

(** A list node: its identity and its content. *)
Abbreviation node := (nat * DeferredPacket)%type.
Abbreviation queue := (list node).

Record QueuedCfg := mkQueuedCfg {
  base_cfg : BaseCfg;
  queueSize : Z;
  missingTranslationQueueSize : Z;
  latency : Z;
  queueSquash : bool;
  queueFilter : bool;
  cacheSnoop : bool;
  tagPrefetch : bool;
  throttleControlPct : Z;
  clockPeriod : Z
}.

Record QueuedStats := mkQueuedStats {
  pfIdentified : Z;
  pfBufferHit : Z;
  pfInCache : Z;
  pfRemovedDemand : Z;
  pfRemovedFull : Z;
  pfSpanPage : Z;
  pfUsefulSpanPage : Z
}.

Definition queued_stats0 : QueuedStats := mkQueuedStats 0 0 0 0 0 0 0.

Definition stat_identified (s : QueuedStats) : QueuedStats :=
  mkQueuedStats (pfIdentified s + 1) (pfBufferHit s) (pfInCache s) (pfRemovedDemand s)
    (pfRemovedFull s) (pfSpanPage s) (pfUsefulSpanPage s).
Definition stat_buffer_hit (s : QueuedStats) : QueuedStats :=
  mkQueuedStats (pfIdentified s) (pfBufferHit s + 1) (pfInCache s) (pfRemovedDemand s)
    (pfRemovedFull s) (pfSpanPage s) (pfUsefulSpanPage s).
Definition stat_in_cache (s : QueuedStats) : QueuedStats :=
  mkQueuedStats (pfIdentified s) (pfBufferHit s) (pfInCache s + 1) (pfRemovedDemand s)
    (pfRemovedFull s) (pfSpanPage s) (pfUsefulSpanPage s).
Definition stat_removed_demand (n : Z) (s : QueuedStats) : QueuedStats :=
  mkQueuedStats (pfIdentified s) (pfBufferHit s) (pfInCache s) (pfRemovedDemand s + n)
    (pfRemovedFull s) (pfSpanPage s) (pfUsefulSpanPage s).
Definition stat_removed_full (s : QueuedStats) : QueuedStats :=
  mkQueuedStats (pfIdentified s) (pfBufferHit s) (pfInCache s) (pfRemovedDemand s)
    (pfRemovedFull s + 1) (pfSpanPage s) (pfUsefulSpanPage s).
Definition stat_span_page (useful : bool) (s : QueuedStats) : QueuedStats :=
  mkQueuedStats (pfIdentified s) (pfBufferHit s) (pfInCache s) (pfRemovedDemand s)
    (pfRemovedFull s) (pfSpanPage s + 1)
    (if useful then pfUsefulSpanPage s + 1 else pfUsefulSpanPage s).

Record QState := mkQ {
  pfq : queue;
  pfqMissing : queue;
  qstats : QueuedStats;
  next_loc : nat  (** identity of the next list node *)
}.

Definition q_empty : QState := mkQ [] [] queued_stats0 0%nat.

(** The fields of a state replaced one at a time. *)
Definition q_set_pfq (st : QState) (q : queue) : QState :=
  mkQ q (pfqMissing st) (qstats st) (next_loc st).
Definition q_set_missing (st : QState) (q : queue) : QState :=
  mkQ (pfq st) q (qstats st) (next_loc st).
Definition q_set_stats (st : QState) (s : QueuedStats) : QState :=
  mkQ (pfq st) (pfqMissing st) s (next_loc st).

(** ** [addToQueue] *)

(** The walk from the back of a full queue, on the reversed list: [it] is the
    element under consideration, the rest are its predecessors.  The oldest
    element of the run of equal priorities at the back is dropped. *)
Fixpoint evict_rev (it : node) (prevs : queue) : queue :=
  match prevs with
  | [] => []
  | p :: prevs' =>
      if dp_priority p.2 =? dp_priority it.2 then it :: evict_rev p prevs' else prevs
  end.

(** The walk that looks for the insertion point, on the reversed list. *)
Fixpoint insert_rev (d it : node) (prevs : queue) : queue :=
  match prevs with
  | [] => if dp_le d.2 it.2 then [d; it] else [it; d]
  | p :: prevs' =>
      if dp_gt d.2 it.2 then it :: insert_rev d p prevs' else it :: d :: prevs
  end.

Definition make_room (size : Z) (q : queue) : outcome (bool * queue) :=
  if Z.of_nat (length q) =? size then
    match reverse q with
    | [] => Stop (Panic "Prefetch queue is both full and empty!")
    | [_] => Stop (Panic "Prefetch queue is full with 1 element!")
    | it :: prevs => Ok (true, reverse (evict_rev it prevs))
    end
  else Ok (false, q).

Definition place (d : node) (q : queue) : queue :=
  match reverse q with
  | [] => [d]
  | it :: prevs =>
      if dp_le d.2 it.2 then q ++ [d] else reverse (insert_rev d it prevs)
  end.

(** [addToQueue(queue, dpp)] on one of the two queues: the new queue, the
    statistics and the next node identity. *)
Definition addToQueue (cfg : QueuedCfg) (q : queue) (dpp : DeferredPacket)
    (s : QueuedStats) (fresh : nat) : outcome (queue * QueuedStats * nat) :=
  '(full, q) ← make_room (queueSize cfg) q;
  let s := if full : bool then stat_removed_full s else s in
  Ok (place (fresh, dpp) q, s, S fresh).

Definition add_ready (cfg : QueuedCfg) (dpp : DeferredPacket) (st : QState) : outcome QState :=
  '(q, s, n) ← addToQueue cfg (pfq st) dpp (qstats st) (next_loc st);
  Ok (mkQ q (pfqMissing st) s n).

Definition add_missing (cfg : QueuedCfg) (dpp : DeferredPacket) (st : QState) : outcome QState :=
  '(q, s, n) ← addToQueue cfg (pfqMissing st) dpp (qstats st) (next_loc st);
  Ok (mkQ (pfq st) q s n).

(** ** [alreadyInQueue] *)

(** The bubbling of a packet whose priority was raised.  [e] sits at the hole,
    [skipped] are the contents between the hole and the predecessor under
    consideration, [prevs] the predecessors still to visit, nearest first.  The
    result lists the contents from the hole's original position backwards. *)
Fixpoint bubble (e : DeferredPacket) (skipped prevs : list DeferredPacket)
    : list DeferredPacket :=
  match prevs with
  | [] => e :: skipped
  | p :: prevs' =>
      if dp_gt e p then p :: skipped ++ bubble e [] prevs'
      else bubble e (skipped ++ [p]) prevs'
  end.

(** New contents for the nodes of a queue, identities kept in place. *)
Definition relabel (q : queue) (ds : list DeferredPacket) : queue := zip q.*1 ds.

(** The priority update of the node at index [i]. *)
Definition raise_priority (q : queue) (i : nat) (priority : Z) : queue :=
  match q.*2 !! i with
  | Some d =>
      if dp_priority d <? priority then
        relabel q (reverse (bubble (with_priority d priority) [] (reverse (take i q.*2)))
                   ++ drop (S i) q.*2)
      else q
  | None => q
  end.

(** The search loop steps its iterator once more after the match, so the node
    whose priority is updated is the successor of the one that was found. *)
Definition alreadyInQueue (q : queue) (pfi : PrefetchInfo) (priority : Z) (s : QueuedStats)
    : bool * queue * QueuedStats :=
  match list_find (λ n : node, sameAddr (dp_info n.2) pfi) q with
  | None => (false, q, s)
  | Some (i, _) =>
      if bool_decide (S i < length q)%nat
      then (true, raise_priority q (S i) priority, stat_buffer_hit s)
      else (true, q, s)
  end.

(** ** [insert] *)

Definition createPrefetchRequest (cfg : QueuedCfg) (addr : Z) (pfi : PrefetchInfo)
    (pkt : Packet) : outcome TransReq :=
  pc ← getPC pfi;
  ctx ← get_valid (req_contextId (pkt_req pkt)) "hasContextId()";
  let bc := base_cfg cfg in
  Ok (mkTransReq addr (blkSize bc) (Z.lor (req_flags (pkt_req pkt)) REQ_PREFETCH)
        (requestorId bc) pc ctx).

(** Where a prefetch goes: a physical address, a translation request, or
    nowhere. *)
Inductive target :=
| TargetPA (pa : Z)
| TargetTranslate (r : TransReq)
| TargetNone.

Definition compute_target (cfg : QueuedCfg) (pkt : Packet) (new_pfi : PrefetchInfo)
    : outcome target :=
  let bc := base_cfg cfg in
  let req := pkt_req pkt in
  orig_addr ← (if useVirtualAddresses bc then get_valid (req_vaddr req) "VALID_VADDR"
               else get_valid (req_paddr req) "hasPaddr()");
  let new_addr := pfi_address new_pfi in
  let positive_stride := orig_addr <=? new_addr in
  let stride := if positive_stride then new_addr - orig_addr else orig_addr - new_addr in
  same ← samePage bc orig_addr new_addr;
  if same : bool then
    if useVirtualAddresses bc then
      paddr ← get_valid (req_paddr req) "hasPaddr()";
      Ok (TargetPA (u64 (if positive_stride then paddr + stride else paddr - stride)))
    else Ok (TargetPA new_addr)
  else
    match req_contextId req with
    | None => Ok TargetNone
    | Some _ =>
        if useVirtualAddresses bc then
          r ← createPrefetchRequest cfg new_addr new_pfi pkt; Ok (TargetTranslate r)
        else match req_vaddr req with
        | Some vaddr =>
            let target_vaddr :=
              u64 (if positive_stride then vaddr + stride else vaddr - stride) in
            r ← createPrefetchRequest cfg target_vaddr new_pfi pkt; Ok (TargetTranslate r)
        | None => Ok TargetNone
        end
    end.

(** The two duplicate checks under [queueFilter]; [true] when the prefetch is
    already queued. *)
Definition filter_queued (cfg : QueuedCfg) (pfi : PrefetchInfo) (priority : Z) (st : QState)
    : bool * QState :=
  if queueFilter cfg then
    let '(found, q, s) := alreadyInQueue (pfq st) pfi priority (qstats st) in
    let st := mkQ q (pfqMissing st) s (next_loc st) in
    if found : bool then (true, st) else
    let '(found, q, s) := alreadyInQueue (pfqMissing st) pfi priority (qstats st) in
    (found, mkQ (pfq st) q s (next_loc st))
  else (false, st).

Definition redundant (cfg : QueuedCfg) (cache : CacheAccessor) (pa : Z) (secure : bool) : bool :=
  cacheSnoop cfg && (inCache cache pa secure || inMissQueue cache pa secure).

Definition pf_time (cfg : QueuedCfg) (curTick : Z) : Z :=
  u64 (curTick + clockPeriod cfg * latency cfg).

Definition make_ready (cfg : QueuedCfg) (curTick pa : Z) (dp : DeferredPacket) : DeferredPacket :=
  let bc := base_cfg cfg in
  createPkt dp pa (blkSize bc) (requestorId bc) (tagPrefetch cfg) (pf_time cfg curTick).

Definition insert (cfg : QueuedCfg) (curTick : Z) (pkt : Packet) (new_pfi : PrefetchInfo)
    (priority : Z) (cache : CacheAccessor) (st : QState) : outcome QState :=
  let '(found, st) := filter_queued cfg new_pfi priority st in
  if found : bool then Ok st else
  tgt ← compute_target cfg pkt new_pfi;
  match tgt with
  | TargetNone => Ok st
  | TargetPA pa =>
      if redundant cfg cache pa (pfi_secure new_pfi)
      then Ok (q_set_stats st (stat_in_cache (qstats st)))
      else add_ready cfg (make_ready cfg curTick pa (dp_new new_pfi 0 priority)) st
  | TargetTranslate r => add_missing cfg (with_trans (dp_new new_pfi 0 priority) r) st
  end.

(** ** Translations *)

(** [translationComplete(dp, failed, cache)]; [answer] is the physical address,
    or [None] when the translation failed. *)
Definition translationComplete (cfg : QueuedCfg) (curTick : Z) (cache : CacheAccessor)
    (loc : nat) (answer : option Z) (st : QState) : outcome QState :=
  match list_find (λ n : node, n.1 = loc) (pfqMissing st) with
  | None => Stop (AssertFail "it != pfqMissingTranslation.end()")
  | Some (i, (_, dp)) =>
      st ← match answer with
           | None => Ok st
           | Some pa =>
               if redundant cfg cache pa (pfi_secure (dp_info dp))
               then Ok (q_set_stats st (stat_in_cache (qstats st)))
               else add_ready cfg (make_ready cfg curTick pa dp) st
           end;
      Ok (q_set_missing st (delete i (pfqMissing st)))
  end.

(** [DeferredPacket::finish], called by the MMU. *)
Definition finish (cfg : QueuedCfg) (curTick : Z) (cache : CacheAccessor)
    (loc : nat) (answer : option Z) (st : QState) : outcome QState :=
  match list_find (λ n : node, n.1 = loc) (pfqMissing st) with
  | None => Stop (AssertFail "it != pfqMissingTranslation.end()")
  | Some (i, (_, dp)) =>
      _ ← assert_that (dp_ongoing dp) "ongoingTranslation";
      let st := q_set_missing st (<[i := (loc, with_ongoing dp false)]> (pfqMissing st)) in
      translationComplete cfg curTick cache loc answer st
  end.

Section Translate.
(** The MMU's reaction to a timing translation: [None] when the answer comes
    later through [finish], otherwise the immediate answer. *)
Variable translateTiming : TransReq → option (option Z).
Context (cfg : QueuedCfg) (curTick : Z) (cache : CacheAccessor).

Definition startTranslation (loc : nat) (st : QState) : outcome QState :=
  match list_find (λ n : node, n.1 = loc) (pfqMissing st) with
  | None => Stop (Panic "dangling deferred packet")
  | Some (i, (_, dp)) =>
      match dp_trans dp with
      | None => Stop (AssertFail "translationRequest != nullptr")
      | Some r =>
          if dp_ongoing dp then Ok st else
          let st := q_set_missing st (<[i := (loc, with_ongoing dp true)]> (pfqMissing st)) in
          match translateTiming r with
          | None => Ok st
          | Some answer => finish cfg curTick cache loc answer st
          end
      end
  end.

Fixpoint start_all (locs : list nat) (st : QState) : outcome QState :=
  match locs with
  | [] => Ok st
  | l :: locs' => st ← startTranslation l st; start_all locs' st
  end.

(** The loop visits the nodes that are in the list when it starts; starting
    one translation can only remove that node. *)
Definition processMissingTranslations (max : Z) (st : QState) : outcome QState :=
  start_all (take (Z.to_nat max) (pfqMissing st).*1) st.

Definition getPacket (b : BaseState) (st : QState)
    : outcome (option PfPacket * BaseState * QState) :=
  st ← match pfq st with
       | [] => processMissingTranslations (queueSize cfg) st
       | _ => Ok st
       end;
  match pfq st with
  | [] => Ok (None, b, st)
  | (_, dp) :: rest =>
      let st := q_set_pfq st rest in
      let b := mkBase (stat_issued (stats b)) (u64 (issuedPrefetches b + 1))
                 (usefulPrefetches b) (mmu b) in
      match dp_pkt dp with
      | None => Stop (AssertFail "pkt != nullptr")
      | Some pkt =>
          st ← processMissingTranslations
                 (u32 (queueSize cfg - Z.of_nat (length (pfq st)))) st;
          Ok (Some pkt, b, st)
      end
  end.
End Translate.


Definition nextPrefetchReadyTime (st : QState) : Z :=
  match pfq st with [] => MaxTick | (_, dp) :: _ => dp_tick dp end.

(** ** [notify] *)

Abbreviation AddrPriority := (Z * Z)%type.

(** What a concrete prefetcher supplies: the virtual method [calculatePrefetch],
    which trains the prefetcher's own state [D] on an access and returns the
    candidates it appended, in order. *)
Class CalculatePrefetch (D : Type) :=
  calculatePrefetch : Z → PrefetchInfo → CacheAccessor → D → outcome (D * list AddrPriority).

(** How many of [total] candidates may be turned into requests; the arithmetic
    is that of [size_t]. *)
Definition getMaxPermittedPrefetches (cfg : QueuedCfg) (b : BaseState) (total : Z) : Z :=
  if (0 <? total) && (0 <? issuedPrefetches b) then
    let throttle_pfs := u64 (total * throttleControlPct cfg) / 100 in
    let rest := u64 (total - throttle_pfs) in
    let min_pfs := if rest =? 0 then 1 else rest in
    u64 (min_pfs + u64 (u64 (total - min_pfs) * usefulPrefetches b) / issuedPrefetches b)
  else total.

(** The removal of the queued prefetches to the demanded line. *)
Definition squash (cfg : QueuedCfg) (pfi : PrefetchInfo) (st : QState) : QState :=
  if queueSquash cfg then
    let bc := base_cfg cfg in
    let blk_addr := blockAddress bc (pfi_address pfi) in
    let hit (n : node) :=
      (blockAddress bc (pfi_address (dp_info n.2)) =? blk_addr) &&
      eqb (pfi_secure (dp_info n.2)) (pfi_secure pfi) in
    let kept := filter (λ n, hit n = false) (pfq st) in
    mkQ kept (pfqMissing st)
      (stat_removed_demand (Z.of_nat (length (pfq st)) - Z.of_nat (length kept)) (qstats st))
      (next_loc st)
  else st.

Section Notify.
Context (cfg : QueuedCfg) (curTick : Z).

(** The loop over the candidates; [max_pfs] bounds the number of inserted
    ones and [has_mmu] allows crossing pages. *)
Fixpoint queue_candidates (acc : CacheAccessProbeArg) (pfi : PrefetchInfo) (has_mmu : bool)
    (max_pfs num_pfs : Z) (addresses : list AddrPriority) (st : QState) : outcome QState :=
  match addresses with
  | [] => Ok st
  | (addr, prio) :: rest =>
      let bc := base_cfg cfg in
      let pkt := acc_pkt acc in
      let addr := blockAddress bc addr in
      same ← samePage bc addr (pfi_address pfi);
      let st := if same : bool then st else
        q_set_stats st (stat_span_page
          (hasBeenPrefetched (acc_cache acc) (pkt_addr pkt) (pkt_isSecure pkt)) (qstats st)) in
      if has_mmu || same then
        let new_pfi := pfi_with_addr pfi addr in
        let st := q_set_stats st (stat_identified (qstats st)) in
        st ← insert cfg curTick pkt new_pfi prio (acc_cache acc) st;
        let num_pfs := num_pfs + 1 in
        if num_pfs =? max_pfs then Ok st
        else queue_candidates acc pfi has_mmu max_pfs num_pfs rest st
      else queue_candidates acc pfi has_mmu max_pfs num_pfs rest st
  end.

Definition notify `{CalculatePrefetch D} (acc : CacheAccessProbeArg) (pfi : PrefetchInfo)
    (st : BaseState * (QState * D)) : outcome (BaseState * (QState * D)) :=
  let '(b, (q, d)) := st in
  let q := squash cfg pfi q in
  '(d, addresses) ← calculatePrefetch curTick pfi (acc_cache acc) d;
  let max_pfs := getMaxPermittedPrefetches cfg b (Z.of_nat (length addresses)) in
  q ← queue_candidates acc pfi (mmu b) max_pfs 0 addresses q;
  Ok (b, (q, d)).
End Notify.
