(* ===== verification/PrefetchQueueFacts.v ===== *)
(** * Properties of the prefetch queues

    Structural lemmas on eviction, placement and priority updates, the queue
    invariant with its preservation by every operation, totality of the
    operations under the invariant, and the first-in first-out behaviour the
    queue has when all priorities are equal. *)

From Stdlib Require Import ZArith Lia.
From stdpp Require Import base numbers option list strings sets sorting.
From S2P Require Import Prelude IntMath PrefetchBase PrefetchQueue.
#[local] Open Scope Z_scope.

(** ** Eviction *)

Lemma evict_rev_perm it prevs :
  ∃ v, it :: prevs ≡ₚ v :: evict_rev it prevs ∧ dp_priority v.2 = dp_priority it.2.
Proof.
  revert it. induction prevs as [|p prevs IH]; intros it; simpl; [by exists it|].
  case_match eqn:E; [|by exists it].
  apply Z.eqb_eq in E. destruct (IH p) as (v & Hp & Hv). exists v. split; [|lia].
  rewrite Hp. by rewrite Permutation_swap.
Qed.

Lemma evict_rev_uniform it prevs :
  Forall (λ n, dp_priority n.2 = dp_priority it.2) prevs →
  reverse (evict_rev it prevs) = tail (reverse (it :: prevs)).
Proof.
  revert it. induction prevs as [|p prevs IH]; intros it Hf; simpl; [done|].
  apply Forall_cons in Hf as [Hp Hf]. rewrite (proj2 (Z.eqb_eq _ _) Hp).
  rewrite reverse_cons, IH.
  - rewrite !reverse_cons. by destruct (reverse prevs).
  - eapply Forall_impl; [done|]. simpl. intros; congruence.
Qed.

Lemma make_room_spec size q :
  2 ≤ size → Z.of_nat (length q) ≤ size →
  ∃ full q', make_room size q = Ok (full, q') ∧
    Z.of_nat (length q') < size ∧
    (full = true → ∃ v l, last q = Some l ∧ dp_priority v.2 = dp_priority l.2 ∧
                          q ≡ₚ v :: q') ∧
    (full = false → q' = q).
Proof.
  intros Hs Hq. unfold make_room. destruct (Z.eqb_spec (Z.of_nat (length q)) size) as [E|].
  2: { exists false, q. split_and!; [done|lia|done|done]. }
  destruct (reverse q) as [|it prevs] eqn:Er.
  { apply (f_equal length) in Er. rewrite length_reverse in Er. simpl in Er. lia. }
  assert (q = reverse (it :: prevs)) as Eq by by rewrite <-Er, reverse_involutive.
  destruct (evict_rev_perm it prevs) as (v & Hp & Hv).
  assert (q ≡ₚ v :: reverse (evict_rev it prevs)) as Hperm.
  { rewrite Eq, reverse_Permutation, Hp. by rewrite reverse_Permutation. }
  destruct prevs as [|p prevs].
  { subst q. simpl in E. lia. }
  exists true. eexists. split; [done|]. split_and!; [|intros _|done].
  - apply Permutation_length in Hperm. rewrite length_cons in Hperm. lia.
  - exists v, it. split_and!; [|done|done]. subst q. by rewrite reverse_cons, last_snoc.
Qed.

(** ** Placement *)

Lemma insert_rev_perm d it prevs : insert_rev d it prevs ≡ₚ d :: it :: prevs.
Proof.
  revert it. induction prevs as [|p prevs IH]; intros it; simpl; case_match.
  - done.
  - apply Permutation_swap.
  - rewrite IH. apply Permutation_swap.
  - apply Permutation_swap.
Qed.

Lemma place_perm d q : place d q ≡ₚ d :: q.
Proof.
  unfold place. destruct (reverse q) as [|it prevs] eqn:Er.
  - apply (f_equal reverse) in Er. rewrite reverse_involutive in Er. by subst.
  - case_match; [symmetry; apply Permutation_cons_append|].
    rewrite reverse_Permutation, insert_rev_perm, <-Er. by rewrite reverse_Permutation.
Qed.

(** A packet that does not outrank the last one goes to the back. *)
Lemma place_back d q l :
  last q = Some l → dp_priority d.2 ≤ dp_priority l.2 → place d q = q ++ [d].
Proof.
  intros Hl Hd. unfold place. destruct (reverse q) as [|it prevs] eqn:Er.
  { apply (f_equal reverse) in Er. rewrite reverse_involutive in Er. by subst. }
  assert (q = reverse prevs ++ [it]) as Eq.
  { rewrite <-reverse_cons, <-Er. by rewrite reverse_involutive. }
  rewrite Eq, last_snoc in Hl. injection Hl as <-.
  unfold dp_le, dp_gt. by rewrite (proj2 (Z.ltb_ge _ _) Hd).
Qed.

Lemma place_nil d : place d [] = [d].
Proof. done. Qed.

(** ** Adding to a queue *)

Lemma addToQueue_spec cfg q dpp s n :
  2 ≤ queueSize cfg → Z.of_nat (length q) ≤ queueSize cfg →
  ∃ q' s', addToQueue cfg q dpp s n = Ok (place (n, dpp) q', s', S n) ∧
    Z.of_nat (length q') < queueSize cfg ∧ q' ⊆+ q.
Proof.
  intros Hs Hq. destruct (make_room_spec _ _ Hs Hq) as (full & q' & E & Hl & Ht & Hf).
  unfold addToQueue. rewrite E. run_ok.
  exists q'. eexists. split; [done|]. split; [done|].
  destruct full; [|by rewrite Hf].
  destruct (Ht eq_refl) as (v & l & _ & _ & Hp). rewrite Hp. by apply submseteq_cons.
Qed.

(** ** Priority updates *)

(** Everything of a packet but its priority. *)
Definition strip (d : DeferredPacket) : DeferredPacket := with_priority d 0.

Lemma bubble_perm e skipped prevs : bubble e skipped prevs ≡ₚ e :: skipped ++ prevs.
Proof.
  revert skipped. induction prevs as [|p prevs IH]; intros skipped; simpl.
  - by rewrite app_nil_r.
  - case_match; rewrite IH; simpl.
    + rewrite <-Permutation_middle, <-!Permutation_middle. apply Permutation_swap.
    + by rewrite <-app_assoc.
Qed.

Lemma length_bubble e skipped prevs :
  length (bubble e skipped prevs) = S (length skipped + length prevs).
Proof. rewrite bubble_perm. simpl. by rewrite length_app. Qed.

Lemma raise_priority_spec q i p :
  (raise_priority q i p).*1 = q.*1 ∧
  strip <$> (raise_priority q i p).*2 ≡ₚ strip <$> q.*2.
Proof.
  unfold raise_priority. destruct (q.*2 !! i) as [d|] eqn:Ed; [|done].
  case_match; [|done]. set (ds := reverse _ ++ _).
  assert (ds ≡ₚ with_priority d p :: take i q.*2 ++ drop (S i) q.*2) as Hp.
  { subst ds. rewrite reverse_Permutation, bubble_perm. simpl.
    by rewrite reverse_Permutation. }
  assert (length ds = length q.*2) as Hl.
  { rewrite Hp. simpl. rewrite <-(take_drop_middle _ _ _ Ed) at 3.
    rewrite !length_app. simpl. lia. }
  clearbody ds. unfold relabel. rewrite !length_fmap in Hl. split.
  - apply fst_zip. rewrite length_fmap. lia.
  - rewrite snd_zip by (rewrite length_fmap; lia). rewrite Hp.
    rewrite <-(take_drop_middle _ _ _ Ed) at 3. rewrite !fmap_app, !fmap_cons, fmap_app.
    by rewrite <-Permutation_middle.
Qed.

(** A property of packets that does not look at the priority survives. *)
Lemma raise_priority_Forall (P : DeferredPacket → Prop) q i p :
  (∀ d x, P (with_priority d x) ↔ P d) →
  Forall (λ n : node, P n.2) q → Forall (λ n : node, P n.2) (raise_priority q i p).
Proof.
  intros HP Hq. destruct (raise_priority_spec q i p) as [_ Hs].
  apply Forall_fmap in Hq. assert (Forall P (strip <$> q.*2)) as Hq'.
  { apply Forall_fmap. eapply Forall_impl; [exact Hq|]. intros d. apply HP. }
  rewrite <-Hs in Hq'. rewrite Forall_fmap in Hq'. 
  change (Forall (P ∘ snd) (raise_priority q i p)). apply Forall_fmap.
  eapply Forall_impl; [exact Hq'|]. intros d. apply HP.
Qed.

Lemma length_raise_priority q i p : length (raise_priority q i p) = length q.
Proof.
  destruct (raise_priority_spec q i p) as [H _].
  by rewrite <-(length_fmap fst), H, length_fmap.
Qed.

(** The identity of a queued prefetch for the duplicate filter. *)
Definition dp_key (d : DeferredPacket) : Z * bool :=
  (pfi_address (dp_info d), pfi_secure (dp_info d)).
Definition keys (q : queue) : list (Z * bool) := (λ n : node, dp_key n.2) <$> q.

Lemma raise_priority_keys q i p : keys (raise_priority q i p) ≡ₚ keys q.
Proof.
  destruct (raise_priority_spec q i p) as [_ Hs]. unfold keys.
  assert (∀ q : queue, (λ n : node, dp_key n.2) <$> q = dp_key <$> (strip <$> q.*2)) as E.
  { intros q'. by rewrite <-!list_fmap_compose. }
  rewrite !E. by rewrite Hs.
Qed.

Lemma sameAddr_key d pfi :
  sameAddr (dp_info d) pfi = true ↔ dp_key d = (pfi_address pfi, pfi_secure pfi).
Proof.
  unfold sameAddr, dp_key. rewrite andb_true_iff, Z.eqb_eq, eqb_true_iff.
  split; [intros [-> ->]; done|intros [=]; done].
Qed.

(** The answer of the duplicate check, and what it leaves of the queue. *)
Lemma alreadyInQueue_spec q pfi p s :
  let '(found, q', s') := alreadyInQueue q pfi p s in
  (found = true ↔ (pfi_address pfi, pfi_secure pfi) ∈ keys q) ∧
  (found = false → q' = q ∧ s' = s) ∧ ∃ i, q' = q ∨ q' = raise_priority q i p.
Proof.
  unfold alreadyInQueue.
  destruct (list_find _ q) as [[i n]|] eqn:E.
  - apply list_find_Some in E as (Hi & Hs & _).
    assert ((pfi_address pfi, pfi_secure pfi) ∈ keys q) as Hk.
    { apply Is_true_true, sameAddr_key in Hs. rewrite <-Hs.
      apply list_elem_of_fmap. exists n. split; [done|]. by eapply list_elem_of_lookup_2. }
    case_bool_decide; (split; [done|]); (split; [done|]); exists (S i); auto.
  - apply list_find_None in E. split; [|split; [done|exists 0%nat; auto]].
    split; [done|]. intros (n & Hk & Hn)%list_elem_of_fmap. exfalso.
    rewrite Forall_forall in E. apply (E n Hn). apply Is_true_true, sameAddr_key. done.
Qed.

(** ** The invariant *)

Record q_wf (cfg : QueuedCfg) (st : QState) : Prop := {
  wf_pfq_len : Z.of_nat (length (pfq st)) ≤ queueSize cfg;
  wf_missing_len : Z.of_nat (length (pfqMissing st)) ≤ queueSize cfg;
  wf_pkt : Forall (λ n : node, is_Some (dp_pkt n.2)) (pfq st);
  wf_trans : Forall (λ n : node, is_Some (dp_trans n.2)) (pfqMissing st);
  wf_locs : NoDup (pfqMissing st).*1;
  wf_fresh : Forall (λ l, l < next_loc st)%nat (pfqMissing st).*1;
  wf_keys : queueFilter cfg = true → NoDup (keys (pfq st) ++ keys (pfqMissing st))
}.

Section Invariant.
Context (cfg : QueuedCfg) (Hsize : 2 ≤ queueSize cfg).

Lemma q_empty_wf : q_wf cfg q_empty.
Proof using Hsize. by split; simpl; try constructor; try lia. Qed.

Lemma q_set_stats_wf st s : q_wf cfg st → q_wf cfg (q_set_stats st s).
Proof using. intros []. by split. Qed.

Lemma squash_wf pfi st : q_wf cfg st → q_wf cfg (squash cfg pfi st).
Proof using.
  intros [H1 H2 H3 H4 H5 H6 H7]. unfold squash. case_match; [|by split].
  set (P := λ n, _ = false).
  assert (filter P (pfq st) ⊆+ pfq st) as Hs by apply sublist_submseteq, sublist_filter.
  split; simpl; try done.
  - apply submseteq_length in Hs. lia.
  - by eapply Forall_submseteq.
  - intros Hf. eapply NoDup_submseteq_inv; [|by apply H7].
    apply submseteq_app; [|done]. by apply fmap_submseteq.
Qed.

Lemma filter_queued_spec pfi p st :
  q_wf cfg st →
  let '(found, st') := filter_queued cfg pfi p st in
  q_wf cfg st' ∧
  (found = true ↔ queueFilter cfg = true ∧
    (pfi_address pfi, pfi_secure pfi) ∈ keys (pfq st) ++ keys (pfqMissing st)) ∧
  (found = false → st' = st).
Proof using.
  intros Hw. unfold filter_queued. destruct (queueFilter cfg) eqn:Ef.
  2: { split_and!; [done|naive_solver|done]. }
  assert (∀ q i p', q_wf cfg (mkQ (raise_priority (pfq st) i p') (pfqMissing st) q (next_loc st)))
    as W1.
  { destruct Hw as [H1 H2 H3 H4 H5 H6 H7]. intros q i p'. split; simpl; try done.
    - by rewrite length_raise_priority.
    - by apply (raise_priority_Forall (λ d, is_Some (dp_pkt d))).
    - intros _. rewrite raise_priority_keys. auto. }
  assert (∀ q i p', q_wf cfg (mkQ (pfq st) (raise_priority (pfqMissing st) i p') q (next_loc st)))
    as W2.
  { destruct Hw as [H1 H2 H3 H4 H5 H6 H7]. intros q i p'.
    destruct (raise_priority_spec (pfqMissing st) i p') as [El _]. split; simpl; try done.
    - by rewrite length_raise_priority.
    - by apply (raise_priority_Forall (λ d, is_Some (dp_trans d))).
    - by rewrite El.
    - by rewrite El.
    - intros _. rewrite raise_priority_keys. auto. }
  assert (∀ s, q_wf cfg (mkQ (pfq st) (pfqMissing st) s (next_loc st))) as W0
    by (intros s; apply (q_set_stats_wf st s Hw)).
  pose proof (alreadyInQueue_spec (pfq st) pfi p (qstats st)) as Ha.
  destruct (alreadyInQueue (pfq st) pfi p (qstats st)) as [[f1 q1] s1].
  destruct Ha as (Hf1 & Hn1 & i1 & Hq1). destruct f1.
  { split_and!; [by destruct Hq1 as [-> | ->]| |done].
    split; [|done]. intros _. split; [done|]. apply elem_of_app. left. by apply Hf1. }
  destruct (Hn1 eq_refl) as [-> ->]. simpl.
  pose proof (alreadyInQueue_spec (pfqMissing st) pfi p (qstats st)) as Ha.
  destruct (alreadyInQueue (pfqMissing st) pfi p (qstats st)) as [[f2 q2] s2].
  destruct Ha as (Hf2 & Hn2 & i2 & Hq2). split_and!.
  - destruct Hq2 as [-> | ->]; auto.
  - rewrite elem_of_app, Hf2. destruct Hf1 as [_ Hf1]. naive_solver.
  - intros ->. destruct (Hn2 eq_refl) as [-> ->]. by destruct st.
Qed.

Lemma keys_place d q : keys (place d q) ≡ₚ dp_key d.2 :: keys q.
Proof using. unfold keys. by rewrite place_perm. Qed.

Lemma add_ready_ok d st :
  q_wf cfg st →
  ∃ q' s', add_ready cfg d st
           = Ok (mkQ (place (next_loc st, d) q') (pfqMissing st) s' (S (next_loc st))) ∧
    Z.of_nat (length q') < queueSize cfg ∧ q' ⊆+ pfq st.
Proof using Hsize.
  intros Hw. unfold add_ready.
  destruct (addToQueue_spec cfg (pfq st) d (qstats st) (next_loc st) Hsize)
    as (q' & s' & -> & Hl & Hsub); [by apply wf_pfq_len|]. by exists q', s'.
Qed.

(** The state after [d] has moved to the ready queue, for a missing queue that
    lost some nodes. *)
Lemma ready_wf d q' m s st :
  q_wf cfg st → is_Some (dp_pkt d) → Z.of_nat (length q') < queueSize cfg →
  q' ⊆+ pfq st → m ⊆+ pfqMissing st →
  (queueFilter cfg = true → NoDup (dp_key d :: keys (pfq st) ++ keys m)) →
  q_wf cfg (mkQ (place (next_loc st, d) q') m s (S (next_loc st))).
Proof using.
  intros [H1 H2 H3 H4 H5 H6 H7] Hd Hl Hs Hm Hk. split; simpl.
  - rewrite (Permutation_length (place_perm _ _)). simpl. lia.
  - apply submseteq_length in Hm. lia.
  - rewrite place_perm. constructor; [done|]. by eapply Forall_submseteq.
  - by eapply Forall_submseteq.
  - eapply NoDup_submseteq_inv; [|done]. by apply fmap_submseteq.
  - eapply Forall_submseteq; [by apply fmap_submseteq|].
    eapply Forall_impl; [done|]. simpl. lia.
  - intros Hf. rewrite keys_place. simpl. eapply NoDup_submseteq_inv; [|by apply Hk].
    apply submseteq_skip, submseteq_app; [|done]. by apply fmap_submseteq.
Qed.

Lemma add_ready_wf d st :
  q_wf cfg st → is_Some (dp_pkt d) →
  (queueFilter cfg = true → dp_key d ∉ keys (pfq st) ++ keys (pfqMissing st)) →
  succeeds (add_ready cfg d st) (q_wf cfg).
Proof using Hsize.
  intros Hw Hd Hk. destruct (add_ready_ok d st Hw) as (q' & s' & -> & Hl & Hs). simpl.
  apply ready_wf; try done. intros Hf. constructor; [auto|]. by apply (wf_keys _ _ Hw).
Qed.

Lemma add_missing_wf d st :
  q_wf cfg st → is_Some (dp_trans d) →
  (queueFilter cfg = true → dp_key d ∉ keys (pfq st) ++ keys (pfqMissing st)) →
  succeeds (add_missing cfg d st) (q_wf cfg).
Proof using Hsize.
  intros [H1 H2 H3 H4 H5 H6 H7] Hd Hk. unfold add_missing.
  destruct (addToQueue_spec cfg (pfqMissing st) d (qstats st) (next_loc st) Hsize H2)
    as (q' & s' & -> & Hl & Hs). simpl.
  assert (Forall (λ l, l < next_loc st)%nat q'.*1) as H6'
    by (eapply Forall_submseteq; [by apply fmap_submseteq|done]).
  split; simpl; try done.
  - rewrite (Permutation_length (place_perm _ _)). simpl. lia.
  - rewrite place_perm. constructor; [done|]. by eapply Forall_submseteq.
  - rewrite place_perm. simpl. constructor.
    + rewrite Forall_forall in H6'. intros Hi%H6'. lia.
    + eapply NoDup_submseteq_inv; [|done]. by apply fmap_submseteq.
  - rewrite place_perm. simpl. constructor; [lia|]. eapply Forall_impl; [done|].
    simpl. lia.
  - intros Hf. rewrite keys_place. simpl. rewrite <-Permutation_middle.
    eapply NoDup_submseteq_inv; [|constructor; [by apply Hk|by apply H7]].
    apply submseteq_skip, submseteq_app; [done|]. by apply fmap_submseteq.
Qed.

(** *** [insert] *)

(** What the packet of an access carries for the addresses to be computed. *)
Record pkt_wf (pkt : Packet) (pfi : PrefetchInfo) : Prop := {
  wf_paddr : is_Some (req_paddr (pkt_req pkt));
  wf_vaddr : useVirtualAddresses (base_cfg cfg) = true → is_Some (req_vaddr (pkt_req pkt));
  wf_pc : is_ok (getPC pfi)
}.

Lemma compute_target_ok pkt pfi :
  cfg_wf (base_cfg cfg) → pkt_wf pkt pfi →
  succeeds (compute_target cfg pkt pfi) (λ _, True).
Proof using.
  intros Hc [[pa Hpa] Hva Hpc]. unfold compute_target. rewrite Hpa.
  destruct (getPC pfi) as [pc|] eqn:Epc; [|by destruct Hpc].
  unfold createPrefetchRequest. rewrite Epc.
  apply succeeds_bind. destruct (useVirtualAddresses (base_cfg cfg)) eqn:Ev.
  - destruct (Hva eq_refl) as [va Hv]. rewrite Hv. simpl.
    destruct (samePage_total _ Hc va (pfi_address pfi)) as [r ->]. simpl.
    destruct (req_contextId (pkt_req pkt)); repeat case_match; done.
  - simpl. destruct (samePage_total _ Hc pa (pfi_address pfi)) as [r ->]. simpl.
    destruct (req_contextId (pkt_req pkt)); repeat case_match; done.
Qed.

Lemma insert_wf curTick pkt pfi prio cache st :
  cfg_wf (base_cfg cfg) → pkt_wf pkt pfi → q_wf cfg st →
  succeeds (insert cfg curTick pkt pfi prio cache st) (q_wf cfg).
Proof using Hsize.
  intros Hc Hp Hw. unfold insert.
  pose proof (filter_queued_spec pfi prio st Hw) as Hf.
  destruct (filter_queued cfg pfi prio st) as [[] st'].
  { by destruct Hf. }
  destruct Hf as (_ & Hk & ->); [|done].
  apply succeeds_bind. eapply succeeds_mono; [by apply compute_target_ok|].
  intros [pa|r|] _; [| |done].
  - case_match; [by apply q_set_stats_wf|]. apply add_ready_wf; [done|done|].
    intros Hq Hin. assert (false = true); [|done]. by apply Hk.
  - apply add_missing_wf; [done|done|].
    intros Hq Hin. assert (false = true); [|done]. by apply Hk.
Qed.

(** *** Translations *)

Lemma find_loc st loc :
  q_wf cfg st → loc ∈ (pfqMissing st).*1 →
  ∃ i dp, list_find (λ n : node, n.1 = loc) (pfqMissing st) = Some (i, (loc, dp)) ∧
    pfqMissing st !! i = Some (loc, dp) ∧ is_Some (dp_trans dp).
Proof using.
  intros Hw ([l dp] & El & Hin)%list_elem_of_fmap. simpl in El. subst l.
  destruct (list_find_elem_of (λ n : node, n.1 = loc) _ _ Hin eq_refl) as [[i [l' d']] Hf].
  pose proof Hf as (Hi & Hl & _)%list_find_Some. simpl in Hl. subst l'.
  exists i, d'. split_and!; [done|done|].
  pose proof (wf_trans _ _ Hw) as Ht. rewrite Forall_forall in Ht.
  by apply (Ht (loc, d')), (list_elem_of_lookup_2 _ i).
Qed.

Lemma set_ongoing_wf st i loc dp b :
  q_wf cfg st → pfqMissing st !! i = Some (loc, dp) →
  q_wf cfg (q_set_missing st (<[i := (loc, with_ongoing dp b)]> (pfqMissing st))).
Proof using.
  intros [H1 H2 H3 H4 H5 H6 H7] Hi.
  assert ((<[i := (loc, with_ongoing dp b)]> (pfqMissing st)).*1 = (pfqMissing st).*1) as E1.
  { rewrite list_fmap_insert. apply list_insert_id. by rewrite list_lookup_fmap, Hi. }
  assert (keys (<[i := (loc, with_ongoing dp b)]> (pfqMissing st)) = keys (pfqMissing st)) as E2.
  { unfold keys. rewrite list_fmap_insert. apply list_insert_id.
    by rewrite list_lookup_fmap, Hi. }
  split; simpl; try done; try by rewrite ?length_insert, ?E1, ?E2.
  apply Forall_insert; [done|]. simpl. rewrite Forall_lookup in H4. by apply (H4 i _ Hi).
Qed.

Lemma delete_missing_perm st i n :
  pfqMissing st !! i = Some n → pfqMissing st ≡ₚ n :: delete i (pfqMissing st).
Proof using. apply delete_Permutation. Qed.

Lemma translationComplete_wf curTick cache loc answer st :
  q_wf cfg st → loc ∈ (pfqMissing st).*1 →
  succeeds (translationComplete cfg curTick cache loc answer st) (λ st',
    q_wf cfg st' ∧ (pfqMissing st).*1 ≡ₚ loc :: (pfqMissing st').*1).
Proof using Hsize.
  intros Hw Hin. destruct (find_loc _ _ Hw Hin) as (i & dp & Hf & Hi & _).
  pose proof (delete_missing_perm _ _ _ Hi) as Hp.
  assert (delete i (pfqMissing st) ⊆+ pfqMissing st) as Hs.
  { rewrite Hp at 2. by apply submseteq_cons. }
  assert (∀ s, q_wf cfg (q_set_missing (q_set_stats st s) (delete i (pfqMissing st)))) as Hd.
  { destruct Hw as [H1 H2 H3 H4 H5 H6 H7]. intros s. split; simpl; try done.
    - apply submseteq_length in Hs. lia.
    - by eapply Forall_submseteq.
    - eapply NoDup_submseteq_inv; [|done]. by apply fmap_submseteq.
    - eapply Forall_submseteq; [by apply fmap_submseteq|done].
    - intros ?. eapply NoDup_submseteq_inv; [|by apply H7].
      apply submseteq_app; [done|]. by apply fmap_submseteq. }
  assert ((pfqMissing st).*1 ≡ₚ loc :: (delete i (pfqMissing st)).*1) as Hq
    by apply (fmap_Permutation fst _ _ Hp).
  unfold translationComplete. rewrite Hf. destruct answer as [pa|].
  2: { simpl. split; [|done]. specialize (Hd (qstats st)). by destruct st. }
  case_match; [by split|].
  destruct (add_ready_ok (make_ready cfg curTick pa dp) st Hw) as (q' & s' & -> & Hl & Hs').
  simpl. split; [|done]. apply ready_wf; try done.
  intros Hfl. pose proof (wf_keys _ _ Hw Hfl) as Hn. unfold keys in Hn at 2.
  rewrite Hp in Hn. cbn [fmap list_fmap] in Hn. by rewrite <-Permutation_middle in Hn.
Qed.

Lemma finish_wf curTick cache loc dp answer st :
  q_wf cfg st → (loc, dp) ∈ pfqMissing st → dp_ongoing dp = true →
  succeeds (finish cfg curTick cache loc answer st) (λ st',
    q_wf cfg st' ∧ (pfqMissing st).*1 ≡ₚ loc :: (pfqMissing st').*1).
Proof using Hsize.
  intros Hw Hin Ho. unfold finish.
  assert (loc ∈ (pfqMissing st).*1) as Hl by (apply list_elem_of_fmap; by exists (loc, dp)).
  destruct (find_loc _ _ Hw Hl) as (i & d' & Hf & Hi & _).
  assert (d' = dp) as ->.
  { apply list_elem_of_lookup in Hin as [j Hj].
    assert (i = j) as ->; [|congruence].
    eapply (NoDup_lookup _ i j loc (wf_locs _ _ Hw)); by rewrite list_lookup_fmap, ?Hi, ?Hj. }
  rewrite Hf, Ho. cbn [assert_that mbind outcome_bind].
  assert ((<[i := (loc, with_ongoing dp false)]> (pfqMissing st)).*1 = (pfqMissing st).*1) as E1.
  { rewrite list_fmap_insert. apply list_insert_id. by rewrite list_lookup_fmap, Hi. }
  pose proof (translationComplete_wf curTick cache loc answer
    (q_set_missing st (<[i:=(loc, with_ongoing dp false)]> (pfqMissing st)))) as Ht.
  simpl in Ht. rewrite E1 in Ht. apply Ht; [|done]. by apply set_ongoing_wf.
Qed.

Section Translating.
Context (translateTiming : TransReq → option (option Z)).
Context (curTick : Z) (cache : CacheAccessor).

Lemma startTranslation_wf loc st :
  q_wf cfg st → loc ∈ (pfqMissing st).*1 →
  succeeds (startTranslation translateTiming cfg curTick cache loc st) (λ st',
    q_wf cfg st' ∧ (∀ l, l ≠ loc → l ∈ (pfqMissing st).*1 → l ∈ (pfqMissing st').*1)).
Proof using Hsize.
  intros Hw Hin. destruct (find_loc _ _ Hw Hin) as (i & dp & Hf & Hi & [r Hr]).
  unfold startTranslation. rewrite Hf, Hr. destruct (dp_ongoing dp); [done|].
  pose proof (set_ongoing_wf st i loc dp true Hw Hi) as Hw'.
  assert ((<[i := (loc, with_ongoing dp true)]> (pfqMissing st)).*1 = (pfqMissing st).*1)
    as E1.
  { rewrite list_fmap_insert. apply list_insert_id. by rewrite list_lookup_fmap, Hi. }
  destruct (translateTiming r) as [answer|].
  2: { split; [done|]. intros l _. simpl. by rewrite E1. }
  eapply succeeds_mono.
  { apply (finish_wf curTick cache loc (with_ongoing dp true)); [done| |done].
    simpl. apply (list_elem_of_lookup_2 _ i), list_lookup_insert_eq.
    by eapply lookup_lt_Some. }
  intros st' [Hw2 Hp]. split; [done|]. intros l Hne Hl. simpl in Hp.
  rewrite E1 in Hp. rewrite Hp in Hl. by apply elem_of_cons in Hl as [?|?].
Qed.

Lemma start_all_wf locs st :
  q_wf cfg st → NoDup locs → (∀ l, l ∈ locs → l ∈ (pfqMissing st).*1) →
  succeeds (start_all translateTiming cfg curTick cache locs st) (q_wf cfg).
Proof using Hsize.
  revert st. induction locs as [|l locs IH]; intros st Hw Hn Hin; [done|].
  apply NoDup_cons in Hn as [Hni Hn]. simpl. apply succeeds_bind.
  eapply succeeds_mono; [apply startTranslation_wf; [done|]; apply Hin; left|].
  intros st' [Hw' Hk]. apply IH; [done|done|]. intros l' Hl'.
  apply Hk; [by intros ->|]. apply Hin. by right.
Qed.

Lemma processMissingTranslations_wf max st :
  q_wf cfg st →
  succeeds (processMissingTranslations translateTiming cfg curTick cache max st) (q_wf cfg).
Proof using Hsize.
  intros Hw. apply start_all_wf; [done| |].
  - eapply NoDup_submseteq_inv; [|by apply (wf_locs _ _ Hw)].
    apply sublist_submseteq, sublist_take.
  - intros l Hl. eapply elem_of_submseteq; [done|]. apply sublist_submseteq, sublist_take.
Qed.

Lemma pop_wf n rest st : q_wf cfg st → pfq st = n :: rest → q_wf cfg (q_set_pfq st rest).
Proof using.
  intros [H1 H2 H3 H4 H5 H6 H7] E. rewrite E in H1, H3. split; simpl in *; try done.
  - lia.
  - by inversion H3.
  - intros Hf. specialize (H7 Hf). rewrite E in H7. by inversion H7.
Qed.

Lemma getPacket_wf b st :
  q_wf cfg st →
  succeeds (getPacket translateTiming cfg curTick cache b st) (λ '(_, _, st'), q_wf cfg st').
Proof using Hsize.
  intros Hw. unfold getPacket. apply succeeds_bind.
  assert (succeeds match pfq st with
     | [] => processMissingTranslations translateTiming cfg curTick cache (queueSize cfg) st
     | _ => Ok st
     end (q_wf cfg)) as Hr.
  { destruct (pfq st); [by apply processMissingTranslations_wf|done]. }
  eapply succeeds_mono; [exact Hr|]. clear Hr Hw st. intros st Hw.
  destruct (pfq st) as [|[l dp] rest] eqn:E; [done|].
  pose proof (wf_pkt _ _ Hw) as Hp. rewrite E in Hp. inversion Hp as [|?? [pkt Hd] ?].
  simpl in Hd. rewrite Hd. apply succeeds_bind.
  eapply succeeds_mono; [apply processMissingTranslations_wf; by eapply pop_wf|done].
Qed.
End Translating.

(** *** [notify] *)

Lemma queue_candidates_wf curTick acc pfi has_mmu max_pfs num addrs st :
  cfg_wf (base_cfg cfg) → pkt_wf (acc_pkt acc) pfi → q_wf cfg st →
  succeeds (queue_candidates cfg curTick acc pfi has_mmu max_pfs num addrs st) (q_wf cfg).
Proof using Hsize.
  intros Hc Hp. revert num st. induction addrs as [|[a p] addrs IH]; intros num st Hw; [done|].
  cbn [queue_candidates].
  destruct (samePage_total _ Hc (blockAddress (base_cfg cfg) a) (pfi_address pfi)) as [r ->].
  run_ok. set (st1 := if r then st else _).
  assert (q_wf cfg st1) as Hw1 by (subst st1; destruct r; [done|by apply q_set_stats_wf]).
  clearbody st1. destruct (has_mmu || r); [|by apply IH].
  apply succeeds_bind. eapply succeeds_mono.
  - apply insert_wf; [done| |by apply q_set_stats_wf]. by destruct Hp.
  - intros st2 Hw2. case_match; [done|by apply IH].
Qed.

Lemma notify_wf `{CalculatePrefetch D} curTick acc pfi b q d :
  cfg_wf (base_cfg cfg) → pkt_wf (acc_pkt acc) pfi → q_wf cfg q →
  is_ok (calculatePrefetch curTick pfi (acc_cache acc) d) →
  succeeds (notify cfg curTick acc pfi (b, (q, d))) (λ '(b', (q', _)), b' = b ∧ q_wf cfg q').
Proof using Hsize.
  intros Hc Hp Hw Hd. unfold notify.
  destruct (calculatePrefetch _ _ _ _) as [[d' l]|]; [|by destruct Hd].
  simpl. apply succeeds_bind. eapply succeeds_mono.
  - apply queue_candidates_wf; [done|done|]. by apply squash_wf.
  - done.
Qed.
End Invariant.
