(* ===== verification/Children.v ===== *)
(** * Prefetchers as children

    The controller ([MLController]) and the multi prefetcher see their children through
    the virtual method [calculatePrefetch] of [src/src/mem/cache/prefetch/queued.hh].  Here is
    what they may rely on: a child has an invariant under which every access succeeds and
    which every access preserves.  Each prefetcher of the library discharges it with an
    instance, and the controller's own theorem is proved against it ([Evaluated]).  Children of
    different classes are values of one type ([AnyPrefetcher]). *)

From Stdlib Require Import ZArith Lia.
From stdpp Require Import base numbers option list strings.
From S2P Require Import Prelude PrefetchBase PrefetchQueue.
#[local] Open Scope Z_scope.

Class SafePrefetcher (D : Type) `{CalculatePrefetch D} := {
  pf_inv : D → Prop;
  pf_step t pfi cache d :
    in_u 64 (pfi_address pfi) → pf_inv d → ∃ d' l, calculatePrefetch t pfi cache d = Ok (d', l) ∧ pf_inv d'
}.

(** A cache that holds nothing. *)
Definition empty_cache : CacheAccessor :=
  mkAccessor (λ _ _, false) (λ _ _, false) (λ _ _ _, false) (λ _ _, false) false.

(** A sequence of accesses, each with its time: the candidates of each of them. *)
Section Run.
Context {D : Type} `{CalculatePrefetch D} (cache : CacheAccessor).

Fixpoint run_accesses (l : list (Z * PrefetchInfo)) (d : D) : outcome (D * list (list AddrPriority)) :=
  match l with
  | [] => Ok (d, [])
  | (t, pfi) :: l =>
      '(d, o) ← calculatePrefetch t pfi cache d; '(d, os) ← run_accesses l d; Ok (d, o :: os)
  end.

Lemma run_accesses_cons t pfi l d d1 o d2 os :
  calculatePrefetch t pfi cache d = Ok (d1, o) → run_accesses l d1 = Ok (d2, os) →
  run_accesses ((t, pfi) :: l) d = Ok (d2, o :: os).
Proof. intros E1 E2. simpl. rewrite E1. run_ok. by rewrite E2. Qed.

Lemma run_accesses_app l k d d1 os1 d2 os2 :
  run_accesses l d = Ok (d1, os1) → run_accesses k d1 = Ok (d2, os2) → run_accesses (l ++ k) d = Ok (d2, os1 ++ os2).
Proof.
  revert d os1. induction l as [|[t pfi] l IH]; intros d os1 E1 E2; [cbn in E1; by injection E1 as <- <-|].
  cbn [run_accesses] in E1. apply outcome_bind_ok in E1 as ([d0 o] & E0 & E1). apply outcome_bind_ok in E1 as ([d' os] & E' & [= -> <-]).
  cbn [app]. by apply (run_accesses_cons _ _ _ _ d0), IH.
Qed.
End Run.

(** No sequence of accesses stops a safe prefetcher. *)
Lemma run_accesses_safe {D : Type} `{SafePrefetcher D} cache l d :
  Forall (λ x, in_u 64 (pfi_address x.2)) l → pf_inv d →
  ∃ d' os, run_accesses cache l d = Ok (d', os) ∧ pf_inv d' ∧ length os = length l.
Proof.
  intros Hl. revert d. induction Hl as [|[t pfi] l Hx _ IH]; intros d Hd; [by exists d, []|].
  destruct (pf_step t pfi cache d Hx Hd) as (d1 & o & E1 & H1).
  destruct (IH d1 H1) as (d2 & os & E2 & H2 & Hlen). exists d2, (o :: os).
  split_and!; [by eapply run_accesses_cons|done|simpl; by rewrite Hlen].
Qed.

(** The state after a run that is known to succeed. *)
Lemma run_result_inv {D : Type} `{SafePrefetcher D} cache l d (Hr : is_okb (run_accesses cache l d) = true) :
  Forall (λ x, in_u 64 (pfi_address x.2)) l → pf_inv d → pf_inv (the_result (run_accesses cache l d) Hr).1.
Proof.
  intros Hl Hd. destruct (run_accesses_safe cache l d Hl Hd) as (d' & os & E & Hd' & _).
  rewrite (the_result_ok _ Hr) in E. injection E as E. by rewrite E.
Qed.

(** ** Children of any kind *)

(** A child of unknown class: its state, and what its class promises.  The call of the virtual
    method goes to the class. *)
Record AnyPrefetcher := Any {
  any_class : Type;
  any_calculate : CalculatePrefetch any_class;
  any_safe : SafePrefetcher any_class;
  any_state : any_class
}.
Arguments Any {_ _ _}.

#[export] Instance any_prefetcher : CalculatePrefetch AnyPrefetcher :=
  λ curTick pfi cache a,
    '(d, l) ← any_calculate a curTick pfi cache (any_state a);
    Ok (@Any (any_class a) (any_calculate a) (any_safe a) d, l).

#[export] Instance any_prefetcher_safe : SafePrefetcher AnyPrefetcher.
Proof.
  refine {| pf_inv := λ a, @pf_inv _ _ (any_safe a) (any_state a) |}.
  intros t pfi cache [D HD HS d] Ha Hd. cbn in Hd. destruct (pf_step t pfi cache d Ha Hd) as (d' & l & E & Hd'). unfold calculatePrefetch in E |- *.
  unfold any_prefetcher. cbn [any_calculate any_state any_class any_safe]. rewrite E. run_ok. by eexists _, l.
Defined.
