(* ===== verification/Tagged.v ===== *)
(** * The tagged (next-line) prefetcher

    [src/src/mem/cache/prefetch/tagged.{hh,cc}]: on every access it proposes the
    [degree] blocks that follow the accessed one. *)

From Stdlib Require Import ZArith Lia.
From stdpp Require Import base numbers option list strings.
From S2P Require Import Prelude IntMath PrefetchBase PrefetchQueue Children.
#[local] Open Scope Z_scope.

(** The prefetcher has no state of its own, only its parameters. *)
Record Tagged := mkTagged { tg_cfg : BaseCfg; tg_degree : Z }.

(** The loop body: [d] is an [int] and [blkSize] an [unsigned], so the product
    is reduced to 32 bits before it is added to the 64-bit address. *)
Definition tagged_candidate (c : BaseCfg) (blkAddr d : Z) : AddrPriority :=
  (u64 (blkAddr + u32 (d * blkSize c)), 0).

Definition tagged_calculatePrefetch (t : Tagged) (pfi : PrefetchInfo) : list AddrPriority :=
  let blkAddr := blockAddress (tg_cfg t) (pfi_address pfi) in
  tagged_candidate (tg_cfg t) blkAddr <$> seqZ 1 (tg_degree t).

#[export] Instance tagged_prefetcher : CalculatePrefetch Tagged :=
  λ _ pfi _ t, Ok (t, tagged_calculatePrefetch t pfi).

#[export] Instance tagged_child : SafePrefetcher Tagged.
Proof. refine {| pf_inv := λ _, True |}. intros t pfi cache d _ _. by eexists _, _. Defined.

(** ** Properties *)

Section Tagged.
Context (t : Tagged) (Hc : cfg_wf (tg_cfg t)).
Let blk := blkSize (tg_cfg t).

Lemma tagged_candidates_eq pfi :
  in_u 64 (pfi_address pfi) → tg_degree t * blk < 2 ^ 32 →
  pfi_address pfi + (tg_degree t + 1) * blk ≤ 2 ^ 64 →
  tagged_calculatePrefetch t pfi
  = (λ d, ((pfi_address pfi / blk + d) * blk, 0)) <$> seqZ 1 (tg_degree t).
Proof using Hc.
  intros Ha Hd Hov. unfold tagged_calculatePrefetch. apply list_fmap_ext.
  intros i d Hi. apply lookup_seqZ in Hi as [-> Hi]. unfold tagged_candidate.
  rewrite blockAddress_eq by done. pose proof (wf_blk _ Hc) as Eb. subst blk.
  set (blk := blkSize (tg_cfg t)) in *.
  pose proof (Z.pow_pos_nonneg 2 (lBlkSize (tg_cfg t))) as Hp.
  destruct (wf_lblk _ Hc) as [? ?]. rewrite <-Eb in Hp.
  pose proof (Z.div_mod (pfi_address pfi) blk ltac:(lia)) as Hdm.
  pose proof (Z.mod_pos_bound (pfi_address pfi) blk ltac:(lia)) as Hmb.
  unfold in_u in Ha. f_equal.
  rewrite (wrap_id 32); [rewrite wrap_id; [lia|]|].
  - unfold in_u. nia.
  - unfold in_u. nia.
Qed.
End Tagged.
