(* ===== verification/QueueTheorems.v ===== *)
(** * What the prefetch queues guarantee

    The queued prefetcher as a transition system (training on an access,
    issuing a packet, the MMU answering) and the guarantees its reachable
    states have; the throttle; the address a queued prefetch is sent to; and
    the places where the queue discipline is not the one the comments of
    [queued.cc] describe. *)

From Stdlib Require Import ZArith Lia.
From stdpp Require Import base numbers option list strings sets.
From S2P Require Import Prelude IntMath PrefetchBase PrefetchQueue PrefetchQueueFacts Tagged.
#[local] Open Scope Z_scope.

(** ** The transition system *)

Section Reach.
Context (cfg : QueuedCfg) (translateTiming : TransReq → option (option Z)).
Context `{CalculatePrefetch D} (d0 : D) (b0 : BaseState).

Record sys := mkSys { s_base : BaseState; s_q : QState; s_d : D }.

(** An access is observed, the cache asks for a packet, or the MMU answers a
    translation that is under way. *)
Inductive q_step : sys → sys → Prop :=
| step_notify curTick acc pfi b q d b' q' d' :
    pkt_wf cfg (acc_pkt acc) pfi →
    notify cfg curTick acc pfi (b, (q, d)) = Ok (b', (q', d')) →
    q_step (mkSys b q d) (mkSys b' q' d')
| step_getPacket curTick cache b q d p b' q' :
    getPacket translateTiming cfg curTick cache b q = Ok (p, b', q') →
    q_step (mkSys b q d) (mkSys b' q' d)
| step_finish curTick cache loc dp answer b q d q' :
    (loc, dp) ∈ pfqMissing q → dp_ongoing dp = true →
    finish cfg curTick cache loc answer q = Ok q' →
    q_step (mkSys b q d) (mkSys b q' d).

Inductive reachable : sys → Prop :=
| reach_init : reachable (mkSys b0 q_empty d0)
| reach_step s s' : reachable s → q_step s s' → reachable s'.

Context (Hsize : 2 ≤ queueSize cfg) (Hcfg : cfg_wf (base_cfg cfg)).

Lemma step_wf s s' : q_wf cfg (s_q s) → q_step s s' → q_wf cfg (s_q s').
Proof using Hsize Hcfg.
  intros Hw Hs. destruct Hs as [t acc pfi b q d b' q' d' Hp E|t c b q d p b' q' E
                               |t c loc dp a b q d q' Hin Ho E]; cbn [s_q] in *.
  - assert (is_ok (calculatePrefetch t pfi (acc_cache acc) d)) as Hok.
    { unfold notify in E. destruct (calculatePrefetch t pfi (acc_cache acc) d); [|done].
      by eexists. }
    pose proof (notify_wf cfg Hsize t acc pfi b q d Hcfg Hp Hw Hok) as Hn.
    rewrite E in Hn. by destruct Hn.
  - pose proof (getPacket_wf cfg Hsize translateTiming t c b q Hw) as Hn.
    by rewrite E in Hn.
  - pose proof (finish_wf cfg Hsize t c loc dp a q Hw Hin Ho) as Hn.
    rewrite E in Hn. by destruct Hn.
Qed.

Lemma reachable_wf s : reachable s → q_wf cfg (s_q s).
Proof using Hsize Hcfg.
  induction 1; [by apply q_empty_wf|by eapply step_wf].
Qed.
End Reach.

(** ** The throttle and the number of candidates taken *)

Lemma getMaxPermitted_bounds cfg b total :
  0 < total < 2 ^ 64 → 0 ≤ throttleControlPct cfg ≤ 100 →
  total * 100 < 2 ^ 64 → total * usefulPrefetches b < 2 ^ 64 →
  0 ≤ usefulPrefetches b ≤ issuedPrefetches b → issuedPrefetches b < 2 ^ 64 →
  Z.max 1 (total - total * throttleControlPct cfg / 100)
    ≤ getMaxPermittedPrefetches cfg b total ≤ total ∧
  (usefulPrefetches b = issuedPrefetches b → getMaxPermittedPrefetches cfg b total = total).
Proof.
  intros Ht Hp Hov1 Hov2 Hu Hi. unfold getMaxPermittedPrefetches.
  set (pct := throttleControlPct cfg) in *. set (u := usefulPrefetches b) in *.
  set (n := issuedPrefetches b) in *.
  assert (0 ≤ total * pct / 100 ≤ total) as Hth.
  { split; [apply Z.div_pos; nia|]. apply Z.div_le_upper_bound; nia. }
  rewrite (proj2 (Z.ltb_lt 0 total)) by lia. simpl.
  destruct (Z.ltb_spec 0 n) as [Hn|Hn]; [|lia].
  rewrite (wrap_id 64 (total * pct)) by (unfold in_u; nia).
  rewrite (wrap_id 64 (total - _)) by in_word.
  set (rest := total - total * pct / 100) in *.
  set (m := if rest =? 0 then 1 else rest).
  assert (m = Z.max 1 rest) as Em by (subst m; destruct (Z.eqb_spec rest 0); lia).
  rewrite <-Em. assert (1 ≤ m ≤ total) as Hm by lia. clearbody m rest.
  rewrite (wrap_id 64 (total - m)) by in_word.
  rewrite (wrap_id 64 ((total - m) * u)) by (unfold in_u; nia).
  assert (0 ≤ (total - m) * u / n ≤ total - m) as Hq.
  { split; [apply Z.div_pos; nia|]. apply Z.div_le_upper_bound; nia. }
  rewrite wrap_id by in_word. split; [lia|].
  intros E. rewrite E, Z.div_mul by lia. lia.
Qed.

Lemma alreadyInQueue_identified q pfi p s :
  pfIdentified (alreadyInQueue q pfi p s).2 = pfIdentified s.
Proof. unfold alreadyInQueue. repeat case_match; done. Qed.

Lemma filter_queued_identified cfg pfi p st :
  pfIdentified (qstats (filter_queued cfg pfi p st).2) = pfIdentified (qstats st).
Proof.
  unfold filter_queued. destruct (queueFilter cfg); [|done].
  pose proof (alreadyInQueue_identified (pfq st) pfi p (qstats st)) as E.
  destruct (alreadyInQueue (pfq st) pfi p (qstats st)) as [[[] q] s]; [done|]. simpl in *.
  pose proof (alreadyInQueue_identified (pfqMissing st) pfi p s) as E'.
  destruct (alreadyInQueue (pfqMissing st) pfi p s) as [[f q'] s']. simpl in *. lia.
Qed.

Lemma addToQueue_identified cfg q d s n q' s' n' :
  addToQueue cfg q d s n = Ok (q', s', n') → pfIdentified s' = pfIdentified s.
Proof.
  intros ([[] q''] & _ & E)%outcome_bind_ok; by injection E as <- <- <-.
Qed.

Lemma insert_identified cfg t pkt pfi prio cache st st' :
  insert cfg t pkt pfi prio cache st = Ok st' →
  pfIdentified (qstats st') = pfIdentified (qstats st).
Proof.
  unfold insert. rewrite <-(filter_queued_identified cfg pfi prio st).
  destruct (filter_queued cfg pfi prio st) as [[] st1]; [by intros [= <-]|]. cbn [snd].
  intros (tgt & _ & E)%outcome_bind_ok. destruct tgt as [pa|r|]; [case_match| |].
  - by injection E as <-.
  - apply outcome_bind_ok in E as ([[q s] n] & E & [= <-]). by apply addToQueue_identified in E.
  - apply outcome_bind_ok in E as ([[q s] n] & E & [= <-]). by apply addToQueue_identified in E.
  - by injection E as <-.
Qed.

(** The candidates that may be queued: any with an MMU, those in the page of the
    access without one. *)
Definition eligible (c : BaseCfg) (pfi : PrefetchInfo) (has_mmu : bool) (ap : AddrPriority) : bool :=
  has_mmu || match samePage c (blockAddress c ap.1) (pfi_address pfi) with
             | Ok same => same
             | Stop _ => false
             end.

Lemma queue_candidates_identified cfg t acc pfi has_mmu max num addrs st st' :
  0 ≤ num < max →
  queue_candidates cfg t acc pfi has_mmu max num addrs st = Ok st' →
  pfIdentified (qstats st')
  = pfIdentified (qstats st) +
    Z.min (max - num)
      (Z.of_nat (length (filter (λ ap, eligible (base_cfg cfg) pfi has_mmu ap = true) addrs))).
Proof.
  revert num st. induction addrs as [|[a p] addrs IH]; intros num st Hn E.
  { injection E as <-. simpl. lia. }
  cbn [queue_candidates] in E. apply outcome_bind_ok in E as (same & Es & E).
  assert (eligible (base_cfg cfg) pfi has_mmu (a, p) = has_mmu || same) as Ee
    by (unfold eligible; cbn [fst]; by rewrite Es).
  rewrite filter_cons.
  set (st1 := if same then st else _) in E.
  assert (pfIdentified (qstats st1) = pfIdentified (qstats st)) as E1
    by (subst st1; by destruct same).
  clearbody st1. destruct (has_mmu || same) eqn:Eh.
  - rewrite decide_True by congruence. apply outcome_bind_ok in E as (st2 & Ei & E).
    apply insert_identified in Ei. simpl in Ei. rewrite length_cons.
    destruct (Z.eqb_spec (num + 1) max) as [<-|Hne].
    + injection E as <-. lia.
    + apply IH in E; lia.
  - rewrite decide_False by (rewrite Ee; congruence). apply IH in E; lia.
Qed.

(** ** First in, first out *)

Lemma place_uniform p d q :
  dp_priority d.2 = p → Forall (λ n : node, dp_priority n.2 = p) q → place d q = q ++ [d].
Proof.
  intros Hd Hq. destruct (last q) as [l|] eqn:El.
  - apply (place_back d q l El). rewrite Forall_forall in Hq.
    rewrite Hd, (Hq l); [lia|]. by apply last_Some_elem_of.
  - apply last_None in El. by subst.
Qed.

Lemma make_room_uniform size p q :
  2 ≤ size → Z.of_nat (length q) ≤ size → Forall (λ n : node, dp_priority n.2 = p) q →
  make_room size q
  = Ok (Z.of_nat (length q) =? size, if Z.of_nat (length q) =? size then tail q else q).
Proof.
  intros Hs Hl Hq. unfold make_room. destruct (Z.eqb_spec (Z.of_nat (length q)) size) as [E|];
    [|done].
  destruct (reverse q) as [|it prevs] eqn:Er.
  { apply (f_equal length) in Er. rewrite length_reverse in Er. simpl in Er. lia. }
  assert (q = reverse (it :: prevs)) as Eq by by rewrite <-Er, reverse_involutive.
  destruct prevs as [|x prevs]; [subst q; simpl in E; lia|]. do 2 f_equal.
  rewrite Eq in *. apply evict_rev_uniform. rewrite Forall_reverse in Hq.
  apply Forall_cons in Hq as [Hit Hq]. rewrite Hit. done.
Qed.

(** ** The address of a prefetch in the page of the access *)

Lemma compute_target_virtual cfg pkt pfi vaddr paddr :
  cfg_wf (base_cfg cfg) → useVirtualAddresses (base_cfg cfg) = true →
  req_vaddr (pkt_req pkt) = Some vaddr → req_paddr (pkt_req pkt) = Some paddr →
  in_u 64 vaddr → in_u 64 paddr → in_u 64 (pfi_address pfi) →
  let P := pageBytes (base_cfg cfg) in
  paddr mod P = vaddr mod P → vaddr / P = pfi_address pfi / P →
  compute_target cfg pkt pfi = Ok (TargetPA (paddr / P * P + pfi_address pfi mod P)).
Proof.
  intros Hc Hu Hv Hpa Rv Rp Rn P Hoff Hpage. unfold compute_target.
  rewrite Hu, Hv, Hpa. cbn [get_valid mbind outcome_bind].
  rewrite (samePage_eq _ Hc) by done. run_ok. fold P. rewrite Hpage, Z.eqb_refl.
  destruct (page_pow2 _ Hc) as (p & Hp & E). fold P in E.
  pose proof (Z.pow_pos_nonneg 2 p ltac:(lia) ltac:(lia)) as H0. rewrite <-E in H0.
  pose proof (Z.div_mod paddr P ltac:(lia)) as D1.
  pose proof (Z.div_mod vaddr P ltac:(lia)) as D2.
  pose proof (Z.div_mod (pfi_address pfi) P ltac:(lia)) as D3.
  pose proof (Z.mod_pos_bound (pfi_address pfi) P H0) as B3.
  set (n := pfi_address pfi) in *. set (pb := paddr / P) in *.
  assert (2 ^ 64 = 2 ^ (64 - p) * P) as E64.
  { rewrite E, <-Z.pow_add_r by lia. f_equal. lia. }
  assert (0 ≤ pb < 2 ^ (64 - p)) as Hb.
  { subst pb. unfold in_u in Rp. split; [apply Z.div_pos; lia|].
    apply Z.div_lt_upper_bound; lia. }
  do 2 f_equal. rewrite Hpage, Hoff in *.
  replace (if vaddr <=? n then _ else _) with (pb * P + n mod P)
    by (destruct (Z.leb_spec vaddr n); lia).
  apply wrap_id. unfold in_u. rewrite E64. nia.
Qed.

(** ** Concrete instances *)

(** 64-byte blocks, 4 KiB pages. *)
Definition ex_base (virt : bool) : BaseCfg :=
  mkBaseCfg 64 6 false true true true true 1 4096 false false virt.

Definition ex_cfg (size : Z) (virt : bool) : QueuedCfg :=
  mkQueuedCfg (ex_base virt) size size 1 true true true true 0 1.

Definition ex_pkt (addr : Z) : Packet :=
  mkPacket (mkRequest (Some addr) (Some addr) 8 0 0 (Some 1024) (Some 0) false false false)
    addr false true false false false false false None.

Definition ex_cache : CacheAccessor :=
  mkAccessor (λ _ _, false) (λ _ _, false) (λ _ _ _, false) (λ _ _, false) false.

Definition ex_acc (addr : Z) : CacheAccessProbeArg := mkProbeArg (ex_pkt addr) ex_cache.

Definition ex_pfi (addr : Z) : PrefetchInfo :=
  mkPfi addr 1024 0 true false 8 false addr true None.

Definition ex_dp (addr prio : Z) : DeferredPacket := dp_new (ex_pfi addr) 0 prio.

Definition ex_base_state : BaseState := mkBase base_stats0 0 0 false.

Lemma ex_base_wf v : cfg_wf (ex_base v).
Proof. split; simpl; [lia|done|]. exists 12. split; [lia|done]. Qed.

Lemma ex_pkt_wf size v addr a : pkt_wf (ex_cfg size v) (ex_pkt addr) (ex_pfi a).
Proof. split; simpl; try by eexists. Qed.

(** The state after one access with the tagged prefetcher. *)
Definition ex_after : outcome (BaseState * (QState * Tagged)) :=
  notify (ex_cfg 4 false) 0 (ex_acc 8192) (ex_pfi 8192)
    (ex_base_state, (q_empty, mkTagged (ex_base false) 2)).

Definition ex_sys : @sys Tagged :=
  match ex_after with
  | Ok (b, (q, d)) => mkSys b q d
  | Stop _ => mkSys ex_base_state q_empty (mkTagged (ex_base false) 2)
  end.

Lemma ex_sys_reachable :
  reachable (ex_cfg 4 false) (λ _, None) (mkTagged (ex_base false) 2) ex_base_state ex_sys.
Proof.
  eapply reach_step; [apply reach_init|].
  apply (step_notify _ _ 0 (ex_acc 8192) (ex_pfi 8192)); [apply ex_pkt_wf|].
  by vm_compute.
Qed.

(** ** Theorems *)

(** C32: Whatever sequence of accesses, packet requests and MMU answers a
    queued prefetcher sees, for any algorithm behind [calculatePrefetch] and
    any MMU, both queues hold at most [queue_size] packets; every packet of the
    ready queue carries a request that can be sent and every packet of the
    missing-translation queue a translation request. *)
Theorem queues_bounded (D : Type) (H : CalculatePrefetch D) (d0 : D) (b0 : BaseState)
    (cfg : QueuedCfg) (translateTiming : TransReq → option (option Z)) (s : sys) :
  2 ≤ queueSize cfg → cfg_wf (base_cfg cfg) → reachable cfg translateTiming d0 b0 s →
  Z.of_nat (length (pfq (s_q s))) ≤ queueSize cfg ∧
  Z.of_nat (length (pfqMissing (s_q s))) ≤ queueSize cfg ∧
  Forall (λ n : node, is_Some (dp_pkt n.2)) (pfq (s_q s)) ∧
  Forall (λ n : node, is_Some (dp_trans n.2)) (pfqMissing (s_q s)).
Proof.
  intros Hs Hc [H1 H2 H3 H4 _ _ _]%(reachable_wf cfg translateTiming d0 b0 Hs Hc). done.
Qed.

Lemma queues_bounded_witness :
  Z.of_nat (length (pfq (s_q ex_sys))) ≤ 4 ∧ length (pfq (s_q ex_sys)) = 2%nat.
Proof.
  split; [|by vm_compute].
  exact (proj1 (queues_bounded Tagged _ (mkTagged (ex_base false) 2) ex_base_state
    (ex_cfg 4 false) (λ _, None) ex_sys ltac:(done) (ex_base_wf false) ex_sys_reachable)).
Defined.

(** With [queue_filter] set, no two prefetches waiting in the two queues
    ever have the same address and security state, so no line is requested
    twice from the queues. *)
Theorem queues_no_duplicates (D : Type) (H : CalculatePrefetch D) (d0 : D) (b0 : BaseState)
    (cfg : QueuedCfg) (translateTiming : TransReq → option (option Z)) (s : sys) :
  2 ≤ queueSize cfg → cfg_wf (base_cfg cfg) → queueFilter cfg = true →
  reachable cfg translateTiming d0 b0 s →
  NoDup (keys (pfq (s_q s)) ++ keys (pfqMissing (s_q s))).
Proof.
  intros Hs Hc Hf Hr. by apply (wf_keys _ _ (reachable_wf cfg translateTiming d0 b0 Hs Hc s Hr)).
Qed.

Lemma queues_no_duplicates_witness :
  NoDup (keys (pfq (s_q ex_sys)) ++ keys (pfqMissing (s_q ex_sys))) ∧
  keys (pfq (s_q ex_sys)) = [(8256, false); (8320, false)].
Proof.
  split; [|by vm_compute].
  exact (queues_no_duplicates Tagged _ (mkTagged (ex_base false) 2) ex_base_state
    (ex_cfg 4 false) (λ _, None) ex_sys ltac:(done) (ex_base_wf false) eq_refl ex_sys_reachable).
Defined.

(** In every reachable state, issuing a packet does not stop the
    simulation, an access of a well-formed packet does not (provided the
    algorithm itself does not), and neither does the MMU's answer to a
    translation that was started: the panics and assertions of [queued.cc] are
    not reachable with a queue of two or more entries. *)
Theorem queue_operations_total (D : Type) (H : CalculatePrefetch D) (d0 : D) (b0 : BaseState)
    (cfg : QueuedCfg) (translateTiming : TransReq → option (option Z)) (s : sys) :
  2 ≤ queueSize cfg → cfg_wf (base_cfg cfg) → reachable cfg translateTiming d0 b0 s →
  (∀ t cache, is_ok (getPacket translateTiming cfg t cache (s_base s) (s_q s))) ∧
  (∀ t acc pfi, pkt_wf cfg (acc_pkt acc) pfi →
     is_ok (calculatePrefetch t pfi (acc_cache acc) (s_d s)) →
     is_ok (notify cfg t acc pfi (s_base s, (s_q s, s_d s)))) ∧
  (∀ t cache loc dp answer, (loc, dp) ∈ pfqMissing (s_q s) → dp_ongoing dp = true →
     is_ok (finish cfg t cache loc answer (s_q s))).
Proof.
  intros Hs Hc Hr. pose proof (reachable_wf cfg translateTiming d0 b0 Hs Hc s Hr) as Hw.
  split_and!.
  - intros t cache.
    destruct (proj1 (succeeds_ok _ _)
      (getPacket_wf cfg Hs translateTiming t cache (s_base s) (s_q s) Hw)) as (x & E & _).
    by exists x.
  - intros t acc pfi Hp Hd.
    destruct (proj1 (succeeds_ok _ _)
      (notify_wf cfg Hs t acc pfi (s_base s) (s_q s) (s_d s) Hc Hp Hw Hd)) as (x & E & _).
    by exists x.
  - intros t cache loc dp a Hin Ho.
    destruct (proj1 (succeeds_ok _ _) (finish_wf cfg Hs t cache loc dp a (s_q s) Hw Hin Ho))
      as (x & E & _). by exists x.
Qed.

Lemma queue_operations_total_witness :
  is_ok (getPacket (λ _, None) (ex_cfg 4 false) 5 ex_cache (s_base ex_sys) (s_q ex_sys)).
Proof.
  exact (proj1 (queue_operations_total Tagged _ (mkTagged (ex_base false) 2) ex_base_state
    (ex_cfg 4 false) (λ _, None) ex_sys ltac:(done) (ex_base_wf false) ex_sys_reachable)
    5 ex_cache).
Defined.

(** C33: When all priorities are equal (as for the tagged and stride
    prefetchers), the queue is a bounded first-in first-out queue: a new packet
    goes to the back, and when the queue is full the oldest packet, at the
    front, makes room for it and is counted in [pfRemovedFull]. *)
Theorem addToQueue_fifo (cfg : QueuedCfg) (q : queue) (d : DeferredPacket) (s : QueuedStats)
    (n : nat) :
  2 ≤ queueSize cfg → Z.of_nat (length q) ≤ queueSize cfg →
  Forall (λ x : node, dp_priority x.2 = dp_priority d) q →
  let full := Z.of_nat (length q) =? queueSize cfg in
  addToQueue cfg q d s n
  = Ok ((if full then tail q else q) ++ [(n, d)], if full then stat_removed_full s else s, S n).
Proof.
  intros Hs Hl Hq full. unfold addToQueue. rewrite (make_room_uniform _ _ _ Hs Hl Hq).
  run_ok. fold full. rewrite (place_uniform (dp_priority d)); [done|done|].
  destruct full; [|done]. destruct q; [done|]. by apply Forall_cons in Hq as [_ ?].
Qed.

Lemma addToQueue_fifo_witness :
  addToQueue (ex_cfg 2 false) [(0%nat, ex_dp 64 0); (1%nat, ex_dp 128 0)] (ex_dp 192 0)
    queued_stats0 2 =
  Ok ([(1%nat, ex_dp 128 0); (2%nat, ex_dp 192 0)], stat_removed_full queued_stats0, 3%nat).
Proof.
  exact (addToQueue_fifo (ex_cfg 2 false) [(0%nat, ex_dp 64 0); (1%nat, ex_dp 128 0)]
    (ex_dp 192 0) queued_stats0 2 ltac:(done) ltac:(done) ltac:(by repeat constructor)).
Defined.

(** A demand access removes from the ready queue exactly the prefetches to
    its own block with the same security state, keeps the others in order,
    counts the removed ones, and leaves the missing-translation queue alone. *)
Theorem squash_removes_block (cfg : QueuedCfg) (pfi : PrefetchInfo) (st : QState) :
  queueSquash cfg = true →
  let blk a := blockAddress (base_cfg cfg) a in
  let same (n : node) :=
    blk (pfi_address (dp_info n.2)) = blk (pfi_address pfi) ∧
    pfi_secure (dp_info n.2) = pfi_secure pfi in
  let st' := squash cfg pfi st in
  pfq st' `sublist_of` pfq st ∧
  (∀ n, n ∈ pfq st' ↔ n ∈ pfq st ∧ ¬ same n) ∧
  pfRemovedDemand (qstats st') - pfRemovedDemand (qstats st)
    = Z.of_nat (length (pfq st)) - Z.of_nat (length (pfq st')) ∧
  pfqMissing st' = pfqMissing st.
Proof.
  intros Hq blk same st'. unfold st', squash. rewrite Hq. cbn [pfq pfqMissing qstats].
  split_and!; [apply sublist_filter| |simpl; lia|done].
  intros n. rewrite list_elem_of_filter. unfold same, blk.
  rewrite andb_false_iff, Z.eqb_neq, eqb_false_iff, not_and_l. tauto.
Qed.

Lemma squash_removes_block_witness :
  let st := mkQ [(0%nat, ex_dp 64 0); (1%nat, ex_dp 128 0)] [] queued_stats0 2 in
  pfq (squash (ex_cfg 4 false) (ex_pfi 130) st) `sublist_of` pfq st ∧
  pfq (squash (ex_cfg 4 false) (ex_pfi 130) st) = [(0%nat, ex_dp 64 0)].
Proof.
  split; [|by vm_compute].
  exact (proj1 (squash_removes_block (ex_cfg 4 false) (ex_pfi 130)
    (mkQ [(0%nat, ex_dp 64 0); (1%nat, ex_dp 128 0)] [] queued_stats0 2) eq_refl)).
Defined.

(** The throttle never blocks a prefetcher and never lets it exceed what it
    asked for: of [total] candidates at least the unthrottled share, and at
    least one, is permitted, at most all of them, and all of them when every
    issued prefetch was useful. *)
Theorem throttle_bounds (cfg : QueuedCfg) (b : BaseState) (total : Z) :
  0 < total < 2 ^ 64 → 0 ≤ throttleControlPct cfg ≤ 100 →
  total * 100 < 2 ^ 64 → total * usefulPrefetches b < 2 ^ 64 →
  0 ≤ usefulPrefetches b ≤ issuedPrefetches b → issuedPrefetches b < 2 ^ 64 →
  Z.max 1 (total - total * throttleControlPct cfg / 100)
    ≤ getMaxPermittedPrefetches cfg b total ≤ total ∧
  (usefulPrefetches b = issuedPrefetches b → getMaxPermittedPrefetches cfg b total = total).
Proof. apply getMaxPermitted_bounds. Qed.

Lemma throttle_bounds_witness :
  let b := mkBase base_stats0 4 2 false in
  let cfg := mkQueuedCfg (ex_base false) 4 4 1 true true true true 60 1 in
  4 ≤ getMaxPermittedPrefetches cfg b 10 ≤ 10 ∧ getMaxPermittedPrefetches cfg b 10 = 7.
Proof.
  split; [|by vm_compute].
  exact (proj1 (throttle_bounds
    (mkQueuedCfg (ex_base false) 4 4 1 true true true true 60 1)
    (mkBase base_stats0 4 2 false) 10 ltac:(lia) ltac:(simpl; lia) ltac:(lia)
    ltac:(simpl; lia) ltac:(simpl; lia) ltac:(simpl; lia))).
Defined.

(** Training on an access turns into requests exactly the first
    [max_pfs] eligible candidates (those in the page of the access, or all of
    them with an MMU): [pfIdentified] grows by the smaller of the limit and
    their number. *)
Theorem candidates_taken (cfg : QueuedCfg) (t : Z) (acc : CacheAccessProbeArg)
    (pfi : PrefetchInfo) (has_mmu : bool) (max : Z) (addrs : list AddrPriority)
    (st st' : QState) :
  0 < max → queue_candidates cfg t acc pfi has_mmu max 0 addrs st = Ok st' →
  pfIdentified (qstats st') - pfIdentified (qstats st)
  = Z.min max
      (Z.of_nat (length (filter (λ ap, eligible (base_cfg cfg) pfi has_mmu ap = true) addrs))).
Proof. intros Hm E. apply queue_candidates_identified in E; lia. Qed.

Lemma candidates_taken_witness :
  pfIdentified (qstats (s_q ex_sys)) - pfIdentified (qstats q_empty) = 2.
Proof.
  exact (candidates_taken (ex_cfg 4 false) 0 (ex_acc 8192) (ex_pfi 8192) false 2
    [(8256, 0); (8320, 0)] q_empty (s_q ex_sys) ltac:(done) ltac:(by vm_compute)).
Defined.

(** A prefetcher that works on virtual addresses sends a prefetch in the
    page of the access to the physical page of the access, at the page offset
    of the virtual address, without consulting the MMU; the only fact used of
    the translation is that it keeps page offsets. *)
Theorem virtual_prefetch_same_page (cfg : QueuedCfg) (pkt : Packet) (pfi : PrefetchInfo)
    (vaddr paddr : Z) :
  cfg_wf (base_cfg cfg) → useVirtualAddresses (base_cfg cfg) = true →
  req_vaddr (pkt_req pkt) = Some vaddr → req_paddr (pkt_req pkt) = Some paddr →
  in_u 64 vaddr → in_u 64 paddr → in_u 64 (pfi_address pfi) →
  let P := pageBytes (base_cfg cfg) in
  paddr mod P = vaddr mod P → vaddr / P = pfi_address pfi / P →
  compute_target cfg pkt pfi = Ok (TargetPA (paddr / P * P + pfi_address pfi mod P)).
Proof. apply compute_target_virtual. Qed.

Lemma virtual_prefetch_same_page_witness :
  compute_target (ex_cfg 4 true)
    (mkPacket (mkRequest (Some 4200) (Some 8296) 8 0 0 None None false false false)
       4200 false true false false false false false None) (ex_pfi 8256)
  = Ok (TargetPA 4160).
Proof.
  exact (virtual_prefetch_same_page (ex_cfg 4 true)
    (mkPacket (mkRequest (Some 4200) (Some 8296) 8 0 0 None None false false false)
       4200 false true false false false false false None) (ex_pfi 8256) 8296 4200
    (ex_base_wf true) eq_refl eq_refl eq_refl ltac:(in_word) ltac:(in_word)
    ltac:(unfold in_u; simpl; lia) eq_refl eq_refl).
Defined.

(** ** Where the discipline departs from the comments *)

Lemma insert_rev_stops d it prevs suf :
  prevs ≠ [] → dp_priority d.2 ≤ dp_priority it.2 →
  Forall (λ n : node, dp_priority n.2 < dp_priority d.2) suf → suf ≠ [] →
  ∃ s suf', suf = s :: suf' ∧
    insert_rev d s (suf' ++ it :: prevs) = s :: suf' ++ it :: d :: prevs.
Proof.
  intros Hp Hit Hf Hs. destruct suf as [|s suf]; [done|]. exists s, suf. split; [done|].
  clear Hs. revert s Hf. induction suf as [|x suf IH]; intros s Hf;
    apply Forall_cons in Hf as [H1 Hf]; simpl; unfold dp_gt.
  - rewrite (proj2 (Z.ltb_lt _ _) H1). f_equal. destruct prevs as [|p prevs]; [done|]. simpl.
    unfold dp_gt. by rewrite (proj2 (Z.ltb_ge _ _) Hit).
  - rewrite (proj2 (Z.ltb_lt _ _) H1). f_equal. by apply IH.
Qed.

(** A packet that must go into the middle of a priority-sorted queue is
    placed in front of the last packet that outranks it, not behind it: the
    queue that results is not sorted, and the new packet is issued before one
    of higher (or equal) priority. *)
Theorem addToQueue_overtakes (cfg : QueuedCfg) (pre suf : queue) (it : node)
    (d : DeferredPacket) (s : QueuedStats) (n : nat) :
  pre ≠ [] → suf ≠ [] → dp_priority d ≤ dp_priority it.2 →
  Forall (λ x : node, dp_priority x.2 < dp_priority d) suf →
  Z.of_nat (length (pre ++ it :: suf)) < queueSize cfg →
  addToQueue cfg (pre ++ it :: suf) d s n = Ok (pre ++ (n, d) :: it :: suf, s, S n).
Proof.
  intros Hp Hs Hit Hf Hl. unfold addToQueue, make_room.
  destruct (Z.eqb_spec (Z.of_nat (length (pre ++ it :: suf))) (queueSize cfg)); [lia|].
  run_ok. do 3 f_equal. unfold place.
  destruct (insert_rev_stops (n, d) it (reverse pre) (reverse suf)) as (x & r & Er & Ei).
  - intros E. apply (f_equal reverse) in E. by rewrite reverse_involutive in E.
  - done.
  - by apply Forall_reverse.
  - intros E. apply (f_equal reverse) in E. by rewrite reverse_involutive in E.
  - assert (reverse (pre ++ it :: suf) = x :: r ++ it :: reverse pre) as ->.
    { rewrite reverse_app, reverse_cons, <-app_assoc, Er. done. }
    assert (dp_priority x.2 < dp_priority d) as Hx.
    { rewrite <-Forall_reverse, Er in Hf. by apply Forall_cons in Hf as [? _]. }
    unfold dp_le, dp_gt. cbn [snd]. rewrite (proj2 (Z.ltb_lt _ _) Hx). simpl negb. cbv iota.
    rewrite Ei. change (x :: r ++ it :: (n, d) :: reverse pre)
      with ((x :: r) ++ it :: (n, d) :: reverse pre).
    rewrite <-Er, reverse_app, !reverse_cons, !reverse_involutive, <-!app_assoc. done.
Qed.

Lemma addToQueue_overtakes_witness :
  addToQueue (ex_cfg 8 false) ([(0%nat, ex_dp 64 5)] ++ (1%nat, ex_dp 128 3) :: [(2%nat, ex_dp 192 1)])
    (ex_dp 256 2) queued_stats0 3
  = Ok ([(0%nat, ex_dp 64 5); (3%nat, ex_dp 256 2); (1%nat, ex_dp 128 3); (2%nat, ex_dp 192 1)],
        queued_stats0, 4%nat).
Proof.
  exact (addToQueue_overtakes (ex_cfg 8 false) [(0%nat, ex_dp 64 5)] [(2%nat, ex_dp 192 1)]
    (1%nat, ex_dp 128 3) (ex_dp 256 2) queued_stats0 3 ltac:(done) ltac:(done) ltac:(done)
    ltac:(by repeat constructor) ltac:(done)).
Defined.

(** A repeated request for a queued block raises the priority of the packet
    behind it, which then overtakes it; repeated for the last packet of the
    queue it changes nothing and is not counted in [pfBufferHit]. *)
Example alreadyInQueue_raises_successor :
  alreadyInQueue [(0%nat, ex_dp 64 0); (1%nat, ex_dp 128 0)] (ex_pfi 64) 5 queued_stats0
  = (true, [(0%nat, ex_dp 128 5); (1%nat, ex_dp 64 0)], stat_buffer_hit queued_stats0) ∧
  alreadyInQueue [(0%nat, ex_dp 64 0); (1%nat, ex_dp 128 0)] (ex_pfi 128) 5 queued_stats0
  = (true, [(0%nat, ex_dp 64 0); (1%nat, ex_dp 128 0)], queued_stats0).
Proof. split; by vm_compute. Qed.

(** A queue of one entry cannot be refilled: the second insertion panics. *)
Example queue_of_one_panics :
  add_ready (ex_cfg 1 false) (ex_dp 128 0) (mkQ [(0%nat, ex_dp 64 0)] [] queued_stats0 1)
  = Stop (Panic "Prefetch queue is full with 1 element!").
Proof. by vm_compute. Qed.

(** A page-crossing prefetch for an access without a program counter stops the
    simulation in [createPrefetchRequest]. *)
Example cross_page_without_pc_asserts :
  compute_target (ex_cfg 4 true) (ex_pkt 8128)
    (mkPfi 8192 0 0 false false 8 false 8128 true None)
  = Stop (AssertFail "hasPC()").
Proof. by vm_compute. Qed.
