(* ===== verification/QTable.v ===== *)
(** * The Q-table and its file

    [qTable], [childrenSignature], [saveQTable] and [loadQTable] of
    [src/src/mem/cache/prefetch/ml_prefetch_controller.cc].  A file is the list of
    its bytes (integers in [0, 255]); [std::map] is a finite map whose
    entries are visited by increasing key; [std::istream::read] keeps what is
    left of the file and the [good()] bit, which it clears when fewer bytes are
    left than asked for.  Integers are stored little-endian and a [double] by
    its bit pattern, as on the machines the simulator supports. *)

From Stdlib Require Import ZArith Lia.
From stdpp Require Import base numbers option list strings gmap sorting.
From S2P Require Import Prelude Double.
#[local] Open Scope Z_scope.

Abbreviation bytes := (list Z).
Abbreviation qtable := (gmap Z (list double)).

(** ** Encoding *)

Fixpoint le_bytes (n : nat) (v : Z) : bytes :=
  match n with
  | O => []
  | S n => v mod 256 :: le_bytes n (v / 256)
  end.

Fixpoint of_le (l : bytes) : Z :=
  match l with
  | [] => 0
  | b :: l => b + 256 * of_le l
  end.

Definition string_bytes (s : string) : bytes :=
  (λ a, Z.of_N (Ascii.N_of_ascii a)) <$> String.list_ascii_of_string s.

(** The names of the children, each followed by a semicolon. *)
Definition childrenSignature (names : list string) : string :=
  foldr (λ n acc, (n ++ ";" ++ acc)%string) EmptyString names.

Definition row_bytes (row : list double) : bytes :=
  mjoin ((λ x, le_bytes 8 (bits_of_double x)) <$> row).

(** One iteration of the dump: the state, the row length and the row. *)
Definition entry_bytes (entry : Z * list double) : bytes :=
  let '(state, row) := entry in
  let rowLen := u32 (Z.of_nat (length row)) in
  le_bytes 8 state ++ le_bytes 4 rowLen ++ row_bytes (take (Z.to_nat rowLen) row).

(** The entries in the order [std::map] visits them. *)
Definition key_le (a b : Z * list double) : Prop := a.1 ≤ b.1.
#[export] Instance key_le_dec a b : Decision (key_le a b).
Proof. unfold key_le. apply _. Defined.

Definition q_entries (q : qtable) : list (Z * list double) :=
  merge_sort key_le (map_to_list q).

Definition qtable_bytes (sig : bytes) (q : qtable) : bytes :=
  let sigLen := u32 (Z.of_nat (length sig)) in
  le_bytes 4 sigLen ++ take (Z.to_nat sigLen) sig ++
  le_bytes 8 (u64 (Z.of_nat (size q))) ++ mjoin (entry_bytes <$> q_entries q).

(** ** Files *)

(** The files by name, and whether [std::ofstream] can open one for writing. *)
Record FileSys := mkFS { fs_files : gmap string bytes; fs_writable : string → bool }.

Definition saveQTable (qfileName : string) (names : list string) (q : qtable) (fs : FileSys)
    : FileSys :=
  if fs_writable fs qfileName then
    mkFS (<[qfileName := qtable_bytes (string_bytes (childrenSignature names)) q]> (fs_files fs))
      (fs_writable fs)
  else fs.

(** ** Reading *)

Record istream := mkIn { in_rest : bytes; in_good : bool }.

Definition read (n : Z) (s : istream) : bytes * istream :=
  if in_good s then
    if n <=? Z.of_nat (length (in_rest s))
    then (take (Z.to_nat n) (in_rest s), mkIn (drop (Z.to_nat n) (in_rest s)) true)
    else (in_rest s, mkIn [] false)
  else ([], s).

Fixpoint doubles_of_bytes (bs : bytes) : list double :=
  match bs with
  | b0 :: b1 :: b2 :: b3 :: b4 :: b5 :: b6 :: b7 :: rest =>
      double_of_bits (of_le [b0; b1; b2; b3; b4; b5; b6; b7]) :: doubles_of_bytes rest
  | _ => []
  end.

(** Which message [loadQTable] leaves with. *)
Inductive load_result :=
| LoadNoFile
| LoadBadSigLen
| LoadBadSig
| LoadMismatch
| LoadBadCount
| LoadBadHeader
| LoadBadRow
| Loaded.

(** The loop over the states: [i] of [numStates] are read, [q] is the table so
    far.  [None] only when the fuel is used up; each round consumes at least
    twelve bytes, so the number of bytes is enough of it. *)
Fixpoint load_rows (fuel : nat) (i numStates : Z) (s : istream) (q : qtable)
    : option (load_result * qtable) :=
  if i <? numStates then
    match fuel with
    | O => None
    | S fuel =>
        let '(bstate, s) := read 8 s in
        let '(blen, s) := read 4 s in
        if negb (in_good s) then Some (LoadBadHeader, ∅) else
        let state := of_le bstate in
        let rowLen := of_le blen in
        let '(brow, s) := read (rowLen * 8) s in
        if negb (in_good s) then Some (LoadBadRow, ∅) else
        load_rows fuel (i + 1) numStates s (<[state := doubles_of_bytes brow]> q)
    end
  else Some (Loaded, q).

(** The outcome and the table afterwards; [q] is the table before. *)
Definition loadQTable (file : option bytes) (names : list string) (q : qtable)
    : option (load_result * qtable) :=
  match file with
  | None => Some (LoadNoFile, q)
  | Some bs =>
      let '(bsl, s) := read 4 (mkIn bs true) in
      if negb (in_good s) then Some (LoadBadSigLen, q) else
      let sigLen := of_le bsl in
      let '(savedSig, s) := read sigLen s in
      if negb (in_good s) then Some (LoadBadSig, q) else
      if bool_decide (savedSig ≠ string_bytes (childrenSignature names))
      then Some (LoadMismatch, q) else
      let '(bn, s) := read 8 s in
      if negb (in_good s) then Some (LoadBadCount, q) else
      load_rows (S (length bs)) 0 (of_le bn) s ∅
  end.

(** ** Encoding and decoding *)

Lemma length_le_bytes n v : length (le_bytes n v) = n.
Proof. revert v. induction n as [|n IH]; intros v; simpl; [done|by rewrite IH]. Qed.

Lemma of_le_le_bytes n v : of_le (le_bytes n v) = v mod 2 ^ (8 * Z.of_nat n).
Proof.
  revert v. induction n as [|n IH]; intros v; cbn [le_bytes of_le].
  - change (2 ^ (8 * Z.of_nat 0)) with 1. by rewrite Z.mod_1_r.
  - rewrite IH. replace (8 * Z.of_nat (S n)) with (8 + 8 * Z.of_nat n) by lia.
    rewrite Z.pow_add_r by lia. change (2 ^ 8) with 256.
    pose proof (Z.pow_pos_nonneg 2 (8 * Z.of_nat n) ltac:(lia) ltac:(lia)).
    rewrite Z.rem_mul_r by lia. lia.
Qed.

Lemma of_le_u64 v : in_u 64 v → of_le (le_bytes 8 v) = v.
Proof. intros Hv. rewrite of_le_le_bytes. by apply Z.mod_small. Qed.

Lemma of_le_u32 v : in_u 32 v → of_le (le_bytes 4 v) = v.
Proof. intros Hv. rewrite of_le_le_bytes. by apply Z.mod_small. Qed.

Lemma length_row_bytes row : length (row_bytes row) = (8 * length row)%nat.
Proof.
  unfold row_bytes. induction row as [|x row IH]; [done|].
  rewrite fmap_cons, join_cons, length_app, length_le_bytes, IH. simpl. lia.
Qed.

Lemma doubles_of_bytes_cons b rest :
  length b = 8%nat →
  doubles_of_bytes (b ++ rest) = double_of_bits (of_le b) :: doubles_of_bytes rest.
Proof. intros Hb. do 9 (destruct b as [|? b]; try done). Qed.

(** A row survives being written and read, bit for bit. *)
Lemma doubles_of_row_bytes row :
  Forall (λ x, dvalid x = true) row → doubles_of_bytes (row_bytes row) = row.
Proof.
  induction 1 as [|x row Hx Hrow IH]; [done|]. unfold row_bytes.
  rewrite fmap_cons, join_cons, doubles_of_bytes_cons by apply length_le_bytes.
  fold (row_bytes row). rewrite IH. f_equal.
  rewrite of_le_u64 by by apply bits_of_double_range. by apply double_of_bits_of_double.
Qed.

(** ** Reads *)

Lemma read_app n a b :
  Z.of_nat (length a) = n → read n (mkIn (a ++ b) true) = (a, mkIn b true).
Proof.
  intros <-. unfold read. cbn [in_good in_rest].
  rewrite (proj2 (Z.leb_le _ _)) by (rewrite length_app; lia).
  by rewrite Nat2Z.id, take_app_length, drop_app_length.
Qed.

Lemma read_short n bs :
  Z.of_nat (length bs) < n → read n (mkIn bs true) = (bs, mkIn [] false).
Proof. intros H. unfold read. cbn [in_good in_rest]. by rewrite (proj2 (Z.leb_gt _ _)). Qed.

Lemma read_bad n bs : read n (mkIn bs false) = ([], mkIn bs false).
Proof. done. Qed.

Lemma read_rest n s : 0 ≤ n → in_good (read n s).2 = true →
  Z.of_nat (length (in_rest (read n s).2)) = Z.of_nat (length (in_rest s)) - n ∧
  in_good s = true.
Proof.
  intros Hn. unfold read. destruct (in_good s) eqn:E; [|by simpl; rewrite E].
  destruct (Z.leb_spec n (Z.of_nat (length (in_rest s)))); [|done].
  cbn [snd in_rest in_good]. rewrite length_drop. lia.
Qed.

(** ** Saved entries *)

(** What a table must satisfy for its file to hold all of it. *)
Definition entry_ok (e : Z * list double) : Prop :=
  in_u 64 e.1 ∧ Z.of_nat (length e.2) < 2 ^ 32 ∧ Forall (λ x, dvalid x = true) e.2.

Definition q_insert (q : qtable) (e : Z * list double) : qtable := <[e.1 := e.2]> q.

Lemma entry_bytes_eq e :
  entry_ok e →
  entry_bytes e
  = le_bytes 8 e.1 ++ le_bytes 4 (Z.of_nat (length e.2)) ++ row_bytes e.2.
Proof.
  destruct e as [st row]. intros (_ & Hl & _). simpl in *. unfold entry_bytes.
  rewrite wrap_id by in_word. by rewrite Nat2Z.id, firstn_all.
Qed.

(** One round of the loop on a saved entry. *)
Lemma load_rows_entry fuel i n e rest q :
  entry_ok e → i < n →
  load_rows (S fuel) i n (mkIn (entry_bytes e ++ rest) true) q
  = load_rows fuel (i + 1) n (mkIn rest true) (q_insert q e).
Proof.
  intros He Hi. rewrite (entry_bytes_eq e He), <-!app_assoc. destruct He as (H1 & H2 & H3).
  cbn [load_rows]. rewrite (proj2 (Z.ltb_lt _ _) Hi).
  rewrite (read_app 8) by by rewrite length_le_bytes.
  rewrite (read_app 4) by by rewrite length_le_bytes.
  cbn [in_good negb]. rewrite of_le_u64, of_le_u32 by (unfold in_u; lia || done).
  rewrite read_app by (rewrite length_row_bytes; lia).
  cbn [in_good negb]. by rewrite doubles_of_row_bytes.
Qed.

Lemma load_rows_entries fuel i n es q :
  Forall entry_ok es → n = i + Z.of_nat (length es) → (length es ≤ fuel)%nat →
  load_rows fuel i n (mkIn (mjoin (entry_bytes <$> es)) true) q
  = Some (Loaded, foldl q_insert q es).
Proof.
  revert fuel i q. induction es as [|e es IH]; intros fuel i q Hes -> Hf.
  - destruct fuel; simpl; by rewrite (proj2 (Z.ltb_ge _ _)) by lia.
  - apply Forall_cons in Hes as [He Hes]. destruct fuel as [|fuel]; [simpl in Hf; lia|].
    rewrite fmap_cons, join_cons, load_rows_entry by (done || (simpl; lia)).
    apply IH; [done|simpl; lia|simpl in Hf; lia].
Qed.

Lemma length_entry_bytes e : entry_ok e → (12 ≤ length (entry_bytes e))%nat.
Proof. intros He. rewrite entry_bytes_eq, !length_app, !length_le_bytes by done. lia. Qed.

(** A file cut inside the entries is rejected. *)
Lemma load_rows_cut fuel i n es q bs :
  Forall entry_ok es → n = i + Z.of_nat (length es) → (length bs < fuel)%nat →
  bs `prefix_of` mjoin (entry_bytes <$> es) →
  (length bs < length (mjoin (entry_bytes <$> es)))%nat →
  ∃ r, load_rows fuel i n (mkIn bs true) q = Some (r, ∅) ∧ r ≠ Loaded.
Proof.
  revert fuel i q bs. induction es as [|e es IH]; intros fuel i q bs Hes -> Hf [tl Hp] Hl.
  { simpl in Hl. lia. }
  apply Forall_cons in Hes as [He Hes]. destruct fuel as [|fuel]; [lia|].
  rewrite fmap_cons, join_cons in Hp, Hl. rewrite (entry_bytes_eq e He) in Hp.
  cbn [load_rows]. rewrite (proj2 (Z.ltb_lt _ _)) by (simpl; lia).
  pose proof He as (He1 & He2 & He3).
  destruct (decide (length bs < 12)%nat) as [H12|H12].
  { exists LoadBadHeader. split; [|done]. destruct (decide (length bs < 8)%nat).
    - by rewrite (read_short 8) by lia.
    - rewrite <-(take_drop 8 bs), (read_app 8) by (rewrite length_take; lia).
      by rewrite (read_short 4) by (rewrite length_drop; lia). }
  destruct (decide (length bs < length (entry_bytes e))%nat) as [He4|He4].
  - rewrite <-!app_assoc, app_assoc in Hp.
    apply app_eq_long in Hp as (br & -> & Hp); [|rewrite length_app, !length_le_bytes; lia].
    rewrite <-app_assoc in He4 |- *.
    rewrite (entry_bytes_eq e He), !length_app, !length_le_bytes, length_row_bytes in He4.
    rewrite (read_app 8) by by rewrite length_le_bytes.
    rewrite (read_app 4) by by rewrite length_le_bytes.
    cbn [in_good negb]. rewrite of_le_u32 by in_word.
    exists LoadBadRow. split; [|done]. rewrite read_short by lia. done.
  - rewrite <-(entry_bytes_eq e He) in Hp.
    apply app_eq_long in Hp as (br & -> & Hp); [|lia].
    destruct (IH fuel (i + 1) (q_insert q e) br) as (r & E & Hr).
    + done.
    + simpl. lia.
    + rewrite length_app in Hf. apply length_entry_bytes in He. lia.
    + by exists tl.
    + rewrite !length_app in Hl. lia.
    + exists r. split; [|done].
      pose proof (load_rows_entry fuel i (i + Z.of_nat (length (e :: es))) e br q He
        ltac:(simpl; lia)) as E2.
      cbn [load_rows] in E2. rewrite (proj2 (Z.ltb_lt _ _)) in E2 by (simpl; lia).
      rewrite E2. done.
Qed.

(** ** Tables and their files *)

Lemma foldl_q_insert es : foldl q_insert ∅ es = list_to_map (reverse es).
Proof.
  induction es as [|e es IH] using rev_ind; [done|].
  rewrite foldl_app, reverse_snoc. simpl. rewrite IH. done.
Qed.

Lemma q_entries_perm q : q_entries q ≡ₚ map_to_list q.
Proof. apply merge_sort_Permutation. Qed.

Lemma foldl_q_entries q : foldl q_insert ∅ (q_entries q) = q.
Proof.
  rewrite foldl_q_insert. trans (list_to_map (map_to_list q) : qtable);
    [|apply list_to_map_to_list]. apply list_to_map_proper.
  - rewrite reverse_Permutation, q_entries_perm. apply NoDup_fst_map_to_list.
  - by rewrite reverse_Permutation, q_entries_perm.
Qed.

Definition q_ok (q : qtable) : Prop := map_Forall (λ st row, entry_ok (st, row)) q.

Lemma q_entries_ok q : q_ok q → Forall entry_ok (q_entries q).
Proof.
  intros Hq. rewrite q_entries_perm, Forall_forall. intros [st row] Hin.
  apply elem_of_map_to_list in Hin. by apply Hq.
Qed.

Lemma length_q_entries q : length (q_entries q) = size q.
Proof. by rewrite q_entries_perm, length_map_to_list. Qed.

Lemma length_entries es :
  Forall entry_ok es → (length es ≤ length (mjoin (entry_bytes <$> es)))%nat.
Proof.
  induction 1 as [|e es He _ IH]; [done|]. rewrite fmap_cons, join_cons, length_app.
  apply length_entry_bytes in He. simpl. lia.
Qed.

Section Saved.
Context (names : list string) (q : qtable).
Let sig := string_bytes (childrenSignature names).
Context (Hsig : Z.of_nat (length sig) < 2 ^ 32) (Hsize : Z.of_nat (size q) < 2 ^ 64).
Context (Hq : q_ok q).

(** The file of [q] in its four parts. *)
Lemma qtable_bytes_eq :
  qtable_bytes sig q
  = le_bytes 4 (Z.of_nat (length sig)) ++ sig ++ le_bytes 8 (Z.of_nat (size q)) ++
    mjoin (entry_bytes <$> q_entries q).
Proof using Hsig Hsize.
  unfold qtable_bytes. rewrite !wrap_id by in_word.
  by rewrite Nat2Z.id, firstn_all.
Qed.

Lemma load_saved q0 : loadQTable (Some (qtable_bytes sig q)) names q0 = Some (Loaded, q).
Proof using Hsig Hsize Hq.
  rewrite qtable_bytes_eq. unfold loadQTable.
  rewrite (read_app 4) by by rewrite length_le_bytes. cbn [in_good negb].
  rewrite of_le_u32 by in_word. rewrite read_app by done. cbn [in_good negb].
  rewrite bool_decide_false by (intros H; by apply H).
  rewrite (read_app 8) by by rewrite length_le_bytes. cbn [in_good negb].
  rewrite of_le_u64 by in_word.
  pose proof (length_entries _ (q_entries_ok q Hq)) as Hle.
  rewrite load_rows_entries.
  - by rewrite foldl_q_entries.
  - by apply q_entries_ok.
  - by rewrite length_q_entries.
  - rewrite !length_app, !length_le_bytes. lia.
Qed.

Lemma load_truncated q0 bs :
  bs `prefix_of` qtable_bytes sig q → (length bs < length (qtable_bytes sig q))%nat →
  ∃ r q', loadQTable (Some bs) names q0 = Some (r, q') ∧ r ≠ Loaded ∧ (q' = q0 ∨ q' = ∅).
Proof using Hsig Hsize Hq.
  rewrite qtable_bytes_eq. intros [tl Hp] Hl. unfold loadQTable.
  destruct (decide (length bs < 4)%nat).
  { rewrite (read_short 4) by lia. exists LoadBadSigLen, q0. auto. }
  apply app_eq_long in Hp as (b1 & -> & Hp); [|rewrite length_le_bytes; lia].
  rewrite (read_app 4) by by rewrite length_le_bytes. cbn [in_good negb].
  rewrite of_le_u32 by in_word.
  destruct (decide (length b1 < length sig)%nat).
  { rewrite read_short by lia. exists LoadBadSig, q0. auto. }
  apply app_eq_long in Hp as (b2 & -> & Hp); [|lia].
  rewrite read_app by done. cbn [in_good negb].
  rewrite bool_decide_false by (intros H; by apply H).
  destruct (decide (length b2 < 8)%nat).
  { rewrite (read_short 8) by lia. exists LoadBadCount, q0. auto. }
  apply app_eq_long in Hp as (b3 & -> & Hp); [|rewrite length_le_bytes; lia].
  rewrite (read_app 8) by by rewrite length_le_bytes. cbn [in_good negb].
  rewrite of_le_u64 by in_word.
  assert (∀ fuel, (length b3 < fuel)%nat → ∃ r,
    load_rows fuel 0 (Z.of_nat (size q)) (mkIn b3 true) ∅ = Some (r, ∅) ∧ r ≠ Loaded) as Hcut.
  { intros fuel Hf. apply (load_rows_cut fuel 0 _ (q_entries q)).
    - by apply q_entries_ok.
    - by rewrite length_q_entries.
    - done.
    - by exists tl.
    - rewrite !length_app in Hl. lia. }
  edestruct Hcut as (r & E & Hr); [|exists r, ∅; split; [exact E|auto]].
  rewrite !length_app. lia.
Qed.
End Saved.

(** ** Arbitrary files *)

Lemma of_le_bound l :
  Forall (λ b, 0 ≤ b < 256) l → 0 ≤ of_le l < 2 ^ (8 * Z.of_nat (length l)).
Proof.
  induction 1 as [|b l Hb _ IH]; [done|]. cbn [of_le length].
  replace (8 * Z.of_nat (S (length l))) with (8 + 8 * Z.of_nat (length l)) by lia.
  rewrite Z.pow_add_r by lia. change (2 ^ 8) with 256. lia.
Qed.

Definition is_byte (b : Z) : Prop := 0 ≤ b < 256.

Lemma read_bytes n s :
  Forall is_byte (in_rest s) →
  Forall is_byte (read n s).1 ∧ Forall is_byte (in_rest (read n s).2).
Proof.
  intros Hs. unfold read. repeat case_match; simpl; split; auto using Forall_take, Forall_drop.
Qed.

(** Whatever eight bytes hold, the number read from them is a valid [double]. *)
Lemma doubles_of_bytes_valid bs :
  Forall is_byte bs → Forall (λ x, dvalid x = true) (doubles_of_bytes bs).
Proof.
  remember (length bs) as n eqn:En. revert bs En.
  induction (lt_wf n) as [n _ IH]. intros bs -> Hb.
  do 8 (destruct bs as [|? bs]; [constructor|]). cbn [doubles_of_bytes]. constructor.
  - apply double_of_bits_valid.
    match goal with |- context [of_le ?l] => apply (of_le_bound l) end.
    repeat (apply Forall_cons in Hb as [? Hb]; constructor; [done|]). constructor.
  - apply (IH (length bs)); [simpl; lia|done|].
    by do 8 (apply Forall_cons in Hb as [_ Hb]).
Qed.

Lemma load_rows_total fuel i n s q :
  (length (in_rest s) < fuel)%nat → Forall is_byte (in_rest s) →
  map_Forall (λ _ row, Forall (λ x, dvalid x = true) row) q →
  ∃ r q', load_rows fuel i n s q = Some (r, q') ∧ (r = Loaded ∨ q' = ∅) ∧
    map_Forall (λ _ row, Forall (λ x, dvalid x = true) row) q'.
Proof.
  revert i s q. induction fuel as [|fuel IH]; intros i s q Hf Hb Hq; [lia|].
  cbn [load_rows]. destruct (i <? n); [|exists Loaded, q; auto].
  pose proof (read_rest 8 s) as R1. pose proof (read_bytes 8 s Hb) as [B1 B1'].
  destruct (read 8 s) as [bst s1]. cbn [fst snd] in *.
  pose proof (read_rest 4 s1) as R2. pose proof (read_bytes 4 s1 B1') as [B2 B2'].
  destruct (read 4 s1) as [bl s2]. cbn [fst snd] in *.
  destruct (in_good s2) eqn:G2; cbn [negb].
  2: { exists LoadBadHeader, ∅. split_and!; auto. apply map_Forall_empty. }
  pose proof (read_bytes (of_le bl * 8) s2 B2') as [B3 B3'].
  pose proof (of_le_bound bl B2) as Hbl.
  pose proof (read_rest (of_le bl * 8) s2) as R3.
  destruct (read (of_le bl * 8) s2) as [brow s3]. cbn [fst snd] in *.
  destruct (in_good s3) eqn:G3; cbn [negb].
  2: { exists LoadBadRow, ∅. split_and!; auto. apply map_Forall_empty. }
  destruct R2 as [R2 G1]; [lia|done|]. destruct R1 as [R1 _]; [lia|done|].
  destruct R3 as [R3 _]; [lia|done|].
  apply IH; [lia|done|]. apply map_Forall_insert_2; [|done].
  by apply doubles_of_bytes_valid.
Qed.

(** The loader returns on every file, and leaves a loaded table, the old one, or
    an empty one; the numbers in it are valid. *)
Lemma load_total bs names q0 :
  Forall is_byte bs → map_Forall (λ _ row, Forall (λ x, dvalid x = true) row) q0 →
  ∃ r q', loadQTable (Some bs) names q0 = Some (r, q') ∧
    (r = Loaded ∨ q' = q0 ∨ q' = ∅) ∧
    map_Forall (λ _ row, Forall (λ x, dvalid x = true) row) q'.
Proof.
  intros Hb Hq. unfold loadQTable.
  pose proof (read_rest 4 (mkIn bs true)) as R1.
  pose proof (read_bytes 4 (mkIn bs true) Hb) as [B1 B1'].
  destruct (read 4 _) as [bsl s1]. cbn [fst snd in_rest] in *.
  destruct (in_good s1) eqn:G1; cbn [negb]; [|eauto 10].
  pose proof (of_le_bound bsl B1) as Hl.
  pose proof (read_rest (of_le bsl) s1) as R2.
  pose proof (read_bytes (of_le bsl) s1 B1') as [B2 B2'].
  destruct (read (of_le bsl) s1) as [sg s2]. cbn [fst snd] in *.
  destruct (in_good s2) eqn:G2; cbn [negb]; [|eauto 10].
  case_bool_decide; [eauto 10|].
  pose proof (read_rest 8 s2) as R3. pose proof (read_bytes 8 s2 B2') as [B3 B3'].
  destruct (read 8 s2) as [bn s3]. cbn [fst snd] in *.
  destruct (in_good s3) eqn:G3; cbn [negb]; [|eauto 10].
  destruct R3 as [R3 _]; [lia|done|]. destruct R2 as [R2 _]; [lia|done|].
  destruct R1 as [R1 _]; [lia|done|].
  destruct (load_rows_total (S (length bs)) 0 (of_le bn) s3 ∅) as (r & q' & E & Hr & Hv).
  - lia.
  - done.
  - apply map_Forall_empty.
  - exists r, q'. split; [exact E|]. naive_solver.
Qed.
