(* ===== verification/CacheCounters.v ===== *)
(** * The runtime counters of the cache

    [runtimeAccesses], [runtimeMisses], [missCount] and the functions that
    change or return them in [src/src/mem/cache/base.hh]: what the controller
    reads at the end of every epoch.  The per-command statistics vectors those
    functions also increment are not modelled. *)

From Stdlib Require Import ZArith Lia.
From stdpp Require Import base numbers option list strings.
From S2P Require Import Prelude.
#[local] Open Scope Z_scope.

Record CacheCounters := mkCounters {
  runtimeAccesses : Z;
  runtimeMisses : Z;
  missCount : Z  (** misses left before the simulation loop is left, 0 = no limit *)
}.

(** [incMissCount(pkt)]: the counters, and whether the simulation loop is to be
    left.  [requestor_ok] is the checked bound on the requestor id. *)
Definition incMissCount (requestor_ok : bool) (c : CacheCounters) : outcome (CacheCounters * bool) :=
  _ ← assert_that requestor_ok "pkt->req->requestorId() < system->maxRequestors()";
  let left := if missCount c =? 0 then 0 else missCount c - 1 in
  Ok (mkCounters (u64 (runtimeAccesses c + 1)) (u64 (runtimeMisses c + 1)) left,
      negb (missCount c =? 0) && (left =? 0)).

Definition incHitCount (requestor_ok : bool) (c : CacheCounters) : outcome CacheCounters :=
  _ ← assert_that requestor_ok "pkt->req->requestorId() < system->maxRequestors()";
  Ok (mkCounters (u64 (runtimeAccesses c + 1)) (runtimeMisses c) (missCount c)).

Definition getRuntimeAccesses (c : CacheCounters) : Z := runtimeAccesses c.
Definition getRuntimeMisses (c : CacheCounters) : Z := runtimeMisses c.

(** The counters after a sequence of lookups; [true] is a miss. *)
Definition lookup_one (c : CacheCounters) (miss : bool) : CacheCounters :=
  match (if miss then '(c, _) ← incMissCount true c; Ok c else incHitCount true c) with
  | Ok c' => c'
  | Stop _ => c
  end.

Definition lookups (c : CacheCounters) (l : list bool) : CacheCounters := foldl lookup_one c l.

(** Both counters count modulo [2^64]. *)
Lemma lookups_count c l :
  runtimeAccesses (lookups c l) mod 2 ^ 64
    = (runtimeAccesses c + Z.of_nat (length l)) mod 2 ^ 64 ∧
  runtimeMisses (lookups c l) mod 2 ^ 64
    = (runtimeMisses c + Z.of_nat (length (filter (λ b, b = true) l))) mod 2 ^ 64.
Proof.
  revert c. induction l as [|b l IH]; intros c; [split; simpl; f_equal; lia|].
  change (lookups c (b :: l)) with (lookups (lookup_one c b) l).
  destruct (IH (lookup_one c b)) as [-> ->]. rewrite filter_cons.
  destruct b; cbn [lookup_one incMissCount incHitCount assert_that mbind outcome_bind
    runtimeAccesses runtimeMisses decide]; rewrite ?decide_True, ?decide_False by done;
    rewrite !length_cons; unfold wrap; rewrite ?Zplus_mod_idemp_l; split; f_equal; lia.
Qed.

(** The differences an epoch takes, in 64-bit arithmetic, are the lookups and
    the misses between two readings. *)
Lemma lookups_delta c l :
  Z.of_nat (length l) < 2 ^ 64 →
  u64 (getRuntimeAccesses (lookups c l) - getRuntimeAccesses c) = Z.of_nat (length l) ∧
  u64 (getRuntimeMisses (lookups c l) - getRuntimeMisses c)
    = Z.of_nat (length (filter (λ b, b = true) l)).
Proof.
  intros Hl. destruct (lookups_count c l) as [E1 E2]. unfold getRuntimeAccesses, getRuntimeMisses, wrap.
  pose proof (length_filter (λ b, b = true) l) as Hf.
  split.
  - rewrite Zminus_mod, E1, <-Zminus_mod, Z.add_simpl_l. apply Z.mod_small. lia.
  - rewrite Zminus_mod, E2, <-Zminus_mod, Z.add_simpl_l. apply Z.mod_small. lia.
Qed.
