(* ===== verification/MLController.v ===== *)
(** * The reinforcement-learning prefetch controller

    [src/src/mem/cache/prefetch/ml_prefetch_controller.{hh,cc}]: a queued
    prefetcher that trains a list of child prefetchers on every access, issues
    the candidates of the one that is active, and at the end of every epoch
    rewards the last choice and makes the next one.

    The object's fields are grouped by purpose in records ([MissHist],
    [IpcHist], [Learner], [Tracker]) that together make [ML].  What is outside
    the object is the [World]: the files, the position in the stream of
    [random()], and the file-scope statics (the CSV file and the epoch
    counter).  The stream itself is a parameter.  The CSV is a list of typed
    rows; how [operator<<] renders numbers is not modelled. *)

From Stdlib Require Import ZArith Lia.
From stdpp Require Import base numbers option list strings gmap.
From S2P Require Import Prelude Double PrefetchBase PrefetchQueue QTable.
#[local] Open Scope Z_scope.

(** ** Constants *)

Definition EPOCH_PRINT_INTERVAL : Z := 20.
Definition MISS_SMOOTH_ALPHA : double := dlit 3 10.
Definition EXPLORE_MIN : double := dlit 1 100.
Definition EXPLORE_DECAY : double := dlit 9995 10000.
Definition ACC_MAX_SPAN : double := dlit 2 10.
Definition MaxTrackedPrefetches : Z := 2048.
Definition RAND_MAX : Z := 2147483647.

(** ** State *)

Record MissHist := mkMissHist {
  lastAccesses : Z;
  lastMisses : Z;
  lastMissRate : double;
  smoothedMissRate : double;
  lastSmoothedMiss : double;
  haveSmoothedMiss : bool
}.

Record IpcHist := mkIpcHist { lastTotalOps : Z; lastIpc : double; lastIpcTick : Z }.

Record Learner := mkLearner {
  qTable : qtable;
  lastState : Z;
  lastAction : Z;
  lastReward : double;
  exploreRate : double
}.

Record ChildPfMeta := mkMeta { actionIndex : Z; issueTick : Z }.

(** Four statistics indexed 0 to 3; other indices are not counted. *)
Record Four := mkFour { c0 : Z; c1 : Z; c2 : Z; c3 : Z }.
Definition four0 : Four := mkFour 0 0 0 0.

Definition bump (i : Z) (f : Four) : Four :=
  match i with
  | 0 => mkFour (c0 f + 1) (c1 f) (c2 f) (c3 f)
  | 1 => mkFour (c0 f) (c1 f + 1) (c2 f) (c3 f)
  | 2 => mkFour (c0 f) (c1 f) (c2 f + 1) (c3 f)
  | 3 => mkFour (c0 f) (c1 f) (c2 f) (c3 f + 1)
  | _ => f
  end.

Record Tracker := mkTracker {
  childPfTable : gmap Z ChildPfMeta;
  pfIssuedBy : Four;
  pfUsefulBy : Four;
  pfRedundantBy : Four
}.

(** A child: its name, and its state if it is a [Queued] prefetcher ([None] when
    the [dynamic_cast] fails). *)
Abbreviation Child D := (string * option D)%type.

Record ML (D : Type) := mkML {
  children : list (Child D);
  currentAction : Z;
  hasCache : bool;
  epochAccesses : Z;
  epochMisses : Z;
  miss_hist : MissHist;
  ipc_hist : IpcHist;
  learner : Learner;
  tracker : Tracker;
  actionUse : Four;
  qtableLoaded : bool;
  update_event : option Z  (** when the next epoch ends *)
}.
Arguments mkML {D}.
Arguments children {D}.
Arguments currentAction {D}.
Arguments hasCache {D}.
Arguments epochAccesses {D}.
Arguments epochMisses {D}.
Arguments miss_hist {D}.
Arguments ipc_hist {D}.
Arguments learner {D}.
Arguments tracker {D}.
Arguments actionUse {D}.
Arguments qtableLoaded {D}.
Arguments update_event {D}.

(** The members that do not change after construction. *)
Record MLCfg := mkMLCfg {
  cacheName : string;
  numActions : Z;
  epoch_ticks : Z;
  learningRate : double;
  actionPenalties : list double;
  debugLogging : bool;
  hasCpu : bool;
  qfileName : string
}.

Record CsvRow := mkCsvRow {
  csv_epoch : Z;
  csv_tick : Z;
  csv_state : Z;
  csv_missRate : double;
  csv_deltaMiss : double;
  csv_ipc : double;
  csv_deltaIpc : double;
  csv_accuracy : double;
  csv_action : Z
}.

Record World := mkWorld {
  w_fs : FileSys;
  w_rng : nat;
  gCsvInitialized : bool;
  gCsvFile : option (list CsvRow);  (** [None] when not open *)
  w_epoch : Z
}.

(** ** Construction *)

Record MLParams (D : Type) := mkMLParams {
  p_name : string;
  p_cache_name : string;
  p_children : list (Child D);
  p_current_action : Z;
  p_ticks_per_epoch : Z;
  p_learning_rate : double;
  p_explore_rate : double;
  p_debug_logging : bool;
  p_cpu : option Z  (** [totalOps()] of the CPU at construction, if there is one *)
}.
Arguments mkMLParams {D}.
Arguments p_name {D}.
Arguments p_cache_name {D}.
Arguments p_children {D}.
Arguments p_current_action {D}.
Arguments p_ticks_per_epoch {D}.
Arguments p_learning_rate {D}.
Arguments p_explore_rate {D}.
Arguments p_debug_logging {D}.
Arguments p_cpu {D}.

(** [assign(n, 0.0)] and the two fixed penalties. *)
Definition penalties (n : Z) : list double :=
  let l := replicate (Z.to_nat n) d0 in
  let l := if 2 <=? n then <[1%nat := dlit 2 100]> l else l in
  if 3 <=? n then <[2%nat := dlit 3 100]> l else l.

(** [std::isalnum] in the C locale. *)
Definition isalnum (a : Ascii.ascii) : bool :=
  let n := Z.of_N (Ascii.N_of_ascii a) in
  ((48 <=? n) && (n <=? 57)) || ((65 <=? n) && (n <=? 90)) || ((97 <=? n) && (n <=? 122)).

Definition sanitize (s : string) : string :=
  String.string_of_list_ascii
    ((λ a, if isalnum a then a else Ascii.ascii_of_N 95) <$> String.list_ascii_of_string s).

Definition csv_init (debug : bool) (w : World) : World :=
  if debug && negb (gCsvInitialized w) then
    mkWorld (w_fs w) (w_rng w) true
      (if fs_writable (w_fs w) "mlprefetch_stats.csv" then Some [] else None) (w_epoch w)
  else w.

Definition ml_new {D} (p : MLParams D) (curTick : Z) (w : World) : MLCfg * ML D * World :=
  let n := Z.of_nat (length (p_children p)) in
  let action := p_current_action p in
  let action := if (action <? -1) || (n <=? action) then 0 else action in
  let safeName := match p_cache_name p with EmptyString => p_name p | s => s end in
  let cfg := mkMLCfg (p_cache_name p) (n + 1) (p_ticks_per_epoch p) (p_learning_rate p)
    (penalties (n + 1)) (p_debug_logging p) (bool_decide (is_Some (p_cpu p)))
    ("qtable_" ++ sanitize safeName ++ ".bin")%string in
  let m := mkML (p_children p) action false 0 0
    (mkMissHist 0 0 d0 d0 d0 false) (mkIpcHist (default 0 (p_cpu p)) d0 curTick)
    (mkLearner ∅ 0 0 d0 (p_explore_rate p)) (mkTracker ∅ four0 four0 four0) four0 false None in
  (cfg, m, csv_init (p_debug_logging p) w).

(** ** Attribution of prefetches to children *)

Definition trackIssuedForChild (curTick childIndex addr : Z) (t : Tracker) : Tracker :=
  if childIndex <? 0 then t else
  let tbl := if MaxTrackedPrefetches <=? Z.of_nat (size (childPfTable t))
             then ∅ else childPfTable t in
  let meta := mkMeta childIndex curTick in
  match tbl !! addr with
  | Some _ =>
      mkTracker (<[addr := meta]> tbl) (pfIssuedBy t) (pfUsefulBy t)
        (bump childIndex (pfRedundantBy t))
  | None =>
      mkTracker (<[addr := meta]> tbl) (bump childIndex (pfIssuedBy t)) (pfUsefulBy t)
        (pfRedundantBy t)
  end.

Definition trackUsefulForAddr (addr : Z) (t : Tracker) : Tracker :=
  match childPfTable t !! addr with
  | None => t
  | Some meta =>
      mkTracker (delete addr (childPfTable t)) (pfIssuedBy t)
        (bump (actionIndex meta) (pfUsefulBy t)) (pfRedundantBy t)
  end.

(** ** Training and issuing *)

Section Train.
Context `{CalculatePrefetch D}.

(** The loop over the children, from index [i] on: every [Queued] child is
    trained, and the candidates of the one at index [active] are taken. *)
Fixpoint train_children (curTick : Z) (pfi : PrefetchInfo) (cache : CacheAccessor)
    (active i : Z) (cs : list (Child D)) (t : Tracker)
    : outcome (list (Child D) * list AddrPriority * Tracker) :=
  match cs with
  | [] => Ok ([], [], t)
  | (name, None) :: cs' =>
      '(cs', addrs, t) ← train_children curTick pfi cache active (i + 1) cs' t;
      Ok ((name, None) :: cs', addrs, t)
  | (name, Some child) :: cs' =>
      '(child, tmp) ← calculatePrefetch curTick pfi cache child;
      let taken := if i =? active then tmp else [] in
      let t := foldl (λ t ap, trackIssuedForChild curTick i ap.1 t) t taken in
      '(cs', addrs, t) ← train_children curTick pfi cache active (i + 1) cs' t;
      Ok ((name, Some child) :: cs', taken ++ addrs, t)
  end.

Definition set_trained (m : ML D) (cs : list (Child D)) (t : Tracker) : ML D :=
  mkML cs (currentAction m) (hasCache m) (epochAccesses m) (epochMisses m) (miss_hist m)
    (ipc_hist m) (learner m) t (actionUse m) (qtableLoaded m) (update_event m).

#[export] Instance ml_prefetcher : CalculatePrefetch (ML D) :=
  λ curTick pfi cache m,
    '(cs, addrs, t) ← train_children curTick pfi cache (currentAction m) 0 (children m) (tracker m);
    Ok (set_trained m cs t, addrs).

(** The bookkeeping of [notify] that precedes [Queued::notify]. *)
Definition ml_observe (pfi : PrefetchInfo) (m : ML D) : ML D :=
  let misses := if pfi_cacheMiss pfi then u64 (epochMisses m + 1) else epochMisses m in
  let t := if pfi_cacheMiss pfi then tracker m
           else trackUsefulForAddr (pfi_address pfi) (tracker m) in
  mkML (children m) (currentAction m) (hasCache m) (u64 (epochAccesses m + 1)) misses
    (miss_hist m) (ipc_hist m) (learner m) t (actionUse m) (qtableLoaded m) (update_event m).

Definition ml_notify (qcfg : QueuedCfg) (curTick : Z) (acc : CacheAccessProbeArg)
    (pfi : PrefetchInfo) (st : BaseState * (QState * ML D)) : outcome (BaseState * (QState * ML D)) :=
  let '(b, (q, m)) := st in
  notify qcfg curTick acc pfi (b, (q, ml_observe pfi m)).
End Train.

(** ** Discretisation *)

Definition encodeDeltaMiss (d : double) : Z :=
  if dltb d (dopp (dlit 10 100)) then 0
  else if dltb d (dopp (dlit 2 100)) then 1
  else if dltb d (dlit 2 100) then 2
  else if dltb d (dlit 10 100) then 3
  else 4.

Definition encodeDeltaIpc (d : double) : Z :=
  if dltb d (dopp (dlit 1 10000)) then 0
  else if dltb d (dlit 1 10000) then 1
  else 2.

Definition encodeAccuracy (a : double) : Z :=
  if dleb a (dlit 20 100) then 0
  else if dleb a (dlit 60 100) then 1
  else 2.

(** ** Choosing an action *)

(** [qTable[state]] with the row extended to [numActions] values. *)
Definition ensure_row (n : Z) (q : qtable) (state : Z) : list double * qtable :=
  let row := default [] (q !! state) in
  let row := if Z.of_nat (length row) <? n
             then row ++ replicate (Z.to_nat n - length row) d0 else row in
  (row, <[state := row]> q).

(** The loop over [row[1]], [row[2]], ... that keeps the first largest value. *)
Fixpoint best_from (i bestIdx : Z) (bestVal : double) (l : list double) : Z :=
  match l with
  | [] => bestIdx
  | x :: l' => if dgtb x bestVal then best_from (i + 1) i x l'
               else best_from (i + 1) bestIdx bestVal l'
  end.

Definition greedy (n : Z) (row : list double) : Z :=
  match take (Z.to_nat n) row with
  | [] => 0
  | x :: l => best_from 1 0 x l
  end.

Definition set_qTable (l : Learner) (q : qtable) : Learner :=
  mkLearner q (lastState l) (lastAction l) (lastReward l) (exploreRate l).

Section Epoch.
(** The values [random()] returns, by number of the call. *)
Variable random : nat → Z.

(** The bandit index, the learner and the position in the random stream. *)
Definition selectAction (cfg : MLCfg) (state : Z) (l : Learner) (rng : nat)
    : Z * Learner * nat :=
  let '(row, q) := ensure_row (numActions cfg) (qTable l) state in
  let l := set_qTable l q in
  let r := ddiv (d_of_Z (random rng)) (d_of_Z RAND_MAX) in
  if dltb r (exploreRate l) then (Z.rem (random (S rng)) (numActions cfg), l, S (S rng))
  else (greedy (numActions cfg) row, l, S rng).

(** ** The end of an epoch, by the numbered steps of the source *)

(** What the controller reads: the time, [totalOps()] of the CPU and the
    counters of the cache. *)
Record EpochInputs := mkInputs { in_tick : Z; in_ops : Z; in_accesses : Z; in_misses : Z }.

(** 1. The miss rate of the epoch. *)
Definition epoch_missRate (has_cache : bool) (i : EpochInputs) (h : MissHist)
    : double * MissHist :=
  if has_cache then
    let dAcc := u64 (in_accesses i - lastAccesses h) in
    let dMis := u64 (in_misses i - lastMisses h) in
    (if 0 <? dAcc then ddiv (d_of_Z dMis) (d_of_Z dAcc) else d0,
     mkMissHist (in_accesses i) (in_misses i) (lastMissRate h) (smoothedMissRate h)
       (lastSmoothedMiss h) (haveSmoothedMiss h))
  else (d0, h).

(** 2. The IPC of the epoch and its change. *)
Definition epoch_ipc (has_cpu : bool) (i : EpochInputs) (h : IpcHist)
    : double * double * IpcHist :=
  if has_cpu then
    let dt := u64 (in_tick i - lastIpcTick h) in
    let '(newIpc, ipcDelta) :=
      if 0 <? dt then
        let newIpc := ddiv (d_of_Z (u64 (in_ops i - lastTotalOps h))) (d_of_Z dt) in
        (newIpc, dsub newIpc (lastIpc h))
      else (lastIpc h, d0) in
    (newIpc, ipcDelta, mkIpcHist (in_ops i) newIpc (in_tick i))
  else (lastIpc h, d0, h).

(** 3. The smoothed miss rate and its change. *)
Definition epoch_smooth (missRate : double) (h : MissHist) : double * MissHist :=
  if haveSmoothedMiss h then
    let last := smoothedMissRate h in
    let sm := dadd (dmul MISS_SMOOTH_ALPHA missRate)
                (dmul (dsub d1 MISS_SMOOTH_ALPHA) (smoothedMissRate h)) in
    (dsub sm last, mkMissHist (lastAccesses h) (lastMisses h) missRate sm last true)
  else (d0, mkMissHist (lastAccesses h) (lastMisses h) missRate missRate missRate true).

(** The improvement of the smoothed miss rate, clamped and mapped to [0, 1]. *)
Definition epoch_accuracy (h : MissHist) : double :=
  let raw := dsub (lastSmoothedMiss h) (smoothedMissRate h) in
  let raw := if dgtb raw ACC_MAX_SPAN then ACC_MAX_SPAN else raw in
  let raw := if dltb raw (dopp ACC_MAX_SPAN) then dopp ACC_MAX_SPAN else raw in
  ddiv (dadd raw ACC_MAX_SPAN) (dmul (d_of_Z 2) ACC_MAX_SPAN).

(** 4. The discrete state. *)
Definition epoch_state (deltaMiss ipcDelta accuracy : double) : Z :=
  u64 (encodeAccuracy accuracy * 100 + encodeDeltaMiss deltaMiss * 10 + encodeDeltaIpc ipcDelta).

(** 5. The reward of the last action. *)
Definition epoch_reward (cfg : MLCfg) (ipcDelta accuracy : double) (lastAction : Z) : double :=
  let sign := if dgtb ipcDelta (dlit 1 1000000) then d1 else d0 in
  let sign := if dltb ipcDelta (dopp (dlit 1 1000000)) then dopp d1 else sign in
  let accCentered := dsub (dmul (d_of_Z 2) accuracy) d1 in
  let half := dlit 5 10 in
  let reward := dadd (dmul half sign) (dmul half accCentered) in
  if (0 <=? lastAction) && (lastAction <? Z.of_nat (length (actionPenalties cfg)))
  then dsub reward (default d0 (actionPenalties cfg !! Z.to_nat lastAction))
  else reward.

(** 6. The update of the value of the last action in the last state. *)
Definition q_update (cfg : MLCfg) (reward : double) (l : Learner) : qtable :=
  let '(row, q) := ensure_row (numActions cfg) (qTable l) (lastState l) in
  if (0 <=? lastAction l) && (lastAction l <? numActions cfg) then
    let i := Z.to_nat (lastAction l) in
    let oldVal := default d0 (row !! i) in
    <[lastState l :=
        <[i := dadd oldVal (dmul (learningRate cfg) (dsub reward oldVal))]> row]> q
  else q.

(** The semantic action of a bandit index: the last one is OFF. *)
Definition semantic_action (cfg : MLCfg) (idx : Z) : Z :=
  if idx =? numActions cfg - 1 then -1 else idx.

(** 8. The CSV row, every [EPOCH_PRINT_INTERVAL] epochs. *)
Definition csv_log (cfg : MLCfg) (row : CsvRow) (w : World) : World :=
  let epoch := u64 (w_epoch w + 1) in
  let file :=
    if debugLogging cfg && (epoch mod EPOCH_PRINT_INTERVAL =? 0)
    then (λ rows, rows ++ [row]) <$> gCsvFile w else gCsvFile w in
  mkWorld (w_fs w) (w_rng w) (gCsvInitialized w) file epoch.

Definition endEpoch {D} (cfg : MLCfg) (i : EpochInputs) (m : ML D) (w : World) : ML D * World :=
  let '(missRate, mh) := epoch_missRate (hasCache m) i (miss_hist m) in
  let '(newIpc, ipcDelta, ih) := epoch_ipc (hasCpu cfg) i (ipc_hist m) in
  let '(deltaMiss, mh) := epoch_smooth missRate mh in
  let accuracy := epoch_accuracy mh in
  let state := epoch_state deltaMiss ipcDelta accuracy in
  let l := learner m in
  let reward := epoch_reward cfg ipcDelta accuracy (lastAction l) in
  let l := mkLearner (q_update cfg reward l) (lastState l) (lastAction l) reward (exploreRate l) in
  let '(idx, l, rng) := selectAction cfg state l (w_rng w) in
  let action := semantic_action cfg idx in
  let rate := dmax EXPLORE_MIN (dmul (exploreRate l) EXPLORE_DECAY) in
  let w := mkWorld (w_fs w) rng (gCsvInitialized w) (gCsvFile w) (w_epoch w) in
  let w := csv_log cfg (mkCsvRow (u64 (w_epoch w + 1)) (in_tick i) state missRate deltaMiss newIpc
                          ipcDelta accuracy action) w in
  (mkML (children m) action (hasCache m) 0 0 mh ih
     (mkLearner (qTable l) state idx reward rate) (tracker m) (bump idx (actionUse m))
     (qtableLoaded m) (update_event m), w).

(** [schedule(update_event, when)]: the event is not scheduled and the time is
    not in the past. *)
Definition schedule {D} (curTick w : Z) (m : ML D) : outcome (ML D) :=
  _ ← assert_that (curTick <=? w) "when >= getCurTick()";
  _ ← assert_that (negb (bool_decide (is_Some (update_event m)))) "!event->scheduled()";
  Ok (mkML (children m) (currentAction m) (hasCache m) (epochAccesses m) (epochMisses m)
        (miss_hist m) (ipc_hist m) (learner m) (tracker m) (actionUse m) (qtableLoaded m) (Some w)).

(** The event is taken off the queue before its callback runs. *)
Definition unschedule {D} (m : ML D) : ML D :=
  mkML (children m) (currentAction m) (hasCache m) (epochAccesses m) (epochMisses m)
    (miss_hist m) (ipc_hist m) (learner m) (tracker m) (actionUse m) (qtableLoaded m) None.

(** [updateModel()], as the callback of [update_event] at [in_tick i]. *)
Definition updateModel {D} (cfg : MLCfg) (i : EpochInputs) (m : ML D) (w : World)
    : outcome (ML D * World) :=
  let '(m, w) := endEpoch cfg i (unschedule m) w in
  let w := mkWorld (saveQTable (qfileName cfg) (children m).*1 (qTable (learner m)) (w_fs w))
             (w_rng w) (gCsvInitialized w) (gCsvFile w) (w_epoch w) in
  m ← schedule (in_tick i) (u64 (in_tick i + epoch_ticks cfg)) m;
  Ok (m, w).
End Epoch.

(** ** Start of the simulation *)

Definition ml_load {D} (cfg : MLCfg) (fs : FileSys) (m : ML D) : option (ML D) :=
  match loadQTable (fs_files fs !! qfileName cfg) (children m).*1 (qTable (learner m)) with
  | None => None
  | Some (r, q) =>
      Some (mkML (children m) (currentAction m) (hasCache m) (epochAccesses m) (epochMisses m)
        (miss_hist m) (ipc_hist m) (set_qTable (learner m) q) (tracker m) (actionUse m)
        (match r with Loaded => true | _ => qtableLoaded m end) (update_event m))
  end.

(** [startup()]; [find] resolves the name of the cache to the current values of
    its two counters. *)
Definition startup {D} (cfg : MLCfg) (curTick : Z) (find : string → option (Z * Z))
    (m : ML D) (w : World) : option (outcome (ML D)) :=
  match ml_load cfg (w_fs w) m with
  | None => None
  | Some m =>
      let h := miss_hist m in
      let '(has, h) :=
        match cacheName cfg with
        | EmptyString => (false, h)
        | s => match find s with
               | None => (false, h)
               | Some (acc, mis) =>
                   (true, mkMissHist acc mis (lastMissRate h) (smoothedMissRate h)
                            (lastSmoothedMiss h) (haveSmoothedMiss h))
               end
        end in
      let m := mkML (children m) (currentAction m) has (epochAccesses m) (epochMisses m) h
        (ipc_hist m) (learner m) (tracker m) (actionUse m) (qtableLoaded m) (update_event m) in
      Some (schedule curTick (u64 (curTick + epoch_ticks cfg)) m)
  end.
