(* ===== verification/MLFacts.v ===== *)
(** * Invariants of the controller

    Ranges of the quantities an epoch computes (miss rate, accuracy, reward,
    Q-values, exploration rate), the shape of the Q-table, and the accounting
    of tracked prefetches; each as a lemma per operation, then for the whole
    of [endEpoch]. *)

From Stdlib Require Import ZArith QArith Lia Lqa.
From stdpp Require Import base numbers option list strings gmap sets fin_sets.
From S2P Require Import Prelude Double Interval PrefetchBase PrefetchQueue QTable MLController.
#[local] Open Scope Z_scope.

(** ** Ranges of an epoch's quantities *)

Lemma smooth_weights :
  within MISS_SMOOTH_ALPHA 0 1 ∧ within (dsub d1 MISS_SMOOTH_ALPHA) 0 1 ∧
  (dval MISS_SMOOTH_ALPHA + dval (dsub d1 MISS_SMOOTH_ALPHA) <= 1)%Q.
Proof. unfold within. vm_compute. intuition discriminate. Qed.

(** The moving average of numbers in [0, 1] is in [0, 1], rounding included. *)
Lemma smooth_within x s :
  within x 0 1 → within s 0 1 →
  within (dadd (dmul MISS_SMOOTH_ALPHA x) (dmul (dsub d1 MISS_SMOOTH_ALPHA) s)) 0 1.
Proof.
  intros Hx Hs. destruct smooth_weights as (Ha & Hb & Hab).
  assert (∀ w y, within w 0 1 → within y 0 1 → within (dmul w y) 0 (dval w)) as Hmul.
  { intros w y (Ow & W1 & W2) (Oy & Y1 & Y2).
    apply (rounds_within _ _ _ _ (dmul_rounds w y Ow Oy)).
    - exact (repr_Z 0 ltac:(lia)).
    - by apply repr_dval.
    - by apply Qmult_le_0_compat.
    - rewrite Qmult_comm.
      assert (dval y * dval w <= 1 * dval w)%Q by by apply Qmult_le_compat_r. lra. }
  destruct (Hmul _ _ Ha Hx) as (O1 & A1 & A2). destruct (Hmul _ _ Hb Hs) as (O2 & B1 & B2).
  apply (rounds_within _ _ _ _ (dadd_rounds _ _ O1 O2)).
  - exact (repr_Z 0 ltac:(lia)).
  - exact (repr_Z 1 ltac:(lia)).
  - lra.
  - lra.
Qed.

Definition hist_ok (h : MissHist) : Prop :=
  within (smoothedMissRate h) 0 1 ∧ within (lastSmoothedMiss h) 0 1.

(** What the cache's counters guarantee between two readings: at most one miss
    per lookup, and fewer lookups than a [double] counts exactly. *)
Definition inputs_ok (has_cache : bool) (i : EpochInputs) (h : MissHist) : Prop :=
  has_cache = true →
  u64 (in_misses i - lastMisses h) ≤ u64 (in_accesses i - lastAccesses h) < 2 ^ 53.

Lemma zero_within : within d0 0 1.
Proof. unfold within. vm_compute. intuition discriminate. Qed.

Lemma epoch_missRate_within has i h :
  inputs_ok has i h → within (epoch_missRate has i h).1 0 1.
Proof.
  intros Hi. unfold epoch_missRate. destruct has; [|apply zero_within].
  specialize (Hi eq_refl). cbn [fst].
  destruct (Z.ltb_spec 0 (u64 (in_accesses i - lastAccesses h))); [|apply zero_within].
  apply count_ratio; [|lia]. pose proof (wrap_range 64 (in_misses i - lastMisses h) ltac:(lia)) as Hr. unfold in_u in Hr. lia.
Qed.

Lemma epoch_missRate_hist has i h : hist_ok h → hist_ok (epoch_missRate has i h).2.
Proof. unfold epoch_missRate. by destruct has. Qed.

Lemma epoch_smooth_hist x h : within x 0 1 → hist_ok h → hist_ok (epoch_smooth x h).2.
Proof.
  intros Hx [H1 H2]. unfold epoch_smooth. destruct (haveSmoothedMiss h); split; simpl; try done.
  by apply smooth_within.
Qed.

Lemma span_facts :
  dok ACC_MAX_SPAN = true ∧ (0 < dval ACC_MAX_SPAN)%Q ∧
  dok (dmul (d_of_Z 2) ACC_MAX_SPAN) = true ∧
  (dval (dmul (d_of_Z 2) ACC_MAX_SPAN) == dval ACC_MAX_SPAN + dval ACC_MAX_SPAN)%Q.
Proof. vm_compute. intuition. Qed.

Lemma epoch_accuracy_within h : hist_ok h → within (epoch_accuracy h) 0 1.
Proof.
  intros [(Os & S1 & S2) (Ol & L1 & L2)]. destruct span_facts as (Oa & Ha & O2 & E2).
  unfold epoch_accuracy. set (S := ACC_MAX_SPAN) in *.
  assert (dok (dsub (lastSmoothedMiss h) (smoothedMissRate h)) = true) as Or.
  { assert (within (dsub (lastSmoothedMiss h) (smoothedMissRate h)) (-1) 1) as [? _]; [|done].
    apply (rounds_within _ _ _ _ (dsub_rounds _ _ Ol Os)); [|exact (repr_Z 1 ltac:(lia))|lra|lra].
    exact (repr_Z (-1) ltac:(lia)). }
  pose proof (clamp_within _ S Or Oa ltac:(lra)) as Hc. cbv zeta in Hc. cbv zeta.
  set (raw := if dltb _ (dopp S) then _ else _) in *. clearbody raw.
  destruct Hc as (Oc & C1 & C2).
  assert (within (dadd raw S) 0 (dval (dmul (d_of_Z 2) S))) as (Od & D1 & D2).
  { apply (rounds_within _ _ _ _ (dadd_rounds _ _ Oc Oa)).
    - exact (repr_Z 0 ltac:(lia)).
    - by apply repr_dval.
    - lra.
    - rewrite E2. lra. }
  by apply within_ratio.
Qed.

(** Penalties below 1/32. *)
Definition penalties_ok (l : list double) : Prop := Forall (λ p, within p 0 (1 # 32)) l.

Lemma penalties_penalties_ok n : penalties_ok (penalties n).
Proof.
  assert (within d0 0 (1 # 32) ∧ within (dlit 2 100) 0 (1 # 32) ∧ within (dlit 3 100) 0 (1 # 32))
    as (H0 & H2 & H3) by (unfold within; vm_compute; intuition discriminate).
  assert (penalties_ok (replicate (Z.to_nat n) d0)) as Hr by by apply Forall_replicate.
  unfold penalties. cbv zeta. repeat case_match; try done; repeat apply Forall_insert; done.
Qed.

Lemma half_times x a b :
  within x a b → repr ((1 # 2) * a) → repr ((1 # 2) * b) →
  within (dmul (dlit 5 10) x) ((1 # 2) * a) ((1 # 2) * b).
Proof.
  intros (Ox & X1 & X2) Ha Hb.
  assert (dok (dlit 5 10) = true ∧ dval (dlit 5 10) == 1 # 2)%Q as [Oh Eh] by by vm_compute.
  apply (rounds_within _ _ _ _ (dmul_rounds _ _ Oh Ox)); [done|done| |]; rewrite Eh; lra.
Qed.

(** The reward is in [-33/32, 1], whatever the IPC did (a NaN included). *)
Lemma epoch_reward_within cfg delta acc a :
  penalties_ok (actionPenalties cfg) → within acc 0 1 →
  within (epoch_reward cfg delta acc a) (- (33 # 32)) 1.
Proof.
  intros Hp Ha. unfold epoch_reward. cbv zeta.
  set (sg := if dltb delta _ then _ else _).
  assert (within sg (-1) 1) as Hs.
  { subst sg. unfold within. repeat case_match; vm_compute; intuition discriminate. }
  clearbody sg.
  assert (repr (-1) ∧ repr 1 ∧ repr 2 ∧ repr 0 ∧ repr ((1 # 2) * -1) ∧ repr ((1 # 2) * 1))
    as (R1 & R2 & R3 & R0 & R4 & R5).
  { split_and!; [repr_lit (-1) 1%positive|repr_lit 1 1%positive|repr_lit 2 1%positive
      |repr_lit 0 1%positive|repr_lit (-1) 2%positive|repr_lit 1 2%positive]. }
  assert (within (dsub (dmul (d_of_Z 2) acc) d1) (-1) 1) as Hc.
  { destruct Ha as (Oa & A1 & A2).
    assert (dok (d_of_Z 2) = true ∧ dval (d_of_Z 2) == 2 ∧ dok d1 = true ∧ dval d1 == 1)%Q
      as (Ot & Et & O1 & E1) by by vm_compute.
    assert (within (dmul (d_of_Z 2) acc) 0 2) as (Om & M1 & M2).
    { apply (rounds_within _ _ _ _ (dmul_rounds _ _ Ot Oa)); [done|done| |]; rewrite Et; lra. }
    apply (rounds_within _ _ _ _ (dsub_rounds _ _ Om O1)); [done|done| |]; rewrite E1; lra. }
  pose proof (half_times _ _ _ Hs R4 R5) as (Oh & H1 & H2).
  pose proof (half_times _ _ _ Hc R4 R5) as (Oc & C1 & C2).
  assert (within (dadd (dmul (dlit 5 10) sg) (dmul (dlit 5 10) (dsub (dmul (d_of_Z 2) acc) d1)))
            (-1) 1) as Hr.
  { apply (rounds_within _ _ _ _ (dadd_rounds _ _ Oh Oc)); [done|done| |]; lra. }
  destruct (_ && _); [|eapply within_weaken; [exact Hr|lra|lra]].
  assert (within (default d0 (actionPenalties cfg !! Z.to_nat a)) 0 (1 # 32)) as (Op & P1 & P2).
  { destruct (_ !! _) eqn:E; simpl; [|unfold within; vm_compute; intuition discriminate].
    by apply (Forall_lookup_1 _ _ _ _ Hp E). }
  destruct Hr as (Or & Q1 & Q2).
  apply (rounds_within _ _ _ _ (dsub_rounds _ _ Or Op)); [|done|lra|lra].
  apply repr_opp. repr_lit 33 32%positive.
Qed.

Lemma decay_within r : within r 0 1 → within (dmax EXPLORE_MIN (dmul r EXPLORE_DECAY)) (dval EXPLORE_MIN) 1.
Proof.
  intros Hr.
  assert (within EXPLORE_DECAY 0 1 ∧ within EXPLORE_MIN 0 1) as [Hd Hm]
    by (unfold within; vm_compute; intuition discriminate).
  pose proof (within_scale_pos _ _ _ Hr Hd (repr_Z 1 ltac:(lia))) as (Ox & X1 & X2).
  destruct Hm as (Om & M1 & M2). unfold dmax.
  destruct (dltb _ _) eqn:E.
  - apply dltb_spec in E; [|done..]. split; [done|]. split; [lra|done].
  - split; [done|]. split; [lra|done].
Qed.

(** ** States *)

(** The 45 codes: accuracy bin in hundreds, miss bin in tens, IPC bin in units. *)
Definition state_code (acc miss ipc : Z) : Z := acc * 100 + miss * 10 + ipc.

Definition valid_states : list Z :=
  a ← seqZ 0 3; m ← seqZ 0 5; i ← seqZ 0 3; [state_code a m i].

Lemma encode_ranges d1' d2 d3 :
  0 ≤ encodeDeltaMiss d1' ≤ 4 ∧ 0 ≤ encodeDeltaIpc d2 ≤ 2 ∧ 0 ≤ encodeAccuracy d3 ≤ 2.
Proof.
  unfold encodeDeltaMiss, encodeDeltaIpc, encodeAccuracy. split_and!; repeat case_match; lia.
Qed.

Lemma epoch_state_code dm di a :
  epoch_state dm di a = state_code (encodeAccuracy a) (encodeDeltaMiss dm) (encodeDeltaIpc di).
Proof.
  destruct (encode_ranges dm di a) as (H1 & H2 & H3). unfold epoch_state, state_code.
  apply wrap_id. unfold in_u. lia.
Qed.

Lemma state_code_valid a m i :
  0 ≤ a ≤ 2 → 0 ≤ m ≤ 4 → 0 ≤ i ≤ 2 → state_code a m i ∈ valid_states.
Proof.
  intros Ha Hm Hi. unfold valid_states. apply list_elem_of_bind. exists a.
  split; [|by apply elem_of_seqZ; lia]. apply list_elem_of_bind. exists m.
  split; [|by apply elem_of_seqZ; lia]. apply list_elem_of_bind. exists i.
  split; [|by apply elem_of_seqZ; lia]. by apply list_elem_of_singleton.
Qed.

Lemma epoch_state_valid dm di a : epoch_state dm di a ∈ valid_states.
Proof.
  rewrite epoch_state_code. destruct (encode_ranges dm di a) as (H1 & H2 & H3).
  by apply state_code_valid.
Qed.

Lemma zero_state_valid : 0 ∈ valid_states.
Proof. apply (state_code_valid 0 0 0); lia. Qed.

(** ** Rows *)

Definition value_ok (x : double) : Prop := within x (- (17 # 16)) (17 # 16).

Definition row_ok (n : Z) (row : list double) : Prop :=
  Z.of_nat (length row) = n ∧ Forall value_ok row.

(** Every row is about a state an epoch can produce, has one value per action,
    and its values are bounded. *)
Definition table_ok (n : Z) (q : qtable) : Prop :=
  map_Forall (λ st row, st ∈ valid_states ∧ row_ok n row) q.

Lemma value_ok_d0 : value_ok d0.
Proof. unfold value_ok, within. vm_compute. intuition discriminate. Qed.

Lemma ensure_row_lookup n q st :
  (ensure_row n q st).2 = <[st := (ensure_row n q st).1]> q.
Proof. done. Qed.

Lemma ensure_row_ok n q st :
  0 ≤ n → table_ok n q → st ∈ valid_states →
  row_ok n (ensure_row n q st).1 ∧ table_ok n (ensure_row n q st).2.
Proof.
  intros Hn Hq Hst. assert (row_ok n (ensure_row n q st).1) as Hr.
  { unfold ensure_row. cbn [fst]. destruct (q !! st) as [row|] eqn:E; cbn [from_option id].
    - apply Hq in E as [_ [El Ev]]. rewrite El, Z.ltb_irrefl. done.
    - destruct (Z.ltb_spec (Z.of_nat (length (@nil double))) n); simpl in *.
      + split; [rewrite length_replicate; lia|]. apply Forall_replicate, value_ok_d0.
      + split; [simpl; lia|constructor]. }
  split; [done|]. rewrite ensure_row_lookup. by apply map_Forall_insert_2.
Qed.

Lemma table_ok_size n q : table_ok n q → (size q ≤ 45)%nat.
Proof.
  intros Hq. rewrite <-(size_dom (D := gset Z)).
  trans (size (list_to_set valid_states : gset Z)); [|by vm_compute].
  apply subseteq_size. intros st [row Hr]%elem_of_dom. apply elem_of_list_to_set.
  by apply Hq in Hr as [? _].
Qed.

Record learner_ok (cfg : MLCfg) (l : Learner) : Prop := {
  lo_table : table_ok (numActions cfg) (qTable l);
  lo_state : lastState l ∈ valid_states;
  lo_action : 0 ≤ lastAction l < numActions cfg;
  lo_explore : within (exploreRate l) 0 1
}.

Lemma q_update_ok cfg r l :
  learner_ok cfg l → within (learningRate cfg) 0 1 → within r (- (33 # 32)) 1 →
  table_ok (numActions cfg) (q_update cfg r l).
Proof.
  intros [Ht Hs Ha He] Hlr Hr. unfold q_update.
  destruct (ensure_row_ok (numActions cfg) (qTable l) (lastState l) ltac:(lia) Ht Hs) as [Hrow Hq].
  destruct (ensure_row (numActions cfg) (qTable l) (lastState l)) as [row q]. cbn [fst snd] in *.
  destruct (_ && _); [|done]. apply map_Forall_insert_2; [|done]. split; [done|].
  destruct Hrow as [El Ev]. split; [by rewrite length_insert|]. apply Forall_insert; [done|].
  apply step_towards; [done| |done]. destruct (row !! Z.to_nat (lastAction l)) eqn:E; simpl.
  - by apply (Forall_lookup_1 _ _ _ _ Ev E).
  - apply value_ok_d0.
Qed.

(** ** The greedy choice *)

Lemma best_from_spec l i bi bv :
  dok bv = true → Forall (λ x, dok x = true) l → bi < i →
  let r := best_from i bi bv l in
  ∃ v, (r = bi ∧ v = bv ∨ i ≤ r ∧ l !! Z.to_nat (r - i) = Some v) ∧ r < i + Z.of_nat (length l) ∧
    (dval bv <= dval v)%Q ∧ Forall (λ x, (dval x <= dval v)%Q) l ∧
    (∀ j x, l !! j = Some x → i + Z.of_nat j < r → (dval x < dval v)%Q) ∧
    (r ≠ bi → (dval bv < dval v)%Q).
Proof.
  revert i bi bv. induction l as [|x l IH]; intros i bi bv Hb Hl Hi; cbn [best_from].
  { exists bv. split_and!; [auto|simpl; lia|apply Qle_refl|constructor|done|done]. }
  apply Forall_cons in Hl as [Hx Hl]. change (dgtb x bv) with (dltb bv x).
  destruct (dltb bv x) eqn:E.
  - apply dltb_spec in E; [|done..].
    destruct (IH (i + 1) i x Hx Hl ltac:(lia)) as (v & Hv & Hr & H1 & H2 & H3 & H4).
    set (r := best_from (i + 1) i x l) in *. exists v. split_and!.
    + right. destruct Hv as [[-> ->]|[Hge Hv]].
      * split; [lia|]. by replace (i - i) with 0 by lia.
      * split; [lia|]. by replace (Z.to_nat (r - i)) with (S (Z.to_nat (r - (i + 1)))) by lia.
    + rewrite length_cons. lia.
    + lra.
    + by constructor.
    + intros [|j] y Hy Hj; simpl in Hy.
      * injection Hy as <-. apply H4. lia.
      * apply (H3 j); [done|lia].
    + intros _. lra.
  - assert (dval x <= dval bv)%Q as Hle.
    { apply Qnot_lt_le. intros H. apply dltb_spec in H; [|done..]. congruence. }
    destruct (IH (i + 1) bi bv Hb Hl ltac:(lia)) as (v & Hv & Hr & H1 & H2 & H3 & H4).
    set (r := best_from (i + 1) bi bv l) in *. exists v. split_and!.
    + destruct Hv as [[-> ->]|[Hge Hv]]; [auto|]. right. split; [lia|].
      by replace (Z.to_nat (r - i)) with (S (Z.to_nat (r - (i + 1)))) by lia.
    + rewrite length_cons. lia.
    + done.
    + constructor; [lra|done].
    + intros [|j] y Hy Hj; simpl in Hy.
      * injection Hy as <-. assert (dval bv < dval v)%Q by (apply H4; lia). lra.
      * apply (H3 j); [done|lia].
    + done.
Qed.

(** The greedy index is the first of the largest values. *)
Lemma greedy_spec n row :
  0 < n → Z.of_nat (length row) = n → Forall (λ x, dok x = true) row →
  let r := greedy n row in
  0 ≤ r < n ∧ ∃ v, row !! Z.to_nat r = Some v ∧ Forall (λ x, (dval x <= dval v)%Q) row ∧
    (∀ j x, row !! j = Some x → Z.of_nat j < r → (dval x < dval v)%Q).
Proof.
  intros Hn Hl Hok. unfold greedy. rewrite firstn_all2 by lia.
  destruct row as [|x l]; [simpl in Hl; lia|]. apply Forall_cons in Hok as [Hx Hok].
  destruct (best_from_spec l 1 0 x Hx Hok ltac:(lia)) as (v & Hv & Hr & H1 & H2 & H3 & H4).
  set (r := best_from 1 0 x l) in *. rewrite length_cons in Hl.
  assert (0 ≤ r) by (destruct Hv as [[-> _]|[? _]]; lia).
  split; [lia|]. exists v. split_and!.
  - destruct Hv as [[-> ->]|[Hge Hv]]; [done|].
    by replace (Z.to_nat r) with (S (Z.to_nat (r - 1))) by lia.
  - by constructor.
  - intros [|j] y Hy Hj; simpl in Hy.
    + injection Hy as <-. apply H4. lia.
    + apply (H3 j); [done|lia].
Qed.

(** ** Tracked prefetches *)

Definition four_get (i : Z) (f : Four) : Z :=
  match i with 0 => c0 f | 1 => c1 f | 2 => c2 f | 3 => c3 f | _ => 0 end.

Definition four_sum (f : Four) : Z := c0 f + c1 f + c2 f + c3 f.

Lemma four_cases i : 0 ≤ i ≤ 3 → i = 0 ∨ i = 1 ∨ i = 2 ∨ i = 3.
Proof. lia. Qed.

Lemma four_get_bump i j f :
  0 ≤ i ≤ 3 → four_get i (bump j f) = four_get i f + (if i =? j then 1 else 0).
Proof.
  intros Hi. destruct (Z.eqb_spec i j) as [->|Hne].
  - by destruct (four_cases j Hi) as [-> | [-> | [-> | ->]]].
  - rewrite Z.add_0_r. destruct (decide (0 ≤ j ≤ 3)) as [Hj|Hj].
    + destruct (four_cases i Hi) as [-> | [-> | [-> | ->]]];
        destruct (four_cases j Hj) as [-> | [-> | [-> | ->]]]; done.
    + unfold bump. destruct j as [|[[]|[]|]|]; try done; lia.
Qed.

Lemma four_sum_bump j f : 0 ≤ j ≤ 3 → four_sum (bump j f) = four_sum f + 1.
Proof.
  intros Hj. unfold four_sum.
  destruct (four_cases j Hj) as [-> | [-> | [-> | ->]]]; cbn [bump c0 c1 c2 c3]; lia.
Qed.

(** How many tracked prefetches are attributed to child [i]. *)
Definition count (i : Z) (tbl : gmap Z ChildPfMeta) : Z :=
  Z.of_nat (length (filter (λ kv, actionIndex kv.2 = i) (map_to_list tbl))).

Lemma count_insert i tbl a m :
  tbl !! a = None → count i (<[a := m]> tbl) = (if i =? actionIndex m then 1 else 0) + count i tbl.
Proof.
  intros Hn. unfold count. rewrite map_to_list_insert by done. rewrite filter_cons. cbn [snd].
  destruct (Z.eqb_spec i (actionIndex m)) as [->|Hne].
  - rewrite decide_True by done. rewrite length_cons. lia.
  - rewrite decide_False by congruence. lia.
Qed.

Lemma count_delete i tbl a m :
  tbl !! a = Some m →
  count i tbl = (if i =? actionIndex m then 1 else 0) + count i (delete a tbl).
Proof.
  intros Hm. rewrite <-(insert_delete_id tbl a m Hm) at 1.
  apply count_insert. apply lookup_delete_eq.
Qed.

Lemma count_overwrite i tbl a m m' :
  tbl !! a = Some m →
  count i (<[a := m']> tbl) + (if i =? actionIndex m then 1 else 0)
  = count i tbl + (if i =? actionIndex m' then 1 else 0).
Proof.
  intros Hm. rewrite <-insert_delete_eq, count_insert by apply lookup_delete_eq.
  rewrite (count_delete i tbl a m Hm). lia.
Qed.

Lemma count_empty i : count i ∅ = 0.
Proof. unfold count. by rewrite map_to_list_empty. Qed.

Lemma count_nonneg i tbl : 0 ≤ count i tbl.
Proof. unfold count. lia. Qed.

(** [n] is the number of children. *)
Record tracker_ok (n : Z) (t : Tracker) : Prop := {
  to_size : Z.of_nat (size (childPfTable t)) ≤ MaxTrackedPrefetches;
  to_index : map_Forall (λ _ m, 0 ≤ actionIndex m < n) (childPfTable t);
  to_child : ∀ i, 0 ≤ i ≤ 3 →
    four_get i (pfUsefulBy t) + count i (childPfTable t)
    ≤ four_get i (pfIssuedBy t) + four_get i (pfRedundantBy t);
  to_total : n ≤ 4 →
    four_sum (pfUsefulBy t) + Z.of_nat (size (childPfTable t)) ≤ four_sum (pfIssuedBy t)
}.

Lemma tracker0_ok n : tracker_ok n (mkTracker ∅ four0 four0 four0).
Proof.
  split; simpl.
  - by rewrite map_size_empty.
  - apply map_Forall_empty.
  - intros i Hi. rewrite count_empty. destruct (four_cases i Hi) as [-> | [-> | [-> | ->]]]; done.
  - rewrite map_size_empty. done.
Qed.

Lemma trackIssuedForChild_ok n tick i a t :
  0 ≤ i < n → tracker_ok n t → tracker_ok n (trackIssuedForChild tick i a t).
Proof.
  intros Hi Ht. unfold trackIssuedForChild. rewrite (proj2 (Z.ltb_ge i 0)) by lia.
  set (tbl := if MaxTrackedPrefetches <=? _ then _ else _). set (m := mkMeta i tick).
  assert (tracker_ok n (mkTracker tbl (pfIssuedBy t) (pfUsefulBy t) (pfRedundantBy t)) ∧
          Z.of_nat (size tbl) < MaxTrackedPrefetches) as [Ht' Hlt].
  { destruct Ht as [H1 H2 H3 H4]. subst tbl. destruct (Z.leb_spec MaxTrackedPrefetches (Z.of_nat (size (childPfTable t)))).
    - split; [|by rewrite map_size_empty].
      split; simpl; rewrite ?map_size_empty.
      + done.
      + apply map_Forall_empty.
      + intros j Hj. rewrite count_empty. specialize (H3 j Hj).
        pose proof (count_nonneg j (childPfTable t)). lia.
      + intros Hn. specialize (H4 Hn). lia.
    - split; [by split|lia]. }
  clearbody tbl. destruct Ht' as [H1 H2 H3 H4]. simpl in *.
  destruct (tbl !! a) as [m0|] eqn:Ea; split; simpl.
  - rewrite map_size_insert_Some by by eexists. lia.
  - by apply map_Forall_insert_2.
  - intros j Hj. specialize (H3 j Hj). rewrite four_get_bump by done.
    pose proof (count_overwrite j tbl a m0 m Ea) as E. simpl in E.
    destruct (j =? i), (j =? actionIndex m0); lia.
  - intros Hn. rewrite map_size_insert_Some by by eexists. auto.
  - rewrite map_size_insert_None by done. lia.
  - by apply map_Forall_insert_2.
  - intros j Hj. specialize (H3 j Hj). rewrite four_get_bump by done.
    rewrite count_insert by done. simpl. destruct (j =? i); lia.
  - intros Hn. rewrite map_size_insert_None, four_sum_bump by (done || lia). specialize (H4 Hn). lia.
Qed.

Lemma trackUsefulForAddr_ok n a t : tracker_ok n t → tracker_ok n (trackUsefulForAddr a t).
Proof.
  intros [H1 H2 H3 H4]. unfold trackUsefulForAddr.
  destruct (childPfTable t !! a) as [m|] eqn:Ea; [|by split].
  assert (size (childPfTable t) = S (size (delete a (childPfTable t)))) as Es.
  { rewrite <-(insert_delete_id _ _ _ Ea) at 1. apply map_size_insert_None, lookup_delete_eq. }
  split; simpl.
  - lia.
  - by apply map_Forall_delete.
  - intros j Hj. specialize (H3 j Hj). rewrite four_get_bump by done.
    rewrite (count_delete j _ _ _ Ea) in H3. destruct (j =? actionIndex m); lia.
  - intros Hn. specialize (H4 Hn). apply H2 in Ea. rewrite four_sum_bump by lia. lia.
Qed.

(** ** Choosing an action *)

Section Select.
Context (random : nat → Z) (Hrandom : ∀ k, 0 ≤ random k ≤ RAND_MAX).

Lemma selectAction_ok cfg st l rng :
  0 < numActions cfg → learner_ok cfg l → st ∈ valid_states →
  let '(idx, l', _) := selectAction random cfg st l rng in
  0 ≤ idx < numActions cfg ∧ learner_ok cfg l' ∧ exploreRate l' = exploreRate l ∧
  lastState l' = lastState l ∧ lastAction l' = lastAction l.
Proof using Hrandom.
  intros Hn [Ht Hs Ha He] Hst. unfold selectAction.
  destruct (ensure_row_ok (numActions cfg) (qTable l) st ltac:(lia) Ht Hst) as [[Hl Hv] Hq].
  destruct (ensure_row (numActions cfg) (qTable l) st) as [row q]. cbn [fst snd] in *.
  assert (learner_ok cfg (set_qTable l q)) as Hok by by split.
  destruct (dltb _ _).
  - split_and!; try done; pose proof (Z.rem_bound_pos (random (S rng)) (numActions cfg)) as Hb;
      specialize (Hrandom (S rng)); lia.
  - destruct (greedy_spec (numActions cfg) row) as [Hb _]; [done|done| |done].
    eapply Forall_impl; [exact Hv|]. intros x [? _]. done.
Qed.

(** ** The end of an epoch *)

Record cfg_ok (cfg : MLCfg) : Prop := {
  co_rate : within (learningRate cfg) 0 1;
  co_pen : penalties_ok (actionPenalties cfg);
  co_actions : 0 < numActions cfg
}.

Record ml_ok {D} (cfg : MLCfg) (m : ML D) : Prop := {
  mo_actions : numActions cfg = Z.of_nat (length (children m)) + 1;
  mo_current : children m ≠ [] → -1 ≤ currentAction m < Z.of_nat (length (children m));
  mo_hist : hist_ok (miss_hist m);
  mo_learner : learner_ok cfg (learner m);
  mo_tracker : tracker_ok (Z.of_nat (length (children m))) (tracker m)
}.

Lemma endEpoch_ok {D} cfg i (m : ML D) w :
  cfg_ok cfg → ml_ok cfg m → inputs_ok (hasCache m) i (miss_hist m) →
  let m' := (endEpoch random cfg i m w).1 in
  ml_ok cfg m' ∧
  within (lastReward (learner m')) (- (33 # 32)) 1 ∧
  within (exploreRate (learner m')) (dval EXPLORE_MIN) 1.
Proof using Hrandom.
  intros [Hlr Hpen Hn] [Hact Hcur Hh Hl Ht] Hi. unfold endEpoch.
  pose proof (epoch_missRate_within _ _ _ Hi) as Hm.
  pose proof (epoch_missRate_hist (hasCache m) i _ Hh) as Hh1.
  destruct (epoch_missRate (hasCache m) i (miss_hist m)) as [mr mh]. cbn [fst snd] in *.
  destruct (epoch_ipc (hasCpu cfg) i (ipc_hist m)) as [[nipc dipc] ih].
  pose proof (epoch_smooth_hist mr mh Hm Hh1) as Hh2.
  destruct (epoch_smooth mr mh) as [dm mh2]. cbn [snd] in *. cbv zeta.
  pose proof (epoch_accuracy_within _ Hh2) as Hacc.
  pose proof (epoch_reward_within cfg dipc _ (lastAction (learner m)) Hpen Hacc) as Hr.
  set (reward := epoch_reward _ _ _ _) in *.
  set (st := epoch_state dm dipc (epoch_accuracy mh2)).
  assert (st ∈ valid_states) as Hst by apply epoch_state_valid. clearbody st reward.
  pose proof (q_update_ok cfg reward (learner m) Hl Hlr Hr) as Hq.
  set (l1 := mkLearner (q_update cfg reward (learner m)) _ _ _ _).
  assert (learner_ok cfg l1) as Hl1 by by destruct Hl.
  pose proof (selectAction_ok cfg st l1 (w_rng w) Hn Hl1 Hst) as Hsel.
  destruct (selectAction random cfg st l1 (w_rng w)) as [[idx l2] rng].
  destruct Hsel as (Hidx & [T2 S2 A2 E2] & Ee & _). cbn [fst].
  pose proof (decay_within _ E2) as Hdec.
  assert (within EXPLORE_MIN 0 1) as (Oe & Me & _) by (unfold within; vm_compute; intuition discriminate).
  split_and!; [|done|done]. split; cbn [children currentAction miss_hist learner tracker]; try done.
  - intros Hne. unfold semantic_action. rewrite Hact in *.
    destruct (Z.eqb_spec idx (Z.of_nat (length (children m)) + 1 - 1)); [lia|].
    lia.
  - split; cbn [qTable lastState lastAction exploreRate]; try done.
    eapply within_weaken; [exact Hdec|done|lra].
Qed.
End Select.

(** ** Training *)

Section Training.
Context `{CalculatePrefetch D} (tick : Z) (pfi : PrefetchInfo) (cache : CacheAccessor).

(** What training does to one child. *)
Definition trained (c c' : Child D) : Prop :=
  c'.1 = c.1 ∧
  match c.2, c'.2 with
  | Some d, Some d' => ∃ l, calculatePrefetch tick pfi cache d = Ok (d', l)
  | None, None => True
  | _, _ => False
  end.

(** The candidates a child proposes. *)
Definition proposals (c : Child D) : list AddrPriority :=
  match c.2 with
  | Some d => match calculatePrefetch tick pfi cache d with Ok (_, l) => l | Stop _ => [] end
  | None => []
  end.

Lemma track_all_ok n i l t :
  0 ≤ i < n → tracker_ok n t →
  tracker_ok n (foldl (λ t (ap : AddrPriority), trackIssuedForChild tick i ap.1 t) t l).
Proof using.
  intros Hi. revert t. induction l as [|ap l IH]; intros t Ht; [done|].
  simpl. apply IH. by apply trackIssuedForChild_ok.
Qed.

Lemma train_children_spec active i cs t cs' addrs t' :
  0 ≤ i → train_children tick pfi cache active i cs t = Ok (cs', addrs, t') →
  Forall2 trained cs cs' ∧
  addrs = (if active <? i then [] else
           match cs !! Z.to_nat (active - i) with Some c => proposals c | None => [] end) ∧
  (∀ n, tracker_ok n t → i + Z.of_nat (length cs) ≤ n → tracker_ok n t').
Proof using.
  revert i t cs' addrs t'. induction cs as [|[nm [d|]] cs IH]; intros i t cs' addrs t' Hi E;
    cbn [train_children] in E.
  - injection E as <- <- <-. split_and!; [constructor| |done]. by destruct (active <? i).
  - apply outcome_bind_ok in E as ([d' tmp] & Ed & E).
    apply outcome_bind_ok in E as ([[cs2 ad2] t2] & Er & E). injection E as <- <- <-.
    apply IH in Er as (Hf & Ha & Ht); [|lia]. split_and!.
    + constructor; [|done]. split; [done|]. simpl. eauto.
    + rewrite Ha. destruct (Z.eqb_spec i active) as [->|Hne].
      * rewrite Z.ltb_irrefl, Z.sub_diag. rewrite (proj2 (Z.ltb_lt _ _)) by lia.
        simpl. unfold proposals. simpl. by rewrite Ed, app_nil_r.
      * destruct (Z.ltb_spec active i); [by rewrite (proj2 (Z.ltb_lt _ _)) by lia|].
        rewrite (proj2 (Z.ltb_ge _ _)) by lia. simpl.
        by replace (Z.to_nat (active - i)) with (S (Z.to_nat (active - (i + 1)))) by lia.
    + intros n Hn Hl. rewrite length_cons in Hl. apply Ht; [|lia]. destruct (i =? active).
      * apply track_all_ok; [lia|done].
      * done.
  - apply outcome_bind_ok in E as ([[cs2 ad2] t2] & Er & E). injection E as <- <- <-.
    apply IH in Er as (Hf & Ha & Ht); [|lia]. split_and!.
    + by constructor.
    + rewrite Ha. destruct (Z.ltb_spec active i); [by rewrite (proj2 (Z.ltb_lt _ _)) by lia|].
      destruct (decide (active = i)) as [->|].
      * rewrite (proj2 (Z.ltb_lt _ _)), Z.sub_diag by lia. done.
      * rewrite (proj2 (Z.ltb_ge _ _)) by lia.
        by replace (Z.to_nat (active - i)) with (S (Z.to_nat (active - (i + 1)))) by lia.
    + intros n Hn Hl. rewrite length_cons in Hl. apply Ht; [done|lia].
Qed.

Lemma train_children_total active i cs t :
  (∀ nm d, (nm, Some d) ∈ cs → is_ok (calculatePrefetch tick pfi cache d)) →
  is_ok (train_children tick pfi cache active i cs t).
Proof using.
  revert i t. induction cs as [|[nm [d|]] cs IH]; intros i t Hc; cbn [train_children].
  - by eexists.
  - destruct (Hc nm d) as [[d' tmp] ->]; [left|]. run_ok.
    destruct (IH (i + 1) (foldl (λ t (ap : AddrPriority), trackIssuedForChild tick i ap.1 t) t
                 (if i =? active then tmp else []))) as [[[cs2 ad2] t2] ->].
    + intros nm' d2 Hin. eapply Hc. by right.
    + by eexists.
  - destruct (IH (i + 1) t) as [[[cs2 ad2] t2] ->].
    + intros nm' d2 Hin. eapply Hc. by right.
    + by eexists.
Qed.
End Training.
