(* ===== verification/MLTheorems.v ===== *)
(** * What the controller guarantees

    The controller with its queue as a transition system (an access, a packet
    request, an MMU answer, the end of an epoch), the invariant of its
    reachable states, and the properties of one epoch, of one access and of
    the Q-table file; then the places where the code does not do what its
    comments say. *)

From Stdlib Require Import ZArith QArith Lia Lqa.
From stdpp Require Import base numbers option list strings gmap sets fin_sets.
From S2P Require Import Prelude Double Interval PrefetchBase PrefetchQueue PrefetchQueueFacts.
From S2P Require Import Tagged QueueTheorems QTable CacheCounters MLController MLFacts.
#[local] Open Scope Z_scope.

(** ** The transition system *)

Section System.
Context (random : nat → Z) (cfg : MLCfg) (qcfg : QueuedCfg).
Context (translateTiming : TransReq → option (option Z)).
Context `{CalculatePrefetch D}.

Record mlsys := mkMlsys { x_base : BaseState; x_q : QState; x_ml : ML D; x_world : World }.

Inductive ml_step : mlsys → mlsys → Prop :=
| ml_access t acc pfi b q m w b' q' m' :
    pkt_wf qcfg (acc_pkt acc) pfi → in_u 64 (pfi_address pfi) →
    ml_notify qcfg t acc pfi (b, (q, m)) = Ok (b', (q', m')) →
    ml_step (mkMlsys b q m w) (mkMlsys b' q' m' w)
| ml_issue t cache b q m w p b' q' :
    getPacket translateTiming qcfg t cache b q = Ok (p, b', q') →
    ml_step (mkMlsys b q m w) (mkMlsys b' q' m w)
| ml_answer t cache loc dp answer b q m w q' :
    (loc, dp) ∈ pfqMissing q → dp_ongoing dp = true →
    finish qcfg t cache loc answer q = Ok q' →
    ml_step (mkMlsys b q m w) (mkMlsys b q' m w)
| ml_epoch i b q m w m' w' :
    inputs_ok (hasCache m) i (miss_hist m) →
    updateModel random cfg i m w = Ok (m', w') →
    ml_step (mkMlsys b q m w) (mkMlsys b q m' w').

Inductive ml_reachable (s0 : mlsys) : mlsys → Prop :=
| ml_start : ml_reachable s0 s0
| ml_more s s' : ml_reachable s0 s → ml_step s s' → ml_reachable s0 s'.

Context (Hrandom : ∀ k, 0 ≤ random k ≤ RAND_MAX) (Hcfg : cfg_ok cfg).
Context (Hsize : 2 ≤ queueSize qcfg) (Hbase : cfg_wf (base_cfg qcfg)).

Definition sys_ok (s : mlsys) : Prop := q_wf qcfg (x_q s) ∧ ml_ok cfg (x_ml s).

Lemma ml_observe_ok pfi (m : ML D) : ml_ok cfg m → ml_ok cfg (ml_observe pfi m).
Proof using.
  intros [H1 H2 H3 H4 H5]. split; try done. simpl.
  destruct (pfi_cacheMiss pfi); [done|]. by apply trackUsefulForAddr_ok.
Qed.

Lemma ml_calculate_ok t pfi cache (m m' : ML D) l :
  ml_ok cfg m → calculatePrefetch t pfi cache m = Ok (m', l) → ml_ok cfg m'.
Proof using.
  intros [H1 H2 H3 H4 H5] E. unfold calculatePrefetch, ml_prefetcher in E.
  apply outcome_bind_ok in E as ([[cs ad] t'] & Et & E). injection E as <- <-.
  apply train_children_spec in Et as (Hf & _ & Ht); [|lia].
  pose proof (Forall2_length _ _ _ Hf) as El. specialize (Ht _ H5 ltac:(lia)).
  split; cbn [set_trained children currentAction miss_hist learner tracker];
    rewrite <-?El; try done.
  intros Hne. apply H2. intros E0. rewrite E0 in El. simpl in El. by destruct cs.
Qed.

Lemma notify_d t acc pfi b q (m : ML D) b' q' m' :
  notify qcfg t acc pfi (b, (q, m)) = Ok (b', (q', m')) →
  ∃ l, calculatePrefetch t pfi (acc_cache acc) m = Ok (m', l).
Proof using.
  unfold notify. intros E. apply outcome_bind_ok in E as ([m2 l] & Ec & E).
  apply outcome_bind_ok in E as (q2 & _ & E). injection E as <- <- <-. by exists l.
Qed.

Lemma schedule_ok t w (m m' : ML D) : ml_ok cfg m → schedule t w m = Ok m' → ml_ok cfg m'.
Proof using.
  intros [H1 H2 H3 H4 H5] E. unfold schedule in E.
  apply outcome_bind_ok in E as (? & _ & E). apply outcome_bind_ok in E as (? & _ & E).
  by injection E as <-.
Qed.

Lemma updateModel_ok i (m m' : ML D) w w' :
  ml_ok cfg m → inputs_ok (hasCache m) i (miss_hist m) →
  updateModel random cfg i m w = Ok (m', w') → ml_ok cfg m'.
Proof using Hrandom Hcfg.
  intros Hm Hi. unfold updateModel.
  assert (ml_ok cfg (unschedule m)) as Hu by by destruct Hm.
  pose proof (endEpoch_ok random Hrandom cfg i (unschedule m) w Hcfg Hu Hi) as (He & _).
  destruct (endEpoch random cfg i (unschedule m) w) as [m1 w1]. cbn [fst] in He.
  intros E. apply outcome_bind_ok in E as (m2 & Es & E). injection E as <- <-.
  by eapply schedule_ok.
Qed.

Lemma ml_step_ok s s' : sys_ok s → ml_step s s' → sys_ok s'.
Proof using Hrandom Hcfg Hsize Hbase.
  intros [Hq Hm] Hs. destruct Hs as [t acc pfi b q m w b' q' m' Hp _ E|t c b q m w p b' q' E
    |t c loc dp a b q m w q' Hin Ho E|i b q m w m' w' Hi E]; cbn [x_q x_ml] in *.
  - unfold ml_notify in E. pose proof (notify_d _ _ _ _ _ _ _ _ _ E) as [l El].
    split; [|by eapply ml_calculate_ok; [apply ml_observe_ok|]].
    assert (is_ok (calculatePrefetch t pfi (acc_cache acc) (ml_observe pfi m))) as Hok
      by (rewrite El; by eexists).
    pose proof (notify_wf qcfg Hsize t acc pfi b q (ml_observe pfi m) Hbase Hp Hq Hok) as Hn.
    rewrite E in Hn. by destruct Hn.
  - pose proof (getPacket_wf qcfg Hsize translateTiming t c b q Hq) as Hn. by rewrite E in Hn.
  - pose proof (finish_wf qcfg Hsize t c loc dp a q Hq Hin Ho) as Hn.
    rewrite E in Hn. by destruct Hn.
  - split; [done|]. by eapply updateModel_ok.
Qed.

Lemma ml_reachable_ok s0 s : sys_ok s0 → ml_reachable s0 s → sys_ok s.
Proof using Hrandom Hcfg Hsize Hbase. intros H0. induction 1; [done|by eapply ml_step_ok]. Qed.
End System.

(** The constructed controller satisfies the invariant. *)
Lemma ml_new_ok {D} (p : MLParams D) t w :
  p_children p ≠ [] → within (p_learning_rate p) 0 1 → within (p_explore_rate p) 0 1 →
  let '(cfg, m, _) := ml_new p t w in cfg_ok cfg ∧ ml_ok cfg m.
Proof.
  intros Hc Hl He. unfold ml_new. cbv zeta. split; [split; simpl|split; simpl].
  - done.
  - apply penalties_penalties_ok.
  - lia.
  - done.
  - intros _. destruct (p_children p) as [|c cs]; [done|]. rewrite length_cons.
    destruct (Z.ltb_spec (p_current_action p) (-1)); simpl; [lia|].
    destruct (Z.leb_spec (Z.of_nat (S (length cs))) (p_current_action p)); lia.
  - split; apply zero_within.
  - split; simpl; [apply map_Forall_empty|apply zero_state_valid|lia|done].
  - apply tracker0_ok.
Qed.

(** ** One cell per epoch *)

(** The value of an action in a state; a state or an action never seen counts 0. *)
Definition q_value (q : qtable) (st : Z) (a : nat) : double :=
  default d0 (q !! st ≫= λ row, row !! a).

Lemma ensure_row_value n q st st' a :
  q_value (ensure_row n q st).2 st' a = q_value q st' a.
Proof.
  unfold q_value. rewrite ensure_row_lookup. destruct (decide (st' = st)) as [->|Hne].
  - rewrite lookup_insert_eq. cbn [mbind option_bind]. unfold ensure_row. cbn [fst].
    destruct (q !! st) as [row|]; cbn [from_option id mbind option_bind].
    + case_match; [|done]. destruct (decide (a < length row)%nat).
      * by rewrite lookup_app_l.
      * rewrite lookup_app_r by lia. rewrite (lookup_ge_None_2 row) by lia.
        destruct (replicate _ _ !! _) eqn:E; [|done]. by apply lookup_replicate_1 in E as [-> _].
    + case_match; [|done]. simpl.
      destruct (replicate _ _ !! _) eqn:E; [|done]. by apply lookup_replicate_1 in E as [-> _].
  - by rewrite lookup_insert_ne.
Qed.

Lemma q_update_value cfg r l st a :
  0 ≤ lastAction l < numActions cfg →
  let old := q_value (qTable l) (lastState l) (Z.to_nat (lastAction l)) in
  q_value (q_update cfg r l) st a
  = if bool_decide (st = lastState l ∧ a = Z.to_nat (lastAction l))
    then dadd old (dmul (learningRate cfg) (dsub r old)) else q_value (qTable l) st a.
Proof.
  intros Ha old. unfold q_update.
  pose proof (ensure_row_value (numActions cfg) (qTable l) (lastState l)) as Hv.
  pose proof (ensure_row_lookup (numActions cfg) (qTable l) (lastState l)) as Hl.
  assert (numActions cfg ≤ Z.of_nat (length (ensure_row (numActions cfg) (qTable l) (lastState l)).1))
    as Hlen.
  { unfold ensure_row. cbn [fst].
    destruct (Z.ltb_spec (Z.of_nat (length (default [] (qTable l !! lastState l)))) (numActions cfg));
      [|done]. rewrite length_app, length_replicate. lia. }
  destruct (ensure_row (numActions cfg) (qTable l) (lastState l)) as [row q]. cbn [fst snd] in *.
  rewrite (proj2 (Z.leb_le _ _)), (proj2 (Z.ltb_lt _ _)) by lia. cbn [andb].
  assert (default d0 (row !! Z.to_nat (lastAction l)) = old) as ->.
  { unfold old. rewrite <-Hv, Hl. unfold q_value. by rewrite lookup_insert_eq. }
  unfold q_value at 1. destruct (decide (st = lastState l)) as [->|Hne].
  - rewrite lookup_insert_eq. cbn [mbind option_bind].
    destruct (decide (a = Z.to_nat (lastAction l))) as [->|Hna].
    + rewrite bool_decide_true, list_lookup_insert_eq by (done || lia). done.
    + rewrite bool_decide_false, list_lookup_insert_ne by naive_solver.
      rewrite <-Hv, Hl. unfold q_value. by rewrite lookup_insert_eq.
  - rewrite lookup_insert_ne, bool_decide_false by naive_solver. rewrite <-Hv. done.
Qed.

(** ** The counters of the cache *)

(** What the controller reads from the cache after the lookups [l] satisfies the
    assumption of the epoch, when it last read it before them. *)
Lemma counters_inputs_ok c l i h :
  Z.of_nat (length l) < 2 ^ 53 →
  lastAccesses h = getRuntimeAccesses c → lastMisses h = getRuntimeMisses c →
  in_accesses i = getRuntimeAccesses (lookups c l) → in_misses i = getRuntimeMisses (lookups c l) →
  u64 (in_accesses i - lastAccesses h) = Z.of_nat (length l) ∧
  u64 (in_misses i - lastMisses h) = Z.of_nat (length (filter (λ b, b = true) l)).
Proof. intros Hl -> -> -> ->. apply lookups_delta. lia. Qed.

(** ** Concrete controllers *)

Definition ex_fs : FileSys := mkFS ∅ (λ _, true).
Definition ex_world : World := mkWorld ex_fs 0 false None 0.
Definition ex_child (d : Z) : Tagged := mkTagged (ex_base false) d.

Definition ex_params (action : Z) : MLParams Tagged :=
  mkMLParams "system.l2.prefetcher" "system.l2"
    [("stride", Some (ex_child 1)); ("tagged", Some (ex_child 2))] action 1000000
    (dlit 2 10) (dlit 5 100) true (Some 0).

Definition ex_mlcfg : MLCfg := (ml_new (ex_params 0) 0 ex_world).1.1.
Definition ex_ml : ML Tagged := (ml_new (ex_params 0) 0 ex_world).1.2.

(** [random()] always at its maximum: the greedy branch is taken. *)
Definition ex_random (_ : nat) : Z := RAND_MAX.

Lemma ex_random_ok k : 0 ≤ ex_random k ≤ RAND_MAX.
Proof. done. Qed.

Lemma ex_ml_ok : cfg_ok ex_mlcfg ∧ ml_ok ex_mlcfg ex_ml.
Proof.
  apply (ml_new_ok (ex_params 0) 0 ex_world); [done| |];
    unfold within; vm_compute; intuition discriminate.
Qed.

Definition ex_inputs : EpochInputs := mkInputs 1000000 500 0 0.

Definition ex_start : mlsys := mkMlsys ex_base_state q_empty ex_ml ex_world.

Definition ex_epoch : mlsys :=
  match updateModel ex_random ex_mlcfg ex_inputs ex_ml ex_world with
  | Ok (m, w) => mkMlsys ex_base_state q_empty m w
  | Stop _ => ex_start
  end.

Lemma ex_epoch_reachable :
  ml_reachable ex_random ex_mlcfg (ex_cfg 4 false) (λ _, None) ex_start ex_epoch.
Proof.
  eapply ml_more; [apply ml_start|]. unfold ex_epoch, ex_start.
  destruct (updateModel ex_random ex_mlcfg ex_inputs ex_ml ex_world) as [[m w]|] eqn:E.
  - apply (ml_epoch _ _ _ _ ex_inputs); [intros H; by vm_compute in H|exact E].
  - by vm_compute in E.
Qed.

(** ** Theorems *)

(** C2: Whatever sequence of accesses, issued packets, MMU answers and epochs a
    controller goes through, for any children: the active action is OFF or one of the
    children, the Q-table has at most 45 states with one value per action
    each, every Q-value stays within [-17/16, 17/16] (no infinity, no NaN), the
    exploration rate is a probability, and the table of tracked prefetches never
    exceeds its limit. *)
Theorem controller_invariant (D : Type) (HD : CalculatePrefetch D) (random : nat → Z)
    (cfg : MLCfg) (qcfg : QueuedCfg) (translateTiming : TransReq → option (option Z))
    (s0 s : @mlsys D) :
  (∀ k, 0 ≤ random k ≤ RAND_MAX) → cfg_ok cfg → 2 ≤ queueSize qcfg → cfg_wf (base_cfg qcfg) →
  q_wf qcfg (x_q s0) → ml_ok cfg (x_ml s0) →
  ml_reachable random cfg qcfg translateTiming s0 s →
  let m := x_ml s in
  (children m ≠ [] → -1 ≤ currentAction m < Z.of_nat (length (children m))) ∧
  (size (qTable (learner m)) ≤ 45)%nat ∧
  (∀ st row, qTable (learner m) !! st = Some row →
     Z.of_nat (length row) = numActions cfg ∧
     Forall (λ x, dok x = true ∧ (- (17 # 16) <= dval x)%Q ∧ (dval x <= 17 # 16)%Q) row) ∧
  (dok (exploreRate (learner m)) = true ∧ (0 <= dval (exploreRate (learner m)))%Q ∧
   (dval (exploreRate (learner m)) <= 1)%Q) ∧
  Z.of_nat (size (childPfTable (tracker m))) ≤ MaxTrackedPrefetches.
Proof.
  intros Hr Hc Hs Hb Hq Hm Hreach.
  destruct (ml_reachable_ok random cfg qcfg translateTiming Hr Hc Hs Hb s0 s (conj Hq Hm) Hreach)
    as [_ [H1 H2 H3 [L1 L2 L3 L4] H5]].
  split; [done|]. split; [by eapply table_ok_size|].
  split; [|split; [done|by apply H5]].
  intros st row Hrow. by apply L1 in Hrow as [_ [El Ev]].
Qed.

Lemma controller_invariant_witness :
  (size (qTable (learner (x_ml ex_epoch))) ≤ 45)%nat ∧
  map_to_list (qTable (learner (x_ml ex_epoch))) ≠ [].
Proof.
  split; [|by vm_compute].
  exact (proj1 (proj2 (controller_invariant Tagged _ ex_random ex_mlcfg (ex_cfg 4 false)
    (λ _, None) ex_start ex_epoch ex_random_ok (proj1 ex_ml_ok) ltac:(done) (ex_base_wf false)
    (q_empty_wf (ex_cfg 4 false) ltac:(done)) (proj2 ex_ml_ok) ex_epoch_reachable))).
Defined.

(** The whole callback of the epoch's event. *)
Lemma updateModel_total (D : Type) (random : nat → Z) (cfg : MLCfg) (i : EpochInputs) (m : ML D)
    (w : World) :
  (∀ k, 0 ≤ random k ≤ RAND_MAX) → cfg_ok cfg → ml_ok cfg m →
  inputs_ok (hasCache m) i (miss_hist m) →
  0 ≤ in_tick i → 0 ≤ epoch_ticks cfg → in_tick i + epoch_ticks cfg < 2 ^ 64 →
  ∃ m' w', updateModel random cfg i m w = Ok (m', w') ∧
    update_event m' = Some (in_tick i + epoch_ticks cfg) ∧
    dok (lastReward (learner m')) = true ∧
    (- (33 # 32) <= dval (lastReward (learner m')))%Q ∧ (dval (lastReward (learner m')) <= 1)%Q ∧
    (dval EXPLORE_MIN <= dval (exploreRate (learner m')))%Q ∧
    children m' = children m ∧ tracker m' = tracker m.
Proof.
  intros Hr Hc Hm Hi Ht He Hov. unfold updateModel.
  assert (ml_ok cfg (unschedule m)) as Hu by by destruct Hm.
  pose proof (endEpoch_ok random Hr cfg i (unschedule m) w Hc Hu Hi)
    as (_ & (R1 & R2 & R3) & (_ & E1 & _)).
  assert (update_event (endEpoch random cfg i (unschedule m) w).1 = None ∧
          children (endEpoch random cfg i (unschedule m) w).1 = children m ∧
          tracker (endEpoch random cfg i (unschedule m) w).1 = tracker m) as (Ev & Ech & Etr).
  { unfold endEpoch. by repeat case_match. }
  destruct (endEpoch random cfg i (unschedule m) w) as [m1 w1]. cbn [fst] in *.
  rewrite wrap_id by in_word. unfold schedule.
  rewrite (proj2 (Z.leb_le _ _)) by lia. rewrite Ev. cbn [assert_that mbind outcome_bind].
  rewrite bool_decide_false by (by intros [? ?]). cbn [negb mbind outcome_bind].
  eexists _, _. split; [done|]. cbn. done.
Qed.

(** C5: The end of an epoch never stops the simulation: with the next epoch's
    time representable, [updateModel] returns, the next update is scheduled one
    epoch later, the reward it computed lies in [-33/32, 1], and the
    exploration rate has not fallen below [EXPLORE_MIN]. *)
Theorem epoch_completes (D : Type) (random : nat → Z) (cfg : MLCfg) (i : EpochInputs) (m : ML D)
    (w : World) :
  (∀ k, 0 ≤ random k ≤ RAND_MAX) → cfg_ok cfg → ml_ok cfg m →
  inputs_ok (hasCache m) i (miss_hist m) →
  0 ≤ in_tick i → 0 ≤ epoch_ticks cfg → in_tick i + epoch_ticks cfg < 2 ^ 64 →
  ∃ m' w', updateModel random cfg i m w = Ok (m', w') ∧
    update_event m' = Some (in_tick i + epoch_ticks cfg) ∧
    dok (lastReward (learner m')) = true ∧
    (- (33 # 32) <= dval (lastReward (learner m')))%Q ∧ (dval (lastReward (learner m')) <= 1)%Q ∧
    (dval EXPLORE_MIN <= dval (exploreRate (learner m')))%Q ∧
    children m' = children m ∧ tracker m' = tracker m.
Proof. apply updateModel_total. Qed.

Lemma epoch_completes_witness :
  ∃ m' w', updateModel ex_random ex_mlcfg ex_inputs ex_ml ex_world = Ok (m', w') ∧
    update_event m' = Some 2000000.
Proof.
  destruct (epoch_completes Tagged ex_random ex_mlcfg ex_inputs ex_ml ex_world ex_random_ok
    (proj1 ex_ml_ok) (proj2 ex_ml_ok) ltac:(intros H; by vm_compute in H) ltac:(done) ltac:(done)
    ltac:(done)) as (m' & w' & E & Ev & _).
  exists m', w'. split; assumption.
Defined.

(** C7: The bandit update of an epoch moves exactly one value: that of the last
    action in the last state, by the learning rate towards the reward; the
    value of every other action and state is unchanged (rows that are created or
    extended get zeros, the value an unseen action counts with). *)
Theorem update_moves_one_value (cfg : MLCfg) (r : double) (l : Learner) (st : Z) (a : nat) :
  0 ≤ lastAction l < numActions cfg →
  let old := q_value (qTable l) (lastState l) (Z.to_nat (lastAction l)) in
  q_value (q_update cfg r l) st a
  = if bool_decide (st = lastState l ∧ a = Z.to_nat (lastAction l))
    then dadd old (dmul (learningRate cfg) (dsub r old)) else q_value (qTable l) st a.
Proof. apply q_update_value. Qed.

Lemma update_moves_one_value_witness :
  q_value (q_update ex_mlcfg d1 (learner ex_ml)) 0 0 = dlit 2 10 ∧
  q_value (q_update ex_mlcfg d1 (learner ex_ml)) 0 1 = d0.
Proof.
  split.
  - rewrite (update_moves_one_value ex_mlcfg d1 (learner ex_ml) 0 0 ltac:(done)).
    by vm_compute.
  - rewrite (update_moves_one_value ex_mlcfg d1 (learner ex_ml) 0 1 ltac:(done)).
    by vm_compute.
Defined.

(** C35: Outside exploration [selectAction] returns the first action whose value
    in the row of the state is the largest: no value of the row exceeds it, and
    every earlier value is smaller. *)
Theorem selectAction_greedy (random : nat → Z) (cfg : MLCfg) (st : Z) (l : Learner) (rng : nat) :
  0 < numActions cfg → learner_ok cfg l → st ∈ valid_states →
  dltb (ddiv (d_of_Z (random rng)) (d_of_Z RAND_MAX)) (exploreRate l) = false →
  let '(idx, l', rng') := selectAction random cfg st l rng in
  rng' = S rng ∧ 0 ≤ idx < numActions cfg ∧
  ∃ row v, qTable l' !! st = Some row ∧ row !! Z.to_nat idx = Some v ∧
    Forall (λ x, (dval x <= dval v)%Q) row ∧
    (∀ j x, row !! j = Some x → Z.of_nat j < idx → (dval x < dval v)%Q).
Proof.
  intros Hn [Ht Hs Ha He] Hst Hr. unfold selectAction.
  destruct (ensure_row_ok (numActions cfg) (qTable l) st ltac:(lia) Ht Hst) as [[Hl Hv] _].
  pose proof (ensure_row_lookup (numActions cfg) (qTable l) st) as Hlk.
  destruct (ensure_row (numActions cfg) (qTable l) st) as [row q]. cbn [fst snd] in *.
  cbn [set_qTable exploreRate]. rewrite Hr. split; [done|].
  destruct (greedy_spec (numActions cfg) row) as [Hb (v & Hrow & Hmax & Hfirst)]; [done|done| |].
  { eapply Forall_impl; [exact Hv|]. intros x [? _]. done. }
  split; [done|]. exists row, v. split_and!; [|done|done|done].
  simpl. rewrite Hlk. apply lookup_insert_eq.
Qed.

Lemma selectAction_greedy_witness :
  ∃ idx l', selectAction ex_random ex_mlcfg 0 (learner ex_ml) 0 = (idx, l', 1%nat) ∧ idx = 0.
Proof.
  pose proof (selectAction_greedy ex_random ex_mlcfg 0 (learner ex_ml) 0 ltac:(done)
    (mo_learner _ _ (proj2 ex_ml_ok)) zero_state_valid ltac:(by vm_compute)) as H.
  destruct (selectAction ex_random ex_mlcfg 0 (learner ex_ml) 0) as [[idx l'] rng'] eqn:E.
  destruct H as (-> & _). exists idx, l'. split; [done|].
  vm_compute in E. by injection E.
Defined.

(** C8: An access trains every child, whichever is active, and hands to the
    queue exactly the candidates of the active child (none when the controller
    is OFF): the children's next states do not depend on the choice. *)
Theorem all_children_trained (D : Type) (HD : CalculatePrefetch D) (t : Z) (pfi : PrefetchInfo)
    (cache : CacheAccessor) (m m' : ML D) (addrs : list AddrPriority) :
  calculatePrefetch t pfi cache m = Ok (m', addrs) →
  Forall2 (trained t pfi cache) (children m) (children m') ∧
  addrs = (if currentAction m <? 0 then [] else
           match children m !! Z.to_nat (currentAction m) with
           | Some c => proposals t pfi cache c
           | None => []
           end) ∧
  currentAction m' = currentAction m ∧ learner m' = learner m.
Proof.
  intros E. unfold calculatePrefetch, ml_prefetcher in E.
  apply outcome_bind_ok in E as ([[cs ad] t'] & Et & E). injection E as <- <-.
  apply train_children_spec in Et as (Hf & Ha & _); [|lia].
  rewrite Z.sub_0_r in Ha. done.
Qed.

Lemma all_children_trained_witness :
  ∃ m' addrs, calculatePrefetch 0 (ex_pfi 8192) ex_cache ex_ml = Ok (m', addrs) ∧
    addrs = [(8256, 0)].
Proof.
  destruct (calculatePrefetch 0 (ex_pfi 8192) ex_cache ex_ml) as [[m' addrs]|] eqn:E.
  - exists m', addrs. split; [done|].
    destruct (all_children_trained Tagged _ 0 (ex_pfi 8192) ex_cache ex_ml m' addrs E)
      as (_ & Ha & _). rewrite Ha. by vm_compute.
  - by vm_compute in E.
Defined.

(** C6: The Q-table survives a run of the simulator: a controller with the same
    children that finds the file written by [saveQTable] has, after
    [loadQTable], exactly the saved table, bit for bit. *)
Theorem qtable_file_roundtrip (D : Type) (cfg : MLCfg) (m m2 : ML D) (fs : FileSys) :
  fs_writable fs (qfileName cfg) = true → (children m2).*1 = (children m).*1 →
  Z.of_nat (length (string_bytes (childrenSignature (children m).*1))) < 2 ^ 32 →
  Z.of_nat (size (qTable (learner m))) < 2 ^ 64 → q_ok (qTable (learner m)) →
  ∃ m', ml_load cfg (saveQTable (qfileName cfg) (children m).*1 (qTable (learner m)) fs) m2
        = Some m' ∧
    qTable (learner m') = qTable (learner m) ∧ qtableLoaded m' = true ∧
    children m' = children m2 ∧ currentAction m' = currentAction m2.
Proof.
  intros Hw Hn Hs Hz Hq. unfold ml_load, saveQTable. rewrite Hw. cbn [fs_files].
  rewrite lookup_insert_eq, Hn, (load_saved _ _ Hs Hz Hq). by eexists.
Qed.

Lemma qtable_file_roundtrip_witness :
  ∃ m', ml_load ex_mlcfg
          (saveQTable (qfileName ex_mlcfg) (children (x_ml ex_epoch)).*1
             (qTable (learner (x_ml ex_epoch))) ex_fs) ex_ml = Some m' ∧
        qTable (learner m') = qTable (learner (x_ml ex_epoch)).
Proof.
  destruct (qtable_file_roundtrip Tagged ex_mlcfg (x_ml ex_epoch) ex_ml ex_fs) as (m' & E & Eq & _).
  - done.
  - by vm_compute.
  - by vm_compute.
  - by vm_compute.
  - intros st row Hr.
    assert ((st, row) ∈ map_to_list (qTable (learner (x_ml ex_epoch)))) as Hin
      by by apply elem_of_map_to_list.
    unfold entry_ok, in_u. cbn [fst snd].
    set (l := map_to_list _) in Hin. vm_compute in l. subst l.
    repeat (apply elem_of_cons in Hin as [Hin|Hin];
      [injection Hin as -> ->; split; [lia|split; [done|by repeat constructor]]|]).
    destruct (not_elem_of_nil _ Hin).
  - exists m'. split; [exact E|exact Eq].
Defined.

(** C37: A Q-table file cut short anywhere is rejected: the controller goes on
    with its previous table or with an empty one, never with part of the saved
    one. *)
Theorem truncated_file_rejected (names : list string) (q q0 : qtable) (bs : bytes) :
  Z.of_nat (length (string_bytes (childrenSignature names))) < 2 ^ 32 →
  Z.of_nat (size q) < 2 ^ 64 → q_ok q →
  bs `prefix_of` qtable_bytes (string_bytes (childrenSignature names)) q →
  (length bs < length (qtable_bytes (string_bytes (childrenSignature names)) q))%nat →
  ∃ r q', loadQTable (Some bs) names q0 = Some (r, q') ∧ r ≠ Loaded ∧ (q' = q0 ∨ q' = ∅).
Proof. intros Hs Hz Hq Hp Hl. by apply (load_truncated names q Hs Hz Hq q0 bs). Qed.

Lemma truncated_file_rejected_witness :
  let q : qtable := {[ 7 := [d0; d1] ]} in
  ∃ r q', loadQTable (Some (take 40 (qtable_bytes (string_bytes (childrenSignature ["a"])) q)))
            ["a"] ∅ = Some (r, q') ∧ r ≠ Loaded ∧ (q' = ∅ ∨ q' = ∅).
Proof.
  intros q. apply (truncated_file_rejected ["a"] q ∅); [by vm_compute|by vm_compute| | |].
  - apply map_Forall_singleton. split; [done|]. split; [done|by repeat constructor].
  - apply prefix_take.
  - vm_compute. lia.
Defined.

(** [loadQTable] returns on every file, however damaged: it loads a table,
    keeps the one it had, or leaves an empty one, and every number in the
    resulting table is a valid double. *)
Theorem load_any_file (bs : bytes) (names : list string) (q0 : qtable) :
  Forall is_byte bs → map_Forall (λ _ row, Forall (λ x, dvalid x = true) row) q0 →
  ∃ r q', loadQTable (Some bs) names q0 = Some (r, q') ∧
    (r = Loaded ∨ q' = q0 ∨ q' = ∅) ∧
    map_Forall (λ _ row, Forall (λ x, dvalid x = true) row) q'.
Proof. apply load_total. Qed.

Lemma load_any_file_witness :
  ∃ r q', loadQTable (Some [2; 0; 0; 0; 97; 59; 255; 255; 255; 255; 255; 255; 255; 255; 1]) ["a"] ∅
          = Some (r, q') ∧ (r = Loaded ∨ q' = ∅ ∨ q' = ∅).
Proof.
  destruct (load_any_file [2; 0; 0; 0; 97; 59; 255; 255; 255; 255; 255; 255; 255; 255; 1] ["a"] ∅)
    as (r & q' & E & H & _).
  - unfold is_byte. repeat constructor; lia.
  - apply map_Forall_empty.
  - by exists r, q'.
Defined.

(** C36: The per-child statistics are consistent: a child is never credited with
    more useful prefetches than candidates of its own that were recorded (issued or
    redundant), and with at most four children the useful prefetches in all never
    exceed the issued ones. *)
Theorem tracking_accounting (D : Type) (HD : CalculatePrefetch D) (random : nat → Z)
    (cfg : MLCfg) (qcfg : QueuedCfg) (translateTiming : TransReq → option (option Z))
    (s0 s : @mlsys D) :
  (∀ k, 0 ≤ random k ≤ RAND_MAX) → cfg_ok cfg → 2 ≤ queueSize qcfg → cfg_wf (base_cfg qcfg) →
  q_wf qcfg (x_q s0) → ml_ok cfg (x_ml s0) →
  ml_reachable random cfg qcfg translateTiming s0 s →
  let t := tracker (x_ml s) in
  (∀ i, 0 ≤ i ≤ 3 →
     four_get i (pfUsefulBy t) ≤ four_get i (pfIssuedBy t) + four_get i (pfRedundantBy t)) ∧
  (Z.of_nat (length (children (x_ml s))) ≤ 4 →
     four_sum (pfUsefulBy t) ≤ four_sum (pfIssuedBy t)).
Proof.
  intros Hr Hc Hs Hb Hq Hm Hreach.
  destruct (ml_reachable_ok random cfg qcfg translateTiming Hr Hc Hs Hb s0 s (conj Hq Hm) Hreach)
    as [_ [_ _ _ _ [_ _ Hch Htot]]].
  split.
  - intros i Hi. specialize (Hch i Hi).
    pose proof (count_nonneg i (childPfTable (tracker (x_ml s)))). lia.
  - intros Hn. specialize (Htot Hn). lia.
Qed.

Lemma tracking_accounting_witness :
  four_sum (pfUsefulBy (tracker (x_ml ex_epoch))) ≤ four_sum (pfIssuedBy (tracker (x_ml ex_epoch))).
Proof.
  apply (proj2 (tracking_accounting Tagged _ ex_random ex_mlcfg (ex_cfg 4 false)
    (λ _, None) ex_start ex_epoch ex_random_ok (proj1 ex_ml_ok) ltac:(done) (ex_base_wf false)
    (q_empty_wf (ex_cfg 4 false) ltac:(done)) (proj2 ex_ml_ok) ex_epoch_reachable)).
  by vm_compute.
Defined.

Lemma if_mono (b b' : bool) (x y y' : Z) :
  (b' = true → b = true) → x ≤ y' → y ≤ y' →
  (if b then x else y) ≤ (if b' then x else y').
Proof. destruct b, b'; intros H H1 H2; [lia|lia|by discriminate H|lia]. Qed.

Lemma dltb_anti x y t :
  dok x = true → dok y = true → dok t = true → (dval x <= dval y)%Q →
  dltb y t = true → dltb x t = true.
Proof. intros Hx Hy Ht Hle. rewrite !dltb_spec by done. lra. Qed.

Lemma dleb_anti x y t :
  dok x = true → dok y = true → dok t = true → (dval x <= dval y)%Q →
  dleb y t = true → dleb x t = true.
Proof. intros Hx Hy Ht Hle. rewrite !dleb_spec by done. lra. Qed.

(** The discretisation is faithful to the order of what it discretises: a
    larger change of the miss rate, a larger change of the IPC and a larger
    accuracy never get a smaller bin, and the three bins are the decimal digits
    of the state, so different bins are different states. *)
Theorem discretisation_monotone (x y : double) (dm di a : double) :
  dok x = true → dok y = true → (dval x <= dval y)%Q →
  encodeDeltaMiss x ≤ encodeDeltaMiss y ∧ encodeDeltaIpc x ≤ encodeDeltaIpc y ∧
  encodeAccuracy x ≤ encodeAccuracy y ∧
  epoch_state dm di a / 100 = encodeAccuracy a ∧
  epoch_state dm di a / 10 mod 10 = encodeDeltaMiss dm ∧
  epoch_state dm di a mod 10 = encodeDeltaIpc di.
Proof.
  intros Hx Hy Hle.
  assert (∀ t, dok t = true → dltb y t = true → dltb x t = true) as Hlt
    by (intros t Ht; by apply dltb_anti).
  assert (∀ t, dok t = true → dleb y t = true → dleb x t = true) as Hlb
    by (intros t Ht; by apply dleb_anti).
  split; [|split; [|split]].
  - unfold encodeDeltaMiss. repeat apply if_mono; try (by apply Hlt); repeat case_match; lia.
  - unfold encodeDeltaIpc. repeat apply if_mono; try (by apply Hlt); repeat case_match; lia.
  - unfold encodeAccuracy. repeat apply if_mono; try (by apply Hlb); repeat case_match; lia.
  - rewrite epoch_state_code. unfold state_code.
    destruct (encode_ranges dm di a) as (H1 & H2 & H3).
    set (A := encodeAccuracy a) in *. set (M := encodeDeltaMiss dm) in *.
    set (I := encodeDeltaIpc di) in *. clearbody A M I.
    split_and!; Z.div_mod_to_equations; lia.
Qed.

Lemma discretisation_monotone_witness :
  encodeDeltaMiss (dlit (-5) 100) ≤ encodeDeltaMiss (dlit 5 100) ∧
  encodeDeltaMiss (dlit (-5) 100) = 1 ∧ encodeDeltaMiss (dlit 5 100) = 3.
Proof.
  split; [|by vm_compute].
  exact (proj1 (discretisation_monotone (dlit (-5) 100) (dlit 5 100) d0 d0 d0 eq_refl eq_refl
    ltac:(by vm_compute))).
Defined.

(** The miss rate of an epoch is the rounded quotient of the misses by the
    lookups the cache counted since the controller last read its counters, and
    lies in [0, 1]; the 64-bit differences are right even when the counters
    have wrapped around. *)
Theorem missRate_is_ratio (c : CacheCounters) (l : list bool) (i : EpochInputs) (h : MissHist) :
  0 < Z.of_nat (length l) < 2 ^ 53 →
  lastAccesses h = getRuntimeAccesses c → lastMisses h = getRuntimeMisses c →
  in_accesses i = getRuntimeAccesses (lookups c l) → in_misses i = getRuntimeMisses (lookups c l) →
  let misses := Z.of_nat (length (filter (λ b, b = true) l)) in
  let rate := (epoch_missRate true i h).1 in
  rounds rate (inject_Z misses / inject_Z (Z.of_nat (length l)))%Q ∧
  dok rate = true ∧ (0 <= dval rate)%Q ∧ (dval rate <= 1)%Q ∧ inputs_ok true i h.
Proof.
  intros Hl H1 H2 H3 H4 misses rate.
  destruct (counters_inputs_ok c l i h ltac:(lia) H1 H2 H3 H4) as [EA EM].
  pose proof (length_filter (λ b : bool, b = true) l) as Hf.
  assert (rate = ddiv (d_of_Z misses) (d_of_Z (Z.of_nat (length l)))) as ->.
  { unfold rate, epoch_missRate. rewrite EA, EM. cbn [fst].
    by rewrite (proj2 (Z.ltb_lt _ _)) by lia. }
  destruct (d_of_Z_exact misses ltac:(lia)) as [Om Em].
  destruct (d_of_Z_exact (Z.of_nat (length l)) ltac:(lia)) as [On En].
  split; [|split; [|split; [|split]]].
  - eapply rounds_ext; [|apply ddiv_rounds]; [|done|done|].
    + by rewrite Em, En.
    + rewrite En. change 0%Q with (inject_Z 0). rewrite inject_Z_injective. lia.
  - by apply (count_ratio misses (Z.of_nat (length l))); lia.
  - by apply (count_ratio misses (Z.of_nat (length l))); lia.
  - by apply (count_ratio misses (Z.of_nat (length l))); lia.
  - intros _. rewrite EA, EM. lia.
Qed.

Lemma missRate_is_ratio_witness :
  let c := mkCounters (2 ^ 64 - 1) 3 0 in
  let l := [true; false; false; true] in
  let i := mkInputs 0 0 (getRuntimeAccesses (lookups c l)) (getRuntimeMisses (lookups c l)) in
  let h := mkMissHist (2 ^ 64 - 1) 3 d0 d0 d0 false in
  dok (epoch_missRate true i h).1 = true ∧ (epoch_missRate true i h).1 = dlit 1 2.
Proof.
  intros c l i h. split; [|by vm_compute].
  exact (proj1 (proj2 (missRate_is_ratio c l i h ltac:(simpl; lia) eq_refl eq_refl eq_refl eq_refl))).
Defined.

(** With a learning rate of zero the Q-table is frozen: no epoch changes the
    number any value represents. *)
Theorem zero_rate_freezes (cfg : MLCfg) (r : double) (l : Learner) (st : Z) (a : nat) :
  learningRate cfg = d0 → 0 ≤ lastAction l < numActions cfg →
  dok (dsub r (q_value (qTable l) (lastState l) (Z.to_nat (lastAction l)))) = true →
  dok (q_value (qTable l) (lastState l) (Z.to_nat (lastAction l))) = true →
  (dval (q_value (q_update cfg r l) st a) == dval (q_value (qTable l) st a))%Q.
Proof.
  intros Hr Ha Hd Ho. rewrite (q_update_value cfg r l st a Ha).
  case_bool_decide as Hc; [|reflexivity]. destruct Hc as [-> ->]. rewrite Hr.
  set (old := q_value _ _ _) in *. set (d := dsub r old) in *.
  assert (dok (dmul d0 d) = true ∧ dval (dmul d0 d) == 0)%Q as [Om Em].
  { pose proof (dmul_rounds d0 d eq_refl Hd) as Hm.
    assert (dval d0 * dval d == dval d0)%Q as E0 by (rewrite dval_d0; ring).
    apply (rounds_exact (dmul d0 d) d0); [|done]. by eapply rounds_ext. }
  pose proof (dadd_rounds old (dmul d0 d) Ho Om) as Hs.
  apply (rounds_exact (dadd old (dmul d0 d)) old); [|done].
  eapply rounds_ext; [|exact Hs]. rewrite Em. ring.
Qed.

Lemma zero_rate_freezes_witness :
  let cfg := mkMLCfg "" 2 1 d0 [d0; d0] false true "f" in
  let l := mkLearner {[ 3 := [dlit 1 2; d1] ]} 3 1 d0 d0 in
  (dval (q_value (q_update cfg (dlit (-1) 2) l) 3 1) == dval (q_value (qTable l) 3 1))%Q.
Proof.
  intros cfg l. exact (zero_rate_freezes cfg (dlit (-1) 2) l 3 1 eq_refl ltac:(simpl; lia)
    ltac:(by vm_compute) ltac:(by vm_compute)).
Defined.

(** ** Where the controller departs from its comments *)

(** The penalty of the OFF action is zero only with three or more children:
    with one child OFF carries the 0.02 meant for a second prefetcher, with two
    children the 0.03 meant for a third. *)
Theorem off_action_penalised (D : Type) (p : MLParams D) (t : Z) (w : World) :
  let cfg := (ml_new p t w).1.1 in
  actionPenalties cfg !! Z.to_nat (numActions cfg - 1)
  = Some (match length (p_children p) with
          | 1%nat => dlit 2 100
          | 2%nat => dlit 3 100
          | _ => d0
          end).
Proof.
  simpl. rewrite Z.add_simpl_r, Nat2Z.id. unfold penalties.
  destruct (p_children p) as [|c1 [|c2 [|c3 cs]]]; try done.
  set (n := length (c1 :: c2 :: c3 :: cs)).
  assert (3 ≤ n)%nat as Hn by (subst n; simpl; lia). cbv zeta.
  rewrite (proj2 (Z.leb_le 2 _)), (proj2 (Z.leb_le 3 _)) by lia.
  rewrite !list_lookup_insert_ne by lia.
  rewrite lookup_replicate_2 by lia. done.
Qed.



(** A sequence of probe events, each with whether it was a miss. *)
Fixpoint probe_all `{CalculatePrefetch D} (qcfg : QueuedCfg) (t : Z)
    (l : list (CacheAccessProbeArg * bool)) (st : BaseState * (QState * ML D))
    : outcome (BaseState * (QState * ML D)) :=
  match l with
  | [] => Ok st
  | (acc, miss) :: l' =>
      st ← probeNotify (ml_notify qcfg t) (base_cfg qcfg) acc miss st;
      probe_all qcfg t l' st
  end.

Lemma train_children_useful `{CalculatePrefetch D} t pfi cache active i cs tr cs' ad tr' :
  train_children t pfi cache active i cs tr = Ok (cs', ad, tr') → pfUsefulBy tr' = pfUsefulBy tr.
Proof.
  assert (∀ i (l : list AddrPriority) tr,
    pfUsefulBy (foldl (λ t' ap, trackIssuedForChild t i ap.1 t') tr l) = pfUsefulBy tr) as Hf.
  { intros j l. induction l as [|ap l IH]; intros tr0; [done|]. simpl. rewrite IH.
    unfold trackIssuedForChild. by repeat case_match. }
  revert i tr cs' ad tr'. induction cs as [|[nm [d|]] cs IH]; intros i tr cs' ad tr' E;
    cbn [train_children] in E.
  - by injection E as <- <- <-.
  - apply outcome_bind_ok in E as ([d' tmp] & _ & E).
    apply outcome_bind_ok in E as ([[cs2 ad2] t2] & Er & E). injection E as <- <- <-.
    apply IH in Er. by rewrite Er, Hf.
  - apply outcome_bind_ok in E as ([[cs2 ad2] t2] & Er & E). injection E as <- <- <-.
    by apply IH in Er.
Qed.

Lemma miss_keeps_useful `{CalculatePrefetch D} qcfg t acc pfi b q (m : ML D) b' q' m' :
  pfi_cacheMiss pfi = true → ml_notify qcfg t acc pfi (b, (q, m)) = Ok (b', (q', m')) →
  pfUsefulBy (tracker m') = pfUsefulBy (tracker m).
Proof.
  intros Hm E. unfold ml_notify in E. apply notify_d in E as [l E].
  unfold calculatePrefetch, ml_prefetcher in E.
  apply outcome_bind_ok in E as ([[cs ad] tr] & Et & E). injection E as <- <-. simpl.
  apply train_children_useful in Et. rewrite Et. unfold ml_observe. by rewrite Hm.
Qed.



(** A child can be credited with more useful prefetches than it issued: a
    candidate that another child had already recorded is attributed anew. *)
Example useful_without_issued :
  let t := trackUsefulForAddr 64
             (trackIssuedForChild 0 1 64
                (trackIssuedForChild 0 0 64 (mkTracker ∅ four0 four0 four0))) in
  c1 (pfUsefulBy t) = 1 ∧ c1 (pfIssuedBy t) = 0.
Proof. by vm_compute. Qed.
