(* ===== verification/MLWords.v ===== *)
(** * The controller's machine words

    The members of the controller have C++ types: counters, ticks and addresses of 64 bits,
    actions that are [int].  The theorem ([controller_words]) is that in every state the
    controller reaches, every member holds a value of its type: the model's integers are the
    words the program computes with. *)

From Stdlib Require Import ZArith QArith Lia.
From stdpp Require Import base numbers option list strings gmap.
From S2P Require Import Prelude Double Interval PrefetchBase PrefetchQueue PrefetchQueueFacts Children Tagged QueueTheorems.
From S2P Require Import QTable MLController MLFacts MLTheorems.
#[local] Open Scope Z_scope.

(** ** Values of the right type *)

Definition meta_words (a : Z) (m : ChildPfMeta) : Prop := in_u 64 a ∧ in_s 32 (actionIndex m) ∧ in_u 64 (issueTick m).

Record words {D} (m : ML D) (w : World) : Prop := {
  w_accesses : in_u 64 (epochAccesses m);
  w_misses : in_u 64 (epochMisses m);
  w_lastAccesses : in_u 64 (lastAccesses (miss_hist m));
  w_lastMisses : in_u 64 (lastMisses (miss_hist m));
  w_lastOps : in_u 64 (lastTotalOps (ipc_hist m));
  w_lastTick : in_u 64 (lastIpcTick (ipc_hist m));
  w_lastState : in_u 64 (lastState (learner m));
  w_lastAction : in_s 32 (lastAction (learner m));
  w_current : in_s 32 (currentAction m);
  w_tracked : map_Forall meta_words (childPfTable (tracker m));
  w_event : from_option (in_u 64) True (update_event m);
  w_count : in_u 64 (w_epoch w)
}.

(** The inputs of a step. *)
Definition input_words (i : EpochInputs) : Prop := in_u 64 (in_tick i) ∧ in_u 64 (in_ops i) ∧ in_u 64 (in_accesses i) ∧ in_u 64 (in_misses i).

Section Words.
Context {D : Type} `{CalculatePrefetch D}.
Context (random : nat → Z) (cfg : MLCfg) (qcfg : QueuedCfg) (translateTiming : TransReq → option (option Z)).

(** The candidates of the children are addresses. *)
Definition children_words : Prop :=
  ∀ t pfi cache (d d' : D) l, calculatePrefetch t pfi cache d = Ok (d', l) → Forall (λ ap, in_u 64 ap.1) l.

(** The steps of the system, with inputs of the right types. *)
Inductive word_step : @mlsys D → @mlsys D → Prop :=
| ws_access t acc pfi b q m w b' q' m' :
    in_u 64 t → pkt_wf qcfg (acc_pkt acc) pfi → in_u 64 (pfi_address pfi) →
    ml_notify qcfg t acc pfi (b, (q, m)) = Ok (b', (q', m')) →
    word_step (mkMlsys b q m w) (mkMlsys b' q' m' w)
| ws_queue s s' : ml_step random cfg qcfg translateTiming s s' → x_ml s' = x_ml s → x_world s' = x_world s → word_step s s'
| ws_epoch i b q m w m' w' :
    input_words i → inputs_ok (hasCache m) i (miss_hist m) →
    updateModel random cfg i m w = Ok (m', w') →
    word_step (mkMlsys b q m w) (mkMlsys b q m' w').

Inductive word_reachable (s0 : @mlsys D) : @mlsys D → Prop :=
| wr_start : word_reachable s0 s0
| wr_more s s' : word_reachable s0 s → word_step s s' → word_reachable s0 s'.

Context (Hchildren : children_words).
Context (Hrandom : ∀ k, 0 ≤ random k ≤ RAND_MAX) (Hcfg : cfg_ok cfg) (Hsmall : numActions cfg < 2 ^ 31).
Context (Hsize : 2 ≤ queueSize qcfg) (Hbase : cfg_wf (base_cfg qcfg)).

Lemma track_words t i a tr :
  in_u 64 t → in_s 32 i → in_u 64 a → map_Forall meta_words (childPfTable tr) → map_Forall meta_words (childPfTable (trackIssuedForChild t i a tr)).
Proof.
  intros Ht Hi Ha Htr. unfold trackIssuedForChild. destruct (i <? 0); [done|].
  assert (∀ tbl, map_Forall meta_words tbl → map_Forall meta_words (<[a := mkMeta i t]> tbl)) as Hins by (intros tbl Htbl; by apply map_Forall_insert_2).
  destruct (MaxTrackedPrefetches <=? _).
  - rewrite lookup_empty. apply Hins, map_Forall_empty.
  - destruct (childPfTable tr !! a); by apply Hins.
Qed.

Lemma tracks_words t i (l : list AddrPriority) : in_u 64 t → in_s 32 i → Forall (λ ap, in_u 64 ap.1) l → ∀ tr,
  map_Forall meta_words (childPfTable tr) →
  map_Forall meta_words (childPfTable (foldl (λ tr ap, trackIssuedForChild t i ap.1 tr) tr l)).
Proof. intros Ht Hi. induction 1 as [|ap l Ha _ IH]; intros tr Htr; [done|]. cbn. by apply IH, track_words. Qed.

Lemma train_words t pfi cache active cs : in_u 64 t → ∀ i tr cs' l tr',
  0 ≤ i → i + Z.of_nat (length cs) < 2 ^ 31 → map_Forall meta_words (childPfTable tr) →
  train_children t pfi cache active i cs tr = Ok (cs', l, tr') → map_Forall meta_words (childPfTable tr').
Proof using Hchildren.
  intros Ht. induction cs as [|[nm [d|]] cs IH]; intros i tr cs' l tr' H0 Hi Htr; cbn [train_children]; cbn [length] in Hi.
  - by intros [= <- <- <-].
  - intros E. apply outcome_bind_ok in E as ([d' tmp] & Ed & E). apply outcome_bind_ok in E as ([[cs2 l2] tr2] & E2 & [= <- <- <-]).
    eapply IH; [| | |exact E2]; [lia|lia|]. apply tracks_words; [done|unfold in_s; lia| |done].
    destruct (i =? active); [|constructor]. by eapply Hchildren.
  - intros E. apply outcome_bind_ok in E as ([[cs2 l2] tr2] & E2 & [= <- <- <-]). eapply IH; [| | |exact E2]; (lia || done).
Qed.

Lemma observe_words pfi (m : ML D) w : words m w → words (ml_observe pfi m) w.
Proof.
  intros [H1 H2 H3 H4 H5 H6 H7 H8 H9 H10 H11 H12]. split; try done; cbn.
  - by apply wrap_range.
  - destruct (pfi_cacheMiss pfi); [by apply wrap_range|done].
  - destruct (pfi_cacheMiss pfi); [done|]. unfold trackUsefulForAddr. destruct (childPfTable (tracker m) !! _); [|done]. by apply map_Forall_delete.
Qed.

Lemma access_words t acc pfi b q (m : ML D) w b' q' m' :
  in_u 64 t → ml_ok cfg m → words m w → ml_notify qcfg t acc pfi (b, (q, m)) = Ok (b', (q', m')) → words m' w.
Proof using Hchildren Hsmall.
  intros Ht Hm Hw E. unfold ml_notify in E. apply notify_d in E as [l E]. apply (observe_words pfi) in Hw as [H1 H2 H3 H4 H5 H6 H7 H8 H9 H10 H11 H12].
  unfold calculatePrefetch, ml_prefetcher in E. apply outcome_bind_ok in E as ([[cs ad] tr] & Et & [= <- <-]).
  split; try done. cbn [set_trained tracker]. eapply (train_words t); [done| | |exact H10|exact Et]; [lia|]. destruct Hm as [Ha _ _ _ _]. cbn. lia.
Qed.

(** Words the invariant of the controller already bounds. *)
Lemma ok_words (m : ML D) : ml_ok cfg m → 2 ≤ numActions cfg →
  in_u 64 (lastState (learner m)) ∧ in_s 32 (lastAction (learner m)) ∧ in_s 32 (currentAction m).
Proof using Hsmall.
  intros [Ha Hc _ [_ Hs Hl _] _] Hn. split_and!.
  - assert (Forall (in_u 64) valid_states) as Hv by (by apply (bool_decide_unpack _); vm_compute).
    rewrite Forall_forall in Hv. by apply Hv.
  - unfold in_s. lia.
  - assert (children m ≠ []) as Hne by (intros E; rewrite E in Ha; cbn in Ha; lia). specialize (Hc Hne). unfold in_s. lia.
Qed.

Lemma endEpoch_words i (m : ML D) w :
  input_words i → words m w → let '(m', w') := endEpoch random cfg i m w in
  epochAccesses m' = 0 ∧ epochMisses m' = 0 ∧ in_u 64 (lastAccesses (miss_hist m')) ∧ in_u 64 (lastMisses (miss_hist m')) ∧
  in_u 64 (lastTotalOps (ipc_hist m')) ∧ in_u 64 (lastIpcTick (ipc_hist m')) ∧ tracker m' = tracker m ∧ in_u 64 (w_epoch w').
Proof.
  intros (I1 & I2 & I3 & I4) [H1 H2 H3 H4 H5 H6 H7 H8 H9 H10 H11 H12]. unfold endEpoch, epoch_missRate, epoch_ipc, epoch_smooth, csv_log.
  destruct (hasCache m), (hasCpu cfg); cbn [haveSmoothedMiss]; destruct (haveSmoothedMiss (miss_hist m)); repeat case_match; simplify_eq;
    cbn [epochAccesses epochMisses miss_hist lastAccesses lastMisses ipc_hist lastTotalOps lastIpcTick tracker w_epoch]; split_and!; try done; by apply wrap_range.
Qed.

Lemma epoch_words i (m m' : ML D) w w' :
  2 ≤ numActions cfg → ml_ok cfg m → input_words i → inputs_ok (hasCache m) i (miss_hist m) → words m w →
  updateModel random cfg i m w = Ok (m', w') → words m' w'.
Proof using Hrandom Hcfg Hsmall.
  intros Hn Hm Hi Hin Hw E. pose proof (updateModel_ok random cfg Hrandom Hcfg i m m' w w' Hm Hin E) as Hm'. destruct (ok_words m' Hm' Hn) as (K1 & K2 & K3).
  unfold updateModel in E. assert (words (unschedule m) w) as Hu by (by destruct Hw).
  pose proof (endEpoch_words i (unschedule m) w Hi Hu) as He. destruct (endEpoch random cfg i (unschedule m) w) as [m1 w1].
  destruct He as (E1 & E2 & E3 & E4 & E5 & E6 & E7 & E8). apply outcome_bind_ok in E as (m2 & Es & [= <- <-]). unfold schedule in Es.
  apply outcome_bind_ok in Es as (? & _ & Es). apply outcome_bind_ok in Es as (? & _ & [= <-]).
  split; cbn [epochAccesses epochMisses miss_hist ipc_hist tracker update_event w_epoch]; try done; [by rewrite E1|by rewrite E2|rewrite E7; apply Hu|by apply wrap_range].
Qed.

Lemma reachable_words s0 s :
  2 ≤ numActions cfg → sys_ok cfg qcfg s0 → words (x_ml s0) (x_world s0) → word_reachable s0 s → sys_ok cfg qcfg s ∧ words (x_ml s) (x_world s).
Proof using Hchildren Hrandom Hcfg Hsmall Hsize Hbase.
  intros Hn H0 Hw0. induction 1 as [|s s' _ [Hs Hw] Hst]; [done|]. destruct Hst as [t acc pfi b q m w b' q' m' Ht Hp Ha E|s s' E Em Ew|i b q m w m' w' Hi Hin E].
  - split; [|exact (access_words t acc pfi b q m w b' q' m' Ht (proj2 Hs) Hw E)]. refine (ml_step_ok random cfg qcfg translateTiming Hrandom Hcfg Hsize Hbase _ _ Hs _). by eapply ml_access.
  - rewrite Em, Ew. split; [|done]. exact (ml_step_ok random cfg qcfg translateTiming Hrandom Hcfg Hsize Hbase _ _ Hs E).
  - split; [|exact (epoch_words i m m' w w' Hn (proj2 Hs) Hi Hin Hw E)]. refine (ml_step_ok random cfg qcfg translateTiming Hrandom Hcfg Hsize Hbase _ _ Hs _). by eapply ml_epoch.
Qed.
End Words.


(** The candidates of the tagged prefetcher are addresses. *)
Lemma tagged_words : @children_words Tagged _.
Proof.
  intros t pfi cache d d' l. unfold calculatePrefetch, tagged_prefetcher. intros [= <- <-]. unfold tagged_calculatePrefetch.
  apply Forall_fmap, Forall_true. intros i. by apply wrap_range.
Qed.

(** One epoch from the constructor. *)
Definition ex_words_world : World := (ml_new (ex_params 0) 0 ex_world).2.

Definition ex_words_end : outcome (ML Tagged * World) := updateModel ex_random ex_mlcfg ex_inputs ex_ml ex_words_world.

Lemma ex_words_runs : is_okb ex_words_end = true.
Proof. by vm_compute. Qed.

Definition ex_words_sys : @mlsys Tagged :=
  let '(m, w) := the_result ex_words_end ex_words_runs in mkMlsys ex_base_state q_empty m w.

Lemma ex_words_reachable :
  word_reachable ex_random ex_mlcfg (ex_cfg 4 false) (λ _, None) (mkMlsys ex_base_state q_empty ex_ml ex_words_world) ex_words_sys.
Proof.
  eapply wr_more; [apply wr_start|]. unfold ex_words_sys. pose proof (the_result_ok ex_words_end ex_words_runs) as E.
  destruct (the_result ex_words_end ex_words_runs) as [m w].
  apply (ws_epoch _ _ _ _ ex_inputs); [by vm_compute|intros H; by vm_compute in H|exact E].
Qed.

