(* ===== verification/SavedTable.v ===== *)
(** * A saved Q-table of the repository

    [src/qtable_system_l2cache.bin] is a table a simulation saved.  Its bytes are
    loaded by the model of [loadQTable], with the children the file was saved for,
    and saving the result gives the same bytes back; the loaded table obeys the
    controller's invariant.  This tests the model against what the program
    really wrote: the field order, the widths and the byte order, the double
    format, the order of [std::map] and the set of states. *)

From Stdlib Require Import ZArith QArith Lia.
From stdpp Require Import base numbers option list strings gmap.
From S2P Require Import Prelude Double Interval QTable MLController MLFacts.
#[local] Open Scope Z_scope.

Definition saved_bytes : bytes :=
  [108; 0; 0; 0; 115; 121; 115; 116; 101; 109; 46; 108; 50; 99; 97; 99; 104; 101; 46; 112; 114;
   101; 102; 101; 116; 99; 104; 101; 114; 46; 99; 104; 105; 108; 100; 114; 101; 110; 48; 59; 115;
   121; 115; 116; 101; 109; 46; 108; 50; 99; 97; 99; 104; 101; 46; 112; 114; 101; 102; 101; 116;
   99; 104; 101; 114; 46; 99; 104; 105; 108; 100; 114; 101; 110; 49; 59; 115; 121; 115; 116; 101;
   109; 46; 108; 50; 99; 97; 99; 104; 101; 46; 112; 114; 101; 102; 101; 116; 99; 104; 101; 114;
   46; 99; 104; 105; 108; 100; 114; 101; 110; 50; 59; 18; 0; 0; 0; 0; 0; 0; 0; 0; 0; 0; 0; 0;
   0; 0; 0; 4; 0; 0; 0; 160; 26; 47; 221; 36; 6; 213; 63; 0; 0; 0; 0; 0; 0; 0; 0; 0; 0; 0; 0;
   0; 0; 0; 0; 0; 0; 0; 0; 0; 0; 0; 0; 40; 0; 0; 0; 0; 0; 0; 0; 4; 0; 0; 0; 28; 9; 62; 2; 28;
   49; 205; 191; 80; 220; 110; 172; 86; 90; 195; 191; 147; 100; 2; 87; 181; 237; 206; 191; 193;
   199; 237; 15; 176; 114; 204; 191; 41; 0; 0; 0; 0; 0; 0; 0; 4; 0; 0; 0; 14; 69; 187; 64; 126;
   45; 182; 63; 0; 0; 0; 0; 0; 0; 0; 0; 0; 0; 0; 0; 0; 0; 0; 0; 0; 0; 0; 0; 0; 0; 0; 0; 110; 0;
   0; 0; 0; 0; 0; 0; 4; 0; 0; 0; 193; 251; 128; 76; 89; 159; 220; 191; 138; 58; 168; 25; 212;
   248; 222; 63; 94; 146; 233; 79; 123; 190; 216; 191; 32; 56; 244; 20; 93; 50; 213; 191; 111;
   0; 0; 0; 0; 0; 0; 0; 4; 0; 0; 0; 106; 53; 113; 191; 180; 193; 224; 191; 222; 48; 148; 24; 189;
   93; 224; 191; 74; 15; 104; 163; 191; 106; 225; 191; 237; 5; 225; 21; 97; 185; 209; 191; 112;
   0; 0; 0; 0; 0; 0; 0; 4; 0; 0; 0; 45; 93; 191; 249; 220; 161; 224; 191; 215; 211; 191; 239;
   232; 36; 194; 63; 253; 95; 78; 57; 206; 148; 224; 191; 122; 37; 104; 125; 192; 30; 225; 191;
   120; 0; 0; 0; 0; 0; 0; 0; 4; 0; 0; 0; 30; 120; 1; 152; 182; 23; 199; 191; 254; 161; 221; 143;
   21; 53; 181; 63; 35; 214; 168; 109; 45; 55; 195; 191; 64; 133; 182; 199; 165; 229; 203; 191;
   121; 0; 0; 0; 0; 0; 0; 0; 4; 0; 0; 0; 230; 8; 249; 75; 94; 25; 208; 191; 12; 98; 130; 166;
   36; 214; 205; 63; 170; 231; 241; 82; 138; 14; 226; 191; 62; 120; 142; 211; 25; 239; 214; 191;
   122; 0; 0; 0; 0; 0; 0; 0; 4; 0; 0; 0; 79; 255; 156; 49; 98; 100; 225; 191; 90; 117; 47; 5;
   175; 61; 217; 191; 72; 58; 205; 23; 223; 111; 225; 191; 188; 97; 29; 206; 84; 98; 225; 191;
   130; 0; 0; 0; 0; 0; 0; 0; 4; 0; 0; 0; 236; 2; 170; 92; 60; 226; 208; 191; 182; 10; 18; 15;
   242; 28; 205; 63; 252; 105; 121; 53; 75; 189; 209; 191; 97; 58; 232; 171; 173; 78; 197; 191;
   131; 0; 0; 0; 0; 0; 0; 0; 4; 0; 0; 0; 23; 114; 182; 207; 187; 202; 224; 63; 99; 145; 186; 136;
   255; 233; 220; 191; 190; 134; 165; 182; 165; 56; 218; 191; 67; 139; 145; 203; 85; 85; 205;
   191; 132; 0; 0; 0; 0; 0; 0; 0; 4; 0; 0; 0; 228; 45; 162; 127; 0; 81; 211; 191; 246; 163; 209;
   135; 252; 102; 210; 191; 74; 108; 69; 105; 133; 247; 211; 191; 210; 53; 214; 48; 91; 175; 195;
   191; 140; 0; 0; 0; 0; 0; 0; 0; 4; 0; 0; 0; 40; 243; 64; 175; 213; 127; 209; 63; 0; 0; 0; 0;
   0; 0; 0; 0; 0; 176; 25; 254; 119; 230; 194; 63; 0; 0; 0; 0; 0; 0; 0; 0; 142; 0; 0; 0; 0; 0;
   0; 0; 4; 0; 0; 0; 0; 0; 0; 0; 0; 0; 0; 0; 0; 0; 0; 0; 0; 0; 0; 0; 0; 0; 0; 0; 0; 0; 0; 0; 0;
   0; 0; 0; 0; 0; 0; 0; 202; 0; 0; 0; 0; 0; 0; 0; 4; 0; 0; 0; 105; 44; 123; 96; 185; 40; 193;
   191; 203; 49; 72; 214; 12; 213; 194; 191; 96; 108; 106; 144; 167; 169; 183; 191; 0; 0; 0; 0;
   0; 0; 0; 0; 210; 0; 0; 0; 0; 0; 0; 0; 4; 0; 0; 0; 182; 80; 18; 155; 166; 14; 185; 191; 0; 0;
   0; 0; 0; 0; 0; 0; 158; 105; 126; 199; 203; 15; 196; 191; 0; 0; 0; 0; 0; 0; 0; 0; 211; 0; 0;
   0; 0; 0; 0; 0; 4; 0; 0; 0; 134; 192; 139; 163; 199; 155; 200; 191; 218; 194; 245; 205; 238;
   234; 226; 191; 38; 185; 137; 189; 184; 156; 226; 191; 216; 40; 2; 123; 230; 189; 225; 191;
   212; 0; 0; 0; 0; 0; 0; 0; 4; 0; 0; 0; 224; 21; 220; 123; 133; 115; 209; 191; 100; 239; 188;
   81; 232; 87; 211; 63; 55; 127; 99; 208; 84; 70; 215; 191; 21; 140; 247; 137; 130; 215; 208;
   191].

Definition saved_children : list string :=
  ["system.l2cache.prefetcher.children0"%string; "system.l2cache.prefetcher.children1"%string;
   "system.l2cache.prefetcher.children2"%string].

Definition saved_table : qtable :=
  match loadQTable (Some saved_bytes) saved_children ∅ with
  | Some (Loaded, q) => q
  | _ => ∅
  end.

(** The file loads, with its 18 states, and saving what was loaded writes the file
    again. *)
Example saved_table_loads :
  option_map fst (loadQTable (Some saved_bytes) saved_children ∅) = Some Loaded ∧
  size saved_table = 18%nat ∧
  qtable_bytes (string_bytes (childrenSignature saved_children)) saved_table = saved_bytes.
Proof. split_and!; by vm_compute. Qed.

Definition value_okb (x : double) : bool :=
  dok x && Qle_bool (- (17 # 16)) (dval x) && Qle_bool (dval x) (17 # 16).

Lemma value_okb_ok x : value_okb x = true → value_ok x.
Proof.
  unfold value_okb, value_ok, within. rewrite !andb_true_iff, !Qle_bool_iff. tauto.
Qed.

(** Every row is one a controller with three children can have. *)
Example saved_table_ok : table_ok 4 saved_table.
Proof.
  assert (forallb (λ e : Z * list double, bool_decide (e.1 ∈ valid_states) &&
    (Z.of_nat (length e.2) =? 4) && forallb value_okb e.2) (map_to_list saved_table) = true) as Hc
    by by vm_compute.
  rewrite forallb_forall in Hc. intros st row Hrow. apply elem_of_map_to_list in Hrow.
  apply list_elem_of_In, Hc in Hrow. rewrite !andb_true_iff, bool_decide_eq_true, Z.eqb_eq in Hrow.
  destruct Hrow as [[Hst Hlen] Hv]. split; [done|]. split; [done|].
  rewrite forallb_forall in Hv. apply Forall_forall. intros x Hx. apply value_okb_ok, Hv.
  by apply list_elem_of_In.
Qed.
