(* ===== verification/Replacement.v ===== *)
(** * Replacement policies

    [src/src/mem/cache/replacement_policies/]: the policies that pick the entry to
    replace among the candidates of a set.  [ReplPolicy] is the abstract base
    class: a policy has a state of its own ([G]: the FIFO counter, the position
    in the random stream, SHiP's predictor) and a record of replacement data
    per entry ([R]).  [getVictim] returns the index of the victim among the
    candidates and the candidates' data afterwards, since some policies age
    the candidates while they search.  Tree-PLRU, whose entries share a tree,
    is in its own file. *)

From Stdlib Require Import ZArith Lia.
From stdpp Require Import base numbers option list strings.
From S2P Require Import Prelude Double SatCounter PrefetchBase.
#[local] Open Scope Z_scope.

(** ** The interface *)

Class ReplPolicy (G R : Type) := {
  rp_invalidate : R → G → outcome (R * G);
  rp_touch : Z → option Packet → R → G → outcome (R * G);
  rp_reset : Z → option Packet → R → G → outcome (R * G);
  rp_getVictim : list R → G → outcome (nat * list R * G);
  rp_instantiate : G → outcome (R * G)
}.

(** The search loop of most policies: start from the first candidate and move
    to any later one that is better than the current victim. *)
Fixpoint scan {R} (better : R → R → bool) (i vi : nat) (v : R) (l : list R) : nat :=
  match l with
  | [] => vi
  | c :: l' => if better c v then scan better (S i) i c l' else scan better (S i) vi v l'
  end.

Definition scan_victim {R} (better : R → R → bool) (cs : list R) : outcome nat :=
  match cs with
  | [] => Stop (AssertFail "candidates.size() > 0")
  | c :: _ => Ok (scan better 0 0 c cs)
  end.

(** The first candidate that satisfies [p], as the loops that stop at an invalid
    entry find it. *)
Fixpoint first_index {R} (p : R → bool) (i : nat) (l : list R) : option nat :=
  match l with
  | [] => None
  | c :: l' => if p c then Some i else first_index p (S i) l'
  end.

(** Random numbers: [gen] is the stream of the 64-bit generator, and
    [random<unsigned>(lo, hi)] takes the next number. *)
Definition random_range (gen : nat → Z) (k : nat) (lo hi : Z) : Z :=
  u32 (gen k mod u32 (hi - lo + 1) + lo).

(** ** LRU *)

Record LRUReplData := mkLRU { lastTouchTick : Z }.

Definition lru_invalidate (_ : LRUReplData) : LRUReplData := mkLRU 0.
Definition lru_touch (curTick : Z) (_ : LRUReplData) : LRUReplData := mkLRU curTick.
Definition lru_reset (curTick : Z) (_ : LRUReplData) : LRUReplData := mkLRU curTick.
Definition lru_older (c v : LRUReplData) : bool := lastTouchTick c <? lastTouchTick v.
Definition lru_getVictim (cs : list LRUReplData) : outcome nat := scan_victim lru_older cs.

#[export] Instance LRU : ReplPolicy unit LRUReplData := {|
  rp_invalidate d g := Ok (lru_invalidate d, g);
  rp_touch t _ d g := Ok (lru_touch t d, g);
  rp_reset t _ d g := Ok (lru_reset t d, g);
  rp_getVictim cs g := v ← lru_getVictim cs; Ok (v, cs, g);
  rp_instantiate g := Ok (mkLRU 0, g)
|}.

(** ** FIFO *)

Record FIFOReplData := mkFIFO { tickInserted : Z }.

(** The state is [timeTicks], the counter of insertions. *)

Definition fifo_invalidate (_ : FIFOReplData) : FIFOReplData := mkFIFO 0.
Definition fifo_reset (_ : FIFOReplData) (timeTicks : Z) : FIFOReplData * Z :=
  let timeTicks := u64 (timeTicks + 1) in (mkFIFO timeTicks, timeTicks).
Definition fifo_older (c v : FIFOReplData) : bool := tickInserted c <? tickInserted v.
Definition fifo_getVictim (cs : list FIFOReplData) : outcome nat := scan_victim fifo_older cs.

#[export] Instance FIFO : ReplPolicy Z FIFOReplData := {|
  rp_invalidate d g := Ok (fifo_invalidate d, g);
  rp_touch _ _ d g := Ok (d, g);
  rp_reset _ _ d g := Ok (fifo_reset d g);
  rp_getVictim cs g := v ← fifo_getVictim cs; Ok (v, cs, g);
  rp_instantiate g := Ok (mkFIFO 0, g)
|}.

(** ** MRU *)

(** The loop: an entry that was never touched ends the search, otherwise the most
    recent touch wins.  [LRUReplData] and [MRUReplData] have the same member. *)
Fixpoint mru_scan (i vi : nat) (v : LRUReplData) (l : list LRUReplData) : nat :=
  match l with
  | [] => vi
  | c :: l' =>
      if lastTouchTick c =? 0 then i
      else if lastTouchTick v <? lastTouchTick c then mru_scan (S i) i c l'
      else mru_scan (S i) vi v l'
  end.

Definition mru_getVictim (cs : list LRUReplData) : outcome nat :=
  match cs with
  | [] => Stop (AssertFail "candidates.size() > 0")
  | c :: _ => Ok (mru_scan 0 0 c cs)
  end.

(** ** LFU *)

Record LFUReplData := mkLFU { refCount : Z }.

Definition lfu_invalidate (_ : LFUReplData) : LFUReplData := mkLFU 0.
Definition lfu_touch (d : LFUReplData) : LFUReplData := mkLFU (u32 (refCount d + 1)).
Definition lfu_reset (_ : LFUReplData) : LFUReplData := mkLFU 1.
Definition lfu_fewer (c v : LFUReplData) : bool := refCount c <? refCount v.
Definition lfu_getVictim (cs : list LFUReplData) : outcome nat := scan_victim lfu_fewer cs.

#[export] Instance LFU : ReplPolicy unit LFUReplData := {|
  rp_invalidate d g := Ok (lfu_invalidate d, g);
  rp_touch _ _ d g := Ok (lfu_touch d, g);
  rp_reset _ _ d g := Ok (lfu_reset d, g);
  rp_getVictim cs g := v ← lfu_getVictim cs; Ok (v, cs, g);
  rp_instantiate g := Ok (mkLFU 0, g)
|}.

(** ** Random *)

Record RandomReplData := mkRandom { r_valid : bool }.

(** An invalid entry if there is one, otherwise the one the generator chose; the
    number is drawn in both cases. *)
Definition random_getVictim (gen : nat → Z) (cs : list RandomReplData) (k : nat)
    : outcome (nat * nat) :=
  match cs with
  | [] => Stop (AssertFail "candidates.size() > 0")
  | _ =>
      let v := Z.to_nat (random_range gen k 0 (Z.of_nat (length cs) - 1)) in
      Ok (default v (first_index (λ d, negb (r_valid d)) 0 cs), S k)
  end.

Definition RandomRP (gen : nat → Z) : ReplPolicy nat RandomReplData := {|
  rp_invalidate d g := Ok (mkRandom false, g);
  rp_touch _ _ d g := Ok (d, g);
  rp_reset _ _ d g := Ok (mkRandom true, g);
  rp_getVictim cs g := '(v, g) ← random_getVictim gen cs g; Ok (v, cs, g);
  rp_instantiate g := Ok (mkRandom false, g)
|}.

(** ** BIP: LRU with an insertion that is usually the least recent *)

Definition bip_reset (gen : nat → Z) (btp curTick : Z) (k : nat) : LRUReplData * nat :=
  (if random_range gen k 1 100 <=? btp then mkLRU curTick else mkLRU 1, S k).

Definition BIP (gen : nat → Z) (btp : Z) : ReplPolicy nat LRUReplData := {|
  rp_invalidate d g := Ok (lru_invalidate d, g);
  rp_touch t _ d g := Ok (lru_touch t d, g);
  rp_reset t _ d g := Ok (bip_reset gen btp t g);
  rp_getVictim cs g := v ← lru_getVictim cs; Ok (v, cs, g);
  rp_instantiate g := Ok (mkLRU 0, g)
|}.

(** ** Weighted LRU *)

Record WeightedLRUReplData := mkWLRU { w_lastTouchTick : Z; last_occ_ptr : Z }.

Definition wlru_touch (curTick occupancy : Z) (_ : WeightedLRUReplData) : WeightedLRUReplData :=
  mkWLRU curTick occupancy.

Definition wlru_better (c v : WeightedLRUReplData) : bool :=
  (last_occ_ptr c <? last_occ_ptr v) ||
  ((last_occ_ptr c =? last_occ_ptr v) && (w_lastTouchTick c <? w_lastTouchTick v)).

Definition wlru_getVictim (cs : list WeightedLRUReplData) : outcome nat :=
  scan_victim wlru_better cs.

(** ** Second chance *)

Record SecondChanceReplData := mkSC { sc_fifo : FIFOReplData; hasSecondChance : bool }.

Definition useSecondChance (d : SecondChanceReplData) (timeTicks : Z)
    : SecondChanceReplData * Z :=
  let '(f, timeTicks) := fifo_reset (sc_fifo d) timeTicks in (mkSC f false, timeTicks).

Definition sc_invalidate (d : SecondChanceReplData) : SecondChanceReplData :=
  mkSC (fifo_invalidate (sc_fifo d)) false.
Definition sc_touch (d : SecondChanceReplData) : SecondChanceReplData := mkSC (sc_fifo d) true.
Definition sc_reset (d : SecondChanceReplData) (timeTicks : Z)
    : SecondChanceReplData * Z :=
  let '(f, timeTicks) := fifo_reset (sc_fifo d) timeTicks in (mkSC f false, timeTicks).

(** The [while] loop: the oldest candidate is the victim unless it has a second
    chance, which it then uses up.  [None] when the fuel is used up; a round
    that goes on takes a second chance away, so one more round than there are
    candidates is enough. *)
Fixpoint sc_search (fuel : nat) (cs : list SecondChanceReplData) (timeTicks : Z)
    : option (nat * list SecondChanceReplData * Z) :=
  match fuel with
  | O => None
  | S fuel =>
      match fifo_getVictim (sc_fifo <$> cs) with
      | Stop _ => None
      | Ok v =>
          match cs !! v with
          | None => None
          | Some d =>
              if hasSecondChance d then
                let '(d, timeTicks) := useSecondChance d timeTicks in
                sc_search fuel (<[v := d]> cs) timeTicks
              else Some (v, cs, timeTicks)
          end
      end
  end.

Definition sc_getVictim (cs : list SecondChanceReplData) (timeTicks : Z)
    : outcome (nat * list SecondChanceReplData * Z) :=
  match cs with
  | [] => Stop (AssertFail "candidates.size() > 0")
  | _ =>
      match first_index
              (λ d, (tickInserted (sc_fifo d) =? 0) && negb (hasSecondChance d)) 0 cs with
      | Some i => Ok (i, cs, timeTicks)
      | None => match sc_search (S (length cs)) cs timeTicks with
                | Some r => Ok r
                | None => Stop (Panic "victim search does not end")
                end
      end
  end.

#[export] Instance SecondChance : ReplPolicy Z SecondChanceReplData := {|
  rp_invalidate d g := Ok (sc_invalidate d, g);
  rp_touch _ _ d g := Ok (sc_touch d, g);
  rp_reset _ _ d g := Ok (sc_reset d g);
  rp_getVictim cs g := sc_getVictim cs g;
  rp_instantiate g := Ok (mkSC (mkFIFO 0) false, g)
|}.

(** ** BRRIP *)

Record BRRIPReplData := mkBRRIP { rrpv : SatCounter; b_valid : bool }.

Record BRRIPCfg := mkBRRIPCfg { numRRPVBits : Z; hitPriority : bool; b_btp : Z }.

Definition brrip_new (num_bits : Z) (hit_priority : bool) (btp : Z) : outcome BRRIPCfg :=
  _ ← fatal_if (num_bits <=? 0) "There should be at least one bit per RRPV.";
  Ok (mkBRRIPCfg num_bits hit_priority btp).

Definition brrip_invalidate (d : BRRIPReplData) : BRRIPReplData := mkBRRIP (rrpv d) false.

Definition brrip_touch (cfg : BRRIPCfg) (d : BRRIPReplData) : BRRIPReplData :=
  mkBRRIP (if hitPriority cfg then sat_reset (rrpv d) else sat_dec (rrpv d)) (b_valid d).

Definition brrip_reset (gen : nat → Z) (cfg : BRRIPCfg) (d : BRRIPReplData) (k : nat)
    : BRRIPReplData * nat :=
  let r := (saturate (rrpv d)).2 in
  (mkBRRIP (if random_range gen k 1 100 <=? b_btp cfg then sat_dec r else r) true, S k).

(** The search: an invalid entry ends it ([inl]), otherwise the first entry with the
    largest prediction is the victim ([inr]). *)
Fixpoint brrip_scan (i vi : nat) (victim_RRPV : Z) (l : list BRRIPReplData) : nat + nat :=
  match l with
  | [] => inr vi
  | c :: l' =>
      if negb (b_valid c) then inl i
      else if victim_RRPV <? counter (rrpv c) then brrip_scan (S i) i (counter (rrpv c)) l'
      else brrip_scan (S i) vi victim_RRPV l'
  end.

(** The victim's prediction is raised to the maximum, and all candidates' by as
    much. *)
Definition brrip_age (cs : list BRRIPReplData) (v : nat) : list BRRIPReplData :=
  match cs !! v with
  | None => cs
  | Some d =>
      let '(diff, r) := saturate (rrpv d) in
      let cs := <[v := mkBRRIP r (b_valid d)]> cs in
      if 0 <? diff
      then (λ c, mkBRRIP (sat_add (rrpv c) diff) (b_valid c)) <$> cs
      else cs
  end.

Definition brrip_getVictim (cs : list BRRIPReplData) : outcome (nat * list BRRIPReplData) :=
  match cs with
  | [] => Stop (AssertFail "candidates.size() > 0")
  | c :: _ =>
      match brrip_scan 0 0 (counter (rrpv c)) cs with
      | inl i => Ok (i, cs)
      | inr v => Ok (v, brrip_age cs v)
      end
  end.

Definition brrip_instantiate (cfg : BRRIPCfg) : outcome BRRIPReplData :=
  r ← sat_new 8 (numRRPVBits cfg) 0; Ok (mkBRRIP r false).

Definition BRRIP (gen : nat → Z) (cfg : BRRIPCfg) : ReplPolicy nat BRRIPReplData := {|
  rp_invalidate d g := Ok (brrip_invalidate d, g);
  rp_touch _ _ d g := Ok (brrip_touch cfg d, g);
  rp_reset _ _ d g := Ok (brrip_reset gen cfg d g);
  rp_getVictim cs g := '(v, cs) ← brrip_getVictim cs; Ok (v, cs, g);
  rp_instantiate g := d ← brrip_instantiate cfg; Ok (d, g)
|}.

(** ** SHiP *)

Record SHiPReplData := mkSHiP { ship_brrip : BRRIPReplData; signature : Z; reReferenced : bool }.

Definition setSignature (d : SHiPReplData) (s : Z) : SHiPReplData := mkSHiP (ship_brrip d) s false.
Definition setReReferenced (d : SHiPReplData) : SHiPReplData :=
  mkSHiP (ship_brrip d) (signature d) true.

(** The predictor table and the position in the random stream. *)
Record SHiPState := mkSHiPState { SHCT : list SatCounter; ship_rng : nat }.

Definition shct_update (f : SatCounter → SatCounter) (s : Z) (g : SHiPState) : SHiPState :=
  mkSHiPState (alter f (Z.to_nat s) (SHCT g)) (ship_rng g).

Definition shipMem_signature (shct_size : Z) (pkt : Packet) : Z := pkt_addr pkt mod shct_size.

Definition NO_PC_SIGNATURE : Z := 0.

Definition shipPC_signature (shct_size : Z) (pkt : Packet) : Z :=
  match req_pc (pkt_req pkt) with
  | Some pc => pc mod shct_size
  | None => NO_PC_SIGNATURE mod shct_size
  end.

Definition ship_invalidate (d : SHiPReplData) (g : SHiPState) : SHiPReplData * SHiPState :=
  let g := if reReferenced d then shct_update sat_dec (signature d) g else g in
  (mkSHiP (brrip_invalidate (ship_brrip d)) (signature d) (reReferenced d), g).

Section SHiP.
Context (gen : nat → Z) (cfg : BRRIPCfg) (insertionThreshold : double).
Variable getSignature : Packet → Z.

Definition ship_touch (pkt : option Packet) (d : SHiPReplData) (g : SHiPState)
    : outcome (SHiPReplData * SHiPState) :=
  match pkt with
  | None => Stop (Panic "Cant train SHiP's predictor without access information.")
  | Some pkt =>
      let g := shct_update sat_inc (getSignature pkt) g in
      let d := setReReferenced d in
      Ok (mkSHiP (brrip_touch cfg (ship_brrip d)) (signature d) (reReferenced d), g)
  end.

Definition ship_reset (pkt : option Packet) (d : SHiPReplData) (g : SHiPState)
    : outcome (SHiPReplData * SHiPState) :=
  match pkt with
  | None => Stop (Panic "Cant train SHiP's predictor without access information.")
  | Some pkt =>
      let s := getSignature pkt in
      let d := setSignature d s in
      let '(b, k) := brrip_reset gen cfg (ship_brrip d) (ship_rng g) in
      match SHCT g !! Z.to_nat s with
      | None => Stop (Panic "SHCT index out of range")
      | Some c =>
          let b := if dleb insertionThreshold (calcSaturation c)
                   then mkBRRIP (sat_dec (rrpv b)) (b_valid b) else b in
          Ok (mkSHiP b (signature d) (reReferenced d), mkSHiPState (SHCT g) k)
      end
  end.

Definition SHiP : ReplPolicy SHiPState SHiPReplData := {|
  rp_invalidate d g := Ok (ship_invalidate d g);
  rp_touch _ pkt d g := ship_touch pkt d g;
  rp_reset _ pkt d g := ship_reset pkt d g;
  rp_getVictim cs g :=
    '(v, bs) ← brrip_getVictim (ship_brrip <$> cs);
    Ok (v, zip_with (λ d b, mkSHiP b (signature d) (reReferenced d)) cs bs, g);
  rp_instantiate g := b ← brrip_instantiate cfg; Ok (mkSHiP b 0 false, g)
|}.
End SHiP.

(** ** The search loop *)

Section Scan.
Context {R : Type} (better : R → R → bool).
(** [better] is a strict weak order. *)
Context (Hirr : ∀ x, better x x = false).
Context (Htrans : ∀ x y z, better x y = true → better y z = true → better x z = true).
Context (Hneg : ∀ x y z, better x z = true → better x y = true ∨ better y z = true).

Lemma scan_spec l i vi v :
  (vi ≤ i)%nat →
  let r := scan better i vi v l in
  ∃ w, (r = vi ∧ w = v ∨ (i ≤ r)%nat ∧ l !! (r - i)%nat = Some w) ∧
    (r < i + length l ∨ r = vi)%nat ∧
    better v w = false ∧ Forall (λ x, better x w = false) l ∧
    (∀ j x, l !! j = Some x → (i + j < r)%nat → better w x = true) ∧
    (r ≠ vi → better w v = true).
Proof using Hirr Htrans Hneg.
  revert i vi v. induction l as [|c l IH]; intros i vi v Hi; cbn [scan].
  { exists v. split_and!; [auto|auto|apply Hirr|constructor|done|done]. }
  destruct (better c v) eqn:E.
  - destruct (IH (S i) i c ltac:(lia)) as (w & Hw & Hr & H1 & H2 & H3 & H4).
    set (r := scan better (S i) i c l) in *. exists w. split_and!.
    + right. destruct Hw as [[-> ->]|[Hge Hw]]; [by rewrite Nat.sub_diag|].
      split; [lia|]. by replace (r - i)%nat with (S (r - S i)) by lia.
    + left. rewrite length_cons. destruct Hw as [[-> _]|[_ Hw]]; [lia|].
      apply lookup_lt_Some in Hw. lia.
    + destruct (better v w) eqn:Ev; [|done].
      rewrite (Htrans _ _ _ E Ev) in H1. done.
    + by constructor.
    + intros [|j] x Hx Hj; simpl in Hx.
      * injection Hx as <-. apply H4. lia.
      * apply (H3 j); [done|lia].
    + intros _. destruct (decide (r = i)) as [Er|Er].
      * destruct Hw as [[_ ->]|[? _]]; [done|lia].
      * eapply Htrans; [by apply H4|done].
  - destruct (IH (S i) vi v ltac:(lia)) as (w & Hw & Hr & H1 & H2 & H3 & H4).
    set (r := scan better (S i) vi v l) in *. exists w. split_and!.
    + destruct Hw as [[-> ->]|[Hge Hw]]; [auto|]. right. split; [lia|].
      by replace (r - i)%nat with (S (r - S i)) by lia.
    + rewrite length_cons. lia.
    + done.
    + constructor; [|done]. destruct (better c w) eqn:Ec; [|done].
      destruct (decide (r = vi)) as [Er|Er].
      * destruct Hw as [[_ ->]|[Hge Hw]]; [congruence|]. lia.
      * by rewrite (Htrans _ _ _ Ec (H4 Er)) in E.
    + intros [|j] x Hx Hj; simpl in Hx.
      * injection Hx as <-. destruct (decide (r = vi)) as [Er|Er]; [lia|].
        destruct (Hneg w c v (H4 Er)); congruence.
      * apply (H3 j); [done|lia].
    + done.
Qed.

(** The victim is a candidate, no candidate is better, and every earlier one is
    worse: it is the first best. *)
Lemma scan_victim_spec cs :
  cs ≠ [] →
  ∃ r w, scan_victim better cs = Ok r ∧ cs !! r = Some w ∧
    Forall (λ x, better x w = false) cs ∧
    (∀ j x, cs !! j = Some x → (j < r)%nat → better w x = true).
Proof using Hirr Htrans Hneg.
  intros Hne. destruct cs as [|c cs]; [done|]. unfold scan_victim.
  destruct (scan_spec (c :: cs) 0 0 c ltac:(lia)) as (w & Hw & _ & _ & H2 & H3 & _).
  set (r := scan better 0 0 c (c :: cs)) in *. exists r, w. split_and!; [done| |done|].
  - destruct Hw as [[-> ->]|[_ Hw]]; [done|]. by rewrite Nat.sub_0_r in Hw.
  - intros j x Hx Hj. by apply (H3 j).
Qed.
End Scan.

(** [better] given by a key that is to be small. *)
Lemma key_scan {R} (key : R → Z) cs :
  cs ≠ [] →
  ∃ r w, scan_victim (λ c v, key c <? key v) cs = Ok r ∧ cs !! r = Some w ∧
    Forall (λ x, key w ≤ key x) cs ∧ (∀ j x, cs !! j = Some x → (j < r)%nat → key w < key x).
Proof.
  intros Hne. destruct (scan_victim_spec (λ c v, key c <? key v)) with (cs := cs)
    as (r & w & E & Hr & Hb & Hf); [intros; lia|intros; lia|intros; lia|done|].
  exists r, w. split_and!; [done|done| |].
  - eapply Forall_impl; [exact Hb|]. simpl. lia.
  - intros j x Hx Hj. specialize (Hf j x Hx Hj). simpl in Hf. lia.
Qed.

(** ** Second chance *)

Definition chances (cs : list SecondChanceReplData) : nat :=
  length (filter (λ d, hasSecondChance d = true) cs).

Lemma chances_drop cs v d d' :
  cs !! v = Some d → hasSecondChance d = true → hasSecondChance d' = false →
  chances cs = S (chances (<[v := d']> cs)).
Proof.
  intros Hv Hd Hd'. unfold chances.
  rewrite (insert_take_drop cs v d') by by eapply lookup_lt_Some.
  rewrite <-(take_drop_middle cs v d Hv) at 1.
  rewrite !filter_app, !length_app, !filter_cons.
  rewrite decide_True by done. rewrite decide_False by congruence. simpl. lia.
Qed.

Lemma sc_search_spec fuel cs g :
  cs ≠ [] → (chances cs < fuel)%nat →
  ∃ v cs' g' d, sc_search fuel cs g = Some (v, cs', g') ∧ length cs' = length cs ∧
    cs' !! v = Some d ∧ hasSecondChance d = false ∧
    Forall (λ x, tickInserted (sc_fifo d) ≤ tickInserted (sc_fifo x)) cs'.
Proof.
  revert cs g. induction fuel as [|fuel IH]; intros cs g Hne Hf; [lia|]. cbn [sc_search].
  destruct (key_scan tickInserted (sc_fifo <$> cs)) as (v & w & E & Hw & Hmin & _).
  { by destruct cs. }
  change (fifo_getVictim (sc_fifo <$> cs)) with
    (scan_victim (λ c v, tickInserted c <? tickInserted v) (sc_fifo <$> cs)). rewrite E.
  rewrite list_lookup_fmap in Hw. destruct (cs !! v) as [d|] eqn:Ed; [|done].
  simpl in Hw. injection Hw as <-. destruct (hasSecondChance d) eqn:Eh.
  - pose proof (chances_drop cs v d (mkSC (mkFIFO (u64 (g + 1))) false) Ed Eh eq_refl) as Hc.
    destruct (IH (<[v := mkSC (mkFIFO (u64 (g + 1))) false]> cs) (u64 (g + 1)))
      as (v' & cs' & g' & d'' & E' & Hl & Hv' & Hh & Hm).
    + destruct cs; [done|]. by destruct v.
    + lia.
    + exists v', cs', g', d''. split_and!; [exact E'| |done..].
      by rewrite Hl, length_insert.
  - exists v, cs, g, d. split_and!; [reflexivity|reflexivity|exact Ed|exact Eh|].
    apply (proj1 (Forall_fmap _ _ _)) in Hmin. exact Hmin.
Qed.

(** ** BRRIP *)

Lemma brrip_scan_spec l i vi m :
  (vi ≤ i)%nat →
  match brrip_scan i vi m l with
  | inl r => (i ≤ r)%nat ∧ (∃ w, l !! (r - i)%nat = Some w ∧ b_valid w = false) ∧
      (∀ j x, l !! j = Some x → (i + j < r)%nat → b_valid x = true)
  | inr r => Forall (λ x, b_valid x = true) l ∧
      ∃ w, (r = vi ∧ w = m ∨ (i ≤ r)%nat ∧ ∃ x, l !! (r - i)%nat = Some x ∧ w = counter (rrpv x)) ∧
        m ≤ w ∧ Forall (λ x, counter (rrpv x) ≤ w) l
  end.
Proof.
  revert i vi m. induction l as [|c l IH]; intros i vi m Hi; cbn [brrip_scan].
  { split; [constructor|]. exists m. split_and!; [auto|lia|constructor]. }
  destruct (b_valid c) eqn:Ev; cbn [negb].
  2: { split; [lia|]. rewrite Nat.sub_diag. split; [by exists c|].
       intros j x _ Hj. lia. }
  destruct (Z.ltb_spec m (counter (rrpv c))).
  - specialize (IH (S i) i (counter (rrpv c)) ltac:(lia)).
    destruct (brrip_scan (S i) i (counter (rrpv c)) l) as [r|r].
    + destruct IH as (Hge & (w & Hw & Hv) & Hall). split; [lia|]. split.
      * exists w. replace (r - i)%nat with (S (r - S i)) by lia. done.
      * intros [|j] x Hx Hj; simpl in Hx; [by injection Hx as <-|]. apply (Hall j); [done|lia].
    + destruct IH as (Hall & w & Hw & Hm & Hf). split; [by constructor|]. exists w. split_and!.
      * right. destruct Hw as [[-> ->]|(Hge & x & Hx & ->)].
        -- split; [lia|]. exists c. by rewrite Nat.sub_diag.
        -- split; [lia|]. exists x. by replace (r - i)%nat with (S (r - S i)) by lia.
      * lia.
      * constructor; [lia|done].
  - specialize (IH (S i) vi m ltac:(lia)).
    destruct (brrip_scan (S i) vi m l) as [r|r].
    + destruct IH as (Hge & (w & Hw & Hv) & Hall). split; [lia|]. split.
      * exists w. replace (r - i)%nat with (S (r - S i)) by lia. done.
      * intros [|j] x Hx Hj; simpl in Hx; [by injection Hx as <-|]. apply (Hall j); [done|lia].
    + destruct IH as (Hall & w & Hw & Hm & Hf). split; [by constructor|]. exists w. split_and!.
      * destruct Hw as [[-> ->]|(Hge & x & Hx & ->)]; [auto|].
        right. split; [lia|]. exists x. by replace (r - i)%nat with (S (r - S i)) by lia.
      * lia.
      * constructor; [lia|done].
Qed.

Lemma sc_getVictim_spec (cs : list SecondChanceReplData) (timeTicks : Z) :
  cs ≠ [] →
  ∃ v cs' t' d, sc_getVictim cs timeTicks = Ok (v, cs', t') ∧ length cs' = length cs ∧
    cs' !! v = Some d ∧ hasSecondChance d = false ∧
    (tickInserted (sc_fifo d) = 0 ∧ cs' = cs ∨
     Forall (λ x, tickInserted (sc_fifo d) ≤ tickInserted (sc_fifo x)) cs').
Proof.
  intros Hne. unfold sc_getVictim. destruct cs as [|c cs]; [done|].
  assert (∀ (l : list SecondChanceReplData) i r, first_index
    (λ d, (tickInserted (sc_fifo d) =? 0) && negb (hasSecondChance d)) i l = Some r →
    (i ≤ r)%nat ∧ ∃ d, l !! (r - i)%nat = Some d ∧ tickInserted (sc_fifo d) = 0 ∧
      hasSecondChance d = false) as Hfi.
  { induction l as [|x l IH]; intros i r E; simpl in E; [done|].
    destruct ((_ =? 0) && _) eqn:Ex.
    - injection E as <-. split; [lia|]. exists x. rewrite Nat.sub_diag.
      apply andb_true_iff in Ex as [E1%Z.eqb_eq E2%negb_true_iff]. done.
    - apply IH in E as (Hge & d & Hd & H1 & H2). split; [lia|]. exists d.
      replace (r - i)%nat with (S (r - S i)) by lia. done. }
  destruct (first_index _ _ _) as [r|] eqn:Ef.
  - apply Hfi in Ef as (_ & d & Hd & H1 & H2). rewrite Nat.sub_0_r in Hd.
    exists r, (c :: cs), timeTicks, d. split_and!; auto.
  - destruct (sc_search_spec (S (length (c :: cs))) (c :: cs) timeTicks Hne)
      as (v & cs' & g' & d & E & Hl & Hv & Hh & Hm).
    { unfold chances. pose proof (length_filter (λ d, hasSecondChance d = true) (c :: cs)). lia. }
    exists v, cs', g', d. rewrite E. split_and!; auto.
Qed.

Lemma brrip_getVictim_spec (cs : list BRRIPReplData) :
  cs ≠ [] →
  ∃ v cs' d, brrip_getVictim cs = Ok (v, cs') ∧ cs !! v = Some d ∧
    (b_valid d = false ∧ cs' = cs ∧
       (∀ j x, cs !! j = Some x → (j < v)%nat → b_valid x = true) ∨
     Forall (λ x, b_valid x = true) cs ∧
       Forall (λ x, counter (rrpv x) ≤ counter (rrpv d)) cs ∧ cs' = brrip_age cs v).
Proof.
  intros Hne. destruct cs as [|c cs]; [done|]. unfold brrip_getVictim.
  pose proof (brrip_scan_spec (c :: cs) 0 0 (counter (rrpv c)) ltac:(lia)) as Hs.
  destruct (brrip_scan 0 0 (counter (rrpv c)) (c :: cs)) as [r|r].
  - destruct Hs as (_ & (w & Hw & Hv) & Hall). rewrite Nat.sub_0_r in Hw.
    exists r, (c :: cs), w. split_and!; [done|done|]. left. split_and!; [done|done|].
    intros j x Hx Hj. by apply (Hall j).
  - destruct Hs as (Hall & m & Hm & _ & Hmax).
    assert (∃ d, (c :: cs) !! r = Some d ∧ counter (rrpv d) = m) as (d & Hd & Ed).
    { destruct Hm as [[-> ->]|(_ & x & Hx & ->)]; [by exists c|].
      rewrite Nat.sub_0_r in Hx. by exists x. }
    exists r, (brrip_age (c :: cs) r), d. split_and!; [done|done|]. right.
    split_and!; [done| |done]. by rewrite Ed.
Qed.

(** ** What a policy promises to its callers

    The tables that use a policy rely on three things: the updates always
    succeed, without access information, and a victim is chosen among any
    non-empty list of candidates. *)

Class ReplLaws (G R : Type) `{ReplPolicy G R} := {
  law_invalidate r g : is_ok (rp_invalidate r g);
  law_touch t r g : is_ok (rp_touch t None r g);
  law_reset t r g : is_ok (rp_reset t None r g);
  law_victim cs g : cs ≠ [] → Z.of_nat (length cs) < 2 ^ 32 →
    succeeds (rp_getVictim cs g) (λ '(v, cs', _), (v < length cs)%nat ∧ length cs' = length cs)
}.

Ltac solve_laws := constructor; [intros; by eexists| intros; by eexists| intros; by eexists|].

Lemma scan_victim_law {R} (key : R → Z) cs :
  cs ≠ [] → succeeds (scan_victim (λ c v, key c <? key v) cs) (λ v, (v < length cs)%nat).
Proof.
  intros Hne. destruct (key_scan key cs Hne) as (r & w & -> & Hr & _).
  by apply lookup_lt_Some in Hr.
Qed.

#[export] Instance LRU_laws : ReplLaws unit LRUReplData.
Proof.
  solve_laws. intros cs g Hne _. apply succeeds_bind.
  eapply succeeds_mono; [by apply (scan_victim_law lastTouchTick)|]. simpl. auto.
Qed.

#[export] Instance FIFO_laws : ReplLaws Z FIFOReplData.
Proof.
  solve_laws. intros cs g Hne _. apply succeeds_bind.
  eapply succeeds_mono; [by apply (scan_victim_law tickInserted)|]. simpl. auto.
Qed.

#[export] Instance LFU_laws : ReplLaws unit LFUReplData.
Proof.
  solve_laws. intros cs g Hne _. apply succeeds_bind.
  eapply succeeds_mono; [by apply (scan_victim_law refCount)|]. simpl. auto.
Qed.

Lemma BIP_laws gen btp : @ReplLaws nat LRUReplData (BIP gen btp).
Proof.
  solve_laws. intros cs g Hne _. apply succeeds_bind.
  eapply succeeds_mono; [by apply (scan_victim_law lastTouchTick)|]. simpl. auto.
Qed.

Lemma first_index_lt {R} (p : R → bool) l i r :
  first_index p i l = Some r → (r < i + length l)%nat.
Proof.
  revert i. induction l as [|c l IH]; intros i; simpl; [done|].
  destruct (p c); [intros [= <-]; lia|]. intros ?%IH. lia.
Qed.

Lemma random_laws gen : @ReplLaws nat RandomReplData (RandomRP gen).
Proof.
  solve_laws. intros cs g Hne Hlen. simpl. unfold random_getVictim.
  destruct cs as [|c cs]; [done|]. set (l := c :: cs) in *.
  cbn [mbind outcome_bind succeeds]. split; [|done].
  destruct (first_index (λ d, negb (r_valid d)) 0 l) as [r|] eqn:E; cbn [default from_option id].
  - by apply first_index_lt in E.
  - unfold random_range. assert (0 < Z.of_nat (length l)) by (simpl; lia).
    replace (Z.of_nat (length l) - 1 - 0 + 1) with (Z.of_nat (length l)) by lia.
    rewrite (wrap_id 32 (Z.of_nat _)) by in_word.
    pose proof (Z.mod_pos_bound (gen g) (Z.of_nat (length l))).
    rewrite Z.add_0_r, wrap_id by in_word. lia.
Qed.

#[export] Instance SecondChance_laws : ReplLaws Z SecondChanceReplData.
Proof.
  solve_laws. intros cs g Hne _. simpl.
  destruct (sc_getVictim_spec cs g Hne) as (v & cs' & t' & d & -> & Hl & Hv & _).
  apply lookup_lt_Some in Hv. simpl. lia.
Qed.

Lemma brrip_age_length cs v : length (brrip_age cs v) = length cs.
Proof.
  unfold brrip_age. destruct (cs !! v); [|done]. destruct (saturate _).
  destruct (0 <? z); by rewrite ?length_fmap, length_insert.
Qed.

Lemma BRRIP_laws gen cfg : @ReplLaws nat BRRIPReplData (BRRIP gen cfg).
Proof.
  solve_laws. intros cs g Hne _. simpl.
  destruct (brrip_getVictim_spec cs Hne) as (v & cs' & d & -> & Hd & Hcs). simpl.
  split; [by eapply lookup_lt_Some|].
  destruct Hcs as [(_ & -> & _)|(_ & _ & ->)]; [done|]. apply brrip_age_length.
Qed.

(** ** Theorems *)

(** The victim of the timestamp and counting policies is a candidate and is
    the first minimum of what the policy orders by: the least recent touch for
    LRU, the oldest insertion for FIFO, the fewest references for LFU, and for
    weighted LRU the smallest weight with the oldest touch among equal
    weights. *)
Theorem victims_are_first_minimum (lru : list LRUReplData) (fifo : list FIFOReplData)
    (lfu : list LFUReplData) (wl : list WeightedLRUReplData) :
  lru ≠ [] → fifo ≠ [] → lfu ≠ [] → wl ≠ [] →
  (∃ r w, lru_getVictim lru = Ok r ∧ lru !! r = Some w ∧
     Forall (λ x, lastTouchTick w ≤ lastTouchTick x) lru ∧
     (∀ j x, lru !! j = Some x → (j < r)%nat → lastTouchTick w < lastTouchTick x)) ∧
  (∃ r w, fifo_getVictim fifo = Ok r ∧ fifo !! r = Some w ∧
     Forall (λ x, tickInserted w ≤ tickInserted x) fifo ∧
     (∀ j x, fifo !! j = Some x → (j < r)%nat → tickInserted w < tickInserted x)) ∧
  (∃ r w, lfu_getVictim lfu = Ok r ∧ lfu !! r = Some w ∧
     Forall (λ x, refCount w ≤ refCount x) lfu ∧
     (∀ j x, lfu !! j = Some x → (j < r)%nat → refCount w < refCount x)) ∧
  (∃ r w, wlru_getVictim wl = Ok r ∧ wl !! r = Some w ∧
     Forall (λ x, last_occ_ptr w < last_occ_ptr x ∨
       last_occ_ptr w = last_occ_ptr x ∧ w_lastTouchTick w ≤ w_lastTouchTick x) wl).
Proof.
  intros H1 H2 H3 H4. split; [by apply (key_scan lastTouchTick)|].
  split; [by apply (key_scan tickInserted)|]. split; [by apply (key_scan refCount)|].
  destruct (scan_victim_spec wlru_better) with (cs := wl) as (r & w & E & Hr & Hb & _);
    [unfold wlru_better; intros; lia..|done|].
  exists r, w. split_and!; [done|done|]. eapply Forall_impl; [exact Hb|].
  unfold wlru_better. simpl. lia.
Qed.

Lemma victims_are_first_minimum_witness :
  ∃ r w, lru_getVictim [mkLRU 5; mkLRU 3; mkLRU 3] = Ok r ∧
    [mkLRU 5; mkLRU 3; mkLRU 3] !! r = Some w.
Proof.
  destruct (victims_are_first_minimum [mkLRU 5; mkLRU 3; mkLRU 3] [mkFIFO 1] [mkLFU 1] [mkWLRU 1 1]
    ltac:(done) ltac:(done) ltac:(done) ltac:(done)) as [(r & w & E & Hr & _) _].
  by exists r, w.
Defined.

(** The second-chance search always ends, with a victim that has no second
    chance left; it returns an invalid entry if there is one, and otherwise the
    oldest entry after those with a second chance have been moved to the back
    of the order. *)
Theorem second_chance_ends (cs : list SecondChanceReplData) (timeTicks : Z) :
  cs ≠ [] →
  ∃ v cs' t' d, sc_getVictim cs timeTicks = Ok (v, cs', t') ∧ length cs' = length cs ∧
    cs' !! v = Some d ∧ hasSecondChance d = false ∧
    (tickInserted (sc_fifo d) = 0 ∧ cs' = cs ∨
     Forall (λ x, tickInserted (sc_fifo d) ≤ tickInserted (sc_fifo x)) cs').
Proof. apply sc_getVictim_spec. Qed.

Lemma second_chance_ends_witness :
  ∃ v cs' t' d, sc_getVictim [mkSC (mkFIFO 1) true; mkSC (mkFIFO 2) false] 2 = Ok (v, cs', t') ∧
    cs' !! v = Some d ∧ hasSecondChance d = false.
Proof.
  destruct (second_chance_ends [mkSC (mkFIFO 1) true; mkSC (mkFIFO 2) false] 2 ltac:(done))
    as (v & cs' & t' & d & E & _ & Hv & Hh & _).
  exists v, cs', t', d. split; [exact E|split; [exact Hv|exact Hh]].
Defined.

(** BRRIP evicts the first invalid entry if there is one, without ageing;
    otherwise an entry whose re-reference prediction is the largest. *)
Theorem brrip_victim (cs : list BRRIPReplData) :
  cs ≠ [] →
  ∃ v cs' d, brrip_getVictim cs = Ok (v, cs') ∧ cs !! v = Some d ∧
    (b_valid d = false ∧ cs' = cs ∧
       (∀ j x, cs !! j = Some x → (j < v)%nat → b_valid x = true) ∨
     Forall (λ x, b_valid x = true) cs ∧
       Forall (λ x, counter (rrpv x) ≤ counter (rrpv d)) cs ∧ cs' = brrip_age cs v).
Proof. apply brrip_getVictim_spec. Qed.

Lemma brrip_victim_witness :
  let cs := [mkBRRIP (mkSat 0 3 1) true; mkBRRIP (mkSat 0 3 2) true] in
  ∃ v cs' d, brrip_getVictim cs = Ok (v, cs') ∧ cs !! v = Some d.
Proof.
  intros cs. destruct (brrip_victim cs ltac:(done)) as (v & cs' & d & E & Hd & _).
  exists v, cs', d. split; [exact E|exact Hd].
Defined.

(** SHiP's comment says the predictor is detrained when an entry that has not been
    re-referenced is invalidated; the code detrains it when the entry has been. *)
Example ship_detrains_reused_entries :
  let g := mkSHiPState [mkSat 0 3 2] 0 in
  SHCT (ship_invalidate (mkSHiP (mkBRRIP (mkSat 0 3 1) true) 0 true) g).2 = [mkSat 0 3 1] ∧
  SHCT (ship_invalidate (mkSHiP (mkBRRIP (mkSat 0 3 1) true) 0 false) g).2 = [mkSat 0 3 2].
Proof. by vm_compute. Qed.
