(* ===== verification/TreePLRU.v ===== *)
(** * Tree pseudo-LRU

    [src/src/mem/cache/replacement_policies/tree_plru_rp.{hh,cc}].  The entries of a
    set share a binary tree stored as an array of bits, one per inner node; a
    bit tells in which subtree the pseudo-least-recently-used leaf is.  The policy
    holds the trees it has created and each entry refers to its tree by
    number, so an update through one entry is seen by the others. *)

From Stdlib Require Import ZArith Lia.
From stdpp Require Import base numbers option list strings.
From S2P Require Import Prelude PrefetchBase Replacement.
#[local] Open Scope Z_scope.

Abbreviation PLRUTree := (list bool).

Definition parentIndex (index : Z) : Z := u64 (index - 1) / 2.
Definition leftSubtreeIndex (index : Z) : Z := u64 (2 * index + 1).
Definition rightSubtreeIndex (index : Z) : Z := u64 (2 * index + 2).
Definition isRightSubtree (index : Z) : bool := index mod 2 =? 0.

Record TreePLRUReplData := mkPLRU { plru_index : Z; plru_tree : nat }.

Record TreePLRUState := mkPLRUState {
  numLeaves : Z;
  plru_count : Z;
  plru_trees : list PLRUTree  (** the trees created so far; the last is [treeInstance] *)
}.

Definition plru_new (num_leaves : Z) : outcome TreePLRUState :=
  _ ← fatal_if (num_leaves <? 1) "numLeaves should never be 0";
  Ok (mkPLRUState num_leaves 0 []).

(** [tree->at(i) = b], which raises when [i] is out of range. *)
Definition tree_set (tree : PLRUTree) (i : Z) (b : bool) : outcome PLRUTree :=
  if i <? Z.of_nat (length tree) then Ok (<[Z.to_nat i := b]> tree)
  else Stop (Panic "vector::at").

(** The loop from a leaf to the root: every node on the way points towards the
    leaf ([towards]) or away from it.  The number of nodes bounds its rounds;
    [None] when the fuel is used up. *)
Fixpoint update_path (fuel : nat) (towards : bool) (tree_index : Z) (tree : PLRUTree)
    : option (outcome PLRUTree) :=
  match fuel with
  | O => None
  | S fuel =>
      let right := isRightSubtree tree_index in
      let tree_index := parentIndex tree_index in
      match tree_set tree tree_index (if towards then right else negb right) with
      | Stop e => Some (Stop e)
      | Ok tree => if tree_index =? 0 then Some (Ok tree)
                   else update_path fuel towards tree_index tree
      end
  end.

Definition on_tree (f : PLRUTree → outcome PLRUTree) (d : TreePLRUReplData) (g : TreePLRUState)
    : outcome TreePLRUState :=
  match plru_trees g !! plru_tree d with
  | None => Stop (Panic "entry without a tree")
  | Some tree =>
      tree ← f tree;
      Ok (mkPLRUState (numLeaves g) (plru_count g) (<[plru_tree d := tree]> (plru_trees g)))
  end.

Definition plru_update (towards : bool) (d : TreePLRUReplData) (tree : PLRUTree)
    : outcome PLRUTree :=
  match update_path (S (length tree)) towards (plru_index d) tree with
  | Some r => r
  | None => Stop (Panic "path update does not end")
  end.

Definition plru_invalidate (d : TreePLRUReplData) (g : TreePLRUState) : outcome TreePLRUState :=
  on_tree (plru_update true d) d g.
Definition plru_touch (d : TreePLRUReplData) (g : TreePLRUState) : outcome TreePLRUState :=
  on_tree (plru_update false d) d g.

(** The walk from the root to the leaf the bits point at. *)
Fixpoint walk (fuel : nat) (tree : PLRUTree) (tree_index : Z) : option Z :=
  match fuel with
  | O => None
  | S fuel =>
      if tree_index <? Z.of_nat (length tree) then
        match tree !! Z.to_nat tree_index with
        | None => None
        | Some b => walk fuel tree
                      (if b : bool then rightSubtreeIndex tree_index
                       else leftSubtreeIndex tree_index)
        end
      else Some tree_index
  end.

Definition plru_getVictim (cs : list TreePLRUReplData) (g : TreePLRUState) : outcome nat :=
  match cs with
  | [] => Stop (AssertFail "candidates.size() > 0")
  | c :: _ =>
      match plru_trees g !! plru_tree c with
      | None => Stop (Panic "entry without a tree")
      | Some tree =>
          match walk (S (length tree)) tree 0 with
          | None => Stop (Panic "victim search does not end")
          | Some i =>
              let v := u64 (i - u64 (numLeaves g - 1)) in
              if v <? Z.of_nat (length cs) then Ok (Z.to_nat v) else Stop (Panic "vector::at")
          end
      end
  end.

Definition plru_instantiate (g : TreePLRUState) : TreePLRUReplData * TreePLRUState :=
  let trees := if plru_count g mod numLeaves g =? 0
               then plru_trees g ++ [replicate (Z.to_nat (numLeaves g - 1)) false]
               else plru_trees g in
  (mkPLRU (u64 (plru_count g mod numLeaves g + numLeaves g - 1)) (length trees - 1),
   mkPLRUState (numLeaves g) (u64 (plru_count g + 1)) trees).

#[export] Instance TreePLRU : ReplPolicy TreePLRUState TreePLRUReplData := {|
  rp_invalidate d g := g ← plru_invalidate d g; Ok (d, g);
  rp_touch _ _ d g := g ← plru_touch d g; Ok (d, g);
  rp_reset _ _ d g := g ← plru_touch d g; Ok (d, g);
  rp_getVictim cs g := v ← plru_getVictim cs g; Ok (v, cs, g);
  rp_instantiate g := Ok (plru_instantiate g)
|}.

(** ** The tree *)

Section Tree.
(** [n] inner nodes; the leaves are the indices [n] to [2 n]. *)
Context (n : Z) (Hn : 1 ≤ n < 2 ^ 62).

Definition in_tree (i : Z) : Prop := 0 ≤ i ≤ 2 * n.

Lemma parent_eq i : in_tree i → i ≠ 0 → parentIndex i = (i - 1) / 2.
Proof using Hn.
  intros Hi Hne. unfold parentIndex, in_tree in *. rewrite wrap_id; [done|]. unfold in_u. lia.
Qed.

Lemma parent_range i : in_tree i → i ≠ 0 → 0 ≤ parentIndex i < n ∧ parentIndex i < i.
Proof using Hn.
  intros Hi Hne. rewrite parent_eq by done. unfold in_tree in *. Z.div_mod_to_equations. lia.
Qed.

(** The child a node's bit selects is the one whose parent it is. *)
Definition child (i : Z) (b : bool) : Z := if b then rightSubtreeIndex i else leftSubtreeIndex i.

Lemma child_eq i b : 0 ≤ i < n → child i b = 2 * i + (if b then 2 else 1).
Proof using Hn.
  intros Hi. unfold child, rightSubtreeIndex, leftSubtreeIndex. destruct b;
    rewrite wrap_id; try done; unfold in_u; lia.
Qed.

Lemma child_in i b : 0 ≤ i < n → in_tree (child i b) ∧ i < child i b ∧ child i b ≠ 0.
Proof using Hn. intros Hi. rewrite child_eq by done. unfold in_tree. destruct b; lia. Qed.

Lemma parent_child i b : 0 ≤ i < n → parentIndex (child i b) = i ∧ isRightSubtree (child i b) = b.
Proof using Hn.
  intros Hi. destruct (child_in i b Hi) as (H1 & H2 & H3).
  rewrite parent_eq by done. rewrite child_eq by done. unfold isRightSubtree. split.
  - destruct b; Z.div_mod_to_equations; lia.
  - destruct b; [apply Z.eqb_eq|apply Z.eqb_neq]; Z.div_mod_to_equations; lia.
Qed.

Lemma child_parent i : in_tree i → i ≠ 0 → child (parentIndex i) (isRightSubtree i) = i.
Proof using Hn.
  intros Hi Hne. destruct (parent_range i Hi Hne) as [Hp _].
  rewrite child_eq by done. rewrite parent_eq in * by done. unfold isRightSubtree.
  destruct (Z.eqb_spec (i mod 2) 0); Z.div_mod_to_equations; lia.
Qed.

(** [anc a i]: [a] lies on the way from [i] to the root. *)
Inductive anc (a : Z) : Z → Prop :=
| anc_self : anc a a
| anc_up i : in_tree i → i ≠ 0 → anc a (parentIndex i) → anc a i.

Lemma anc_child a i b : 0 ≤ a < n → anc (child a b) i → anc a i.
Proof using Hn.
  intros Ha. induction 1 as [|i Hi Hne _ IH].
  - destruct (child_in a b Ha) as (H1 & _ & H3). apply anc_up; [done|done|].
    rewrite (proj1 (parent_child a b Ha)). constructor.
  - by apply anc_up.
Qed.

Lemma anc_le a i : 0 ≤ i → anc a i → a ≤ i.
Proof using Hn.
  intros _. induction 1 as [|i Hi Hne _ IH]; [lia|].
  destruct (parent_range i Hi Hne). lia.
Qed.

Lemma anc_inv a i : anc a i → a = i ∨ in_tree i ∧ i ≠ 0 ∧ anc a (parentIndex i).
Proof using. destruct 1; [by left|by right]. Qed.

Lemma anc_step a i : anc a i → a = i ∨ ∃ c, in_tree c ∧ c ≠ 0 ∧ parentIndex c = a ∧ anc c i.
Proof using.
  induction 1 as [|i Hi Hne Ha IH]; [by left|right].
  destruct IH as [->|(c & Hc & Hc0 & Hp & Hci)].
  - exists i. split_and!; [done|done|done|constructor].
  - exists c. split_and!; [done|done|done|by apply anc_up].
Qed.

Lemma anc_root i : in_tree i → anc 0 i.
Proof using Hn.
  intros Hi. assert (0 ≤ i) as H0 by (unfold in_tree in Hi; lia). revert H0 Hi.
  apply (Zlt_0_ind (λ i, in_tree i → anc 0 i)). clear i. intros i IH Hi0 Hi.
  destruct (decide (i = 0)) as [->|Hne]; [constructor|].
  destruct (parent_range i Hi Hne). apply anc_up; [done|done|].
  apply IH; [lia|]. unfold in_tree in *. lia.
Qed.

Lemma tree_set_ok tree i b :
  Z.of_nat (length tree) = n → 0 ≤ i < n → tree_set tree i b = Ok (<[Z.to_nat i := b]> tree).
Proof using.
  intros Hl Hi. unfold tree_set. by rewrite (proj2 (Z.ltb_lt _ _)) by lia.
Qed.

(** After an update of the path of [i], every node on it points towards [i] or
    away from it, and the other nodes are as before. *)
Lemma update_path_spec towards fuel i tree :
  Z.of_nat (length tree) = n → in_tree i → i ≠ 0 → (Z.to_nat (parentIndex i) < fuel)%nat →
  ∃ tree', update_path fuel towards i tree = Some (Ok tree') ∧
    Z.of_nat (length tree') = n ∧
    (∀ c, in_tree c → c ≠ 0 → anc c i →
       tree' !! Z.to_nat (parentIndex c)
       = Some (if towards then isRightSubtree c else negb (isRightSubtree c))) ∧
    (∀ j, 0 ≤ j → (∀ c, in_tree c → c ≠ 0 → anc c i → parentIndex c ≠ j) →
       tree' !! Z.to_nat j = tree !! Z.to_nat j).
Proof using Hn.
  revert i tree. induction fuel as [|fuel IH]; intros i tree Hl Hi Hne Hf; [lia|].
  cbn [update_path]. destruct (parent_range i Hi Hne) as [Hp Hlt].
  set (v := if towards then _ else _). rewrite (tree_set_ok _ _ _ Hl Hp).
  set (tree1 := <[Z.to_nat (parentIndex i) := v]> tree).
  assert (Z.of_nat (length tree1) = n) as Hl1 by (subst tree1; by rewrite length_insert).
  assert (tree1 !! Z.to_nat (parentIndex i) = Some v) as Hv
    by (apply list_lookup_insert_eq; lia).
  destruct (Z.eqb_spec (parentIndex i) 0) as [E0|Hp0].
  - exists tree1. split_and!; [done|done| |].
    + intros c Hc Hc0 Ha. apply anc_inv in Ha as [->|(_ & _ & Ha)]; [done|].
      exfalso. rewrite E0 in Ha. apply (anc_le _ 0) in Ha; [|done]. unfold in_tree in Hc. lia.
    + intros j Hj Hnot. apply list_lookup_insert_ne. intros E.
      apply (Hnot i Hi Hne (anc_self _)). lia.
  - assert (in_tree (parentIndex i)) as Hpi by (unfold in_tree in *; lia).
    destruct (parent_range _ Hpi Hp0) as [Hpp Hplt].
    destruct (IH (parentIndex i) tree1 Hl1 Hpi Hp0 ltac:(lia)) as (tree' & E & Hl' & Hset & Hkeep).
    exists tree'. split_and!; [done|done| |].
    + intros c Hc Hc0 Ha. apply anc_inv in Ha as [->|(_ & _ & Ha)].
      * rewrite Hkeep; [done|lia|]. intros c' Hc' Hc0' Ha'.
        pose proof (anc_le c' (parentIndex i) ltac:(unfold in_tree in Hpi; lia) Ha').
        destruct (parent_range c' Hc' Hc0'). lia.
      * by apply Hset.
    + intros j Hj Hnot. rewrite Hkeep; [|done|].
      * apply list_lookup_insert_ne. intros E'. apply (Hnot i Hi Hne (anc_self _)). lia.
      * intros c Hc Hc0 Ha. apply Hnot; [done|done|by apply anc_up].
Qed.

(** The walk ends at a leaf below its start, through the child its start points
    at. *)
Lemma walk_spec fuel tree x :
  Z.of_nat (length tree) = n → in_tree x → (Z.to_nat (n - x) < fuel)%nat →
  ∃ y, walk fuel tree x = Some y ∧ n ≤ y ∧ in_tree y ∧ anc x y ∧
    (x < n → ∃ b, tree !! Z.to_nat x = Some b ∧ anc (child x b) y).
Proof using Hn.
  revert x. induction fuel as [|fuel IH]; intros x Hl Hx Hf; [lia|]. cbn [walk]. rewrite Hl.
  destruct (Z.ltb_spec x n) as [Hlt|Hge].
  2: { exists x. split_and!; [done|done|done|constructor|lia]. }
  assert (0 ≤ x) by (unfold in_tree in Hx; lia).
  destruct (lookup_lt_is_Some_2 tree (Z.to_nat x) ltac:(lia)) as [b Hb]. rewrite Hb.
  change (if b then _ else _) with (child x b).
  destruct (child_in x b ltac:(lia)) as (Hc & Hxc & _).
  destruct (IH (child x b) Hl Hc ltac:(lia)) as (y & E & Hy & Hiy & Ha & _).
  exists y. split_and!; [done|done|done|by eapply anc_child; [lia|]|eauto].
Qed.

(** Where the bits of the path of [i] point towards it, the walk arrives at [i]. *)
Lemma walk_to fuel tree x i :
  Z.of_nat (length tree) = n → in_tree i → n ≤ i → anc x i → in_tree x →
  (Z.to_nat (n - x) < fuel)%nat →
  (∀ c, in_tree c → c ≠ 0 → anc c i → tree !! Z.to_nat (parentIndex c) = Some (isRightSubtree c)) →
  walk fuel tree x = Some i.
Proof using Hn.
  revert x. induction fuel as [|fuel IH]; intros x Hl Hi Hin Hax Hx Hf Hset; [lia|].
  cbn [walk]. rewrite Hl. destruct (anc_step x i Hax) as [->|(c & Hc & Hc0 & Hp & Hci)].
  - by rewrite (proj2 (Z.ltb_ge _ _)) by lia.
  - destruct (parent_range c Hc Hc0) as [Hr Hlt]. rewrite Hp in Hr, Hlt.
    rewrite (proj2 (Z.ltb_lt _ _)) by lia.
    pose proof (Hset c Hc Hc0 Hci) as Hb. rewrite Hp in Hb. rewrite Hb.
    change (if isRightSubtree c then _ else _) with (child x (isRightSubtree c)).
    rewrite <-Hp, (child_parent c Hc Hc0). apply IH; try done. lia.
Qed.
End Tree.

(** ** One set of entries *)

(** The candidates [cs] are the entries of tree [t], in order. *)
Record plru_set (g : TreePLRUState) (t : nat) (cs : list TreePLRUReplData) : Prop := {
  ps_leaves : 2 ≤ numLeaves g < 2 ^ 62;
  ps_length : Z.of_nat (length cs) = numLeaves g;
  ps_entry : ∀ k d, cs !! k = Some d → d = mkPLRU (numLeaves g - 1 + Z.of_nat k) t;
  ps_tree : ∃ tree, plru_trees g !! t = Some tree ∧ Z.of_nat (length tree) = numLeaves g - 1
}.

Lemma plru_update_spec g t cs k d towards :
  plru_set g t cs → cs !! k = Some d →
  ∃ tree', on_tree (plru_update towards d) d g
      = Ok (mkPLRUState (numLeaves g) (plru_count g) (<[t := tree']> (plru_trees g))) ∧
    Z.of_nat (length tree') = numLeaves g - 1 ∧
    (∀ c, in_tree (numLeaves g - 1) c → c ≠ 0 → anc (numLeaves g - 1) c (plru_index d) →
       tree' !! Z.to_nat (parentIndex c)
       = Some (if towards then isRightSubtree c else negb (isRightSubtree c))).
Proof.
  intros [H1 H2 H3 (tree & Ht & Hl)] Hd. pose proof (lookup_lt_Some _ _ _ Hd) as Hk.
  apply H3 in Hd as ->. unfold on_tree. cbn [plru_tree plru_index]. rewrite Ht.
  set (n := numLeaves g - 1) in *. set (i := n + Z.of_nat k).
  assert (1 ≤ n < 2 ^ 62) as Hn by lia.
  assert (in_tree n i) as Hi by (unfold in_tree; lia). assert (i ≠ 0) as Hne by lia.
  destruct (parent_range n Hn i Hi Hne) as [Hp _].
  destruct (update_path_spec n Hn towards (S (length tree)) i tree Hl Hi Hne ltac:(lia))
    as (tree' & E & Hl' & Hset & _).
  exists tree'. unfold plru_update. cbn [plru_index]. fold i. rewrite E. done.
Qed.

(** The walk of a set's tree ends at one of its entries. *)
Lemma plru_victim_spec g t cs tree :
  plru_set g t cs → plru_trees g !! t = Some tree →
  ∃ y, walk (S (length tree)) tree 0 = Some y ∧
    numLeaves g - 1 ≤ y ≤ 2 * (numLeaves g - 1) ∧
    plru_getVictim cs g = Ok (Z.to_nat (y - (numLeaves g - 1))) ∧
    ∃ b, tree !! 0%nat = Some b ∧ anc (numLeaves g - 1) (child 0 b) y.
Proof.
  intros [H1 H2 H3 (tree0 & Ht0 & Hl)] Ht. rewrite Ht in Ht0. injection Ht0 as <-.
  set (n := numLeaves g - 1) in *. assert (1 ≤ n < 2 ^ 62) as Hn by lia.
  destruct (walk_spec n Hn (S (length tree)) tree 0 Hl ltac:(unfold in_tree; lia) ltac:(lia))
    as (y & E & Hy & Hiy & Ha & Hb).
  exists y. split; [done|]. unfold in_tree in Hiy. split; [lia|]. split; [|apply (Hb ltac:(lia))].
  destruct cs as [|c cs]; [simpl in H2; lia|].
  pose proof (H3 0%nat c eq_refl) as ->. unfold plru_getVictim. cbn [plru_tree]. rewrite Ht, E.
  fold n. rewrite (wrap_id 64 n) by in_word. rewrite wrap_id by in_word.
  by rewrite (proj2 (Z.ltb_lt _ _)) by lia.
Qed.

Lemma plru_set_update g t cs tree' :
  plru_set g t cs → Z.of_nat (length tree') = numLeaves g - 1 →
  plru_set (mkPLRUState (numLeaves g) (plru_count g) (<[t := tree']> (plru_trees g))) t cs ∧
  <[t := tree']> (plru_trees g) !! t = Some tree'.
Proof.
  intros [H1 H2 H3 (tree & Ht & Hl)] Hl'.
  assert (<[t := tree']> (plru_trees g) !! t = Some tree') as E
    by (apply list_lookup_insert_eq; by eapply lookup_lt_Some).
  split; [|done]. split; try done. eauto.
Qed.

(** Tree pseudo-LRU keeps its two promises for every number of ways from
    two on: an entry that was just touched (or inserted) is not the next victim, and
    an entry that was just invalidated is the next victim.  All the walks end
    and stay inside the tree. *)
Theorem plru_touch_and_invalidate (g : TreePLRUState) (t k : nat) (cs : list TreePLRUReplData)
    (d : TreePLRUReplData) :
  plru_set g t cs → cs !! k = Some d →
  (∃ g' v, plru_touch d g = Ok g' ∧ plru_set g' t cs ∧ plru_getVictim cs g' = Ok v ∧
     (v < length cs)%nat ∧ v ≠ k) ∧
  (∃ g', plru_invalidate d g = Ok g' ∧ plru_set g' t cs ∧ plru_getVictim cs g' = Ok k).
Proof.
  intros Hs Hd. pose proof (ps_leaves _ _ _ Hs) as Hn.
  pose proof (lookup_lt_Some _ _ _ Hd) as Hk. pose proof (ps_length _ _ _ Hs) as Hlen.
  pose proof (ps_entry _ _ _ Hs _ _ Hd) as Ed.
  set (n := numLeaves g - 1) in *. assert (1 ≤ n < 2 ^ 62) as Hn' by lia.
  assert (in_tree n (plru_index d)) as Hi by (subst d; simpl; unfold in_tree; lia).
  split.
  - destruct (plru_update_spec g t cs k d false Hs Hd) as (tree' & E & Hl & Hset).
    destruct (plru_set_update g t cs tree' Hs Hl) as [Hs' Ht'].
    destruct (plru_victim_spec _ t cs tree' Hs' Ht') as (y & _ & Hy & Ev & b & Hb & Ha).
    cbn [numLeaves] in *. fold n in Hy, Ev, Ha.
    eexists _, _. split; [exact E|]. split; [exact Hs'|]. split; [exact Ev|]. split; [lia|].
    intros Ek. assert (y = plru_index d) as Ey by (subst d; simpl; lia). subst y.
    destruct (child_in n Hn' 0 b ltac:(lia)) as (Hc & _ & Hc0).
    pose proof (Hset _ Hc Hc0 Ha) as Hb'.
    destruct (parent_child n Hn' 0 b ltac:(lia)) as [Ep Er].
    rewrite Ep, Er in Hb'. change (Z.to_nat 0) with 0%nat in Hb'. rewrite Hb in Hb'.
    by destruct b.
  - destruct (plru_update_spec g t cs k d true Hs Hd) as (tree' & E & Hl & Hset).
    destruct (plru_set_update g t cs tree' Hs Hl) as [Hs' Ht'].
    destruct (plru_victim_spec _ t cs tree' Hs' Ht') as (y & Ew & Hy & Ev & _).
    cbn [numLeaves] in *. fold n in Hy, Ev.
    eexists. split; [exact E|]. split; [exact Hs'|]. rewrite Ev.
    rewrite (walk_to n Hn' (S (length tree')) tree' 0 (plru_index d)) in Ew; try done.
    + injection Ew as <-. subst d. simpl. do 2 f_equal. lia.
    + subst d. simpl. lia.
    + by apply anc_root.
    + unfold in_tree. lia.
    + lia.
Qed.

(** Six entries of a fresh policy for sets of six. *)
Definition ex_plru : list TreePLRUReplData * TreePLRUState :=
  foldl (λ '(cs, g) _, let '(d, g) := plru_instantiate g in (cs ++ [d], g))
    ([], mkPLRUState 6 0 []) (seq 0 6).

Lemma ex_plru_set : plru_set ex_plru.2 0 ex_plru.1.
Proof.
  split; [vm_compute; split; [discriminate|reflexivity]|by vm_compute| |].
  - intros k d. do 6 (destruct k as [|k]; [by intros [= <-]|]). done.
  - exists (replicate 5 false). by vm_compute.
Qed.

Lemma plru_touch_and_invalidate_witness :
  ∃ g', plru_invalidate (mkPLRU 7 0) ex_plru.2 = Ok g' ∧
        plru_getVictim ex_plru.1 g' = Ok 2%nat.
Proof.
  destruct (plru_touch_and_invalidate ex_plru.2 0 2 ex_plru.1 (mkPLRU 7 0) ex_plru_set
    ltac:(by vm_compute)) as [_ (g' & E & _ & Ev)].
  exists g'. split; [exact E|exact Ev].
Defined.
