(* ===== verification/Dueling.v ===== *)
(** * Set dueling

    [src/src/mem/cache/tags/dueling.{hh,cc}] and
    [src/src/mem/cache/replacement_policies/dueling_rp.{hh,cc}].  A dueling monitor gives the
    first entries of every constituency to one team and the last ones to the other, counts
    the misses of the two teams against each other in a saturating counter, and keeps the
    team whose side the counter is on.  The dueling replacement policy runs two policies on
    every entry: the sampled sets are evicted by their own policy, all other sets by the one
    whose samples missed less.

    The theorems are about a table of entries created by the policy and used a set at a time:
    every operation succeeds, the monitor's winner is what the counter says, and which policy
    chooses the victim of each set. *)

From Stdlib Require Import ZArith Lia QArith Lqa.
From stdpp Require Import base numbers option list strings.
From S2P Require Import Prelude Double Interval SatCounter PrefetchBase Replacement.
#[local] Open Scope Z_scope.

(** ** Duelers *)

Definition popCount (v : Z) : Z := Z.of_nat (length (filter (λ i, Z.testbit v (Z.of_nat i) = true) (seq 0 64))).

(** The two bit sets of a dueler, one bit per monitor. *)
Record Dueler := mkDueler { _isSample : Z; _team : Z }.

Definition dueler_new : Dueler := mkDueler 0 0.

Definition setSample (id : Z) (team : bool) (d : Dueler) : outcome Dueler :=
  _ ← panic_if (negb (popCount id =? 1)) "The id must have a single bit set.";
  _ ← panic_if (negb (Z.land (_isSample d) id =? 0)) "This dueler is already a sample for id";
  Ok (mkDueler (Z.lor (_isSample d) id) (if team then Z.lor (_team d) id else _team d)).

(** The result and the reference argument [team]. *)
Definition isSample (id : Z) (d : Dueler) : bool * bool :=
  (negb (Z.land (_isSample d) id =? 0), negb (Z.land (_team d) id =? 0)).

(** ** The monitor *)

Definition NUM_DUELERS : Z := 2.

Record DuelingMonitor := mkMonitor {
  dm_id : Z;
  constituencySize : Z;
  teamSize : Z;
  lowThreshold : double;
  highThreshold : double;
  selector : SatCounter;
  regionCounter : Z;
  winner : bool
}.

(** The constructor, with the number of instances there are before and after it.  The
    literal one that is shifted is an [int]. *)
Definition monitor_new (numInstances constituency_size team_size num_bits : Z) (low_threshold high_threshold : double)
    : outcome (DuelingMonitor * Z) :=
  id ← (if numInstances <? 32 then Ok (u64 (i32 (Z.shiftl 1 numInstances))) else Stop (Panic "shift beyond the width of an int"));
  sel ← sat_new 32 num_bits 0;
  _ ← fatal_if (constituency_size <? u64 (NUM_DUELERS * team_size))
        "There must be at least team size entries per team in a constituency";
  _ ← fatal_if (63 <? numInstances) "Too many Dueling instances";
  _ ← fatal_if (dleb low_threshold d0 || dleb d1 high_threshold) "The low threshold must be within the range ]0.0, 1.0[";
  _ ← fatal_if (dleb high_threshold d0 || dleb d1 high_threshold) "The high threshold must be within the range ]0.0, 1.0[";
  _ ← fatal_if (dltb high_threshold low_threshold) "The low threshold must be below the high threshold";
  sel ← sat_shr (saturate sel).2 1;
  Ok (mkMonitor id constituency_size team_size low_threshold high_threshold sel 0
        (negb (dltb (calcSaturation sel) low_threshold)), u32 (numInstances + 1)).

Definition with_selector (m : DuelingMonitor) (sel : SatCounter) (w : bool) : DuelingMonitor :=
  mkMonitor (dm_id m) (constituencySize m) (teamSize m) (lowThreshold m) (highThreshold m) sel (regionCounter m) w.

Definition sample (d : Dueler) (m : DuelingMonitor) : DuelingMonitor :=
  match isSample (dm_id m) d with
  | (true, true) =>
      let sel := sat_inc (selector m) in
      with_selector m sel (if dleb (highThreshold m) (calcSaturation sel) then true else winner m)
  | (true, false) =>
      let sel := sat_dec (selector m) in
      with_selector m sel (if dltb (calcSaturation sel) (lowThreshold m) then false else winner m)
  | (false, _) => m
  end.

(** [regionCounter] is an [int], compared with sizes as [unsigned long]. *)
Definition initEntry (d : Dueler) (m : DuelingMonitor) : outcome (Dueler * DuelingMonitor) :=
  let r := u64 (regionCounter m) in
  d ← (if r <? teamSize m then setSample (dm_id m) false d
       else if u64 (constituencySize m - teamSize m) <=? r then setSample (dm_id m) true d
       else Ok d);
  let r' := i32 (regionCounter m + 1) in
  Ok (d, mkMonitor (dm_id m) (constituencySize m) (teamSize m) (lowThreshold m) (highThreshold m) (selector m)
           (if constituencySize m <=? u64 r' then 0 else r') (winner m)).

(** ** The replacement policy *)

Record DuelerReplData (RA RB : Type) := mkDuelData { replDataA : RA; replDataB : RB; dueler : Dueler }.
Arguments mkDuelData {RA RB} _ _ _.
Arguments replDataA {RA RB} _.
Arguments replDataB {RA RB} _.
Arguments dueler {RA RB} _.

Record DuelState (GA GB : Type) := mkDuel {
  policyA : GA;
  policyB : GB;
  duelingMonitor : DuelingMonitor;
  selectedA : Z;
  selectedB : Z
}.
Arguments mkDuel {GA GB} _ _ _ _ _.
Arguments policyA {GA GB} _.
Arguments policyB {GA GB} _.
Arguments duelingMonitor {GA GB} _.
Arguments selectedA {GA GB} _.
Arguments selectedB {GA GB} _.

Section Policy.
Context {GA RA GB RB : Type} `{ReplPolicy GA RA} `{ReplPolicy GB RB}.
Implicit Types (d : DuelerReplData RA RB) (g : DuelState GA GB).

Definition duel_invalidate d g : outcome (DuelerReplData RA RB * DuelState GA GB) :=
  '(a, ga) ← rp_invalidate (replDataA d) (policyA g);
  '(b, gb) ← rp_invalidate (replDataB d) (policyB g);
  Ok (mkDuelData a b (dueler d), mkDuel ga gb (duelingMonitor g) (selectedA g) (selectedB g)).

Definition duel_touch (curTick : Z) (pkt : option Packet) d g : outcome (DuelerReplData RA RB * DuelState GA GB) :=
  '(a, ga) ← rp_touch curTick pkt (replDataA d) (policyA g);
  '(b, gb) ← rp_touch curTick pkt (replDataB d) (policyB g);
  Ok (mkDuelData a b (dueler d), mkDuel ga gb (duelingMonitor g) (selectedA g) (selectedB g)).

(** A reset is a miss in the entry's set: a sample of the duel. *)
Definition duel_reset (curTick : Z) (pkt : option Packet) d g : outcome (DuelerReplData RA RB * DuelState GA GB) :=
  '(a, ga) ← rp_reset curTick pkt (replDataA d) (policyA g);
  '(b, gb) ← rp_reset curTick pkt (replDataB d) (policyB g);
  Ok (mkDuelData a b (dueler d), mkDuel ga gb (sample (dueler d) (duelingMonitor g)) (selectedA g) (selectedB g)).

(** Which policy chooses: that of the sampled team, or the one with fewer misses. *)
Definition selects_a (m : DuelingMonitor) (d : Dueler) : bool :=
  let '(is_sample, team) := isSample (dm_id m) d in
  let winner := negb (winner m) in
  (is_sample && negb team) || (negb is_sample && negb winner).

(** The loop over the candidates panics when a sample is of another team than the first
    candidate. *)
Fixpoint same_team (m : DuelingMonitor) (team : bool) (cs : list (DuelerReplData RA RB)) : outcome unit :=
  match cs with
  | [] => Ok tt
  | c :: cs =>
      let '(is_sample, candidate_team) := isSample (dm_id m) (dueler c) in
      _ ← panic_if (is_sample && negb (eqb team candidate_team)) "Not all sampled candidates belong to the same team";
      same_team m team cs
  end.

Definition set_a d (a : RA) : DuelerReplData RA RB := mkDuelData a (replDataB d) (dueler d).
Definition set_b d (b : RB) : DuelerReplData RA RB := mkDuelData (replDataA d) b (dueler d).

(** The candidates are shown to the chosen policy with its own data, which it may update. *)
Definition duel_getVictim (team_size : Z) (cs : list (DuelerReplData RA RB)) g
    : outcome (nat * list (DuelerReplData RA RB) * DuelState GA GB) :=
  _ ← panic_if (negb (Z.of_nat (length cs) =? team_size))
        "We currently only support team sizes that match the number of replacement candidates";
  match cs with
  | [] => Stop (Panic "first of an empty vector")
  | c0 :: _ =>
      let m := duelingMonitor g in
      _ ← same_team m (isSample (dm_id m) (dueler c0)).2 cs;
      if selects_a m (dueler c0) then
        '(v, l, ga) ← rp_getVictim (replDataA <$> cs) (policyA g);
        Ok (v, zip_with set_a cs l, mkDuel ga (policyB g) m (selectedA g + 1) (selectedB g))
      else
        '(v, l, gb) ← rp_getVictim (replDataB <$> cs) (policyB g);
        Ok (v, zip_with set_b cs l, mkDuel (policyA g) gb m (selectedA g) (selectedB g + 1))
  end.

Definition duel_instantiate g : outcome (DuelerReplData RA RB * DuelState GA GB) :=
  '(a, ga) ← rp_instantiate (policyA g);
  '(b, gb) ← rp_instantiate (policyB g);
  '(d, m) ← initEntry dueler_new (duelingMonitor g);
  Ok (mkDuelData a b d, mkDuel ga gb m (selectedA g) (selectedB g)).

Definition Dueling (team_size : Z) : ReplPolicy (DuelState GA GB) (DuelerReplData RA RB) := {|
  rp_invalidate := duel_invalidate;
  rp_touch := duel_touch;
  rp_reset := duel_reset;
  rp_getVictim := duel_getVictim team_size;
  rp_instantiate := duel_instantiate
|}.

(** The constructor: the monitor has a selector of ten bits and both thresholds at one half. *)
Definition dueling_new (numInstances constituency_size team_size : Z) (ga : GA) (gb : GB) : outcome (DuelState GA GB * Z) :=
  '(m, n) ← monitor_new numInstances constituency_size team_size 10 (dlit 1 2) (dlit 1 2);
  Ok (mkDuel ga gb m 0 0, n).
End Policy.

(** ** Facts *)

(** *** Teams *)

(** What entry [i] is: a sample of the team [Some team], or a follower. *)
Definition role_of (c t : Z) (i : nat) : option bool :=
  let r := Z.of_nat i mod c in
  if r <? t then Some false else if c - t <=? r then Some true else None.

(** The same for the [s]-th set of [t] entries, with [q] sets in a constituency. *)
Definition set_role (q s : Z) : option bool :=
  if s mod q =? 0 then Some false else if s mod q =? q - 1 then Some true else None.

Definition role_bits (r : option bool) : bool * bool :=
  match r with Some team => (true, team) | None => (false, false) end.

Lemma set_role_of t q s j :
  0 < t → 2 ≤ q → 0 ≤ Z.of_nat j < t → role_of (q * t) t (s * Z.to_nat t + j) = set_role q (Z.of_nat s).
Proof.
  intros Ht Hq Hj. unfold role_of, set_role.
  assert (Z.of_nat (s * Z.to_nat t + j) mod (q * t) = (Z.of_nat s mod q) * t + Z.of_nat j) as ->.
  { symmetry. apply (Z.mod_unique_pos _ _ (Z.of_nat s / q)).
    - pose proof (Z.mod_pos_bound (Z.of_nat s) q). nia.
    - pose proof (Z.div_mod (Z.of_nat s) q). rewrite Nat2Z.inj_add, Nat2Z.inj_mul, Z2Nat.id by lia. nia. }
  pose proof (Z.mod_pos_bound (Z.of_nat s) q ltac:(lia)). set (r := Z.of_nat s mod q) in *.
  destruct (Z.eqb_spec r 0) as [->|Hr]; [by rewrite (proj2 (Z.ltb_lt _ _)) by lia|].
  rewrite (proj2 (Z.ltb_ge _ _)) by nia. destruct (Z.eqb_spec r (q - 1)) as [->|Hr'].
  - by rewrite (proj2 (Z.leb_le _ _)) by nia.
  - by rewrite (proj2 (Z.leb_gt _ _)) by nia.
Qed.

(** *** The monitor of the policy *)

Record monitor_ok (c t : Z) (m : DuelingMonitor) : Prop := {
  mo_id : ∃ k, 0 ≤ k < 31 ∧ dm_id m = 2 ^ k;
  mo_size : constituencySize m = c ∧ teamSize m = t;
  mo_region : 0 ≤ regionCounter m < c;
  mo_thr : lowThreshold m = dlit 1 2 ∧ highThreshold m = dlit 1 2;
  mo_max : maxVal (selector m) = 1023;
  mo_sel : 0 ≤ counter (selector m) ≤ 1023;
  mo_winner : winner m = (512 <=? counter (selector m))
}.

Lemma popCount_pow2 k : 0 ≤ k < 64 → popCount (2 ^ k) = 1.
Proof.
  intros Hk. assert (forallb (λ k, popCount (2 ^ k) =? 1) (seqZ 0 64) = true) as Hall by (vm_compute; reflexivity).
  rewrite forallb_forall in Hall. apply Z.eqb_eq, Hall, list_elem_of_In, elem_of_seqZ. lia.
Qed.

(** Of the 1024 values of the selector, those from 512 on are at least one half. *)
Lemma selector_half c : 0 ≤ counter c ≤ 1023 → maxVal c = 1023 →
  dleb (dlit 1 2) (calcSaturation c) = (512 <=? counter c) ∧ dltb (calcSaturation c) (dlit 1 2) = negb (512 <=? counter c).
Proof.
  intros Hc Hm. unfold calcSaturation. rewrite Hm.
  assert (forallb (λ k, bool_decide (dleb (dlit 1 2) (ddiv (d_of_Z k) (d_of_Z 1023)) = (512 <=? k)) &&
    bool_decide (dltb (ddiv (d_of_Z k) (d_of_Z 1023)) (dlit 1 2) = negb (512 <=? k))) (seqZ 0 1024) = true) as Hall by (vm_compute; reflexivity).
  rewrite forallb_forall in Hall. specialize (Hall (counter c)).
  rewrite andb_true_iff, !bool_decide_eq_true in Hall. apply Hall, list_elem_of_In, elem_of_seqZ. lia.
Qed.

Lemma sample_role m d r :
  isSample (dm_id m) d = role_bits r →
  sample d m = match r with
    | Some true => let sel := sat_inc (selector m) in
        with_selector m sel (if dleb (highThreshold m) (calcSaturation sel) then true else winner m)
    | Some false => let sel := sat_dec (selector m) in
        with_selector m sel (if dltb (calcSaturation sel) (lowThreshold m) then false else winner m)
    | None => m
    end.
Proof. unfold sample. intros ->. by destruct r as [[]|]. Qed.

(** The score: the misses of the samples of B against those of A, within the counter. *)
Definition score_step (r : option bool) (score : Z) : Z :=
  match r with
  | Some true => Z.min 1023 (score + 1)
  | Some false => Z.max 0 (score - 1)
  | None => score
  end.

Lemma sample_ok c t m d r :
  monitor_ok c t m → isSample (dm_id m) d = role_bits r →
  monitor_ok c t (sample d m) ∧ counter (selector (sample d m)) = score_step r (counter (selector m)) ∧ dm_id (sample d m) = dm_id m.
Proof.
  intros [H1 H2 H3 [H4 H4'] H5 H6 H7] Hr. rewrite (sample_role m d r Hr). destruct r as [[]|]; cbn [score_step]; [| |done].
  - assert (counter (sat_inc (selector m)) = Z.min 1023 (counter (selector m) + 1) ∧ maxVal (sat_inc (selector m)) = 1023) as [Ec Em].
    { unfold sat_inc. rewrite H5. destruct (Z.ltb_spec (counter (selector m)) 1023); cbn; lia. }
    split; [|done]. split; cbn; try done; [lia|]. rewrite H4', H7. rewrite (proj1 (selector_half (sat_inc (selector m)) ltac:(lia) Em)), Ec.
    destruct (Z.leb_spec 512 (counter (selector m))), (Z.leb_spec 512 (Z.min 1023 (counter (selector m) + 1))); (done || lia).
  - assert (counter (sat_dec (selector m)) = Z.max 0 (counter (selector m) - 1) ∧ maxVal (sat_dec (selector m)) = 1023) as [Ec Em].
    { unfold sat_dec. destruct (Z.ltb_spec 0 (counter (selector m))); cbn; lia. }
    split; [|done]. split; cbn; try done; [lia|]. rewrite H4, H7. rewrite (proj2 (selector_half (sat_dec (selector m)) ltac:(lia) Em)), Ec.
    destruct (Z.leb_spec 512 (counter (selector m))), (Z.leb_spec 512 (Z.max 0 (counter (selector m) - 1))); (done || lia).
Qed.

Lemma setSample_new m team :
  (∃ k, 0 ≤ k < 31 ∧ dm_id m = 2 ^ k) → ∃ d, setSample (dm_id m) team dueler_new = Ok d ∧ isSample (dm_id m) d = (true, team).
Proof.
  intros (k & Hk & ->). unfold setSample. rewrite popCount_pow2 by lia. cbn [dueler_new _isSample _team negb Z.eqb panic_if mbind outcome_bind].
  rewrite !Z.land_0_l. cbn. eexists. split; [done|]. unfold isSample. cbn [_isSample _team].
  assert (0 < 2 ^ k) by (apply Z.pow_pos_nonneg; lia).
  rewrite Z.land_diag, (proj2 (Z.eqb_neq _ _)) by lia. destruct team; cbn [negb].
  - by rewrite Z.land_diag, (proj2 (Z.eqb_neq _ _)) by lia.
  - done.
Qed.

Lemma init_ok c t m i :
  monitor_ok c t m → 0 < t → 2 * t ≤ c < 2 ^ 31 → regionCounter m = Z.of_nat i mod c →
  ∃ d m', initEntry dueler_new m = Ok (d, m') ∧ isSample (dm_id m) d = role_bits (role_of c t i) ∧
    monitor_ok c t m' ∧ dm_id m' = dm_id m ∧ regionCounter m' = Z.of_nat (S i) mod c ∧ selector m' = selector m.
Proof.
  intros [H1 [H2 H2'] H3 H4 H5 H6 H7] Ht Hc Hr. unfold initEntry. rewrite H2, H2'.
  assert (u64 (regionCounter m) = regionCounter m) as -> by (apply wrap_id; in_word).
  assert (u64 (c - t) = c - t) as -> by (apply wrap_id; in_word).
  assert (i32 (regionCounter m + 1) = regionCounter m + 1) as -> by (apply swrap_id; [lia|in_int]).
  assert (u64 (regionCounter m + 1) = regionCounter m + 1) as -> by (apply wrap_id; in_word).
  assert (∃ d, (if regionCounter m <? t then setSample (dm_id m) false dueler_new
    else if c - t <=? regionCounter m then setSample (dm_id m) true dueler_new else Ok dueler_new) = Ok d ∧
    isSample (dm_id m) d = role_bits (role_of c t i)) as (d & -> & Hd).
  { unfold role_of. rewrite <-Hr. destruct (regionCounter m <? t); [by apply setSample_new|].
    destruct (c - t <=? regionCounter m); [by apply setSample_new|]. exists dueler_new. done. }
  run_ok. eexists _, _. split; [done|]. split; [done|]. cbn [dm_id regionCounter selector].
  assert ((if c <=? regionCounter m + 1 then 0 else regionCounter m + 1) = Z.of_nat (S i) mod c) as Er.
  { rewrite Nat2Z.inj_succ. pose proof (Z.div_mod (Z.of_nat i) c ltac:(lia)). rewrite Hr in *.
    destruct (Z.leb_spec c (Z.of_nat i mod c + 1)).
    - apply (Z.mod_unique_pos _ _ (Z.of_nat i / c + 1)); nia.
    - apply (Z.mod_unique_pos _ _ (Z.of_nat i / c)); nia. }
  split_and!; try done. split; cbn; try done. rewrite Er. apply Z.mod_pos_bound. lia.
Qed.

Lemma monitor_new_ok ni c t :
  0 ≤ ni < 31 → 0 < t → 2 * t ≤ c < 2 ^ 31 →
  ∃ m, monitor_new ni c t 10 (dlit 1 2) (dlit 1 2) = Ok (m, ni + 1) ∧ monitor_ok c t m ∧ regionCounter m = 0 ∧ counter (selector m) = 511.
Proof.
  intros Hn Ht Hc. unfold monitor_new. rewrite (proj2 (Z.ltb_lt ni 32)) by lia.
  assert (1 ≤ 2 ^ ni < 2 ^ 31) by (split; [pose proof (Z.pow_pos_nonneg 2 ni); lia|apply Z.pow_lt_mono_r; lia]).
  assert (u64 (i32 (Z.shiftl 1 ni)) = 2 ^ ni) as ->.
  { rewrite Z.shiftl_1_l. assert (i32 (2 ^ ni) = 2 ^ ni) as -> by (apply swrap_id; [lia|in_int]). apply wrap_id. in_word. }
  change (sat_new 32 10 0) with (Ok (mkSat 0 1023 0)). run_ok. unfold NUM_DUELERS.
  assert (u64 (2 * t) = 2 * t) as -> by (apply wrap_id; in_word). rewrite (proj2 (Z.ltb_ge c _)), (proj2 (Z.ltb_ge 63 _)) by lia.
  cbn [fatal_if mbind outcome_bind].
  change (dleb (dlit 1 2) d0 || dleb d1 (dlit 1 2)) with false. change (dltb (dlit 1 2) (dlit 1 2)) with false.
  cbn [fatal_if mbind outcome_bind]. change (sat_shr (saturate (mkSat 0 1023 0)).2 1) with (Ok (mkSat 0 1023 511)). run_ok.
  assert (u32 (ni + 1) = ni + 1) as -> by (apply wrap_id; in_word).
  eexists. split; [done|]. split; [|done]. split; cbn [dm_id constituencySize teamSize regionCounter lowThreshold highThreshold selector winner maxVal counter]; try done; try lia.
  by exists ni.
Qed.

Lemma zip_map_l {A B C D} (f : A → B → C) (p : C → D) (p' : A → D) l k :
  (∀ a b, p (f a b) = p' a) → length k = length l → p <$> zip_with f l k = p' <$> l.
Proof. intros Hp. revert k. induction l as [|a l IH]; intros [|b k] Hlen; try done. cbn. rewrite Hp. f_equal. apply IH. by injection Hlen. Qed.

Lemma zip_map_r {A B C} (f : A → B → C) (p : C → B) l k :
  (∀ a b, p (f a b) = b) → length k = length l → p <$> zip_with f l k = k.
Proof. intros Hp. revert k. induction l as [|a l IH]; intros [|b k] Hlen; try done. cbn. rewrite Hp. f_equal. apply IH. by injection Hlen. Qed.

(** *** A table used set by set *)

Inductive duel_op : Type :=
  | DTouch (curTick : Z) (i : nat)
  | DReset (curTick : Z) (i : nat)
  | DInvalidate (i : nat)
  | DVictim (s : nat).

Section Table.
Context {GA RA GB RB : Type} `{LA : ReplLaws GA RA} `{LB : ReplLaws GB RB} (q t : Z).
Abbreviation DR := (DuelerReplData RA RB).
Abbreviation DG := (DuelState GA GB).
#[local] Existing Instance Dueling.

(** The entries of a table, created one after the other. *)
Fixpoint duel_fill (n : nat) (g : DG) : outcome (list DR * DG) :=
  match n with
  | O => Ok ([], g)
  | S n => '(rs, g) ← duel_fill n g; '(r, g) ← duel_instantiate g; Ok (rs ++ [r], g)
  end.

Definition duel_at (rs : list DR) (i : nat) (f : DR → outcome (DR * DG)) : outcome (list DR * DG) :=
  match rs !! i with
  | Some r => '(r, g) ← f r; Ok (<[i := r]> rs, g)
  | None => Stop (Panic "no such entry")
  end.

(** The entries of the [s]-th set. *)
Definition set_of_table (rs : list DR) (s : nat) : list DR := take (Z.to_nat t) (drop (s * Z.to_nat t) rs).

Definition duel_do (op : duel_op) (x : list DR * DG) : outcome (list DR * DG) :=
  let '(rs, g) := x in
  match op with
  | DTouch now i => duel_at rs i (λ r, duel_touch now None r g)
  | DReset now i => duel_at rs i (λ r, duel_reset now None r g)
  | DInvalidate i => duel_at rs i (λ r, duel_invalidate r g)
  | DVictim s =>
      '(_, cs, g) ← duel_getVictim t (set_of_table rs s) g;
      Ok (take (s * Z.to_nat t) rs ++ cs ++ drop (s * Z.to_nat t + Z.to_nat t) rs, g)
  end.

Fixpoint duel_run (ops : list duel_op) (x : list DR * DG) : outcome (list DR * DG) :=
  match ops with
  | [] => Ok x
  | op :: ops => x ← duel_do op x; duel_run ops x
  end.

Definition op_ok (n : nat) (op : duel_op) : Prop :=
  match op with
  | DTouch _ i | DReset _ i | DInvalidate i => (i < n)%nat
  | DVictim s => (s * Z.to_nat t + Z.to_nat t ≤ n)%nat
  end.

(** The score of a sequence of operations: only resets of sampled entries count. *)
Definition score_after (ops : list duel_op) (score : Z) : Z :=
  foldl (λ sc op, match op with DReset _ i => score_step (role_of (q * t) t i) sc | _ => sc end) score ops.

Record table_ok (n : nat) (score : Z) (x : list DR * DG) : Prop := {
  to_len : length x.1 = n;
  to_mon : monitor_ok (q * t) t (duelingMonitor x.2);
  to_roles i r : x.1 !! i = Some r → isSample (dm_id (duelingMonitor x.2)) (dueler r) = role_bits (role_of (q * t) t i);
  to_score : counter (selector (duelingMonitor x.2)) = score
}.

Context (Ht : 0 < t) (Hq : 2 ≤ q) (Hqt : q * t < 2 ^ 31).
Context (IA : ∀ g : GA, is_ok (rp_instantiate g)) (IB : ∀ g : GB, is_ok (rp_instantiate g)).

Lemma fill_ok n g :
  monitor_ok (q * t) t (duelingMonitor g) → regionCounter (duelingMonitor g) = 0 →
  ∃ rs g', duel_fill n g = Ok (rs, g') ∧ table_ok n (counter (selector (duelingMonitor g))) (rs, g') ∧
    regionCounter (duelingMonitor g') = Z.of_nat n mod (q * t) ∧ dm_id (duelingMonitor g') = dm_id (duelingMonitor g).
Proof using Ht Hq Hqt IA IB.
  intros Hm Hz. induction n as [|n IH]; cbn [duel_fill].
  { exists [], g. split; [done|]. split; [by split|]. split; [|done]. rewrite Hz. symmetry. apply Z.mod_0_l. nia. }
  destruct IH as (rs & g' & -> & [T1 T2 T3 T4] & Hr & Hi). run_ok. unfold duel_instantiate.
  destruct (IA (policyA g')) as [[a ga] ->], (IB (policyB g')) as [[b gb] ->]. run_ok.
  destruct (init_ok (q * t) t (duelingMonitor g') n T2 Ht ltac:(nia) Hr) as (d & m' & -> & Hd & Hm' & Ei & Er & Es). run_ok.
  eexists _, _. split; [done|]. split; [|cbn [duelingMonitor]; split; congruence]. cbn [fst snd duelingMonitor] in *. split; cbn [fst snd duelingMonitor].
  - rewrite length_app, T1. simpl. lia.
  - done.
  - intros i r. rewrite Ei. intros [[_ Hlt]|[-> <-]]%lookup_snoc_Some; [by apply T3|]. rewrite T1. exact Hd.
  - by rewrite Es.
Qed.

(** An operation on one entry that keeps its dueler. *)
Lemma at_ok n score score' rs g i f :
  table_ok n score (rs, g) → (i < n)%nat →
  (∀ r, rs !! i = Some r → ∃ r' g', f r = Ok (r', g') ∧ dueler r' = dueler r ∧ monitor_ok (q * t) t (duelingMonitor g') ∧
    dm_id (duelingMonitor g') = dm_id (duelingMonitor g) ∧ counter (selector (duelingMonitor g')) = score') →
  ∃ x, duel_at rs i f = Ok x ∧ table_ok n score' x.
Proof using Type.
  intros [T1 T2 T3 T4] Hi Hf. cbn [fst snd] in *. destruct (lookup_lt_is_Some_2 rs i ltac:(lia)) as [r Hr].
  unfold duel_at. rewrite Hr. destruct (Hf r Hr) as (r' & g' & -> & Ed & Hm & Eid & Es). run_ok.
  eexists. split; [done|]. split; cbn [fst snd]; [by rewrite length_insert|done| |done].
  intros j rj. rewrite Eid. intros [(-> & -> & _)|[_ Hj]]%list_lookup_insert_Some; [rewrite Ed|]; by apply T3.
Qed.

Lemma same_team_ok m r cs :
  Forall (λ c : DR, isSample (dm_id m) (dueler c) = role_bits r) cs → same_team m (role_bits r).2 cs = Ok tt.
Proof using Type.
  induction 1 as [|c cs Hc _ IH]; [done|]. cbn [same_team]. rewrite Hc. destruct (role_bits r) as [b team]. cbn [snd] in *.
  rewrite eqb_reflx, andb_false_r. run_ok. exact IH.
Qed.

Lemma set_roles n score rs g s :
  table_ok n score (rs, g) → (s * Z.to_nat t + Z.to_nat t ≤ n)%nat →
  Forall (λ c : DR, isSample (dm_id (duelingMonitor g)) (dueler c) = role_bits (set_role q (Z.of_nat s))) (set_of_table rs s) ∧
  length (set_of_table rs s) = Z.to_nat t.
Proof using Ht Hq.
  intros [T1 T2 T3 T4] Hs. cbn [fst snd] in *. unfold set_of_table. split; [|rewrite length_take, length_drop; lia].
  apply Forall_lookup_2. intros j c [Hj Hlt]%lookup_take_Some. rewrite lookup_drop in Hj. rewrite (T3 _ _ Hj). f_equal.
  apply set_role_of; lia.
Qed.

(** Who chooses the victim of set [s] when the score is [score]. *)
Definition choose_a (s : nat) (score : Z) : bool :=
  match set_role q (Z.of_nat s) with
  | Some team => negb team
  | None => 512 <=? score
  end.

Lemma selects_a_eq m d s :
  isSample (dm_id m) d = role_bits (set_role q (Z.of_nat s)) → winner m = (512 <=? counter (selector m)) →
  selects_a m d = choose_a s (counter (selector m)).
Proof using Type.
  unfold selects_a, choose_a. intros -> ->. destruct (set_role q (Z.of_nat s)) as [[]|]; cbn; try done. by destruct (512 <=? _).
Qed.

(** The victim of a set, and the policy that chose it. *)
Lemma victim_ok n score rs g s :
  table_ok n score (rs, g) → (s * Z.to_nat t + Z.to_nat t ≤ n)%nat →
  ∃ v cs g', duel_getVictim t (set_of_table rs s) g = Ok (v, cs, g') ∧ (v < Z.to_nat t)%nat ∧
    dueler <$> cs = dueler <$> set_of_table rs s ∧ duelingMonitor g' = duelingMonitor g ∧
    if choose_a s score
    then (∃ l, rp_getVictim (replDataA <$> set_of_table rs s) (policyA g) = Ok (v, l, policyA g') ∧ replDataA <$> cs = l) ∧
      replDataB <$> cs = replDataB <$> set_of_table rs s ∧ policyB g' = policyB g
    else (∃ l, rp_getVictim (replDataB <$> set_of_table rs s) (policyB g) = Ok (v, l, policyB g') ∧ replDataB <$> cs = l) ∧
      replDataA <$> cs = replDataA <$> set_of_table rs s ∧ policyA g' = policyA g.
Proof using Ht Hq Hqt LA LB.
  intros HT Hs. assert (t < 2 ^ 32) by nia. destruct (set_roles _ _ _ _ s HT Hs) as [Hroles Hlen]. destruct HT as [T1 T2 T3 T4]. cbn [fst snd] in *.
  unfold duel_getVictim. set (C := set_of_table rs s) in *. rewrite Hlen, Z2Nat.id, Z.eqb_refl by lia. cbn [negb panic_if mbind outcome_bind].
  destruct C as [|c0 cs] eqn:EC; [simpl in Hlen; lia|]. pose proof (Forall_inv Hroles) as Hc0. cbv beta in Hc0.
  rewrite <-EC in *. rewrite Hc0, (same_team_ok _ (set_role q (Z.of_nat s))) by done. run_ok.
  rewrite (selects_a_eq _ _ s Hc0 (mo_winner _ _ _ T2)), T4.
  destruct (choose_a s score).
  - destruct (proj1 (succeeds_ok _ _) (law_victim (replDataA <$> C) (policyA g) ltac:(by rewrite EC) ltac:(rewrite length_fmap; lia)))
      as ([[v l] ga] & E & Hv & Hl). rewrite E. run_ok. rewrite length_fmap in Hv, Hl.
    eexists v, (zip_with set_a C l), _. split; [done|]. cbn [policyA policyB duelingMonitor].
    rewrite (zip_map_l set_a dueler dueler C l), (zip_map_l set_a replDataB replDataB C l) by done. split_and!; [lia|done..| |done|done]. eexists. split; [done|]. by rewrite (zip_map_r set_a) by done.
  - destruct (proj1 (succeeds_ok _ _) (law_victim (replDataB <$> C) (policyB g) ltac:(by rewrite EC) ltac:(rewrite length_fmap; lia)))
      as ([[v l] gb] & E & Hv & Hl). rewrite E. run_ok. rewrite length_fmap in Hv, Hl.
    eexists v, (zip_with set_b C l), _. split; [done|]. cbn [policyA policyB duelingMonitor].
    rewrite (zip_map_l set_b dueler dueler C l), (zip_map_l set_b replDataA replDataA C l) by done. split_and!; [lia|done..| |done|done]. eexists. split; [done|]. by rewrite (zip_map_r set_b) by done.
Qed.

Lemma do_ok n score op x :
  table_ok n score x → op_ok n op →
  ∃ x', duel_do op x = Ok x' ∧ table_ok n (score_after [op] score) x'.
Proof using Ht Hq Hqt LA LB.
  destruct x as [rs g]. intros HT Hop. pose proof HT as [T1 T2 T3 T4]. cbn [fst snd] in *.
  destruct op as [now i|now i|i|s]; cbn [duel_do op_ok score_after foldl] in *.
  - apply (at_ok n score _ rs g i _ HT Hop). intros r Hr. unfold duel_touch.
    destruct (law_touch now (replDataA r) (policyA g)) as [[a ga] ->], (law_touch now (replDataB r) (policyB g)) as [[b gb] ->].
    run_ok. by eexists _, _.
  - apply (at_ok n score _ rs g i _ HT Hop). intros r Hr. unfold duel_reset.
    destruct (law_reset now (replDataA r) (policyA g)) as [[a ga] ->], (law_reset now (replDataB r) (policyB g)) as [[b gb] ->].
    run_ok. destruct (sample_ok _ _ _ _ _ T2 (T3 i r Hr)) as (Hm & Hs & Hid). eexists _, _. split; [done|].
    cbn [dueler duelingMonitor]. rewrite Hs, T4. done.
  - apply (at_ok n score _ rs g i _ HT Hop). intros r Hr. unfold duel_invalidate.
    destruct (law_invalidate (replDataA r) (policyA g)) as [[a ga] ->], (law_invalidate (replDataB r) (policyB g)) as [[b gb] ->].
    run_ok. by eexists _, _.
  - destruct (victim_ok n score rs g s HT Hop) as (v & cs & g' & -> & _ & Hd & Hm & _). run_ok. eexists. split; [done|].
    assert (length cs = Z.to_nat t) as Hlen.
    { apply (f_equal length) in Hd. rewrite !length_fmap in Hd. rewrite Hd. by apply (set_roles n score rs g). }
    split; cbn [fst snd]; [|by rewrite Hm| |by rewrite Hm].
    + rewrite !length_app, length_take, length_drop. lia.
    + intros i r Hr. rewrite Hm. assert (dueler <$> rs !! i = Some (dueler r)) as Hi; [|by apply fmap_Some in Hi as (r' & Hr' & ->); apply T3].
      rewrite <-list_lookup_fmap. transitivity ((dueler <$> (take (s * Z.to_nat t) rs ++ cs ++ drop (s * Z.to_nat t + Z.to_nat t) rs)) !! i);
        [|by rewrite list_lookup_fmap, Hr]. f_equal. rewrite !fmap_app, Hd, <-!fmap_app. f_equal. unfold set_of_table.
      rewrite <-drop_drop, !take_drop. done.
Qed.

Lemma run_ok_duel n ops : ∀ score x,
  table_ok n score x → Forall (op_ok n) ops → ∃ x', duel_run ops x = Ok x' ∧ table_ok n (score_after ops score) x'.
Proof using Ht Hq Hqt LA LB.
  induction ops as [|op ops IH]; intros score x HT Hops; [by exists x|]. apply Forall_cons in Hops as [Hop Hops].
  cbn [duel_run]. destruct (do_ok n score op x HT Hop) as (x' & -> & HT'). run_ok. exact (IH _ _ HT' Hops).
Qed.
End Table.

(** C21: the duel.  Take two policies that keep the promises of a replacement policy, a
    constituency of [q] sets of [t] entries, and a table of [n] entries created by the
    dueling policy and used set by set.  Every sequence of touches, resets, invalidations
    and victim searches succeeds.  Afterwards the victim of a set is the one policy A
    chooses from its own data for the first set of every constituency, the one policy B
    chooses for the last, and for every other set A's if the score is at least 512 of 1023
    and B's otherwise; the other policy's data are not touched.  The score starts at 511,
    goes up with every reset in a set of B and down with every reset in a set of A. *)
Theorem dueling_refines_score {GA RA GB RB : Type} `{LA : ReplLaws GA RA} `{LB : ReplLaws GB RB}
    (ni q t : Z) (n : nat) (ga : GA) (gb : GB) (ops : list duel_op) :
  0 ≤ ni < 31 → 0 < t → 2 ≤ q → q * t < 2 ^ 31 →
  (∀ g : GA, is_ok (rp_instantiate g)) → (∀ g : GB, is_ok (rp_instantiate g)) → Forall (op_ok t n) ops →
  ∃ g0 rs0 g1 rs g, dueling_new ni (q * t) t ga gb = Ok (g0, ni + 1) ∧ duel_fill n g0 = Ok (rs0, g1) ∧
    duel_run t ops (rs0, g1) = Ok (rs, g) ∧
    let score := score_after q t ops 511 in
    counter (selector (duelingMonitor g)) = score ∧
    ∀ s, (s * Z.to_nat t + Z.to_nat t ≤ n)%nat →
    ∃ v cs g', duel_getVictim t (set_of_table t rs s) g = Ok (v, cs, g') ∧ (v < Z.to_nat t)%nat ∧
      if choose_a q s score
      then (∃ l, rp_getVictim (replDataA <$> set_of_table t rs s) (policyA g) = Ok (v, l, policyA g') ∧ replDataA <$> cs = l) ∧
        replDataB <$> cs = replDataB <$> set_of_table t rs s ∧ policyB g' = policyB g
      else (∃ l, rp_getVictim (replDataB <$> set_of_table t rs s) (policyB g) = Ok (v, l, policyB g') ∧ replDataB <$> cs = l) ∧
        replDataA <$> cs = replDataA <$> set_of_table t rs s ∧ policyA g' = policyA g.
Proof.
  intros Hni Ht Hq Hqt IA IB Hops. unfold dueling_new.
  destruct (monitor_new_ok ni (q * t) t Hni Ht ltac:(nia)) as (m & -> & Hm & Hr & Hs). run_ok.
  set (g0 := mkDuel ga gb m 0 0). destruct (fill_ok q t Ht Hq Hqt IA IB n g0 Hm Hr) as (rs0 & g1 & E1 & HT & _).
  change (selector (duelingMonitor g0)) with (selector m) in HT. rewrite Hs in HT.
  destruct (run_ok_duel q t Ht Hq Hqt n ops 511 _ HT Hops) as ([rs g] & E2 & HT2).
  exists g0, rs0, g1, rs, g. split_and!; [done..|apply (to_score _ _ _ _ _ HT2)|].
  intros s Hset. destruct (victim_ok q t Ht Hq Hqt n _ rs g s HT2 Hset) as (v & cs & g' & E & Hv & _ & _ & Hc). by exists v, cs, g'.
Qed.

(** LRU against LFU on six sets of two entries, four sets in a constituency. *)
Definition ex_duel_ops : list duel_op :=
  [DReset 1 6; DReset 2 7; DTouch 3 7; DReset 4 0; DReset 5 6; DVictim 1; DReset 6 2; DInvalidate 3; DVictim 3].

Lemma dueling_refines_score_witness :
  score_after 4 2 ex_duel_ops 511 = 513 ∧ choose_a 4 1 513 = true ∧
  ∃ g0 rs0 g1 rs g, dueling_new 0 8 2 tt tt = Ok (g0, 1) ∧
    duel_fill (RA := LRUReplData) (RB := LFUReplData) 12 g0 = Ok (rs0, g1) ∧ duel_run 2 ex_duel_ops (rs0, g1) = Ok (rs, g) ∧
    counter (selector (duelingMonitor g)) = 513.
Proof.
  split; [by vm_compute|]. split; [by vm_compute|].
  destruct (dueling_refines_score (RA := LRUReplData) (RB := LFUReplData) 0 4 2 12 tt tt ex_duel_ops) as (g0 & rs0 & g1 & rs & g & E0 & E1 & E2 & Es & _);
    [lia|lia|lia|lia|by eexists|by eexists|repeat constructor; simpl; lia|].
  exists g0, rs0, g1, rs, g. split; [exact E0|]. split; [exact E1|]. split; [exact E2|]. rewrite Es. by vm_compute.
Defined.

(** The identifier of the thirty-second monitor has all its upper bits set, and no entry can
    be made a sample of it, although up to sixty-four instances are meant to be allowed. *)
Example monitor_31_panics :
  ∃ m, monitor_new 31 8 2 10 (dlit 1 2) (dlit 1 2) = Ok (m, 32) ∧ dm_id m = 0xffffffff80000000 ∧
    initEntry dueler_new m = Stop (Panic "The id must have a single bit set.").
Proof. eexists. split; [vm_compute; reflexivity|]. by vm_compute. Qed.
