(* ===== verification/Indexing.v ===== *)
(** * Indexing policies

    [src/src/mem/cache/tags/indexing_policies/] and the tagged policies of
    [src/src/mem/cache/tags/tagged_entry.hh]: how an address selects the entries
    it may live in and which of its bits are its tag.  An entry is a reference
    into the store of entries ([AssocCache]); a policy's [sets] hold references,
    null until [setEntry] fills them.  The theorems are that a stored position
    and tag give back the address, for the plain and for the skewed policy. *)

From Stdlib Require Import ZArith Lia.
From stdpp Require Import base numbers option list strings.
From S2P Require Import Prelude IntMath.
#[local] Open Scope Z_scope.

(** ** Bit fields (src/src/base/bitfield.hh)

    The assertion [first >= last] of these helpers is on the arguments below,
    which are constants of the policy, and always holds there. *)

Definition mask (nbits : Z) : Z := if 64 <=? nbits then 2 ^ 64 - 1 else 2 ^ nbits - 1.

Definition bits (val first last : Z) : Z :=
  Z.land (Z.shiftr val last) (mask (first - last + 1)).

Definition mbits (val first last : Z) : Z :=
  Z.land val (Z.land (mask (first + 1)) (ulnot 64 (mask last))).

(** [insertBits(val, bit, bit_val)]. *)
Definition insertBits (val bit bit_val : Z) : Z :=
  let bmask := mbits (2 ^ 64 - 1) bit bit in
  Z.lor (Z.land val (ulnot 64 bmask)) (Z.land (u64 (Z.shiftl bit_val bit)) bmask).

(** ** The base policy *)

Record Indexing := mkIndexing {
  ix_assoc : Z;
  ix_numSets : Z;
  ix_setShift : Z;
  ix_setMask : Z;
  ix_tagShift : Z
}.

Abbreviation ref := (option nat).

(** The constructor; the initialisers run before the [fatal_if]s, so an
    associativity of zero divides by zero and an empty policy fails in
    [floorLog2]. *)
Definition indexing_new (assoc num_entries set_shift : Z)
    : outcome (Indexing * list (list ref)) :=
  _ ← panic_if (assoc =? 0) "division by zero";
  let numSets := u32 (num_entries / assoc) in
  l ← floorLog2 4 numSets;
  _ ← fatal_if (negb (isPowerOf2 numSets)) "# of sets must be non-zero and a power of 2";
  _ ← fatal_if (assoc <=? 0) "associativity must be greater than zero";
  Ok (mkIndexing assoc numSets set_shift (u32 (numSets - 1)) (set_shift + l),
      replicate (Z.to_nat numSets) (replicate (Z.to_nat assoc) None)).

(** [setEntry(entry, index)]: the sets afterwards and the position the entry is
    told. *)
Definition setEntry (ix : Indexing) (sets : list (list ref)) (entry : nat) (index : Z)
    : outcome (list (list ref) * (Z * Z)) :=
  let set := u32 (index / ix_assoc ix) in
  let way := u32 (index mod ix_assoc ix) in
  _ ← assert_that (set <? ix_numSets ix) "set < numSets";
  Ok (alter (<[Z.to_nat way := Some entry]>) (Z.to_nat set) sets, (set, way)).

Definition getEntry (sets : list (list ref)) (set way : Z) : ref :=
  mjoin (sets !! Z.to_nat set ≫= (.!! Z.to_nat way)).

Definition extractTag (ix : Indexing) (addr : Z) : Z := Z.shiftr addr (ix_tagShift ix).

(** What a concrete policy adds to the base: the entries a key may be in, and
    the tag of an address. *)
Record IndexingPolicy (K : Type) := mkPolicy {
  ip_base : Indexing;
  ip_possible : list (list ref) → K → list ref;
  ip_extractTag : Z → Z
}.
Arguments mkPolicy {K} _ _ _.
Arguments ip_base {K} _.
Arguments ip_possible {K} _ _ _.
Arguments ip_extractTag {K} _ _.

(** [sets[i]]; the index is masked and so always in range. *)
Definition sets_at (sets : list (list ref)) (i : Z) : list ref := default [] (sets !! Z.to_nat i).

(** ** Set associative *)

Definition extractSet (ix : Indexing) (addr : Z) : Z :=
  u32 (Z.land (Z.shiftr addr (ix_setShift ix)) (ix_setMask ix)).

(** [tag << tagShift | entry->getSet() << setShift]: the second shift is of a
    [uint32_t]. *)
Definition regenerateAddr (ix : Indexing) (tag set : Z) : Z :=
  Z.lor (u64 (Z.shiftl tag (ix_tagShift ix))) (u32 (Z.shiftl set (ix_setShift ix))).

Definition getPossibleEntries (ix : Indexing) (sets : list (list ref)) (addr : Z) : list ref :=
  sets_at sets (extractSet ix addr).

Definition SetAssociative (ix : Indexing) : IndexingPolicy Z :=
  mkPolicy ix (getPossibleEntries ix) (extractTag ix).

(** The key of a tagged table: an address and the secure bit, which is part of
    the tag only. *)
Record TaggedKey := mkKey { k_address : Z; k_secure : bool }.

#[export] Instance TaggedKey_eq_dec : EqDecision TaggedKey.
Proof. solve_decision. Defined.

Definition tagged_extractSet (ix : Indexing) (key : TaggedKey) : Z := extractSet ix (k_address key).

Definition tagged_possible (ix : Indexing) (sets : list (list ref)) (key : TaggedKey) : list ref :=
  sets_at sets (tagged_extractSet ix key).

Definition tagged_regenerateAddr (ix : Indexing) (key : TaggedKey) (set : Z) : Z :=
  regenerateAddr ix (k_address key) set.

Definition TaggedSetAssociative (ix : Indexing) : IndexingPolicy TaggedKey :=
  mkPolicy ix (tagged_possible ix) (extractTag ix).

(** ** Skewed associative *)

Definition NUM_SKEWING_FUNCTIONS : Z := 8.

Definition skewed_new (assoc num_entries set_shift : Z)
    : outcome (Indexing * Z * list (list ref)) :=
  r ← indexing_new assoc num_entries set_shift;
  let '(ix, sets) := r in
  l ← floorLog2 4 (ix_numSets ix);
  let msbShift := l - 1 in
  _ ← panic_if (64 <? set_shift + 2 * (msbShift + 1))
        "Unsuported number of bits for the skewing functions.";
  _ ← fatal_if (ix_numSets ix <=? 2) "The number of sets must be greater than 2";
  Ok (ix, msbShift, sets).

Section Skew.
Context (msbShift : Z).

Definition hash (addr : Z) : Z :=
  let lsb := bits addr 0 0 in
  let msb := bits addr msbShift msbShift in
  let xor_bit := Z.lxor msb lsb in
  insertBits (Z.shiftr addr 1) msbShift xor_bit.

Definition dehash (addr : Z) : Z :=
  let msb := bits addr (msbShift - 1) (msbShift - 1) in
  let xor_bit := bits addr msbShift msbShift in
  let lsb := Z.lxor msb xor_bit in
  let addr_no_msb := mbits addr (msbShift - 1) 0 in
  insertBits (u64 (Z.shiftl addr_no_msb 1)) 0 lsb.

(** [for (i = 0; i < n; i++) x = f(x)]. *)
Definition repeat_fn (n : Z) (f : Z → Z) (x : Z) : Z := Nat.iter (Z.to_nat n) f x.

Definition skew_addr1 (addr : Z) : Z := bits addr msbShift 0.
Definition skew_addr2 (addr : Z) : Z := bits addr (2 * (msbShift + 1) - 1) (msbShift + 1).

(** The switch of [skew]; [way % 8] has no other value than the eight cases. *)
Definition skew_case (c addr1 addr2 : Z) : Z :=
  if c =? 0 then Z.lxor (Z.lxor (hash addr1) (hash addr2)) addr2
  else if c =? 1 then Z.lxor (Z.lxor (hash addr1) (hash addr2)) addr1
  else if c =? 2 then Z.lxor (Z.lxor (hash addr1) (dehash addr2)) addr2
  else if c =? 3 then Z.lxor (Z.lxor (hash addr1) (dehash addr2)) addr1
  else if c =? 4 then Z.lxor (Z.lxor (dehash addr1) (hash addr2)) addr2
  else if c =? 5 then Z.lxor (Z.lxor (dehash addr1) (hash addr2)) addr1
  else if c =? 6 then Z.lxor (Z.lxor (dehash addr1) (dehash addr2)) addr2
  else Z.lxor (Z.lxor (dehash addr1) (dehash addr2)) addr1.

Definition skew (addr way : Z) : Z :=
  repeat_fn (way / NUM_SKEWING_FUNCTIONS) hash
    (skew_case (way mod NUM_SKEWING_FUNCTIONS) (skew_addr1 addr) (skew_addr2 addr)).

Definition deskew_case (c addr1 addr2 : Z) : Z :=
  if c =? 0 then dehash (Z.lxor (Z.lxor addr1 (hash addr2)) addr2)
  else if c =? 1 then repeat_fn msbShift hash (Z.lxor addr1 (hash addr2))
  else if c =? 2 then dehash (Z.lxor (Z.lxor addr1 (dehash addr2)) addr2)
  else if c =? 3 then repeat_fn msbShift hash (Z.lxor addr1 (dehash addr2))
  else if c =? 4 then hash (Z.lxor (Z.lxor addr1 (hash addr2)) addr2)
  else if c =? 5 then repeat_fn (msbShift + 1) hash (Z.lxor addr1 (hash addr2))
  else if c =? 6 then hash (Z.lxor (Z.lxor addr1 (dehash addr2)) addr2)
  else repeat_fn (msbShift + 1) hash (Z.lxor addr1 (dehash addr2)).

Definition deskew (addr way : Z) : Z :=
  let addr1 := skew_addr1 addr in
  let addr2 := skew_addr2 addr in
  let addr1 := if NUM_SKEWING_FUNCTIONS <=? way
               then repeat_fn (way / NUM_SKEWING_FUNCTIONS) dehash addr1 else addr1 in
  deskew_case (way mod 8) addr1 addr2.

Definition skewed_extractSet (ix : Indexing) (addr way : Z) : Z :=
  u32 (Z.land (skew (Z.shiftr addr (ix_setShift ix)) way) (ix_setMask ix)).

Definition skewed_regenerateAddr (ix : Indexing) (tag set way : Z) : Z :=
  let addr_set := Z.lor (u64 (Z.shiftl tag (msbShift + 1))) set in
  Z.lor (u64 (Z.shiftl tag (ix_tagShift ix)))
    (u64 (Z.shiftl (Z.land (deskew addr_set way) (ix_setMask ix)) (ix_setShift ix))).

Definition skewed_possible (ix : Indexing) (sets : list (list ref)) (addr : Z) : list ref :=
  (λ way, getEntry sets (skewed_extractSet ix addr way) way) <$> seqZ 0 (ix_assoc ix).

Definition SkewedAssociative (ix : Indexing) : IndexingPolicy Z :=
  mkPolicy ix (skewed_possible ix) (extractTag ix).
End Skew.

(** ** Bits of the bit-field helpers *)

Lemma testbit_wrap w x i : 0 ≤ w → 0 ≤ i → Z.testbit (wrap w x) i = (i <? w) && Z.testbit x i.
Proof.
  intros Hw Hi. unfold wrap. destruct (Z.ltb_spec i w); simpl.
  - by apply Z.mod_pow2_bits_low.
  - apply Z.mod_pow2_bits_high. lia.
Qed.

Lemma testbit_ulnot w x i : 0 ≤ w → 0 ≤ i → Z.testbit (ulnot w x) i = (i <? w) && negb (Z.testbit x i).
Proof. intros. unfold ulnot. by rewrite testbit_wrap, Z.lnot_spec by lia. Qed.

Lemma mask_ones n : 0 ≤ n ≤ 64 → mask n = Z.ones n.
Proof.
  intros Hn. unfold mask. rewrite Z.ones_equiv. destruct (Z.leb_spec 64 n); [|lia].
  by replace n with 64 by lia.
Qed.

Lemma testbit_mask n i : 0 ≤ n ≤ 64 → 0 ≤ i → Z.testbit (mask n) i = (i <? n).
Proof.
  intros Hn Hi. rewrite mask_ones by done. destruct (Z.ltb_spec i n).
  - by apply Z.ones_spec_low.
  - apply Z.ones_spec_high. lia.
Qed.

Lemma bits_one x b : 0 ≤ b → bits x b b = Z.b2z (Z.testbit x b).
Proof.
  intros Hb. unfold bits. replace (b - b + 1) with 1 by lia.
  rewrite mask_ones, Z.land_ones by lia. rewrite <-Z.bit0_mod. by rewrite Z.shiftr_spec by lia.
Qed.

Lemma bits_low x k : 0 ≤ k < 64 → bits x k 0 = x mod 2 ^ (k + 1).
Proof.
  intros Hk. unfold bits. rewrite Z.shiftr_0_r, Z.sub_0_r, mask_ones, Z.land_ones by lia. done.
Qed.

Lemma bits_field x k n : 0 ≤ k → 0 < n ≤ 64 → bits x (k + n - 1) k = Z.shiftr x k mod 2 ^ n.
Proof.
  intros Hk Hn. unfold bits. replace (k + n - 1 - k + 1) with n by lia.
  by rewrite mask_ones, Z.land_ones by lia.
Qed.

Lemma testbit_insertBits x b (v : bool) i :
  0 ≤ b < 64 → 0 ≤ i < 64 →
  Z.testbit (insertBits x b (Z.b2z v)) i = if i =? b then v else Z.testbit x i.
Proof.
  intros Hb Hi. unfold insertBits, mbits.
  assert (∀ j, 0 ≤ j < 64 →
    Z.testbit (Z.land (2 ^ 64 - 1) (Z.land (mask (b + 1)) (ulnot 64 (mask b)))) j = (j =? b)) as Hm.
  { intros j Hj. change (2 ^ 64 - 1) with (Z.ones 64).
    rewrite !Z.land_spec, testbit_ulnot, !testbit_mask by lia.
    rewrite Z.ones_spec_low by lia.
    destruct (Z.ltb_spec j (b + 1)), (Z.ltb_spec j 64), (Z.ltb_spec j b), (Z.eqb_spec j b);
      simpl; lia || done. }
  set (bm := Z.land (2 ^ 64 - 1) _) in *.
  rewrite Z.lor_spec, !Z.land_spec, testbit_ulnot, testbit_wrap by lia.
  rewrite Hm by lia. rewrite Z.shiftl_spec by lia.
  destruct (Z.ltb_spec i 64); [|lia]. destruct (Z.eqb_spec i b) as [->|]; cbn [negb andb].
  - rewrite Z.sub_diag, Z.b2z_bit0. by destruct v, (Z.testbit x b).
  - by destruct (Z.testbit x i), (Z.testbit (Z.b2z v) (i - b)).
Qed.

Lemma insertBits_range x b (v : bool) n :
  0 ≤ b < n → n ≤ 64 → 0 ≤ x < 2 ^ n → 0 ≤ insertBits x b (Z.b2z v) < 2 ^ n.
Proof.
  intros Hb Hn Hx.
  assert (insertBits x b (Z.b2z v) = insertBits x b (Z.b2z v) mod 2 ^ n) as ->.
  2: { apply Z.mod_pos_bound, Z.pow_pos_nonneg; lia. }
  apply Z.bits_inj'. intros i Hi. destruct (Z.ltb_spec i n).
  { by rewrite Z.mod_pow2_bits_low by lia. }
  rewrite Z.mod_pow2_bits_high by lia. unfold insertBits.
  rewrite Z.lor_spec, !Z.land_spec.
  assert (Z.testbit x i = false) as ->.
  { destruct (decide (x = 0)) as [->|]; [apply Z.bits_0|]. apply Z.bits_above_log2; [lia|].
    apply Z.log2_lt_pow2; [lia|]. apply Z.lt_le_trans with (2 ^ n); [lia|].
    apply Z.pow_le_mono_r; lia. }
  unfold mbits. rewrite !Z.land_spec, testbit_mask by lia.
  destruct (Z.ltb_spec i (b + 1)); [lia|]. by rewrite !andb_false_r.
Qed.

(** ** The hash is a shift register

    On values of [n = msbShift + 1] bits [hash] shifts the register once to the
    right and feeds back the xor of its ends; [dehash] undoes it, and the
    register's recurrence makes [msbShift] further shifts undo
    [x -> hash(x) xor x]. *)

Section SkewFacts.
Context (m : Z) (Hm : 1 ≤ m ≤ 31).
Let n := m + 1.

Definition nbit (x : Z) : Prop := 0 ≤ x < 2 ^ (m + 1).

Lemma nbit_high x i : nbit x → n ≤ i → Z.testbit x i = false.
Proof using Hm.
  intros Hx Hi. unfold nbit in Hx. fold n in Hx. destruct (decide (x = 0)) as [->|]; [apply Z.bits_0|].
  apply Z.bits_above_log2; [lia|]. apply Z.log2_lt_pow2; [lia|].
  apply Z.lt_le_trans with (2 ^ n); [lia|]. apply Z.pow_le_mono_r; lia.
Qed.

Lemma nbit_ext x y :
  nbit x → nbit y → (∀ i, 0 ≤ i < n → Z.testbit x i = Z.testbit y i) → x = y.
Proof using Hm.
  intros Hx Hy H. apply Z.bits_inj'. intros i Hi. destruct (Z.lt_ge_cases i n).
  - apply H. lia.
  - by rewrite !nbit_high.
Qed.

Lemma nbit_lxor x y : nbit x → nbit y → nbit (Z.lxor x y).
Proof using Hm.
  intros Hx Hy. unfold nbit. fold n.
  assert (Z.lxor x y = Z.lxor x y mod 2 ^ n) as ->.
  - apply Z.bits_inj'. intros i Hi. destruct (Z.lt_ge_cases i n).
    + by rewrite Z.mod_pow2_bits_low.
    + rewrite Z.mod_pow2_bits_high by lia. rewrite Z.lxor_spec, !nbit_high by done. done.
  - apply Z.mod_pos_bound, Z.pow_pos_nonneg; lia.
Qed.

Lemma hash_eq x : hash m x = insertBits (Z.shiftr x 1) m (Z.b2z (xorb (Z.testbit x m) (Z.testbit x 0))).
Proof using Hm.
  unfold hash. rewrite !bits_one by lia. f_equal. by destruct (Z.testbit x m), (Z.testbit x 0).
Qed.

Lemma hash_nbit x : nbit x → nbit (hash m x).
Proof using Hm.
  intros Hx. rewrite hash_eq. apply insertBits_range; [lia|lia|].
  unfold nbit in Hx. rewrite Z.shiftr_div_pow2 by lia. change (2 ^ 1) with 2.
  Z.div_mod_to_equations; lia.
Qed.

Lemma hash_bit x i : 0 ≤ i < n →
  Z.testbit (hash m x) i
  = if i =? m then xorb (Z.testbit x m) (Z.testbit x 0) else Z.testbit x (i + 1).
Proof using Hm.
  intros Hi. rewrite hash_eq, testbit_insertBits by lia.
  destruct (Z.eqb_spec i m); [done|]. by rewrite Z.shiftr_spec by lia.
Qed.

Lemma dehash_eq x : dehash m x
  = insertBits (2 * (x mod 2 ^ m)) 0 (Z.b2z (xorb (Z.testbit x (m - 1)) (Z.testbit x m))).
Proof using Hm.
  unfold dehash. rewrite !bits_one by lia.
  assert (mbits x (m - 1) 0 = x mod 2 ^ m) as ->.
  { unfold mbits. replace (m - 1 + 1) with m by lia. change (ulnot 64 (mask 0)) with (Z.ones 64).
    rewrite mask_ones by lia.
    assert (Z.land (Z.ones m) (Z.ones 64) = Z.ones m) as ->.
    { rewrite Z.land_ones by lia. apply Z.mod_small. rewrite Z.ones_equiv.
      pose proof (Z.pow_pos_nonneg 2 m). pose proof (Z.pow_le_mono_r 2 m 64). lia. }
    by rewrite Z.land_ones by lia. }
  f_equal.
  - pose proof (Z.mod_pos_bound x (2 ^ m)). pose proof (Z.pow_pos_nonneg 2 m).
    pose proof (Z.pow_le_mono_r 2 m 31). rewrite Z.shiftl_mul_pow2, wrap_id; [lia| |lia].
    unfold in_u. lia.
  - by destruct (Z.testbit x (m - 1)), (Z.testbit x m).
Qed.

Lemma dehash_nbit x : nbit (dehash m x).
Proof using Hm.
  rewrite dehash_eq. apply insertBits_range; [lia|lia|].
  pose proof (Z.mod_pos_bound x (2 ^ m)). pose proof (Z.pow_pos_nonneg 2 m).
  rewrite Z.pow_add_r by lia. lia.
Qed.

Lemma dehash_bit x i : 0 ≤ i < n →
  Z.testbit (dehash m x) i
  = if i =? 0 then xorb (Z.testbit x (m - 1)) (Z.testbit x m) else Z.testbit x (i - 1).
Proof using Hm.
  intros Hi. rewrite dehash_eq, testbit_insertBits by lia.
  destruct (Z.eqb_spec i 0); [done|].
  replace i with (Z.succ (i - 1)) at 1 by lia. rewrite Z.double_bits_succ.
  rewrite Z.mod_pow2_bits_low by lia. done.
Qed.

Lemma dehash_hash x : nbit x → dehash m (hash m x) = x.
Proof using Hm.
  intros Hx. apply nbit_ext; [apply dehash_nbit|done|]. intros i Hi. rewrite dehash_bit by done.
  destruct (Z.eqb_spec i 0) as [->|].
  - rewrite !hash_bit by lia. rewrite Z.eqb_refl. destruct (Z.eqb_spec (m - 1) m); [lia|].
    replace (m - 1 + 1) with m by lia. by destruct (Z.testbit x m), (Z.testbit x 0).
  - rewrite hash_bit by lia. destruct (Z.eqb_spec (i - 1) m); [lia|]. f_equal. lia.
Qed.

Lemma hash_dehash x : nbit x → hash m (dehash m x) = x.
Proof using Hm.
  intros Hx. apply nbit_ext; [apply hash_nbit, dehash_nbit|done|]. intros i Hi.
  rewrite hash_bit by done. destruct (Z.eqb_spec i m) as [->|].
  - rewrite !dehash_bit by lia. rewrite Z.eqb_refl. destruct (Z.eqb_spec m 0); [lia|].
    by destruct (Z.testbit x m), (Z.testbit x (m - 1)).
  - rewrite dehash_bit by lia. destruct (Z.eqb_spec (i + 1) 0); [lia|]. f_equal. lia.
Qed.

Lemma hash_lxor x y : nbit x → nbit y → hash m (Z.lxor x y) = Z.lxor (hash m x) (hash m y).
Proof using Hm.
  intros Hx Hy. apply nbit_ext; [by apply hash_nbit, nbit_lxor|by apply nbit_lxor; apply hash_nbit|].
  intros i Hi. rewrite Z.lxor_spec, !hash_bit, !Z.lxor_spec by lia.
  destruct (i =? m); [|done].
  by destruct (Z.testbit x m), (Z.testbit x 0), (Z.testbit y m), (Z.testbit y 0).
Qed.

Lemma iter_hash_nbit k x : nbit x → nbit (Nat.iter k (hash m) x).
Proof using Hm. intros Hx. induction k; [done|]. by apply hash_nbit. Qed.

Lemma iter_hash_lxor k x y : nbit x → nbit y →
  Nat.iter k (hash m) (Z.lxor x y) = Z.lxor (Nat.iter k (hash m) x) (Nat.iter k (hash m) y).
Proof using Hm.
  intros Hx Hy. induction k as [|k IH]; [done|]. rewrite !Nat.iter_succ, IH.
  by apply hash_lxor; apply iter_hash_nbit.
Qed.

(** Bit [j] of the register after [i] shifts is its lowest bit after [i + j]. *)
Lemma iter_hash_bit x i j : (Z.of_nat j < n) →
  Z.testbit (Nat.iter i (hash m) x) (Z.of_nat j) = Z.testbit (Nat.iter (i + j) (hash m) x) 0.
Proof using Hm.
  revert i. induction j as [|j IH]; intros i Hj; [by rewrite Nat.add_0_r|].
  replace (i + S j)%nat with (S i + j)%nat by lia. rewrite <-IH by lia.
  rewrite Nat.iter_succ, hash_bit by lia. destruct (Z.eqb_spec (Z.of_nat j) m); [lia|].
  f_equal. lia.
Qed.

(** The recurrence of the register. *)
Lemma hash_recurrence x : nbit x →
  Z.lxor (Nat.iter (Z.to_nat n) (hash m) x) (Nat.iter (Z.to_nat m) (hash m) x) = x.
Proof using Hm.
  intros Hx. apply nbit_ext; [by apply nbit_lxor; apply iter_hash_nbit|done|].
  intros i Hi. rewrite Z.lxor_spec.
  rewrite <-(Z2Nat.id i) by lia. set (j := Z.to_nat i). rewrite !iter_hash_bit by lia.
  replace (Z.to_nat n + j)%nat with (S j + Z.to_nat m)%nat by lia.
  rewrite (Nat.add_comm (Z.to_nat m)).
  assert (Z.testbit x (Z.of_nat j) = Z.testbit (Nat.iter j (hash m) x) 0) as ->.
  { apply (iter_hash_bit x 0). lia. }
  rewrite <-!(iter_hash_bit x _ (Z.to_nat m)) by lia. rewrite Nat.iter_succ.
  rewrite !Z2Nat.id, hash_bit, Z.eqb_refl by lia.
  by destruct (Z.testbit (Nat.iter j (hash m) x) m), (Z.testbit (Nat.iter j (hash m) x) 0).
Qed.
End SkewFacts.

(** Pasting a low field to a shifted high part. *)
Lemma lor_shifted a b k : 0 ≤ k → 0 ≤ b < 2 ^ k → Z.lor (a * 2 ^ k) b = a * 2 ^ k + b.
Proof.
  intros Hk Hb. pose proof (Z.pow_pos_nonneg 2 k). apply Z.bits_inj'. intros i Hi.
  rewrite Z.lor_spec. destruct (Z.lt_ge_cases i k).
  - rewrite Z.mul_pow2_bits_low by done. simpl.
    rewrite <-(Z.mod_pow2_bits_low (a * 2 ^ k + b) k) by done.
    rewrite Z.add_comm, Z.mod_add, Z.mod_small by lia. done.
  - rewrite Z.mul_pow2_bits by lia. replace i with (i - k + k) at 2 3 by lia.
    rewrite <-(Z.div_pow2_bits b), <-(Z.div_pow2_bits (a * 2 ^ k + b)) by lia.
    rewrite Z.div_small, Z.bits_0, orb_false_r by done.
    rewrite Z.div_add_l, Z.div_small, Z.add_0_r by lia. done.
Qed.

(** ** Well-formed policies *)

(** What the constructor establishes: [2^n] sets. *)
Record ix_wf (ix : Indexing) (n : Z) : Prop := {
  ixw_assoc : 0 < ix_assoc ix;
  ixw_bits : 0 ≤ n < 32;
  ixw_sets : ix_numSets ix = 2 ^ n;
  ixw_mask : ix_setMask ix = 2 ^ n - 1;
  ixw_shift : 0 ≤ ix_setShift ix;
  ixw_tag : ix_tagShift ix = ix_setShift ix + n
}.

Definition sets_wf (ix : Indexing) (sets : list (list ref)) : Prop :=
  length sets = Z.to_nat (ix_numSets ix) ∧ Forall (λ s, length s = Z.to_nat (ix_assoc ix)) sets.

Lemma indexing_new_wf assoc num sh ix sets :
  0 ≤ sh → indexing_new assoc num sh = Ok (ix, sets) →
  (∃ n, ix_wf ix n) ∧ sets_wf ix sets ∧ ix_setShift ix = sh ∧ ix_assoc ix = assoc ∧
  ix_numSets ix = u32 (num / assoc).
Proof.
  intros Hsh. unfold indexing_new, panic_if, fatal_if. destruct (Z.eqb_spec assoc 0); [done|].
  run_ok. pose proof (wrap_range 32 (num / assoc) ltac:(lia)) as Hr.
  set (ns := u32 (num / assoc)) in *. unfold in_u in Hr.
  destruct (decide (ns = 0)) as [->|]; [done|].
  rewrite floorLog2_log2; [|by repeat constructor|simpl; lia]. run_ok.
  destruct (isPowerOf2 ns) eqn:Ep; [|done]. destruct (Z.leb_spec assoc 0); [done|].
  cbn [negb]. intros [= <- <-]. apply isPowerOf2_spec in Ep as (k & Hk & Ek); [|lia].
  rewrite Ek, Z.log2_pow2 by done.
  assert (k < 32) by (apply (Z.pow_lt_mono_r_iff 2); lia). split_and!.
  - exists k. constructor; simpl; try done.
    rewrite wrap_id; [done|]. unfold in_u. pose proof (Z.pow_pos_nonneg 2 k). lia.
  - unfold sets_wf. simpl. rewrite length_replicate. split; [done|].
    apply Forall_replicate, length_replicate.
  - done.
  - done.
  - done.
Qed.

Section Address.
Context (ix : Indexing) (n : Z) (Hix : ix_wf ix n).

Lemma extractSet_eq a : 0 ≤ a → extractSet ix a = a / 2 ^ ix_setShift ix mod 2 ^ n.
Proof using Hix.
  intros Ha. destruct Hix as [? ? ? Em ? ?]. unfold extractSet. rewrite Em.
  replace (2 ^ n - 1) with (Z.ones n) by (rewrite Z.ones_equiv; lia).
  rewrite Z.land_ones, Z.shiftr_div_pow2 by lia. rewrite wrap_id; [done|].
  unfold in_u. pose proof (Z.mod_pos_bound (a / 2 ^ ix_setShift ix) (2 ^ n)).
  pose proof (Z.pow_pos_nonneg 2 n). pose proof (Z.pow_lt_mono_r 2 n 32). lia.
Qed.

Lemma extractSet_range a : 0 ≤ a → 0 ≤ extractSet ix a < ix_numSets ix.
Proof using Hix.
  intros Ha. rewrite extractSet_eq, ixw_sets with (n := n) by done.
  apply Z.mod_pos_bound, Z.pow_pos_nonneg; [lia|]. by destruct Hix; lia.
Qed.

(** Tag, set and block offset are the address. *)
Lemma address_split a : 0 ≤ a →
  a - a mod 2 ^ ix_setShift ix
  = extractTag ix a * 2 ^ ix_tagShift ix + (a / 2 ^ ix_setShift ix mod 2 ^ n) * 2 ^ ix_setShift ix.
Proof using Hix.
  intros Ha. destruct Hix as [? ? ? ? ? Et]. unfold extractTag. rewrite Et.
  set (s := ix_setShift ix) in *. rewrite Z.shiftr_div_pow2, Z.pow_add_r by lia.
  pose proof (Z.pow_pos_nonneg 2 s). pose proof (Z.pow_pos_nonneg 2 n).
  rewrite <-Z.div_div by lia.
  pose proof (Z.div_mod a (2 ^ s)). pose proof (Z.div_mod (a / 2 ^ s) (2 ^ n)). nia.
Qed.

Lemma extractTag_small a : in_u 64 a → in_u 64 (extractTag ix a * 2 ^ ix_tagShift ix).
Proof using Hix.
  intros Ha. unfold in_u in *. pose proof (address_split a ltac:(lia)) as E.
  destruct Hix as [? ? ? ? ? Et]. set (s := ix_setShift ix) in *.
  pose proof (Z.pow_pos_nonneg 2 s). pose proof (Z.pow_pos_nonneg 2 n).
  pose proof (Z.mod_pos_bound a (2 ^ s)). pose proof (Z.mod_pos_bound (a / 2 ^ s) (2 ^ n)).
  assert (0 ≤ extractTag ix a) by (unfold extractTag; rewrite Z.shiftr_nonneg; lia).
  pose proof (Z.pow_nonneg 2 (ix_tagShift ix)). nia.
Qed.
End Address.

Section SkewTheorems.
Context (m : Z) (Hm : 1 ≤ m ≤ 31).

Lemma iter_dehash_hash k x : nbit m x →
  Nat.iter k (dehash m) (Nat.iter k (hash m) x) = x.
Proof using Hm.
  intros Hx. induction k as [|k IH]; [done|]. rewrite Nat.iter_succ_r, Nat.iter_succ.
  rewrite dehash_hash; [done|done|]. by apply iter_hash_nbit.
Qed.

Lemma skew_case_nbit c a1 a2 : nbit m a1 → nbit m a2 → nbit m (skew_case m c a1 a2).
Proof using Hm.
  intros H1 H2. unfold skew_case.
  repeat case_match; repeat apply nbit_lxor; auto using hash_nbit, dehash_nbit.
Qed.

Lemma lxor_cancel a b : Z.lxor (Z.lxor a b) b = a.
Proof. by rewrite Z.lxor_assoc, Z.lxor_nilpotent, Z.lxor_0_r. Qed.

Lemma lxor_cancel_mid a b c : Z.lxor (Z.lxor (Z.lxor a b) c) b = Z.lxor a c.
Proof.
  by rewrite !Z.lxor_assoc, (Z.lxor_comm c b), <-(Z.lxor_assoc b b c), Z.lxor_nilpotent, Z.lxor_0_l.
Qed.

Lemma iter_undo_hash x : nbit m x →
  repeat_fn m (hash m) (Z.lxor (hash m x) x) = x.
Proof using Hm.
  intros Hx. unfold repeat_fn. rewrite iter_hash_lxor by auto using hash_nbit.
  rewrite <-Nat.iter_succ_r. replace (S (Z.to_nat m)) with (Z.to_nat (m + 1)) by lia.
  by apply hash_recurrence.
Qed.

Lemma iter_undo_dehash x : nbit m x →
  repeat_fn (m + 1) (hash m) (Z.lxor (dehash m x) x) = x.
Proof using Hm.
  intros Hx. unfold repeat_fn. rewrite iter_hash_lxor by auto using dehash_nbit.
  assert (Nat.iter (Z.to_nat (m + 1)) (hash m) (dehash m x) = Nat.iter (Z.to_nat m) (hash m) x) as ->.
  { replace (Z.to_nat (m + 1)) with (S (Z.to_nat m)) by lia.
    by rewrite Nat.iter_succ_r, hash_dehash. }
  rewrite Z.lxor_comm. by apply hash_recurrence.
Qed.

Lemma deskew_skew_case c a1 a2 : nbit m a1 → nbit m a2 →
  deskew_case m c (skew_case m c a1 a2) a2 = a1.
Proof using Hm.
  intros H1 H2. unfold deskew_case, skew_case.
  repeat case_match; rewrite ?lxor_cancel_mid, ?lxor_cancel;
    first [by apply dehash_hash | by apply hash_dehash
          | by apply iter_undo_hash | by apply iter_undo_dehash].
Qed.

(** [deskew] of the skewed set pasted under the tag gives the set bits back. *)
Lemma deskew_skew tag x way :
  0 ≤ way → 0 ≤ x < 2 ^ 64 → tag = x / 2 ^ (m + 1) →
  nbit m (skew m x way) ∧
  deskew m (tag * 2 ^ (m + 1) + skew m x way) way = x mod 2 ^ (m + 1).
Proof using Hm.
  intros Hw Hx ->. pose proof (Z.pow_pos_nonneg 2 (m + 1)) as Hp.
  assert (skew_addr1 m x = x mod 2 ^ (m + 1)) as E1 by (apply bits_low; lia).
  assert (∀ y, skew_addr2 m y = (y / 2 ^ (m + 1)) mod 2 ^ (m + 1)) as E2.
  { intros y. unfold skew_addr2.
    replace (2 * (m + 1) - 1) with (m + 1 + (m + 1) - 1) by lia.
    rewrite bits_field, Z.shiftr_div_pow2 by lia. done. }
  assert (∀ y, nbit m (y mod 2 ^ (m + 1))) as Hnb by (intros y; apply Z.mod_pos_bound; lia).
  unfold skew, deskew, NUM_SKEWING_FUNCTIONS. rewrite E1, (E2 x).
  set (a1 := x mod 2 ^ (m + 1)). set (a2 := (x / 2 ^ (m + 1)) mod 2 ^ (m + 1)).
  pose proof (skew_case_nbit (way mod 8) a1 a2 (Hnb _) (Hnb _)) as Hc.
  set (c := skew_case m (way mod 8) a1 a2) in *. unfold repeat_fn.
  pose proof (iter_hash_nbit m Hm (Z.to_nat (way / 8)) c Hc) as Hs.
  set (s := Nat.iter _ _ c) in *. split; [done|]. unfold nbit in Hs.
  rewrite E2, Z.div_add_l, (Z.div_small s), Z.add_0_r by lia. fold a2.
  assert (skew_addr1 m (x / 2 ^ (m + 1) * 2 ^ (m + 1) + s) = s) as ->.
  { unfold skew_addr1. rewrite bits_low, Z.add_comm, Z.mod_add, Z.mod_small by lia. done. }
  assert ((if 8 <=? way then Nat.iter (Z.to_nat (way / 8)) (dehash m) s else s) = c) as ->.
  { destruct (Z.leb_spec 8 way); [by apply iter_dehash_hash|].
    subst s. by rewrite Z.div_small by lia. }
  apply deskew_skew_case; apply Hnb.
Qed.
End SkewTheorems.

Lemma skewed_new_wf assoc num sh ix m sets :
  0 ≤ sh → skewed_new assoc num sh = Ok (ix, m, sets) →
  ix_wf ix (m + 1) ∧ ix_setShift ix = sh ∧ 1 ≤ m ≤ 31 ∧ sh + 2 * (m + 1) ≤ 64.
Proof.
  intros Hsh E. unfold skewed_new in E. apply outcome_bind_ok in E as ([ix' sets'] & E1 & E).
  apply indexing_new_wf in E1 as ([n Hn] & _ & Es & _); [|done].
  pose proof (ixw_bits _ _ Hn). pose proof (Z.pow_pos_nonneg 2 n).
  rewrite (ixw_sets _ _ Hn), floorLog2_log2, Z.log2_pow2 in E;
    [|lia|by repeat constructor|pose proof (Z.pow_lt_mono_r 2 n 32); simpl; lia].
  cbn [mbind outcome_bind] in E. unfold panic_if, fatal_if in E.
  destruct (Z.ltb_spec 64 (sh + 2 * (n - 1 + 1))); [done|]. destruct (Z.leb_spec (2 ^ n) 2); [done|].
  injection E as <- <- _. replace (n - 1 + 1) with n by lia. split_and!; try done; try lia.
  assert (1 < n); [|lia]. apply (Z.pow_lt_mono_r_iff 2); lia.
Qed.

Lemma land_mask ix n x : ix_wf ix n → Z.land x (ix_setMask ix) = x mod 2 ^ n.
Proof.
  intros Hix. rewrite (ixw_mask _ _ Hix).
  replace (2 ^ n - 1) with (Z.ones n) by (rewrite Z.ones_equiv; lia).
  apply Z.land_ones. by destruct Hix; lia.
Qed.

Lemma extractSet_bounded ix n a : ix_wf ix n → 0 ≤ extractSet ix a < ix_numSets ix.
Proof.
  intros Hix. unfold extractSet. rewrite (land_mask ix n), (ixw_sets _ _ Hix) by done.
  pose proof (ixw_bits _ _ Hix). pose proof (Z.pow_lt_mono_r 2 n 32). pose proof (Z.pow_pos_nonneg 2 n).
  pose proof (Z.mod_pos_bound (Z.shiftr a (ix_setShift ix)) (2 ^ n)). rewrite wrap_id by in_word. lia.
Qed.

(** A policy built for a number of entries that the associativity divides has a place for
    each of them. *)
Lemma indexing_new_full assoc num sh ix sets :
  0 ≤ sh → 0 < assoc < 2 ^ 32 → 0 ≤ num < 2 ^ 32 → num mod assoc = 0 →
  indexing_new assoc num sh = Ok (ix, sets) →
  ∃ n, ix_wf ix n ∧ sets_wf ix sets ∧ ix_assoc ix = assoc ∧ ix_numSets ix * assoc = num.
Proof.
  intros Hsh Ha Hn Hm E. apply indexing_new_wf in E as ([n Hix] & Hw & _ & Eas & Ens); [|done].
  exists n. split_and!; [done..|]. rewrite Ens, wrap_id; [|unfold in_u; Z.div_mod_to_equations; nia].
  Z.div_mod_to_equations. lia.
Qed.

(** ** Theorems *)

(** Storing an address under its tag and its set loses only the block
    offset: [regenerateAddr] of the tag and the set that [extractTag] and
    [extractSet] computed is the block address, as long as the sets span less
    than 4 GiB. *)
Lemma setassoc_regenerate (assoc num sh : Z) (ix : Indexing) (sets : list (list ref)) (a : Z) :
  0 ≤ sh → indexing_new assoc num sh = Ok (ix, sets) →
  ix_numSets ix * 2 ^ sh ≤ 2 ^ 32 → in_u 64 a →
  regenerateAddr ix (extractTag ix a) (extractSet ix a) = a - a mod 2 ^ sh.
Proof.
  intros Hsh E Hsp Ha. apply indexing_new_wf in E as ([n Hix] & _ & <- & _); [|done].
  unfold regenerateAddr. pose proof (extractTag_small ix n Hix a Ha) as Hts.
  unfold in_u in Ha. rewrite (address_split ix n Hix) by lia.
  rewrite extractSet_eq with (n := n) by (done || lia). destruct Hix as [? ? Es ? ? Et].
  rewrite Es in Hsp. set (s := ix_setShift ix) in *.
  pose proof (Z.pow_pos_nonneg 2 s). pose proof (Z.mod_pos_bound (a / 2 ^ s) (2 ^ n)).
  pose proof (Z.pow_pos_nonneg 2 n).
  rewrite !Z.shiftl_mul_pow2 by lia. rewrite (wrap_id 64) by done.
  rewrite wrap_id by (unfold in_u; nia). apply lor_shifted; [lia|].
  rewrite Et, Z.pow_add_r by lia. nia.
Qed.

(** The skewing functions are invertible and [deskew] inverts them: for
    every way, also the ways beyond the eight functions, an address stored in the
    skewed set of that way under its tag is regenerated exactly, block offset
    apart. *)
Theorem skewed_regenerate (assoc num sh : Z) (ix : Indexing) (m : Z) (sets : list (list ref))
    (a way : Z) :
  0 ≤ sh → skewed_new assoc num sh = Ok (ix, m, sets) → in_u 64 a → 0 ≤ way →
  skewed_regenerateAddr m ix (extractTag ix a) (skewed_extractSet m ix a way) way = a - a mod 2 ^ sh.
Proof.
  intros Hsh E Ha Hway. apply skewed_new_wf in E as (Hix & <- & Hm & _); [|done].
  pose proof (extractTag_small ix _ Hix a Ha) as Hts. unfold in_u in Ha, Hts.
  rewrite (address_split ix _ Hix) by lia. pose proof (ixw_shift _ _ Hix). pose proof (ixw_tag _ _ Hix) as Et.
  set (s := ix_setShift ix) in *. pose proof (Z.pow_pos_nonneg 2 s ltac:(lia) ltac:(lia)).
  pose proof (Z.pow_pos_nonneg 2 (m + 1) ltac:(lia) ltac:(lia)).
  assert (0 ≤ a / 2 ^ s ≤ a) by (Z.div_mod_to_equations; nia).
  assert (extractTag ix a = a / 2 ^ s / 2 ^ (m + 1)) as Etag.
  { unfold extractTag. rewrite Z.shiftr_div_pow2, Et, Z.pow_add_r, Z.div_div by lia. done. }
  destruct (deskew_skew m Hm (extractTag ix a) (a / 2 ^ s) way) as [Hn Hd]; [done|lia|done|].
  unfold skewed_regenerateAddr, skewed_extractSet. fold s.
  rewrite !(land_mask ix _ _ Hix), (Z.shiftr_div_pow2 a) by lia. unfold nbit in Hn.
  pose proof (Z.pow_le_mono_r 2 (m + 1) 32 ltac:(lia) ltac:(lia)).
  rewrite (Z.mod_small (skew _ _ _)), (wrap_id 32) by (done || unfold in_u; lia).
  rewrite !Z.shiftl_mul_pow2 by lia. rewrite (wrap_id 64 (_ * 2 ^ (m + 1))).
  2: { rewrite Etag. unfold in_u. Z.div_mod_to_equations. nia. }
  rewrite (lor_shifted _ (skew _ _ _)), Hd by lia. rewrite Z.mod_mod by lia.
  pose proof (Z.mod_pos_bound (a / 2 ^ s) (2 ^ (m + 1)) ltac:(lia)).
  rewrite (wrap_id 64 (extractTag _ _ * _)) by done.
  assert (a / 2 ^ s mod 2 ^ (m + 1) * 2 ^ s < 2 ^ ix_tagShift ix).
  { rewrite Et, (Z.pow_add_r 2 s (m + 1)), (Z.mul_comm (2 ^ s)) by lia. apply Z.mul_lt_mono_pos_r; lia. }
  rewrite wrap_id.
  - apply lor_shifted; [lia|]. nia.
  - unfold in_u. pose proof (Z.mod_le (a / 2 ^ s) (2 ^ (m + 1)) ltac:(lia) ltac:(lia)).
    pose proof (Z.mul_div_le a (2 ^ s) ltac:(lia)). nia.
Qed.

Lemma skewed_regenerate_witness :
  ∃ ix m sets, skewed_new 16 256 6 = Ok (ix, m, sets) ∧
    skewed_regenerateAddr m ix (extractTag ix 0x12345) (skewed_extractSet m ix 0x12345 13) 13 = 0x12340.
Proof.
  eexists _, _, _. split; [vm_compute; reflexivity|].
  apply (skewed_regenerate 16 256 6 _ _ (replicate 16 (replicate 16 None)));
    [lia|vm_compute; reflexivity|unfold in_u; lia|lia].
Defined.
