(* ===== verification/AssocCache.v ===== *)
(** * Associative tables

    [src/src/base/cache/associative_cache.hh] with the entries of
    [src/src/base/cache/cache_entry.hh] and [src/src/mem/cache/tags/tagged_entry.hh]:
    the table most prefetchers keep their history in.

    A table does not own the way from a key to an entry: its indexing policy does,
    and both are simulation objects that several tables may share.  The model has
    the store the objects share: the cells (an entry with its replacement data and
    its position), the indexing policy's [sets], which hold references to cells,
    and the replacement policy's state.  An [Assoc] is one table over the store: the
    range of cells that are its [entries]. *)

From Stdlib Require Import ZArith Lia.
From stdpp Require Import base numbers option list strings.
From S2P Require Import Prelude PrefetchBase Replacement Indexing.
#[local] Open Scope Z_scope.

Definition MaxAddr : Z := 2 ^ 64 - 1.

(** ** Entries *)

(** What the table needs of its entries; the first argument is the tag extractor
    the entry was given. *)
Class TableEntry (K E : Type) := {
  e_match : (Z → Z) → K → E → bool;
  e_insert : (Z → Z) → K → E → outcome E;
  e_invalidate : E → E
}.

Record TaggedEntry := mkTagEntry { te_valid : bool; te_secure : bool; te_tag : Z }.

Definition te_new : TaggedEntry := mkTagEntry false false MaxAddr.

Definition te_match (extractTag : Z → Z) (key : TaggedKey) (e : TaggedEntry) : bool :=
  te_valid e && (te_tag e =? extractTag (k_address key)) && eqb (te_secure e) (k_secure key).

Definition te_insert (extractTag : Z → Z) (key : TaggedKey) (e : TaggedEntry) : outcome TaggedEntry :=
  _ ← assert_that (negb (te_valid e)) "!isValid()";
  Ok (mkTagEntry true (if k_secure key then true else te_secure e) (extractTag (k_address key))).

Definition te_invalidate (_ : TaggedEntry) : TaggedEntry := mkTagEntry false false MaxAddr.

Record CacheEntry := mkCacheEntry { ce_valid : bool; ce_tag : Z }.

Definition ce_new : CacheEntry := mkCacheEntry false MaxAddr.

Definition ce_match (extractTag : Z → Z) (addr : Z) (e : CacheEntry) : bool :=
  ce_valid e && (ce_tag e =? extractTag addr).

Definition ce_insert (extractTag : Z → Z) (addr : Z) (e : CacheEntry) : outcome CacheEntry :=
  _ ← assert_that (negb (ce_valid e)) "!isValid()";
  Ok (mkCacheEntry true (extractTag addr)).

Definition ce_invalidate (_ : CacheEntry) : CacheEntry := mkCacheEntry false MaxAddr.

(** ** The store and the tables *)

Record Cell (E R : Type) := mkCell { c_entry : E; c_repl : R; c_set : Z; c_way : Z }.
Arguments mkCell {E R} _ _ _ _.
Arguments c_entry {E R} _.
Arguments c_repl {E R} _.
Arguments c_set {E R} _.
Arguments c_way {E R} _.

Record Store (G E R : Type) := mkStore {
  s_sets : list (list ref);
  s_cells : list (Cell E R);
  s_pol : G
}.
Arguments mkStore {G E R} _ _ _.
Arguments s_sets {G E R} _.
Arguments s_cells {G E R} _.
Arguments s_pol {G E R} _.

Record Assoc := mkAssoc { ac_first : nat; ac_num : nat }.

Section Table.
Context {K E G R : Type} `{TableEntry K E} `{ReplPolicy G R} (ip : IndexingPolicy K).

Definition set_entry (e : E) (c : Cell E R) : Cell E R := mkCell e (c_repl c) (c_set c) (c_way c).
Definition set_repl (r : R) (c : Cell E R) : Cell E R := mkCell (c_entry c) r (c_set c) (c_way c).

(** Dereferencing a pointer to an entry. *)
Definition deref (s : Store G E R) (p : ref) : outcome (nat * Cell E R) :=
  match p with
  | None => Stop (Panic "null entry")
  | Some i => match s_cells s !! i with
              | None => Stop (Panic "dangling entry")
              | Some c => Ok (i, c)
              end
  end.

Definition cell_at (s : Store G E R) (i : nat) : outcome (Cell E R) :=
  '(_, c) ← deref s (Some i); Ok c.

(** Writing members of an entry through its pointer. *)
Definition put (s : Store G E R) (i : nat) (c : Cell E R) (g : G) : Store G E R :=
  mkStore (s_sets s) (<[i := c]> (s_cells s)) g.

Definition put_entry (s : Store G E R) (i : nat) (e : E) : Store G E R :=
  mkStore (s_sets s) (alter (set_entry e) i (s_cells s)) (s_pol s).

(** [initParams]'s loop: the next cell gets its place in the indexing policy and
    fresh replacement data. *)
Fixpoint init_entries (init_val : E) (k : nat) (idx : Z) (s : Store G E R) : outcome (Store G E R) :=
  match k with
  | O => Ok s
  | S k =>
      '(sets, (set, way)) ← setEntry (ip_base ip) (s_sets s) (length (s_cells s)) idx;
      '(r, g) ← rp_instantiate (s_pol s);
      init_entries init_val k (idx + 1)
        (mkStore sets (s_cells s ++ [mkCell init_val r set way]) g)
  end.

(** The constructor (and [init]): a new table of [num_entries] copies of
    [init_val]. *)
Definition assoc_new (num_entries associativity : Z) (init_val : E) (s : Store G E R)
    : outcome (Assoc * Store G E R) :=
  _ ← fatal_if (negb (num_entries mod associativity =? 0))
        "The number of entries of an AssociativeCache<> must be a multiple of its associativity";
  s' ← init_entries init_val (Z.to_nat num_entries) 0 s;
  Ok (mkAssoc (length (s_cells s)) (Z.to_nat num_entries), s').

Definition possible (s : Store G E R) (key : K) : list ref := ip_possible ip (s_sets s) key.

Fixpoint find_in (s : Store G E R) (key : K) (cands : list ref) : outcome (option nat) :=
  match cands with
  | [] => Ok None
  | p :: cands =>
      '(i, c) ← deref s p;
      if e_match (ip_extractTag ip) key (c_entry c) then Ok (Some i) else find_in s key cands
  end.

Definition findEntry (s : Store G E R) (key : K) : outcome (option nat) :=
  find_in s key (possible s key).

(** [accessEntry] of an entry. *)
Definition accessEntry (curTick : Z) (s : Store G E R) (i : nat) : outcome (Store G E R) :=
  c ← cell_at s i;
  '(r, g) ← rp_touch curTick None (c_repl c) (s_pol s);
  Ok (put s i (set_repl r c) g).

(** [accessEntry] of a key. *)
Definition accessKey (curTick : Z) (s : Store G E R) (key : K) : outcome (option nat * Store G E R) :=
  o ← findEntry s key;
  match o with
  | None => Ok (None, s)
  | Some i => s ← accessEntry curTick s i; Ok (Some i, s)
  end.

Definition invalidate (s : Store G E R) (i : nat) : outcome (Store G E R) :=
  c ← cell_at s i;
  '(r, g) ← rp_invalidate (c_repl c) (s_pol s);
  Ok (put s i (mkCell (e_invalidate (c_entry c)) r (c_set c) (c_way c)) g).

Fixpoint deref_all (s : Store G E R) (cands : list ref) : outcome (list (nat * Cell E R)) :=
  match cands with
  | [] => Ok []
  | p :: cands => ic ← deref s p; ics ← deref_all s cands; Ok (ic :: ics)
  end.

(** The candidates' replacement data after the victim search. *)
Fixpoint write_back (ics : list (nat * Cell E R)) (rs : list R) (cells : list (Cell E R))
    : list (Cell E R) :=
  match ics, rs with
  | (i, _) :: ics, r :: rs => write_back ics rs (alter (set_repl r) i cells)
  | _, _ => cells
  end.

Definition findVictim (s : Store G E R) (key : K) : outcome (nat * Store G E R) :=
  ics ← deref_all s (possible s key);
  '(v, rs, g) ← rp_getVictim (c_repl ∘ snd <$> ics) (s_pol s);
  match ics !! v with
  | None => Stop (Panic "victim is not a candidate")
  | Some (i, _) =>
      let s := mkStore (s_sets s) (write_back ics rs (s_cells s)) g in
      s ← invalidate s i;
      Ok (i, s)
  end.

Definition insertEntry (curTick : Z) (s : Store G E R) (key : K) (i : nat) : outcome (Store G E R) :=
  c ← cell_at s i;
  e ← e_insert (ip_extractTag ip) key (c_entry c);
  '(r, g) ← rp_reset curTick None (c_repl c) (s_pol s);
  Ok (put s i (mkCell e r (c_set c) (c_way c)) g).

(** [clear]: the table's own entries, in order. *)
Definition clear (a : Assoc) (s : Store G E R) : outcome (Store G E R) :=
  foldl (λ m i, s ← m; invalidate s i) (Ok s) (seq (ac_first a) (ac_num a)).
End Table.

(** ** Laws of entries

    An entry holds a tag or none; it matches a key when it holds the key's tag,
    invalidation makes it fresh, a fresh entry has no tag, and insertion stores
    the key's tag in a fresh entry. *)

Class TableEntryLaws (K E T : Type) `{TableEntry K E} := {
  e_key : (Z → Z) → K → T;
  e_tag : E → option T;
  e_fresh : E → Prop;
  law_match ext key e : e_match ext key e = true ↔ e_tag e = Some (e_key ext key);
  law_insert ext key e : e_fresh e →
    ∃ e', e_insert ext key e = Ok e' ∧ e_tag e' = Some (e_key ext key);
  law_e_invalidate e : e_fresh (e_invalidate e);
  law_fresh e : e_fresh e → e_tag e = None
}.

#[export] Instance tagged_entry_ops : TableEntry TaggedKey TaggedEntry :=
  {| e_match := te_match; e_insert := te_insert; e_invalidate := te_invalidate |}.
#[export] Instance cache_entry_ops : TableEntry Z CacheEntry :=
  {| e_match := ce_match; e_insert := ce_insert; e_invalidate := ce_invalidate |}.

Definition te_tagof (e : TaggedEntry) : option (Z * bool) :=
  if te_valid e then Some (te_tag e, te_secure e) else None.

Lemma te_match_spec ext key e :
  te_match ext key e = true ↔ te_tagof e = Some (ext (k_address key), k_secure key).
Proof.
  unfold te_match, te_tagof. rewrite !andb_true_iff, Z.eqb_eq, eqb_true_iff.
  destruct (te_valid e); split; try done.
  - by intros [[_ ->] ->].
  - by intros [= -> ->].
  - by intros [[? _] _].
Qed.

#[export] Instance cache_entry_laws : TableEntryLaws Z CacheEntry Z.
Proof.
  refine {| e_key := λ ext a, ext a; e_tag := λ e, if ce_valid e then Some (ce_tag e) else None;
            e_fresh := λ e, ce_valid e = false |}.
  - intros ext key e. simpl. unfold ce_match. rewrite andb_true_iff, Z.eqb_eq.
    destruct (ce_valid e); split; try done.
    + by intros [_ ->].
    + by intros [= ->].
    + by intros [? _].
  - intros ext key e. simpl. unfold ce_insert. intros ->. simpl. eauto.
  - done.
  - intros e. simpl. by intros ->.
Defined.

(** A fresh tagged entry does not remember a secure bit: [insert] only sets the
    bit, and relies on [invalidate] having cleared it. *)
#[export] Instance tagged_entry_laws : TableEntryLaws TaggedKey TaggedEntry (Z * bool).
Proof.
  refine {| e_key := λ ext k, (ext (k_address k), k_secure k); e_tag := te_tagof;
            e_fresh := λ e, te_valid e = false ∧ te_secure e = false |}.
  - intros ext key e. apply te_match_spec.
  - intros ext key e [Hv Hs]. simpl. unfold te_insert. rewrite Hv, Hs. simpl.
    eexists. split; [done|]. unfold te_tagof. simpl. by destruct (k_secure key).
  - done.
  - intros e [Hv _]. unfold te_tagof. by rewrite Hv.
Defined.

(** ** Facts *)

Section TableFacts.
Context {K E G R T : Type} `{TEL : TableEntryLaws K E T} `{RL : ReplLaws G R} (ip : IndexingPolicy K).

Definition entries (s : Store G E R) : list E := c_entry <$> s_cells s.

(** The candidates of a key are the references [rs], distinct cells of the store. *)
Record cand (s : Store G E R) (key : K) (rs : list nat) : Prop := {
  cand_eq : possible ip s key = Some <$> rs;
  cand_ne : rs ≠ [];
  cand_nodup : NoDup rs;
  cand_in : Forall (λ i, i < length (s_cells s))%nat rs;
  cand_bound : Z.of_nat (length rs) < 2 ^ 32
}.

(** Two stores with the same sets and the same entries: what a lookup sees. *)
Record same (s s' : Store G E R) : Prop := {
  same_sets : s_sets s' = s_sets s;
  same_entries : entries s' = entries s
}.

Lemma entries_length s : length (entries s) = length (s_cells s).
Proof. apply length_fmap. Qed.

Lemma cand_mono s s' key rs :
  s_sets s' = s_sets s → length (s_cells s') = length (s_cells s) → cand s key rs → cand s' key rs.
Proof.
  intros Hs Hl [H1 H2 H3 H4 H5]. split; [|done..|by rewrite Hl|done].
  unfold possible in *. by rewrite Hs.
Qed.

(** The first candidate that holds the key's tag. *)
Definition holds (es : list E) (key : K) (i : nat) : bool :=
  match es !! i with Some e => e_match (ip_extractTag ip) key e | None => false end.

Fixpoint first_hold (es : list E) (key : K) (rs : list nat) : option nat :=
  match rs with
  | [] => None
  | i :: rs => if holds es key i then Some i else first_hold es key rs
  end.

Lemma first_hold_Some es key rs i : first_hold es key rs = Some i → i ∈ rs ∧ holds es key i = true.
Proof.
  induction rs as [|j rs IH]; simpl; [done|]. destruct (holds es key j) eqn:E1.
  - intros [= <-]. split; [left|done].
  - intros [? ?]%IH. split; [by right|done].
Qed.

Lemma first_hold_None es key rs :
  first_hold es key rs = None ↔ ∀ i, i ∈ rs → holds es key i = false.
Proof.
  induction rs as [|j rs IH]; simpl.
  { split; [|done]. by intros _ i ?%elem_of_nil. }
  destruct (holds es key j) eqn:E1.
  - split; [done|]. intros Ha. specialize (Ha j (list_elem_of_here _ _)). congruence.
  - rewrite IH. split.
    + intros Ha i [->|Hi]%elem_of_cons; auto.
    + intros Ha i Hi. apply Ha. by right.
Qed.

Lemma first_hold_ext es es' key rs :
  (∀ i, i ∈ rs → holds es' key i = holds es key i) → first_hold es' key rs = first_hold es key rs.
Proof.
  induction rs as [|j rs IH]; intros Ha; simpl; [done|].
  rewrite Ha by left. destruct (holds es key j); [done|]. apply IH. intros i Hi. apply Ha. by right.
Qed.

Lemma find_in_eq s key rs :
  Forall (λ i, i < length (s_cells s))%nat rs →
  find_in ip s key (Some <$> rs) = Ok (first_hold (entries s) key rs).
Proof.
  induction 1 as [|i rs Hi _ IH]; simpl; [done|].
  apply lookup_lt_is_Some in Hi as [c Hc]. rewrite Hc. run_ok.
  unfold holds, entries. rewrite list_lookup_fmap, Hc. simpl.
  by destruct (e_match _ _ _).
Qed.

Lemma findEntry_eq s key rs :
  cand s key rs → findEntry ip s key = Ok (first_hold (entries s) key rs).
Proof. intros []. unfold findEntry. rewrite cand_eq0. by apply find_in_eq. Qed.

Lemma findEntry_same s s' key :
  same s s' → (∃ rs, cand s key rs) → findEntry ip s' key = findEntry ip s key.
Proof.
  intros [Hs He] [rs Hc]. rewrite (findEntry_eq s _ rs) by done.
  rewrite (findEntry_eq s' _ rs), He; [done|]. eapply cand_mono; [done| |done].
  by rewrite <-!entries_length, He.
Qed.

Lemma entries_cell s i e : entries s !! i = Some e → ∃ c, s_cells s !! i = Some c ∧ c_entry c = e.
Proof. unfold entries. rewrite list_lookup_fmap. intros (c & -> & ?)%fmap_Some. eauto. Qed.

Lemma put_spec s i c c' g :
  s_cells s !! i = Some c →
  entries (put s i c' g) = <[i := c_entry c']> (entries s).
Proof. intros Hc. unfold entries, put. simpl. by rewrite list_fmap_insert. Qed.

Lemma put_entry_spec s i e : entries (put_entry s i e) = <[i := e]> (entries s).
Proof.
  unfold entries, put_entry. simpl. apply list_eq. intros j. rewrite list_lookup_fmap.
  destruct (decide (i = j)) as [<-|Hne].
  - rewrite list_lookup_alter_eq. destruct (s_cells s !! i) as [c|] eqn:Ec; simpl.
    + rewrite list_lookup_insert_eq; [done|]. rewrite length_fmap. by eapply lookup_lt_Some.
    + rewrite lookup_ge_None_2; [done|]. rewrite length_insert, length_fmap. by apply lookup_ge_None.
  - rewrite list_lookup_alter_ne, list_lookup_insert_ne, list_lookup_fmap by done. done.
Qed.

Lemma accessEntry_spec t s i e :
  entries s !! i = Some e → ∃ s', accessEntry t s i = Ok s' ∧ same s s'.
Proof using RL.
  intros (c & Hc & He)%entries_cell. unfold accessEntry, cell_at, deref. rewrite Hc.
  run_ok. destruct (law_touch t (c_repl c) (s_pol s)) as [[r g] ->].
  run_ok. eexists. split; [done|]. split; [done|].
  rewrite (put_spec _ _ c) by done. simpl. apply list_insert_id. unfold entries.
  by rewrite list_lookup_fmap, Hc.
Qed.

Lemma invalidate_spec s i e :
  entries s !! i = Some e →
  ∃ s', invalidate (K := K) s i = Ok s' ∧ s_sets s' = s_sets s ∧
    entries s' = <[i := e_invalidate (K := K) e]> (entries s).
Proof using RL.
  intros (c & Hc & <-)%entries_cell. unfold invalidate, cell_at, deref. rewrite Hc.
  run_ok. destruct (law_invalidate (c_repl c) (s_pol s)) as [[r g] ->].
  run_ok. eexists. split; [done|]. split; [done|]. by apply (put_spec _ _ c).
Qed.

Lemma insertEntry_spec t s key i e e' :
  entries s !! i = Some e → e_insert (ip_extractTag ip) key e = Ok e' →
  ∃ s', insertEntry ip t s key i = Ok s' ∧ s_sets s' = s_sets s ∧ entries s' = <[i := e']> (entries s).
Proof using RL.
  intros (c & Hc & <-)%entries_cell Hi. unfold insertEntry, cell_at, deref. rewrite Hc.
  run_ok. rewrite Hi. run_ok.
  destruct (law_reset t (c_repl c) (s_pol s)) as [[r g] ->].
  run_ok. eexists. split; [done|]. split; [done|]. by apply (put_spec _ _ c).
Qed.

Lemma deref_all_eq (s : Store G E R) rs :
  Forall (λ i, i < length (s_cells s))%nat rs →
  ∃ ics, deref_all s (Some <$> rs) = Ok ics ∧ ics.*1 = rs.
Proof.
  induction 1 as [|i rs Hi _ (ics & IH & <-)]; [by exists []|]. cbn [fmap list_fmap deref_all deref].
  apply lookup_lt_is_Some in Hi as [c Hc]. rewrite Hc. run_ok.
  change (list_fmap nat (option nat) Some) with (fmap (M := list) (@Some nat)).
  rewrite IH. run_ok. by exists ((i, c) :: ics).
Qed.

Lemma write_back_entries ics rs cells :
  c_entry <$> write_back ics rs cells = c_entry <$> (cells : list (Cell E R)).
Proof.
  revert rs cells. induction ics as [|[i c] ics IH]; intros [|r rs] cells; simpl; try done.
  rewrite IH. apply list_eq. intros j. rewrite !list_lookup_fmap.
  destruct (decide (i = j)) as [<-|]; [|by rewrite list_lookup_alter_ne].
  rewrite list_lookup_alter_eq. by destruct (cells !! i).
Qed.

Lemma findVictim_spec s key rs :
  cand s key rs →
  ∃ v s' e, findVictim ip s key = Ok (v, s') ∧ v ∈ rs ∧ entries s !! v = Some e ∧
    s_sets s' = s_sets s ∧ entries s' = <[v := e_invalidate (K := K) e]> (entries s).
Proof using RL.
  intros [Hp Hne Hnd Hin Hb]. unfold findVictim. rewrite Hp.
  destruct (deref_all_eq s rs Hin) as (ics & -> & Hics). run_ok.
  pose proof (law_victim (c_repl ∘ snd <$> ics) (s_pol s)) as Hv.
  rewrite length_fmap in Hv. rewrite <-Hics, length_fmap in Hb. specialize (Hv ltac:(intros ?%fmap_nil_inv; subst; done) Hb).
  destruct (rp_getVictim _ _) as [[[v rs'] g]|]; [|done]. destruct Hv as [Hlt _].
  run_ok. apply lookup_lt_is_Some in Hlt as [[i c] Hi]. rewrite Hi.
  assert (i ∈ rs) as Hir.
  { rewrite <-Hics. apply list_elem_of_fmap. exists (i, c). split; [done|]. by eapply list_elem_of_lookup_2. }
  rewrite Forall_forall in Hin. specialize (Hin i Hir). rewrite <-entries_length in Hin.
  apply lookup_lt_is_Some in Hin as [e He].
  set (s0 := mkStore (s_sets s) (write_back ics rs' (s_cells s)) g).
  assert (entries s0 = entries s) as E0 by apply write_back_entries.
  destruct (invalidate_spec s0 i e) as (s' & -> & Hs & He'); [by rewrite E0|].
  run_ok. exists i, s', e. split_and!; try done. by rewrite He', E0.
Qed.

(** *** A miss, a victim, an insertion

    [e1] is what the client wrote into the victim before it inserted it. *)

Lemma holds_insert es key i j e :
  (i < length es)%nat →
  holds (<[i := e]> es) key j
  = if decide (i = j) then e_match (ip_extractTag ip) key e else holds es key j.
Proof.
  intros Hi. unfold holds. destruct (decide (i = j)) as [<-|Hne].
  - by rewrite list_lookup_insert_eq.
  - by rewrite list_lookup_insert_ne.
Qed.

(** Replacing an entry that a lookup did not find by one that does not match leaves
    the lookup as it is. *)
Lemma first_hold_replace es key v e rs :
  (v < length es)%nat → (v ∈ rs → e_match (ip_extractTag ip) key e = false) →
  first_hold es key rs ≠ Some v →
  first_hold (<[v := e]> es) key rs = first_hold es key rs.
Proof.
  intros Hv. induction rs as [|i rs IH]; simpl; [done|]. intros Hm Hne.
  rewrite holds_insert by done. destruct (decide (v = i)) as [->|Hvi].
  - rewrite Hm by left. destruct (holds es key i) eqn:Eh; [done|].
    apply IH; [|done]. intros ?. apply Hm. by right.
  - destruct (holds es key i) eqn:Eh; [done|]. apply IH; [|done]. intros ?. apply Hm. by right.
Qed.

(** Replacing a candidate by an entry that matches, when none did. *)
Lemma first_hold_put es key v e rs :
  (v < length es)%nat → v ∈ rs → first_hold es key rs = None →
  e_match (ip_extractTag ip) key e = true →
  first_hold (<[v := e]> es) key rs = Some v.
Proof.
  intros Hv Hin Hnone He. rewrite first_hold_None in Hnone.
  destruct (first_hold (<[v := e]> es) key rs) as [i|] eqn:Ei.
  - apply first_hold_Some in Ei as [Hi Hh]. rewrite holds_insert in Hh by done.
    destruct (decide (v = i)) as [->|]; [done|]. by rewrite Hnone in Hh.
  - rewrite first_hold_None in Ei. specialize (Ei v Hin). rewrite holds_insert in Ei by done.
    rewrite decide_True in Ei by done. congruence.
Qed.
End TableFacts.

(** *** Building a table

    A row policy looks a key up in one row of [sets], as the set-associative
    policies do. *)

Section Build.
Context {K E G R : Type} `{TableEntry K E} `{RL : ReplLaws G R} (ip : IndexingPolicy K).
Context (n : Z) (Hix : ix_wf (ip_base ip) n) (Has : ix_assoc (ip_base ip) < 2 ^ 32).
Let ix := ip_base ip.
Let A := Z.to_nat (ix_assoc ix).

Definition filled (first idx : nat) (sets : list (list ref)) : Prop :=
  ∀ j, (j < idx)%nat →
    ∃ row, sets !! (j / A)%nat = Some row ∧ row !! (j mod A)%nat = Some (Some (first + j)%nat).

Lemma setEntry_filled first idx sets :
  sets_wf ix sets → filled first idx sets → (idx < Z.to_nat (ix_numSets ix) * A)%nat →
  ∃ sets' pos, setEntry ix sets (first + idx) (Z.of_nat idx) = Ok (sets', pos) ∧
    sets_wf ix sets' ∧ filled first (S idx) sets'.
Proof using Hix Has.
  intros [Hl Hr] Hf Hi. destruct Hix as [Ha Hn Hs _ _ _]. fold ix in Ha, Hs, Has.
  assert (Z.of_nat A = ix_assoc ix) as EA by lia. assert (A ≠ 0)%nat as HA by lia.
  assert (idx / A < Z.to_nat (ix_numSets ix))%nat as Hd by (apply Nat.Div0.div_lt_upper_bound; lia).
  pose proof (Nat.mod_upper_bound idx A HA) as Hm.
  pose proof (Z.pow_lt_mono_r 2 n 32). unfold setEntry.
  rewrite <-EA, <-Nat2Z.inj_div, <-Nat2Z.inj_mod. rewrite !wrap_id by in_word.
  unfold assert_that. rewrite (proj2 (Z.ltb_lt _ _)) by lia. run_ok.
  eexists _, _. split; [done|]. rewrite !Nat2Z.id.
  destruct (lookup_lt_is_Some_2 sets (idx / A)) as [row Hrow]; [lia|].
  assert (length row = A) as Hlr by (by eapply Forall_lookup_1 in Hr).
  split; [split|].
  - by rewrite length_alter.
  - apply Forall_alter; [done|]. intros row' _ ?. by rewrite length_insert.
  - intros j Hj. destruct (decide (j = idx)) as [->|Hne].
    + rewrite list_lookup_alter_eq, Hrow. eexists. split; [done|].
      apply list_lookup_insert_eq. lia.
    + destruct (Hf j) as (row' & Hrow' & Hj'); [lia|].
      destruct (decide (idx / A = j / A)%nat) as [Ed|Ed].
      * rewrite <-Ed in *. rewrite list_lookup_alter_eq, Hrow'. eexists. split; [done|].
        rewrite list_lookup_insert_ne; [done|].
        intros Em. apply Hne. rewrite (Nat.div_mod j A), (Nat.div_mod idx A) by done. congruence.
      * rewrite list_lookup_alter_ne by done. eauto.
Qed.

Lemma init_entries_spec init_val first k idx (s : Store G E R) :
  (∀ g, is_ok (rp_instantiate (R := R) g)) →
  sets_wf ix (s_sets s) → filled first idx (s_sets s) →
  length (s_cells s) = (first + idx)%nat → (idx + k ≤ Z.to_nat (ix_numSets ix) * A)%nat →
  ∃ s', init_entries ip init_val k (Z.of_nat idx) s = Ok s' ∧ sets_wf ix (s_sets s') ∧
    filled first (idx + k) (s_sets s') ∧ entries s' = entries s ++ replicate k init_val.
Proof using Hix Has.
  intros Hinst. revert idx s. induction k as [|k IH]; intros idx s Hw Hf Hl Hk; simpl.
  { exists s. rewrite Nat.add_0_r, app_nil_r. done. }
  destruct (setEntry_filled first idx (s_sets s)) as (sets' & [st wy] & E1 & Hw' & Hf'); [done|done|lia|].
  fold ix. rewrite Hl, E1. run_ok. destruct (Hinst (s_pol s)) as [[r g] ->].
  run_ok. replace (Z.of_nat idx + 1) with (Z.of_nat (S idx)) by lia.
  destruct (IH (S idx) (mkStore sets' (s_cells s ++ [mkCell init_val r st wy]) g))
    as (s' & -> & Hw'' & Hf'' & He); [done|done| |lia|].
  { simpl. rewrite length_app. simpl. lia. }
  exists s'. split_and!; [done|done| |].
  - by replace (idx + S k)%nat with (S idx + k)%nat by lia.
  - rewrite He. unfold entries. simpl. by rewrite fmap_app, <-app_assoc.
Qed.

Context (f : K → Z) (Hrow : ∀ sets key, ip_possible ip sets key = sets_at sets (f key)).

(** A table with as many entries as its policy has places is completely filled:
    every key has a full set of distinct candidates, all of them copies of the
    initial entry.  If the store already had cells, the policy now refers to the
    new ones only. *)
Lemma assoc_new_spec (init_val : E) (s : Store G E R) :
  (∀ g, is_ok (rp_instantiate (R := R) g)) → sets_wf ix (s_sets s) →
  ∃ a s', assoc_new ip (ix_numSets ix * ix_assoc ix) (ix_assoc ix) init_val s = Ok (a, s') ∧
    sets_wf ix (s_sets s') ∧
    entries s' = entries s ++ replicate (Z.to_nat (ix_numSets ix) * A) init_val ∧
    ∀ key, 0 ≤ f key < ix_numSets ix →
      cand ip s' key (seq (length (s_cells s) + Z.to_nat (f key) * A) A).
Proof using Hix Has Hrow.
  intros Hinst Hw. unfold assoc_new, fatal_if.
  pose proof (ixw_assoc _ _ Hix) as Ha. pose proof (ixw_sets _ _ Hix) as Hs. fold ix in Ha, Hs, Has.
  assert (0 < ix_numSets ix) as Hns by (rewrite Hs; apply Z.pow_pos_nonneg; destruct Hix; lia).
  rewrite Z.mod_mul, Z.eqb_refl by lia. cbn [negb mbind outcome_bind].
  destruct (init_entries_spec init_val (length (s_cells s)) (Z.to_nat (ix_numSets ix) * A) 0 s)
    as (s' & E1 & Hw' & Hf & He); [done|done|by intros j ?; lia|lia|lia|].
  replace (Z.to_nat (ix_numSets ix * ix_assoc ix)) with (Z.to_nat (ix_numSets ix) * A)%nat by lia.
  change (Z.of_nat 0) with 0 in E1. rewrite E1. run_ok. eexists _, s'. split_and!; try done.
  intros key Hkey. set (i := Z.to_nat (f key)). assert (i < Z.to_nat (ix_numSets ix))%nat by lia.
  assert (A ≠ 0)%nat by lia.
  destruct (lookup_lt_is_Some_2 (s_sets s') i) as [row Hr]; [by destruct Hw' as [-> _]|].
  assert (length row = A) as Hlr by (by eapply Forall_lookup_1 in Hr; [|apply Hw']).
  split.
  - unfold possible. rewrite Hrow. unfold sets_at. fold i. rewrite Hr. simpl.
    apply list_eq. intros w. rewrite list_lookup_fmap. destruct (decide (w < A)%nat) as [Hw1|Hw1].
    + destruct (Hf (i * A + w)%nat) as (row' & Hr' & Hj); [simpl; nia|].
      rewrite Nat.div_add_l, Nat.div_small, Nat.add_0_r in Hr' by lia.
      rewrite Nat.add_comm, Nat.Div0.mod_add, Nat.mod_small in Hj by lia.
      rewrite Hr in Hr'. injection Hr' as <-. rewrite Hj, lookup_seq_lt by done. simpl. f_equal. f_equal. lia.
    + rewrite (lookup_ge_None_2 row) by lia. by rewrite lookup_seq_ge by lia.
  - rewrite <-length_zero_iff_nil, length_seq. done.
  - apply NoDup_seq.
  - apply Forall_seq. intros j Hj. rewrite <-entries_length, He, length_app, length_replicate, entries_length. nia.
  - rewrite length_seq. lia.
Qed.
End Build.

(** ** Theorems *)

(** Tables work as maps under replacement.  After a lookup that misses, the
    victim is one of the key's candidates and fresh; once inserted for the key,
    possibly with other data written to it first, the key is found at the
    victim, every key found elsewhere is still found where it was, and no other
    key is found that was not.  This holds for every replacement policy that obeys
    its laws and every indexing policy. *)
Theorem insert_then_find {K E G R T : Type} `{TEL : TableEntryLaws K E T} `{RL : ReplLaws G R}
    (ip : IndexingPolicy K) (curTick : Z) (s : Store G E R) (key : K) (rs : list nat) :
  cand ip s key rs → findEntry ip s key = Ok None →
  ∃ v s1 e0, findVictim ip s key = Ok (v, s1) ∧ v ∈ rs ∧ entries s1 !! v = Some e0 ∧
    e_fresh (K := K) e0 ∧
    ∀ e1, e_fresh (K := K) e1 →
      ∃ s2, insertEntry ip curTick (put_entry s1 v e1) key v = Ok s2 ∧
        findEntry ip s2 key = Ok (Some v) ∧
        ∀ key' rs' o, cand ip s key' rs' →
          (v ∈ rs' → e_key (E := E) (ip_extractTag ip) key' ≠ e_key (E := E) (ip_extractTag ip) key) →
          findEntry ip s key' = Ok o → o ≠ Some v → findEntry ip s2 key' = Ok o.
Proof.
  intros Hc Hmiss. destruct (findVictim_spec ip s key rs Hc) as (v & s1 & e & E1 & Hv & He & Hs1 & He1).
  assert (v < length (entries s))%nat as Hlt by by eapply lookup_lt_Some.
  exists v, s1, (e_invalidate (K := K) e). split_and!; [done|done| |apply law_e_invalidate|].
  { rewrite He1. by apply list_lookup_insert_eq. }
  intros e1 Hf. destruct (law_insert (ip_extractTag ip) key e1 Hf) as (e2 & E2 & Ht2).
  assert (entries (put_entry s1 v e1) = <[v := e1]> (entries s)) as Ep.
  { by rewrite put_entry_spec, He1, list_insert_insert_eq. }
  destruct (insertEntry_spec ip curTick (put_entry s1 v e1) key v e1 e2) as (s2 & E3 & Hs2 & He2);
    [by rewrite Ep; apply list_lookup_insert_eq|done|].
  rewrite Ep, list_insert_insert_eq in He2. simpl in Hs2. rewrite Hs1 in Hs2.
  assert (length (s_cells s2) = length (s_cells s)) as Hl2.
  { by rewrite <-!entries_length, He2, length_insert. }
  exists s2. split; [done|]. split.
  - rewrite (findEntry_eq ip s _ rs Hc) in Hmiss. injection Hmiss as Hmiss.
    rewrite (findEntry_eq ip s2 _ rs) by (by eapply cand_mono). f_equal. rewrite He2.
    apply first_hold_put; [done..|]. by apply law_match.
  - intros key' rs' o Hc' Hne Ho Hov. rewrite (findEntry_eq ip s _ rs' Hc') in Ho. injection Ho as <-.
    rewrite (findEntry_eq ip s2 _ rs') by (by eapply cand_mono). f_equal.
    assert (v ∈ rs' → e_match (ip_extractTag ip) key' e2 = false) as Hm2.
    { intros Hin. destruct (e_match _ key' e2) eqn:Em; [|done]. apply law_match in Em.
      rewrite Em in Ht2. injection Ht2 as Ht2. by destruct (Hne Hin). }
    rewrite He2. by apply first_hold_replace.
Qed.

(** Two sets of two ways, indexed by address, least recently used first. *)
Definition ex_ix : Indexing := mkIndexing 2 2 0 1 1.
Definition ex_ip : IndexingPolicy TaggedKey := TaggedSetAssociative ex_ix.
Definition ex_store : Store unit TaggedEntry LRUReplData :=
  mkStore [[Some 0%nat; Some 1%nat]; [Some 2%nat; Some 3%nat]]
    [mkCell (mkTagEntry true false 3) (mkLRU 7) 0 0; mkCell (mkTagEntry true false 2) (mkLRU 5) 0 1;
     mkCell te_new (mkLRU 0) 1 0; mkCell te_new (mkLRU 0) 1 1] tt.

Lemma ex_cand0 a : ip_possible ex_ip (s_sets ex_store) (mkKey a false) = [Some 0%nat; Some 1%nat] →
  cand ex_ip ex_store (mkKey a false) [0%nat; 1%nat].
Proof.
  intros Ha. split; [exact Ha|done| |repeat constructor|done].
  apply (NoDup_seq 0 2).
Qed.

Lemma insert_then_find_witness :
  ∃ v s1 e0 s2, findVictim ex_ip ex_store (mkKey 8 false) = Ok (v, s1) ∧ entries s1 !! v = Some e0 ∧
    insertEntry ex_ip 9 (put_entry s1 v te_new) (mkKey 8 false) v = Ok s2 ∧
    findEntry ex_ip s2 (mkKey 8 false) = Ok (Some v) ∧
    findEntry ex_ip s2 (mkKey 6 false) = Ok (Some 0%nat).
Proof.
  destruct (insert_then_find ex_ip 9 ex_store (mkKey 8 false) [0%nat; 1%nat])
    as (v & s1 & e0 & E1 & _ & He & _ & Hins);
    [by apply ex_cand0|reflexivity|].
  destruct (Hins te_new) as (s2 & E2 & Hf & Hk); [by split|].
  exists v, s1, e0, s2. split; [exact E1|]. split; [exact He|]. split; [exact E2|]. split; [exact Hf|].
  vm_compute in E1. injection E1 as <- <-.
  apply (Hk (mkKey 6 false) [0%nat; 1%nat]); [by apply ex_cand0|done|reflexivity|done].
Defined.
