(* ===== verification/MemCmd.v ===== *)
(** * Memory commands and packets (src/src/mem/packet.{hh,cc})

    The commands with their attributes and responses, as the table of [packet.cc] lists
    them, and the part of a packet that caches read and write. *)

From Stdlib Require Import ZArith Lia.
From stdpp Require Import base numbers option list strings.
From S2P Require Import Prelude PrefetchBase.
#[local] Open Scope Z_scope.

(** [MemCmd::Command] *)
Inductive Command :=
| InvalidCmd | ReadReq | ReadResp | ReadRespWithInvalidate | WriteReq | WriteResp
| WriteCompleteResp | WritebackDirty | WritebackClean | WriteClean | CleanEvict | SoftPFReq
| SoftPFExReq | HardPFReq | SoftPFResp | HardPFResp | WriteLineReq | UpgradeReq | SCUpgradeReq
| UpgradeResp | SCUpgradeFailReq | UpgradeFailResp | ReadExReq | ReadExResp | ReadCleanReq
| ReadSharedReq | LoadLockedReq | StoreCondReq | StoreCondFailReq | StoreCondResp | LockedRMWReadReq
| LockedRMWReadResp | LockedRMWWriteReq | LockedRMWWriteResp | SwapReq | SwapResp | MemFenceReq
| MemSyncReq | MemSyncResp | MemFenceResp | CleanSharedReq | CleanSharedResp | CleanInvalidReq
| CleanInvalidResp | InvalidDestError | BadAddressError | ReadError | WriteError
| FunctionalReadError | FunctionalWriteError | PrintReq | FlushReq | InvalidateReq | InvalidateResp
| HTMReq | HTMReqResp | HTMAbort | TlbiExtSync.

#[export] Instance Command_eq_dec : EqDecision Command.
Proof. solve_decision. Defined.

(** [MemCmd::Attribute] *)
Inductive Attribute :=
| IsRead | IsWrite | IsUpgrade | IsInvalidate | IsClean | NeedsWritable | IsRequest | IsResponse
| NeedsResponse | IsEviction | IsSWPrefetch | IsHWPrefetch | IsLlsc | IsLockedRMW | HasData | IsError
| IsPrint | IsFlush | FromCache.

#[export] Instance Attribute_eq_dec : EqDecision Attribute.
Proof. solve_decision. Defined.

(** [commandInfo]: the attributes and the response of a command. *)
Definition commandInfo (c : Command) : list Attribute * Command :=
  match c with
  | InvalidCmd => ([], InvalidCmd)
  | ReadReq => ([IsRead; IsRequest; NeedsResponse], ReadResp)
  | ReadResp => ([IsRead; IsResponse; HasData], InvalidCmd)
  | ReadRespWithInvalidate => ([IsRead; IsResponse; HasData; IsInvalidate], InvalidCmd)
  | WriteReq => ([IsWrite; NeedsWritable; IsRequest; NeedsResponse; HasData], WriteResp)
  | WriteResp => ([IsWrite; IsResponse], InvalidCmd)
  | WriteCompleteResp => ([IsWrite; IsResponse], InvalidCmd)
  | WritebackDirty => ([IsWrite; IsRequest; IsEviction; HasData; FromCache], InvalidCmd)
  | WritebackClean => ([IsWrite; IsRequest; IsEviction; HasData; FromCache], InvalidCmd)
  | WriteClean => ([IsWrite; IsRequest; HasData; FromCache], InvalidCmd)
  | CleanEvict => ([IsRequest; IsEviction; FromCache], InvalidCmd)
  | SoftPFReq => ([IsRead; IsRequest; IsSWPrefetch; NeedsResponse], SoftPFResp)
  | SoftPFExReq => ([IsRead; NeedsWritable; IsInvalidate; IsRequest; IsSWPrefetch; NeedsResponse], SoftPFResp)
  | HardPFReq => ([IsRead; IsRequest; IsHWPrefetch; NeedsResponse; FromCache], HardPFResp)
  | SoftPFResp => ([IsRead; IsResponse; IsSWPrefetch; HasData], InvalidCmd)
  | HardPFResp => ([IsRead; IsResponse; IsHWPrefetch; HasData], InvalidCmd)
  | WriteLineReq => ([IsWrite; NeedsWritable; IsRequest; NeedsResponse; HasData], WriteResp)
  | UpgradeReq => ([IsInvalidate; NeedsWritable; IsUpgrade; IsRequest; NeedsResponse; FromCache], UpgradeResp)
  | SCUpgradeReq => ([IsInvalidate; NeedsWritable; IsUpgrade; IsLlsc; IsRequest; NeedsResponse; FromCache], UpgradeResp)
  | UpgradeResp => ([IsUpgrade; IsResponse], InvalidCmd)
  | SCUpgradeFailReq => ([IsRead; NeedsWritable; IsInvalidate; IsLlsc; IsRequest; NeedsResponse; FromCache], UpgradeFailResp)
  | UpgradeFailResp => ([IsRead; IsResponse; HasData], InvalidCmd)
  | ReadExReq => ([IsRead; NeedsWritable; IsInvalidate; IsRequest; NeedsResponse; FromCache], ReadExResp)
  | ReadExResp => ([IsRead; IsResponse; HasData], InvalidCmd)
  | ReadCleanReq => ([IsRead; IsRequest; NeedsResponse; FromCache], ReadResp)
  | ReadSharedReq => ([IsRead; IsRequest; NeedsResponse; FromCache], ReadResp)
  | LoadLockedReq => ([IsRead; IsLlsc; IsRequest; NeedsResponse], ReadResp)
  | StoreCondReq => ([IsWrite; NeedsWritable; IsLlsc; IsRequest; NeedsResponse; HasData], StoreCondResp)
  | StoreCondFailReq => ([IsWrite; NeedsWritable; IsLlsc; IsRequest; NeedsResponse; HasData], StoreCondResp)
  | StoreCondResp => ([IsWrite; IsLlsc; IsResponse], InvalidCmd)
  | LockedRMWReadReq => ([IsRead; IsLockedRMW; NeedsWritable; IsRequest; NeedsResponse], LockedRMWReadResp)
  | LockedRMWReadResp => ([IsRead; IsLockedRMW; NeedsWritable; IsResponse; HasData], InvalidCmd)
  | LockedRMWWriteReq => ([IsWrite; IsLockedRMW; NeedsWritable; IsRequest; NeedsResponse; HasData], LockedRMWWriteResp)
  | LockedRMWWriteResp => ([IsWrite; IsLockedRMW; NeedsWritable; IsResponse], InvalidCmd)
  | SwapReq => ([IsRead; IsWrite; NeedsWritable; IsRequest; HasData; NeedsResponse], SwapResp)
  | SwapResp => ([IsRead; IsWrite; IsResponse; HasData], InvalidCmd)
  | MemFenceReq => ([IsRequest; NeedsResponse], MemFenceResp)
  | MemSyncReq => ([IsRequest; NeedsResponse], MemSyncResp)
  | MemSyncResp => ([IsResponse], InvalidCmd)
  | MemFenceResp => ([IsResponse], InvalidCmd)
  | CleanSharedReq => ([IsRequest; IsClean; NeedsResponse; FromCache], CleanSharedResp)
  | CleanSharedResp => ([IsResponse; IsClean], InvalidCmd)
  | CleanInvalidReq => ([IsRequest; IsInvalidate; IsClean; NeedsResponse; FromCache], CleanInvalidResp)
  | CleanInvalidResp => ([IsResponse; IsInvalidate; IsClean], InvalidCmd)
  | InvalidDestError => ([IsResponse; IsError], InvalidCmd)
  | BadAddressError => ([IsResponse; IsError], InvalidCmd)
  | ReadError => ([IsRead; IsResponse; IsError], InvalidCmd)
  | WriteError => ([IsWrite; IsResponse; IsError], InvalidCmd)
  | FunctionalReadError => ([IsRead; IsResponse; IsError], InvalidCmd)
  | FunctionalWriteError => ([IsWrite; IsResponse; IsError], InvalidCmd)
  | PrintReq => ([IsRequest; IsPrint], InvalidCmd)
  | FlushReq => ([IsRequest; IsFlush; NeedsWritable], InvalidCmd)
  | InvalidateReq => ([IsInvalidate; IsRequest; NeedsWritable; NeedsResponse; FromCache], InvalidateResp)
  | InvalidateResp => ([IsInvalidate; IsResponse], InvalidCmd)
  | HTMReq => ([IsRead; IsRequest; NeedsResponse], HTMReqResp)
  | HTMReqResp => ([IsRead; IsResponse], InvalidCmd)
  | HTMAbort => ([IsRead; IsRequest], InvalidCmd)
  | TlbiExtSync => ([IsRequest], InvalidCmd)
  end.

(** [testCmdAttrib] *)
Definition has (a : Attribute) (c : Command) : bool := bool_decide (a ∈ (commandInfo c).1).
Definition responseCommand (c : Command) : Command := (commandInfo c).2.

Definition cmd_isWriteback (c : Command) : bool := has IsEviction c && has HasData c.
Definition cmd_isPrefetch (c : Command) : bool := has IsSWPrefetch c || has IsHWPrefetch c.
Definition cmd_isDemand (c : Command) : bool :=
  bool_decide (c ∈ [ReadReq; WriteReq; WriteLineReq; ReadExReq; ReadCleanReq; ReadSharedReq]).

(** ** Requests and packets *)

(** The flags of a request that the caches test (src/src/mem/request.hh). *)
Definition UNCACHEABLE : Z := 0x400.
Definition STRICT_ORDER : Z := 0x800.
Definition PRIVILEGED : Z := 0x8000.
Definition LOCKED_RMW : Z := 0x100000.
Definition LLSC : Z := 0x200000.
Definition MEM_SWAP : Z := 0x400000.
Definition MEM_SWAP_COND : Z := 0x800000.
Definition SECURE : Z := 0x10000000.
Definition INVALIDATE : Z := 0x100000000.
Definition CLEAN : Z := 0x200000000.

(** [Flags::isSet]: any of the bits. *)
Definition flag_set (bits flags : Z) : bool := negb (Z.land flags bits =? 0).

(** The flags of a packet. *)
Definition HAS_SHARERS : Z := 0x1.
Definition EXPRESS_SNOOP : Z := 0x2.
Definition RESPONDER_HAD_WRITABLE : Z := 0x4.
Definition CACHE_RESPONDING : Z := 0x8.
Definition SATISFIED : Z := 0x20.
Definition STATIC_DATA : Z := 0x1000.
Definition DYNAMIC_DATA : Z := 0x2000.

(** A packet; its sender states are seen through the topmost one that is an MSHR
    ([findNextSenderState<MSHR>]), and [mp_id] is the identity of the object. *)
Record MemPacket := mkMemPkt {
  mp_cmd : Command;
  mp_addr : Z;
  mp_secure : bool;
  mp_size : Z;
  mp_flags : Z;
  mp_reqFlags : Z;
  mp_masked : bool;
  mp_requestorId : Z;
  mp_sender : option nat;
  mp_id : nat
}.

Definition set_cmd (c : Command) (p : MemPacket) : MemPacket :=
  mkMemPkt c (mp_addr p) (mp_secure p) (mp_size p) (mp_flags p) (mp_reqFlags p) (mp_masked p) (mp_requestorId p) (mp_sender p) (mp_id p).
Definition set_flags (f : Z) (p : MemPacket) : MemPacket :=
  mkMemPkt (mp_cmd p) (mp_addr p) (mp_secure p) (mp_size p) f (mp_reqFlags p) (mp_masked p) (mp_requestorId p) (mp_sender p) (mp_id p).

(** [needsWritable] must not be asked of a response. *)
Definition pkt_needsWritable (p : MemPacket) : outcome bool :=
  _ ← assert_that (has IsRequest (mp_cmd p)) "isRequest()";
  Ok (has NeedsWritable (mp_cmd p)).

Definition pkt_hasRespData (p : MemPacket) : bool := has HasData (responseCommand (mp_cmd p)).
Definition pkt_isMaskedWrite (p : MemPacket) : bool := bool_decide (mp_cmd p = WriteReq) && mp_masked p.
Definition pkt_getOffset (blk_size : Z) (p : MemPacket) : Z := Z.land (mp_addr p) (u64 (u32 (blk_size - 1))).
Definition pkt_getBlockAddr (blk_size : Z) (p : MemPacket) : Z := Z.ldiff (mp_addr p) (u64 (u32 (blk_size - 1))).

Definition pkt_isWholeLineWrite (blk_size : Z) (p : MemPacket) : bool :=
  bool_decide (mp_cmd p = WriteReq ∨ mp_cmd p = WriteLineReq) && (pkt_getOffset blk_size p =? 0) &&
  (mp_size p =? blk_size) && negb (pkt_isMaskedWrite p).

Definition pkt_matchBlockAddr (addr : Z) (secure : bool) (blk_size : Z) (p : MemPacket) : bool :=
  (pkt_getBlockAddr blk_size p =? addr) && eqb (mp_secure p) secure.

Definition isCacheMaintenance_req (p : MemPacket) : bool := flag_set (Z.lor CLEAN INVALIDATE) (mp_reqFlags p).
Definition isCacheInvalidate_req (p : MemPacket) : bool := flag_set INVALIDATE (mp_reqFlags p).
Definition isUncacheable_req (p : MemPacket) : bool := flag_set UNCACHEABLE (mp_reqFlags p).

Definition setCacheResponding (p : MemPacket) : outcome MemPacket :=
  _ ← assert_that (has IsRequest (mp_cmd p)) "isRequest()";
  _ ← assert_that (negb (flag_set CACHE_RESPONDING (mp_flags p))) "!flags.isSet(CACHE_RESPONDING)";
  Ok (set_flags (Z.lor (mp_flags p) CACHE_RESPONDING) p).

Definition setHasSharers (p : MemPacket) : MemPacket := set_flags (Z.lor (mp_flags p) HAS_SHARERS) p.

Definition setResponderHadWritable (p : MemPacket) : outcome MemPacket :=
  _ ← assert_that (flag_set CACHE_RESPONDING (mp_flags p)) "cacheResponding()";
  _ ← assert_that (negb (flag_set RESPONDER_HAD_WRITABLE (mp_flags p))) "!responderHadWritable()";
  Ok (set_flags (Z.lor (mp_flags p) RESPONDER_HAD_WRITABLE) p).

Definition setSatisfied (p : MemPacket) : outcome MemPacket :=
  _ ← assert_that (has IsClean (mp_cmd p)) "cmd.isClean()";
  _ ← assert_that (negb (flag_set SATISFIED (mp_flags p))) "!flags.isSet(SATISFIED)";
  Ok (set_flags (Z.lor (mp_flags p) SATISFIED) p).

(** [allocate]: space for the payload of the command or of its response. *)
Definition pkt_allocate (p : MemPacket) : outcome MemPacket :=
  if has HasData (mp_cmd p) || pkt_hasRespData p then
    _ ← assert_that (negb (flag_set (Z.lor STATIC_DATA DYNAMIC_DATA) (mp_flags p))) "flags.noneSet(STATIC_DATA|DYNAMIC_DATA)";
    Ok (set_flags (Z.lor (mp_flags p) DYNAMIC_DATA) p)
  else Ok p.

Definition makeResponse (p : MemPacket) : outcome MemPacket :=
  _ ← assert_that (has NeedsResponse (mp_cmd p)) "needsResponse()";
  _ ← assert_that (has IsRequest (mp_cmd p)) "isRequest()";
  Ok (set_flags (Z.ldiff (mp_flags p) EXPRESS_SNOOP) (set_cmd (responseCommand (mp_cmd p)) p)).

(** [copyResponderFlags] *)
Definition RESPONDER_FLAGS : Z := 0x9.
Definition copyResponderFlags (from p : MemPacket) : outcome MemPacket :=
  _ ← assert_that (has IsRequest (mp_cmd p)) "isRequest()";
  _ ← assert_that (negb (flag_set CACHE_RESPONDING (mp_flags from)) || negb (flag_set CACHE_RESPONDING (mp_flags p)))
        "!pkt->cacheResponding() || !cacheResponding()";
  Ok (set_flags (Z.lor (mp_flags p) (Z.land (mp_flags from) RESPONDER_FLAGS)) p).

(** ** Properties of the table *)

(** The command table is consistent.  No command is both a request and a response; a
    command has a response exactly when it needs one, the response is a response that
    needs none, an eviction, a response or an error never expects an answer, and an upgrade
    asks for a writable copy and invalidates the others. *)
Theorem commands_consistent (c : Command) :
  (has IsRequest c && has IsResponse c = false) ∧
  (has NeedsResponse c = true ↔ responseCommand c ≠ InvalidCmd) ∧
  (has NeedsResponse c = true → has IsRequest c = true ∧ has IsResponse (responseCommand c) = true ∧
     has NeedsResponse (responseCommand c) = false ∧ responseCommand (responseCommand c) = InvalidCmd) ∧
  (has IsEviction c || has IsResponse c || has IsError c = true → has NeedsResponse c = false) ∧
  (has IsUpgrade c && has IsRequest c = true → has NeedsWritable c && has IsInvalidate c = true).
Proof. by destruct c. Qed.
