(* ===== verification/Mshr.v ===== *)
(** * Miss status holding registers (src/src/mem/cache/mshr.{hh,cc}, queue_entry.hh)

    An MSHR collects the requests for one block while the block is on its way: the
    targets that the outstanding response will serve, and the deferred targets that need
    another one.  MSHRs of upstream caches are told, through the packets they sent, whether
    their request is still buffered on its way down ([downstreamPending]); they are the heap
    the operations work on. *)

From Stdlib Require Import ZArith Lia.
From stdpp Require Import base numbers option list strings gmap.
From S2P Require Import Prelude PrefetchBase MemCmd.
#[local] Open Scope Z_scope.

(** ** Targets *)

(** [Target::Source] *)
Inductive Source := FromCPU | FromSnoop | FromPrefetcher.

#[export] Instance Source_eq_dec : EqDecision Source.
Proof. solve_decision. Defined.

Record Target := mkTarget {
  recvTime : Z;
  tgt_readyTime : Z;
  tgt_order : Z;
  tgt_pkt : MemPacket;
  tgt_source : Source;
  markedPending : bool;
  tgt_allocOnFill : bool
}.

Record TargetList := mkTargetList {
  tl_targets : list Target;
  tl_needsWritable : bool;
  hasUpgrade : bool;
  allocOnFill : bool;
  hasFromCache : bool;
  tl_blkAddr : Z;
  tl_blkSize : Z;
  canMergeWrites : bool;
  writesBitmap : list bool
}.

Definition tl_new : TargetList := mkTargetList [] false false false false 0 0 true [].

Definition resetFlags (tl : TargetList) : TargetList :=
  mkTargetList (tl_targets tl) false false false false (tl_blkAddr tl) (tl_blkSize tl) true
    (replicate (length (writesBitmap tl)) false).

(** [init]: [resize] keeps what there was, and the reset clears it. *)
Definition tl_init (blk_addr blk_size : Z) (tl : TargetList) : TargetList :=
  resetFlags (mkTargetList (tl_targets tl) (tl_needsWritable tl) (hasUpgrade tl) (allocOnFill tl) (hasFromCache tl)
    blk_addr blk_size (canMergeWrites tl) (replicate (Z.to_nat blk_size) false)).

Definition isReset (tl : TargetList) : bool :=
  negb (tl_needsWritable tl) && negb (hasUpgrade tl) && negb (allocOnFill tl) && negb (hasFromCache tl) && canMergeWrites tl.

Definition isWholeLineWrite (tl : TargetList) : bool := forallb (λ b, b) (writesBitmap tl).

Definition with_targets (ts : list Target) (tl : TargetList) : TargetList :=
  mkTargetList ts (tl_needsWritable tl) (hasUpgrade tl) (allocOnFill tl) (hasFromCache tl)
    (tl_blkAddr tl) (tl_blkSize tl) (canMergeWrites tl) (writesBitmap tl).

Definition with_merge (merge : bool) (bitmap : list bool) (tl : TargetList) : TargetList :=
  mkTargetList (tl_targets tl) (tl_needsWritable tl) (hasUpgrade tl) (allocOnFill tl) (hasFromCache tl)
    (tl_blkAddr tl) (tl_blkSize tl) merge bitmap.

Definition no_merge_flags : Z :=
  Z.lor UNCACHEABLE (Z.lor STRICT_ORDER (Z.lor PRIVILEGED (Z.lor LLSC (Z.lor MEM_SWAP (Z.lor MEM_SWAP_COND (Z.lor SECURE LOCKED_RMW)))))).

(** [std::fill] of a part of the bitmap. *)
Definition fill_range (offset size : Z) (bs : list bool) : outcome (list bool) :=
  if offset + size <=? Z.of_nat (length bs) then
    Ok (take (Z.to_nat offset) bs ++ replicate (Z.to_nat size) true ++ drop (Z.to_nat (offset + size)) bs)
  else Stop (Panic "write beyond the block").

Definition updateWriteFlags (pkt : MemPacket) (tl : TargetList) : outcome TargetList :=
  if isWholeLineWrite tl then Ok tl
  else if canMergeWrites tl then
    if negb (has IsWrite (mp_cmd pkt)) then Ok (with_merge false (writesBitmap tl) tl)
    else
      let compat_write := negb (flag_set no_merge_flags (mp_reqFlags pkt)) in
      let masked_write := pkt_isMaskedWrite pkt in
      let first_write := bool_decide (tl_targets tl = []) in
      bitmap ← (if negb masked_write && (first_write || compat_write)
                then fill_range (pkt_getOffset (tl_blkSize tl) pkt) (mp_size pkt) (writesBitmap tl)
                else Ok (writesBitmap tl));
      Ok (with_merge compat_write bitmap tl)
  else Ok tl.

Definition updateFlags (pkt : MemPacket) (source : Source) (alloc_on_fill : bool) (tl : TargetList) : outcome TargetList :=
  if bool_decide (source = FromSnoop) then Ok tl
  else
    nw ← pkt_needsWritable pkt;
    let tl := mkTargetList (tl_targets tl) (if nw : bool then true else tl_needsWritable tl)
                (if has IsUpgrade (mp_cmd pkt) || bool_decide (mp_cmd pkt = StoreCondReq) then true else hasUpgrade tl)
                (allocOnFill tl || alloc_on_fill) (hasFromCache tl) (tl_blkAddr tl) (tl_blkSize tl)
                (canMergeWrites tl) (writesBitmap tl) in
    if bool_decide (source = FromPrefetcher) then Ok tl
    else
      updateWriteFlags pkt
        (mkTargetList (tl_targets tl) (tl_needsWritable tl) (hasUpgrade tl) (allocOnFill tl)
           (hasFromCache tl || has FromCache (mp_cmd pkt)) (tl_blkAddr tl) (tl_blkSize tl)
           (canMergeWrites tl) (writesBitmap tl)).

(** The loop of [populateFlags]: the list is already complete while it runs. *)
Fixpoint update_all (ts : list Target) (tl : TargetList) : outcome TargetList :=
  match ts with
  | [] => Ok tl
  | t :: ts => tl ← updateFlags (tgt_pkt t) (tgt_source t) (tgt_allocOnFill t) tl; update_all ts tl
  end.

Definition populateFlags (tl : TargetList) : outcome TargetList := update_all (tl_targets tl) (resetFlags tl).

(** [replaceUpgrade]: an upgrade that lost its copy asks for the data too. *)
Definition upgraded (c : Command) : Command :=
  match c with
  | UpgradeReq => ReadExReq
  | SCUpgradeReq => SCUpgradeFailReq
  | StoreCondReq => StoreCondFailReq
  | c => c
  end.

Definition replaceUpgrade (pkt : MemPacket) : outcome MemPacket :=
  let has_data := has HasData (mp_cmd pkt) || pkt_hasRespData pkt in
  let pkt := set_cmd (upgraded (mp_cmd pkt)) pkt in
  if has_data then Ok pkt
  else
    _ ← assert_that (negb (has HasData (mp_cmd pkt))) "!pkt->hasData()";
    if pkt_hasRespData pkt then pkt_allocate pkt else Ok pkt.

Definition set_pkt (p : MemPacket) (t : Target) : Target :=
  mkTarget (recvTime t) (tgt_readyTime t) (tgt_order t) p (tgt_source t) (markedPending t) (tgt_allocOnFill t).
Definition set_marked (b : bool) (t : Target) : Target :=
  mkTarget (recvTime t) (tgt_readyTime t) (tgt_order t) (tgt_pkt t) (tgt_source t) b (tgt_allocOnFill t).

Fixpoint replace_all (ts : list Target) : outcome (list Target) :=
  match ts with
  | [] => Ok []
  | t :: ts => p ← replaceUpgrade (tgt_pkt t); ts ← replace_all ts; Ok (set_pkt p t :: ts)
  end.

Definition replaceUpgrades (tl : TargetList) : outcome TargetList :=
  if negb (hasUpgrade tl) then Ok tl
  else
    ts ← replace_all (tl_targets tl);
    Ok (mkTargetList ts (tl_needsWritable tl) false (allocOnFill tl) (hasFromCache tl)
          (tl_blkAddr tl) (tl_blkSize tl) (canMergeWrites tl) (writesBitmap tl)).

(** ** The register *)

Record MSHR := mkMSHR {
  readyTime : Z;
  m_isUncacheable : bool;
  inService : bool;
  m_order : Z;
  m_blkAddr : Z;
  m_blkSize : Z;
  m_isSecure : bool;
  downstreamPending : bool;
  pendingModified : bool;
  postInvalidate : bool;
  postDowngrade : bool;
  wasWholeLineWrite : bool;
  isForward : bool;
  targets : TargetList;
  deferredTargets : TargetList
}.

Definition mshr_new : MSHR :=
  mkMSHR 0 false false 0 0 0 false false false false false false false tl_new tl_new.

Definition getNumTargets (m : MSHR) : nat := length (tl_targets (targets m)) + length (tl_targets (deferredTargets m)).
Definition hasTargets (m : MSHR) : bool := bool_decide (tl_targets (targets m) ≠ []).

Definition with_lists (ts ds : TargetList) (m : MSHR) : MSHR :=
  mkMSHR (readyTime m) (m_isUncacheable m) (inService m) (m_order m) (m_blkAddr m) (m_blkSize m) (m_isSecure m)
    (downstreamPending m) (pendingModified m) (postInvalidate m) (postDowngrade m) (wasWholeLineWrite m) (isForward m) ts ds.
Definition with_pending (b : bool) (m : MSHR) : MSHR :=
  mkMSHR (readyTime m) (m_isUncacheable m) (inService m) (m_order m) (m_blkAddr m) (m_blkSize m) (m_isSecure m)
    b (pendingModified m) (postInvalidate m) (postDowngrade m) (wasWholeLineWrite m) (isForward m) (targets m) (deferredTargets m).
Definition with_inService (b : bool) (m : MSHR) : MSHR :=
  mkMSHR (readyTime m) (m_isUncacheable m) b (m_order m) (m_blkAddr m) (m_blkSize m) (m_isSecure m)
    (downstreamPending m) (pendingModified m) (postInvalidate m) (postDowngrade m) (wasWholeLineWrite m) (isForward m) (targets m) (deferredTargets m).
Definition with_post (inv down : bool) (m : MSHR) : MSHR :=
  mkMSHR (readyTime m) (m_isUncacheable m) (inService m) (m_order m) (m_blkAddr m) (m_blkSize m) (m_isSecure m)
    (downstreamPending m) (pendingModified m) inv down (wasWholeLineWrite m) (isForward m) (targets m) (deferredTargets m).
Definition with_schedule (ready order : Z) (m : MSHR) : MSHR :=
  mkMSHR ready (m_isUncacheable m) (inService m) order (m_blkAddr m) (m_blkSize m) (m_isSecure m)
    (downstreamPending m) (pendingModified m) (postInvalidate m) (postDowngrade m) (wasWholeLineWrite m) (isForward m) (targets m) (deferredTargets m).

(** The accessors that are only meaningful in service. *)
Definition isPendingModified (m : MSHR) : outcome bool := _ ← assert_that (inService m) "inService"; Ok (pendingModified m).
Definition hasPostInvalidate (m : MSHR) : outcome bool := _ ← assert_that (inService m) "inService"; Ok (postInvalidate m).
Definition hasPostDowngrade (m : MSHR) : outcome bool := _ ← assert_that (inService m) "inService"; Ok (postDowngrade m).

(** The first target; [front] of an empty list is undefined. *)
Definition front (tl : TargetList) : outcome Target :=
  match tl_targets tl with t :: _ => Ok t | [] => Stop (Panic "front() of an empty list") end.

Definition isCleaning (m : MSHR) : outcome bool := t ← front (targets m); Ok (has IsClean (mp_cmd (tgt_pkt t))).

(** *** The heap of upstream MSHRs *)

Abbreviation Upstream := (gmap nat MSHR).

Definition mshr_at (w : Upstream) (id : nat) : outcome MSHR :=
  match w !! id with Some m => Ok m | None => Stop (Panic "dangling MSHR") end.

(** The loop of [TargetList::clearDownstreamPending], given what it does to an MSHR. *)
Fixpoint clear_list (clear : Upstream → nat → outcome Upstream) (w : Upstream) (ts : list Target) : outcome (Upstream * list Target) :=
  match ts with
  | [] => Ok (w, [])
  | t :: ts =>
      w ← (if markedPending t then
             match mp_sender (tgt_pkt t) with Some id => clear w id | None => Ok w end
           else Ok w);
      '(w, ts) ← clear_list clear w ts;
      Ok (w, (if markedPending t then set_marked false t else t) :: ts)
  end.

(** [MSHR::clearDownstreamPending] of an upstream MSHR, which goes on upwards. *)
Fixpoint clear_mshr (fuel : nat) (w : Upstream) (id : nat) : outcome Upstream :=
  match fuel with
  | O => Stop (Panic "recursion too deep")
  | S fuel =>
      m ← mshr_at w id;
      _ ← assert_that (downstreamPending m) "downstreamPending";
      '(w, ts) ← clear_list (clear_mshr fuel) (<[id := with_pending false m]> w) (tl_targets (targets m));
      m ← mshr_at w id;
      Ok (<[id := with_lists (with_targets ts (targets m)) (deferredTargets m) m]> w)
  end.

(** The recursion stops at MSHRs that are not pending, so as many levels as there are
    MSHRs are enough. *)
Definition clear_fuel (w : Upstream) : nat := S (size w).

Definition tl_clearDownstreamPending (w : Upstream) (tl : TargetList) : outcome (Upstream * TargetList) :=
  '(w, ts) ← clear_list (clear_mshr (clear_fuel w)) w (tl_targets tl);
  Ok (w, with_targets ts tl).

(** [TargetList::add] *)
Definition tl_add (w : Upstream) (curTick : Z) (pkt : MemPacket) (ready order : Z) (source : Source) (markPending alloc_on_fill : bool)
    (tl : TargetList) : outcome (Upstream * TargetList) :=
  tl ← updateFlags pkt source alloc_on_fill tl;
  '(w, marked) ← (if markPending then
      match mp_sender pkt with
      | Some id =>
          m ← mshr_at w id;
          _ ← assert_that (negb (downstreamPending m)) "!mshr->downstreamPending";
          Ok (<[id := with_pending true m]> w, true)
      | None => Ok (w, false)
      end
    else Ok (w, false));
  Ok (w, with_targets (tl_targets tl ++ [mkTarget curTick ready order pkt source marked alloc_on_fill]) tl).

(** ** Operations *)

Definition mshr_allocate (w : Upstream) (curTick blk_addr blk_size : Z) (target : MemPacket) (when_ready order : Z)
    (alloc_on_fill : bool) (m : MSHR) : outcome (Upstream * MSHR) :=
  let source := if bool_decide (mp_cmd target = HardPFReq) then FromPrefetcher else FromCPU in
  '(w, ts) ← tl_add w curTick target when_ready order source true alloc_on_fill (tl_init blk_addr blk_size (targets m));
  t ← front ts;
  _ ← assert_that (pkt_matchBlockAddr (pkt_getBlockAddr blk_size (tgt_pkt t)) (mp_secure (tgt_pkt t)) blk_size target)
        "target->matchBlockAddr(targets.front().pkt, blkSize)";
  Ok (w, mkMSHR when_ready (isUncacheable_req target) false order blk_addr blk_size (mp_secure target)
           false (pendingModified m) (postInvalidate m) (postDowngrade m) false false
           ts (tl_init blk_addr blk_size (deferredTargets m))).

Definition clearDownstreamPending (w : Upstream) (m : MSHR) : outcome (Upstream * MSHR) :=
  _ ← assert_that (downstreamPending m) "downstreamPending";
  '(w, ts) ← tl_clearDownstreamPending w (targets m);
  Ok (w, with_lists ts (deferredTargets m) (with_pending false m)).

Definition markInService (w : Upstream) (pending_modified_resp : bool) (m : MSHR) : outcome (Upstream * MSHR) :=
  _ ← assert_that (negb (inService m)) "!inService";
  '(w, ts) ← (if negb (downstreamPending m) then tl_clearDownstreamPending w (targets m) else Ok (w, targets m));
  Ok (w, mkMSHR (readyTime m) (m_isUncacheable m) true (m_order m) (m_blkAddr m) (m_blkSize m) (m_isSecure m)
           (downstreamPending m) (tl_needsWritable (targets m) || pending_modified_resp) false false
           (isWholeLineWrite ts) (isForward m) ts (deferredTargets m)).

Definition mshr_deallocate (m : MSHR) : outcome MSHR :=
  _ ← assert_that (bool_decide (tl_targets (targets m) = [])) "targets.empty()";
  _ ← assert_that (isReset (deferredTargets m)) "deferredTargets.isReset()";
  Ok (with_inService false (with_lists (resetFlags (targets m)) (deferredTargets m) m)).

(** Whether a new target has to wait for another response. *)
Definition must_defer (pkt : MemPacket) (m : MSHR) : outcome bool :=
  t ← front (targets m);
  if isCacheMaintenance_req pkt || isCacheMaintenance_req (tgt_pkt t)
     || bool_decide (tl_targets (deferredTargets m) ≠ []) then Ok true
  else if inService m then
    inv ← hasPostInvalidate m;
    if (inv : bool) then Ok true
    else
      nw ← pkt_needsWritable pkt;
      if (nw : bool) then
        pm ← isPendingModified m;
        if negb pm then Ok true
        else down ← hasPostDowngrade m; Ok (down || isForward m)
      else Ok false
  else Ok false.

Definition allocateTarget (w : Upstream) (curTick : Z) (pkt : MemPacket) (whenReady order : Z) (alloc_on_fill : bool) (m : MSHR)
    : outcome (Upstream * MSHR) :=
  _ ← assert_that (negb (bool_decide (mp_cmd pkt = HardPFReq))) "pkt->cmd != MemCmd::HardPFReq";
  defer ← must_defer pkt m;
  if (defer : bool) then
    inv ← (if inService m then hasPostInvalidate m else Ok false);
    pkt ← (if (inv : bool) then replaceUpgrade pkt else Ok pkt);
    '(w, ds) ← tl_add w curTick pkt whenReady order FromCPU true alloc_on_fill (deferredTargets m);
    Ok (w, with_lists (targets m) ds m)
  else
    '(w, ts) ← tl_add w curTick pkt whenReady order FromCPU (negb (inService m)) alloc_on_fill (targets m);
    Ok (w, with_lists ts (deferredTargets m) m).

(** The copy of a snooped packet that a target keeps; [id] is the new object. *)
Definition copy_to_respond (id : nat) (pkt : MemPacket) : outcome MemPacket :=
  let cp := mkMemPkt (mp_cmd pkt) (mp_addr pkt) (mp_secure pkt) (mp_size pkt) 0 (mp_reqFlags pkt) (mp_masked pkt)
              (mp_requestorId pkt) (mp_sender pkt) id in
  if flag_set STATIC_DATA (mp_flags pkt) then Ok (set_flags STATIC_DATA cp) else pkt_allocate cp.
Definition copy_to_forward (id : nat) (blk_size : Z) (pkt : MemPacket) : MemPacket :=
  mkMemPkt (mp_cmd pkt) (Z.ldiff (mp_addr pkt) (u64 (i32 (blk_size - 1)))) (flag_set SECURE (mp_reqFlags pkt)) blk_size 0
    (mp_reqFlags pkt) (mp_masked pkt) (mp_requestorId pkt) None id.

(** Whether the snooped request will be answered by this cache. *)
Definition will_respond (pkt : MemPacket) (m : MSHR) : outcome bool :=
  pm ← isPendingModified m; Ok (pm && has NeedsResponse (mp_cmd pkt) && negb (has IsClean (mp_cmd pkt))).

(** The packet after the cache has committed itself. *)
Definition respond_flags (respond : bool) (m : MSHR) (pkt : MemPacket) : outcome MemPacket :=
  if respond then p ← setCacheResponding pkt; setResponderHadWritable p
  else if pendingModified m && has IsClean (mp_cmd pkt) then setSatisfied pkt else Ok pkt.

(** A snoop that this MSHR's request logically precedes. *)
Definition snoop_after (w : Upstream) (curTick : Z) (id : nat) (pkt : MemPacket) (order : Z) (nw : bool) (m : MSHR)
    : outcome (bool * MemPacket * Upstream * MSHR) :=
  ds ← (if nw || isCacheInvalidate_req pkt then replaceUpgrades (deferredTargets m) else Ok (deferredTargets m));
  let m := with_lists (targets m) ds m in
  t ← front (targets m);
  inv ← hasPostInvalidate m;
  if inv || isCacheInvalidate_req (tgt_pkt t) then Ok (true, pkt, w, m)
  else
    respond ← will_respond pkt m;
    '(pkt, w, m) ← (if pendingModified m || has IsInvalidate (mp_cmd pkt) then
        cp ← (if (respond : bool) then copy_to_respond id pkt else Ok (copy_to_forward id (m_blkSize m) pkt));
        pkt ← respond_flags respond m pkt;
        '(w, ts) ← tl_add w curTick cp curTick order FromSnoop (downstreamPending m && tl_needsWritable (targets m)) false (targets m);
        Ok (pkt, w, with_post (if nw || has IsInvalidate (mp_cmd pkt) then true else postInvalidate m) (postDowngrade m)
                      (with_lists ts (deferredTargets m) m))
      else Ok (pkt, w, m));
    if negb nw && negb (isUncacheable_req pkt)
    then Ok (respond, setHasSharers pkt, w, with_post (postInvalidate m) true m)
    else Ok (respond, pkt, w, m).

(** [handleSnoop]: whether the cache will respond, and the packet afterwards. *)
Definition handleSnoop (w : Upstream) (curTick : Z) (id : nat) (pkt : MemPacket) (order : Z) (m : MSHR)
    : outcome (bool * MemPacket * Upstream * MSHR) :=
  nw ← pkt_needsWritable pkt;
  _ ← panic_if (negb (eqb nw (has IsInvalidate (mp_cmd pkt))) && negb (isCacheMaintenance_req pkt))
        "got snoop where needsWritable does not match isInvalidate";
  if negb (inService m) || (flag_set EXPRESS_SNOOP (mp_flags pkt) && downstreamPending m) then
    if nw || isCacheInvalidate_req pkt then
      ts ← replaceUpgrades (targets m);
      ds ← replaceUpgrades (deferredTargets m);
      Ok (false, pkt, w, with_lists ts ds m)
    else Ok (false, pkt, w, m)
  else snoop_after w curTick id pkt order nw m.

Definition is_lockedRead (t : Target) : bool := bool_decide (mp_cmd (tgt_pkt t) = LockedRMWReadReq).

(** The targets after the first one that an invalidating response serves: the snoops; the
    requests of the CPU stay. *)
Fixpoint split_snoops (ts : list Target) : outcome (list Target * list Target) :=
  match ts with
  | [] => Ok ([], [])
  | t :: ts =>
      if bool_decide (tgt_source t = FromCPU) then
        '(ready, rest) ← split_snoops ts; Ok (ready, t :: rest)
      else
        _ ← assert_that (bool_decide (tgt_source t = FromSnoop)) "it->source == Target::FromSnoop";
        '(ready, rest) ← split_snoops ts; Ok (t :: ready, rest)
  end.

Definition split_invalidated (ts : list Target) : outcome (list Target * list Target) :=
  match ts with
  | [] => Stop (Panic "begin() of an empty list")
  | t :: ts =>
      _ ← assert_that (bool_decide (tgt_source t ≠ FromSnoop)) "it->source == Target::FromCPU || Target::FromPrefetcher";
      if is_lockedRead t then Ok ([t], t :: ts)
      else '(ready, rest) ← split_snoops ts; Ok (t :: ready, rest)
  end.

(** Otherwise everything up to a locked read, which stays in the list. *)
Fixpoint split_served (ts : list Target) : list Target * list Target :=
  match ts with
  | [] => ([], [])
  | t :: ts =>
      if is_lockedRead t then ([t], t :: ts)
      else let '(ready, rest) := split_served ts in (t :: ready, rest)
  end.

(** [extractServiceableTargets], for a response with the command [resp]. *)
Definition extractServiceableTargets (resp : Command) (m : MSHR) : outcome (TargetList * MSHR) :=
  '(ready, rest) ← (if bool_decide (resp = ReadRespWithInvalidate)
                    then split_invalidated (tl_targets (targets m))
                    else Ok (split_served (tl_targets (targets m))));
  ready ← populateFlags (with_targets ready (tl_init (m_blkAddr m) (m_blkSize m) tl_new));
  ts ← populateFlags (with_targets rest (targets m));
  Ok (ready, with_lists ts (deferredTargets m) m).

(** [std::find_if] of a cache maintenance request: what is before it, and the rest. *)
Fixpoint find_maintenance (ds : list Target) : list Target * list Target :=
  match ds with
  | [] => ([], [])
  | d :: ds =>
      if isCacheMaintenance_req (tgt_pkt d) then ([], d :: ds)
      else let '(before, after) := find_maintenance ds in (d :: before, after)
  end.

(** The deferred targets that can be promoted, and the others: those before the first
    cache maintenance request, or that request alone. *)
Definition split_deferred (ts ds : list Target) : list Target * list Target :=
  match find_maintenance ds with
  | ([], d :: after) => match ts with [] => ([d], after) | _ => ([], d :: after) end
  | split => split
  end.

Definition promoteDeferredTargets (curTick : Z) (m : MSHR) : outcome (bool * MSHR) :=
  match tl_targets (targets m), tl_targets (deferredTargets m) with
  | [], [] => Ok (false, m)
  | ts, ds =>
      let '(moved, rest) := split_deferred ts ds in
      ds ← populateFlags (with_targets rest (deferredTargets m));
      ts ← populateFlags (with_targets (ts ++ moved) (targets m));
      t ← front ts;
      Ok (true, with_schedule (Z.max curTick (tgt_readyTime t)) (tgt_order t) (with_lists ts ds m))
  end.

(** The longest prefix whose targets satisfy [pred], which asserts that they come from the
    CPU. *)
Fixpoint prefix_while (pred : Target → outcome bool) (ds : list Target) : outcome (list Target * list Target) :=
  match ds with
  | [] => Ok ([], [])
  | d :: ds =>
      _ ← assert_that (bool_decide (tgt_source d = FromCPU)) "t.source == Target::FromCPU";
      b ← pred d;
      if (b : bool) then '(moved, rest) ← prefix_while pred ds; Ok (d :: moved, rest) else Ok ([], d :: ds)
  end.

Definition promoteIf (w : Upstream) (pred : Target → outcome bool) (m : MSHR) : outcome (Upstream * MSHR) :=
  _ ← assert_that (negb (downstreamPending m)) "!downstreamPending";
  '(moved, rest) ← prefix_while pred (tl_targets (deferredTargets m));
  '(w, moved) ← clear_list (clear_mshr (clear_fuel w)) w moved;
  ds ← populateFlags (with_targets rest (deferredTargets m));
  Ok (w, with_lists (with_targets (tl_targets (targets m) ++ moved) (targets m)) ds m).

Definition promoteReadable (w : Upstream) (m : MSHR) : outcome (Upstream * MSHR) :=
  if bool_decide (tl_targets (deferredTargets m) = []) then Ok (w, m)
  else
    inv ← hasPostInvalidate m;
    if (inv : bool) then Ok (w, m)
    else promoteIf w (λ t, nw ← (if isCacheInvalidate_req (tgt_pkt t) then Ok true else pkt_needsWritable (tgt_pkt t)); Ok (negb nw)) m.

Definition promoteWritable (w : Upstream) (m : MSHR) : outcome (Upstream * MSHR) :=
  match tl_targets (deferredTargets m) with
  | [] => Ok (w, m)
  | d :: _ =>
      if tl_needsWritable (deferredTargets m) then
        inv ← hasPostInvalidate m;
        down ← (if (inv : bool) then Ok true else hasPostDowngrade m);
        if negb down && negb (isCacheInvalidate_req (tgt_pkt d)) then
          _ ← assert_that (negb (tl_needsWritable (targets m))) "!targets.needsWritable";
          let ts := targets m in
          let ts := mkTargetList (tl_targets ts) true (hasUpgrade ts) (allocOnFill ts) (hasFromCache ts)
                      (tl_blkAddr ts) (tl_blkSize ts) (canMergeWrites ts) (writesBitmap ts) in
          promoteIf w (λ t, Ok (negb (isCacheInvalidate_req (tgt_pkt t)))) (with_lists ts (deferredTargets m) m)
        else Ok (w, m)
      else Ok (w, m)
  end.

(** [updateLockedRMWReadTarget]; the new packet is for the same request. *)
Definition updateLockedRMWReadTarget (id : nat) (pkt : MemPacket) (m : MSHR) : outcome MSHR :=
  match tl_targets (targets m) with
  | t :: ts =>
      _ ← assert_that (bool_decide (mp_id (tgt_pkt t) = mp_id pkt)) "targets.front().pkt == pkt";
      let p := mkMemPkt LockedRMWReadReq (mp_addr pkt) (flag_set SECURE (mp_reqFlags pkt)) (mp_size pkt) 0 (mp_reqFlags pkt)
                 (mp_masked pkt) (mp_requestorId pkt) None id in
      Ok (with_lists (with_targets (set_pkt p t :: ts) (targets m)) (deferredTargets m) m)
  | [] => Stop (AssertFail "!targets.empty()")
  end.

Definition hasLockedRMWReadTarget (m : MSHR) : bool :=
  match tl_targets (targets m) with t :: _ => is_lockedRead t | [] => false end.

Definition mshr_delay (curTick delay_ticks : Z) (m : MSHR) : outcome MSHR :=
  _ ← assert_that (readyTime m <=? curTick) "readyTime <= curTick()";
  Ok (with_schedule (u64 (curTick + delay_ticks)) (m_order m) m).

Definition popTarget (m : MSHR) : outcome MSHR :=
  match tl_targets (targets m) with
  | _ :: ts => Ok (with_lists (with_targets ts (targets m)) (deferredTargets m) m)
  | [] => Stop (Panic "pop_front() of an empty list")
  end.

(** [matchBlockAddr] and [conflictAddr] of a register. *)
Definition mshr_matchBlockAddr (addr : Z) (secure : bool) (m : MSHR) : outcome bool :=
  _ ← assert_that (hasTargets m) "hasTargets()";
  Ok ((m_blkAddr m =? addr) && eqb (m_isSecure m) secure).

(** ** The life of a register

    What the cache does with it: [recvTimingReq] adds requests, [sendMSHRQueuePacket]
    marks it in service, snoops arrive, and a response promotes what it can, serves
    targets, and leaves the register pending again or done, unless a locked read waits for
    its write. *)

(** The part of [recvTimingResp] that concerns the register: the targets to serve, in
    order, and whether there are more for another request. *)
Definition mshr_receive (curTick : Z) (resp : Command) (readable writable : bool) (w : Upstream) (m : MSHR)
    : outcome (list Target * option bool * Upstream * MSHR) :=
  let locked := hasLockedRMWReadTarget m in
  '(w, m) ← (if negb locked && readable then promoteReadable w m else Ok (w, m));
  '(w, m) ← (if negb locked && writable then promoteWritable w m else Ok (w, m));
  '(ready, m) ← extractServiceableTargets resp m;
  if hasLockedRMWReadTarget m then Ok (tl_targets ready, None, w, m)
  else '(more, m) ← promoteDeferredTargets curTick m; Ok (tl_targets ready, Some more, w, m).

Inductive MshrOp :=
| MAdd (pkt : MemPacket) (whenReady order : Z) (alloc : bool)
| MSend (pending_modified : bool)
| MSnoop (id : nat) (pkt : MemPacket) (order : Z)
| MResp (resp : Command) (readable writable : bool).

(** The targets an operation serves, in order. *)
Definition mshr_step (curTick : Z) (op : MshrOp) (w : Upstream) (m : MSHR) : outcome (list Target * Upstream * MSHR) :=
  match op with
  | MAdd pkt ready order alloc => '(w, m) ← allocateTarget w curTick pkt ready order alloc m; Ok ([], w, m)
  | MSend pm => '(w, m) ← markInService w pm m; Ok ([], w, m)
  | MSnoop id pkt order => '(_, _, w, m) ← handleSnoop w curTick id pkt order m; Ok ([], w, m)
  | MResp resp readable writable =>
      '(ready, more, w, m) ← mshr_receive curTick resp readable writable w m;
      m ← (match more with
           | None => Ok m
           | Some true => Ok (with_inService false m)
           | Some false => mshr_deallocate m
           end);
      Ok (ready, w, m)
  end.

(** When the cache can do it: the register is in use, it is sent once at a time, and a
    response comes after it was sent. *)
Definition enabled (op : MshrOp) (m : MSHR) : bool :=
  hasTargets m && match op with MSend _ => negb (inService m) | MResp _ _ _ => inService m | _ => true end.

(** A sequence of operations; what is not possible does not happen. *)
Fixpoint mshr_run (ops : list (Z * MshrOp)) (w : Upstream) (m : MSHR) : outcome (list Target * Upstream * MSHR) :=
  match ops with
  | [] => Ok ([], w, m)
  | (curTick, op) :: ops =>
      if enabled op m then
        '(served, w, m) ← mshr_step curTick op w m;
        '(served', w, m) ← mshr_run ops w m;
        Ok (served ++ served', w, m)
      else mshr_run ops w m
  end.
