(* ===== verification/MshrFacts.v ===== *)
(** * Theorems on miss status holding registers

    The flags of the target lists, the invariant of a register in the cache next to the
    processor, and what follows: requests are served in the order they arrived, each
    once.  Then what the code does to cleaning requests and to whole-line writes, and the
    end of the recursion through the upstream caches. *)

From Stdlib Require Import ZArith Lia.
From stdpp Require Import base numbers option list strings gmap.
From S2P Require Import Prelude PrefetchBase MemCmd Mshr.
#[local] Open Scope Z_scope.

Lemma existsb_snoc {A} (p : A → bool) l x : existsb p (l ++ [x]) = existsb p l || p x.
Proof. rewrite existsb_app. f_equal. apply orb_false_r. Qed.

(** ** Flags *)

Section Flags.
Context (bs : Z).

(** A request of the processor: no upgrade, no locked read, no cache maintenance, within
    its block, and not sent by another register. *)
Record pkt_ok (p : MemPacket) : Prop := {
  po_request : has IsRequest (mp_cmd p) = true;
  po_cmd : mp_cmd p ∉ [UpgradeReq; SCUpgradeReq; LockedRMWReadReq];
  po_maint : isCacheMaintenance_req p = false;
  po_sender : mp_sender p = None;
  po_fits : 0 ≤ mp_size p ∧ pkt_getOffset bs p + mp_size p ≤ bs
}.

Definition tgt_ok (t : Target) : Prop :=
  markedPending t = false ∧ is_lockedRead t = false ∧ (tgt_source t ≠ FromSnoop → pkt_ok (tgt_pkt t)).

(** A target that asks for a writable copy. *)
Definition wants (t : Target) : bool := negb (bool_decide (tgt_source t = FromSnoop)) && has NeedsWritable (mp_cmd (tgt_pkt t)).

Record tl_ok (tl : TargetList) : Prop := {
  to_size : tl_blkSize tl = bs;
  to_bitmap : Z.of_nat (length (writesBitmap tl)) = Z.max 0 bs
}.

Lemma getOffset_nonneg n p : 0 ≤ pkt_getOffset n p.
Proof. unfold pkt_getOffset. apply Z.land_nonneg. right. apply wrap_range. lia. Qed.

Lemma maint_inval p : isCacheMaintenance_req p = false → isCacheInvalidate_req p = false.
Proof.
  unfold isCacheMaintenance_req, isCacheInvalidate_req, flag_set. rewrite !negb_false_iff, !Z.eqb_eq, Z.land_lor_distr_r.
  by intros [_ ?]%Z.lor_eq_0_iff.
Qed.

(** [updateWriteFlags] only moves the merge flag and the bitmap. *)
Lemma updateWriteFlags_ok pkt tl :
  0 ≤ mp_size pkt ∧ pkt_getOffset bs pkt + mp_size pkt ≤ bs → tl_ok tl →
  ∃ c bm, updateWriteFlags pkt tl = Ok (with_merge c bm tl) ∧ length bm = length (writesBitmap tl).
Proof.
  intros Hfit [Hs Hb]. unfold updateWriteFlags.
  assert (∃ c bm, Ok tl = Ok (with_merge c bm tl) ∧ length bm = length (writesBitmap tl)) as Hid.
  { exists (canMergeWrites tl), (writesBitmap tl). by destruct tl. }
  destruct (isWholeLineWrite tl); [done|]. destruct (canMergeWrites tl); [|done].
  destruct (has IsWrite (mp_cmd pkt)); cbn [negb]; [|by eexists _, _].
  destruct (negb (pkt_isMaskedWrite pkt) && _); [|run_ok; by eexists _, _].
  unfold fill_range. pose proof (getOffset_nonneg bs pkt). rewrite Hs, (proj2 (Z.leb_le _ _)) by lia. run_ok.
  eexists _, _. split; [done|]. rewrite !length_app, length_take, length_replicate, length_drop.
  lia.
Qed.

Lemma updateFlags_ok t tl :
  tgt_ok t → tl_ok tl →
  ∃ tl', updateFlags (tgt_pkt t) (tgt_source t) (tgt_allocOnFill t) tl = Ok tl' ∧ tl_ok tl' ∧
    tl_targets tl' = tl_targets tl ∧ tl_needsWritable tl' = tl_needsWritable tl || wants t.
Proof.
  intros (_ & _ & Hp) Htl. unfold updateFlags, wants. destruct (bool_decide (tgt_source t = FromSnoop)) eqn:Es.
  { exists tl. rewrite orb_false_r. done. }
  apply bool_decide_eq_false in Es. destruct (Hp Es) as [Hr _ _ _ Hf]. unfold pkt_needsWritable. rewrite Hr.
  cbn [assert_that mbind outcome_bind negb andb].
  assert (∀ b : bool, (if has NeedsWritable (mp_cmd (tgt_pkt t)) then true else b) = b || has NeedsWritable (mp_cmd (tgt_pkt t))) as Eb
    by (intros []; by destruct (has NeedsWritable (mp_cmd (tgt_pkt t)))).
  destruct (bool_decide (tgt_source t = FromPrefetcher)).
  { eexists. split; [done|]. destruct Htl. split; [by split|]. split; [done|]. cbn. apply Eb. }
  set (tl1 := mkTargetList _ _ _ _ _ _ _ _ _). assert (tl_ok tl1) as Htl1 by (destruct Htl; by split).
  destruct (updateWriteFlags_ok (tgt_pkt t) tl1 Hf Htl1) as (c & bm & -> & Hl). exists (with_merge c bm tl1).
  split; [done|]. destruct Htl1 as [? Hb1]. split; [split; [done|by rewrite <-Hb1, <-Hl]|]. split; [done|]. cbn. apply Eb.
Qed.

Lemma update_all_ok ts tl :
  Forall tgt_ok ts → tl_ok tl →
  ∃ tl', update_all ts tl = Ok tl' ∧ tl_ok tl' ∧ tl_targets tl' = tl_targets tl ∧
    tl_needsWritable tl' = tl_needsWritable tl || existsb wants ts.
Proof.
  intros Hts. revert tl. induction Hts as [|t ts Ht _ IH]; intros tl Htl; simpl.
  { exists tl. by rewrite orb_false_r. }
  destruct (updateFlags_ok t tl Ht Htl) as (tl1 & -> & Htl1 & E1 & E2). run_ok.
  destruct (IH tl1 Htl1) as (tl2 & -> & Htl2 & E3 & E4). exists tl2. split_and!; [done|done|congruence|]. by rewrite E4, E2, orb_assoc.
Qed.

Lemma populateFlags_ok tl :
  Forall tgt_ok (tl_targets tl) → tl_ok tl →
  ∃ tl', populateFlags tl = Ok tl' ∧ tl_ok tl' ∧ tl_targets tl' = tl_targets tl ∧
    tl_needsWritable tl' = existsb wants (tl_targets tl) ∧ (tl_targets tl = [] → isReset tl' = true).
Proof.
  intros Hts [Hs Hb]. unfold populateFlags.
  destruct (update_all_ok (tl_targets tl) (resetFlags tl) Hts) as (tl' & E & Htl' & E1 & E2).
  { split; [done|]. cbn. by rewrite length_replicate. }
  exists tl'. rewrite E. split_and!; [done|done|done|done|]. intros En. rewrite En in E. by injection E as <-.
Qed.

(** Adding a target: it goes to the end, and nobody upstream is concerned. *)
Lemma tl_add_ok w tick pkt ready order source mark alloc tl :
  tgt_ok (mkTarget tick ready order pkt source false alloc) → (mark = true → mp_sender pkt = None) → tl_ok tl →
  ∃ tl', tl_add w tick pkt ready order source mark alloc tl = Ok (w, tl') ∧ tl_ok tl' ∧
    tl_targets tl' = tl_targets tl ++ [mkTarget tick ready order pkt source false alloc] ∧
    tl_needsWritable tl' = tl_needsWritable tl || wants (mkTarget tick ready order pkt source false alloc).
Proof.
  intros Ht Hm Htl. destruct (updateFlags_ok _ _ Ht Htl) as (tl1 & E & Htl1 & E1 & E2). cbn [tgt_pkt tgt_source tgt_allocOnFill] in E.
  unfold tl_add. rewrite E. run_ok.
  assert ((if mark then match mp_sender pkt with
      | Some id => m ← mshr_at w id; _ ← assert_that (negb (downstreamPending m)) "!mshr->downstreamPending"; Ok (<[id := with_pending true m]> w, true)
      | None => Ok (w, false) end else Ok (w, false)) = Ok (w, false)) as -> by (destruct mark; [by rewrite Hm|done]).
  run_ok. eexists. split; [done|]. destruct Htl1. split; [by split|]. cbn. by rewrite E1, E2.
Qed.

(** No register upstream is waiting, so there is nothing to clear. *)
Lemma clear_list_none clear w ts : Forall tgt_ok ts → clear_list clear w ts = Ok (w, ts).
Proof. induction 1 as [|t ts (Hm & _ & _) _ IH]; simpl; [done|]. rewrite Hm. run_ok. by rewrite IH. Qed.
End Flags.

(** ** The invariant *)

Definition is_req (t : Target) : bool := negb (bool_decide (tgt_source t = FromSnoop)).

(** The requests among targets, by the identity of their packets. *)
Definition requests (ts : list Target) : list nat := (mp_id ∘ tgt_pkt) <$> filter (λ t, is_req t = true) ts.

Lemma requests_app ts ts' : requests (ts ++ ts') = requests ts ++ requests ts'.
Proof. unfold requests. by rewrite filter_app, fmap_app. Qed.

Lemma requests_snoc ts t : requests (ts ++ [t]) = requests ts ++ (if is_req t then [mp_id (tgt_pkt t)] else []).
Proof. rewrite requests_app. f_equal. unfold requests. rewrite filter_cons. by destruct (is_req t). Qed.

Lemma requests_cons t ts : requests (t :: ts) = (if is_req t then [mp_id (tgt_pkt t)] else []) ++ requests ts.
Proof. unfold requests. rewrite filter_cons. by destruct (is_req t). Qed.

Definition contents (m : MSHR) : list Target := tl_targets (targets m) ++ tl_targets (deferredTargets m).

Section Life.
Context (bs : Z).

Record mshr_wf (m : MSHR) : Prop := {
  mw_size : m_blkSize m = bs;
  mw_bs : 0 ≤ bs;
  mw_tl : tl_ok bs (targets m);
  mw_dl : tl_ok bs (deferredTargets m);
  mw_ts : Forall (tgt_ok bs) (tl_targets (targets m));
  mw_ds : Forall (λ t, tgt_ok bs t ∧ tgt_source t = FromCPU) (tl_targets (deferredTargets m));
  mw_head t : head (tl_targets (targets m)) = Some t → tgt_source t ≠ FromSnoop;
  mw_tail : Forall (λ t, tgt_source t ≠ FromPrefetcher) (tail (tl_targets (targets m)));
  mw_pending : downstreamPending m = false;
  mw_forward : isForward m = false;
  mw_nw : tl_needsWritable (targets m) = existsb wants (tl_targets (targets m));
  mw_nwd : tl_needsWritable (deferredTargets m) = existsb wants (tl_targets (deferredTargets m));
  mw_reset : tl_targets (deferredTargets m) = [] → isReset (deferredTargets m) = true;
  mw_idle : inService m = false → tl_targets (deferredTargets m) = [] ∧ Forall (λ t, tgt_source t ≠ FromSnoop) (tl_targets (targets m));
  mw_clean : inService m = true → pendingModified m = false → existsb wants (tl_targets (targets m)) = false;
  mw_defer : inService m = true → tl_targets (deferredTargets m) ≠ [] → postInvalidate m = false → postDowngrade m = false →
    pendingModified m = false;
  mw_live : tl_targets (targets m) = [] → tl_targets (deferredTargets m) = []
}.

(** Upgrading the commands of targets keeps what the invariant says of them. *)
Lemma replaceUpgrade_ok p : pkt_ok bs p → ∃ p', replaceUpgrade p = Ok p' ∧ pkt_ok bs p' ∧ mp_id p' = mp_id p ∧
  has NeedsWritable (mp_cmd p') = has NeedsWritable (mp_cmd p).
Proof.
  intros [H1 H2 H3 H4 H5].
  assert (has IsRequest (upgraded (mp_cmd p)) = true ∧ (upgraded (mp_cmd p) ∉ [UpgradeReq; SCUpgradeReq; LockedRMWReadReq]) ∧
    has NeedsWritable (upgraded (mp_cmd p)) = has NeedsWritable (mp_cmd p) ∧
    ((has HasData (mp_cmd p) || pkt_hasRespData p) = false → upgraded (mp_cmd p) = mp_cmd p)) as (E1 & E2 & E3 & E4).
  { unfold pkt_hasRespData. destruct (mp_cmd p); try done;
      first [by destruct H2; apply (bool_decide_unpack _) | split_and!; [done|by apply (bool_decide_unpack _)|done|done]]. }
  unfold replaceUpgrade. destruct (has HasData (mp_cmd p) || pkt_hasRespData p) eqn:Ed.
  - eexists. split; [done|]. split; [|done]. by split.
  - rewrite (E4 eq_refl). apply orb_false_iff in Ed as [Ed1 Ed2]. cbn [mp_cmd set_cmd]. rewrite Ed1.
    change (pkt_hasRespData (set_cmd (mp_cmd p) p)) with (pkt_hasRespData p). rewrite Ed2. cbn [negb assert_that mbind outcome_bind].
    eexists. split; [done|]. split; [by split|done].
Qed.

Lemma is_lockedRead_pkt t : pkt_ok bs (tgt_pkt t) → is_lockedRead t = false.
Proof.
  intros [_ H _ _ _]. unfold is_lockedRead. apply bool_decide_eq_false. intros E. apply H. rewrite E. by apply (bool_decide_unpack _).
Qed.

Lemma wf_front m : mshr_wf m → tl_targets (targets m) ≠ [] →
  ∃ t, front (targets m) = Ok t ∧ pkt_ok bs (tgt_pkt t) ∧ tgt_source t ≠ FromSnoop.
Proof.
  intros Hw Hne. unfold front. pose proof (mw_head m Hw) as Hh. pose proof (mw_ts m Hw) as Ht.
  destruct (tl_targets (targets m)) as [|t ts]; [done|]. exists t. specialize (Hh t eq_refl).
  apply Forall_cons in Ht as [(_ & _ & Hp) _]. auto.
Qed.

(** When a new request of the processor has to wait. *)
Definition defers (pkt : MemPacket) (m : MSHR) : bool :=
  bool_decide (tl_targets (deferredTargets m) ≠ []) ||
  (inService m && (postInvalidate m || (has NeedsWritable (mp_cmd pkt) && (negb (pendingModified m) || postDowngrade m)))).

Lemma must_defer_eq pkt m :
  mshr_wf m → tl_targets (targets m) ≠ [] → pkt_ok bs pkt → must_defer pkt m = Ok (defers pkt m).
Proof.
  intros Hw Hne Hp. destruct (wf_front m Hw Hne) as (t & Ef & Ht & _). unfold must_defer, defers. rewrite Ef. run_ok.
  rewrite (po_maint bs pkt Hp), (po_maint bs _ Ht). cbn [orb]. destruct (bool_decide _); [done|]. cbn [orb].
  unfold hasPostInvalidate, isPendingModified, hasPostDowngrade, pkt_needsWritable.
  destruct (inService m); [|done]. cbn [assert_that mbind outcome_bind andb]. destruct (postInvalidate m); [done|].
  rewrite (po_request bs pkt Hp). cbn [assert_that mbind outcome_bind orb]. destruct (has NeedsWritable _); [|done].
  cbn [andb]. destruct (pendingModified m); [|done]. cbn [negb orb mbind outcome_bind]. by rewrite (mw_forward m Hw), orb_false_r.
Qed.

(** A target at the end of the deferred ones. *)
Lemma add_deferred_wf pkt m ds t :
  mshr_wf m → tl_targets (targets m) ≠ [] → defers pkt m = true → tl_ok bs ds → tgt_ok bs t → tgt_source t = FromCPU →
  tl_targets ds = tl_targets (deferredTargets m) ++ [t] →
  tl_needsWritable ds = tl_needsWritable (deferredTargets m) || wants t → mshr_wf (with_lists (targets m) ds m).
Proof.
  intros [A1 A2 A3 A4 A5 A6 A7 A8 A9 A10 A11 A12 A13 A14 A15 A16 A17] Hne Ed Hds Ht Hs E1 E2. split; cbn; try done.
  - rewrite E1. apply Forall_app. split; [done|]. constructor; [done|constructor].
  - by rewrite E2, E1, existsb_snoc, A12.
  - rewrite E1. by destruct (tl_targets (deferredTargets m)).
  - intros Hi. unfold defers in Ed. by rewrite (proj1 (A14 Hi)), Hi in Ed.
  - intros Hi _ Hinv Hd. unfold defers in Ed. rewrite Hi, Hinv, Hd in Ed. cbn in Ed.
    destruct (pendingModified m) eqn:Epm; [|done]. cbn in Ed. rewrite andb_false_r, orb_false_r in Ed.
    apply bool_decide_eq_true in Ed. by apply A16.
Qed.

(** A target at the end of those the next response serves. *)
Lemma add_target_wf m ts t :
  mshr_wf m → tl_targets (targets m) ≠ [] → tl_ok bs ts → tgt_ok bs t → tgt_source t ≠ FromPrefetcher →
  (inService m = true → pendingModified m = false → wants t = false) → (inService m = false → tgt_source t ≠ FromSnoop) →
  tl_targets ts = tl_targets (targets m) ++ [t] → tl_needsWritable ts = tl_needsWritable (targets m) || wants t →
  mshr_wf (with_lists ts (deferredTargets m) m).
Proof.
  intros [A1 A2 A3 A4 A5 A6 A7 A8 A9 A10 A11 A12 A13 A14 A15 A16 A17] Hne Hts Ht Hs Hnw Hsn E1 E2. split; cbn; try done.
  - rewrite E1. apply Forall_app. split; [done|]. constructor; [done|constructor].
  - rewrite E1. by destruct (tl_targets (targets m)).
  - rewrite E1. destruct (tl_targets (targets m)) as [|t0 ts0]; [done|]. cbn in *. apply Forall_app. split; [done|]. by constructor.
  - by rewrite E2, E1, existsb_snoc, A11.
  - intros Hi. destruct (A14 Hi) as [Hd Hf]. split; [done|]. rewrite E1. apply Forall_app. split; [done|]. constructor; [by apply Hsn|constructor].
  - intros Hi Hp. rewrite E1, existsb_snoc, (A15 Hi Hp). by apply Hnw.
  - rewrite E1. by destruct (tl_targets (targets m)).
Qed.

(** A new request goes to the end of what the register holds. *)
Lemma allocateTarget_ok w tick pkt ready order alloc m :
  mshr_wf m → tl_targets (targets m) ≠ [] → pkt_ok bs pkt → mp_cmd pkt ≠ HardPFReq →
  ∃ m', allocateTarget w tick pkt ready order alloc m = Ok (w, m') ∧ mshr_wf m' ∧
    requests (contents m') = requests (contents m) ++ [mp_id pkt].
Proof.
  intros Hw Hne Hp Hpf. unfold allocateTarget. rewrite bool_decide_false by done. cbn [negb assert_that mbind outcome_bind].
  rewrite must_defer_eq by done. run_ok. destruct (defers pkt m) eqn:Ed.
  - assert (∃ pkt', (inv ← (if inService m then hasPostInvalidate m else Ok false); if (inv : bool) then replaceUpgrade pkt else Ok pkt) = Ok pkt' ∧
      pkt_ok bs pkt' ∧ mp_id pkt' = mp_id pkt) as (pkt' & E & Hp' & Eid).
    { destruct (replaceUpgrade_ok pkt Hp) as (p' & E & Hp' & Hid & _). unfold hasPostInvalidate.
      destruct (inService m); cbn [assert_that mbind outcome_bind]; [destruct (postInvalidate m)|]; eauto. }
    apply outcome_bind_ok in E as (inv & Einv & E). rewrite Einv. run_ok. rewrite E. run_ok.
    set (t := mkTarget tick ready order pkt' FromCPU false alloc).
    assert (tgt_ok bs t) as Ht by (split; [done|]; split; [by apply is_lockedRead_pkt|done]).
    destruct (tl_add_ok bs w tick pkt' ready order FromCPU true alloc (deferredTargets m) Ht) as (ds & Ea & Hds & E1 & E2);
      [by intros _; apply (po_sender bs)|by apply mw_dl|].
    rewrite Ea. run_ok. eexists. split; [done|]. split; [by eapply (add_deferred_wf pkt m ds t)|].
    unfold contents. cbn [targets deferredTargets with_lists]. by rewrite E1, app_assoc, requests_snoc, <-Eid.
  - set (t := mkTarget tick ready order pkt FromCPU false alloc).
    assert (tgt_ok bs t) as Ht by (split; [done|]; split; [by apply is_lockedRead_pkt|done]).
    destruct (tl_add_ok bs w tick pkt ready order FromCPU (negb (inService m)) alloc (targets m) Ht) as (ts & Ea & Hts & E1 & E2);
      [by intros _; apply (po_sender bs)|by apply mw_tl|].
    rewrite Ea. run_ok. eexists. split; [done|]. apply orb_false_iff in Ed as [Ed1 Ed2]. apply bool_decide_eq_false in Ed1.
    split; [eapply (add_target_wf m ts t); try done|].
    + intros Hi Hpm. rewrite Hi, Hpm in Ed2. cbn in Ed2. apply orb_false_iff in Ed2 as [_ Ed2]. unfold wants. cbn. by rewrite andb_true_r in Ed2.
    + unfold contents. cbn [targets deferredTargets with_lists]. rewrite E1.
      assert (tl_targets (deferredTargets m) = []) as -> by (destruct (tl_targets (deferredTargets m)); [done|by destruct Ed1]).
      by rewrite !app_nil_r, requests_snoc.
Qed.

(** Sending the request changes no target. *)
Lemma markInService_ok w pm m :
  mshr_wf m → tl_targets (targets m) ≠ [] → inService m = false →
  ∃ m', markInService w pm m = Ok (w, m') ∧ mshr_wf m' ∧ contents m' = contents m ∧ inService m' = true ∧ tl_targets (targets m') ≠ [].
Proof.
  intros Hw Hne Hi. unfold markInService. rewrite Hi, (mw_pending m Hw). cbn [negb assert_that mbind outcome_bind].
  unfold tl_clearDownstreamPending. rewrite (clear_list_none bs) by by apply mw_ts. run_ok. eexists. split; [done|].
  destruct Hw as [A1 A2 A3 A4 A5 A6 A7 A8 A9 A10 A11 A12 A13 A14 A15 A16 A17]. split; [|by unfold contents].
  split; cbn; try done; [by destruct A3| |by rewrite (proj1 (A14 Hi))].
  intros _ [Hp _]%orb_false_iff. by rewrite <-A11.
Qed.

(** Replacing the upgrades of a list of requests. *)
Lemma replace_all_ok ts :
  Forall (tgt_ok bs) ts → Forall (λ t, tgt_source t ≠ FromSnoop) ts →
  ∃ ts', replace_all ts = Ok ts' ∧ Forall (tgt_ok bs) ts' ∧ tgt_source <$> ts' = tgt_source <$> ts ∧
    requests ts' = requests ts ∧ existsb wants ts' = existsb wants ts.
Proof.
  intros Hts. induction Hts as [|t ts (Hm & _ & Hp) _ IH]; intros Hs; simpl; [by exists []|].
  apply Forall_cons in Hs as [Ht Hs]. destruct (replaceUpgrade_ok _ (Hp Ht)) as (p & E & Hpk & Eid & Enw). rewrite E. run_ok.
  destruct (IH Hs) as (ts' & E' & Hf & Esrc & Er & Ew). rewrite E'. run_ok.
  eexists. split; [done|]. split; [constructor; [|done]; split; [done|]; split; [by apply is_lockedRead_pkt|done]|].
  split; [by rewrite !fmap_cons, Esrc|]. split.
  - rewrite !requests_cons, Er. change (is_req (set_pkt p t)) with (is_req t). cbn. by rewrite Eid.
  - simpl. rewrite Ew. f_equal. unfold wants. cbn. by rewrite Enw.
Qed.

Lemma replaceUpgrades_ok tl :
  tl_ok bs tl → Forall (tgt_ok bs) (tl_targets tl) → Forall (λ t, tgt_source t ≠ FromSnoop) (tl_targets tl) →
  ∃ tl', replaceUpgrades tl = Ok tl' ∧ tl_ok bs tl' ∧ Forall (tgt_ok bs) (tl_targets tl') ∧
    tgt_source <$> tl_targets tl' = tgt_source <$> tl_targets tl ∧ requests (tl_targets tl') = requests (tl_targets tl) ∧
    existsb wants (tl_targets tl') = existsb wants (tl_targets tl) ∧ tl_needsWritable tl' = tl_needsWritable tl ∧
    (isReset tl = true → isReset tl' = true).
Proof.
  intros Htl Hts Hs. unfold replaceUpgrades. destruct (hasUpgrade tl) eqn:Eu; cbn [negb]; [|by exists tl].
  destruct (replace_all_ok _ Hts Hs) as (ts' & E & ? & ? & ? & ?). rewrite E. run_ok. destruct Htl.
  eexists. split; [done|]. split; [by split|]. split_and!; try done. unfold isReset. by rewrite Eu, andb_false_r.
Qed.

(** The invariant only looks at the sources of the targets, apart from [tgt_ok]. *)
Lemma relist_wf m ts ds :
  mshr_wf m → tl_ok bs ts → tl_ok bs ds → Forall (tgt_ok bs) (tl_targets ts) → Forall (tgt_ok bs) (tl_targets ds) →
  tgt_source <$> tl_targets ts = tgt_source <$> tl_targets (targets m) →
  tgt_source <$> tl_targets ds = tgt_source <$> tl_targets (deferredTargets m) →
  existsb wants (tl_targets ts) = existsb wants (tl_targets (targets m)) →
  existsb wants (tl_targets ds) = existsb wants (tl_targets (deferredTargets m)) →
  tl_needsWritable ts = tl_needsWritable (targets m) → tl_needsWritable ds = tl_needsWritable (deferredTargets m) →
  (isReset (deferredTargets m) = true → isReset ds = true) → mshr_wf (with_lists ts ds m).
Proof.
  intros [A1 A2 A3 A4 A5 A6 A7 A8 A9 A10 A11 A12 A13 A14 A15 A16 A17] Hts Hds Ht Hd Es Esd Ew Ewd En End Hr.
  assert (∀ P : Source → Prop, Forall (P ∘ tgt_source) (tl_targets (targets m)) → Forall (P ∘ tgt_source) (tl_targets ts)) as Hsrc.
  { intros P. rewrite <-!Forall_fmap. by rewrite Es. }
  assert (tl_targets ds = [] ↔ tl_targets (deferredTargets m) = []) as Hnil.
  { destruct (tl_targets ds), (tl_targets (deferredTargets m)); try done. }
  split; cbn; try done.
  - apply Forall_and. split; [done|]. apply Forall_and in A6 as [_ A6]. change (Forall ((λ s, s = FromCPU) ∘ tgt_source) (tl_targets ds)).
    rewrite <-Forall_fmap, Esd, Forall_fmap. exact A6.
  - intros t Hh. destruct (tl_targets ts) as [|x xs]; [done|]. destruct (tl_targets (targets m)) as [|y ys]; [done|].
    injection Hh as ->. injection Es as Ex _. rewrite Ex. by apply (A7 y).
  - change (Forall ((λ s, s ≠ FromPrefetcher) ∘ tgt_source) (tail (tl_targets ts))). rewrite <-Forall_fmap.
    replace (tgt_source <$> tail (tl_targets ts)) with (tgt_source <$> tail (tl_targets (targets m))); [by rewrite Forall_fmap|].
    destruct (tl_targets ts), (tl_targets (targets m)); try done. by injection Es.
  - by rewrite En, A11.
  - by rewrite End, A12.
  - rewrite Hnil. auto.
  - intros Hi. destruct (A14 Hi) as [H1 H2]. split; [by apply Hnil|]. by apply (Hsrc (λ s, s ≠ FromSnoop)).
  - intros Hi Hp. rewrite Ew. auto.
  - rewrite Hnil. auto.
  - rewrite Hnil. intros Ets. apply A17. rewrite Ets in Es. by destruct (tl_targets (targets m)).
Qed.

(** *** Snoops *)

(** A request snooped from another cache that nobody has answered yet: not a cleaning one,
    nor a cache maintenance request, nor a locked read. *)
Record snoop_ok (p : MemPacket) : Prop := {
  so_request : has IsRequest (mp_cmd p) = true;
  so_inval : has NeedsWritable (mp_cmd p) = has IsInvalidate (mp_cmd p);
  so_maint : isCacheMaintenance_req p = false;
  so_clean : has IsClean (mp_cmd p) = false;
  so_cmd : mp_cmd p ≠ LockedRMWReadReq;
  so_unanswered : flag_set CACHE_RESPONDING (mp_flags p) = false;
  so_nowritable : flag_set RESPONDER_HAD_WRITABLE (mp_flags p) = false
}.

Lemma post_wf inv down m :
  mshr_wf m → (postInvalidate m = true → inv = true) → (postDowngrade m = true → down = true) → mshr_wf (with_post inv down m).
Proof.
  intros [A1 A2 A3 A4 A5 A6 A7 A8 A9 A10 A11 A12 A13 A14 A15 A16 A17] Hi Hd. split; cbn; try done.
  intros Hs Hne -> ->. destruct (postInvalidate m), (postDowngrade m); first [by apply A16|discriminate (Hi eq_refl)|discriminate (Hd eq_refl)].
Qed.

Lemma copy_to_respond_ok id pkt : ∃ cp, copy_to_respond id pkt = Ok cp ∧ mp_cmd cp = mp_cmd pkt.
Proof. unfold copy_to_respond. destruct (flag_set STATIC_DATA _); [by eexists|]. unfold pkt_allocate. destruct (_ || _); by eexists. Qed.

Lemma respond_flags_ok respond m pkt :
  snoop_ok pkt → ∃ p, respond_flags respond m pkt = Ok p ∧ mp_cmd p = mp_cmd pkt.
Proof.
  intros [H1 _ _ H4 _ H6 H7]. unfold respond_flags. rewrite H4, andb_false_r. destruct respond; [|by eexists].
  unfold setCacheResponding. rewrite H1, H6. cbn [negb assert_that mbind outcome_bind]. unfold setResponderHadWritable. cbn [mp_flags set_flags].
  assert (∀ bits, flag_set bits (Z.lor (mp_flags pkt) CACHE_RESPONDING) = flag_set bits (mp_flags pkt) || flag_set bits CACHE_RESPONDING) as E.
  { intros b. unfold flag_set. rewrite Z.land_lor_distr_l. apply eq_true_iff_eq.
    rewrite orb_true_iff, !negb_true_iff, !Z.eqb_neq, Z.lor_eq_0_iff. lia. }
  rewrite !E, H6, H7. by eexists.
Qed.

(** The snoop joins the targets, behind the requests it comes after. *)
Lemma add_snoop_ok w tick cp order m :
  mshr_wf m → tl_targets (targets m) ≠ [] → inService m = true → mp_cmd cp ≠ LockedRMWReadReq →
  ∃ ts, tl_add w tick cp tick order FromSnoop (downstreamPending m && tl_needsWritable (targets m)) false (targets m) = Ok (w, ts) ∧
    mshr_wf (with_lists ts (deferredTargets m) m) ∧ requests (tl_targets ts) = requests (tl_targets (targets m)) ∧ tl_targets ts ≠ [].
Proof.
  intros Hw Hne Hi Hc. set (t := mkTarget tick tick order cp FromSnoop false false).
  assert (tgt_ok bs t) as Ht by (split; [done|]; split; [by apply bool_decide_eq_false|done]).
  destruct (tl_add_ok bs w tick cp tick order FromSnoop false false (targets m) Ht) as (ts & E & Hts & E1 & E2); [done|by apply mw_tl|].
  exists ts. rewrite (mw_pending m Hw). cbn [andb]. rewrite E. split; [done|]. split; [|split].
  - eapply (add_target_wf m ts t); try done. by rewrite Hi.
  - rewrite E1, requests_snoc. cbn. apply app_nil_r.
  - rewrite E1. by destruct (tl_targets (targets m)).
Qed.

Lemma replace_deferred_ok m :
  mshr_wf m → ∃ ds, replaceUpgrades (deferredTargets m) = Ok ds ∧ mshr_wf (with_lists (targets m) ds m) ∧
    requests (tl_targets ds) = requests (tl_targets (deferredTargets m)).
Proof.
  intros Hw. pose proof (mw_ds m Hw) as Hd. apply Forall_and in Hd as [Hd Hs].
  destruct (replaceUpgrades_ok (deferredTargets m)) as (ds & E & ? & ? & ? & ? & ? & ? & ?); [by apply mw_dl|done| |].
  { eapply Forall_impl; [exact Hs|]. simpl. by intros t ->. }
  exists ds. split; [done|]. split; [|done]. by apply relist_wf; try done; [apply mw_tl|apply mw_ts].
Qed.

Lemma snoop_after_ok w tick id pkt order m :
  mshr_wf m → tl_targets (targets m) ≠ [] → inService m = true → snoop_ok pkt →
  ∃ b p m', snoop_after w tick id pkt order (has NeedsWritable (mp_cmd pkt)) m = Ok (b, p, w, m') ∧ mshr_wf m' ∧
    requests (contents m') = requests (contents m).
Proof.
  intros Hw Hne Hi Hp. unfold snoop_after. rewrite (maint_inval pkt) by by apply so_maint. rewrite orb_false_r.
  assert (∃ ds, (if has NeedsWritable (mp_cmd pkt) then replaceUpgrades (deferredTargets m) else Ok (deferredTargets m)) = Ok ds ∧
    mshr_wf (with_lists (targets m) ds m) ∧ requests (tl_targets ds) = requests (tl_targets (deferredTargets m))) as (ds & -> & Hw1 & Er).
  { destruct (has NeedsWritable _); [by apply replace_deferred_ok|]. exists (deferredTargets m). split; [done|]. by destruct m. }
  run_ok. set (m1 := with_lists (targets m) ds m) in *.
  assert (requests (contents m1) = requests (contents m)) as <- by (unfold contents; cbn; by rewrite !requests_app, Er).
  assert (inService m1 = true) as Hi1 by done. assert (tl_targets (targets m1) ≠ []) as Hne1 by done.
  clearbody m1. clear dependent m ds. destruct (wf_front m1 Hw1 Hne1) as (t & -> & Ht & _). run_ok.
  unfold hasPostInvalidate. rewrite Hi1. cbn [assert_that mbind outcome_bind]. rewrite (maint_inval (tgt_pkt t)) by by apply (po_maint bs).
  rewrite orb_false_r. destruct (postInvalidate m1) eqn:Epi; [by eexists _, _, _|].
  unfold will_respond, isPendingModified. rewrite Hi1. cbn [assert_that mbind outcome_bind].
  set (respond := _ && _ && _). clearbody respond. destruct (pendingModified m1 || _).
  - assert (∃ cp, (if respond then copy_to_respond id pkt else Ok (copy_to_forward id (m_blkSize m1) pkt)) = Ok cp ∧ mp_cmd cp = mp_cmd pkt)
      as (cp & -> & Ec) by (destruct respond; [apply copy_to_respond_ok|by eexists]).
    destruct (respond_flags_ok respond m1 pkt Hp) as (p & -> & Ep). run_ok.
    destruct (add_snoop_ok w tick cp order m1) as (ts & -> & Hw2 & Er & _); try done; [rewrite Ec; by apply so_cmd|]. run_ok.
    destruct (_ && _); eexists _, _, _; (split; [done|]); unfold contents; cbn; rewrite !requests_app, Er; (split; [|done]);
      repeat (apply post_wf; [|cbn; rewrite ?Epi; by destruct (_ || _)|done]); done.
  - run_ok. destruct (_ && _); eexists _, _, _; (split; [done|]); (split; [|done]); [by apply post_wf|done].
Qed.

(** A snoop leaves the requests where they are. *)
Lemma handleSnoop_ok w tick id pkt order m :
  mshr_wf m → tl_targets (targets m) ≠ [] → snoop_ok pkt →
  ∃ b p m', handleSnoop w tick id pkt order m = Ok (b, p, w, m') ∧ mshr_wf m' ∧ requests (contents m') = requests (contents m).
Proof.
  intros Hw Hne Hp. unfold handleSnoop, pkt_needsWritable. rewrite (so_request pkt Hp). cbn [assert_that mbind outcome_bind].
  rewrite <-(so_inval pkt Hp), eqb_reflx. cbn [negb andb panic_if mbind outcome_bind].
  rewrite (mw_pending m Hw), andb_false_r, orb_false_r. destruct (inService m) eqn:Hi; cbn [negb]; [by apply snoop_after_ok|].
  destruct (_ || _); [|by eexists _, _, _]. destruct (mw_idle m Hw Hi) as [_ Hs].
  destruct (replaceUpgrades_ok (targets m)) as (ts & E & ? & ? & ? & Er & ? & ? & ?); [by apply mw_tl|by apply mw_ts|done|].
  assert (mshr_wf (with_lists ts (deferredTargets m) m)) as Hw1.
  { pose proof (mw_ds m Hw) as Hd. apply Forall_and in Hd as [Hd _]. apply relist_wf; try done. by apply mw_dl. }
  rewrite E. run_ok. destruct (replace_deferred_ok _ Hw1) as (ds & E' & Hw2 & Er'). cbn [deferredTargets with_lists] in E', Er'.
  rewrite E'. run_ok. eexists _, _, _. split; [done|]. split; [exact Hw2|]. unfold contents. cbn. by rewrite !requests_app, Er, Er'.
Qed.

(** *** Responses *)

(** What is left of the invariant while a response is handled. *)
Record ready_wf (m : MSHR) : Prop := {
  rw_size : m_blkSize m = bs;
  rw_bs : 0 ≤ bs;
  rw_tl : tl_ok bs (targets m);
  rw_dl : tl_ok bs (deferredTargets m);
  rw_ts : Forall (tgt_ok bs) (tl_targets (targets m));
  rw_ds : Forall (λ t, tgt_ok bs t ∧ tgt_source t = FromCPU) (tl_targets (deferredTargets m));
  rw_head t : head (tl_targets (targets m)) = Some t → tgt_source t ≠ FromSnoop;
  rw_tail : Forall (λ t, tgt_source t ≠ FromPrefetcher) (tail (tl_targets (targets m)));
  rw_pending : downstreamPending m = false;
  rw_forward : isForward m = false;
  rw_reset : tl_targets (deferredTargets m) = [] → isReset (deferredTargets m) = true
}.

Lemma wf_ready m : mshr_wf m → ready_wf m.
Proof. intros []. by split. Qed.

Lemma prefix_while_ok pred f ds :
  Forall (λ t, tgt_source t = FromCPU ∧ pred t = Ok (f t)) ds →
  ∃ moved rest, prefix_while pred ds = Ok (moved, rest) ∧ ds = moved ++ rest.
Proof.
  induction 1 as [|d ds [Hs Hf] _ IH]; simpl; [by eexists [], []|]. rewrite bool_decide_true by done. cbn [assert_that mbind outcome_bind].
  rewrite Hf. run_ok. destruct (f d); [|by eexists [], _]. destruct IH as (moved & rest & -> & ->). run_ok. by eexists (_ :: _), _.
Qed.

(** Promotion moves deferred requests behind the targets. *)
Lemma promoteIf_ok w pred f m :
  ready_wf m → tl_targets (targets m) ≠ [] → (∀ t, tgt_ok bs t → tgt_source t = FromCPU → pred t = Ok (f t)) →
  ∃ moved ds, let m' := with_lists (with_targets (tl_targets (targets m) ++ moved) (targets m)) ds m in
    promoteIf w pred m = Ok (w, m') ∧ ready_wf m' ∧ contents m' = contents m ∧
    (tl_targets (deferredTargets m) = [] → tl_targets ds = []).
Proof.
  intros [A1 A2 A3 A4 A5 A6 A7 A8 A9 A10 A11] Hne Hf. unfold promoteIf. rewrite A9. cbn [negb assert_that mbind outcome_bind].
  destruct (prefix_while_ok pred f (tl_targets (deferredTargets m))) as (moved & rest & -> & Ed).
  { eapply Forall_impl; [exact A6|]. intros t [??]. auto. }
  run_ok. rewrite Ed in A6. apply Forall_app in A6 as [Hm Hr]. pose proof Hm as Hm'. apply Forall_and in Hm' as [Hm' Hs].
  rewrite (clear_list_none bs) by done. run_ok. pose proof Hr as Hr'. apply Forall_and in Hr' as [Hr' _].
  destruct (populateFlags_ok bs (with_targets rest (deferredTargets m))) as (ds & -> & Hds & E1 & _ & E3); [done|by destruct A4|].
  run_ok. exists moved, ds. split; [done|]. cbn [tl_targets with_targets] in E1, E3.
  split; [|split; [unfold contents; cbn; by rewrite E1, Ed, app_assoc|rewrite Ed, E1; by intros [_ ->]%app_eq_nil]].
  split; cbn; try done; [by destruct A3|by apply Forall_app|by rewrite E1| | |by rewrite E1].
  - destruct (tl_targets (targets m)); [done|exact A7].
  - destruct (tl_targets (targets m)); [done|]. cbn in *. apply Forall_app. split; [done|]. eapply Forall_impl; [exact Hs|]. simpl. by intros ? ->.
Qed.

(** Nothing that the response could write is deferred while it is pending modified. *)
Definition promotable (m : MSHR) : Prop :=
  tl_targets (deferredTargets m) ≠ [] → postInvalidate m = false → postDowngrade m = false → tl_needsWritable (targets m) = false.

Lemma wf_promotable m : mshr_wf m → inService m = true → promotable m.
Proof. intros Hw Hi Hne H1 H2. rewrite (mw_nw m Hw). apply mw_clean; [done|done|]. by apply mw_defer. Qed.

Lemma promoteReadable_ok w m :
  mshr_wf m → tl_targets (targets m) ≠ [] → inService m = true →
  ∃ m', promoteReadable w m = Ok (w, m') ∧ ready_wf m' ∧ contents m' = contents m ∧ tl_targets (targets m') ≠ [] ∧
    inService m' = true ∧ promotable m'.
Proof.
  intros Hw Hne Hi. pose proof (wf_promotable m Hw Hi) as Hpr. apply wf_ready in Hw as Hr. unfold promoteReadable.
  case_bool_decide; [by exists m|]. unfold hasPostInvalidate. rewrite Hi. cbn [assert_that mbind outcome_bind].
  destruct (postInvalidate m) eqn:Epi; [by exists m|].
  destruct (promoteIf_ok w (λ t, nw ← (if isCacheInvalidate_req (tgt_pkt t) then Ok true else pkt_needsWritable (tgt_pkt t)); Ok (negb nw))
    (λ t, negb (has NeedsWritable (mp_cmd (tgt_pkt t)))) m Hr Hne) as (moved & ds & E & Hr' & Ec & Hd).
  { intros t (_ & _ & Hp) Hs. rewrite Hs in Hp. destruct (Hp ltac:(done)) as [H1 _ H3 _ _]. rewrite maint_inval by done.
    unfold pkt_needsWritable. by rewrite H1. }
  rewrite E. eexists. split; [done|]. split; [done|]. split; [done|]. cbn.
  split; [by destruct (tl_targets (targets m))|]. split; [done|].
  intros _ _ Hdown. by apply Hpr.
Qed.

Lemma promoteWritable_ok w m :
  ready_wf m → tl_targets (targets m) ≠ [] → inService m = true → promotable m →
  ∃ m', promoteWritable w m = Ok (w, m') ∧ ready_wf m' ∧ contents m' = contents m ∧ tl_targets (targets m') ≠ [] ∧ inService m' = true.
Proof.
  intros Hr Hne Hi Hpr. unfold promoteWritable. pose proof (rw_ds m Hr) as Hd. unfold promotable in Hpr.
  destruct (tl_targets (deferredTargets m)) as [|d ds] eqn:Ed; [by exists m|]. destruct (tl_needsWritable (deferredTargets m)); [|by exists m].
  unfold hasPostInvalidate, hasPostDowngrade. rewrite Hi. cbn [assert_that mbind outcome_bind].
  destruct (postInvalidate m); [by exists m|]. cbn [mbind outcome_bind]. destruct (postDowngrade m); [by exists m|].
  apply Forall_cons in Hd as [[(_ & _ & Hp) Hs] _]. rewrite Hs in Hp. rewrite maint_inval by by apply (po_maint bs), Hp. cbn [negb andb].
  rewrite Hpr by done. cbn [negb assert_that mbind outcome_bind].
  set (m1 := with_lists _ _ m). destruct (promoteIf_ok w (λ t, Ok (negb (isCacheInvalidate_req (tgt_pkt t))))
    (λ t, negb (isCacheInvalidate_req (tgt_pkt t))) m1) as (moved & ds' & E & Hr' & Ec & _); [|done|done|].
  { destruct Hr as [A1 A2 A3]. destruct A3. by split. }
  rewrite E. eexists. split; [done|]. split; [done|]. split; [done|]. cbn. split; [|done]. by destruct (tl_targets (targets m)).
Qed.

Lemma split_served_all ts : Forall (tgt_ok bs) ts → split_served ts = (ts, []).
Proof. induction 1 as [|t ts (_ & Hl & _) _ IH]; simpl; [done|]. by rewrite Hl, IH. Qed.

Abbreviation cpu_ok := (λ t, tgt_ok bs t ∧ tgt_source t = FromCPU).

Lemma split_snoops_ok ts :
  Forall (tgt_ok bs) ts → Forall (λ t, tgt_source t ≠ FromPrefetcher) ts →
  ∃ ready rest, split_snoops ts = Ok (ready, rest) ∧ Forall (tgt_ok bs) ready ∧ requests ready = [] ∧
    Forall cpu_ok rest ∧ requests rest = requests ts.
Proof.
  induction 1 as [|t ts Ht _ IH]; intros Hs; simpl; [eexists [], []; split_and!; by try constructor|].
  apply Forall_cons in Hs as [Hp Hs]. destruct (IH Hs) as (ready & rest & E & H1 & H2 & H3 & H4). rewrite E.
  case_bool_decide as Hc.
  - run_ok. exists ready, (t :: rest). rewrite !requests_cons, H4. split_and!; try done. by constructor.
  - assert (tgt_source t = FromSnoop) as Hsn by by destruct (tgt_source t). rewrite bool_decide_true by done. cbn [assert_that mbind outcome_bind].
    exists (t :: ready), rest. rewrite !requests_cons, H2, H4. unfold is_req. rewrite Hsn. split_and!; try done. by constructor.
Qed.

(** What a response serves: the first request at least, in order. *)
Lemma extract_lists_ok resp m :
  ready_wf m → tl_targets (targets m) ≠ [] →
  ∃ ready rest, (if bool_decide (resp = ReadRespWithInvalidate) then split_invalidated (tl_targets (targets m))
                 else Ok (split_served (tl_targets (targets m)))) = Ok (ready, rest) ∧
    Forall (tgt_ok bs) ready ∧ Forall cpu_ok rest ∧ requests ready ++ requests rest = requests (tl_targets (targets m)) ∧ requests ready ≠ [].
Proof.
  intros [A1 A2 A3 A4 A5 A6 A7 A8 _ _ _] Hne. destruct (tl_targets (targets m)) as [|t ts]; [done|]. case_bool_decide as Hresp.
  - simpl. rewrite bool_decide_true by by apply A7. cbn [assert_that mbind outcome_bind]. apply Forall_cons in A5 as [Ht Hts].
    pose proof Ht as (_ & Hl & _). rewrite Hl. destruct (split_snoops_ok ts Hts A8) as (ready & rest & -> & H1 & H2 & H3 & H4). run_ok.
    exists (t :: ready), rest. split; [done|]. split; [by constructor|]. split; [done|].
    rewrite !requests_cons, H2, app_nil_r, H4. split; [done|]. unfold is_req. by rewrite bool_decide_false by by apply A7.
  - rewrite split_served_all by done. exists (t :: ts), []. rewrite app_nil_r, requests_cons. split_and!; try done. unfold is_req. by rewrite bool_decide_false by by apply A7.
Qed.

Lemma extract_ok resp m :
  ready_wf m → tl_targets (targets m) ≠ [] →
  ∃ ready ts, extractServiceableTargets resp m = Ok (ready, with_lists ts (deferredTargets m) m) ∧ tl_ok bs ts ∧
    Forall cpu_ok (tl_targets ts) ∧ requests (tl_targets ready) ++ requests (tl_targets ts) = requests (tl_targets (targets m)) ∧
    requests (tl_targets ready) ≠ [].
Proof.
  intros Hr Hne. unfold extractServiceableTargets. destruct (extract_lists_ok resp m Hr Hne) as (ready & rest & -> & H1 & H2 & H3 & H4). run_ok.
  pose proof H2 as H2'. apply Forall_and in H2' as [H2' _]. destruct Hr as [A1 A2 [] _ _ _ _ _ _ _ _].
  destruct (populateFlags_ok bs (with_targets ready (tl_init (m_blkAddr m) (m_blkSize m) tl_new))) as (rl & -> & _ & E1 & _ & _); [done| |].
  { split; cbn; [done|]. rewrite !length_replicate, A1. lia. }
  run_ok. destruct (populateFlags_ok bs (with_targets rest (targets m))) as (ts & -> & Hts & E2 & _ & _); [done|by split|]. run_ok.
  exists rl, ts. split; [done|]. split; [done|]. cbn in E1, E2. by rewrite E1, E2.
Qed.

(** Without cache maintenance everything deferred is promoted. *)
Lemma split_deferred_all ts ds : Forall cpu_ok ds → split_deferred ts ds = (ds, []).
Proof.
  intros Hds. assert (find_maintenance ds = (ds, [])) as E.
  { induction Hds as [|d ds [(_ & _ & Hp) Hs] _ IH]; simpl; [done|]. rewrite Hs in Hp. by rewrite (po_maint bs) by auto; rewrite IH. }
  unfold split_deferred. rewrite E. by destruct ds.
Qed.

Lemma cpu_sources ts s : Forall cpu_ok ts → s ≠ FromCPU → Forall (λ t, tgt_source t ≠ s) ts.
Proof. intros H Hs. eapply Forall_impl; [exact H|]. simpl. intros t [_ ->]. by intros <-. Qed.

(** The register is done when nothing is left. *)
Lemma done_ok ts m :
  ready_wf m → tl_ok bs ts → tl_targets ts = [] → tl_targets (deferredTargets m) = [] →
  ∃ m', mshr_deallocate (with_lists ts (deferredTargets m) m) = Ok m' ∧ mshr_wf m' ∧ contents m' = [] ∧ inService m' = false.
Proof.
  intros [A1 A2 A3 A4 A5 A6 A7 A8 A9 A10 A11] [Hz Hb] E1 E2. unfold mshr_deallocate. cbn. rewrite E1, (A11 E2).
  cbn [assert_that mbind outcome_bind]. eexists. split; [done|]. split; [|unfold contents; cbn; by rewrite E1, E2].
  split; cbn; rewrite ?E1, ?E2; try done; try (by constructor); [| |by intros _; apply A11].
  - split; [done|]. cbn. by rewrite length_replicate.
  - specialize (A11 E2). unfold isReset in A11. by destruct (tl_needsWritable (deferredTargets m)).
Qed.

(** After a response the register waits to be sent again, or is done. *)
Definition finished (rs : list nat) (more : bool) (m : MSHR) : Prop :=
  inService m = true ∧
  if more then mshr_wf (with_inService false m) ∧ tl_targets (targets m) ≠ [] ∧ requests (contents m) = rs
  else rs = [] ∧ ∃ m', mshr_deallocate m = Ok m' ∧ mshr_wf m' ∧ contents m' = [] ∧ inService m' = false.

Lemma finish_ok tick ts m :
  ready_wf m → tl_ok bs ts → Forall cpu_ok (tl_targets ts) → inService m = true →
  ∃ more m', promoteDeferredTargets tick (with_lists ts (deferredTargets m) m) = Ok (more, m') ∧
    finished (requests (tl_targets ts) ++ requests (tl_targets (deferredTargets m))) more m'.
Proof.
  intros Hr Hts Hcpu Hi. unfold promoteDeferredTargets. cbn [targets deferredTargets with_lists].
  destruct (decide (tl_targets ts = [] ∧ tl_targets (deferredTargets m) = [])) as [[E1 E2]|Hne].
  { rewrite E1, E2. eexists false, _. split; [done|]. split; [done|]. split; [done|]. by apply done_ok. }
  destruct Hr as [A1 A2 A3 A4 A5 A6 A7 A8 A9 A10 A11].
  destruct (populateFlags_ok bs (with_targets [] (deferredTargets m))) as (ds' & Eds & Hds' & D1 & D2 & D3); [constructor|by destruct A4|].
  set (all := tl_targets ts ++ tl_targets (deferredTargets m)).
  assert (Forall cpu_ok all) as Hall by by apply Forall_app. pose proof Hall as Hall'. apply Forall_and in Hall' as [Hok _].
  destruct (populateFlags_ok bs (with_targets all ts)) as (ts' & Ets & Hts' & T1 & T2 & T3); [done|by destruct Hts|].
  cbn [tl_targets with_targets] in D1, D2, D3, T1, T2, T3.
  assert (all ≠ []) as Hnil by (subst all; intros ?%app_eq_nil; by apply Hne).
  assert (∃ t, front ts' = Ok t) as [t Et] by (unfold front; rewrite T1; destruct all; [done|by eexists]).
  eexists true, _. split.
  { transitivity (let '(moved, rest) := split_deferred (tl_targets ts) (tl_targets (deferredTargets m)) in
      ds ← populateFlags (with_targets rest (deferredTargets m)); ts ← populateFlags (with_targets (tl_targets ts ++ moved) ts); t ← front ts;
      Ok (true, with_schedule (Z.max tick (tgt_readyTime t)) (tgt_order t) (with_lists ts ds m)));
      [by destruct (tl_targets ts), (tl_targets (deferredTargets m)); try by destruct Hne|].
    rewrite split_deferred_all by done. rewrite Eds. run_ok. fold all. rewrite Ets. run_ok. rewrite Et. done. }
  split; [done|]. split; [|unfold contents; cbn; rewrite T1, D1, app_nil_r; subst all; by rewrite requests_app].
  split; cbn; rewrite ?T1, ?T2, ?D1, ?D2; try done; try (by constructor); auto.
  - intros t' Ht'. apply head_Some in Ht' as (l & El). rewrite El in Hall. apply Forall_cons in Hall as [[_ ->] _]. done.
  - destruct all; [constructor|]. apply Forall_cons in Hall as [_ Hall]. by apply cpu_sources.
  - intros _. split; [done|]. by apply cpu_sources.
Qed.

Lemma not_locked m : Forall (tgt_ok bs) (tl_targets (targets m)) → hasLockedRMWReadTarget m = false.
Proof. unfold hasLockedRMWReadTarget. by destruct 1 as [|t ts (_ & ? & _) _]. Qed.

(** A response serves requests in the order the register holds them, at least one. *)
Lemma receive_ok tick resp readable writable w m :
  mshr_wf m → tl_targets (targets m) ≠ [] → inService m = true →
  ∃ served more rs m', mshr_receive tick resp readable writable w m = Ok (served, Some more, w, m') ∧
    finished rs more m' ∧ requests served ++ rs = requests (contents m) ∧ requests served ≠ [].
Proof.
  intros Hw Hne Hi. unfold mshr_receive. rewrite not_locked by by apply mw_ts. cbn [negb andb].
  assert (∃ m1, (if readable then promoteReadable w m else Ok (w, m)) = Ok (w, m1) ∧ ready_wf m1 ∧ contents m1 = contents m ∧
    tl_targets (targets m1) ≠ [] ∧ inService m1 = true ∧ promotable m1) as (m1 & -> & Hr1 & <- & Hne1 & Hi1 & Hp1).
  { destruct readable; [by apply promoteReadable_ok|]. exists m. split_and!; [done|by apply wf_ready|done|done|done|by apply wf_promotable]. }
  run_ok.
  assert (∃ m2, (if writable then promoteWritable w m1 else Ok (w, m1)) = Ok (w, m2) ∧ ready_wf m2 ∧ contents m2 = contents m1 ∧
    tl_targets (targets m2) ≠ [] ∧ inService m2 = true) as (m2 & -> & Hr2 & <- & Hne2 & Hi2).
  { destruct writable; [by apply promoteWritable_ok|by exists m1]. }
  run_ok. destruct (extract_ok resp m2 Hr2 Hne2) as (ready & ts & -> & Hts & Hcpu & Er & Hserved). run_ok.
  rewrite not_locked by by apply Forall_and in Hcpu as [? _].
  destruct (finish_ok tick ts m2 Hr2 Hts Hcpu Hi2) as (more & m' & -> & Hfin). run_ok.
  eexists _, _, _, _. split; [done|]. split; [exact Hfin|]. split; [|done]. by rewrite app_assoc, Er, <-requests_app.
Qed.

Lemma response_ok tick resp readable writable w m :
  mshr_wf m → tl_targets (targets m) ≠ [] → inService m = true →
  ∃ served m', mshr_step tick (MResp resp readable writable) w m = Ok (served, w, m') ∧ mshr_wf m' ∧
    requests served ++ requests (contents m') = requests (contents m) ∧ requests served ≠ [] ∧ inService m' = false.
Proof.
  intros Hw Hne Hi. cbn [mshr_step].
  destruct (receive_ok tick resp readable writable w m Hw Hne Hi) as (served & more & rs & m1 & -> & [_ Hfin] & Er & Hs). run_ok.
  destruct more.
  - destruct Hfin as (Hw1 & _ & <-). by eexists _, _.
  - destruct Hfin as (-> & m' & -> & Hw' & Hc & Hi'). run_ok. eexists _, _. split; [done|]. by rewrite Hc, <-Er.
Qed.

(** *** Histories *)

(** The operations the rest of the cache may ask for. *)
Definition op_ok (op : MshrOp) : Prop :=
  match op with
  | MAdd pkt _ _ _ => pkt_ok bs pkt ∧ mp_cmd pkt ≠ HardPFReq
  | MSnoop _ pkt _ => snoop_ok pkt
  | _ => True
  end.

(** The request an operation brings, if it happens. *)
Definition arrival (op : MshrOp) : list nat := match op with MAdd pkt _ _ _ => [mp_id pkt] | _ => [] end.

Lemma step_ok tick op w m :
  mshr_wf m → op_ok op → enabled op m = true →
  ∃ served m', mshr_step tick op w m = Ok (served, w, m') ∧ mshr_wf m' ∧
    requests served ++ requests (contents m') = requests (contents m) ++ arrival op.
Proof.
  intros Hw Hop [Hne Hen]%andb_prop. unfold hasTargets in Hne. apply bool_decide_eq_true in Hne. destruct op as [pkt ready order alloc|pm|id pkt order|resp r wr].
  - destruct Hop as [Hp Hc]. destruct (allocateTarget_ok w tick pkt ready order alloc m Hw Hne Hp Hc) as (m' & E & Hw' & Er).
    simpl. rewrite E. run_ok. by eexists [], _.
  - apply negb_true_iff in Hen. destruct (markInService_ok w pm m Hw Hne Hen) as (m' & E & Hw' & Ec & _). simpl. rewrite E. run_ok.
    eexists [], _. split; [done|]. split; [done|]. by rewrite Ec, app_nil_r.
  - destruct (handleSnoop_ok w tick id pkt order m Hw Hne Hop) as (b & p & m' & E & Hw' & Er). simpl. rewrite E. run_ok.
    eexists [], _. split; [done|]. split; [done|]. by rewrite Er, app_nil_r.
  - destruct (response_ok tick resp r wr w m Hw Hne Hen) as (served & m' & E & Hw' & Er & _). exists served, m'. by rewrite app_nil_r.
Qed.

(** The requests of the operations that happen, while the register is in use. *)
Fixpoint accepted (ops : list (Z * MshrOp)) (w : Upstream) (m : MSHR) : list nat :=
  match ops with
  | [] => []
  | (tick, op) :: ops =>
      if enabled op m then
        match mshr_step tick op w m with Ok (_, w, m) => arrival op ++ accepted ops w m | Stop _ => [] end
      else accepted ops w m
  end.

Lemma dead_run ops w m : hasTargets m = false → mshr_run ops w m = Ok ([], w, m).
Proof. intros Hd. induction ops as [|[tick op] ops IH]; simpl; [done|]. unfold enabled. by rewrite Hd. Qed.

Lemma run_in_order ops w m :
  mshr_wf m → Forall (λ op, op_ok op.2) ops →
  ∃ served m', mshr_run ops w m = Ok (served, w, m') ∧ mshr_wf m' ∧
    requests served ++ requests (contents m') = requests (contents m) ++ accepted ops w m.
Proof.
  intros Hw Hops. revert m Hw. induction Hops as [|[tick op] ops Hop _ IH]; intros m Hw; [exists [], m; by rewrite app_nil_r|].
  cbn [mshr_run accepted]. destruct (enabled op m) eqn:Een; [|by apply IH].
  destruct (step_ok tick op w m Hw Hop Een) as (s1 & m1 & E1 & Hw1 & Er1). rewrite E1. run_ok.
  destruct (IH m1 Hw1) as (s2 & m2 & E2 & Hw2 & Er2). rewrite E2. run_ok.
  exists (s1 ++ s2), m2. split; [done|]. split; [done|]. by rewrite requests_app, <-app_assoc, Er2, !app_assoc, Er1.
Qed.

(** A fresh register, or one that is done, takes a request of the processor or a prefetch. *)
Lemma mshr_allocate_ok w tick blk_addr target ready order alloc m :
  0 ≤ bs → contents m = [] → pkt_ok bs target →
  ∃ m', mshr_allocate w tick blk_addr bs target ready order alloc m = Ok (w, m') ∧ mshr_wf m' ∧
    requests (contents m') = [mp_id target] ∧ hasTargets m' = true.
Proof.
  intros Hbs Hc Hp. apply app_eq_nil in Hc as [Et Ed]. unfold mshr_allocate.
  set (src := if bool_decide _ then _ else _). assert (src ≠ FromSnoop) as Hsrc by (subst src; by destruct (bool_decide _)). clearbody src.
  set (t := mkTarget tick ready order target src false alloc).
  assert (tgt_ok bs t) as Ht by (split; [done|]; split; [by apply is_lockedRead_pkt|done]).
  destruct (tl_add_ok bs w tick target ready order src true alloc (tl_init blk_addr bs (targets m)) Ht) as (ts & E & Hts & E1 & E2).
  { intros _. by apply (po_sender bs). }
  { split; cbn; [done|]. rewrite !length_replicate. lia. }
  rewrite E. run_ok. cbn [tl_targets tl_init resetFlags] in E1. rewrite Et in E1. cbn in E1. unfold front. rewrite E1. cbn [mbind outcome_bind tgt_pkt].
  unfold pkt_matchBlockAddr. rewrite Z.eqb_refl, eqb_reflx. cbn [andb assert_that mbind outcome_bind]. eexists. split; [done|].
  split; [|unfold contents, hasTargets; cbn; rewrite Ed, E1, app_nil_r; split; [|done]; rewrite requests_cons; unfold is_req; cbn; by rewrite bool_decide_false].
  split; cbn; rewrite ?E1, ?Ed; try done; try (by constructor).
  - split; cbn; [done|]. rewrite !length_replicate. lia.
  - by intros ? [= <-].
  - rewrite E2. cbn. by rewrite orb_false_r.
  - intros _. split; [done|]. by constructor.
Qed.

(** One more time sent and answered: at least one request less, or none left. *)
Lemma round_ok tick pm tick' resp readable writable ops w m :
  mshr_wf m → inService m = false → hasTargets m = true →
  ∃ served m', mshr_wf m' ∧ inService m' = false ∧ (length (requests (contents m')) < length (requests (contents m)))%nat ∧
    mshr_run ((tick, MSend pm) :: (tick', MResp resp readable writable) :: ops) w m =
    ('(s, w, m) ← mshr_run ops w m'; Ok (served ++ s, w, m)).
Proof.
  intros Hw Hi Ht. pose proof Ht as Hne. apply bool_decide_eq_true in Hne.
  destruct (markInService_ok w pm m Hw Hne Hi) as (m1 & E1 & Hw1 & Ec & Hi1 & Hne1).
  destruct (response_ok tick' resp readable writable w m1 Hw1 Hne1 Hi1) as (served & m2 & E2 & Hw2 & Er & Hs & Hi2).
  exists served, m2. split; [done|]. split; [done|]. split.
  { rewrite <-Ec, <-Er, length_app. destruct (requests served); [done|]. simpl. lia. }
  assert (enabled (MSend pm) m = true) as En1 by (unfold enabled; by rewrite Ht, Hi).
  assert (enabled (MResp resp readable writable) m1 = true) as En2 by (unfold enabled, hasTargets; by rewrite bool_decide_true, Hi1 by done).
  assert (mshr_step tick (MSend pm) w m = Ok ([], w, m1)) as Es by (simpl; by rewrite E1).
  cbn [mshr_run]. rewrite En1, Es. cbn [mbind outcome_bind]. rewrite En2, E2. cbn [mbind outcome_bind].
  by destruct (mshr_run ops w m2) as [[[??]?]|].
Qed.

(** Sent and answered [n] times. *)
Definition rounds (n : nat) (tick : Z) (pm : bool) (resp : Command) (readable writable : bool) : list (Z * MshrOp) :=
  concat (replicate n [(tick, MSend pm); (tick, MResp resp readable writable)]).

Lemma rounds_finish n tick pm resp readable writable w m :
  mshr_wf m → inService m = false → (length (requests (contents m)) ≤ n)%nat →
  ∃ served m', mshr_run (rounds n tick pm resp readable writable) w m = Ok (served, w, m') ∧ hasTargets m' = false.
Proof.
  revert m. induction n as [|n IH]; intros m Hw Hi Hn.
  - exists [], m. split; [done|]. apply bool_decide_eq_false. intros Hne. destruct (wf_front m Hw Hne) as (t & Ef & _ & Ht). apply Hne.
    unfold front in Ef. unfold contents in Hn. destruct (tl_targets (targets m)) as [|t' ts]; [done|]. injection Ef as ->. cbn [app] in Hn.
    rewrite requests_cons in Hn. unfold is_req in Hn. rewrite bool_decide_false in Hn by done. simpl in Hn. lia.
  - destruct (hasTargets m) eqn:Eh; [|exists [], m; by rewrite dead_run].
    destruct (round_ok tick pm tick resp readable writable (rounds n tick pm resp readable writable) w m Hw Hi Eh)
      as (s1 & m1 & Hw1 & Hi1 & Hl & E). unfold rounds in *. cbn [replicate concat app]. rewrite E.
    destruct (IH m1 Hw1 Hi1 ltac:(lia)) as (s2 & m2 & -> & Hd). by eexists _, _.
Qed.

(** C9: Requests are served in the order they arrived, each of them once.  A register that
    is free takes a request of the processor or of the prefetcher.  Requests here are those
    of [pkt_ok]: not upgrades, locked reads or cache maintenance, and not from the register
    of a cache above.  Whatever such requests, snoops and responses of any kind follow, in
    whatever order, no assertion of the code fails, and what was served followed by what the register still holds is the sequence
    of the requests that came while it was in use.  When the register is free again nothing
    is left in it. *)
Theorem requests_served_in_order w tick blk_addr target ready order alloc m ops :
  0 ≤ bs → contents m = [] → pkt_ok bs target → Forall (λ op, op_ok op.2) ops →
  ∃ m1 served m',
    mshr_allocate w tick blk_addr bs target ready order alloc m = Ok (w, m1) ∧ mshr_run ops w m1 = Ok (served, w, m') ∧
    requests served ++ requests (contents m') = mp_id target :: accepted ops w m1 ∧ (hasTargets m' = false → contents m' = []).
Proof.
  intros Hbs Hc Hp Hops. destruct (mshr_allocate_ok w tick blk_addr target ready order alloc m Hbs Hc Hp) as (m1 & E1 & Hw1 & Er1 & _).
  destruct (run_in_order ops w m1 Hw1 Hops) as (served & m' & E2 & Hw' & Er2). rewrite Er1 in Er2.
  exists m1, served, m'. split_and!; try done. intros Hd. unfold hasTargets in Hd. apply bool_decide_eq_false in Hd.
  apply dec_stable in Hd. unfold contents. by rewrite Hd, (mw_live m' Hw' Hd).
Qed.

(** C28: A register is freed.  After any such history, sending and answering it as often as it
    holds requests, with answers of any kind, leaves it free: each answer serves at least
    the oldest request. *)
Theorem register_is_freed w tick blk_addr target ready order alloc m ops tick' pm resp readable writable :
  0 ≤ bs → contents m = [] → pkt_ok bs target → Forall (λ op, op_ok op.2) ops →
  ∃ m1 served m2, mshr_allocate w tick blk_addr bs target ready order alloc m = Ok (w, m1) ∧ mshr_run ops w m1 = Ok (served, w, m2) ∧
    (inService m2 = false → ∃ served' m3,
      mshr_run (rounds (length (requests (contents m2))) tick' pm resp readable writable) w m2 = Ok (served', w, m3) ∧ hasTargets m3 = false).
Proof.
  intros Hbs Hc Hp Hops. destruct (mshr_allocate_ok w tick blk_addr target ready order alloc m Hbs Hc Hp) as (m1 & E1 & Hw1 & _ & _).
  destruct (run_in_order ops w m1 Hw1 Hops) as (served & m2 & E2 & Hw2 & _).
  exists m1, served, m2. split_and!; try done. intros Hi. by apply rounds_finish.
Qed.
End Life.

(** ** Examples *)

(** A request, for the block at 0x1000, with an identity. *)
Definition ex_pkt (c : Command) (flags : Z) (size : Z) (id : nat) : MemPacket :=
  mkMemPkt c 0x1000 false size 0 flags false 0 None id.

(** A read, a write that has to wait, an invalidating snoop, and an answer that the snoop
    invalidates at once. *)
Definition ex_ops : list (Z * MshrOp) :=
  [(1, MSend false); (2, MAdd (ex_pkt ReadReq 0 8 2) 2 2 true); (3, MAdd (ex_pkt WriteReq 0 8 3) 3 3 true);
   (4, MSnoop 9 (ex_pkt ReadExReq 0 64 8) 4); (5, MResp ReadRespWithInvalidate false false)].

Lemma ex_target_ok c : bool_decide (c ∈ [ReadReq; WriteReq]) = true → ∀ id, pkt_ok 64 (ex_pkt c 0 8 id).
Proof.
  intros Hc id. apply bool_decide_eq_true in Hc. rewrite !elem_of_cons, elem_of_nil in Hc. destruct Hc as [->|[->|[]]];
    (split; [done|by apply (bool_decide_unpack _)|done|done|by vm_compute; split]).
Qed.

Lemma ex_ops_ok : Forall (λ op, op_ok 64 op.2) ex_ops.
Proof.
  repeat apply Forall_cons_2; [done|split; [by apply ex_target_ok|done]..|by split|done|]. apply Forall_nil_2.
Qed.

(** The read is served, the others stay, in order. *)
Example ex_run : ∃ m1 served m', mshr_allocate ∅ 0 0x1000 64 (ex_pkt ReadReq 0 8 1) 0 0 true mshr_new = Ok (∅, m1) ∧
  mshr_run ex_ops ∅ m1 = Ok (served, ∅, m') ∧ requests served = [1]%nat ∧ requests (contents m') = [2; 3]%nat ∧ inService m' = false.
Proof. eexists _, _, _. split; [by vm_compute|]. split; [by vm_compute|]. by vm_compute. Qed.

Lemma requests_served_in_order_witness : ∃ m1 served m',
  mshr_allocate ∅ 0 0x1000 64 (ex_pkt ReadReq 0 8 1) 0 0 true mshr_new = Ok (∅, m1) ∧ mshr_run ex_ops ∅ m1 = Ok (served, ∅, m') ∧
  requests served ++ requests (contents m') = 1%nat :: accepted ex_ops ∅ m1 ∧ (hasTargets m' = false → contents m' = []).
Proof.
  apply (requests_served_in_order 64 ∅ 0 0x1000 (ex_pkt ReadReq 0 8 1) 0 0 true mshr_new ex_ops);
    [lia|reflexivity|by apply ex_target_ok|apply ex_ops_ok].
Defined.

Lemma register_is_freed_witness : ∃ m1 served m2,
  mshr_allocate ∅ 0 0x1000 64 (ex_pkt ReadReq 0 8 1) 0 0 true mshr_new = Ok (∅, m1) ∧ mshr_run ex_ops ∅ m1 = Ok (served, ∅, m2) ∧
  (inService m2 = false → ∃ served' m3,
    mshr_run (rounds (length (requests (contents m2))) 9 true ReadExResp true true) ∅ m2 = Ok (served', ∅, m3) ∧ hasTargets m3 = false).
Proof.
  apply (register_is_freed 64 ∅ 0 0x1000 (ex_pkt ReadReq 0 8 1) 0 0 true mshr_new ex_ops);
    [lia|reflexivity|by apply ex_target_ok|apply ex_ops_ok].
Defined.

(** ** What goes wrong *)

(** An assertion of [promoteWritable] can fail.  A write is outstanding; a cleaning
    request arrives and is deferred because cache maintenance always is; a second write is
    deferred behind it.  The response to the first write makes the block writable, so the
    deferred targets are promoted, and the assertion that no target needs a writable copy
    fails on the write being served. *)
Theorem cleaning_between_writes_stops (tick : Z) (id1 id2 id3 : nat) :
  ∃ m, mshr_allocate ∅ 0 0x1000 64 (ex_pkt WriteReq 0 8 id1) 0 0 true mshr_new = Ok (∅, m) ∧
    mshr_run [(tick, MSend true); (tick, MAdd (ex_pkt CleanSharedReq CLEAN 64 id2) tick 1 false);
              (tick, MAdd (ex_pkt WriteReq 0 8 id3) tick 2 true); (tick, MResp ReadExResp false true)] ∅ m =
      Stop (AssertFail "!targets.needsWritable").
Proof. eexists. split; [by vm_compute|]. by vm_compute. Qed.

(** Flags of a list of one target. *)
Lemma fill_whole n : fill_range 0 (Z.of_nat n) (replicate n false) = Ok (replicate n true).
Proof.
  unfold fill_range. rewrite length_replicate, (proj2 (Z.leb_le _ _)) by lia. simpl. rewrite Nat2Z.id, drop_ge by (rewrite length_replicate; lia).
  by rewrite app_nil_r.
Qed.

Lemma all_set n : forallb (λ b, b) (replicate n true) = true.
Proof. induction n as [|n IH]; simpl; [done|]. by rewrite IH. Qed.

(** A whole-line write with special flags counts only into an empty list. *)
Lemma special_write n pkt tl :
  mp_cmd pkt = WriteReq → pkt_isWholeLineWrite (Z.of_nat (S n)) pkt = true → flag_set no_merge_flags (mp_reqFlags pkt) = true →
  tl_blkSize tl = Z.of_nat (S n) → writesBitmap tl = replicate (S n) false → canMergeWrites tl = true →
  updateWriteFlags pkt tl = Ok (with_merge false (replicate (S n) (bool_decide (tl_targets tl = []))) tl).
Proof.
  intros Hc Hw Hf Hb Hm Hg. unfold pkt_isWholeLineWrite in Hw. rewrite !andb_true_iff, negb_true_iff, !Z.eqb_eq in Hw.
  destruct Hw as [[[_ Ho] Hz] Hk]. unfold updateWriteFlags, isWholeLineWrite. rewrite Hm, Hg, Hk, Hf, Hb, Ho, Hz, Hc. cbn [negb andb].
  rewrite orb_false_r. case_bool_decide; [|done]. by rewrite fill_whole.
Qed.

Lemma write_flags pkt alloc tl :
  mp_cmd pkt = WriteReq →
  updateFlags pkt FromCPU alloc tl =
    updateWriteFlags pkt (mkTargetList (tl_targets tl) true (hasUpgrade tl) (allocOnFill tl || alloc) (hasFromCache tl || false)
      (tl_blkAddr tl) (tl_blkSize tl) (canMergeWrites tl) (writesBitmap tl)).
Proof. intros Hc. unfold updateFlags, pkt_needsWritable. by rewrite Hc. Qed.

(** Promotion forgets whole-line writes.  The first write of a register that may not be
    merged with others, a secure one for instance, is still recorded as a write of the
    whole line, as the comment in [updateWriteFlags] asks.  When the flags of the same list
    are computed again, as every promotion and every extraction does, the list is not
    empty, the write no longer counts as the first one, and the line is not written
    whole. *)
Theorem promotion_forgets_whole_line (n : nat) w tick pkt ready order alloc :
  mp_cmd pkt = WriteReq → pkt_isWholeLineWrite (Z.of_nat (S n)) pkt = true → flag_set no_merge_flags (mp_reqFlags pkt) = true →
  mp_sender pkt = None →
  ∃ tl tl', tl_add w tick pkt ready order FromCPU true alloc (tl_init 0x1000 (Z.of_nat (S n)) tl_new) = Ok (w, tl) ∧
    isWholeLineWrite tl = true ∧ populateFlags tl = Ok tl' ∧ tl_targets tl' = tl_targets tl ∧ isWholeLineWrite tl' = false.
Proof.
  intros Hc Hw Hf Hs. set (size := Z.of_nat (S n)).
  assert (Hl : length (replicate (Z.to_nat size) false) = S n) by (rewrite length_replicate; subst size; lia).
  unfold tl_add. rewrite write_flags, (special_write n) by (done || (cbn; by rewrite Hl)). rewrite Hs. cbn [mbind outcome_bind].
  eexists _, _. split; [done|]. split; [apply all_set|]. split.
  { unfold populateFlags. cbn [tl_targets with_targets with_merge app update_all tl_init tl_new resetFlags tgt_pkt tgt_source tgt_allocOnFill].
    rewrite write_flags, (special_write n) by (done || (cbn; by rewrite ?length_replicate)). done. }
  done.
Qed.

Lemma promotion_forgets_whole_line_witness : ∃ tl tl',
  tl_add ∅ 0 (ex_pkt WriteReq SECURE 64 1) 0 0 FromCPU true true (tl_init 0x1000 64 tl_new) = Ok (∅, tl) ∧
  isWholeLineWrite tl = true ∧ populateFlags tl = Ok tl' ∧ tl_targets tl' = tl_targets tl ∧ isWholeLineWrite tl' = false.
Proof. apply (promotion_forgets_whole_line 63); reflexivity. Defined.

(** ** The registers upstream

    [clearDownstreamPending] goes from a register to the registers its targets came from,
    through the hierarchy of caches. *)

Abbreviation too_deep := (Stop (Panic "recursion too deep")).

(** The registers that wait for one downstream. *)
Definition pending (w : Upstream) : gset nat := dom (filter (λ kv, downstreamPending kv.2 = true) w).

Lemma elem_of_pending id w : id ∈ pending w ↔ ∃ m, w !! id = Some m ∧ downstreamPending m = true.
Proof.
  unfold pending. rewrite elem_of_dom. unfold is_Some. setoid_rewrite map_lookup_filter_Some. naive_solver.
Qed.

Lemma pending_size w : (size (pending w) ≤ size w)%nat.
Proof.
  rewrite <-(size_dom w). apply subseteq_size. intros id (m & Hm & _)%elem_of_pending. by apply elem_of_dom_2 in Hm.
Qed.

Lemma pending_insert id m w : pending (<[id := m]> w) ⊆ pending w ∪ (if downstreamPending m then {[id]} else ∅).
Proof.
  intros i (m' & Hm & Hp)%elem_of_pending. apply elem_of_union. destruct (decide (i = id)) as [->|Hne].
  - rewrite lookup_insert_eq in Hm. injection Hm as ->. rewrite Hp. right. set_solver.
  - rewrite lookup_insert_ne in Hm by done. left. apply elem_of_pending. eauto.
Qed.

(** A step of the recursion that neither gets too deep nor makes a register wait. *)
Definition clears (n : nat) (clear : Upstream → nat → outcome Upstream) : Prop :=
  ∀ w id, (size (pending w) < n)%nat → clear w id ≠ too_deep ∧ ∀ w', clear w id = Ok w' → pending w' ⊆ pending w.

Lemma clear_list_clears n clear w ts :
  clears n clear → (size (pending w) < n)%nat →
  clear_list clear w ts ≠ too_deep ∧ ∀ w' ts', clear_list clear w ts = Ok (w', ts') → pending w' ⊆ pending w.
Proof.
  intros Hc. revert w. induction ts as [|t ts IH]; intros w Hn; simpl; [split; [done|]; by intros ? ? [= -> _]|].
  assert (∀ w1, pending w1 ⊆ pending w → ('(w, ts) ← clear_list clear w1 ts; Ok (w, (if markedPending t then set_marked false t else t) :: ts)) ≠ too_deep ∧
    ∀ w' ts', ('(w, ts) ← clear_list clear w1 ts; Ok (w, (if markedPending t then set_marked false t else t) :: ts)) = Ok (w', ts') → pending w' ⊆ pending w) as Hrest.
  { intros w1 Hs. destruct (IH w1) as [H1 H2]; [apply subseteq_size in Hs; lia|].
    destruct (clear_list clear w1 ts) as [[w2 ts2]|]; [|split; [by intros [= ->]|done]]. cbn. split; [done|]. intros w' ts' [= <- _]. specialize (H2 w2 ts2 eq_refl). set_solver. }
  destruct (markedPending t); [destruct (mp_sender (tgt_pkt t)) as [id|]|]; [|by apply Hrest..].
  destruct (Hc w id Hn) as [H1 H2]. destruct (clear w id) as [w1|]; [by apply Hrest, H2|]. split; [by intros [= ->]|done].
Qed.

Lemma clear_mshr_clears n : clears n (clear_mshr n).
Proof.
  induction n as [|n IH]; intros w id Hn; [lia|]. simpl. unfold mshr_at. destruct (w !! id) as [m|] eqn:Em; [|done].
  cbn [mbind outcome_bind]. destruct (downstreamPending m) eqn:Ep; [|done]. cbn [assert_that mbind outcome_bind].
  set (w1 := <[id := with_pending false m]> w).
  assert (pending w1 ⊆ pending w ∖ {[id]}) as Hs.
  { intros i Hi. pose proof (pending_insert id (with_pending false m) w i Hi) as Hi'. cbn in Hi'. apply elem_of_difference. split; [set_solver|].
    intros ->%elem_of_singleton. apply elem_of_pending in Hi as (m' & Hm & Hp). subst w1. rewrite lookup_insert_eq in Hm. by injection Hm as <-. }
  assert (size (pending w1) < n)%nat as Hn1.
  { apply subseteq_size in Hs. rewrite size_difference, size_singleton in Hs by (apply singleton_subseteq_l, elem_of_pending; eauto).
    assert (id ∈ pending w) as Hin by (apply elem_of_pending; eauto). assert (size (pending w) ≠ 0)%nat by (apply size_non_empty_iff; set_solver). lia. }
  destruct (clear_list_clears n (clear_mshr n) w1 (tl_targets (targets m)) IH Hn1) as [H1 H2].
  destruct (clear_list _ w1 _) as [[w2 ts]|]; [|split; [by intros [= ->]|done]]. cbn [mbind outcome_bind]. specialize (H2 w2 ts eq_refl).
  destruct (w2 !! id) as [m2|] eqn:Em2; [|done]. cbn [mbind outcome_bind]. split; [done|]. intros w' [= <-].
  intros i [Hi|Hi]%pending_insert%elem_of_union; [set_solver|]. cbn in Hi. destruct (downstreamPending m2) eqn:Ep2; [|set_solver].
  apply elem_of_singleton in Hi as ->. apply elem_of_pending. eauto.
Qed.

(** Clearing the registers upstream ends.  Whatever registers there are and however they
    refer to each other, the recursion of [clearDownstreamPending] is never deeper than the
    number of registers, and when it is done no register waits that did not wait before. *)
Theorem clearing_terminates w tl :
  tl_clearDownstreamPending w tl ≠ too_deep ∧
  ∀ w' tl', tl_clearDownstreamPending w tl = Ok (w', tl') → pending w' ⊆ pending w.
Proof.
  unfold tl_clearDownstreamPending. pose proof (pending_size w).
  destruct (clear_list_clears (clear_fuel w) (clear_mshr (clear_fuel w)) w (tl_targets tl) (clear_mshr_clears _)) as [H1 H2];
    [unfold clear_fuel; lia|].
  destruct (clear_list _ w _) as [[w2 ts]|]; [|split; [by intros [= ->]|done]]. split; [done|]. intros w' tl' [= <- _]. by apply (H2 w2 ts).
Qed.
