(* ===== verification/MissQueue.v ===== *)
(** * Miss queue and write buffer

    [Queue] (src/src/mem/cache/queue.hh, queue_entry.hh): the entries of a cache that wait
    to be sent downstream or to be answered, a vector of entries with three lists of
    pointers into it, the allocated ones, the ones ready to be sent and the free ones.
    [MSHRQueue] (mshr_queue.{hh,cc}) holds miss status holding registers, [WriteQueue]
    (write_queue.{hh,cc}, write_queue_entry.{hh,cc}) evictions and uncacheable writes.

    A pointer to an entry is its position in the vector.  The iterators that an entry keeps
    into the two lists are found by searching for the entry, and erasing through an
    iterator that is not in the list is undefined. *)

From Stdlib Require Import ZArith Lia.
From stdpp Require Import base numbers option list strings gmap.
From S2P Require Import Prelude PrefetchBase MemCmd Mshr.
#[local] Open Scope Z_scope.

(** ** Entries *)

(** What a queue needs of its entries ([QueueEntry]). *)
Class QEntry (E : Type) := {
  qe_readyTime : E → Z;
  qe_inService : E → bool;
  qe_isUncacheable : E → bool;
  qe_order : E → Z;
  qe_blkAddr : E → Z;
  qe_isSecure : E → bool;
  qe_hasTargets : E → bool;
  qe_getNumTargets : E → nat;
  qe_deallocate : E → outcome E
}.

(** [matchBlockAddr] and [conflictAddr] are the same for both kinds of entries. *)
Definition qe_matchBlockAddr `{QEntry E} (addr : Z) (is_secure : bool) (e : E) : outcome bool :=
  _ ← assert_that (qe_hasTargets e) "hasTargets()";
  Ok ((qe_blkAddr e =? addr) && eqb (qe_isSecure e) is_secure).

Definition qe_conflictAddr `{QEntry E, QEntry F} (f : F) (e : E) : outcome bool :=
  _ ← assert_that (qe_hasTargets e) "hasTargets()";
  qe_matchBlockAddr (qe_blkAddr e) (qe_isSecure e) f.

#[global] Instance mshr_entry : QEntry MSHR := {
  qe_readyTime := readyTime;
  qe_inService := inService;
  qe_isUncacheable := m_isUncacheable;
  qe_order := m_order;
  qe_blkAddr := m_blkAddr;
  qe_isSecure := m_isSecure;
  qe_hasTargets := hasTargets;
  qe_getNumTargets := getNumTargets;
  qe_deallocate := mshr_deallocate
}.

(** A target of the write buffer has no source. *)
Record WTarget := mkWTarget { wt_recvTime : Z; wt_readyTime : Z; wt_order : Z; wt_pkt : MemPacket }.

Record WriteQueueEntry := mkWQEntry {
  wq_readyTime : Z;
  wq_isUncacheable : bool;
  wq_inService : bool;
  wq_order : Z;
  wq_blkAddr : Z;
  wq_blkSize : Z;
  wq_isSecure : bool;
  wq_targets : list WTarget
}.

Definition wq_entry_new : WriteQueueEntry := mkWQEntry 0 false false 0 0 0 false [].

Definition wq_entry_allocate (curTick blk_addr blk_size : Z) (target : MemPacket) (when_ready order : Z) (e : WriteQueueEntry)
    : outcome WriteQueueEntry :=
  let unc := isUncacheable_req target in
  _ ← panic_if (negb unc && bool_decide (wq_targets e ≠ [])) "Write queue entry should never have more than one cacheable target";
  _ ← panic_if (negb ((has IsWrite (mp_cmd target) && unc) || (has IsEviction (mp_cmd target) && negb unc)
                      || bool_decide (mp_cmd target = WriteClean)))
        "Write queue entry should be an uncacheable write or a cacheable eviction or a writeclean";
  let ts := wq_targets e ++ [mkWTarget curTick when_ready order target] in
  t ← (match ts with t :: _ => Ok t | [] => Stop (Panic "front() of an empty list") end);
  _ ← assert_that (pkt_matchBlockAddr (pkt_getBlockAddr blk_size (wt_pkt t)) (mp_secure (wt_pkt t)) blk_size target)
        "target->matchBlockAddr(targets.front().pkt, blkSize)";
  Ok (mkWQEntry when_ready unc false order blk_addr blk_size (mp_secure target) ts).

Definition wq_with_targets (ts : list WTarget) (e : WriteQueueEntry) : WriteQueueEntry :=
  mkWQEntry (wq_readyTime e) (wq_isUncacheable e) (wq_inService e) (wq_order e) (wq_blkAddr e) (wq_blkSize e) (wq_isSecure e) ts.

Definition wq_popTarget (e : WriteQueueEntry) : outcome WriteQueueEntry :=
  match wq_targets e with
  | _ :: ts => Ok (wq_with_targets ts e)
  | [] => Stop (Panic "pop_front() of an empty list")
  end.

Definition wq_entry_deallocate (e : WriteQueueEntry) : outcome WriteQueueEntry :=
  _ ← assert_that (bool_decide (wq_targets e = [])) "targets.empty()";
  Ok (mkWQEntry (wq_readyTime e) (wq_isUncacheable e) false (wq_order e) (wq_blkAddr e) (wq_blkSize e) (wq_isSecure e) []).

#[global] Instance write_entry : QEntry WriteQueueEntry := {
  qe_readyTime := wq_readyTime;
  qe_inService := wq_inService;
  qe_isUncacheable := wq_isUncacheable;
  qe_order := wq_order;
  qe_blkAddr := wq_blkAddr;
  qe_isSecure := wq_isSecure;
  qe_hasTargets := λ e, bool_decide (wq_targets e ≠ []);
  qe_getNumTargets := λ e, length (wq_targets e);
  qe_deallocate := wq_entry_deallocate
}.

(** ** The queue *)

Inductive DrainState := Running | Draining | Drained | Resuming.
#[global] Instance DrainState_eq_dec : EqDecision DrainState.
Proof. solve_decision. Defined.

Record Queue (E : Type) := mkQueue {
  q_numEntries : Z;
  q_numReserve : Z;
  q_entries : list E;
  q_allocatedList : list nat;
  q_readyList : list nat;
  q_freeList : list nat;
  q_numInService : Z;
  q_allocated : Z;
  q_drainState : DrainState
}.
Arguments mkQueue {E}.
Arguments q_numEntries {E}.
Arguments q_numReserve {E}.
Arguments q_entries {E}.
Arguments q_allocatedList {E}.
Arguments q_readyList {E}.
Arguments q_freeList {E}.
Arguments q_numInService {E}.
Arguments q_allocated {E}.
Arguments q_drainState {E}.

(** [std::list::erase] through an iterator to [x]. *)
Fixpoint erase (x : nat) (l : list nat) : outcome (list nat) :=
  match l with
  | [] => Stop (Panic "erase() of an invalid iterator")
  | y :: l => if decide (x = y) then Ok l else l ← erase x l; Ok (y :: l)
  end.

(** Before the first entry that is ready later than [t]. *)
Fixpoint insert_before (rt : nat → Z) (t : Z) (x : nat) (l : list nat) : outcome (list nat) :=
  match l with
  | [] => Stop (Panic "Failed to add to ready list.")
  | i :: l => if t <? rt i then Ok (x :: i :: l) else l ← insert_before rt t x l; Ok (i :: l)
  end.

Section Queue.
Context `{QEntry E}.

Definition queue_new (num_entries reserve : Z) (e : E) : Queue E :=
  let n := i32 (num_entries + reserve) in
  mkQueue n reserve (replicate (Z.to_nat n) e) [] [] (seq 0 (Z.to_nat n)) 0 0 Running.

Definition entry_at (q : Queue E) (i : nat) : outcome E :=
  match q_entries q !! i with Some e => Ok e | None => Stop (Panic "not an entry of the queue") end.

Definition with_entry (i : nat) (e : E) (q : Queue E) : Queue E :=
  mkQueue (q_numEntries q) (q_numReserve q) (<[i := e]> (q_entries q)) (q_allocatedList q) (q_readyList q) (q_freeList q)
    (q_numInService q) (q_allocated q) (q_drainState q).
Definition with_ready (l : list nat) (q : Queue E) : Queue E :=
  mkQueue (q_numEntries q) (q_numReserve q) (q_entries q) (q_allocatedList q) l (q_freeList q)
    (q_numInService q) (q_allocated q) (q_drainState q).
Definition with_free (l : list nat) (q : Queue E) : Queue E :=
  mkQueue (q_numEntries q) (q_numReserve q) (q_entries q) (q_allocatedList q) (q_readyList q) l
    (q_numInService q) (q_allocated q) (q_drainState q).
Definition with_numInService (n : Z) (q : Queue E) : Queue E :=
  mkQueue (q_numEntries q) (q_numReserve q) (q_entries q) (q_allocatedList q) (q_readyList q) (q_freeList q)
    n (q_allocated q) (q_drainState q).

(** When the entry at a position is ready. *)
Definition ready_at (q : Queue E) (i : nat) : Z := default 0 (qe_readyTime <$> q_entries q !! i).

Definition addToReadyList (i : nat) (q : Queue E) : outcome (Queue E) :=
  l ← (match last (q_readyList q) with
       | None => Ok [i]
       | Some b =>
           if ready_at q b <=? ready_at q i then Ok (q_readyList q ++ [i])
           else insert_before (ready_at q) (ready_at q i) i (q_readyList q)
       end);
  Ok (with_ready l q).

Definition q_isEmpty (q : Queue E) : bool := q_allocated q =? 0.
Definition q_isFull (q : Queue E) : bool := i32 (q_numEntries q - q_numReserve q) <=? q_allocated q.

(** The first entry of a list that satisfies a test. *)
Fixpoint find_entry (test : E → outcome bool) (q : Queue E) (l : list nat) : outcome (option nat) :=
  match l with
  | [] => Ok None
  | i :: l =>
      e ← entry_at q i;
      b ← test e;
      if (b : bool) then Ok (Some i) else find_entry test q l
  end.

Definition findMatch (blk_addr : Z) (is_secure ignore_uncacheable : bool) (q : Queue E) : outcome (option nat) :=
  find_entry (λ e, if ignore_uncacheable && qe_isUncacheable e then Ok false else qe_matchBlockAddr blk_addr is_secure e)
    q (q_allocatedList q).

Definition findPending `{QEntry F} (entry : F) (q : Queue E) : outcome (option nat) :=
  find_entry (qe_conflictAddr entry) q (q_readyList q).

Definition getNext (curTick : Z) (q : Queue E) : option nat :=
  match q_readyList q with
  | i :: _ => if curTick <? ready_at q i then None else Some i
  | [] => None
  end.

Definition nextReadyTime (q : Queue E) : Z :=
  match q_readyList q with i :: _ => ready_at q i | [] => MaxTick end.

(** The common part of the two [allocate]s: take a free entry, and enter it once it has
    been filled. *)
Definition take_free (q : Queue E) : outcome (nat * E * Queue E) :=
  match q_freeList q with
  | [] => Stop (AssertFail "!freeList.empty()")
  | i :: free =>
      e ← entry_at q i;
      _ ← assert_that (bool_decide (qe_getNumTargets e = 0%nat)) "getNumTargets() == 0";
      Ok (i, e, with_free free q)
  end.

Definition enter (i : nat) (e : E) (q : Queue E) : outcome (Queue E) :=
  let q := mkQueue (q_numEntries q) (q_numReserve q) (<[i := e]> (q_entries q)) (q_allocatedList q ++ [i]) (q_readyList q) (q_freeList q)
             (q_numInService q) (q_allocated q) (q_drainState q) in
  q ← addToReadyList i q;
  Ok (mkQueue (q_numEntries q) (q_numReserve q) (q_entries q) (q_allocatedList q) (q_readyList q) (q_freeList q)
        (q_numInService q) (q_allocated q + 1) (q_drainState q)).

(** The drain manager is told when a draining queue becomes empty. *)
Definition q_deallocate (i : nat) (q : Queue E) : outcome (Queue E) :=
  e ← entry_at q i;
  alloc ← erase i (q_allocatedList q);
  let q := mkQueue (q_numEntries q) (q_numReserve q) (q_entries q) alloc (q_readyList q) (i :: q_freeList q)
             (q_numInService q) (q_allocated q - 1) (q_drainState q) in
  q ← (if qe_inService e then Ok (with_numInService (q_numInService q - 1) q)
       else l ← erase i (q_readyList q); Ok (with_ready l q));
  e ← qe_deallocate e;
  let q := with_entry i e q in
  Ok (if bool_decide (q_drainState q = Draining) && (q_allocated q =? 0)
      then mkQueue (q_numEntries q) (q_numReserve q) (q_entries q) (q_allocatedList q) (q_readyList q) (q_freeList q)
             (q_numInService q) (q_allocated q) Drained
      else q).

Definition drain (q : Queue E) : DrainState := if q_allocated q =? 0 then Drained else Draining.
Definition dmDrain (q : Queue E) : Queue E :=
  mkQueue (q_numEntries q) (q_numReserve q) (q_entries q) (q_allocatedList q) (q_readyList q) (q_freeList q)
    (q_numInService q) (q_allocated q) (drain q).
End Queue.

(** ** Queue of miss status holding registers *)

Abbreviation MSHRQueue := (Queue MSHR).

Definition mshr_queue_new (num_entries reserve : Z) : MSHRQueue := queue_new num_entries reserve mshr_new.

Definition mq_allocate (w : Upstream) (curTick blk_addr blk_size : Z) (pkt : MemPacket) (when_ready order : Z) (alloc_on_fill : bool)
    (q : MSHRQueue) : outcome (nat * Upstream * MSHRQueue) :=
  '(i, m, q) ← take_free q;
  '(w, m) ← mshr_allocate w curTick blk_addr blk_size pkt when_ready order alloc_on_fill m;
  q ← enter i m q;
  Ok (i, w, q).

Definition moveToFront (i : nat) (q : MSHRQueue) : outcome MSHRQueue :=
  m ← entry_at q i;
  if negb (inService m) then l ← erase i (q_readyList q); Ok (with_ready (i :: l) q) else Ok q.

(** [delay] looks, from the entry itself on, for an entry that is ready no later, and
    splices the entry in before it. *)
Fixpoint split_at (x : nat) (l : list nat) : option (list nat * list nat) :=
  match l with
  | [] => None
  | y :: l => if decide (x = y) then Some ([], y :: l) else '(before, after) ← split_at x l; Some (y :: before, after)
  end.
Fixpoint find_no_later (rt : nat → Z) (t : Z) (l : list nat) : list nat * list nat :=
  match l with
  | [] => ([], [])
  | i :: l => if rt i <=? t then ([], i :: l) else let '(before, after) := find_no_later rt t l in (i :: before, after)
  end.

(** [splice] of one element of the list: to its own position nothing happens. *)
Definition splice (x : nat) (before skipped after : list nat) : list nat :=
  match skipped, after with
  | [], _ => before ++ after
  | _ :: skipped, _ => before ++ skipped ++ x :: after
  end.

Definition mq_delay (curTick delay_ticks : Z) (i : nat) (q : MSHRQueue) : outcome MSHRQueue :=
  m ← entry_at q i;
  m ← mshr_delay curTick delay_ticks m;
  let q := with_entry i m q in
  match split_at i (q_readyList q) with
  | None => Stop (Panic "splice() of an invalid iterator")
  | Some (before, from) =>
      let '(skipped, after) := find_no_later (ready_at q) (readyTime m) from in
      Ok (with_ready (splice i before skipped after) q)
  end.

Definition mq_markInService (w : Upstream) (pending_modified_resp : bool) (i : nat) (q : MSHRQueue) : outcome (Upstream * MSHRQueue) :=
  m ← entry_at q i;
  '(w, m) ← markInService w pending_modified_resp m;
  l ← erase i (q_readyList q);
  Ok (w, with_numInService (q_numInService q + 1) (with_ready l (with_entry i m q))).

Definition mq_markPending (i : nat) (q : MSHRQueue) : outcome MSHRQueue :=
  m ← entry_at q i;
  _ ← assert_that (inService m) "mshr->inService";
  addToReadyList i (with_numInService (q_numInService q - 1) (with_entry i (with_inService false m) q)).

(** Whether the queue is no longer full. *)
Definition forceDeallocateTarget (curTick : Z) (i : nat) (q : MSHRQueue) : outcome (bool * MSHRQueue) :=
  let was_full := q_isFull q in
  m ← entry_at q i;
  _ ← assert_that (hasTargets m) "mshr->hasTargets()";
  m ← popTarget m;
  '(freed, m) ← (if hasTargets m then Ok (false, m)
                 else '(more, m) ← promoteDeferredTargets curTick m; Ok (negb more, m));
  let q := with_entry i m q in
  q ← (if (freed : bool) then q_deallocate i q else Ok q);
  Ok (was_full && negb (q_isFull q), q).

Definition havePending (q : MSHRQueue) : bool := bool_decide (q_readyList q ≠ []).
Definition canPrefetch (demandReserve : Z) (q : MSHRQueue) : bool :=
  q_allocated q <? i32 (q_numEntries q - i32 (q_numReserve q + 1 + demandReserve)).

(** *** What the cache does with the queue

    [recvTimingResp] on one entry: the register handles the response, and goes back to the
    ready list or to the free list. *)
Definition mq_response (w : Upstream) (curTick : Z) (resp : Command) (readable writable : bool) (i : nat) (q : MSHRQueue)
    : outcome (list Target * Upstream * MSHRQueue) :=
  m ← entry_at q i;
  '(ready, more, w, m) ← mshr_receive curTick resp readable writable w m;
  let q := with_entry i m q in
  q ← (match more with None => Ok q | Some true => mq_markPending i q | Some false => q_deallocate i q end);
  Ok (ready, w, q).

Inductive MqOp :=
| QAlloc (blk_addr : Z) (pkt : MemPacket) (whenReady order : Z) (alloc : bool)
| QTarget (i : nat) (pkt : MemPacket) (whenReady order : Z) (alloc : bool)
| QSend (i : nat) (pending_modified : bool)
| QDelay (i : nat) (delay_ticks : Z)
| QSnoop (i : nat) (id : nat) (pkt : MemPacket) (order : Z)
| QResp (i : nat) (resp : Command) (readable writable : bool).

Definition mq_step (blk_size curTick : Z) (op : MqOp) (w : Upstream) (q : MSHRQueue) : outcome (list Target * Upstream * MSHRQueue) :=
  match op with
  | QAlloc addr pkt ready order alloc => '(_, w, q) ← mq_allocate w curTick addr blk_size pkt ready order alloc q; Ok ([], w, q)
  | QTarget i pkt ready order alloc =>
      m ← entry_at q i;
      '(w, m) ← allocateTarget w curTick pkt ready order alloc m; Ok ([], w, with_entry i m q)
  | QSend i pm => '(w, q) ← mq_markInService w pm i q; Ok ([], w, q)
  | QDelay i d => q ← mq_delay curTick d i q; Ok ([], w, q)
  | QSnoop i id pkt order =>
      m ← entry_at q i;
      '(_, _, w, m) ← handleSnoop w curTick id pkt order m; Ok ([], w, with_entry i m q)
  | QResp i resp readable writable => mq_response w curTick resp readable writable i q
  end.

(** When the cache can do it: a free entry for a new register, an entry of the ready list to
    be sent or delayed, and an entry in service for a response. *)
Definition mq_enabled (curTick : Z) (op : MqOp) (q : MSHRQueue) : bool :=
  match op with
  | QAlloc _ _ _ _ _ => bool_decide (q_freeList q ≠ [])
  | QTarget i _ _ _ _ | QSnoop i _ _ _ => bool_decide (i ∈ q_allocatedList q)
  | QSend i _ => bool_decide (i ∈ q_readyList q)
  | QDelay i _ => bool_decide (i ∈ q_readyList q) && (ready_at q i <=? curTick)
  | QResp i _ _ _ => bool_decide (i ∈ q_allocatedList q) && bool_decide (i ∉ q_readyList q)
  end.

Fixpoint mq_run (blk_size : Z) (ops : list (Z * MqOp)) (w : Upstream) (q : MSHRQueue) : outcome (list Target * Upstream * MSHRQueue) :=
  match ops with
  | [] => Ok ([], w, q)
  | (curTick, op) :: ops =>
      if mq_enabled curTick op q then
        '(served, w, q) ← mq_step blk_size curTick op w q;
        '(served', w, q) ← mq_run blk_size ops w q;
        Ok (served ++ served', w, q)
      else mq_run blk_size ops w q
  end.

(** ** Write buffer *)

Abbreviation WriteQueue := (Queue WriteQueueEntry).

Definition write_queue_new (num_entries reserve : Z) : WriteQueue := queue_new num_entries reserve wq_entry_new.

Definition wq_allocate (curTick blk_addr blk_size : Z) (pkt : MemPacket) (when_ready order : Z) (q : WriteQueue) : outcome (nat * WriteQueue) :=
  '(i, e, q) ← take_free q;
  e ← wq_entry_allocate curTick blk_addr blk_size pkt when_ready order e;
  q ← enter i e q;
  Ok (i, q).

Definition wq_markInService (i : nat) (q : WriteQueue) : outcome WriteQueue :=
  e ← entry_at q i;
  e ← wq_popTarget e;
  q_deallocate i (with_entry i e q).
