(* ===== verification/MissQueueFacts.v ===== *)
(** * Theorems on the miss queue and the write buffer

    The lists of a queue always describe its entries: every entry is either allocated or
    free, the ready list holds the allocated entries that have not been sent, and the
    counters count.  With that, whatever happens to a miss queue, no assertion fails and
    every request it took is answered once.  The ready list is sorted by ready time, so the
    next entry is the earliest one, except that [delay] does not move what it delays. *)

From Stdlib Require Import ZArith Lia Sorting.Sorted.
From stdpp Require Import base numbers option list strings gmap.
From S2P Require Import Prelude PrefetchBase MemCmd Mshr MshrFacts MissQueue.
#[local] Open Scope Z_scope.

(** The two cases of a conditional in a hypothesis. *)
Ltac if_in E := match type of E with (if ?b then _ else _) = _ => destruct b end.

(** ** Lists *)

Lemma erase_ok x l : x ∈ l → ∃ l', erase x l = Ok l' ∧ l ≡ₚ x :: l' ∧ l' `sublist_of` l.
Proof.
  induction l as [|y l IH]; [by intros ?%elem_of_nil|]. intros Hx. simpl. case_decide as Hxy.
  - subst. exists l. split_and!; [done|done|by apply sublist_cons].
  - apply elem_of_cons in Hx as [?|Hx]; [done|]. destruct (IH Hx) as (l' & -> & Hp & Hs). exists (y :: l').
    split_and!; [done| |by apply sublist_skip]. rewrite Hp. apply Permutation_swap.
Qed.

Section Sorted.
Context (rt : nat → Z).

Definition earlier (i j : nat) : Prop := rt i ≤ rt j.

(** Inserting: the [panic] is not reached as long as some entry is later. *)
Lemma insert_before_ok x l :
  Exists (λ j, rt x < rt j) l → ∃ l1 l2, l = l1 ++ l2 ∧ insert_before rt (rt x) x l = Ok (l1 ++ x :: l2) ∧
    Forall (λ j, rt j ≤ rt x) l1 ∧ ∃ j, head l2 = Some j ∧ rt x < rt j.
Proof.
  induction l as [|i l IH]; [by intros ?%Exists_nil|]. intros He. simpl. destruct (rt x <? rt i) eqn:Ei.
  - exists [], (i :: l). split_and!; try done. exists i. split; [done|lia].
  - apply Z.ltb_ge in Ei. apply Exists_cons in He as [?|He]; [lia|]. destruct (IH He) as (l1 & l2 & -> & E & Hf & Hj).
    rewrite E. exists (i :: l1), l2. split_and!; try done. by constructor.
Qed.

Lemma sorted_insert x l1 l2 :
  StronglySorted earlier (l1 ++ l2) → Forall (λ j, rt j ≤ rt x) l1 → (∀ j, head l2 = Some j → rt x ≤ rt j) →
  StronglySorted earlier (l1 ++ x :: l2).
Proof.
  intros Hs H1 H2. induction l1 as [|y l1 IH]; simpl in *.
  - constructor; [done|]. destruct l2 as [|j l2]; [constructor|]. specialize (H2 j eq_refl). inversion Hs as [|? ? ? Hf]; subst.
    constructor; [done|]. eapply Forall_impl; [exact Hf|]. unfold earlier. intros k. simpl. lia.
  - inversion Hs as [|? ? Hs' Hf]; subst. apply Forall_cons in H1 as [Hy H1]. constructor; [by apply IH|].
    apply Forall_app in Hf as [Hf1 Hf2]. apply Forall_app. split; [done|]. by constructor.
Qed.
End Sorted.

Lemma sorted_ext rt rt' l : (∀ j, j ∈ l → rt j = rt' j) → StronglySorted (earlier rt) l → StronglySorted (earlier rt') l.
Proof.
  intros He. induction 1 as [|x l _ IH Hf]; constructor.
  - apply IH. intros j Hj. apply He. by right.
  - apply Forall_forall. intros j Hj. rewrite Forall_forall in Hf. unfold earlier. rewrite <-!He by (by left || by right). by apply Hf.
Qed.

Lemma sorted_sublist rt l l' : l' `sublist_of` l → StronglySorted (earlier rt) l → StronglySorted (earlier rt) l'.
Proof.
  induction 1 as [|x l' l Hs IH|x l' l Hs IH]; [done|inversion 1; subst|inversion 1; subst; auto]. constructor; [auto|].
  apply Forall_forall. intros y Hy. eapply Forall_forall; [done|]. by eapply elem_of_sublist.
Qed.

(** What is left of a list of positions without one of them. *)
Lemma erase_nodup x l : NoDup l → x ∈ l → ∃ l', erase x l = Ok l' ∧ l' `sublist_of` l ∧ NoDup l' ∧ l ≡ₚ x :: l' ∧
  (∀ y, y ∈ l' ↔ y ∈ l ∧ y ≠ x) ∧ length l = S (length l').
Proof.
  intros Hn Hx. destruct (erase_ok x l Hx) as (l' & E & Hp & Hs). exists l'. pose proof Hn as Hn'. rewrite Hp in Hn'.
  apply NoDup_cons in Hn' as [Hx' Hn']. split_and!; try done; [|by rewrite Hp].
  intros y. rewrite Hp, elem_of_cons. split; [intros Hy; split; [by right|by intros ->]|by intros [[?|?] ?]].
Qed.

(** ** The invariant of a queue *)

Section Queue.
Context `{QEntry E}.

Record queue_wf (q : Queue E) : Prop := {
  qw_size : Z.of_nat (length (q_entries q)) = q_numEntries q;
  qw_nodup : NoDup (q_allocatedList q ++ q_freeList q);
  qw_all i : i ∈ q_allocatedList q ++ q_freeList q ↔ (i < length (q_entries q))%nat;
  qw_ready_nodup : NoDup (q_readyList q);
  qw_ready i : i ∈ q_readyList q ↔ i ∈ q_allocatedList q ∧ ∃ e, q_entries q !! i = Some e ∧ qe_inService e = false;
  qw_service : q_numInService q = Z.of_nat (length (q_allocatedList q)) - Z.of_nat (length (q_readyList q));
  qw_count : q_allocated q = Z.of_nat (length (q_allocatedList q));
  qw_free i e : i ∈ q_freeList q → q_entries q !! i = Some e → qe_getNumTargets e = 0%nat;
  qw_used i e : i ∈ q_allocatedList q → q_entries q !! i = Some e → qe_hasTargets e = true
}.

(** The ready list is in the order in which its entries become ready. *)
Definition in_order (q : Queue E) : Prop := StronglySorted (earlier (ready_at q)) (q_readyList q).

Lemma queue_entry_ok q i : queue_wf q → i ∈ q_allocatedList q → ∃ e, q_entries q !! i = Some e ∧ entry_at q i = Ok e ∧ qe_hasTargets e = true.
Proof.
  intros Hq Hi. destruct (lookup_lt_is_Some_2 (q_entries q) i) as [e He]; [apply (qw_all q Hq), elem_of_app; by left|].
  exists e. unfold entry_at. rewrite He. split_and!; [done|done|by apply (qw_used q Hq i)].
Qed.

Lemma ready_allocated q i : queue_wf q → i ∈ q_readyList q → i ∈ q_allocatedList q.
Proof. intros Hq Hi. by apply (qw_ready q Hq) in Hi as [? _]. Qed.

Lemma queue_new_wf num reserve e :
  0 ≤ num + reserve < 2 ^ 31 → qe_getNumTargets e = 0%nat → queue_wf (queue_new num reserve e).
Proof.
  intros Hn He. assert (i32 (num + reserve) = num + reserve) as En by (apply swrap_id; [|unfold in_s]; lia).
  split; cbn; rewrite ?En, ?length_replicate; try done; try (by constructor).
  - lia.
  - apply NoDup_seq.
  - intros i. rewrite elem_of_seq. lia.
  - intros i. split; [by intros ?%elem_of_nil|by intros [?%elem_of_nil _]].
  - intros i e' _. rewrite lookup_replicate. by intros [-> _].
  - intros i e' ?%elem_of_nil. done.
Qed.

(** Adding to the ready list always finds a place, keeps the order, and puts the entry
    behind those that are ready at the same time. *)
Lemma addToReadyList_ok i q :
  ∃ l1 l2, q_readyList q = l1 ++ l2 ∧ addToReadyList i q = Ok (with_ready (l1 ++ i :: l2) q) ∧
    (in_order q → StronglySorted (earlier (ready_at q)) (l1 ++ i :: l2) ∧ Forall (λ j, ready_at q i < ready_at q j) l2).
Proof.
  unfold addToReadyList, in_order. destruct (last (q_readyList q)) as [b|] eqn:El.
  - apply last_Some in El as [l El]. destruct (ready_at q b <=? ready_at q i) eqn:Eb.
    + exists (q_readyList q), []. rewrite app_nil_r. split_and!; [done|done|]. intros Hs. split; [|constructor].
      apply sorted_insert; [by rewrite app_nil_r| |done]. apply Z.leb_le in Eb. rewrite El in Hs |- *.
      apply Forall_app. split; [|by constructor]. clear El. induction l as [|y l IH]; [constructor|]. simpl in Hs.
      inversion Hs as [|? ? Hs' Hf]; subst. constructor; [|by apply IH]. apply Forall_app in Hf as [_ Hf].
      apply Forall_cons in Hf as [Hf _]. unfold earlier in Hf. simpl in *. lia.
    + apply Z.leb_gt in Eb. destruct (insert_before_ok (ready_at q) i (q_readyList q)) as (l1 & l2 & Es & -> & Hf & j & Hj & Hlt).
      { rewrite El. apply Exists_app. right. by constructor. }
      exists l1, l2. split_and!; [done|done|]. rewrite Es. intros Hs.
      split; [apply sorted_insert; [done|done|]; intros k Hk; rewrite Hj in Hk; injection Hk as <-; lia|].
      destruct l2 as [|k l2]; [done|]. injection Hj as ->. clear -Hs Hlt. induction l1 as [|y l1 IH]; simpl in Hs; [|inversion Hs; subst; auto].
      inversion Hs as [|? ? _ Hf]; subst. constructor; [done|]. eapply Forall_impl; [exact Hf|]. unfold earlier. intros k. simpl. lia.
  - apply last_None in El. exists [], []. rewrite El. split_and!; [done|done|]. intros _. split; [|constructor]. repeat constructor.
Qed.

Lemma lookup_other q (i j : nat) (e e' : E) :
  q_entries (with_entry i e q) !! j = Some e' → (j = i ∧ e' = e) ∨ (j ≠ i ∧ q_entries q !! j = Some e').
Proof.
  cbn. destruct (decide (j = i)) as [->|Hne]; [|rewrite list_lookup_insert_ne by done; auto].
  intros [(_ & -> & _)|(? & _)]%list_lookup_insert_Some; [by left|done].
Qed.

(** Changing an allocated entry, as long as it has targets. *)
Lemma update_wf i e e' q :
  queue_wf q → i ∈ q_allocatedList q → q_entries q !! i = Some e → qe_inService e' = qe_inService e → qe_hasTargets e' = true →
  queue_wf (with_entry i e' q).
Proof.
  intros [A1 A2 A3 A4 A5 A6 A7 A8 A9] Hi He Es Ht. pose proof (lookup_lt_Some _ _ _ He) as Hl.
  split; try done.
  - cbn. by rewrite length_insert.
  - intros j. cbn. rewrite length_insert. apply A3.
  - intros j. rewrite (A5 j). apply and_iff_compat_l. split.
    + intros (x & Hx & Hs). destruct (decide (j = i)) as [->|Hne].
      * exists e'. cbn. rewrite list_lookup_insert_eq by done. split; [done|]. congruence.
      * exists x. cbn. by rewrite list_lookup_insert_ne.
    + intros (x & [[-> ->]|[Hne Hx]]%lookup_other & Hs); [|eauto]. exists e. split; [done|congruence].
  - intros j x Hj [[-> ->]|[Hne Hx]]%lookup_other; [|by apply (A8 j)].
    apply NoDup_app in A2 as (_ & Hd & _). by destruct (Hd i Hi).
  - intros j x Hj [[-> ->]|[Hne Hx]]%lookup_other; [done|by apply (A9 j)].
Qed.

Lemma ready_at_insert i e q j : j ≠ i → ready_at (with_entry i e q) j = ready_at q j.
Proof. intros Hne. unfold ready_at. cbn. by rewrite list_lookup_insert_ne. Qed.

(** A free entry is taken and entered: it is the youngest allocated one, and ready. *)
Lemma take_free_ok q :
  queue_wf q → q_freeList q ≠ [] →
  ∃ i e free, q_freeList q = i :: free ∧ q_entries q !! i = Some e ∧ qe_getNumTargets e = 0%nat ∧ take_free q = Ok (i, e, with_free free q).
Proof.
  intros Hq Hne. unfold take_free. destruct (q_freeList q) as [|i free] eqn:Ef; [done|].
  destruct (lookup_lt_is_Some_2 (q_entries q) i) as [e He]; [apply (qw_all q Hq); rewrite Ef; apply elem_of_app; right; by left|].
  assert (qe_getNumTargets e = 0%nat) as Hn by (apply (qw_free q Hq i); [rewrite Ef; by left|done]).
  exists i, e, free. split_and!; try done. unfold entry_at. rewrite He. cbn [mbind outcome_bind]. by rewrite bool_decide_true.
Qed.

Lemma enter_ok q i free e :
  queue_wf q → q_freeList q = i :: free → qe_inService e = false → qe_hasTargets e = true →
  ∃ q', enter i e (with_free free q) = Ok q' ∧ queue_wf q' ∧ (in_order q → in_order q') ∧
    q_entries q' = <[i := e]> (q_entries q) ∧ q_allocatedList q' = q_allocatedList q ++ [i] ∧ q_freeList q' = free.
Proof.
  intros [A1 A2 A3 A4 A5 A6 A7 A8 A9] Ef Hs Ht. rewrite Ef in A2, A3, A8. unfold enter.
  set (q0 := mkQueue _ _ _ _ _ _ _ _ _). destruct (addToReadyList_ok i q0) as (l1 & l2 & El & -> & Ho). cbn [mbind outcome_bind].
  assert (i < length (q_entries q))%nat as Hl by (apply A3, elem_of_app; right; by left). cbn in El.
  apply NoDup_app in A2 as (N1 & N2 & [N3 N4]%NoDup_cons).
  assert (i ∉ q_allocatedList q) as Hna by (intros Hi; apply (N2 i Hi); by left).
  assert (i ∉ q_readyList q) as Hr by (intros [Hi _]%A5; done).
  eexists. split; [done|]. split_and!; try done.
  - split; cbn; rewrite ?length_insert; try done.
    + apply NoDup_app. split_and!; [rewrite Permutation_app_comm; by constructor| |done]. intros j [Hj|Hj%list_elem_of_singleton]%elem_of_app; [|by subst].
      intros Hf. apply (N2 j Hj). by right.
    + intros j. rewrite <-A3, !elem_of_app, list_elem_of_singleton, elem_of_cons. tauto.
    + rewrite Permutation_app_comm. cbn. rewrite El in Hr, A4. constructor; [by rewrite Permutation_app_comm|by rewrite Permutation_app_comm].
    + intros j. rewrite !elem_of_app, elem_of_cons, list_elem_of_singleton. rewrite El in A5. specialize (A5 j). rewrite elem_of_app in A5.
      destruct (decide (j = i)) as [->|Hne]; [rewrite list_lookup_insert_eq by done; naive_solver|rewrite list_lookup_insert_ne by done; tauto].
    + rewrite A6, El, !length_app. cbn. lia.
    + rewrite A7, length_app. cbn. lia.
    + intros j x Hj. rewrite list_lookup_insert_ne by (intros ->; done). apply A8. by right.
    + intros j x Hj. destruct (decide (j = i)) as [->|Hne]; [rewrite list_lookup_insert_eq by done; by intros [= <-]|].
      rewrite list_lookup_insert_ne by done. apply A9. apply elem_of_app in Hj as [?|?%list_elem_of_singleton]; done.
  - intros Hso. unfold in_order. cbn. apply Ho. unfold in_order. cbn. eapply sorted_ext; [|exact Hso].
    intros j Hj. symmetry. apply (ready_at_insert i e q). intros ->. done.
Qed.

(** The queue without an entry that is done. *)
Lemma removed_wf q i e al l n d :
  queue_wf q → i ∈ q_allocatedList q → qe_getNumTargets e = 0%nat →
  NoDup al → (∀ y, y ∈ al ↔ y ∈ q_allocatedList q ∧ y ≠ i) → length (q_allocatedList q) = S (length al) →
  NoDup l → (∀ y, y ∈ l ↔ y ∈ q_readyList q ∧ y ≠ i) → n = Z.of_nat (length al) - Z.of_nat (length l) →
  queue_wf (mkQueue (q_numEntries q) (q_numReserve q) (<[i := e]> (q_entries q)) al l (i :: q_freeList q) n (q_allocated q - 1) d).
Proof.
  intros [A1 A2 A3 A4 A5 A6 A7 A8 A9] Hi Hn Hna Hal Hla Hnl Hl ->. apply NoDup_app in A2 as (N1 & N2 & N3).
  split; cbn; rewrite ?length_insert; try done.
  - apply NoDup_app. split_and!; [done| |constructor; [by apply N2|done]]. intros j [Hj Hne]%Hal [?|?]%elem_of_cons; [done|]. by apply (N2 j).
  - intros j. rewrite <-A3, !elem_of_app, elem_of_cons, Hal. destruct (decide (j = i)) as [->|]; tauto.
  - intros j. rewrite Hl, Hal, A5. destruct (decide (j = i)) as [->|Hne]; [tauto|]. rewrite list_lookup_insert_ne by done. tauto.
  - lia.
  - intros j x [->|Hj]%elem_of_cons.
    + intros [(_ & <- & _)|[? _]]%list_lookup_insert_Some; done.
    + rewrite list_lookup_insert_ne; [by apply A8|]. intros ->. by apply (N2 j).
  - intros j x [Hj Hne]%Hal. rewrite list_lookup_insert_ne by done. by apply A9.
Qed.

(** An entry without targets left goes to the front of the free list. *)
Lemma q_deallocate_ok q i e0 e e' :
  queue_wf q → i ∈ q_allocatedList q → q_entries q !! i = Some e0 → qe_inService e = qe_inService e0 →
  qe_deallocate e = Ok e' → qe_getNumTargets e' = 0%nat →
  ∃ q', q_deallocate i (with_entry i e q) = Ok q' ∧ queue_wf q' ∧ (in_order q → in_order q') ∧
    q_entries q' = <[i := e']> (q_entries q) ∧ q_allocatedList q ≡ₚ i :: q_allocatedList q' ∧ q_freeList q' = i :: q_freeList q.
Proof.
  intros Hq Hi He Es Ed Hn. pose proof (lookup_lt_Some _ _ _ He) as Hl. pose proof (qw_nodup q Hq) as (N1 & N2 & N3)%NoDup_app.
  pose proof (qw_service q Hq) as A6. pose proof (qw_ready_nodup q Hq) as A4.
  destruct (erase_nodup i (q_allocatedList q) N1 Hi) as (al & Ea & _ & Hna & Hp & Hal & Hla).
  unfold q_deallocate, entry_at. cbn [q_entries with_entry]. rewrite list_lookup_insert_eq by done. cbn [mbind outcome_bind].
  cbn [q_allocatedList with_entry]. rewrite Ea. cbn [mbind outcome_bind].
  assert (∀ l n d, NoDup l → (∀ y, y ∈ l ↔ y ∈ q_readyList q ∧ y ≠ i) → l `sublist_of` q_readyList q → n = Z.of_nat (length al) - Z.of_nat (length l) →
    let q' := mkQueue (q_numEntries q) (q_numReserve q) (<[i := e']> (q_entries q)) al l (i :: q_freeList q) n (q_allocated q - 1) d in
    queue_wf q' ∧ (in_order q → in_order q')) as Hend.
  { intros l n d Hnl Hll Hsl ->. split; [by apply (removed_wf q i)|]. intros Ho. unfold in_order. cbn.
    eapply sorted_ext, sorted_sublist; [|exact Hsl|exact Ho]. intros j [Hj Hne]%Hll. symmetry. by apply (ready_at_insert i e' q). }
  destruct (qe_inService e) eqn:Esv; cbn [mbind outcome_bind].
  - rewrite Ed. unfold with_entry, with_numInService. cbn. rewrite list_insert_insert_eq. assert (∀ y, y ∈ q_readyList q ↔ y ∈ q_readyList q ∧ y ≠ i) as Hll.
    { intros y. split; [|by intros []]. intros Hy. split; [done|]. intros ->. apply (qw_ready q Hq) in Hy as (_ & x & Hx & Hsx). congruence. }
    destruct (_ && _); eexists; (split; [done|]); (edestruct Hend as [Hw Ho]; [exact A4|exact Hll|done| |split; [exact Hw|by split]]); lia.
  - destruct (erase_nodup i (q_readyList q) A4) as (l & El & Hsl & Hnl & _ & Hll & Hlen).
    { apply (qw_ready q Hq). split; [done|]. exists e0. by rewrite <-Es. }
    cbn [q_readyList with_entry]. rewrite El. cbn [mbind outcome_bind]. rewrite Ed. unfold with_entry, with_ready. cbn. rewrite list_insert_insert_eq.
    destruct (_ && _); eexists; (split; [done|]); (edestruct Hend as [Hw Ho]; [exact Hnl|exact Hll|exact Hsl| |split; [exact Hw|by split]]); lia.
Qed.

(** An allocated entry that joins or leaves the ready list. *)
Lemma relink_wf q i e l n d :
  queue_wf q → i ∈ q_allocatedList q → qe_hasTargets e = true →
  NoDup l → (∀ y, y ∈ l ↔ (y ∈ q_readyList q ∧ y ≠ i) ∨ (y = i ∧ qe_inService e = false)) →
  n = Z.of_nat (length (q_allocatedList q)) - Z.of_nat (length l) →
  queue_wf (mkQueue (q_numEntries q) (q_numReserve q) (<[i := e]> (q_entries q)) (q_allocatedList q) l (q_freeList q) n (q_allocated q) d).
Proof.
  intros [A1 A2 A3 A4 A5 A6 A7 A8 A9] Hi Ht Hnl Hl ->. assert (i < length (q_entries q))%nat as Hlt by (apply A3, elem_of_app; by left).
  apply NoDup_app in A2 as A2'. destruct A2' as (N1 & N2 & N3). split; cbn; rewrite ?length_insert; try done.
  - intros j. rewrite Hl, A5. destruct (decide (j = i)) as [->|Hne]; [|rewrite list_lookup_insert_ne by done; tauto].
    rewrite list_lookup_insert_eq by done. naive_solver.
  - intros j x Hj. rewrite list_lookup_insert_ne; [by apply A8|]. intros ->. by apply (N2 j).
  - intros j x Hj. destruct (decide (j = i)) as [->|Hne]; [rewrite list_lookup_insert_eq by done; by intros [= <-]|].
    rewrite list_lookup_insert_ne by done. by apply A9.
Qed.

Lemma send_ok q i e :
  queue_wf q → i ∈ q_readyList q → qe_inService e = true → qe_hasTargets e = true →
  ∃ l, erase i (q_readyList q) = Ok l ∧
    let q' := with_numInService (q_numInService q + 1) (with_ready l (with_entry i e q)) in
    queue_wf q' ∧ (in_order q → in_order q').
Proof.
  intros Hq Hi Hs Ht. destruct (erase_nodup i (q_readyList q)) as (l & El & Hsl & Hnl & _ & Hll & Hlen); [by apply qw_ready_nodup|done|].
  pose proof (qw_service q Hq). exists l. split; [done|]. split.
  - apply (relink_wf q i e); try done; [by apply ready_allocated| |cbn; lia]. intros y. rewrite Hll, Hs. naive_solver.
  - intros Ho. eapply sorted_ext, sorted_sublist; [|exact Hsl|exact Ho]. intros j [Hj Hne]%Hll. symmetry. by apply (ready_at_insert i e q).
Qed.

Lemma pend_ok q i e0 e :
  queue_wf q → i ∈ q_allocatedList q → q_entries q !! i = Some e0 → qe_inService e0 = true → qe_inService e = false → qe_hasTargets e = true →
  ∃ q', addToReadyList i (with_numInService (q_numInService q - 1) (with_entry i e q)) = Ok q' ∧ queue_wf q' ∧ (in_order q → in_order q') ∧
    q_entries q' = <[i := e]> (q_entries q) ∧ q_allocatedList q' = q_allocatedList q ∧ q_freeList q' = q_freeList q.
Proof.
  intros Hq Hi He0 Hs0 Hs Ht. set (q0 := with_numInService _ _). destruct (addToReadyList_ok i q0) as (l1 & l2 & El & -> & Ho). cbn in El.
  pose proof (qw_service q Hq) as A6. pose proof (qw_ready_nodup q Hq) as A4.
  assert (i ∉ q_readyList q) as Hr by (intros (_ & x & Hx & Hsx)%(qw_ready q Hq); congruence).
  eexists. split; [done|]. split_and!; try done.
  - apply (relink_wf q i e); try done.
    + rewrite Permutation_app_comm. cbn. rewrite El in Hr, A4. constructor; by rewrite Permutation_app_comm.
    + intros y. rewrite El, !elem_of_app, elem_of_cons, Hs. rewrite El, elem_of_app in Hr. destruct (decide (y = i)) as [->|]; naive_solver.
    + rewrite length_app. cbn. rewrite A6, El, length_app. lia.
  - intros Hso. apply Ho. unfold in_order. cbn. eapply sorted_ext; [|exact Hso].
    intros j Hj. symmetry. apply (ready_at_insert i e q). by intros ->.
Qed.

(** Every entry is counted. *)
Lemma queue_total q : queue_wf q → q_numEntries q = q_allocated q + Z.of_nat (length (q_freeList q)).
Proof.
  intros Hq. rewrite <-(qw_size q Hq), (qw_count q Hq), <-Nat2Z.inj_add, <-length_app. f_equal.
  assert (q_allocatedList q ++ q_freeList q ≡ₚ seq 0 (length (q_entries q))) as ->; [|by rewrite length_seq].
  apply NoDup_Permutation; [by apply qw_nodup|apply NoDup_seq|]. intros i. rewrite (qw_all q Hq), elem_of_seq. lia.
Qed.
End Queue.

(** ** The miss queue *)

Section Miss.
Context (bs : Z) (Hbs : 0 ≤ bs).

(** The registers in use satisfy their own invariant. *)
Definition mq_wf (q : MSHRQueue) : Prop :=
  queue_wf q ∧ ∀ i m, i ∈ q_allocatedList q → q_entries q !! i = Some m → mshr_wf bs m.

Abbreviation held := (λ m, requests (contents m)).

(** The requests the queue still holds. *)
Definition outstanding (q : MSHRQueue) : list nat := concat (held <$> q_entries q).

Lemma outstanding_insert (q q' : MSHRQueue) i m m' :
  q_entries q !! i = Some m → q_entries q' = <[i := m']> (q_entries q) → outstanding q' ++ held m ≡ₚ outstanding q ++ held m'.
Proof.
  intros Hi E. unfold outstanding. rewrite E. pose proof (lookup_lt_Some _ _ _ Hi) as Hl. rewrite insert_take_drop by done.
  rewrite <-(take_drop_middle _ _ _ Hi) at 3. rewrite !fmap_app, !fmap_cons, !concat_app. cbn [concat]. solve_Permutation.
Qed.

Lemma no_targets m : getNumTargets m = 0%nat → contents m = [].
Proof. unfold getNumTargets. intros E. apply nil_length_inv. unfold contents. rewrite length_app. lia. Qed.

Lemma has_targets m : hasTargets m = true ↔ tl_targets (targets m) ≠ [].
Proof. unfold hasTargets. apply bool_decide_eq_true. Qed.

(** What becomes of the queue when the register at [i] becomes [m']. *)
Lemma mq_change (q q' : MSHRQueue) i m m' served new :
  mq_wf q → queue_wf q' → q_entries q !! i = Some m → q_entries q' = <[i := m']> (q_entries q) → mshr_wf bs m' →
  (∀ j, j ∈ q_allocatedList q' → j ≠ i → j ∈ q_allocatedList q) →
  requests served ++ held m' = held m ++ new →
  mq_wf q' ∧ requests served ++ outstanding q' ≡ₚ outstanding q ++ new.
Proof.
  intros [Hq Hw] Hq' Hi E Hm' Hal Er. split.
  - split; [done|]. intros j x Hj. rewrite E. destruct (decide (j = i)) as [->|Hne].
    + rewrite list_lookup_insert_eq by by eapply lookup_lt_Some. by intros [= <-].
    + rewrite list_lookup_insert_ne by done. apply Hw. by apply Hal.
  - apply (Permutation_app_inv_r (held m)). rewrite <-!app_assoc, (outstanding_insert q q' i m m' Hi E).
    rewrite (Permutation_app_comm new), <-Er. solve_Permutation.
Qed.

(** A register is in use exactly when it holds a request. *)
Lemma held_used m : mshr_wf bs m → held m ≠ [] ↔ hasTargets m = true.
Proof.
  intros Hw. rewrite has_targets. split.
  - intros Hh E. apply Hh. unfold contents. by rewrite E, (mw_live bs m Hw E).
  - intros Hne. destruct (wf_front bs m Hw Hne) as (t & Ef & _ & Ht). unfold front, contents in *.
    destruct (tl_targets (targets m)) as [|t' ts]; [done|]. injection Ef as ->. cbn [app]. rewrite requests_cons. unfold is_req. by rewrite bool_decide_false.
Qed.

(** New targets and snoops change neither when a register is ready nor whether it was sent. *)
Definition same_schedule (m m' : MSHR) : Prop := readyTime m' = readyTime m ∧ inService m' = inService m.

Lemma allocateTarget_schedule w tick pkt ready order alloc m w' m' :
  allocateTarget w tick pkt ready order alloc m = Ok (w', m') → same_schedule m m'.
Proof.
  unfold allocateTarget. intros E. apply outcome_bind_ok in E as (_ & _ & E). apply outcome_bind_ok in E as (d & _ & E). destruct d.
  - do 2 apply outcome_bind_ok in E as (? & _ & E). apply outcome_bind_ok in E as ([? ?] & _ & E). by injection E as _ <-.
  - apply outcome_bind_ok in E as ([? ?] & _ & E). by injection E as _ <-.
Qed.

Lemma snoop_after_schedule w tick id pkt order nw m r :
  snoop_after w tick id pkt order nw m = Ok r → same_schedule m r.2.
Proof.
  unfold snoop_after. intros E. apply outcome_bind_ok in E as (ds & _ & E). do 2 apply outcome_bind_ok in E as (? & _ & E).
  if_in E; [by injection E as <-|]. apply outcome_bind_ok in E as (respond & _ & E).
  apply outcome_bind_ok in E as ([[p w1] m1] & E1 & E). assert (same_schedule m m1) as Hs.
  { if_in E1; [|by injection E1 as _ _ <-]. do 2 apply outcome_bind_ok in E1 as (? & _ & E1).
    apply outcome_bind_ok in E1 as ([? ?] & _ & E1). by injection E1 as _ _ <-. }
  if_in E; by injection E as <-.
Qed.

Lemma handleSnoop_schedule w tick id pkt order m r :
  handleSnoop w tick id pkt order m = Ok r → same_schedule m r.2.
Proof.
  unfold handleSnoop. intros E. do 2 apply outcome_bind_ok in E as (? & _ & E). if_in E; [|by eapply snoop_after_schedule].
  if_in E; [|by injection E as <-]. do 2 apply outcome_bind_ok in E as (? & _ & E). by injection E as <-.
Qed.

Lemma update_order i m m' (q : MSHRQueue) :
  q_entries q !! i = Some m → readyTime m' = readyTime m → in_order q → in_order (with_entry i m' q).
Proof.
  intros Hi Hr. unfold in_order. cbn. apply sorted_ext. intros j _. unfold ready_at. cbn.
  destruct (decide (j = i)) as [->|Hne]; [|by rewrite list_lookup_insert_ne].
  rewrite list_lookup_insert_eq, Hi by by eapply lookup_lt_Some. cbn. by rewrite Hr.
Qed.

(** A change of one register that is not sent, answered or delayed. *)
Lemma mq_update q i m m' new :
  mq_wf q → i ∈ q_allocatedList q → q_entries q !! i = Some m → mshr_wf bs m' → same_schedule m m' → held m' = held m ++ new →
  mq_wf (with_entry i m' q) ∧ outstanding (with_entry i m' q) ≡ₚ outstanding q ++ new ∧ (in_order q → in_order (with_entry i m' q)).
Proof.
  intros Hw Hi Hm Hm' [Hr Hs] Eh. pose proof Hw as [Hq Hwf].
  assert (hasTargets m' = true) as Ht.
  { apply (held_used m' Hm'). rewrite Eh. pose proof (qw_used q Hq i m Hi Hm) as Hu. apply (held_used m (Hwf i m Hi Hm)) in Hu. by intros [? _]%app_eq_nil. }
  assert (queue_wf (with_entry i m' q)) as Hq' by (eapply update_wf; [exact Hq|exact Hi|exact Hm|exact Hs|exact Ht]).
  destruct (mq_change q (with_entry i m' q) i m m' [] new) as [H1 H2]; try done. split_and!; try done.
  intros Ho. by eapply update_order.
Qed.

(** The register at an allocated position. *)
Lemma mq_entry q i : mq_wf q → i ∈ q_allocatedList q →
  ∃ m, q_entries q !! i = Some m ∧ entry_at q i = Ok m ∧ mshr_wf bs m ∧ tl_targets (targets m) ≠ [].
Proof.
  intros [Hq Hw] Hi. destruct (queue_entry_ok q i Hq Hi) as (m & Hm & E & Ht). exists m. split_and!; try done; [by apply (Hw i)|by apply has_targets].
Qed.

Lemma mq_allocate_ok w tick addr pkt ready order alloc q :
  mq_wf q → pkt_ok bs pkt → q_freeList q ≠ [] →
  ∃ i q', mq_allocate w tick addr bs pkt ready order alloc q = Ok (i, w, q') ∧ mq_wf q' ∧ (in_order q → in_order q') ∧
    outstanding q' ≡ₚ outstanding q ++ [mp_id pkt].
Proof.
  intros Hw Hp Hf. pose proof Hw as [Hq Hwf]. destruct (take_free_ok q Hq Hf) as (i & m & free & Ef & Hm & Hn & Et).
  unfold mq_allocate. rewrite Et. run_ok.
  destruct (mshr_allocate_ok bs w tick addr pkt ready order alloc m Hbs) as (m' & Ea & Hw' & Eh & Ht); [by apply no_targets|done|]. rewrite Ea. run_ok.
  assert (inService m' = false) as Hs.
  { unfold mshr_allocate in Ea. apply outcome_bind_ok in Ea as ([? ?] & _ & Ea). do 2 apply outcome_bind_ok in Ea as (? & _ & Ea). by injection Ea as _ <-. }
  destruct (enter_ok q i free m' Hq Ef Hs Ht) as (q' & E & Hq' & Ho & Ee & Eal & _). rewrite E. run_ok. exists i, q'. split; [done|].
  destruct (mq_change q q' i m m' [] [mp_id pkt] Hw Hq' Hm Ee Hw') as [H1 H2]; [|cbv beta; by rewrite Eh, (no_targets m Hn)|by split].
  intros j. rewrite Eal. by intros [?|?%list_elem_of_singleton]%elem_of_app.
Qed.

Lemma mq_send_ok w pm i q :
  mq_wf q → i ∈ q_readyList q →
  ∃ q', mq_markInService w pm i q = Ok (w, q') ∧ mq_wf q' ∧ (in_order q → in_order q') ∧ outstanding q' ≡ₚ outstanding q.
Proof.
  intros Hw Hi. pose proof Hw as [Hq _]. destruct (mq_entry q i Hw (ready_allocated q i Hq Hi)) as (m & Hm & E & Hwm & Hne).
  apply (qw_ready q Hq) in Hi as Hi'. destruct Hi' as (_ & m0 & Hm0 & Hs). rewrite Hm in Hm0. injection Hm0 as <-.
  destruct (markInService_ok bs w pm m Hwm Hne Hs) as (m' & Em & Hw' & Ec & Hs' & Hne'). unfold mq_markInService. rewrite E. run_ok. rewrite Em. run_ok.
  destruct (send_ok q i m' Hq Hi Hs') as (l & El & Hq' & Ho); [by apply has_targets|]. rewrite El. run_ok. eexists. split; [done|].
  destruct (mq_change q _ i m m' [] [] Hw Hq' Hm eq_refl Hw') as [H1 H2]; [done|cbv beta; by rewrite Ec, app_nil_r|].
  split; [done|]. split; [done|]. by rewrite app_nil_r in H2.
Qed.

Lemma mq_response_ok w tick resp readable writable i q :
  mq_wf q → i ∈ q_allocatedList q → i ∉ q_readyList q →
  ∃ served q', mq_response w tick resp readable writable i q = Ok (served, w, q') ∧ mq_wf q' ∧ (in_order q → in_order q') ∧
    requests served ++ outstanding q' ≡ₚ outstanding q ∧ requests served ≠ [].
Proof.
  intros Hw Hi Hnr. pose proof Hw as [Hq _]. destruct (mq_entry q i Hw Hi) as (m & Hm & E & Hwm & Hne).
  assert (inService m = true) as Hs.
  { destruct (inService m) eqn:Es; [done|]. destruct Hnr. apply (qw_ready q Hq). eauto. }
  unfold mq_response. rewrite E. run_ok.
  destruct (receive_ok bs tick resp readable writable w m Hwm Hne Hs) as (served & more & rs & m1 & -> & [Hs1 Hfin] & Er & Hsv). run_ok.
  pose proof (lookup_lt_Some _ _ _ Hm) as Hl. destruct more.
  - destruct Hfin as (Hw1 & Hne1 & Eh). unfold mq_markPending, entry_at. cbn [q_entries with_entry]. rewrite list_lookup_insert_eq by done.
    cbn [mbind outcome_bind]. rewrite Hs1. cbn [assert_that mbind outcome_bind q_numInService with_entry].
    destruct (pend_ok q i m (with_inService false m1) Hq Hi Hm Hs eq_refl) as (q' & E' & Hq' & Ho & Ee & Eal & _); [by apply has_targets|].
    assert (with_entry i (with_inService false m1) (with_entry i m1 q) = with_entry i (with_inService false m1) q) as ->
      by (unfold with_entry; cbn; by rewrite list_insert_insert_eq).
    rewrite E'. run_ok. exists served, q'. split; [done|].
    destruct (mq_change q q' i m (with_inService false m1) served [] Hw Hq' Hm Ee Hw1) as [H1 H2]; [by rewrite Eal| |].
    { cbv beta. change (contents (with_inService false m1)) with (contents m1). by rewrite Eh, Er, app_nil_r. }
    rewrite app_nil_r in H2. done.
  - destruct Hfin as (-> & m' & Ed & Hw' & Ec & Hs').
    destruct (q_deallocate_ok q i m m1 m' Hq Hi Hm) as (q' & E' & Hq' & Ho & Ee & Eal & _); [cbn; congruence|done| |].
    { cbn. unfold getNumTargets. unfold contents in Ec. apply app_eq_nil in Ec as [-> ->]. done. }
    rewrite E'. run_ok. exists served, q'. split; [done|].
    destruct (mq_change q q' i m m' served [] Hw Hq' Hm Ee Hw') as [H1 H2]; [|cbv beta; rewrite Ec, (app_nil_r (held m)); exact Er|].
    { intros j Hj _. rewrite Eal. by right. }
    rewrite app_nil_r in H2. done.
Qed.

(** [delay] moves nothing: the search starts at the delayed entry, which is ready no later
    than itself. *)
Lemma split_at_ok x l : x ∈ l → ∃ before after, split_at x l = Some (before, x :: after) ∧ l = before ++ x :: after.
Proof.
  induction l as [|y l IH]; [by intros ?%elem_of_nil|]. intros Hx. simpl. case_decide as Hxy.
  - subst. by exists [], l.
  - apply elem_of_cons in Hx as [?|Hx]; [done|]. destruct (IH Hx) as (b & a & -> & ->). by exists (y :: b), a.
Qed.

Lemma mq_delay_eq (q : MSHRQueue) tick d i m :
  q_entries q !! i = Some m → i ∈ q_readyList q → readyTime m ≤ tick →
  mq_delay tick d i q = Ok (with_entry i (with_schedule (u64 (tick + d)) (m_order m) m) q).
Proof.
  intros Hm Hi Hr. unfold mq_delay, entry_at, mshr_delay. rewrite Hm. cbn [mbind outcome_bind]. rewrite (proj2 (Z.leb_le _ _)) by done.
  cbn [assert_that mbind outcome_bind]. destruct (split_at_ok i (q_readyList q) Hi) as (b & a & Es & El). cbn [q_readyList with_entry].
  rewrite Es. cbn [find_no_later]. unfold ready_at at 1. cbn [q_entries with_entry]. rewrite list_lookup_insert_eq by by eapply lookup_lt_Some.
  cbn [from_option fmap option_fmap option_map qe_readyTime mshr_entry readyTime with_schedule]. rewrite Z.leb_refl. cbn [splice].
  rewrite <-El. unfold with_ready. by destruct q.
Qed.

Lemma schedule_wf ready order m : mshr_wf bs m → mshr_wf bs (with_schedule ready order m).
Proof. intros []. by split. Qed.

Lemma mq_delay_ok tick d i q :
  mq_wf q → i ∈ q_readyList q → ready_at q i ≤ tick →
  ∃ q', mq_delay tick d i q = Ok q' ∧ mq_wf q' ∧ outstanding q' ≡ₚ outstanding q.
Proof.
  intros Hw Hi Hr. pose proof Hw as [Hq Hwf]. apply (ready_allocated q i Hq) in Hi as Ha. destruct (mq_entry q i Hw Ha) as (m & Hm & _ & Hwm & Hne).
  unfold ready_at in Hr. rewrite Hm in Hr. rewrite (mq_delay_eq q tick d i m) by done. eexists. split; [done|].
  assert (queue_wf (with_entry i (with_schedule (u64 (tick + d)) (m_order m) m) q)) as Hq'
    by (eapply update_wf; [exact Hq|exact Ha|exact Hm|done|by apply has_targets]).
  destruct (mq_change q _ i m _ [] [] Hw Hq' Hm eq_refl (schedule_wf (u64 (tick + d)) (m_order m) m Hwm)) as [H1 H2];
    [done|cbv beta; by rewrite app_nil_r|]. rewrite app_nil_r in H2. done.
Qed.

(** *** Histories *)

Definition mq_op_ok (op : MqOp) : Prop :=
  match op with
  | QAlloc _ pkt _ _ _ => pkt_ok bs pkt
  | QTarget _ pkt _ _ _ => pkt_ok bs pkt ∧ mp_cmd pkt ≠ HardPFReq
  | QSnoop _ _ pkt _ => snoop_ok pkt
  | _ => True
  end.

Definition mq_arrival (op : MqOp) : list nat :=
  match op with QAlloc _ pkt _ _ _ | QTarget _ pkt _ _ _ => [mp_id pkt] | _ => [] end.

Definition is_delay (op : MqOp) : bool := match op with QDelay _ _ => true | _ => false end.

Lemma mq_step_ok tick op w q :
  mq_wf q → mq_op_ok op → mq_enabled tick op q = true →
  ∃ served q', mq_step bs tick op w q = Ok (served, w, q') ∧ mq_wf q' ∧ (is_delay op = false → in_order q → in_order q') ∧
    requests served ++ outstanding q' ≡ₚ outstanding q ++ mq_arrival op.
Proof.
  intros Hw Hop Hen. destruct op as [addr pkt ready order alloc|i pkt ready order alloc|i pm|i d|i id pkt order|i resp r wr]; cbn [mq_enabled mq_step mq_arrival] in *.
  - apply bool_decide_eq_true in Hen. destruct (mq_allocate_ok w tick addr pkt ready order alloc q Hw Hop Hen) as (i & q' & -> & ? & ? & ?). run_ok.
    by eexists [], _.
  - apply bool_decide_eq_true in Hen. destruct Hop as [Hp Hc]. destruct (mq_entry q i Hw Hen) as (m & Hm & -> & Hwm & Hne). run_ok.
    destruct (allocateTarget_ok bs w tick pkt ready order alloc m Hwm Hne Hp Hc) as (m' & E & Hw' & Eh).
    apply allocateTarget_schedule in E as Hs. rewrite E. run_ok. destruct (mq_update q i m m' [mp_id pkt] Hw Hen Hm Hw' Hs Eh) as (? & ? & ?).
    by eexists [], _.
  - apply bool_decide_eq_true in Hen. destruct (mq_send_ok w pm i q Hw Hen) as (q' & -> & ? & ? & ?). run_ok. eexists [], _. by rewrite app_nil_r.
  - apply andb_prop in Hen as [Hi Hr]. apply bool_decide_eq_true in Hi. apply Z.leb_le in Hr.
    destruct (mq_delay_ok tick d i q Hw Hi Hr) as (q' & -> & ? & ?). run_ok. eexists [], _. by rewrite app_nil_r.
  - apply bool_decide_eq_true in Hen. destruct (mq_entry q i Hw Hen) as (m & Hm & -> & Hwm & Hne). run_ok.
    destruct (handleSnoop_ok bs w tick id pkt order m Hwm Hne Hop) as (b & p & m' & E & Hw' & Eh).
    apply handleSnoop_schedule in E as Hs. rewrite E. run_ok.
    destruct (mq_update q i m m' [] Hw Hen Hm Hw' Hs) as (? & ? & ?); [cbv beta; by rewrite app_nil_r|]. by eexists [], _.
  - apply andb_prop in Hen as [Hi Hr]. apply bool_decide_eq_true in Hi. apply bool_decide_eq_true in Hr.
    destruct (mq_response_ok w tick resp r wr i q Hw Hi Hr) as (served & q' & -> & ? & ? & ? & _). eexists _, _. by rewrite app_nil_r.
Qed.

(** The requests of the operations that happen. *)
Fixpoint mq_accepted (ops : list (Z * MqOp)) (w : Upstream) (q : MSHRQueue) : list nat :=
  match ops with
  | [] => []
  | (tick, op) :: ops =>
      if mq_enabled tick op q then
        match mq_step bs tick op w q with Ok (_, w, q) => mq_arrival op ++ mq_accepted ops w q | Stop _ => [] end
      else mq_accepted ops w q
  end.

Lemma mq_run_ok ops w q :
  mq_wf q → Forall (λ op, mq_op_ok op.2) ops →
  ∃ served q', mq_run bs ops w q = Ok (served, w, q') ∧ mq_wf q' ∧
    (Forall (λ op, is_delay op.2 = false) ops → in_order q → in_order q') ∧
    requests served ++ outstanding q' ≡ₚ outstanding q ++ mq_accepted ops w q.
Proof.
  intros Hw Hops. revert q Hw. induction Hops as [|[tick op] ops Hop _ IH]; intros q Hw; [exists [], q; by rewrite app_nil_r|].
  cbn [mq_run mq_accepted]. destruct (mq_enabled tick op q) eqn:Een.
  - destruct (mq_step_ok tick op w q Hw Hop Een) as (s1 & q1 & -> & Hw1 & Ho1 & Er1). run_ok.
    destruct (IH q1 Hw1) as (s2 & q2 & -> & Hw2 & Ho2 & Er2). run_ok. exists (s1 ++ s2), q2. split; [done|]. split; [done|]. split.
    + intros [Hd Hds]%Forall_cons Ho. auto.
    + by rewrite requests_app, <-app_assoc, Er2, !app_assoc, Er1.
  - destruct (IH q Hw) as (s2 & q2 & -> & Hw2 & Ho2 & Er2). exists s2, q2. split; [done|]. split; [done|]. split; [|done]. intros [_ Hds]%Forall_cons. auto.
Qed.

Lemma mshr_queue_new_wf n reserve : 0 ≤ n + reserve < 2 ^ 31 → mq_wf (mshr_queue_new n reserve) ∧ outstanding (mshr_queue_new n reserve) = [].
Proof.
  intros Hn. split.
  - split; [by apply queue_new_wf|]. intros i m Hi. cbn in Hi. by apply elem_of_nil in Hi.
  - unfold outstanding. cbn. generalize (Z.to_nat (i32 (n + reserve))). intros k. induction k as [|k IH]; [done|]. cbn. exact IH.
Qed.


(** The next entry is the earliest.  As long as no register is delayed the ready list
    stays sorted, so the entry that [getNext] returns is ready and no entry that waits is
    ready earlier; and when it returns none, none is ready. *)
Theorem next_is_earliest n reserve ops w tick :
  0 ≤ n + reserve < 2 ^ 31 → Forall (λ op, mq_op_ok op.2) ops → Forall (λ op, is_delay op.2 = false) ops →
  ∃ served q, mq_run bs ops w (mshr_queue_new n reserve) = Ok (served, w, q) ∧
    match getNext tick q with
    | Some i => i ∈ q_readyList q ∧ ready_at q i ≤ tick ∧ ∀ j, j ∈ q_readyList q → ready_at q i ≤ ready_at q j
    | None => ∀ j, j ∈ q_readyList q → tick < ready_at q j
    end.
Proof.
  intros Hn Hops Hd. destruct (mshr_queue_new_wf n reserve Hn) as [Hw0 E0].
  destruct (mq_run_ok ops w _ Hw0 Hops) as (served & q & E & _ & Ho & _). exists served, q. split; [done|].
  assert (in_order q) as Hs by (apply Ho; [done|]; constructor). unfold getNext, in_order in *.
  destruct (q_readyList q) as [|i l]; [by intros j ?%elem_of_nil|]. apply StronglySorted_inv in Hs as [_ Hf]. rewrite Forall_forall in Hf. unfold earlier in Hf.
  destruct (tick <? ready_at q i) eqn:Et.
  - apply Z.ltb_lt in Et. intros j [->|Hj]%elem_of_cons; [done|]. specialize (Hf j Hj). lia.
  - apply Z.ltb_ge in Et. split; [by left|]. split; [done|]. intros j [->|Hj]%elem_of_cons; [done|by apply Hf].
Qed.

(** The sizes never change. *)
Lemma mq_allocate_sizes w tick addr pkt ready order alloc (q q' : MSHRQueue) i w' :
  mq_allocate w tick addr bs pkt ready order alloc q = Ok (i, w', q') →
  q_numEntries q' = q_numEntries q ∧ q_numReserve q' = q_numReserve q ∧ q_allocated q' = q_allocated q + 1.
Proof.
  unfold mq_allocate, take_free. intros E. apply outcome_bind_ok in E as ([[j m] q1] & E1 & E). destruct (q_freeList q) as [|k free]; [done|].
  do 2 apply outcome_bind_ok in E1 as (? & _ & E1). injection E1 as -> -> <-. apply outcome_bind_ok in E as ([w1 m1] & _ & E).
  apply outcome_bind_ok in E as (q2 & E2 & E). injection E as _ _ <-. unfold enter in E2. apply outcome_bind_ok in E2 as (q3 & E3 & E2).
  unfold addToReadyList in E3. apply outcome_bind_ok in E3 as (l & _ & E3). injection E3 as <-. injection E2 as <-. done.
Qed.

(** A prefetch never takes the last registers.  When the cache may prefetch, there is a
    free register; after the prefetch has taken it the queue is still not full, so the cache
    does not block, and the registers reserved for demand misses and the overflow reserve
    are still free, and one more. *)
Theorem prefetch_leaves_room w tick addr pkt order alloc demandReserve q :
  mq_wf q → pkt_ok bs pkt → 0 ≤ demandReserve → 0 ≤ q_numReserve q → q_numReserve q + 1 + demandReserve < 2 ^ 31 → q_numEntries q < 2 ^ 31 →
  canPrefetch demandReserve q = true →
  ∃ i q', mq_allocate w tick addr bs pkt tick order alloc q = Ok (i, w, q') ∧ mq_wf q' ∧ q_isFull q' = false ∧
    q_numReserve q + demandReserve + 1 ≤ Z.of_nat (length (q_freeList q')).
Proof.
  intros Hw Hp Hd Hr Ho Hn Hc. pose proof Hw as [Hq _]. pose proof (qw_size q Hq) as Hsz. pose proof (qw_count q Hq) as Hct.
  pose proof (queue_total q Hq) as Hfree. unfold canPrefetch in Hc. apply Z.ltb_lt in Hc.
  rewrite (swrap_id 32 (q_numReserve q + 1 + demandReserve)) in Hc by (unfold in_s; lia). rewrite swrap_id in Hc by (unfold in_s; lia).
  destruct (mq_allocate_ok w tick addr pkt tick order alloc q Hw Hp) as (i & q' & E & Hw' & _).
  { intros Ef. rewrite Ef in Hfree. cbn in Hfree. lia. }
  exists i, q'. split; [done|]. split; [done|]. apply mq_allocate_sizes in E as (E1 & E2 & E3). destruct Hw' as [Hq' _].
  pose proof (queue_total q' Hq') as Hfree'. split; [|lia]. unfold q_isFull. apply Z.leb_gt. rewrite swrap_id by (unfold in_s; lia). lia.
Qed.
End Miss.

(** Delaying a register moves nothing.  [delay] is meant to move the registers that are
    ready earlier before the delayed one, but its search starts at the register itself: the
    ready list is the same afterwards, only the register's ready time is later. *)
Theorem delay_keeps_position (q : MSHRQueue) tick d i m :
  q_entries q !! i = Some m → i ∈ q_readyList q → readyTime m ≤ tick →
  ∃ q', mq_delay tick d i q = Ok q' ∧ q_readyList q' = q_readyList q ∧ ready_at q' i = u64 (tick + d).
Proof.
  intros Hm Hi Hr. rewrite (mq_delay_eq q tick d i m) by done. eexists. split; [done|]. split; [done|].
  unfold ready_at. cbn. by rewrite list_lookup_insert_eq by by eapply lookup_lt_Some.
Qed.

(** ** Examples *)

(** Two misses; the second one is sent, gets another request, and is answered. *)
Definition ex_history : list (Z * MqOp) :=
  [(1, QAlloc 0x1000 (ex_pkt WriteReq 0 8 1) 5 1 true); (2, QAlloc 0x1000 (ex_pkt ReadReq 0 8 2) 3 2 true);
   (3, QSend 1 false); (4, QTarget 1 (ex_pkt ReadReq 0 8 3) 4 3 true); (5, QResp 1 ReadResp true false)].

Lemma ex_history_ok : Forall (λ op, mq_op_ok 64 op.2) ex_history.
Proof. repeat apply Forall_cons_2; [by apply ex_target_ok|by apply ex_target_ok|done|split; [by apply ex_target_ok|done]|done|]. apply Forall_nil_2. Qed.

Example ex_history_run : ∃ served q, mq_run 64 ex_history ∅ (mshr_queue_new 4 2) = Ok (served, ∅, q) ∧
  requests served = [2; 3]%nat ∧ outstanding q = [1]%nat ∧ q_readyList q = [0]%nat ∧ q_freeList q = [1; 2; 3; 4; 5]%nat.
Proof. eexists _, _. split; [by vm_compute|]. by vm_compute. Qed.


Lemma next_is_earliest_witness : ∃ served q,
  mq_run 64 ex_history ∅ (mshr_queue_new 4 2) = Ok (served, ∅, q) ∧
  match getNext 6 q with
  | Some i => i ∈ q_readyList q ∧ ready_at q i ≤ 6 ∧ ∀ j, j ∈ q_readyList q → ready_at q i ≤ ready_at q j
  | None => ∀ j, j ∈ q_readyList q → 6 < ready_at q j
  end.
Proof.
  apply (next_is_earliest 64 ltac:(lia) 4 2 ex_history ∅ 6); [lia|apply ex_history_ok|].
  by apply (bool_decide_unpack _).
Defined.

Lemma prefetch_leaves_room_witness : ∃ i q',
  mq_allocate ∅ 1 0x1000 64 (ex_pkt HardPFReq 0 8 1) 1 1 false (mshr_queue_new 4 2) = Ok (i, ∅, q') ∧ mq_wf 64 q' ∧ q_isFull q' = false ∧
  q_numReserve (mshr_queue_new 4 2) + 1 + 1 ≤ Z.of_nat (length (q_freeList q')).
Proof.
  apply (prefetch_leaves_room 64 ltac:(lia) ∅ 1 0x1000 (ex_pkt HardPFReq 0 8 1) 1 false 1 (mshr_queue_new 4 2)).
  - apply mshr_queue_new_wf. lia.
  - split; [done|by apply (bool_decide_unpack _)|done|done|by vm_compute; split].
  - lia.
  - by vm_compute.
  - by vm_compute.
  - by vm_compute.
  - reflexivity.
Defined.

(** The ready list of two misses, of which the first is delayed. *)
Definition delay_history : list (Z * MqOp) :=
  [(1, QAlloc 0x1000 (ex_pkt WriteReq 0 8 1) 1 1 true); (2, QAlloc 0x1000 (ex_pkt ReadReq 0 8 2) 2 2 true); (3, QDelay 0 100)].

(** The second miss is ready, and is not sent until the first one is. *)
Example delayed_head_blocks : ∃ q, mq_run 64 delay_history ∅ (mshr_queue_new 4 2) = Ok ([], ∅, q) ∧
  q_readyList q = [0; 1]%nat ∧ ready_at q 0 = 103 ∧ ready_at q 1 = 2 ∧ getNext 50 q = None ∧ nextReadyTime q = 103.
Proof. eexists. split; [by vm_compute|]. by vm_compute. Qed.

Definition two_misses : MSHRQueue := (the_result (mq_run 64 (take 2 delay_history) ∅ (mshr_queue_new 4 2)) eq_refl).2.

Lemma delay_keeps_position_witness : ∃ q',
  mq_delay 3 100 0 two_misses = Ok q' ∧ q_readyList q' = q_readyList two_misses ∧ ready_at q' 0 = 3 + 100.
Proof.
  eapply (delay_keeps_position two_misses 3 100 0); [reflexivity|by apply (bool_decide_unpack _)|by vm_compute].
Defined.
