(* ===== verification/CacheBlk.v ===== *)
(** * Cache blocks (src/src/mem/cache/cache_blk.{hh,cc})

    A block is a tagged entry with its coherence bits, its bookkeeping and the list of
    load-locked reservations on it.  The payload is not modelled. *)

From Stdlib Require Import ZArith Lia Ascii.
From stdpp Require Import base numbers option list strings.
From S2P Require Import Prelude PrefetchBase Replacement Indexing AssocCache.
#[local] Open Scope Z_scope.

(** [enum CoherenceBits] *)
Definition WritableBit : Z := 2.
Definition ReadableBit : Z := 4.
Definition DirtyBit : Z := 8.
Definition AllBits : Z := 14.

(** ** Locks *)

Record Lock := mkLock { contextId : Z; lowAddr : Z; highAddr : Z }.

(** The first and the last byte of a request; [req_low + size - 1] is 64 bits wide. *)
Definition req_low (req : Request) : outcome Z := get_valid (req_paddr req) "hasPaddr()".
Definition last_byte (low size : Z) : Z := u64 (low + size - 1).

Definition matches (l : Lock) (req : Request) : outcome bool :=
  low ← req_low req;
  let high := last_byte low (req_size req) in
  ctx ← get_valid (req_contextId req) "hasContextId()";
  Ok ((contextId l =? ctx) && (lowAddr l <=? low) && (high <=? highAddr l)).

Definition intersects (l : Lock) (req : Request) : outcome bool :=
  low ← req_low req;
  let high := last_byte low (req_size req) in
  Ok ((low <=? highAddr l) && (lowAddr l <=? high)).

(** The constructor. *)
Definition new_lock (req : Request) : outcome Lock :=
  ctx ← get_valid (req_contextId req) "hasContextId()";
  low ← req_low req;
  Ok (mkLock ctx low (last_byte low (req_size req))).

(** The loops that erase the locks a test holds for. *)
Fixpoint erase_locks (test : Lock → outcome bool) (ls : list Lock) : outcome (list Lock) :=
  match ls with
  | [] => Ok []
  | l :: ls =>
      b ← test l;
      ls ← erase_locks test ls;
      Ok (if (b : bool) then ls else l :: ls)
  end.

(** The search of a store conditional: the list without its first match, if it has
    one. *)
Fixpoint take_match (req : Request) (ls : list Lock) : outcome (bool * list Lock) :=
  match ls with
  | [] => Ok (false, [])
  | l :: ls =>
      b ← matches l req;
      if (b : bool) then Ok (true, ls)
      else '(s, ls) ← take_match req ls; Ok (s, l :: ls)
  end.

(** ** Blocks *)

Record CacheBlk := mkBlk {
  b_entry : TaggedEntry;
  coherence : Z;
  b_prefetched : bool;
  whenReady : Z;
  b_taskId : Z;
  b_srcRequestorId : Z;
  b_partitionId : Z;
  b_refCount : Z;
  b_tickInserted : Z;
  lockList : list Lock
}.

Definition blk_isValid (b : CacheBlk) : bool := te_valid (b_entry b).
Definition blk_isSecure (b : CacheBlk) : bool := te_secure (b_entry b).
Definition blk_getTag (b : CacheBlk) : Z := te_tag (b_entry b).

Definition with_entry (e : TaggedEntry) (b : CacheBlk) : CacheBlk :=
  mkBlk e (coherence b) (b_prefetched b) (whenReady b) (b_taskId b) (b_srcRequestorId b)
    (b_partitionId b) (b_refCount b) (b_tickInserted b) (lockList b).
Definition with_coherence (c : Z) (b : CacheBlk) : CacheBlk :=
  mkBlk (b_entry b) c (b_prefetched b) (whenReady b) (b_taskId b) (b_srcRequestorId b)
    (b_partitionId b) (b_refCount b) (b_tickInserted b) (lockList b).
Definition with_locks (ls : list Lock) (b : CacheBlk) : CacheBlk :=
  mkBlk (b_entry b) (coherence b) (b_prefetched b) (whenReady b) (b_taskId b) (b_srcRequestorId b)
    (b_partitionId b) (b_refCount b) (b_tickInserted b) ls.

Definition setCoherenceBits (bits : Z) (b : CacheBlk) : outcome CacheBlk :=
  _ ← assert_that (blk_isValid b) "isValid()";
  Ok (with_coherence (Z.lor (coherence b) bits) b).

Definition clearCoherenceBits (bits : Z) (b : CacheBlk) : CacheBlk :=
  with_coherence (Z.ldiff (coherence b) bits) b.

Definition isSet (bits : Z) (b : CacheBlk) : bool :=
  blk_isValid b && negb (Z.land (coherence b) bits =? 0).

Definition set_prefetched (p : bool) (b : CacheBlk) : CacheBlk :=
  mkBlk (b_entry b) (coherence b) p (whenReady b) (b_taskId b) (b_srcRequestorId b)
    (b_partitionId b) (b_refCount b) (b_tickInserted b) (lockList b).

Definition getWhenReady (b : CacheBlk) : outcome Z :=
  _ ← assert_that (negb (whenReady b =? MaxTick)) "whenReady != MaxTick";
  Ok (whenReady b).

Definition setWhenReady (tick : Z) (b : CacheBlk) : outcome CacheBlk :=
  _ ← assert_that (b_tickInserted b <=? tick) "tick >= _tickInserted";
  Ok (mkBlk (b_entry b) (coherence b) (b_prefetched b) tick (b_taskId b) (b_srcRequestorId b)
    (b_partitionId b) (b_refCount b) (b_tickInserted b) (lockList b)).

Definition increaseRefCount (b : CacheBlk) : CacheBlk :=
  mkBlk (b_entry b) (coherence b) (b_prefetched b) (whenReady b) (b_taskId b) (b_srcRequestorId b)
    (b_partitionId b) (u32 (b_refCount b + 1)) (b_tickInserted b) (lockList b).

Definition getAge (curTick : Z) (b : CacheBlk) : outcome Z :=
  _ ← assert_that (b_tickInserted b <=? curTick) "_tickInserted <= curTick()";
  Ok (curTick - b_tickInserted b).

(** [context_switch_task_id::Unknown] and [Request::invldRequestorId]. *)
Definition UnknownTaskId : Z := 1024.
Definition invldRequestorId : Z := 2 ^ 16 - 1.

(** [CacheBlk::invalidate]; the assertion of [setWhenReady(MaxTick)] holds of every
    64-bit tick.  The tick of insertion stays. *)
Definition blk_invalidate (b : CacheBlk) : CacheBlk :=
  mkBlk (te_invalidate (b_entry b)) (Z.ldiff (coherence b) AllBits) false MaxTick UnknownTaskId
    invldRequestorId (2 ^ 64 - 1) 0 (b_tickInserted b) [].

(** The constructor. *)
Definition blk_new : CacheBlk :=
  blk_invalidate (mkBlk te_new 0 false 0 0 0 0 0 0 []).

(** [insert(key)], of the tagged entry. *)
Definition blk_insert_key (extractTag : Z → Z) (key : TaggedKey) (b : CacheBlk) : outcome CacheBlk :=
  e ← te_insert extractTag key (b_entry b);
  Ok (with_entry e b).

(** [insert] with the requestor, the task and the partition. *)
Definition blk_insert (extractTag : Z → Z) (key : TaggedKey) (src task partition curTick : Z) (b : CacheBlk)
    : outcome CacheBlk :=
  _ ← assert_that (negb (blk_isValid b)) "!isValid()";
  b ← blk_insert_key extractTag key b;
  Ok (increaseRefCount (mkBlk (b_entry b) (coherence b) (b_prefetched b) (whenReady b) task src
    partition (b_refCount b) curTick (lockList b))).

(** [operator=(CacheBlk&&)]: the block and what it leaves of the other one.  The tag of
    the other block is passed where [insert] expects an address. *)
Definition blk_move (extractTag : Z → Z) (curTick : Z) (b other : CacheBlk)
    : outcome (CacheBlk * CacheBlk) :=
  _ ← assert_that (negb (blk_isValid b)) "!isValid()";
  _ ← assert_that (blk_isValid other) "other.isValid()";
  b ← blk_insert_key extractTag (mkKey (blk_getTag other) (blk_isSecure other)) b;
  let b := if b_prefetched other then set_prefetched true b else b in
  b ← setCoherenceBits (coherence other) b;
  let b := mkBlk (b_entry b) (coherence b) (b_prefetched b) (whenReady b) (b_taskId other)
             (b_srcRequestorId b) (b_partitionId other) (b_refCount b) (b_tickInserted b) (lockList b) in
  b ← setWhenReady curTick b;
  let locks := lockList b in
  let b := mkBlk (b_entry b) (coherence b) (b_prefetched b) (whenReady b) (b_taskId b)
             (b_srcRequestorId other) (b_partitionId b) (b_refCount other) (b_tickInserted b)
             (lockList other) in
  Ok (b, blk_invalidate (with_locks locks other)).

Definition trackLoadLocked (isLLSC : bool) (req : Request) (b : CacheBlk) : outcome CacheBlk :=
  _ ← assert_that isLLSC "pkt->isLLSC()";
  ls ← erase_locks (λ l, intersects l req) (lockList b);
  l ← new_lock req;
  Ok (with_locks (l :: ls) b).

Definition other_context (req : Request) (l : Lock) : outcome bool :=
  i ← intersects l req;
  if (i : bool) then ctx ← get_valid (req_contextId req) "hasContextId()"; Ok (negb (contextId l =? ctx))
  else Ok false.

Definition clearLoadLocks (req : Request) (b : CacheBlk) : outcome CacheBlk :=
  ls ← erase_locks (other_context req) (lockList b);
  Ok (with_locks ls b).

(** [checkWrite]: whether the write may go on; a store conditional tells its request
    too ([setExtraData]). *)
Definition checkWrite (isWrite isLLSC : bool) (req : Request) (b : CacheBlk)
    : outcome (bool * CacheBlk) :=
  _ ← assert_that isWrite "pkt->isWrite()";
  if negb isLLSC && bool_decide (lockList b = []) then Ok (true, b)
  else if isLLSC then
    '(success, ls) ← take_match req (lockList b);
    b ← clearLoadLocks req (with_locks ls b);
    Ok (success, b)
  else
    b ← clearLoadLocks req b;
    Ok (true, b).

(** The letter [print] shows for the state. *)
Definition state_letter (b : CacheBlk) : ascii :=
  match isSet WritableBit b, isSet DirtyBit b, blk_isValid b with
  | true, true, true => "M"
  | false, true, true => "O"
  | true, false, true => "E"
  | false, false, true => "S"
  | false, false, false => "I"
  | _, _, _ => "T"
  end%char.

(** The flags [CacheBlkPrintWrapper::print] shows. *)
Definition print_flags (b : CacheBlk) : list ascii :=
  [if blk_isValid b then "V" else "-"; if isSet WritableBit b then "E" else "-";
   if isSet DirtyBit b then "M" else "-"; if blk_isSecure b then "S" else "-"]%char.

(** [TempCacheBlk]: a block that remembers its address. *)
Record TempCacheBlk := mkTemp { tb_blk : CacheBlk; tb_addr : Z }.

Definition temp_invalidate (t : TempCacheBlk) : TempCacheBlk :=
  mkTemp (blk_invalidate (tb_blk t)) MaxAddr.

Definition temp_insert (extractTag : Z → Z) (key : TaggedKey) (t : TempCacheBlk) : outcome TempCacheBlk :=
  b ← blk_insert_key extractTag key (tb_blk t);
  Ok (mkTemp b (k_address key)).

(** ** Blocks as entries of a table *)

#[export] Instance blk_entry_ops : TableEntry TaggedKey CacheBlk :=
  {| e_match := λ ext key b, te_match ext key (b_entry b);
     e_insert := blk_insert_key; e_invalidate := blk_invalidate |}.

#[export] Instance blk_entry_laws : TableEntryLaws TaggedKey CacheBlk (Z * bool).
Proof.
  refine {| e_key := λ ext k, (ext (k_address k), k_secure k); e_tag := λ b, te_tagof (b_entry b);
            e_fresh := λ b, te_valid (b_entry b) = false ∧ te_secure (b_entry b) = false |}.
  - intros ext key b. apply te_match_spec.
  - intros ext key b [Hv Hs]. simpl. unfold blk_insert_key, te_insert. rewrite Hv, Hs. simpl.
    eexists. split; [done|]. unfold te_tagof. simpl. by destruct (k_secure key).
  - done.
  - intros b [Hv _]. unfold te_tagof. by rewrite Hv.
Defined.

(** No letter hides a state: a block is never shown as a transient one. *)
Lemma state_letter_stable b : state_letter b ≠ "T"%char.
Proof. unfold state_letter, isSet. by destruct (blk_isValid b), (_ =? _), (_ =? _). Qed.

(** ** Reservations

    The operations that touch the locks of a block, with the bytes and the context of
    their requests. *)

Inductive LockOp := LoadLocked (req : Request) | PlainStore (req : Request) | StoreCond (req : Request).

Definition op_req (op : LockOp) : Request :=
  match op with LoadLocked r | PlainStore r | StoreCond r => r end.

Definition do_op (op : LockOp) (b : CacheBlk) : outcome (bool * CacheBlk) :=
  match op with
  | LoadLocked req => b ← trackLoadLocked true req b; Ok (true, b)
  | PlainStore req => checkWrite true false req b
  | StoreCond req => checkWrite true true req b
  end.

Fixpoint run_ops (ops : list LockOp) (b : CacheBlk) : outcome CacheBlk :=
  match ops with
  | [] => Ok b
  | op :: ops => '(_, b) ← do_op op b; run_ops ops b
  end.

Definition range_of (req : Request) : Lock :=
  let low := default 0 (req_paddr req) in
  mkLock (default 0 (req_contextId req)) low (last_byte low (req_size req)).

(** The request has an address and a context, and its bytes do not wrap around. *)
Definition req_ok (req : Request) : Prop :=
  is_Some (req_paddr req) ∧ is_Some (req_contextId req) ∧
  lowAddr (range_of req) ≤ highAddr (range_of req).

Definition overlap (r l : Lock) : bool := (lowAddr r <=? highAddr l) && (lowAddr l <=? highAddr r).
Definition within (r l : Lock) : bool :=
  (contextId l =? contextId r) && (lowAddr l <=? lowAddr r) && (highAddr r <=? highAddr l).
Definition foreign (r l : Lock) : bool := overlap r l && negb (contextId l =? contextId r).

(** What ends the reservation [l]: any overlapping load-locked, an overlapping write of
    another context, and the store conditional that uses it. *)
Definition breaks (l : Lock) (op : LockOp) : bool :=
  let r := range_of (op_req op) in
  match op with
  | LoadLocked _ => overlap r l
  | PlainStore _ => foreign r l
  | StoreCond _ => foreign r l || within r l
  end.

Definition made (op : LockOp) : list Lock :=
  match op with LoadLocked req => [range_of req] | _ => [] end.

Section Reservations.

Lemma erase_locks_eq test p ls :
  (∀ l, test l = Ok (p l)) → erase_locks test ls = Ok (filter (λ l, p l = false) ls).
Proof.
  intros Ht. induction ls as [|l ls IH]; [done|]. cbn [erase_locks]. rewrite Ht, IH. run_ok.
  rewrite filter_cons. by destruct (p l).
Qed.

Context (req : Request) (Hreq : req_ok req).

Lemma intersects_eq l : intersects l req = Ok (overlap (range_of req) l).
Proof using Hreq. destruct Hreq as ([a Ha] & _). unfold intersects, req_low, overlap, range_of. by rewrite Ha. Qed.

Lemma matches_eq l : matches l req = Ok (within (range_of req) l).
Proof using Hreq.
  destruct Hreq as ([a Ha] & [c Hc] & _). unfold matches, req_low, within, range_of. by rewrite Ha, Hc.
Qed.

Lemma new_lock_eq : new_lock req = Ok (range_of req).
Proof using Hreq. destruct Hreq as ([a Ha] & [c Hc] & _). unfold new_lock, req_low, range_of. by rewrite Ha, Hc. Qed.

Lemma other_context_eq l : other_context req l = Ok (foreign (range_of req) l).
Proof using Hreq.
  unfold other_context, foreign. rewrite intersects_eq. run_ok. destruct (overlap _ l); [|done].
  destruct Hreq as (_ & [c Hc] & _). unfold range_of. by rewrite Hc.
Qed.

(** Locks never overlap, so at most one can match. *)
Definition apart (ls : list Lock) : Prop :=
  ∀ i j l k, ls !! i = Some l → ls !! j = Some k → overlap l k = true → i = j.

Lemma within_overlap r l k :
  lowAddr r ≤ highAddr r → within r l = true → within r k = true → overlap l k = true.
Proof. unfold within, overlap. rewrite !andb_true_iff, !Z.leb_le, !Z.eqb_eq. lia. Qed.

Lemma apart_tail l ls : apart (l :: ls) → apart ls.
Proof. intros Ha i j l1 l2 H1 H2 Ho. specialize (Ha (S i) (S j) l1 l2 H1 H2 Ho). lia. Qed.

Lemma take_match_eq ls :
  apart ls →
  take_match req ls = Ok (existsb (within (range_of req)) ls,
                          filter (λ l, within (range_of req) l = false) ls).
Proof using Hreq.
  destruct Hreq as (_ & _ & Hle).
  induction ls as [|l ls IH]; intros Ha; [done|]. cbn [take_match existsb]. rewrite matches_eq. run_ok.
  rewrite filter_cons. destruct (within _ l) eqn:El; simpl.
  - f_equal. f_equal. symmetry. apply filter_id, Forall_forall. intros k [j Hj]%list_elem_of_lookup.
    destruct (within _ k) eqn:Ek; [|done].
    specialize (Ha 0%nat (S j) l k eq_refl Hj (within_overlap _ _ _ Hle El Ek)). lia.
  - rewrite IH by by eapply apart_tail. done.
Qed.
End Reservations.

(** One operation: what remains are the locks it does not break, and the lock it makes. *)
Lemma do_op_locks op b :
  req_ok (op_req op) → apart (lockList b) →
  ∃ r b', do_op op b = Ok (r, b') ∧
    lockList b' = made op ++ filter (λ l, breaks l op = false) (lockList b) ∧
    ∀ req, op = StoreCond req → r = existsb (within (range_of req)) (lockList b).
Proof.
  intros Hr Ha. destruct op as [req|req|req]; simpl in Hr |- *.
  - unfold trackLoadLocked. simpl. rewrite (erase_locks_eq _ (overlap (range_of req))) by apply intersects_eq, Hr.
    run_ok. rewrite new_lock_eq by done. run_ok. by eexists _, _.
  - unfold checkWrite, clearLoadLocks. cbn [assert_that mbind outcome_bind negb andb].
    case_bool_decide as Hl; [eexists _, _; split; [done|]; by rewrite Hl|].
    rewrite (erase_locks_eq _ (foreign (range_of req))) by apply other_context_eq, Hr. run_ok. by eexists _, _.
  - unfold checkWrite, clearLoadLocks. cbn [assert_that mbind outcome_bind negb andb].
    rewrite take_match_eq by done. run_ok. cbn [lockList with_locks].
    rewrite (erase_locks_eq _ (foreign (range_of req))) by apply other_context_eq, Hr. run_ok.
    eexists _, _. split_and!; [done| |by intros ? [= <-]]. simpl. rewrite list_filter_filter.
    apply list_filter_iff. intros l. unfold breaks. simpl. destruct (foreign _ l), (within _ l); simpl; naive_solver.
Qed.

Lemma apart_filter (P : Lock → Prop) `{∀ l, Decision (P l)} ls : apart ls → apart (filter P ls).
Proof.
  induction ls as [|l ls IH]; intros Ha; [done|]. rewrite filter_cons.
  pose proof (apart_tail _ _ Ha) as Ht. destruct (decide (P l)); [|by apply IH].
  intros [|i] [|j] x y Hx Hy Ho; simpl in Hx, Hy; [done|..].
  - injection Hx as ->. apply list_elem_of_lookup_2, list_elem_of_filter in Hy as [_ [k Hk]%list_elem_of_lookup].
    specialize (Ha 0%nat (S k) x y eq_refl Hk Ho). lia.
  - injection Hy as ->. apply list_elem_of_lookup_2, list_elem_of_filter in Hx as [_ [k Hk]%list_elem_of_lookup].
    specialize (Ha (S k) 0%nat x y Hk eq_refl Ho). lia.
  - f_equal. by eapply (IH Ht).
Qed.

Lemma do_op_apart op ls : apart ls → apart (made op ++ filter (λ l, breaks l op = false) ls).
Proof.
  intros Ha. pose proof (apart_filter (λ l, breaks l op = false) ls Ha) as Hf.
  destruct op as [req|req|req]; [|done..]. simpl in *.
  assert (∀ k, k ∈ filter (λ l, overlap (range_of req) l = false) ls → overlap (range_of req) k = false) as Hk.
  { by intros k [? _]%list_elem_of_filter. }
  intros [|i] [|j] x y Hx Hy Ho; simpl in Hx, Hy; [done|..].
  - injection Hx as <-. apply list_elem_of_lookup_2, Hk in Hy. congruence.
  - injection Hy as <-. apply list_elem_of_lookup_2, Hk in Hx. unfold overlap in *. rewrite andb_comm in Ho. congruence.
  - f_equal. by eapply Hf.
Qed.

(** The locks of a block after a history: the load-locked accesses nothing has broken
    since. *)
Definition reserved (ops : list LockOp) (l : Lock) : Prop :=
  ∃ pre ll post, ops = pre ++ LoadLocked ll :: post ∧ range_of ll = l ∧
    ∀ op, op ∈ post → breaks l op = false.

Lemma reserved_snoc ops op l :
  reserved (ops ++ [op]) l ↔ l ∈ made op ∨ reserved ops l ∧ breaks l op = false.
Proof.
  split.
  - intros (pre & ll & post & E & Hl & Hb). destruct post as [|op' post _] using rev_ind.
    + apply app_inj_tail in E as [_ ->]. left. simpl. rewrite Hl. left.
    + rewrite app_comm_cons, app_assoc in E. apply app_inj_tail in E as [-> ->]. right. split.
      * exists pre, ll, post. split_and!; [done|done|]. intros o Ho. apply Hb, elem_of_app. by left.
      * apply Hb, elem_of_app. right. left.
  - intros [Hm|[(pre & ll & post & -> & Hl & Hb) Hop]].
    + destruct op as [req|req|req]; simpl in Hm; [|by apply elem_of_nil in Hm..].
      apply list_elem_of_singleton in Hm as ->. exists ops, req, []. split_and!; [done|done|]. by intros ? ?%elem_of_nil.
    + exists pre, ll, (post ++ [op]). split_and!; [by rewrite <-app_assoc|done|].
      intros o [?|Ho%list_elem_of_singleton]%elem_of_app; [by apply Hb|]. by rewrite Ho.
Qed.

Lemma run_ops_snoc ops op b : run_ops (ops ++ [op]) b = (b ← run_ops ops b; '(_, b) ← do_op op b; Ok b).
Proof.
  revert b. induction ops as [|o ops IH]; intros b; simpl.
  - destruct (do_op op b) as [[r b']|]; done.
  - destruct (do_op o b) as [[r b']|]; [|done]. run_ok. apply IH.
Qed.

Lemma run_ops_locks ops b :
  lockList b = [] → Forall (req_ok ∘ op_req) ops →
  ∃ b', run_ops ops b = Ok b' ∧ apart (lockList b') ∧ ∀ l, l ∈ lockList b' ↔ reserved ops l.
Proof.
  intros Hb. induction ops as [|op ops IH] using rev_ind; intros Hok.
  - exists b. split_and!; [done|by rewrite Hb|]. intros l. rewrite Hb. split; [by intros ?%elem_of_nil|].
    by intros ([] & ll & post & ? & _).
  - apply Forall_app in Hok as [Hok [Ho _]%Forall_cons]. destruct (IH Hok) as (b1 & E1 & Ha1 & Hl1).
    destruct (do_op_locks op b1 Ho Ha1) as (r & b2 & E2 & Hl2 & _).
    exists b2. rewrite run_ops_snoc, E1. run_ok. rewrite E2. split_and!; [done| |].
    + rewrite Hl2. by apply do_op_apart.
    + intros l. rewrite Hl2, elem_of_app, list_elem_of_filter, Hl1, reserved_snoc. naive_solver.
Qed.

(** ** Moving a block

    The tag of the moved block goes through the extractor once more, and the tick of
    insertion is that of the place it moves to. *)
Lemma blk_move_eq ext curTick b other :
  te_valid (b_entry b) = false → te_secure (b_entry b) = false → blk_isValid other = true →
  b_tickInserted b ≤ curTick →
  ∃ b' other', blk_move ext curTick b other = Ok (b', other') ∧ blk_isValid other' = false ∧
    b_entry b' = mkTagEntry true (blk_isSecure other) (ext (blk_getTag other)) ∧
    coherence b' = Z.lor (coherence b) (coherence other) ∧
    lockList b' = lockList other ∧ b_tickInserted b' = b_tickInserted b.
Proof.
  intros Hv Hs Ho Ht. unfold blk_move, blk_insert_key, te_insert, setCoherenceBits, setWhenReady, blk_isValid in *.
  rewrite Hv, Ho. cbn [negb assert_that mbind outcome_bind k_secure k_address].
  destruct (b_prefetched other); cbn [with_entry set_prefetched with_coherence b_entry te_valid assert_that mbind outcome_bind b_tickInserted];
    rewrite (proj2 (Z.leb_le _ _) Ht), Hs; cbn [assert_that mbind outcome_bind];
    (eexists _, _; split_and!; [done|done| |done..]); simpl; by destruct (blk_isSecure other).
Qed.

(** ** Theorems *)

(** C14: Load-locked and store-conditional give atomicity.  After any sequence of
    load-locked, store and store-conditional accesses to a fresh block, a store
    conditional returns, and it succeeds exactly when an earlier load-locked of the same
    context covers its bytes and since then there was no overlapping load-locked, no
    overlapping write of another context, and no store conditional that used it. *)
Theorem store_conditional_atomic (ops : list LockOp) (req : Request) (b : CacheBlk) :
  lockList b = [] → Forall (req_ok ∘ op_req) ops → req_ok req →
  ∃ b' r b'', run_ops ops b = Ok b' ∧ checkWrite true true req b' = Ok (r, b'') ∧
    (r = true ↔ ∃ pre ll post, ops = pre ++ LoadLocked ll :: post ∧
      within (range_of req) (range_of ll) = true ∧
      ∀ op, op ∈ post → breaks (range_of ll) op = false).
Proof.
  intros Hb Hops Hreq. destruct (run_ops_locks ops b Hb Hops) as (b' & E1 & Ha & Hl).
  destruct (do_op_locks (StoreCond req) b' Hreq Ha) as (r & b'' & E2 & _ & Hr).
  exists b', r, b''. split_and!; [done|done|]. rewrite (Hr req eq_refl), existsb_exists. split.
  - intros (l & Hin & Hw). apply list_elem_of_In, Hl in Hin as (pre & ll & post & -> & <- & Hbr). eauto 10.
  - intros (pre & ll & post & -> & Hw & Hbr). exists (range_of ll). split; [|done].
    apply list_elem_of_In, Hl. by exists pre, ll, post.
Qed.

Definition ex_req (ctx addr size : Z) : Request :=
  mkRequest (Some addr) None size 0 0 None (Some ctx) false false false.

Lemma store_conditional_atomic_witness :
  ∃ b' r b'', run_ops [LoadLocked (ex_req 0 64 8); PlainStore (ex_req 1 72 8)] blk_new = Ok b' ∧
    checkWrite true true (ex_req 0 64 8) b' = Ok (r, b'') ∧ r = true.
Proof.
  destruct (store_conditional_atomic [LoadLocked (ex_req 0 64 8); PlainStore (ex_req 1 72 8)] (ex_req 0 64 8) blk_new)
    as (b' & r & b'' & E1 & E2 & Hr); [reflexivity|repeat constructor; (by eexists) || done|repeat split; (by eexists) || done|].
  exists b', r, b''. split; [exact E1|]. split; [exact E2|]. apply Hr.
  exists [], (ex_req 0 64 8), [PlainStore (ex_req 1 72 8)]. split; [done|]. split; [reflexivity|].
  intros op Hop%list_elem_of_singleton. by rewrite Hop.
Defined.

