(* ===== verification/Partitioning.v ===== *)
(** * Cache partitioning (src/src/mem/cache/tags/partitioning_policies)

    The policies that narrow the candidates of a replacement to what a partition may
    take: [max_capacity_pp.{hh,cc}], [way_pp.{hh,cc}] with [way_allocation.cc], and the
    manager that applies a list of them ([partition_manager.{hh,cc}]). *)

From Stdlib Require Import ZArith Lia QArith.
From stdpp Require Import base numbers option list strings gmap.
From S2P Require Import Prelude Double.
#[local] Open Scope Z_scope.

(** ** Maximum capacity *)

Record MaxCapacity := mkMaxCap {
  totalBlockCount : Z;
  maxCapacity : gmap Z Z;
  curCapacity : gmap Z Z
}.

(** [map::emplace]: a key that is present keeps its value. *)
Definition emplace (k v : Z) (m : gmap Z Z) : gmap Z Z :=
  match m !! k with Some _ => m | None => <[k := v]> m end.

Definition configurePartition (id : Z) (cap_frac : double) (p : MaxCapacity) : outcome MaxCapacity :=
  _ ← panic_if (negb (dleb d0 cap_frac && dleb cap_frac d1)) "Capacity Fraction outside of [0,1] range";
  let allocated_block_cnt := u64 (d_trunc (dmul cap_frac (d_of_Z (totalBlockCount p)))) in
  Ok (mkMaxCap (totalBlockCount p) (emplace id allocated_block_cnt (maxCapacity p)) (curCapacity p)).

Fixpoint configure_all (ics : list (Z * double)) (p : MaxCapacity) : outcome MaxCapacity :=
  match ics with
  | [] => Ok p
  | (id, frac) :: ics => p ← configurePartition id frac p; configure_all ics p
  end.

Definition maxcap_new (cache_size blk_size : Z) (ids : list Z) (capacities : list double) : outcome MaxCapacity :=
  _ ← fatal_if (negb (bool_decide (length ids = length capacities)))
        "MaxCapacity Partitioning Policy configuration invalid: ids and capacities arrays are not equal lengths";
  configure_all (zip ids capacities) (mkMaxCap (u64 (cache_size / blk_size)) ∅ ∅).

(** A candidate is seen through its partition and its way. *)
Section Filter.
Context {A : Type} (partitionOf wayOf : A → Z).

Definition maxcap_filter (p : MaxCapacity) (entries : list A) (id : Z) : list A :=
  match maxCapacity p !! id, curCapacity p !! id with
  | Some limit, Some cur =>
      if cur <? limit then entries else filter (λ e, partitionOf e = id) entries
  | _, _ => entries
  end.

(** ** Ways *)

Definition way_filter (ways : gmap Z (gset Z)) (entries : list A) (id : Z) : list A :=
  match ways !! id with
  | None => entries
  | Some ws => filter (λ e, wayOf e ∈ ws) entries
  end.
End Filter.

(** The operator [[]] of a map: an absent key is added with the value zero. *)
Definition at_key (k : Z) (m : gmap Z Z) : Z * gmap Z Z :=
  match m !! k with Some v => (v, m) | None => (0, <[k := 0]> m) end.

Definition maxcap_acquire (id : Z) (p : MaxCapacity) : outcome MaxCapacity :=
  let '(cur, curs) := at_key id (curCapacity p) in
  let '(limit, maxs) := at_key id (maxCapacity p) in
  _ ← assert_that (cur <=? limit) "partitionIdCurCapacity <= partitionIdMaxCapacity";
  Ok (mkMaxCap (totalBlockCount p) maxs (<[id := u64 (cur + 1)]> curs)).

Definition maxcap_release (id : Z) (p : MaxCapacity) : outcome MaxCapacity :=
  let '(cur, curs) := at_key id (curCapacity p) in
  _ ← assert_that (0 <? cur) "partitionIdCurCapacity[partition_id] > 0";
  Ok (mkMaxCap (totalBlockCount p) (maxCapacity p) (<[id := u64 (cur - 1)]> curs)).

Definition addWayToPartition (id way : Z) (ws : gmap Z (gset Z)) : gmap Z (gset Z) :=
  <[id := default ∅ (ws !! id) ∪ {[way]}]> ws.

Definition removeWayToPartition (id way : Z) (ws : gmap Z (gset Z)) : gmap Z (gset Z) :=
  <[id := default ∅ (ws !! id) ∖ {[way]}]> ws.

(** A [WayPolicyAllocation]. *)
Record WayAllocation := mkWayAlloc { wa_partitionId : Z; wa_ways : list Z }.

Fixpoint add_ways (assoc id : Z) (ways : list Z) (ws : gmap Z (gset Z)) : outcome (gmap Z (gset Z)) :=
  match ways with
  | [] => Ok ws
  | w :: ways =>
      _ ← fatal_if (assoc <=? w) "Way Partitioning Policy allocation cannot be fullfiled";
      add_ways assoc id ways (addWayToPartition id w ws)
  end.

Fixpoint way_new (assoc : Z) (allocations : list WayAllocation) (ws : gmap Z (gset Z)) : outcome (gmap Z (gset Z)) :=
  match allocations with
  | [] => Ok ws
  | a :: allocations => ws ← add_ways assoc (wa_partitionId a) (wa_ways a) ws; way_new assoc allocations ws
  end.

(** ** The manager *)

Inductive PartitioningPolicy := PMax (p : MaxCapacity) | PWay (ways : gmap Z (gset Z)).

Definition pp_filter {A} (partitionOf wayOf : A → Z) (pp : PartitioningPolicy) (entries : list A) (id : Z) : list A :=
  match pp with
  | PMax p => maxcap_filter partitionOf p entries id
  | PWay ws => way_filter wayOf ws entries id
  end.

Definition pp_acquire (id : Z) (pp : PartitioningPolicy) : outcome PartitioningPolicy :=
  match pp with PMax p => p ← maxcap_acquire id p; Ok (PMax p) | PWay ws => Ok (PWay ws) end.
Definition pp_release (id : Z) (pp : PartitioningPolicy) : outcome PartitioningPolicy :=
  match pp with PMax p => p ← maxcap_release id p; Ok (PMax p) | PWay ws => Ok (PWay ws) end.

(** The policies are told in order. *)
Fixpoint notify_all (f : PartitioningPolicy → outcome PartitioningPolicy) (pps : list PartitioningPolicy)
    : outcome (list PartitioningPolicy) :=
  match pps with
  | [] => Ok []
  | pp :: pps => pp ← f pp; pps ← notify_all f pps; Ok (pp :: pps)
  end.

Definition notifyAcquire (id : Z) : list PartitioningPolicy → outcome (list PartitioningPolicy) := notify_all (pp_acquire id).
Definition notifyRelease (id : Z) : list PartitioningPolicy → outcome (list PartitioningPolicy) := notify_all (pp_release id).

Definition filterByPartition {A} (partitionOf wayOf : A → Z) (pps : list PartitioningPolicy) (entries : list A) (id : Z) : list A :=
  foldl (λ es pp, pp_filter partitionOf wayOf pp es id) entries pps.
