(* ===== verification/TagStore.v ===== *)
(** * The set-associative tag store
    (src/src/mem/cache/tags/base.{hh,cc}, base_set_assoc.{hh,cc})

    The blocks of a cache over the store of [AssocCache]: an indexing policy leads from
    an address to blocks, a replacement policy picks victims, and the partitioning
    policies narrow the candidates. *)

From Stdlib Require Import ZArith Lia.
From stdpp Require Import base numbers option list strings gmap.
From S2P Require Import Prelude Double IntMath PrefetchBase Replacement Indexing AssocCache CacheBlk Partitioning.
#[local] Open Scope Z_scope.

(** ** Parameters and statistics *)

Record TagsCfg := mkTagsCfg {
  blkSize : Z;
  blkMask : Z;
  lookupLatency : Z;
  warmupBound : Z;
  numBlocks : Z;
  sequentialAccess : bool;
  maxRequestors : Z
}.

(** The constructors of [BaseTags] and [BaseSetAssoc]; [warmup_percentage] is a
    percentage. *)
Definition tags_cfg (block_size size tag_latency warmup_percentage : Z) (sequential : bool) (max_requestors : Z)
    : outcome TagsCfg :=
  let blocks := size / block_size in
  let bound := u32 (d_trunc (dmul (ddiv (d_of_Z warmup_percentage) (d_of_Z 100)) (d_of_Z blocks))) in
  _ ← fatal_if ((block_size <? 4) || negb (isPowerOf2 block_size)) "Block size must be at least 4 and a power of 2";
  Ok (mkTagsCfg block_size (u64 (u32 (block_size - 1))) tag_latency bound (u32 blocks) sequential max_requestors).

Record TagStats := mkTagStats {
  tagsInUse : Z;
  totalRefs : Z;
  sampledRefs : Z;
  warmupTick : Z;
  occupancies : list Z;
  tagAccesses : Z;
  dataAccesses : Z;
  occupanciesTaskId : list Z;
  ageTaskId : list (list Z)
}.

Definition NumTaskId : Z := 1025.

Definition tagstats_new (max_requestors : Z) : TagStats :=
  mkTagStats 0 0 0 0 (replicate (Z.to_nat max_requestors) 0) 0 0
    (replicate (Z.to_nat NumTaskId) 0) (replicate (Z.to_nat NumTaskId) (replicate 5 0)).

(** [tagAccesses += t; dataAccesses += d] *)
Definition count_accesses (t d : Z) (st : TagStats) : TagStats :=
  mkTagStats (tagsInUse st) (totalRefs st) (sampledRefs st) (warmupTick st) (occupancies st)
    (tagAccesses st + t) (dataAccesses st + d) (occupanciesTaskId st) (ageTaskId st).

(** [tagsInUse += d] and [occupancies[r] += d] *)
Definition count_block (r d : Z) (st : TagStats) : TagStats :=
  mkTagStats (tagsInUse st + d) (totalRefs st) (sampledRefs st) (warmupTick st)
    (alter (Z.add d) (Z.to_nat r) (occupancies st))
    (tagAccesses st) (dataAccesses st) (occupanciesTaskId st) (ageTaskId st).

(** [totalRefs += n; sampledRefs++] *)
Definition sample_refs (n : Z) (st : TagStats) : TagStats :=
  mkTagStats (tagsInUse st) (totalRefs st + n) (sampledRefs st + 1) (warmupTick st) (occupancies st)
    (tagAccesses st) (dataAccesses st) (occupanciesTaskId st) (ageTaskId st).

Definition set_warmupTick (t : Z) (st : TagStats) : TagStats :=
  mkTagStats (tagsInUse st) (totalRefs st) (sampledRefs st) t (occupancies st)
    (tagAccesses st) (dataAccesses st) (occupanciesTaskId st) (ageTaskId st).

Definition set_taskStats (occ : list Z) (ages : list (list Z)) (st : TagStats) : TagStats :=
  mkTagStats (tagsInUse st) (totalRefs st) (sampledRefs st) (warmupTick st) (occupancies st)
    (tagAccesses st) (dataAccesses st) occ ages.

Definition blkAlign (cfg : TagsCfg) (addr : Z) : Z := Z.ldiff addr (blkMask cfg).
Definition extractBlkOffset (cfg : TagsCfg) (addr : Z) : Z := Z.land addr (blkMask cfg).

(** ** The store *)

Record Tags (G R : Type) := mkTags {
  t_store : Store G CacheBlk R;
  allocAssoc : Z;
  warmedUp : bool;
  t_stats : TagStats;
  partitionManager : option (list PartitioningPolicy)
}.
Arguments mkTags {G R} _ _ _ _ _.
Arguments t_store {G R} _.
Arguments allocAssoc {G R} _.
Arguments warmedUp {G R} _.
Arguments t_stats {G R} _.
Arguments partitionManager {G R} _.

(** [PartitionManager::readPacketPartitionID] of the base class; subclasses override
    it. *)
Definition base_readPacketPartitionID (_ : Packet) : Z := 0.

Section BaseSetAssoc.
Context {G R : Type} `{ReplPolicy G R} (ip : IndexingPolicy TaggedKey) (cfg : TagsCfg).
Context (readPacketPartitionID : Packet → Z).

Definition with_store (s : Store G CacheBlk R) (t : Tags G R) : Tags G R :=
  mkTags s (allocAssoc t) (warmedUp t) (t_stats t) (partitionManager t).
Definition with_stats (f : TagStats → TagStats) (t : Tags G R) : Tags G R :=
  mkTags (t_store t) (allocAssoc t) (warmedUp t) (f (t_stats t)) (partitionManager t).
Definition with_manager (pm : option (list PartitioningPolicy)) (t : Tags G R) : Tags G R :=
  mkTags (t_store t) (allocAssoc t) (warmedUp t) (t_stats t) pm.

(** [tagsInit]: every block gets its place and its replacement data. *)
Definition tagsInit (assoc : Z) (pm : option (list PartitioningPolicy)) (sets : list (list ref)) (g : G)
    : outcome (Tags G R) :=
  s ← init_entries ip blk_new (Z.to_nat (numBlocks cfg)) 0 (mkStore sets [] g);
  Ok (mkTags s assoc false (tagstats_new (maxRequestors cfg)) pm).

Definition findBlock (t : Tags G R) (key : TaggedKey) : outcome (option nat) :=
  find_in ip (t_store t) key (possible ip (t_store t) key).

Definition findBlockBySetAndWay (t : Tags G R) (set way : Z) : ref :=
  getEntry (s_sets (t_store t)) set way.

(** Writing a block and its replacement data. *)
Definition put_cell (i : nat) (b : CacheBlk) (r : R) (g : G) (c : Cell CacheBlk R) (t : Tags G R) : Tags G R :=
  with_store (put (t_store t) i (mkCell b r (c_set c) (c_way c)) g) t.

Definition accessBlock (curTick : Z) (pkt : Packet) (t : Tags G R) : outcome (option nat * Z * Tags G R) :=
  o ← findBlock t (mkKey (pkt_addr pkt) (pkt_isSecure pkt));
  let data := if sequentialAccess cfg then (match o with Some _ => 1 | None => 0 end) else allocAssoc t in
  let t := with_stats (count_accesses (allocAssoc t) data) t in
  match o with
  | None => Ok (None, lookupLatency cfg, t)
  | Some i =>
      c ← cell_at (t_store t) i;
      '(r, g) ← rp_touch curTick (Some pkt) (c_repl c) (s_pol (t_store t));
      Ok (Some i, lookupLatency cfg, put_cell i (increaseRefCount (c_entry c)) r g c t)
  end.

(** [findVictim]: the victim, if any, is also the only block to evict. *)
Definition findVictim (t : Tags G R) (key : TaggedKey) (partition_id : Z) : outcome (option nat * Tags G R) :=
  ics ← deref_all (t_store t) (possible ip (t_store t) key);
  let entries := match partitionManager t with
                 | Some pps => filterByPartition (λ ic, b_partitionId (c_entry ic.2)) (λ ic, c_way ic.2) pps ics partition_id
                 | None => ics
                 end in
  match entries with
  | [] => Ok (None, t)
  | _ =>
      '(v, rs, g) ← rp_getVictim (c_repl ∘ snd <$> entries) (s_pol (t_store t));
      match entries !! v with
      | None => Stop (Panic "victim is not a candidate")
      | Some (i, _) =>
          Ok (Some i, with_store (mkStore (s_sets (t_store t)) (write_back entries rs (s_cells (t_store t))) g) t)
      end
  end.

(** The partition of a packet, when there is a manager. *)
Definition packet_partition (t : Tags G R) (pkt : Packet) : Z :=
  match partitionManager t with Some _ => readPacketPartitionID pkt | None => 0 end.

(** [BaseTags::insertBlock] of the block [i]; [task] is the task of the request.  The
    count of tags in use goes up after the check for the end of the warm-up. *)
Definition base_insertBlock (curTick task : Z) (pkt : Packet) (i : nat) (t : Tags G R) : outcome (Tags G R) :=
  c ← cell_at (t_store t) i;
  _ ← assert_that (negb (blk_isValid (c_entry c))) "!blk->isValid()";
  let requestor := req_requestorId (pkt_req pkt) in
  _ ← assert_that (requestor <? maxRequestors cfg) "requestor_id < system->maxRequestors()";
  b ← blk_insert (ip_extractTag ip) (mkKey (pkt_addr pkt) (pkt_isSecure pkt)) requestor task
        (packet_partition t pkt) curTick (c_entry c);
  let warm := negb (warmedUp t) && (warmupBound cfg <=? tagsInUse (t_stats t)) in
  let st := count_accesses 1 1 (if warm then set_warmupTick curTick (t_stats t) else t_stats t) in
  Ok (mkTags (put_entry (t_store t) i b) (allocAssoc t) (if warm then true else warmedUp t)
        (count_block requestor 1 st) (partitionManager t)).

(** [BaseSetAssoc::insertBlock] *)
Definition insertBlock (curTick task : Z) (pkt : Packet) (i : nat) (t : Tags G R) : outcome (Tags G R) :=
  t ← base_insertBlock curTick task pkt i t;
  pm ← match partitionManager t with
       | Some pps => pps ← notifyAcquire (readPacketPartitionID pkt) pps; Ok (Some pps)
       | None => Ok None
       end;
  c ← cell_at (t_store t) i;
  '(r, g) ← rp_reset curTick (Some pkt) (c_repl c) (s_pol (t_store t));
  Ok (with_manager pm (put_cell i (c_entry c) r g c t)).

(** [BaseTags::invalidate]; the statistics are vectors indexed by requestor. *)
Definition base_invalidate (i : nat) (t : Tags G R) : outcome (Tags G R) :=
  c ← cell_at (t_store t) i;
  let b := c_entry c in
  _ ← assert_that (blk_isValid b) "blk->isValid()";
  _ ← assert_that (bool_decide (Z.to_nat (b_srcRequestorId b) < length (occupancies (t_stats t)))%nat) "index < size()";
  Ok (with_stats (sample_refs (b_refCount b) ∘ count_block (b_srcRequestorId b) (-1))
        (with_store (put_entry (t_store t) i (blk_invalidate b)) t)).

(** [BaseSetAssoc::invalidate] *)
Definition invalidate (i : nat) (t : Tags G R) : outcome (Tags G R) :=
  c ← cell_at (t_store t) i;
  pm ← match partitionManager t with
       | Some pps => pps ← notifyRelease (b_partitionId (c_entry c)) pps; Ok (Some pps)
       | None => Ok None
       end;
  t ← base_invalidate i t;
  c ← cell_at (t_store t) i;
  '(r, g) ← rp_invalidate (c_repl c) (s_pol (t_store t));
  Ok (with_manager pm (put_cell i (c_entry c) r g c t)).

(** What a fill does with the store ([BaseCache::allocateBlock] and [evictBlock]) when
    no miss on the victim is outstanding: the victim makes room and the block goes in. *)
Definition replaceBlock (curTick task : Z) (pkt : Packet) (t : Tags G R) : outcome (option nat * Tags G R) :=
  '(o, t) ← findVictim t (mkKey (pkt_addr pkt) (pkt_isSecure pkt)) (packet_partition t pkt);
  match o with
  | None => Ok (None, t)
  | Some v =>
      c ← cell_at (t_store t) v;
      t ← (if blk_isValid (c_entry c) then invalidate v t else Ok t);
      t ← insertBlock curTick task pkt v t;
      Ok (Some v, t)
  end.

(** ** The store in use

    The operations a cache does on its store: look a block up and touch it, fill a block
    it does not have, invalidate a block. *)
Inductive TagOp := TAccess (pkt : Packet) | TFill (task : Z) (pkt : Packet) | TInvalidate (i : nat).

Definition do_tag (curTick : Z) (op : TagOp) (t : Tags G R) : outcome (Tags G R) :=
  match op with
  | TAccess pkt => '(_, _, t) ← accessBlock curTick pkt t; Ok t
  | TFill task pkt =>
      o ← findBlock t (mkKey (pkt_addr pkt) (pkt_isSecure pkt));
      match o with
      | Some _ => Ok t
      | None => '(_, t) ← replaceBlock curTick task pkt t; Ok t
      end
  | TInvalidate i =>
      c ← cell_at (t_store t) i;
      if blk_isValid (c_entry c) then invalidate i t else Ok t
  end.

Fixpoint run_tags (ops : list (Z * TagOp)) (t : Tags G R) : outcome (Tags G R) :=
  match ops with
  | [] => Ok t
  | (curTick, op) :: ops => t ← do_tag curTick op t; run_tags ops t
  end.

(** [moveBlock] of the block [src] to the place [dest]. *)
Definition moveBlock (curTick : Z) (src dest : nat) (t : Tags G R) : outcome (Tags G R) :=
  cs ← cell_at (t_store t) src;
  cd ← cell_at (t_store t) dest;
  _ ← assert_that (negb (blk_isValid (c_entry cd))) "!dest_blk->isValid()";
  _ ← assert_that (blk_isValid (c_entry cs)) "src_blk->isValid()";
  '(d, s) ← blk_move (ip_extractTag ip) curTick (c_entry cd) (c_entry cs);
  '(rs, g) ← rp_invalidate (c_repl cs) (s_pol (t_store t));
  '(rd, g) ← rp_reset curTick None (c_repl cd) g;
  Ok (put_cell dest d rd g cd (put_cell src s rs g cs t)).

Definition setWayAllocationMax (ways : Z) (t : Tags G R) : outcome (Tags G R) :=
  _ ← fatal_if (ways <? 1) "Allocation limit must be greater than zero";
  Ok (mkTags (t_store t) (u32 ways) (warmedUp t) (t_stats t) (partitionManager t)).

Definition getWayAllocationMax (t : Tags G R) : Z := i32 (allocAssoc t).

Definition regenerateBlkAddr (t : Tags G R) (i : nat) : outcome Z :=
  c ← cell_at (t_store t) i;
  Ok (tagged_regenerateAddr (ip_base ip) (mkKey (blk_getTag (c_entry c)) false) (c_set c)).

(** [anyBlk]: the blocks in order, up to the first the visitor accepts. *)
Definition anyBlk (visitor : CacheBlk → bool) (t : Tags G R) : bool :=
  existsb (visitor ∘ c_entry) (s_cells (t_store t)).

(** [cleanupRefs], at the end of the simulation. *)
Definition cleanupRefs (t : Tags G R) : Tags G R :=
  with_stats (λ st, foldl (λ st c, if blk_isValid (c_entry c) then sample_refs (b_refCount (c_entry c)) st else st)
                          st (s_cells (t_store t))) t.

(** The column of [ageTaskId] for an age; [us] and [ms] are ticks. *)
Definition age_index (us ms age : Z) : nat :=
  if age / us <? 10 then 0%nat else if age / us <? 100 then 1%nat
  else if age / ms <? 1 then 2%nat else if age / ms <? 10 then 3%nat else 4%nat.

Definition computeStatsVisitor (us ms curTick : Z) (b : CacheBlk) (st : TagStats) : outcome TagStats :=
  if blk_isValid b then
    _ ← assert_that (b_taskId b <? NumTaskId) "task_id < context_switch_task_id::NumTaskId";
    age ← getAge curTick b;
    Ok (set_taskStats (alter (Z.add 1) (Z.to_nat (b_taskId b)) (occupanciesTaskId st))
          (alter (alter (Z.add 1) (age_index us ms age)) (Z.to_nat (b_taskId b)) (ageTaskId st)) st)
  else Ok st.

Fixpoint visit_blocks (us ms curTick : Z) (bs : list CacheBlk) (st : TagStats) : outcome TagStats :=
  match bs with
  | [] => Ok st
  | b :: bs => st ← computeStatsVisitor us ms curTick b st; visit_blocks us ms curTick bs st
  end.

(** [computeStats], before the statistics are dumped. *)
Definition computeStats (us ms curTick : Z) (t : Tags G R) : outcome (Tags G R) :=
  let zeroed := set_taskStats (replicate (Z.to_nat NumTaskId) 0) (replicate (Z.to_nat NumTaskId) (replicate 5 0)) (t_stats t) in
  st ← visit_blocks us ms curTick (c_entry <$> s_cells (t_store t)) zeroed;
  Ok (with_stats (λ _, st) t).
End BaseSetAssoc.
