(* ===== verification/TagFacts.v ===== *)
(** * Theorems on the set-associative tag store

    What the operations of [TagStore] do to the blocks, the invariant they keep, and its
    consequences: the store is a map from blocks to places, its statistics count what it
    holds, and partitions keep to their capacities. *)

From Stdlib Require Import ZArith Lia.
From stdpp Require Import base numbers option list strings gmap.
From S2P Require Import Prelude Double IntMath PrefetchBase Replacement Indexing AssocCache CacheBlk Partitioning TagStore.
#[local] Open Scope Z_scope.

(** What the store relies on beyond [ReplLaws]: touching and resetting also succeed when
    they are told the packet. *)
Class ReplPktLaws (G R : Type) `{ReplPolicy G R} := {
  law_touch_pkt t pkt r g : is_ok (rp_touch t (Some pkt) r g);
  law_reset_pkt t pkt r g : is_ok (rp_reset t (Some pkt) r g)
}.

#[export] Instance LRU_pkt_laws : ReplPktLaws unit LRUReplData.
Proof. split; intros; by eexists. Qed.
#[export] Instance FIFO_pkt_laws : ReplPktLaws Z FIFOReplData.
Proof. split; intros; by eexists. Qed.
#[export] Instance LFU_pkt_laws : ReplPktLaws unit LFUReplData.
Proof. split; intros; by eexists. Qed.
#[export] Instance SecondChance_pkt_laws : ReplPktLaws Z SecondChanceReplData.
Proof. split; intros; by eexists. Qed.

(** ** Partitioning *)

Section PartitionFacts.
Context {A : Type} (partitionOf wayOf : A → Z).

(** What is left of the candidates passed every policy. *)
Lemma filterByPartition_elem pps (es : list A) id x :
  x ∈ filterByPartition partitionOf wayOf pps es id →
  x ∈ es ∧ ∀ p limit cur, PMax p ∈ pps → maxCapacity p !! id = Some limit →
    curCapacity p !! id = Some cur → limit ≤ cur → partitionOf x = id.
Proof.
  revert es. induction pps as [|pp pps IH]; intros es; simpl.
  { intros Hx. split; [done|]. by intros p ? ? ?%elem_of_nil. }
  intros [Hx Hpp]%IH. destruct pp as [p|ws]; simpl in Hx.
  - assert (x ∈ es) as Hes.
    { unfold maxcap_filter in Hx. repeat case_match; try done. by apply list_elem_of_filter in Hx as [_ ?]. }
    split; [done|]. intros q limit cur [[= ->]|Hq]%elem_of_cons Hl Hc Hle; [|by eapply Hpp].
    unfold maxcap_filter in Hx. rewrite Hl, Hc in Hx. rewrite (proj2 (Z.ltb_ge _ _) Hle) in Hx.
    by apply list_elem_of_filter in Hx as [? _].
  - assert (x ∈ es) as Hes.
    { unfold way_filter in Hx. case_match; [|done]. by apply list_elem_of_filter in Hx as [_ ?]. }
    split; [done|]. intros q limit cur [[=]|Hq]%elem_of_cons. by eapply Hpp.
Qed.

Lemma filterByPartition_submseteq pps (es : list A) id : filterByPartition partitionOf wayOf pps es id ⊆+ es.
Proof.
  revert es. induction pps as [|pp pps IH]; intros es; simpl; [done|].
  etrans; [apply IH|]. destruct pp as [p|ws]; simpl; unfold maxcap_filter, way_filter; repeat case_match; try done;
    apply sublist_submseteq, sublist_filter.
Qed.
End PartitionFacts.

(** A capacity policy agrees with the number of blocks each partition owns, and no
    policed partition owns more than its capacity, or than one block if that is zero. *)
Definition pp_ok (own : Z → Z) (pp : PartitioningPolicy) : Prop :=
  match pp with
  | PWay _ => True
  | PMax p => (∀ id, default 0 (curCapacity p !! id) = own id) ∧
      ∀ id limit, maxCapacity p !! id = Some limit → 0 ≤ limit ∧ own id ≤ Z.max 1 limit
  end.

(** The capacities an application of the policies sees. *)
Definition limit_of (pps : list PartitioningPolicy) (id limit : Z) : Prop :=
  ∃ p, PMax p ∈ pps ∧ maxCapacity p !! id = Some limit.
Definition policed (pps : list PartitioningPolicy) (id : Z) : Prop :=
  ∀ p, PMax p ∈ pps → is_Some (maxCapacity p !! id).

Lemma at_key_value k m : (at_key k m).1 = default 0 (m !! k).
Proof. unfold at_key. by destruct (m !! k). Qed.

Lemma at_key_insert k v m : <[k := v]> (at_key k m).2 = <[k := v]> m.
Proof. unfold at_key. destruct (m !! k); simpl; [done|]. by rewrite insert_insert_eq. Qed.

(** The policies after a notification: same capacities, and the count of one partition
    moved. *)
Definition moved (own : Z → Z) (id d : Z) (pps pps' : list PartitioningPolicy) : Prop :=
  (∀ own', (∀ j, own' j = own j + (if j =? id then d else 0)) → Forall (pp_ok own') pps') ∧
  (∀ j limit, limit_of pps' j limit ↔ limit_of pps j limit) ∧ (∀ j, policed pps' j ↔ policed pps j).

Lemma notify_moved (f : PartitioningPolicy → outcome PartitioningPolicy) own id d pps :
  (∀ pp, pp ∈ pps → ∃ pp', f pp = Ok pp' ∧
     (∀ own', (∀ j, own' j = own j + (if j =? id then d else 0)) → pp_ok own' pp') ∧
     match pp, pp' with PMax p, PMax p' => maxCapacity p' = maxCapacity p | PWay _, PWay _ => True | _, _ => False end) →
  ∃ pps', notify_all f pps = Ok pps' ∧ moved own id d pps pps'.
Proof.
  induction pps as [|pp pps IH]; intros Hf; simpl.
  { exists []. split; [done|]. split_and!; [intros; constructor|done|done]. }
  destruct (Hf pp) as (pp' & E & Hok & Hm); [left|]. rewrite E. run_ok.
  destruct IH as (pps' & E' & Hok' & Hl' & Hp'); [by intros q Hq; apply Hf; right|]. rewrite E'. run_ok.
  exists (pp' :: pps'). split; [done|]. unfold moved. split_and!.
  - intros own' Ho. constructor; [by apply Hok|by apply Hok'].
  - intros j limit. unfold limit_of in *. specialize (Hl' j limit). setoid_rewrite elem_of_cons.
    destruct pp as [p|], pp' as [p'|]; try done; [|naive_solver]. split.
    + intros (q & [[= ->]|Hq] & Hv); [exists p; split; [by left|by rewrite <-Hm]|].
      destruct (proj1 Hl') as (q' & ? & ?); [by exists q|]. exists q'. auto.
    + intros (q & [[= ->]|Hq] & Hv); [exists p'; split; [by left|by rewrite Hm]|].
      destruct (proj2 Hl') as (q' & ? & ?); [by exists q|]. exists q'. auto.
  - intros j. unfold policed in *. specialize (Hp' j). setoid_rewrite elem_of_cons.
    destruct pp as [p|], pp' as [p'|]; try done; [|naive_solver]. split.
    + intros Ha q [[= ->]|Hq]; [rewrite <-Hm; apply Ha; by left|]. apply (proj1 Hp'); [|done]. intros q' Hq'. apply Ha. by right.
    + intros Ha q [[= ->]|Hq]; [rewrite Hm; apply Ha; by left|]. apply (proj2 Hp'); [|done]. intros q' Hq'. apply Ha. by right.
Qed.

Lemma release_moved own id pps :
  Forall (pp_ok own) pps → 0 < own id < 2 ^ 64 → ∃ pps', notifyRelease id pps = Ok pps' ∧ moved own id (-1) pps pps'.
Proof.
  intros Hok Hid. apply notify_moved. intros pp Hpp. rewrite Forall_forall in Hok. specialize (Hok pp Hpp).
  destruct pp as [p|ws]; simpl; [|by eexists]. destruct Hok as [Hc Hl]. unfold maxcap_release.
  pose proof (at_key_value id (curCapacity p)) as Hv. pose proof (at_key_insert id (u64 (own id - 1)) (curCapacity p)) as Hi.
  destruct (at_key id (curCapacity p)) as [cur curs]. simpl in Hv, Hi. rewrite Hc in Hv. subst cur.
  rewrite (proj2 (Z.ltb_lt _ _)) by lia. cbn [assert_that mbind outcome_bind]. eexists. split_and!; [done| |done].
  intros own' Ho. simpl. rewrite Hi, wrap_id by in_word. split.
  - intros j. rewrite Ho. destruct (Z.eqb_spec j id) as [->|]; [rewrite lookup_insert_eq; simpl; lia|].
    rewrite lookup_insert_ne by done. rewrite Hc. lia.
  - intros j limit Hj. specialize (Hl j limit Hj). rewrite Ho. destruct (j =? id); lia.
Qed.

Lemma acquire_moved own id pps :
  Forall (pp_ok own) pps → policed pps id → 0 ≤ own id < 2 ^ 64 - 1 →
  (∀ limit, limit_of pps id limit → own id < limit ∨ own id = 0) →
  ∃ pps', notifyAcquire id pps = Ok pps' ∧ moved own id 1 pps pps'.
Proof.
  intros Hok Hpol Hid Hroom. apply notify_moved. intros pp Hpp. rewrite Forall_forall in Hok. specialize (Hok pp Hpp).
  destruct pp as [p|ws]; simpl; [|by eexists]. destruct Hok as [Hc Hl]. unfold maxcap_acquire.
  destruct (Hpol p Hpp) as [limit Hlim]. specialize (Hroom limit (ex_intro _ p (conj Hpp Hlim))).
  pose proof (at_key_value id (curCapacity p)) as Hv. pose proof (at_key_insert id (u64 (own id + 1)) (curCapacity p)) as Hi.
  destruct (at_key id (curCapacity p)) as [cur curs]. simpl in Hv, Hi. rewrite Hc in Hv. subst cur.
  unfold at_key. rewrite Hlim. pose proof (Hl id limit Hlim). rewrite (proj2 (Z.leb_le _ _)) by lia.
  cbn [assert_that mbind outcome_bind]. eexists. split_and!; [done| |done].
  intros own' Ho. simpl. rewrite Hi, wrap_id by in_word. split.
  - intros j. rewrite Ho. destruct (Z.eqb_spec j id) as [->|]; [rewrite lookup_insert_eq; simpl; lia|].
    rewrite lookup_insert_ne by done. rewrite Hc. lia.
  - intros j l Hj. specialize (Hl j l Hj). rewrite Ho. destruct (Z.eqb_spec j id) as [->|]; [|lia].
    rewrite Hlim in Hj. injection Hj as <-. lia.
Qed.

(** ** The invariant *)

Section TagOps.
Context {G R : Type} `{RL : ReplLaws G R} `{RP : !ReplPktLaws G R}.
Context (ip : IndexingPolicy TaggedKey) (cfg : TagsCfg) (rpid : Packet → Z).
Context (rows : TaggedKey → list nat) (good : TaggedKey → Prop) (num : nat) (Hnum : Z.of_nat num < 2 ^ 32).

Abbreviation ext := (ip_extractTag ip).
Abbreviation blocks t := (entries (t_store t)).

(** A tag and the candidates it is among determine all its candidates. *)
Definition rows_ok : Prop := ∀ key key' v, good key → good key' → v ∈ rows key → v ∈ rows key' →
  ext (k_address key) = ext (k_address key') → k_secure key = k_secure key' → rows key = rows key'.
Context (Hrows : rows_ok).

Definition own (bs : list CacheBlk) (id : Z) : Z :=
  num_of (λ b, blk_isValid b && (b_partitionId b =? id)) bs.
Definition held_by (bs : list CacheBlk) (r : Z) : Z :=
  num_of (λ b, blk_isValid b && (b_srcRequestorId b =? r)) bs.

Definition NoPartition : Z := 2 ^ 64 - 1.

Definition blk_wf (b : CacheBlk) : Prop :=
  if blk_isValid b then 0 ≤ b_srcRequestorId b < maxRequestors cfg
  else blk_isSecure b = false ∧ b_partitionId b = NoPartition.

(** No two candidates of a key hold it. *)
Definition unique (bs : list CacheBlk) : Prop := ∀ key i j, good key → i ∈ rows key → j ∈ rows key →
  holds ip bs key i = true → holds ip bs key j = true → i = j.

Record tags_wf (t : Tags G R) : Prop := {
  tw_cand key : good key → cand ip (t_store t) key (rows key);
  tw_unique : unique (blocks t);
  tw_blk : Forall blk_wf (blocks t);
  tw_len : length (blocks t) = num;
  tw_inuse : tagsInUse (t_stats t) = num_of blk_isValid (blocks t);
  tw_occlen : length (occupancies (t_stats t)) = Z.to_nat (maxRequestors cfg);
  tw_occ r n : occupancies (t_stats t) !! r = Some n → n = held_by (blocks t) (Z.of_nat r);
  tw_pm pps : partitionManager t = Some pps → Forall (pp_ok (own (blocks t))) pps
}.

Lemma own_bound t id : tags_wf t → 0 ≤ own (blocks t) id < 2 ^ 32.
Proof using Hnum. intros Hw. unfold own. split; [apply num_of_nonneg|]. eapply Z.le_lt_trans; [apply num_of_length|]. by rewrite (tw_len t Hw). Qed.

Lemma findBlock_eq t key :
  tags_wf t → good key → findBlock ip t key = Ok (first_hold ip (blocks t) key (rows key)).
Proof. intros Hw Hg. apply (findEntry_eq ip), (tw_cand t Hw key Hg). Qed.

(** A block that changes without its tag, its owner or its validity. *)
Definition same_role (b b' : CacheBlk) : Prop :=
  b_entry b' = b_entry b ∧ b_srcRequestorId b' = b_srcRequestorId b ∧ b_partitionId b' = b_partitionId b.

Lemma num_of_same p i b b' (bs : list CacheBlk) :
  bs !! i = Some b → p b' = p b → num_of p (<[i := b']> bs) = num_of p bs.
Proof. intros Hi Hp. rewrite (num_of_insert p bs i b) by done. rewrite Hp. lia. Qed.

Lemma holds_same bs i b b' key j :
  bs !! i = Some b → same_role b b' → holds ip (<[i := b']> bs) key j = holds ip bs key j.
Proof.
  intros Hi (He & _ & _). rewrite holds_insert by (by eapply lookup_lt_Some).
  destruct (decide (i = j)) as [<-|]; [|done]. unfold holds. rewrite Hi. simpl. by rewrite He.
Qed.

(** The store after such a change, whatever happened to the replacement data. *)
Lemma wf_same t t' i b b' :
  tags_wf t → blocks t !! i = Some b → same_role b b' → blocks t' = <[i := b']> (blocks t) →
  s_sets (t_store t') = s_sets (t_store t) → tagsInUse (t_stats t') = tagsInUse (t_stats t) →
  occupancies (t_stats t') = occupancies (t_stats t) → partitionManager t' = partitionManager t → tags_wf t'.
Proof.
  intros [H1 H2 H3 H4 H5 H6 H7 H8] Hi Hs Hb Hst Hu Ho Hp. pose proof Hs as (He & Hsrc & Hpart).
  assert (length (blocks t') = length (blocks t)) as Hlen by by rewrite Hb, length_insert.
  split; rewrite ?Hu, ?Ho, ?Hp; [| | | | |done| |].
  - intros key Hg. eapply cand_mono; [done| |by apply H1]. by rewrite <-!entries_length.
  - intros key k j Hg Hk Hj. rewrite Hb, !(holds_same _ _ b) by done. by apply H2.
  - rewrite Hb. apply Forall_insert; [done|]. eapply Forall_lookup_1 in H3; [|done].
    unfold blk_wf, blk_isValid, blk_isSecure in *. by rewrite He, Hsrc, Hpart.
  - by rewrite Hlen.
  - rewrite H5, Hb. symmetry. apply (num_of_same _ i b); [done|]. unfold blk_isValid. by rewrite He.
  - intros r n Hn. rewrite (H7 r n Hn), Hb. unfold held_by. symmetry. apply (num_of_same _ i b); [done|].
    unfold blk_isValid. by rewrite He, Hsrc.
  - intros pps Hpps. specialize (H8 pps Hpps). eapply Forall_impl; [exact H8|]. intros [p|] Hpp; [|done].
    assert (∀ id, own (blocks t') id = own (blocks t) id) as Eo.
    { intros id. rewrite Hb. unfold own. apply (num_of_same _ i b); [done|]. unfold blk_isValid. by rewrite He, Hpart. }
    destruct Hpp as [Hc Hl]. split; [intros id; by rewrite Eo|]. intros id l Hid. rewrite Eo. by apply Hl.
Qed.

Lemma cell_at_entry (t : Tags G R) i b :
  blocks t !! i = Some b → ∃ c, cell_at (t_store t) i = Ok c ∧ c_entry c = b ∧ s_cells (t_store t) !! i = Some c.
Proof. intros (c & Hc & He)%entries_cell. exists c. unfold cell_at, deref. by rewrite Hc. Qed.

Lemma put_cell_blocks (t : Tags G R) i b b' r g c :
  blocks t !! i = Some b → c_entry c = b → blocks (put_cell i b' r g c t) = <[i := b']> (blocks t).
Proof.
  intros (c0 & Hc & He)%entries_cell _. unfold put_cell, with_store. cbn [t_store]. by rewrite (put_spec _ _ c0).
Qed.

(** An access: a hit exactly when the block is there; nothing but its reference count and
    the statistics change. *)
Lemma accessBlock_ok curTick pkt t :
  let key := mkKey (pkt_addr pkt) (pkt_isSecure pkt) in
  tags_wf t → good key →
  ∃ t', accessBlock ip cfg curTick pkt t = Ok (first_hold ip (blocks t) key (rows key), lookupLatency cfg, t') ∧
    tags_wf t' ∧ s_sets (t_store t') = s_sets (t_store t) ∧ partitionManager t' = partitionManager t ∧
    (∀ key' j, holds ip (blocks t') key' j = holds ip (blocks t) key' j) ∧
    (∀ id, own (blocks t') id = own (blocks t) id).
Proof using RL RP Hnum.
  intros key Hw Hg. unfold accessBlock. fold key. rewrite findBlock_eq by done. run_ok.
  destruct (first_hold ip (blocks t) key (rows key)) as [i|] eqn:Ef.
  - apply first_hold_Some in Ef as [_ Hh]. unfold holds in Hh.
    destruct (blocks t !! i) as [b|] eqn:Hb; [|done].
    set (t1 := with_stats _ t). assert (blocks t1 !! i = Some b) as Hb1 by done.
    destruct (cell_at_entry t1 i b Hb1) as (c & Ec & Hce & Hc). rewrite Ec. run_ok.
    destruct (law_touch_pkt curTick pkt (c_repl c) (s_pol (t_store t1))) as [[r g] Et]. rewrite Et. run_ok.
    pose proof (put_cell_blocks t1 i b (increaseRefCount (c_entry c)) r g c Hb1 Hce) as Eb.
    assert (same_role b (increaseRefCount (c_entry c))) as Hs by (rewrite Hce; repeat split).
    eexists. split; [done|]. split_and!; [|done|done| |].
    + eapply (wf_same t _ i b); done.
    + intros key' j. rewrite Eb. by apply (holds_same _ _ b).
    + intros id. rewrite Eb. unfold own. apply (num_of_same _ i b); [done|]. by rewrite Hce.
  - eexists. split; [done|]. split_and!; try done. by destruct Hw.
Qed.

Lemma deref_all_cells (s : Store G CacheBlk R) ps ics :
  deref_all s ps = Ok ics → ∀ i c, (i, c) ∈ ics → s_cells s !! i = Some c.
Proof.
  revert ics. induction ps as [|p ps IH]; intros ics; simpl; [intros [= <-]; by intros ? ? ?%elem_of_nil|].
  intros ([i c] & E1 & (ics' & E2 & [= <-])%outcome_bind_ok)%outcome_bind_ok j d [[= -> ->]|Hj]%elem_of_cons; [|by eapply IH].
  unfold deref in E1. destruct p as [k|]; [|done]. destruct (s_cells s !! k) eqn:Ek; [|done]. by injection E1 as -> ->.
Qed.

(** The victim: none, or a candidate that passed the policies; the blocks stay. *)
Lemma findVictim_ok t key id :
  tags_wf t → good key →
  ∃ o t', findVictim ip t key id = Ok (o, t') ∧ tags_wf t' ∧ blocks t' = blocks t ∧
    s_sets (t_store t') = s_sets (t_store t) ∧ partitionManager t' = partitionManager t ∧
    match o with
    | None => partitionManager t ≠ None
    | Some v => v ∈ rows key ∧ ∃ b, blocks t !! v = Some b ∧
        ∀ pps, partitionManager t = Some pps → ∀ p limit cur, PMax p ∈ pps → maxCapacity p !! id = Some limit →
          curCapacity p !! id = Some cur → limit ≤ cur → b_partitionId b = id
    end.
Proof using RL Hnum.
  intros Hw Hg. pose proof (tw_cand t Hw key Hg) as [Hp Hne Hnd Hin Hb]. unfold findVictim. rewrite Hp.
  destruct (deref_all_eq (t_store t) (rows key) Hin) as (ics & E & Hics). rewrite E. run_ok.
  set (es := match partitionManager t with Some _ => _ | None => _ end).
  assert (∀ ic, ic ∈ es → ic ∈ ics ∧ ∀ pps, partitionManager t = Some pps → ∀ p limit cur, PMax p ∈ pps →
    maxCapacity p !! id = Some limit → curCapacity p !! id = Some cur → limit ≤ cur → b_partitionId (c_entry ic.2) = id) as Hes.
  { intros ic. unfold es. destruct (partitionManager t) as [pps|]; [|done].
    intros [? Hf]%filterByPartition_elem. split; [done|]. intros pps' [= <-]. exact Hf. }
  assert (length es ≤ length ics)%nat as Hle.
  { unfold es. destruct (partitionManager t); [|done]. by apply submseteq_length, filterByPartition_submseteq. }
  assert (partitionManager t = None → es = ics) as Hnone by (unfold es; by intros ->).
  clearbody es. destruct es as [|e0 es'].
  { exists None, t. split_and!; try done. intros Hn. destruct ics; [by rewrite <-Hics in Hne|by specialize (Hnone Hn)]. }
  set (es := e0 :: es') in *. assert ((c_repl ∘ snd <$> es) ≠ []) as Hes0 by done.
  pose proof (law_victim (c_repl ∘ snd <$> es) (s_pol (t_store t)) Hes0) as Hv.
  rewrite length_fmap in Hv. assert (length ics = length (rows key)) as Hl by by rewrite <-Hics, length_fmap.
  specialize (Hv ltac:(lia)). destruct (rp_getVictim _ _) as [[[v rs] g]|]; [|done]. destruct Hv as [Hlt _]. run_ok.
  apply lookup_lt_is_Some in Hlt as [[i c] Hi]. rewrite Hi.
  destruct (Hes (i, c)) as [Hin' Hpol]; [by eapply list_elem_of_lookup_2|].
  pose proof (deref_all_cells _ _ _ E _ _ Hin') as Hc.
  set (t' := with_store _ t).
  assert (blocks t' = blocks t) as Eb by apply write_back_entries.
  exists (Some i), t'. split_and!; [done| |done|done|done|..].
  - destruct Hw. split; rewrite ?Eb; try done. intros k Hk. apply (cand_mono ip (t_store t)); [done| |by apply tw_cand0]. by rewrite <-!entries_length, Eb.
  - rewrite <-Hics. apply list_elem_of_fmap. by exists (i, c).
  - exists (c_entry c). split; [|exact Hpol]. unfold entries. by rewrite list_lookup_fmap, Hc.
Qed.

(** *** Replacing a block

    The counters after a block [b] has been replaced by [b']: [d] is the change in the
    number of valid blocks, all of it at the requestor [r]. *)
Lemma unique_drop bs i b : unique bs → (i < length bs)%nat → blk_isValid b = false → unique (<[i := b]> bs).
Proof.
  intros Hu Hi Hb key j k Hg Hj Hk. rewrite !holds_insert by done.
  destruct (decide (i = j)) as [<-|]; [simpl; unfold te_match; unfold blk_isValid in Hb; by rewrite Hb|].
  destruct (decide (i = k)) as [<-|]; [simpl; unfold te_match; unfold blk_isValid in Hb; by rewrite Hb|]. by apply Hu.
Qed.

Lemma occupancies_moved (occ : list Z) (bs : list CacheBlk) i b b' r d :
  bs !! i = Some b →
  (∀ q, Z.b2z (blk_isValid b' && (b_srcRequestorId b' =? q)) - Z.b2z (blk_isValid b && (b_srcRequestorId b =? q))
        = if q =? r then d else 0) → 0 ≤ r →
  (∀ q n, occ !! q = Some n → n = held_by bs (Z.of_nat q)) →
  ∀ q n, alter (Z.add d) (Z.to_nat r) occ !! q = Some n → n = held_by (<[i := b']> bs) (Z.of_nat q).
Proof.
  intros Hi Hd Hr Ho q n. unfold held_by. rewrite (num_of_insert _ bs i b) by done. cbv beta. specialize (Hd (Z.of_nat q)).
  destruct (decide (Z.to_nat r = q)) as [<-|Hne].
  - rewrite list_lookup_alter_eq. intros (m & Hm & ->)%fmap_Some. rewrite (Ho _ _ Hm). unfold held_by.
    rewrite Z2Nat.id in * by lia. rewrite Z.eqb_refl in Hd. lia.
  - rewrite list_lookup_alter_ne by done. intros Hn. rewrite (Ho _ _ Hn). unfold held_by.
    rewrite (proj2 (Z.eqb_neq (Z.of_nat q) r)) in Hd by lia. lia.
Qed.

Lemma own_moved (bs : list CacheBlk) i b b' id :
  bs !! i = Some b → own (<[i := b']> bs) id = own bs id
    + (Z.b2z (blk_isValid b' && (b_partitionId b' =? id)) - Z.b2z (blk_isValid b && (b_partitionId b =? id))).
Proof. intros Hi. unfold own. rewrite (num_of_insert _ bs i b) by done. cbv beta. lia. Qed.

(** The manager after a notification of the change. *)
Definition manager_moved (t : Tags G R) (id d : Z) (pm : option (list PartitioningPolicy)) : Prop :=
  match partitionManager t, pm with
  | None, None => True
  | Some pps, Some pps' => moved (own (blocks t)) id d pps pps'
  | _, _ => False
  end.

Lemma put_twice (t : Tags G R) i b b1 b2 r g (c : Cell CacheBlk R) :
  blocks t !! i = Some b →
  entries (put (put_entry (t_store t) i b1) i (mkCell b2 r (c_set c) (c_way c)) g) = <[i := b2]> (blocks t).
Proof.
  intros Hb. assert (entries (put_entry (t_store t) i b1) !! i = Some b1) as Hb1.
  { rewrite put_entry_spec. apply list_lookup_insert_eq. by eapply lookup_lt_Some. }
  apply entries_cell in Hb1 as (c1 & Hc1 & _). rewrite (put_spec _ _ c1) by done.
  by rewrite put_entry_spec, list_insert_insert_eq.
Qed.

(** Invalidation of a valid block: it is fresh afterwards, and every count follows. *)
Lemma invalidate_ok t i b :
  tags_wf t → blocks t !! i = Some b → blk_isValid b = true →
  ∃ t', invalidate i t = Ok t' ∧ tags_wf t' ∧ blocks t' = <[i := blk_invalidate b]> (blocks t) ∧
    s_sets (t_store t') = s_sets (t_store t) ∧ manager_moved t (b_partitionId b) (-1) (partitionManager t').
Proof using RL Hnum.
  intros Hw Hb Hv. pose proof Hw as [H1 H2 H3 H4 H5 H6 H7 H8].
  destruct (cell_at_entry t i b Hb) as (c & Ec & Hce & Hc). unfold invalidate. rewrite Ec. run_ok. rewrite Hce.
  assert (blk_wf b) as Hbw by (by eapply Forall_lookup_1 in H3). unfold blk_wf in Hbw. rewrite Hv in Hbw.
  assert (∃ pm, (match partitionManager t with
       | Some pps => pps ← notifyRelease (b_partitionId b) pps; Ok (Some pps) | None => Ok None end) = Ok pm ∧
       manager_moved t (b_partitionId b) (-1) pm) as (pm & Epm & Hpm).
  { unfold manager_moved. destruct (partitionManager t) as [pps|]; [|by exists None].
    destruct (release_moved (own (blocks t)) (b_partitionId b) pps) as (pps' & E & Hm); [by apply H8| |].
    { split; [|pose proof (own_bound t (b_partitionId b) Hw); lia]. unfold own. eapply num_of_pos; [exact Hb|]. by rewrite Hv, Z.eqb_refl. }
    rewrite E. run_ok. by exists (Some pps'). }
  rewrite Epm. run_ok. unfold base_invalidate. rewrite Ec. run_ok. rewrite Hce, Hv. cbn [assert_that mbind outcome_bind].
  rewrite bool_decide_true by lia. cbn [assert_that mbind outcome_bind].
  set (t1 := with_stats _ _).
  assert (blocks t1 !! i = Some (blk_invalidate b)) as Hb1.
  { unfold t1, with_stats, with_store. cbn [t_store]. rewrite put_entry_spec. apply list_lookup_insert_eq. by eapply lookup_lt_Some. }
  destruct (cell_at_entry t1 i _ Hb1) as (c1 & Ec1 & Hce1 & Hc1). rewrite Ec1. run_ok.
  destruct (law_invalidate (c_repl c1) (s_pol (t_store t1))) as [[r g] Er]. rewrite Er. run_ok.
  set (t' := with_manager _ _). exists t'. split; [done|].
  assert (blocks t' = <[i := blk_invalidate b]> (blocks t)) as Eb.
  { unfold t', put_cell, with_manager, with_store. cbn [t_store]. rewrite Hce1. by apply (put_twice t i b). }
  split_and!; [|done|done|exact Hpm].
  split; rewrite ?Eb.
  - intros key Hg. apply (cand_mono ip (t_store t)); [done| |by apply H1]. by rewrite <-!entries_length, Eb, length_insert.
  - apply unique_drop; [done|by eapply lookup_lt_Some|done].
  - by apply Forall_insert.
  - by rewrite length_insert.
  - rewrite (num_of_insert _ _ i b), Hv by done. cbn. lia.
  - cbn. by rewrite length_alter.
  - cbn. apply (occupancies_moved _ _ _ b); [done| |lia|done]. intros q. rewrite Hv. cbn. rewrite (Z.eqb_sym q). by destruct (_ =? q).
  - intros pps Hpps. unfold manager_moved in Hpm. cbn in Hpps. subst pm. destruct (partitionManager t) as [pps0|]; [|done].
    destruct Hpm as [Hpm _]. apply Hpm. intros j. rewrite (own_moved _ i b) by done. rewrite Hv. cbn. rewrite (Z.eqb_sym j). by destruct (_ =? j).
Qed.

(** A new block for a key that no candidate held keeps the blocks distinct. *)
Lemma unique_put bs key v b :
  unique bs → good key → v ∈ rows key → (v < length bs)%nat → first_hold ip bs key (rows key) = None →
  te_tagof (b_entry b) = Some (ext (k_address key), k_secure key) → unique (<[v := b]> bs).
Proof using Hrows.
  intros Hu Hg Hv Hlt Hnone Hb key' j k Hg' Hj Hk. rewrite !holds_insert by done. rewrite first_hold_None in Hnone.
  assert (∀ x, v ∈ rows key' → x ∈ rows key' → e_match ext key' b = true → holds ip bs key' x = true → False) as Hno.
  { intros x Hv' Hx Hm Hh. simpl in Hm. apply te_match_spec in Hm. rewrite Hb in Hm. injection Hm as E1 E2.
    rewrite <-(Hrows key key' v) in Hx by done. specialize (Hnone x Hx).
    unfold holds in *. destruct (bs !! x) as [bx|]; [|done]. simpl in *.
    apply te_match_spec in Hh. rewrite <-E1, <-E2 in Hh. apply te_match_spec in Hh. congruence. }
  destruct (decide (v = j)) as [<-|], (decide (v = k)) as [<-|]; [done| | |by apply Hu].
  - intros Hm Hh. by destruct (Hno k).
  - intros Hh Hm. by destruct (Hno j).
Qed.

(** What [BaseTags::insertBlock] leaves. *)
Lemma base_insertBlock_ok curTick task pkt v b t :
  let requestor := req_requestorId (pkt_req pkt) in
  tags_wf t → blocks t !! v = Some b → blk_isValid b = false → 0 ≤ requestor < maxRequestors cfg →
  ∃ t' b', base_insertBlock ip cfg rpid curTick task pkt v t = Ok t' ∧ t_store t' = put_entry (t_store t) v b' ∧
    tagsInUse (t_stats t') = tagsInUse (t_stats t) + 1 ∧ partitionManager t' = partitionManager t ∧
    occupancies (t_stats t') = alter (Z.add 1) (Z.to_nat requestor) (occupancies (t_stats t)) ∧
    te_tagof (b_entry b') = Some (ext (pkt_addr pkt), pkt_isSecure pkt) ∧
    b_srcRequestorId b' = requestor ∧ b_partitionId b' = packet_partition rpid t pkt.
Proof.
  intros requestor Hw Hb Hv Hreq. destruct (cell_at_entry t v b Hb) as (c & Ec & Hce & Hc).
  unfold base_insertBlock. rewrite Ec. run_ok. rewrite Hce, Hv. cbn [negb assert_that mbind outcome_bind]. fold requestor.
  rewrite (proj2 (Z.ltb_lt _ _)) by lia. cbn [assert_that mbind outcome_bind].
  assert (blk_wf b) as Hbw by (eapply Forall_lookup_1; [by apply tw_blk|done]). unfold blk_wf in Hbw. rewrite Hv in Hbw. destruct Hbw as [Hsec _].
  unfold blk_insert, blk_insert_key, te_insert. rewrite Hv. unfold blk_isValid in Hv. rewrite Hv.
  unfold blk_isSecure in Hsec. rewrite Hsec. cbn [negb assert_that mbind outcome_bind k_secure k_address].
  eexists _, _. split; [done|]. split; [done|].
  split_and!; [by destruct (negb _ && _)|done|by destruct (negb _ && _)| |done|done].
  unfold te_tagof. cbn. by destruct (pkt_isSecure pkt).
Qed.

Lemma acquire_manager t id :
  tags_wf t → (∀ pps, partitionManager t = Some pps → policed pps id ∧
     ∀ limit, limit_of pps id limit → own (blocks t) id < limit ∨ own (blocks t) id = 0) →
  ∃ pm, (match partitionManager t with
         | Some pps => pps ← notifyAcquire id pps; Ok (Some pps) | None => Ok None end) = Ok pm ∧ manager_moved t id 1 pm.
Proof.
  intros Hw Hpol. unfold manager_moved. destruct (partitionManager t) as [pps|] eqn:Ep; [|by exists None].
  destruct (Hpol pps eq_refl) as [Hp Hl]. pose proof (own_bound t id Hw).
  destruct (acquire_moved (own (blocks t)) id pps) as (pps' & E & Hm); [by eapply tw_pm|done|lia|done|].
  rewrite E. run_ok. by exists (Some pps').
Qed.

Lemma tagof_valid b x : te_tagof (b_entry b) = Some x → blk_isValid b = true.
Proof. unfold te_tagof, blk_isValid. by destruct (te_valid _). Qed.

(** Insertion into an invalid candidate. *)
Lemma insertBlock_ok curTick task pkt v b t :
  let key := mkKey (pkt_addr pkt) (pkt_isSecure pkt) in
  let requestor := req_requestorId (pkt_req pkt) in
  tags_wf t → good key → v ∈ rows key → blocks t !! v = Some b → blk_isValid b = false →
  first_hold ip (blocks t) key (rows key) = None → 0 ≤ requestor < maxRequestors cfg →
  (∀ pps, partitionManager t = Some pps → policed pps (rpid pkt) ∧
     ∀ limit, limit_of pps (rpid pkt) limit → own (blocks t) (rpid pkt) < limit ∨ own (blocks t) (rpid pkt) = 0) →
  ∃ t' b', insertBlock ip cfg rpid curTick task pkt v t = Ok t' ∧ tags_wf t' ∧
    blocks t' = <[v := b']> (blocks t) ∧ s_sets (t_store t') = s_sets (t_store t) ∧
    te_tagof (b_entry b') = Some (ext (pkt_addr pkt), pkt_isSecure pkt) ∧
    b_srcRequestorId b' = requestor ∧ b_partitionId b' = packet_partition rpid t pkt ∧
    manager_moved t (rpid pkt) 1 (partitionManager t').
Proof using RL RP Hrows Hnum.
  intros key requestor Hw Hg Hvr Hb Hv Hnone Hreq Hpol. pose proof Hw as [H1 H2 H3 H4 H5 H6 H7 H8].
  destruct (base_insertBlock_ok curTick task pkt v b t Hw Hb Hv Hreq) as (t1 & b' & E1 & Es & Eu & Ep & Eo & Ht & Hs & Hpt).
  unfold insertBlock. rewrite E1. run_ok. rewrite Ep. destruct (acquire_manager t (rpid pkt) Hw Hpol) as (pm & Epm & Hpm).
  rewrite Epm. run_ok. assert (blocks t1 !! v = Some b') as Hb1.
  { rewrite Es, put_entry_spec. apply list_lookup_insert_eq. by eapply lookup_lt_Some. }
  destruct (cell_at_entry t1 v b' Hb1) as (c1 & Ec1 & Hce1 & Hc1). rewrite Ec1. run_ok.
  destruct (law_reset_pkt curTick pkt (c_repl c1) (s_pol (t_store t1))) as [[r g] Er]. rewrite Er. run_ok.
  set (t' := with_manager _ _). exists t', b'. split; [done|].
  assert (blocks t' = <[v := b']> (blocks t)) as Eb.
  { unfold t', put_cell, with_manager, with_store. cbn [t_store]. rewrite Hce1, Es. by apply (put_twice t v b). }
  assert (s_sets (t_store t') = s_sets (t_store t)) as Ess by (unfold t'; cbn; by rewrite Es).
  pose proof (tagof_valid _ _ Ht) as Hv'. split_and!; try done.
  split; rewrite ?Eb.
  - intros k Hk. apply (cand_mono ip (t_store t)); [done| |by apply H1]. by rewrite <-!entries_length, Eb, length_insert.
  - by eapply unique_put; [..|by eapply lookup_lt_Some| |].
  - apply Forall_insert; [done|]. unfold blk_wf. rewrite Hv', Hs. done.
  - by rewrite length_insert.
  - rewrite (num_of_insert _ _ v b), Hv, Hv' by done. cbn. rewrite Eu, H5. lia.
  - cbn. by rewrite Eo, length_alter.
  - cbn. rewrite Eo. apply (occupancies_moved _ _ _ b); [done| |lia|done]. intros q. rewrite Hv, Hv', Hs. cbn.
    rewrite (Z.eqb_sym q). fold requestor. by destruct (_ =? q).
  - intros pps Hpps. unfold manager_moved in Hpm. cbn in Hpps. subst pm. destruct (partitionManager t) as [pps0|] eqn:Epm0; [|done].
    destruct Hpm as [Hpm _]. apply Hpm. intros j. rewrite (own_moved _ v b), Hv, Hv', Hpt by done.
    unfold packet_partition. rewrite Epm0. cbn. rewrite (Z.eqb_sym j). by destruct (_ =? j).
Qed.

(** *** A fill *)

(** Replacing what a key was found in, when it was held once, leaves the key without a
    block. *)
Lemma first_hold_evict bs key v b :
  unique bs → good key → (v < length bs)%nat → (v ∈ rows key → e_match ext key b = false) →
  first_hold ip bs key (rows key) = Some v → first_hold ip (<[v := b]> bs) key (rows key) = None.
Proof.
  intros Hu Hg Hlt Hm Hf. apply first_hold_Some in Hf as [Hv Hh]. apply first_hold_None. intros i Hi.
  rewrite holds_insert by done. destruct (decide (v = i)) as [<-|Hne]; [by apply Hm|].
  destruct (holds ip bs key i) eqn:Ei; [|done]. destruct Hne. by eapply Hu.
Qed.

(** The lookups after the block [v] has been given to [key]. *)
Definition filled_at (bs bs' : list CacheBlk) (key : TaggedKey) (v : nat) : Prop :=
  v ∈ rows key ∧ first_hold ip bs' key (rows key) = Some v ∧
  ∀ key', good key' → (v ∈ rows key' → (ext (k_address key'), k_secure key') ≠ (ext (k_address key), k_secure key)) →
    first_hold ip bs' key' (rows key')
    = if decide (first_hold ip bs key' (rows key') = Some v) then None else first_hold ip bs key' (rows key').

Lemma filled_at_put bs key v b :
  unique bs → good key → v ∈ rows key → (v < length bs)%nat → first_hold ip bs key (rows key) = None →
  te_tagof (b_entry b) = Some (ext (k_address key), k_secure key) → filled_at bs (<[v := b]> bs) key v.
Proof.
  intros Hu Hg Hv Hlt Hnone Hb. split; [done|]. split.
  - apply first_hold_put; [done..|]. by apply te_match_spec.
  - intros key' Hg' Hne. assert (v ∈ rows key' → e_match ext key' b = false) as Hm.
    { intros Hv'. specialize (Hne Hv'). destruct (e_match ext key' b) eqn:E; [|done]. apply te_match_spec in E.
      rewrite Hb in E. injection E as E1 E2. by rewrite E1, E2 in Hne. }
    case_decide as Hd; [by apply first_hold_evict|by apply first_hold_replace].
Qed.

(** The room a victim leaves to the partition it is taken for. *)
Lemma room_after t t1 v b id pps :
  tags_wf t → blocks t !! v = Some b → id ≠ NoPartition → partitionManager t = Some pps →
  (∀ p limit cur, PMax p ∈ pps → maxCapacity p !! id = Some limit → curCapacity p !! id = Some cur → limit ≤ cur → b_partitionId b = id) →
  (t1 = t ∧ blk_isValid b = false ∨ blk_isValid b = true ∧ blocks t1 = <[v := blk_invalidate b]> (blocks t)) →
  ∀ limit, limit_of pps id limit → own (blocks t1) id < limit ∨ own (blocks t1) id = 0.
Proof.
  intros Hw Hb Hid Hpm Hfull Ht1 limit (p & Hp & Hl).
  pose proof (tw_pm t Hw pps Hpm) as Hok. rewrite Forall_forall in Hok. destruct (Hok _ Hp) as [Hc Hlim].
  pose proof (Hc id) as Hcid. destruct (Hlim id limit Hl) as [H0 Hmax].
  assert (own (blocks t1) id ≤ own (blocks t) id) as Hle.
  { destruct Ht1 as [[-> _]|[Hv ->]]; [done|]. rewrite (own_moved _ v b) by done. cbn. destruct (_ && _); cbn; lia. }
  pose proof (num_of_nonneg (λ b, blk_isValid b && (b_partitionId b =? id)) (blocks t1)) as Hnn. fold (own (blocks t1) id) in Hnn.
  destruct (curCapacity p !! id) as [cur|] eqn:Ecur; simpl in Hcid; [|right; lia].
  destruct (decide (limit ≤ cur)) as [Hge|]; [|left; lia]. specialize (Hfull p limit cur Hp Hl Ecur Hge).
  destruct Ht1 as [[-> Hv]|[Hv ->]].
  - pose proof (tw_blk t Hw) as Hbw. eapply Forall_lookup_1 in Hbw; [|exact Hb]. unfold blk_wf in Hbw. rewrite Hv in Hbw.
    destruct Hid. destruct Hbw as [_ <-]. done.
  - rewrite (own_moved _ v b), Hv, Hfull, Z.eqb_refl in * by done. cbn in *. lia.
Qed.

(** The parts of the manager a run does not change. *)
Definition same_limits (t t' : Tags G R) : Prop :=
  match partitionManager t, partitionManager t' with
  | None, None => True
  | Some pps, Some pps' => (∀ j limit, limit_of pps' j limit ↔ limit_of pps j limit) ∧ (∀ j, policed pps' j ↔ policed pps j)
  | _, _ => False
  end.

Lemma same_limits_refl t : same_limits t t.
Proof. unfold same_limits. by destruct (partitionManager t). Qed.

Lemma same_limits_eq t t' : partitionManager t' = partitionManager t → same_limits t t'.
Proof. unfold same_limits. intros ->. by destruct (partitionManager t). Qed.

Lemma same_limits_trans t1 t2 t3 : same_limits t1 t2 → same_limits t2 t3 → same_limits t1 t3.
Proof.
  unfold same_limits. destruct (partitionManager t1), (partitionManager t2), (partitionManager t3); try done.
  intros [H1 H2] [H3 H4]. split; intros; etrans; eauto.
Qed.

Lemma moved_limits t t' id d : manager_moved t id d (partitionManager t') → same_limits t t'.
Proof. unfold manager_moved, same_limits. destruct (partitionManager t), (partitionManager t'); [|done..]. by intros (_ & ? & ?). Qed.

(** Every partition the packets name is known to every capacity policy. *)
Definition all_policed (t : Tags G R) (id : Z) : Prop := ∀ pps, partitionManager t = Some pps → policed pps id.

Lemma all_policed_limits t t' id : same_limits t t' → all_policed t id → all_policed t' id.
Proof.
  unfold same_limits, all_policed. intros Hs Hp pps' E. rewrite E in Hs.
  destruct (partitionManager t) as [pps|]; [|done]. apply Hs. by apply Hp.
Qed.

Definition fill_ok (t : Tags G R) (pkt : Packet) : Prop :=
  good (mkKey (pkt_addr pkt) (pkt_isSecure pkt)) ∧ 0 ≤ req_requestorId (pkt_req pkt) < maxRequestors cfg ∧
  all_policed t (rpid pkt) ∧ rpid pkt ≠ NoPartition.

(** Making room: the victim [b] is invalidated if it is valid. *)
Lemma evict_ok t v b key :
  tags_wf t → blocks t !! v = Some b → first_hold ip (blocks t) key (rows key) = None →
  ∃ t' b', (if blk_isValid b then invalidate v t else Ok t) = Ok t' ∧ tags_wf t' ∧ same_limits t t' ∧
    blocks t' !! v = Some b' ∧ blk_isValid b' = false ∧ (∀ x, <[v := x]> (blocks t') = <[v := x]> (blocks t)) ∧
    first_hold ip (blocks t') key (rows key) = None ∧
    (t' = t ∧ blk_isValid b = false ∨ blk_isValid b = true ∧ blocks t' = <[v := blk_invalidate b]> (blocks t)).
Proof using RL Hnum.
  intros Hw Hb Hnone. destruct (blk_isValid b) eqn:Evb; [|exists t, b; split_and!; auto using same_limits_refl].
  destruct (invalidate_ok t v b Hw Hb Evb) as (t2 & E2 & Hw2 & Eb2 & _ & Hm2).
  assert (v < length (blocks t))%nat by by eapply lookup_lt_Some.
  exists t2, (blk_invalidate b). split_and!; [done|done|by eapply moved_limits| | | | |by right].
  - rewrite Eb2. by apply list_lookup_insert_eq.
  - done.
  - intros x. by rewrite Eb2, list_insert_insert_eq.
  - rewrite Eb2, first_hold_replace; [done..|]. by rewrite Hnone.
Qed.

Lemma replaceBlock_ok curTick task pkt t :
  let key := mkKey (pkt_addr pkt) (pkt_isSecure pkt) in
  tags_wf t → fill_ok t pkt → first_hold ip (blocks t) key (rows key) = None →
  ∃ o t', replaceBlock ip cfg rpid curTick task pkt t = Ok (o, t') ∧ tags_wf t' ∧ same_limits t t' ∧
    match o with
    | None => partitionManager t ≠ None ∧ blocks t' = blocks t
    | Some v => filled_at (blocks t) (blocks t') key v
    end.
Proof using RL RP Hrows Hnum.
  intros key Hw (Hg & Hreq & Hpol & Hnp) Hnone. unfold replaceBlock. fold key.
  destruct (findVictim_ok t key (packet_partition rpid t pkt) Hw Hg) as (o & t1 & E1 & Hw1 & Eb1 & _ & Epm1 & Ho).
  rewrite E1. run_ok. destruct o as [v|].
  2:{ exists None, t1. split_and!; try done. by apply same_limits_eq. }
  destruct Ho as [Hv (b & Hb & Hfull)]. rewrite <-Eb1 in Hb, Hnone. destruct (cell_at_entry t1 v b Hb) as (c & Ec & Hce & _).
  rewrite Ec. run_ok. rewrite Hce.
  destruct (evict_ok t1 v b key Hw1 Hb Hnone) as (t2 & b2 & E2 & Hw2 & Hs2 & Hb2 & Hv2 & Hins & Hnone2 & Hcase).
  rewrite E2. run_ok.
  assert (same_limits t t2) as Hs by (eapply same_limits_trans; [by apply same_limits_eq|done]).
  destruct (insertBlock_ok curTick task pkt v b2 t2) as (t3 & b3 & E3 & Hw3 & Eb3 & _ & Ht3 & _ & _ & Hm3); try done.
  { intros pps2 Hp2. split; [by apply (all_policed_limits t t2 _ Hs Hpol)|]. intros limit Hl.
    unfold same_limits in Hs2. rewrite Hp2 in Hs2. destruct (partitionManager t1) as [pps1|] eqn:Ep1; [|done].
    apply Hs2 in Hl. revert limit Hl. eapply (room_after t1 t2 v b); [done|done|done|done| |done].
    unfold packet_partition in Hfull. rewrite <-Epm1 in Hfull. by apply Hfull. }
  rewrite E3. run_ok. exists (Some v), t3. split_and!; [done|done| |].
  - eapply same_limits_trans; [exact Hs|]. by eapply moved_limits.
  - rewrite Eb3, Hins, <-Eb1. apply filled_at_put; try done; [by apply tw_unique|by eapply lookup_lt_Some].
Qed.

(** *** Runs *)

Definition tag_op_ok (t : Tags G R) (op : TagOp) : Prop :=
  match op with
  | TAccess pkt => good (mkKey (pkt_addr pkt) (pkt_isSecure pkt))
  | TFill _ pkt => fill_ok t pkt
  | TInvalidate i => (i < num)%nat
  end.

Lemma tag_op_ok_mono t t' op : same_limits t t' → tag_op_ok t op → tag_op_ok t' op.
Proof.
  intros Hs. destruct op as [pkt|task pkt|i]; simpl; [done| |done].
  intros (H0 & H1 & H2 & H3). split; [done|]. split; [done|]. split; [by eapply all_policed_limits|done].
Qed.

Lemma do_tag_ok curTick op t :
  tags_wf t → tag_op_ok t op → ∃ t', do_tag ip cfg rpid curTick op t = Ok t' ∧ tags_wf t' ∧ same_limits t t'.
Proof using RL RP Hrows Hnum.
  intros Hw Hop. destruct op as [pkt|task pkt|i]; simpl in *.
  - destruct (accessBlock_ok curTick pkt t Hw Hop) as (t' & -> & Hw' & _ & Ep & _). run_ok.
    exists t'. split_and!; [done..|]. by apply same_limits_eq.
  - rewrite findBlock_eq by (done || apply Hop). run_ok. destruct (first_hold _ _ _ _) eqn:Ef.
    { exists t. split_and!; [done..|]. apply same_limits_refl. }
    destruct (replaceBlock_ok curTick task pkt t Hw Hop Ef) as (o & t' & -> & Hw' & Hs & _). run_ok. eauto.
  - destruct (lookup_lt_is_Some_2 (blocks t) i) as [b Hb]; [by rewrite (tw_len t Hw)|].
    destruct (cell_at_entry t i b Hb) as (c & -> & Hce & _). run_ok. rewrite Hce. destruct (blk_isValid b) eqn:Ev.
    + destruct (invalidate_ok t i b Hw Hb Ev) as (t' & -> & Hw' & _ & _ & Hm). exists t'. split_and!; [done..|]. by eapply moved_limits.
    + exists t. split_and!; [done..|]. apply same_limits_refl.
Qed.

Lemma run_tags_ok ops t :
  tags_wf t → Forall (tag_op_ok t ∘ snd) ops →
  ∃ t', run_tags ip cfg rpid ops t = Ok t' ∧ tags_wf t' ∧ same_limits t t'.
Proof using RL RP Hrows Hnum.
  revert t. induction ops as [|[tick op] ops IH]; intros t Hw Hops; simpl.
  { exists t. split_and!; [done..|]. apply same_limits_refl. }
  apply Forall_cons in Hops as [Hop Hops]. destruct (do_tag_ok tick op t Hw Hop) as (t1 & -> & Hw1 & Hs1). run_ok.
  destruct (IH t1 Hw1) as (t2 & -> & Hw2 & Hs2).
  { eapply Forall_impl; [exact Hops|]. intros [? ?]. by apply tag_op_ok_mono. }
  exists t2. split_and!; [done..|]. by eapply same_limits_trans.
Qed.
End TagOps.

(** ** The set-associative store *)

(** A policy nobody has used yet. *)
Definition pp_fresh (pp : PartitioningPolicy) : Prop :=
  match pp with
  | PWay _ => True
  | PMax p => curCapacity p = ∅ ∧ ∀ id limit, maxCapacity p !! id = Some limit → 0 ≤ limit
  end.

Lemma configure_all_fresh ics p p' :
  pp_fresh (PMax p) → configure_all ics p = Ok p' → pp_fresh (PMax p').
Proof.
  revert p. induction ics as [|[id frac] ics IH]; intros p Hp; simpl; [by intros [= <-]|].
  intros (p1 & E1 & E2)%outcome_bind_ok. eapply IH; [|done].
  apply outcome_bind_ok in E1 as (_ & _ & [= <-]). destruct Hp as [Hc Hl]. split; [done|]. cbn. unfold emplace.
  destruct (maxCapacity p !! id) eqn:E; [done|]. intros j l. destruct (decide (j = id)) as [->|].
  - rewrite lookup_insert_eq. intros [= <-]. apply wrap_range. lia.
  - rewrite lookup_insert_ne by done. apply Hl.
Qed.

Lemma maxcap_new_fresh size blk ids caps p : maxcap_new size blk ids caps = Ok p → pp_fresh (PMax p).
Proof.
  unfold maxcap_new. intros (_ & _ & E)%outcome_bind_ok. eapply configure_all_fresh; [|done]. split; [done|].
  intros id l. cbn. by rewrite lookup_empty.
Qed.

Section SetAssocStore.
Context {G R : Type} `{RL : ReplLaws G R} `{RP : !ReplPktLaws G R}.
Context (ix : Indexing) (n : Z) (Hix : ix_wf ix n) (cfg : TagsCfg) (rpid : Packet → Z).

Definition set_rows (key : TaggedKey) : list nat :=
  seq (Z.to_nat (tagged_extractSet ix key) * Z.to_nat (ix_assoc ix)) (Z.to_nat (ix_assoc ix)).
Definition good_key (key : TaggedKey) : Prop := in_u 64 (k_address key).

Lemma set_rows_ok : rows_ok (TaggedSetAssociative ix) set_rows good_key.
Proof.
  intros key key' v _ _ Hv Hv' _ _. unfold set_rows in *. apply elem_of_seq in Hv, Hv'. assert (Z.to_nat (tagged_extractSet ix key) = Z.to_nat (tagged_extractSet ix key')) as -> by nia. done.
Qed.

(** Every block of a new store is invalid, and its policies are satisfied. *)
Lemma tagsInit_ok pm sets g :
  (∀ g, is_ok (rp_instantiate (R := R) g)) → sets_wf ix sets → numBlocks cfg = ix_numSets ix * ix_assoc ix →
  numBlocks cfg < 2 ^ 32 → (∀ pps, pm = Some pps → Forall pp_fresh pps) →
  ∃ t, tagsInit (R := R) (TaggedSetAssociative ix) cfg (ix_assoc ix) pm sets g = Ok t ∧ partitionManager t = pm ∧
    entries (t_store t) = replicate (Z.to_nat (numBlocks cfg)) blk_new ∧
    tags_wf (TaggedSetAssociative ix) cfg set_rows good_key (Z.to_nat (numBlocks cfg)) t.
Proof using Hix RL.
  intros Hinst Hsets Hnb Hlt Hpm. pose proof (ixw_assoc _ _ Hix) as Ha. pose proof (ixw_sets _ _ Hix) as Hs.
  assert (0 < ix_numSets ix) by (rewrite Hs; apply Z.pow_pos_nonneg; destruct Hix; lia).
  destruct (assoc_new_spec (TaggedSetAssociative ix) n Hix ltac:(cbn; nia) (tagged_extractSet ix) ltac:(done) blk_new (mkStore sets [] g) Hinst Hsets)
    as (a & s & E & Hw & He & Hc). cbn [ip_base TaggedSetAssociative] in *.
  unfold assoc_new in E. apply outcome_bind_ok in E as (_ & _ & E). apply outcome_bind_ok in E as (s1 & E & [= _ ->]).
  unfold tagsInit. rewrite Hnb, E. run_ok.
  assert (entries s = replicate (Z.to_nat (ix_numSets ix * ix_assoc ix)) blk_new) as Eb.
  { rewrite He, Z2Nat.inj_mul by lia. done. }
  eexists. split; [done|]. split; [done|]. split; [done|].
  split; cbn [t_store t_stats partitionManager]; rewrite ?Eb.
  - intros key Hk. unfold good_key, in_u in Hk. apply (Hc key). apply (extractSet_range _ n); [done|lia].
  - intros key i j _ _ _ Hi. exfalso. unfold holds in Hi. destruct (_ !! i) as [b|] eqn:E1; [|done].
    apply lookup_replicate in E1 as [-> _]. done.
  - apply Forall_replicate. done.
  - apply length_replicate.
  - by rewrite num_of_replicate.
  - cbn. apply length_replicate.
  - cbn. intros r m [-> _]%lookup_replicate. unfold held_by. by rewrite num_of_replicate.
  - intros pps Hp. eapply Forall_impl; [by apply Hpm|]. intros [p|]; [|done]. intros [Hc0 Hl0]. split.
    + intros id. rewrite Hc0, lookup_empty. unfold own. by rewrite num_of_replicate.
    + intros id l Hid. specialize (Hl0 id l Hid). unfold own. rewrite num_of_replicate by done. lia.
Qed.

(** Two addresses with the same tag and the same set are in one block. *)
Lemma same_block a a' :
  in_u 64 a → in_u 64 a' → extractTag ix a = extractTag ix a' → extractSet ix a = extractSet ix a' →
  Z.shiftr a (ix_setShift ix) = Z.shiftr a' (ix_setShift ix).
Proof using Hix.
  unfold in_u. intros Ha Ha' Ht Hs. pose proof (ixw_shift _ _ Hix). rewrite !Z.shiftr_div_pow2 by done.
  pose proof (address_split ix n Hix a ltac:(lia)) as E. pose proof (address_split ix n Hix a' ltac:(lia)) as E'.
  rewrite <-(extractSet_eq ix n Hix) in E, E' by lia. rewrite Ht, Hs in E. rewrite <-E' in E.
  pose proof (Z.pow_pos_nonneg 2 (ix_setShift ix)). pose proof (Z.div_mod a (2 ^ ix_setShift ix)).
  pose proof (Z.div_mod a' (2 ^ ix_setShift ix)). nia.
Qed.

Lemma other_block key key' v :
  good_key key → good_key key' → v ∈ set_rows key → v ∈ set_rows key' →
  (Z.shiftr (k_address key') (ix_setShift ix), k_secure key') ≠ (Z.shiftr (k_address key) (ix_setShift ix), k_secure key) →
  (extractTag ix (k_address key'), k_secure key') ≠ (extractTag ix (k_address key), k_secure key).
Proof using Hix.
  intros Hg Hg' Hv Hv' Hne [= Ht Hs]. destruct Hne. rewrite Hs. f_equal. apply same_block; try done.
  unfold good_key, in_u, set_rows, tagged_extractSet in *. apply elem_of_seq in Hv, Hv'.
  pose proof (extractSet_range ix n Hix (k_address key) ltac:(lia)). pose proof (extractSet_range ix n Hix (k_address key') ltac:(lia)).
  assert (Z.to_nat (extractSet ix (k_address key)) = Z.to_nat (extractSet ix (k_address key'))) by nia. lia.
Qed.

(** Operations a cache of this shape can ask for. *)
Definition op_fits (pm : option (list PartitioningPolicy)) (op : TagOp) : Prop :=
  match op with
  | TAccess pkt => in_u 64 (pkt_addr pkt)
  | TFill _ pkt => in_u 64 (pkt_addr pkt) ∧ 0 ≤ req_requestorId (pkt_req pkt) < maxRequestors cfg ∧
      (∀ pps, pm = Some pps → policed pps (rpid pkt)) ∧ rpid pkt ≠ NoPartition
  | TInvalidate i => (i < Z.to_nat (numBlocks cfg))%nat
  end.

(** A store that fits its indexing policy, with policies nobody has used. *)
Record store_fits (pm : option (list PartitioningPolicy)) (sets : list (list ref)) : Prop := {
  sf_inst g : is_ok (rp_instantiate (G := G) (R := R) g);
  sf_sets : sets_wf ix sets;
  sf_num : numBlocks cfg = ix_numSets ix * ix_assoc ix;
  sf_bound : numBlocks cfg < 2 ^ 32;
  sf_pm pps : pm = Some pps → Forall pp_fresh pps
}.

(** A store in use. *)
Definition run_store (pm : option (list PartitioningPolicy)) (sets : list (list ref)) (g : G) (ops : list (Z * TagOp))
    : outcome (Tags G R) :=
  t ← tagsInit (TaggedSetAssociative ix) cfg (ix_assoc ix) pm sets g;
  run_tags (TaggedSetAssociative ix) cfg rpid ops t.

Lemma run_store_ok pm sets g ops :
  store_fits pm sets → Forall (op_fits pm ∘ snd) ops →
  ∃ t0 t, run_store pm sets g ops = Ok t ∧ partitionManager t0 = pm ∧ same_limits t0 t ∧
    tags_wf (TaggedSetAssociative ix) cfg set_rows good_key (Z.to_nat (numBlocks cfg)) t.
Proof using Hix RL RP.
  intros [Hi Hs Hn Hb Hp] Hops. destruct (tagsInit_ok pm sets g Hi Hs Hn Hb Hp) as (t0 & E0 & Epm & _ & Hw0).
  unfold run_store. rewrite E0. run_ok.
  destruct (run_tags_ok (TaggedSetAssociative ix) cfg rpid set_rows good_key (Z.to_nat (numBlocks cfg)) ltac:(lia) set_rows_ok ops t0 Hw0)
    as (t & E & Hw & Hl).
  { eapply Forall_impl; [exact Hops|]. intros [tick op]. destruct op as [pkt|task pkt|i]; simpl; [done| |done].
    intros (H1 & H2 & H3 & H4). split; [done|]. split; [done|]. split; [|done]. unfold all_policed. by rewrite Epm. }
  exists t0, t. done.
Qed.
End SetAssocStore.

(** ** Theorems *)

(** C12: The tag store is a map from blocks to places.  In every state a sequence of
    accesses, fills and invalidations leads to, from a new store and under any replacement
    policy that obeys its laws: an access hits exactly where the lookup finds the block and
    changes no lookup; a fill of a block that is missing puts it at the victim, where it
    is found, while every other block is found where it was, except that the victim's old
    block is gone; an invalidation removes the block it is asked to and no other. *)
Theorem tag_store_map {G R : Type} `{RL : ReplLaws G R} `{RP : !ReplPktLaws G R} (ix : Indexing) (n : Z) (cfg : TagsCfg)
    (rpid : Packet → Z) (pm : option (list PartitioningPolicy)) (sets : list (list ref)) (g : G) (ops : list (Z * TagOp)) :
  let ip := TaggedSetAssociative ix in
  ix_wf ix n → store_fits (R := R) (G := G) ix cfg pm sets → Forall (op_fits cfg rpid pm ∘ snd) ops →
  ∃ t, run_store (R := R) ix cfg rpid pm sets g ops = Ok t ∧
    (∀ tick pkt, in_u 64 (pkt_addr pkt) → ∃ o t', findBlock ip t (mkKey (pkt_addr pkt) (pkt_isSecure pkt)) = Ok o ∧
       accessBlock ip cfg tick pkt t = Ok (o, lookupLatency cfg, t') ∧
       ∀ key, in_u 64 (k_address key) → findBlock ip t' key = findBlock ip t key) ∧
    (∀ tick task pkt, op_fits cfg rpid pm (TFill task pkt) →
       findBlock ip t (mkKey (pkt_addr pkt) (pkt_isSecure pkt)) = Ok None →
       ∃ o t', replaceBlock ip cfg rpid tick task pkt t = Ok (o, t') ∧ (o = None → pm ≠ None) ∧
         ∀ v, o = Some v → findBlock ip t' (mkKey (pkt_addr pkt) (pkt_isSecure pkt)) = Ok (Some v) ∧
           ∀ key, in_u 64 (k_address key) →
             (Z.shiftr (k_address key) (ix_setShift ix), k_secure key) ≠ (Z.shiftr (pkt_addr pkt) (ix_setShift ix), pkt_isSecure pkt) →
             ∃ p, findBlock ip t key = Ok p ∧ findBlock ip t' key = Ok (if decide (p = Some v) then None else p)) ∧
    (∀ key i, in_u 64 (k_address key) → findBlock ip t key = Ok (Some i) →
       ∃ t', invalidate i t = Ok t' ∧
         ∀ key', in_u 64 (k_address key') → ∃ p, findBlock ip t key' = Ok p ∧
           findBlock ip t' key' = Ok (if decide (p = Some i) then None else p)).
Proof.
  intros ip Hix Hfit Hops. destruct (run_store_ok ix n Hix cfg rpid pm sets g ops Hfit Hops) as (t0 & t & E & Epm & Hl & Hw).
  pose proof (sf_bound ix cfg pm sets Hfit). assert (Z.of_nat (Z.to_nat (numBlocks cfg)) < 2 ^ 32) as Hnum by lia.
  exists t. split; [done|]. pose proof (set_rows_ok ix) as Hrows.
  pose proof (findBlock_eq (G := G) (R := R) ip cfg (set_rows ix) good_key (Z.to_nat (numBlocks cfg))) as Hfind. split; [|split].
  - intros tick pkt Hp. destruct (accessBlock_ok ip cfg (set_rows ix) good_key _ Hnum tick pkt t Hw Hp) as (t' & E' & Hw' & _ & _ & Hh & _).
    eexists _, t'. rewrite Hfind by done. split; [done|]. split; [done|]. intros key Hk. rewrite !Hfind by done. f_equal.
    apply first_hold_ext. intros i _. apply Hh.
  - intros tick task pkt (Hp & Hr & Hpol & Hnp) Hmiss. rewrite Hfind in Hmiss by done. injection Hmiss as Hmiss.
    destruct (replaceBlock_ok ip cfg rpid (set_rows ix) good_key _ Hnum Hrows tick task pkt t Hw) as (o & t' & E' & Hw' & _ & Ho); [|done|].
    { split; [done|]. split; [done|]. split; [|done]. apply (all_policed_limits t0); [done|]. unfold all_policed. by rewrite Epm. }
    exists o, t'. split; [done|]. split.
    { intros ->. unfold same_limits in Hl. rewrite Epm in Hl. intros ->. by destruct (partitionManager t), Ho. }
    intros v ->. destruct Ho as (Hv & Hf & Hk). rewrite Hfind by done. split; [by f_equal|].
    intros key Hkey Hne. rewrite !Hfind by done. eexists. split; [done|]. f_equal. apply Hk; [done|]. intros Hv'.
    by eapply (other_block ix n Hix (mkKey (pkt_addr pkt) (pkt_isSecure pkt))).
  - intros key i Hk. rewrite Hfind by done. intros [= Hf]. pose proof (first_hold_Some _ _ _ _ _ Hf) as [_ Hh].
    unfold holds in Hh. destruct (entries (t_store t) !! i) as [b|] eqn:Hb; [|done]. cbn in Hh.
    assert (blk_isValid b = true) as Hv by (apply te_match_spec in Hh; by eapply tagof_valid).
    destruct (invalidate_ok ip cfg (set_rows ix) good_key _ Hnum t i b Hw Hb Hv) as (t' & E' & Hw' & Eb & _).
    exists t'. split; [done|]. intros key' Hk'. rewrite !Hfind by done. eexists. split; [done|]. f_equal. rewrite Eb.
    assert (i < length (entries (t_store t)))%nat by by eapply lookup_lt_Some.
    case_decide as Hd; [apply (first_hold_evict ip (set_rows ix) good_key)|apply first_hold_replace]; try done. by eapply tw_unique.
Qed.


(** ** An example: two sets of two ways, half of the blocks for partition 1 *)

Definition ext_ix : Indexing := mkIndexing 2 2 6 1 7.
Definition ext_cfg : TagsCfg := mkTagsCfg 64 63 2 0 4 false 2.
Definition ext_policy : MaxCapacity := the_result (maxcap_new 256 64 [1] [dlit 1 2]) eq_refl.
Definition ext_pkt (addr : Z) : Packet :=
  mkPacket (mkRequest (Some addr) None 64 0 1 None None false false false) addr false true false false false false false None.
Definition ext_ops : list (Z * TagOp) :=
  [(1, TFill 0 (ext_pkt 0)); (2, TFill 0 (ext_pkt 64)); (3, TAccess (ext_pkt 0)); (4, TFill 0 (ext_pkt 128))].

Lemma ext_ix_wf : ix_wf ext_ix 1.
Proof. by split. Qed.

Lemma ext_fits : store_fits (G := unit) (R := LRUReplData) ext_ix ext_cfg (Some [PMax ext_policy]) (replicate 2 (replicate 2 None)).
Proof.
  split; [by eexists| |done|done|].
  - split; [done|]. by repeat constructor.
  - intros pps [= <-]. constructor; [|constructor]. apply (maxcap_new_fresh 256 64 [1] [dlit 1 2]). exact (the_result_ok (maxcap_new 256 64 [1] [dlit 1 2]) eq_refl).
Qed.

Lemma ext_policed pps : Some [PMax ext_policy] = Some pps → policed pps 1.
Proof. intros [= <-] p [= ->]%list_elem_of_singleton. exists 2. by vm_compute. Qed.

Lemma ext_ops_fit : Forall (op_fits ext_cfg (λ _, 1) (Some [PMax ext_policy]) ∘ snd) ext_ops.
Proof.
  repeat (apply Forall_cons; split; [|]); try apply Forall_nil; unfold compose; cbn [snd op_fits]; (done || (split; [done|]; split; [done|]; split; [apply ext_policed|done])).
Qed.

Lemma tag_store_map_witness :
  ∃ t o t', run_store (R := LRUReplData) ext_ix ext_cfg (λ _, 1) (Some [PMax ext_policy]) (replicate 2 (replicate 2 None)) tt ext_ops = Ok t ∧
    accessBlock (R := LRUReplData) (TaggedSetAssociative ext_ix) ext_cfg 5 (ext_pkt 128) t = Ok (o, lookupLatency ext_cfg, t').
Proof.
  destruct (tag_store_map (R := LRUReplData) ext_ix 1 ext_cfg (λ _, 1) (Some [PMax ext_policy]) (replicate 2 (replicate 2 None)) tt ext_ops
    ext_ix_wf ext_fits ext_ops_fit) as (t & E & Hacc & _).
  destruct (Hacc 5 (ext_pkt 128) ltac:(by split)) as (o & t' & _ & E' & _). exists t, o, t'. split; [exact E|exact E'].
Defined.


(** Two blocks fill the partition, so the third takes the place of the first in its set. *)
Example ext_run :
  match run_store (R := LRUReplData) ext_ix ext_cfg (λ _, 1) (Some [PMax ext_policy]) (replicate 2 (replicate 2 None)) tt ext_ops with
  | Ok t => findBlock (TaggedSetAssociative ext_ix) t (mkKey 0 false) = Ok None ∧
            findBlock (TaggedSetAssociative ext_ix) t (mkKey 128 false) = Ok (Some 0%nat) ∧
            tagsInUse (t_stats t) = 2
  | Stop _ => False
  end.
Proof. by vm_compute. Qed.

(** A partition without a capacity is policed all the same.  The documentation says the
    policy has no effect on partitions that are not registered.  The first block such a
    partition takes registers it with the capacity zero; from then on it can only replace
    its own blocks, and taking a second one fails an assertion. *)
Theorem unregistered_partition_stops {A : Type} (partitionOf : A → Z) (id : Z) (p : MaxCapacity) (es : list A) :
  maxCapacity p !! id = None → curCapacity p !! id = None →
  maxcap_filter partitionOf p es id = es ∧
  ∃ p', maxcap_acquire id p = Ok p' ∧
    maxcap_filter partitionOf p' es id = filter (λ e, partitionOf e = id) es ∧
    maxcap_acquire id p' = Stop (AssertFail "partitionIdCurCapacity <= partitionIdMaxCapacity").
Proof.
  intros Hm Hc. unfold maxcap_filter at 1. rewrite Hm. split; [done|]. unfold maxcap_acquire at 1, at_key. rewrite Hm, Hc.
  cbn [Z.leb assert_that mbind outcome_bind]. eexists. split; [done|]. unfold maxcap_filter, maxcap_acquire, at_key. cbn.
  rewrite insert_insert_eq, !lookup_insert_eq. done.
Qed.

Lemma unregistered_partition_stops_witness :
  ∃ p', maxcap_acquire 7 ext_policy = Ok p' ∧
    maxcap_acquire 7 p' = Stop (AssertFail "partitionIdCurCapacity <= partitionIdMaxCapacity").
Proof.
  destruct (unregistered_partition_stops (λ x : Z, x) 7 ext_policy []) as (_ & p' & E & _ & E'); [by vm_compute..|].
  by exists p'.
Defined.

(** What [moveBlock] does to the blocks. *)
Lemma moveBlock_blocks {G R : Type} `{RL : ReplLaws G R} (ip : IndexingPolicy TaggedKey) (t : Tags G R) src dest s b curTick :
  entries (t_store t) !! src = Some s → entries (t_store t) !! dest = Some b → blk_isValid s = true →
  blk_isValid b = false → blk_isSecure b = false → b_tickInserted b ≤ curTick →
  ∃ t' b' s', moveBlock ip curTick src dest t = Ok t' ∧ s_sets (t_store t') = s_sets (t_store t) ∧
    entries (t_store t') = <[dest := b']> (<[src := s']> (entries (t_store t))) ∧ blk_isValid s' = false ∧
    b_entry b' = mkTagEntry true (blk_isSecure s) (ip_extractTag ip (blk_getTag s)).
Proof.
  intros Es Hd Hvs Hv Hsec Htick.
  destruct (cell_at_entry t src s Es) as (cs & Ecs & Hcs & _). destruct (cell_at_entry t dest b Hd) as (cd & Ecd & Hcd & _).
  destruct (blk_move_eq (ip_extractTag ip) curTick b s Hv Hsec Hvs Htick) as (b' & s' & Em & Hs' & Hb' & _).
  unfold moveBlock. rewrite Ecs, Ecd. run_ok. rewrite Hcs, Hcd, Hv, Hvs. cbn [negb assert_that mbind outcome_bind]. rewrite Em. run_ok.
  destruct (law_invalidate (c_repl cs) (s_pol (t_store t))) as [[rs g] Er]. rewrite Er. run_ok.
  destruct (law_reset curTick (c_repl cd) g) as [[rd g'] Er']. rewrite Er'. run_ok.
  eexists _, b', s'. split; [done|]. split; [done|]. split; [|done].
  assert (src ≠ dest) by (intros ->; rewrite Es in Hd; congruence).
  rewrite (put_cell_blocks _ _ b) by (rewrite ?(put_cell_blocks t src s) by done; rewrite ?list_lookup_insert_ne by done; done).
  by rewrite (put_cell_blocks t src s).
Qed.

(** A moved block is lost.  [moveBlock] hands the tag of the block to [insert] as if it
    were an address, so the tag is shifted once more: the lookup that found the block does
    not find it any more. *)
Theorem moved_block_lost {G R : Type} `{RL : ReplLaws G R} (ix : Indexing) (cfg : TagsCfg) (num : nat)
    (t : Tags G R) (key : TaggedKey) (src dest : nat) (b : CacheBlk) (curTick : Z) :
  let ip := TaggedSetAssociative ix in
  0 < ix_tagShift ix → tags_wf ip cfg (set_rows ix) good_key num t → good_key key →
  findBlock ip t key = Ok (Some src) → 0 < extractTag ix (k_address key) →
  entries (t_store t) !! dest = Some b → blk_isValid b = false → b_tickInserted b ≤ curTick →
  ∃ t' b', moveBlock ip curTick src dest t = Ok t' ∧ entries (t_store t') !! dest = Some b' ∧ blk_isValid b' = true ∧
    blk_getTag b' = extractTag ix (extractTag ix (k_address key)) ∧ findBlock ip t' key = Ok None.
Proof.
  intros ip Hsh Hw Hg Hf Hpos Hd Hv Htick. rewrite (findBlock_eq ip cfg _ _ num t key Hw Hg) in Hf. injection Hf as Hf.
  pose proof (first_hold_Some _ _ _ _ _ Hf) as [Hs Hh]. pose proof Hh as Hhs. unfold holds in Hh.
  destruct (entries (t_store t) !! src) as [s|] eqn:Es; [|done]. cbn in Hh. apply te_match_spec in Hh.
  pose proof (tagof_valid _ _ Hh) as Hvs. unfold te_tagof in Hh. unfold blk_isValid in Hvs. rewrite Hvs in Hh. injection Hh as Ht Hsec.
  assert (blk_wf cfg b) as Hbw by (eapply Forall_lookup_1; [by eapply tw_blk|done]). unfold blk_wf in Hbw. rewrite Hv in Hbw.
  destruct (moveBlock_blocks ip t src dest s b curTick Es Hd Hvs Hv (proj1 Hbw) Htick) as (t' & b' & s' & E & Ess & Eb & Hs' & Hb').
  assert (dest < length (entries (t_store t)))%nat by by eapply lookup_lt_Some.
  assert (src < length (entries (t_store t)))%nat by by eapply lookup_lt_Some.
  exists t', b'. split; [done|]. split; [rewrite Eb; apply list_lookup_insert_eq; by rewrite length_insert|].
  split; [unfold blk_isValid; by rewrite Hb'|]. split; [unfold blk_getTag in *; rewrite Hb'; cbn in *; by rewrite Ht|].
  assert (cand ip (t_store t') key (set_rows ix key)) as Hc.
  { apply (cand_mono ip (t_store t)); [done| |by eapply tw_cand]. by rewrite <-!entries_length, Eb, !length_insert. }
  unfold findBlock. change (find_in _ _ _ _) with (findEntry ip (t_store t') key). rewrite (findEntry_eq ip _ _ _ Hc). f_equal.
  apply first_hold_None. intros i Hi. rewrite Eb, holds_insert by by rewrite length_insert.
  destruct (decide (dest = i)) as [<-|].
  - cbn. unfold te_match. rewrite Hb'. cbn. unfold blk_getTag. rewrite Ht. cbn. rewrite (proj2 (Z.eqb_neq _ _)); [done|].
    unfold extractTag at 1. rewrite Z.shiftr_div_pow2 by lia. pose proof (Z.pow_gt_1 2 (ix_tagShift ix)).
    pose proof (Z.div_lt (extractTag ix (k_address key)) (2 ^ ix_tagShift ix)). lia.
  - rewrite holds_insert by done. destruct (decide (src = i)) as [<-|Hne]; [cbn; unfold te_match; unfold blk_isValid in Hs'; by rewrite Hs'|].
    destruct (holds ip _ key i) eqn:Ei; [|done]. destruct Hne. by eapply (tw_unique _ _ _ _ _ _ Hw).
Qed.

Definition ext_filled : outcome (Tags unit LRUReplData) :=
  run_store ext_ix ext_cfg base_readPacketPartitionID None (replicate 2 (replicate 2 None)) tt [(1, TFill 0 (ext_pkt 256))].
Definition ext_t : Tags unit LRUReplData := the_result ext_filled eq_refl.

Lemma ext_t_wf : tags_wf (TaggedSetAssociative ext_ix) ext_cfg (set_rows ext_ix) good_key 4 ext_t.
Proof.
  destruct (run_store_ok (G := unit) (R := LRUReplData) ext_ix 1 ext_ix_wf ext_cfg base_readPacketPartitionID None
    (replicate 2 (replicate 2 None)) tt [(1, TFill 0 (ext_pkt 256))]) as (_ & t & E & _ & _ & Hw).
  - destruct ext_fits as [H1 H2 H3 H4 _]. by split.
  - apply Forall_cons. split; [|constructor]. split; [by split|]. split; [by split|]. by split.
  - unfold ext_t. rewrite (the_result_eq ext_filled eq_refl t E). exact Hw.
Qed.

Lemma moved_block_lost_witness :
  ∃ t', moveBlock (TaggedSetAssociative ext_ix) 5 0 1 ext_t = Ok t' ∧
    findBlock (TaggedSetAssociative ext_ix) t' (mkKey 256 false) = Ok None.
Proof.
  destruct (moved_block_lost ext_ix ext_cfg 4 ext_t (mkKey 256 false) 0 1 blk_new 5)
    as (t' & b' & E & _ & _ & _ & Hf); [done|exact ext_t_wf|by split|by vm_compute|done|by vm_compute|done|done|].
  exists t'. split; [exact E|exact Hf].
Defined.
