(* ===== verification/CacheQueues.v ===== *)
(** * Queues of the cache

    The part of [BaseCache] (src/src/mem/cache/base.{hh,cc}) around its two queues: the
    allocation of registers and write buffer entries, the causes the cache is blocked for,
    which entry is sent next and when a prefetch is, the packet sent for a miss
    ([Cache::createMissPacket], cache.cc), the [WriteAllocator], and the lookups offered to
    the prefetcher.  The prefetcher is any with the methods of [CachePrefetcher]; the
    memory-side port is an argument.  Statistics, and the compressor, are left out. *)

From Stdlib Require Import ZArith Lia.
From stdpp Require Import base numbers option list strings gmap.
From S2P Require Import Prelude PrefetchBase Replacement Indexing AssocCache MemCmd Mshr MissQueue CacheBlk TagStore.
#[local] Open Scope Z_scope.

(** ** Write allocator *)

Inductive WriteMode := ALLOCATE | COALESCE | NO_ALLOCATE.
#[global] Instance WriteMode_eq_dec : EqDecision WriteMode.
Proof. solve_decision. Defined.

Record WriteAllocator := mkWA {
  wa_mode : WriteMode;
  wa_nextAddr : Z;
  wa_byteCount : Z;
  coalesceLimit : Z;
  noAllocateLimit : Z;
  delayThreshold : Z;
  delayCtr : gmap Z Z
}.

Definition wa_reset (wa : WriteAllocator) : WriteAllocator :=
  mkWA ALLOCATE 0 0 (coalesceLimit wa) (noAllocateLimit wa) (delayThreshold wa) (delayCtr wa).

Definition wa_new (coalesce_limit no_allocate_limit delay_threshold block_size : Z) : WriteAllocator :=
  wa_reset (mkWA ALLOCATE 0 0 (u32 (coalesce_limit * block_size)) (u32 (no_allocate_limit * block_size)) delay_threshold ∅).

Definition wa_coalesce (wa : WriteAllocator) : bool := bool_decide (wa_mode wa ≠ ALLOCATE).
Definition wa_allocate (wa : WriteAllocator) : bool := bool_decide (wa_mode wa ≠ NO_ALLOCATE).

Definition wa_with_ctr (m : gmap Z Z) (wa : WriteAllocator) : WriteAllocator :=
  mkWA (wa_mode wa) (wa_nextAddr wa) (wa_byteCount wa) (coalesceLimit wa) (noAllocateLimit wa) (delayThreshold wa) m.

(** [delayCtr[blk_addr]] creates the counter. *)
Definition wa_delay (blk_addr : Z) (wa : WriteAllocator) : bool * WriteAllocator :=
  let c := default 0 (delayCtr wa !! blk_addr) in
  if 0 <? c then (true, wa_with_ctr (<[blk_addr := c - 1]> (delayCtr wa)) wa)
  else (false, wa_with_ctr (<[blk_addr := c]> (delayCtr wa)) wa).

Definition wa_resetDelay (blk_addr : Z) (wa : WriteAllocator) : WriteAllocator := wa_with_ctr (delete blk_addr (delayCtr wa)) wa.

Definition updateMode (write_addr write_size blk_addr : Z) (wa : WriteAllocator) : WriteAllocator :=
  let wa :=
    if wa_nextAddr wa =? write_addr then
      let wa := wa_with_ctr (<[blk_addr := delayThreshold wa]> (delayCtr wa)) wa in
      if bool_decide (wa_mode wa ≠ NO_ALLOCATE) then
        let count := u32 (wa_byteCount wa + write_size) in
        let mode :=
          if bool_decide (wa_mode wa = ALLOCATE) && (coalesceLimit wa <? count) then COALESCE
          else if bool_decide (wa_mode wa = COALESCE) && (noAllocateLimit wa <? count) then NO_ALLOCATE
          else wa_mode wa in
        mkWA mode (wa_nextAddr wa) count (coalesceLimit wa) (noAllocateLimit wa) (delayThreshold wa) (delayCtr wa)
      else wa
    else
      wa_resetDelay blk_addr
        (mkWA ALLOCATE (wa_nextAddr wa) write_size (coalesceLimit wa) (noAllocateLimit wa) (delayThreshold wa) (delayCtr wa)) in
  mkWA (wa_mode wa) (u64 (write_addr + write_size)) (wa_byteCount wa) (coalesceLimit wa) (noAllocateLimit wa) (delayThreshold wa) (delayCtr wa).

(** ** The prefetcher *)

(** What the cache calls of its prefetcher. *)
Class CachePrefetcher (P : Type) := {
  cp_getPacket : Z → P → outcome (option MemPacket * P);
  cp_nextPrefetchReadyTime : P → Z;
  cp_pfHitInCache : P → P;
  cp_pfHitInMSHR : P → P;
  cp_pfHitInWB : P → P;
  cp_incrDemandMhsrMisses : P → P
}.

(** ** State *)

Inductive BlockedCause := Blocked_NoMSHRs | Blocked_NoWBBuffers | Blocked_NoTargets.
#[global] Instance BlockedCause_eq_dec : EqDecision BlockedCause.
Proof. solve_decision. Defined.

Definition cause_bit (c : BlockedCause) : Z := match c with Blocked_NoMSHRs => 1 | Blocked_NoWBBuffers => 2 | Blocked_NoTargets => 4 end.

Record CacheCfg := mkCacheCfg {
  blkSize : Z;
  numTarget : Z;
  demandReserve : Z;
  clockPeriod : Z;
  isReadOnly : bool;
  mostly_incl : bool;
  maxRequestorIds : Z
}.

Record CacheQ (G R P : Type) := mkCacheQ {
  mshrQueue : MSHRQueue;
  writeBuffer : WriteQueue;
  cq_blocked : Z;
  cq_order : Z;
  noTargetMSHR : option nat;
  writeAllocator : option WriteAllocator;
  prefetcher : option P;
  tags : Tags G R;
  cq_up : Upstream;
  sendEvents : list Z
}.
Arguments mkCacheQ {G R P}.
Arguments mshrQueue {G R P}.
Arguments writeBuffer {G R P}.
Arguments cq_blocked {G R P}.
Arguments cq_order {G R P}.
Arguments noTargetMSHR {G R P}.
Arguments writeAllocator {G R P}.
Arguments prefetcher {G R P}.
Arguments tags {G R P}.
Arguments cq_up {G R P}.
Arguments sendEvents {G R P}.

Section Cache.
Context {G R P : Type} `{ReplPolicy G R} `{CachePrefetcher P}.
Context (ip : IndexingPolicy TaggedKey) (cfg : CacheCfg).
Abbreviation Cache := (CacheQ G R P).

Definition with_mshrs (q : MSHRQueue) (c : Cache) : Cache :=
  mkCacheQ q (writeBuffer c) (cq_blocked c) (cq_order c) (noTargetMSHR c) (writeAllocator c) (prefetcher c) (tags c) (cq_up c) (sendEvents c).
Definition with_wb (q : WriteQueue) (c : Cache) : Cache :=
  mkCacheQ (mshrQueue c) q (cq_blocked c) (cq_order c) (noTargetMSHR c) (writeAllocator c) (prefetcher c) (tags c) (cq_up c) (sendEvents c).
Definition with_blocked (b : Z) (c : Cache) : Cache :=
  mkCacheQ (mshrQueue c) (writeBuffer c) b (cq_order c) (noTargetMSHR c) (writeAllocator c) (prefetcher c) (tags c) (cq_up c) (sendEvents c).
Definition with_noTarget (o : option nat) (c : Cache) : Cache :=
  mkCacheQ (mshrQueue c) (writeBuffer c) (cq_blocked c) (cq_order c) o (writeAllocator c) (prefetcher c) (tags c) (cq_up c) (sendEvents c).
Definition with_wa (wa : option WriteAllocator) (c : Cache) : Cache :=
  mkCacheQ (mshrQueue c) (writeBuffer c) (cq_blocked c) (cq_order c) (noTargetMSHR c) wa (prefetcher c) (tags c) (cq_up c) (sendEvents c).
Definition with_pf (p : option P) (c : Cache) : Cache :=
  mkCacheQ (mshrQueue c) (writeBuffer c) (cq_blocked c) (cq_order c) (noTargetMSHR c) (writeAllocator c) p (tags c) (cq_up c) (sendEvents c).
Definition with_tags (t : Tags G R) (c : Cache) : Cache :=
  mkCacheQ (mshrQueue c) (writeBuffer c) (cq_blocked c) (cq_order c) (noTargetMSHR c) (writeAllocator c) (prefetcher c) t (cq_up c) (sendEvents c).
Definition with_up (w : Upstream) (c : Cache) : Cache :=
  mkCacheQ (mshrQueue c) (writeBuffer c) (cq_blocked c) (cq_order c) (noTargetMSHR c) (writeAllocator c) (prefetcher c) (tags c) w (sendEvents c).
(** [order++]; the counter is unsigned, the orders it is handed out as are signed. *)
Definition next_order (c : Cache) : Cache :=
  mkCacheQ (mshrQueue c) (writeBuffer c) (cq_blocked c) (u64 (cq_order c + 1)) (noTargetMSHR c) (writeAllocator c) (prefetcher c) (tags c) (cq_up c) (sendEvents c).
Definition schedMemSideSendEvent (time : Z) (c : Cache) : Cache :=
  mkCacheQ (mshrQueue c) (writeBuffer c) (cq_blocked c) (cq_order c) (noTargetMSHR c) (writeAllocator c) (prefetcher c) (tags c) (cq_up c)
    (sendEvents c ++ [time]).

(** *** Blocking *)

Definition isBlocked (c : Cache) : bool := negb (cq_blocked c =? 0).
Definition setBlocked (cause : BlockedCause) (c : Cache) : Cache := with_blocked (Z.lor (cq_blocked c) (cause_bit cause)) c.
Definition clearBlocked (cause : BlockedCause) (c : Cache) : Cache := with_blocked (Z.ldiff (cq_blocked c) (cause_bit cause)) c.

(** *** Lookups *)

(** [tags->findBlock] as a pointer to the block. *)
Definition find_blk (addr : Z) (is_secure : bool) (c : Cache) : outcome (option CacheBlk) :=
  o ← findBlock ip (tags c) (mkKey addr is_secure);
  match o with None => Ok None | Some i => cell ← cell_at (t_store (tags c)) i; Ok (Some (c_entry cell)) end.

Definition cache_inCache (addr : Z) (is_secure : bool) (c : Cache) : outcome bool :=
  o ← find_blk addr is_secure c; Ok (bool_decide (is_Some o)).
Definition cache_hasBeenPrefetched (addr : Z) (is_secure : bool) (c : Cache) : outcome bool :=
  o ← find_blk addr is_secure c; Ok (match o with Some b => b_prefetched b | None => false end).
Definition cache_hasBeenPrefetchedBy (addr : Z) (is_secure : bool) (requestor : Z) (c : Cache) : outcome bool :=
  o ← find_blk addr is_secure c;
  Ok (match o with Some b => b_prefetched b && (b_srcRequestorId b =? requestor) | None => false end).
Definition cache_inMissQueue (addr : Z) (is_secure : bool) (c : Cache) : outcome bool :=
  o ← findMatch addr is_secure true (mshrQueue c); Ok (bool_decide (is_Some o)).
Definition cache_coalesce (c : Cache) : bool :=
  match writeAllocator c with Some wa => wa_coalesce wa | None => false end.

(** *** Allocation *)

Definition cache_allocOnFill (cmd : Command) : bool :=
  mostly_incl cfg || bool_decide (cmd ∈ [WriteLineReq; ReadReq; WriteReq]) || cmd_isPrefetch cmd || has IsLlsc cmd.

Definition allocateMissBuffer (curTick : Z) (pkt : MemPacket) (time : Z) (sched_send : bool) (c : Cache) : outcome (nat * Cache) :=
  '(i, w, q) ← mq_allocate (cq_up c) curTick (pkt_getBlockAddr (blkSize cfg) pkt) (blkSize cfg) pkt time (i64 (cq_order c))
                 (cache_allocOnFill (mp_cmd pkt)) (mshrQueue c);
  let c := next_order (with_up w (with_mshrs q c)) in
  let c := if q_isFull (mshrQueue c) then setBlocked Blocked_NoMSHRs c else c in
  Ok (i, if sched_send then schedMemSideSendEvent time c else c).

Definition allocateWriteBuffer (curTick : Z) (pkt : MemPacket) (time : Z) (c : Cache) : outcome Cache :=
  _ ← assert_that (has IsWrite (mp_cmd pkt) || bool_decide (mp_cmd pkt = CleanEvict)) "pkt->isWrite() || pkt->cmd == MemCmd::CleanEvict";
  let blk_addr := pkt_getBlockAddr (blkSize cfg) pkt in
  _ ← findMatch blk_addr (mp_secure pkt) true (writeBuffer c);
  '(_, q) ← wq_allocate curTick blk_addr (blkSize cfg) pkt time (i64 (cq_order c)) (writeBuffer c);
  let c := next_order (with_wb q c) in
  let c := if q_isFull (writeBuffer c) then setBlocked Blocked_NoWBBuffers c else c in
  Ok (schedMemSideSendEvent time c).

(** *** Sending *)

Definition cache_markInService (pending_modified_resp : bool) (i : nat) (c : Cache) : outcome Cache :=
  let wasFull := q_isFull (mshrQueue c) in
  '(w, q) ← mq_markInService (cq_up c) pending_modified_resp i (mshrQueue c);
  let c := with_up w (with_mshrs q c) in
  Ok (if wasFull && negb (q_isFull (mshrQueue c)) then clearBlocked Blocked_NoMSHRs c else c).

Definition cache_markWriteInService (i : nat) (c : Cache) : outcome Cache :=
  let wasFull := q_isFull (writeBuffer c) in
  q ← wq_markInService i (writeBuffer c);
  let c := with_wb q c in
  Ok (if wasFull && negb (q_isFull (writeBuffer c)) then clearBlocked Blocked_NoWBBuffers c else c).

Inductive Next := NextMiss (i : nat) | NextWrite (i : nat).

(** The end of [getNextQueueEntry]: nothing is ready, so a prefetch may go out. *)
Definition try_prefetch (curTick : Z) (c : Cache) : outcome (option Next * Cache) :=
  match prefetcher c with
  | Some p =>
      if canPrefetch (demandReserve cfg) (mshrQueue c) && negb (isBlocked c) then
        '(o, p) ← cp_getPacket curTick p;
        let c := with_pf (Some p) c in
        match o with
        | None => Ok (None, c)
        | Some pkt =>
            let pf_addr := pkt_getBlockAddr (blkSize cfg) pkt in
            hit ← find_blk pf_addr (mp_secure pkt) c;
            if bool_decide (is_Some hit) then Ok (None, with_pf (Some (cp_pfHitInCache p)) c)
            else
              hit ← findMatch pf_addr (mp_secure pkt) true (mshrQueue c);
              if bool_decide (is_Some hit) then Ok (None, with_pf (Some (cp_pfHitInMSHR p)) c)
              else
                hit ← findMatch pf_addr (mp_secure pkt) true (writeBuffer c);
                if bool_decide (is_Some hit) then Ok (None, with_pf (Some (cp_pfHitInWB p)) c)
                else
                  _ ← assert_that (mp_requestorId pkt <? maxRequestorIds cfg) "pkt->req->requestorId() < system->maxRequestors()";
                  '(i, c) ← allocateMissBuffer curTick pkt curTick false c;
                  Ok (Some (NextMiss i), c)
        end
      else Ok (None, c)
  | None => Ok (None, c)
  end.

Definition getNextQueueEntry (curTick : Z) (c : Cache) : outcome (option Next * Cache) :=
  match getNext curTick (mshrQueue c), getNext curTick (writeBuffer c) with
  | miss, Some j =>
      if q_isFull (writeBuffer c) || bool_decide (miss = None) then
        e ← entry_at (writeBuffer c) j;
        conflict ← findPending e (mshrQueue c);
        match conflict with
        | Some k =>
            m ← entry_at (mshrQueue c) k;
            if m_order m <? wq_order e then Ok (Some (NextMiss k), c) else Ok (Some (NextWrite j), c)
        | None => Ok (Some (NextWrite j), c)
        end
      else
        match miss with
        | Some i =>
            m ← entry_at (mshrQueue c) i;
            conflict ← findPending m (writeBuffer c);
            Ok (Some (match conflict with Some k => NextWrite k | None => NextMiss i end), c)
        | None => Stop (AssertFail "!miss_mshr && !wq_entry")
        end
  | Some i, None =>
      m ← entry_at (mshrQueue c) i;
      conflict ← findPending m (writeBuffer c);
      Ok (Some (match conflict with Some k => NextWrite k | None => NextMiss i end), c)
  | None, None => try_prefetch curTick c
  end.

Definition nextQueueReadyTime (c : Cache) : Z :=
  let nextReady := Z.min (nextReadyTime (mshrQueue c)) (nextReadyTime (writeBuffer c)) in
  match prefetcher c with
  | Some p =>
      if canPrefetch (demandReserve cfg) (mshrQueue c) && negb (isBlocked c)
      then Z.min nextReady (cp_nextPrefetchReadyTime p) else nextReady
  | None => nextReady
  end.

(** [Cache::createMissPacket]: the request sent downstream, or [None] when the packet is
    forwarded as it is; [id] is the new packet. *)
Definition createMissPacket (id : nat) (cpu_pkt : MemPacket) (blk : option CacheBlk) (needsWritable is_whole_line_write : bool)
    : outcome (option MemPacket) :=
  _ ← assert_that (negb (has IsEviction (mp_cmd cpu_pkt))) "!cpu_pkt->isEviction()";
  let blkValid := match blk with Some b => blk_isValid b | None => false end in
  let writable := match blk with Some b => isSet WritableBit b | None => false end in
  if isUncacheable_req cpu_pkt || (negb blkValid && has IsUpgrade (mp_cmd cpu_pkt))
     || bool_decide (mp_cmd cpu_pkt = InvalidateReq) || has IsClean (mp_cmd cpu_pkt)
  then Ok None
  else
    _ ← assert_that (has NeedsResponse (mp_cmd cpu_pkt)) "cpu_pkt->needsResponse()";
    _ ← assert_that (negb (bool_decide (mp_cmd cpu_pkt = WriteLineReq)) || is_whole_line_write)
          "cpu_pkt->cmd != MemCmd::WriteLineReq || is_whole_line_write";
    cmd ← (if is_whole_line_write then
             _ ← assert_that (negb blkValid || negb writable) "!blkValid || !blk->isSet(CacheBlk::WritableBit)";
             Ok InvalidateReq
           else if blkValid then
             _ ← assert_that needsWritable "needsWritable";
             _ ← assert_that (negb writable) "!blk->isSet(CacheBlk::WritableBit)";
             Ok (if has IsLlsc (mp_cmd cpu_pkt) then SCUpgradeReq else UpgradeReq)
           else if bool_decide (mp_cmd cpu_pkt ∈ [SCUpgradeFailReq; StoreCondFailReq]) then Ok SCUpgradeFailReq
           else
             let force_clean_rsp := isReadOnly cfg || negb (mostly_incl cfg) in
             Ok (if needsWritable then ReadExReq else if force_clean_rsp then ReadCleanReq else ReadSharedReq));
    let pkt := mkMemPkt cmd (Z.ldiff (mp_addr cpu_pkt) (u64 (i32 (blkSize cfg - 1)))) (flag_set SECURE (mp_reqFlags cpu_pkt)) (blkSize cfg) 0
                 (mp_reqFlags cpu_pkt) (mp_masked cpu_pkt) (mp_requestorId cpu_pkt) None id in
    let pkt := if flag_set HAS_SHARERS (mp_flags cpu_pkt) && negb needsWritable then setHasSharers pkt else pkt in
    _ ← assert_that (mp_addr pkt =? pkt_getBlockAddr (blkSize cfg) pkt) "pkt->getAddr() == pkt->getBlockAddr(blkSize)";
    pkt ← pkt_allocate pkt;
    Ok (Some pkt).

(** What comes of an attempt to send: the entry is held back, the port is busy, or the
    packet went out, with whether a dirty block has to be cleaned. *)
Inductive Sent := Delayed | Refused | Gone (pkt : MemPacket) (writeclean : bool).

(** The copy of a packet that is forwarded. *)
Definition COPY_FLAGS : Z := 0xFF.
Definition forward_copy (id : nat) (pkt : MemPacket) : outcome MemPacket :=
  let cp := mkMemPkt (mp_cmd pkt) (mp_addr pkt) (mp_secure pkt) (mp_size pkt) (Z.land (mp_flags pkt) COPY_FLAGS) (mp_reqFlags pkt) (mp_masked pkt)
              (mp_requestorId pkt) (mp_sender pkt) id in
  if flag_set STATIC_DATA (mp_flags pkt) then Ok (set_flags (Z.lor (mp_flags cp) STATIC_DATA) cp) else pkt_allocate cp.

Definition with_forward (b : bool) (m : MSHR) : MSHR :=
  mkMSHR (readyTime m) (m_isUncacheable m) (inService m) (m_order m) (m_blkAddr m) (m_blkSize m) (m_isSecure m)
    (downstreamPending m) (pendingModified m) (postInvalidate m) (postDowngrade m) (wasWholeLineWrite m) b (targets m) (deferredTargets m).
Definition set_sender (i : nat) (p : MemPacket) : MemPacket :=
  mkMemPkt (mp_cmd p) (mp_addr p) (mp_secure p) (mp_size p) (mp_flags p) (mp_reqFlags p) (mp_masked p) (mp_requestorId p) (Some i) (mp_id p).

(** Whether write coalescing holds the register back. *)
Definition hold_back (curTick : Z) (i : nat) (tgt_pkt : MemPacket) (m : MSHR) (c : Cache) : outcome (bool * Cache) :=
  match writeAllocator c with
  | Some wa =>
      if wa_coalesce wa && has IsWrite (mp_cmd tgt_pkt) then
        if negb (isWholeLineWrite (targets m)) then
          let '(d, wa) := wa_delay (m_blkAddr m) wa in
          if d then
            _ ← (if mp_size tgt_pkt =? 0 then Stop (Panic "division by zero") else Ok tt);
            q ← mq_delay curTick (u64 (blkSize cfg / mp_size tgt_pkt * clockPeriod cfg)) i (mshrQueue c);
            Ok (true, with_mshrs q (with_wa (Some wa) c))
          else Ok (false, with_wa (Some (wa_reset wa)) c)
        else Ok (false, with_wa (Some (wa_resetDelay (m_blkAddr m) wa)) c)
      else Ok (false, c)
  | None => Ok (false, c)
  end.

(** [sendMSHRQueuePacket]; [port] is what the port makes of a packet, if it takes it: the
    flags are those the snoops of the other caches have set. *)
Definition sendMSHRQueuePacket (port : MemPacket → option MemPacket) (curTick : Z) (id i : nat) (c : Cache) : outcome (Sent * Cache) :=
  m ← entry_at (mshrQueue c) i;
  _ ← assert_that (hasTargets m) "hasTargets()";
  t ← front (targets m);
  let tgt_pkt := tgt_pkt t in
  '(held, c) ← hold_back curTick i tgt_pkt m c;
  if (held : bool) then Ok (Delayed, c)
  else
    blk ← find_blk (m_blkAddr m) (m_isSecure m) c;
    o ← createMissPacket id tgt_pkt blk (tl_needsWritable (targets m)) (isWholeLineWrite (targets m));
    let m := with_forward (bool_decide (o = None)) m in
    let c := with_mshrs (MissQueue.with_entry i m (mshrQueue c)) c in
    pkt ← (match o with
           | Some pkt => Ok pkt
           | None =>
               pkt ← forward_copy id tgt_pkt;
               _ ← assert_that (negb (has IsWrite (mp_cmd pkt))) "!pkt->isWrite()";
               Ok pkt
           end);
    let pkt := set_sender i pkt in
    let dirty := match blk with Some b => isSet DirtyBit b | None => false end in
    pkt ← (if has IsClean (mp_cmd pkt) && dirty then setSatisfied pkt else Ok pkt);
    match port pkt with
    | None => Ok (Refused, c)
    | Some pkt =>
        let pending_modified_resp := negb (flag_set HAS_SHARERS (mp_flags pkt)) && flag_set CACHE_RESPONDING (mp_flags pkt) in
        c ← cache_markInService pending_modified_resp i c;
        Ok (Gone pkt (has IsClean (mp_cmd pkt) && dirty), c)
    end.

Definition sendWriteQueuePacket (port : MemPacket → option MemPacket) (i : nat) (c : Cache) : outcome (Sent * Cache) :=
  e ← entry_at (writeBuffer c) i;
  match wq_targets e with
  | [] => Stop (AssertFail "hasTargets()")
  | t :: _ =>
      match port (wt_pkt t) with
      | None => Ok (Refused, c)
      | Some pkt => c ← cache_markWriteInService i c; Ok (Gone pkt false, c)
      end
  end.

(** *** Misses *)

(** [handleTimingReqMiss]: [mshr] is the register of the block, if there is one, and [blk]
    the place of the block in the tags. *)
Definition handleTimingReqMiss (curTick : Z) (pkt : MemPacket) (mshr blk : option nat) (forward_time : Z) (c : Cache) : outcome Cache :=
  let c := match writeAllocator c with
           | Some wa =>
               if has IsWrite (mp_cmd pkt) && negb (isUncacheable_req pkt)
               then with_wa (Some (updateMode (mp_addr pkt) (mp_size pkt) (pkt_getBlockAddr (blkSize cfg) pkt) wa)) c else c
           | None => c
           end in
  match mshr with
  | Some i =>
      _ ← assert_that (negb (cmd_isWriteback (mp_cmd pkt))) "!pkt->isWriteback()";
      if bool_decide (mp_cmd pkt = CleanEvict) then Ok c
      else if bool_decide (mp_cmd pkt = WriteClean) then allocateWriteBuffer curTick pkt forward_time c
      else
        _ ← assert_that (mp_requestorId pkt <? maxRequestorIds cfg) "pkt->req->requestorId() < system->maxRequestors()";
        m ← entry_at (mshrQueue c) i;
        '(w, m) ← allocateTarget (cq_up c) curTick pkt forward_time (i64 (cq_order c)) (cache_allocOnFill (mp_cmd pkt)) m;
        let c := next_order (with_up w (with_mshrs (MissQueue.with_entry i m (mshrQueue c)) c)) in
        Ok (if numTarget cfg <=? Z.of_nat (getNumTargets m) then setBlocked Blocked_NoTargets (with_noTarget (Some i) c) else c)
  | None =>
      _ ← assert_that (mp_requestorId pkt <? maxRequestorIds cfg) "pkt->req->requestorId() < system->maxRequestors()";
      let c := match prefetcher c with
               | Some p => if cmd_isDemand (mp_cmd pkt) then with_pf (Some (cp_incrDemandMhsrMisses p)) c else c
               | None => c
               end in
      if has IsEviction (mp_cmd pkt) || bool_decide (mp_cmd pkt = WriteClean) then allocateWriteBuffer curTick pkt forward_time c
      else
        c ← (match blk with
             | None => Ok c
             | Some k =>
                 cell ← cell_at (t_store (tags c)) k;
                 let b := c_entry cell in
                 if blk_isValid b then
                   nw ← pkt_needsWritable pkt;
                   _ ← assert_that ((nw && negb (isSet WritableBit b)) || isCacheMaintenance_req pkt)
                         "(pkt->needsWritable() && !blk->isSet(CacheBlk::WritableBit)) || pkt->req->isCacheMaintenance()";
                   Ok (with_tags (with_store (put_entry (t_store (tags c)) k (clearCoherenceBits ReadableBit b)) (tags c)) c)
                 else Ok c
             end);
        '(_, c) ← allocateMissBuffer curTick pkt forward_time true c;
        Ok c
  end.

(** *** Responses *)

(** The part of [recvTimingResp] that concerns the queue: [edge] is the clock edge, and
    [payload] the delay of the packet's data. *)
Definition cache_response (curTick edge payload : Z) (resp : Command) (readable writable : bool) (i : nat) (c : Cache)
    : outcome (list Target * Cache) :=
  let c := if bool_decide (noTargetMSHR c = Some i) then with_noTarget None (clearBlocked Blocked_NoTargets c) else c in
  m ← entry_at (mshrQueue c) i;
  '(ready, more, w, m) ← mshr_receive curTick resp readable writable (cq_up c) m;
  let c := with_up w (with_mshrs (MissQueue.with_entry i m (mshrQueue c)) c) in
  match more with
  | None => Ok (ready, c)
  | Some true =>
      q ← mq_markPending i (mshrQueue c);
      Ok (ready, schedMemSideSendEvent (u64 (edge + payload)) (with_mshrs q c))
  | Some false =>
      let was_full := q_isFull (mshrQueue c) in
      q ← q_deallocate i (mshrQueue c);
      let c := with_mshrs q c in
      let c := if was_full && negb (q_isFull (mshrQueue c)) then clearBlocked Blocked_NoMSHRs c else c in
      Ok (ready,
        match prefetcher c with
        | Some p =>
            if canPrefetch (demandReserve cfg) (mshrQueue c) && negb (isBlocked c) then
              let next_pf_time := Z.max (cp_nextPrefetchReadyTime p) edge in
              if next_pf_time =? MaxTick then c else schedMemSideSendEvent next_pf_time c
            else c
        | None => c
        end)
  end.

(** ** Histories

    A request that misses, for a block that is not in the cache; a block that is evicted;
    the entry that is next is sent and the port takes it; a response. *)
Inductive CacheOp :=
| CMiss (pkt : MemPacket) (time : Z)
| CEvict (pkt : MemPacket) (time : Z)
| CSend (pending_modified : bool)
| CResp (i : nat) (edge payload : Z) (resp : Command) (readable writable : bool).

Definition cache_step (curTick : Z) (op : CacheOp) (c : Cache) : outcome Cache :=
  match op with
  | CMiss pkt time =>
      mshr ← findMatch (pkt_getBlockAddr (blkSize cfg) pkt) (mp_secure pkt) true (mshrQueue c);
      handleTimingReqMiss curTick pkt mshr None time c
  | CEvict pkt time => allocateWriteBuffer curTick pkt time c
  | CSend pm =>
      '(o, c) ← getNextQueueEntry curTick c;
      match o with
      | None => Ok c
      | Some (NextMiss i) => cache_markInService pm i c
      | Some (NextWrite j) => cache_markWriteInService j c
      end
  | CResp i edge payload resp readable writable =>
      '(_, c) ← cache_response curTick edge payload resp readable writable i c; Ok c
  end.

(** A blocked cache takes no requests; evictions need a place in the write buffer. *)
Definition cache_enabled (op : CacheOp) (c : Cache) : bool :=
  match op with
  | CMiss _ _ => negb (isBlocked c)
  | CEvict _ _ => bool_decide (q_freeList (writeBuffer c) ≠ [])
  | CSend _ => true
  | CResp i _ _ _ _ _ => bool_decide (i ∈ q_allocatedList (mshrQueue c)) && bool_decide (i ∉ q_readyList (mshrQueue c))
  end.

Fixpoint cache_run (ops : list (Z * CacheOp)) (c : Cache) : outcome Cache :=
  match ops with
  | [] => Ok c
  | (curTick, op) :: ops =>
      if cache_enabled op c then c ← cache_step curTick op c; cache_run ops c else cache_run ops c
  end.

(** A cache with empty queues. *)
Definition cache_new (mshrs write_buffers : Z) (wa : option WriteAllocator) (p : option P) (t : Tags G R) : Cache :=
  mkCacheQ (mshr_queue_new mshrs 0) (write_queue_new write_buffers mshrs) 0 0 None wa p t ∅ [].
End Cache.
