(* ===== verification/CacheQueueFacts.v ===== *)
(** * Theorems on the queues of the cache

    The entry sent next is one that is ready or that another one has to wait for, a miss
    never overtakes an older write of its block, and a prefetch goes out only when nothing
    else is ready and its block is nowhere to be found.  Over any history the cache is
    blocked exactly while a queue is full or a register has no room for another target,
    and no block has two registers. *)

From Stdlib Require Import ZArith Lia Sorting.Sorted.
From stdpp Require Import base numbers option list strings gmap.
From S2P Require Import Prelude PrefetchBase Replacement Indexing AssocCache MemCmd Mshr MshrFacts MissQueue MissQueueFacts.
From S2P Require Import CacheBlk TagStore TagFacts CacheQueues.
#[local] Open Scope Z_scope.

(** ** Frames

    What the operations of the queues do not change. *)

Definition mshr_key (m : MSHR) : Z * bool * bool := (m_blkAddr m, m_isSecure m, m_isUncacheable m).

(** Every register in use was in use for the same block before. *)
Definition mq_frame (q q' : MSHRQueue) : Prop :=
  ∀ j m', j ∈ q_allocatedList q' → q_entries q' !! j = Some m' →
    j ∈ q_allocatedList q ∧ ∃ m, q_entries q !! j = Some m ∧ mshr_key m' = mshr_key m.

Definition same_sizes {E} (q q' : Queue E) : Prop :=
  q_numEntries q' = q_numEntries q ∧ q_numReserve q' = q_numReserve q ∧ q_allocated q' = q_allocated q.

Lemma entry_frame i m m' (q : MSHRQueue) :
  q_entries q !! i = Some m → mshr_key m' = mshr_key m → mq_frame q (MissQueue.with_entry i m' q).
Proof.
  intros Hi Hk j x Hj [[-> ->]|[Hne Hx]]%lookup_other; [split; [done|by exists m]|split; [done|by exists x]].
Qed.

Lemma frame_trans q1 q2 q3 : mq_frame q1 q2 → mq_frame q2 q3 → mq_frame q1 q3.
Proof.
  intros H1 H2 j m3 Hj Hm3. destruct (H2 j m3 Hj Hm3) as (Hj2 & m2 & Hm2 & E2). destruct (H1 j m2 Hj2 Hm2) as (Hj1 & m1 & Hm1 & E1).
  split; [done|]. exists m1. split; [done|congruence].
Qed.

Lemma allocateTarget_key w tick pkt ready order alloc m w' m' :
  allocateTarget w tick pkt ready order alloc m = Ok (w', m') → mshr_key m' = mshr_key m.
Proof.
  unfold allocateTarget. intros E. apply outcome_bind_ok in E as (_ & _ & E). apply outcome_bind_ok in E as (d & _ & E). destruct d.
  - do 2 apply outcome_bind_ok in E as (? & _ & E). apply outcome_bind_ok in E as ([? ?] & _ & E). by injection E as _ <-.
  - apply outcome_bind_ok in E as ([? ?] & _ & E). by injection E as _ <-.
Qed.

Lemma markInService_key w pm m w' m' : markInService w pm m = Ok (w', m') → mshr_key m' = mshr_key m.
Proof.
  unfold markInService. intros E. apply outcome_bind_ok in E as (_ & _ & E). apply outcome_bind_ok in E as ([? ?] & _ & E). by injection E as _ <-.
Qed.

Lemma promoteIf_key w pred m w' m' : promoteIf w pred m = Ok (w', m') → mshr_key m' = mshr_key m.
Proof.
  unfold promoteIf. intros E. apply outcome_bind_ok in E as (_ & _ & E). do 2 apply outcome_bind_ok in E as ([? ?] & _ & E).
  apply outcome_bind_ok in E as (? & _ & E). by injection E as _ <-.
Qed.

Lemma promoteReadable_key w m w' m' : promoteReadable w m = Ok (w', m') → mshr_key m' = mshr_key m.
Proof.
  unfold promoteReadable. intros E. if_in E; [by injection E as _ <-|]. apply outcome_bind_ok in E as (inv & _ & E).
  destruct inv; [by injection E as _ <-|by eapply promoteIf_key].
Qed.

Lemma promoteWritable_key w m w' m' : promoteWritable w m = Ok (w', m') → mshr_key m' = mshr_key m.
Proof.
  unfold promoteWritable. intros E. destruct (tl_targets (deferredTargets m)); [by injection E as _ <-|]. if_in E; [|by injection E as _ <-].
  do 2 apply outcome_bind_ok in E as (? & _ & E). if_in E; [|by injection E as _ <-].
  apply outcome_bind_ok in E as (? & _ & E). by apply promoteIf_key in E.
Qed.

Lemma promoteDeferred_key tick m more m' : promoteDeferredTargets tick m = Ok (more, m') → mshr_key m' = mshr_key m.
Proof.
  unfold promoteDeferredTargets. intros E.
  destruct (tl_targets (targets m)), (tl_targets (deferredTargets m)); [by injection E as _ <-|..];
    match type of E with context [split_deferred ?a ?b] => destruct (split_deferred a b) end;
    do 3 apply outcome_bind_ok in E as (? & _ & E); by injection E as _ <-.
Qed.

Lemma receive_key tick resp r wr w m ready more w' m' :
  mshr_receive tick resp r wr w m = Ok (ready, more, w', m') → mshr_key m' = mshr_key m.
Proof.
  unfold mshr_receive. intros E. apply outcome_bind_ok in E as ([w1 m1] & E1 & E). apply outcome_bind_ok in E as ([w2 m2] & E2 & E).
  apply outcome_bind_ok in E as ([tl m3] & E3 & E).
  assert (mshr_key m1 = mshr_key m) as <- by (if_in E1; [by eapply promoteReadable_key|by injection E1 as _ <-]).
  assert (mshr_key m2 = mshr_key m1) as <- by (if_in E2; [by eapply promoteWritable_key|by injection E2 as _ <-]).
  assert (mshr_key m3 = mshr_key m2) as <-.
  { unfold extractServiceableTargets in E3. apply outcome_bind_ok in E3 as ([? ?] & _ & E3). do 2 apply outcome_bind_ok in E3 as (? & _ & E3). by injection E3 as _ <-. }
  if_in E; [by injection E as _ _ _ <-|]. apply outcome_bind_ok in E as ([more' m4] & E4 & E). injection E as _ _ _ <-. by eapply promoteDeferred_key.
Qed.

Lemma addToReadyList_frame (q q' : MSHRQueue) i : addToReadyList i q = Ok q' →
  q_entries q' = q_entries q ∧ q_allocatedList q' = q_allocatedList q ∧ same_sizes q q'.
Proof. unfold addToReadyList. intros E. apply outcome_bind_ok in E as (l & _ & E). by injection E as <-. Qed.

Lemma entry_at_Ok {E} `{QEntry E} (q : Queue E) i e : entry_at q i = Ok e → q_entries q !! i = Some e.
Proof. unfold entry_at. destruct (_ !! i); [|done]. by intros [= ->]. Qed.

Lemma send_frame w pm i q w' q' : mq_markInService w pm i q = Ok (w', q') →
  mq_frame q q' ∧ same_sizes q q' ∧ q_allocatedList q' = q_allocatedList q.
Proof.
  unfold mq_markInService. intros E. apply outcome_bind_ok in E as (m & Em%entry_at_Ok & E). apply outcome_bind_ok in E as ([w1 m1] & E1 & E).
  apply outcome_bind_ok in E as (l & _ & E). injection E as _ <-. split; [|done]. apply (entry_frame i m m1 q Em). by eapply markInService_key.
Qed.

Lemma pend_frame i (q q' : MSHRQueue) : mq_markPending i q = Ok q' →
  mq_frame q q' ∧ same_sizes q q' ∧ q_allocatedList q' = q_allocatedList q.
Proof.
  unfold mq_markPending. intros E. apply outcome_bind_ok in E as (m & Em%entry_at_Ok & E). apply outcome_bind_ok in E as (_ & _ & E).
  apply addToReadyList_frame in E as (E1 & E2 & E3). split; [|done]. intros j x. rewrite E1, E2. apply (entry_frame i m); done.
Qed.

Lemma deallocate_sizes {E} `{QEntry E} i (q q' : Queue E) : q_deallocate i q = Ok q' →
  q_numEntries q' = q_numEntries q ∧ q_numReserve q' = q_numReserve q ∧ q_allocated q' = q_allocated q - 1.
Proof.
  unfold q_deallocate. intros E1. apply outcome_bind_ok in E1 as (m & Em & E1). apply outcome_bind_ok in E1 as (al & Eal & E1).
  apply outcome_bind_ok in E1 as (q1 & E2 & E1). apply outcome_bind_ok in E1 as (m' & _ & E1).
  assert (q_numEntries q1 = q_numEntries q ∧ q_numReserve q1 = q_numReserve q ∧ q_allocated q1 = q_allocated q - 1).
  { if_in E2; [by injection E2 as <-|]. apply outcome_bind_ok in E2 as (l & _ & E2). by injection E2 as <-. }
  injection E1 as <-. by destruct (_ && _).
Qed.

Lemma erase_in x l l' : erase x l = Ok l' → x ∈ l.
Proof.
  revert l'. induction l as [|y l IH]; [done|]. simpl. intros l'. case_decide; [subst; by left|].
  intros E. apply outcome_bind_ok in E as (l1 & E & _). right. by eapply IH.
Qed.

Lemma deallocate_frame i (q q' : MSHRQueue) : NoDup (q_allocatedList q) → q_deallocate i q = Ok q' →
  mq_frame q q' ∧ ∀ j, j ∈ q_allocatedList q → j ≠ i → j ∈ q_allocatedList q'.
Proof.
  unfold q_deallocate. intros Hn E. apply outcome_bind_ok in E as (m & Em & E). apply outcome_bind_ok in E as (al & Eal & E).
  apply outcome_bind_ok in E as (q1 & E1 & E). apply outcome_bind_ok in E as (m' & _ & E).
  destruct (erase_nodup i (q_allocatedList q) Hn (erase_in _ _ _ Eal)) as (al' & Eal' & _ & _ & _ & Hal & _). rewrite Eal in Eal'. injection Eal' as <-.
  assert (q_allocatedList q' = al ∧ q_entries q' = <[i := m']> (q_entries q)) as (E2 & E3).
  { assert (q_allocatedList q1 = al ∧ q_entries q1 = q_entries q) as (? & Ee).
    { if_in E1; [by injection E1 as <-|]. apply outcome_bind_ok in E1 as (l & _ & E1). by injection E1 as <-. }
    injection E as <-. destruct (_ && _); cbn; by rewrite Ee. }
  split; [|rewrite E2; intros j ? ?; by apply Hal].
  intros j x. rewrite E2, E3. intros [Hj Hne]%Hal. rewrite list_lookup_insert_ne by done. eauto.
Qed.

(** A new register is one more, for the block of its packet. *)
Lemma allocate_frame w tick addr bs pkt ready order alloc (q q' : MSHRQueue) i w' :
  mq_allocate w tick addr bs pkt ready order alloc q = Ok (i, w', q') →
  ∃ m, q_allocatedList q' = q_allocatedList q ++ [i] ∧ q_entries q' = <[i := m]> (q_entries q) ∧ i ∈ q_freeList q ∧ i ∈ q_readyList q' ∧
    mshr_key m = (addr, mp_secure pkt, isUncacheable_req pkt).
Proof.
  unfold mq_allocate, take_free. intros E. apply outcome_bind_ok in E as ([[j m] q1] & E1 & E). destruct (q_freeList q) as [|k free]; [done|].
  do 2 apply outcome_bind_ok in E1 as (? & _ & E1). injection E1 as -> -> <-. apply outcome_bind_ok in E as ([w1 m1] & Em & E).
  apply outcome_bind_ok in E as (q2 & E2 & E). injection E as -> _ <-. exists m1. unfold enter in E2. apply outcome_bind_ok in E2 as (q3 & E3 & E2).
  set (q0 := mkQueue _ _ _ _ _ _ _ _ _) in E3. destruct (addToReadyList_ok i q0) as (l1 & l2 & _ & E3' & _). rewrite E3' in E3. injection E3 as <-.
  injection E2 as <-. cbn. split_and!; try done; [by left|apply elem_of_app; right; by left|].
  unfold mshr_allocate in Em. apply outcome_bind_ok in Em as ([? ?] & _ & Em). do 2 apply outcome_bind_ok in Em as (? & _ & Em). by injection Em as _ <-.
Qed.

(** ** Searches *)

Lemma find_entry_ok {E} `{QEntry E} (test : E → outcome bool) (f : E → bool) (q : Queue E) l :
  Forall (λ i, ∃ e, q_entries q !! i = Some e ∧ test e = Ok (f e)) l →
  ∃ o, find_entry test q l = Ok o ∧
    match o with
    | Some i => i ∈ l ∧ ∃ e, q_entries q !! i = Some e ∧ f e = true
    | None => Forall (λ i, ∀ e, q_entries q !! i = Some e → f e = false) l
    end.
Proof.
  induction 1 as [|i l (e & He & Ht) _ IH]; simpl; [exists None; split; [done|constructor]|].
  unfold entry_at at 1. rewrite He. cbn [mbind outcome_bind]. rewrite Ht. cbn [mbind outcome_bind]. destruct (f e) eqn:Ef.
  - exists (Some i). split; [done|]. split; [by left|eauto].
  - destruct IH as ([j|] & -> & Ho); eexists; (split; [done|]); cbn.
    + destruct Ho as [Hj ?]. split; [by right|done].
    + constructor; [|done]. intros e' He'. rewrite He in He'. by injection He' as <-.
Qed.

(** The block of an entry. *)
Definition same_block `{QEntry E} (addr : Z) (secure : bool) (e : E) : bool := (qe_blkAddr e =? addr) && eqb (qe_isSecure e) secure.

Lemma findMatch_ok {E} `{QEntry E} addr secure (q : Queue E) :
  queue_wf q → (∀ i e, i ∈ q_allocatedList q → q_entries q !! i = Some e → qe_isUncacheable e = false) →
  ∃ o, findMatch addr secure true q = Ok o ∧
    match o with
    | Some i => i ∈ q_allocatedList q ∧ ∃ e, q_entries q !! i = Some e ∧ same_block addr secure e = true
    | None => ∀ i e, i ∈ q_allocatedList q → q_entries q !! i = Some e → same_block addr secure e = false
    end.
Proof.
  intros Hq Hu. unfold findMatch. edestruct (find_entry_ok (λ e, if true && qe_isUncacheable e then Ok false else qe_matchBlockAddr addr secure e)
    (same_block addr secure) q (q_allocatedList q)) as (o & -> & Ho).
  - apply Forall_forall. intros i Hi. destruct (queue_entry_ok q i Hq Hi) as (e & He & _ & Ht). exists e. split; [done|].
    rewrite (Hu i e Hi He). cbn [andb]. unfold qe_matchBlockAddr. by rewrite Ht.
  - exists o. split; [done|]. destruct o; [done|]. intros i e Hi He. rewrite Forall_forall in Ho. by apply (Ho i Hi).
Qed.

Lemma findPending_ok {E F} `{QEntry E, QEntry F} (f : F) (q : Queue E) :
  queue_wf q → qe_hasTargets f = true →
  ∃ o, findPending f q = Ok o ∧
    match o with
    | Some i => i ∈ q_readyList q ∧ ∃ e, q_entries q !! i = Some e ∧ same_block (qe_blkAddr e) (qe_isSecure e) f = true
    | None => ∀ i e, i ∈ q_readyList q → q_entries q !! i = Some e → same_block (qe_blkAddr e) (qe_isSecure e) f = false
    end.
Proof.
  intros Hq Hf. unfold findPending. edestruct (find_entry_ok (qe_conflictAddr f) (λ e, same_block (qe_blkAddr e) (qe_isSecure e) f) q (q_readyList q))
    as (o & -> & Ho).
  - apply Forall_forall. intros i Hi%(ready_allocated q i Hq). destruct (queue_entry_ok q i Hq Hi) as (e & He & _ & Ht). exists e. split; [done|].
    unfold qe_conflictAddr, qe_matchBlockAddr. by rewrite Ht, Hf.
  - exists o. split; [done|]. destruct o; [done|]. intros i e Hi He. rewrite Forall_forall in Ho. by apply (Ho i Hi).
Qed.

Lemma getNext_ready {E} `{QEntry E} tick (q : Queue E) i : getNext tick q = Some i → i ∈ q_readyList q ∧ ready_at q i ≤ tick.
Proof. unfold getNext. destruct (q_readyList q) as [|j l]; [done|]. destruct (tick <? ready_at q j) eqn:Et; [done|]. intros [= <-]. split; [by left|lia]. Qed.

Lemma blockAddr_range size pkt : in_u 64 (mp_addr pkt) → in_u 64 (pkt_getBlockAddr size pkt).
Proof.
  unfold in_u, pkt_getBlockAddr. set (b := u64 _). assert (0 ≤ b) by (apply wrap_range; lia). generalize (mp_addr pkt). intros a Ha.
  assert (0 ≤ Z.ldiff a b) by (apply Z.ldiff_nonneg; lia). assert (a - Z.land a b = Z.ldiff a b) as Hs; [|pose proof (proj2 (Z.land_nonneg a b)); lia].
  rewrite Z.sub_nocarry_ldiff; apply Z.bits_inj'; intros n _; rewrite ?Z.bits_0, !Z.ldiff_spec, ?Z.land_spec; by destruct (Z.testbit a n), (Z.testbit b n).
Qed.

(** ** The invariant of the cache *)

(** What the prefetcher promises: it always answers, with prefetches of whole blocks that
    a register takes. *)
Class PrefetcherLaws (P : Type) `{CachePrefetcher P} (bs maxId : Z) := {
  pl_ok : P → Prop;
  pl_getPacket tick p : pl_ok p → ∃ o p', cp_getPacket tick p = Ok (o, p') ∧ pl_ok p' ∧
    ∀ pkt, o = Some pkt → mp_cmd pkt = HardPFReq ∧ pkt_ok bs pkt ∧ isUncacheable_req pkt = false ∧ mp_requestorId pkt < maxId ∧ in_u 64 (mp_addr pkt);
  pl_hits p : pl_ok p → pl_ok (cp_pfHitInCache p) ∧ pl_ok (cp_pfHitInMSHR p) ∧ pl_ok (cp_pfHitInWB p) ∧ pl_ok (cp_incrDemandMhsrMisses p)
}.

Definition blocked_flags (a b d : bool) : Z := Z.lor (if a then 1 else 0) (Z.lor (if b then 2 else 0) (if d then 4 else 0)).

Section Cache.
Context {G R P : Type} {RP : ReplPolicy G R} {CP : CachePrefetcher P}.
Context (ip : IndexingPolicy TaggedKey) (cfg : CacheCfg) {PL : PrefetcherLaws P (blkSize cfg) (maxRequestorIds cfg)}.
Context (Hbs : 0 ≤ blkSize cfg) (Hdr : 0 ≤ demandReserve cfg < 2 ^ 30).
Abbreviation Cache := (CacheQ G R P).
Abbreviation bs := (blkSize cfg).

(** No two registers for the same block, and none for uncacheable requests. *)
Definition one_per_block (q : MSHRQueue) : Prop :=
  (∀ i m, i ∈ q_allocatedList q → q_entries q !! i = Some m → m_isUncacheable m = false) ∧
  ∀ i j m m', i ∈ q_allocatedList q → j ∈ q_allocatedList q → q_entries q !! i = Some m → q_entries q !! j = Some m' →
    m_blkAddr m = m_blkAddr m' → m_isSecure m = m_isSecure m' → i = j.

Record cache_wf (c : Cache) : Prop := {
  cw_mshrs : mq_wf bs (mshrQueue c);
  cw_wb : queue_wf (writeBuffer c);
  cw_entry j e : j ∈ q_allocatedList (writeBuffer c) → q_entries (writeBuffer c) !! j = Some e →
    wq_inService e = false ∧ wq_isUncacheable e = false ∧ ∃ t, wq_targets e = [t];
  cw_size : q_numReserve (mshrQueue c) = 0 ∧ 0 < q_numEntries (mshrQueue c) < 2 ^ 30;
  cw_wsize : 0 ≤ q_numReserve (writeBuffer c) ∧ q_numEntries (writeBuffer c) < 2 ^ 30;
  cw_blocked : cq_blocked c = blocked_flags (q_isFull (mshrQueue c)) (q_isFull (writeBuffer c)) (bool_decide (is_Some (noTargetMSHR c)));
  cw_noTarget i : noTargetMSHR c = Some i → i ∈ q_allocatedList (mshrQueue c);
  cw_unique : one_per_block (mshrQueue c);
  cw_pf p : prefetcher c = Some p → pl_ok p;
  cw_tags addr secure : in_u 64 addr → is_ok (find_blk ip addr secure c)
}.

Lemma set_flag cause a b d : Z.lor (blocked_flags a b d) (cause_bit cause) =
  match cause with Blocked_NoMSHRs => blocked_flags true b d | Blocked_NoWBBuffers => blocked_flags a true d | Blocked_NoTargets => blocked_flags a b true end.
Proof. by destruct cause, a, b, d. Qed.

Lemma clear_flag cause a b d : Z.ldiff (blocked_flags a b d) (cause_bit cause) =
  match cause with Blocked_NoMSHRs => blocked_flags false b d | Blocked_NoWBBuffers => blocked_flags a false d | Blocked_NoTargets => blocked_flags a b false end.
Proof. by destruct cause, a, b, d. Qed.

Lemma blocked_iff c : cache_wf c → isBlocked c = q_isFull (mshrQueue c) || q_isFull (writeBuffer c) || bool_decide (is_Some (noTargetMSHR c)).
Proof. intros Hw. unfold isBlocked. rewrite (cw_blocked c Hw). by destruct (q_isFull _), (q_isFull _), (bool_decide _). Qed.

Lemma one_per_block_frame q q' : one_per_block q → mq_frame q q' → one_per_block q'.
Proof.
  intros [Hu H1] Hf. split.
  - intros i m Hi Hm. destruct (Hf i m Hi Hm) as (Hi' & m0 & Hm0 & Ek). injection Ek as _ _ ->. by apply (Hu i).
  - intros i j m m' Hi Hj Hm Hm' Ea Es. destruct (Hf i m Hi Hm) as (Hi' & m0 & Hm0 & Ek). destruct (Hf j m' Hj Hm') as (Hj' & m1 & Hm1 & Ek').
    injection Ek as ? ? _. injection Ek' as ? ? _. apply (H1 i j m0 m1); congruence.
Qed.

Lemma one_per_block_new q q' i m addr secure :
  queue_wf q → one_per_block q → (∀ j m, j ∈ q_allocatedList q → q_entries q !! j = Some m → same_block addr secure m = false) →
  i ∈ q_freeList q → q_allocatedList q' = q_allocatedList q ++ [i] → q_entries q' = <[i := m]> (q_entries q) → mshr_key m = (addr, secure, false) →
  one_per_block q'.
Proof.
  intros Hq [Hu H1] Hnew Hi Eal Ee Ek. injection Ek as Ea Es Eu.
  assert (i < length (q_entries q))%nat as Hl by (apply (qw_all q Hq), elem_of_app; by right).
  pose proof (qw_nodup q Hq) as (_ & Hd & _)%NoDup_app.
  assert (∀ j x, j ∈ q_allocatedList q' → q_entries q' !! j = Some x → (j = i ∧ x = m) ∨ (j ∈ q_allocatedList q ∧ q_entries q !! j = Some x)) as Hin.
  { intros j x. rewrite Eal, Ee. intros [Hj|Hj%list_elem_of_singleton]%elem_of_app.
    - rewrite list_lookup_insert_ne by (intros ->; by apply (Hd j)). auto.
    - subst j. rewrite list_lookup_insert_eq by done. intros [= <-]. auto. }
  assert (∀ j x, j ∈ q_allocatedList q → q_entries q !! j = Some x → m_blkAddr x = addr → m_isSecure x = secure → False) as Hno.
  { intros j x Hj Hx Hxa Hxs. specialize (Hnew j x Hj Hx). unfold same_block in Hnew. cbn in Hnew. by rewrite Hxa, Hxs, Z.eqb_refl, eqb_reflx in Hnew. }
  split.
  - intros j x Hj Hx. destruct (Hin j x Hj Hx) as [[-> ->]|[? ?]]; [done|by apply (Hu j)].
  - intros j k x y Hj Hk Hx Hy Eab Esb. destruct (Hin j x Hj Hx) as [[-> ->]|[Hj' Hx']], (Hin k y Hk Hy) as [[-> ->]|[Hk' Hy']]; [done| | |by apply (H1 j k x y)].
    + destruct (Hno k y Hk' Hy'); congruence.
    + destruct (Hno j x Hj' Hx'); congruence.
Qed.

(** A change of the miss queue: the cache is as it was, but for the queue and its flag. *)
Lemma mshrs_changed c c' :
  cache_wf c → mq_wf bs (mshrQueue c') → writeBuffer c' = writeBuffer c → tags c' = tags c → noTargetMSHR c' = noTargetMSHR c →
  (∀ p, prefetcher c' = Some p → pl_ok p) →
  q_numEntries (mshrQueue c') = q_numEntries (mshrQueue c) → q_numReserve (mshrQueue c') = q_numReserve (mshrQueue c) →
  one_per_block (mshrQueue c') → (∀ i, noTargetMSHR c = Some i → i ∈ q_allocatedList (mshrQueue c')) →
  cq_blocked c' = blocked_flags (q_isFull (mshrQueue c')) (q_isFull (writeBuffer c)) (bool_decide (is_Some (noTargetMSHR c))) →
  cache_wf c'.
Proof.
  intros [A1 A2 A3 A4 A5 A6 A7 A8 A9 A10] Hq Ewb Et En Hp Es Er Hu Hn Hb. split; rewrite ?Ewb, ?En, ?Es, ?Er; try done.
  intros addr secure. unfold find_blk. rewrite Et. apply A10.
Qed.

Lemma isFull_grow {E} (q q' : Queue E) :
  q_numEntries q' = q_numEntries q → q_numReserve q' = q_numReserve q → q_allocated q ≤ q_allocated q' → q_isFull q' = false → q_isFull q = false.
Proof. unfold q_isFull. intros -> -> ?. rewrite !Z.leb_gt. lia. Qed.

Lemma isFull_same {E} (q q' : Queue E) : same_sizes q q' → q_isFull q' = q_isFull q.
Proof. intros (E1 & E2 & E3). unfold q_isFull. by rewrite E1, E2, E3. Qed.

Lemma allocateMissBuffer_ok tick pkt time sched c :
  cache_wf c → pkt_ok bs pkt → isUncacheable_req pkt = false → q_freeList (mshrQueue c) ≠ [] →
  (∀ j m, j ∈ q_allocatedList (mshrQueue c) → q_entries (mshrQueue c) !! j = Some m → same_block (pkt_getBlockAddr bs pkt) (mp_secure pkt) m = false) →
  ∃ i c', allocateMissBuffer cfg tick pkt time sched c = Ok (i, c') ∧ cache_wf c' ∧ i ∈ q_readyList (mshrQueue c') ∧
    writeBuffer c' = writeBuffer c ∧ q_allocatedList (mshrQueue c') = q_allocatedList (mshrQueue c) ++ [i].
Proof.
  intros Hw Hp Hu Hf Hnew. unfold allocateMissBuffer.
  destruct (mq_allocate_ok bs Hbs (cq_up c) tick (pkt_getBlockAddr bs pkt) pkt time (i64 (cq_order c)) (cache_allocOnFill cfg (mp_cmd pkt)) (mshrQueue c)
    (cw_mshrs c Hw) Hp Hf) as (i & q' & E & Hq' & _). rewrite E. cbn [mbind outcome_bind].
  apply mq_allocate_sizes in E as Es. destruct Es as (E1 & E2 & E3). apply allocate_frame in E as (m & Eal & Ee & Hi & Hr & Ek). rewrite Hu in Ek.
  assert (one_per_block q') as Huq by (eapply (one_per_block_new (mshrQueue c) q' i m); try done; [by apply cw_mshrs|by apply cw_unique]).
  eexists i, _. split; [done|]. assert (∀ b, cq_blocked (if b : bool then setBlocked Blocked_NoMSHRs c else c) =
    blocked_flags (b || q_isFull (mshrQueue c)) (q_isFull (writeBuffer c)) (bool_decide (is_Some (noTargetMSHR c)))) as Hb.
  { intros [|]; [|by apply cw_blocked]. change (Z.lor (cq_blocked c) (cause_bit Blocked_NoMSHRs) = blocked_flags true
      (q_isFull (writeBuffer c)) (bool_decide (is_Some (noTargetMSHR c)))). by rewrite (cw_blocked c Hw), set_flag. }
  assert (q_isFull q' || q_isFull (mshrQueue c) = q_isFull q') as Hfull.
  { destruct (q_isFull q') eqn:Efq; [done|]. apply (isFull_grow (mshrQueue c) q'); [done|done|lia|done]. }
  specialize (Hb (q_isFull q')). rewrite Hfull in Hb. cbn [mshrQueue next_order with_up with_mshrs].
  split; [|by destruct sched, (q_isFull q')].
  apply (mshrs_changed c); try done; try (by destruct sched, (q_isFull q')).
  - destruct sched, (q_isFull q'); cbn; apply (cw_pf c Hw).
  - assert (∀ x, x ∈ q_allocatedList (mshrQueue c) → x ∈ q_allocatedList q') as Hin by (intros x Hx; rewrite Eal; apply elem_of_app; by left).
    intros x Hx%(cw_noTarget c Hw). destruct sched, (q_isFull q'); cbn; by apply Hin.
  - destruct sched, (q_isFull q') eqn:Efq; cbn in *; by rewrite Efq.
Qed.

(** *** The write buffer *)

(** An eviction. *)
Definition evict_ok (pkt : MemPacket) : Prop :=
  has IsEviction (mp_cmd pkt) = true ∧ (has IsWrite (mp_cmd pkt) || bool_decide (mp_cmd pkt = CleanEvict)) = true ∧ isUncacheable_req pkt = false.

(** A change of the write buffer. *)
Lemma writes_changed c c' :
  cache_wf c → queue_wf (writeBuffer c') →
  (∀ j e, j ∈ q_allocatedList (writeBuffer c') → q_entries (writeBuffer c') !! j = Some e →
    wq_inService e = false ∧ wq_isUncacheable e = false ∧ ∃ t, wq_targets e = [t]) →
  mshrQueue c' = mshrQueue c → tags c' = tags c → noTargetMSHR c' = noTargetMSHR c → prefetcher c' = prefetcher c →
  q_numEntries (writeBuffer c') = q_numEntries (writeBuffer c) → q_numReserve (writeBuffer c') = q_numReserve (writeBuffer c) →
  cq_blocked c' = blocked_flags (q_isFull (mshrQueue c)) (q_isFull (writeBuffer c')) (bool_decide (is_Some (noTargetMSHR c))) →
  cache_wf c'.
Proof.
  intros [A1 A2 A3 A4 A5 A6 A7 A8 A9 A10] Hq He Em Et En Hp Es Er Hb. split; rewrite ?Em, ?En, ?Es, ?Er; try done.
  - intros p. rewrite Hp. apply A9.
  - intros addr secure. unfold find_blk. rewrite Et. apply A10.
Qed.

Lemma wq_entry_allocate_ok tick addr size pkt ready order e :
  evict_ok pkt → wq_targets e = [] →
  wq_entry_allocate tick addr size pkt ready order e =
    Ok (mkWQEntry ready false false order addr size (mp_secure pkt) [mkWTarget tick ready order pkt]).
Proof.
  intros (H1 & H2 & H3) Ht. unfold wq_entry_allocate. rewrite H3, Ht, H1. cbn [negb andb orb bool_decide decide_rel]. rewrite andb_false_r.
  cbn. unfold pkt_matchBlockAddr. by rewrite Z.eqb_refl, eqb_reflx.
Qed.

Lemma enter_sizes {E} `{QEntry E} i (e : E) q q' : enter i e q = Ok q' →
  q_numEntries q' = q_numEntries q ∧ q_numReserve q' = q_numReserve q ∧ q_allocated q' = q_allocated q + 1.
Proof.
  unfold enter, addToReadyList. intros E1. apply outcome_bind_ok in E1 as (q1 & E2 & E1). apply outcome_bind_ok in E2 as (l & _ & E2).
  injection E2 as <-. by injection E1 as <-.
Qed.

Lemma allocateWriteBuffer_ok tick pkt time c :
  cache_wf c → evict_ok pkt → q_freeList (writeBuffer c) ≠ [] →
  ∃ c', allocateWriteBuffer cfg tick pkt time c = Ok c' ∧ cache_wf c' ∧ mshrQueue c' = mshrQueue c.
Proof.
  intros Hw Hp Hf. pose proof (cw_wb c Hw) as Hq. pose proof Hp as (_ & Hwr & _). unfold allocateWriteBuffer. rewrite Hwr. cbn [assert_that mbind outcome_bind].
  destruct (findMatch_ok (pkt_getBlockAddr bs pkt) (mp_secure pkt) (writeBuffer c) Hq) as (o & -> & _).
  { intros i e Hi He. by destruct (cw_entry c Hw i e Hi He) as (_ & ? & _). }
  cbn [mbind outcome_bind]. destruct (take_free_ok (writeBuffer c) Hq Hf) as (i & e & free & Ef & He & Hn & Et). unfold wq_allocate. rewrite Et.
  cbn [mbind outcome_bind]. rewrite wq_entry_allocate_ok by (done || by apply nil_length_inv). cbn [mbind outcome_bind]. set (e' := mkWQEntry _ _ _ _ _ _ _ _).
  destruct (enter_ok (writeBuffer c) i free e' Hq Ef) as (q' & E & Hq' & _ & Ee & Eal & _); [done|done|]. rewrite E. cbn [mbind outcome_bind].
  apply enter_sizes in E as (E1 & E2 & E3). cbn in E1, E2, E3. eexists. split; [done|]. cbn [writeBuffer next_order with_wb].
  assert (∀ b : bool, cq_blocked (if b then setBlocked Blocked_NoWBBuffers c else c) =
    blocked_flags (q_isFull (mshrQueue c)) (b || q_isFull (writeBuffer c)) (bool_decide (is_Some (noTargetMSHR c)))) as Hb.
  { intros [|]; [|by apply cw_blocked]. change (Z.lor (cq_blocked c) (cause_bit Blocked_NoWBBuffers) = blocked_flags
      (q_isFull (mshrQueue c)) true (bool_decide (is_Some (noTargetMSHR c)))). by rewrite (cw_blocked c Hw), set_flag. }
  assert (q_isFull q' || q_isFull (writeBuffer c) = q_isFull q') as Hfull.
  { destruct (q_isFull q') eqn:Efq; [done|]. apply (isFull_grow (writeBuffer c) q'); [done|done|lia|done]. }
  specialize (Hb (q_isFull q')). rewrite Hfull in Hb. split; [|by destruct (q_isFull q')].
  apply (writes_changed c); try done; try (by destruct (q_isFull q')).
  - assert (∀ j x, j ∈ q_allocatedList q' → q_entries q' !! j = Some x → wq_inService x = false ∧ wq_isUncacheable x = false ∧ ∃ t, wq_targets x = [t]) as Hall.
    { intros j x. rewrite Eal, Ee. destruct (decide (j = i)) as [->|Hne].
      - rewrite list_lookup_insert_eq by by eapply lookup_lt_Some. intros _ [= <-]. cbn. eauto.
      - rewrite list_lookup_insert_ne by done. intros [Hj|?%list_elem_of_singleton]%elem_of_app; [by apply (cw_entry c Hw)|done]. }
    by destruct (q_isFull q').
  - destruct (q_isFull q') eqn:Efq; cbn in *; by rewrite Efq.
Qed.

(** *** Sending *)

Lemma cache_markInService_ok pm i c :
  cache_wf c → i ∈ q_readyList (mshrQueue c) → ∃ c', cache_markInService pm i c = Ok c' ∧ cache_wf c'.
Proof.
  intros Hw Hi. unfold cache_markInService. destruct (mq_send_ok bs (cq_up c) pm i (mshrQueue c) (cw_mshrs c Hw) Hi) as (q' & E & Hq' & _).
  rewrite E. cbn [mbind outcome_bind]. eexists. split; [done|]. apply send_frame in E as (Hf & Hs & Eal). cbn [mshrQueue with_up with_mshrs].
  rewrite (isFull_same _ _ Hs), andb_negb_r. pose proof Hs as (E1 & E2 & _). apply (mshrs_changed c); try done.
  - apply (cw_pf c Hw).
  - eapply one_per_block_frame; [by apply cw_unique|done].
  - intros x Hx%(cw_noTarget c Hw). cbn. by rewrite Eal.
  - cbn. rewrite (isFull_same _ _ Hs). by apply cw_blocked.
Qed.

(** The flag of a queue that may have got room. *)
Lemma shrink_flag {E} (q q' : Queue E) :
  q_numEntries q' = q_numEntries q → q_numReserve q' = q_numReserve q → q_allocated q' ≤ q_allocated q →
  q_isFull q' = (if q_isFull q && negb (q_isFull q') then false else q_isFull q).
Proof.
  intros E1 E2 E3. destruct (q_isFull q) eqn:Ef, (q_isFull q') eqn:Ef'; try done. pose proof (isFull_grow q' q) as Hg.
  rewrite Hg in Ef'; [done|congruence|congruence|lia|done].
Qed.

Lemma cache_markWriteInService_ok j c :
  cache_wf c → j ∈ q_readyList (writeBuffer c) → ∃ c', cache_markWriteInService j c = Ok c' ∧ cache_wf c'.
Proof.
  intros Hw Hj%(ready_allocated _ j (cw_wb c Hw)). pose proof (cw_wb c Hw) as Hq. unfold cache_markWriteInService, wq_markInService.
  destruct (queue_entry_ok (writeBuffer c) j Hq Hj) as (e & He & -> & _). destruct (cw_entry c Hw j e Hj He) as (Hs & _ & t & Ht).
  cbn [mbind outcome_bind]. unfold wq_popTarget. rewrite Ht. cbn [mbind outcome_bind].
  edestruct (q_deallocate_ok (writeBuffer c) j e (wq_with_targets [] e)) as (q' & E & Hq' & _ & Ee & Eal & _); [done|done|done|done|done|done|].
  rewrite E. cbn [mbind outcome_bind]. eexists. split; [done|]. apply deallocate_sizes in E as (E1 & E2 & E3). cbn in E1, E2, E3. cbn [writeBuffer with_wb].
  assert (∀ k x, k ∈ q_allocatedList q' → q_entries q' !! k = Some x → wq_inService x = false ∧ wq_isUncacheable x = false ∧ ∃ t, wq_targets x = [t]) as Hall.
  { intros k x Hk. pose proof (qw_nodup _ Hq) as (Hn & _)%NoDup_app. rewrite Eal in Hn. apply NoDup_cons in Hn as [Hj' _].
    rewrite Ee, list_lookup_insert_ne by (intros ->; done). apply (cw_entry c Hw). rewrite Eal. by right. }
  pose proof (shrink_flag (writeBuffer c) q' E1 E2 ltac:(lia)) as Hsh.
  destruct (q_isFull (writeBuffer c) && negb (q_isFull q')); apply (writes_changed c); try done.
  - change (Z.ldiff (cq_blocked c) (cause_bit Blocked_NoWBBuffers) = blocked_flags (q_isFull (mshrQueue c)) (q_isFull q') (bool_decide (is_Some (noTargetMSHR c)))).
    by rewrite (cw_blocked c Hw), clear_flag, Hsh.
  - cbn. rewrite Hsh. by apply cw_blocked.
Qed.

(** *** What is next *)

Lemma free_register c : cache_wf c → q_allocated (mshrQueue c) < q_numEntries (mshrQueue c) → q_freeList (mshrQueue c) ≠ [].
Proof. intros Hw Hlt Ef. destruct (cw_mshrs c Hw) as [Hq _]. pose proof (queue_total _ Hq) as Ht. rewrite Ef in Ht. cbn in Ht. lia. Qed.

Lemma canPrefetch_free c : cache_wf c → canPrefetch (demandReserve cfg) (mshrQueue c) = true → q_freeList (mshrQueue c) ≠ [].
Proof.
  intros Hw Hc. apply free_register; [done|]. unfold canPrefetch in Hc. apply Z.ltb_lt in Hc. destruct (cw_size c Hw) as [Hr Hn]. rewrite Hr in Hc.
  rewrite (swrap_id 32 (0 + 1 + demandReserve cfg)) in Hc by (unfold in_s; lia). rewrite swrap_id in Hc by (unfold in_s; lia). lia.
Qed.

Lemma pf_changed c p : cache_wf c → pl_ok p → cache_wf (with_pf (Some p) c).
Proof. intros [A1 A2 A3 A4 A5 A6 A7 A8 A9 A10] Hp. split; try done. intros p' [= <-]. done. Qed.

Lemma unique_cacheable c i m : cache_wf c → i ∈ q_allocatedList (mshrQueue c) → q_entries (mshrQueue c) !! i = Some m → m_isUncacheable m = false.
Proof. intros Hw. apply (cw_unique c Hw). Qed.

(** A prefetch goes out only for a block that is not in the cache and not in a queue. *)
Definition nowhere (pkt : MemPacket) (c : Cache) : Prop :=
  find_blk ip (pkt_getBlockAddr bs pkt) (mp_secure pkt) c = Ok None ∧
  (∀ j m, j ∈ q_allocatedList (mshrQueue c) → q_entries (mshrQueue c) !! j = Some m → same_block (pkt_getBlockAddr bs pkt) (mp_secure pkt) m = false) ∧
  (∀ j e, j ∈ q_allocatedList (writeBuffer c) → q_entries (writeBuffer c) !! j = Some e → same_block (pkt_getBlockAddr bs pkt) (mp_secure pkt) e = false).

Lemma try_prefetch_ok tick c :
  cache_wf c → ∃ o c', try_prefetch ip cfg tick c = Ok (o, c') ∧ cache_wf c' ∧
    match o with
    | None => True
    | Some (NextMiss i) => i ∈ q_readyList (mshrQueue c') ∧ (i ∉ q_allocatedList (mshrQueue c)) ∧ isBlocked c = false ∧ canPrefetch (demandReserve cfg) (mshrQueue c) = true ∧
        ∃ p p' pkt, prefetcher c = Some p ∧ cp_getPacket tick p = Ok (Some pkt, p') ∧ nowhere pkt c
    | Some (NextWrite _) => False
    end.
Proof.
  intros Hw. unfold try_prefetch. destruct (prefetcher c) as [p|] eqn:Ep; [|by eexists _, _]. destruct (_ && _) eqn:Ec; [|by eexists _, _].
  apply andb_prop in Ec as [Hc Hb]. apply negb_true_iff in Hb.
  destruct (pl_getPacket tick p (cw_pf c Hw p Ep)) as (o & p' & Eg & Hp' & Ho). rewrite Eg. cbn [mbind outcome_bind].
  destruct (pl_hits p' Hp') as (Hh1 & Hh2 & Hh3 & _). pose proof (pf_changed c p' Hw Hp') as Hw1.
  destruct o as [pkt|]; [|by eexists _, _]. destruct (Ho pkt eq_refl) as (_ & Hpkt & Hu & Hid & Haddr).
  destruct (cw_tags c Hw (pkt_getBlockAddr bs pkt) (mp_secure pkt)) as [hit Ehit]; [by apply blockAddr_range|].
  change (find_blk ip (pkt_getBlockAddr bs pkt) (mp_secure pkt) (with_pf (Some p') c)) with (find_blk ip (pkt_getBlockAddr bs pkt) (mp_secure pkt) c).
  rewrite Ehit. cbn [mbind outcome_bind]. destruct hit as [b|]; [rewrite bool_decide_true by (by eexists); eexists _, _; split; [done|]; split; [by apply pf_changed|done]|].
  rewrite bool_decide_false by by intros []. cbn [mshrQueue with_pf writeBuffer].
  destruct (findMatch_ok (pkt_getBlockAddr bs pkt) (mp_secure pkt) (mshrQueue c) (proj1 (cw_mshrs c Hw))) as (o1 & -> & H1); [by intros i m; apply unique_cacheable|].
  cbn [mbind outcome_bind]. destruct o1 as [k|]; [rewrite bool_decide_true by (by eexists); eexists _, _; split; [done|]; split; [by apply pf_changed|done]|].
  rewrite bool_decide_false by by intros [].
  destruct (findMatch_ok (pkt_getBlockAddr bs pkt) (mp_secure pkt) (writeBuffer c) (cw_wb c Hw)) as (o2 & -> & H2).
  { intros i e Hi He. by destruct (cw_entry c Hw i e Hi He) as (_ & ? & _). }
  cbn [mbind outcome_bind]. destruct o2 as [k|]; [rewrite bool_decide_true by (by eexists); eexists _, _; split; [done|]; split; [by apply pf_changed|done]|].
  rewrite bool_decide_false by by intros []. rewrite (proj2 (Z.ltb_lt _ _)) by done. cbn [assert_that mbind outcome_bind].
  destruct (allocateMissBuffer_ok tick pkt tick false (with_pf (Some p') c) Hw1 Hpkt Hu) as (i & c' & -> & Hw' & Hi & _ & Eal); [by apply canPrefetch_free|done|].
  cbn [mbind outcome_bind]. eexists _, _. split; [done|]. split; [done|]. split; [done|].
  split; [|split; [done|split; [done|by exists p, p', pkt]]]. pose proof (qw_nodup _ (proj1 (cw_mshrs c' Hw'))) as (Hn & _)%NoDup_app.
  rewrite Eal in Hn. apply NoDup_app in Hn as (_ & Hn & _). intros Hia. apply (Hn i Hia). by left.
Qed.

(** A ready miss and its conflict with the write buffer. *)
Lemma miss_next c i :
  cache_wf c → i ∈ q_readyList (mshrQueue c) →
  ∃ m conflict, entry_at (mshrQueue c) i = Ok m ∧ findPending m (writeBuffer c) = Ok conflict ∧
    match conflict with
    | Some k => k ∈ q_readyList (writeBuffer c)
    | None => ∀ j e, j ∈ q_readyList (writeBuffer c) → q_entries (writeBuffer c) !! j = Some e → same_block (wq_blkAddr e) (wq_isSecure e) m = false
    end.
Proof.
  intros Hw Hi. pose proof (cw_mshrs c Hw) as [Hq _]. destruct (queue_entry_ok _ i Hq (ready_allocated _ i Hq Hi)) as (m & _ & Em & Ht).
  destruct (findPending_ok m (writeBuffer c) (cw_wb c Hw) Ht) as (o & Eo & Ho). exists m, o. split; [done|]. split; [done|]. destruct o; [|done]. by destruct Ho.
Qed.

(** Why a miss is sent: no write of its block waits, or the write that would be sent is
    younger than the miss. *)
Definition may_go (tick : Z) (i : nat) (c : Cache) : Prop :=
  i ∈ q_readyList (mshrQueue c) ∧ ∃ m, q_entries (mshrQueue c) !! i = Some m ∧
    ((∀ j e, j ∈ q_readyList (writeBuffer c) → q_entries (writeBuffer c) !! j = Some e → same_block (wq_blkAddr e) (wq_isSecure e) m = false) ∨
     ∃ j e, getNext tick (writeBuffer c) = Some j ∧ q_entries (writeBuffer c) !! j = Some e ∧
       same_block (m_blkAddr m) (m_isSecure m) e = true ∧ m_order m < wq_order e).

Definition next_ok (tick : Z) (o : option Next) (c : Cache) : Prop :=
  match o with
  | Some (NextMiss i) => may_go tick i c
  | Some (NextWrite j) => j ∈ q_readyList (writeBuffer c)
  | None => False
  end.

Lemma getNext_queues tick c :
  cache_wf c → is_Some (getNext tick (mshrQueue c)) ∨ is_Some (getNext tick (writeBuffer c)) →
  ∃ o, getNextQueueEntry ip cfg tick c = Ok (o, c) ∧ next_ok tick o c.
Proof.
  intros Hw Hs. assert (∀ i, getNext tick (mshrQueue c) = Some i → ∃ o, (m ← entry_at (mshrQueue c) i; conflict ← findPending m (writeBuffer c);
      Ok (Some (match conflict with Some k => NextWrite k | None => NextMiss i end), c)) = Ok (o, c) ∧ next_ok tick o c) as Hmiss.
  { intros i [Hi _]%getNext_ready. destruct (miss_next c i Hw Hi) as (m & o & Em & Eo & Ho). rewrite Em. cbn [mbind outcome_bind]. rewrite Eo.
    cbn [mbind outcome_bind]. eexists. split; [done|]. destruct o as [k|]; [exact Ho|]. split; [done|]. exists m. split; [by apply entry_at_Ok|]. by left. }
  assert (∀ j, getNext tick (writeBuffer c) = Some j → ∃ o, (e ← entry_at (writeBuffer c) j; conflict ← findPending e (mshrQueue c);
      match conflict with
      | Some k => m ← entry_at (mshrQueue c) k; if m_order m <? wq_order e then Ok (Some (NextMiss k), c) else Ok (Some (NextWrite j), c)
      | None => Ok (Some (NextWrite j), c)
      end) = Ok (o, c) ∧ next_ok tick o c) as Hwrite.
  { intros j Ej. pose proof (getNext_ready tick _ j Ej) as [Hj _]. pose proof (cw_wb c Hw) as Hq.
    destruct (queue_entry_ok _ j Hq (ready_allocated _ j Hq Hj)) as (e & He & -> & Ht). cbn [mbind outcome_bind].
    destruct (findPending_ok e (mshrQueue c) (proj1 (cw_mshrs c Hw)) Ht) as (o & -> & Ho). cbn [mbind outcome_bind].
    destruct o as [k|]; [|by eexists]. destruct Ho as (Hk & m & Hm & Hsame).
    unfold entry_at. rewrite Hm. cbn [mbind outcome_bind]. destruct (m_order m <? wq_order e) eqn:Eo; [|by eexists].
    eexists. split; [done|]. split; [done|]. exists m. split; [done|]. right. exists j, e. split_and!; try done. lia. }
  unfold getNextQueueEntry. destruct (getNext tick (mshrQueue c)) as [i|], (getNext tick (writeBuffer c)) as [j|].
  - destruct (q_isFull (writeBuffer c) || _); [by apply Hwrite|by apply Hmiss].
  - by apply Hmiss.
  - rewrite bool_decide_true, orb_true_r by done. by apply Hwrite.
  - by destruct Hs as [[]|[]].
Qed.

Lemma getNext_none tick (c : Cache) :
  getNext tick (mshrQueue c) = None → getNext tick (writeBuffer c) = None → getNextQueueEntry ip cfg tick c = try_prefetch ip cfg tick c.
Proof. intros E1 E2. unfold getNextQueueEntry. by rewrite E1, E2. Qed.

(** *** Misses *)

(** A request of the processor for cacheable data. *)
Definition miss_ok (pkt : MemPacket) : Prop :=
  pkt_ok bs pkt ∧ (mp_cmd pkt ∉ [HardPFReq; WriteClean]) ∧ has IsEviction (mp_cmd pkt) = false ∧ isUncacheable_req pkt = false ∧
  mp_requestorId pkt < maxRequestorIds cfg.

Lemma wa_changed wa c : cache_wf c → cache_wf (with_wa wa c).
Proof. intros []. by split. Qed.

Lemma not_full_free c : cache_wf c → q_isFull (mshrQueue c) = false → q_freeList (mshrQueue c) ≠ [].
Proof.
  intros Hw Hf. destruct (cw_size c Hw) as [Hr Hn]. apply free_register; [done|]. unfold q_isFull in Hf. rewrite Hr in Hf. apply Z.leb_gt in Hf.
  rewrite swrap_id in Hf by (unfold in_s; lia). lia.
Qed.

(** Another request for a block that has a register. *)
Lemma add_target_ok tick pkt time i c :
  cache_wf c → miss_ok pkt → i ∈ q_allocatedList (mshrQueue c) →
  ∃ m m' w, entry_at (mshrQueue c) i = Ok m ∧
    allocateTarget (cq_up c) tick pkt time (i64 (cq_order c)) (cache_allocOnFill cfg (mp_cmd pkt)) m = Ok (w, m') ∧
    let c' := next_order (with_up w (with_mshrs (MissQueue.with_entry i m' (mshrQueue c)) c)) in
    cache_wf c' ∧ cache_wf (setBlocked Blocked_NoTargets (with_noTarget (Some i) c')).
Proof.
  intros Hw (Hp & Hc & _) Hi. pose proof (cw_mshrs c Hw) as Hq. destruct (mq_entry bs _ i Hq Hi) as (m & Hm & Em & Hwm & Hne). exists m.
  destruct (allocateTarget_ok bs (cq_up c) tick pkt time (i64 (cq_order c)) (cache_allocOnFill cfg (mp_cmd pkt)) m Hwm Hne Hp) as (m' & E & Hw' & Eh).
  { intros Ec. apply Hc. rewrite Ec. by left. }
  exists m', (cq_up c). split; [done|]. split; [done|]. apply allocateTarget_schedule in E as Hs. apply allocateTarget_key in E as Hk.
  destruct (mq_update bs (mshrQueue c) i m m' [mp_id pkt] Hq Hi Hm Hw' Hs Eh) as (Hq' & _).
  assert (one_per_block (MissQueue.with_entry i m' (mshrQueue c))) as Hu
    by (eapply one_per_block_frame; [by apply cw_unique|by eapply entry_frame]).
  assert (cache_wf (next_order (with_up (cq_up c) (with_mshrs (MissQueue.with_entry i m' (mshrQueue c)) c)))) as Hwc.
  { apply (mshrs_changed c); try done; [apply (cw_pf c Hw)|apply (cw_noTarget c Hw)|exact (cw_blocked c Hw)]. }
  split; [done|]. destruct Hwc as [A1 A2 A3 A4 A5 A6 A7 A8 A9 A10]. split; try done.
  - change (Z.lor (cq_blocked c) (cause_bit Blocked_NoTargets) = blocked_flags (q_isFull (mshrQueue c)) (q_isFull (writeBuffer c)) true).
    by rewrite (cw_blocked c Hw), set_flag.
  - by intros x [= <-].
Qed.

Lemma miss_step_ok tick pkt time c :
  cache_wf c → miss_ok pkt → isBlocked c = false → ∃ c', cache_step ip cfg tick (CMiss pkt time) c = Ok c' ∧ cache_wf c'.
Proof.
  intros Hw Hp Hb. pose proof Hp as (Hpk & Hc & Hev & Hu & Hid). cbn [cache_step]. rewrite (blocked_iff c Hw), !orb_false_iff in Hb. destruct Hb as [[Hfull _] _].
  destruct (findMatch_ok (pkt_getBlockAddr bs pkt) (mp_secure pkt) (mshrQueue c) (proj1 (cw_mshrs c Hw))) as (o & -> & Ho); [by intros i m; apply unique_cacheable|].
  cbn [mbind outcome_bind]. unfold handleTimingReqMiss.
  set (c1 := match writeAllocator c with Some _ => _ | None => c end).
  assert (cache_wf c1 ∧ mshrQueue c1 = mshrQueue c) as [Hw1 Eq] by (subst c1; destruct (writeAllocator c); [destruct (_ && _)|]; split; try done; by apply wa_changed).
  clearbody c1. assert (mp_cmd pkt ≠ CleanEvict) as Hce by (intros Ec; by rewrite Ec in Hev). assert (mp_cmd pkt ≠ WriteClean) as Hwc.
  { intros Ec. apply Hc. rewrite Ec. right. by left. }
  destruct o as [i|].
  - unfold cmd_isWriteback. rewrite Hev, !bool_decide_false by done. cbn [negb andb assert_that mbind outcome_bind].
    rewrite (proj2 (Z.ltb_lt _ _)) by done. cbn [assert_that mbind outcome_bind]. destruct Ho as [Hi _]. rewrite <-Eq in Hi.
    destruct (add_target_ok tick pkt time i c1 Hw1 Hp Hi) as (m & m' & w & -> & Ea & H1 & H2). cbn [mbind outcome_bind]. rewrite Ea. cbn [mbind outcome_bind].
    eexists. split; [done|]. by destruct (_ <=? _).
  - rewrite (proj2 (Z.ltb_lt _ _)) by done. cbn [assert_that mbind outcome_bind]. rewrite Hev, bool_decide_false by done. cbn [orb mbind outcome_bind].
    set (c2 := match prefetcher c1 with Some _ => _ | None => c1 end).
    assert (cache_wf c2 ∧ mshrQueue c2 = mshrQueue c) as [Hw2 Eq2].
    { subst c2. destruct (prefetcher c1) as [p|] eqn:Ep; [|done]. destruct (cmd_isDemand _); [|done]. split; [|done].
      apply pf_changed; [done|]. by apply pl_hits, (cw_pf c1 Hw1). }
    clearbody c2. destruct (allocateMissBuffer_ok tick pkt time true c2 Hw2 Hpk Hu) as (i & c' & -> & Hw' & _).
    { apply not_full_free; [done|]. by rewrite Eq2. }
    { by rewrite Eq2. }
    cbn [mbind outcome_bind]. by eexists.
Qed.

(** *** Responses *)

Lemma noTarget_cleared i c :
  cache_wf c → let c0 := if bool_decide (noTargetMSHR c = Some i) then with_noTarget None (clearBlocked Blocked_NoTargets c) else c in
  cache_wf c0 ∧ mshrQueue c0 = mshrQueue c ∧ cq_up c0 = cq_up c ∧ noTargetMSHR c0 ≠ Some i.
Proof.
  intros Hw. case_bool_decide as Hn; cbn; [|done]. split; [|done]. destruct Hw as [A1 A2 A3 A4 A5 A6 A7 A8 A9 A10]. split; try done.
  change (Z.ldiff (cq_blocked c) (cause_bit Blocked_NoTargets) = blocked_flags (q_isFull (mshrQueue c)) (q_isFull (writeBuffer c)) false).
  by rewrite A6, clear_flag.
Qed.

(** The cache after its queue has handled a response. *)
Lemma answered_wf i c (q' : MSHRQueue) w :
  cache_wf c → mq_wf bs q' → mq_frame (mshrQueue c) q' → noTargetMSHR c ≠ Some i →
  (∀ j, j ∈ q_allocatedList (mshrQueue c) → j ≠ i → j ∈ q_allocatedList q') →
  q_numEntries q' = q_numEntries (mshrQueue c) → q_numReserve q' = q_numReserve (mshrQueue c) → q_allocated q' ≤ q_allocated (mshrQueue c) →
  let c' := with_up w (with_mshrs q' c) in
  cache_wf (if q_isFull (mshrQueue c) && negb (q_isFull q') then clearBlocked Blocked_NoMSHRs c' else c').
Proof.
  intros Hw Hq' Hf Hn Hal E1 E2 E3 c'. pose proof (shrink_flag (mshrQueue c) q' E1 E2 E3) as Hsh.
  assert (one_per_block q') as Hu by (eapply one_per_block_frame; [by apply cw_unique|done]).
  assert (∀ j, noTargetMSHR c = Some j → j ∈ q_allocatedList q') as Hnt.
  { intros j Hj. apply Hal; [by apply (cw_noTarget c Hw)|]. intros ->. done. }
  destruct (q_isFull (mshrQueue c) && negb (q_isFull q')); apply (mshrs_changed c); try done; try (apply (cw_pf c Hw)).
  - change (Z.ldiff (cq_blocked c) (cause_bit Blocked_NoMSHRs) = blocked_flags (q_isFull q') (q_isFull (writeBuffer c)) (bool_decide (is_Some (noTargetMSHR c)))).
    by rewrite (cw_blocked c Hw), clear_flag, Hsh.
  - cbn. rewrite Hsh. by apply cw_blocked.
Qed.

Lemma cache_response_ok tick edge payload resp r wr i c :
  cache_wf c → i ∈ q_allocatedList (mshrQueue c) → i ∉ q_readyList (mshrQueue c) →
  ∃ served c', cache_response cfg tick edge payload resp r wr i c = Ok (served, c') ∧ cache_wf c'.
Proof.
  intros Hw0 Hi Hnr. unfold cache_response. destruct (noTarget_cleared i c Hw0) as (Hw & Eq & Eu & Hnt). set (c0 := if bool_decide _ then _ else _) in *.
  clearbody c0. rewrite <-Eq in Hi, Hnr. clear Hw0 Eq Eu c.
  destruct (mq_response_ok bs (cq_up c0) tick resp r wr i (mshrQueue c0) (cw_mshrs c0 Hw) Hi Hnr) as (served & q' & E & Hq' & _).
  unfold mq_response in E. apply outcome_bind_ok in E as (m & Em & E). apply outcome_bind_ok in E as ([[[ready more] w] m1] & E1 & E).
  apply outcome_bind_ok in E as (q1 & E2 & E). injection E as -> -> ->. rewrite Em. cbn [mbind outcome_bind]. rewrite E1. cbn [mbind outcome_bind].
  apply entry_at_Ok in Em. apply receive_key in E1 as Hk. pose proof (entry_frame i m m1 (mshrQueue c0) Em Hk) as Hf0.
  cbn [mshrQueue with_up with_mshrs]. destruct more as [[|]|].
  - rewrite E2. cbn [mbind outcome_bind]. eexists _, _. split; [done|]. apply pend_frame in E2 as (Hf & Hs & Eal).
    pose proof (frame_trans _ _ _ Hf0 Hf) as Hft. destruct Hs as (S1 & S2 & S3). cbn in S1, S2, S3.
    pose proof (answered_wf i c0 q' (cq_up c0) Hw Hq' Hft Hnt) as Ha. rewrite (isFull_same (mshrQueue c0) q'), andb_negb_r in Ha by done.
    destruct Ha as [A1 A2 A3 A4 A5 A6 A7 A8 A9 A10]; [by rewrite Eal|done|done|lia|]. by split.
  - rewrite E2. cbn [mbind outcome_bind]. eexists _, _. split; [done|]. pose proof (proj1 (cw_mshrs c0 Hw)) as Hq.
    pose proof (qw_nodup _ Hq) as (Hn & _)%NoDup_app. apply deallocate_sizes in E2 as Es. destruct Es as (S1 & S2 & S3). cbn in S1, S2, S3.
    apply deallocate_frame in E2 as [Hf Hal]; [|done]. pose proof (frame_trans _ _ _ Hf0 Hf) as Hft.
    pose proof (answered_wf i c0 q' (cq_up c0) Hw Hq' Hft Hnt Hal S1 S2 ltac:(lia)) as Ha. cbv zeta in Ha.
    change (q_isFull (MissQueue.with_entry i m1 (mshrQueue c0))) with (q_isFull (mshrQueue c0)).
    set (c2 := if q_isFull (mshrQueue c0) && _ then _ else _) in Ha |- *. clearbody c2. destruct (prefetcher c2); [|done].
    destruct (_ && _); [|done]. destruct (_ =? _); [done|]. destruct Ha. by split.
  - injection E2 as <-. eexists _, _. split; [done|].
    pose proof (answered_wf i c0 (MissQueue.with_entry i m1 (mshrQueue c0)) (cq_up c0) Hw Hq' Hf0 Hnt) as Ha.
    change (q_isFull (MissQueue.with_entry i m1 (mshrQueue c0))) with (q_isFull (mshrQueue c0)) in Ha. rewrite andb_negb_r in Ha. by apply Ha.
Qed.

(** *** Histories *)

Definition cache_op_ok (op : CacheOp) : Prop :=
  match op with CMiss pkt _ => miss_ok pkt | CEvict pkt _ => evict_ok pkt | _ => True end.

Lemma send_step_ok tick pm c : cache_wf c → ∃ c', cache_step ip cfg tick (CSend pm) c = Ok c' ∧ cache_wf c'.
Proof.
  intros Hw. cbn [cache_step].
  destruct (getNext tick (mshrQueue c)) as [i|] eqn:Em, (getNext tick (writeBuffer c)) as [j|] eqn:Ej.
  4: { rewrite getNext_none by done. destruct (try_prefetch_ok tick c Hw) as (o & c' & -> & Hw' & Ho). cbn [mbind outcome_bind].
       destruct o as [[k|k]|]; [|done|by eexists]. destruct Ho as [Hk _]. by apply cache_markInService_ok. }
  all: destruct (getNext_queues tick c Hw) as (o & -> & Ho); [rewrite Em, Ej; eauto|]; cbn [mbind outcome_bind];
    (destruct o as [[k|k]|]; [destruct Ho as [Ho _]; by apply cache_markInService_ok|by apply cache_markWriteInService_ok|done]).
Qed.

Lemma cache_step_ok tick op c :
  cache_wf c → cache_op_ok op → cache_enabled op c = true → ∃ c', cache_step ip cfg tick op c = Ok c' ∧ cache_wf c'.
Proof.
  intros Hw Hop Hen. destruct op as [pkt time|pkt time|pm|i edge payload resp r wr]; cbn [cache_enabled] in Hen.
  - apply miss_step_ok; [done|done|]. by apply negb_true_iff.
  - apply bool_decide_eq_true in Hen. destruct (allocateWriteBuffer_ok tick pkt time c Hw Hop Hen) as (c' & E & Hw' & _). eauto.
  - by apply send_step_ok.
  - apply andb_prop in Hen as [Hi Hn]. apply bool_decide_eq_true in Hi, Hn. cbn [cache_step].
    destruct (cache_response_ok tick edge payload resp r wr i c Hw Hi Hn) as (served & c' & -> & Hw'). cbn. eauto.
Qed.

Lemma cache_run_ok ops c :
  cache_wf c → Forall (λ op, cache_op_ok op.2) ops → ∃ c', cache_run ip cfg ops c = Ok c' ∧ cache_wf c'.
Proof.
  intros Hw Hops. revert c Hw. induction Hops as [|[tick op] ops Hop _ IH]; intros c Hw; cbn [cache_run]; [eauto|].
  destruct (cache_enabled op c) eqn:Een; [|by apply IH].
  destruct (cache_step_ok tick op c Hw Hop Een) as (c' & -> & Hw'). cbn [mbind outcome_bind]. by apply IH.
Qed.

(** The parameters of a cache: registers, entries of the write buffer, and lookups that
    succeed. *)
Record cache_fits (mshrs write_buffers : Z) (p : option P) (t : Tags G R) : Prop := {
  cf_mshrs : 0 < mshrs;
  cf_writes : 0 < write_buffers;
  cf_total : mshrs + write_buffers < 2 ^ 30;
  cf_pf x : p = Some x → pl_ok x;
  cf_tags key : in_u 64 (k_address key) → ∃ o, findBlock ip t key = Ok o ∧ ∀ i, o = Some i → is_ok (cell_at (t_store t) i)
}.

Lemma cache_new_wf mshrs write_buffers wa p t : cache_fits mshrs write_buffers p t → cache_wf (cache_new mshrs write_buffers wa p t).
Proof.
  intros [H1 H2 H3 H4 H5]. destruct (mshr_queue_new_wf bs mshrs 0) as [Hq _]; [lia|].
  assert (i32 (mshrs + 0) = mshrs) as E1 by (rewrite Z.add_0_r; apply swrap_id; [|unfold in_s]; lia).
  assert (i32 (write_buffers + mshrs) = write_buffers + mshrs) as E2 by (apply swrap_id; [|unfold in_s]; lia).
  assert (queue_wf (write_queue_new write_buffers mshrs)) as Hwq by (apply queue_new_wf; [lia|done]).
  split; try done.
  - intros j e Hj. cbn in Hj. by apply elem_of_nil in Hj.
  - cbn. rewrite E1. lia.
  - cbn. rewrite E2. lia.
  - unfold q_isFull. cbn. rewrite E1, E2, !swrap_id by (unfold in_s; lia). by rewrite (proj2 (Z.leb_gt _ _)), (proj2 (Z.leb_gt _ _)) by lia.
  - split; [intros i m Hi|intros i j m m' Hi]; cbn in Hi; by apply elem_of_nil in Hi.
  - intros addr secure Ha. unfold find_blk. cbn [tags cache_new]. destruct (H5 (mkKey addr secure) Ha) as (o & -> & Ho). cbn [mbind outcome_bind].
    destruct o as [i|]; [|by eexists]. destruct (Ho i eq_refl) as [cell ->]. by eexists.
Qed.


(** C13: What is sent next.  After any history [getNextQueueEntry] returns.  When an entry of
    either queue is ready it returns an entry that waits, and changes nothing; a miss it
    returns waits for no write of its block, or is older than the write that would be sent.
    When none is ready, the only thing it may return is a prefetch the prefetcher just
    offered, for a block that is neither in the cache nor in a queue, and the cache is not
    blocked. *)
Theorem next_entry_sound mshrs write_buffers wa p t ops tick :
  cache_fits mshrs write_buffers p t → Forall (λ op, cache_op_ok op.2) ops →
  ∃ c o c', cache_run ip cfg ops (cache_new mshrs write_buffers wa p t) = Ok c ∧ getNextQueueEntry ip cfg tick c = Ok (o, c') ∧
    if bool_decide (is_Some (getNext tick (mshrQueue c)) ∨ is_Some (getNext tick (writeBuffer c)))
    then next_ok tick o c ∧ c' = c
    else match o with
         | None => True
         | Some (NextMiss i) => i ∈ q_readyList (mshrQueue c') ∧ (i ∉ q_allocatedList (mshrQueue c)) ∧ isBlocked c = false ∧ canPrefetch (demandReserve cfg) (mshrQueue c) = true ∧
             ∃ p p' pkt, prefetcher c = Some p ∧ cp_getPacket tick p = Ok (Some pkt, p') ∧ nowhere pkt c
         | Some (NextWrite _) => False
         end.
Proof.
  intros Hf Hops. destruct (cache_run_ok ops _ (cache_new_wf mshrs write_buffers wa p t Hf) Hops) as (c & E & Hw).
  destruct (decide (is_Some (getNext tick (mshrQueue c)) ∨ is_Some (getNext tick (writeBuffer c)))) as [Hr|Hr].
  - destruct (getNext_queues tick c Hw Hr) as (o & Eo & Ho). exists c, o, c. by rewrite bool_decide_true.
  - destruct (try_prefetch_ok tick c Hw) as (o & c' & Eo & _ & Ho). exists c, o, c'. rewrite bool_decide_false by done. split; [done|].
    rewrite getNext_none by (apply eq_None_not_Some; tauto). done.
Qed.

End Cache.

(** ** The write allocator *)

(** Contiguous writes from [addr] on, each with its size and block. *)
Fixpoint stream (addr : Z) (writes : list (Z * Z)) (wa : WriteAllocator) : WriteAllocator :=
  match writes with
  | [] => wa
  | (size, blk) :: writes => stream (addr + size) writes (updateMode addr size blk wa)
  end.

Definition total (writes : list (Z * Z)) : Z := foldr (λ w n, w.1 + n) 0 writes.

Lemma total_nonneg writes : Forall (λ w, 0 ≤ w.1) writes → 0 ≤ total writes.
Proof. induction 1 as [|w writes Hw _ IH]; [done|]. change (0 ≤ w.1 + total writes). lia. Qed.

(** What the allocator knows after [n] contiguous bytes up to [addr]. *)
Definition streamed (addr n : Z) (wa : WriteAllocator) : Prop :=
  wa_nextAddr wa = addr ∧ 0 ≤ wa_byteCount wa ≤ n ∧ (wa_mode wa ≠ NO_ALLOCATE → wa_byteCount wa = n) ∧
  (wa_mode wa = ALLOCATE ↔ n ≤ coalesceLimit wa) ∧ (wa_mode wa = NO_ALLOCATE → noAllocateLimit wa < n).

Lemma updateMode_stream addr n size blk wa :
  streamed addr n wa → 0 ≤ size → n + size < 2 ^ 32 → 0 ≤ addr → addr + size < 2 ^ 64 → streamed (addr + size) (n + size) (updateMode addr size blk wa).
Proof.
  intros (H1 & H2 & H3 & H4 & H5) Hs Hn Ha Hb. unfold updateMode. rewrite H1, Z.eqb_refl. cbn [wa_mode wa_with_ctr].
  unfold streamed. rewrite (wrap_id 64) by (unfold in_u; lia). case_bool_decide as Hm.
  - cbn. rewrite H3 by done. rewrite wrap_id by (unfold in_u; lia). split; [done|]. split; [lia|]. split; [done|].
    destruct (wa_mode wa) eqn:Em; cbn; [|destruct (noAllocateLimit wa <? n + size) eqn:El|done].
    + destruct (coalesceLimit wa <? n + size) eqn:El; [apply Z.ltb_lt in El|apply Z.ltb_ge in El]; split; try done; split; (done || lia).
    + apply Z.ltb_lt in El. split; [|lia]. split; [done|]. intros ?. destruct H4 as [_ H4]. discriminate H4. lia.
    + split; [|done]. split; [done|]. intros ?. destruct H4 as [_ H4]. discriminate H4. lia.
  - cbn. rewrite Hm. split; [done|]. split; [lia|]. split; [done|]. split; [|by intros _; specialize (H5 Hm); lia].
    split; [done|]. intros ?. rewrite Hm in H4. destruct H4 as [_ H4]. discriminate H4. lia.
Qed.

Lemma stream_streamed addr n writes wa :
  streamed addr n wa → Forall (λ w, 0 ≤ w.1) writes → n + total writes < 2 ^ 32 → 0 ≤ addr → addr + total writes < 2 ^ 64 →
  streamed (addr + total writes) (n + total writes) (stream addr writes wa).
Proof.
  intros Hs Hw. revert addr n wa Hs. induction Hw as [|[size blk] writes Hsz Hw IH]; intros addr n wa Hs Hn Ha Hb; [by rewrite !Z.add_0_r|].
  change (total ((size, blk) :: writes)) with (size + total writes) in *. cbn [stream]. cbn in Hsz.
  pose proof (total_nonneg writes Hw). rewrite !Z.add_assoc. apply IH; try lia. apply updateMode_stream; done || lia.
Qed.

Lemma stream_limits addr writes wa :
  coalesceLimit (stream addr writes wa) = coalesceLimit wa ∧ noAllocateLimit (stream addr writes wa) = noAllocateLimit wa.
Proof.
  revert addr wa. induction writes as [|[size blk] writes IH]; intros addr wa; [done|]. cbn. destruct (IH (addr + size) (updateMode addr size blk wa)) as [-> ->].
  unfold updateMode. destruct (_ =? _); [|done]. cbn. by destruct (bool_decide _).
Qed.

(** Streams of writes are recognised.  After a write that does not continue the last one,
    writes that follow each other without a gap are allocated normally as long as there are
    at most [coalesceLimit] bytes of them, are held back to be coalesced from the first
    byte beyond, and stop being allocated only after more than [noAllocateLimit] bytes. *)
Theorem write_streams_recognised wa addr size blk writes :
  wa_nextAddr wa ≠ addr → 0 ≤ size → size ≤ coalesceLimit wa → Forall (λ w, 0 ≤ w.1) writes →
  size + total writes < 2 ^ 32 → 0 ≤ addr → addr + (size + total writes) < 2 ^ 64 →
  let wa' := stream addr ((size, blk) :: writes) wa in
  wa_coalesce wa' = bool_decide (coalesceLimit wa < size + total writes) ∧
  (wa_allocate wa' = false → noAllocateLimit wa < size + total writes).
Proof.
  intros Hn Hs Hl Hw Ht Ha Hb wa'. pose proof (total_nonneg writes Hw).
  assert (streamed (addr + size) size (updateMode addr size blk wa)) as Hst.
  { unfold updateMode. rewrite (proj2 (Z.eqb_neq _ _)) by done. unfold streamed. cbn. rewrite wrap_id by (unfold in_u; lia).
    split; [done|]. split; [lia|]. split; [done|]. split; [split; [lia|done]|done]. }
  pose proof (stream_streamed (addr + size) size writes _ Hst Hw ltac:(lia) ltac:(lia) ltac:(lia)) as (_ & _ & _ & H4 & H5).
  destruct (stream_limits addr ((size, blk) :: writes) wa) as [E1 E2]. cbn [stream] in E1, E2. rewrite E1 in H4. rewrite E2 in H5.
  subst wa'. cbn [stream]. unfold wa_coalesce, wa_allocate. split.
  - apply bool_decide_ext. split; [intros Hm; apply Z.nle_gt; by intros ?%H4|by intros ?%Z.lt_nge ?%H4].
  - intros Hm. apply bool_decide_eq_false, dec_stable in Hm. by apply H5.
Qed.

Lemma write_streams_recognised_witness :
  let wa' := stream 0x1000 [(64, 0x1000); (64, 0x1040); (8, 0x1080)] (wa_new 2 12 8 64) in
  wa_coalesce wa' = bool_decide (128 < 64 + total [(64, 0x1040); (8, 0x1080)]) ∧
  (wa_allocate wa' = false → 768 < 64 + total [(64, 0x1040); (8, 0x1080)]).
Proof.
  apply (write_streams_recognised (wa_new 2 12 8 64) 0x1000 64 0x1000 [(64, 0x1040); (8, 0x1080)]); try (by vm_compute).
  by repeat constructor.
Defined.

(** ** Examples *)

(** A prefetcher that offers the packets of a list, and counts. *)
Record Script := mkScript { offers : list MemPacket; dropped : Z }.

#[local] Instance script_prefetcher : CachePrefetcher Script := {
  cp_getPacket _ p := Ok (head (offers p), mkScript (tail (offers p)) (dropped p));
  cp_nextPrefetchReadyTime p := match offers p with [] => MaxTick | _ => 0 end;
  cp_pfHitInCache p := mkScript (offers p) (dropped p + 1);
  cp_pfHitInMSHR p := mkScript (offers p) (dropped p + 1);
  cp_pfHitInWB p := mkScript (offers p) (dropped p + 1);
  cp_incrDemandMhsrMisses p := p
}.

Definition script_offer (bs maxId : Z) (pkt : MemPacket) : Prop :=
  mp_cmd pkt = HardPFReq ∧ pkt_ok bs pkt ∧ isUncacheable_req pkt = false ∧ mp_requestorId pkt < maxId ∧ in_u 64 (mp_addr pkt).

#[local] Instance script_laws bs maxId : PrefetcherLaws Script bs maxId.
Proof.
  refine {| pl_ok p := Forall (script_offer bs maxId) (offers p) |}.
  - intros tick [l d] Hp. eexists _, _. split; [done|]. cbn in *. destruct Hp as [|x l Hx Hl]; [by split|]. split; [done|]. by intros pkt [= <-].
  - by intros p Hp.
Defined.

Definition ex_cache_cfg : CacheCfg := mkCacheCfg 64 4 0 500 false true 8.

(** A packet for any address. *)
Definition pkt_at (c : Command) (addr size : Z) (id : nat) : MemPacket := mkMemPkt c addr false size 0 0 false 0 None id.

(** Two misses, one for a block that has a register already, an eviction, and time for a
    prefetch. *)
Definition cache_history : list (Z * CacheOp) :=
  [(1, CMiss (pkt_at ReadReq 0x1000 8 1) 2); (2, CMiss (pkt_at WriteReq 0x1008 8 2) 3); (2, CEvict (pkt_at WritebackDirty 0x2000 64 3) 4);
   (4, CSend false); (5, CSend false); (6, CSend false); (9, CResp 0 9 0 ReadExResp false true)].

Definition prefetch_offer : Script := mkScript [pkt_at HardPFReq 0x3000 64 9] 0.

Lemma prefetch_offer_ok x : Some prefetch_offer = Some x → @pl_ok Script script_prefetcher 64 8 (script_laws 64 8) x.
Proof.
  intros [= <-]. cbn. apply Forall_cons. split; [|constructor]. split; [done|].
  split; [split; [done|by apply (bool_decide_unpack _)|done|done|by vm_compute; split]|]. by vm_compute.
Qed.

Lemma ext_tags_found key : in_u 64 (k_address key) →
  ∃ o, findBlock (TaggedSetAssociative ext_ix) ext_t key = Ok o ∧ ∀ i, o = Some i → is_ok (cell_at (t_store ext_t) i).
Proof.
  intros Hk. rewrite (findBlock_eq (TaggedSetAssociative ext_ix) ext_cfg (set_rows ext_ix) good_key 4 ext_t key ext_t_wf Hk). eexists. split; [done|].
  intros i [_ Hi]%first_hold_Some. unfold holds, entries in Hi. rewrite list_lookup_fmap in Hi. unfold cell_at, deref.
  destruct (s_cells (t_store ext_t) !! i); [by eexists|done].
Qed.

Lemma ex_cache_fits : @cache_fits unit LRUReplData Script script_prefetcher (TaggedSetAssociative ext_ix) ex_cache_cfg (script_laws 64 8)
  4 2 (Some prefetch_offer) ext_t.
Proof. split; [lia|lia|lia|apply prefetch_offer_ok|apply ext_tags_found]. Qed.

Lemma ex_miss c addr id : bool_decide (c ∈ [ReadReq; WriteReq]) = true → pkt_getOffset 64 (pkt_at c addr 8 id) = addr mod 64 → addr mod 64 ≤ 56 →
  miss_ok ex_cache_cfg (pkt_at c addr 8 id).
Proof.
  intros Hc Ho Ha. apply bool_decide_eq_true in Hc. rewrite !elem_of_cons, elem_of_nil in Hc. destruct Hc as [->|[->|[]]];
    (split; [split; [done|by apply (bool_decide_unpack _)|done|done|split; [done|]; cbn [blkSize ex_cache_cfg]; rewrite Ho; cbn; lia]|];
     split; [by apply (bool_decide_unpack _)|done]).
Qed.

Lemma cache_history_ok : Forall (λ op, cache_op_ok ex_cache_cfg op.2) cache_history.
Proof.
  repeat apply Forall_cons_2; [by apply ex_miss|by apply ex_miss|done..|]. apply Forall_nil_2.
Qed.

Abbreviation ex_cache_run := (cache_run (TaggedSetAssociative ext_ix) ex_cache_cfg cache_history
  (cache_new (G := unit) (R := LRUReplData) 4 2 None (Some prefetch_offer) ext_t)).


(** What happens: the second request joins the first register, the write goes out after it,
    then the prefetch. *)
Example ex_cache_result : ∃ c, ex_cache_run = Ok c ∧ q_allocatedList (mshrQueue c) = [1]%nat ∧ q_allocatedList (writeBuffer c) = [] ∧
  isBlocked c = false ∧ (m_blkAddr <$> q_entries (mshrQueue c) !! 1%nat) = Some 0x3000 ∧ offers <$> prefetcher c = Some [].
Proof. eexists. split; [by vm_compute|]. by vm_compute. Qed.

Lemma next_entry_sound_witness : ∃ c o c', ex_cache_run = Ok c ∧
  getNextQueueEntry (TaggedSetAssociative ext_ix) ex_cache_cfg 10 c = Ok (o, c') ∧
  if bool_decide (is_Some (getNext 10 (mshrQueue c)) ∨ is_Some (getNext 10 (writeBuffer c)))
  then next_ok 10 o c ∧ c' = c
  else match o with
       | None => True
       | Some (NextMiss i) => i ∈ q_readyList (mshrQueue c') ∧ (i ∉ q_allocatedList (mshrQueue c)) ∧ isBlocked c = false ∧
           canPrefetch (demandReserve ex_cache_cfg) (mshrQueue c) = true ∧
           ∃ p p' pkt, prefetcher c = Some p ∧ cp_getPacket 10 p = Ok (Some pkt, p') ∧ nowhere (TaggedSetAssociative ext_ix) ex_cache_cfg pkt c
       | Some (NextWrite _) => False
       end.
Proof.
  apply (next_entry_sound (G := unit) (R := LRUReplData) (TaggedSetAssociative ext_ix) ex_cache_cfg (PL := script_laws 64 8) ltac:(by vm_compute) ltac:(by vm_compute));
    [exact ex_cache_fits|exact cache_history_ok].
Defined.

(** A miss that is not ready, and a younger write of its block that is. *)
Definition conflict_history : list (Z * CacheOp) :=
  [(1, CMiss (pkt_at WriteReq 0x1000 8 1) 10); (2, CEvict (pkt_at WritebackDirty 0x1000 64 2) 3)].

Lemma conflict_history_ok : Forall (λ op, cache_op_ok ex_cache_cfg op.2) conflict_history.
Proof. repeat apply Forall_cons_2; [by apply ex_miss|done|]. apply Forall_nil_2. Qed.

Abbreviation ex_conflict_run := (cache_run (TaggedSetAssociative ext_ix) ex_cache_cfg conflict_history
  (cache_new (G := unit) (R := LRUReplData) 4 2 None (Some prefetch_offer) ext_t)).
Definition ex_conflict : CacheQ unit LRUReplData Script := the_result ex_conflict_run eq_refl.

Lemma ex_bs : 0 ≤ blkSize ex_cache_cfg.
Proof. by vm_compute. Qed.
Lemma ex_dr : 0 ≤ demandReserve ex_cache_cfg < 2 ^ 30.
Proof. by vm_compute. Qed.
Lemma ex_conflict_runs : ex_conflict_run = Ok ex_conflict.
Proof. by vm_compute. Qed.

Definition ex_miss_entry : MSHR := default mshr_new (q_entries (mshrQueue ex_conflict) !! 0%nat).
Definition ex_write_entry : WriteQueueEntry := default wq_entry_new (q_entries (writeBuffer ex_conflict) !! 0%nat).

Lemma ex_conflict_entries : getNextQueueEntry (TaggedSetAssociative ext_ix) ex_cache_cfg 4 ex_conflict = Ok (Some (NextMiss 0), ex_conflict) ∧
  q_entries (mshrQueue ex_conflict) !! 0%nat = Some ex_miss_entry ∧ q_entries (writeBuffer ex_conflict) !! 0%nat = Some ex_write_entry ∧
  q_readyList (mshrQueue ex_conflict) = [0%nat] ∧ q_readyList (writeBuffer ex_conflict) = [0%nat] ∧
  wq_blkAddr ex_write_entry = m_blkAddr ex_miss_entry ∧ wq_isSecure ex_write_entry = m_isSecure ex_miss_entry.
Proof. by vm_compute. Qed.


(** ** A delayed register and a write of its block

    Two contiguous writes make the allocator coalesce; the register of their block is held
    back when it is about to be sent.  Then a write-clean of the block arrives, and two more
    contiguous writes. *)
Definition held_cache : CacheQ unit LRUReplData Script :=
  cache_new 4 2 (Some (wa_new 0 12 8 64)) None ext_t.
Definition held_history : list (Z * CacheOp) :=
  [(1, CMiss (pkt_at WriteReq 0x1000 8 1) 2); (1, CMiss (pkt_at WriteReq 0x1008 8 2) 2)].
Definition held_again : list (Z * CacheOp) :=
  [(5, CMiss (pkt_at WriteReq 0x1010 8 4) 6); (5, CMiss (pkt_at WriteReq 0x1018 8 5) 6)].

