(* ===== verification/Tables.v ===== *)
(** * Tables as objects

    How the prefetchers use [src/src/base/cache/associative_cache.hh].  A [Tbl] is a table
    together with the store and the indexing policy it was built over, for tables that do
    not share theirs; the operations are those of [AssocCache].  Entries that extend a
    base entry by members of their own are [With] the base: the members are reset when
    the entry is invalidated and kept when it is inserted.

    The lemmas are the interface the prefetchers' proofs use: a well-formed table answers
    every lookup, and the idiom "find the entry or allocate it" always ends with the key
    found. *)

From Stdlib Require Import ZArith Lia.
From stdpp Require Import base numbers option list strings.
From S2P Require Import Prelude PrefetchBase Replacement Indexing AssocCache.
#[local] Open Scope Z_scope.

(** ** Entries with members *)

(** What [invalidate] does to the members a class adds. *)
Class Reset (P : Type) := reset_members : P → P.

Record With (B P : Type) := mkWith { w_base : B; w_data : P }.
Arguments mkWith {B P} _ _.
Arguments w_base {B P} _.
Arguments w_data {B P} _.

#[export] Instance with_entry {K B P : Type} `{TableEntry K B} `{Reset P} : TableEntry K (With B P) :=
  {| e_match ext key e := e_match ext key (w_base e);
     e_insert ext key e := b ← e_insert ext key (w_base e); Ok (mkWith b (w_data e));
     e_invalidate e := mkWith (e_invalidate (K := K) (w_base e)) (reset_members (w_data e)) |}.

#[export] Instance with_laws {K B P T : Type} `{TEL : TableEntryLaws K B T} `{Reset P} :
  TableEntryLaws K (With B P) T.
Proof.
  refine {| e_key := λ ext key, e_key (E := B) ext key; e_tag := λ e, e_tag (K := K) (w_base e);
            e_fresh := λ e, e_fresh (K := K) (w_base e) |}.
  - intros ext key e. apply (law_match ext key (w_base e)).
  - intros ext key e Hf. destruct (law_insert ext key (w_base e) Hf) as (b & Eb & Hb).
    exists (mkWith b (w_data e)). split; [|done]. simpl. by rewrite Eb.
  - intros e. apply (law_e_invalidate (w_base e)).
  - intros e. apply (law_fresh (w_base e)).
Defined.

(** ** Operations *)

Record Tbl (K E G R : Type) := mkTbl {
  tb_ip : IndexingPolicy K;
  tb_range : Assoc;
  tb_store : Store G E R
}.
Arguments mkTbl {K E G R} _ _ _.
Arguments tb_ip {K E G R} _.
Arguments tb_range {K E G R} _.
Arguments tb_store {K E G R} _.

Section Tbl.
Context {K E G R : Type} `{TableEntry K E} `{ReplPolicy G R}.
Implicit Types T : Tbl K E G R.

Definition with_store T (s : Store G E R) : Tbl K E G R := mkTbl (tb_ip T) (tb_range T) s.

(** A table over fresh policies: [sets] is the indexing policy's empty array of sets and
    [g] the replacement policy's initial state. *)
Definition t_new (ip : IndexingPolicy K) (num_entries associativity : Z) (init_val : E)
    (sets : list (list ref)) (g : G) : outcome (Tbl K E G R) :=
  '(a, s) ← assoc_new ip num_entries associativity init_val (mkStore sets [] g);
  Ok (mkTbl ip a s).

Definition t_findEntry T (key : K) : outcome (option nat) := findEntry (tb_ip T) (tb_store T) key.

Definition t_accessEntry (curTick : Z) T (i : nat) : outcome (Tbl K E G R) :=
  s ← accessEntry curTick (tb_store T) i; Ok (with_store T s).

Definition t_findVictim T (key : K) : outcome (nat * Tbl K E G R) :=
  '(i, s) ← findVictim (tb_ip T) (tb_store T) key; Ok (i, with_store T s).

Definition t_insertEntry (curTick : Z) T (key : K) (i : nat) : outcome (Tbl K E G R) :=
  s ← insertEntry (tb_ip T) curTick (tb_store T) key i; Ok (with_store T s).

Definition t_invalidate T (i : nat) : outcome (Tbl K E G R) :=
  s ← invalidate (K := K) (tb_store T) i; Ok (with_store T s).

(** Reading and writing an entry through its pointer. *)
Definition t_get T (i : nat) : outcome E := c ← cell_at (tb_store T) i; Ok (c_entry c).
Definition t_put T (i : nat) (e : E) : Tbl K E G R := with_store T (put_entry (tb_store T) i e).

(** The entries a range-based [for] over the table visits. *)
Definition t_indices T : list nat := seq (ac_first (tb_range T)) (ac_num (tb_range T)).

(** The idiom
    [e = table.findEntry(key); if (e) table.accessEntry(e);
     else { e = table.findVictim(key); table.insertEntry(key, e); }]. *)
Definition t_find_or_insert (curTick : Z) T (key : K) : outcome (nat * Tbl K E G R) :=
  o ← t_findEntry T key;
  match o with
  | Some i => T ← t_accessEntry curTick T i; Ok (i, T)
  | None => '(i, T) ← t_findVictim T key; T ← t_insertEntry curTick T key i; Ok (i, T)
  end.
End Tbl.

(** ** Facts *)

Create HintDb tables.

Section TblFacts.
Context {K E G R Tg : Type} `{TEL : TableEntryLaws K E Tg} `{RL : ReplLaws G R}.
Implicit Types T : Tbl K E G R.

Definition t_entries T : list E := entries (tb_store T).

(** Every key has candidates, and the cells are the table's own entries. *)
Record t_ok T : Prop := {
  tok_cand : ∀ key, ∃ rs, cand (tb_ip T) (tb_store T) key rs;
  tok_range : t_indices T = seq 0 (length (t_entries T))
}.

(** The table found the key at entry [i], which is [e]. *)
Definition t_found T (key : K) (i : nat) (e : E) : Prop :=
  t_findEntry T key = Ok (Some i) ∧ t_entries T !! i = Some e.

Abbreviation ext T := (ip_extractTag (tb_ip T)).

(** Changing one entry keeps the table well formed. *)
Lemma t_ok_update T s :
  s_sets s = s_sets (tb_store T) → length (entries s) = length (t_entries T) → t_ok T →
  t_ok (with_store T s).
Proof.
  intros Hs Hl [Hc Hr]. split.
  - intros key. destruct (Hc key) as [rs Hrs]. exists rs. eapply cand_mono; [done| |done].
    by rewrite <-!entries_length.
  - unfold t_entries. simpl. by rewrite Hl.
Qed.

(** *** Operations change one entry *)

(** The entries a key may be in. *)
Definition t_cands T (key : K) : list nat := omap id (possible (tb_ip T) (tb_store T) key).

(** [T'] is [T] with entry [i] changed. *)
Record t_upd (i : nat) T T' : Prop := {
  upd_ip : tb_ip T' = tb_ip T;
  upd_range : tb_range T' = tb_range T;
  upd_sets : s_sets (tb_store T') = s_sets (tb_store T);
  upd_length : length (t_entries T') = length (t_entries T);
  upd_else : ∀ j, j ≠ i → t_entries T' !! j = t_entries T !! j
}.

Lemma t_upd_trans i T1 T2 T3 : t_upd i T1 T2 → t_upd i T2 T3 → t_upd i T1 T3.
Proof.
  intros [A1 A2 A3 A4 A5] [B1 B2 B3 B4 B5]. split; try congruence.
  intros j Hj. by rewrite B5, A5.
Qed.

Lemma t_upd_insert T s i e :
  s_sets s = s_sets (tb_store T) → entries s = <[i := e]> (t_entries T) → t_upd i T (with_store T s).
Proof.
  intros Hs He. split; try done; unfold t_entries; simpl; rewrite He.
  - apply length_insert.
  - intros j Hj. by rewrite list_lookup_insert_ne.
Qed.

Lemma cands_eq T key rs : cand (tb_ip T) (tb_store T) key rs → t_cands T key = rs.
Proof.
  intros Hc. unfold t_cands. rewrite (cand_eq _ _ _ _ Hc). clear Hc.
  induction rs as [|i rs IH]; [done|]. cbn. f_equal. exact IH.
Qed.

Lemma t_cands_cand T key : t_ok T → cand (tb_ip T) (tb_store T) key (t_cands T key).
Proof. intros Hok. destruct (tok_cand _ Hok key) as [rs Hrs]. by rewrite (cands_eq _ _ _ Hrs). Qed.

Lemma t_upd_cands i T T' key : t_upd i T T' → t_cands T' key = t_cands T key.
Proof. intros [E1 _ E3 _ _]. unfold t_cands, possible. by rewrite E1, E3. Qed.

Lemma t_upd_ok i T T' : t_upd i T T' → t_ok T → t_ok T'.
Proof.
  intros [E1 E2 E3 E4 _] [Hc Hr]. destruct T as [ip a s], T' as [ip' a' s']. simpl in *. subst ip' a'.
  by apply (t_ok_update (mkTbl ip a s)).
Qed.

Lemma t_upd_find i T T' key :
  t_ok T → t_upd i T T' → i ∉ t_cands T key → t_findEntry T' key = t_findEntry T key.
Proof.
  intros Hok Hu Hi. pose proof (t_cands_cand _ key Hok) as Hc.
  pose proof (t_cands_cand _ key (t_upd_ok _ _ _ Hu Hok)) as Hc'. rewrite (t_upd_cands _ _ _ _ Hu) in Hc'.
  unfold t_findEntry. rewrite (findEntry_eq _ _ _ _ Hc), (findEntry_eq _ _ _ _ Hc'), (upd_ip _ _ _ Hu).
  f_equal. apply first_hold_ext. intros j Hj. unfold holds. unfold t_entries in *.
  by rewrite (upd_else _ _ _ Hu) by congruence.
Qed.

Lemma t_find_cands T key i : t_ok T → t_findEntry T key = Ok (Some i) → i ∈ t_cands T key.
Proof.
  intros Hok. unfold t_findEntry. rewrite (findEntry_eq _ _ _ _ (t_cands_cand _ key Hok)).
  intros [= Hf]. by apply first_hold_Some in Hf as [? _].
Qed.

Lemma t_put_upd T i e : t_upd i T (t_put T i e).
Proof. by apply (t_upd_insert _ _ _ e); [|apply put_entry_spec]. Qed.

Lemma t_get_ok T i e : t_entries T !! i = Some e → t_get T i = Ok e.
Proof.
  intros (c & Hc & <-)%entries_cell. unfold t_get, cell_at, deref. by rewrite Hc.
Qed.

Lemma t_put_entries T i e : t_entries (t_put T i e) = <[i := e]> (t_entries T).
Proof. apply put_entry_spec. Qed.

Lemma t_put_ok T i e : t_ok T → t_ok (t_put T i e).
Proof. intros. apply t_ok_update; [done| |done]. by rewrite put_entry_spec, length_insert. Qed.

Lemma t_find_total T key :
  t_ok T → t_findEntry T key = Ok None ∨
  ∃ i e, t_found T key i e ∧ e_match (ext T) key e = true.
Proof.
  intros [Hc _]. destruct (Hc key) as [rs Hrs]. unfold t_findEntry.
  rewrite (findEntry_eq _ _ _ rs Hrs).
  destruct (first_hold _ _ _ rs) as [i|] eqn:Ei; [right|by left].
  pose proof (first_hold_Some _ _ _ _ _ Ei) as [Hi Hh]. unfold holds in Hh.
  destruct (entries (tb_store T) !! i) as [e|] eqn:Ee; [|done].
  exists i, e. split; [|done]. split; [|done]. unfold t_findEntry.
  by rewrite (findEntry_eq _ _ _ rs Hrs), Ei.
Qed.

(** Replacing an entry by one with the same tag changes no lookup. *)
Lemma t_put_find T key i e e' :
  t_ok T → t_entries T !! i = Some e → e_tag (K := K) e' = e_tag (K := K) e →
  t_findEntry (t_put T i e') key = t_findEntry T key.
Proof.
  intros Hok He Ht. destruct (tok_cand _ Hok key) as [rs Hrs].
  destruct (tok_cand _ (t_put_ok T i e' Hok) key) as [rs' Hrs'].
  assert (rs' = rs) as ->.
  { apply (inj (fmap (M := list) (@Some nat))).
    rewrite <-(cand_eq _ _ _ _ Hrs), <-(cand_eq _ _ _ _ Hrs'). done. }
  unfold t_findEntry. simpl in *. rewrite (findEntry_eq _ _ _ rs Hrs), (findEntry_eq _ _ _ rs Hrs').
  f_equal. rewrite put_entry_spec. apply first_hold_ext. intros j _.
  rewrite holds_insert by by eapply lookup_lt_Some.
  destruct (decide (i = j)) as [<-|]; [|done]. unfold holds, t_entries in *. rewrite He.
  apply eq_true_iff_eq. by rewrite !law_match, Ht.
Qed.

Lemma t_access_any t T i e :
  t_ok T → t_entries T !! i = Some e →
  ∃ T', t_accessEntry t T i = Ok T' ∧ t_upd i T T' ∧ t_entries T' = t_entries T ∧
    ∀ key', t_findEntry T' key' = t_findEntry T key'.
Proof using RL.
  intros Hok He. unfold t_accessEntry.
  destruct (accessEntry_spec t (tb_store T) i e He) as (s & -> & Hs). run_ok.
  exists (with_store T s). split_and!; [done| |apply Hs|].
  - apply (t_upd_insert _ _ _ e); [apply Hs|]. rewrite (same_entries _ _ Hs). symmetry.
    by apply list_insert_id.
  - intros key'. unfold t_findEntry. simpl. apply findEntry_same; [done|apply Hok].
Qed.

Lemma t_access_spec t T key i e :
  t_ok T → t_found T key i e →
  ∃ T', t_accessEntry t T i = Ok T' ∧ t_upd i T T' ∧ t_entries T' = t_entries T ∧
    ∀ key', t_findEntry T' key' = t_findEntry T key'.
Proof using RL. intros Hok [_ He]. by apply (t_access_any t T i e). Qed.

(** Allocation: the victim is invalidated, then inserted for the key.  If the key was not
    there before, the table then finds it. *)
Lemma t_alloc_any t T key :
  t_ok T →
  ∃ v T1 e0, t_findVictim T key = Ok (v, T1) ∧ v ∈ t_cands T key ∧ t_entries T !! v = Some e0 ∧
    t_upd v T T1 ∧ t_entries T1 = <[v := e_invalidate (K := K) e0]> (t_entries T) ∧
    ∀ e1, e_fresh (K := K) e1 →
      ∃ T2 e2, t_insertEntry t (t_put T1 v e1) key v = Ok T2 ∧ e_insert (ext T) key e1 = Ok e2 ∧
        t_upd v T T2 ∧ (t_findEntry T key = Ok None → t_found T2 key v e2) ∧ t_entries T2 = <[v := e2]> (t_entries T).
Proof using RL.
  intros Hok. destruct (tok_cand _ Hok key) as [rs Hrs]. unfold t_findVictim.
  destruct (findVictim_spec _ _ _ _ Hrs) as (v & s1 & e0 & -> & Hv & He0 & Hs1 & He1). run_ok.
  assert (v < length (entries (tb_store T)))%nat as Hlt by by eapply lookup_lt_Some.
  exists v, (with_store T s1), e0. rewrite (cands_eq _ _ _ Hrs).
  split_and!; [done..|by eapply t_upd_insert|done|].
  intros e1 Hf. destruct (law_insert (ext T) key e1 Hf) as (e2 & E2 & Ht2).
  set (s1' := put_entry s1 v e1).
  assert (entries s1' = <[v := e1]> (t_entries T)) as Ep
    by (unfold s1', t_entries; by rewrite put_entry_spec, He1, list_insert_insert_eq).
  unfold t_insertEntry. simpl. fold s1'.
  destruct (insertEntry_spec (tb_ip T) t s1' key v e1 e2) as (s2 & -> & Hs2 & He2);
    [by rewrite Ep; apply list_lookup_insert_eq|done|].
  rewrite Ep, list_insert_insert_eq in He2. simpl in Hs2. rewrite Hs1 in Hs2. run_ok.
  exists (with_store T s2), e2. split_and!; [done|done|by eapply t_upd_insert| |done].
  intros Hmiss. split; [|unfold t_entries; simpl; by rewrite He2; apply list_lookup_insert_eq].
  unfold t_findEntry in *. simpl. rewrite (findEntry_eq _ _ _ rs Hrs) in Hmiss.
  injection Hmiss as Hmiss. rewrite (findEntry_eq _ s2 _ rs).
  2: { eapply cand_mono; [done| |done]. by rewrite <-!entries_length, He2, length_insert. }
  f_equal. rewrite He2. apply first_hold_put; [done..|]. by apply law_match.
Qed.

Lemma t_alloc_spec t T key :
  t_ok T → t_findEntry T key = Ok None →
  ∃ v T1 e0, t_findVictim T key = Ok (v, T1) ∧ v ∈ t_cands T key ∧ t_entries T !! v = Some e0 ∧
    t_upd v T T1 ∧ t_entries T1 = <[v := e_invalidate (K := K) e0]> (t_entries T) ∧
    ∀ e1, e_fresh (K := K) e1 →
      ∃ T2 e2, t_insertEntry t (t_put T1 v e1) key v = Ok T2 ∧ e_insert (ext T) key e1 = Ok e2 ∧
        t_upd v T T2 ∧ t_found T2 key v e2 ∧ t_entries T2 = <[v := e2]> (t_entries T).
Proof using RL.
  intros Hok Hmiss. destruct (t_alloc_any t T key Hok) as (v & T1 & e0 & Ev & Hv & He0 & Hu & He1 & Hins).
  exists v, T1, e0. split_and!; [done..|]. intros e1 Hf.
  destruct (Hins e1 Hf) as (T2 & e2 & E2 & Ei & Hu2 & Hf2 & He2). exists T2, e2. split_and!; auto.
Qed.

Lemma t_put_id T i e : t_entries T !! i = Some e → t_put T i e = T.
Proof.
  intros (c & Hc & <-)%entries_cell. destruct T as [ip a [sets cells g]].
  unfold t_put, with_store, put_entry. simpl in *. do 2 f_equal. apply list_eq. intros j.
  destruct (decide (i = j)) as [<-|]; [|by rewrite list_lookup_alter_ne].
  rewrite list_lookup_alter_eq, Hc. by destruct c.
Qed.

(** The same when nothing is written to the victim before it is inserted. *)
Lemma t_alloc_plain t T key :
  t_ok T → t_findEntry T key = Ok None →
  ∃ v T1 T2 e0 e2, t_findVictim T key = Ok (v, T1) ∧ t_insertEntry t T1 key v = Ok T2 ∧
    v ∈ t_cands T key ∧ t_entries T !! v = Some e0 ∧
    e_insert (ext T) key (e_invalidate (K := K) e0) = Ok e2 ∧
    t_upd v T T2 ∧ t_found T2 key v e2 ∧ t_entries T2 = <[v := e2]> (t_entries T).
Proof using RL TEL.
  intros Hok Hm.
  destruct (t_alloc_spec t T key Hok Hm) as (v & T1 & e0 & Ev & Hv & He0 & _ & He1 & Hins).
  destruct (Hins _ (law_e_invalidate e0)) as (T2 & e2 & E2 & Ei & H2).
  rewrite t_put_id in E2.
  2: { rewrite He1. apply list_lookup_insert_eq. by eapply lookup_lt_Some. }
  exists v, T1, T2, e0, e2. tauto.
Qed.

Lemma t_invalidate_spec T i e :
  t_entries T !! i = Some e →
  ∃ T', t_invalidate T i = Ok T' ∧ t_upd i T T' ∧ t_entries T' = <[i := e_invalidate (K := K) e]> (t_entries T).
Proof using RL.
  intros He. unfold t_invalidate. destruct (invalidate_spec (tb_store T) i e He) as (s & -> & Hs & Es). run_ok.
  exists (with_store T s). split; [done|]. split; [by eapply t_upd_insert|done].
Qed.

Lemma t_upd_indices i T T' : t_upd i T T' → t_indices T' = t_indices T.
Proof. intros [_ Hr _ _ _]. unfold t_indices. by rewrite Hr. Qed.

(** Writing members of a found entry. *)
Lemma t_put_found T key i e e' :
  t_ok T → t_found T key i e → e_tag (K := K) e' = e_tag (K := K) e → t_found (t_put T i e') key i e'.
Proof using TEL.
  intros Hok [Hf He] Ht. split; [by rewrite (t_put_find T key i e e')|].
  rewrite t_put_entries. apply list_lookup_insert_eq. by eapply lookup_lt_Some.
Qed.

Lemma t_find_or_insert_spec t T key :
  t_ok T →
  ∃ i T' e, t_find_or_insert t T key = Ok (i, T') ∧ t_upd i T T' ∧ i ∈ t_cands T key ∧
    t_found T' key i e ∧
    (t_found T key i e ∧ t_entries T' = t_entries T ∨
     t_findEntry T key = Ok None ∧
     ∃ e0, t_entries T !! i = Some e0 ∧
       e_insert (ext T) key (e_invalidate (K := K) e0) = Ok e ∧
       t_entries T' = <[i := e]> (t_entries T)).
Proof using RL TEL.
  intros Hok. unfold t_find_or_insert.
  destruct (t_find_total T key Hok) as [Hm|(i & e & Hf & _)].
  - rewrite Hm. run_ok.
    destruct (t_alloc_plain t T key Hok Hm)
      as (v & T1 & T2 & e0 & e2 & -> & E2 & Hv & He0 & Ei & Hu & Hf2 & He2). run_ok.
    rewrite E2. run_ok. exists v, T2, e2. split_and!; [done..|]. right. eauto 6.
  - rewrite (proj1 Hf). run_ok.
    destruct (t_access_spec t T key i e Hok Hf) as (T' & -> & Hu & He & Hfind). run_ok.
    exists i, T', e. split_and!; [done|done|by eapply t_find_cands; [|apply Hf]| |by left]. split; [by rewrite Hfind; apply Hf|].
    rewrite He. apply Hf.
Qed.
End TblFacts.

#[export] Hint Resolve t_put_ok : tables.

(** A property of the members that survives their reset holds for every entry, however the
    table is used. *)
Section Members.
Context {K B P G R Tg : Type} `{TEL : TableEntryLaws K B Tg} `{Reset P} `{RL : ReplLaws G R}.
Implicit Types T : Tbl K (With B P) G R.

Definition t_all (Q : P → Prop) T : Prop := Forall (λ e, Q (w_data e)) (t_entries T).

Context (Q : P → Prop) (HQ : ∀ p, Q p → Q (reset_members p)).

Lemma t_all_at T i e : t_all Q T → t_entries T !! i = Some e → Q (w_data e).
Proof. intros Ha He. apply (Forall_lookup_1 _ _ _ _ Ha He). Qed.

Lemma t_all_put T i e : t_all Q T → Q (w_data e) → t_all Q (t_put T i e).
Proof. intros Ha He. unfold t_all. rewrite t_put_entries. by apply Forall_insert. Qed.

Lemma with_insert_data ext key (e e' : With B P) :
  e_insert ext key e = Ok e' → w_data e' = w_data e.
Proof. simpl. intros (b & _ & [= <-])%outcome_bind_ok. done. Qed.

(** [find_or_insert] as the clients use it: the members of the entry are those it had, or
    those of some entry after a reset. *)
Lemma t_entry_spec t T key :
  t_ok T → t_all Q T →
  ∃ i T' e, t_find_or_insert t T key = Ok (i, T') ∧ t_ok T' ∧ t_upd i T T' ∧ i ∈ t_cands T key ∧
    t_all Q T' ∧ t_found T' key i e ∧ Q (w_data e).
Proof using HQ RL TEL.
  intros Hok Ha. destruct (t_find_or_insert_spec t T key Hok)
    as (i & T' & e & E & Hu & Hi & Hf & [[Hold Hes]|(_ & e0 & He0 & Hins & Hes)]);
    pose proof (t_upd_ok _ _ _ Hu Hok) as Hok'.
  - assert (Q (w_data e)) by (eapply t_all_at; [done|apply Hold]).
    exists i, T', e. split_and!; try done. unfold t_all. by rewrite Hes.
  - assert (Q (w_data e)) as HQe.
    { rewrite (with_insert_data _ _ _ _ Hins). apply HQ. by eapply t_all_at. }
    exists i, T', e. split_and!; try done. unfold t_all. rewrite Hes. by apply Forall_insert.
Qed.

(** What the table holds for a key. *)
Definition t_view T (key : K) : option P :=
  match t_findEntry T key with
  | Ok (Some i) => w_data <$> t_entries T !! i
  | _ => None
  end.

Lemma t_view_found T key i e : t_found T key i e → t_view T key = Some (w_data e).
Proof. intros [Hf He]. unfold t_view. by rewrite Hf, He. Qed.

(** Changing an entry that is not a candidate of a key does not change its view. *)
Lemma t_view_frame i T T' key :
  t_ok T → t_upd i T T' → i ∉ t_cands T key → t_view T' key = t_view T key.
Proof.
  intros Hok Hu Hi. unfold t_view. rewrite (t_upd_find i T T' key) by done.
  destruct (t_findEntry T key) as [[j|]|] eqn:Ef; [|done..].
  rewrite (upd_else _ _ _ Hu); [done|]. intros ->. by destruct Hi; apply t_find_cands.
Qed.

Lemma t_found_frame i T T' key j e :
  t_ok T → t_upd i T T' → i ∉ t_cands T key → t_found T key j e → t_found T' key j e.
Proof.
  intros Hok Hu Hi [Hf He]. split; [by rewrite (t_upd_find i T T' key)|].
  rewrite (upd_else _ _ _ Hu); [done|]. intros ->. by destruct Hi; apply t_find_cands.
Qed.
End Members.

(** ** Construction *)

Section New.
Context {K E G R : Type} `{TableEntry K E} `{RL : ReplLaws G R} (ip : IndexingPolicy K).
Context (n : Z) (Hix : ix_wf (ip_base ip) n) (Has : ix_assoc (ip_base ip) < 2 ^ 32).
Context (f : K → Z) (Hrow : ∀ sets key, ip_possible ip sets key = sets_at sets (f key)).
Context (Hf : ∀ key, 0 ≤ f key < ix_numSets (ip_base ip)).
Let ix := ip_base ip.

(** A table with as many entries as its policy has places is well formed. *)
Lemma t_new_spec (init_val : E) (sets : list (list ref)) (g : G) :
  (∀ g, is_ok (rp_instantiate (R := R) g)) → sets_wf ix sets →
  ∃ T : Tbl K E G R, t_new ip (ix_numSets ix * ix_assoc ix) (ix_assoc ix) init_val sets g = Ok T ∧
    t_ok T ∧ tb_ip T = ip ∧
    t_entries T = replicate (Z.to_nat (ix_numSets ix) * Z.to_nat (ix_assoc ix)) init_val ∧
    ∀ key, t_cands T key = seq (Z.to_nat (f key) * Z.to_nat (ix_assoc ix)) (Z.to_nat (ix_assoc ix)).
Proof using Hix Has Hrow Hf RL.
  intros Hinst Hs. unfold t_new.
  destruct (assoc_new_spec ip n Hix Has f Hrow init_val (mkStore sets [] g) Hinst Hs)
    as (a & s & E1 & _ & He & Hc). pose proof E1 as E2. unfold assoc_new in E2.
  apply outcome_bind_ok in E2 as (u & _ & E2). apply outcome_bind_ok in E2 as (s' & _ & [= <- ->]).
  fold ix in E1. rewrite E1. run_ok. eexists. split; [done|]. split_and!; [split|done|done|].
  - intros key. eexists. by apply Hc.
  - unfold t_indices, t_entries. simpl. rewrite He. change (entries (mkStore sets [] g)) with (@nil E).
    rewrite app_nil_l, length_replicate. pose proof (ixw_assoc _ _ Hix). f_equal. unfold ix. nia.
  - intros key. apply cands_eq. by apply Hc.
Qed.
End New.

(** A policy that selects one set. *)
Class SetPolicy {K : Type} (mk : Indexing → IndexingPolicy K) := {
  sp_set : Indexing → K → Z;
  sp_base ix : ip_base (mk ix) = ix;
  sp_row ix sets key : ip_possible (mk ix) sets key = sets_at sets (sp_set ix key);
  sp_range ix n key : ix_wf ix n → 0 ≤ sp_set ix key < ix_numSets ix
}.

#[export] Instance setassoc_policy : SetPolicy SetAssociative.
Proof. by refine {| sp_set := extractSet; sp_range ix n key := extractSet_bounded ix n key |}. Defined.

#[export] Instance tagged_policy : SetPolicy TaggedSetAssociative.
Proof.
  by refine {| sp_set := tagged_extractSet; sp_range ix n key := extractSet_bounded ix n (k_address key) |}.
Defined.

(** A table and its policy built from the same parameters. *)
Lemma t_new_fills {K E G R : Type} `{TableEntry K E} `{RL : ReplLaws G R} `{SP : SetPolicy K mk}
    assoc num sh ix sets (init_val : E) (g : G) :
  (∀ g, is_ok (rp_instantiate (R := R) g)) →
  0 ≤ sh → 0 < assoc < 2 ^ 32 → 0 ≤ num < 2 ^ 32 → num mod assoc = 0 → indexing_new assoc num sh = Ok (ix, sets) →
  ∃ T : Tbl K E G R, t_new (mk ix) num assoc init_val sets g = Ok T ∧ t_ok T ∧ tb_ip T = mk ix ∧
    t_entries T = replicate (Z.to_nat num) init_val ∧
    ∀ key, t_cands T key = seq (Z.to_nat (sp_set ix key) * Z.to_nat assoc) (Z.to_nat assoc).
Proof.
  intros Hinst Hsh Ha Hnum Hm Eix.
  destruct (indexing_new_full _ _ _ _ _ Hsh Ha Hnum Hm Eix) as (k & Hix & Hw & Eas & Ens).
  assert (ip_base (mk ix) = ix) as Eb by apply sp_base.
  destruct (t_new_spec (mk ix) k ltac:(by rewrite Eb) ltac:(rewrite Eb; lia) (sp_set ix) (sp_row ix)
    ltac:(intros; rewrite Eb; by eapply sp_range) init_val sets g Hinst ltac:(by rewrite Eb))
    as (T & ET & Hok & Hip & He & Hc).
  rewrite !Eb in *. exists T. rewrite Eas in *. rewrite Ens in ET. split_and!; try done.
  rewrite He. f_equal. lia.
Qed.
