(* ===== verification/Stride.v ===== *)
(** * The stride prefetcher

    [src/src/mem/cache/prefetch/stride.{hh,cc}]: one of the children the
    machine-learning controller chooses among.  Its tables, one per requestor, map
    a program counter to the last address, the stride and a confidence.  All of them
    are built over the one indexing policy and the one replacement policy that
    [pcTableInfo] names, so they are tables over one store ([AssocCache]). *)

From Stdlib Require Import ZArith QArith Lia.
From stdpp Require Import base numbers option list strings gmap.
From S2P Require Import Prelude Double IntMath SatCounter PrefetchBase PrefetchQueue Children.
From S2P Require Import Replacement Indexing AssocCache.
#[local] Open Scope Z_scope.

(** ** The hashed indexing policy *)

Definition hashed_extractSet (ix : Indexing) (key : TaggedKey) : Z :=
  let pc := k_address key in
  let hash1 := Z.shiftr pc 1 in
  let hash2 := Z.shiftr hash1 (ix_tagShift ix) in
  u32 (Z.land (Z.lxor hash1 hash2) (ix_setMask ix)).

Definition hashed_extractTag (addr : Z) : Z := addr.

Definition HashedSetAssociative (ix : Indexing) : IndexingPolicy TaggedKey :=
  mkPolicy ix (λ sets key, sets_at sets (hashed_extractSet ix key)) hashed_extractTag.

(** ** Entries *)

Record StrideEntry := mkStrideEntry {
  se_te : TaggedEntry;
  lastAddr : Z;
  stride : Z;
  confidence : SatCounter
}.

Definition se_invalidate (e : StrideEntry) : StrideEntry :=
  mkStrideEntry (te_invalidate (se_te e)) 0 0 (sat_reset (confidence e)).

(** The constructor ends with an invalidation. *)
Definition se_new (init_confidence : SatCounter) : StrideEntry :=
  se_invalidate (mkStrideEntry te_new 0 0 init_confidence).

Definition se_insert (ext : Z → Z) (key : TaggedKey) (e : StrideEntry) : outcome StrideEntry :=
  te ← te_insert ext key (se_te e);
  Ok (mkStrideEntry te (lastAddr e) (stride e) (confidence e)).

#[export] Instance stride_entry_ops : TableEntry TaggedKey StrideEntry := {|
  e_match ext key e := te_match ext key (se_te e);
  e_insert := se_insert;
  e_invalidate := se_invalidate
|}.

(** ** The prefetcher *)

Record StrideCfg := mkStrideCfg {
  st_base : BaseCfg;
  initConfidence : SatCounter;
  threshConf : double;
  useRequestorId : bool;
  degree : Z;
  distance : Z;
  pcTable_assoc : Z;
  pcTable_numEntries : Z;
  pcTable_indexing : Indexing;
  useCachelineAddr : bool
}.

Record Stride (G R : Type) := mkStride {
  st_cfg : StrideCfg;
  pcTables : gmap Z Assoc;
  st_store : Store G StrideEntry R
}.
Arguments mkStride {G R} _ _ _.
Arguments st_cfg {G R} _.
Arguments pcTables {G R} _.
Arguments st_store {G R} _.

Section Stride.
Context {G R : Type} `{ReplPolicy G R}.

(** The constructor, given the policies it was configured with. *)
Definition stride_new (base : BaseCfg) (confidence_counter_bits initial_confidence
    confidence_threshold : Z) (use_requestor_id : bool) (deg dist table_assoc table_entries : Z)
    (ix : Indexing) (sets : list (list ref)) (use_cache_line_address : bool) (g : G)
    : outcome (Stride G R) :=
  c ← sat_new 8 confidence_counter_bits initial_confidence;
  Ok (mkStride
        (mkStrideCfg base c (ddiv (d_of_Z confidence_threshold) (d_of_Z 100)) use_requestor_id
           deg dist table_assoc table_entries ix use_cache_line_address)
        ∅ (mkStore sets [] g)).

Definition st_ip (cfg : StrideCfg) : IndexingPolicy TaggedKey :=
  HashedSetAssociative (pcTable_indexing cfg).

Definition allocateNewContext (st : Stride G R) (context : Z) : outcome (Stride G R) :=
  let cfg := st_cfg st in
  '(a, s) ← assoc_new (st_ip cfg) (pcTable_numEntries cfg) (pcTable_assoc cfg)
              (se_new (initConfidence cfg)) (st_store st);
  Ok (mkStride cfg (<[context := a]> (pcTables st)) s).

Definition findTable (st : Stride G R) (context : Z) : outcome (Stride G R) :=
  match pcTables st !! context with
  | Some _ => Ok st
  | None => allocateNewContext st context
  end.

(** The stride is rounded to at least a block; [-blkSize] is the unsigned negation
    converted to [int]. *)
Definition prefetch_stride (cfg : StrideCfg) (s : Z) : Z :=
  let blk := blkSize (st_base cfg) in
  if u32 (Z.abs s) <? blk then (if s <? 0 then i32 (u32 (- blk)) else i32 blk) else s.

(** [for (d = 1; d <= degree; d++)]. *)
Fixpoint stride_candidates (k : nat) (new_addr s : Z) : list AddrPriority :=
  match k with
  | O => []
  | S k => let new_addr := u64 (new_addr + s) in (new_addr, 0) :: stride_candidates k new_addr s
  end.

(** The entry after a hit with a new address. *)
Definition train_entry (cfg : StrideCfg) (pf_addr new_stride : Z) (e : StrideEntry) : StrideEntry :=
  let stride_match := new_stride =? stride e in
  let conf := if stride_match then sat_inc (confidence e) else sat_dec (confidence e) in
  let s := if negb stride_match && dltb (calcSaturation conf) (threshConf cfg)
           then new_stride else stride e in
  mkStrideEntry (se_te e) pf_addr s conf.

Definition stride_calculatePrefetch (curTick : Z) (pfi : PrefetchInfo) (st : Stride G R)
    : outcome (Stride G R * list AddrPriority) :=
  if negb (pfi_validPC pfi) then Ok (st, []) else
  let cfg := st_cfg st in
  let pf_addr := if useCachelineAddr cfg then blockAddress (st_base cfg) (pfi_address pfi)
                 else pfi_address pfi in
  pc ← getPC pfi;
  let requestor_id := if useRequestorId cfg then pfi_requestorId pfi else 0 in
  st ← findTable st requestor_id;
  let key := mkKey pc (pfi_secure pfi) in
  o ← findEntry (st_ip cfg) (st_store st) key;
  match o with
  | Some i =>
      s ← accessEntry curTick (st_store st) i;
      c ← cell_at s i;
      let e := c_entry c in
      let new_stride := i32 (u64 (pf_addr - lastAddr e)) in
      if useCachelineAddr cfg && (new_stride =? 0)
      then Ok (mkStride cfg (pcTables st) s, [])
      else
        let e := train_entry cfg pf_addr new_stride e in
        let st := mkStride cfg (pcTables st) (put_entry s i e) in
        if dltb (calcSaturation (confidence e)) (threshConf cfg) then Ok (st, [])
        else
          let ps := prefetch_stride cfg (stride e) in
          let new_addr := u64 (pf_addr + i32 (distance cfg * ps)) in
          Ok (st, stride_candidates (Z.to_nat (degree cfg)) new_addr ps)
  | None =>
      '(i, s) ← findVictim (st_ip cfg) (st_store st) key;
      c ← cell_at s i;
      let e := c_entry c in
      let s := put_entry s i (mkStrideEntry (se_te e) pf_addr (stride e) (confidence e)) in
      s ← insertEntry (st_ip cfg) curTick s key i;
      Ok (mkStride cfg (pcTables st) s, [])
  end.

#[export] Instance stride_prefetcher : CalculatePrefetch (Stride G R) :=
  λ curTick pfi _ st, stride_calculatePrefetch curTick pfi st.
End Stride.

(** ** Facts *)

#[export] Instance stride_entry_laws : TableEntryLaws TaggedKey StrideEntry (Z * bool).
Proof.
  refine {| e_key := λ ext k, (ext (k_address k), k_secure k); e_tag := λ e, te_tagof (se_te e);
            e_fresh := λ e, te_valid (se_te e) = false ∧ te_secure (se_te e) = false |}.
  - intros ext key e. apply te_match_spec.
  - intros ext key e Hf. destruct (law_insert (TableEntryLaws := tagged_entry_laws) ext key (se_te e) Hf) as (te & Ete & Htag).
    simpl. unfold se_insert. change (te_insert ext key (se_te e)) with (e_insert ext key (se_te e)).
    rewrite Ete. run_ok. by eexists.
  - done.
  - intros e Hf. apply (law_fresh (TableEntryLaws := tagged_entry_laws) (se_te e) Hf).
Defined.

(** *** The percentile of an 8-bit counter grows with the counter *)

Definition conf_ok (c : SatCounter) : Prop :=
  sat_wf 8 c ∧ ∃ b, 1 ≤ b ≤ 8 ∧ maxVal c = 2 ^ b - 1.

Lemma saturation_table :
  forallb (λ b, forallb (λ c,
    dleb (ddiv (d_of_Z c) (d_of_Z (2 ^ b - 1))) (ddiv (d_of_Z (c + 1)) (d_of_Z (2 ^ b - 1))))
    (seqZ 0 (2 ^ b - 1))) (seqZ 1 8) = true.
Proof. by vm_compute. Qed.

Lemma saturation_step b m c :
  1 ≤ b ≤ 8 → m = 2 ^ b - 1 → 0 ≤ c < m →
  dleb (ddiv (d_of_Z c) (d_of_Z m)) (ddiv (d_of_Z (c + 1)) (d_of_Z m)) = true.
Proof.
  intros Hb -> Hc. pose proof saturation_table as Ht.
  rewrite forallb_forall in Ht. specialize (Ht b). rewrite forallb_forall in Ht.
  apply Ht; rewrite <-list_elem_of_In; apply elem_of_seqZ; lia.
Qed.

Lemma calcSaturation_mono c c' :
  conf_ok c → conf_ok c' → maxVal c' = maxVal c → counter c ≤ counter c' →
  (dval (calcSaturation c) <= dval (calcSaturation c'))%Q.
Proof.
  intros Hc Hc' Hm Hle. destruct Hc as [Hw (b & Hb & Hmb)]. destruct Hc' as [Hw' _].
  unfold sat_wf in Hw, Hw'. unfold calcSaturation. rewrite Hm in *.
  set (m := maxVal c) in *. assert (0 < m) by (pose proof (Z.pow_le_mono_r 2 1 b); lia).
  assert (∀ k : nat, counter c + Z.of_nat k ≤ m →
    dok (ddiv (d_of_Z (counter c + Z.of_nat k)) (d_of_Z m)) = true ∧
    (dval (ddiv (d_of_Z (counter c)) (d_of_Z m))
     <= dval (ddiv (d_of_Z (counter c + Z.of_nat k)) (d_of_Z m)))%Q) as Hk.
  { assert (∀ x, 0 ≤ x ≤ m → dok (ddiv (d_of_Z x) (d_of_Z m)) = true) as Hok.
    { intros x Hx. apply (calcSaturation_range 8 (mkSat 0 m x)); [lia| |done].
      unfold sat_wf. simpl. lia. }
    induction k as [|k IH]; intros Hkm.
    - rewrite Z.add_0_r. split; [apply Hok; lia|]. apply Qle_refl.
    - split; [apply Hok; lia|]. destruct IH as [IH1 IH2]; [lia|]. eapply Qle_trans; [done|].
      replace (counter c + Z.of_nat (S k)) with (counter c + Z.of_nat k + 1) by lia.
      apply dleb_spec; [done|apply Hok; lia|]. apply (saturation_step b); [done|done|lia]. }
  destruct (Hk (Z.to_nat (counter c' - counter c))) as [_ Hq]; [lia|].
  replace (counter c + Z.of_nat (Z.to_nat (counter c' - counter c))) with (counter c') in Hq by lia.
  done.
Qed.

Lemma confident_mono c c' thr :
  conf_ok c → conf_ok c' → maxVal c' = maxVal c → counter c ≤ counter c' → dok thr = true →
  dltb (calcSaturation c) thr = false → dltb (calcSaturation c') thr = false.
Proof.
  intros Hc Hc' Hm Hle Ht Hf. pose proof (calcSaturation_mono c c' Hc Hc' Hm Hle) as Hq.
  assert (∀ x, conf_ok x → dok (calcSaturation x) = true) as Hok.
  { intros x [Hw (b & Hb & Hmb)]. apply (calcSaturation_range 8); [lia|done|].
    pose proof (Z.pow_le_mono_r 2 1 b). lia. }
  destruct (dltb (calcSaturation c') thr) eqn:E; [|done].
  apply dltb_spec in E; [|auto..]. rewrite <-not_true_iff_false in Hf. destruct Hf.
  apply dltb_spec; [auto..|]. eapply Qle_lt_trans; eauto.
Qed.

Lemma hashed_range ix n key :
  ix_wf ix n → 0 ≤ hashed_extractSet ix key < ix_numSets ix.
Proof.
  intros Hix. unfold hashed_extractSet. rewrite (land_mask ix n), (ixw_sets _ _ Hix) by done.
  pose proof (ixw_bits _ _ Hix). pose proof (Z.pow_lt_mono_r 2 n 32).
  set (x := Z.lxor _ _). pose proof (Z.mod_pos_bound x (2 ^ n)). pose proof (Z.pow_pos_nonneg 2 n).
  rewrite wrap_id; unfold in_u; lia.
Qed.

(** *** The invariant *)

(** A counter with the limits of the configured one. *)
Definition conf_like (init c : SatCounter) : Prop :=
  sat_wf 8 c ∧ maxVal c = maxVal init ∧ initialVal c = initialVal init.

Lemma conf_like_inc init c : conf_like init c → conf_like init (sat_inc c).
Proof.
  intros (Hw & Hm & Hi). split; [by apply sat_inc_wf|]. unfold sat_inc. by destruct (_ <? _).
Qed.

Lemma conf_like_dec init c : conf_like init c → conf_like init (sat_dec c).
Proof.
  intros (Hw & Hm & Hi). split; [by apply sat_dec_wf|]. unfold sat_dec. by destruct (_ <? _).
Qed.

Lemma conf_like_reset init c : conf_like init c → conf_like init (sat_reset c).
Proof. intros (Hw & Hm & Hi). split; [by apply sat_reset_wf|]. done. Qed.

Section StrideFacts.
Context {G R : Type} `{RL : ReplLaws G R}.
Implicit Types st : Stride G R.

Record cfg_ok (cfg : StrideCfg) : Prop := {
  sc_ix : ∃ n, ix_wf (pcTable_indexing cfg) n;
  sc_as : ix_assoc (pcTable_indexing cfg) < 2 ^ 32;
  sc_assoc : pcTable_assoc cfg = ix_assoc (pcTable_indexing cfg);
  sc_num : pcTable_numEntries cfg
           = ix_numSets (pcTable_indexing cfg) * ix_assoc (pcTable_indexing cfg);
  sc_conf : sat_wf 8 (initConfidence cfg)
}.

Record stride_wf st : Prop := {
  sw_cfg : cfg_ok (st_cfg st);
  sw_sets : sets_wf (pcTable_indexing (st_cfg st)) (s_sets (st_store st));
  sw_cand : pcTables st ≠ ∅ → ∀ key, ∃ rs, cand (st_ip (st_cfg st)) (st_store st) key rs;
  sw_like : Forall (λ e, conf_like (initConfidence (st_cfg st)) (confidence e)) (entries (st_store st))
}.

(** The operations of a table change one entry at a time. *)
Lemma stride_wf_update st s i e :
  stride_wf st → s_sets s = s_sets (st_store st) →
  entries s = <[i := e]> (entries (st_store st)) →
  conf_like (initConfidence (st_cfg st)) (confidence e) →
  stride_wf (mkStride (st_cfg st) (pcTables st) s).
Proof.
  intros [Hc Hs Hcand Hl] Es Ee He. split; simpl; [done|by rewrite Es| |].
  - intros Hne key. destruct (Hcand Hne key) as [rs Hrs]. exists rs.
    eapply cand_mono; [done| |done]. by rewrite <-!entries_length, Ee, length_insert.
  - rewrite Ee. by apply Forall_insert.
Qed.

Lemma se_new_miss init ext key : e_match ext key (se_new init) = false.
Proof. done. Qed.

(** A requestor that has no table gets one, and whatever the prefetcher had
    learned is out of reach, for every requestor. *)
Lemma allocate_spec st c :
  (∀ g, is_ok (rp_instantiate (R := R) g)) → stride_wf st →
  ∃ st', allocateNewContext st c = Ok st' ∧ stride_wf st' ∧ st_cfg st' = st_cfg st ∧
    is_Some (pcTables st' !! c) ∧
    ∀ key, findEntry (st_ip (st_cfg st)) (st_store st') key = Ok None.
Proof using RL.
  intros Hinst Hwf. pose proof (sw_cfg _ Hwf) as Hc. destruct (sc_ix _ Hc) as [n Hix].
  set (ip := st_ip (st_cfg st)). set (ix := pcTable_indexing (st_cfg st)) in *.
  destruct (assoc_new_spec ip n Hix (sc_as _ Hc) (hashed_extractSet ix)
    (λ _ _, eq_refl) (se_new (initConfidence (st_cfg st))) (st_store st) Hinst (sw_sets _ Hwf))
    as (a & s' & E1 & Hs' & He & Hcd).
  unfold allocateNewContext. rewrite (sc_num _ Hc), (sc_assoc _ Hc). fold ip ix.
  change (ip_base ip) with ix in *. rewrite E1. run_ok.
  assert (∀ key, cand ip s' key (seq (length (s_cells (st_store st)) +
    Z.to_nat (hashed_extractSet ix key) * Z.to_nat (ix_assoc ix)) (Z.to_nat (ix_assoc ix)))) as Hcand.
  { intros key. apply Hcd. by eapply hashed_range. }
  eexists. split; [done|]. split_and!; [|done| |].
  - split; [done|done|by eauto|]. simpl. rewrite He. apply Forall_app. split; [apply Hwf|].
    apply Forall_replicate. apply conf_like_reset. split; [apply Hc|done].
  - simpl. by rewrite lookup_insert_eq.
  - intros key. simpl. rewrite (findEntry_eq ip s' key _ (Hcand key)). f_equal.
    apply first_hold_None. intros i Hi%elem_of_seq. unfold holds. rewrite He.
    rewrite lookup_app_r by (rewrite entries_length; lia).
    rewrite lookup_replicate_2; [done|]. rewrite entries_length.
    pose proof (hashed_range ix n key Hix). nia.
Qed.

Lemma findTable_spec st c :
  (∀ g, is_ok (rp_instantiate (R := R) g)) → stride_wf st →
  ∃ st', findTable st c = Ok st' ∧ stride_wf st' ∧ st_cfg st' = st_cfg st ∧
    is_Some (pcTables st' !! c) ∧ (is_Some (pcTables st !! c) → st' = st).
Proof using RL.
  intros Hinst Hwf. unfold findTable. destruct (pcTables st !! c) as [a|] eqn:Ec.
  - exists st. rewrite Ec. split_and!; eauto.
  - destruct (allocate_spec st c Hinst Hwf) as (st' & -> & Hwf' & Hcfg & Hc & _).
    exists st'. split_and!; [done..|by intros [? [=]]].
Qed.

(** *** One access *)

Definition pf_addr (cfg : StrideCfg) (pfi : PrefetchInfo) : Z :=
  if useCachelineAddr cfg then blockAddress (st_base cfg) (pfi_address pfi) else pfi_address pfi.
Definition context (cfg : StrideCfg) (pfi : PrefetchInfo) : Z :=
  if useRequestorId cfg then pfi_requestorId pfi else 0.
Definition pc_key (pfi : PrefetchInfo) : TaggedKey := mkKey (pfi_pc pfi) (pfi_secure pfi).

(** The requestor has a table in which the program counter has entry [e]. *)
Definition tracked st (pfi : PrefetchInfo) (i : nat) (e : StrideEntry) : Prop :=
  is_Some (pcTables st !! context (st_cfg st) pfi) ∧
  findEntry (st_ip (st_cfg st)) (st_store st) (pc_key pfi) = Ok (Some i) ∧
  entries (st_store st) !! i = Some e.

Definition emitted (cfg : StrideCfg) (addr : Z) (e : StrideEntry) : list AddrPriority :=
  if dltb (calcSaturation (confidence e)) (threshConf cfg) then []
  else let ps := prefetch_stride cfg (stride e) in
       stride_candidates (Z.to_nat (degree cfg)) (u64 (addr + i32 (distance cfg * ps))) ps.

Lemma tables_ne st c : is_Some (pcTables st !! c) → pcTables st ≠ ∅.
Proof. intros [a Ha] E. rewrite E, lookup_empty in Ha. done. Qed.

Lemma stride_hit t pfi st i e :
  stride_wf st → pfi_validPC pfi = true → tracked st pfi i e →
  let cfg := st_cfg st in
  let new_stride := i32 (u64 (pf_addr cfg pfi - lastAddr e)) in
  (useCachelineAddr cfg = true → new_stride ≠ 0) →
  let e' := train_entry cfg (pf_addr cfg pfi) new_stride e in
  ∃ st', stride_calculatePrefetch t pfi st = Ok (st', emitted cfg (pf_addr cfg pfi) e') ∧
    stride_wf st' ∧ st_cfg st' = cfg ∧ tracked st' pfi i e'.
Proof using RL.
  intros Hwf Hpc (Htab & Hfind & He) cfg new_stride Hns e'.
  unfold stride_calculatePrefetch, getPC. rewrite Hpc. cbn [negb assert_that mbind outcome_bind].
  fold cfg (pf_addr cfg pfi) (context cfg pfi) (pc_key pfi).
  unfold findTable. destruct Htab as [a Ha]. fold cfg in Ha, Hfind. rewrite Ha.
  run_ok. rewrite Hfind. run_ok.
  destruct (accessEntry_spec t (st_store st) i e He) as (s & -> & Hsame). run_ok.
  pose proof (same_entries _ _ Hsame) as Ees.
  destruct (entries_cell s i e) as (c & Hc & Ec); [by rewrite Ees|].
  unfold cell_at, deref. rewrite Hc. run_ok. rewrite Ec.
  fold new_stride.
  assert (useCachelineAddr cfg && (new_stride =? 0) = false) as ->.
  { destruct (useCachelineAddr cfg); [|done]. simpl. apply Z.eqb_neq. by apply Hns. }
  fold e'. set (s' := put_entry s i e').
  assert (entries s' = <[i := e']> (entries (st_store st))) as Es' by (by unfold s'; rewrite put_entry_spec, Ees).
  exists (mkStride cfg (pcTables st) s'). unfold emitted. split_and!.
  - by destruct (dltb _ _).
  - apply (stride_wf_update st s' i e'); [done|by apply Hsame|done|].
    pose proof (Forall_lookup_1 _ _ _ _ (sw_like _ Hwf) He) as Hl. simpl in Hl.
    unfold e', train_entry. simpl. destruct (_ =? _); [by apply conf_like_inc|by apply conf_like_dec].
  - done.
  - split_and!; simpl; [by exists a| |].
    + destruct (sw_cand _ Hwf (tables_ne _ _ (ex_intro _ a Ha)) (pc_key pfi)) as [rs Hrs].
      rewrite (findEntry_eq _ (st_store st) _ rs Hrs) in Hfind. injection Hfind as Hfind.
      rewrite (findEntry_eq _ s' _ rs).
      2: { eapply cand_mono; [apply Hsame| |done]. by rewrite <-!entries_length, Es', length_insert. }
      f_equal. rewrite <-Hfind. rewrite Es'. apply first_hold_ext. intros j _.
      rewrite holds_insert by by eapply lookup_lt_Some.
      destruct (decide (i = j)) as [<-|]; [|done]. unfold holds. by rewrite He.
    + rewrite Es'. apply list_lookup_insert_eq. by eapply lookup_lt_Some.
Qed.

(** The first access of a program counter, or the first after its entry was
    replaced. *)
Definition untracked st (pfi : PrefetchInfo) : Prop :=
  pcTables st !! context (st_cfg st) pfi = None ∨
  findEntry (st_ip (st_cfg st)) (st_store st) (pc_key pfi) = Ok None.

Lemma untracked_table st pfi :
  (∀ g, is_ok (rp_instantiate (R := R) g)) → stride_wf st → untracked st pfi →
  ∃ st', findTable st (context (st_cfg st) pfi) = Ok st' ∧ stride_wf st' ∧ st_cfg st' = st_cfg st ∧
    is_Some (pcTables st' !! context (st_cfg st) pfi) ∧
    findEntry (st_ip (st_cfg st)) (st_store st') (pc_key pfi) = Ok None.
Proof using RL.
  intros Hinst Hwf Hu. unfold findTable.
  destruct (pcTables st !! context (st_cfg st) pfi) as [a|] eqn:Ea.
  - destruct Hu as [|Hu]; [congruence|]. exists st. rewrite Ea. split_and!; eauto.
  - destruct (allocate_spec st (context (st_cfg st) pfi) Hinst Hwf) as (st' & -> & Hwf' & Hcfg & Hc & Hf).
    exists st'. split_and!; auto.
Qed.

Lemma stride_miss t pfi st :
  (∀ g, is_ok (rp_instantiate (R := R) g)) → stride_wf st → pfi_validPC pfi = true →
  untracked st pfi →
  ∃ st' i e, stride_calculatePrefetch t pfi st = Ok (st', []) ∧ stride_wf st' ∧
    st_cfg st' = st_cfg st ∧ tracked st' pfi i e ∧ lastAddr e = pf_addr (st_cfg st) pfi ∧
    stride e = 0 ∧ confidence e = sat_reset (initConfidence (st_cfg st)).
Proof using RL.
  intros Hinst Hwf0 Hpc Hu. set (cfg := st_cfg st).
  destruct (untracked_table st pfi Hinst Hwf0 Hu) as (st1 & E1 & Hwf & Hcfg & Htab & Hf).
  unfold stride_calculatePrefetch, getPC. rewrite Hpc. cbn [negb assert_that mbind outcome_bind].
  fold cfg (pf_addr cfg pfi) (context cfg pfi) (pc_key pfi). fold cfg in E1, Hf, Htab.
  rewrite E1. run_ok. rewrite Hf. run_ok.
  fold cfg in Hcfg. destruct (sw_cand _ Hwf (tables_ne _ _ Htab) (pc_key pfi)) as [rs Hrs].
  rewrite Hcfg in Hrs.
  destruct (findVictim_spec _ _ _ _ Hrs) as (v & s & e & -> & Hv & He & Hs & Hes).
  run_ok.
  assert (v < length (entries (st_store st1)))%nat as Hlt by by eapply lookup_lt_Some.
  set (e0 := se_invalidate e) in *. change (e_invalidate e) with e0 in Hes.
  assert (entries s !! v = Some e0) as He0 by (rewrite Hes; by apply list_lookup_insert_eq).
  destruct (entries_cell s v e0 He0) as (c & Hc & Ec).
  unfold cell_at at 1, deref at 1. rewrite Hc. run_ok. rewrite Ec.
  set (e1 := mkStrideEntry (se_te e0) (pf_addr cfg pfi) (stride e0) (confidence e0)).
  destruct (law_insert (ip_extractTag (st_ip cfg)) (pc_key pfi) e1) as (e2 & E2 & Htag);
    [by split|].
  assert (entries (put_entry s v e1) = <[v := e1]> (entries (st_store st1))) as Ep
    by (by rewrite put_entry_spec, Hes, list_insert_insert_eq).
  destruct (insertEntry_spec (st_ip cfg) t (put_entry s v e1) (pc_key pfi) v e1 e2)
    as (s2 & -> & Hs2 & He2); [by rewrite Ep; apply list_lookup_insert_eq|done|].
  rewrite Ep, list_insert_insert_eq in He2. simpl in Hs2. rewrite Hs in Hs2.
  run_ok. exists (mkStride cfg (pcTables st1) s2), v, e2.
  assert (lastAddr e2 = lastAddr e1 ∧ stride e2 = stride e1 ∧ confidence e2 = confidence e1) as (F1 & F2 & F3).
  { simpl in E2. unfold se_insert in E2. apply outcome_bind_ok in E2 as (te & _ & [= <-]). done. }
  pose proof (Forall_lookup_1 _ _ _ _ (sw_like _ Hwf) He) as Hl. rewrite Hcfg in Hl.
  simpl in Hl. assert (confidence e2 = sat_reset (initConfidence cfg)) as Hconf.
  { rewrite F3. unfold e1, e0, se_invalidate, sat_reset, with_counter. simpl.
    destruct Hl as (_ & Hm & Hi). by rewrite Hm, Hi. }
  split_and!; try done.
  - rewrite <-Hcfg. apply (stride_wf_update st1 s2 v e2); [done|done|done|].
    rewrite Hcfg, Hconf. apply conf_like_reset. split; [|done]. apply (sc_conf cfg), Hwf0.
  - split_and!; simpl; [done| |by rewrite He2; apply list_lookup_insert_eq].
    rewrite (findEntry_eq _ (st_store st1) _ rs Hrs) in Hf. injection Hf as Hf.
    rewrite (findEntry_eq _ s2 _ rs).
    2: { eapply cand_mono; [done| |done]. by rewrite <-!entries_length, He2, length_insert. }
    f_equal. rewrite He2. apply first_hold_put; [done..|]. by apply law_match.
Qed.

(** A repeated access to the same block only touches the entry. *)
Lemma stride_repeat t pfi st i e :
  stride_wf st → pfi_validPC pfi = true → tracked st pfi i e →
  useCachelineAddr (st_cfg st) = true →
  i32 (u64 (pf_addr (st_cfg st) pfi - lastAddr e)) = 0 →
  ∃ st', stride_calculatePrefetch t pfi st = Ok (st', []) ∧ stride_wf st' ∧ st_cfg st' = st_cfg st.
Proof using RL.
  intros Hwf Hpc ([a Ha] & Hfind & He) Hu Hz.
  unfold stride_calculatePrefetch, getPC. rewrite Hpc. cbn [negb assert_that mbind outcome_bind].
  fold (pf_addr (st_cfg st) pfi) (context (st_cfg st) pfi) (pc_key pfi).
  unfold findTable. rewrite Ha. run_ok. rewrite Hfind. run_ok.
  destruct (accessEntry_spec t (st_store st) i e He) as (s & -> & Hs & Hes). run_ok.
  destruct (entries_cell s i e) as (c & Hc & Ec); [by rewrite Hes|].
  unfold cell_at, deref. rewrite Hc. run_ok. rewrite Ec, Hu, Hz.
  cbn [andb Z.eqb]. eexists. split; [done|]. split; [|done].
  apply (stride_wf_update st s i e); [done|done|by rewrite list_insert_id|].
  apply (Forall_lookup_1 _ _ _ _ (sw_like _ Hwf) He).
Qed.
End StrideFacts.

(** *** Streams *)

Lemma stride_candidates_eq k x s :
  stride_candidates k x s = (λ d, (u64 (x + d * s), 0)) <$> seqZ 1 (Z.of_nat k).
Proof.
  revert x. induction k as [|k IH]; intros x; [done|]. cbn [stride_candidates].
  rewrite (seqZ_cons 1) by lia. replace (Z.pred (Z.of_nat (S k))) with (Z.of_nat k) by lia.
  rewrite fmap_cons, IH. f_equal; [by rewrite Z.mul_1_l|]. rewrite <-(fmap_add_seqZ 1 1), <-list_fmap_compose.
  apply list_fmap_ext. intros i d _. simpl. f_equal. autorewrite with word. f_equal. lia.
Qed.

Section Stream.
Context {G R : Type} `{RL : ReplLaws G R}.
Context (cfg : StrideCfg) (pfi : PrefetchInfo) (a s : Z).
Let blk := blkSize (st_base cfg).

(** The [k]-th access of the stream. *)
Definition access (k : Z) : PrefetchInfo := pfi_with_addr pfi (a + k * s).

(** What the stream needs: a stride of at least a block that fits an [int],
    multiples of the block size when addresses are rounded to blocks, and no
    overflow in the product with [distance]. *)
Record streamable (n : Z) : Prop := {
  str_blk : cfg_wf (st_base cfg);
  str_pc : pfi_validPC pfi = true;
  str_range : ∀ k, 0 ≤ k < n → in_u 64 (a + k * s);
  str_int : in_s 32 s;
  str_big : blk ≤ Z.abs s;
  str_align : useCachelineAddr cfg = true → (blk | a) ∧ (blk | s);
  str_dist : in_s 32 (distance cfg * s);
  str_init : conf_ok (initConfidence cfg) ∧ 0 < initialVal (initConfidence cfg);
  str_thr : dok (threshConf cfg) = true;
  str_high : dltb (calcSaturation (sat_reset (initConfidence cfg))) (threshConf cfg) = false;
  str_low : dltb (calcSaturation (sat_dec (sat_reset (initConfidence cfg)))) (threshConf cfg) = true
}.

Lemma access_addr n k : streamable n → 0 ≤ k < n → pf_addr cfg (access k) = a + k * s.
Proof.
  intros Hs Hk. unfold pf_addr. simpl. destruct (useCachelineAddr cfg) eqn:Eu; [|done].
  destruct (str_align _ Hs Eu) as [Ha Hsd]. pose proof (str_range _ Hs k Hk).
  pose proof (blkSize_pos _ (str_blk _ Hs)).
  rewrite blockAddress_eq; [|by apply (str_blk _ Hs)|done]. fold blk.
  rewrite (proj2 (Z.mod_divide (a + k * s) blk ltac:(lia))); [lia|].
  apply Z.divide_add_r; [done|]. by apply Z.divide_mul_r.
Qed.

Lemma stream_delta n k : streamable n → i32 (u64 (a + (k + 1) * s - (a + k * s))) = s.
Proof.
  intros Hs. replace (a + (k + 1) * s - (a + k * s)) with s by lia.
  apply i32_u64, (str_int _ Hs).
Qed.

Lemma stream_stride n : streamable n → prefetch_stride cfg s = s.
Proof.
  intros Hs. unfold prefetch_stride. fold blk. pose proof (str_big _ Hs).
  pose proof (str_int _ Hs) as Hi. unfold in_s in Hi. simpl in Hi.
  rewrite wrap_id by in_word. by destruct (Z.ltb_spec (Z.abs s) blk); [lia|].
Qed.

Definition stream_out (k : Z) : list AddrPriority :=
  (λ d, (u64 (a + (k + distance cfg + d) * s), 0)) <$> seqZ 1 (degree cfg).

(** Before the [k]-th access the stride is known and the confidence at most one
    below its initial value. *)
Definition steady (st : Stride G R) (k : Z) : Prop :=
  ∃ i e, stride_wf st ∧ st_cfg st = cfg ∧ tracked st pfi i e ∧ lastAddr e = a + (k - 1) * s ∧
    stride e = s ∧ initialVal (initConfidence cfg) - 1 ≤ counter (confidence e).

Lemma emitted_confident n k e :
  streamable n → 0 ≤ k < n → stride e = s → conf_like (initConfidence cfg) (confidence e) →
  initialVal (initConfidence cfg) ≤ counter (confidence e) →
  emitted cfg (a + k * s) e = stream_out k.
Proof.
  intros Hs Hk He Hl Hc. unfold emitted. rewrite He, (stream_stride n) by done.
  destruct (str_init _ Hs) as [[Hw (b & Hb & Hmb)] Hpos].
  rewrite (confident_mono (sat_reset (initConfidence cfg)) (confidence e)).
  - rewrite stride_candidates_eq. unfold stream_out. destruct (Z.leb_spec (degree cfg) 0).
    { rewrite Z2Nat.nonpos, !seqZ_nil by (done || lia). done. }
    rewrite Z2Nat.id by lia. apply list_fmap_ext. intros i d _. f_equal.
    rewrite wrap_add_l, swrap_id by (done || apply (str_dist _ Hs)). f_equal. lia.
  - split; [by apply sat_reset_wf|by exists b].
  - split; [apply Hl|]. exists b. destruct Hl as (_ & -> & _). done.
  - by destruct Hl as (_ & -> & _).
  - done.
  - apply (str_thr _ Hs).
  - apply (str_high _ Hs).
Qed.

Lemma tracked_access (st : Stride G R) k i e : tracked st (access k) i e ↔ tracked st pfi i e.
Proof. done. Qed.

Lemma steady_step t st n k :
  streamable n → 0 ≤ k < n → steady st k →
  ∃ st', stride_calculatePrefetch t (access k) st = Ok (st', stream_out k) ∧ steady st' (k + 1).
Proof using RL.
  intros Hs Hk (i & e & Hwf & Hcfg & Ht & Hlast & Hstr & Hcnt).
  assert (blk ≠ 0 ∧ 0 < blk) as [_ Hb] by (pose proof (blkSize_pos _ (str_blk _ Hs)); unfold blk; lia).
  pose proof (str_big _ Hs) as Hbig.
  assert (i32 (u64 (pf_addr cfg (access k) - lastAddr e)) = s) as Hd.
  { rewrite (access_addr n), Hlast by done. replace k with (k - 1 + 1) at 1 by lia. by eapply stream_delta. }
  destruct (stride_hit t (access k) st i e) as (st' & E & Hwf' & Hcfg' & Ht');
    [done|apply (str_pc _ Hs)|done|rewrite Hcfg, Hd; lia|].
  rewrite Hcfg, Hd in *. rewrite (access_addr n) in * by done.
  set (e' := train_entry cfg (a + k * s) s e) in *.
  pose proof (Forall_lookup_1 _ _ _ _ (sw_like _ Hwf) (proj2 (proj2 Ht))) as Hl. simpl in Hl.
  rewrite Hcfg in Hl.
  assert (e' = mkStrideEntry (se_te e) (a + k * s) s (sat_inc (confidence e))) as Ee'.
  { unfold e', train_entry. by rewrite Hstr, Z.eqb_refl. }
  assert (initialVal (initConfidence cfg) ≤ counter (sat_inc (confidence e))) as Hc'.
  { destruct Hl as (Hw & Hm & Hi). unfold sat_wf in Hw. unfold sat_inc.
    destruct (Z.ltb_spec (counter (confidence e)) (maxVal (confidence e))); simpl; lia. }
  exists st'. split.
  - rewrite E. f_equal. f_equal. apply (emitted_confident n); try done; rewrite Ee'; simpl;
      [done|by apply conf_like_inc|done].
  - exists i, e'. split_and!; try done; rewrite Ee'; simpl; [by replace (k + 1 - 1) with k by lia|done|lia].
Qed.

(** Running a list of accesses, each with its time. *)
Fixpoint run (l : list (Z * PrefetchInfo)) (st : Stride G R)
    : outcome (Stride G R * list (list AddrPriority)) :=
  match l with
  | [] => Ok (st, [])
  | (t, x) :: l =>
      '(st, o) ← stride_calculatePrefetch t x st; '(st, os) ← run l st; Ok (st, o :: os)
  end.

Lemma steady_run n (times : list Z) st k :
  streamable n → 0 ≤ k → k + Z.of_nat (length times) ≤ n → steady st k →
  ∃ st', run (zip times (access <$> seqZ k (Z.of_nat (length times)))) st
         = Ok (st', stream_out <$> seqZ k (Z.of_nat (length times))).
Proof using RL.
  intros Hs. revert st k. induction times as [|t times IH]; intros st k Hk Hn Hst; [by exists st|].
  simpl length in *. rewrite !(seqZ_cons k) by lia.
  replace (Z.pred (Z.of_nat (S (length times)))) with (Z.of_nat (length times)) by lia.
  rewrite !fmap_cons. replace (Z.succ k) with (k + 1) by lia.
  change (run (zip (t :: times) (access k :: ?l)) st) with
    ('(st, o) ← stride_calculatePrefetch t (access k) st;
     '(st, os) ← run (zip times l) st; Ok (st, o :: os)).
  destruct (steady_step t st n k) as (st1 & -> & Hst1); [done|lia|done|].
  run_ok.
  destruct (IH st1 (k + 1)) as (st' & ->); [lia|lia|done|]. by exists st'.
Qed.

Lemma steady_start t0 t1 n st :
  (∀ g, is_ok (rp_instantiate (R := R) g)) → streamable n → 2 ≤ n → stride_wf st → st_cfg st = cfg →
  untracked st pfi →
  ∃ st0 st1, stride_calculatePrefetch t0 (access 0) st = Ok (st0, []) ∧
    stride_calculatePrefetch t1 (access 1) st0 = Ok (st1, []) ∧ steady st1 2.
Proof using RL.
  intros Hinst Hs Hn Hwf Hcfg Hu.
  destruct (stride_miss t0 (access 0) st) as (st0 & i & e & E0 & Hwf0 & Hcfg0 & Ht0 & Hl & Hst & Hc);
    [done|done|apply (str_pc _ Hs)|done|].
  rewrite Hcfg in Hcfg0, Hl, Hc. rewrite (access_addr n) in Hl by (done || lia).
  pose proof (blkSize_pos _ (str_blk _ Hs)). pose proof (str_big _ Hs) as Hbig. fold blk in H0.
  assert (i32 (u64 (pf_addr cfg (access 1) - lastAddr e)) = s) as Hd.
  { rewrite (access_addr n), Hl by (done || lia). by apply (stream_delta n 0). }
  destruct (stride_hit t1 (access 1) st0 i e) as (st1 & E1 & Hwf1 & Hcfg1 & Ht1);
    [done|apply (str_pc _ Hs)|done|rewrite Hcfg0, Hd; lia|].
  rewrite Hcfg0, Hd in *. rewrite (access_addr n) in * by (done || lia).
  assert (train_entry cfg (a + 1 * s) s e
    = mkStrideEntry (se_te e) (a + 1 * s) s (sat_dec (sat_reset (initConfidence cfg)))) as Ee.
  { unfold train_entry. rewrite Hst, Hc. destruct (Z.eqb_spec s 0); [lia|]. simpl.
    by rewrite (str_low _ Hs). }
  rewrite Ee in *. exists st0, st1. split; [done|]. split.
  - rewrite E1. unfold emitted. simpl. by rewrite (str_low _ Hs).
  - eexists i, _. split_and!; try done. simpl. destruct (str_init _ Hs) as [[Hw _] Hp].
    unfold sat_dec, sat_reset. simpl. destruct (Z.ltb_spec 0 (initialVal (initConfidence cfg))); simpl; lia.
Qed.
End Stream.

(** *** The constructor *)

Lemma stride_new_wf {G R : Type} base b i th ur dg ds assoc num sh ix sets ucl (g : G) (st : Stride G R) :
  1 ≤ b ≤ 8 → 0 ≤ i → 0 ≤ sh → 0 < assoc < 2 ^ 32 → 0 ≤ num < 2 ^ 32 → num mod assoc = 0 →
  indexing_new assoc num sh = Ok (ix, sets) →
  stride_new base b i th ur dg ds assoc num ix sets ucl g = Ok st → stride_wf st.
Proof.
  intros Hb Hi Hsh Ha Hn Hm Eix E.
  destruct (indexing_new_full _ _ _ _ _ Hsh Ha Hn Hm Eix) as (k & Hix & Hw & Eas & Ens).
  unfold stride_new in E. apply outcome_bind_ok in E as (c & Ec & [= <-]).
  apply sat_new_wf in Ec as (Hc & _ & _); [|lia..].
  split; simpl.
  - split; simpl; [by exists k|lia|done|by rewrite Eas, Ens|done].
  - done.
  - done.
  - by constructor.
Qed.

(** The default parameters: 3-bit confidence starting at 4, a threshold of 50%,
    degree 4, 64 entries of associativity 4. *)
Definition ex_stride (use_line : bool) : Stride unit LRUReplData :=
  mkStride (mkStrideCfg (mkBaseCfg 64 6 false true true true false 1 4096 false false false)
              (mkSat 4 7 4) (ddiv (d_of_Z 50) (d_of_Z 100)) true 4 0 4 64
              (mkIndexing 4 16 0 15 4) use_line)
    ∅ (mkStore (replicate 16 (replicate 4 None)) [] tt).

Lemma ex_stride_wf l : stride_wf (ex_stride l).
Proof.
  apply (stride_new_wf (mkBaseCfg 64 6 false true true true false 1 4096 false false false)
    3 4 50 true 4 0 4 64 0 (mkIndexing 4 16 0 15 4) (replicate 16 (replicate 4 None)) l tt);
    first [lia|by vm_compute].
Qed.

Definition ex_access : PrefetchInfo := mkPfi 0 0x400 1 true false 8 false 0 true None.

Lemma stride_total {G R : Type} `{RL : ReplLaws G R} (curTick : Z) (pfi : PrefetchInfo)
    (st : Stride G R) :
  (∀ g, is_ok (rp_instantiate (R := R) g)) → stride_wf st →
  ∃ st' l, stride_calculatePrefetch curTick pfi st = Ok (st', l) ∧ stride_wf st' ∧
    st_cfg st' = st_cfg st ∧ (l = [] ∨ length l = Z.to_nat (degree (st_cfg st))).
Proof.
  intros Hinst Hwf. destruct (pfi_validPC pfi) eqn:Epc.
  2: { exists st, []. unfold stride_calculatePrefetch. rewrite Epc. auto. }
  assert (untracked st pfi ∨ ∃ i e, tracked st pfi i e) as [Hu|(i & e & Ht)].
  { unfold untracked, tracked. destruct (pcTables st !! _) as [a|] eqn:Ea; [|auto].
    destruct (sw_cand _ Hwf (tables_ne _ _ (ex_intro _ a Ea)) (pc_key pfi)) as [rs Hrs].
    rewrite (findEntry_eq _ _ _ _ Hrs). destruct (first_hold _ _ _ rs) as [i|] eqn:Ei; [right|auto].
    apply first_hold_Some in Ei as [_ Hh]. unfold holds in Hh.
    destruct (entries (st_store st) !! i) as [e|] eqn:Ee; [|done]. exists i, e. eauto. }
  - destruct (stride_miss curTick pfi st Hinst Hwf Epc Hu) as (st' & _ & _ & E & Hwf' & Hc & _).
    exists st', []. auto.
  - destruct (decide (useCachelineAddr (st_cfg st) = true ∧
      i32 (u64 (pf_addr (st_cfg st) pfi - lastAddr e)) = 0)) as [[Hu Hz]|Hn].
    + destruct (stride_repeat curTick pfi st i e Hwf Epc Ht Hu Hz) as (st' & E & Hwf' & Hc).
      exists st', []. auto.
    + destruct (stride_hit curTick pfi st i e Hwf Epc Ht) as (st' & E & Hwf' & Hc & _); [tauto|].
      eexists st', _. split; [exact E|]. split_and!; [done..|]. unfold emitted.
      destruct (dltb _ _); [auto|]. right. by rewrite stride_candidates_eq, length_fmap, length_seqZ, Nat2Z.id.
Qed.

#[export] Instance stride_child {G R : Type} `{RL : ReplLaws G R} : SafePrefetcher (Stride G R).
Proof.
  refine {| pf_inv := λ st, stride_wf st ∧ ∀ g, is_ok (rp_instantiate (R := R) g) |}.
  intros t pfi cache st _ [Hst Hi]. destruct (stride_total t pfi st Hi Hst) as (st' & l & E & Hst' & _). by exists st', l.
Defined.

(** ** Theorems *)

(** Every access leaves the stride prefetcher well formed and never stops the
    simulation, whatever lawful replacement policy its tables use; it proposes
    no prefetch or exactly [degree] of them. *)
Theorem stride_safe {G R : Type} `{RL : ReplLaws G R} (curTick : Z) (pfi : PrefetchInfo)
    (st : Stride G R) :
  (∀ g, is_ok (rp_instantiate (R := R) g)) → stride_wf st →
  ∃ st' l, stride_calculatePrefetch curTick pfi st = Ok (st', l) ∧ stride_wf st' ∧
    st_cfg st' = st_cfg st ∧ (l = [] ∨ length l = Z.to_nat (degree (st_cfg st))).
Proof. apply stride_total. Qed.

(** C30: The stride prefetcher learns a stream.  From the third access on, a
    program counter that walks memory with a constant stride of at least a
    block gets exactly the [degree] addresses that lie [distance] strides beyond the
    next one, for as long as the stream lasts; the first two accesses train
    without prefetching. *)
Theorem stride_learns_stream {G R : Type} `{RL : ReplLaws G R} (st : Stride G R)
    (pfi : PrefetchInfo) (a s t0 t1 : Z) (times : list Z) :
  let n := 2 + Z.of_nat (length times) in
  (∀ g, is_ok (rp_instantiate (R := R) g)) → stride_wf st → untracked st pfi →
  streamable (st_cfg st) pfi a s n →
  ∃ st', run (zip (t0 :: t1 :: times) (access pfi a s <$> seqZ 0 n)) st
    = Ok (st', [] :: [] :: (stream_out (st_cfg st) a s <$> seqZ 2 (Z.of_nat (length times)))).
Proof.
  intros n Hinst Hwf Hu Hs. subst n.
  destruct (steady_start (st_cfg st) pfi a s t0 t1 _ st Hinst Hs ltac:(lia) Hwf eq_refl Hu)
    as (st0 & st1 & E0 & E1 & Hst).
  destruct (steady_run (st_cfg st) pfi a s _ times st1 2 Hs ltac:(lia) ltac:(lia) Hst) as (st' & Er).
  exists st'. rewrite (seqZ_cons 0), (seqZ_cons (Z.succ 0)) by lia. rewrite !fmap_cons.
  change (Z.succ (Z.succ 0)) with 2. change (Z.succ 0) with 1.
  replace (Z.pred (Z.pred (2 + Z.of_nat (length times)))) with (Z.of_nat (length times)) by lia.
  change (run (zip (t0 :: t1 :: times) (?x :: ?y :: ?l)) st) with
    ('(st, o) ← stride_calculatePrefetch t0 x st;
     '(st, os) ← ('(st, o) ← stride_calculatePrefetch t1 y st;
                  '(st, os) ← run (zip times l) st; Ok (st, o :: os)); Ok (st, o :: os)).
  rewrite E0. run_ok. rewrite E1. run_ok. by rewrite Er.
Qed.

(** A table is allocated for each requestor, but all of them are built over
    one indexing policy: the first access of a new requestor makes every entry of
    every other requestor unreachable. *)
Theorem new_requestor_forgets {G R : Type} `{RL : ReplLaws G R} (st : Stride G R) (c : Z) :
  (∀ g, is_ok (rp_instantiate (R := R) g)) → stride_wf st → pcTables st !! c = None →
  ∃ st', findTable st c = Ok st' ∧
    ∀ key, findEntry (st_ip (st_cfg st')) (st_store st') key = Ok None.
Proof.
  intros Hinst Hwf Hc. destruct (allocate_spec st c Hinst Hwf) as (st' & E & _ & Hcfg & _ & Hf).
  exists st'. unfold findTable. rewrite Hc, Hcfg. auto.
Qed.

Lemma lru_instantiates (g : unit) : is_ok (rp_instantiate (R := LRUReplData) g).
Proof. by eexists. Qed.

Lemma stride_safe_witness :
  ∃ st' l, stride_calculatePrefetch 1 ex_access (ex_stride true) = Ok (st', l) ∧ stride_wf st'.
Proof.
  destruct (stride_safe 1 ex_access (ex_stride true) lru_instantiates (ex_stride_wf true))
    as (st' & l & E & Hwf & _).
  exists st', l. split; [exact E|exact Hwf].
Defined.

Lemma ex_streamable : streamable (st_cfg (ex_stride true)) ex_access 0x1000 128 (2 + Z.of_nat (length [3])).
Proof.
  split.
  - split; simpl; [lia|done|]. exists 12. split; [lia|done].
  - done.
  - intros k Hk. simpl in Hk. unfold in_u. lia.
  - unfold in_s. simpl. lia.
  - simpl. lia.
  - intros _. split; [by exists 64|by exists 2].
  - unfold in_s. simpl. lia.
  - split; [|done]. split; [unfold sat_wf; simpl; lia|]. by exists 3.
  - by vm_compute.
  - by vm_compute.
  - by vm_compute.
Qed.

Lemma stride_learns_stream_witness :
  ∃ st', run (zip [1; 2; 3] (access ex_access 0x1000 128 <$> seqZ 0 (2 + Z.of_nat (length [3]))))
      (ex_stride true)
    = Ok (st', [] :: [] :: (stream_out (st_cfg (ex_stride true)) 0x1000 128
                              <$> seqZ 2 (Z.of_nat (length [3])))).
Proof.
  exact (stride_learns_stream (ex_stride true) ex_access 0x1000 128 1 2 [3]
    lru_instantiates (ex_stride_wf true) (or_introl eq_refl) ex_streamable).
Defined.

Lemma new_requestor_forgets_witness :
  ∃ st', findTable (ex_stride true) 7 = Ok st' ∧
    findEntry (st_ip (st_cfg st')) (st_store st') (mkKey 0x400 false) = Ok None.
Proof.
  destruct (new_requestor_forgets (ex_stride true) 7 lru_instantiates (ex_stride_wf true) eq_refl)
    as (st' & E & Hf).
  exists st'. split; [exact E|apply Hf].
Defined.

(** Two requestors that take turns: the second one's first access loses what the
    first one had learned, so its third access is a miss again. *)
Example two_requestors_interfere :
  let other := mkPfi 0x9000 0x800 2 true false 8 false 0x9000 true None in
  let acc k := access ex_access 0x1000 128 k in
  (snd <$> match run [(1, acc 0); (2, acc 1); (3, acc 2)] (ex_stride true) with
           | Ok r => Some r | Stop _ => None end)
    = Some [[]; []; [(0x1180, 0); (0x1200, 0); (0x1280, 0); (0x1300, 0)]] ∧
  (snd <$> match run [(1, acc 0); (2, acc 1); (3, other); (4, acc 2)] (ex_stride true) with
           | Ok r => Some r | Stop _ => None end)
    = Some [[]; []; []; []].
Proof. by vm_compute. Qed.
