(* ===== verification/CircularQueue.v ===== *)
(** * Circular queues

    [src/src/base/circular_queue.hh]: a vector of fixed capacity used as a ring, with
    an index of the head that only grows and is reduced by the capacity when
    the vector is accessed.  The prefetchers keep their recent latencies, deltas
    and accesses in such queues.  The refinement lemmas relate every operation
    to the list of the elements from head to tail. *)

From Stdlib Require Import ZArith Lia.
From stdpp Require Import base numbers option list strings.
From S2P Require Import Prelude.
#[local] Open Scope nat_scope.

Record CircularQueue (T : Type) := mkCQ {
  cq_data : list T;
  cq_capacity : nat;
  cq_size : nat;
  cq_head : nat
}.
Arguments mkCQ {T} _ _ _ _.
Arguments cq_data {T} _.
Arguments cq_capacity {T} _.
Arguments cq_size {T} _.
Arguments cq_head {T} _.

Section CQ.
Context {T : Type}.
Implicit Types q : CircularQueue T.

(** The constructor; [dflt] is the value [std::vector] initialises with. *)
Definition cq_new (dflt : T) (size : nat) : CircularQueue T := mkCQ (replicate size dflt) size 0 1.

Definition cq_flush q : CircularQueue T := mkCQ (cq_data q) (cq_capacity q) 0 1.

Definition cq_tail q : nat := cq_head q + cq_size q - 1.
Definition cq_full q : bool := cq_size q =? cq_capacity q.
Definition cq_empty q : bool := cq_size q =? 0.
Definition isValidIdx q (idx : nat) : bool := (cq_head q <=? idx) && (idx <? cq_head q + cq_size q).

(** [operator[]]; a queue without capacity divides by zero. *)
Definition cq_at q (index : nat) : outcome T :=
  if cq_capacity q =? 0 then Stop (Panic "division by zero") else
  match cq_data q !! (index mod cq_capacity q) with
  | Some v => Ok v
  | None => Stop (Panic "index out of range")
  end.

(** Writing through the reference [operator[]] returns. *)
Definition cq_put q (index : nat) (v : T) : CircularQueue T :=
  mkCQ (<[index mod cq_capacity q := v]> (cq_data q)) (cq_capacity q) (cq_size q) (cq_head q).

Definition cq_front q : outcome T := cq_at q (cq_head q).
Definition cq_back q : outcome T := cq_at q (cq_tail q).

Definition cq_pop_front q (num_elem : nat) : outcome (CircularQueue T) :=
  _ ← assert_that (num_elem <=? cq_size q) "num_elem <= size()";
  Ok (mkCQ (cq_data q) (cq_capacity q) (cq_size q - num_elem) (cq_head q + num_elem)).

Definition cq_pop_back q : outcome (CircularQueue T) :=
  _ ← assert_that (negb (cq_empty q)) "!empty()";
  Ok (mkCQ (cq_data q) (cq_capacity q) (cq_size q - 1) (cq_head q)).

Definition advance_tail q : CircularQueue T :=
  if cq_full q then mkCQ (cq_data q) (cq_capacity q) (cq_size q) (S (cq_head q))
  else mkCQ (cq_data q) (cq_capacity q) (S (cq_size q)) (cq_head q).

(** [advance_tail(len)]. *)
Definition advance_tail_by q (len : nat) : CircularQueue T :=
  let remaining := cq_capacity q - cq_size q in
  let overflow := if remaining <? len then len - remaining else 0 in
  mkCQ (cq_data q) (cq_capacity q) (cq_size q + (len - overflow)) (cq_head q + overflow).

Definition cq_push_back q (val : T) : outcome (CircularQueue T) :=
  let q := advance_tail q in
  if cq_capacity q =? 0 then Stop (Panic "division by zero") else
  Ok (mkCQ (<[cq_tail q mod cq_capacity q := val]> (cq_data q)) (cq_capacity q) (cq_size q) (cq_head q)).

(** The elements in the order the iterators visit them. *)
Definition contents q : list T :=
  omap (λ i, cq_data q !! (i mod cq_capacity q)) (seq (cq_head q) (cq_size q)).

(** ** Refinement *)

Definition cq_wf q : Prop :=
  0 < cq_capacity q ∧ length (cq_data q) = cq_capacity q ∧ cq_size q ≤ cq_capacity q ∧ 0 < cq_head q.

Lemma cq_new_wf d n : 0 < n → cq_wf (cq_new d n).
Proof. intros. unfold cq_wf. simpl. rewrite length_replicate. lia. Qed.

Lemma cq_new_contents d n : contents (cq_new d n) = [].
Proof. done. Qed.

(** Distinct positions of a window no longer than the capacity are distinct cells. *)
Lemma window_distinct (h c i j : nat) :
  0 < c → h ≤ i < h + c → h ≤ j < h + c → i mod c = j mod c → i = j.
Proof.
  intros Hc Hi Hj E. pose proof (Nat.div_mod i c). pose proof (Nat.div_mod j c).
  destruct (Nat.lt_trichotomy (i / c) (j / c)) as [|[|]]; nia.
Qed.

Lemma contents_lookup q (k : nat) :
  cq_wf q → k < cq_size q →
  ∃ v, contents q !! k = Some v ∧ cq_data q !! ((cq_head q + k) mod cq_capacity q) = Some v.
Proof.
  intros (Hc & Hl & Hs & _). unfold contents. generalize (cq_head q) as h.
  assert (∀ i, is_Some (cq_data q !! (i mod cq_capacity q))) as Hat.
  { intros i. apply lookup_lt_is_Some_2. rewrite Hl. apply Nat.mod_upper_bound. lia. }
  revert k. induction (cq_size q) as [|n IH]; intros k h Hk; [lia|]. cbn [seq omap list_omap].
  destruct (Hat h) as [v Hv]. rewrite Hv. destruct k as [|k].
  - exists v. rewrite Nat.add_0_r. done.
  - replace (h + S k) with (S h + k) by lia. apply IH; lia.
Qed.

Lemma contents_length q : cq_wf q → length (contents q) = cq_size q.
Proof.
  intros (Hc & Hl & Hs & _). unfold contents. generalize (cq_head q) as h.
  assert (∀ i, is_Some (cq_data q !! (i mod cq_capacity q))) as Hat.
  { intros i. apply lookup_lt_is_Some_2. rewrite Hl. apply Nat.mod_upper_bound. lia. }
  clear Hs. induction (cq_size q) as [|n IH]; intros h; [done|]. cbn [seq omap list_omap].
  destruct (Hat h) as [v Hv]. rewrite Hv. simpl. f_equal. apply IH.
Qed.

(** A list is the contents of a queue if it agrees with it cell by cell. *)
Lemma contents_eq q l :
  cq_wf q → length l = cq_size q →
  (∀ k v, l !! k = Some v → cq_data q !! ((cq_head q + k) mod cq_capacity q) = Some v) →
  contents q = l.
Proof.
  intros Hw Hlen Hk. apply list_eq_same_length with (cq_size q); [done|by apply contents_length|].
  intros k x y Hks Hx Hy. destruct (contents_lookup q k Hw Hks) as (v & Hv & Hd).
  apply Hk in Hy. congruence.
Qed.

(** Any index can be read; those of the elements give the elements. *)
Lemma cq_at_ok q i : cq_wf q → ∃ v, cq_at q i = Ok v.
Proof.
  intros (Hc & Hl & _ & _). unfold cq_at. rewrite (proj2 (Nat.eqb_neq _ _)) by lia.
  destruct (lookup_lt_is_Some_2 (cq_data q) (i mod cq_capacity q)) as [v ->]; [rewrite Hl; apply Nat.mod_upper_bound; lia|]. by exists v.
Qed.

Lemma contents_at q k v : cq_wf q → contents q !! k = Some v → cq_at q (cq_head q + k) = Ok v.
Proof.
  intros Hq Hv. pose proof (lookup_lt_Some _ _ _ Hv) as Hk. rewrite contents_length in Hk by done.
  destruct (contents_lookup q k Hq Hk) as (x & Hx & Hd). unfold cq_at. destruct Hq as (Hc & _).
  rewrite (proj2 (Nat.eqb_neq _ _)) by lia. rewrite Hd. congruence.
Qed.

Lemma cq_put_wf q i v : cq_wf q → cq_wf (cq_put q i v).
Proof. unfold cq_wf. simpl. by rewrite length_insert. Qed.

Lemma cq_put_contents q k v : cq_wf q → k < cq_size q → contents (cq_put q (cq_head q + k) v) = <[k := v]> (contents q).
Proof.
  intros Hq Hk. pose proof (contents_length q Hq) as Hl. apply contents_eq; [by apply cq_put_wf|by rewrite length_insert|].
  destruct Hq as (Hc & Hd & Hs & Hh) eqn:EH. clear EH. intros j x Hx. simpl. destruct (decide (j = k)) as [->|Hne].
  - rewrite list_lookup_insert_eq in Hx by lia. injection Hx as <-. apply list_lookup_insert_eq. rewrite Hd. apply Nat.mod_upper_bound. lia.
  - rewrite list_lookup_insert_ne in Hx by done. pose proof (lookup_lt_Some _ _ _ Hx) as Hj. rewrite Hl in Hj.
    rewrite list_lookup_insert_ne; [|intros E; apply window_distinct with (h := cq_head q) in E; lia].
    destruct (contents_lookup q j (conj Hc (conj Hd (conj Hs Hh))) Hj) as (y & Hy & E). congruence.
Qed.

(** [push_back] appends, and drops the oldest element of a full queue. *)
Definition bounded_push (cap : nat) (l : list T) (v : T) : list T :=
  (if length l =? cap then drop 1 l else l) ++ [v].

Lemma cq_push_back_spec q v :
  cq_wf q →
  ∃ q', cq_push_back q v = Ok q' ∧ cq_wf q' ∧ cq_capacity q' = cq_capacity q ∧
    contents q' = bounded_push (cq_capacity q) (contents q) v.
Proof.
  intros Hw. pose proof Hw as (Hc & Hl & Hs & Hh). pose proof (contents_length q Hw) as Hcl.
  unfold cq_push_back, advance_tail, cq_full, bounded_push. rewrite Hcl.
  assert (∀ k, k < cq_size q → ∃ x, contents q !! k = Some x ∧
    cq_data q !! ((cq_head q + k) mod cq_capacity q) = Some x) as Hat
    by (intros; by apply contents_lookup).
  destruct (Nat.eqb_spec (cq_size q) (cq_capacity q)) as [Ef|Ef]; simpl;
    destruct (Nat.eqb_spec (cq_capacity q) 0); try lia.
  - eexists. split; [done|]. split; [|split; [done|]].
    { unfold cq_wf. simpl. rewrite length_insert. lia. }
    apply contents_eq; [unfold cq_wf; simpl; rewrite length_insert; lia| |].
    { simpl. rewrite length_app, length_drop, Hcl. simpl. lia. }
    intros k x Hx. simpl. unfold cq_tail. simpl.
    destruct (decide (k = cq_size q - 1)) as [->|Hk].
    + rewrite lookup_app_r in Hx by (rewrite length_drop; lia).
      rewrite length_drop, Hcl, Nat.sub_diag in Hx. injection Hx as <-.
      replace (S (cq_head q + (cq_size q - 1))) with (cq_head q + cq_size q) by lia.
      replace (cq_head q + cq_size q - 0) with (cq_head q + cq_size q) by lia.
      apply list_lookup_insert_eq. rewrite Hl. apply Nat.mod_upper_bound. lia.
    + assert (k < cq_size q) as Hlt.
      { apply lookup_lt_Some in Hx. rewrite length_app, length_drop, Hcl in Hx. simpl in Hx. lia. }
      rewrite lookup_app_l in Hx by (rewrite length_drop; lia). rewrite lookup_drop in Hx.
      destruct (Hat (S k) ltac:(lia)) as (y & Hy & Hd). change (1 + k)%nat with (S k) in Hx. rewrite Hx in Hy. injection Hy as <-.
      rewrite list_lookup_insert_ne.
      * by replace (S (cq_head q + k)) with (cq_head q + S k) by lia.
      * intros E. apply window_distinct with (h := S (cq_head q)) in E; lia.
  - eexists. split; [done|]. split; [|split; [done|]].
    { unfold cq_wf. simpl. rewrite length_insert. lia. }
    apply contents_eq; [unfold cq_wf; simpl; rewrite length_insert; lia| |].
    { simpl. rewrite length_app, Hcl. simpl. lia. }
    intros k x Hx. simpl. unfold cq_tail. simpl.
    destruct (decide (k = cq_size q)) as [->|Hk].
    + rewrite lookup_app_r in Hx by lia. rewrite Hcl, Nat.sub_diag in Hx. injection Hx as <-.
      replace (cq_head q + S (cq_size q) - 1) with (cq_head q + cq_size q) by lia.
      apply list_lookup_insert_eq. rewrite Hl. apply Nat.mod_upper_bound. lia.
    + assert (k < cq_size q) as Hlt.
      { apply lookup_lt_Some in Hx. rewrite length_app, Hcl in Hx. simpl in Hx. lia. }
      rewrite lookup_app_l in Hx by lia.
      destruct (Hat k Hlt) as (y & Hy & Hd). rewrite Hx in Hy. injection Hy as <-.
      rewrite list_lookup_insert_ne; [done|].
      intros E. apply window_distinct with (h := cq_head q) in E; lia.
Qed.

Lemma cq_front_spec q v l : cq_wf q → contents q = v :: l → cq_front q = Ok v.
Proof.
  intros Hw E. pose proof (contents_length q Hw) as Hl. rewrite E in Hl. simpl in Hl.
  destruct (contents_lookup q 0 Hw ltac:(lia)) as (x & Hx & Hd). rewrite E in Hx. injection Hx as ->.
  unfold cq_front, cq_at. destruct Hw as (Hc & _). rewrite (proj2 (Nat.eqb_neq _ 0)) by lia.
  rewrite Nat.add_0_r in Hd. by rewrite Hd.
Qed.

Lemma cq_back_spec q v l : cq_wf q → contents q = l ++ [v] → cq_back q = Ok v.
Proof.
  intros Hw E. pose proof (contents_length q Hw) as Hl. rewrite E, length_app in Hl. simpl in Hl.
  destruct (contents_lookup q (length l) Hw ltac:(lia)) as (x & Hx & Hd).
  rewrite E, lookup_app_r, Nat.sub_diag in Hx by lia. injection Hx as ->.
  unfold cq_back, cq_at, cq_tail. destruct Hw as (Hc & _). rewrite (proj2 (Nat.eqb_neq _ 0)) by lia.
  replace (cq_head q + cq_size q - 1) with (cq_head q + length l) by lia. by rewrite Hd.
Qed.

Lemma cq_pop_front_spec q n :
  cq_wf q → n ≤ cq_size q →
  ∃ q', cq_pop_front q n = Ok q' ∧ cq_wf q' ∧ contents q' = drop n (contents q).
Proof.
  intros Hw Hn. pose proof Hw as (Hc & Hl & Hs & Hh). unfold cq_pop_front, assert_that.
  rewrite (proj2 (Nat.leb_le _ _)) by done. eexists. split; [done|].
  assert (cq_wf (mkCQ (cq_data q) (cq_capacity q) (cq_size q - n) (cq_head q + n))) as Hw'
    by (unfold cq_wf; simpl; lia).
  split; [done|]. apply contents_eq; [done| |].
  - rewrite length_drop, contents_length by done. done.
  - intros k v Hv. simpl. rewrite lookup_drop in Hv.
    assert (n + k < cq_size q) as Hlt by (rewrite <-contents_length by done; by eapply lookup_lt_Some).
    destruct (contents_lookup q (n + k) Hw Hlt) as (x & Hx & Hd).
    rewrite Hx in Hv. injection Hv as ->. by rewrite Nat.add_assoc in Hd.
Qed.

Lemma cq_flush_contents q : contents (cq_flush q) = [].
Proof. done. Qed.
End CQ.

(** ** A queue holds the most recent elements *)

Section Recent.
Context {T : Type}.

Definition push_all (q : CircularQueue T) (l : list T) : outcome (CircularQueue T) :=
  foldl (λ m v, q ← m; cq_push_back q v) (Ok q) l.

(** The last [n] elements of a list. *)
Definition last_n (n : nat) (l : list T) : list T := drop (length l - n) l.

Lemma bounded_push_last n l v :
  0 < n → length l ≤ n → bounded_push n l v = last_n n (l ++ [v]).
Proof.
  intros Hn Hl. unfold bounded_push, last_n. rewrite length_app. simpl.
  destruct (Nat.eqb_spec (length l) n) as [<-|].
  - replace (length l + 1 - length l) with 1 by lia. by rewrite drop_app_le by lia.
  - replace (length l + 1 - n) with 0 by lia. done.
Qed.

Lemma last_n_app n l k : last_n n (last_n n l ++ k) = last_n n (l ++ k).
Proof.
  unfold last_n. rewrite !length_app, length_drop.
  destruct (decide (length l ≤ n)).
  - replace (length l - n) with 0 by lia. by rewrite Nat.sub_0_r, drop_0.
  - assert (l ++ k = take (length l - n) l ++ (drop (length l - n) l ++ k)) as ->.
    { by rewrite app_assoc, take_drop. }
    rewrite (drop_app_ge (take _ _)) by (rewrite length_take; lia). rewrite length_take.
    f_equal. lia.
Qed.

Lemma push_all_spec q l :
  cq_wf q →
  ∃ q', push_all q l = Ok q' ∧ cq_wf q' ∧ cq_capacity q' = cq_capacity q ∧
    contents q' = last_n (cq_capacity q) (contents q ++ l).
Proof.
  revert q. induction l as [|v l IH]; intros q Hw; unfold push_all; simpl.
  - exists q. rewrite app_nil_r. unfold last_n. split_and!; try done.
    pose proof Hw as (_ & _ & Hs & _). rewrite contents_length by done.
    by replace (cq_size q - cq_capacity q) with 0 by lia.
  - pose proof Hw as (Hc & _ & Hs & _).
    destruct (cq_push_back_spec q v Hw) as (q1 & -> & Hw1 & Hc1 & E1).
    destruct (IH q1 Hw1) as (q' & E & Hw' & Hc' & E'). exists q'. split_and!; try done; [congruence|].
    rewrite E', E1, Hc1, bounded_push_last, last_n_app, <-app_assoc; [done|lia|].
    by rewrite contents_length.
Qed.
End Recent.

(** A circular queue of capacity [n] holds exactly the last [n] elements
    pushed onto it, in order, and its front is the oldest of them, however often
    its indices have wrapped around the vector. *)
Theorem circular_queue_recent {T : Type} (dflt : T) (n : nat) (l : list T) :
  0 < n →
  ∃ q, push_all (cq_new dflt n) l = Ok q ∧ contents q = drop (length l - n) l ∧
    cq_size q = Nat.min n (length l) ∧
    (∀ v k, drop (length l - n) l = v :: k → cq_front q = Ok v).
Proof.
  intros Hn. destruct (push_all_spec (cq_new dflt n) l) as (q & E & Hw & Hc & Eq); [by apply cq_new_wf|].
  rewrite cq_new_contents in Eq. simpl in Eq. exists q. split_and!; [done|done| |].
  - rewrite <-contents_length, Eq by done. unfold last_n. rewrite length_drop. lia.
  - intros v k Ev. eapply cq_front_spec; [done|]. by rewrite Eq.
Qed.

Lemma circular_queue_recent_witness :
  ∃ q, push_all (cq_new 0%Z 3) [1; 2; 3; 4; 5]%Z = Ok q ∧ contents q = [3; 4; 5]%Z.
Proof.
  destruct (circular_queue_recent 0%Z 3 [1; 2; 3; 4; 5]%Z ltac:(lia)) as (q & E & Hc & _).
  exists q. split; [exact E|exact Hc].
Defined.
