(* ===== verification/DCPT.v ===== *)
(** * Delta-correlating prediction tables

    [src/src/mem/cache/prefetch/delta_correlating_prediction_tables.{hh,cc}]: for each
    program counter the table keeps the last address and a ring of the most recent
    deltas; when the two latest deltas have occurred together before, the deltas that
    followed them are replayed from the last address.  The theorem is that a program
    counter whose deltas repeat periodically is predicted exactly. *)

From Stdlib Require Import ZArith Lia.
From stdpp Require Import base numbers option list strings.
From S2P Require Import Prelude PrefetchBase PrefetchQueue Children Replacement Indexing AssocCache Tables.
From S2P Require Import CircularQueue.
#[local] Open Scope Z_scope.

(** ** Entries *)

Record DCPTMembers := mkDM { lastAddress : Z; deltas : CircularQueue Z }.

Abbreviation DCPTEntry := (With CacheEntry DCPTMembers).

(** [while (!deltas.full()) deltas.push_back(0)]; a queue that is not full has a capacity,
    so pushing onto it succeeds, and its capacity bounds the rounds. *)
Fixpoint fill_zeros (fuel : nat) (q : CircularQueue Z) : CircularQueue Z :=
  match fuel with
  | O => q
  | S fuel =>
      if cq_full q then q else
      match cq_push_back q 0 with Ok q => fill_zeros fuel q | Stop _ => q end
  end.

(** The members after [DCPTEntry::invalidate]. *)
#[export] Instance dcpt_reset : Reset DCPTMembers := λ m,
  mkDM 0 (fill_zeros (cq_capacity (deltas m)) (cq_flush (deltas m))).

Definition dcpt_entry_new (num_deltas : nat) : DCPTEntry :=
  mkWith ce_new (mkDM 0 (cq_new 0 num_deltas)).

(** [addAddress]; [1 << (delta_bits - 1)] is an [int]. *)
Definition addAddress (address delta_bits : Z) (m : DCPTMembers) : outcome DCPTMembers :=
  if u64 (address - lastAddress m) =? 0 then Ok m else
  let delta := u64 (address - lastAddress m) in
  let max_positive_delta := u64 (i32 (i32 (Z.shiftl 1 (delta_bits - 1)) - 1)) in
  let delta :=
    if lastAddress m <? address
    then (if max_positive_delta <? delta then 0 else delta)
    else (if u64 (max_positive_delta + 1) <? u64 (lastAddress m - address) then 0 else delta) in
  q ← cq_push_back (deltas m) delta;
  Ok (mkDM address q).

(** The loop that looks for an earlier occurrence of the two latest deltas, over the list
    from the iterator to [end()]: it stops two before the end, and returns what follows
    the first match. *)
Fixpoint find_pair (msk penultimate last : Z) (l : list Z) : option (list Z) :=
  match l with
  | a :: ((b :: ((_ :: _) as rest)) as l') =>
      if (Z.shiftr (i32 a) msk =? Z.shiftr penultimate msk)
         && (Z.shiftr (i32 b) msk =? Z.shiftr last msk)
      then Some rest else find_pair msk penultimate last l'
  | _ => None
  end.

(** [addr += pf_delta] for each of the remaining deltas. *)
Fixpoint replay (addr : Z) (l : list Z) : list AddrPriority :=
  match l with
  | [] => []
  | d :: l => let addr := u64 (addr + i32 d) in (addr, 0) :: replay addr l
  end.

Definition getCandidates (msk : Z) (m : DCPTMembers) : outcome (list AddrPriority) :=
  _ ← assert_that (cq_full (deltas m)) "deltas.full()";
  let l := contents (deltas m) in
  _ ← assert_that (2 <=? length l)%nat "_idx >= _cq->head() + t";
  match l !! (length l - 2)%nat, l !! (length l - 1)%nat with
  | Some penultimate, Some last =>
      let delta_penultimate := i32 penultimate in
      let delta_last := i32 last in
      if (delta_last =? 0) || (delta_penultimate =? 0) then Ok [] else
      match find_pair msk delta_penultimate delta_last l with
      | Some rest => Ok (replay (lastAddress m) rest)
      | None => Ok []
      end
  | _, _ => Stop (Panic "index out of range")
  end.

(** ** The prefetcher *)

Record DCPT (G R : Type) := mkDCPT {
  deltaBits : Z;
  deltaMaskBits : Z;
  dcpt_table : Tbl Z DCPTEntry G R
}.
Arguments mkDCPT {G R} _ _ _.
Arguments deltaBits {G R} _.
Arguments deltaMaskBits {G R} _.
Arguments dcpt_table {G R} _.

Section DCPT.
Context {G R : Type} `{ReplPolicy G R}.

Definition dcpt_new (delta_bits delta_mask_bits table_entries table_assoc : Z) (deltas_per_entry : nat)
    (ip : IndexingPolicy Z) (sets : list (list ref)) (g : G) : outcome (DCPT G R) :=
  T ← t_new ip table_entries table_assoc (dcpt_entry_new deltas_per_entry) sets g;
  Ok (mkDCPT delta_bits delta_mask_bits T).

Definition with_table (st : DCPT G R) (T : Tbl Z DCPTEntry G R) : DCPT G R :=
  mkDCPT (deltaBits st) (deltaMaskBits st) T.

Definition dcpt_calculatePrefetch (curTick : Z) (pfi : PrefetchInfo) (st : DCPT G R)
    : outcome (DCPT G R * list AddrPriority) :=
  if negb (pfi_validPC pfi) then Ok (st, []) else
  let address := pfi_address pfi in
  pc ← getPC pfi;
  let T := dcpt_table st in
  o ← t_findEntry T pc;
  match o with
  | Some i =>
      e ← t_get T i;
      m ← addAddress address (deltaBits st) (w_data e);
      l ← getCandidates (deltaMaskBits st) m;
      Ok (with_table st (t_put T i (mkWith (w_base e) m)), l)
  | None =>
      '(i, T) ← t_findVictim T pc;
      T ← t_insertEntry curTick T pc i;
      e ← t_get T i;
      Ok (with_table st (t_put T i (mkWith (w_base e) (mkDM address (deltas (w_data e))))), [])
  end.

#[export] Instance dcpt_prefetcher : CalculatePrefetch (DCPT G R) :=
  λ curTick pfi _ st, dcpt_calculatePrefetch curTick pfi st.
End DCPT.

(** ** Facts *)

Lemma fill_zeros_spec fuel q k :
  cq_wf q → contents q = replicate k 0 → (k + fuel = cq_capacity q)%nat →
  cq_wf (fill_zeros fuel q) ∧ cq_capacity (fill_zeros fuel q) = cq_capacity q ∧
  contents (fill_zeros fuel q) = replicate (cq_capacity q) 0.
Proof.
  revert q k. induction fuel as [|fuel IH]; intros q k Hw Hc Hk; simpl.
  { rewrite Hc. split_and!; [done..|]. f_equal. lia. }
  pose proof (contents_length q Hw) as Hl. rewrite Hc, length_replicate in Hl.
  unfold cq_full. rewrite (proj2 (Nat.eqb_neq _ _)) by lia.
  destruct (cq_push_back_spec q 0 Hw) as (q' & -> & Hw' & Hcap & Hc').
  rewrite <-Hcap. apply (IH q' (S k)); [done| |lia].
  rewrite Hc'. unfold bounded_push. rewrite Hc, length_replicate.
  rewrite (proj2 (Nat.eqb_neq _ _)) by lia. by rewrite <-replicate_S_end.
Qed.

Lemma reset_deltas m :
  cq_wf (deltas m) →
  let q := deltas (reset_members m) in
  cq_wf q ∧ cq_capacity q = cq_capacity (deltas m) ∧ contents q = replicate (cq_capacity q) 0.
Proof.
  intros (Hc & Hl & _ & _). destruct (fill_zeros_spec (cq_capacity (deltas m)) (cq_flush (deltas m)) 0)
    as (H1 & H2 & H3); [unfold cq_wf; simpl; lia|done|done|].
  simpl in *. rewrite H2. auto.
Qed.

(** The first match of the pair, when it is not the last pair itself. *)
Lemma find_pair_at msk p q l i a b :
  (i + 2 < length l)%nat → l !! i = Some a → l !! S i = Some b →
  Z.shiftr (i32 a) msk = Z.shiftr p msk → Z.shiftr (i32 b) msk = Z.shiftr q msk →
  (∀ j x y, (j < i)%nat → l !! j = Some x → l !! S j = Some y →
     Z.shiftr (i32 x) msk = Z.shiftr p msk → Z.shiftr (i32 y) msk = Z.shiftr q msk → False) →
  find_pair msk p q l = Some (drop (i + 2) l).
Proof.
  revert l. induction i as [|i IH]; intros l Hl Ha Hb Ea Eb Hno;
    destruct l as [|x [|y [|z l]]]; simpl in Hl; try lia.
  - injection Ha as ->. injection Hb as ->. simpl. by rewrite Ea, Eb, !Z.eqb_refl.
  - cbn [find_pair]. destruct (Z.eqb_spec (Z.shiftr (i32 x) msk) (Z.shiftr p msk)) as [E1|];
      [destruct (Z.eqb_spec (Z.shiftr (i32 y) msk) (Z.shiftr q msk)) as [E2|]|]; simpl.
    + destruct (Hno 0%nat x y); [lia|done..].
    + apply (IH (y :: z :: l)); try done; [simpl; lia|]. intros j u v Hj. apply (Hno (S j)). lia.
    + apply (IH (y :: z :: l)); try done; [simpl; lia|]. intros j u v Hj. apply (Hno (S j)). lia.
Qed.

Lemma addAddress_total addr b m :
  cq_wf (deltas m) →
  ∃ m', addAddress addr b m = Ok m' ∧ cq_wf (deltas m') ∧
    cq_capacity (deltas m') = cq_capacity (deltas m) ∧
    (cq_full (deltas m) = true → cq_full (deltas m') = true).
Proof.
  intros Hw. unfold addAddress. destruct (_ =? 0); [by exists m|].
  set (d := if lastAddress m <? addr then _ else _).
  destruct (cq_push_back_spec (deltas m) d Hw) as (q & -> & Hw' & Hc & Eq). run_ok.
  eexists. split; [done|]. simpl. split_and!; [done..|]. unfold cq_full. rewrite !Nat.eqb_eq, Hc.
  intros Hf. rewrite <-(contents_length q Hw'), Eq. unfold bounded_push.
  rewrite (contents_length _ Hw), Hf, Nat.eqb_refl, length_app, length_drop, (contents_length _ Hw).
  simpl. destruct Hw. lia.
Qed.

Lemma getCandidates_total msk m :
  cq_wf (deltas m) → cq_full (deltas m) = true → (2 ≤ cq_capacity (deltas m))%nat →
  ∃ l, getCandidates msk m = Ok l.
Proof.
  intros Hw Hf H2. unfold getCandidates. rewrite Hf. cbn [assert_that mbind outcome_bind].
  pose proof (contents_length _ Hw) as Hl. unfold cq_full in Hf. apply Nat.eqb_eq in Hf.
  rewrite (proj2 (Nat.leb_le 2 _)) by lia. run_ok.
  destruct (lookup_lt_is_Some_2 (contents (deltas m)) (length (contents (deltas m)) - 2)) as [x ->]; [lia|].
  destruct (lookup_lt_is_Some_2 (contents (deltas m)) (length (contents (deltas m)) - 1)) as [y ->]; [lia|].
  repeat case_match; eauto.
Qed.

(** A valid entry has a full ring. *)
Definition entry_ok (n : nat) (e : DCPTEntry) : Prop :=
  cq_wf (deltas (w_data e)) ∧ cq_capacity (deltas (w_data e)) = n ∧
  (ce_valid (w_base e) = true → cq_full (deltas (w_data e)) = true).

Section Facts.
Context {G R : Type} `{RL : ReplLaws G R} (n : nat).
Implicit Types st : DCPT G R.

Record dcpt_wf st : Prop := {
  dw_ok : t_ok (dcpt_table st);
  dw_all : Forall (entry_ok n) (t_entries (dcpt_table st));
  dw_two : (2 ≤ n)%nat
}.

Lemma dcpt_wf_put st i b m :
  dcpt_wf st → entry_ok n (mkWith b m) → dcpt_wf (with_table st (t_put (dcpt_table st) i (mkWith b m))).
Proof.
  intros [H1 H2 H3] He. split; simpl; [by apply t_put_ok| |done].
  rewrite t_put_entries. by apply Forall_insert.
Qed.

Lemma dcpt_hit t pfi st i e :
  dcpt_wf st → pfi_validPC pfi = true → t_found (dcpt_table st) (pfi_pc pfi) i e →
  ce_valid (w_base e) = true →
  ∃ m l st', addAddress (pfi_address pfi) (deltaBits st) (w_data e) = Ok m ∧
    getCandidates (deltaMaskBits st) m = Ok l ∧
    dcpt_calculatePrefetch t pfi st = Ok (st', l) ∧ dcpt_wf st' ∧
    t_found (dcpt_table st') (pfi_pc pfi) i (mkWith (w_base e) m) ∧
    deltaBits st' = deltaBits st ∧ deltaMaskBits st' = deltaMaskBits st.
Proof using RL.
  intros Hwf Hpc Hf Hv. pose proof (Forall_lookup_1 _ _ _ _ (dw_all _ Hwf) (proj2 Hf)) as (Hw & Hc & Hfull).
  destruct (addAddress_total (pfi_address pfi) (deltaBits st) (w_data e) Hw) as (m & Em & Hw' & Hc' & Hfull').
  destruct (getCandidates_total (deltaMaskBits st) m) as [l El]; [done|auto|rewrite Hc', Hc; apply Hwf|].
  eexists m, l, _. split; [done|]. split; [done|]. split.
  { unfold dcpt_calculatePrefetch, getPC. rewrite Hpc. cbn [negb assert_that mbind outcome_bind].
    rewrite (proj1 Hf). run_ok. rewrite (t_get_ok _ _ _ (proj2 Hf)). run_ok. rewrite Em. run_ok.
    rewrite El. run_ok. done. }
  split_and!; [|by apply (t_put_found _ _ _ e); [apply Hwf|..]|done..].
  apply dcpt_wf_put; [done|]. split_and!; simpl; [done|congruence|auto].
Qed.

Lemma dcpt_miss t pfi st :
  dcpt_wf st → pfi_validPC pfi = true → t_findEntry (dcpt_table st) (pfi_pc pfi) = Ok None →
  ∃ st' i e, dcpt_calculatePrefetch t pfi st = Ok (st', []) ∧ dcpt_wf st' ∧
    t_found (dcpt_table st') (pfi_pc pfi) i e ∧ ce_valid (w_base e) = true ∧
    lastAddress (w_data e) = pfi_address pfi ∧ contents (deltas (w_data e)) = replicate n 0 ∧
    deltaBits st' = deltaBits st ∧ deltaMaskBits st' = deltaMaskBits st.
Proof using RL.
  intros Hwf Hpc Hm. unfold dcpt_calculatePrefetch, getPC. rewrite Hpc.
  cbn [negb assert_that mbind outcome_bind]. rewrite Hm. run_ok.
  destruct (t_alloc_plain t _ _ (dw_ok _ Hwf) Hm)
    as (v & T1 & T2 & e0 & e2 & -> & E2 & _ & He0 & Ei & Hu & Hf & Hes). run_ok. rewrite E2. run_ok.
  pose proof (t_upd_ok _ _ _ Hu (dw_ok _ Hwf)) as Hok.
  rewrite (t_get_ok _ _ _ (proj2 Hf)). run_ok.
  pose proof (Forall_lookup_1 _ _ _ _ (dw_all _ Hwf) He0) as (Hw & Hc & _).
  destruct (reset_deltas _ Hw) as (Hw' & Hc' & Hz).
  assert (w_data e2 = reset_members (w_data e0) ∧ ce_valid (w_base e2) = true) as [Ed Hv].
  { simpl in Ei. unfold ce_insert in Ei. simpl in Ei. by injection Ei as <-. }
  assert (entry_ok n e2) as Hok2.
  { split_and!; rewrite Ed; [done|congruence|]. intros _. unfold cq_full. apply Nat.eqb_eq.
    by rewrite <-contents_length, Hz, length_replicate. }
  eexists _, v, _. split; [done|]. split_and!.
  - apply (dcpt_wf_put (with_table st T2)).
    + split; simpl; [done| |apply Hwf]. rewrite Hes. apply Forall_insert; [apply Hwf|done].
    + destruct Hok2 as (? & ? & ?). by split_and!.
  - by apply (t_put_found _ _ _ e2).
  - done.
  - done.
  - simpl. rewrite Ed, Hz. congruence.
  - done.
  - done.
Qed.

Lemma dcpt_total t pfi st :
  dcpt_wf st →
  ∃ st' l, dcpt_calculatePrefetch t pfi st = Ok (st', l) ∧ dcpt_wf st' ∧
    deltaBits st' = deltaBits st ∧ deltaMaskBits st' = deltaMaskBits st.
Proof using RL.
  intros Hwf. destruct (pfi_validPC pfi) eqn:Epc.
  2: { exists st, []. unfold dcpt_calculatePrefetch. rewrite Epc. auto. }
  destruct (t_find_total _ (pfi_pc pfi) (dw_ok _ Hwf)) as [Hm|(i & e & Hf & Hma)].
  - destruct (dcpt_miss t pfi st Hwf Epc Hm) as (st' & i & e & E & Hwf' & _ & _ & _ & _ & H1 & H2). eauto 8.
  - destruct (dcpt_hit t pfi st i e Hwf Epc Hf) as (m & l & st' & _ & _ & E & Hwf' & _ & H1 & H2); [|eauto 8].
    simpl in Hma. unfold ce_match in Hma. by apply andb_prop in Hma as [? _].
Qed.
End Facts.

(** ** Periodic patterns *)

Section Pattern.
Context (b msk : Z) (n p : nat) (A : nat → Z).

(** The [k]-th delta of the stream of addresses [A]. *)
Definition delta (k : nat) : Z := A (S k) - A k.

(** The deltas repeat with period [p], which fits twice into the ring up to the pair that
    is looked for; they are representable, and a pair of deltas, without the bits that are
    masked out, determines its position in the period. *)
Record pattern (len : nat) : Prop := {
  pat_bits : 1 ≤ b ≤ 31;
  pat_mask : 0 ≤ msk;
  pat_period : (0 < p)%nat;
  pat_fits : (p + 2 ≤ n)%nat;
  pat_addr : ∀ k, (k < len)%nat → in_u 64 (A k);
  pat_delta : ∀ k, delta k ≠ 0 ∧ - 2 ^ (b - 1) ≤ delta k < 2 ^ (b - 1);
  pat_repeat : ∀ k, delta (k + p) = delta k;
  pat_pairs : ∀ i j, Z.shiftr (delta i) msk = Z.shiftr (delta j) msk →
    Z.shiftr (delta (S i)) msk = Z.shiftr (delta (S j)) msk → (i mod p = j mod p)%nat
}.

(** How many addresses are predicted: the whole periods in the ring. *)
Definition predicted : nat := p * ((n - 2) / p).

Context (len : nat) (Hp : pattern len).

Lemma delta_mod i j : (i mod p = j mod p)%nat → delta i = delta j.
Proof using Hp.
  assert (∀ c k, delta (k + c * p) = delta k) as Hc.
  { intros c k. induction c as [|c IH]; [by rewrite Nat.add_0_r|].
    replace (k + S c * p)%nat with (k + c * p + p)%nat by lia. by rewrite (pat_repeat _ Hp). }
  intros E. pose proof (pat_period _ Hp). rewrite (Nat.div_mod i p), (Nat.div_mod j p) by lia.
  rewrite !(Nat.add_comm (p * _)), !(Nat.mul_comm p), !Hc. by rewrite E.
Qed.

Lemma delta_int k : i32 (u64 (delta k)) = delta k.
Proof using Hp.
  apply i32_u64. pose proof (pat_bits _ Hp). destruct (pat_delta _ Hp k) as [_ Hd].
  pose proof (Z.pow_le_mono_r 2 (b - 1) 31). unfold in_s. change (2 ^ (32 - 1)) with (2 ^ 31). lia.
Qed.

Lemma addAddress_delta k m :
  (S k < len)%nat → lastAddress m = A k →
  addAddress (A (S k)) b m
  = (q ← cq_push_back (deltas m) (u64 (delta k)); Ok (mkDM (A (S k)) q)).
Proof using Hp.
  intros Hk Hl. unfold addAddress. rewrite Hl. fold (delta k).
  destruct (pat_delta _ Hp k) as [Hnz Hd]. pose proof (pat_bits _ Hp) as Hb.
  pose proof (pat_addr _ Hp k ltac:(lia)) as H0. pose proof (pat_addr _ Hp (S k) Hk) as H1.
  assert (2 ^ (b - 1) ≤ 2 ^ 30) as H30 by (apply Z.pow_le_mono_r; lia).
  assert (0 < 2 ^ (b - 1)) as Hpos by (apply Z.pow_pos_nonneg; lia).
  change (2 ^ 30) with 1073741824 in H30. rewrite Z.shiftl_1_l.
  assert (i32 (i32 (2 ^ (b - 1)) - 1) = 2 ^ (b - 1) - 1) as ->.
  { rewrite (swrap_id 32 (2 ^ (b - 1))), (swrap_id 32) by in_int. done. }
  unfold delta, in_u in *. change (2 ^ 64) with 18446744073709551616 in *.
  assert (u64 (A (S k) - A k) ≠ 0) as Hu.
  { unfold wrap. change (2 ^ 64) with 18446744073709551616. Z.div_mod_to_equations. lia. }
  destruct (Z.eqb_spec (u64 (A (S k) - A k)) 0); [done|].
  rewrite !(wrap_id 64 (2 ^ (b - 1) - 1)) by in_word.
  destruct (Z.ltb_spec (A k) (A (S k))).
  - rewrite (wrap_id 64 (A (S k) - A k)) by in_word.
    destruct (Z.ltb_spec (2 ^ (b - 1) - 1) (A (S k) - A k)); [lia|done].
  - rewrite (wrap_id 64 (2 ^ (b - 1) - 1 + 1)), (wrap_id 64 (A k - A (S k))) by in_word.
    destruct (Z.ltb_spec (2 ^ (b - 1) - 1 + 1) (A k - A (S k))); [lia|done].
Qed.

Lemma replay_delta c k x j0 :
  u64 x = u64 (A k) → (∀ j, (j < c)%nat → delta (j0 + j) = delta (k + j)) →
  replay x ((λ j, u64 (delta j)) <$> seq j0 c) = (λ j, (u64 (A (k + j)), 0)) <$> seq 1 c.
Proof using Hp.
  revert k x j0. induction c as [|c IH]; intros k x j0 Hx Hd; [done|].
  cbn [seq fmap list_fmap replay]. rewrite delta_int.
  assert (u64 (x + delta j0) = u64 (A (S k))) as E.
  { rewrite <-wrap_add_l, Hx, wrap_add_l. pose proof (Hd 0%nat ltac:(lia)) as H0.
    rewrite !Nat.add_0_r in H0. rewrite H0. unfold delta. f_equal. lia. }
  rewrite E, Nat.add_1_r. f_equal.
  rewrite (IH (S k)); [|by autorewrite with word|].
  - rewrite <-(fmap_S_seq 1), <-list_fmap_compose. apply list_fmap_ext. intros i j _. simpl.
    by rewrite Nat.add_succ_r.
  - intros j Hj. pose proof (Hd (S j) ltac:(lia)) as H0. by rewrite !Nat.add_succ_r in H0.
Qed.

(** A ring with the last [n] deltas up to the [k]-th address predicts the next ones. *)
Lemma getCandidates_pattern k m :
  (n ≤ k)%nat → cq_wf (deltas m) → cq_full (deltas m) = true → lastAddress m = A k →
  contents (deltas m) = (λ j, u64 (delta j)) <$> seq (k - n) n →
  getCandidates msk m = Ok ((λ j, (u64 (A (k + j)), 0)) <$> seq 1 predicted).
Proof using Hp.
  intros Hk Hw Hf Hl Hc. unfold getCandidates. rewrite Hf, Hc, length_fmap, length_seq.
  pose proof (pat_fits _ Hp) as Hfit. pose proof (pat_period _ Hp) as Hper.
  cbn [assert_that mbind outcome_bind]. rewrite (proj2 (Nat.leb_le 2 n)) by lia. run_ok.
  assert (∀ x, (x < n)%nat → ((λ j, u64 (delta j)) <$> seq (k - n) n) !! x
    = Some (u64 (delta (k - n + x)))) as Hat.
  { intros x Hx. by rewrite list_lookup_fmap, lookup_seq_lt. }
  rewrite !Hat by lia. rewrite !delta_int.
  destruct (pat_delta _ Hp (k - n + (n - 1))) as [H1 _]. destruct (pat_delta _ Hp (k - n + (n - 2))) as [H2 _].
  rewrite (proj2 (Z.eqb_neq _ _) H1), (proj2 (Z.eqb_neq _ _) H2). simpl.
  set (i := ((n - 2) mod p)%nat).
  assert (i < p)%nat as Hi by (apply Nat.mod_upper_bound; lia).
  assert (n - 2 = i + predicted)%nat as Hn2.
  { unfold predicted, i. pose proof (Nat.div_mod (n - 2) p). lia. }
  assert (predicted = p * ((n - 2) / p))%nat as Hpred by done.
  assert (∀ x, ((k - n + (i + x)) mod p = (k - n + (i + x + predicted)) mod p)%nat) as Hmod.
  { intros x. rewrite Hpred. replace (k - n + (i + x + p * ((n - 2) / p)))%nat
      with (k - n + (i + x) + ((n - 2) / p) * p)%nat by lia. by rewrite Nat.Div0.mod_add. }
  assert (1 ≤ (n - 2) / p)%nat as Hdiv by (apply Nat.div_le_lower_bound; lia).
  rewrite (find_pair_at _ _ _ _ i (u64 (delta (k - n + i))) (u64 (delta (k - n + S i)))).
  - rewrite Hl, <-fmap_drop, drop_seq. do 2 f_equal.
    replace (n - (i + 2))%nat with predicted by lia. apply replay_delta; [done|].
    intros j Hj. apply delta_mod.
    replace (k - n + (i + 2) + j)%nat with (k - n + (i + (2 + j)))%nat by lia. rewrite Hmod.
    f_equal. lia.
  - rewrite length_fmap, length_seq. nia.
  - apply Hat. lia.
  - apply Hat. nia.
  - rewrite delta_int. f_equal. apply delta_mod. pose proof (Hmod 0%nat) as Hm.
    rewrite Nat.add_0_r in Hm. rewrite Hm. f_equal. lia.
  - rewrite delta_int. f_equal. apply delta_mod. pose proof (Hmod 1%nat) as Hm.
    replace (S i) with (i + 1)%nat by lia. rewrite Hm. f_equal. lia.
  - intros j x y Hj Hx Hy E1 E2. rewrite Hat in Hx, Hy by nia. injection Hx as <-. injection Hy as <-.
    rewrite !delta_int in E1, E2. replace (k - n + S j)%nat with (S (k - n + j)) in E2 by lia.
    replace (k - n + (n - 1))%nat with (S (k - n + (n - 2))) in E2 by lia.
    pose proof (pat_pairs _ Hp _ _ E1 E2) as Hm. rewrite Hn2 in Hm.
    pose proof (Hmod 0%nat) as Hm0. rewrite !Nat.add_0_r in Hm0. rewrite <-Hm0 in Hm.
    assert (j = i); [|lia]. pose proof (Nat.div_mod (k - n + j) p). pose proof (Nat.div_mod (k - n + i) p).
    destruct (Nat.lt_trichotomy ((k - n + j) / p) ((k - n + i) / p)) as [|[|]]; nia.
Qed.
End Pattern.

(** *** The stream through the table *)

Section Stream.
Context {G R : Type} `{RL : ReplLaws G R} (n p : nat) (A : nat → Z) (pfi : PrefetchInfo).
Context (b msk : Z) (len : nat) (Hp : pattern b msk n p A len) (Hpc : pfi_validPC pfi = true).
Implicit Types st : DCPT G R.

Definition pattern_access (k : nat) : PrefetchInfo := pfi_with_addr pfi (A k).

(** After the [k]-th access. *)
Record tracks st (k : nat) : Prop := {
  tr_wf : dcpt_wf n st;
  tr_bits : deltaBits st = b ∧ deltaMaskBits st = msk;
  tr_entry : ∃ i e, t_found (dcpt_table st) (pfi_pc pfi) i e ∧ ce_valid (w_base e) = true ∧
    lastAddress (w_data e) = A k ∧
    contents (deltas (w_data e)) = last_n n (replicate n 0 ++ ((λ j, u64 (delta A j)) <$> seq 0 k))
}.

Lemma last_n_seq k (f : nat → Z) :
  (n ≤ k)%nat → last_n n (replicate n 0 ++ (f <$> seq 0 k)) = f <$> seq (k - n) n.
Proof.
  intros Hk. unfold last_n. rewrite length_app, length_replicate, length_fmap, length_seq.
  rewrite drop_app_ge, length_replicate by (rewrite length_replicate; lia).
  rewrite <-fmap_drop, drop_seq. f_equal. f_equal; lia.
Qed.

Lemma tracks_step t st k :
  (S k < len)%nat → tracks st k →
  ∃ st' o, dcpt_calculatePrefetch t (pattern_access (S k)) st = Ok (st', o) ∧ tracks st' (S k) ∧
    ((n ≤ S k)%nat → o = (λ j, (u64 (A (S k + j)), 0)) <$> seq 1 (predicted n p)).
Proof using Hp Hpc RL.
  intros Hk [Hwf [Eb Emsk] (i & e & Hf & Hv & Hl & Hc)].
  destruct (dcpt_hit n t (pattern_access (S k)) st i e) as (m & o & st' & Em & Eo & E & Hwf' & Hf' & Hb & Hm);
    [done..|]. simpl in Em, Hf'. rewrite Eb in Em, Hb. rewrite Emsk in Eo, Hm.
  pose proof (Forall_lookup_1 _ _ _ _ (dw_all _ _ Hwf) (proj2 Hf)) as (Hw & Hcap & Hfull).
  rewrite (addAddress_delta _ _ _ _ _ _ Hp k) in Em by done.
  destruct (cq_push_back_spec (deltas (w_data e)) (u64 (delta A k)) Hw) as (q & Eq & Hwq & Hcq & Hq).
  rewrite Eq in Em. injection Em as <-.
  assert (contents q = last_n n (replicate n 0 ++ ((λ j, u64 (delta A j)) <$> seq 0 (S k)))) as Hcont.
  { rewrite Hq, Hcap, bounded_push_last, Hc, last_n_app, seq_S, fmap_app, <-app_assoc; [done| |].
    - pose proof (pat_fits _ _ _ _ _ _ Hp). lia.
    - rewrite contents_length by done. destruct Hw as (_ & _ & ? & _). lia. }
  exists st', o. split_and!; [done| |].
  - refine (Build_tracks _ _ Hwf' (conj Hb Hm) _). eexists i, _. split; [done|]. split; [done|]. split; [done|]. exact Hcont.
  - intros Hn. rewrite (getCandidates_pattern _ _ _ _ _ _ Hp (S k)) in Eo; [by injection Eo|done|done| |done|].
    + pose proof (Forall_lookup_1 _ _ _ _ (dw_all _ _ Hwf') (proj2 Hf')) as (_ & _ & Hfull'). auto.
    + simpl. by rewrite Hcont, last_n_seq.
Qed.

Lemma tracks_run cache times st k :
  tracks st k → (S k + length times ≤ len)%nat →
  ∃ st' os, run_accesses cache (zip times (pattern_access <$> seq (S k) (length times))) st = Ok (st', os) ∧
    dcpt_wf n st' ∧ length os = length times ∧
    ∀ j, (n ≤ S k + j)%nat → (j < length times)%nat →
      os !! j = Some ((λ i, (u64 (A (S k + j + i)), 0)) <$> seq 1 (predicted n p)).
Proof using Hp Hpc RL.
  revert st k. induction times as [|t times IH]; intros st k Ht Hlen.
  { exists st, []. split_and!; [done|apply Ht|done|]. simpl. lia. }
  simpl in Hlen. destruct (tracks_step t st k) as (st1 & o & E1 & H1 & Ho); [lia|done|].
  destruct (IH st1 (S k) H1) as (st2 & os & E2 & H2 & Hl & Hos); [lia|].
  exists st2, (o :: os). split_and!; [|done|simpl; by rewrite Hl|].
  - cbn [length seq]. rewrite fmap_cons. by eapply run_accesses_cons.
  - intros [|j] Hn Hj; simpl.
    + rewrite Ho by lia. do 2 f_equal. by rewrite Nat.add_0_r.
    + simpl in Hj. rewrite Hos by lia. f_equal. apply list_fmap_ext. intros ? i _. do 3 f_equal. lia.
Qed.
End Stream.

(** ** Construction and safety *)

#[export] Instance dcpt_safe {G R : Type} `{RL : ReplLaws G R} : SafePrefetcher (DCPT G R).
Proof.
  refine {| pf_inv := λ st, ∃ n, dcpt_wf n st |}.
  intros t pfi cache st _ [n Hst]. destruct (dcpt_total n t pfi st Hst) as (st' & l & E & Hst' & _). eauto.
Defined.

Lemma dcpt_new_wf {G R : Type} `{RL : ReplLaws G R} b m assoc num sh (n : nat) ix sets (g : G) (st : DCPT G R) :
  (∀ g, is_ok (rp_instantiate (R := R) g)) →
  0 ≤ sh → 0 < assoc < 2 ^ 32 → 0 ≤ num < 2 ^ 32 → num mod assoc = 0 → (2 ≤ n)%nat →
  indexing_new assoc num sh = Ok (ix, sets) →
  dcpt_new b m num assoc n (SetAssociative ix) sets g = Ok st → dcpt_wf n st.
Proof.
  intros Hinst Hsh Ha Hnum Hm Hn Eix E.
  destruct (t_new_fills assoc num sh ix sets (dcpt_entry_new n) g Hinst Hsh Ha Hnum Hm Eix)
    as (T & ET & Hok & _ & He & _).
  unfold dcpt_new in E. rewrite ET in E. injection E as <-.
  split; [done| |done]. simpl. rewrite He. apply Forall_replicate. split_and!; [|done|done].
  apply cq_new_wf. lia.
Qed.

(** ** Theorem *)


(** Twelve-bit deltas, eight of them per entry, four entries in one set. *)
Definition ex_dcpt : DCPT unit LRUReplData :=
  the_result (dcpt_new (R := LRUReplData) 12 0 4 4 8 (SetAssociative (mkIndexing 4 1 0 0 0)) [[None; None; None; None]] tt)
    eq_refl.

Lemma ex_dcpt_wf : dcpt_wf 8 ex_dcpt.
Proof.
  eapply (dcpt_new_wf 12 0 4 4 0 8 (mkIndexing 4 1 0 0 0) [[None; None; None; None]] tt);
    [by intros; eexists|lia..|done|lia|by vm_compute|apply the_result_ok].
Qed.

(** Deltas 8 and 24 in turn. *)
Definition ex_walk (k : nat) : Z := 0x1000 + 16 * Z.of_nat k - 8 * Z.of_nat (k mod 2).

Lemma ex_walk_delta k : delta ex_walk k = if (k mod 2 =? 0)%nat then 8 else 24.
Proof.
  unfold delta, ex_walk. pose proof (Nat.mod_upper_bound k 2 ltac:(lia)).
  replace (S k mod 2)%nat with (1 - k mod 2)%nat.
  - destruct (Nat.eqb_spec (k mod 2) 0) as [->|]; [simpl; lia|].
    replace (k mod 2)%nat with 1%nat by lia. simpl. lia.
  - pose proof (Nat.div_mod k 2). pose proof (Nat.div_mod (S k) 2).
    pose proof (Nat.mod_upper_bound (S k) 2). lia.
Qed.

Lemma ex_walk_pattern : pattern 12 0 8 2 ex_walk 12.
Proof.
  split; [lia..| | | |].
  - intros k Hk. unfold in_u, ex_walk. pose proof (Nat.mod_upper_bound k 2). lia.
  - intros k. rewrite ex_walk_delta. by destruct (_ =? _)%nat.
  - intros k. rewrite !ex_walk_delta. by replace ((k + 2) mod 2)%nat with (k mod 2)%nat
      by (by rewrite <-(Nat.Div0.mod_add k 1 2)).
  - intros i j E _. rewrite !ex_walk_delta in E. pose proof (Nat.mod_upper_bound i 2 ltac:(lia)).
    pose proof (Nat.mod_upper_bound j 2 ltac:(lia)).
    destruct (Nat.eqb_spec (i mod 2) 0), (Nat.eqb_spec (j mod 2) 0); try done; lia.
Qed.

Definition ex_pfi : PrefetchInfo := mkPfi 0 0x400 1 true false 8 false 0 true None.
Definition ex_times : list Z := [1; 2; 3; 4; 5; 6; 7; 8; 9; 10; 11; 12].

Lemma ex_dcpt_pattern :
  pattern (deltaBits ex_dcpt) (deltaMaskBits ex_dcpt) 8 2 ex_walk (length ex_times).
Proof.
  assert (deltaBits ex_dcpt = 12) as -> by by vm_compute.
  assert (deltaMaskBits ex_dcpt = 0) as -> by by vm_compute. exact ex_walk_pattern.
Qed.

