(* ===== verification/AMPM.v ===== *)
(** * Access-map pattern matching

    [src/src/mem/cache/prefetch/access_map_pattern_matching.{hh,cc}] and, on top of it and of
    the delta-correlating tables, [slim_ampm.{hh,cc}].  Memory is divided into hot zones; a
    table maps a zone to the states of its lines.  An access looks for a stride at which
    earlier lines, two apart, were accessed, over the zone and its two neighbours.  At the
    end of an epoch the number of candidates per access is adjusted to the prefetcher's
    success and to the memory bandwidth.

    The theorems are that the search over the joined copies of three zones is the search
    over absolute line numbers, and that a degree of zero, which the epoch computes when
    there is little traffic, lifts the limit instead of switching the prefetcher off. *)

From Stdlib Require Import ZArith QArith Lia SpecFloat.
From stdpp Require Import base numbers option list strings.
From S2P Require Import Prelude Double IntMath Clocked PrefetchBase PrefetchQueue Children.
From S2P Require Import Replacement Indexing AssocCache Tables CircularQueue DCPT.
#[local] Open Scope Z_scope.

Inductive AccessMapState := AM_INIT | AM_PREFETCH | AM_ACCESS | AM_INVALID.

#[export] Instance AccessMapState_eq_dec : EqDecision AccessMapState.
Proof. solve_decision. Defined.

(** [for (auto &entry : states) entry = AM_INIT]. *)
#[export] Instance states_reset : Reset (list AccessMapState) := λ l, replicate (length l) AM_INIT.

Abbreviation AccessMapEntry := (With TaggedEntry (list AccessMapState)).

Definition am_entry_new (num_entries : nat) : AccessMapEntry := mkWith te_new (replicate num_entries AM_INIT).

Record AMPMCfg := mkAMCfg {
  am_blkSize : Z;
  limitStride : Z;
  startDegree : Z;
  hotZoneSize : Z;
  highCoverageThreshold : double;
  lowCoverageThreshold : double;
  highAccuracyThreshold : double;
  lowAccuracyThreshold : double;
  highCacheHitThreshold : double;
  lowCacheHitThreshold : double;
  epochCycles : Z;
  offChipMemoryLatency : Z;
  am_clockPeriod : Z
}.

Record AMStats := mkAMStats {
  numGoodPrefetches : Z;
  numTotalPrefetches : Z;
  numRawCacheMisses : Z;
  numRawCacheHits : Z
}.

Record AMPM (G R : Type) := mkAMPM {
  am_cfg : AMPMCfg;
  accessMapTable : Tbl TaggedKey AccessMapEntry G R;
  am_stats : AMStats;
  am_degree : Z;
  usefulDegree : Z;
  am_clock : Clocked;
  epochEvent : option Z
}.
Arguments mkAMPM {G R} _ _ _ _ _ _ _.
Arguments am_cfg {G R} _.
Arguments accessMapTable {G R} _.
Arguments am_stats {G R} _.
Arguments am_degree {G R} _.
Arguments usefulDegree {G R} _.
Arguments am_clock {G R} _.
Arguments epochEvent {G R} _.

(** [(unsigned) x]; a value outside the range of [unsigned] is undefined and rendered by
    wrap-around. *)
Definition d_to_unsigned (x : double) : Z := u32 (d_trunc x).

Section AMPM.
Context {G R : Type} `{ReplPolicy G R}.
Implicit Types T : Tbl TaggedKey AccessMapEntry G R.

(** *** The epoch *)

Definition schedule_epoch (curTick : Z) (st : AMPM G R) : outcome (AMPM G R) :=
  let '(w, c) := clockEdge (am_clockPeriod (am_cfg st)) curTick (epochCycles (am_cfg st)) (am_clock st) in
  _ ← assert_that (curTick <=? w) "when >= getCurTick()";
  _ ← assert_that (negb (bool_decide (is_Some (epochEvent st)))) "!event->scheduled()";
  Ok (mkAMPM (am_cfg st) (accessMapTable st) (am_stats st) (am_degree st) (usefulDegree st) c (Some w)).

Definition am_startup (curTick : Z) (st : AMPM G R) : outcome (AMPM G R) := schedule_epoch curTick st.

(** The useful degree after the epoch. *)
Definition adjust_degree (cfg : AMPMCfg) (s : AMStats) (useful : Z) : Z :=
  let prefetch_accuracy := ddiv (d_of_Z (numGoodPrefetches s)) (d_of_Z (numTotalPrefetches s)) in
  let prefetch_coverage := ddiv (d_of_Z (numGoodPrefetches s)) (d_of_Z (numRawCacheMisses s)) in
  let cache_hit_ratio := ddiv (d_of_Z (numRawCacheHits s))
                              (d_of_Z (u64 (numRawCacheHits s + numRawCacheMisses s))) in
  if dgtb prefetch_coverage (highCoverageThreshold cfg)
     && (dgtb prefetch_accuracy (highAccuracyThreshold cfg)
         || dltb cache_hit_ratio (lowCacheHitThreshold cfg))
  then u32 (useful + 1)
  else if (dltb prefetch_coverage (lowCoverageThreshold cfg)
           && (dltb prefetch_accuracy (lowAccuracyThreshold cfg)
               || dgtb cache_hit_ratio (highCacheHitThreshold cfg)))
          || (dltb prefetch_accuracy (lowAccuracyThreshold cfg)
              && dgtb cache_hit_ratio (highCacheHitThreshold cfg))
  then u32 (useful - 1)
  else useful.

Definition memory_bandwidth (cfg : AMPMCfg) (s : AMStats) : double :=
  let num_requests := d_of_Z (u64 (u64 (numRawCacheMisses s - numGoodPrefetches s)
                                   + numTotalPrefetches s)) in
  ddiv (dmul num_requests (d_of_Z (offChipMemoryLatency cfg)))
       (d_of_Z (cyclesToTicks (am_clockPeriod cfg) (epochCycles cfg))).

(** [processEpochEvent], as the callback of the event at [curTick]. *)
Definition processEpochEvent (curTick : Z) (st : AMPM G R) : outcome (AMPM G R) :=
  st ← schedule_epoch curTick
         (mkAMPM (am_cfg st) (accessMapTable st) (am_stats st) (am_degree st) (usefulDegree st)
            (am_clock st) None);
  let useful := adjust_degree (am_cfg st) (am_stats st) (usefulDegree st) in
  let degree := Z.min (d_to_unsigned (memory_bandwidth (am_cfg st) (am_stats st))) useful in
  Ok (mkAMPM (am_cfg st) (accessMapTable st) (mkAMStats 0 0 0 0) degree useful (am_clock st)
        (epochEvent st)).

(** *** The access map *)

Definition getAccessMapEntry (curTick : Z) T (am_addr : Z) (is_secure : bool)
    : outcome (nat * Tbl TaggedKey AccessMapEntry G R) :=
  t_find_or_insert curTick T (mkKey am_addr is_secure).

Definition count_transition (old new : AccessMapState) (s : AMStats) : outcome AMStats :=
  match new with
  | AM_INIT => Ok s
  | _ =>
    match old, new with
    | AM_INIT, AM_PREFETCH =>
        Ok (mkAMStats (numGoodPrefetches s) (u64 (numTotalPrefetches s + 1)) (numRawCacheMisses s)
              (numRawCacheHits s))
    | AM_INIT, AM_ACCESS =>
        Ok (mkAMStats (numGoodPrefetches s) (numTotalPrefetches s) (u64 (numRawCacheMisses s + 1))
              (numRawCacheHits s))
    | AM_PREFETCH, AM_ACCESS =>
        Ok (mkAMStats (u64 (numGoodPrefetches s + 1)) (numTotalPrefetches s)
              (u64 (numRawCacheMisses s + 1)) (numRawCacheHits s))
    | AM_ACCESS, AM_ACCESS =>
        Ok (mkAMStats (numGoodPrefetches s) (numTotalPrefetches s) (numRawCacheMisses s)
              (u64 (numRawCacheHits s + 1)))
    | AM_INVALID, _ => Stop (Panic "Impossible path")
    | _, _ => Ok s
    end
  end.

(** [entry.states[block]], a vector access. *)
Definition state_at (states : list AccessMapState) (block : Z) : outcome AccessMapState :=
  match states !! Z.to_nat block with
  | Some x => Ok x
  | None => Stop (Panic "index out of range")
  end.

Definition setEntryState T (i : nat) (block : Z) (state : AccessMapState) (s : AMStats)
    : outcome (Tbl TaggedKey AccessMapEntry G R * AMStats) :=
  e ← t_get T i;
  old ← state_at (w_data e) block;
  let T := t_put T i (mkWith (w_base e) (<[Z.to_nat block := state]> (w_data e))) in
  s ← count_transition old state s;
  Ok (T, s).

Definition checkCandidate (states : list AccessMapState) (current stride : Z) : outcome bool :=
  tgt ← state_at states (u64 (current - stride));
  s ← state_at states (u64 (current + stride));
  s2 ← state_at states (u64 (current + 2 * stride));
  s2_p1 ← state_at states (u64 (u64 (current + 2 * stride) + 1));
  Ok (bool_decide (tgt ≠ AM_INVALID) &&
      ((bool_decide (s = AM_ACCESS) && bool_decide (s2 = AM_ACCESS)) ||
       (bool_decide (s = AM_ACCESS) && bool_decide (s2_p1 = AM_ACCESS)))).

(** The states of the three zones side by side; [AM_INVALID] where there is no zone. *)
Definition zone_states T (p : option nat) (lines : Z) : outcome (list AccessMapState) :=
  match p with
  | None => Ok (replicate (Z.to_nat lines) AM_INVALID)
  | Some i => e ← t_get T i; Ok (take (Z.to_nat lines) (w_data e))
  end.

(** What the search needs of the access: its zone, its line in the zone, the pointers to
    the entries of the zones around it. *)
Record AMAccess := mkAMAccess {
  aa_zone : Z;
  aa_block : Z;
  aa_curr : nat;
  aa_prev : option nat;
  aa_next : option nat
}.

(** Marking a line of a zone as prefetched and proposing its address. *)
Definition propose (cfg : AMPMCfg) (p : option nat) (zone blk : Z)
    (a : Tbl TaggedKey AccessMapEntry G R * AMStats * list AddrPriority)
    : outcome (Tbl TaggedKey AccessMapEntry G R * AMStats * list AddrPriority) :=
  let '(T, s, addresses) := a in
  match p with
  | None => Stop (Panic "null entry")
  | Some i =>
      '(T, s) ← setEntryState T i blk AM_PREFETCH s;
      let pf_addr := u64 (u64 (zone * hotZoneSize cfg) + u64 (blk * am_blkSize cfg)) in
      Ok (T, s, addresses ++ [(pf_addr, 0)])
  end.

(** The loop over the strides; the first half of a round tests a positive stride and
    proposes the line before the access, the second half a negative one. *)
Fixpoint search (cfg : AMPMCfg) (degree lines : Z) (states : list AccessMapState) (x : AMAccess)
    (strides : list Z) (a : Tbl TaggedKey AccessMapEntry G R * AMStats * list AddrPriority)
    : outcome (Tbl TaggedKey AccessMapEntry G R * AMStats * list AddrPriority) :=
  match strides with
  | [] => Ok a
  | stride :: strides =>
      let current := u64 (aa_block x + lines) in
      let full a := Z.of_nat (length (snd a)) =? degree in
      pos ← checkCandidate states current stride;
      a ← (if pos then
             if aa_block x <? stride
             then propose cfg (aa_prev x) (u64 (aa_zone x - 1)) (u64 (current - stride)) a
             else propose cfg (Some (aa_curr x)) (aa_zone x) (u64 (aa_block x - stride)) a
           else Ok a);
      if pos && full a then Ok a else
      neg ← checkCandidate states current (- stride);
      a ← (if neg then
             if lines <=? u64 (aa_block x + stride)
             then propose cfg (aa_next x) (u64 (aa_zone x + 1)) (u64 (current + stride) mod lines) a
             else propose cfg (Some (aa_curr x)) (aa_zone x) (u64 (aa_block x + stride)) a
           else Ok a);
      if neg && full a then Ok a else search cfg degree lines states x strides a
  end.

(** The entries of the zone of the access, of the zone before and of the one after. *)
Definition getZones (curTick : Z) T (am_addr last_zone : Z) (sec : bool)
    : outcome (nat * option nat * option nat * Tbl TaggedKey AccessMapEntry G R) :=
  '(curr, T) ← getAccessMapEntry curTick T am_addr sec;
  '(prev, T) ← (if 0 <? am_addr
                then '(i, T) ← getAccessMapEntry curTick T (am_addr - 1) sec; Ok (Some i, T)
                else Ok (None, T));
  '(next, T) ← (if am_addr <? last_zone
                then '(i, T) ← getAccessMapEntry curTick T (am_addr + 1) sec; Ok (Some i, T)
                else Ok (None, T));
  Ok (curr, prev, next, T).

Definition max_stride (cfg : AMPMCfg) (lines : Z) : Z :=
  if limitStride cfg =? 0 then i32 (lines / 2) else i32 (u32 (limitStride cfg + 1)).

Definition ampm_calculatePrefetch (curTick : Z) (pfi : PrefetchInfo) (st : AMPM G R)
    : outcome (AMPM G R * list AddrPriority) :=
  let cfg := am_cfg st in
  let sec := pfi_secure pfi in
  let am_addr := pfi_address pfi / hotZoneSize cfg in
  let current_block := pfi_address pfi mod hotZoneSize cfg / am_blkSize cfg in
  let lines := hotZoneSize cfg / am_blkSize cfg in
  '(curr, prev, next, T) ← getZones curTick (accessMapTable st) am_addr (MaxAddr / hotZoneSize cfg) sec;
  _ ← assert_that (bool_decide (Some curr ≠ prev)) "am_entry_curr != am_entry_prev";
  _ ← assert_that (bool_decide (Some curr ≠ next)) "am_entry_curr != am_entry_next";
  _ ← assert_that (bool_decide (prev ≠ next)) "am_entry_prev != am_entry_next";
  '(T, s) ← setEntryState T curr current_block AM_ACCESS (am_stats st);
  sp ← zone_states T prev lines;
  sc ← zone_states T (Some curr) lines;
  sn ← zone_states T next lines;
  '(T, s, addresses) ← search cfg (am_degree st) lines (sp ++ sc ++ sn)
                         (mkAMAccess am_addr current_block curr prev next)
                         (seqZ 1 (max_stride cfg lines - 1)) (T, s, []);
  Ok (mkAMPM cfg T s (am_degree st) (usefulDegree st) (am_clock st) (epochEvent st), addresses).

#[export] Instance ampm_prefetcher : CalculatePrefetch (AMPM G R) :=
  λ curTick pfi _ st, ampm_calculatePrefetch curTick pfi st.

Definition ampm_new (cfg : AMPMCfg) (table_entries table_assoc : Z) (ip : IndexingPolicy TaggedKey)
    (sets : list (list ref)) (g : G) : outcome (AMPM G R) :=
  _ ← panic_if (am_blkSize cfg =? 0) "division by zero";
  T ← t_new ip table_entries table_assoc (am_entry_new (Z.to_nat (hotZoneSize cfg / am_blkSize cfg))) sets g;
  _ ← fatal_if (negb (isPowerOf2 (hotZoneSize cfg))) "the hot zone size must be a power of 2";
  Ok (mkAMPM cfg T (mkAMStats 0 0 0 0) (startDegree cfg) (startDegree cfg) clocked_new None).
End AMPM.

(** ** Facts *)

Section Search.
Context {G R : Type} `{RL : ReplLaws G R}.
Implicit Types T : Tbl TaggedKey AccessMapEntry G R.

(** The state of line [b] of entry [i], and writing it. *)
Definition st_of T (i b : nat) : option AccessMapState := t_entries T !! i ≫= λ e, w_data e !! b.

Definition put_state (v : AccessMapState) T (ib : nat * nat) : Tbl TaggedKey AccessMapEntry G R :=
  match t_entries T !! ib.1 with
  | Some e => t_put T ib.1 (mkWith (w_base e) (<[ib.2 := v]> (w_data e)))
  | None => T
  end.

Lemma put_state_upd v T ib : t_upd ib.1 T (put_state v T ib).
Proof.
  unfold put_state. destruct (t_entries T !! ib.1) as [e|]; [apply t_put_upd|done].
Qed.

Lemma put_state_st v T i b j c :
  st_of (put_state v T (i, b)) j c
  = if decide (i = j ∧ b = c) then (λ _, v) <$> st_of T j c else st_of T j c.
Proof.
  unfold st_of, put_state. simpl. destruct (t_entries T !! i) as [e|] eqn:Ee.
  2: { destruct (decide _) as [[<- _]|]; [by rewrite Ee|done]. }
  rewrite t_put_entries. destruct (decide (i = j)) as [<-|Hij].
  - rewrite list_lookup_insert_eq by by eapply lookup_lt_Some. rewrite Ee. simpl.
    destruct (decide (b = c)) as [<-|Hbc].
    + rewrite decide_True by done. destruct (w_data e !! b) as [o|] eqn:Eo; simpl.
      * apply list_lookup_insert_eq. by eapply lookup_lt_Some.
      * apply lookup_ge_None. rewrite length_insert. by apply lookup_ge_None.
    + rewrite list_lookup_insert_ne, decide_False by (done || tauto). done.
  - rewrite list_lookup_insert_ne, decide_False by (done || tauto). done.
Qed.

Lemma put_state_find v T ib key : t_ok T → t_findEntry (put_state v T ib) key = t_findEntry T key.
Proof.
  intros Hok. unfold put_state. destruct (t_entries T !! ib.1) as [e|] eqn:Ee; [|done].
  by apply (t_put_find T key ib.1 e).
Qed.

(** The entries have one state per line, none of them invalid. *)
Definition map_ok (lines : Z) (l : list AccessMapState) : Prop :=
  Z.of_nat (length l) = lines ∧ AM_INVALID ∉ l.

Lemma map_ok_insert lines l b v : map_ok lines l → v ≠ AM_INVALID → map_ok lines (<[b := v]> l).
Proof.
  intros [Hl Hn] Hv. split; [by rewrite length_insert|]. intros Hin.
  apply list_elem_of_lookup in Hin as [j Hj]. apply list_lookup_insert_Some in Hj as [(_ & E & _)|[_ Hj]].
  - congruence.
  - apply Hn. by eapply list_elem_of_lookup_2.
Qed.

Lemma put_state_all lines v T ib :
  v ≠ AM_INVALID → t_all (map_ok lines) T → t_all (map_ok lines) (put_state v T ib).
Proof.
  intros Hv Ha. unfold put_state. destruct (t_entries T !! ib.1) as [e|] eqn:Ee; [|done].
  apply t_all_put; [done|]. simpl. apply map_ok_insert; [by eapply t_all_at|done].
Qed.

Lemma count_ok old new s :
  old ≠ AM_INVALID → ∃ s', count_transition old new s = Ok s'.
Proof. destruct old, new; simpl; eauto; done. Qed.

Lemma setEntryState_ok T i b v s old :
  st_of T i (Z.to_nat b) = Some old → old ≠ AM_INVALID →
  ∃ s', setEntryState T i b v s = Ok (put_state v T (i, Z.to_nat b), s').
Proof.
  unfold st_of, setEntryState, put_state. simpl.
  destruct (t_entries T !! i) as [e|] eqn:Ee; [|done]. simpl. intros Ho Hold.
  rewrite (t_get_ok _ _ _ Ee). run_ok. unfold state_at. rewrite Ho. run_ok.
  destruct (count_ok old v s Hold) as [s' ->]. run_ok. eauto.
Qed.

(** *** The search *)

Context (cfg : AMPMCfg) (degree lines : Z) (states : list AccessMapState) (x : AMAccess).

(** The state of the line at distance [d] from the access, in the joined copy. *)
Definition near (d : Z) : AccessMapState := default AM_INVALID (states !! Z.to_nat (aa_block x + lines + d)).

(** Lines at distances [d] and [2d], or [2d + 1], were accessed, and line [-d] exists. *)
Definition good (M : Z → AccessMapState) (d : Z) : bool :=
  bool_decide (M (- d) ≠ AM_INVALID) && bool_decide (M d = AM_ACCESS)
  && (bool_decide (M (2 * d) = AM_ACCESS) || bool_decide (M (2 * d + 1) = AM_ACCESS)).

(** The distances of the candidates, in the order of the strides. *)
Definition targets (M : Z → AccessMapState) (strides : list Z) : list Z :=
  flat_map (λ d, (if good M d then [- d] else []) ++ (if good M (- d) then [d] else [])) strides.

(** What is left of the degree; a degree of zero does not limit. *)
Definition limit_from (n : nat) (l : list Z) : list Z :=
  if degree =? 0 then l else take (Z.to_nat degree - n) l.

(** Zone, entry and line of the line at distance [d]. *)
Definition line_zone (d : Z) : Z :=
  if aa_block x + d <? 0 then aa_zone x - 1 else if lines <=? aa_block x + d then aa_zone x + 1 else aa_zone x.
Definition line_entry (d : Z) : option nat :=
  if aa_block x + d <? 0 then aa_prev x else if lines <=? aa_block x + d then aa_next x else Some (aa_curr x).
Definition line_off (d : Z) : Z := (aa_block x + d) mod lines.

Definition line_addr (d : Z) : AddrPriority :=
  (u64 (u64 (line_zone d * hotZoneSize cfg) + u64 (line_off d * am_blkSize cfg)), 0).

Definition mark T (d : Z) : Tbl TaggedKey AccessMapEntry G R :=
  match line_entry d with
  | Some i => put_state AM_PREFETCH T (i, Z.to_nat (line_off d))
  | None => T
  end.

(** The lines of the joined copy that are not invalid are lines of entries. *)
Definition backed T : Prop :=
  ∀ d, - lines < d < lines → near d ≠ AM_INVALID →
    ∃ i old, line_entry d = Some i ∧ st_of T i (Z.to_nat (line_off d)) = Some old ∧ old ≠ AM_INVALID.

Lemma targets_in M strides d :
  d ∈ targets M strides → ∃ a, a ∈ strides ∧ Z.abs d = Z.abs a ∧ good M (- d) = true.
Proof.
  unfold targets. rewrite list_elem_of_In, in_flat_map. intros (a & Ha & Hd).
  exists a. split; [by apply list_elem_of_In|]. rewrite in_app_iff in Hd. destruct Hd as [Hd|Hd].
  - destruct (good M a) eqn:E; [|done]. destruct Hd as [<-|[]]. rewrite Z.opp_involutive. split; [lia|done].
  - destruct (good M (- a)) eqn:E; [|done]. by destruct Hd as [<-|[]].
Qed.

Lemma limit_in n l d : d ∈ limit_from n l → d ∈ l.
Proof. unfold limit_from. destruct (degree =? 0); [done|]. intros Hd. apply (subseteq_take (Z.to_nat degree - n)). done. Qed.

Lemma mark_st T d i c :
  st_of (mark T d) i c
  = if bool_decide (line_entry d = Some i ∧ Z.to_nat (line_off d) = c)
    then (λ _, AM_PREFETCH) <$> st_of T i c else st_of T i c.
Proof.
  unfold mark. destruct (line_entry d) as [j|]; [|by rewrite bool_decide_false by (by intros [? _])].
  rewrite put_state_st. destruct (decide _) as [[-> ->]|Hn].
  - by rewrite bool_decide_true.
  - rewrite bool_decide_false; [done|]. intros [[= ->] ?]. tauto.
Qed.

Lemma marks_st T out i c :
  st_of (foldl mark T out) i c
  = if existsb (λ d, bool_decide (line_entry d = Some i ∧ Z.to_nat (line_off d) = c)) out
    then (λ _, AM_PREFETCH) <$> st_of T i c else st_of T i c.
Proof.
  revert T. induction out as [|d out IH]; intros T; [done|]. cbn [foldl existsb]. rewrite IH, mark_st.
  destruct (bool_decide _), (existsb _ _), (st_of T i c); done.
Qed.

Lemma backed_mark T d : backed T → backed (mark T d).
Proof.
  intros Hb d' Hd' Hn. destruct (Hb d' Hd' Hn) as (i & old & Ei & Eo & Ho).
  exists i. rewrite mark_st, Eo. destruct (bool_decide _); [|eauto]. by exists AM_PREFETCH.
Qed.

Context (Hlen : Z.of_nat (length states) = 3 * lines) (Hlines : 0 < lines < 2 ^ 31).
Context (Hblock : 0 ≤ aa_block x < lines) (Hdeg : 0 ≤ degree).

Lemma state_at_near d :
  0 ≤ aa_block x + lines + d < 3 * lines →
  state_at states (u64 (u64 (aa_block x + lines) + d)) = Ok (near d).
Proof.
  intros Hd. autorewrite with word. rewrite wrap_id by in_word. unfold state_at, near.
  destruct (lookup_lt_is_Some_2 states (Z.to_nat (aa_block x + lines + d))) as [v Hv]; [lia|].
  by rewrite Hv.
Qed.

Lemma checkCandidate_good d :
  d ≠ 0 → 2 * Z.abs d + 1 < lines → checkCandidate states (u64 (aa_block x + lines)) d = Ok (good near d).
Proof.
  intros Hnz Hd. unfold checkCandidate.
  replace (u64 (aa_block x + lines) - d) with (u64 (aa_block x + lines) + - d) by lia.
  assert (u64 (u64 (u64 (aa_block x + lines) + 2 * d) + 1)
    = u64 (u64 (aa_block x + lines) + (2 * d + 1))) as ->.
  { word_eq. }
  rewrite !state_at_near by lia. run_ok. f_equal. unfold good.
  destruct (bool_decide _), (bool_decide _), (bool_decide _), (bool_decide _); done.
Qed.

Lemma propose_line d z b T s acc :
  - lines < d < lines → near d ≠ AM_INVALID → backed T →
  u64 (z * hotZoneSize cfg) = u64 (line_zone d * hotZoneSize cfg) → b = line_off d →
  ∃ s', propose cfg (line_entry d) z b (T, s, acc) = Ok (mark T d, s', acc ++ [line_addr d]).
Proof.
  intros Hd Hn Hb Hz ->. destruct (Hb d Hd Hn) as (i & old & Ei & Eo & Ho).
  unfold propose, mark, line_addr. rewrite Ei, <-Hz.
  destruct (setEntryState_ok T i (line_off d) AM_PREFETCH s old Eo Ho) as [s' ->]. run_ok. eauto.
Qed.

(** The two halves of a round. *)
Lemma propose_before d T s acc :
  1 ≤ d < lines → good near d = true → backed T →
  ∃ s', (if aa_block x <? d
         then propose cfg (aa_prev x) (u64 (aa_zone x - 1)) (u64 (u64 (aa_block x + lines) - d)) (T, s, acc)
         else propose cfg (Some (aa_curr x)) (aa_zone x) (u64 (aa_block x - d)) (T, s, acc))
        = Ok (mark T (- d), s', acc ++ [line_addr (- d)]).
Proof using Hlen Hlines Hblock.
  intros Hd Hg Hb. unfold good in Hg. rewrite !andb_true_iff, bool_decide_eq_true in Hg.
  destruct Hg as [[Hn _] _]. destruct (Z.ltb_spec (aa_block x) d).
  - assert (line_entry (- d) = aa_prev x) as <-.
    { unfold line_entry. by rewrite (proj2 (Z.ltb_lt _ _)) by lia. }
    apply propose_line; [lia|done|done| |].
    + unfold line_zone. rewrite (proj2 (Z.ltb_lt _ _)) by lia. word_eq.
    + autorewrite with word. unfold line_off. rewrite wrap_id by in_word.
      apply (Z.mod_unique _ _ (-1)); lia.
  - assert (line_entry (- d) = Some (aa_curr x)) as <-.
    { unfold line_entry. rewrite (proj2 (Z.ltb_ge _ _)), (proj2 (Z.leb_gt _ _)) by lia. done. }
    apply propose_line; [lia|done|done| |].
    + unfold line_zone. rewrite (proj2 (Z.ltb_ge _ _)), (proj2 (Z.leb_gt _ _)) by lia. done.
    + unfold line_off. rewrite wrap_id, Z.mod_small by (in_word || lia). lia.
Qed.

Lemma propose_after d T s acc :
  1 ≤ d < lines → good near (- d) = true → backed T →
  ∃ s', (if lines <=? u64 (aa_block x + d)
         then propose cfg (aa_next x) (u64 (aa_zone x + 1)) (u64 (u64 (aa_block x + lines) + d) mod lines) (T, s, acc)
         else propose cfg (Some (aa_curr x)) (aa_zone x) (u64 (aa_block x + d)) (T, s, acc))
        = Ok (mark T d, s', acc ++ [line_addr d]).
Proof using Hlen Hlines Hblock.
  intros Hd Hg Hb. unfold good in Hg. rewrite Z.opp_involutive, !andb_true_iff, bool_decide_eq_true in Hg.
  destruct Hg as [[Hn _] _]. rewrite (wrap_id 64 (aa_block x + d)) by in_word.
  destruct (Z.leb_spec lines (aa_block x + d)).
  - assert (line_entry d = aa_next x) as <-.
    { unfold line_entry. by rewrite (proj2 (Z.ltb_ge _ _)), (proj2 (Z.leb_le _ _)) by lia. }
    apply propose_line; [lia|done|done| |].
    + unfold line_zone. rewrite (proj2 (Z.ltb_ge _ _)), (proj2 (Z.leb_le _ _)) by lia. word_eq.
    + autorewrite with word. unfold line_off. rewrite wrap_id by in_word.
      replace (aa_block x + lines + d) with (aa_block x + d + 1 * lines) by lia. apply Z.mod_add. lia.
  - assert (line_entry d = Some (aa_curr x)) as <-.
    { unfold line_entry. rewrite (proj2 (Z.ltb_ge _ _)), (proj2 (Z.leb_gt _ _)) by lia. done. }
    apply propose_line; [lia|done|done| |].
    + unfold line_zone. rewrite (proj2 (Z.ltb_ge _ _)), (proj2 (Z.leb_gt _ _)) by lia. done.
    + unfold line_off. by rewrite Z.mod_small by lia.
Qed.

(** Taking one more candidate. *)
Lemma limit_cons n d l : (degree = 0 ∨ Z.of_nat n < degree) → limit_from n (d :: l) = d :: limit_from (S n) l.
Proof.
  intros Hn. unfold limit_from. destruct (Z.eqb_spec degree 0); [done|].
  replace (Z.to_nat degree - n)%nat with (S (Z.to_nat degree - S n)) by lia. done.
Qed.

Lemma limit_full n l : degree ≠ 0 → Z.of_nat n = degree → limit_from n l = [].
Proof.
  intros H0 Hn. unfold limit_from. destruct (Z.eqb_spec degree 0); [done|].
  by replace (Z.to_nat degree - n)%nat with 0%nat by lia.
Qed.

Lemma search_spec strides T s acc :
  (degree = 0 ∨ Z.of_nat (length acc) < degree) →
  Forall (λ d, 1 ≤ d ∧ 2 * d + 1 < lines) strides → backed T →
  let out := limit_from (length acc) (targets near strides) in
  ∃ s', search cfg degree lines states x strides (T, s, acc)
        = Ok (foldl mark T out, s', acc ++ (line_addr <$> out)).
Proof using Hlen Hlines Hblock Hdeg.
  intros Hacc Hs. revert T s acc Hacc. induction Hs as [|d strides [Hd1 Hd2] _ IH]; intros T s acc Hacc Hb out.
  { exists s. unfold out, limit_from. simpl. destruct (degree =? 0); [|rewrite take_nil]; simpl; by rewrite app_nil_r. }
  subst out. cbn [search targets flat_map]. rewrite (checkCandidate_good d) by lia. run_ok.
  fold (targets near strides). rewrite <-app_assoc.
  assert (∀ T s acc, backed T → (degree = 0 ∨ Z.of_nat (length acc) < degree) →
    ∃ s', (neg ← checkCandidate states (u64 (aa_block x + lines)) (- d);
           a ← (if neg : bool then
             if lines <=? u64 (aa_block x + d)
             then propose cfg (aa_next x) (u64 (aa_zone x + 1)) (u64 (u64 (aa_block x + lines) + d) mod lines) (T, s, acc)
             else propose cfg (Some (aa_curr x)) (aa_zone x) (u64 (aa_block x + d)) (T, s, acc)
           else Ok (T, s, acc));
           if neg && (Z.of_nat (length a.2) =? degree) then Ok a
           else search cfg degree lines states x strides a)
    = Ok (foldl mark T (limit_from (length acc) ((if good near (- d) then [d] else []) ++ targets near strides)), s',
          acc ++ (line_addr <$> limit_from (length acc) ((if good near (- d) then [d] else []) ++ targets near strides))))
    as Hneg.
  { clear T s acc Hacc Hb. intros T s acc Hb Hacc. rewrite checkCandidate_good by lia. run_ok.
    destruct (good near (- d)) eqn:Eg; [|by apply IH].
    destruct (propose_after d T s acc ltac:(lia) Eg Hb) as [s1 ->]. run_ok. simpl app. cbn [snd andb].
    rewrite limit_cons by done. rewrite length_app. simpl. rewrite Nat.add_1_r.
    destruct (Z.eqb_spec (Z.of_nat (S (length acc))) degree) as [Ef|Ef].
    - exists s1. rewrite limit_full by lia. done.
    - destruct (IH (mark T d) s1 (acc ++ [line_addr d])) as [s' ->];
        [rewrite length_app; simpl; lia|by apply backed_mark|].
      exists s'. rewrite length_app. simpl. by rewrite Nat.add_1_r, <-app_assoc. }
  destruct (good near d) eqn:Eg; [|by apply Hneg].
  destruct (propose_before d T s acc ltac:(lia) Eg Hb) as [s1 ->]. run_ok. cbn [snd andb app].
  rewrite limit_cons by done. rewrite length_app. cbn [length]. rewrite Nat.add_1_r.
  destruct (Z.eqb_spec (Z.of_nat (S (length acc))) degree) as [Ef|Ef].
  - exists s1. rewrite limit_full by lia. done.
  - destruct (Hneg (mark T (- d)) s1 (acc ++ [line_addr (- d)])) as [s' ->];
      [by apply backed_mark|rewrite length_app; simpl; lia|].
    exists s'. rewrite length_app. simpl. by rewrite Nat.add_1_r, <-app_assoc.
Qed.
End Search.

(** *** The prefetcher's invariant *)

Definition am_lines (cfg : AMPMCfg) : Z := hotZoneSize cfg / am_blkSize cfg.

(** Block and zone sizes that divide the address space, and strides that stay within the
    three zones. *)
Record am_cfg_ok (cfg : AMPMCfg) : Prop := {
  ac_blk : 0 < am_blkSize cfg < 2 ^ 32;
  ac_zone : hotZoneSize cfg = am_lines cfg * am_blkSize cfg;
  ac_lines : 0 < am_lines cfg < 2 ^ 31;
  ac_space : (hotZoneSize cfg | 2 ^ 64);
  ac_limit : limitStride cfg = 0 ∨ 0 < limitStride cfg ∧ 2 * (limitStride cfg + 1) ≤ am_lines cfg
}.

Section Wf.
Context {G R : Type} `{RL : ReplLaws G R}.
Implicit Types T : Tbl TaggedKey AccessMapEntry G R.
Implicit Types st : AMPM G R.

(** Zones that are next to each other, or next but one, never share entries. *)
Definition apart T : Prop := ∀ a b sec i,
  0 < Z.abs (a - b) ≤ 2 → i ∈ t_cands T (mkKey a sec) → i ∉ t_cands T (mkKey b sec).

Record am_table_ok (lines : Z) T : Prop := {
  at_ok : t_ok T;
  at_all : t_all (map_ok lines) T;
  at_apart : apart T
}.

Record ampm_wf st : Prop := {
  aw_cfg : am_cfg_ok (am_cfg st);
  aw_table : am_table_ok (am_lines (am_cfg st)) (accessMapTable st);
  aw_degree : 0 ≤ am_degree st;
  aw_useful : 0 ≤ usefulDegree st
}.

Lemma apart_upd i T T' : t_upd i T T' → apart T → apart T'.
Proof. intros Hu Ha a b sec j. rewrite !(t_upd_cands _ _ _ _ Hu). apply Ha. Qed.

Lemma map_ok_reset lines l : map_ok lines l → map_ok lines (reset_members l).
Proof.
  intros [Hl _]. unfold reset_members, states_reset. split; [by rewrite length_replicate|]. by intros [? _]%elem_of_replicate.
Qed.

(** The states of a zone; a zone without an entry has not been accessed. *)
Definition zone_view (lines : Z) T (key : TaggedKey) : list AccessMapState :=
  match t_findEntry T key with
  | Ok (Some i) => match t_entries T !! i with Some e => w_data e | None => [] end
  | _ => replicate (Z.to_nat lines) AM_INIT
  end.

(** The state of line [x] of the address space. *)
Definition am_view st (sec : bool) (x : Z) : AccessMapState :=
  let lines := am_lines (am_cfg st) in
  let z := x / lines in
  if (z <? 0) || (MaxAddr / hotZoneSize (am_cfg st) <? z) then AM_INVALID
  else default AM_INVALID (zone_view lines (accessMapTable st) (mkKey z sec) !! Z.to_nat (x mod lines)).

Lemma found_view lines T key i e : t_found T key i e → zone_view lines T key = w_data e.
Proof. intros [Hf He]. unfold zone_view. by rewrite Hf, He. Qed.

(** Changing an entry that is not a candidate of a zone does not change its view. *)
Lemma view_frame lines i T T' key :
  t_ok T → t_upd i T T' → i ∉ t_cands T key → zone_view lines T' key = zone_view lines T key.
Proof.
  intros Hok Hu Hi. unfold zone_view. rewrite (t_upd_find i T T' key) by done.
  destruct (t_findEntry T key) as [[j|]|] eqn:Ef; [|done..].
  rewrite (upd_else _ _ _ Hu); [done|]. intros ->. by destruct Hi; apply t_find_cands.
Qed.

(** Getting an entry changes no view of the zones around it. *)
Lemma getAccessMapEntry_spec lines t T a sec :
  am_table_ok lines T →
  ∃ i T' e, getAccessMapEntry t T a sec = Ok (i, T') ∧ am_table_ok lines T' ∧ t_upd i T T' ∧
    i ∈ t_cands T (mkKey a sec) ∧ t_found T' (mkKey a sec) i e ∧ w_data e = zone_view lines T (mkKey a sec) ∧
    map_ok lines (w_data e).
Proof using RL.
  intros [Hok Hall Hap]. unfold getAccessMapEntry.
  destruct (t_find_or_insert_spec t T (mkKey a sec) Hok)
    as (i & T' & e & E & Hu & Hi & Hf & Hcase). pose proof (t_upd_ok _ _ _ Hu Hok) as Hok'.
  assert (w_data e = zone_view lines T (mkKey a sec) ∧ map_ok lines (w_data e) ∧ t_all (map_ok lines) T')
    as (Hd & Hm & Hall').
  { destruct Hcase as [[Hold Hes]|(Hm & e0 & He0 & Hins & Hes)].
    - rewrite (found_view _ _ _ _ _ Hold). split; [done|]. split; [by eapply t_all_at; [|apply Hold]|].
      unfold t_all. by rewrite Hes.
    - rewrite (with_insert_data _ _ _ _ Hins). simpl.
      pose proof (t_all_at _ _ _ _ Hall He0) as Hm0. unfold zone_view. rewrite Hm.
      split; [unfold reset_members, states_reset; f_equal; destruct Hm0; lia|].
      split; [by apply map_ok_reset|]. unfold t_all. rewrite Hes. apply Forall_insert; [done|].
      rewrite (with_insert_data _ _ _ _ Hins). by apply map_ok_reset. }
  exists i, T', e. split_and!; [done| |done..]. split; [done|done|by eapply apart_upd].
Qed.

(** Pointer [p] refers to the entry of zone [k] in [T'], with the states it had in [T]; it
    is null if there is no such zone. *)
Definition points (lines last_zone : Z) (sec : bool) T T' (k : Z) (p : option nat) : Prop :=
  if bool_decide (0 ≤ k ≤ last_zone)
  then ∃ i e, p = Some i ∧ t_found T' (mkKey k sec) i e ∧
         w_data e = zone_view lines T (mkKey k sec) ∧ map_ok lines (w_data e)
  else p = None.

Lemma points_frame lines last_zone sec T T' T'' k p i :
  t_ok T' → t_upd i T' T'' → i ∉ t_cands T' (mkKey k sec) →
  points lines last_zone sec T T' k p → points lines last_zone sec T T'' k p.
Proof.
  intros Hok Hu Hi. unfold points. case_bool_decide; [|done]. intros (j & e & -> & Hf & Hd).
  exists j, e. split; [done|]. split; [|done]. by apply (t_found_frame i T').
Qed.

Lemma points_get lines last_zone t T0 T a sec :
  0 ≤ a ≤ last_zone → am_table_ok lines T →
  zone_view lines T (mkKey a sec) = zone_view lines T0 (mkKey a sec) →
  ∃ i T', getAccessMapEntry t T a sec = Ok (i, T') ∧ am_table_ok lines T' ∧ t_upd i T T' ∧
    i ∈ t_cands T (mkKey a sec) ∧ points lines last_zone sec T0 T' a (Some i).
Proof using RL.
  intros Ha HT Hv. destruct (getAccessMapEntry_spec lines t T a sec HT)
    as (i & T' & e & E & HT' & Hu & Hi & Hf & Hd & Hm).
  exists i, T'. split_and!; [done..|]. unfold points. rewrite bool_decide_true by done.
  exists i, e. split_and!; [done..|congruence|done].
Qed.

Lemma getZones_spec lines last_zone t T z sec :
  0 ≤ z ≤ last_zone → am_table_ok lines T →
  ∃ curr prev next T', getZones t T z last_zone sec = Ok (curr, prev, next, T') ∧ am_table_ok lines T' ∧
    points lines last_zone sec T T' z (Some curr) ∧ points lines last_zone sec T T' (z - 1) prev ∧
    points lines last_zone sec T T' (z + 1) next.
Proof using RL.
  intros Hz HT. unfold getZones.
  destruct (points_get lines last_zone t T T z sec) as (curr & T1 & -> & HT1 & Hu1 & Hi1 & Hp1); [done..|].
  run_ok. pose proof (at_apart _ _ HT) as Hap.
  assert (∃ prev T2, (if 0 <? z then '(i, T) ← getAccessMapEntry t T1 (z - 1) sec; Ok (Some i, T)
                      else Ok (None, T1)) = Ok (prev, T2) ∧ am_table_ok lines T2 ∧
    points lines last_zone sec T T2 z (Some curr) ∧ points lines last_zone sec T T2 (z - 1) prev ∧
    zone_view lines T2 (mkKey (z + 1) sec) = zone_view lines T (mkKey (z + 1) sec))
    as (prev & T2 & -> & HT2 & Hc2 & Hp2 & Hv2).
  { assert (zone_view lines T1 (mkKey (z + 1) sec) = zone_view lines T (mkKey (z + 1) sec)) as Hv1.
    { apply (view_frame lines curr); [apply HT|done|]. apply (Hap z (z + 1)); [lia|done]. }
    destruct (Z.ltb_spec 0 z) as [Hz0|Hz0].
    - destruct (points_get lines last_zone t T T1 (z - 1) sec) as (i & T2 & -> & HT2 & Hu2 & Hi2 & Hp2); [lia|done| |].
      { apply (view_frame lines curr); [apply HT|done|]. apply (Hap z (z - 1)); [lia|done]. }
      run_ok. exists (Some i), T2. split_and!; try done.
      + apply (points_frame _ _ _ _ T1 _ _ _ i); [apply HT1|done| |done]. apply (at_apart _ _ HT1 (z - 1)); [lia|done].
      + rewrite <-Hv1. apply (view_frame lines i); [apply HT1|done|].
        apply (at_apart _ _ HT1 (z - 1) (z + 1)); [lia|done].
    - exists None, T1. split_and!; try done. unfold points. rewrite bool_decide_false by lia. done. }
  run_ok. destruct (Z.ltb_spec z last_zone) as [Hl|Hl].
  - destruct (points_get lines last_zone t T T2 (z + 1) sec) as (i & T3 & -> & HT3 & Hu3 & Hi3 & Hp3); [lia|done|done|].
    run_ok. exists curr, prev, (Some i), T3. split_and!; try done;
      apply (points_frame _ _ _ _ T2 _ _ _ i); try done; try apply HT2; apply (at_apart _ _ HT2 (z + 1)); try done; lia.
  - run_ok. exists curr, prev, None, T2. split_and!; try done. unfold points. rewrite bool_decide_false by lia. done.
Qed.

(** Different zones around the access have different entries. *)
Lemma points_distinct lines last_zone sec T T' a b p q :
  am_table_ok lines T' → 0 < Z.abs (a - b) ≤ 2 → (is_Some p ∨ is_Some q) →
  points lines last_zone sec T T' a p → points lines last_zone sec T T' b q → p ≠ q.
Proof.
  intros HT Hab Hs Hp Hq Heq. unfold points in *. destruct (bool_decide (0 ≤ a ≤ last_zone)).
  - destruct Hp as (i & e & -> & [Hf _] & _). destruct (bool_decide (0 ≤ b ≤ last_zone)); [|congruence].
    destruct Hq as (j & e' & -> & [Hf' _] & _). injection Heq as <-.
    apply (at_apart _ _ HT a b sec i); [done|by apply t_find_cands; [apply HT|]..].
  - subst p. destruct Hs as [[? [=]]|[? ?]]; congruence.
Qed.

Lemma put_state_table lines v T ib : v ≠ AM_INVALID → am_table_ok lines T → am_table_ok lines (put_state v T ib).
Proof.
  intros Hv [Hok Ha Hap]. pose proof (put_state_upd v T ib) as Hu. split.
  - by apply (t_upd_ok _ _ _ Hu).
  - by apply put_state_all.
  - by apply (apart_upd _ _ _ Hu).
Qed.

Lemma marks_table lines x T out :
  am_table_ok lines T → am_table_ok lines (foldl (mark lines x) T out) ∧
  ∀ key, t_findEntry (foldl (mark lines x) T out) key = t_findEntry T key.
Proof.
  revert T. induction out as [|d out IH]; intros T HT; [done|]. simpl.
  assert (am_table_ok lines (mark lines x T d) ∧ ∀ key, t_findEntry (mark lines x T d) key = t_findEntry T key)
    as [HT1 Hf].
  { unfold mark. destruct (line_entry lines x d) as [i|]; [|done]. split; [by apply put_state_table|].
    intros key. apply put_state_find, HT. }
  destruct (IH _ HT1) as [HT2 Hf2]. split; [done|]. intros key. by rewrite Hf2.
Qed.

(** A view through the pointer to the entry. *)
Lemma view_st lines T key i c :
  t_findEntry T key = Ok (Some i) →
  default AM_INVALID (zone_view lines T key !! c) = default AM_INVALID (st_of T i c).
Proof. intros Hf. unfold zone_view, st_of. rewrite Hf. by destruct (t_entries T !! i). Qed.
End Wf.

(** *** One access *)

Section Access.
Context {G R : Type} `{RL : ReplLaws G R} (st : AMPM G R) (pfi : PrefetchInfo).
Context (Hwf : ampm_wf st) (Haddr : in_u 64 (pfi_address pfi)).
Abbreviation cfg := (am_cfg st).
Abbreviation lines := (am_lines (am_cfg st)).
Abbreviation sec := (pfi_secure pfi).

(** The line of the access, its zone and its position there; the last zone. *)
Definition am_line : Z := pfi_address pfi / am_blkSize cfg.

Definition am_zone : Z := pfi_address pfi / hotZoneSize cfg.

Definition am_block : Z := pfi_address pfi mod hotZoneSize cfg / am_blkSize cfg.

Definition last_zone : Z := MaxAddr / hotZoneSize cfg.

Abbreviation z := am_zone.
Abbreviation b := am_block.

Lemma zone_pos : 0 < hotZoneSize cfg.
Proof using Hwf. destruct (aw_cfg _ Hwf). nia. Qed.

Lemma lines_eq : hotZoneSize cfg / am_blkSize cfg = lines.
Proof. done. Qed.

Lemma block_range : 0 ≤ b < lines.
Proof using Hwf.
  destruct (aw_cfg _ Hwf) as [Hb Hz Hl _ _]. 
  pose proof (Z.mod_pos_bound (pfi_address pfi) (hotZoneSize cfg) zone_pos). unfold am_block.
  split; [apply Z.div_pos; lia|]. apply Z.div_lt_upper_bound; nia.
Qed.

Lemma zone_range : 0 ≤ z ≤ last_zone.
Proof using Hwf Haddr.
  unfold in_u in Haddr. unfold am_zone, last_zone. split; [apply Z.div_pos; [lia|apply zone_pos]|].
  apply Z.div_le_mono; [apply zone_pos|]. unfold MaxAddr. lia.
Qed.

(** Line, zone and line in the zone. *)
Lemma line_split : am_line = z * lines + b.
Proof using Hwf.
  destruct (aw_cfg _ Hwf) as [Hb Hz Hl _ _]. pose proof zone_pos.
  unfold am_line, am_block, am_zone. symmetry.
  apply (Z.div_unique _ _ _ (pfi_address pfi mod hotZoneSize cfg mod am_blkSize cfg)).
  - left. apply Z.mod_pos_bound; lia.
  - pose proof (Z.div_mod (pfi_address pfi) (hotZoneSize cfg)).
    pose proof (Z.div_mod (pfi_address pfi mod hotZoneSize cfg) (am_blkSize cfg)). nia.
Qed.

Definition zdata (k : Z) : list AccessMapState :=
  if bool_decide (0 ≤ k ≤ last_zone) then zone_view lines (accessMapTable st) (mkKey k sec)
  else replicate (Z.to_nat lines) AM_INVALID.

Lemma zone_view_ok k : map_ok lines (zone_view lines (accessMapTable st) (mkKey k sec)).
Proof using Hwf.
  destruct (aw_table _ Hwf) as [Hok Hall _]. destruct (aw_cfg _ Hwf). 
  destruct (t_find_total _ (mkKey k sec) Hok) as [E|(i & e & Hf & _)].
  - unfold zone_view. rewrite E. split; [rewrite length_replicate; lia|].
    by intros [? _]%elem_of_replicate.
  - rewrite (found_view _ _ _ _ _ Hf). eapply t_all_at; [done|apply Hf].
Qed.

Lemma zdata_length k : Z.of_nat (length (zdata k)) = lines.
Proof using Hwf.
  unfold zdata. destruct (aw_cfg _ Hwf).  destruct (bool_decide _).
  - apply zone_view_ok.
  - rewrite length_replicate. lia.
Qed.

Lemma view_zdata y : am_view st sec y = default AM_INVALID (zdata (y / lines) !! Z.to_nat (y mod lines)).
Proof.
  unfold am_view, zdata. fold last_zone.
  destruct (Z.ltb_spec (y / lines) 0); simpl.
  { rewrite bool_decide_false by lia. destruct (_ !! _) as [v|] eqn:E; [|done].
    by apply lookup_replicate_1 in E as [-> _]. }
  destruct (Z.ltb_spec last_zone (y / lines)).
  { rewrite bool_decide_false by lia. destruct (_ !! _) as [v|] eqn:E; [|done].
    by apply lookup_replicate_1 in E as [-> _]. }
  by rewrite bool_decide_true by lia.
Qed.

Context (curr : nat) (prev next : option nat).
Abbreviation x := (mkAMAccess z b curr prev next).

Lemma line_at d : - lines ≤ d < lines →
  (am_line + d) / lines = line_zone lines x d ∧ (am_line + d) mod lines = line_off lines x d.
Proof using Hwf.
  intros Hd. pose proof block_range. rewrite line_split. unfold line_zone, line_off. simpl.
  replace (z * lines + b + d) with (b + d + z * lines) by lia. rewrite Z.mod_add by lia. split; [|done].
  rewrite Z.div_add by lia. destruct (Z.ltb_spec (b + d) 0).
  - rewrite <-(Z.div_unique (b + d) lines (-1) (b + d + lines)) by lia. lia.
  - destruct (Z.leb_spec lines (b + d)).
    + rewrite <-(Z.div_unique (b + d) lines 1 (b + d - lines)) by lia. lia.
    + rewrite Z.div_small by lia. lia.
Qed.

Definition joined : list AccessMapState :=
  zdata (z - 1) ++ <[Z.to_nat b := AM_ACCESS]> (zdata z) ++ zdata (z + 1).

Lemma joined_length : Z.of_nat (length joined) = 3 * lines.
Proof using Hwf.
  unfold joined. rewrite !length_app, length_insert. pose proof (zdata_length (z - 1)).
  pose proof (zdata_length z). pose proof (zdata_length (z + 1)). lia.
Qed.

Lemma near_view d :
  - (b + lines) ≤ d < 2 * lines - b → near lines joined x d = if decide (d = 0) then AM_ACCESS else am_view st sec (am_line + d).
Proof using Hwf.
  intros Hd. pose proof block_range. pose proof (zdata_length (z - 1)). pose proof (zdata_length z).
  pose proof (zdata_length (z + 1)). unfold near, joined. cbn [aa_block].
  assert (∀ k o, 0 ≤ o < lines → am_line + d = k * lines + o →
    am_view st sec (am_line + d) = default AM_INVALID (zdata k !! Z.to_nat o)) as Hv.
  { intros k o Ho E. rewrite view_zdata, E.
    rewrite (Z.add_comm (k * lines)), Z.div_add, Z.mod_add, Z.div_small, Z.mod_small by lia. done. }
  rewrite line_split in Hv.
  destruct (decide (b + d < 0)).
  - rewrite lookup_app_l by lia. rewrite decide_False by lia.
    rewrite line_split, (Hv (z - 1) (b + lines + d)) by lia. done.
  - rewrite lookup_app_r by lia. destruct (decide (b + d < lines)).
    + rewrite lookup_app_l by (rewrite length_insert; lia).
      replace (Z.to_nat (b + lines + d) - length (zdata (z - 1)))%nat with (Z.to_nat (b + d)) by lia.
      destruct (decide (d = 0)) as [->|].
      * rewrite Z.add_0_r, list_lookup_insert_eq by lia. done.
      * rewrite list_lookup_insert_ne by lia. rewrite line_split, (Hv z (b + d)) by lia. done.
    + rewrite lookup_app_r by (rewrite length_insert; lia). rewrite decide_False by lia.
      rewrite line_split, (Hv (z + 1) (b + d - lines)) by lia. do 2 f_equal. rewrite length_insert. lia.
Qed.

Definition am_strides : list Z := seqZ 1 (max_stride cfg lines - 1).

Lemma strides_ok : Forall (λ d, 1 ≤ d ∧ 2 * d + 1 < lines) am_strides.
Proof using Hwf.
  destruct (aw_cfg _ Hwf) as [_ _ Hl _ Hlim]. 
  apply Forall_forall. intros d Hd%elem_of_seqZ. unfold max_stride in Hd.
  change (2 ^ 31) with 2147483648 in Hl.
  destruct (Z.eqb_spec (limitStride cfg) 0).
  - rewrite swrap_id in Hd by (try done; unfold in_s; change (2 ^ (32 - 1)) with 2147483648; Z.div_mod_to_equations; lia).
    Z.div_mod_to_equations. lia.
  - rewrite (wrap_id 32) in Hd by in_word. rewrite swrap_id in Hd by in_int. lia.
Qed.

(** The search over the joined copy is the search over the address space. *)
Lemma targets_view :
  targets (near lines joined x) am_strides = targets (λ d, am_view st sec (am_line + d)) am_strides.
Proof using Hwf.
  unfold targets. pose proof strides_ok as Hs. pose proof block_range.
  induction Hs as [|d l [Hd1 Hd2] _ IH]; [done|]. cbn [flat_map]. rewrite IH. f_equal.
  assert (∀ e, Z.abs e = d → good (near lines joined x) e = good (λ d, am_view st sec (am_line + d)) e) as Hg.
  { intros e He. unfold good. rewrite !near_view by lia. rewrite !decide_False by lia. done. }
  by rewrite !Hg by lia.
Qed.

(** The zones have their entries in [T], with the states they had. *)
Context (T : Tbl TaggedKey AccessMapEntry G R).
Abbreviation at_zone := (points lines last_zone sec (accessMapTable st) T).
Context (HT : am_table_ok lines T).
Context (Hcurr : at_zone z (Some curr)) (Hprev : at_zone (z - 1) prev) (Hnext : at_zone (z + 1) next).

Lemma line_points d : at_zone (line_zone lines x d) (line_entry lines x d).
Proof using Hcurr Hprev Hnext.
  unfold line_zone, line_entry. simpl. destruct (_ <? 0); [done|]. by destruct (_ <=? _).
Qed.

Lemma line_state d i :
  - lines ≤ d < lines → line_entry lines x d = Some i →
  ∃ v, st_of T i (Z.to_nat (line_off lines x d)) = Some v ∧ v ≠ AM_INVALID ∧
    am_view st sec (am_line + d) = v ∧ t_findEntry T (mkKey (line_zone lines x d) sec) = Ok (Some i) ∧
    0 ≤ line_zone lines x d ≤ last_zone.
Proof using Hwf Hcurr Hprev Hnext.
  intros Hd Hi. pose proof (line_points d) as Hp. rewrite Hi in Hp. unfold points in Hp.
  case_bool_decide as Hz; [|done]. destruct Hp as (j & e & [= <-] & [Hf He] & Hdat & Hlen & Hinv).
  destruct (line_at d Hd) as [Ez Eo]. pose proof block_range.
  destruct (lookup_lt_is_Some_2 (w_data e) (Z.to_nat (line_off lines x d))) as [v Hv].
  { unfold line_off. pose proof (Z.mod_pos_bound (aa_block x + d) lines). lia. }
  exists v. unfold st_of. rewrite He. simpl. split; [done|]. split; [by intros ->; apply Hinv; eapply list_elem_of_lookup_2|].
  split; [|done]. rewrite view_zdata, Ez, Eo. unfold zdata. rewrite bool_decide_true by done. by rewrite <-Hdat, Hv.
Qed.

Lemma line_none d :
  - lines ≤ d < lines → line_entry lines x d = None → am_view st sec (am_line + d) = AM_INVALID ∧
    ¬ 0 ≤ line_zone lines x d ≤ last_zone.
Proof using Hwf Hcurr Hprev Hnext.
  intros Hd Hi. pose proof (line_points d) as Hp. rewrite Hi in Hp. unfold points in Hp.
  case_bool_decide as Hz; [by destruct Hp as (? & ? & ? & _)|]. split; [|done].
  destruct (line_at d Hd) as [Ez Eo]. rewrite view_zdata, Ez. unfold zdata. rewrite bool_decide_false by done.
  destruct (_ !! _) as [v|] eqn:E; [|done]. by apply lookup_replicate_1 in E as [-> _].
Qed.

(** Different lines are stored in different places. *)
Lemma line_inj d d' i :
  - lines ≤ d < lines → - lines ≤ d' < lines →
  line_entry lines x d = Some i → line_entry lines x d' = Some i →
  Z.to_nat (line_off lines x d) = Z.to_nat (line_off lines x d') → d = d'.
Proof using Hwf Hcurr Hprev Hnext HT.
  intros Hd Hd' Hi Hi' Ho. pose proof block_range. destruct (line_at d Hd) as [Ez Eo]. destruct (line_at d' Hd') as [Ez' Eo'].
  assert (line_zone lines x d = line_zone lines x d') as E.
  { destruct (decide (line_zone lines x d = line_zone lines x d')) as [|Hne]; [done|].
    destruct (points_distinct lines last_zone sec (accessMapTable st) T (line_zone lines x d) (line_zone lines x d')
      (line_entry lines x d) (line_entry lines x d')); [done| |by left; rewrite Hi|apply line_points..|congruence].
    unfold line_zone in *. simpl in *. repeat case_match; lia. }
  assert (line_off lines x d = line_off lines x d') as Eoff.
  { unfold line_off in *. pose proof (Z.mod_pos_bound (aa_block x + d) lines).
    pose proof (Z.mod_pos_bound (aa_block x + d') lines). lia. }
  pose proof (Z.div_mod (am_line + d) lines). pose proof (Z.div_mod (am_line + d') lines). nia.
Qed.

Lemma line_addr_view d :
  - lines ≤ d < lines → 0 ≤ line_zone lines x d ≤ last_zone →
  line_addr cfg lines x d = ((am_line + d) * am_blkSize cfg, 0).
Proof using Hwf.
  intros Hd Hz. destruct (line_at d Hd) as [Ez Eo]. pose proof block_range.
  destruct (aw_cfg _ Hwf) as [Hb Hhz Hl [n Hn] _]. unfold line_addr. f_equal. autorewrite with word.
  pose proof (Z.div_mod (am_line + d) lines). pose proof (Z.mod_pos_bound (am_line + d) lines).
  assert (line_zone lines x d * hotZoneSize cfg + line_off lines x d * am_blkSize cfg
    = (am_line + d) * am_blkSize cfg) as ->. { rewrite Hhz, <-Ez, <-Eo. nia. }
  apply wrap_id. unfold in_u.
  assert (last_zone = n - 1) as E.
  { unfold last_zone, MaxAddr. symmetry. apply (Z.div_unique _ _ _ (hotZoneSize cfg - 1)); [left; nia|lia]. }
  assert (0 ≤ am_line + d < n * lines) by nia. nia.
Qed.

(** The line of the access is marked. *)
Definition accessed : Tbl TaggedKey AccessMapEntry G R := put_state AM_ACCESS T (curr, Z.to_nat b).

Lemma line_zero : line_entry lines x 0 = Some curr ∧ line_off lines x 0 = b.
Proof using Hwf.
  pose proof block_range. unfold line_entry, line_off. simpl. rewrite Z.add_0_r, Z.mod_small by lia.
  by rewrite (proj2 (Z.ltb_ge _ _)), (proj2 (Z.leb_gt _ _)) by lia.
Qed.

Lemma accessed_state d i :
  - lines ≤ d < lines → line_entry lines x d = Some i →
  st_of accessed i (Z.to_nat (line_off lines x d))
  = Some (if decide (d = 0) then AM_ACCESS else am_view st sec (am_line + d)).
Proof using Hwf Hcurr Hprev Hnext HT.
  intros Hd Hi. destruct (line_state d i Hd Hi) as (v & Hv & _ & -> & _). destruct line_zero as [Hi0 Ho0].
  pose proof block_range. unfold accessed. rewrite put_state_st, Hv. simpl.
  destruct (decide (d = 0)) as [->|Hn].
  - rewrite decide_True; [done|]. rewrite Hi0 in Hi. injection Hi as Ei. by rewrite Ho0.
  - rewrite decide_False; [done|]. intros [Ei E]. apply Hn.
    apply (line_inj d 0 i); [lia|lia|done|congruence|]. by rewrite Ho0, E.
Qed.

Lemma backed_accessed : backed lines joined x accessed.
Proof using Hwf Hcurr Hprev Hnext HT.
  intros d Hd Hn. pose proof block_range. rewrite near_view in Hn by lia.
  destruct (line_entry lines x d) as [i|] eqn:Hi.
  - exists i, (if decide (d = 0) then AM_ACCESS else am_view st sec (am_line + d)).
    split; [done|]. split; [by apply accessed_state; [lia|]|done].
  - destruct (line_none d) as [Hv _]; [lia|done|]. destruct (decide (d = 0)) as [->|]; [|done].
    by destruct line_zero; congruence.
Qed.

(** The three copies are the joined states. *)
Lemma zone_states_at k p :
  at_zone k p → p ≠ Some curr → zone_states accessed p lines = Ok (zdata k).
Proof using Hwf.
  intros Hp Hn. unfold points, zone_states, zdata in *. case_bool_decide; [|by subst p].
  destruct Hp as (i & e & -> & [_ He] & Hd & Hl & _).
  rewrite (t_get_ok _ i e); [run_ok; f_equal; rewrite take_ge by lia; done|].
  unfold accessed. rewrite (upd_else _ _ _ (put_state_upd AM_ACCESS T (curr, Z.to_nat b))); [done|]. simpl. congruence.
Qed.

Lemma zone_states_curr :
  zone_states accessed (Some curr) lines = Ok (<[Z.to_nat b := AM_ACCESS]> (zdata z)).
Proof using Hwf Haddr Hcurr.
  unfold points, zone_states, zdata in *. rewrite bool_decide_true in * by apply zone_range.
  destruct Hcurr as (i & e & [= <-] & [_ He] & Hd & Hl & _).
  rewrite (t_get_ok _ curr (mkWith (w_base e) (<[Z.to_nat b := AM_ACCESS]> (w_data e)))).
  - run_ok. simpl. rewrite take_ge, Hd by (rewrite length_insert; lia). done.
  - unfold accessed, put_state. simpl. rewrite He, t_put_entries. apply list_lookup_insert_eq. by eapply lookup_lt_Some.
Qed.

Lemma zones_apart : Some curr ≠ prev ∧ Some curr ≠ next ∧ prev ≠ next.
Proof using Hwf Haddr Hcurr Hprev Hnext HT.
  pose proof zone_range. destruct (aw_cfg _ Hwf) as [Hb Hz Hl [n Hn] _].
  split; [|split].
  - apply (points_distinct lines last_zone sec (accessMapTable st) T z (z - 1)); [done|lia|by left|done..].
  - apply (points_distinct lines last_zone sec (accessMapTable st) T z (z + 1)); [done|lia|by left|done..].
  - apply (points_distinct lines last_zone sec (accessMapTable st) T (z - 1) (z + 1)); [done|lia| |done..].
    assert (1 ≤ last_zone).
    { unfold last_zone, MaxAddr. apply Z.div_le_lower_bound; [apply zone_pos|]. rewrite Hz. nia. }
    unfold points in Hprev, Hnext. destruct (decide (0 < z)).
    + left. rewrite bool_decide_true in Hprev by lia. destruct Hprev as (i & _ & -> & _). eauto.
    + right. rewrite bool_decide_true in Hnext by lia. destruct Hnext as (i & _ & -> & _). eauto.
Qed.

(** The candidates: the good distances, as far as the degree goes. *)
Definition am_out : list Z :=
  limit_from (am_degree st) 0 (targets (λ d, am_view st sec (am_line + d)) am_strides).

Lemma out_lines d : d ∈ am_out → - lines < d < lines ∧ d ≠ 0 ∧ am_view st sec (am_line + d) ≠ AM_INVALID.
Proof using Hwf.
  intros (a & Ha & Ea & Hg)%limit_in%targets_in. pose proof strides_ok as Hs. rewrite Forall_forall in Hs.
  specialize (Hs a Ha). unfold good in Hg. rewrite Z.opp_involutive, !andb_true_iff, bool_decide_eq_true in Hg.
  split; [lia|]. split; [lia|]. apply Hg.
Qed.

Definition searched : Tbl TaggedKey AccessMapEntry G R := foldl (mark lines x) accessed am_out.

Lemma searched_view st' d :
  am_cfg st' = cfg → accessMapTable st' = searched → - lines < d < lines →
  am_view st' sec (am_line + d) = if decide (d ∈ am_out) then AM_PREFETCH
                                  else if decide (d = 0) then AM_ACCESS else am_view st sec (am_line + d).
Proof using Hwf Hcurr Hprev Hnext HT.
  intros Ec ET Hd. destruct (line_at d) as [Ez Eo]; [lia|].
  destruct (marks_table lines x accessed am_out) as [_ Hfind]; [by apply put_state_table|].
  destruct (line_entry lines x d) as [i|] eqn:Hi.
  - destruct (line_state d i) as (v & _ & _ & _ & Hf & Hz); [lia|done|].
    unfold am_view at 1. rewrite Ec, Ez, Eo. fold last_zone.
    rewrite (proj2 (Z.ltb_ge (line_zone lines x d) 0)), (proj2 (Z.ltb_ge last_zone (line_zone lines x d))) by lia.
    simpl. rewrite ET.
    rewrite (view_st lines searched _ i).
    2: { unfold searched. rewrite Hfind. unfold accessed. by rewrite put_state_find by apply HT. }
    unfold searched. rewrite marks_st.
    rewrite (accessed_state d i); [|lia|done].
    assert (existsb (λ d0, bool_decide (line_entry lines x d0 = Some i
      ∧ Z.to_nat (line_off lines x d0) = Z.to_nat (line_off lines x d))) am_out = bool_decide (d ∈ am_out)) as ->.
    { apply eq_true_iff_eq. rewrite bool_decide_eq_true, existsb_exists. split.
      - intros (d' & Hin & Hb). rewrite <-list_elem_of_In in Hin. apply bool_decide_eq_true in Hb as [Hi' Ho'].
        destruct (out_lines d' Hin) as [Hd' _]. rewrite (line_inj d d' i); [done|lia|lia|done..].
      - intros Hin. exists d. split; [by apply list_elem_of_In|]. by apply bool_decide_eq_true. }
    case_bool_decide; [by rewrite (decide_True (P := d ∈ am_out))|by rewrite (decide_False (P := d ∈ am_out))].
  - destruct (line_none d) as [Hv Hz]; [lia|done|]. rewrite Hv, decide_False.
    2: { intros Hin. by apply out_lines in Hin as (_ & _ & ?). }
    rewrite decide_False by (intros ->; destruct line_zero; congruence).
    unfold am_view. rewrite Ec, Ez. fold last_zone.
    by destruct (Z.ltb_spec (line_zone lines x d) 0), (Z.ltb_spec last_zone (line_zone lines x d)); try lia.
Qed.
End Access.

(** What one access does, without its bookkeeping. *)
Lemma ampm_access {G R} `{RL : ReplLaws G R} t pfi (st : AMPM G R) :
  ampm_wf st → in_u 64 (pfi_address pfi) →
  ∃ st', ampm_calculatePrefetch t pfi st
         = Ok (st', (λ d, ((am_line st pfi + d) * am_blkSize (am_cfg st), 0)) <$> am_out st pfi) ∧
    ampm_wf st' ∧ am_cfg st' = am_cfg st ∧ am_degree st' = am_degree st ∧
    usefulDegree st' = usefulDegree st ∧ am_clock st' = am_clock st ∧ epochEvent st' = epochEvent st ∧
    ∀ d, - am_lines (am_cfg st) < d < am_lines (am_cfg st) →
      am_view st' (pfi_secure pfi) (am_line st pfi + d)
      = if decide (d ∈ am_out st pfi) then AM_PREFETCH
        else if decide (d = 0) then AM_ACCESS else am_view st (pfi_secure pfi) (am_line st pfi + d).
Proof.
  intros Hwf Haddr. pose proof (zone_range st pfi Hwf Haddr) as Hz. pose proof (block_range st pfi Hwf) as Hb.
  destruct (getZones_spec (am_lines (am_cfg st)) (last_zone st) t (accessMapTable st) (am_zone st pfi)
    (pfi_secure pfi) Hz (aw_table _ Hwf)) as (curr & prev & next & T & E & HT & Hc & Hp & Hn).
  destruct (zones_apart st pfi Hwf Haddr curr prev next T HT Hc Hp Hn) as (H1 & H2 & H3).
  unfold ampm_calculatePrefetch. fold (last_zone st) (am_zone st pfi) (am_block st pfi) (am_lines (am_cfg st)).
  rewrite E. run_ok. rewrite !bool_decide_true by done. run_ok.
  destruct (line_zero st pfi Hwf curr prev next) as [Hi0 Ho0].
  destruct (line_state st pfi Hwf curr prev next T Hc Hp Hn 0 curr) as (v & Hv & Hvi & _); [lia|done|].
  rewrite Ho0 in Hv. destruct (setEntryState_ok T curr (am_block st pfi) AM_ACCESS (am_stats st) v Hv Hvi) as [s ->].
  run_ok. fold (accessed st pfi curr T).
  rewrite (zone_states_at st pfi Hwf curr T (am_zone st pfi - 1) prev), (zone_states_curr st pfi Hwf Haddr curr T),
    (zone_states_at st pfi Hwf curr T (am_zone st pfi + 1) next) by (done || by apply not_eq_sym). run_ok.
  fold (joined st pfi) (am_strides st).
  destruct (aw_cfg _ Hwf) as [_ _ Hl _ _].
  destruct (search_spec (am_cfg st) (am_degree st) (am_lines (am_cfg st)) (joined st pfi)
    (mkAMAccess (am_zone st pfi) (am_block st pfi) curr prev next) (joined_length st pfi Hwf) Hl Hb (aw_degree _ Hwf)
    (am_strides st) (accessed st pfi curr T) s []) as [s' ->].
  { simpl. pose proof (aw_degree _ Hwf). lia. }
  { by apply strides_ok. }
  { by apply backed_accessed. }
  run_ok. rewrite targets_view by done. cbn [length app]. fold (am_out st pfi). fold (searched st pfi curr prev next T).
  destruct (marks_table (am_lines (am_cfg st)) (mkAMAccess (am_zone st pfi) (am_block st pfi) curr prev next)
    (accessed st pfi curr T) (am_out st pfi)) as [HT' _]; [by apply put_state_table|].
  rewrite (Forall_fmap_ext_1 _ (λ d, ((am_line st pfi + d) * am_blkSize (am_cfg st), 0)) (am_out st pfi)).
  { eexists. split; [done|]. split; [split; [apply Hwf|done|apply Hwf..]|].
    split_and!; try done. intros d Hd. by apply (searched_view st pfi Hwf curr prev next T HT Hc Hp Hn). }
  apply Forall_forall. intros d Hd.
  destruct (out_lines st pfi Hwf d Hd) as (Hd1 & _ & Hv1). apply line_addr_view; [done|lia|].
  destruct (line_entry (am_lines (am_cfg st)) (mkAMAccess (am_zone st pfi) (am_block st pfi) curr prev next) d)
    as [i|] eqn:Hi.
  - by destruct (line_state st pfi Hwf curr prev next T Hc Hp Hn d i) as (_ & _ & _ & _ & _ & ?); [lia| |].
  - by destruct (line_none st pfi Hwf curr prev next T Hc Hp Hn d) as [? _]; [lia| |].
Qed.

(** *** Construction *)

Lemma tagged_apart ix n : ix_wf ix n → ix_setShift ix = 0 → 4 ≤ ix_numSets ix → ∀ a b sec,
  0 < Z.abs (a - b) ≤ 2 → tagged_extractSet ix (mkKey a sec) ≠ tagged_extractSet ix (mkKey b sec).
Proof.
  intros Hix Hsh H4 a b sec Hab. unfold tagged_extractSet, extractSet. simpl.
  rewrite Hsh, !Z.shiftr_0_r, !(land_mask ix n) by done. rewrite (ixw_sets _ _ Hix) in H4.
  pose proof (ixw_bits _ _ Hix). pose proof (Z.pow_lt_mono_r 2 n 32).
  pose proof (Z.mod_pos_bound a (2 ^ n)). pose proof (Z.mod_pos_bound b (2 ^ n)).
  rewrite !wrap_id by in_word. set (m := 2 ^ n) in *. intros E.
  pose proof (Z.div_mod a m ltac:(lia)) as Ea. pose proof (Z.div_mod b m ltac:(lia)) as Eb.
  rewrite E in Ea. clearbody m. generalize dependent (a / m). generalize dependent (b / m). intros qb Eb qa Ea.
  destruct (Z.eq_dec qa qb) as [->|]; [lia|]. nia.
Qed.

(** A table with at least four sets, indexed by the zone number. *)
Lemma ampm_new_wf {G R : Type} `{RL : ReplLaws G R} cfg assoc num ix sets (g : G) (st : AMPM G R) :
  (∀ g, is_ok (rp_instantiate (R := R) g)) →
  0 < assoc < 2 ^ 32 → 0 ≤ num < 2 ^ 32 → num mod assoc = 0 → 4 * assoc ≤ num →
  indexing_new assoc num 0 = Ok (ix, sets) → am_cfg_ok cfg → 0 ≤ startDegree cfg →
  ampm_new cfg num assoc (TaggedSetAssociative ix) sets g = Ok st → ampm_wf st.
Proof.
  intros Hinst Ha Hnum Hm H4 Eix Hcfg Hdeg E. pose proof (ac_lines _ Hcfg) as Hl.
  destruct (indexing_new_full _ _ _ _ _ (Z.le_refl 0) Ha Hnum Hm Eix) as (k & Hix & _ & _ & Ens).
  destruct (t_new_fills assoc num 0 ix sets (am_entry_new (Z.to_nat (am_lines cfg))) g Hinst (Z.le_refl 0) Ha Hnum Hm Eix)
    as (T & ET & Hok & _ & He & Hc).
  unfold ampm_new in E. unfold am_lines in ET. rewrite (proj2 (Z.eqb_neq _ _)) in E by (destruct Hcfg; lia).
  unfold panic_if, fatal_if in E. rewrite ET in E. cbn [mbind outcome_bind] in E. destruct (negb _); [done|]. injection E as <-.
  split; simpl; [done| |done..]. split; [done| |].
  - unfold t_all. rewrite He. apply Forall_replicate. split; simpl; [rewrite length_replicate; lia|].
    by intros [? _]%elem_of_replicate.
  - intros a b sec i Hab. rewrite !Hc, !elem_of_seq.
    assert (ix_setShift ix = 0) as Hs0.
    { apply indexing_new_wf in Eix as (_ & _ & ? & _); done. }
    pose proof (tagged_apart ix k Hix Hs0 ltac:(nia) a b sec Hab) as Hne.
    pose proof (extractSet_bounded ix k a Hix) as Ra. pose proof (extractSet_bounded ix k b Hix) as Rb.
    simpl in *. unfold tagged_extractSet in *. simpl in *.
    assert (Z.to_nat (extractSet ix a) ≠ Z.to_nat (extractSet ix b)) by lia.
    generalize dependent (Z.to_nat (extractSet ix a)). generalize dependent (Z.to_nat (extractSet ix b)). clear.
    intros y x Hne [] []. pose proof (Nat.mul_le_mono_r (S x) y (Z.to_nat assoc)).
    pose proof (Nat.mul_le_mono_r (S y) x (Z.to_nat assoc)). lia.
Qed.

#[export] Instance ampm_safe {G R : Type} `{RL : ReplLaws G R} : SafePrefetcher (AMPM G R).
Proof.
  refine {| pf_inv := ampm_wf |}. intros t pfi cache st Ha Hst.
  destruct (ampm_access t pfi st Hst Ha) as (st' & E & Hst' & _). eauto.
Defined.

(** *** The end of an epoch *)

Lemma ddiv_empty x y : (x = S754_zero false ∨ x = S754_zero true ∨ x = S754_nan) →
  ddiv x y = S754_zero false ∨ ddiv x y = S754_zero true ∨ ddiv x y = S754_nan.
Proof. intros [->|[->| ->]]; destruct y as [b|b| |b m e]; try destruct b; cbn; tauto. Qed.

Lemma dmul_empty y : dmul (d_of_Z 0) y = S754_zero false ∨ dmul (d_of_Z 0) y = S754_zero true ∨ dmul (d_of_Z 0) y = S754_nan.
Proof. destruct y as [b|b| |b m e]; try destruct b; cbn; tauto. Qed.

Lemma bandwidth_idle cfg : d_to_unsigned (memory_bandwidth cfg (mkAMStats 0 0 0 0)) = 0.
Proof.
  unfold memory_bandwidth. cbn [numRawCacheMisses numGoodPrefetches numTotalPrefetches].
  change (u64 (u64 (0 - 0) + 0)) with 0.
  destruct (ddiv_empty _ (d_of_Z (cyclesToTicks (am_clockPeriod cfg) (epochCycles cfg)))
    (dmul_empty (d_of_Z (offChipMemoryLatency cfg)))) as [->|[->| ->]]; done.
Qed.

Lemma dgtb_nan x : dgtb S754_nan x = false.
Proof. by destruct x as [b|b| |b m e]; try destruct b. Qed.

Lemma adjust_idle cfg useful : adjust_degree cfg (mkAMStats 0 0 0 0) useful = useful.
Proof.
  unfold adjust_degree. cbn [numRawCacheMisses numGoodPrefetches numTotalPrefetches numRawCacheHits].
  change (u64 (0 + 0)) with 0. change (ddiv (d_of_Z 0) (d_of_Z 0)) with S754_nan.
  by rewrite !dgtb_nan, !andb_false_l.
Qed.

Section Epoch.
Context {G R : Type} `{RL : ReplLaws G R}.

(** The clock of the prefetcher is up to date and the next epoch is representable. *)
Definition epoch_ready (now : Z) (st : AMPM G R) : Prop :=
  let p := am_clockPeriod (am_cfg st) in
  0 < p ∧ clk_ok p now (am_clock st) ∧ 0 ≤ epochCycles (am_cfg st) ∧ now + (epochCycles (am_cfg st) + 2) * p < 2 ^ 64.

Lemma schedule_epoch_ok now (st : AMPM G R) :
  epoch_ready now st → epochEvent st = None →
  ∃ w, now ≤ w ∧ schedule_epoch now st
    = Ok (mkAMPM (am_cfg st) (accessMapTable st) (am_stats st) (am_degree st) (usefulDegree st)
            (resetClock (am_clockPeriod (am_cfg st)) now) (Some w)).
Proof.
  intros (Hp & Hc & Hn & Hb) He. unfold schedule_epoch. rewrite clockEdge_eq by done. rewrite He.
  pose proof (periods_bounds _ now Hp).
  assert (now ≤ periods (am_clockPeriod (am_cfg st)) now * am_clockPeriod (am_cfg st)
                + epochCycles (am_cfg st) * am_clockPeriod (am_cfg st)) as Hw by nia.
  eexists. split; [exact Hw|]. by rewrite (proj2 (Z.leb_le _ _) Hw).
Qed.

Lemma adjust_nonneg cfg s useful : 0 ≤ useful → 0 ≤ adjust_degree cfg s useful.
Proof.
  intros Hu. unfold adjust_degree. pose proof (wrap_range 32 (useful + 1)). pose proof (wrap_range 32 (useful - 1)).
  unfold in_u in *. repeat case_match; lia.
Qed.

Lemma epoch_wf now (st st' : AMPM G R) :
  ampm_wf st → processEpochEvent now st = Ok st' → ampm_wf st'.
Proof.
  intros Hwf. unfold processEpochEvent, schedule_epoch. destruct (clockEdge _ _ _ _) as [w c].
  intros (st1 & (? & _ & (? & _ & [= <-])%outcome_bind_ok)%outcome_bind_ok & [= <-])%outcome_bind_ok.
  pose proof (adjust_nonneg (am_cfg st) (am_stats st) (usefulDegree st) (aw_useful _ Hwf)).
  split; simpl; [apply Hwf..| |done]. apply Z.min_glb; [|done]. apply wrap_range. lia.
Qed.

(** An epoch without accesses sets the degree to zero. *)
Lemma idle_epoch now (st : AMPM G R) :
  ampm_wf st → epoch_ready now st → am_stats st = mkAMStats 0 0 0 0 →
  ∃ st', processEpochEvent now st = Ok st' ∧ ampm_wf st' ∧ am_cfg st' = am_cfg st ∧
    accessMapTable st' = accessMapTable st ∧ am_degree st' = 0 ∧ usefulDegree st' = usefulDegree st.
Proof.
  intros Hwf Hr Hs. pose proof (aw_useful _ Hwf). unfold processEpochEvent.
  destruct (schedule_epoch_ok now (mkAMPM (am_cfg st) (accessMapTable st) (am_stats st) (am_degree st)
    (usefulDegree st) (am_clock st) None)) as (w & _ & ->); [done..|].
  run_ok. cbn [am_cfg am_stats usefulDegree]. rewrite Hs, bandwidth_idle, adjust_idle, Z.min_l by done.
  eexists. split; [done|]. split_and!; try done. split; try apply Hwf. done.
Qed.
End Epoch.

(** *** The two prefetchers behind it *)

(** [AMPM::calculatePrefetch] forwards to the object; [SlimAMPM] asks it only if the
    delta-correlating tables have nothing. *)
Record SlimAMPM (G R G' R' : Type) := mkSlim { slim_ampm : AMPM G R; slim_dcpt : DCPT G' R' }.
Arguments mkSlim {G R G' R'} _ _.
Arguments slim_ampm {G R G' R'} _.
Arguments slim_dcpt {G R G' R'} _.

Section Slim.
Context {G R G' R' : Type} `{ReplPolicy G R} `{ReplPolicy G' R'}.

Definition slim_calculatePrefetch (curTick : Z) (pfi : PrefetchInfo) (st : SlimAMPM G R G' R')
    : outcome (SlimAMPM G R G' R' * list AddrPriority) :=
  '(d, l) ← dcpt_calculatePrefetch curTick pfi (slim_dcpt st);
  match l with
  | [] => '(a, l) ← ampm_calculatePrefetch curTick pfi (slim_ampm st); Ok (mkSlim a d, l)
  | _ => Ok (mkSlim (slim_ampm st) d, l)
  end.

#[export] Instance slim_prefetcher : CalculatePrefetch (SlimAMPM G R G' R') :=
  λ curTick pfi _ st, slim_calculatePrefetch curTick pfi st.
End Slim.

#[export] Instance slim_safe {G R G' R' : Type} `{RL : ReplLaws G R} `{RL' : ReplLaws G' R'} :
  SafePrefetcher (SlimAMPM G R G' R').
Proof.
  refine {| pf_inv := λ st, ampm_wf (slim_ampm st) ∧ ∃ n, dcpt_wf n (slim_dcpt st) |}.
  intros t pfi cache st Ha [Hst [n Hd]]. change (calculatePrefetch t pfi cache st) with (slim_calculatePrefetch t pfi st). unfold slim_calculatePrefetch.
  destruct (dcpt_total n t pfi (slim_dcpt st) Hd) as (d & l & -> & Hd' & _). run_ok.
  destruct l as [|x l]; [|by eexists _, _; split_and!; eauto].
  destruct (ampm_access t pfi (slim_ampm st) Hst Ha) as (a & -> & Ha' & _). run_ok. by eexists _, _; split_and!; eauto.
Defined.

(** ** Theorems *)

(** C16: The access-map prefetcher matches the map of the whole address space.  Let [M d]
    be the state of the line [d] lines away from the access, invalid outside the address
    space.  The candidates are the lines [-d] and [d] in the order of increasing stride [d]
    for which the lines at [d] (or [-d]) and at twice that distance, or one further, have
    been accessed and which exist, at most as many as the degree; afterwards they are marked
    as prefetched, the line of the access as accessed, and no other line of the zones around
    has changed.  The table of zones, the copies of three of them and the arithmetic on the
    copies do not show; the assertions hold and no vector is accessed out of range. *)
Theorem ampm_matches_map {G R : Type} `{RL : ReplLaws G R} (t : Z) (pfi : PrefetchInfo) (st : AMPM G R) :
  ampm_wf st → in_u 64 (pfi_address pfi) →
  let cfg := am_cfg st in
  let L := pfi_address pfi / am_blkSize cfg in
  let M d := am_view st (pfi_secure pfi) (L + d) in
  let good d := bool_decide (M (- d) ≠ AM_INVALID) && bool_decide (M d = AM_ACCESS)
                && (bool_decide (M (2 * d) = AM_ACCESS) || bool_decide (M (2 * d + 1) = AM_ACCESS)) in
  let found := flat_map (λ d, (if good d then [- d] else []) ++ (if good (- d) then [d] else []))
                        (seqZ 1 (max_stride cfg (hotZoneSize cfg / am_blkSize cfg) - 1)) in
  let out := if am_degree st =? 0 then found else take (Z.to_nat (am_degree st)) found in
  ∃ st', ampm_calculatePrefetch t pfi st = Ok (st', (λ d, ((L + d) * am_blkSize cfg, 0)) <$> out) ∧
    ampm_wf st' ∧ am_degree st' = am_degree st ∧
    ∀ d, - (hotZoneSize cfg / am_blkSize cfg) < d < hotZoneSize cfg / am_blkSize cfg →
      am_view st' (pfi_secure pfi) (L + d)
      = if decide (d ∈ out) then AM_PREFETCH else if decide (d = 0) then AM_ACCESS else M d.
Proof.
  intros Hwf Ha cfg L M good0 found out. destruct (ampm_access t pfi st Hwf Ha) as (st' & E & Hwf' & _ & Hd & _ & _ & _ & Hv).
  assert (am_out st pfi = out) as Eo. { unfold am_out, limit_from. by rewrite Nat.sub_0_r. }
  rewrite Eo in *. exists st'. split_and!; done.
Qed.

(** An idle epoch takes the limit away.  At the end of an epoch in which nothing was
    accessed the estimated bandwidth is zero, and so the degree; the next access then
    proposes every line that matches instead of none, however small the configured degree. *)
Theorem ampm_idle_unlimited {G R : Type} `{RL : ReplLaws G R} (now t : Z) (pfi : PrefetchInfo) (st : AMPM G R) :
  ampm_wf st → epoch_ready now st → am_stats st = mkAMStats 0 0 0 0 → in_u 64 (pfi_address pfi) →
  let M d := am_view st (pfi_secure pfi) (pfi_address pfi / am_blkSize (am_cfg st) + d) in
  ∃ st' st'' l, processEpochEvent now st = Ok st' ∧ am_degree st' = 0 ∧
    ampm_calculatePrefetch t pfi st' = Ok (st'', l) ∧ length l = length (targets M (am_strides st)).
Proof.
  intros Hwf Hr Hs Ha M. destruct (idle_epoch now st Hwf Hr Hs) as (st' & E & Hwf' & Ec & ET & Hd & _).
  destruct (ampm_access t pfi st' Hwf' Ha) as (st'' & E' & _). eexists st', st'', _. split_and!; [done..|].
  rewrite length_fmap. unfold am_out, limit_from, am_strides, am_line, am_view. rewrite Hd, Ec, ET. done.
Qed.

(** Zones of eight lines, four sets of one entry, one candidate per access. *)
Definition ex_am_cfg : AMPMCfg :=
  mkAMCfg 64 0 1 512 (dlit 1 4) (dlit 1 8) (dlit 1 2) (dlit 1 4) (dlit 7 8) (dlit 3 4) 256000 30000 500.

Definition ex_am_pfi (addr : Z) : PrefetchInfo := mkPfi addr 0 0 true false 8 false addr true None.

Definition ex_ampm : AMPM unit LRUReplData :=
  the_result (ampm_new (R := LRUReplData) ex_am_cfg 4 1 (TaggedSetAssociative (mkIndexing 1 4 0 3 2))
                [[None]; [None]; [None]; [None]] tt) eq_refl.

Lemma ex_am_cfg_ok : am_cfg_ok ex_am_cfg.
Proof. split; [by vm_compute|done|by vm_compute|by exists (2 ^ 55)|by left]. Qed.

Lemma ex_ampm_wf : ampm_wf ex_ampm.
Proof.
  eapply (ampm_new_wf ex_am_cfg 1 4 (mkIndexing 1 4 0 3 2) [[None]; [None]; [None]; [None]] tt);
    [by intros; eexists|lia|lia|done|lia|by vm_compute|apply ex_am_cfg_ok|by vm_compute|apply the_result_ok].
Qed.

(** Lines 62, 63, 64 and 65, the first two in the zone before that of the others. *)
Definition ex_am_accesses : list (Z * PrefetchInfo) :=
  (λ a, (a, ex_am_pfi a)) <$> [0xf80; 0xfc0; 0x1000; 0x1040].

Lemma ex_am_runs : is_okb (run_accesses empty_cache ex_am_accesses ex_ampm) = true.
Proof. by vm_compute. Qed.

Definition ex_am_trained : AMPM unit LRUReplData :=
  (the_result (run_accesses empty_cache ex_am_accesses ex_ampm) ex_am_runs).1.

Lemma ex_am_trained_wf : ampm_wf ex_am_trained.
Proof.
  change (pf_inv ex_am_trained). apply (run_result_inv (D := AMPM unit LRUReplData) empty_cache ex_am_accesses ex_ampm ex_am_runs);
    [|exact ex_ampm_wf].
  repeat constructor; simpl; unfold in_u; lia.
Qed.

(** Line 66 is next: lines 67 and 68 match, at strides one and two, and the first is
    taken. *)
Lemma ampm_matches_map_witness :
  ampm_wf ex_am_trained ∧
  ∃ st', ampm_calculatePrefetch 5000 (ex_am_pfi 0x1080) ex_am_trained = Ok (st', [(0x10c0, 0)]).
Proof.
  split; [exact ex_am_trained_wf|].
  destruct (ampm_matches_map 5000 (ex_am_pfi 0x1080) ex_am_trained ex_am_trained_wf ltac:(by vm_compute))
    as (st' & E & _). exists st'. rewrite E. do 2 f_equal.
Defined.

(** The state of the example after an epoch with its accesses, and one without. *)
Lemma ex_am_epoch_ok : is_okb (processEpochEvent 128000000 ex_am_trained) = true.
Proof. by vm_compute. Qed.

Definition ex_am_idle : AMPM unit LRUReplData := the_result (processEpochEvent 128000000 ex_am_trained) ex_am_epoch_ok.

Lemma ex_am_idle_wf : ampm_wf ex_am_idle.
Proof.
  apply (epoch_wf 128000000 ex_am_trained); [exact ex_am_trained_wf|]. exact (the_result_ok _ ex_am_epoch_ok).
Qed.

Lemma ampm_idle_unlimited_witness :
  epoch_ready 256000000 ex_am_idle ∧
  ∃ st' st'' l, processEpochEvent 256000000 ex_am_idle = Ok st' ∧ am_degree st' = 0 ∧
    ampm_calculatePrefetch 256000001 (ex_am_pfi 0x1080) st' = Ok (st'', l) ∧ length l = 2%nat.
Proof.
  assert (epoch_ready 256000000 ex_am_idle) as Hr.
  { split; [by vm_compute|]. split; [exists 128000000; by vm_compute|]. by vm_compute. }
  split; [exact Hr|].
  destruct (ampm_idle_unlimited 256000000 256000001 (ex_am_pfi 0x1080) ex_am_idle ex_am_idle_wf Hr
    ltac:(by vm_compute) ltac:(by vm_compute)) as (st' & st'' & l & E1 & E2 & E3 & E4).
  exists st', st'', l. split; [exact E1|]. split; [exact E2|]. split; [exact E3|]. rewrite E4. vm_compute. reflexivity.
Defined.

(** With two sets the zones on both sides share an entry, and the assertion on them fails. *)
Example ampm_small_table :
  (st ← ampm_new (G := unit) (R := LRUReplData) ex_am_cfg 2 1 (TaggedSetAssociative (mkIndexing 1 2 0 1 1))
          [[None]; [None]] tt;
   ampm_calculatePrefetch 1 (ex_am_pfi 0x1080) st) = Stop (AssertFail "am_entry_prev != am_entry_next").
Proof. by vm_compute. Qed.
