(* ===== verification/SPP.v ===== *)
(** * Signature path prefetching

    [src/src/mem/cache/prefetch/signature_path.{hh,cc}] and its second version,
    [signature_path_v2.{hh,cc}].  The signature table maps a page to a compressed history of
    the strides in it; the pattern table maps such a signature to the strides that followed
    it, with counters.  An access follows the path of the most frequent strides from the
    current signature on, as long as the product of the confidences along it is above a
    threshold, and proposes every stride on the way that is confident enough.

    The two versions share the code and differ in virtual methods ([SPPOps]): the second
    keeps a register of paths that left their page, computes the confidences relative to a
    counter per signature, and has no next-line fallback.

    The theorems are that an access of the first version always returns, with the bound on
    the number of rounds that the cap of the confidence at 0.95 gives; that the candidate is
    the address of the block it was computed for, across pages; and that the second version,
    which has no cap, follows a path of constant stride forever while all issued prefetches
    have been useful. *)

From Stdlib Require Import ZArith QArith Lia Lqa SpecFloat.
From stdpp Require Import base numbers option list strings.
From S2P Require Import Prelude Double Interval SatCounter PrefetchBase PrefetchQueue Children.
From S2P Require Import Replacement Indexing AssocCache Tables.
#[local] Open Scope Z_scope.

(** ** Entries *)

Record SigMembers := mkSig { signature : Z; lastBlock : Z }.

(** [SignatureEntry] does not override [invalidate]. *)
#[export] Instance sig_reset : Reset SigMembers := λ m, m.

Abbreviation SignatureEntry := (With TaggedEntry SigMembers).

Record PatternStrideEntry := mkPSE { pse_stride : Z; pse_counter : SatCounter }.

Record PatternMembers := mkPattern { strideEntries : list PatternStrideEntry; pm_counter : SatCounter }.

#[export] Instance pattern_reset : Reset PatternMembers := λ m,
  mkPattern ((λ e, mkPSE 0 (sat_reset (pse_counter e))) <$> strideEntries m) (sat_reset (pm_counter m)).

Abbreviation PatternEntry := (With TaggedEntry PatternMembers).

Definition sig_entry_new : SignatureEntry := mkWith te_new (mkSig 0 0).

Definition pattern_entry_new (num_strides counter_bits : Z) : outcome PatternEntry :=
  c ← sat_new 8 counter_bits 0;
  Ok (mkWith te_new (mkPattern (replicate (Z.to_nat num_strides) (mkPSE 0 c)) c)).

Fixpoint find_from (stride : Z) (i : nat) (es : list PatternStrideEntry) : option nat :=
  match es with
  | [] => None
  | e :: es => if pse_stride e =? stride then Some i else find_from stride (S i) es
  end.

Definition findStride (stride : Z) (m : PatternMembers) : option nat := find_from stride 0 (strideEntries m).

(** The entry with the lowest counter, the first of them. *)
Fixpoint lowest (i victim : nat) (current_counter : Z) (es : list PatternStrideEntry) : nat :=
  match es with
  | [] => victim
  | e :: es =>
      if counter (pse_counter e) <? current_counter then lowest (S i) i (counter (pse_counter e)) es
      else lowest (S i) victim current_counter es
  end.

Definition pse_dec (e : PatternStrideEntry) : PatternStrideEntry := mkPSE (pse_stride e) (sat_dec (pse_counter e)).

Definition getStrideEntry (stride : Z) (m : PatternMembers) : outcome (nat * PatternMembers) :=
  match findStride stride m with
  | Some i => Ok (i, m)
  | None =>
      match strideEntries m with
      | [] => Stop (Panic "index out of range")
      | es =>
          let v := lowest 0 0 (2 ^ 64 - 1) es in
          Ok (v, mkPattern (alter (λ e, mkPSE stride (sat_reset (pse_counter e))) v (pse_dec <$> es)) (pm_counter m))
      end
  end.

(** ** The prefetcher *)

Record SPPCfg := mkSPPCfg {
  sp_base : BaseCfg;
  signatureShift : Z;
  signatureBits : Z;
  prefetchConfidenceThreshold : double;
  lookaheadConfidenceThreshold : double
}.

(** The virtual methods of the class; [X] is the state a derived class adds. *)
Record SPPOps (X : Type) := mkOps {
  calculateLookaheadConfidence : PatternMembers → PatternStrideEntry → double;
  calculatePrefetchConfidence : PatternMembers → PatternStrideEntry → double;
  increasePatternEntryCounter : PatternMembers → nat → outcome PatternMembers;
  handleSignatureTableMiss : Z → Z → X → outcome (Z * double * Z * X);
  handlePageCrossingLookahead : Z → Z → Z → Z → double → X → outcome X;
  nextLineFallback : bool
}.
Arguments mkOps {X} _ _ _ _ _ _.
Arguments calculateLookaheadConfidence {X} _ _ _.
Arguments calculatePrefetchConfidence {X} _ _ _.
Arguments increasePatternEntryCounter {X} _ _ _.
Arguments handleSignatureTableMiss {X} _ _ _ _.
Arguments handlePageCrossingLookahead {X} _ _ _ _ _ _ _.
Arguments nextLineFallback {X} _.

Record SPP (G R G' R' X : Type) := mkSPP {
  sp_cfg : SPPCfg;
  signatureTable : Tbl TaggedKey SignatureEntry G R;
  patternTable : Tbl TaggedKey PatternEntry G' R';
  sp_extra : X
}.
Arguments mkSPP {G R G' R' X} _ _ _ _.
Arguments sp_cfg {G R G' R' X} _.
Arguments signatureTable {G R G' R' X} _.
Arguments patternTable {G R G' R' X} _.
Arguments sp_extra {G R G' R' X} _.

(** [sig] is a [uint16_t], the stride an [int16_t]. *)
Definition updateSignature (cfg : SPPCfg) (sig str : Z) : Z :=
  Z.land (u16 (Z.lxor (u16 (Z.shiftl sig (signatureShift cfg))) str)) (u16 (mask (signatureBits cfg))).

Section SPP.
Context {G R G' R' X : Type} `{ReplPolicy G R} `{ReplPolicy G' R'} (ops : SPPOps X).
Implicit Types st : SPP G R G' R' X.

(** [curTick] is the time; [acc] the candidates so far. *)
Definition addPrefetch (curTick : Z) (cfg : SPPCfg) (ppn last_block delta : Z) (conf : double) (sig : Z)
    (acc : list AddrPriority * X) : outcome (list AddrPriority * X) :=
  let page := pageBytes (sp_base cfg) in
  let n := page / blkSize (sp_base cfg) in
  let block := i16 (last_block + delta) in
  let emit pf_ppn pf_block x :=
    Ok (acc.1 ++ [(u64 (u64 (pf_ppn * page) + u64 (pf_block * blkSize (sp_base cfg))), 0)], x) in
  if block <? 0 then
    _ ← panic_if (n =? 0) "division by zero";
    let num_cross_pages := i16 (1 + (- block) / n) in
    if ppn <? u64 num_cross_pages then Ok acc else
    x ← handlePageCrossingLookahead ops curTick sig last_block delta conf acc.2;
    emit (u64 (ppn - num_cross_pages)) (i16 (u64 (block + u64 (n * num_cross_pages)))) x
  else if n <=? block then
    _ ← panic_if (n =? 0) "division by zero";
    let num_cross_pages := i16 (block / n) in
    if MaxAddr / page <? u64 (ppn + num_cross_pages) then Ok acc else
    x ← handlePageCrossingLookahead ops curTick sig last_block delta conf acc.2;
    emit (u64 (ppn + num_cross_pages)) (i16 (u64 (block - u64 (n * num_cross_pages)))) x
  else emit ppn block acc.2.

(** The entry of the page, whether it is new, and the stride. *)
Definition getSignatureEntry (curTick ppn : Z) (is_secure : bool) (block : Z) st
    : outcome (nat * bool * Z * SPP G R G' R' X) :=
  let key := mkKey ppn is_secure in
  let T := signatureTable st in
  o ← t_findEntry T key;
  '(i, miss, stride, T, x) ←
    match o with
    | Some i =>
        T ← t_accessEntry curTick T i;
        e ← t_get T i;
        Ok (i, false, i16 (block - lastBlock (w_data e)), T, sp_extra st)
    | None =>
        '(i, T) ← t_findVictim T key;
        '(sig, _, stride, x) ← handleSignatureTableMiss ops curTick block (sp_extra st);
        e ← t_get T i;
        let T := t_put T i (mkWith (w_base e) (mkSig sig (lastBlock (w_data e)))) in
        T ← t_insertEntry curTick T key i;
        Ok (i, true, stride, T, x)
    end;
  e ← t_get T i;
  let T := t_put T i (mkWith (w_base e) (mkSig (signature (w_data e)) block)) in
  Ok (i, miss, stride, mkSPP (sp_cfg st) T (patternTable st) x).

Definition getPatternEntry (curTick sig : Z) (T : Tbl TaggedKey PatternEntry G' R')
    : outcome (nat * Tbl TaggedKey PatternEntry G' R') :=
  t_find_or_insert curTick T (mkKey sig false).

Definition updatePatternTable (curTick sig stride : Z) (T : Tbl TaggedKey PatternEntry G' R')
    : outcome (Tbl TaggedKey PatternEntry G' R') :=
  _ ← assert_that (negb (stride =? 0)) "stride != 0";
  '(i, T) ← getPatternEntry curTick sig T;
  e ← t_get T i;
  '(k, m) ← getStrideEntry stride (w_data e);
  m ← increasePatternEntryCounter ops m k;
  Ok (t_put T i (mkWith (w_base e) m)).

(** One round of the search: the strides of the entry, the highest counter so far and its
    stride entry. *)
Fixpoint scan_strides (curTick : Z) (cfg : SPPCfg) (ppn base : Z) (conf : double) (sig : Z) (m : PatternMembers)
    (es : list PatternStrideEntry) (max_counter : Z) (lookahead : option PatternStrideEntry)
    (acc : list AddrPriority * X) : outcome (option PatternStrideEntry * (list AddrPriority * X)) :=
  match es with
  | [] => Ok (lookahead, acc)
  | e :: es =>
      let higher := max_counter <? counter (pse_counter e) in
      let max_counter := if higher then counter (pse_counter e) else max_counter in
      let lookahead := if higher then Some e else lookahead in
      acc ← (if dleb (prefetchConfidenceThreshold cfg) (calculatePrefetchConfidence ops m e) then
               _ ← assert_that (negb (pse_stride e =? 0)) "entry.stride != 0";
               addPrefetch curTick cfg ppn base (pse_stride e) conf sig acc
             else Ok acc);
      scan_strides curTick cfg ppn base conf sig m es max_counter lookahead acc
  end.

(** The search; [None] while it has not ended when the fuel is used up. *)
Fixpoint lookahead_loop (fuel : nat) (curTick : Z) (cfg : SPPCfg) (T : Tbl TaggedKey PatternEntry G' R')
    (ppn : Z) (is_secure : bool) (conf : double) (sig base : Z) (acc : list AddrPriority * X)
    : outcome (option (list AddrPriority * X)) :=
  if negb (dgtb conf (lookaheadConfidenceThreshold cfg)) then Ok (Some acc) else
  match fuel with
  | O => Ok None
  | S fuel =>
      o ← t_findEntry T (mkKey sig is_secure);
      match o with
      | Some i =>
          e ← t_get T i;
          '(lookahead, acc) ← scan_strides curTick cfg ppn base conf sig (w_data e)
                                (strideEntries (w_data e)) 0 None acc;
          match lookahead with
          | Some l =>
              lookahead_loop fuel curTick cfg T ppn is_secure
                (dmul conf (calculateLookaheadConfidence ops (w_data e) l))
                (updateSignature cfg sig (pse_stride l)) (i16 (base + pse_stride l)) acc
          | None => lookahead_loop fuel curTick cfg T ppn is_secure d0 sig base acc
          end
      | None => lookahead_loop fuel curTick cfg T ppn is_secure d0 sig base acc
      end
  end.

Definition auxiliaryPrefetcher (curTick : Z) (cfg : SPPCfg) (ppn current_block : Z)
    (acc : list AddrPriority * X) : outcome (list AddrPriority * X) :=
  if nextLineFallback ops && bool_decide (acc.1 = []) then addPrefetch curTick cfg ppn current_block 1 d0 0 acc
  else Ok acc.

Definition spp_calculate (fuel : nat) (curTick : Z) (pfi : PrefetchInfo) st
    : outcome (option (SPP G R G' R' X * list AddrPriority)) :=
  let cfg := sp_cfg st in
  let page := pageBytes (sp_base cfg) in
  let ppn := pfi_address pfi / page in
  let current_block := i16 (pfi_address pfi mod page / blkSize (sp_base cfg)) in
  '(i, miss, stride, st) ← getSignatureEntry curTick ppn (pfi_secure pfi) current_block st;
  if (miss : bool) then Ok (Some (st, [])) else
  if stride =? 0 then Ok (Some (st, [])) else
  e ← t_get (signatureTable st) i;
  PT ← updatePatternTable curTick (signature (w_data e)) stride (patternTable st);
  let sig := updateSignature cfg (signature (w_data e)) stride in
  let ST := t_put (signatureTable st) i (mkWith (w_base e) (mkSig sig (lastBlock (w_data e)))) in
  r ← lookahead_loop fuel curTick cfg PT ppn (pfi_secure pfi) d1 sig (lastBlock (w_data e)) ([], sp_extra st);
  match r with
  | None => Ok None
  | Some acc =>
      acc ← auxiliaryPrefetcher curTick cfg ppn current_block acc;
      Ok (Some (mkSPP cfg ST PT acc.2, acc.1))
  end.
End SPP.

(** ** The first version *)

(** [0.95]. *)
Definition d95 : double := dlit 95 100.

(** [SignaturePath]'s own methods. *)
Definition spp_lookahead_confidence (_ : PatternMembers) (l : PatternStrideEntry) : double :=
  let c := calcSaturation (pse_counter l) in if dgtb c d95 then d95 else c.

Definition spp_prefetch_confidence (_ : PatternMembers) (e : PatternStrideEntry) : double :=
  calcSaturation (pse_counter e).

Definition pse_inc (e : PatternStrideEntry) : PatternStrideEntry := mkPSE (pse_stride e) (sat_inc (pse_counter e)).

Definition spp_increase (m : PatternMembers) (k : nat) : outcome PatternMembers :=
  Ok (mkPattern (alter pse_inc k (strideEntries m)) (pm_counter m)).

Definition spp_table_miss (_ current_block : Z) (x : unit) : outcome (Z * double * Z * unit) :=
  Ok (u16 current_block, d1, current_block, x).

Definition spp_page_crossing (curTick sig last_offset delta : Z) (conf : double) (x : unit) : outcome unit := Ok x.

Definition SignaturePath : SPPOps unit :=
  mkOps spp_lookahead_confidence spp_prefetch_confidence spp_increase spp_table_miss spp_page_crossing true.

(** ** The second version *)

Record GHMembers := mkGH { gh_signature : Z; gh_confidence : double; gh_lastBlock : Z; gh_delta : Z }.

#[export] Instance gh_reset : Reset GHMembers := λ m, m.

Abbreviation GlobalHistoryEntry := (With TaggedEntry GHMembers).

Section V2.
Context {Gh Rh : Type} `{ReplPolicy Gh Rh}.
Abbreviation GHR := (Tbl TaggedKey GlobalHistoryEntry Gh Rh).

Definition gh_entry_new : GlobalHistoryEntry := mkWith te_new (mkGH 0 d0 0 0).

(** The first entry whose path continues at the block. *)
Fixpoint gh_search (T : GHR) (current_block : Z) (l : list nat) : outcome (option (nat * GHMembers)) :=
  match l with
  | [] => Ok None
  | i :: l =>
      e ← t_get T i;
      if gh_lastBlock (w_data e) + gh_delta (w_data e) =? current_block then Ok (Some (i, w_data e))
      else gh_search T current_block l
  end.

Definition spp2_table_miss (curTick current_block : Z) (T : GHR) : outcome (Z * double * Z * GHR) :=
  o ← gh_search T current_block (t_indices T);
  match o with
  | Some (i, g) => T ← t_accessEntry curTick T i; Ok (gh_signature g, gh_confidence g, gh_delta g, T)
  | None => Ok (u16 current_block, d1, current_block, T)
  end.

Definition spp2_lookahead_confidence (useful issued : Z) (m : PatternMembers) (l : PatternStrideEntry) : double :=
  if counter (pm_counter m) =? 0 then d0 else
  dmul (ddiv (d_of_Z useful) (d_of_Z issued)) (ddiv (d_of_Z (counter (pse_counter l))) (d_of_Z (counter (pm_counter m)))).

Definition spp2_prefetch_confidence (m : PatternMembers) (e : PatternStrideEntry) : double :=
  if counter (pm_counter m) =? 0 then d0 else
  ddiv (d_of_Z (counter (pse_counter e))) (d_of_Z (counter (pm_counter m))).

(** [>>= 1] on the counter of the entry and on those of its strides. *)
Definition halve (c : SatCounter) : SatCounter := with_counter c (Z.shiftr (counter c) 1).

Definition halve_all (m : PatternMembers) : PatternMembers :=
  mkPattern ((λ e, mkPSE (pse_stride e) (halve (pse_counter e))) <$> strideEntries m) (halve (pm_counter m)).

Definition stride_saturated (m : PatternMembers) (k : nat) : bool :=
  match strideEntries m !! k with Some e => isSaturated (pse_counter e) | None => false end.

Definition spp2_increase (m : PatternMembers) (k : nat) : outcome PatternMembers :=
  let m := if isSaturated (pm_counter m) then halve_all m else m in
  let m := if stride_saturated m k then halve_all m else m in
  Ok (mkPattern (alter pse_inc k (strideEntries m)) (sat_inc (pm_counter m))).

Definition spp2_page_crossing (curTick sig last_offset delta : Z) (conf : double) (T : GHR) : outcome GHR :=
  let key := mkKey 0 false in
  '(i, T) ← t_findVictim T key;
  T ← t_insertEntry curTick T key i;
  e ← t_get T i;
  Ok (t_put T i (mkWith (w_base e) (mkGH sig conf last_offset delta))).

(** [useful] and [issued] are the counters of the base class. *)
Definition SignaturePathV2 (useful issued : Z) : SPPOps GHR :=
  mkOps (spp2_lookahead_confidence useful issued) spp2_prefetch_confidence spp2_increase spp2_table_miss
    spp2_page_crossing false.
End V2.

(** ** Construction *)

Section New.
Context {G R G' R' X : Type} `{ReplPolicy G R} `{ReplPolicy G' R'}.

(** [ip] and [sets] of the two tables come from their indexing policies. *)
Definition spp_new (cfg : SPPCfg) (strides_per_pattern_entry num_counter_bits : Z)
    (st_entries st_assoc : Z) (st_ip : IndexingPolicy TaggedKey) (st_sets : list (list ref)) (g : G)
    (pt_entries pt_assoc : Z) (pt_ip : IndexingPolicy TaggedKey) (pt_sets : list (list ref)) (g' : G') (x : X)
    : outcome (SPP G R G' R' X) :=
  ST ← t_new st_ip st_entries st_assoc sig_entry_new st_sets g;
  e ← pattern_entry_new strides_per_pattern_entry num_counter_bits;
  PT ← t_new pt_ip pt_entries pt_assoc e pt_sets g';
  _ ← fatal_if (dltb (prefetchConfidenceThreshold cfg) d0)
        "The prefetch confidence threshold must be greater than 0";
  _ ← fatal_if (dgtb (prefetchConfidenceThreshold cfg) d1)
        "The prefetch confidence threshold must be less than 1";
  _ ← fatal_if (dltb (lookaheadConfidenceThreshold cfg) d0)
        "The lookahead confidence threshold must be greater than 0";
  _ ← fatal_if (dgtb (lookaheadConfidenceThreshold cfg) d1)
        "The lookahead confidence threshold must be less than 1";
  Ok (mkSPP cfg ST PT x).
End New.

(** ** The confidence of a path *)

Section Decay.
#[local] Open Scope Q_scope.

(** Bounds that a factor of at most 31/32 descends by one: 64, 63, .. 33 parts of 64, then
    the same of half the unit. *)
Definition decay (k : nat) : Q :=
  inject_Z (64 - Z.of_nat (k mod 32)) * bp (- (6 + Z.of_nat (k / 32))).

Lemma decay_0 : decay 0 == 1.
Proof. reflexivity. Qed.

Lemma decay_S k : decay (S k) == inject_Z (64 - Z.of_nat (k mod 32) - 1) * bp (- (6 + Z.of_nat (k / 32))).
Proof.
  unfold decay. pose proof (Nat.mod_upper_bound k 32 ltac:(lia)).
  pose proof (Nat.div_mod k 32 ltac:(lia)) as Ek.
  destruct (decide (k mod 32 = 31)%nat) as [E|E].
  - assert (S k / 32 = S (k / 32) ∧ S k mod 32 = 0)%nat as [-> ->].
    { split; [symmetry; apply (Nat.div_unique _ _ _ 0)|symmetry; apply (Nat.mod_unique _ _ (S (k / 32)))]; lia. }
    rewrite E. change (64 - Z.of_nat 0)%Z with 64%Z. change (64 - Z.of_nat 31 - 1)%Z with 32%Z.
    replace (- (6 + Z.of_nat (S (k / 32))))%Z with (- 1 + - (6 + Z.of_nat (k / 32)))%Z by lia.
    rewrite bp_plus. change (bp (-1)) with (1 # 2). change (inject_Z 64) with (2 * inject_Z 32). field.
  - assert (S k / 32 = k / 32 ∧ S k mod 32 = S (k mod 32))%nat as [-> ->].
    { split; [symmetry; apply (Nat.div_unique _ _ _ (S (k mod 32)))|symmetry; apply (Nat.mod_unique _ _ (k / 32))]; lia. }
    replace (64 - Z.of_nat (S (k mod 32)))%Z with (64 - Z.of_nat (k mod 32) - 1)%Z by lia. reflexivity.
Qed.

Lemma decay_pos k : 0 <= decay k.
Proof.
  unfold decay. apply Qmult_le_0_compat; [|apply Qlt_le_weak, bp_pos].
  change 0 with (inject_Z 0). rewrite <-Zle_Qle. pose proof (Nat.mod_upper_bound k 32). lia.
Qed.

Lemma decay_repr k : (k < 32 * 900)%nat → repr (decay k).
Proof.
  intros Hk. pose proof (Nat.mod_upper_bound k 32). apply dyadic_double; [lia|].
  pose proof (Nat.Div0.div_lt_upper_bound k 32 900 ltac:(lia)). lia.
Qed.

Lemma decay_step k : (31 # 32) * decay k <= decay (S k).
Proof.
  rewrite decay_S. unfold decay. set (b := bp _). assert (0 < b) by apply bp_pos.
  pose proof (Nat.mod_upper_bound k 32 ltac:(lia)).
  set (q := (64 - Z.of_nat (k mod 32))%Z). assert (33 <= q <= 64)%Z as Hq by lia.
  change (q - 1)%Z with (q + - 1)%Z. rewrite inject_Z_plus.
  assert (inject_Z 33 <= inject_Z q) as Hq' by (rewrite <-Zle_Qle; lia).
  change (inject_Z 33) with 33 in Hq'. change (inject_Z (-1)) with (-1). nra.
Qed.

Lemma decay_below K k : (32 * K ≤ k)%nat → decay k <= bp (- Z.of_nat K).
Proof.
  intros Hk. unfold decay.
  assert (Z.of_nat K <= Z.of_nat (k / 32))%Z as Hd.
  { apply inj_le. apply Nat.div_le_lower_bound; lia. }
  assert (bp (- (6 + Z.of_nat (k / 32))) <= bp (- (6 + Z.of_nat K))) as Hb by (apply bp_le; lia).
  assert (inject_Z (64 - Z.of_nat (k mod 32)) <= inject_Z 64) as Hm by (rewrite <-Zle_Qle; lia).
  assert (0 <= inject_Z (64 - Z.of_nat (k mod 32))) as H0.
  { change 0 with (inject_Z 0). rewrite <-Zle_Qle. pose proof (Nat.mod_upper_bound k 32). lia. }
  assert (inject_Z 64 * bp (- (6 + Z.of_nat K)) == bp (- Z.of_nat K)) as <-.
  { change 64%Z with (2 ^ 6)%Z. rewrite <-(bp_nonneg_Z 6), <-bp_plus by lia.
    by replace (6 + - (6 + Z.of_nat K))%Z with (- Z.of_nat K)%Z by lia. }
  pose proof (bp_pos (- (6 + Z.of_nat (k / 32)))). pose proof (bp_pos (- (6 + Z.of_nat K))). nra.
Qed.

Lemma d95_bound : dok d95 = true ∧ 0 <= dval d95 ∧ dval d95 <= 31 # 32.
Proof. vm_compute. repeat split; discriminate. Qed.

(** One round of the path. *)
Lemma decay_mul k conf c :
  (k < 32 * 800)%nat → within conf 0 (decay k) → within c 0 (dval d95) → within (dmul conf c) 0 (decay (S k)).
Proof.
  intros Hk (Oc & C1 & C2) (Od & D1 & D2). destruct d95_bound as (_ & _ & Hd).
  apply (rounds_within _ _ _ _ (dmul_rounds conf c Oc Od)); [exact (repr_Z 0 ltac:(lia))|apply decay_repr; lia| |].
  - by apply Qmult_le_0_compat.
  - eapply Qle_trans; [|apply decay_step]. pose proof (decay_pos k).
    rewrite (Qmult_comm (31 # 32)). apply Qle_trans with (decay k * dval c).
    + by apply Qmult_le_compat_r.
    + rewrite !(Qmult_comm (decay k)). apply Qmult_le_compat_r; [lra|done].
Qed.

(** Confidence that has decayed this far is below the threshold. *)
Lemma decayed K k conf thr :
  (32 * K ≤ k)%nat → within conf 0 (decay k) → dok thr = true → bp (- Z.of_nat K) <= dval thr → dgtb conf thr = false.
Proof.
  intros Hk (Oc & _ & C2) Ot Ht. apply not_true_iff_false. unfold dgtb. intros E. apply (dltb_spec thr conf Ot Oc) in E.
  pose proof (decay_below K k Hk). lra.
Qed.
End Decay.

(** ** What the methods must do *)

(** [Q] holds of the members of every pattern entry and [I] of the added state; a candidate
    has a stride. *)
Record SPPLaws {X : Type} (ops : SPPOps X) (thr : double) (Q : PatternMembers → Prop) (I : X → Prop) : Prop := {
  sl_reset m : Q m → Q (reset_members m);
  sl_update m stride : Q m → stride ≠ 0 →
    ∃ k m1 m2, getStrideEntry stride m = Ok (k, m1) ∧ increasePatternEntryCounter ops m1 k = Ok m2 ∧ Q m2;
  sl_candidate m e : Q m → e ∈ strideEntries m → dleb thr (calculatePrefetchConfidence ops m e) = true → pse_stride e ≠ 0;
  sl_miss t b x : I x → ∃ sig c str x', handleSignatureTableMiss ops t b x = Ok (sig, c, str, x') ∧ I x';
  sl_cross t sig last delta c x : I x → ∃ x', handlePageCrossingLookahead ops t sig last delta c x = Ok x' ∧ I x'
}.
Arguments sl_reset {X ops thr Q I} _.
Arguments sl_update {X ops thr Q I} _.
Arguments sl_candidate {X ops thr Q I} _.
Arguments sl_miss {X ops thr Q I} _.
Arguments sl_cross {X ops thr Q I} _.

(** A confidence along the path is at most 0.95. *)
Definition capped {X : Type} (ops : SPPOps X) (Q : PatternMembers → Prop) : Prop := ∀ m e,
  Q m → e ∈ strideEntries m → 0 < counter (pse_counter e) →
  within (calculateLookaheadConfidence ops m e) 0 (dval d95).

(** Pages of a number of blocks that a stride can count. *)
Record spp_cfg_ok (cfg : SPPCfg) (n : Z) : Prop := {
  sc_blk : 0 < blkSize (sp_base cfg);
  sc_page : pageBytes (sp_base cfg) = n * blkSize (sp_base cfg);
  sc_blocks : 0 < n ≤ 2 ^ 15;
  sc_space : (pageBytes (sp_base cfg) | 2 ^ 64)
}.

Section Total.
Context {G R G' R' X : Type} `{RL : ReplLaws G R} `{RL' : ReplLaws G' R'} (ops : SPPOps X).
Context (cfg : SPPCfg) (n : Z) (Hcfg : spp_cfg_ok cfg n) (Q : PatternMembers → Prop) (I : X → Prop).
Context (L : SPPLaws ops (prefetchConfidenceThreshold cfg) Q I).

Lemma blocks_eq : pageBytes (sp_base cfg) / blkSize (sp_base cfg) = n.
Proof using Hcfg. destruct Hcfg as [Hb Hp _ _]. rewrite Hp. apply Z.div_mul. lia. Qed.

Lemma addPrefetch_total t ppn last delta conf sig acc :
  I acc.2 → ∃ acc', addPrefetch ops t cfg ppn last delta conf sig acc = Ok acc' ∧ I acc'.2.
Proof using Hcfg L.
  intros Hx. destruct Hcfg as [_ _ Hn _]. unfold addPrefetch. rewrite blocks_eq, (proj2 (Z.eqb_neq n 0)) by lia.
  unfold panic_if. destruct (_ <? 0); [|destruct (_ <=? _); [|by eauto]]; run_ok; case_match; eauto;
    destruct (sl_cross L t sig last delta conf acc.2 Hx) as (x' & -> & Hx'); run_ok; eauto.
Qed.

Lemma scan_total t ppn base conf sig m es mc la acc :
  Q m → es ⊆ strideEntries m → 0 ≤ mc → (∀ l, la = Some l → l ∈ strideEntries m ∧ 0 < counter (pse_counter l)) → I acc.2 →
  ∃ la' acc', scan_strides ops t cfg ppn base conf sig m es mc la acc = Ok (la', acc') ∧ I acc'.2 ∧
    ∀ l, la' = Some l → l ∈ strideEntries m ∧ 0 < counter (pse_counter l).
Proof using Hcfg L.
  intros HQ. revert mc la acc. induction es as [|e es IH]; intros mc la acc Hes Hmc Hla Hx.
  { by exists la, acc. }
  assert (e ∈ strideEntries m) as He by (apply Hes; left). assert (es ⊆ strideEntries m) as Hes' by (intros y Hy; apply Hes; by right).
  cbn [scan_strides].
  assert (∃ acc', (if dleb (prefetchConfidenceThreshold cfg) (calculatePrefetchConfidence ops m e) then
               _ ← assert_that (negb (pse_stride e =? 0)) "entry.stride != 0";
               addPrefetch ops t cfg ppn base (pse_stride e) conf sig acc
             else Ok acc) = Ok acc' ∧ I acc'.2) as (acc' & -> & Hx').
  { destruct (dleb _ _) eqn:Ed; [|eauto]. pose proof (sl_candidate L m e HQ He Ed) as Hs.
    rewrite (proj2 (Z.eqb_neq _ _) Hs). run_ok. by apply addPrefetch_total. }
  run_ok. destruct (Z.ltb_spec mc (counter (pse_counter e))); apply IH; try done; [lia|].
  intros l [= <-]. split; [done|lia].
Qed.

Lemma lookahead_total (Hcap : capped ops Q) K (T : Tbl TaggedKey PatternEntry G' R') : (K ≤ 800)%nat → dok (lookaheadConfidenceThreshold cfg) = true →
  (bp (- Z.of_nat K) <= dval (lookaheadConfidenceThreshold cfg))%Q → t_ok T → t_all Q T →
  ∀ fuel k t ppn sec conf sig base acc,
    within conf 0 (decay k) → (32 * K ≤ k + fuel)%nat → I acc.2 →
    ∃ acc', lookahead_loop ops fuel t cfg T ppn sec conf sig base acc = Ok (Some acc') ∧ I acc'.2.
Proof using Hcfg L RL'.
  intros HK Ot Ht Hok Hall. induction fuel as [|fuel IH]; intros k t ppn sec conf sig base acc Hc Hk Hx; cbn [lookahead_loop].
  { rewrite (decayed K k) by (done || lia). simpl. eauto. }
  destruct (decide (32 * K ≤ k)%nat) as [Hd|Hd].
  { rewrite (decayed K k) by done. simpl. eauto. }
  destruct (negb _); [by eauto|].
  assert (within d0 0 (decay (S k))) as Hz by (split; [done|]; split; [by vm_compute|apply decay_pos]).
  destruct (t_find_total T (mkKey sig sec) Hok) as [->|(i & e & [-> He] & _)]; run_ok.
  { apply (IH (S k)); [done|lia|done]. }
  rewrite (t_get_ok _ _ _ He). run_ok. pose proof (t_all_at _ _ _ _ Hall He) as HQ.
  destruct (scan_total t ppn base conf sig (w_data e) (strideEntries (w_data e)) 0 None acc)
    as (la & acc' & -> & Hx' & Hl); [done..|]. run_ok.
  destruct la as [l|]; [|apply (IH (S k)); [done|lia|done]].
  destruct (Hl l eq_refl) as [Hin Hpos].
  apply (IH (S k)); [|lia|done]. apply decay_mul; [lia|done|by apply Hcap].
Qed.

Lemma update_total t sig stride (T : Tbl TaggedKey PatternEntry G' R') :
  t_ok T → t_all Q T → stride ≠ 0 →
  ∃ T', updatePatternTable ops t sig stride T = Ok T' ∧ t_ok T' ∧ t_all Q T'.
Proof using L RL'.
  intros Hok Hall Hs. unfold updatePatternTable. rewrite (proj2 (Z.eqb_neq _ _) Hs). run_ok.
  destruct (t_entry_spec Q (sl_reset L) t T (mkKey sig false) Hok Hall)
    as (i & T1 & e & E & Hok1 & _ & _ & Hall1 & [_ He] & HQ).
  unfold getPatternEntry. rewrite E. run_ok. rewrite (t_get_ok _ _ _ He). run_ok.
  destruct (sl_update L (w_data e) stride HQ Hs) as (k & m1 & m2 & -> & E2 & HQ2). run_ok. rewrite E2. run_ok.
  eexists. split; [done|]. split; [by apply t_put_ok|by apply t_all_put].
Qed.

Lemma getSignatureEntry_total t ppn sec block (st : SPP G R G' R' X) :
  t_ok (signatureTable st) → I (sp_extra st) →
  ∃ i miss stride st' e, getSignatureEntry ops t ppn sec block st = Ok (i, miss, stride, st') ∧
    t_ok (signatureTable st') ∧ I (sp_extra st') ∧ patternTable st' = patternTable st ∧ sp_cfg st' = sp_cfg st ∧
    t_found (signatureTable st') (mkKey ppn sec) i e ∧ lastBlock (w_data e) = block.
Proof using L RL.
  intros Hok Hx. unfold getSignatureEntry.
  assert (∀ i0 (miss0 : bool) (stride0 : Z) (T : Tbl TaggedKey SignatureEntry G R) x e0, t_ok T → t_found T (mkKey ppn sec) i0 e0 → I x →
    ∃ i miss stride (st' : SPP G R G' R' X) e,
      (e ← t_get T i0;
       let T := t_put T i0 (mkWith (w_base e) (mkSig (signature (w_data e)) block)) in
       Ok (i0, miss0, stride0, mkSPP (sp_cfg st) T (patternTable st) x)) = Ok (i, miss, stride, st') ∧
    t_ok (signatureTable st') ∧ I (sp_extra st') ∧ patternTable st' = patternTable st ∧ sp_cfg st' = sp_cfg st ∧
    t_found (signatureTable st') (mkKey ppn sec) i e ∧ lastBlock (w_data e) = block) as Hfin.
  { intros i0 miss0 stride0 T x e0 HokT Hf Hx'. rewrite (t_get_ok _ _ e0) by apply Hf. run_ok.
    eexists i0, miss0, stride0, _, _. split; [done|]. cbn [signatureTable sp_extra patternTable sp_cfg].
    split_and!; [by apply t_put_ok|done|done|done|by apply (t_put_found _ _ _ e0)|done]. }
  destruct (t_find_total _ (mkKey ppn sec) Hok) as [Hm|(i & e & Hf & _)].
  - rewrite Hm. run_ok.
    destruct (t_alloc_spec t _ _ Hok Hm) as (v & T1 & e0 & -> & _ & He0 & Hu & He1 & Hins). run_ok.
    destruct (sl_miss L t block _ Hx) as (sig & c & str & x' & -> & Hx'). run_ok.
    assert (t_entries T1 !! v = Some (e_invalidate (K := TaggedKey) e0)) as Hv.
    { rewrite He1. apply list_lookup_insert_eq. by eapply lookup_lt_Some. }
    rewrite (t_get_ok _ _ _ Hv). run_ok.
    destruct (Hins (mkWith (w_base (e_invalidate (K := TaggedKey) e0))
      (mkSig sig (lastBlock (w_data (e_invalidate (K := TaggedKey) e0)))))) as (T2 & e2 & -> & _ & Hu2 & Hf2 & _).
    { apply (law_e_invalidate (K := TaggedKey) (w_base e0)). }
    run_ok. apply (Hfin v true str T2 x' e2); [by eapply t_upd_ok|done..].
  - rewrite (proj1 Hf). run_ok.
    destruct (t_access_spec t _ _ i e Hok Hf) as (T' & -> & Hu & He & Hfind). run_ok.
    rewrite (t_get_ok _ _ e) by (rewrite He; apply Hf). run_ok.
    eapply (Hfin i); [by eapply t_upd_ok| |done].
    split; [by rewrite Hfind; apply Hf|]. rewrite He. apply Hf.
Qed.

(** The invariant of the prefetcher. *)
Record spp_wf (st : SPP G R G' R' X) : Prop := {
  sw_cfg : sp_cfg st = cfg;
  sw_sig : t_ok (signatureTable st);
  sw_pat : t_ok (patternTable st);
  sw_all : t_all Q (patternTable st);
  sw_extra : I (sp_extra st)
}.

Lemma spp_total (Hcap : capped ops Q) K fuel t pfi (st : SPP G R G' R' X) :
  (K ≤ 800)%nat → dok (lookaheadConfidenceThreshold cfg) = true →
  (bp (- Z.of_nat K) <= dval (lookaheadConfidenceThreshold cfg))%Q → (32 * K ≤ fuel)%nat → spp_wf st →
  ∃ st' l, spp_calculate ops fuel t pfi st = Ok (Some (st', l)) ∧ spp_wf st'.
Proof using Hcfg L RL RL'.
  intros HK Ot Ht Hfuel [Ec Hsig Hpat Hall Hx]. unfold spp_calculate. rewrite Ec.
  destruct (getSignatureEntry_total t (pfi_address pfi / pageBytes (sp_base cfg)) (pfi_secure pfi)
    (i16 (pfi_address pfi mod pageBytes (sp_base cfg) / blkSize (sp_base cfg))) st Hsig Hx)
    as (i & miss & stride & st1 & e & -> & Hsig1 & Hx1 & Ep1 & Ec1 & Hf & _). run_ok.
  assert (spp_wf st1) as Hwf1 by (split; congruence || done).
  destruct miss; [eauto|]. destruct (Z.eqb_spec stride 0) as [|Hs]; [eauto|].
  rewrite (t_get_ok _ _ e) by apply Hf. run_ok. rewrite Ep1.
  destruct (update_total t (signature (w_data e)) stride (patternTable st) Hpat Hall Hs) as (PT & -> & Hpat' & Hall').
  run_ok.
  destruct (lookahead_total Hcap K PT HK Ot Ht Hpat' Hall' fuel 0 t (pfi_address pfi / pageBytes (sp_base cfg))
    (pfi_secure pfi) d1 (updateSignature cfg (signature (w_data e)) stride) (lastBlock (w_data e)) ([], sp_extra st1))
    as (acc & -> & Hxa); [by vm_compute|lia|done|]. run_ok. unfold auxiliaryPrefetcher.
  destruct (nextLineFallback ops && bool_decide (acc.1 = [])).
  - destruct (addPrefetch_total t (pfi_address pfi / pageBytes (sp_base cfg))
      (i16 (pfi_address pfi mod pageBytes (sp_base cfg) / blkSize (sp_base cfg))) 1 d0 0 acc Hxa) as (acc' & -> & Hx').
    run_ok. eexists _, _. split; [done|]. split; [done|by apply t_put_ok|done..].
  - run_ok. eexists _, _. split; [done|]. split; [done|by apply t_put_ok|done..].
Qed.
End Total.

(** ** The stride entries *)

Lemma find_from_spec stride i es k :
  find_from stride i es = Some k → ∃ e, es !! (k - i)%nat = Some e ∧ (i ≤ k)%nat ∧ pse_stride e = stride.
Proof.
  revert i. induction es as [|e es IH]; intros i; [done|]. simpl.
  destruct (Z.eqb_spec (pse_stride e) stride) as [E|].
  - intros [= ->]. exists e. by rewrite Nat.sub_diag.
  - intros (e' & Hl & Hi & He)%IH. exists e'. replace (k - i)%nat with (S (k - S i)) by lia. split_and!; [done|lia|done].
Qed.

Lemma lowest_bound i v c es : (v < i + length es)%nat → (lowest i v c es < i + length es)%nat.
Proof.
  revert i v c. induction es as [|e es IH]; intros i v c Hv; [done|]. simpl in *.
  destruct (_ <? c); (eapply Nat.lt_le_trans; [apply IH|]); lia.
Qed.

Lemma getStrideEntry_spec (P : PatternStrideEntry → Prop) stride m :
  strideEntries m ≠ [] → Forall P (strideEntries m) → (∀ e, P e → P (pse_dec e)) →
  (∀ e, P e → P (mkPSE stride (sat_reset (pse_counter e)))) →
  ∃ k m1 e, getStrideEntry stride m = Ok (k, m1) ∧ pm_counter m1 = pm_counter m ∧ strideEntries m1 ≠ [] ∧
    Forall P (strideEntries m1) ∧ strideEntries m1 !! k = Some e ∧ pse_stride e = stride.
Proof.
  intros Hne Hall Hd Hr. unfold getStrideEntry, findStride.
  destruct (find_from stride 0 (strideEntries m)) as [k|] eqn:Ef.
  { apply find_from_spec in Ef as (e & He & _ & Hs). rewrite Nat.sub_0_r in He. by exists k, m, e. }
  set (v := lowest 0 0 (2 ^ 64 - 1) (strideEntries m)).
  assert (v < length (strideEntries m))%nat as Hv.
  { apply (lowest_bound 0 0). simpl. destruct (strideEntries m); [done|simpl; lia]. }
  assert (Forall P (pse_dec <$> strideEntries m)) as Hall'.
  { rewrite Forall_fmap. eapply Forall_impl; [done|]. intros e He. by apply Hd. }
  destruct (lookup_lt_is_Some_2 (pse_dec <$> strideEntries m) v) as [e He]; [by rewrite length_fmap|].
  exists v, (mkPattern (alter (λ e, mkPSE stride (sat_reset (pse_counter e))) v (pse_dec <$> strideEntries m)) (pm_counter m)),
    (mkPSE stride (sat_reset (pse_counter e))).
  split_and!; [unfold v; by destruct (strideEntries m)|done| | | |done]; simpl.
  - intros E%(f_equal length). rewrite length_alter, length_fmap in E. simpl in E. lia.
  - apply Forall_alter; [done|]. auto.
  - rewrite list_lookup_alter_eq, He. done.
Qed.

(** An unused entry counts nothing. *)
Definition pse_wf (e : PatternStrideEntry) : Prop :=
  count_wf (pse_counter e) ∧ (pse_stride e = 0 → counter (pse_counter e) = 0).

Lemma pse_dec_wf e : pse_wf e → pse_wf (pse_dec e).
Proof.
  intros [Hc Hz]. destruct (count_dec _ Hc) as (Hc' & Hle & _). split; [done|]. simpl. intros E. specialize (Hz E).
  unfold count_wf, sat_wf in Hc'. lia.
Qed.

Lemma pse_reset_wf s e : pse_wf e → pse_wf (mkPSE s (sat_reset (pse_counter e))).
Proof. intros [Hc _]. by destruct (count_reset _ Hc). Qed.

Lemma pse_inc_wf e : pse_wf e → pse_stride e ≠ 0 → pse_wf (pse_inc e).
Proof. intros [Hc _] Hs. split; [by apply count_inc|done]. Qed.

(** The members of an entry in the first version. *)
Definition pattern_wf (m : PatternMembers) : Prop := strideEntries m ≠ [] ∧ Forall pse_wf (strideEntries m).

(** The ratio of an empty counter is below every positive threshold. *)
Lemma zero_ratio thr x : dok thr = true → (0 < dval thr)%Q → dok x = true → (0 < dval x)%Q →
  dleb thr (ddiv (d_of_Z 0) x) = false.
Proof.
  intros Ot Ht Ox Hx. apply not_true_iff_false. intros E.
  assert (rounds (ddiv (d_of_Z 0) x) (dval d0)) as Hr.
  { eapply rounds_ext; [|apply ddiv_rounds; [done|done|lra]]. rewrite dval_d0. change (dval (d_of_Z 0)) with 0%Q. field. lra. }
  destruct (rounds_exact _ d0 Hr eq_refl) as [Oz Ez]. apply (dleb_spec thr _ Ot Oz) in E. rewrite dval_d0 in Ez. lra.
Qed.

Lemma spp_laws thr : dok thr = true → (0 < dval thr)%Q → SPPLaws SignaturePath thr pattern_wf (λ _, True).
Proof.
  intros Ot Ht. split.
  - intros m [Hne Hall]. split; simpl.
    + intros E%(f_equal length). rewrite length_fmap in E. by destruct (strideEntries m).
    + rewrite Forall_fmap. eapply Forall_impl; [done|]. intros e He. by apply pse_reset_wf.
  - intros m stride [Hne Hall] Hs.
    destruct (getStrideEntry_spec pse_wf stride m Hne Hall pse_dec_wf (pse_reset_wf stride))
      as (k & m1 & e & E & _ & Hne1 & Hall1 & Hk & He).
    eexists k, m1, _. split; [done|]. split; [done|]. split; simpl.
    + intros E'%(f_equal length). rewrite length_alter in E'. by destruct (strideEntries m1).
    + apply Forall_alter; [done|]. intros e' He' Hwf. rewrite Hk in He'. injection He' as <-.
      apply pse_inc_wf; [done|congruence].
  - intros m e [_ Hall] He Hd Hs. rewrite Forall_forall in Hall. destruct (Hall e He) as [(Hc & _ & Hmax) Hz].
    cbn in Hd. unfold spp_prefetch_confidence, calcSaturation in Hd. rewrite (Hz Hs) in Hd.
    destruct (counter_exact 8 _ ltac:(lia) Hc) as (_ & Om & _ & Em). rewrite zero_ratio in Hd; [done|done..|].
    rewrite Em. change 0%Q with (inject_Z 0). by rewrite <-Zlt_Qlt.
  - intros t b []. cbn. eauto 8.
  - intros t sig last delta c []. cbn. eauto.
Qed.

Lemma spp_capped : capped SignaturePath pattern_wf.
Proof.
  intros m e [_ Hall] He _. rewrite Forall_forall in Hall. destruct (Hall e He) as [(Hc & _ & Hmax) _].
  destruct (calcSaturation_range 8 _ ltac:(lia) Hc Hmax) as (Oc & H0 & _).
  destruct d95_bound as (O95 & P95 & _). cbn. unfold spp_lookahead_confidence.
  destruct (dgtb (calcSaturation (pse_counter e)) d95) eqn:E; [by split; [done|split; [done|lra]]|].
  split; [done|]. split; [done|]. apply Qnot_lt_le. intros Hlt.
  apply (dltb_spec d95 _ O95 Oc) in Hlt. unfold dgtb in E. unfold dltb in Hlt. congruence.
Qed.

(** *** The second version *)

(** A stride has been counted at most as often as its signature. *)
Definition pattern2_wf (m : PatternMembers) : Prop :=
  strideEntries m ≠ [] ∧ count_wf (pm_counter m) ∧
  Forall (λ e, pse_wf e ∧ counter (pse_counter e) ≤ counter (pm_counter m) ∧
               maxVal (pse_counter e) = maxVal (pm_counter m)) (strideEntries m).

Lemma halve_wf c : count_wf c → count_wf (halve c) ∧ counter (halve c) = counter c / 2 ∧ maxVal (halve c) = maxVal c.
Proof.
  unfold count_wf, sat_wf, halve. simpl. rewrite Z.shiftr_div_pow2 by lia. change (2 ^ 1) with 2. intros.
  split_and!; try lia; Z.div_mod_to_equations; lia.
Qed.

Lemma halve_all_wf m : pattern2_wf m → pattern2_wf (halve_all m).
Proof.
  intros (Hne & Hc & Hall). destruct (halve_wf _ Hc) as (Hc' & E' & M'). split_and!; cbn [halve_all strideEntries pm_counter]; [|done|].
  - intros E%(f_equal length). rewrite length_fmap in E. by destruct (strideEntries m).
  - rewrite Forall_fmap. eapply Forall_impl; [exact Hall|]. intros e ([He Hz] & Hle & Hm). cbn [compose pse_counter pse_stride].
    destruct (halve_wf _ He) as (He' & Ee & Me). rewrite Ee, E', Me, M'. split_and!; [split|by apply Z.div_le_mono; [lia|]|done].
    + done.
    + cbn [pse_counter pse_stride]. intros E. rewrite Ee, (Hz E). done.
Qed.

Lemma increase_wf m k e :
  pattern2_wf m → counter (pm_counter m) < maxVal (pm_counter m) → strideEntries m !! k = Some e → pse_stride e ≠ 0 →
  pattern2_wf (mkPattern (alter pse_inc k (strideEntries m)) (sat_inc (pm_counter m))).
Proof.
  intros (Hne & Hc & Hall) Hlt Hk Hs. destruct (count_inc _ Hc) as [Hc' M'].
  assert (counter (sat_inc (pm_counter m)) = counter (pm_counter m) + 1) as E'.
  { unfold sat_inc. by rewrite (proj2 (Z.ltb_lt _ _)) by lia. }
  split_and!; simpl; [|done|].
  - intros E%(f_equal length). rewrite length_alter in E. by destruct (strideEntries m).
  - rewrite E', M'. apply Forall_alter.
    + eapply Forall_impl; [exact Hall|]. simpl. intros e' (? & ? & ?). split_and!; [done|lia|done].
    + intros e' He' (Hw & Hle & Hm). rewrite Hk in He'. injection He' as <-.
      split_and!; [by apply pse_inc_wf| |]; simpl; destruct Hw as [Hcw _]; destruct (count_inc _ Hcw) as [_ Me]; [|congruence].
      destruct (Forall_lookup_1 _ _ _ _ Hall Hk) as (_ & Hle0 & _). unfold sat_inc. case_match; simpl; lia.
Qed.

Lemma halved_stride m k e : strideEntries m !! k = Some e →
  strideEntries (halve_all m) !! k = Some (mkPSE (pse_stride e) (halve (pse_counter e))).
Proof. intros Hk. simpl. by rewrite list_lookup_fmap, Hk. Qed.

Lemma spp2_increase_wf m k e :
  pattern2_wf m → strideEntries m !! k = Some e → pse_stride e ≠ 0 →
  ∃ m', spp2_increase m k = Ok m' ∧ pattern2_wf m'.
Proof.
  intros Hwf Hk Hs. unfold spp2_increase. eexists. split; [done|].
  set (m1 := if isSaturated (pm_counter m) then halve_all m else m).
  assert (pattern2_wf m1 ∧ counter (pm_counter m1) < maxVal (pm_counter m1) ∧
    ∃ e1, strideEntries m1 !! k = Some e1 ∧ pse_stride e1 ≠ 0) as (Hwf1 & Hlt1 & e1 & Hk1 & Hs1).
  { pose proof Hwf as (_ & Hc & _). unfold m1, isSaturated. destruct (Z.eqb_spec (counter (pm_counter m)) (maxVal (pm_counter m))) as [E|E].
    - split_and!; [by apply halve_all_wf| |by eexists; split; [by apply halved_stride|]].
      destruct (halve_wf _ Hc) as (_ & Eh & Mh). cbn [halve_all pm_counter]. rewrite Eh, Mh, E. destruct Hc as (_ & _ & Hc). Z.div_mod_to_equations. lia.
    - split_and!; [done| |eauto]. destruct Hc as ((Hc & _) & _). lia. }
  clearbody m1. destruct (stride_saturated m1 k); [|by eapply increase_wf].
  destruct (halve_all_wf _ Hwf1) as (? & Hc2 & ?). pose proof Hwf1 as (_ & Hc1 & _). destruct (halve_wf _ Hc1) as (_ & Eh & Mh).
  eapply increase_wf; [by apply halve_all_wf| |by apply halved_stride|done]. cbn [halve_all pm_counter]. rewrite Eh, Mh.
  destruct Hc1 as ((Hc1 & _) & _). Z.div_mod_to_equations. lia.
Qed.

Section V2Facts.
Context {Gh Rh : Type} `{RLh : ReplLaws Gh Rh}.
Implicit Types T : Tbl TaggedKey GlobalHistoryEntry Gh Rh.

Lemma gh_search_total T block l : (∀ i, i ∈ l → is_Some (t_entries T !! i)) →
  ∃ o, gh_search T block l = Ok o ∧ ∀ i g, o = Some (i, g) → i ∈ l.
Proof.
  induction l as [|i l IH]; intros Hl; [by exists None|]. cbn [gh_search].
  destruct (Hl i) as [e He]; [left|]. rewrite (t_get_ok _ _ _ He). run_ok.
  destruct (_ =? block). { eexists. split; [done|]. intros i' g [= <- _]. left. }
  destruct IH as (o & -> & Ho); [by intros j Hj; apply Hl; right|]. exists o. split; [done|]. intros j g Hj. right. by eapply Ho.
Qed.

Lemma spp2_laws useful issued thr :
  dok thr = true → (0 < dval thr)%Q →
  SPPLaws (SignaturePathV2 (Gh := Gh) (Rh := Rh) useful issued) thr pattern2_wf t_ok.
Proof using RLh.
  intros Ot Ht. split.
  - intros m (Hne & Hc & Hall). destruct (count_reset _ Hc) as [Hc' E']. split_and!; cbn [reset_members pattern_reset strideEntries pm_counter].
    + intros E%(f_equal length). rewrite length_fmap in E. by destruct (strideEntries m).
    + done.
    + rewrite Forall_fmap. eapply Forall_impl; [exact Hall|]. intros e (He & _ & Hm). cbn [compose pse_counter].
      rewrite E'. destruct (count_reset _ (proj1 He)) as [_ E0]. rewrite E0.
      split_and!; [by apply pse_reset_wf|done|done].
  - intros m stride (Hne & Hc & Hall) Hs.
    destruct (getStrideEntry_spec (λ e, pse_wf e ∧ counter (pse_counter e) ≤ counter (pm_counter m) ∧
      maxVal (pse_counter e) = maxVal (pm_counter m)) stride m Hne Hall)
      as (k & m1 & e & E & Ec & Hne1 & Hall1 & Hk & He).
    + intros e (He & Hle & Hm). destruct (count_dec _ (proj1 He)) as (_ & ? & ?). cbn [pse_dec pse_counter].
      split_and!; [by apply pse_dec_wf|lia|congruence].
    + intros e (He & Hle & Hm). destruct (count_reset _ (proj1 He)) as (_ & E0). cbn [pse_counter]. rewrite E0.
      split_and!; [by apply pse_reset_wf| |done]. destruct Hc as ((? & _) & _). lia.
    + destruct (spp2_increase_wf m1 k e) as (m2 & E2 & Hwf2); [|done|congruence|by exists k, m1, m2].
      split_and!; [done|by rewrite Ec|by rewrite Ec].
  - intros m e (_ & Hc & Hall) He Hd Hs. rewrite Forall_forall in Hall. destruct (Hall e He) as ((_ & Hz) & _).
    cbn in Hd. unfold spp2_prefetch_confidence in Hd. rewrite (Hz Hs) in Hd.
    destruct (Z.eqb_spec (counter (pm_counter m)) 0) as [|Hn].
    + apply (dleb_spec thr d0 Ot eq_refl) in Hd. rewrite dval_d0 in Hd. lra.
    + destruct (count_value _ Hc) as [Oc Ec]. rewrite zero_ratio in Hd; [done|done..|]. rewrite Ec.
      change 0%Q with (inject_Z 0). rewrite <-Zlt_Qlt. destruct Hc as ((? & _) & _). lia.
  - intros t b T Hok. cbn. unfold spp2_table_miss.
    destruct (gh_search_total T b (t_indices T)) as (o & -> & Ho).
    { intros i Hi. rewrite (tok_range _ Hok), elem_of_seq in Hi. apply lookup_lt_is_Some. lia. }
    run_ok. destruct o as [[i g]|]; [|by eauto 8]. specialize (Ho i g eq_refl).
    rewrite (tok_range _ Hok), elem_of_seq in Ho. destruct (lookup_lt_is_Some_2 (t_entries T) i) as [e He]; [lia|].
    destruct (t_access_any t T i e Hok He) as (T' & -> & Hu & _). run_ok. eexists _, _, _, T'. split; [done|]. by eapply t_upd_ok.
  - intros t sig last delta c T Hok. cbn. unfold spp2_page_crossing.
    destruct (t_alloc_any t T (mkKey 0 false) Hok) as (v & T1 & e0 & -> & _ & He0 & Hu & He1 & Hins). run_ok.
    destruct (Hins _ (law_e_invalidate e0)) as (T2 & e2 & E2 & _ & Hu2 & _ & He2). rewrite t_put_id in E2.
    2: { rewrite He1. apply list_lookup_insert_eq. by eapply lookup_lt_Some. }
    rewrite E2. run_ok. rewrite (t_get_ok _ _ e2) by (rewrite He2; apply list_lookup_insert_eq; by eapply lookup_lt_Some).
    run_ok. eexists. split; [done|]. apply t_put_ok. by eapply t_upd_ok.
Qed.

(** The accuracy of the prefetches is at most 0.95. *)
Lemma spp2_capped useful issued :
  within (ddiv (d_of_Z useful) (d_of_Z issued)) 0 (dval d95) →
  capped (SignaturePathV2 (Gh := Gh) (Rh := Rh) useful issued) pattern2_wf.
Proof.
  intros Hacc m e (_ & Hc & Hall) He Hpos. rewrite Forall_forall in Hall. destruct (Hall e He) as ((Hce & _) & Hle & _).
  cbn. unfold spp2_lookahead_confidence. destruct (Z.eqb_spec (counter (pm_counter m)) 0); [lia|].
  assert (within (ddiv (d_of_Z (counter (pse_counter e))) (d_of_Z (counter (pm_counter m)))) 0 1) as (Or & R0 & R1).
  { apply count_ratio; destruct Hc as ((? & _ & ?) & _), Hce as ((? & _ & ?) & _); lia. }
  destruct Hacc as (Oa & A0 & A1), d95_bound as (O95 & P95 & _).
  apply (rounds_within _ _ _ _ (dmul_rounds _ _ Oa Or)); [exact (repr_Z 0 ltac:(lia))|by apply repr_dval| |].
  + by apply Qmult_le_0_compat.
  + nra.
Qed.
End V2Facts.

(** ** The search without a cap *)

(** More fuel does not change a result. *)
Lemma lookahead_mono {G' R' X : Type} `{ReplPolicy G' R'} (ops : SPPOps X) fuel t cfg (T : Tbl TaggedKey PatternEntry G' R')
    ppn sec conf sig base acc r fuel' :
  lookahead_loop ops fuel t cfg T ppn sec conf sig base acc = Ok (Some r) → (fuel ≤ fuel')%nat →
  lookahead_loop ops fuel' t cfg T ppn sec conf sig base acc = Ok (Some r).
Proof.
  revert conf sig base acc fuel'. induction fuel as [|fuel IH]; intros conf sig base acc [|fuel']; cbn [lookahead_loop];
    destruct (negb _); try done; [lia|]. intros E Hle.
  apply outcome_bind_ok in E as (o & -> & E). run_ok. destruct o as [i|]; [|apply IH; [done|lia]].
  apply outcome_bind_ok in E as (e & -> & E). run_ok. apply outcome_bind_ok in E as ([la a] & -> & E). run_ok.
  destruct la; apply IH; (done || lia).
Qed.

(** Strides that have not been counted more often do not become the lookahead. *)
Lemma scan_keeps {X : Type} (ops : SPPOps X) t cfg ppn base conf sig m es mc la acc la' acc' :
  Forall (λ e, counter (pse_counter e) ≤ mc) es →
  scan_strides ops t cfg ppn base conf sig m es mc la acc = Ok (la', acc') → la' = la.
Proof.
  intros Hes. revert acc. induction Hes as [|e es He _ IH]; intros acc; cbn [scan_strides]; [by intros [= <- _]|].
  rewrite (proj2 (Z.ltb_ge _ _)) by lia. intros (a & _ & E)%outcome_bind_ok. by apply IH in E.
Qed.

Lemma ratio_one n : 0 < n < 2 ^ 53 → within (ddiv (d_of_Z n) (d_of_Z n)) 1 1.
Proof.
  intros Hn. destruct (d_of_Z_exact n ltac:(lia)) as [On En].
  assert (0 < dval (d_of_Z n))%Q as Hp by (rewrite En; change 0%Q with (inject_Z 0); rewrite <-Zlt_Qlt; lia).
  assert (rounds (ddiv (d_of_Z n) (d_of_Z n)) 1) as Hr.
  { eapply rounds_ext; [|apply ddiv_rounds; [done|done|lra]]. field. lra. }
  apply (rounds_within _ _ 1 1 Hr); [exact (repr_Z 1 ltac:(lia))|exact (repr_Z 1 ltac:(lia))|lra|lra].
Qed.

Lemma mul_one x y : within x 1 1 → within y 1 1 → within (dmul x y) 1 1.
Proof.
  intros (Ox & X1 & X2) (Oy & Y1 & Y2).
  assert (dval x == 1)%Q as Ex by lra. assert (dval y == 1)%Q as Ey by lra.
  apply (rounds_within _ _ _ _ (dmul_rounds x y Ox Oy)); [exact (repr_Z 1 ltac:(lia))|exact (repr_Z 1 ltac:(lia))| |];
    rewrite Ex, Ey; lra.
Qed.

(** All the counts of an entry are those of its first stride. *)
Definition only_stride (m : PatternMembers) (l : PatternStrideEntry) : Prop :=
  ∃ rest, strideEntries m = l :: rest ∧ Forall (λ e, counter (pse_counter e) = 0) rest ∧
    0 < counter (pse_counter l) ∧ counter (pse_counter l) = counter (pm_counter m).

Section Endless.
Context {G' R' Gh Rh : Type} `{RL' : ReplLaws G' R'} `{RLh : ReplLaws Gh Rh}.
Context (cfg : SPPCfg) (n : Z) (Hcfg : spp_cfg_ok cfg n) (issued : Z) (Hissued : 0 < issued < 2 ^ 53).
Context (Othr : dok (prefetchConfidenceThreshold cfg) = true) (Hthr : (0 < dval (prefetchConfidenceThreshold cfg))%Q).
Context (Ola : dok (lookaheadConfidenceThreshold cfg) = true) (Hla : (dval (lookaheadConfidenceThreshold cfg) < 1)%Q).
Abbreviation ops := (SignaturePathV2 (Gh := Gh) (Rh := Rh) issued issued).

Lemma endless_path (T : Tbl TaggedKey PatternEntry G' R') sig i e l :
  t_ok T → t_all pattern2_wf T → t_found T (mkKey sig false) i e → only_stride (w_data e) l →
  updateSignature cfg sig (pse_stride l) = sig →
  ∀ fuel t ppn conf base acc, within conf 1 1 → t_ok acc.2 →
    lookahead_loop ops fuel t cfg T ppn false conf sig base acc = Ok None.
Proof using Hcfg Hissued Othr Hthr Ola Hla RL' RLh.
  intros Hok Hall Hf (rest & Ees & Hrest & Hpos & Hcnt) Hsig.
  assert (∀ conf, within conf 1 1 → dgtb conf (lookaheadConfidenceThreshold cfg) = true) as Hgt.
  { intros conf (Oc & C1 & _). apply (dltb_spec _ _ Ola Oc). lra. }
  pose proof (t_all_at _ _ _ _ Hall (proj2 Hf)) as HQ.
  assert (count_wf (pm_counter (w_data e))) as ((Hc & _ & Hmax) & _) by apply HQ.
  induction fuel as [|fuel IH]; intros t ppn conf base acc Hconf Hx; cbn [lookahead_loop]; rewrite Hgt by done; cbn [negb]; [done|].
  rewrite (proj1 Hf). run_ok. rewrite (t_get_ok _ _ _ (proj2 Hf)). run_ok.
  destruct (scan_total ops cfg n Hcfg pattern2_wf t_ok (spp2_laws issued issued _ Othr Hthr) t ppn base conf sig (w_data e)
    (strideEntries (w_data e)) 0 None acc) as (la & acc' & E & Hx' & _); [done..|]. rewrite E. run_ok.
  assert (la = Some l) as ->.
  { rewrite Ees in E. cbn [scan_strides] in E. rewrite (proj2 (Z.ltb_lt _ _)) in E by done.
    apply outcome_bind_ok in E as (a & _ & E). eapply scan_keeps; [|exact E].
    eapply Forall_impl; [exact Hrest|]. simpl. lia. }
  rewrite Hsig. apply IH; [|done]. apply mul_one; [done|]. cbn. unfold spp2_lookahead_confidence.
  rewrite (proj2 (Z.eqb_neq _ _)) by lia. rewrite Hcnt. apply mul_one; apply ratio_one; lia.
Qed.
End Endless.

(** ** The first version as a child *)

(** The number of halvings from one to the threshold, and the fuel of the search. *)
Definition threshold_bits (thr : double) : nat :=
  match thr with S754_finite false m e => Z.to_nat (- (e + Z.log2 (Z.pos m))) | _ => 0 end.

Definition spp_fuel (cfg : SPPCfg) : nat := 32 * threshold_bits (lookaheadConfidenceThreshold cfg).

Lemma threshold_bits_ok thr : (0 < dval thr)%Q → (bp (- Z.of_nat (threshold_bits thr)) <= dval thr)%Q.
Proof.
  destruct thr as [b|b| |[] m e]; try (intros H; by vm_compute in H).
  - rewrite dval_finite. cbn [qsign]. pose proof (mag_pos m e). intros Hp. exfalso. lra.
  - intros _. rewrite dval_finite. cbn [qsign threshold_bits].
    assert (bp (- Z.of_nat (Z.to_nat (- (e + Z.log2 (Z.pos m))))) <= bp (Z.log2 (Z.pos m) + e))%Q as Hle
      by (apply bp_le; lia).
    eapply Qle_trans; [exact Hle|]. rewrite bp_plus. apply Qmult_le_compat_r; [|apply Qlt_le_weak, bp_pos].
    rewrite bp_nonneg_Z by apply Z.log2_nonneg. rewrite <-Zle_Qle. by apply Z.log2_spec.
Qed.

Section Child.
Context {G R G' R' : Type} `{ReplPolicy G R} `{ReplPolicy G' R'}.

Definition spp_calculatePrefetch (curTick : Z) (pfi : PrefetchInfo) (st : SPP G R G' R' unit)
    : outcome (SPP G R G' R' unit * list AddrPriority) :=
  r ← spp_calculate SignaturePath (spp_fuel (sp_cfg st)) curTick pfi st;
  match r with Some r => Ok r | None => Stop (Panic "the search has not ended") end.

#[export] Instance spp_prefetcher : CalculatePrefetch (SPP G R G' R' unit) :=
  λ curTick pfi _ st, spp_calculatePrefetch curTick pfi st.
End Child.

(** Thresholds that the search reaches. *)
Record thresholds_ok (cfg : SPPCfg) : Prop := {
  th_prefetch : dok (prefetchConfidenceThreshold cfg) = true;
  th_prefetch_pos : (0 < dval (prefetchConfidenceThreshold cfg))%Q;
  th_lookahead : dok (lookaheadConfidenceThreshold cfg) = true;
  th_lookahead_pos : (0 < dval (lookaheadConfidenceThreshold cfg))%Q;
  th_small : (threshold_bits (lookaheadConfidenceThreshold cfg) ≤ 800)%nat
}.

Section Child.
Context {G R G' R' : Type} `{RL : ReplLaws G R} `{RL' : ReplLaws G' R'}.

Definition spp_ok (st : SPP G R G' R' unit) : Prop :=
  (∃ n, spp_cfg_ok (sp_cfg st) n) ∧ thresholds_ok (sp_cfg st) ∧ spp_wf (sp_cfg st) pattern_wf (λ _, True) st.

(** Every access returns, with any fuel from [spp_fuel] on. *)
Lemma spp_returns t pfi (st : SPP G R G' R' unit) :
  spp_ok st →
  ∃ st' l, spp_ok st' ∧ sp_cfg st' = sp_cfg st ∧ ∀ fuel, (spp_fuel (sp_cfg st) ≤ fuel)%nat →
    spp_calculate SignaturePath fuel t pfi st = Ok (Some (st', l)).
Proof using RL RL'.
  intros ([n Hcfg] & [O1 P1 O2 P2 HK] & Hwf).
  destruct (spp_total SignaturePath (sp_cfg st) n Hcfg pattern_wf (λ _, True) (spp_laws _ O1 P1) spp_capped
    (threshold_bits (lookaheadConfidenceThreshold (sp_cfg st))) (spp_fuel (sp_cfg st)) t pfi st HK O2
    (threshold_bits_ok _ P2) (Nat.le_refl _) Hwf) as (st' & l & E & Hwf').
  pose proof (sw_cfg _ _ _ _ Hwf') as Ec. exists st', l. split; [|split; [done|]].
  { split; [exists n; by rewrite Ec|]. split; [by rewrite Ec|by rewrite Ec]. }
  intros fuel Hfuel. revert E. unfold spp_calculate.
  intros ([[[i miss] stride] st1] & -> & E)%outcome_bind_ok. run_ok. destruct miss; [done|].
  destruct (stride =? 0); [done|]. apply outcome_bind_ok in E as (e & -> & E). run_ok.
  apply outcome_bind_ok in E as (PT & -> & E). run_ok. apply outcome_bind_ok in E as (r & Er & E).
  destruct r as [acc|]; [|done]. by rewrite (lookahead_mono _ _ _ _ _ _ _ _ _ _ _ _ _ Er Hfuel).
Qed.

#[export] Instance spp_safe : SafePrefetcher (SPP G R G' R' unit).
Proof.
  refine {| pf_inv := spp_ok |}. intros t pfi cache st _ Hst.
  destruct (spp_returns t pfi st Hst) as (st' & l & Hst' & _ & E). exists st', l.
  change (calculatePrefetch t pfi cache st) with (spp_calculatePrefetch t pfi st).
  unfold spp_calculatePrefetch. by rewrite E.
Defined.

Lemma spp_new_ok cfg n strides bits se sa six ssets (g : G) pe pa pix psets (g' : G') (st : SPP G R G' R' unit) :
  (∀ g, is_ok (rp_instantiate (R := R) g)) → (∀ g, is_ok (rp_instantiate (R := R') g)) →
  0 < sa < 2 ^ 32 → 0 ≤ se < 2 ^ 32 → se mod sa = 0 → indexing_new sa se 0 = Ok (six, ssets) →
  0 < pa < 2 ^ 32 → 0 ≤ pe < 2 ^ 32 → pe mod pa = 0 → indexing_new pa pe 0 = Ok (pix, psets) →
  spp_cfg_ok cfg n → thresholds_ok cfg → 1 ≤ strides → 1 ≤ bits ≤ 8 →
  spp_new cfg strides bits se sa (TaggedSetAssociative six) ssets g pe pa (TaggedSetAssociative pix) psets g' tt = Ok st →
  spp_ok st.
Proof using RL RL'.
  intros Hi Hi' Hsa Hse Hsm Esix Hpa Hpe Hpm Epix Hcfg Hth Hstr Hbits E. unfold spp_new in E.
  destruct (t_new_fills sa se 0 six ssets sig_entry_new g Hi (Z.le_refl 0) Hsa Hse Hsm Esix)
    as (ST & EST & HokS & _). rewrite EST in E. cbn [mbind outcome_bind] in E.
  apply outcome_bind_ok in E as (e & Ee & E).
  destruct (t_new_fills pa pe 0 pix psets e g' Hi' (Z.le_refl 0) Hpa Hpe Hpm Epix)
    as (PT & EPT & HokP & _ & HeP & _). rewrite EPT in E. cbn [mbind outcome_bind] in E.
  do 4 (apply outcome_bind_ok in E as (? & _ & E)). injection E as <-.
  split; [by exists n|]. split; [done|]. split; [done|done|done| |done]. unfold t_all. simpl. rewrite HeP. apply Forall_replicate.
  unfold pattern_entry_new in Ee. apply outcome_bind_ok in Ee as (c & Ec & [= <-]). simpl.
  destruct (count_new bits c Hbits Ec) as [Hc Hcnt].
  split; simpl.
  - intros En%(f_equal length). rewrite length_replicate in En. simpl in En. lia.
  - by apply Forall_replicate.
Qed.
End Child.

(** ** Theorems *)

(** A candidate of the signature path prefetcher is the address of the block it was
    computed for.  The block [delta] after block [last] of page [ppn] is proposed at its
    address, whatever page it lies in, unless it lies outside the address space; of these
    the first block of memory is never proposed when it lies in an earlier page. *)
Theorem spp_candidate_address (t : Z) (cfg : SPPCfg) (n ppn last delta : Z) (conf : double) (sig : Z)
    (l : list AddrPriority) (x : unit) :
  spp_cfg_ok cfg n → 2 ≤ n ≤ 2 ^ 14 → 0 ≤ ppn ≤ MaxAddr / pageBytes (sp_base cfg) → in_s 16 (last + delta) →
  let target := (ppn * n + last + delta) * blkSize (sp_base cfg) in
  let inside := if last + delta <? 0 then 0 <? target else target <? 2 ^ 64 in
  addPrefetch SignaturePath t cfg ppn last delta conf sig (l, x)
  = Ok (l ++ (if inside then [(target, 0)] else []), x).
Proof.
  intros Hcfg Hn Hppn Hblk target inside. pose proof (blocks_eq cfg n Hcfg) as Eb. destruct Hcfg as [Hb Hp _ [P HP]].
  set (blk := blkSize (sp_base cfg)) in *. set (page := pageBytes (sp_base cfg)) in *.
  assert (MaxAddr / page = P - 1) as Elast.
  { unfold MaxAddr. symmetry. apply (Z.div_unique _ _ _ (page - 1)); [left; nia|lia]. }
  rewrite Elast in Hppn. unfold in_s in Hblk. change (2 ^ (16 - 1)) with 32768 in Hblk. change (2 ^ 14) with 16384 in Hn.
  unfold addPrefetch. fold blk page. rewrite Eb, (swrap_id 16 (last + delta)) by (unfold in_s; change (2 ^ (16 - 1)) with 32768; lia).
  set (block := last + delta) in *. subst inside target. replace (ppn * n + last + delta) with (ppn * n + block) by lia.
  rewrite (proj2 (Z.eqb_neq n 0)) by lia. cbn [panic_if]. unfold panic_if.
  destruct (Z.ltb_spec block 0) as [Hneg|Hpos].
  - run_ok. pose proof (Z.div_mod (- block) n ltac:(lia)) as Ed. pose proof (Z.mod_pos_bound (- block) n ltac:(lia)) as Hd.
    set (q := - block / n) in *. assert (0 ≤ q ≤ 16384) by nia.
    rewrite (swrap_id 16 (1 + q)) by (unfold in_s; change (2 ^ (16 - 1)) with 32768; lia).
    rewrite (wrap_id 64 (1 + q)) by in_word.
    destruct (Z.ltb_spec ppn (1 + q)) as [Hout|Hin].
    + assert (ppn * n + block ≤ 0) by nia. rewrite (proj2 (Z.ltb_ge _ _)) by nia. by rewrite app_nil_r.
    + run_ok. assert (0 < ppn * n + block) by nia. rewrite (proj2 (Z.ltb_lt _ _)) by nia. cbn [fst].
      rewrite (wrap_id 64 (ppn - (1 + q))) by (unfold in_u; nia). autorewrite with word.
      assert (i16 (u64 (block + n * (1 + q))) = block + n * (1 + q)) as ->.
      { rewrite (wrap_id 64) by (unfold in_u; nia). apply swrap_id; [lia|]. unfold in_s. change (2 ^ (16 - 1)) with 32768. nia. }
      replace ((ppn - (1 + q)) * page + (block + n * (1 + q)) * blk) with ((ppn * n + block) * blk) by (rewrite Hp; ring).
      rewrite wrap_id; [done|]. unfold in_u. rewrite HP, Hp. nia.
  - destruct (Z.leb_spec n block) as [Hcross|Hsame].
    + run_ok. pose proof (Z.div_mod block n ltac:(lia)) as Ed. pose proof (Z.mod_pos_bound block n ltac:(lia)) as Hd.
      set (q := block / n) in *. assert (0 ≤ q ≤ 16384) by nia.
      rewrite (swrap_id 16 q) by (unfold in_s; change (2 ^ (16 - 1)) with 32768; lia).
      assert (0 ≤ ppn + q < 2 ^ 64) as Hpq by nia. rewrite (wrap_id 64 (ppn + q)) by in_word. rewrite Elast.
      destruct (Z.ltb_spec (P - 1) (ppn + q)) as [Hout|Hin].
      * rewrite (proj2 (Z.ltb_ge _ _)) by (rewrite HP, Hp; nia). by rewrite app_nil_r.
      * run_ok. rewrite (proj2 (Z.ltb_lt _ _)) by (rewrite HP, Hp; nia). cbn [fst]. autorewrite with word.
        assert (i16 (u64 (block - u64 (n * q))) = block - n * q) as ->.
        { rewrite (wrap_id 64 (n * q)) by (unfold in_u; nia). rewrite (wrap_id 64) by (unfold in_u; nia).
          apply swrap_id; [lia|]. unfold in_s. change (2 ^ (16 - 1)) with 32768. nia. }
        replace ((ppn + q) * page + (block - n * q) * blk) with ((ppn * n + block) * blk) by (rewrite Hp; ring).
        rewrite wrap_id; [done|]. unfold in_u. rewrite HP, Hp. nia.
    + rewrite (proj2 (Z.ltb_lt _ _)) by (rewrite HP, Hp; nia). cbn [fst snd]. autorewrite with word.
      replace (ppn * page + block * blk) with ((ppn * n + block) * blk) by (rewrite Hp; ring).
      rewrite wrap_id; [done|]. unfold in_u. rewrite HP, Hp. nia.
Qed.

(** C20: Every access of the signature path prefetcher returns.  In a well-formed state the
    search for candidates ends after at most 32 rounds per bit of the lookahead threshold,
    because each round multiplies the confidence by at most 0.95 in floating point; from
    that fuel on the result does not depend on it, no assertion fails, and the state is
    well formed again. *)
Theorem spp_access_returns {G R G' R' : Type} `{RL : ReplLaws G R} `{RL' : ReplLaws G' R'} (t : Z) (pfi : PrefetchInfo)
    (st : SPP G R G' R' unit) :
  spp_ok st →
  ∃ st' l, spp_ok st' ∧ ∀ fuel, (spp_fuel (sp_cfg st) ≤ fuel)%nat →
    spp_calculate SignaturePath fuel t pfi st = Ok (Some (st', l)).
Proof.
  intros Hst. destruct (spp_returns t pfi st Hst) as (st' & l & Hst' & _ & E). by exists st', l.
Qed.

(** The second version of the signature path prefetcher need not return.  Once every
    issued prefetch has been useful and a signature that repeats under its stride has been
    followed by that stride only, the search from it never ends: whatever the fuel, it is
    used up, and each round adds a candidate. *)
Theorem spp2_search_endless {G' R' Gh Rh : Type} `{RL' : ReplLaws G' R'} `{RLh : ReplLaws Gh Rh}
    (cfg : SPPCfg) (n issued : Z) (T : Tbl TaggedKey PatternEntry G' R')
    (ghr : Tbl TaggedKey GlobalHistoryEntry Gh Rh) (sig : Z) (i : nat) (e : PatternEntry) (l : PatternStrideEntry) :
  spp_cfg_ok cfg n → thresholds_ok cfg → (dval (lookaheadConfidenceThreshold cfg) < 1)%Q → 0 < issued < 2 ^ 53 →
  t_ok T → t_all pattern2_wf T → t_ok ghr → t_found T (mkKey sig false) i e → only_stride (w_data e) l →
  updateSignature cfg sig (pse_stride l) = sig →
  ∀ fuel t ppn base addresses,
    lookahead_loop (SignaturePathV2 issued issued) fuel t cfg T ppn false d1 sig base (addresses, ghr) = Ok None.
Proof.
  intros Hcfg [O1 P1 O2 _ _] Hla Hi Hok Hall Hg Hf Ho Hsig fuel t ppn base addresses.
  eapply (endless_path cfg n Hcfg issued Hi O1 P1 O2 Hla T sig i e l); done.
Qed.

(** The default parameters but for smaller tables: pages of 64 blocks of 64 bytes,
    signatures of 12 bits, thresholds 0.5 and 0.75. *)
Definition ex_spp_cfg (pf la : double) : SPPCfg :=
  mkSPPCfg (mkBaseCfg 64 6 true true true true true 0 4096 true false false) 3 12 pf la.

Definition ex_spp {X : Type} (cfg : SPPCfg) (bits : Z) (x : X) : outcome (SPP unit LRUReplData unit LRUReplData X) :=
  spp_new cfg 4 bits 4 2 (TaggedSetAssociative (mkIndexing 2 2 0 1 1)) [[None; None]; [None; None]] tt
    8 1 (TaggedSetAssociative (mkIndexing 1 8 0 7 3)) (replicate 8 [None]) tt x.

Definition ex_spp1_cfg : SPPCfg := ex_spp_cfg (dlit 1 2) (dlit 3 4).

Lemma ex_spp1_runs : is_okb (ex_spp ex_spp1_cfg 3 tt) = true.
Proof. by vm_compute. Qed.

Definition ex_spp1 : SPP unit LRUReplData unit LRUReplData unit := the_result (ex_spp ex_spp1_cfg 3 tt) ex_spp1_runs.

Lemma ex_spp_cfg_ok pf la : spp_cfg_ok (ex_spp_cfg pf la) 64.
Proof. split; [by vm_compute|done|lia|by exists (2 ^ 52)]. Qed.

Lemma ex_spp1_thresholds : thresholds_ok ex_spp1_cfg.
Proof. split; [done|done|done|done|]. apply Nat.leb_le. by vm_compute. Qed.

Lemma ex_spp1_ok : spp_ok ex_spp1.
Proof.
  eapply (spp_new_ok ex_spp1_cfg 64 4 3 4 2 (mkIndexing 2 2 0 1 1) [[None; None]; [None; None]] tt
    8 1 (mkIndexing 1 8 0 7 3) (replicate 8 [None]) tt);
    [by intros; eexists|by intros; eexists|lia|lia|done|by vm_compute|lia|lia|done|by vm_compute
    |apply ex_spp_cfg_ok|apply ex_spp1_thresholds|lia|lia|apply the_result_ok].
Qed.

(** Ten consecutive blocks of a page. *)
Definition ex_spp_accesses : list (Z * PrefetchInfo) :=
  (λ k, (k, mkPfi (0x10000 + 64 * k) 0 0 true false 8 false 0 true None)) <$> seqZ 0 10.

Lemma ex_spp_trains : is_okb (run_accesses empty_cache ex_spp_accesses ex_spp1) = true.
Proof. by vm_compute. Qed.

Definition ex_spp_trained : SPP unit LRUReplData unit LRUReplData unit :=
  (the_result (run_accesses empty_cache ex_spp_accesses ex_spp1) ex_spp_trains).1.

Lemma ex_spp_trained_ok : spp_ok ex_spp_trained.
Proof.
  change (pf_inv ex_spp_trained).
  apply (run_result_inv (D := SPP unit LRUReplData unit LRUReplData unit) empty_cache ex_spp_accesses ex_spp1 ex_spp_trains);
    [|exact ex_spp1_ok]. repeat constructor; simpl; unfold in_u; lia.
Qed.

Definition ex_spp_next : PrefetchInfo := mkPfi 0x10280 0 0 true false 8 false 0 true None.

Lemma spp_access_returns_witness :
  spp_fuel ex_spp1_cfg = 32%nat ∧
  ∃ st', ∀ fuel, (32 ≤ fuel)%nat →
    spp_calculate SignaturePath fuel 100 ex_spp_next ex_spp_trained = Ok (Some (st', [(0x102c0, 0); (0x10300, 0)])).
Proof.
  split; [by vm_compute|].
  destruct (spp_access_returns 100 ex_spp_next ex_spp_trained ex_spp_trained_ok) as (st' & l & _ & E). exists st'.
  assert (spp_fuel (sp_cfg ex_spp_trained) = 32%nat) as Ef by (vm_compute; reflexivity). rewrite Ef in E.
  assert (l = [(0x102c0, 0); (0x10300, 0)]) as <-; [|exact E].
  pose proof (E 32%nat (Nat.le_refl _)) as E32.
  assert ((λ r, match r with Ok (Some (_, l)) => l | _ => [] end)
    (spp_calculate SignaturePath 32 100 ex_spp_next ex_spp_trained) = [(0x102c0, 0); (0x10300, 0)]) as El by (vm_compute; reflexivity).
  rewrite E32 in El. exact El.
Defined.

Lemma spp_candidate_address_witness :
  addPrefetch SignaturePath 0 ex_spp1_cfg 16 63 2 d1 0 ([], tt) = Ok ([(0x11040, 0)], tt).
Proof.
  rewrite (spp_candidate_address 0 ex_spp1_cfg 64 16 63 2 d1 0 [] tt).
  - reflexivity.
  - apply ex_spp_cfg_ok.
  - lia.
  - split; by vm_compute.
  - split; by vm_compute.
Defined.

(** The second version: signature 585 repeats under a stride of one block. *)
Definition ex_spp2_cfg : SPPCfg := ex_spp_cfg (dlit 1 4) (dlit 1 4).

Definition ex_ghr_new : outcome (Tbl TaggedKey GlobalHistoryEntry unit LRUReplData) :=
  t_new (TaggedSetAssociative (mkIndexing 2 1 0 0 0)) 2 2 gh_entry_new [[None; None]] tt.

Definition ex_pattern_new : outcome (Tbl TaggedKey PatternEntry unit LRUReplData) :=
  e ← pattern_entry_new 4 4; t_new (TaggedSetAssociative (mkIndexing 1 8 0 7 3)) 8 1 e (replicate 8 [None]) tt.

Lemma ex_ghr_runs : is_okb ex_ghr_new = true.
Proof. by vm_compute. Qed.

Definition ex_ghr : Tbl TaggedKey GlobalHistoryEntry unit LRUReplData := the_result ex_ghr_new ex_ghr_runs.

Lemma ex_ghr_ok : t_ok ex_ghr.
Proof.
  destruct (t_new_fills (G := unit) (R := LRUReplData) (mk := TaggedSetAssociative) 2 2 0 (mkIndexing 2 1 0 0 0)
    [[None; None]] gh_entry_new tt) as (T & E & Hok & _); [by intros; eexists|lia|lia|lia|done|by vm_compute|].
  unfold ex_ghr. by rewrite (the_result_eq _ ex_ghr_runs T E).
Qed.

Definition ex_counted : outcome (Tbl TaggedKey PatternEntry unit LRUReplData) :=
  T ← ex_pattern_new; updatePatternTable (SignaturePathV2 (Gh := unit) (Rh := LRUReplData) 1 1) 5 585 1 T.

Lemma ex_counted_runs : is_okb ex_counted = true.
Proof. by vm_compute. Qed.

Definition ex_pattern : Tbl TaggedKey PatternEntry unit LRUReplData := the_result ex_counted ex_counted_runs.

Lemma ex_spp2_thresholds : thresholds_ok ex_spp2_cfg.
Proof. split; [done|done|done|done|]. apply Nat.leb_le. by vm_compute. Qed.

Lemma ex_pattern_ok : t_ok ex_pattern ∧ t_all pattern2_wf ex_pattern.
Proof.
  destruct (pattern_entry_new 4 4) as [e|] eqn:Ee; [|done].
  destruct (t_new_fills (G := unit) (R := LRUReplData) (mk := TaggedSetAssociative) 1 8 0 (mkIndexing 1 8 0 7 3)
    (replicate 8 [None]) e tt) as (T & ET & Hok & _ & Hes & _); [by intros; eexists|lia|lia|lia|done|by vm_compute|].
  assert (t_all pattern2_wf T) as Hall.
  { unfold t_all. rewrite Hes. apply Forall_replicate. injection Ee as <-. unfold pattern2_wf, pse_wf, count_wf, sat_wf. simpl.
    split_and!; try done; try lia. repeat constructor; simpl; try done; lia. }
  destruct ex_spp2_thresholds as [O1 P1 _ _ _].
  destruct (update_total (SignaturePathV2 (Gh := unit) (Rh := LRUReplData) 1 1) ex_spp2_cfg pattern2_wf t_ok (spp2_laws 1 1 _ O1 P1)
    5 585 1 T Hok Hall ltac:(done)) as (T' & ET' & HT'). unfold ex_pattern. rewrite (the_result_eq _ ex_counted_runs T'); [exact HT'|].
  unfold ex_counted, ex_pattern_new. rewrite Ee. run_ok. rewrite ET. exact ET'.
Qed.

Lemma spp2_search_endless_witness :
  updateSignature ex_spp2_cfg 585 1 = 585 ∧
  ∀ fuel, lookahead_loop (SignaturePathV2 1 1) fuel 10 ex_spp2_cfg ex_pattern 16 false d1 585 9 ([], ex_ghr) = Ok None.
Proof.
  split; [reflexivity|]. intros fuel. destruct ex_pattern_ok as [Hok Hall].
  eassert (t_found ex_pattern (mkKey 585 false) 1 _) as Hf by (split; vm_compute; reflexivity).
  apply (spp2_search_endless ex_spp2_cfg 64 1 ex_pattern ex_ghr 585 1 _ (mkPSE 1 (mkSat 0 15 1))
    (ex_spp_cfg_ok _ _) ex_spp2_thresholds ltac:(reflexivity) ltac:(lia) Hok Hall ex_ghr_ok Hf).
  - eexists. split; [reflexivity|]. split; [repeat constructor|]. split; reflexivity.
  - reflexivity.
Defined.

(** The whole program: ten accesses while nothing has been issued, then one after the first
    prefetch was issued and used. *)
Example spp2_run_endless :
  (g ← ex_ghr_new; st ← ex_spp ex_spp2_cfg 4 g;
   st ← foldl (λ m x, st ← m; r ← spp_calculate (SignaturePathV2 0 0) 1 x.1 x.2 st;
                      match r with Some (st, _) => Ok st | None => Stop (Panic "unfinished") end)
          (Ok st) ex_spp_accesses;
   r ← spp_calculate (SignaturePathV2 1 1) 200 100 ex_spp_next st;
   Ok (bool_decide (is_Some r))) = Ok false.
Proof. vm_compute. reflexivity. Qed.
