(* ===== verification/ISB.v ===== *)
(** * The irregular stream buffer

    [src/src/mem/cache/prefetch/irregular_stream_buffer.{hh,cc}].  Accesses of one program
    counter form a stream; consecutive addresses of it get consecutive structural addresses.
    Two tables map physical to structural addresses and back, several mappings per entry.  An
    access whose address has a structural address gets as candidates the physical addresses
    of the next structural ones.

    A mapping is reached through a reference into an entry of a table, and two references may
    be held at a time while the second lookup can evict the entry of the first; mappings are
    therefore locations, an entry and an index, and every access through a reference reads
    the table again.  The three tables use one class of replacement policy here.

    The theorems are that no access fails, and that a stream recorded by one program counter
    is predicted, in order, for the first access of another; a program counter that repeats
    its own stream, on the other hand, moves every address of it to new structural addresses
    on each round and is never given a candidate ([isb_own_loop]). *)

From Stdlib Require Import ZArith Lia.
From stdpp Require Import base numbers option list strings.
From S2P Require Import Prelude SatCounter IntMath PrefetchBase PrefetchQueue Children.
From S2P Require Import Replacement Indexing AssocCache Tables.
#[local] Open Scope Z_scope.

Record TUMembers := mkTU { lastAddress : Z; lastAddressSecure : bool }.

#[export] Instance tu_reset : Reset TUMembers := λ m, m.

Abbreviation TrainingUnitEntry := (With TaggedEntry TUMembers).

Record AddressMapping := mkMapping { map_address : Z; map_counter : SatCounter }.

#[export] Instance mappings_reset : Reset (list AddressMapping) :=
  λ l, (λ m, mkMapping 0 (sat_reset (map_counter m))) <$> l.

Abbreviation AddressMappingEntry := (With TaggedEntry (list AddressMapping)).

Record ISBCfg := mkISBCfg {
  isb_base : BaseCfg;
  chunkSize : Z;
  prefetchCandidatesPerEntry : Z;
  isb_degree : Z
}.

Record ISB (G R : Type) := mkISB {
  isb_cfg : ISBCfg;
  trainingUnit : Tbl TaggedKey TrainingUnitEntry G R;
  psAddressMappingCache : Tbl TaggedKey AddressMappingEntry G R;
  spAddressMappingCache : Tbl TaggedKey AddressMappingEntry G R;
  structuralAddressCounter : Z
}.
Arguments mkISB {G R} _ _ _ _ _.
Arguments isb_cfg {G R} _.
Arguments trainingUnit {G R} _.
Arguments psAddressMappingCache {G R} _.
Arguments spAddressMappingCache {G R} _.
Arguments structuralAddressCounter {G R} _.

Section ISB.
Context {G R : Type} `{ReplPolicy G R}.
Abbreviation AMC := (Tbl TaggedKey AddressMappingEntry G R).
Implicit Types st : ISB G R.

(** Reading and writing a mapping through a reference. *)
Definition get_mapping (T : AMC) (loc : nat * nat) : outcome AddressMapping :=
  e ← t_get T loc.1;
  match w_data e !! loc.2 with
  | Some m => Ok m
  | None => Stop (Panic "index out of range")
  end.

Definition set_mapping (T : AMC) (loc : nat * nat) (m : AddressMapping) : outcome AMC :=
  e ← t_get T loc.1; Ok (t_put T loc.1 (mkWith (w_base e) (<[loc.2 := m]> (w_data e)))).

(** The entry and index of an address in either table. *)
Definition amc_key (cfg : ISBCfg) (addr : Z) (is_secure : bool) : TaggedKey :=
  mkKey (addr / prefetchCandidatesPerEntry cfg) is_secure.
Definition map_index (cfg : ISBCfg) (addr : Z) : nat := Z.to_nat (addr mod prefetchCandidatesPerEntry cfg).

Definition getPSMapping (curTick : Z) (cfg : ISBCfg) (T : AMC) (paddr : Z) (is_secure : bool)
    : outcome ((nat * nat) * AMC) :=
  '(i, T) ← t_find_or_insert curTick T (amc_key cfg paddr is_secure);
  Ok ((i, map_index cfg paddr), T).

Definition addStructuralToPhysicalEntry (curTick : Z) (cfg : ISBCfg) (T : AMC) (structural_address : Z)
    (is_secure : bool) (physical_address : Z) : outcome AMC :=
  '(i, T) ← t_find_or_insert curTick T (amc_key cfg structural_address is_secure);
  let loc := (i, map_index cfg structural_address) in
  m ← get_mapping T loc;
  set_mapping T loc (mkMapping physical_address (sat_inc (sat_reset (map_counter m)))).

(** The update of the tables for addresses [a] and [b] that followed each other. *)
Definition correlate (curTick : Z) (a b : Z) (is_secure : bool) st : outcome (ISB G R) :=
  let cfg := isb_cfg st in
  '(A, PS) ← getPSMapping curTick cfg (psAddressMappingCache st) a is_secure;
  '(B, PS) ← getPSMapping curTick cfg PS b is_secure;
  mA ← get_mapping PS A;
  mB ← get_mapping PS B;
  let next := u64 (map_address mA + 1) in
  if (0 <? counter (map_counter mA)) && (0 <? counter (map_counter mB)) then
    if map_address mB =? next then
      PS ← set_mapping PS B (mkMapping (map_address mB) (sat_inc (map_counter mB)));
      Ok (mkISB cfg (trainingUnit st) PS (spAddressMappingCache st) (structuralAddressCounter st))
    else if counter (map_counter mB) =? 1 then
      PS ← set_mapping PS B (mkMapping next (map_counter mB));
      SP ← addStructuralToPhysicalEntry curTick cfg (spAddressMappingCache st) next is_secure b;
      Ok (mkISB cfg (trainingUnit st) PS SP (structuralAddressCounter st))
    else
      PS ← set_mapping PS B (mkMapping (map_address mB) (sat_dec (map_counter mB)));
      Ok (mkISB cfg (trainingUnit st) PS (spAddressMappingCache st) (structuralAddressCounter st))
  else
    '(PS, SP, sc) ←
      (if counter (map_counter mA) =? 0 then
         PS ← set_mapping PS A (mkMapping (structuralAddressCounter st) (sat_inc (map_counter mA)));
         SP ← addStructuralToPhysicalEntry curTick cfg (spAddressMappingCache st) (structuralAddressCounter st)
                is_secure a;
         Ok (PS, SP, u64 (structuralAddressCounter st + chunkSize cfg))
       else Ok (PS, spAddressMappingCache st, structuralAddressCounter st));
    mB ← get_mapping PS B;
    PS ← set_mapping PS B (mkMapping (map_address mB) (sat_inc (sat_reset (map_counter mB))));
    mA ← get_mapping PS A;
    let next := u64 (map_address mA + 1) in
    mB ← get_mapping PS B;
    PS ← set_mapping PS B (mkMapping next (map_counter mB));
    SP ← addStructuralToPhysicalEntry curTick cfg SP next is_secure b;
    Ok (mkISB cfg (trainingUnit st) PS SP sc).

(** The addresses after structural address [s], from distance [d] on. *)
Fixpoint stream_from (cfg : ISBCfg) (maps : list AddressMapping) (sp_index d : Z) (n : nat) : list AddrPriority :=
  match n with
  | O => []
  | S n =>
      if sp_index + d <? prefetchCandidatesPerEntry cfg then
        match maps !! Z.to_nat (sp_index + d) with
        | Some m => if 0 <? counter (map_counter m)
                    then [(u64 (Z.shiftl (map_address m) (lBlkSize (isb_base cfg))), 0)] else []
        | None => []
        end ++ stream_from cfg maps sp_index (d + 1) n
      else []
  end.

Definition predict (addr : Z) (is_secure : bool) st : outcome (list AddrPriority) :=
  let cfg := isb_cfg st in
  o ← t_findEntry (psAddressMappingCache st) (amc_key cfg addr is_secure);
  match o with
  | None => Ok []
  | Some i =>
      m ← get_mapping (psAddressMappingCache st) (i, map_index cfg addr);
      if 0 <? counter (map_counter m) then
        o ← t_findEntry (spAddressMappingCache st) (amc_key cfg (map_address m) is_secure);
        match o with
        | None => Ok []
        | Some j =>
            e ← t_get (spAddressMappingCache st) j;
            Ok (stream_from cfg (w_data e) (map_address m mod prefetchCandidatesPerEntry cfg) 1
                  (Z.to_nat (isb_degree cfg)))
        end
      else Ok []
  end.

(** The entry of the program counter in the training unit, and its last address. *)
Definition train (curTick pc : Z) (is_secure : bool) (addr : Z) st : outcome (option Z * ISB G R) :=
  let T := trainingUnit st in
  let key := mkKey pc is_secure in
  o ← t_findEntry T key;
  '(hit, i, T) ←
    match o with
    | Some i =>
        e ← t_get T i;
        if eqb (lastAddressSecure (w_data e)) is_secure
        then T ← t_accessEntry curTick T i; Ok (Some (lastAddress (w_data e)), i, T)
        else '(i, T) ← t_findVictim T key; T ← t_insertEntry curTick T key i; Ok (None, i, T)
    | None => '(i, T) ← t_findVictim T key; T ← t_insertEntry curTick T key i; Ok (None, i, T)
    end;
  e ← t_get T i;
  Ok (hit, mkISB (isb_cfg st) (t_put T i (mkWith (w_base e) (mkTU addr is_secure))) (psAddressMappingCache st)
             (spAddressMappingCache st) (structuralAddressCounter st)).

Definition isb_calculatePrefetch (curTick : Z) (pfi : PrefetchInfo) st : outcome (ISB G R * list AddrPriority) :=
  if negb (pfi_validPC pfi) then Ok (st, []) else
  pc ← getPC pfi;
  let addr := blockIndex (isb_base (isb_cfg st)) (pfi_address pfi) in
  '(hit, st) ← train curTick pc (pfi_secure pfi) addr st;
  st ← match hit with
       | Some a => correlate curTick a addr (pfi_secure pfi) st
       | None => Ok st
       end;
  l ← predict addr (pfi_secure pfi) st;
  Ok (st, l).

#[export] Instance isb_prefetcher : CalculatePrefetch (ISB G R) :=
  λ curTick pfi _ st, isb_calculatePrefetch curTick pfi st.

Definition isb_new (cfg : ISBCfg) (num_counter_bits tu_entries tu_assoc amc_entries amc_assoc : Z)
    (tu_ip ps_ip sp_ip : IndexingPolicy TaggedKey) (tu_sets ps_sets sp_sets : list (list ref)) (g1 g2 g3 : G)
    : outcome (ISB G R) :=
  TU ← t_new tu_ip tu_entries tu_assoc (mkWith te_new (mkTU 0 false)) tu_sets g1;
  c ← sat_new 8 num_counter_bits 0;
  let entry := mkWith te_new (replicate (Z.to_nat (prefetchCandidatesPerEntry cfg)) (mkMapping 0 c)) in
  PS ← t_new ps_ip amc_entries amc_assoc entry ps_sets g2;
  SP ← t_new sp_ip amc_entries amc_assoc entry sp_sets g3;
  _ ← assert_that (isPowerOf2 (prefetchCandidatesPerEntry cfg)) "isPowerOf2(prefetchCandidatesPerEntry)";
  Ok (mkISB cfg TU PS SP 0).
End ISB.

(** ** Facts *)

(** The mappings of an entry: one per candidate, with proper counters. *)
Definition maps_ok (c : Z) (l : list AddressMapping) : Prop :=
  Z.of_nat (length l) = c ∧ Forall (λ m, count_wf (map_counter m)) l.

Lemma maps_ok_reset c l : maps_ok c l → maps_ok c (reset_members l).
Proof.
  intros [Hl Ha]. split; unfold reset_members, mappings_reset; [by rewrite length_fmap|]. rewrite Forall_fmap.
  eapply Forall_impl; [exact Ha|]. intros m Hm. by apply count_reset.
Qed.

(** What a mapping says: an address and how often it was confirmed, if at all. *)
Definition meaning (m : AddressMapping) : option (Z * Z) :=
  if 0 <? counter (map_counter m) then Some (map_address m, counter (map_counter m)) else None.

Section Facts.
Context {G R : Type} `{RL : ReplLaws G R} (cfg : ISBCfg).
Abbreviation AMC := (Tbl TaggedKey AddressMappingEntry G R).
Abbreviation c := (prefetchCandidatesPerEntry cfg).
Context (Hc : 0 < c).

Record amc_ok (T : AMC) : Prop := { ao_ok : t_ok T; ao_all : t_all (maps_ok c) T }.

(** The mapping of an address in a table. *)
Definition mview (T : AMC) (sec : bool) (addr : Z) : option (Z * Z) :=
  t_view T (amc_key cfg addr sec) ≫= λ l, l !! map_index cfg addr ≫= meaning.

(** The entry of an address in a table. *)
Definition line_at (T : AMC) (sec : bool) (addr : Z) (i : nat) : Prop := ∃ e, t_found T (amc_key cfg addr sec) i e.

(** Different entries for these addresses never compete. *)
Definition spread (T : AMC) (sec : bool) (S : Z → Prop) : Prop := ∀ a b i,
  S a → S b → amc_key cfg a sec ≠ amc_key cfg b sec →
  i ∈ t_cands T (amc_key cfg a sec) → i ∉ t_cands T (amc_key cfg b sec).

Lemma spread_upd i T T' sec S : t_upd i T T' → spread T sec S → spread T' sec S.
Proof. intros Hu Hs a b j. rewrite !(t_upd_cands _ _ _ _ Hu). apply Hs. Qed.

Lemma map_index_lt addr : (Z.of_nat (map_index cfg addr) < c).
Proof using Hc. unfold map_index. pose proof (Z.mod_pos_bound addr c Hc). lia. Qed.

Lemma same_slot a b sec : amc_key cfg a sec = amc_key cfg b sec → map_index cfg a = map_index cfg b → a = b.
Proof using Hc.
  unfold amc_key, map_index. intros [= E1] E2. pose proof (Z.mod_pos_bound a c Hc). pose proof (Z.mod_pos_bound b c Hc).
  pose proof (Z.div_mod a c ltac:(lia)). pose proof (Z.div_mod b c ltac:(lia)).
  assert (a mod c = b mod c) by lia. congruence.
Qed.

Lemma mview_found T sec addr i e m :
  t_found T (amc_key cfg addr sec) i e → w_data e !! map_index cfg addr = Some m → mview T sec addr = meaning m.
Proof. intros Hf Hm. unfold mview. rewrite (t_view_found _ _ _ _ Hf). simpl. by rewrite Hm. Qed.

Lemma get_mapping_ok T sec addr i :
  amc_ok T → line_at T sec addr i →
  ∃ m, get_mapping T (i, map_index cfg addr) = Ok m ∧ meaning m = mview T sec addr ∧ count_wf (map_counter m).
Proof using Hc.
  intros [Hok Hall] [e Hf]. pose proof (t_all_at _ _ _ _ Hall (proj2 Hf)) as [Hl Ha].
  pose proof (map_index_lt addr). destruct (lookup_lt_is_Some_2 (w_data e) (map_index cfg addr)) as [m Hm]; [lia|].
  exists m. unfold get_mapping. simpl. rewrite (t_get_ok _ _ _ (proj2 Hf)). run_ok. rewrite Hm.
  split_and!; [done|by rewrite (mview_found _ _ _ _ _ _ Hf Hm)|by eapply Forall_lookup_1 in Ha].
Qed.

(** Looking an address up, or allocating its entry, changes what no address says. *)
Lemma touch_spec t T sec S addr :
  amc_ok T → spread T sec S → S addr →
  ∃ i T', t_find_or_insert t T (amc_key cfg addr sec) = Ok (i, T') ∧ amc_ok T' ∧ spread T' sec S ∧ line_at T' sec addr i ∧
    (∀ a, S a → mview T' sec a = mview T sec a) ∧ (∀ a j, S a → line_at T sec a j → line_at T' sec a j).
Proof using Hc RL.
  intros [Hok Hall] Hs Ha.
  destruct (t_find_or_insert_spec t T (amc_key cfg addr sec) Hok) as (i & T' & e & E & Hu & Hi & Hf & Hcase).
  assert (t_all (maps_ok c) T') as Hall'.
  { destruct Hcase as [[Hold Hes]|(_ & e0 & He0 & Hins & Hes)]; unfold t_all; rewrite Hes; [done|].
    apply Forall_insert; [done|]. rewrite (with_insert_data _ _ _ _ Hins). apply maps_ok_reset. by apply (t_all_at _ _ _ _ Hall He0). }
  exists i, T'. split_and!; [done|split; [by eapply t_upd_ok|done]|by eapply spread_upd|by exists e| |].
  - intros a Sa. destruct (decide (amc_key cfg a sec = amc_key cfg addr sec)) as [Ek|Hne].
    + unfold mview. rewrite Ek, (t_view_found _ _ _ _ Hf).
      destruct Hcase as [[Hold Hes]|(Hm & e0 & He0 & Hins & Hes)]; [by rewrite (t_view_found _ _ _ _ Hold)|].
      rewrite (with_insert_data _ _ _ _ Hins). unfold t_view. rewrite Hm. simpl. unfold reset_members, mappings_reset.
      rewrite list_lookup_fmap. destruct (t_all_at _ _ _ _ Hall He0) as [_ Hcw].
      destruct (w_data e0 !! map_index cfg a) as [m|] eqn:El; [|done]. simpl. unfold meaning. cbn [map_counter].
      destruct (count_reset (map_counter m)) as [_ ->]; [by eapply Forall_lookup_1 in Hcw|done].
    + unfold mview. rewrite (t_view_frame i T T'); [done..|]. by apply (Hs addr a i); [..|congruence|].
  - intros a j Sa [e' Hf']. destruct (decide (amc_key cfg a sec = amc_key cfg addr sec)) as [Ek|Hne].
    + unfold line_at. rewrite Ek in *. destruct Hcase as [[Hold Hes]|(Hm & _)].
      * exists e. assert (j = i) as -> by (destruct Hf', Hold; congruence). done.
      * destruct Hf'. congruence.
    + exists e'. apply (t_found_frame i T); [done..| |done]. by apply (Hs addr a i); [..|congruence|].
Qed.

(** Writing a mapping changes what its address says, and nothing else. *)
Lemma set_mapping_spec T sec S addr i m :
  amc_ok T → spread T sec S → S addr → line_at T sec addr i → count_wf (map_counter m) →
  ∃ T', set_mapping T (i, map_index cfg addr) m = Ok T' ∧ amc_ok T' ∧ spread T' sec S ∧
    (∀ a, S a → mview T' sec a = if decide (a = addr) then meaning m else mview T sec a) ∧
    (∀ a j, S a → line_at T sec a j → line_at T' sec a j).
Proof using Hc RL.
  intros [Hok Hall] Hs Ha [e Hf] Hm. unfold set_mapping. simpl. rewrite (t_get_ok _ _ _ (proj2 Hf)). run_ok.
  set (e1 := mkWith (w_base e) (<[map_index cfg addr := m]> (w_data e))).
  pose proof (t_all_at _ _ _ _ Hall (proj2 Hf)) as [Hl Hcw]. pose proof (map_index_lt addr).
  pose proof (t_put_found T _ i e e1 Hok Hf eq_refl) as Hf1. pose proof (t_put_upd T i e1) as Hu.
  exists (t_put T i e1). split_and!; [done|split; [by apply t_put_ok|]|by eapply spread_upd| |].
  - apply t_all_put; [done|]. split; simpl; [by rewrite length_insert|]. by apply Forall_insert.
  - intros a Sa. destruct (decide (amc_key cfg a sec = amc_key cfg addr sec)) as [Ek|Hne].
    + unfold mview. rewrite Ek, (t_view_found _ _ _ _ Hf1), (t_view_found _ _ _ _ Hf). simpl.
      destruct (decide (a = addr)) as [->|Hn]; [by rewrite list_lookup_insert_eq by lia|].
      rewrite list_lookup_insert_ne; [done|]. intros E. apply Hn. symmetry. by apply (same_slot _ _ sec).
    + rewrite decide_False by congruence. unfold mview. rewrite (t_view_frame i T _); [done..|].
      apply (Hs addr a i); [done|done|congruence|]. by apply t_find_cands; [|apply Hf].
  - intros a j Sa [e' Hf']. destruct (decide (amc_key cfg a sec = amc_key cfg addr sec)) as [Ek|Hne].
    + exists e1. rewrite Ek in *. assert (j = i) as -> by (destruct Hf', Hf; congruence). done.
    + exists e'. apply (t_found_frame i T); [done..| |done]. apply (Hs addr a i); [done|done|congruence|].
      by apply t_find_cands; [|apply Hf].
Qed.

(** *** References are never dangling *)

Definition ref_ok (T : AMC) (i : nat) : Prop := (i < length (t_entries T))%nat.

Lemma get_mapping_total T i addr :
  amc_ok T → ref_ok T i → ∃ m, get_mapping T (i, map_index cfg addr) = Ok m ∧ count_wf (map_counter m).
Proof using Hc.
  intros [Hok Hall] Hi. destruct (lookup_lt_is_Some_2 (t_entries T) i Hi) as [e He].
  pose proof (t_all_at _ _ _ _ Hall He) as [Hl Ha]. pose proof (map_index_lt addr).
  destruct (lookup_lt_is_Some_2 (w_data e) (map_index cfg addr)) as [m Hm]; [lia|].
  exists m. unfold get_mapping. simpl. rewrite (t_get_ok _ _ _ He). run_ok. rewrite Hm. split; [done|].
  by eapply Forall_lookup_1 in Ha.
Qed.

Lemma set_mapping_total T i addr m :
  amc_ok T → ref_ok T i → count_wf (map_counter m) →
  ∃ T', set_mapping T (i, map_index cfg addr) m = Ok T' ∧ amc_ok T' ∧ ∀ j, ref_ok T j → ref_ok T' j.
Proof using Hc.
  intros [Hok Hall] Hi Hm. destruct (lookup_lt_is_Some_2 (t_entries T) i Hi) as [e He].
  pose proof (t_all_at _ _ _ _ Hall He) as [Hl Ha]. unfold set_mapping. simpl. rewrite (t_get_ok _ _ _ He). run_ok.
  eexists. split; [done|]. split; [split; [by apply t_put_ok|]|].
  - apply t_all_put; [done|]. split; simpl; [by rewrite length_insert|]. by apply Forall_insert.
  - intros j. unfold ref_ok. by rewrite t_put_entries, length_insert.
Qed.

Lemma touch_total t T sec addr :
  amc_ok T → ∃ i T', t_find_or_insert t T (amc_key cfg addr sec) = Ok (i, T') ∧ amc_ok T' ∧ ref_ok T' i ∧
    ∀ j, ref_ok T j → ref_ok T' j.
Proof using Hc RL.
  intros [Hok Hall]. destruct (t_entry_spec (maps_ok c) (maps_ok_reset c) t T (amc_key cfg addr sec) Hok Hall)
    as (i & T' & e & E & Hok' & Hu & _ & Hall' & [_ He] & _).
  exists i, T'. split_and!; [done|done|by eapply lookup_lt_Some|]. intros j. unfold ref_ok. by rewrite (upd_length _ _ _ Hu).
Qed.

Lemma add_total t T s sec p :
  amc_ok T → ∃ T', addStructuralToPhysicalEntry t cfg T s sec p = Ok T' ∧ amc_ok T'.
Proof using Hc RL.
  intros HT. unfold addStructuralToPhysicalEntry. destruct (touch_total t T sec s HT) as (i & T1 & -> & HT1 & Hi & _). run_ok.
  destruct (get_mapping_total T1 i s HT1 Hi) as (m & -> & Hm). run_ok.
  destruct (set_mapping_total T1 i s (mkMapping p (sat_inc (sat_reset (map_counter m)))) HT1 Hi) as (T2 & -> & HT2 & _); [|eauto].
  by apply count_inc, count_reset.
Qed.

Lemma meaning_first p k : count_wf k → counter k = 0 → meaning (mkMapping p (sat_inc k)) = Some (p, 1).
Proof.
  intros (_ & _ & Hm) E. unfold meaning, sat_inc. rewrite E. by rewrite (proj2 (Z.ltb_lt _ _) Hm).
Qed.

Lemma count_one k : count_wf k → count_wf (sat_inc (sat_reset k)) ∧ counter (sat_inc (sat_reset k)) = 1.
Proof.
  intros Hk. destruct (count_reset _ Hk) as [Hr E]. split; [by apply count_inc|]. unfold sat_inc. rewrite E.
  destruct Hr as (_ & _ & Hm). simpl in *. by rewrite (proj2 (Z.ltb_lt _ _)).
Qed.

Lemma meaning_one p k : count_wf k → meaning (mkMapping p (sat_inc (sat_reset k))) = Some (p, 1).
Proof. intros Hk. unfold meaning. cbn [map_counter map_address]. by destruct (count_one k Hk) as [_ ->]. Qed.

Lemma add_spec t T s sec S p :
  amc_ok T → spread T sec S → S s →
  ∃ T', addStructuralToPhysicalEntry t cfg T s sec p = Ok T' ∧ amc_ok T' ∧ spread T' sec S ∧
    ∀ a, S a → mview T' sec a = if decide (a = s) then Some (p, 1) else mview T sec a.
Proof using Hc RL.
  intros HT Hs Ss. unfold addStructuralToPhysicalEntry.
  destruct (touch_spec t T sec S s HT Hs Ss) as (i & T1 & -> & HT1 & Hs1 & Hl1 & Hv1 & _). run_ok.
  destruct (get_mapping_ok T1 sec s i HT1 Hl1) as (m & -> & _ & Hm). run_ok.
  destruct (set_mapping_spec T1 sec S s i (mkMapping p (sat_inc (sat_reset (map_counter m)))) HT1 Hs1 Ss Hl1)
    as (T2 & -> & HT2 & Hs2 & Hv2 & _); [by apply count_one|]. exists T2. split_and!; [done..|].
  intros a Sa. rewrite Hv2, meaning_one by done. case_decide; [done|]. by apply Hv1.
Qed.
End Facts.

(** *** The invariant *)

Section Inv.
Context {G R : Type} `{RL : ReplLaws G R}.
Implicit Types st : ISB G R.

Record isb_wf st : Prop := {
  iw_cand : 0 < prefetchCandidatesPerEntry (isb_cfg st);
  iw_tu : t_ok (trainingUnit st);
  iw_ps : amc_ok (isb_cfg st) (psAddressMappingCache st);
  iw_sp : amc_ok (isb_cfg st) (spAddressMappingCache st)
}.

Lemma correlate_total t a b sec st :
  isb_wf st → ∃ st', correlate t a b sec st = Ok st' ∧ isb_wf st' ∧ isb_cfg st' = isb_cfg st.
Proof using RL.
  intros [Hc Htu Hps Hsp]. unfold correlate, getPSMapping. set (cfg := isb_cfg st) in *.
  destruct (touch_total cfg Hc t _ sec a Hps) as (i & PS1 & -> & H1 & Hi1 & _). run_ok.
  destruct (touch_total cfg Hc t _ sec b H1) as (j & PS2 & -> & H2 & Hj2 & Hk2). run_ok.
  pose proof (Hk2 _ Hi1) as Hi2.
  destruct (get_mapping_total cfg Hc PS2 i a H2 Hi2) as (mA & -> & HmA). run_ok.
  destruct (get_mapping_total cfg Hc PS2 j b H2 Hj2) as (mB & -> & HmB). run_ok.
  set (next := u64 (map_address mA + 1)).
  destruct (_ && _).
  { destruct (_ =? next).
    { destruct (set_mapping_total cfg Hc PS2 j b (mkMapping (map_address mB) (sat_inc (map_counter mB))) H2 Hj2)
        as (PS3 & -> & H3 & _); [by apply count_inc|]. run_ok. eexists. split; [done|]. by split; [split|]. }
    destruct (_ =? 1).
    - destruct (set_mapping_total cfg Hc PS2 j b (mkMapping next (map_counter mB)) H2 Hj2) as (PS3 & -> & H3 & _); [done|].
      run_ok. destruct (add_total cfg Hc t _ next sec b Hsp) as (SP & -> & HSP). run_ok. eexists. split; [done|]. by split; [split|].
    - destruct (set_mapping_total cfg Hc PS2 j b (mkMapping (map_address mB) (sat_dec (map_counter mB))) H2 Hj2)
        as (PS3 & -> & H3 & _); [by apply count_dec|]. run_ok. eexists. split; [done|]. by split; [split|]. }
  assert (∃ PS3 SP sc, (if counter (map_counter mA) =? 0 then
         PS ← set_mapping PS2 (i, map_index cfg a) (mkMapping (structuralAddressCounter st) (sat_inc (map_counter mA)));
         SP ← addStructuralToPhysicalEntry t cfg (spAddressMappingCache st) (structuralAddressCounter st) sec a;
         Ok (PS, SP, u64 (structuralAddressCounter st + chunkSize cfg))
       else Ok (PS2, spAddressMappingCache st, structuralAddressCounter st)) = Ok (PS3, SP, sc) ∧
     amc_ok cfg PS3 ∧ amc_ok cfg SP ∧ ref_ok PS3 i ∧ ref_ok PS3 j) as (PS3 & SP & sc & -> & H3 & HSP & Hi3 & Hj3).
  { destruct (_ =? 0).
    - destruct (set_mapping_total cfg Hc PS2 i a (mkMapping (structuralAddressCounter st) (sat_inc (map_counter mA))) H2 Hi2)
        as (PS3 & -> & H3 & Hk3); [by apply count_inc|]. run_ok.
      destruct (add_total cfg Hc t _ (structuralAddressCounter st) sec a Hsp) as (SP & -> & HSP). run_ok.
      eexists _, _, _. split_and!; [done|done|done|by apply Hk3|by apply Hk3].
    - eexists _, _, _. split_and!; done. }
  run_ok. destruct (get_mapping_total cfg Hc PS3 j b H3 Hj3) as (mB' & -> & HmB'). run_ok.
  destruct (set_mapping_total cfg Hc PS3 j b (mkMapping (map_address mB') (sat_inc (sat_reset (map_counter mB')))) H3 Hj3)
    as (PS4 & -> & H4 & Hk4); [by apply count_inc, count_reset|]. run_ok.
  destruct (get_mapping_total cfg Hc PS4 i a H4 (Hk4 _ Hi3)) as (mA' & -> & HmA'). run_ok.
  destruct (get_mapping_total cfg Hc PS4 j b H4 (Hk4 _ Hj3)) as (mB'' & -> & HmB''). run_ok.
  destruct (set_mapping_total cfg Hc PS4 j b (mkMapping (u64 (map_address mA' + 1)) (map_counter mB'')) H4 (Hk4 _ Hj3))
    as (PS5 & -> & H5 & _); [done|]. run_ok.
  destruct (add_total cfg Hc t SP (u64 (map_address mA' + 1)) sec b HSP) as (SP' & -> & HSP'). run_ok.
  eexists. split; [done|]. by split; [split|].
Qed.

(** The first time [b] follows [a]: [b] gets the structural address after that of [a],
    which gets a new one if it has none. *)
Lemma correlate_fresh t a b sec (S S' : Z → Prop) st :
  isb_wf st → spread (isb_cfg st) (psAddressMappingCache st) sec S → spread (isb_cfg st) (spAddressMappingCache st) sec S' →
  S a → S b → a ≠ b → mview (isb_cfg st) (psAddressMappingCache st) sec b = None →
  let old := mview (isb_cfg st) (psAddressMappingCache st) sec a in
  let s := match old with Some (s, _) => s | None => structuralAddressCounter st end in
  S' s → S' (u64 (s + 1)) →
  ∃ st', correlate t a b sec st = Ok st' ∧ isb_wf st' ∧ isb_cfg st' = isb_cfg st ∧ trainingUnit st' = trainingUnit st ∧
    spread (isb_cfg st) (psAddressMappingCache st') sec S ∧ spread (isb_cfg st) (spAddressMappingCache st') sec S' ∧
    (∀ x, S x → mview (isb_cfg st) (psAddressMappingCache st') sec x
       = if decide (x = b) then Some (u64 (s + 1), 1) else
         if decide (x = a) then Some (default (s, 1) old) else mview (isb_cfg st) (psAddressMappingCache st) sec x) ∧
    (∀ x, S' x → mview (isb_cfg st) (spAddressMappingCache st') sec x
       = if decide (x = u64 (s + 1)) then Some (b, 1) else
         if decide (x = s ∧ old = None) then Some (a, 1) else mview (isb_cfg st) (spAddressMappingCache st) sec x).
Proof using RL.
  intros [Hc Htu Hps Hsp] HS HS' Sa Sb Hab Hb old s Ss Ss1. unfold correlate, getPSMapping. set (cfg := isb_cfg st) in *.
  destruct (touch_spec cfg Hc t _ sec S a Hps HS Sa) as (i & PS1 & -> & H1 & HS1 & Hi1 & Hv1 & _). run_ok.
  destruct (touch_spec cfg Hc t _ sec S b H1 HS1 Sb) as (j & PS2 & -> & H2 & HS2 & Hj2 & Hv2 & Hk2). run_ok.
  pose proof (Hk2 _ _ Sa Hi1) as Hi2.
  assert (∀ x, S x → mview cfg PS2 sec x = mview cfg (psAddressMappingCache st) sec x) as Hv by (intros x Sx; by rewrite Hv2, Hv1).
  destruct (get_mapping_ok cfg Hc PS2 sec a i H2 Hi2) as (mA & -> & EmA & HmA). run_ok.
  destruct (get_mapping_ok cfg Hc PS2 sec b j H2 Hj2) as (mB & -> & EmB & HmB). run_ok.
  rewrite Hv in EmA, EmB by done. rewrite Hb in EmB. fold old in EmA.
  assert ((0 <? counter (map_counter mB)) = false) as EB.
  { unfold meaning in EmB. destruct (0 <? counter (map_counter mB)); done. }
  rewrite EB, andb_false_r.
  assert (∃ PS3 SP sc, (if counter (map_counter mA) =? 0 then
         PS ← set_mapping PS2 (i, map_index cfg a) (mkMapping (structuralAddressCounter st) (sat_inc (map_counter mA)));
         SP ← addStructuralToPhysicalEntry t cfg (spAddressMappingCache st) (structuralAddressCounter st) sec a;
         Ok (PS, SP, u64 (structuralAddressCounter st + chunkSize cfg))
       else Ok (PS2, spAddressMappingCache st, structuralAddressCounter st)) = Ok (PS3, SP, sc) ∧
     amc_ok cfg PS3 ∧ amc_ok cfg SP ∧ spread cfg PS3 sec S ∧ spread cfg SP sec S' ∧ line_at cfg PS3 sec a i ∧ line_at cfg PS3 sec b j ∧
     (∀ x, S x → mview cfg PS3 sec x
        = if decide (x = a) then Some (default (s, 1) old) else mview cfg (psAddressMappingCache st) sec x) ∧
     (∀ x, S' x → mview cfg SP sec x
        = if decide (x = s ∧ old = None) then Some (a, 1) else mview cfg (spAddressMappingCache st) sec x))
    as (PS3 & SP & sc & -> & H3 & HSP & HS3 & HSS & Hi3 & Hj3 & Hv3 & Hw3).
  { unfold meaning in EmA. destruct (Z.eqb_spec (counter (map_counter mA)) 0) as [Ez|Hz].
    - rewrite Ez in EmA. cbn in EmA. subst s. rewrite <-EmA in *.
      destruct (set_mapping_spec cfg Hc PS2 sec S a i (mkMapping (structuralAddressCounter st) (sat_inc (map_counter mA)))
        H2 HS2 Sa Hi2) as (PS3 & -> & H3 & HS3 & Hv3 & Hk3); [by apply count_inc|]. run_ok.
      destruct (add_spec cfg Hc t (spAddressMappingCache st) (structuralAddressCounter st) sec S' a Hsp HS' Ss)
        as (SP & -> & HSP & HSS & Hw). run_ok.
      eexists _, _, _. split_and!; [done..|by apply Hk3|by apply Hk3| |].
      + intros x Sx. rewrite Hv3 by done. case_decide; [|by apply Hv]. by apply meaning_first.
      + intros x Sx. rewrite Hw by done. destruct (decide (x = structuralAddressCounter st)); [|by rewrite decide_False by tauto].
        by rewrite decide_True.
    - destruct (Z.ltb_spec 0 (counter (map_counter mA))) as [Hp|]; [|destruct HmA as ((? & _) & _); lia].
      eexists _, _, _. split_and!; [done..| |].
      + intros x Sx. rewrite Hv by done. case_decide as Hx; [|done]. subst x. fold old. by rewrite <-EmA.
      + intros x Sx. rewrite decide_False; [done|]. rewrite <-EmA. by intros [_ ?]. }
  run_ok. destruct (get_mapping_ok cfg Hc PS3 sec b j H3 Hj3) as (mB' & -> & _ & HmB'). run_ok.
  destruct (set_mapping_spec cfg Hc PS3 sec S b j (mkMapping (map_address mB') (sat_inc (sat_reset (map_counter mB')))) H3 HS3 Sb Hj3)
    as (PS4 & -> & H4 & HS4 & Hv4 & Hk4); [by apply count_one|]. run_ok.
  destruct (get_mapping_ok cfg Hc PS4 sec a i H4 (Hk4 _ _ Sa Hi3)) as (mA' & -> & EmA' & HmA'). run_ok.
  destruct (get_mapping_ok cfg Hc PS4 sec b j H4 (Hk4 _ _ Sb Hj3)) as (mB'' & -> & EmB'' & HmB''). run_ok.
  rewrite Hv4, decide_False, Hv3, decide_True in EmA' by done.
  rewrite Hv4, decide_True, meaning_one in EmB'' by done.
  assert (map_address mA' = s) as ->.
  { unfold meaning in EmA'. destruct (0 <? counter (map_counter mA')); [|done]. injection EmA' as E. apply (f_equal fst) in E. cbn [fst] in E.
    rewrite E. unfold s. by destruct old as [[]|]. }
  destruct (set_mapping_spec cfg Hc PS4 sec S b j (mkMapping (u64 (s + 1)) (map_counter mB'')) H4 HS4 Sb (Hk4 _ _ Sb Hj3))
    as (PS5 & -> & H5 & HS5 & Hv5 & _); [done|]. run_ok.
  destruct (add_spec cfg Hc t SP (u64 (s + 1)) sec S' b HSP HSS Ss1) as (SP' & -> & HSP' & HSS' & Hw'). run_ok.
  eexists. split; [done|]. split_and!; [by split|done|done|done|done| |].
  - intros x Sx. cbn [psAddressMappingCache]. rewrite Hv5, Hv4 by done. destruct (decide (x = b)); [|by apply Hv3].
    unfold meaning in EmB'' |- *. cbn [map_counter map_address]. destruct (0 <? counter (map_counter mB'')); [|done].
    by injection EmB'' as _ ->.
  - intros x Sx. cbn [spAddressMappingCache]. rewrite Hw' by done. case_decide; [done|]. by apply Hw3.
Qed.

(** Allocating an entry of the training unit. *)
Lemma tu_alloc t (T : Tbl TaggedKey TrainingUnitEntry G R) key :
  t_ok T → ∃ i T1 T2 e, t_findVictim T key = Ok (i, T1) ∧ t_insertEntry t T1 key i = Ok T2 ∧ t_ok T2 ∧
    t_entries T2 !! i = Some e ∧ (t_findEntry T key = Ok None → t_found T2 key i e).
Proof using RL.
  intros Hok. destruct (t_alloc_any t T key Hok) as (v & T1 & e0 & E1 & _ & He0 & _ & He1 & Hins).
  destruct (Hins _ (law_e_invalidate e0)) as (T2 & e2 & E2 & _ & Hu2 & Hf2 & He2). rewrite t_put_id in E2.
  2: { rewrite He1. apply list_lookup_insert_eq. by eapply lookup_lt_Some. }
  exists v, T1, T2, e2. split_and!; [done|done|by eapply t_upd_ok| |done].
  rewrite He2. apply list_lookup_insert_eq. by eapply lookup_lt_Some.
Qed.

(** The training unit remembers the last address of a program counter. *)
Lemma train_spec t pc sec addr st :
  isb_wf st → ∃ hit T, train t pc sec addr st
    = Ok (hit, mkISB (isb_cfg st) T (psAddressMappingCache st) (spAddressMappingCache st) (structuralAddressCounter st)) ∧
  t_ok T ∧
  (t_findEntry (trainingUnit st) (mkKey pc sec) = Ok None → hit = None ∧ t_view T (mkKey pc sec) = Some (mkTU addr sec)) ∧
  (∀ a, t_view (trainingUnit st) (mkKey pc sec) = Some (mkTU a sec) →
     hit = Some a ∧ t_view T (mkKey pc sec) = Some (mkTU addr sec)).
Proof using RL.
  intros [_ Htu _ _]. unfold train. set (key := mkKey pc sec).
  destruct (tu_alloc t (trainingUnit st) key Htu) as (v & T1 & T2 & e2 & EV & EI & Hok2 & He2 & Hf2).
  destruct (t_find_total _ key Htu) as [Hm|(i & e & Hf & _)].
  - rewrite Hm. run_ok. rewrite EV. run_ok. rewrite EI. run_ok. rewrite (t_get_ok _ _ _ He2). run_ok.
    eexists None, _. split; [done|]. split; [by apply t_put_ok|]. split.
    + intros _. split; [done|]. pose proof (t_put_found T2 key v e2 (mkWith (w_base e2) (mkTU addr sec)) Hok2 (Hf2 Hm) ltac:(done)) as Hf3.
      by rewrite (t_view_found _ _ _ _ Hf3).
    + intros a. unfold t_view. by rewrite Hm.
  - rewrite (proj1 Hf). run_ok. rewrite (t_get_ok _ _ _ (proj2 Hf)). run_ok.
    destruct (eqb (lastAddressSecure (w_data e)) sec) eqn:Es.
    + destruct (t_access_spec t _ _ i e Htu Hf) as (T' & -> & Hu & He & Hfind). run_ok.
      assert (t_found T' key i e) as Hf' by (split; [by rewrite Hfind; apply Hf|rewrite He; apply Hf]).
      rewrite (t_get_ok _ _ _ (proj2 Hf')). run_ok. pose proof (t_upd_ok _ _ _ Hu Htu) as Hok'.
      eexists _, _. split; [done|]. split; [by apply t_put_ok|]. split; [by destruct Hf; congruence|].
      intros a. rewrite (t_view_found _ _ _ _ Hf). intros [= E]. rewrite E. split; [done|].
      pose proof (t_put_found T' key i e (mkWith (w_base e) (mkTU addr sec)) Hok' Hf' ltac:(done)) as Hf3.
      by rewrite (t_view_found _ _ _ _ Hf3).
    + rewrite EV. run_ok. rewrite EI. run_ok. rewrite (t_get_ok _ _ _ He2). run_ok.
      eexists None, _. split; [done|]. split; [by apply t_put_ok|]. split; [by destruct Hf; congruence|].
      intros a. rewrite (t_view_found _ _ _ _ Hf). intros [= E]. rewrite E in Es. simpl in Es. by rewrite eqb_reflx in Es.
Qed.

(** The candidates in terms of the mappings. *)
Fixpoint stream_view cfg (T : Tbl TaggedKey AddressMappingEntry G R) (sec : bool) (s d : Z) (n : nat) : list AddrPriority :=
  match n with
  | O => []
  | Datatypes.S n =>
      if s mod prefetchCandidatesPerEntry cfg + d <? prefetchCandidatesPerEntry cfg then
        match mview cfg T sec (s + d) with
        | Some (p, _) => [(u64 (Z.shiftl p (lBlkSize (isb_base cfg))), 0)]
        | None => []
        end ++ stream_view cfg T sec s (d + 1) n
      else []
  end.

Lemma stream_from_view cfg (T : Tbl TaggedKey AddressMappingEntry G R) sec s i e d n :
  0 < prefetchCandidatesPerEntry cfg → 0 ≤ d → t_found T (amc_key cfg s sec) i e →
  stream_from cfg (w_data e) (s mod prefetchCandidatesPerEntry cfg) d n = stream_view cfg T sec s d n.
Proof.
  intros Hc Hd Hf. revert d Hd. induction n as [|n IH]; intros d Hd; [done|]. simpl.
  set (c := prefetchCandidatesPerEntry cfg) in *. destruct (Z.ltb_spec (s mod c + d) c) as [Hlt|]; [|done].
  rewrite IH by lia. f_equal. pose proof (Z.mod_pos_bound s c Hc). pose proof (Z.div_mod s c ltac:(lia)) as Es.
  assert ((s + d) / c = s / c ∧ (s + d) mod c = s mod c + d) as [E1 E2].
  { split; [symmetry; apply (Z.div_unique _ _ _ (s mod c + d))|symmetry; apply (Z.mod_unique _ _ (s / c))]; lia. }
  unfold mview, amc_key, map_index. fold c. rewrite E1, E2. change (mkKey (s / c) sec) with (amc_key cfg s sec). rewrite (t_view_found _ _ _ _ Hf). simpl.
  destruct (w_data e !! _) as [m|]; [|done]. simpl. unfold meaning. by destruct (0 <? counter (map_counter m)).
Qed.

Lemma predict_total addr sec st : isb_wf st → ∃ l, predict addr sec st = Ok l.
Proof using RL.
  intros [Hc _ Hps Hsp]. unfold predict.
  destruct (t_find_total _ (amc_key (isb_cfg st) addr sec) (ao_ok _ _ Hps)) as [->|(i & e & Hf & _)]; [by eauto|].
  rewrite (proj1 Hf). run_ok.
  destruct (get_mapping_ok _ Hc _ sec addr i Hps) as (m & -> & _ & _); [by exists e|]. run_ok.
  destruct (_ <? _); [|by eauto].
  destruct (t_find_total _ (amc_key (isb_cfg st) (map_address m) sec) (ao_ok _ _ Hsp)) as [->|(j & e' & Hf' & _)]; [by eauto|].
  rewrite (proj1 Hf'). run_ok. rewrite (t_get_ok _ _ _ (proj2 Hf')). run_ok. eauto.
Qed.

Lemma predict_spec addr sec st s k v :
  isb_wf st → mview (isb_cfg st) (psAddressMappingCache st) sec addr = Some (s, k) →
  mview (isb_cfg st) (spAddressMappingCache st) sec s = Some v →
  predict addr sec st = Ok (stream_view (isb_cfg st) (spAddressMappingCache st) sec s 1 (Z.to_nat (isb_degree (isb_cfg st)))).
Proof using RL.
  intros [Hc _ Hps Hsp] Hps_a Hsp_s. unfold predict.
  destruct (t_find_total _ (amc_key (isb_cfg st) addr sec) (ao_ok _ _ Hps)) as [E|(i & e & Hf & _)].
  { unfold mview, t_view in Hps_a. by rewrite E in Hps_a. }
  rewrite (proj1 Hf). run_ok.
  destruct (get_mapping_ok _ Hc _ sec addr i Hps) as (m & -> & Em & _); [by exists e|]. run_ok.
  rewrite Hps_a in Em. unfold meaning in Em. destruct (0 <? counter (map_counter m)); [|done]. injection Em as -> _.
  destruct (t_find_total _ (amc_key (isb_cfg st) s sec) (ao_ok _ _ Hsp)) as [E|(j & e' & Hf' & _)].
  { unfold mview, t_view in Hsp_s. by rewrite E in Hsp_s. }
  rewrite (proj1 Hf'). run_ok. rewrite (t_get_ok _ _ _ (proj2 Hf')). run_ok. f_equal. by eapply stream_from_view.
Qed.

Lemma isb_total t pfi st :
  isb_wf st → ∃ st' l, isb_calculatePrefetch t pfi st = Ok (st', l) ∧ isb_wf st' ∧ isb_cfg st' = isb_cfg st.
Proof using RL.
  intros Hst. unfold isb_calculatePrefetch, getPC. destruct (pfi_validPC pfi); [|by eexists _, _]. cbn [negb assert_that mbind outcome_bind].
  destruct (train_spec t (pfi_pc pfi) (pfi_secure pfi) (blockIndex (isb_base (isb_cfg st)) (pfi_address pfi)) st Hst)
    as (hit & T & -> & HT & _). run_ok.
  set (st1 := mkISB _ _ _ _ _). assert (isb_wf st1 ∧ isb_cfg st1 = isb_cfg st) as [Hst1 Ec1].
  { destruct Hst. by split; [split|]. }
  assert (∃ st2, match hit with
       | Some a => correlate t a (blockIndex (isb_base (isb_cfg st)) (pfi_address pfi)) (pfi_secure pfi) st1
       | None => Ok st1 end = Ok st2 ∧ isb_wf st2 ∧ isb_cfg st2 = isb_cfg st) as (st2 & -> & Hst2 & Ec2).
  { destruct hit as [a|]; [|by eauto]. destruct (correlate_total t a (blockIndex (isb_base (isb_cfg st)) (pfi_address pfi))
      (pfi_secure pfi) st1 Hst1) as (st2 & -> & ? & ?). eexists. split_and!; [done|done|congruence]. }
  run_ok. destruct (predict_total (blockIndex (isb_base (isb_cfg st)) (pfi_address pfi)) (pfi_secure pfi) st2 Hst2) as [l ->].
  run_ok. by exists st2, l.
Qed.
End Inv.

#[export] Instance isb_safe {G R : Type} `{RL : ReplLaws G R} : SafePrefetcher (ISB G R).
Proof.
  refine {| pf_inv := isb_wf |}. intros t pfi cache st _ Hst.
  destruct (isb_total t pfi st Hst) as (st' & l & E & Hst' & _). eauto.
Defined.

(** *** Recording a stream *)

Section Stream.
Context {G R : Type} `{RL : ReplLaws G R} (cfg : ISBCfg) (pc : Z) (sec : bool) (base : Z) (blocks : list Z).
Abbreviation c := (prefetchCandidatesPerEntry cfg).
Abbreviation n := (Z.of_nat (length blocks)).
Context (Hnodup : NoDup blocks) (Hspace : 0 ≤ base ∧ base + n + c < 2 ^ 64).
Implicit Types st : ISB G R.

Definition in_stream (x : Z) : Prop := x ∈ blocks.
Definition in_chunk (x : Z) : Prop := base ≤ x < base + n + c.

(** The first [k] blocks have been accessed.  The first correlation gives both of its
    addresses their structural ones. *)
Record recorded (k : nat) st : Prop := {
  re_wf : isb_wf st;
  re_cfg : isb_cfg st = cfg;
  re_ps : spread cfg (psAddressMappingCache st) sec in_stream;
  re_sp : spread cfg (spAddressMappingCache st) sec in_chunk;
  re_last : ∀ p, blocks !! (k - 1)%nat = Some p → t_view (trainingUnit st) (mkKey pc sec) = Some (mkTU p sec);
  re_counter : k = 1%nat → structuralAddressCounter st = base;
  re_ps_view j p : blocks !! j = Some p →
    mview cfg (psAddressMappingCache st) sec p = if decide (j < k ∧ 2 ≤ k)%nat then Some (base + Z.of_nat j, 1) else None;
  re_sp_view j : Z.of_nat j < n + c →
    mview cfg (spAddressMappingCache st) sec (base + Z.of_nat j)
    = if decide (j < k ∧ 2 ≤ k)%nat then (λ p, (p, 1)) <$> blocks !! j else None
}.

Lemma recorded_step t k pfi st p :
  recorded k st → (1 ≤ k)%nat → blocks !! k = Some p →
  pfi_validPC pfi = true → pfi_pc pfi = pc → pfi_secure pfi = sec → blockIndex (isb_base cfg) (pfi_address pfi) = p →
  ∃ st' l, isb_calculatePrefetch t pfi st = Ok (st', l) ∧ recorded (S k) st'.
Proof using RL Hnodup Hspace.
  intros [Hwf Ec Hps Hsp Hlast Hctr Hpv Hsv] Hk Hp Hpc Epc Esec Eidx.
  assert (0 < c) as Hc by (rewrite <-Ec; apply Hwf).
  pose proof (lookup_lt_Some _ _ _ Hp) as Hkn.
  destruct (lookup_lt_is_Some_2 blocks (k - 1)) as [q Hq]; [lia|].
  unfold isb_calculatePrefetch, getPC. rewrite Hpc, Ec, Epc, Esec, Eidx. cbn [negb assert_that mbind outcome_bind].
  destruct (train_spec t pc sec p st Hwf) as (hit & T & -> & HT & _ & Hhit). destruct (Hhit q (Hlast q Hq)) as [-> HTv]. run_ok.
  set (st1 := mkISB _ _ _ _ _).
  assert (isb_wf st1) as Hwf1 by (destruct Hwf; by split).
  set (s := base + Z.of_nat (k - 1)).
  assert (u64 (s + 1) = base + Z.of_nat k) as Enext by (rewrite wrap_id; [lia|unfold in_u; lia]).
  pose proof (Hpv (k - 1)%nat q Hq) as Hqv. pose proof (Hpv k p Hp) as Hpn. rewrite decide_False in Hpn by lia.
  assert (match mview cfg (psAddressMappingCache st) sec q with Some (s, _) => s | None => structuralAddressCounter st end = s) as Es.
  { rewrite Hqv. case_decide; [done|]. unfold s. rewrite Hctr by lia. replace (k - 1)%nat with 0%nat by lia. lia. }
  destruct (correlate_fresh t q p sec in_stream in_chunk st1 Hwf1) as (st2 & -> & Hwf2 & Ec2 & ETU & Hps2 & Hsp2 & Hpv2 & Hsv2);
    cbn [isb_cfg psAddressMappingCache spAddressMappingCache structuralAddressCounter st1]; rewrite ?Ec; try done.
  { by eapply list_elem_of_lookup_2. }
  { by eapply list_elem_of_lookup_2. }
  { intros <-. pose proof (NoDup_lookup _ _ _ _ Hnodup Hp Hq). lia. }
  { rewrite Es. unfold in_chunk, s. lia. }
  { rewrite Es, Enext. unfold in_chunk. lia. }
  cbn [isb_cfg psAddressMappingCache spAddressMappingCache structuralAddressCounter st1 trainingUnit] in *. rewrite Ec, Es, Enext in *.
  run_ok. destruct (predict_total p sec st2 Hwf2) as [l ->]. run_ok. exists st2, l. split; [done|].
  split; try done.
  - intros p' Hp'. rewrite ETU. replace (S k - 1)%nat with k in Hp' by lia. congruence.
  - lia.
  - intros j x Hx. rewrite Hpv2 by (by eapply list_elem_of_lookup_2).
    destruct (decide (x = p)) as [->|Hxp].
    { rewrite (NoDup_lookup _ _ _ _ Hnodup Hx Hp), decide_True by lia. done. }
    destruct (decide (x = q)) as [->|Hxq].
    { rewrite (NoDup_lookup _ _ _ _ Hnodup Hx Hq), decide_True by lia. rewrite Hqv. by case_decide. }
    assert (j ≠ k) by congruence. assert (j ≠ k - 1)%nat by congruence. rewrite (Hpv j x Hx).
    destruct (decide (j < k ∧ 2 ≤ k)%nat), (decide (j < S k ∧ 2 ≤ S k)%nat); (done || lia).
  - intros j Hj. rewrite Hsv2 by (unfold in_chunk; lia).
    destruct (decide (base + Z.of_nat j = base + Z.of_nat k)) as [Ej|Hjk].
    { replace j with k by lia. by rewrite decide_True, Hp by lia. }
    rewrite Hqv. destruct (decide (2 ≤ k)%nat) as [Hk2|Hk2].
    + rewrite (decide_True (P := (k - 1 < k ∧ 2 ≤ k)%nat)) by lia.
      rewrite (decide_False (P := base + Z.of_nat j = s ∧ _)) by (by intros [_ ?]). rewrite Hsv by lia.
      destruct (decide (j < k ∧ 2 ≤ k)%nat), (decide (j < S k ∧ 2 ≤ S k)%nat); (done || lia).
    + rewrite (decide_False (P := (k - 1 < k ∧ 2 ≤ k)%nat)) by lia. unfold s.
      destruct (decide (base + Z.of_nat j = base + Z.of_nat (k - 1) ∧ @None (Z * Z) = None)) as [[Ej _]|Hn].
      * replace j with (k - 1)%nat by lia. by rewrite decide_True, Hq by lia.
      * assert (j ≠ k - 1)%nat by (intros ->; by apply Hn). rewrite Hsv, !decide_False by lia. done.
Qed.

Lemma recorded_start t pfi st p :
  isb_wf st → isb_cfg st = cfg → structuralAddressCounter st = base →
  spread cfg (psAddressMappingCache st) sec in_stream → spread cfg (spAddressMappingCache st) sec in_chunk →
  (∀ x, in_stream x → mview cfg (psAddressMappingCache st) sec x = None) →
  (∀ x, in_chunk x → mview cfg (spAddressMappingCache st) sec x = None) →
  t_findEntry (trainingUnit st) (mkKey pc sec) = Ok None → blocks !! 0%nat = Some p →
  pfi_validPC pfi = true → pfi_pc pfi = pc → pfi_secure pfi = sec → blockIndex (isb_base cfg) (pfi_address pfi) = p →
  ∃ st' l, isb_calculatePrefetch t pfi st = Ok (st', l) ∧ recorded 1 st'.
Proof using RL Hspace.
  intros Hwf Ec Eb Hps Hsp Hpn Hsn Htu Hp Hpc Epc Esec Eidx.
  unfold isb_calculatePrefetch, getPC. rewrite Hpc, Ec, Epc, Esec, Eidx. cbn [negb assert_that mbind outcome_bind].
  destruct (train_spec t pc sec p st Hwf) as (hit & T & -> & HT & Hmiss & _). destruct (Hmiss Htu) as [-> HTv]. run_ok.
  set (st1 := mkISB _ _ _ _ _).
  assert (isb_wf st1) as Hwf1 by (destruct Hwf; by split).
  destruct (predict_total p sec st1 Hwf1) as [l ->]. run_ok. exists st1, l. split; [done|].
  split; try done; cbn [trainingUnit psAddressMappingCache spAddressMappingCache st1].
  - intros p' Hp'. simpl in Hp'. congruence.
  - intros j x Hx. rewrite decide_False by lia. apply Hpn. by eapply list_elem_of_lookup_2.
  - intros j Hj. rewrite decide_False by lia. apply Hsn. unfold in_chunk. lia.
Qed.

Lemma recorded_run cache pfi (X : list Z) :
  pfi_validPC pfi = true → pfi_pc pfi = pc → pfi_secure pfi = sec → blockIndex (isb_base cfg) <$> X = blocks →
  ∀ Y k st, drop k X = Y.*2 → (1 ≤ k)%nat → recorded k st →
    ∃ st' os, run_accesses cache (prod_map id (pfi_with_addr pfi) <$> Y) st = Ok (st', os) ∧ recorded (k + length Y) st'.
Proof using RL Hnodup Hspace.
  intros Hpc Epc Esec EX. induction Y as [|[t x] Y IH]; intros k st Hd Hk Hst.
  { exists st, []. by rewrite Nat.add_0_r. }
  assert (X !! k = Some x) as Hx. { rewrite <-(Nat.add_0_r k), <-lookup_drop, Hd. done. }
  destruct (recorded_step t k (pfi_with_addr pfi x) st (blockIndex (isb_base cfg) x)) as (st1 & o & E1 & H1); try done.
  { by rewrite <-EX, list_lookup_fmap, Hx. }
  destruct (IH (S k) st1) as (st2 & os & E2 & H2); [|lia|done|].
  { rewrite <-Nat.add_1_r, <-drop_drop, Hd. done. }
  exists st2, (o :: os). split.
  - cbn [fmap list_fmap prod_map fst snd]. by eapply run_accesses_cons.
  - cbn [length]. by rewrite <-Nat.add_succ_comm.
Qed.

Lemma recorded_stream st k j d m :
  recorded k st → (2 ≤ k)%nat → k = length blocks → (c | base) → (j < k)%nat → (0 < d)%nat →
  stream_view cfg (spAddressMappingCache st) sec (base + Z.of_nat j) (Z.of_nat d) m
  = (λ p, (u64 (Z.shiftl p (lBlkSize (isb_base cfg))), 0))
      <$> take (m `min` (Z.to_nat c - j mod Z.to_nat c - d)) (drop (j + d) blocks).
Proof using Hspace.
  intros Hst Hk Ek [q Hq] Hj. assert (0 < c) as Hc by (destruct Hst as [Hwf Ec]; rewrite <-Ec; apply Hwf).
  assert ((base + Z.of_nat j) mod c = Z.of_nat (j mod Z.to_nat c)) as Em.
  { rewrite Hq, Z.add_comm, Z.mod_add, Nat2Z.inj_mod, Z2Nat.id by lia. done. }
  pose proof (Nat.mod_upper_bound j (Z.to_nat c) ltac:(lia)).
  revert d. induction m as [|m IH]; intros d Hd; [done|]. cbn [stream_view]. rewrite Em.
  destruct (Z.ltb_spec (Z.of_nat (j mod Z.to_nat c) + Z.of_nat d) c) as [Hlt|Hge].
  2: { replace (Z.to_nat c - j mod Z.to_nat c - d)%nat with 0%nat by lia. by rewrite Nat.min_0_r. }
  replace (base + Z.of_nat j + Z.of_nat d) with (base + Z.of_nat (j + d)) by lia.
  rewrite (re_sp_view _ _ Hst) by lia.
  replace (Z.of_nat d + 1) with (Z.of_nat (S d)) by lia. rewrite IH by lia.
  replace (Z.to_nat c - j mod Z.to_nat c - d)%nat with (S (Z.to_nat c - j mod Z.to_nat c - S d)) by lia.
  rewrite <-Nat.succ_min_distr. destruct (blocks !! (j + d)%nat) as [p|] eqn:Ep.
  - rewrite decide_True by (apply lookup_lt_Some in Ep; lia). rewrite (drop_S _ _ _ Ep). cbn [fmap option_fmap option_map take].
    rewrite fmap_cons, Nat.add_succ_r. done.
  - apply lookup_ge_None in Ep. rewrite !drop_ge, !take_nil by lia. by case_decide.
Qed.
End Stream.

(** *** Construction *)

Lemma isb_new_wf {G R : Type} `{RL : ReplLaws G R} cfg bits te ta ae aa tix pix six ts ps ss (g1 g2 g3 : G) (st : ISB G R) :
  (∀ g, is_ok (rp_instantiate (R := R) g)) → 0 < prefetchCandidatesPerEntry cfg → 1 ≤ bits ≤ 8 →
  0 < ta < 2 ^ 32 → 0 ≤ te < 2 ^ 32 → te mod ta = 0 → indexing_new ta te 0 = Ok (tix, ts) →
  0 < aa < 2 ^ 32 → 0 ≤ ae < 2 ^ 32 → ae mod aa = 0 → indexing_new aa ae 0 = Ok (pix, ps) → indexing_new aa ae 0 = Ok (six, ss) →
  isb_new cfg bits te ta ae aa (TaggedSetAssociative tix) (TaggedSetAssociative pix) (TaggedSetAssociative six) ts ps ss g1 g2 g3 = Ok st →
  isb_wf st.
Proof.
  intros Hi Hc Hb Hta Hte Htm Et Haa Hae Ham Ep Es E. unfold isb_new in E.
  destruct (t_new_fills ta te 0 tix ts (mkWith te_new (mkTU 0 false)) g1 Hi (Z.le_refl 0) Hta Hte Htm Et) as (TU & ETU & Htu & _).
  rewrite ETU in E. cbn [mbind outcome_bind] in E. apply outcome_bind_ok in E as (k & Ek & E).
  destruct (count_new bits k Hb Ek) as [Hk _].
  set (entry := mkWith te_new _) in E.
  assert (maps_ok (prefetchCandidatesPerEntry cfg) (w_data entry)) as Hentry.
  { split; simpl; [rewrite length_replicate; lia|by apply Forall_replicate]. }
  destruct (t_new_fills aa ae 0 pix ps entry g2 Hi (Z.le_refl 0) Haa Hae Ham Ep) as (PS & EPS & Hps & _ & Hpe & _).
  destruct (t_new_fills aa ae 0 six ss entry g3 Hi (Z.le_refl 0) Haa Hae Ham Es) as (SP & ESP & Hsp & _ & Hse & _).
  rewrite EPS in E. cbn [mbind outcome_bind] in E. rewrite ESP in E. cbn [mbind outcome_bind] in E.
  apply outcome_bind_ok in E as (? & _ & [= <-]).
  split; simpl; [done|done| |]; (split; [done|]; unfold t_all; rewrite ?Hpe, ?Hse; by apply Forall_replicate).
Qed.

(** ** Theorem *)

(** C18: A stream recorded by one program counter is predicted for another.  Let a program
    counter access blocks that have no structural addresses yet and whose entries do not
    evict each other.  Then each of these blocks, when a program counter without a training
    entry accesses it, gets as candidates the blocks that followed it, in order and nothing
    else: as many as the degree, up to the end of the stream and of the group of structural
    addresses an entry holds. *)
Theorem isb_predicts_recorded {G R : Type} `{RL : ReplLaws G R} (st : ISB G R) (cache : CacheAccessor) (pfi : PrefetchInfo)
    (Y : list (Z * Z)) :
  let cfg := isb_cfg st in
  let sec := pfi_secure pfi in
  let X := Y.*2 in
  let blocks := blockIndex (isb_base cfg) <$> X in
  let base := structuralAddressCounter st in
  let c := prefetchCandidatesPerEntry cfg in
  isb_wf st → cfg_wf (isb_base cfg) → pfi_validPC pfi = true → Forall (in_u 64) X → (2 ≤ length Y)%nat → NoDup blocks →
  0 ≤ base → base + Z.of_nat (length Y) + c < 2 ^ 64 → (c | base) →
  spread cfg (psAddressMappingCache st) sec (λ x, x ∈ blocks) →
  spread cfg (spAddressMappingCache st) sec (λ x, base ≤ x < base + Z.of_nat (length Y) + c) →
  (∀ x, x ∈ blocks → mview cfg (psAddressMappingCache st) sec x = None) →
  (∀ x, base ≤ x < base + Z.of_nat (length Y) + c → mview cfg (spAddressMappingCache st) sec x = None) →
  t_findEntry (trainingUnit st) (mkKey (pfi_pc pfi) sec) = Ok None →
  ∃ st' os, run_accesses cache (prod_map id (pfi_with_addr pfi) <$> Y) st = Ok (st', os) ∧ isb_wf st' ∧
    ∀ j x t pfi', X !! j = Some x → pfi_validPC pfi' = true → pfi_secure pfi' = sec →
      blockIndex (isb_base cfg) (pfi_address pfi') = blockIndex (isb_base cfg) x →
      t_findEntry (trainingUnit st') (mkKey (pfi_pc pfi') sec) = Ok None →
      ∃ st'', isb_calculatePrefetch t pfi' st'
        = Ok (st'', (λ a, (blockAddress (isb_base cfg) a, 0))
                      <$> take (Z.to_nat (isb_degree cfg) `min` (Z.to_nat c - j mod Z.to_nat c - 1)) (drop (S j) X)).
Proof.
  intros cfg sec X blocks base c Hwf Hbase Hpc Hin Hlen Hnd Hb0 Hsp Hdiv HS HS' Hpn Hsn Htu.
  assert (length blocks = length Y) as El by (unfold blocks, X; by rewrite !length_fmap).
  rewrite <-El in Hsp, Hsn, HS'. destruct Y as [|[t0 x0] Y]; [simpl in Hlen; lia|].
  destruct (recorded_start cfg (pfi_pc pfi) sec base blocks (conj Hb0 Hsp) t0 (pfi_with_addr pfi x0) st (blockIndex (isb_base cfg) x0))
    as (st1 & o & E1 & H1); try done.
  destruct (recorded_run cfg (pfi_pc pfi) sec base blocks Hnd (conj Hb0 Hsp) cache pfi X Hpc eq_refl eq_refl eq_refl Y 1 st1)
    as (st2 & os & E2 & H2); [done|lia|done|].
  assert (1 + length Y = length blocks)%nat as El2 by (rewrite El; done). rewrite El2 in H2.
  exists st2, (o :: os). split; [cbn [fmap list_fmap prod_map fst snd]; by eapply run_accesses_cons|]. split; [apply H2|].
  intros j x t pfi' Hx Hpc' Esec' Eidx Htu'.
  assert (blocks !! j = Some (blockIndex (isb_base cfg) x)) as Hj by (unfold blocks; by rewrite list_lookup_fmap, Hx).
  pose proof (lookup_lt_Some _ _ _ Hj) as Hjl. destruct H2 as [Hwf2 Ec2 Hps2 Hsp2 Hl2 Hc2 Hpv2 Hsv2] eqn:EH2. clear EH2.
  pose proof (Hpv2 j _ Hj) as Hv. rewrite decide_True in Hv by lia.
  assert (0 < prefetchCandidatesPerEntry cfg) as Hc by exact (iw_cand _ Hwf). pose proof (Hsv2 j ltac:(lia)) as Hw. rewrite decide_True, Hj in Hw by lia. simpl in Hw.
  unfold isb_calculatePrefetch, getPC. rewrite Hpc', Ec2, Esec', Eidx. cbn [negb assert_that mbind outcome_bind].
  destruct (train_spec t (pfi_pc pfi') sec (blockIndex (isb_base cfg) x) st2 Hwf2) as (hit & T & -> & HT & Hmiss & _).
  destruct (Hmiss Htu') as [-> _]. run_ok. set (st3 := mkISB _ _ _ _ _).
  assert (isb_wf st3) as Hwf3 by (destruct Hwf2; by split).
  rewrite (predict_spec _ sec st3 (base + Z.of_nat j) 1 (blockIndex (isb_base cfg) x, 1) Hwf3);
    [|cbn [isb_cfg psAddressMappingCache st3]; by rewrite Ec2|cbn [isb_cfg spAddressMappingCache st3]; by rewrite Ec2].
  run_ok. exists st3. do 2 f_equal. cbn [isb_cfg spAddressMappingCache st3]. rewrite Ec2.
  rewrite (recorded_stream cfg (pfi_pc pfi) sec base blocks (conj Hb0 Hsp) st2 (length blocks) j 1); try done; [|lia|lia].
  unfold blocks. rewrite <-fmap_drop, <-fmap_take, <-list_fmap_compose, Nat.add_1_r.
  apply Forall_fmap_ext_1. apply Forall_take, Forall_drop. eapply Forall_impl; [exact Hin|]. intros a Ha. unfold compose. f_equal.
  rewrite (blockAddress_index _ Hbase) by done. pose proof (blockAddress_range _ Hbase a Ha) as Hr.
  rewrite (blockAddress_index _ Hbase) in Hr by done. destruct Hbase as [Hl Hbk _].
  rewrite Z.shiftl_mul_pow2, <-Hbk, Z.mul_comm by lia. by apply wrap_id.
Qed.

(** Four mappings per entry, eight sets of one entry in each of the mapping tables, two
    candidates per access. *)
Definition ex_isb_cfg : ISBCfg :=
  mkISBCfg (mkBaseCfg 64 6 true true true true true 0 4096 true false false) 8 4 2.

Definition ex_isb_new : outcome (ISB unit LRUReplData) :=
  isb_new ex_isb_cfg 2 2 2 8 1 (TaggedSetAssociative (mkIndexing 2 1 0 0 0)) (TaggedSetAssociative (mkIndexing 1 8 0 7 3))
    (TaggedSetAssociative (mkIndexing 1 8 0 7 3)) [[None; None]] (replicate 8 [None]) (replicate 8 [None]) tt tt tt.

Lemma ex_isb_runs : is_okb ex_isb_new = true.
Proof. by vm_compute. Qed.

Definition ex_isb : ISB unit LRUReplData := the_result ex_isb_new ex_isb_runs.

Lemma ex_isb_wf : isb_wf ex_isb.
Proof.
  eapply (isb_new_wf ex_isb_cfg 2 2 2 8 1 (mkIndexing 2 1 0 0 0) (mkIndexing 1 8 0 7 3) (mkIndexing 1 8 0 7 3)
    [[None; None]] (replicate 8 [None]) (replicate 8 [None]) tt tt tt);
    [by intros; eexists|done|lia|lia|lia|done|by vm_compute|lia|lia|done|by vm_compute|by vm_compute|apply the_result_ok].
Qed.

Lemma ex_isb_base_wf : cfg_wf (isb_base ex_isb_cfg).
Proof. split; [by vm_compute|done|]. exists 12. split; [by vm_compute|done]. Qed.

(** Three blocks by one program counter, and the first of them by another. *)
Definition ex_isb_stream : list (Z * Z) := [(1, 0x1000); (2, 0x1100); (3, 0x3200)].
Definition ex_isb_access (pc addr : Z) : PrefetchInfo := mkPfi addr pc 0 true false 8 false addr true None.

(** The conditions on finitely many addresses, computed. *)
Definition spread_check (T : Tbl TaggedKey AddressMappingEntry unit LRUReplData) (l : list Z) : bool :=
  forallb (λ a, forallb (λ b,
    bool_decide (amc_key ex_isb_cfg a false = amc_key ex_isb_cfg b false) ||
    forallb (λ i, negb (bool_decide (i ∈ t_cands T (amc_key ex_isb_cfg b false)))) (t_cands T (amc_key ex_isb_cfg a false))) l) l.

Lemma spread_check_ok T l (S : Z → Prop) :
  spread_check T l = true → (∀ x, S x → x ∈ l) → spread ex_isb_cfg T false S.
Proof.
  intros Hl HS a b i Sa Sb Hne Hi. apply HS, list_elem_of_In in Sa. apply HS, list_elem_of_In in Sb.
  unfold spread_check in Hl. rewrite forallb_forall in Hl. specialize (Hl a Sa). rewrite forallb_forall in Hl. specialize (Hl b Sb).
  rewrite bool_decide_false in Hl by done. simpl in Hl. rewrite forallb_forall in Hl. apply list_elem_of_In in Hi.
  specialize (Hl i Hi). by destruct (bool_decide_reflect (i ∈ t_cands T (amc_key ex_isb_cfg b false))).
Qed.

Lemma unmapped_check (T : Tbl TaggedKey AddressMappingEntry unit LRUReplData) l (S : Z → Prop) :
  forallb (λ x, bool_decide (mview ex_isb_cfg T false x = None)) l = true → (∀ x, S x → x ∈ l) →
  ∀ x, S x → mview ex_isb_cfg T false x = None.
Proof.
  intros Hl HS x Sx. rewrite forallb_forall in Hl. apply HS, list_elem_of_In, Hl in Sx. by apply bool_decide_eq_true in Sx.
Qed.

Lemma ex_in_range x : 0 ≤ x < 0 + Z.of_nat (length ex_isb_stream) + 4 → x ∈ seqZ 0 7.
Proof. intros Hx. apply elem_of_seqZ. simpl in Hx. lia. Qed.

Lemma isb_predicts_recorded_witness :
  isb_wf ex_isb ∧
  ∃ st' os st'', run_accesses empty_cache (prod_map id (pfi_with_addr (ex_isb_access 0x400 0)) <$> ex_isb_stream) ex_isb = Ok (st', os) ∧
    isb_calculatePrefetch 9 (ex_isb_access 0x500 0x1000) st' = Ok (st'', [(0x1100, 0); (0x3200, 0)]).
Proof.
  split; [exact ex_isb_wf|].
  destruct (isb_predicts_recorded ex_isb empty_cache (ex_isb_access 0x400 0) ex_isb_stream ex_isb_wf ex_isb_base_wf eq_refl)
    as (st' & os & E & _ & Hpred).
  - repeat constructor; unfold in_u; simpl; lia.
  - apply Nat.leb_le. reflexivity.
  - vm_compute. repeat constructor; rewrite list_elem_of_In; cbn [In]; intuition discriminate.
  - vm_compute. discriminate.
  - vm_compute. reflexivity.
  - by exists 0.
  - apply (spread_check_ok _ [64; 68; 200]); [vm_compute; reflexivity|]. intros x Hx. exact Hx.
  - apply (spread_check_ok _ (seqZ 0 7)); [vm_compute; reflexivity|exact ex_in_range].
  - apply (unmapped_check _ [64; 68; 200]); [vm_compute; reflexivity|]. intros x Hx. exact Hx.
  - apply (unmapped_check _ (seqZ 0 7)); [vm_compute; reflexivity|exact ex_in_range].
  - vm_compute. reflexivity.
  - assert ((λ r, match r with Ok (s, _) => t_findEntry (trainingUnit s) (mkKey 0x500 false) | Stop f => Stop f end)
      (run_accesses empty_cache (prod_map id (pfi_with_addr (ex_isb_access 0x400 0)) <$> ex_isb_stream) ex_isb) = Ok None) as Hn
      by (vm_compute; reflexivity).
    rewrite E in Hn.
    destruct (Hpred 0%nat 0x1000 9 (ex_isb_access 0x500 0x1000) eq_refl eq_refl eq_refl eq_refl Hn) as [st'' E''].
    exists st', os, st''. split; [exact E|exact E''].
Defined.

(** A program counter that repeats its own three blocks four times is given no candidate. *)
Example isb_own_loop :
  (r ← run_accesses empty_cache
        ((λ a, (a, ex_isb_access 0x400 a)) <$> concat (replicate 4 [0x1000; 0x1100; 0x3200])) ex_isb;
   Ok (concat r.2)) = Ok [].
Proof. vm_compute. reflexivity. Qed.
