(* ===== verification/SMS.v ===== *)
(** * Spatial memory streaming

    [src/src/mem/cache/prefetch/sms.{hh,cc}].  The first access to a region is remembered in
    the filter table, with the second a generation starts: the active generation table
    collects the offsets accessed in the region until one of its blocks is evicted from the
    cache, when they become the pattern of the program counter and offset that started the
    generation.  An access whose program counter and offset have a pattern proposes the
    pattern's offsets in the region of the access.

    The theorems are that no access or eviction fails and the three tables never outgrow
    their sizes; that a generation is replayed; and that the queues which order the tables,
    unlike the tables, grow without bound ([sms_queue_grows]). *)

From Stdlib Require Import ZArith Lia.
From stdpp Require Import base numbers option list strings gmap sorting.
From S2P Require Import Prelude IntMath PrefetchBase PrefetchQueue Children.
#[local] Open Scope Z_scope.

(** A [std::set<Addr>]: its elements in ascending order. *)
Fixpoint set_insert (x : Z) (s : list Z) : list Z :=
  match s with
  | [] => [x]
  | y :: s' => if x <? y then x :: s else if x =? y then s else y :: set_insert x s'
  end.

(** The members; [std::deque]s with their front first. *)
Record Sms := mkSms {
  sms_base : BaseCfg;
  Max_Contexts : Z;
  MAX_PHTSize : Z;
  Region_Size : Z;
  AGT : gmap Z (list Z);
  AGTPC : gmap Z (Z * Z);
  FT : gmap Z (Z * Z);
  PHT : gmap (Z * Z) (list Z);
  fifoFT : list Z;
  lruAGT : list Z;
  lruPHT : list (Z * Z)
}.

(** [Max_Contexts] is an [int], compared with sizes as [unsigned long]. *)
Definition max_contexts (st : Sms) : Z := u64 (Max_Contexts st).

Definition sms_new (base : BaseCfg) (ft_size pht_size region_size : Z) : Sms :=
  mkSms base (i32 ft_size) pht_size region_size ∅ ∅ ∅ ∅ [] [] [].

(** [while (m.size() > max) { m.erase(q.back()); q.pop_back(); }], the queue with its back
    first; [erase] may act on more than one map. *)
Fixpoint evict_from {K S : Type} (sz : S → nat) (erase : K → S → S) (max : Z) (back_first : list K) (m : S)
    : outcome (S * list K) :=
  if Z.of_nat (sz m) <=? max then Ok (m, back_first) else
  match back_first with
  | [] => Stop (Panic "back of an empty deque")
  | k :: q => evict_from sz erase max q (erase k m)
  end.

Definition evict_while {K S : Type} (sz : S → nat) (erase : K → S → S) (max : Z) (q : list K) (m : S)
    : outcome (S * list K) :=
  '(m, r) ← evict_from sz erase max (reverse q) m; Ok (m, reverse r).

Section Queue.
Context {K : Type} `{Countable K}.

(** The first occurrence removed. *)
Fixpoint erase_first (k : K) (q : list K) : list K :=
  match q with
  | [] => []
  | x :: q => if decide (x = k) then q else x :: erase_first k q
  end.

(** The loop that moves an element to the front. *)
Definition to_front (k : K) (q : list K) : list K := if bool_decide (k ∈ q) then k :: erase_first k q else q.
End Queue.

Definition set_of {K} `{Countable K} (m : gmap K (list Z)) (k : K) : list Z := default [] (m !! k).

(** The default pair, of a key that [operator[]] creates. *)
Definition pair_of (m : gmap Z (Z * Z)) (k : Z) : Z * Z := default (0, 0) (m !! k).

(** The generation of a region recorded under its trigger: [offsets] is the region's set, if it has one. *)
Definition record_generation (pc_offset : Z * Z) (offsets : option (list Z)) (st : Sms) : gmap (Z * Z) (list Z) * list (Z * Z) :=
  match offsets with
  | Some offsets =>
      let cleared := if bool_decide (is_Some (PHT st !! pc_offset)) then <[pc_offset := []]> (PHT st) else PHT st in
      (foldl (λ m o, <[pc_offset := set_insert o (set_of m pc_offset)]> m) cleared offsets, pc_offset :: lruPHT st)
  | None => (PHT st, lruPHT st)
  end.

Definition sms_notifyEvict (info : EvictionInfo) (st : Sms) : outcome Sms :=
  region_base ← roundDown 64 (ev_addr info) (Region_Size st);
  let pc_offset := pair_of (AGTPC st) region_base in
  let '(PHT', lru) := record_generation pc_offset (AGT st !! region_base) st in
  '(PHT', lru) ← evict_while size delete (MAX_PHTSize st) lru PHT';
  Ok (mkSms (sms_base st) (Max_Contexts st) (MAX_PHTSize st) (Region_Size st)
        (delete region_base (AGT st)) (delete region_base (AGTPC st)) (FT st) PHT' (fifoFT st) (lruAGT st) lru).

(** [AGT.erase(k); AGTPC.erase(k);]. *)
Definition erase_both (k : Z) (m : gmap Z (list Z) * gmap Z (Z * Z)) : gmap Z (list Z) * gmap Z (Z * Z) :=
  (delete k m.1, delete k m.2).

(** The training of an access at [offset] of the region. *)
Definition sms_train (pc region_base offset : Z) (st : Sms) : outcome Sms :=
  match AGT st !! region_base with
  | Some offsets =>
      _ ← assert_that (bool_decide (FT st !! region_base = None)) "FT.find(region_base) == FT.end()";
      Ok (mkSms (sms_base st) (Max_Contexts st) (MAX_PHTSize st) (Region_Size st)
            (<[region_base := set_insert offset offsets]> (AGT st)) (AGTPC st) (FT st) (PHT st)
            (fifoFT st) (to_front region_base (lruAGT st)) (lruPHT st))
  | None =>
      match FT st !! region_base with
      | Some trigger =>
          let AGT' := <[region_base := set_insert offset (set_insert trigger.2 [])]> (AGT st) in
          let AGTPC' := <[region_base := trigger]> (AGTPC st) in
          '((AGT', AGTPC'), lru) ← evict_while (λ m, size m.1) erase_both (max_contexts st) (region_base :: lruAGT st) (AGT', AGTPC');
          Ok (mkSms (sms_base st) (Max_Contexts st) (MAX_PHTSize st) (Region_Size st) AGT' AGTPC'
                (delete region_base (FT st)) (PHT st) (fifoFT st) lru (lruPHT st))
      | None =>
          '(FT', fifo) ← evict_while size delete (max_contexts st) (region_base :: fifoFT st) (<[region_base := (pc, offset)]> (FT st));
          Ok (mkSms (sms_base st) (Max_Contexts st) (MAX_PHTSize st) (Region_Size st) (AGT st) (AGTPC st) FT' (PHT st)
                fifo (lruAGT st) (lruPHT st))
      end
  end.

(** The prediction: the pattern's offsets in the region, and the pattern becomes the most
    recent one. *)
Definition sms_predict (pc region_base offset : Z) (st : Sms) : Sms * list AddrPriority :=
  match PHT st !! (pc, offset) with
  | Some offsets =>
      (mkSms (sms_base st) (Max_Contexts st) (MAX_PHTSize st) (Region_Size st) (AGT st) (AGTPC st) (FT st) (PHT st)
         (fifoFT st) (lruAGT st) (to_front (pc, offset) (lruPHT st)),
       (λ o, (blockAddress (sms_base st) (u64 (region_base + o)), 0)) <$> offsets)
  | None => (st, [])
  end.

Definition sms_calculatePrefetch (pfi : PrefetchInfo) (st : Sms) : outcome (Sms * list AddrPriority) :=
  if negb (pfi_validPC pfi) then Ok (st, []) else
  let blk_addr := blockAddress (sms_base st) (pfi_address pfi) in
  pc ← getPC pfi;
  region_base ← roundDown 64 blk_addr (Region_Size st);
  let offset := u64 (blk_addr - region_base) in
  st ← sms_train pc region_base offset st;
  Ok (sms_predict pc region_base offset st).

#[export] Instance sms_prefetcher : CalculatePrefetch Sms := λ _ pfi _ st, sms_calculatePrefetch pfi st.

(** ** Facts *)

(** *** Sets *)

Lemma set_insert_in x y s : x ∈ set_insert y s ↔ x = y ∨ x ∈ s.
Proof.
  induction s as [|z s IH]; simpl; [set_solver|]. destruct (y <? z); [set_solver|].
  destruct (Z.eqb_spec y z) as [->|]; set_solver.
Qed.

Lemma set_insert_sorted x s : StronglySorted Z.lt s → StronglySorted Z.lt (set_insert x s).
Proof.
  induction 1 as [|z s Hs IH Hz]; simpl; [repeat constructor|].
  destruct (Z.ltb_spec x z) as [Hlt|Hge].
  - constructor; [by constructor|]. constructor; [done|]. eapply Forall_impl; [exact Hz|]. simpl. lia.
  - destruct (Z.eqb_spec x z) as [->|Hne]; [by constructor|]. constructor; [done|].
    apply Forall_forall. intros y [->|Hy]%set_insert_in; [lia|]. rewrite Forall_forall in Hz. by apply Hz.
Qed.

Lemma set_insert_last x s : Forall (λ y, y < x) s → set_insert x s = s ++ [x].
Proof.
  induction 1 as [|y s Hy _ IH]; [done|]. simpl. rewrite (proj2 (Z.ltb_ge _ _)), (proj2 (Z.eqb_neq _ _)) by lia. by rewrite IH.
Qed.

(** Inserting the elements of a set one by one gives the set. *)
Lemma set_copy s l : StronglySorted Z.lt (s ++ l) → foldl (λ s o, set_insert o s) s l = s ++ l.
Proof.
  revert s. induction l as [|x l IH]; intros s Hs; simpl; [by rewrite app_nil_r|].
  apply StronglySorted_app in Hs as Hs'. destruct Hs' as (H1 & H2 & H3).
  rewrite set_insert_last.
  - rewrite IH; by rewrite <-app_assoc.
  - apply Forall_forall. intros y Hy. apply H1; [done|left].
Qed.

(** *** Queues *)

Section QueueFacts.
Context {K : Type} `{Countable K}.

Lemma erase_first_in x k (q : list K) : x ≠ k → x ∈ erase_first k q ↔ x ∈ q.
Proof. intros Hne. induction q as [|y q IH]; simpl; [done|]. destruct (decide (y = k)) as [->|]; set_solver. Qed.

Lemma erase_first_length k (q : list K) : k ∈ q → S (length (erase_first k q)) = length q.
Proof.
  induction q as [|y q IH]; [by intros ?%not_elem_of_nil|]. simpl. destruct (decide (y = k)) as [->|]; [done|].
  intros Hk. simpl. rewrite IH; [done|set_solver].
Qed.

Lemma to_front_in x k (q : list K) : x ∈ to_front k q ↔ x ∈ q.
Proof.
  unfold to_front. case_bool_decide as Hk; [|done]. destruct (decide (x = k)) as [->|]; [set_solver|].
  rewrite elem_of_cons, erase_first_in by done. set_solver.
Qed.

Lemma to_front_length k (q : list K) : length (to_front k q) = length q.
Proof. unfold to_front. case_bool_decide; [|done]. simpl. by apply erase_first_length. Qed.

(** The eviction loop, for the map [π m] of the state [m]. *)
Context {S V : Type} (π : S → gmap K V) (erase : K → S → S) (Hπ : ∀ k m, π (erase k m) = delete k (π m)).

Lemma evict_from_spec max q m :
  0 ≤ max → (∀ k, is_Some (π m !! k) → k ∈ q) →
  ∃ m' q' p, evict_from (λ m, size (π m)) erase max q m = Ok (m', q') ∧ q = p ++ q' ∧
    m' = foldl (λ m k, erase k m) m p ∧ Z.of_nat (size (π m')) ≤ max ∧ (∀ k, is_Some (π m' !! k) → k ∈ q') ∧
    (Z.of_nat (size (π m)) ≤ max → p = []).
Proof using Hπ.
  intros Hmax. revert m. induction q as [|k q IH]; intros m Hq; simpl.
  - destruct (Z.leb_spec (Z.of_nat (size (π m))) max) as [Hle|Hgt]; [by exists m, [], []|].
    assert (π m = ∅) as E.
    { apply map_empty. intros k. destruct (π m !! k) as [v|] eqn:E; [|done]. exfalso. eapply not_elem_of_nil, Hq. by exists v. }
    rewrite E, map_size_empty in Hgt. lia.
  - destruct (Z.leb_spec (Z.of_nat (size (π m))) max) as [Hle|Hgt]; [by exists m, (k :: q), []|].
    destruct (IH (erase k m)) as (m' & q' & p & -> & -> & Em & Hsz & Hin & _).
    + intros k'. rewrite Hπ, lookup_delete_is_Some. intros [Hne Hs]. apply Hq in Hs. set_solver.
    + exists m', q', (k :: p). split_and!; [done..|]. lia.
Qed.

Lemma evict_while_spec max q m :
  0 ≤ max → (∀ k, is_Some (π m !! k) → k ∈ q) →
  ∃ m' q' p, evict_while (λ m, size (π m)) erase max q m = Ok (m', q') ∧ reverse q = p ++ reverse q' ∧
    m' = foldl (λ m k, erase k m) m p ∧ Z.of_nat (size (π m')) ≤ max ∧ (∀ k, is_Some (π m' !! k) → k ∈ q') ∧
    (Z.of_nat (size (π m)) ≤ max → m' = m ∧ q' = q).
Proof using Hπ.
  intros Hmax Hq. unfold evict_while. destruct (evict_from_spec max (reverse q) m Hmax) as (m' & q' & p & -> & Er & Em & Hsz & Hin & Hp).
  { intros k Hk. rewrite elem_of_reverse. by apply Hq. }
  run_ok. exists m', (reverse q'), p. rewrite reverse_involutive. split_and!; [done..| |].
  - intros k Hk. rewrite elem_of_reverse. by apply Hin.
  - intros Hle. rewrite (Hp Hle) in Em, Er. simpl in Em, Er. split; [done|]. by rewrite <-Er, reverse_involutive.
Qed.

Lemma erase_all_lookup k p m v : π (foldl (λ m k, erase k m) m p) !! k = Some v → π m !! k = Some v.
Proof using Hπ.
  revert m. induction p as [|x p IH]; intros m; [done|]. simpl. intros Hk%IH. rewrite Hπ in Hk.
  by apply lookup_delete_Some in Hk as [_ Hk].
Qed.
End QueueFacts.

(** *** The invariant *)

Record sms_wf (st : Sms) : Prop := {
  mw_base : cfg_wf (sms_base st);
  mw_region : ∃ k, lBlkSize (sms_base st) ≤ k ≤ 63 ∧ Region_Size st = 2 ^ k;
  mw_max : 0 ≤ Max_Contexts st < 2 ^ 31;
  mw_maxpht : 0 ≤ MAX_PHTSize st;
  mw_agt r : is_Some (AGT st !! r) → r ∈ lruAGT st;
  mw_agtpc r : is_Some (AGTPC st !! r) ↔ is_Some (AGT st !! r);
  mw_set r s : AGT st !! r = Some s → s ≠ [] ∧ StronglySorted Z.lt s;
  mw_ft r : is_Some (FT st !! r) → r ∈ fifoFT st;
  mw_pht k : is_Some (PHT st !! k) → k ∈ lruPHT st;
  mw_disjoint r : is_Some (AGT st !! r) → FT st !! r = None;
  mw_agt_size : Z.of_nat (size (AGT st)) ≤ Max_Contexts st;
  mw_ft_size : Z.of_nat (size (FT st)) ≤ Max_Contexts st;
  mw_pht_size : Z.of_nat (size (PHT st)) ≤ MAX_PHTSize st
}.

Lemma max_contexts_eq st : sms_wf st → max_contexts st = Max_Contexts st.
Proof. intros Hwf. unfold max_contexts. pose proof (mw_max _ Hwf). apply wrap_id. in_word. Qed.

Lemma region_total st a : sms_wf st → in_u 64 a → roundDown 64 a (Region_Size st) = Ok (a - a mod Region_Size st).
Proof. intros Hwf Ha. destruct (mw_region _ Hwf) as (k & Hk & ->). pose proof (wf_lblk _ (mw_base _ Hwf)). apply roundDown_pow2; [lia|done]. Qed.

(** A set that is not empty stays so. *)
Lemma set_insert_ne x s : set_insert x s ≠ [].
Proof. destruct s as [|y s]; simpl; [done|]. by destruct (x <? y), (x =? y). Qed.

Ltac sms_cbn := cbn [AGT AGTPC FT PHT fifoFT lruAGT lruPHT sms_base Max_Contexts MAX_PHTSize Region_Size fst snd].

Lemma train_active pc r o st s :
  sms_wf st → AGT st !! r = Some s →
  ∃ st', sms_train pc r o st = Ok st' ∧ sms_wf st' ∧ AGT st' = <[r := set_insert o s]> (AGT st) ∧
    AGTPC st' = AGTPC st ∧ FT st' = FT st ∧ PHT st' = PHT st ∧ lruPHT st' = lruPHT st ∧
    sms_base st' = sms_base st ∧ Region_Size st' = Region_Size st ∧ Max_Contexts st' = Max_Contexts st ∧ MAX_PHTSize st' = MAX_PHTSize st.
Proof.
  intros Hwf Hr. unfold sms_train. rewrite Hr. rewrite bool_decide_true by (by apply (mw_disjoint _ Hwf); exists s).
  cbn [assert_that mbind outcome_bind]. eexists. split; [done|]. split; [|done].
  destruct Hwf as [H1 H2 H3 H4 H5 H6 H7 H8 H9 H10 H11 H12 H13]. split; cbn; try done.
  - intros r'. rewrite to_front_in, lookup_insert_is_Some'. intros [<-|Hr']; [by apply H5; exists s|by apply H5].
  - intros r'. rewrite lookup_insert_is_Some', H6. split; [by right|]. intros [<-|?]; [by exists s|done].
  - intros r' s'. rewrite lookup_insert_Some. intros [[<- <-]|[_ Hr']]; [|by eapply H7].
    split; [apply set_insert_ne|apply set_insert_sorted; by eapply H7].
  - intros r'. rewrite lookup_insert_is_Some'. intros [<-|Hr']; [by apply H10; exists s|by apply H10].
  - by rewrite map_size_insert_Some by (by exists s).
Qed.

(** The two maps keep the same keys. *)
Lemma erase_both_domains p m :
  (∀ k, is_Some (m.2 !! k) ↔ is_Some (m.1 !! k)) →
  ∀ k, is_Some ((foldl (λ m k, erase_both k m) m p).2 !! k) ↔ is_Some ((foldl (λ m k, erase_both k m) m p).1 !! k).
Proof.
  revert m. induction p as [|x p IH]; intros m Hm; simpl; [done|]. apply IH. intros k. cbn.
  by rewrite !lookup_delete_is_Some, Hm.
Qed.

Lemma train_second pc r o st t :
  sms_wf st → AGT st !! r = None → FT st !! r = Some t →
  ∃ st', sms_train pc r o st = Ok st' ∧ sms_wf st' ∧ FT st' = delete r (FT st) ∧ PHT st' = PHT st ∧ lruPHT st' = lruPHT st ∧
    sms_base st' = sms_base st ∧ Region_Size st' = Region_Size st ∧ Max_Contexts st' = Max_Contexts st ∧ MAX_PHTSize st' = MAX_PHTSize st ∧
    (Z.of_nat (size (AGT st)) < Max_Contexts st →
       AGT st' = <[r := set_insert o (set_insert t.2 [])]> (AGT st) ∧ AGTPC st' = <[r := t]> (AGTPC st)).
Proof.
  intros Hwf Hr Ht. unfold sms_train. rewrite Hr, Ht, max_contexts_eq by done. cbv zeta.
  pose proof Hwf as [H1 H2 H3 H4 H5 H6 H7 H8 H9 H10 H11 H12 H13].
  set (A := <[r := set_insert o (set_insert t.2 [])]> (AGT st)). set (B := <[r := t]> (AGTPC st)).
  destruct (evict_while_spec fst erase_both (λ _ _, eq_refl)
    (Max_Contexts st) (r :: lruAGT st) (A, B)) as ([A' B'] & q & p & -> & _ & Em & Hsz & Hin & Hfit); [lia| |].
  { intros k. unfold A. cbn. rewrite lookup_insert_is_Some'. intros [<-|Hk]; [left|right; by apply H5]. }
  run_ok. assert (∀ k v, A' !! k = Some v → A !! k = Some v) as HA.
  { intros k v Hv. apply (erase_all_lookup fst erase_both (λ _ _, eq_refl) k p (A, B)). by rewrite <-Em. }
  assert (∀ k, is_Some (B' !! k) ↔ is_Some (A' !! k)) as HB.
  { assert (∀ k, is_Some (B !! k) ↔ is_Some (A !! k)) as HAB.
    { intros k. unfold A, B. by rewrite !lookup_insert_is_Some', H6. }
    pose proof (erase_both_domains p (A, B) HAB) as Hd. by rewrite <-Em in Hd. }
  cbn [fst] in Hsz, Hin. eexists. split; [done|]. split_and!; try done.
  - split; sms_cbn; try done.
    + intros k s Hs%HA. unfold A in Hs. apply lookup_insert_Some in Hs as [[_ <-]|[_ Hs]]; [|by eapply H7].
      split; [apply set_insert_ne|]. apply set_insert_sorted. by repeat constructor.
    + intros k [_ Hk]%lookup_delete_is_Some. by apply H8.
    + intros k [s Hs%HA]. destruct (decide (k = r)) as [->|Hne]; [apply lookup_delete_eq|].
      rewrite lookup_delete_ne by done. apply H10. unfold A in Hs. rewrite lookup_insert_ne in Hs by done. by exists s.
    + pose proof (map_size_delete_Some r (FT st) ltac:(by exists t)) as Hd. rewrite Hd. lia.
  - intros Hlt. sms_cbn. assert (A' = A ∧ B' = B) as [-> ->]; [|done].
    destruct Hfit as [E _]; [|by injection E as -> ->].
    cbn [fst]. unfold A. rewrite map_size_insert_None by done. lia.
Qed.

Lemma train_trigger pc r o st :
  sms_wf st → AGT st !! r = None → FT st !! r = None →
  ∃ st', sms_train pc r o st = Ok st' ∧ sms_wf st' ∧ AGT st' = AGT st ∧ AGTPC st' = AGTPC st ∧ PHT st' = PHT st ∧ lruPHT st' = lruPHT st ∧
    sms_base st' = sms_base st ∧ Region_Size st' = Region_Size st ∧ Max_Contexts st' = Max_Contexts st ∧ MAX_PHTSize st' = MAX_PHTSize st ∧
    (Z.of_nat (size (FT st)) < Max_Contexts st → FT st' = <[r := (pc, o)]> (FT st)).
Proof.
  intros Hwf Hr Ht. unfold sms_train. rewrite Hr, Ht, max_contexts_eq by done. cbv zeta.
  pose proof Hwf as [H1 H2 H3 H4 H5 H6 H7 H8 H9 H10 H11 H12 H13].
  set (F := <[r := (pc, o)]> (FT st)).
  destruct (evict_while_spec (S := gmap Z (Z * Z)) id delete (λ _ _, eq_refl)
    (Max_Contexts st) (r :: fifoFT st) F) as (F' & q & p & E & _ & Em & Hsz & Hin & Hfit); [lia| |].
  { intros k. unfold F. cbn. rewrite lookup_insert_is_Some'. intros [<-|Hk]; [left|right; by apply H8]. }
  change (evict_while size delete (Max_Contexts st) (r :: fifoFT st) F = Ok (F', q)) in E. rewrite E.
  run_ok. assert (∀ k v, F' !! k = Some v → F !! k = Some v) as HF.
  { intros k v Hv. apply (erase_all_lookup (S := gmap Z (Z * Z)) id delete (λ _ _, eq_refl) k p F). by rewrite <-Em. }
  eexists. split; [done|]. split_and!; try done.
  - split; sms_cbn; try done.
    intros k Hk. destruct (F' !! k) as [v|] eqn:Ev; [|done]. apply HF in Ev. unfold F in Ev.
    apply lookup_insert_Some in Ev as [[<- _]|[_ Ev]]; [rewrite Hr in Hk; by destruct Hk|].
    rewrite (H10 k Hk) in Ev. done.
  - intros Hlt. sms_cbn. destruct Hfit as [E' _]; [|done]. unfold id, F. rewrite map_size_insert_None by done. lia.
Qed.

Lemma train_total pc r o st :
  sms_wf st → ∃ st', sms_train pc r o st = Ok st' ∧ sms_wf st' ∧ PHT st' = PHT st ∧ lruPHT st' = lruPHT st ∧
    sms_base st' = sms_base st ∧ Region_Size st' = Region_Size st ∧ Max_Contexts st' = Max_Contexts st ∧ MAX_PHTSize st' = MAX_PHTSize st.
Proof.
  intros Hwf. destruct (AGT st !! r) as [s|] eqn:Ha.
  - destruct (train_active pc r o st s Hwf Ha) as (st' & E & Hwf' & H). exists st'. tauto.
  - destruct (FT st !! r) as [t|] eqn:Hf.
    + destruct (train_second pc r o st t Hwf Ha Hf) as (st' & E & Hwf' & H). exists st'. tauto.
    + destruct (train_trigger pc r o st Hwf Ha Hf) as (st' & E & Hwf' & H). exists st'. tauto.
Qed.

Lemma predict_wf pc r o st : sms_wf st → sms_wf (sms_predict pc r o st).1.
Proof.
  intros [H1 H2 H3 H4 H5 H6 H7 H8 H9 H10 H11 H12 H13]. unfold sms_predict.
  destruct (PHT st !! (pc, o)); [|done]. split; sms_cbn; try done. intros k. rewrite to_front_in. apply H9.
Qed.

(** Copying a set into a map through [operator[]]. *)
Lemma copy_into (m : gmap (Z * Z) (list Z)) k l s :
  set_of m k = s →
  foldl (λ m o, <[k := set_insert o (set_of m k)]> m) m l
  = match l with [] => m | _ => <[k := foldl (λ s o, set_insert o s) s l]> m end.
Proof.
  revert m s. induction l as [|x l IH]; intros m s Hs; [done|]. cbn [foldl].
  rewrite (IH _ (set_insert x s)) by (unfold set_of at 1; by rewrite lookup_insert_eq, Hs).
  rewrite Hs. destruct l; [done|]. by rewrite insert_insert_eq.
Qed.

Lemma pattern_stored (P : gmap (Z * Z) (list Z)) k l :
  l ≠ [] → StronglySorted Z.lt l →
  foldl (λ m o, <[k := set_insert o (set_of m k)]> m)
    (if bool_decide (is_Some (P !! k)) then <[k := []]> P else P) l = <[k := l]> P.
Proof.
  intros Hne Hs. rewrite (copy_into _ _ _ []).
  - rewrite (set_copy [] l) by done. simpl. destruct l; [done|]. case_bool_decide; [by rewrite insert_insert_eq|done].
  - unfold set_of. case_bool_decide as Hk; [by rewrite lookup_insert_eq|]. destruct (P !! k) eqn:E; [|done]. destruct Hk. by exists l0.
Qed.

Lemma record_spec k offsets st :
  (∀ s, offsets = Some s → s ≠ [] ∧ StronglySorted Z.lt s) → (∀ x, is_Some (PHT st !! x) → x ∈ lruPHT st) →
  ∃ P q, record_generation k offsets st = (P, q) ∧ (∀ x, is_Some (P !! x) → x ∈ q) ∧
    (∀ s, offsets = Some s → P = <[k := s]> (PHT st) ∧ q = k :: lruPHT st) ∧ (size P ≤ S (size (PHT st)))%nat.
Proof.
  intros Hs HP. destruct offsets as [s|]; cbn [record_generation].
  - destruct (Hs s eq_refl) as [Hne Hsort]. cbv zeta. rewrite pattern_stored by done. eexists _, _. split; [done|]. split.
    + intros x. rewrite lookup_insert_is_Some'. intros [<-|Hx]; [left|right; by apply HP].
    + split; [by intros s' [= <-]|]. rewrite map_size_insert. destruct (PHT st !! k); cbn; lia.
  - eexists _, _. split; [done|]. split; [done|]. split; [intros s [=]|lia].
Qed.

Lemma evict_region st info :
  sms_wf st → in_u 64 (ev_addr info) →
  let r := ev_addr info - ev_addr info mod Region_Size st in
  ∃ st', sms_notifyEvict info st = Ok st' ∧ sms_wf st' ∧ AGT st' = delete r (AGT st) ∧ AGTPC st' = delete r (AGTPC st) ∧ FT st' = FT st ∧
    sms_base st' = sms_base st ∧ Region_Size st' = Region_Size st ∧ Max_Contexts st' = Max_Contexts st ∧ MAX_PHTSize st' = MAX_PHTSize st ∧
    (size (PHT st') ≤ S (size (PHT st)))%nat ∧
    ∀ s t, AGT st !! r = Some s → AGTPC st !! r = Some t → Z.of_nat (size (PHT st)) < MAX_PHTSize st →
      PHT st' = <[t := s]> (PHT st) ∧ lruPHT st' = t :: lruPHT st.
Proof.
  intros Hwf Ha r. unfold sms_notifyEvict. rewrite region_total by done. fold r. run_ok.
  pose proof Hwf as [H1 H2 H3 H4 H5 H6 H7 H8 H9 H10 H11 H12 H13].
  set (k := pair_of (AGTPC st) r).
  destruct (record_spec k (AGT st !! r) st (H7 r)) as (P & q & -> & HP & Hfull & HPs); [done|].
  destruct (evict_while_spec (S := gmap (Z * Z) (list Z)) id delete (λ _ _, eq_refl) (MAX_PHTSize st) q P)
    as (P' & q' & p & E & _ & Em & Hsz & Hin & Hfit); [done|done|].
  change (evict_while size delete (MAX_PHTSize st) q P = Ok (P', q')) in E. rewrite E. run_ok.
  eexists. split; [done|]. split_and!; try done.
  - split; sms_cbn; try done.
    + intros x [_ Hx]%lookup_delete_is_Some. by apply H5.
    + intros x. by rewrite !lookup_delete_is_Some, H6.
    + intros x s [_ Hx]%lookup_delete_Some. by eapply H7.
    + intros x [_ Hx]%lookup_delete_is_Some. by apply H10.
    + pose proof (map_size_delete r (AGT st)) as Hd. rewrite Hd. clear -H11. destruct (AGT st !! r); cbn; lia.
  - sms_cbn. unfold id in *. destruct (decide (Z.of_nat (size P) ≤ MAX_PHTSize st)) as [Hle|]; [by destruct (Hfit Hle) as [-> _]|lia].
  - intros s t Hs Ht Hlt. sms_cbn. destruct (Hfull s Hs) as [-> ->].
    destruct Hfit as [-> ->]; [|by unfold k, pair_of; rewrite Ht]. unfold id. pose proof (map_size_insert k s (PHT st)) as Hi. rewrite Hi. destruct (PHT st !! k); cbn; lia.
Qed.

(** *** Accesses and evictions *)

(** The region of an address and the offset of its block in it. *)
Definition region_of (st : Sms) (a : Z) : Z := a - a mod Region_Size st.
Definition offset_of (st : Sms) (a : Z) : Z := blockAddress (sms_base st) a - region_of st a.

Lemma region_block st a :
  sms_wf st → in_u 64 a →
  let b := blockAddress (sms_base st) a in b - b mod Region_Size st = region_of st a ∧ 0 ≤ offset_of st a < Region_Size st ∧ 0 ≤ region_of st a.
Proof.
  intros Hwf Ha b. unfold offset_of, region_of. fold b. assert (Hb := blockAddress_eq _ (mw_base _ Hwf) a Ha). fold b in Hb.
  rewrite (wf_blk _ (mw_base _ Hwf)) in Hb. pose proof (wf_lblk _ (mw_base _ Hwf)) as Hl. destruct (mw_region _ Hwf) as (k & Hk & ->).
  set (l := lBlkSize (sms_base st)) in *. assert (0 < 2 ^ l) by (apply Z.pow_pos_nonneg; lia).
  assert (2 ^ k = 2 ^ l * 2 ^ (k - l)) as Ek by (rewrite <-Z.pow_add_r by lia; f_equal; lia).
  assert (0 < 2 ^ (k - l)) by (apply Z.pow_pos_nonneg; lia).
  pose proof (Z.rem_mul_r a (2 ^ l) (2 ^ (k - l)) ltac:(lia) ltac:(lia)) as Hr. rewrite <-Ek in Hr.
  pose proof (Z.mod_pos_bound a (2 ^ l) ltac:(lia)). pose proof (Z.mod_pos_bound a (2 ^ k) ltac:(lia)).
  pose proof (Z.mod_pos_bound (a / 2 ^ l) (2 ^ (k - l)) ltac:(lia)).
  assert (b mod 2 ^ k = a mod 2 ^ k - a mod 2 ^ l) as ->.
  { rewrite Hb. symmetry. apply (Z.mod_unique_pos _ _ (a / 2 ^ k)); [nia|]. pose proof (Z.div_mod a (2 ^ k)). lia. }
  pose proof (Z.mod_le a (2 ^ k)). unfold in_u in Ha. nia.
Qed.

(** An access that has a program counter. *)
Lemma sms_access pfi st :
  sms_wf st → in_u 64 (pfi_address pfi) → pfi_validPC pfi = true →
  sms_calculatePrefetch pfi st =
  (st' ← sms_train (pfi_pc pfi) (region_of st (pfi_address pfi)) (offset_of st (pfi_address pfi)) st;
   Ok (sms_predict (pfi_pc pfi) (region_of st (pfi_address pfi)) (offset_of st (pfi_address pfi)) st')).
Proof.
  intros Hwf Ha Hv. unfold sms_calculatePrefetch, getPC. rewrite Hv. cbn [negb assert_that mbind outcome_bind].
  destruct (region_block st _ Hwf Ha) as (E & Ho & Hr).
  assert (in_u 64 (blockAddress (sms_base st) (pfi_address pfi))) as Hb by (apply blockAddress_range; [apply Hwf|done]).
  rewrite region_total by done. run_ok. rewrite E. fold (offset_of st (pfi_address pfi)).
  assert (u64 (offset_of st (pfi_address pfi)) = offset_of st (pfi_address pfi)) as ->; [|done].
  apply wrap_id. unfold in_u, offset_of in *. lia.
Qed.

Lemma sms_total pfi st :
  sms_wf st → in_u 64 (pfi_address pfi) →
  ∃ st' c, sms_calculatePrefetch pfi st = Ok (st', c) ∧ sms_wf st' ∧ sms_base st' = sms_base st.
Proof.
  intros Hwf Ha. destruct (pfi_validPC pfi) eqn:Hv; [|unfold sms_calculatePrefetch; rewrite Hv; by eauto].
  rewrite sms_access by done.
  destruct (train_total (pfi_pc pfi) (region_of st (pfi_address pfi)) (offset_of st (pfi_address pfi)) st Hwf)
    as (st' & -> & Hwf' & _ & _ & Hb & _). run_ok.
  pose proof (predict_wf (pfi_pc pfi) (region_of st (pfi_address pfi)) (offset_of st (pfi_address pfi)) st' Hwf') as Hp.
  destruct (sms_predict _ _ _ st') as [st2 c] eqn:Ep. exists st2, c. split; [done|]. split; [done|].
  rewrite <-Hb. unfold sms_predict in Ep. destruct (PHT st' !! _); by injection Ep as <- _.
Qed.

#[export] Instance sms_safe : SafePrefetcher Sms.
Proof.
  refine {| pf_inv := sms_wf |}. intros t pfi cache st Ha Hst.
  destruct (sms_total pfi st Hst Ha) as (st' & l & E & Hst' & _). eauto.
Defined.

Lemma sms_new_wf base ft_size pht_size k :
  cfg_wf base → lBlkSize base ≤ k ≤ 63 → 0 ≤ ft_size < 2 ^ 31 → 0 ≤ pht_size → sms_wf (sms_new base ft_size pht_size (2 ^ k)).
Proof.
  intros Hb Hk Hf Hp. assert (i32 ft_size = ft_size) as Ei by (apply swrap_id; [lia|in_int]).
  unfold sms_new. split; sms_cbn; rewrite ?Ei, ?map_size_empty; try done; try (intros ? [? []%lookup_empty_Some]).
  - by exists k.
  - intros r. by rewrite !lookup_empty, !is_Some_alt.
  - lia.
  - lia.
Qed.

(** An offset of one region in another one is a block of that region. *)
Lemma region_offset st a a' :
  sms_wf st → in_u 64 a → in_u 64 a' →
  blockAddress (sms_base st) (u64 (region_of st a + offset_of st a')) = region_of st a + offset_of st a'.
Proof.
  intros Hwf Ha Ha'. destruct (region_block st a Hwf Ha) as (_ & _ & Hr). destruct (region_block st a' Hwf Ha') as (_ & Ho & _).
  assert (in_u 64 (region_of st a + offset_of st a')) as Hin.
  { unfold region_of in *. destruct (mw_region _ Hwf) as (k & Hk & Ek). rewrite Ek in *. pose proof (wf_lblk _ (mw_base _ Hwf)).
    assert (0 < 2 ^ k) by (apply Z.pow_pos_nonneg; lia). assert (0 < 2 ^ (64 - k)) by (apply Z.pow_pos_nonneg; lia).
    assert (2 ^ 64 = 2 ^ k * 2 ^ (64 - k)) as E64 by (rewrite <-Z.pow_add_r by lia; f_equal; lia). unfold in_u in *.
    pose proof (Z.div_mod a (2 ^ k)). assert (a / 2 ^ k < 2 ^ (64 - k)) by (apply Z.div_lt_upper_bound; lia). nia. }
  assert (u64 (region_of st a + offset_of st a') = region_of st a + offset_of st a') as -> by by apply wrap_id.
  rewrite blockAddress_eq by (done || apply Hwf).
  assert ((region_of st a + offset_of st a') mod blkSize (sms_base st) = 0) as ->; [|lia].
  pose proof (blkSize_pos _ (mw_base _ Hwf)) as Hb. apply Z.mod_divide; [lia|].
  assert (∀ x, (blkSize (sms_base st) | region_of st x)) as Hdiv.
  { intros x. unfold region_of. destruct (mw_region _ Hwf) as (k & Hk & ->). rewrite (wf_blk _ (mw_base _ Hwf)).
    pose proof (wf_lblk _ (mw_base _ Hwf)). rewrite Z.mod_eq by (apply Z.pow_nonzero; lia).
    exists (2 ^ (k - lBlkSize (sms_base st)) * (x / 2 ^ k)).
    assert (2 ^ k = 2 ^ (k - lBlkSize (sms_base st)) * 2 ^ lBlkSize (sms_base st)) as Ek by (rewrite <-Z.pow_add_r by lia; f_equal; lia).
    set (q := x / 2 ^ k). rewrite Ek. lia. }
  apply Z.divide_add_r; [done|]. unfold offset_of. apply Z.divide_sub_r; [|done].
  rewrite blockAddress_index by (done || apply Hwf). apply Z.divide_factor_l.
Qed.

(** *** Generations *)

(** An access, or an eviction from the cache. *)
Definition sms_do (e : PrefetchInfo + EvictionInfo) (st : Sms) : outcome Sms :=
  match e with
  | inl pfi => '(st, _) ← sms_calculatePrefetch pfi st; Ok st
  | inr info => sms_notifyEvict info st
  end.

Fixpoint sms_run (l : list (PrefetchInfo + EvictionInfo)) (st : Sms) : outcome Sms :=
  match l with
  | [] => Ok st
  | e :: l => st ← sms_do e st; sms_run l st
  end.

(** The program counter and the offset of an access to region [r]. *)
Definition access_in (st : Sms) (r : Z) (e : PrefetchInfo + EvictionInfo) : option (Z * Z) :=
  match e with
  | inl pfi =>
      if pfi_validPC pfi && (region_of st (pfi_address pfi) =? r) then Some (pfi_pc pfi, offset_of st (pfi_address pfi)) else None
  | inr _ => None
  end.

Definition event_addr (e : PrefetchInfo + EvictionInfo) : Z :=
  match e with inl pfi => pfi_address pfi | inr info => ev_addr info end.

(** [h] is what was accessed in the region since it became active. *)
Definition generation (r : Z) (h : list (Z * Z)) (st : Sms) : Prop :=
  match h with
  | [] => AGT st !! r = None ∧ FT st !! r = None
  | [x] => AGT st !! r = None ∧ FT st !! r = Some x
  | x :: _ => FT st !! r = None ∧ AGTPC st !! r = Some x ∧ ∃ s, AGT st !! r = Some s ∧ ∀ o, o ∈ s ↔ o ∈ h.*2
  end.

Definition same_cfg (st' st : Sms) : Prop :=
  sms_base st' = sms_base st ∧ Region_Size st' = Region_Size st ∧ Max_Contexts st' = Max_Contexts st ∧ MAX_PHTSize st' = MAX_PHTSize st.

Lemma generation_frame r h st st' :
  AGT st' !! r = AGT st !! r → AGTPC st' !! r = AGTPC st !! r → FT st' !! r = FT st !! r → generation r h st → generation r h st'.
Proof. unfold generation. intros -> -> ->. done. Qed.

Lemma train_generation pc r o st :
  sms_wf st → Z.of_nat (size (AGT st)) < Max_Contexts st → Z.of_nat (size (FT st)) < Max_Contexts st →
  ∃ st', sms_train pc r o st = Ok st' ∧ sms_wf st' ∧ PHT st' = PHT st ∧ same_cfg st' st ∧
    (size (AGT st') ≤ S (size (AGT st)))%nat ∧ (size (FT st') ≤ S (size (FT st)))%nat ∧
    (∀ r' h, r' ≠ r → generation r' h st → generation r' h st') ∧ (∀ h, generation r h st → generation r (h ++ [(pc, o)]) st').
Proof.
  intros Hwf Hsa Hsf. destruct (AGT st !! r) as [s|] eqn:Ha.
  - destruct (train_active pc r o st s Hwf Ha) as (st' & E & Hwf' & EA & EB & EF & EP & _ & Hc).
    exists st'. split_and!; [done..| | | |].
    + rewrite EA, map_size_insert_Some by (by exists s). lia.
    + rewrite EF. lia.
    + intros r' h Hne. apply generation_frame; [|by rewrite EB|by rewrite EF]. rewrite EA. by apply lookup_insert_ne.
    + intros [|x [|y h]]; cbn [generation app]; rewrite ?Ha; [by intros [[=] _]..|].
      intros (Hf & Ht & s' & [= <-] & Hs). rewrite EF, EB, EA, lookup_insert_eq. split_and!; [done..|]. eexists. split; [done|].
      intros o'. rewrite set_insert_in, Hs. change (x :: y :: h ++ [(pc, o)]) with ((x :: y :: h) ++ [(pc, o)]).
      rewrite fmap_app. set_solver.
  - destruct (FT st !! r) as [t|] eqn:Hf.
    + destruct (train_second pc r o st t Hwf Ha Hf) as (st' & E & Hwf' & EF & EP & _ & H1 & H2 & H3 & H4 & Hroom).
      destruct (Hroom Hsa) as [EA EB]. exists st'. split_and!; [done..| | | |].
      * rewrite EA, map_size_insert_None by done. lia.
      * rewrite EF. rewrite map_size_delete_Some by (by exists t). lia.
      * intros r' h Hne. apply generation_frame; rewrite ?EA, ?EB, ?EF; by rewrite ?lookup_insert_ne, ?lookup_delete_ne.
      * intros [|x [|y h]]; cbn [generation app]; rewrite ?Ha, ?Hf; [by intros [_ [=]]| |by intros ([=] & _)].
        intros [_ [= ->]]. rewrite EF, EB, EA, !lookup_insert_eq, lookup_delete_eq. split_and!; [done..|]. eexists. split; [done|].
        intros o'. rewrite !set_insert_in. simpl. set_solver.
    + destruct (train_trigger pc r o st Hwf Ha Hf) as (st' & E & Hwf' & EA & EB & EP & _ & H1 & H2 & H3 & H4 & Hroom).
      specialize (Hroom Hsf) as EF. exists st'. split_and!; [done..| | | |].
      * rewrite EA. lia.
      * rewrite EF, map_size_insert_None by done. lia.
      * intros r' h Hne. apply generation_frame; rewrite ?EA, ?EB, ?EF; by rewrite ?lookup_insert_ne.
      * intros [|x [|y h]]; cbn [generation app]; rewrite ?Ha, ?Hf; [|by intros [_ [=]]|by intros (_ & _ & ? & [=] & _)].
        intros _. by rewrite EA, EF, lookup_insert_eq.
Qed.

(** A prediction changes the order of the patterns only. *)
Lemma predict_frame pc r o st :
  let st' := (sms_predict pc r o st).1 in
  AGT st' = AGT st ∧ AGTPC st' = AGTPC st ∧ FT st' = FT st ∧ PHT st' = PHT st ∧ same_cfg st' st.
Proof. unfold sms_predict. by destruct (PHT st !! _). Qed.

Lemma same_cfg_trans a b c : same_cfg a b → same_cfg b c → same_cfg a c.
Proof. intros (?&?&?&?) (?&?&?&?). split_and!; by etrans. Qed.

Lemma same_cfg_access st' st r e : same_cfg st' st → access_in st' r e = access_in st r e.
Proof. intros (E1 & E2 & _). unfold access_in, offset_of, region_of. by rewrite E1, E2. Qed.

(** A step seen from a region: an access to it extends its generation, other accesses and
    evictions leave it alone. *)
Lemma step_generation e r h st :
  sms_wf st → in_u 64 (event_addr e) → Z.of_nat (size (AGT st)) < Max_Contexts st → Z.of_nat (size (FT st)) < Max_Contexts st →
  (∀ info, e = inr info → region_of st (ev_addr info) ≠ r) → generation r h st →
  ∃ st', sms_do e st = Ok st' ∧ sms_wf st' ∧ same_cfg st' st ∧ (size (AGT st') ≤ S (size (AGT st)))%nat ∧
    (size (FT st') ≤ S (size (FT st)))%nat ∧ (size (PHT st') ≤ S (size (PHT st)))%nat ∧ generation r (h ++ option_list (access_in st r e)) st'.
Proof.
  intros Hwf He Hsa Hsf Hev Hg. destruct e as [pfi|info]; cbn [sms_do access_in event_addr] in *.
  - destruct (pfi_validPC pfi) eqn:Hv; cbn [andb].
    2:{ exists st. unfold sms_calculatePrefetch. rewrite Hv. cbn [option_list]. rewrite app_nil_r. split_and!; try done; lia. }
    rewrite sms_access by done.
    set (a := pfi_address pfi) in *. destruct (train_generation (pfi_pc pfi) (region_of st a) (offset_of st a) st Hwf Hsa Hsf)
      as (st1 & -> & Hwf1 & EP & Hc & Sa & Sf & Hother & Hsame). run_ok.
    destruct (predict_frame (pfi_pc pfi) (region_of st a) (offset_of st a) st1) as (F1 & F2 & F3 & F4 & Hc').
    pose proof (predict_wf (pfi_pc pfi) (region_of st a) (offset_of st a) st1 Hwf1) as Hwf2.
    destruct (sms_predict _ _ _ st1) as [st2 c]. cbn [fst] in *. exists st2. rewrite F1, F3, F4, EP.
    split_and!; [done|done|by eapply same_cfg_trans|done|done|lia|].
    apply (generation_frame _ _ st1); [by rewrite F1|by rewrite F2|by rewrite F3|].
    destruct (Z.eqb_spec (region_of st a) r) as [<-|Hne]; cbn [option_list]; [by apply Hsame|]. rewrite app_nil_r. by apply Hother.
  - destruct (evict_region st info Hwf He) as (st1 & E & Hwf1 & EA & EB & EF & C1 & C2 & C3 & C4 & SP & _).
    specialize (Hev info eq_refl). exists st1. cbn [option_list]. rewrite app_nil_r. split_and!; [done|done|done| | |lia|].
    + rewrite EA, map_size_delete. destruct (AGT st !! _); cbn; lia.
    + rewrite EF. lia.
    + apply (generation_frame _ _ st); rewrite ?EA, ?EB, ?EF; by rewrite ?lookup_delete_ne.
Qed.

Lemma run_generation l r h st :
  sms_wf st → Forall (λ e, in_u 64 (event_addr e)) l → (∀ info, inr info ∈ l → region_of st (ev_addr info) ≠ r) →
  Z.of_nat (size (AGT st)) + Z.of_nat (length l) ≤ Max_Contexts st → Z.of_nat (size (FT st)) + Z.of_nat (length l) ≤ Max_Contexts st →
  generation r h st →
  ∃ st', sms_run l st = Ok st' ∧ sms_wf st' ∧ same_cfg st' st ∧ (size (PHT st') ≤ size (PHT st) + length l)%nat ∧
    generation r (h ++ omap (access_in st r) l) st'.
Proof.
  revert h st. induction l as [|e l IH]; intros h st Hwf Hl Hev Sa Sf Hg.
  { exists st. cbn. rewrite app_nil_r. split_and!; try done. lia. }
  apply Forall_cons in Hl as [He Hl]. cbn [length] in *.
  destruct (step_generation e r h st Hwf He ltac:(lia) ltac:(lia)) as (st1 & E & Hwf1 & Hc & Sa1 & Sf1 & Sp1 & Hg1); [|done|].
  { intros info ->. apply Hev. left. }
  pose proof Hc as (C1 & C2 & C3 & C4).
  destruct (IH (h ++ option_list (access_in st r e)) st1) as (st2 & E2 & Hwf2 & Hc2 & Sp2 & Hg2); [done|done| |lia|lia|done|].
  { intros info Hi. unfold region_of. rewrite C2. apply Hev. by right. }
  exists st2. cbn [sms_run]. rewrite E. run_ok. split_and!; [done|done|by eapply same_cfg_trans|lia|].
  rewrite <-app_assoc, (list_omap_ext _ (access_in st r) l l) in Hg2 by (apply Forall_Forall2_diag, Forall_true; intros; by apply same_cfg_access).
  cbn [omap list_omap]. destruct (access_in st r e); exact Hg2.
Qed.

Lemma access_in_offset st r l x :
  Forall (λ e, in_u 64 (event_addr e)) l → x ∈ (omap (access_in st r) l).*2 → ∃ a, in_u 64 a ∧ x = offset_of st a.
Proof.
  intros Hl (p & -> & (e & He & Hp)%list_elem_of_omap)%list_elem_of_fmap. rewrite Forall_forall in Hl. specialize (Hl e He).
  destruct e as [pfi|]; [|done]. cbn in Hp. destruct (pfi_validPC pfi && _); [|done]. injection Hp as <-. by exists (pfi_address pfi).
Qed.

Lemma predict_pattern st pfi s :
  sms_wf st → in_u 64 (pfi_address pfi) → pfi_validPC pfi = true → PHT st !! (pfi_pc pfi, offset_of st (pfi_address pfi)) = Some s →
  ∃ st', sms_calculatePrefetch pfi st =
    Ok (st', (λ o, (blockAddress (sms_base st) (u64 (region_of st (pfi_address pfi) + o)), 0)) <$> s).
Proof.
  intros Hwf Ha Hv Hs. rewrite sms_access by done.
  destruct (train_total (pfi_pc pfi) (region_of st (pfi_address pfi)) (offset_of st (pfi_address pfi)) st Hwf)
    as (st' & -> & _ & EP & _ & Eb & _). run_ok. unfold sms_predict. rewrite EP, Hs, Eb. eauto.
Qed.

(** C17: a generation is replayed.  Take any interleaving of accesses and evictions for which
    the filter table, the active generation table and the pattern table have room, and in
    which region [r], new to the tables, is accessed at least twice and none of its blocks is
    evicted.  Once a block of [r] is evicted, an access of any region with the program
    counter and the offset of the access that started the generation proposes, in ascending
    order and without repetition, exactly the blocks of its region at the offsets at which
    [r] was accessed. *)
Theorem sms_replays_generation l r x y rest info pfi st :
  sms_wf st → AGT st !! r = None → FT st !! r = None →
  Z.of_nat (size (AGT st)) + Z.of_nat (length l) ≤ Max_Contexts st →
  Z.of_nat (size (FT st)) + Z.of_nat (length l) ≤ Max_Contexts st →
  Z.of_nat (size (PHT st)) + Z.of_nat (length l) < MAX_PHTSize st →
  Forall (λ e, in_u 64 (event_addr e)) l → (∀ info, inr info ∈ l → region_of st (ev_addr info) ≠ r) →
  omap (access_in st r) l = x :: y :: rest →
  in_u 64 (ev_addr info) → region_of st (ev_addr info) = r →
  in_u 64 (pfi_address pfi) → pfi_validPC pfi = true → (pfi_pc pfi, offset_of st (pfi_address pfi)) = x →
  ∃ st1 st2 offsets, sms_run (l ++ [inr info]) st = Ok st1 ∧
    sms_calculatePrefetch pfi st1 = Ok (st2, (λ o, (region_of st (pfi_address pfi) + o, 0)) <$> offsets) ∧
    StronglySorted Z.lt offsets ∧ ∀ o, o ∈ offsets ↔ o ∈ (x :: y :: rest).*2.
Proof.
  intros Hwf Hra Hrf Sa Sf Sp Hl Hev Eh Hi Er Ha Hv Ex.
  destruct (run_generation l r [] st Hwf Hl Hev Sa Sf) as (st1 & E1 & Hwf1 & Hc & Sp1 & Hg); [done|].
  pose proof Hc as (C1 & C2 & C3 & C4). rewrite Eh in Hg. cbn [app generation] in Hg. destruct Hg as (_ & Ht & s & Es & Hs).
  destruct (evict_region st1 info Hwf1 Hi) as (st2 & E2 & Hwf2 & _ & _ & _ & D1 & D2 & D3 & D4 & _ & Hfull).
  assert (ev_addr info - ev_addr info mod Region_Size st1 = r) as Er1 by (by rewrite C2). rewrite Er1 in Hfull.
  destruct (Hfull s x Es Ht ltac:(lia)) as [EP _].
  assert (∀ a, offset_of st2 a = offset_of st a) as Eo by (intros a; unfold offset_of, region_of; by rewrite D1, D2, C1, C2).
  destruct (predict_pattern st2 pfi s Hwf2 Ha Hv) as (st3 & E3).
  { rewrite Eo, Ex, EP. apply lookup_insert_eq. }
  exists st2, st3, s. split_and!; [|rewrite E3|by apply (mw_set _ Hwf1 r)|done].
  - clear -E1 E2. revert st E1. induction l as [|e l IH]; intros st; cbn [app sms_run].
    + intros [= ->]. cbn [sms_do]. by rewrite E2.
    + destruct (sms_do e st) as [st'|]; [|done]. cbn [mbind outcome_bind]. apply IH.
  - f_equal. f_equal. apply list_fmap_ext. intros i o Ho. f_equal. rewrite D1, C1. unfold region_of at 1. rewrite D2, C2.
    apply list_elem_of_lookup_2, Hs in Ho. rewrite <-Eh in Ho. destruct (access_in_offset st r l o Hl Ho) as (a & Ha' & ->).
    by apply region_offset.
Qed.

(** *** The queues *)

Lemma evict_fits {K S} (sz : S → nat) (erase : K → S → S) max q m : Z.of_nat (sz m) ≤ max → evict_while sz erase max q m = Ok (m, q).
Proof.
  intros Hm. unfold evict_while. assert (evict_from sz erase max (reverse q) m = Ok (m, reverse q)) as ->.
  { destruct (reverse q); cbn [evict_from]; by rewrite (proj2 (Z.leb_le _ _)). }
  run_ok. by rewrite reverse_involutive.
Qed.

Lemma to_front_replicate {K} `{Countable K} n (k : K) : to_front k (replicate n k) = replicate n k.
Proof.
  unfold to_front. case_bool_decide as Hk; [|done]. destruct n; [by apply not_elem_of_nil in Hk|]. cbn [replicate erase_first].
  by rewrite decide_True.
Qed.

Section Grows.
Context (base : BaseCfg) (ft pht k : Z) (p1 p2 : PrefetchInfo) (info : EvictionInfo).
Context (Hb : cfg_wf base) (Hk : lBlkSize base ≤ k ≤ 63) (Hft : 1 ≤ ft < 2 ^ 31) (Hpht : 1 ≤ pht).
Context (Hv : pfi_validPC p1 = true ∧ pfi_validPC p2 = true).
Context (Ha : in_u 64 (pfi_address p1) ∧ in_u 64 (pfi_address p2) ∧ in_u 64 (ev_addr info)).
Abbreviation st0 := (sms_new base ft pht (2 ^ k)).
Context (Hr : region_of st0 (pfi_address p2) = region_of st0 (pfi_address p1) ∧ region_of st0 (ev_addr info) = region_of st0 (pfi_address p1)).
Abbreviation rg := (region_of st0 (pfi_address p1)).
Abbreviation x1 := (pfi_pc p1, offset_of st0 (pfi_address p1)).
Abbreviation o2 := (offset_of st0 (pfi_address p2)).
Abbreviation pat := (set_insert o2 (set_insert x1.2 [])).

(** After [n] generations. *)
Definition grown (n : nat) (P : gmap (Z * Z) (list Z)) : Sms :=
  mkSms base (i32 ft) pht (2 ^ k) ∅ ∅ ∅ P (replicate n rg) (replicate n rg) (replicate n x1).

(** The state after the second access of a generation, before the eviction. *)
Definition grown_active (n : nat) (P : gmap (Z * Z) (list Z)) : Sms :=
  mkSms base (i32 ft) pht (2 ^ k) {[rg := pat]} {[rg := x1]} ∅ P (replicate (S n) rg) (replicate (S n) rg) (replicate n x1).

Definition grown_filter (n : nat) (P : gmap (Z * Z) (list Z)) : Sms :=
  mkSms base (i32 ft) pht (2 ^ k) ∅ ∅ {[rg := x1]} P (replicate (S n) rg) (replicate n rg) (replicate n x1).

Lemma ft_eq : i32 ft = ft.
Proof using Hft. clear -Hft. apply swrap_id; [lia|in_int]. Qed.

Lemma one_context (st : Sms) : Max_Contexts st = i32 ft → 1 ≤ max_contexts st.
Proof using Hft. clear -Hft. intros E. unfold max_contexts. rewrite E, ft_eq by done. rewrite wrap_id; [lia|in_word]. Qed.

Lemma predict_same n P pc o r :
  P = ∅ ∨ P = {[x1 := pat]} → ∀ A B F f g, 
  (sms_predict pc r o (mkSms base (i32 ft) pht (2 ^ k) A B F P f g (replicate n x1))).1
  = mkSms base (i32 ft) pht (2 ^ k) A B F P f g (replicate n x1).
Proof using Type.
  intros HP A B F f g. unfold sms_predict. sms_cbn. destruct (P !! (pc, o)) as [s|] eqn:E; [|done]. cbn [fst]. f_equal.
  destruct HP as [->| ->]; [by rewrite lookup_empty in E|]. apply lookup_singleton_Some in E as [<- _]. apply to_front_replicate.
Qed.

Lemma sms_do_wf e st st' : sms_wf st → in_u 64 (event_addr e) → sms_do e st = Ok st' → sms_wf st'.
Proof using Type.
  clear. intros Hst He. destruct e as [pfi|info']; cbn [sms_do event_addr] in *.
  - destruct (sms_total pfi st Hst He) as (st1 & c & -> & Hst1 & _). run_ok. by intros [= <-].
  - destruct (evict_region st info' Hst He) as (st1 & -> & Hst1 & _). by intros [= <-].
Qed.

Lemma grown_first n P :
  P = ∅ ∨ P = {[x1 := pat]} → sms_wf (grown n P) → sms_do (inl p1) (grown n P) = Ok (grown_filter n P).
Proof using Hft Hv Ha.
  intros HP Hst. cbn [sms_do]. rewrite sms_access by (done || apply Ha || apply Hv).
  change (region_of (grown n P)) with (region_of st0). change (offset_of (grown n P)) with (offset_of st0).
  unfold sms_train. cbn [grown AGT FT]. rewrite !lookup_empty, evict_fits.
  - run_ok. sms_cbn. pose proof (predict_same n P (pfi_pc p1) (offset_of st0 (pfi_address p1)) rg HP ∅ ∅ (<[rg := x1]> ∅)
      (rg :: replicate n rg) (replicate n rg)) as E.
    destruct (sms_predict _ _ _ _) as [st' c]. cbn [fst] in E. by rewrite E.
  - rewrite map_size_insert_None by apply lookup_empty. rewrite map_size_empty. by apply one_context.
Qed.

Lemma grown_second n P :
  P = ∅ ∨ P = {[x1 := pat]} → sms_wf (grown_filter n P) → sms_do (inl p2) (grown_filter n P) = Ok (grown_active n P).
Proof using Hft Hv Ha Hr.
  intros HP Hst. cbn [sms_do]. rewrite sms_access by (done || apply Ha || apply Hv).
  change (region_of (grown_filter n P)) with (region_of st0). change (offset_of (grown_filter n P)) with (offset_of st0).
  rewrite (proj1 Hr). unfold sms_train. cbn [grown_filter AGT FT]. rewrite lookup_empty, lookup_singleton_eq. cbv zeta.
  rewrite evict_fits.
  - run_ok. sms_cbn. pose proof (predict_same n P (pfi_pc p2) o2 rg HP (<[rg := pat]> ∅) (<[rg := x1]> ∅) (delete rg {[rg := x1]})
      (rg :: replicate n rg) (rg :: replicate n rg)) as E.
    destruct (sms_predict _ _ _ _) as [st' c]. cbn [fst] in E. rewrite E. run_ok. unfold grown_active. by rewrite delete_singleton_eq.
  - cbn [fst]. rewrite map_size_insert_None by apply lookup_empty. cbn [AGT]. rewrite map_size_empty. by apply one_context.
Qed.

Lemma grown_third n P :
  P = ∅ ∨ P = {[x1 := pat]} → sms_wf (grown_active n P) → sms_do (inr info) (grown_active n P) = Ok (grown (S n) {[x1 := pat]}).
Proof using Hpht Ha Hr.
  intros HP Hst. cbn [sms_do]. unfold sms_notifyEvict. rewrite region_total by (done || apply Ha). run_ok.
  change (ev_addr info - ev_addr info mod Region_Size (grown_active n P)) with (region_of st0 (ev_addr info)). rewrite (proj2 Hr).
  cbn [grown_active AGT AGTPC]. unfold pair_of. rewrite !lookup_singleton_eq. cbn [default record_generation].
  rewrite pattern_stored.
  - cbn [grown_active id PHT lruPHT MAX_PHTSize]. assert (<[x1 := pat]> P = {[x1 := pat]}) as ->.
    { destruct HP as [->| ->]; [done|]. unfold singletonM, map_singleton. by rewrite insert_insert_eq. }
    rewrite evict_fits by (rewrite map_size_singleton; lia). run_ok. unfold grown. by rewrite !delete_singleton_eq.
  - apply set_insert_ne.
  - apply set_insert_sorted, set_insert_sorted. constructor.
Qed.

(** One generation: the two accesses, then the eviction. *)
Lemma grown_round n P :
  P = ∅ ∨ P = {[x1 := pat]} → sms_wf (grown n P) →
  sms_run [inl p1; inl p2; inr info] (grown n P) = Ok (grown (S n) {[x1 := pat]}) ∧ sms_wf (grown (S n) {[x1 := pat]}).
Proof using Hft Hpht Hv Ha Hr.
  intros HP Hst. destruct Ha as (A1 & A2 & A3). pose proof (grown_first n P HP Hst) as E1. pose proof (sms_do_wf (inl p1) _ _ Hst A1 E1) as W1.
  pose proof (grown_second n P HP W1) as E2. pose proof (sms_do_wf (inl p2) _ _ W1 A2 E2) as W2.
  pose proof (grown_third n P HP W2) as E3. split; [|by eapply (sms_do_wf (inr info))].
  cbn [sms_run]. rewrite E1. run_ok. rewrite E2. run_ok. by rewrite E3.
Qed.

Lemma grown_rounds n : ∃ P, sms_run (mjoin (replicate n [inl p1; inl p2; inr info])) st0 = Ok (grown n P) ∧ (size P ≤ 1)%nat.
Proof using Hb Hk Hft Hpht Hv Ha Hr.
  assert (∀ i P, P = ∅ ∨ P = {[x1 := pat]} → sms_wf (grown i P) →
    ∃ P', sms_run (mjoin (replicate n [inl p1; inl p2; inr info])) (grown i P) = Ok (grown (n + i) P') ∧ (P' = ∅ ∨ P' = {[x1 := pat]})) as Hrun.
  { induction n as [|n IH]; intros i P HP Hst; [by exists P|].
    destruct (grown_round i P HP Hst) as [E Hst']. destruct (IH (S i) {[x1 := pat]} (or_intror eq_refl) Hst') as (P' & E' & HP').
    exists P'. split; [|done]. cbn [replicate mjoin list_join]. 
    assert (∀ a b c l st, sms_run ([a; b; c] ++ l) st = (st ← sms_run [a; b; c] st; sms_run l st)) as ->.
    { intros a b c l st. cbn [app sms_run]. destruct (sms_do a st) as [st1|]; [run_ok|done]. destruct (sms_do b st1) as [st2|]; [run_ok|done].
      by destruct (sms_do c st2). }
    rewrite E. run_ok. replace (S n + i)%nat with (n + S i)%nat by lia. exact E'. }
  destruct (Hrun 0%nat ∅) as (P & E & HP); [by left|apply sms_new_wf; (done || lia)|]. exists P. rewrite Nat.add_0_r in E. split; [exact E|].
  destruct HP as [->| ->]; [by rewrite map_size_empty; lia|by rewrite map_size_singleton].
Qed.
End Grows.

(** The queues that order the tables grow without bound.  Whatever the sizes of the
    tables, [n] generations of one and the same region leave no region in the filter and
    active generation tables and at most one pattern in the pattern table, but [n] elements
    in each of the three queues: an entry that leaves a table, or is recorded again, keeps
    its elements of the queue. *)
Theorem sms_queue_grows base ft pht k p1 p2 info n :
  cfg_wf base → lBlkSize base ≤ k ≤ 63 → 1 ≤ ft < 2 ^ 31 → 1 ≤ pht →
  pfi_validPC p1 = true → pfi_validPC p2 = true →
  in_u 64 (pfi_address p1) → in_u 64 (pfi_address p2) → in_u 64 (ev_addr info) →
  let st0 := sms_new base ft pht (2 ^ k) in
  region_of st0 (pfi_address p2) = region_of st0 (pfi_address p1) → region_of st0 (ev_addr info) = region_of st0 (pfi_address p1) →
  ∃ st, sms_run (mjoin (replicate n [inl p1; inl p2; inr info])) st0 = Ok st ∧
    size (FT st) = 0%nat ∧ size (AGT st) = 0%nat ∧ (size (PHT st) ≤ 1)%nat ∧
    length (fifoFT st) = n ∧ length (lruAGT st) = n ∧ length (lruPHT st) = n.
Proof.
  intros Hb Hk Hft Hpht V1 V2 A1 A2 A3 st0 R2 R3.
  destruct (grown_rounds base ft pht k p1 p2 info Hb Hk Hft Hpht (conj V1 V2) (conj A1 (conj A2 A3)) (conj R2 R3) n) as (P & E & HP).
  eexists. split; [exact E|]. cbn [grown FT AGT PHT fifoFT lruAGT lruPHT]. rewrite !length_replicate, !map_size_empty. done.
Qed.

(** *** Examples *)

Definition ex_sms_base : BaseCfg := mkBaseCfg 64 6 true true true true true 0 4096 true false false.
Definition ex_sms : Sms := sms_new ex_sms_base 64 512 (2 ^ 12).
Definition ex_sms_access (pc addr : Z) : PrefetchInfo := mkPfi addr pc 0 true false 8 false addr true None.
Definition ex_sms_evict (addr : Z) : EvictionInfo := mkEviction addr false 0 [] [] false.

Lemma ex_sms_base_wf : cfg_wf ex_sms_base.
Proof. split; [by vm_compute|done|]. exists 12. split; [by vm_compute|done]. Qed.

(** Two regions accessed in turn, the second one evicted meanwhile. *)
Definition ex_sms_events : list (PrefetchInfo + EvictionInfo) :=
  [inl (ex_sms_access 7 0x5200); inl (ex_sms_access 9 0x8000); inl (ex_sms_access 8 0x5048); inl (ex_sms_access 9 0x8040);
   inr (ex_sms_evict 0x8000); inl (ex_sms_access 8 0x5210); inl (ex_sms_access 8 0x5fc0)].

Lemma ex_sms_wf : sms_wf ex_sms.
Proof. apply sms_new_wf; [apply ex_sms_base_wf|by vm_compute|by vm_compute|by vm_compute]. Qed.

Lemma ex_sms_events_range : Forall (λ e, in_u 64 (event_addr e)) ex_sms_events.
Proof. repeat (constructor; [by vm_compute|]). constructor. Qed.

Lemma ex_sms_events_evict info : inr info ∈ ex_sms_events → region_of ex_sms (ev_addr info) ≠ 0x5000.
Proof.
  unfold ex_sms_events. intros Hi. repeat (apply elem_of_cons in Hi as [Hi|Hi]; [first [discriminate Hi|injection Hi as ->; by vm_compute]|]).
  by apply not_elem_of_nil in Hi.
Qed.

Lemma sms_replays_generation_witness :
  ∃ st1 st2 offsets, sms_run (ex_sms_events ++ [inr (ex_sms_evict 0x5080)]) ex_sms = Ok st1 ∧
    sms_calculatePrefetch (ex_sms_access 7 0x4220) st1 = Ok (st2, (λ o, (region_of ex_sms 0x4220 + o, 0)) <$> offsets) ∧
    StronglySorted Z.lt offsets ∧ ∀ o, o ∈ offsets ↔ o ∈ [0x200; 0x40; 0x200; 0xfc0].
Proof.
  exact (sms_replays_generation ex_sms_events 0x5000 (7, 0x200) (8, 0x40) [(8, 0x200); (8, 0xfc0)] (ex_sms_evict 0x5080)
    (ex_sms_access 7 0x4220) ex_sms ex_sms_wf eq_refl eq_refl ltac:(by vm_compute) ltac:(by vm_compute) ltac:(by vm_compute)
    ex_sms_events_range ex_sms_events_evict ltac:(by vm_compute) ltac:(by vm_compute) ltac:(by vm_compute) ltac:(by vm_compute)
    eq_refl ltac:(by vm_compute)).
Defined.

(** The candidates of the example. *)
Example sms_example_candidates :
  (st ← sms_run (ex_sms_events ++ [inr (ex_sms_evict 0x5080)]) ex_sms; '(_, c) ← sms_calculatePrefetch (ex_sms_access 7 0x4220) st; Ok c)
  = Ok [(0x4040, 0); (0x4200, 0); (0x4fc0, 0)].
Proof. vm_compute. reflexivity. Qed.

Lemma sms_queue_grows_witness :
  ∃ st, sms_run (mjoin (replicate 3 [inl (ex_sms_access 7 0x5200); inl (ex_sms_access 8 0x5048); inr (ex_sms_evict 0x5080)])) ex_sms = Ok st ∧
    size (FT st) = 0%nat ∧ size (AGT st) = 0%nat ∧ (size (PHT st) ≤ 1)%nat ∧
    length (fifoFT st) = 3%nat ∧ length (lruAGT st) = 3%nat ∧ length (lruPHT st) = 3%nat.
Proof.
  exact (sms_queue_grows ex_sms_base 64 512 12 (ex_sms_access 7 0x5200) (ex_sms_access 8 0x5048) (ex_sms_evict 0x5080) 3
    ex_sms_base_wf ltac:(by vm_compute) ltac:(by vm_compute) ltac:(by vm_compute) eq_refl eq_refl
    ltac:(by vm_compute) ltac:(by vm_compute) ltac:(by vm_compute) ltac:(by vm_compute) ltac:(by vm_compute)).
Defined.
