(* ===== verification/STeMS.v ===== *)
(** * Spatio-temporal memory streaming

    [src/src/mem/cache/prefetch/spatio_temporal_memory_streaming.{hh,cc}].  The accesses to
    a region between its first access and the eviction of one of its blocks form a
    generation, recorded in the active generation table as a sequence of offsets; an
    ended generation moves to the pattern sequence table under the program counter and
    offset of its trigger.  A buffer holds the order of the triggers.  On a miss the
    regions that followed the last trigger of the accessed one are laid out in a vector,
    with their patterns between them, as the candidates.

    Two references into tables are not held across a call that could move them, so entries
    are read and written by index.  The end of the region miss order buffer is read one
    element too far; the model reads what is there, as the code does. *)

From Stdlib Require Import ZArith Lia.
From stdpp Require Import base numbers option list strings.
From S2P Require Import Prelude SatCounter IntMath PrefetchBase PrefetchQueue Children.
From S2P Require Import Replacement Indexing AssocCache Tables CircularQueue.
#[local] Open Scope Z_scope.

(** ** Generations *)

Record SequenceEntry := mkSeq { sq_counter : SatCounter; sq_offset : Z; sq_delta : Z }.

Record AGMembers := mkAG { paddress : Z; ag_pc : Z; seqCounter : Z; sequence : list SequenceEntry }.

(** [ActiveGenerationTableEntry::invalidate]. *)
#[export] Instance ag_reset : Reset AGMembers :=
  λ m, mkAG 0 0 0 ((λ s, mkSeq (sat_reset (sq_counter s)) 0 0) <$> sequence m).

Abbreviation ActiveGenerationTableEntry := (With TaggedEntry AGMembers).

(** The loop of [addOffset]. *)
Fixpoint add_offset (offset delta : Z) (l : list SequenceEntry) : list SequenceEntry :=
  match l with
  | [] => []
  | s :: l =>
      if 0 <? counter (sq_counter s) then
        (if sq_offset s =? offset then mkSeq (sat_inc (sq_counter s)) (sq_offset s) (sq_delta s) else s)
        :: add_offset offset delta l
      else mkSeq (sat_inc (sq_counter s)) offset delta :: l
  end.

Definition addOffset (offset : Z) (m : AGMembers) : AGMembers :=
  mkAG (paddress m) (ag_pc m) 0 (add_offset offset (seqCounter m) (sequence m)).

(** ** The prefetcher *)

Record RMOBEntry := mkRMOB { srAddress : Z; pstAddress : Z; rm_delta : Z }.

Record STeMSCfg := mkSTeMSCfg {
  stm_base : BaseCfg;
  spatialRegionSize : Z;
  spatialRegionSizeBits : Z;
  reconstructionEntries : Z;
  addDuplicateEntriesToRMOB : bool
}.

Record STeMS (G R : Type) := mkSTeMS {
  stm_cfg : STeMSCfg;
  activeGenerationTable : Tbl TaggedKey ActiveGenerationTableEntry G R;
  patternSequenceTable : Tbl TaggedKey ActiveGenerationTableEntry G R;
  rmob : CircularQueue RMOBEntry;
  lastTriggerCounter : Z
}.
Arguments mkSTeMS {G R} _ _ _ _ _.
Arguments stm_cfg {G R} _.
Arguments activeGenerationTable {G R} _.
Arguments patternSequenceTable {G R} _.
Arguments rmob {G R} _.
Arguments lastTriggerCounter {G R} _.

Definition equal_rmob (a b : RMOBEntry) : bool :=
  (srAddress a =? srAddress b) && (pstAddress a =? pstAddress b) && (rm_delta a =? rm_delta b).

Definition addToRMOB (cfg : STeMSCfg) (sr_addr pst_addr delta : Z) (q : CircularQueue RMOBEntry) : outcome (CircularQueue RMOBEntry) :=
  let entry := mkRMOB sr_addr pst_addr delta in
  if negb (addDuplicateEntriesToRMOB cfg) && existsb (equal_rmob entry) (contents q) then Ok q else cq_push_back q entry.

(** [(pc << spatialRegionSizeBits) + offset]. *)
Definition pst_address (cfg : STeMSCfg) (pc offset : Z) : Z := u64 (u64 (Z.shiftl pc (spatialRegionSizeBits cfg)) + offset).

Section STeMS.
Context {G R : Type} `{ReplPolicy G R}.
Abbreviation AGT := (Tbl TaggedKey ActiveGenerationTableEntry G R).
Implicit Types st : STeMS G R.

(** The first recorded block of a generation that is neither in the cache nor on its way
    there; the product of two [unsigned] is one. *)
Fixpoint evicted (cfg : STeMSCfg) (cache : CacheAccessor) (is_secure : bool) (paddr : Z) (l : list SequenceEntry) : option SequenceEntry :=
  match l with
  | [] => None
  | s :: l =>
      let cache_addr := u64 (paddr + u32 (sq_offset s * blkSize (stm_base cfg))) in
      if (0 <? counter (sq_counter s)) && negb (inCache cache cache_addr is_secure) && negb (inMissQueue cache cache_addr is_secure)
      then Some s else evicted cfg cache is_secure paddr l
  end.

(** One round of the loop of [checkForActiveGenerationsEnd]. *)
Definition check_generation (curTick : Z) (cfg : STeMSCfg) (cache : CacheAccessor) (i : nat) (T : AGT * AGT) : outcome (AGT * AGT) :=
  let '(agt, pst) := T in
  e ← t_get agt i;
  if te_valid (w_base e) then
    match evicted cfg cache (te_secure (w_base e)) (paddress (w_data e)) (sequence (w_data e)) with
    | Some s =>
        '(j, pst) ← t_find_or_insert curTick pst (mkKey (pst_address cfg (ag_pc (w_data e)) (sq_offset s)) false);
        pe ← t_get pst j;
        let pst := t_put pst j (mkWith (w_base pe) (w_data e)) in
        agt ← t_invalidate agt i;
        Ok (agt, pst)
    | None => Ok (agt, pst)
    end
  else Ok (agt, pst).

Fixpoint check_generations (curTick : Z) (cfg : STeMSCfg) (cache : CacheAccessor) (l : list nat) (T : AGT * AGT) : outcome (AGT * AGT) :=
  match l with
  | [] => Ok T
  | i :: l => T ← check_generation curTick cfg cache i T; check_generations curTick cfg cache l T
  end.

Definition checkForActiveGenerationsEnd (curTick : Z) (cache : CacheAccessor) st : outcome (STeMS G R) :=
  '(agt, pst) ← check_generations curTick (stm_cfg st) cache (t_indices (activeGenerationTable st)) (activeGenerationTable st, patternSequenceTable st);
  Ok (mkSTeMS (stm_cfg st) agt pst (rmob st) (lastTriggerCounter st)).

(** [agt_e.seqCounter += 1] for the valid entries but [i]. *)
Definition bump (m : AGMembers) : AGMembers := mkAG (paddress m) (ag_pc m) (u32 (seqCounter m + 1)) (sequence m).

Fixpoint bump_others (i : nat) (l : list nat) (agt : AGT) : outcome AGT :=
  match l with
  | [] => Ok agt
  | j :: l =>
      e ← t_get agt j;
      bump_others i l (if te_valid (w_base e) && negb (bool_decide (j = i)) then t_put agt j (mkWith (w_base e) (bump (w_data e))) else agt)
  end.

(** ** Reconstruction *)

(** A free position at or around [ridx]. *)
Definition free_at (rec : list Z) (ridx : Z) : bool := bool_decide (rec !! Z.to_nat ridx = Some MaxAddr).

Definition slot_for (n : Z) (rec : list Z) (ridx : Z) : option Z :=
  let ok k := (k <? n) && free_at rec k in
  if ok ridx then Some ridx
  else if ok (u32 (ridx + 1)) then Some (u32 (ridx + 1))
  else if ok (u32 (ridx + 2)) then Some (u32 (ridx + 2))
  else if (0 <? ridx) && ok (ridx - 1) then Some (ridx - 1)
  else if (1 <? ridx) && ok (ridx - 2) then Some (ridx - 2)
  else None.

(** The pattern of one region. *)
Fixpoint place_pattern (cfg : STeMSCfg) (sr idx : Z) (l : list SequenceEntry) (rec : list Z) : list Z :=
  match l with
  | [] => rec
  | s :: l =>
      let rec :=
        if 1 <? counter (sq_counter s) then
          match slot_for (reconstructionEntries cfg) rec (u32 (idx + sq_delta s)) with
          | Some k => <[Z.to_nat k := u64 (u64 (sr * spatialRegionSize cfg) + sq_offset s)]> rec
          | None => rec
          end
        else rec in
      place_pattern cfg sr idx l rec
  end.

(** The position of the next trigger: [idx += (it+1)->delta + 1]. *)
Definition next_idx (q : CircularQueue RMOBEntry) (it : nat) (idx : Z) : outcome Z :=
  e ← cq_at q (S it); Ok (u32 (idx + u32 (rm_delta e + 1))).

(** The loops from iterator [it], with [n] elements to the end of the buffer. *)
Fixpoint place_regions (cfg : STeMSCfg) (q : CircularQueue RMOBEntry) (it n : nat) (idx : Z) (rec : list Z) : outcome (list Z) :=
  match n with
  | O => Ok rec
  | S n =>
      if idx <? reconstructionEntries cfg then
        e ← cq_at q it;
        let rec := <[Z.to_nat idx := u64 (srAddress e * spatialRegionSize cfg)]> rec in
        idx ← next_idx q it idx;
        place_regions cfg q (S it) n idx rec
      else Ok rec
  end.

Fixpoint place_patterns (curTick : Z) (cfg : STeMSCfg) (q : CircularQueue RMOBEntry) (it n : nat) (idx : Z) (pst : AGT) (rec : list Z)
    : outcome (AGT * list Z) :=
  match n with
  | O => Ok (pst, rec)
  | S n =>
      if idx <? reconstructionEntries cfg then
        e ← cq_at q it;
        o ← t_findEntry pst (mkKey (pstAddress e) false);
        '(pst, rec) ←
          match o with
          | Some j =>
              pst ← t_accessEntry curTick pst j;
              pe ← t_get pst j;
              Ok (pst, place_pattern cfg (srAddress e) idx (sequence (w_data pe)) rec)
          | None => Ok (pst, rec)
          end;
        idx ← next_idx q it idx;
        place_patterns curTick cfg q (S it) n idx pst rec
      else Ok (pst, rec)
  end.

(** The positions that were filled. *)
Definition candidates_of (rec : list Z) : list AddrPriority := (λ a, (a, 0)) <$> filter (λ a, a ≠ MaxAddr) rec.

Definition reconstructSequence (curTick : Z) (cfg : STeMSCfg) (q : CircularQueue RMOBEntry) (it : nat) (pst : AGT)
    : outcome (AGT * list AddrPriority) :=
  let n := (cq_head q + cq_size q - it)%nat in
  rec ← place_regions cfg q it n 0 (replicate (Z.to_nat (reconstructionEntries cfg)) MaxAddr);
  '(pst, rec) ← place_patterns curTick cfg q it n 0 pst rec;
  Ok (pst, candidates_of rec).

(** The search from the end of the buffer for the region, [n] elements above the head. *)
Fixpoint last_trigger (q : CircularQueue RMOBEntry) (sr_addr : Z) (n : nat) : outcome (option nat) :=
  match n with
  | O => Ok None
  | S n =>
      let it := (cq_head q + n)%nat in
      e ← cq_at q it;
      if srAddress e =? sr_addr then Ok (Some it) else last_trigger q sr_addr n
  end.

(** The access is added to the generation of its region, or starts one: the entry, the two
    structures and the count of accesses since the last trigger. *)
Definition record_access (curTick pc sr_addr sr_offset : Z) (pfi : PrefetchInfo) st : outcome (nat * AGT * CircularQueue RMOBEntry * Z) :=
  let cfg := stm_cfg st in
  let agt := activeGenerationTable st in
  let key := mkKey sr_addr (pfi_secure pfi) in
  o ← t_findEntry agt key;
  match o with
  | Some i =>
      agt ← t_accessEntry curTick agt i;
      e ← t_get agt i;
      Ok (i, t_put agt i (mkWith (w_base e) (addOffset (u32 sr_offset) (w_data e))), rmob st, u32 (lastTriggerCounter st + 1))
  | None =>
      q ← addToRMOB cfg sr_addr (pst_address cfg pc sr_offset) (lastTriggerCounter st) (rmob st);
      '(i, agt) ← t_findVictim agt key;
      agt ← t_insertEntry curTick agt key i;
      e ← t_get agt i;
      let m := mkAG (pfi_paddress pfi) pc (seqCounter (w_data e)) (sequence (w_data e)) in
      Ok (i, t_put agt i (mkWith (w_base e) (addOffset (u32 sr_offset) m)), q, 0)
  end.

Definition stems_calculatePrefetch (curTick : Z) (pfi : PrefetchInfo) (cache : CacheAccessor) st : outcome (STeMS G R * list AddrPriority) :=
  if negb (pfi_validPC pfi) then Ok (st, []) else
  pc ← getPC pfi;
  let cfg := stm_cfg st in
  let sr_addr := pfi_address pfi / spatialRegionSize cfg in
  let sr_offset := (pfi_address pfi mod spatialRegionSize cfg) / blkSize (stm_base cfg) in
  st ← checkForActiveGenerationsEnd curTick cache st;
  '(i, agt, q, ltc) ← record_access curTick pc sr_addr sr_offset pfi st;
  agt ← bump_others i (t_indices agt) agt;
  if pfi_cacheMiss pfi then
    o ← last_trigger q sr_addr (cq_size q);
    match o with
    | Some it =>
        '(pst, l) ← reconstructSequence curTick cfg q it (patternSequenceTable st);
        Ok (mkSTeMS cfg agt pst q ltc, l)
    | None => Ok (mkSTeMS cfg agt (patternSequenceTable st) q ltc, [])
    end
  else Ok (mkSTeMS cfg agt (patternSequenceTable st) q ltc, []).

#[export] Instance stems_prefetcher : CalculatePrefetch (STeMS G R) :=
  λ curTick pfi cache st, stems_calculatePrefetch curTick pfi cache st.

Definition stems_new (base : BaseCfg) (region_size rec_entries rmob_entries : Z) (duplicates : bool)
    (agt_entries agt_assoc pst_entries pst_assoc : Z) (agt_ip pst_ip : IndexingPolicy TaggedKey)
    (agt_sets pst_sets : list (list ref)) (g1 g2 : G) : outcome (STeMS G R) :=
  bits ← floorLog2 8 region_size;
  c ← sat_new 8 2 0;
  let entry := mkWith te_new (mkAG 0 0 0 (replicate (Z.to_nat (i32 (region_size / blkSize base))) (mkSeq c 0 0))) in
  agt ← t_new agt_ip agt_entries agt_assoc entry agt_sets g1;
  pst ← t_new pst_ip pst_entries pst_assoc entry pst_sets g2;
  _ ← fatal_if (negb (isPowerOf2 region_size)) "The spatial region size must be a power of 2.";
  Ok (mkSTeMS (mkSTeMSCfg base region_size bits rec_entries duplicates) agt pst
        (cq_new (mkRMOB 0 0 0) (Z.to_nat rmob_entries)) 0).
End STeMS.

(** ** Facts *)

(** A generation has [n] positions with two-bit counters and offsets below [n]. *)
Definition seq_ok (n : Z) (s : SequenceEntry) : Prop :=
  count_wf (sq_counter s) ∧ maxVal (sq_counter s) = 3 ∧ 0 ≤ sq_offset s < n.

Definition ag_ok (n : Z) (m : AGMembers) : Prop := Z.of_nat (length (sequence m)) = n ∧ Forall (seq_ok n) (sequence m).

Lemma ag_ok_reset n m : 0 < n → ag_ok n m → ag_ok n (reset_members m).
Proof.
  intros Hn [Hl Ha]. split; unfold reset_members, ag_reset; cbn [sequence]; [by rewrite length_fmap|]. rewrite Forall_fmap.
  eapply Forall_impl; [exact Ha|]. intros s (Hc & Hm & _). cbn. split_and!; [by apply count_reset|done|done|done].
Qed.

Lemma add_offset_ok n o d l : 0 ≤ o < n → Forall (seq_ok n) l → Forall (seq_ok n) (add_offset o d l) ∧ length (add_offset o d l) = length l.
Proof.
  intros Ho. induction 1 as [|s l (Hc & Hm & Hs) Hl [IH1 IH2]]; cbn [add_offset]; [done|].
  destruct (count_inc (sq_counter s) Hc) as [Hc' Hm']. destruct (0 <? counter (sq_counter s)).
  - split; [|cbn; by rewrite IH2]. constructor; [|done]. destruct (sq_offset s =? o); [|done]. split_and!; cbn; (done || congruence || lia).
  - split; [|done]. constructor; [|done]. split_and!; cbn; (done || congruence || lia).
Qed.

Lemma addOffset_ok n o m : 0 ≤ o < n → ag_ok n m → ag_ok n (addOffset o m).
Proof. intros Ho [Hl Ha]. destruct (add_offset_ok n o (seqCounter m) (sequence m) Ho Ha) as [H1 H2]. split; cbn; [by rewrite H2|done]. Qed.

Lemma bump_ok n m : ag_ok n m → ag_ok n (bump m).
Proof. done. Qed.

(** The members [addOffset] and the trigger write. *)
Lemma ag_ok_fields n m a p c : ag_ok n m → ag_ok n (mkAG a p c (sequence m)).
Proof. done. Qed.

Record stems_cfg_ok (cfg : STeMSCfg) (n k : Z) : Prop := {
  sc_base : cfg_wf (stm_base cfg);
  sc_blocks : spatialRegionSize cfg = n * blkSize (stm_base cfg);
  sc_count : 0 < n < 2 ^ 31;
  sc_power : spatialRegionSize cfg = 2 ^ k ∧ 0 ≤ k < 64
}.

Section Facts.
Context {G R : Type} `{RL : ReplLaws G R} (n : Z) (Hn : 0 < n).
Abbreviation AGT := (Tbl TaggedKey ActiveGenerationTableEntry G R).
Implicit Types T : AGT.

Record gen_ok T : Prop := { go_ok : t_ok T; go_all : t_all (ag_ok n) T }.

Lemma gen_put T i e : gen_ok T → ag_ok n (w_data e) → gen_ok (t_put T i e).
Proof using. intros [H1 H2] He. split; [by apply t_put_ok|by apply t_all_put]. Qed.

Lemma gen_get T i : gen_ok T → i ∈ t_indices T → ∃ e, t_get T i = Ok e ∧ ag_ok n (w_data e) ∧ t_entries T !! i = Some e.
Proof using.
  intros [Hok Ha] Hi. rewrite (tok_range _ Hok), elem_of_seq in Hi. destruct (lookup_lt_is_Some_2 (t_entries T) i) as [e He]; [lia|].
  exists e. split; [by apply t_get_ok|]. split; [by eapply t_all_at|done].
Qed.

Lemma gen_upd i T T' e : gen_ok T → t_upd i T T' → t_entries T' = <[i := e]> (t_entries T) → ag_ok n (w_data e) → gen_ok T'.
Proof using.
  intros [Hok Ha] Hu Ee He. split; [by eapply t_upd_ok|]. unfold t_all. rewrite Ee. by apply Forall_insert.
Qed.

Lemma gen_invalidate T i : gen_ok T → i ∈ t_indices T → ∃ T', t_invalidate T i = Ok T' ∧ gen_ok T' ∧ t_indices T' = t_indices T.
Proof using RL Hn.
  intros HT Hi. destruct (gen_get T i HT Hi) as (e & _ & He & Ee).
  destruct (t_invalidate_spec T i e Ee) as (T' & -> & Hu & Ee'). exists T'. split; [done|]. split; [|by apply (t_upd_indices i)].
  eapply gen_upd; [done|done|exact Ee'|]. by apply ag_ok_reset.
Qed.

Lemma gen_find_or_insert t T key :
  gen_ok T → ∃ i T', t_find_or_insert t T key = Ok (i, T') ∧ gen_ok T' ∧ i ∈ t_indices T'.
Proof using RL Hn.
  intros [Hok Ha]. destruct (t_entry_spec (ag_ok n) (λ m, ag_ok_reset n m Hn) t T key Hok Ha) as (i & T' & e & E & Hok' & _ & _ & Ha' & [_ He] & _).
  exists i, T'. split; [done|]. split; [done|]. rewrite (tok_range _ Hok'), elem_of_seq. apply lookup_lt_Some in He. lia.
Qed.

(** One round, and the loop, of the search for ended generations. *)
Lemma check_generation_ok t cfg cache i T P :
  gen_ok T → gen_ok P → i ∈ t_indices T →
  ∃ T' P', check_generation t cfg cache i (T, P) = Ok (T', P') ∧ gen_ok T' ∧ gen_ok P' ∧ t_indices T' = t_indices T.
Proof using RL Hn.
  intros HT HP Hi. unfold check_generation. destruct (gen_get T i HT Hi) as (e & -> & He & _). run_ok.
  destruct (te_valid (w_base e)); [|by eexists _, _]. destruct (evicted _ _ _ _ _) as [s|]; [|by eexists _, _].
  destruct (gen_find_or_insert t P (mkKey (pst_address cfg (ag_pc (w_data e)) (sq_offset s)) false) HP) as (j & P1 & -> & HP1 & Hj). run_ok.
  destruct (gen_get P1 j HP1 Hj) as (pe & -> & _). run_ok. destruct (gen_invalidate T i HT Hi) as (T1 & -> & HT1 & Ei). run_ok.
  eexists _, _. split; [done|]. split_and!; [done|by apply gen_put|done].
Qed.

Lemma check_generations_ok t cfg cache l : ∀ T P, gen_ok T → gen_ok P → (∀ i, i ∈ l → i ∈ t_indices T) →
  ∃ T' P', check_generations t cfg cache l (T, P) = Ok (T', P') ∧ gen_ok T' ∧ gen_ok P'.
Proof using RL Hn.
  induction l as [|i l IH]; intros T P HT HP Hl; cbn [check_generations]; [by eexists _, _|].
  destruct (check_generation_ok t cfg cache i T P HT HP (Hl i ltac:(left))) as (T1 & P1 & -> & HT1 & HP1 & Ei). run_ok.
  apply IH; [done|done|]. intros j Hj. rewrite Ei. apply Hl. by right.
Qed.

Lemma bump_others_ok i l : ∀ T, gen_ok T → (∀ j, j ∈ l → j ∈ t_indices T) → ∃ T', bump_others i l T = Ok T' ∧ gen_ok T'.
Proof using.
  induction l as [|j l IH]; intros T HT Hl; cbn [bump_others]; [by eexists|].
  destruct (gen_get T j HT (Hl j ltac:(left))) as (e & -> & He & _). run_ok. apply IH.
  - destruct (_ && _); [|done]. by apply gen_put.
  - intros k Hk. destruct (_ && _); [|by apply Hl; right]. rewrite (t_upd_indices j _ _ (t_put_upd T j _)). apply Hl. by right.
Qed.
End Facts.

Lemma last_trigger_ok q sr k : cq_wf q → ∃ o, last_trigger q sr k = Ok o.
Proof.
  intros Hq. induction k as [|k IH]; cbn [last_trigger]; [by eexists|]. destruct (cq_at_ok q (cq_head q + k) Hq) as [e ->]. run_ok.
  destruct (srAddress e =? sr); [by eexists|done].
Qed.

(** What the elements of the buffer and the new one have in common is kept. *)
Lemma addToRMOB_ok cfg sr p d q : cq_wf q → ∃ q', addToRMOB cfg sr p d q = Ok q' ∧ cq_wf q' ∧
  ∀ Q, Forall Q (contents q) → Q (mkRMOB sr p d) → Forall Q (contents q').
Proof.
  intros Hq. unfold addToRMOB. destruct (_ && _); [by eexists|].
  destruct (cq_push_back_spec q (mkRMOB sr p d) Hq) as (q' & E & Hq' & _ & Ec). exists q'. split_and!; [done..|].
  intros Q HQ Hd. rewrite Ec. unfold bounded_push. apply Forall_app. split; [|by constructor]. destruct (_ =? _)%nat; [by apply Forall_drop|done].
Qed.

Section Rec.
Context {G R : Type} `{RL : ReplLaws G R} (cfg : STeMSCfg) (n k : Z) (Hcfg : stems_cfg_ok cfg n k).
Abbreviation AGT := (Tbl TaggedKey ActiveGenerationTableEntry G R).
Abbreviation size := (spatialRegionSize cfg).

(** A candidate: at most [n] bytes into its region. *)
Definition in_start (a : Z) : Prop := in_u 64 a ∧ a mod size < n.
Definition rec_ok (rec : list Z) : Prop := Forall (λ a, a = MaxAddr ∨ in_start a) rec.

Lemma mod_u64 x : u64 x mod size = x mod size.
Proof using Hcfg.
  destruct (sc_power _ _ _ Hcfg) as [-> Hk]. unfold wrap. apply Z.mod_mod_divide.
  exists (2 ^ (64 - k)). rewrite <-Z.pow_add_r by lia. f_equal. lia.
Qed.

Lemma region_start sr : in_start (u64 (sr * size)).
Proof using Hcfg. split; [by apply wrap_range|]. rewrite mod_u64, Z_mod_mult. apply (sc_count _ _ _ Hcfg). Qed.

Lemma pattern_start sr o : 0 ≤ o < n → in_start (u64 (u64 (sr * size) + o)).
Proof using Hcfg.
  intros Ho. split; [by apply wrap_range|]. rewrite mod_u64. rewrite <-Zplus_mod_idemp_l, mod_u64, Z_mod_mult. rewrite Z.mod_small; [lia|].
  destruct Hcfg as [[Hb Hbs _] Hs Hc _]. pose proof (Z.pow_pos_nonneg 2 (lBlkSize (stm_base cfg))). rewrite Hs, Hbs. nia.
Qed.

Lemma rec_insert rec j a : rec_ok rec → in_start a → rec_ok (<[j := a]> rec).
Proof using. intros Hr Ha. apply Forall_insert; [done|by right]. Qed.

Lemma place_pattern_ok sr idx l : Forall (seq_ok n) l → ∀ rec, rec_ok rec → rec_ok (place_pattern cfg sr idx l rec).
Proof using Hcfg.
  induction 1 as [|s l (_ & _ & Hs) _ IH]; intros rec Hr; cbn [place_pattern]; [done|]. apply IH.
  destruct (1 <? _); [|done]. destruct (slot_for _ _ _); [|done]. apply rec_insert; [done|]. by apply pattern_start.
Qed.

Lemma place_regions_ok q : cq_wf q → ∀ m it idx rec, rec_ok rec → ∃ rec', place_regions cfg q it m idx rec = Ok rec' ∧ rec_ok rec'.
Proof using Hcfg.
  intros Hq. induction m as [|m IH]; intros it idx rec Hr; cbn [place_regions]; [by eexists|]. destruct (idx <? _); [|by eexists].
  destruct (cq_at_ok q it Hq) as [e ->]. run_ok. unfold next_idx. destruct (cq_at_ok q (S it) Hq) as [e' ->]. run_ok.
  apply IH, rec_insert; [done|]. apply region_start.
Qed.

Lemma place_patterns_ok t q : cq_wf q → ∀ m it idx (P : AGT) rec, gen_ok n P → rec_ok rec →
  ∃ P' rec', place_patterns t cfg q it m idx P rec = Ok (P', rec') ∧ gen_ok n P' ∧ rec_ok rec'.
Proof using Hcfg RL.
  intros Hq. induction m as [|m IH]; intros it idx P rec HP Hr; cbn [place_patterns]; [by eexists _, _|]. destruct (idx <? _); [|by eexists _, _].
  destruct (cq_at_ok q it Hq) as [e ->]. run_ok. unfold next_idx. destruct (cq_at_ok q (S it) Hq) as [e' ->].
  destruct (t_find_total P (mkKey (pstAddress e) false) (go_ok _ _ HP)) as [->|(j & pe & Hf & _)]; run_ok; [by apply IH|].
  rewrite (proj1 Hf). run_ok. destruct (t_access_spec t P _ j pe (go_ok _ _ HP) Hf) as (P1 & -> & Hu & Ee & _). run_ok.
  assert (gen_ok n P1) as HP1. { split; [by eapply t_upd_ok; [|apply HP]|]. unfold t_all. rewrite Ee. apply HP. }
  assert (t_entries P1 !! j = Some pe) as Hpe by (rewrite Ee; apply Hf). rewrite (t_get_ok P1 j pe Hpe). run_ok.
  apply IH; [done|]. apply place_pattern_ok; [|done]. eapply (t_all_at (ag_ok n)); [apply HP1|exact Hpe].
Qed.

Lemma reconstruct_ok t q it (P : AGT) :
  cq_wf q → gen_ok n P → ∃ P' l, reconstructSequence t cfg q it P = Ok (P', l) ∧ gen_ok n P' ∧ Forall (λ ap, in_start ap.1) l.
Proof using Hcfg RL.
  intros Hq HP. unfold reconstructSequence.
  destruct (place_regions_ok q Hq (cq_head q + cq_size q - it) it 0 (replicate (Z.to_nat (reconstructionEntries cfg)) MaxAddr)) as (rec & -> & Hr);
    [by apply Forall_replicate; left|]. run_ok.
  destruct (place_patterns_ok t q Hq (cq_head q + cq_size q - it) it 0 P rec HP Hr) as (P' & rec' & -> & HP' & Hr'). run_ok.
  eexists _, _. split; [done|]. split; [done|]. unfold candidates_of. rewrite Forall_fmap. apply Forall_forall. intros a (Hne & Ha)%list_elem_of_filter. cbn.
  unfold rec_ok in Hr'. rewrite Forall_forall in Hr'. by destruct (Hr' a Ha).
Qed.
End Rec.

(** Where a region has no more blocks than a block has bytes, the candidates are in the
    first block of their regions. *)
Lemma start_block cfg n k a : stems_cfg_ok cfg n k → n ≤ blkSize (stm_base cfg) → in_start cfg n a → blockAddress (stm_base cfg) a = a - a mod spatialRegionSize cfg.
Proof.
  intros Hcfg Hn [Ha Hm]. rewrite blockAddress_eq by (done || apply Hcfg). f_equal. pose proof (blkSize_pos _ (sc_base _ _ _ Hcfg)).
  rewrite (sc_blocks _ _ _ Hcfg) in *. pose proof (sc_count _ _ _ Hcfg). set (b := blkSize (stm_base cfg)) in *.
  pose proof (Z.mod_pos_bound a (n * b) ltac:(nia)). rewrite <-(Z.mod_small (a mod (n * b)) b) by lia.
  symmetry. apply Z.mod_mod_divide. by exists n.
Qed.

(** ** No access fails *)

Record stems_wf {G R : Type} `{ReplPolicy G R} (st : STeMS G R) : Prop := {
  sw_cfg : ∃ n k, stems_cfg_ok (stm_cfg st) n k ∧ gen_ok n (activeGenerationTable st) ∧ gen_ok n (patternSequenceTable st);
  sw_rmob : cq_wf (rmob st)
}.

Section Access.
Context {G R : Type} `{RL : ReplLaws G R}.
Implicit Types st : STeMS G R.

Lemma offset_range cfg n k a : stems_cfg_ok cfg n k → 0 ≤ u32 ((a mod spatialRegionSize cfg) / blkSize (stm_base cfg)) < n.
Proof using.
  intros [[Hb Hbs _] Hs Hc [Hp Hk]]. pose proof (Z.pow_pos_nonneg 2 (lBlkSize (stm_base cfg))).
  pose proof (Z.mod_pos_bound a (spatialRegionSize cfg) ltac:(rewrite Hp; apply Z.pow_pos_nonneg; lia)) as Hm.
  assert (0 ≤ (a mod spatialRegionSize cfg) / blkSize (stm_base cfg) < n) as Hq.
  { split; [apply Z.div_pos; lia|]. apply Z.div_lt_upper_bound; lia. }
  rewrite wrap_id; [done|]. unfold in_u. lia.
Qed.

Lemma record_access_ok t pc sr o pfi st n k :
  stems_cfg_ok (stm_cfg st) n k → 0 ≤ u32 o < n → gen_ok n (activeGenerationTable st) → cq_wf (rmob st) →
  ∃ i A q c, record_access t pc sr o pfi st = Ok (i, A, q, c) ∧ gen_ok n A ∧ cq_wf q ∧
    ∀ Q, Forall Q (contents (rmob st)) → (∀ sr p, Q (mkRMOB sr p (lastTriggerCounter st))) → Forall Q (contents q).
Proof using RL.
  intros Hcfg Ho HA Hq. assert (0 < n) as Hn by apply Hcfg. unfold record_access. set (key := mkKey sr (pfi_secure pfi)). pose proof (go_ok _ _ HA) as Hok.
  destruct (t_find_total _ key Hok) as [Hm|(i & e & Hf & _)].
  - rewrite Hm. run_ok. destruct (addToRMOB_ok (stm_cfg st) sr (pst_address (stm_cfg st) pc o) (lastTriggerCounter st) (rmob st) Hq) as (q & -> & Hq' & HQ). run_ok.
    destruct (t_alloc_plain t _ key Hok Hm) as (v & T1 & T2 & e0 & e2 & -> & E2 & _ & He0 & Ei & Hu & Hf2 & Ee). run_ok. rewrite E2. run_ok.
    rewrite (t_get_ok T2 v e2) by apply Hf2. run_ok. eexists _, _, _, _. split; [done|]. split; [|split; [done|by eauto]].
    assert (ag_ok n (w_data e2)) as He2.
    { rewrite (with_insert_data _ _ _ _ Ei). apply ag_ok_reset; [done|]. eapply (t_all_at (ag_ok n)); [apply HA|exact He0]. }
    apply gen_put; [by eapply gen_upd|]. by apply addOffset_ok.
  - rewrite (proj1 Hf). run_ok. destruct (t_access_spec t _ key i e Hok Hf) as (T1 & -> & Hu & Ee & _). run_ok.
    assert (t_entries T1 !! i = Some e) as He by (rewrite Ee; apply Hf). rewrite (t_get_ok T1 i e He). run_ok.
    assert (gen_ok n T1) as HT1. { split; [by eapply t_upd_ok|]. unfold t_all. rewrite Ee. apply HA. }
    eexists _, _, _, _. split; [done|]. split; [|split; [done|by eauto]]. apply gen_put; [done|]. apply addOffset_ok; [done|]. eapply (t_all_at (ag_ok n)); [apply HT1|exact He].
Qed.

Lemma stems_access t pfi cache st n k :
  stems_cfg_ok (stm_cfg st) n k → gen_ok n (activeGenerationTable st) → gen_ok n (patternSequenceTable st) → cq_wf (rmob st) →
  ∃ st' l, stems_calculatePrefetch t pfi cache st = Ok (st', l) ∧ stm_cfg st' = stm_cfg st ∧ gen_ok n (activeGenerationTable st') ∧
    gen_ok n (patternSequenceTable st') ∧ cq_wf (rmob st') ∧ Forall (λ ap, in_start (stm_cfg st) n ap.1) l.
Proof using RL.
  intros Hcfg HA HP Hq. assert (0 < n) as Hn by apply Hcfg. unfold stems_calculatePrefetch, getPC. destruct (pfi_validPC pfi); [|by eexists _, _; split_and!].
  cbn [negb assert_that mbind outcome_bind]. unfold checkForActiveGenerationsEnd.
  destruct (check_generations_ok n Hn t (stm_cfg st) cache (t_indices (activeGenerationTable st)) _ _ HA HP) as (A1 & P1 & -> & HA1 & HP1); [done|]. run_ok.
  destruct (record_access_ok t (pfi_pc pfi) (pfi_address pfi / spatialRegionSize (stm_cfg st))
    ((pfi_address pfi mod spatialRegionSize (stm_cfg st)) / blkSize (stm_base (stm_cfg st))) pfi
    (mkSTeMS (stm_cfg st) A1 P1 (rmob st) (lastTriggerCounter st)) n k) as (i & A2 & q2 & c2 & -> & HA2 & Hq2 & _); [done|by eapply offset_range|done|done|].
  run_ok. destruct (bump_others_ok n i (t_indices A2) A2 HA2) as (A3 & -> & HA3); [done|]. run_ok.
  destruct (pfi_cacheMiss pfi); [|by eexists _, _; split_and!].
  destruct (last_trigger_ok q2 (pfi_address pfi / spatialRegionSize (stm_cfg st)) (cq_size q2) Hq2) as [[it|] ->]; run_ok; [|by eexists _, _; split_and!].
  cbn [patternSequenceTable]. destruct (reconstruct_ok (stm_cfg st) n k Hcfg t q2 it P1 Hq2 HP1) as (P2 & l & -> & HP2 & Hl). run_ok. by eexists _, _; split_and!.
Qed.
End Access.

#[export] Instance stems_safe {G R : Type} `{RL : ReplLaws G R} : SafePrefetcher (STeMS G R).
Proof.
  refine {| pf_inv := stems_wf |}. intros t pfi cache st _ [(n & k & Hcfg & HA & HP) Hq].
  destruct (stems_access t pfi cache st n k Hcfg HA HP Hq) as (st' & l & E & Ec & HA' & HP' & Hq' & _). exists st', l. split; [done|].
  split; [|done]. exists n, k. by rewrite Ec.
Defined.

(** *** Runs and construction *)

Lemma stems_run {G R : Type} `{RL : ReplLaws G R} cache n k l : ∀ st : STeMS G R,
  stems_cfg_ok (stm_cfg st) n k → gen_ok n (activeGenerationTable st) → gen_ok n (patternSequenceTable st) → cq_wf (rmob st) →
  ∃ st' os, run_accesses cache l st = Ok (st', os) ∧ length os = length l ∧ Forall (Forall (λ ap, in_start (stm_cfg st) n ap.1)) os.
Proof.
  induction l as [|[t pfi] l IH]; intros st Hcfg HA HP Hq; [by exists st, []|].
  destruct (stems_access t pfi cache st n k Hcfg HA HP Hq) as (st1 & o & E1 & Ec & HA1 & HP1 & Hq1 & Ho). rewrite <-Ec in Hcfg.
  destruct (IH st1 Hcfg HA1 HP1 Hq1) as (st2 & os & E2 & El & Hos). rewrite Ec in Hos. exists st2, (o :: os).
  split_and!; [by eapply run_accesses_cons|simpl; by rewrite El|by constructor].
Qed.

Lemma stems_new_wf {G R : Type} `{RL : ReplLaws G R} base n k rec_entries rmob_entries dup ae aa pe pa aix pix as_ ps (g1 g2 : G) :
  (∀ g, is_ok (rp_instantiate (R := R) g)) → cfg_wf base → 2 ^ k = n * blkSize base → 0 < n < 2 ^ 31 → 0 ≤ k < 64 → 0 < rmob_entries →
  0 < aa < 2 ^ 32 → 0 ≤ ae < 2 ^ 32 → ae mod aa = 0 → indexing_new aa ae 0 = Ok (aix, as_) →
  0 < pa < 2 ^ 32 → 0 ≤ pe < 2 ^ 32 → pe mod pa = 0 → indexing_new pa pe 0 = Ok (pix, ps) →
  ∃ st : STeMS G R,
    stems_new base (2 ^ k) rec_entries rmob_entries dup ae aa pe pa (TaggedSetAssociative aix) (TaggedSetAssociative pix) as_ ps g1 g2 = Ok st ∧
    stm_cfg st = mkSTeMSCfg base (2 ^ k) k rec_entries dup ∧ stems_cfg_ok (stm_cfg st) n k ∧
    gen_ok n (activeGenerationTable st) ∧ gen_ok n (patternSequenceTable st) ∧ cq_wf (rmob st).
Proof.
  intros Hi Hb Hs Hn Hk Hr Haa Hae Ham Ea Hpa Hpe Hpm Ep. unfold stems_new.
  assert (0 < 2 ^ k < 2 ^ 64) by (split; [apply Z.pow_pos_nonneg; lia|apply Z.pow_lt_mono_r; lia]).
  rewrite floorLog2_log2 by (done || by do 3 right; left). rewrite Z.log2_pow2 by lia. run_ok.
  assert (sat_new 8 2 0 = Ok (mkSat 0 3 0)) as Ek by reflexivity. rewrite Ek. destruct (count_new 2 _ ltac:(lia) Ek) as [Hc _]. run_ok.
  set (entry := mkWith te_new _). assert (ag_ok n (w_data entry)) as Hentry.
  { pose proof (blkSize_pos _ Hb). assert (i32 (2 ^ k / blkSize base) = n) as En by (rewrite Hs, Z.div_mul by lia; apply swrap_id; [lia|in_int]).
    split; simpl; rewrite En; [rewrite length_replicate; lia|]. apply Forall_replicate. split_and!; (done || simpl; lia). }
  destruct (t_new_fills aa ae 0 aix as_ entry g1 Hi (Z.le_refl 0) Haa Hae Ham Ea) as (A & -> & HA & _ & EA & _). run_ok.
  destruct (t_new_fills pa pe 0 pix ps entry g2 Hi (Z.le_refl 0) Hpa Hpe Hpm Ep) as (P & -> & HP & _ & EP & _). run_ok.
  rewrite isPowerOf2_pow2 by lia. run_ok. eexists. split; [done|]. split_and!; cbn; [done|by split|..].
  - split; [done|]. unfold t_all. rewrite EA. by apply Forall_replicate.
  - split; [done|]. unfold t_all. rewrite EP. by apply Forall_replicate.
  - apply cq_new_wf. lia.
Qed.

(** ** The regions that followed *)

(** The elements from the last one of region [sr]. *)
Fixpoint since (sr : Z) (l : list RMOBEntry) : list RMOBEntry :=
  match l with
  | [] => []
  | e :: l' => match since sr l' with [] => if srAddress e =? sr then l else [] | r => r end
  end.

(** The elements that fit in a sequence of [entries] places from place [idx]: each is placed
    after as many places as there were accesses between its trigger and the one before. *)
Fixpoint follow (entries idx : Z) (l : list RMOBEntry) : list RMOBEntry :=
  match l with
  | [] => []
  | e :: l' => if idx <? entries then e :: match l' with [] => [] | e' :: _ => follow entries (idx + rm_delta e' + 1) l' end else []
  end.

Lemma since_none sr l : (∀ e, e ∈ l → srAddress e ≠ sr) → since sr l = [].
Proof.
  induction l as [|e l IH]; intros Hl; [done|]. cbn [since]. rewrite IH by (intros; apply Hl; by right).
  destruct (Z.eqb_spec (srAddress e) sr) as [E|]; [|done]. by destruct (Hl e ltac:(left)).
Qed.

Lemma since_last sr l1 e l2 : srAddress e = sr → (∀ e, e ∈ l2 → srAddress e ≠ sr) → since sr (l1 ++ e :: l2) = e :: l2.
Proof.
  intros He Hl. induction l1 as [|x l1 IH]; cbn [app since]; [|by rewrite IH]. rewrite since_none by done. by rewrite He, Z.eqb_refl.
Qed.

Section Follow.
Context (q : CircularQueue RMOBEntry) (Hq : cq_wf q).

(** The search returns the start of [since]. *)
Lemma last_trigger_since sr k :
  (k ≤ cq_size q)%nat → (∀ e, e ∈ drop k (contents q) → srAddress e ≠ sr) →
  match since sr (contents q) with
  | [] => last_trigger q sr k = Ok None
  | l => ∃ i, last_trigger q sr k = Ok (Some (cq_head q + i)%nat) ∧ drop i (contents q) = l
  end.
Proof using Hq.
  induction k as [|k IH]; intros Hk Hd; [by rewrite since_none|]. cbn [last_trigger].
  destruct (lookup_lt_is_Some_2 (contents q) k) as [e He]; [rewrite contents_length by done; lia|].
  rewrite (contents_at q k e Hq He). run_ok. destruct (Z.eqb_spec (srAddress e) sr) as [E|Hne].
  - assert (since sr (contents q) = e :: drop (S k) (contents q)) as ->.
    { rewrite <-(take_drop_middle _ _ _ He) at 1. by apply since_last. }
    exists k. split; [done|]. by apply drop_S.
  - apply IH; [lia|]. intros e' He'. rewrite (drop_S _ _ _ He) in He'. apply elem_of_cons in He' as [->|He']; [done|by apply Hd].
Qed.
(** A place no later than the end is followed by one that does not wrap. *)
Definition delta_ok (cfg : STeMSCfg) (e : RMOBEntry) : Prop := 0 ≤ rm_delta e ∧ rm_delta e + reconstructionEntries cfg < 2 ^ 32.

Context (cfg : STeMSCfg) (n k : Z) (Hcfg : stems_cfg_ok cfg n k) (Hsize : 1 < spatialRegionSize cfg).
Context (Hd : Forall (delta_ok cfg) (contents q)).
Abbreviation entries := (reconstructionEntries cfg).
Abbreviation start := (λ e, u64 (srAddress e * spatialRegionSize cfg)).
Abbreviation filled := (filter (λ a, a ≠ MaxAddr)).

Lemma start_ne e : start e ≠ MaxAddr.
Proof using Hcfg Hsize.
  intros E. pose proof (mod_u64 cfg n k Hcfg (srAddress e * spatialRegionSize cfg)) as Em. rewrite Z_mod_mult in Em. cbn beta in E. rewrite E in Em.
  destruct (sc_power _ _ _ Hcfg) as [Ek Hk]. assert (k ≠ 0) by (intros ->; rewrite Ek in Hsize; lia).
  apply Z.mod_divide in Em; [|lia]. destruct Em as [z Ez]. rewrite Ek in Ez.
  replace k with (1 + (k - 1)) in Ez by lia. rewrite Z.pow_add_r in Ez by lia. unfold MaxAddr in Ez. lia.
Qed.

Lemma next_idx_ok i e idx : contents q !! S i = Some e → 0 ≤ idx < entries → next_idx q (cq_head q + i) idx = Ok (idx + rm_delta e + 1).
Proof using Hq Hd.
  intros He Hi. unfold next_idx. rewrite <-Nat.add_succ_r. rewrite (contents_at q (S i) e Hq He). run_ok.
  destruct (Forall_lookup_1 _ _ _ _ Hd He) as [H0 H1]. rewrite (wrap_id 32 (rm_delta e + 1)) by (unfold in_u; lia).
  rewrite wrap_id by (unfold in_u; lia). f_equal. lia.
Qed.

Lemma filled_free m : filled (replicate m MaxAddr) = [].
Proof using Type. clear. induction m as [|m IH]; [done|]. cbn [replicate]. rewrite filter_cons_False by (by intros []). done. Qed.

(** The places from [idx] on are free; the elements are placed in them in order. *)
Lemma place_regions_follow m : ∀ i idx rec,
  m = (cq_size q - i)%nat → 0 ≤ idx →
  (idx < entries → ∃ pre, rec = pre ++ replicate (Z.to_nat (entries - idx)) MaxAddr ∧ Z.of_nat (length pre) = idx) →
  ∃ rec', place_regions cfg q (cq_head q + i) m idx rec = Ok rec' ∧
    filled rec' = filled rec ++ (start <$> follow entries idx (drop i (contents q))).
Proof using Hq Hcfg Hsize Hd.
  induction m as [|m IH]; intros i idx rec Em H0 Hpre; cbn [place_regions].
  { exists rec. split; [done|]. rewrite drop_ge by (rewrite contents_length by done; lia). by rewrite app_nil_r. }
  destruct (lookup_lt_is_Some_2 (contents q) i) as [e He]; [rewrite contents_length by done; lia|]. rewrite (drop_S _ _ _ He). cbn [follow].
  destruct (Z.ltb_spec idx entries) as [Hlt|]; [|exists rec; split; [done|by rewrite app_nil_r]].
  rewrite (contents_at q i e Hq He). run_ok. destruct (Hpre Hlt) as (pre & -> & Hlen).
  replace (Z.to_nat (entries - idx)) with (S (Z.to_nat (entries - idx - 1))) by lia. cbn [replicate].
  replace (Z.to_nat idx) with (length pre + 0)%nat by lia. rewrite insert_app_r.
  change (<[0%nat := ?a]> (MaxAddr :: ?r)) with (a :: r).
  assert (filled (pre ++ MaxAddr :: replicate (Z.to_nat (entries - idx - 1)) MaxAddr) = filled pre) as ->.
  { rewrite filter_app, filter_cons_False by (by intros []). by rewrite filled_free, app_nil_r. }
  set (r := replicate _ _). assert (filled (pre ++ start e :: r) = filled pre ++ [start e]) as Ef.
  { rewrite filter_app, filter_cons_True by apply start_ne. by rewrite (filled_free _ : filled r = []). }
  destruct (decide (m = 0%nat)) as [->|Hm].
  - rewrite drop_ge by (rewrite contents_length by done; lia). unfold next_idx. destruct (cq_at_ok q (S (cq_head q + i)) Hq) as [e' ->]. run_ok.
    eexists. split; [done|]. by rewrite Ef.
  - destruct (lookup_lt_is_Some_2 (contents q) (S i)) as [e' He']; [rewrite contents_length by done; lia|].
    rewrite (next_idx_ok i e' idx He' ltac:(lia)). run_ok. pose proof (Forall_lookup_1 _ _ _ _ Hd He') as [Hd0 _]. rewrite <-Nat.add_succ_r.
    destruct (IH (S i) (idx + rm_delta e' + 1) (pre ++ start e :: r)) as (rec' & E & Hr); [lia|lia| |].
    { intros Hlt'. exists (pre ++ start e :: replicate (Z.to_nat (rm_delta e')) MaxAddr). rewrite <-app_assoc, <-app_comm_cons, <-replicate_add.
      split; [do 2 f_equal; unfold r; f_equal; lia|]. rewrite length_app. cbn [length]. rewrite length_replicate. lia. }
    exists rec'. split; [exact E|]. rewrite Hr, Ef, <-app_assoc. rewrite (drop_S _ _ _ He'). done.
Qed.
(** With no recorded pattern the second loop places nothing. *)
Lemma place_patterns_none {G R : Type} `{ReplPolicy G R} t (P : Tbl TaggedKey ActiveGenerationTableEntry G R) m :
  (∀ key, t_findEntry P key = Ok None) → ∀ it idx rec, place_patterns t cfg q it m idx P rec = Ok (P, rec).
Proof using Hq.
  intros HP. induction m as [|m IH]; intros it idx rec; cbn [place_patterns]; [done|]. destruct (idx <? _); [|done].
  destruct (cq_at_ok q it Hq) as [e ->]. run_ok. rewrite HP. run_ok. unfold next_idx. destruct (cq_at_ok q (S it) Hq) as [e' ->]. run_ok. apply IH.
Qed.

Lemma reconstruct_follow {G R : Type} `{ReplPolicy G R} t (P : Tbl TaggedKey ActiveGenerationTableEntry G R) i :
  0 ≤ entries → (∀ key, t_findEntry P key = Ok None) →
  reconstructSequence t cfg q (cq_head q + i) P = Ok (P, (λ e, (start e, 0)) <$> follow entries 0 (drop i (contents q))).
Proof using Hq Hcfg Hsize Hd.
  intros He HP. unfold reconstructSequence. replace (cq_head q + cq_size q - (cq_head q + i))%nat with (cq_size q - i)%nat by lia.
  destruct (place_regions_follow (cq_size q - i) i 0 (replicate (Z.to_nat entries) MaxAddr)) as (rec & -> & Hr); [done|lia| |].
  { intros _. exists []. split; [|done]. by rewrite Z.sub_0_r. }
  run_ok. rewrite (place_patterns_none t P _ HP). run_ok. unfold candidates_of. rewrite Hr, filled_free, app_nil_l. by rewrite <-list_fmap_compose.
Qed.
End Follow.

(** A table without valid entries. *)
Definition no_entries {G R : Type} (T : Tbl TaggedKey ActiveGenerationTableEntry G R) : Prop :=
  Forall (λ e, te_valid (w_base e) = false) (t_entries T).

Lemma no_entries_find {G R : Type} `{RL : ReplLaws G R} (T : Tbl TaggedKey ActiveGenerationTableEntry G R) :
  t_ok T → no_entries T → ∀ key, t_findEntry T key = Ok None.
Proof.
  intros Hok Hn key. destruct (t_find_total T key Hok) as [->|(i & e & [_ He] & Hm)]; [done|].
  pose proof (Forall_lookup_1 _ _ _ _ Hn He) as Hv. cbn in Hm. unfold te_match in Hm. by rewrite Hv in Hm.
Qed.

(** Every block a generation can hold is in the cache or on its way there. *)
Definition nothing_evicted (cache : CacheAccessor) : Prop := ∀ a s, inCache cache a s || inMissQueue cache a s = true.

Lemma evicted_none cfg cache sec p l : nothing_evicted cache → evicted cfg cache sec p l = None.
Proof.
  intros Hc. induction l as [|s l IH]; cbn [evicted]; [done|]. rewrite IH. specialize (Hc (u64 (p + u32 (sq_offset s * blkSize (stm_base cfg)))) sec).
  apply orb_true_iff in Hc as [-> | ->]; cbn; by rewrite ?andb_false_r.
Qed.

Lemma check_generations_none {G R : Type} `{RL : ReplLaws G R} n t cfg cache l (T P : Tbl TaggedKey ActiveGenerationTableEntry G R) :
  nothing_evicted cache → gen_ok n T → (∀ i, i ∈ l → i ∈ t_indices T) → check_generations t cfg cache l (T, P) = Ok (T, P).
Proof.
  intros Hc HT. induction l as [|i l IH]; intros Hl; cbn [check_generations]; [done|]. unfold check_generation.
  destruct (gen_get n T i HT (Hl i ltac:(left))) as (e & -> & _). run_ok. rewrite evicted_none by done.
  destruct (te_valid _); run_ok; apply IH; intros; apply Hl; by right.
Qed.

(** ** Theorems *)

(** An access is recorded at the first unused position, whether or not its offset has one
    already: the used positions of the same offset are counted as well. *)
Lemma addOffset_repeats o m pre s post :
  sequence m = pre ++ s :: post → Forall (λ s, 0 < counter (sq_counter s)) pre → counter (sq_counter s) = 0 →
  sequence (addOffset o m) =
    ((λ x, if sq_offset x =? o then mkSeq (sat_inc (sq_counter x)) (sq_offset x) (sq_delta x) else x) <$> pre)
    ++ mkSeq (sat_inc (sq_counter s)) o (seqCounter m) :: post.
Proof.
  intros Es Hpre Hs. cbn [addOffset sequence]. rewrite Es. clear Es.
  induction Hpre as [|x pre Hx _ IH]; cbn [app fmap list_fmap add_offset].
  - by rewrite Hs.
  - rewrite (proj2 (Z.ltb_lt _ _)) by done. f_equal. exact IH.
Qed.


(** The prefetcher asks for the first block of a region only.  The offset of a recorded
    access is a number of blocks, but it is added to the address of the region as a number of
    bytes: where a region has no more blocks than a block has bytes, as with regions of 2 KiB
    and blocks of 64 bytes, every candidate of every access is in the first block of its region,
    whatever was recorded. *)
Theorem stems_first_block {G R : Type} `{RL : ReplLaws G R} cache l (st : STeMS G R) :
  let cfg := stm_cfg st in
  let base := stm_base cfg in
  stems_wf st → spatialRegionSize cfg / blkSize base ≤ blkSize base →
  ∃ st' os, run_accesses cache l st = Ok (st', os) ∧ length os = length l ∧
    Forall (Forall (λ ap, blockAddress base ap.1 = ap.1 - ap.1 mod spatialRegionSize cfg)) os.
Proof.
  intros cfg base. subst base cfg. intros [(n & k & Hcfg & HA & HP) Hq] Hb. destruct (stems_run cache n k l st Hcfg HA HP Hq) as (st' & os & E & El & Hos).
  exists st', os. split_and!; [done|done|]. eapply Forall_impl; [exact Hos|]. intros o Ho. eapply Forall_impl; [exact Ho|]. intros ap Hap.
  apply (start_block _ n k); [done| |done]. pose proof (blkSize_pos _ (sc_base _ _ _ Hcfg)).
  rewrite (sc_blocks _ _ _ Hcfg), Z.div_mul in Hb by lia. exact Hb.
Qed.

(** *** Examples *)

(** Regions of four blocks of 64 bytes, eight places, tables of four entries. *)
Definition ex_stems_base : BaseCfg := mkBaseCfg 64 6 true true true true true 0 4096 true false false.

Definition ex_stems_new : outcome (STeMS unit LRUReplData) :=
  stems_new ex_stems_base 256 8 16 false 4 4 4 4 (TaggedSetAssociative (mkIndexing 4 1 0 0 0)) (TaggedSetAssociative (mkIndexing 4 1 0 0 0))
    [[None; None; None; None]] [[None; None; None; None]] tt tt.

Lemma ex_stems_runs : is_okb ex_stems_new = true.
Proof. by vm_compute. Qed.

Definition ex_stems : STeMS unit LRUReplData := the_result ex_stems_new ex_stems_runs.

Lemma ex_stems_wf : stems_wf ex_stems.
Proof.
  destruct (stems_new_wf (G := unit) (R := LRUReplData) ex_stems_base 4 8 8 16 false 4 4 4 4 (mkIndexing 4 1 0 0 0) (mkIndexing 4 1 0 0 0)
    [[None; None; None; None]] [[None; None; None; None]] tt tt) as (st & E & _ & H1 & H2 & H3 & H4);
    [by intros; eexists|split; [by vm_compute|done|exists 12; split; [by vm_compute|done]]|done|lia|lia|lia|lia|lia|done|by vm_compute|lia|lia|done|by vm_compute|].
  change (ex_stems_new = Ok st) in E. rewrite (the_result_ok _ ex_stems_runs) in E. injection E as <-. split; [by exists 4, 8|done].
Qed.

Definition ex_stems_access (pc addr : Z) : PrefetchInfo := mkPfi addr pc 0 true false 8 false addr true None.
Definition full_cache : CacheAccessor := mkAccessor (λ _ _, true) (λ _ _, false) (λ _ _ _, false) (λ _ _, false) false.

(** Three regions become active; the second is accessed twice. *)
Definition ex_stems_accesses : list (Z * PrefetchInfo) :=
  [(1, ex_stems_access 7 0x1000); (2, ex_stems_access 8 0x2040); (3, ex_stems_access 8 0x2080); (4, ex_stems_access 9 0x5000)].

Lemma ex_stems_full_runs : is_okb (run_accesses full_cache ex_stems_accesses ex_stems) = true.
Proof. by vm_compute. Qed.

Definition ex_stems_full : STeMS unit LRUReplData := (the_result _ ex_stems_full_runs).1.

Lemma ex_stems_full_wf : stems_wf ex_stems_full.
Proof.
  change (pf_inv ex_stems_full). apply (run_result_inv full_cache ex_stems_accesses ex_stems ex_stems_full_runs); [|exact ex_stems_wf].
  repeat (constructor; [by vm_compute|]). constructor.
Qed.

Lemma ex_stems_full_deltas : Forall (delta_ok (stm_cfg ex_stems_full)) (contents (rmob ex_stems_full)).
Proof.
  assert (contents (rmob ex_stems_full) = [mkRMOB 0x10 0x700 0; mkRMOB 0x20 0x801 0; mkRMOB 0x50 0x900 1]) as -> by (vm_compute; reflexivity).
  repeat constructor; by vm_compute.
Qed.

Lemma ex_stems_full_none : no_entries (patternSequenceTable ex_stems_full).
Proof.
  assert (forallb (λ e, negb (te_valid (w_base e))) (t_entries (patternSequenceTable ex_stems_full)) = true) as Hf by by vm_compute.
  rewrite forallb_forall in Hf. apply Forall_forall. intros e He. apply negb_true_iff, Hf. by apply list_elem_of_In.
Qed.


(** The candidates of the example. *)
Example stems_example_triggers :
  ('(_, l) ← stems_calculatePrefetch 5 (ex_stems_access 7 0x1040) full_cache ex_stems_full; Ok l) = Ok [(0x1000, 0); (0x2000, 0); (0x5000, 0)].
Proof. vm_compute. reflexivity. Qed.

Lemma stems_first_block_witness :
  ∃ st' os, run_accesses empty_cache (ex_stems_accesses ++ ex_stems_accesses) ex_stems = Ok (st', os) ∧
    length os = length (ex_stems_accesses ++ ex_stems_accesses) ∧
    Forall (Forall (λ ap, blockAddress ex_stems_base ap.1 = ap.1 - ap.1 mod 256)) os.
Proof.
  exact (stems_first_block empty_cache (ex_stems_accesses ++ ex_stems_accesses) ex_stems ex_stems_wf ltac:(by vm_compute)).
Defined.

(** A recorded generation is replayed in another region, one byte after its start in place of
    one block. *)
Example stems_example_pattern :
  ('(st, _) ← run_accesses full_cache [(1, ex_stems_access 7 0x1000); (2, ex_stems_access 8 0x1040); (3, ex_stems_access 8 0x1040)] ex_stems;
   '(st, _) ← stems_calculatePrefetch 4 (ex_stems_access 9 0x7000) empty_cache st;
   '(_, l) ← stems_calculatePrefetch 5 (ex_stems_access 7 0x3000) full_cache st; Ok l) = Ok [(0x3000, 0); (0x3001, 0)].
Proof. vm_compute. reflexivity. Qed.
