(* ===== verification/PIF.v ===== *)
(** * Proactive instruction fetch

    [src/src/mem/cache/prefetch/pif.{hh,cc}].  The program counters of retired instructions are
    compacted into regions, a trigger with a bit for every block around it, which are
    appended to a history buffer; an index maps the trigger of a region to its place in the
    history.  An access by a trigger starts a stream at that place, and an access to
    a region of a stream moves the stream to the next region.

    An iterator of the history buffer is an index that is never checked against the
    elements: it is modelled as the index, with [None] for the iterator of a fresh
    entry.  The elements the history buffer is created with have an uninitialised trigger,
    the argument [junk] of the constructor.  The bit vectors are shorter than [2 ^ 31],
    which the [int] that runs over them needs. *)

From Stdlib Require Import ZArith Lia.
From stdpp Require Import base numbers option list strings sorting.
From S2P Require Import Prelude IntMath PrefetchBase PrefetchQueue Children.
From S2P Require Import Replacement Indexing AssocCache Tables CircularQueue.
#[local] Open Scope Z_scope.

(** ** Regions *)

Record CompactorEntry := mkCE { trigger : Z; prec : list bool; succ : list bool }.

(** The constructor. *)
Definition ce_at (addr prec_size succ_size : Z) : CompactorEntry :=
  mkCE addr (replicate (Z.to_nat prec_size) false) (replicate (Z.to_nat succ_size) false).

Definition distanceFromTrigger (target log_blk_size : Z) (e : CompactorEntry) : Z :=
  let target_blk := Z.shiftr target log_blk_size in
  let trigger_blk := Z.shiftr (trigger e) log_blk_size in
  if trigger_blk <? target_blk then target_blk - trigger_blk else trigger_blk - target_blk.

Definition inSameSpatialRegion (pc log_blk_size : Z) (update : bool) (e : CompactorEntry) : bool * CompactorEntry :=
  let d := distanceFromTrigger pc log_blk_size e in
  let hit := d <? Z.of_nat (length (if trigger e <? pc then succ e else prec e)) in
  (hit,
   if hit && update then
     if trigger e <? pc then mkCE (trigger e) (prec e) (<[Z.to_nat d := true]> (succ e))
     else if pc <? trigger e then mkCE (trigger e) (<[Z.to_nat d := true]> (prec e)) (succ e)
     else e
   else e).

(** [blk_distance < v.size() && v[blk_distance]]. *)
Definition bit_at (v : list bool) (d : Z) : bool := default false (v !! Z.to_nat d).

Definition hasAddress (target log_blk_size : Z) (e : CompactorEntry) : bool :=
  let d := distanceFromTrigger target log_blk_size e in
  if trigger e <? target then bit_at (succ e) d else if target <? trigger e then bit_at (prec e) d else true.

(** The positions of the bits that are set, from [i] up. *)
Fixpoint set_bits (i : Z) (v : list bool) : list Z :=
  match v with
  | [] => []
  | b :: v => (if b then [i] else []) ++ set_bits (i + 1) v
  end.

Definition getPredictedAddresses (log_blk_size : Z) (e : CompactorEntry) : list AddrPriority :=
  let trigger_blk := Z.shiftr (trigger e) log_blk_size in
  ((λ i, (u64 (Z.shiftl (u64 (trigger_blk - (i + 1))) log_blk_size), 0)) <$> reverse (set_bits 0 (prec e)))
  ++ ((λ i, (u64 (Z.shiftl (u64 (trigger_blk + (i + 1))) log_blk_size), 0)) <$> set_bits 0 (succ e)).

(** ** The prefetcher *)

Record PIFCfg := mkPIFCfg { pif_base : BaseCfg; precSize : Z; succSize : Z; maxCompactorEntries : Z }.

(** [HistoryBuffer::iterator]. *)
Abbreviation HistoryIt := (option nat).

(** [IndexEntry] does not override [invalidate]. *)
#[export] Instance historyIt_reset : Reset HistoryIt := λ it, it.
Abbreviation IndexEntry := (With TaggedEntry HistoryIt).

Record PIF (G R : Type) := mkPIF {
  pif_cfg : PIFCfg;
  spatialCompactor : CompactorEntry;
  temporalCompactor : list CompactorEntry;
  historyBuffer : CircularQueue CompactorEntry;
  pif_index : Tbl TaggedKey IndexEntry G R;
  streamAddressBuffer : CircularQueue HistoryIt
}.
Arguments mkPIF {G R} _ _ _ _ _ _.
Arguments pif_cfg {G R} _.
Arguments spatialCompactor {G R} _.
Arguments temporalCompactor {G R} _.
Arguments historyBuffer {G R} _.
Arguments pif_index {G R} _.
Arguments streamAddressBuffer {G R} _.

(** The first region of the temporal compactor that holds the program counter, and the
    others. *)
Fixpoint find_region (pc log_blk_size : Z) (l : list CompactorEntry) : option (CompactorEntry * list CompactorEntry) :=
  match l with
  | [] => None
  | e :: l =>
      if (inSameSpatialRegion pc log_blk_size false e).1 then Some (e, l)
      else prod_map id (cons e) <$> find_region pc log_blk_size l
  end.

(** [std::deque::pop_front]. *)
Definition pop_front {A} (l : list A) : outcome (list A) :=
  match l with [] => Stop (Panic "pop_front of an empty deque") | _ :: l => Ok l end.

(** The element an iterator of the history buffer points to. *)
Definition history_at (h : CircularQueue CompactorEntry) (it : HistoryIt) : outcome CompactorEntry :=
  match it with Some i => cq_at h i | None => Stop (Panic "null iterator dereferenced") end.

Section PIF.
Context {G R : Type} `{ReplPolicy G R}.
Implicit Types st : PIF G R.

(** A region goes to the history, with an entry of the index for its trigger. *)
Definition record_region (curTick : Z) (e : CompactorEntry) (h : CircularQueue CompactorEntry) (ix : Tbl TaggedKey IndexEntry G R)
    : outcome (CircularQueue CompactorEntry * Tbl TaggedKey IndexEntry G R) :=
  h ← cq_push_back h e;
  '(i, ix) ← t_find_or_insert curTick ix (mkKey (trigger e) false);
  ie ← t_get ix i;
  Ok (h, t_put ix i (mkWith (w_base ie) (Some (cq_tail h)))).

Definition notifyRetiredInst (curTick pc : Z) st : outcome (PIF G R) :=
  let cfg := pif_cfg st in
  let l := lBlkSize (pif_base cfg) in
  let fresh := ce_at pc (precSize cfg) (succSize cfg) in
  match temporalCompactor st with
  | [] => Ok (mkPIF cfg fresh [fresh] (historyBuffer st) (pif_index st) (streamAddressBuffer st))
  | tc =>
      let '(hit, sc) := inSameSpatialRegion pc l true (spatialCompactor st) in
      if hit then Ok (mkPIF cfg sc tc (historyBuffer st) (pif_index st) (streamAddressBuffer st)) else
      let '(sc, tc, is_in_temporal_compactor) :=
        match find_region pc l tc with Some (e, tc) => (e, tc, true) | None => (sc, tc, false) end in
      tc ← (if Z.of_nat (length tc) =? maxCompactorEntries cfg then pop_front tc else Ok tc);
      let tc := tc ++ [sc] in
      if is_in_temporal_compactor then Ok (mkPIF cfg sc tc (historyBuffer st) (pif_index st) (streamAddressBuffer st)) else
      '(h, ix) ← record_region curTick sc (historyBuffer st) (pif_index st);
      Ok (mkPIF cfg fresh tc h ix (streamAddressBuffer st))
  end.

(** The loop over the stream address buffer: the first stream whose region has the address,
    from index [i], with [n] elements to the end. *)
Fixpoint find_stream (pc log_blk_size : Z) (h : CircularQueue CompactorEntry) (sab : CircularQueue HistoryIt) (i n : nat) : outcome (option nat) :=
  match n with
  | O => Ok None
  | S n =>
      it ← cq_at sab i;
      e ← history_at h it;
      if hasAddress pc log_blk_size e then Ok (Some i) else find_stream pc log_blk_size h sab (S i) n
  end.

Definition pif_calculatePrefetch (curTick : Z) (pfi : PrefetchInfo) st : outcome (PIF G R * list AddrPriority) :=
  if negb (pfi_validPC pfi) then Ok (st, []) else
  pc ← getPC pfi;
  let cfg := pif_cfg st in
  let l := lBlkSize (pif_base cfg) in
  let h := historyBuffer st in
  let sab := streamAddressBuffer st in
  o ← find_stream pc l h sab (cq_head sab) (cq_size sab);
  match o with
  | Some i =>
      it ← cq_at sab i;
      let it := S <$> it in
      let sab := cq_put sab i it in
      e ← history_at h it;
      Ok (mkPIF cfg (spatialCompactor st) (temporalCompactor st) h (pif_index st) sab, getPredictedAddresses l e)
  | None =>
      o ← t_findEntry (pif_index st) (mkKey pc (pfi_secure pfi));
      match o with
      | Some i =>
          ix ← t_accessEntry curTick (pif_index st) i;
          ie ← t_get ix i;
          sab ← cq_push_back sab (w_data ie);
          e ← history_at h (w_data ie);
          Ok (mkPIF cfg (spatialCompactor st) (temporalCompactor st) h ix sab, getPredictedAddresses l e)
      | None => Ok (st, [])
      end
  end.

#[export] Instance pif_prefetcher : CalculatePrefetch (PIF G R) :=
  λ curTick pfi _ st, pif_calculatePrefetch curTick pfi st.

(** [junk] is the uninitialised trigger of the spatial compactor and of the history. *)
Definition pif_new (base : BaseCfg) (prec_bits succ_bits compactor_entries history_size sab_entries ix_entries ix_assoc junk : Z)
    (ix_ip : IndexingPolicy TaggedKey) (ix_sets : list (list ref)) (g : G) : outcome (PIF G R) :=
  ix ← t_new ix_ip ix_entries ix_assoc (mkWith te_new None) ix_sets g;
  let e := mkCE junk [] [] in
  Ok (mkPIF (mkPIFCfg base prec_bits succ_bits compactor_entries) e [] (cq_new e (Z.to_nat history_size)) ix
        (cq_new None (Z.to_nat sab_entries))).
End PIF.

(** ** Facts *)

Ltac pif_cbn := cbn [pif_cfg spatialCompactor temporalCompactor historyBuffer pif_index streamAddressBuffer].

(** A valid entry of the index has an iterator. *)
Definition index_ok {G R : Type} `{ReplPolicy G R} (ix : Tbl TaggedKey IndexEntry G R) : Prop :=
  t_ok ix ∧ Forall (λ e, te_valid (w_base e) = true → is_Some (w_data e)) (t_entries ix).

Record pif_wf {G R : Type} `{ReplPolicy G R} (st : PIF G R) : Prop := {
  pw_max : 1 ≤ maxCompactorEntries (pif_cfg st);
  pw_temporal : Z.of_nat (length (temporalCompactor st)) ≤ maxCompactorEntries (pif_cfg st);
  pw_history : cq_wf (historyBuffer st);
  pw_index : index_ok (pif_index st);
  pw_sab : cq_wf (streamAddressBuffer st);
  pw_streams : Forall is_Some (contents (streamAddressBuffer st))
}.

Lemma history_at_ok h it : cq_wf h → is_Some it → ∃ e, history_at h it = Ok e.
Proof. intros Hh [i ->]. by apply cq_at_ok. Qed.

Lemma find_region_split pc l tc e tc' :
  find_region pc l tc = Some (e, tc') →
  ∃ a b, tc = a ++ e :: b ∧ tc' = a ++ b ∧ (inSameSpatialRegion pc l false e).1 = true ∧
    Forall (λ x, (inSameSpatialRegion pc l false x).1 = false) a.
Proof.
  revert tc'. induction tc as [|x tc IH]; intros tc'; cbn [find_region]; [done|]. destruct (inSameSpatialRegion pc l false x).1 eqn:Hx.
  - intros [= <- <-]. by exists [], tc.
  - destruct (find_region pc l tc) as [[e' tc0]|] eqn:Ef; [|done]. intros [= -> <-].
    destruct (IH tc0 eq_refl) as (a & b & -> & -> & He & Ha). exists (x :: a), b. split_and!; [done..|by constructor].
Qed.

Lemma find_region_at pc l a e b :
  (inSameSpatialRegion pc l false e).1 = true → Forall (λ x, (inSameSpatialRegion pc l false x).1 = false) a →
  find_region pc l (a ++ e :: b) = Some (e, a ++ b).
Proof. intros He. induction 1 as [|x a Hx _ IH]; cbn [app find_region]; [by rewrite He|]. by rewrite Hx, IH. Qed.

Lemma find_region_none pc l tc : Forall (λ x, (inSameSpatialRegion pc l false x).1 = false) tc → find_region pc l tc = None.
Proof. induction 1 as [|x tc Hx _ IH]; cbn [find_region]; [done|]. by rewrite Hx, IH. Qed.

Section Facts.
Context {G R : Type} `{RL : ReplLaws G R}.
Implicit Types st : PIF G R.

(** The region is the last of the history, and the index leads its trigger there. *)
Lemma record_region_spec t e h (ix : Tbl TaggedKey IndexEntry G R) :
  cq_wf h → index_ok ix →
  ∃ h' ix', record_region t e h ix = Ok (h', ix') ∧ cq_wf h' ∧ index_ok ix' ∧ cq_at h' (cq_tail h') = Ok e ∧
    ∃ i b, t_found ix' (mkKey (trigger e) false) i (mkWith b (Some (cq_tail h'))).
Proof using RL.
  intros Hh [Hok Hall]. unfold record_region. destruct (cq_push_back_spec h e Hh) as (h' & -> & Hh' & _ & Ec). run_ok.
  destruct (t_find_or_insert_spec t ix (mkKey (trigger e) false) Hok) as (i & T & ie & -> & Hu & _ & Hf & Hcase). run_ok.
  rewrite (t_get_ok T i ie) by apply Hf. run_ok. eexists _, _. split; [done|]. pose proof (t_upd_ok _ _ _ Hu Hok) as HT.
  split_and!; [done|split; [by apply t_put_ok|]| |].
  - rewrite t_put_entries. destruct Hcase as [[_ ->]|(_ & e0 & _ & _ & ->)]; [by apply Forall_insert; [|intros _; eexists]|].
    rewrite list_insert_insert_eq. apply Forall_insert; [done|by intros _; eexists].
  - unfold cq_tail. change (cq_back h' = Ok e). by eapply cq_back_spec.
  - exists i, (w_base ie). by apply (t_put_found T _ i ie).
Qed.

Lemma notify_ok t pc st : pif_wf st → ∃ st', notifyRetiredInst t pc st = Ok st' ∧ pif_wf st' ∧ pif_cfg st' = pif_cfg st.
Proof using RL.
  intros Hwf. pose proof Hwf as [Hm Hl Hh Hi Hs Hss]. unfold notifyRetiredInst.
  destruct (temporalCompactor st) as [|x tc] eqn:Et; [eexists; split; [done|]; split; [by split|done]|].
  destruct (inSameSpatialRegion _ _ true _) as [hit sc]. destruct hit; [eexists; split; [done|]; split; [by split|done]|].
  destruct (find_region _ _ (x :: tc)) as [[e tc']|] eqn:Ef; cbn beta iota.
  - destruct (find_region_split _ _ _ _ _ Ef) as (a & b & Ea & -> & _).
    assert (length (a ++ b) < length (x :: tc))%nat as Hlt by (rewrite Ea, !length_app; cbn; lia).
    rewrite (proj2 (Z.eqb_neq _ _)) by lia. run_ok. eexists. split; [done|]. split; [|done]. split; cbn; try done. rewrite length_app. cbn. lia.
  - destruct (record_region_spec t sc (historyBuffer st) (pif_index st) Hh Hi) as (h' & ix' & E & Hh' & Hi' & _).
    destruct (Z.eqb_spec (Z.of_nat (length (x :: tc))) (maxCompactorEntries (pif_cfg st))) as [Em|Hne]; cbn [pop_front]; run_ok; rewrite E; run_ok;
      (eexists; split; [done|]; split; [|done]; split; cbn; try done; rewrite length_app; cbn in *; lia).
Qed.
Lemma find_stream_ok pc l h sab : cq_wf h → cq_wf sab → Forall is_Some (contents sab) → ∀ n k, (k + n = cq_size sab)%nat →
  ∃ o, find_stream pc l h sab (cq_head sab + k) n = Ok o ∧ ∀ i, o = Some i → ∃ j, i = (cq_head sab + j)%nat ∧ (j < cq_size sab)%nat.
Proof using Type.
  intros Hh Hs Ha n. induction n as [|n IH]; intros k Hk; cbn [find_stream]; [by exists None|].
  destruct (lookup_lt_is_Some_2 (contents sab) k) as [it Hit]; [rewrite contents_length by done; lia|].
  rewrite (contents_at sab k it Hs Hit). run_ok. destruct (history_at_ok h it Hh (Forall_lookup_1 _ _ _ _ Ha Hit)) as [e ->]. run_ok.
  destruct (hasAddress pc l e); [|rewrite <-Nat.add_succ_r; apply IH; lia].
  eexists. split; [done|]. intros i [= <-]. exists k. split; [done|lia].
Qed.

Lemma index_get st i e : index_ok (pif_index st) → t_findEntry (pif_index st) e = Ok (Some i) →
  ∀ t, ∃ ix ie, t_accessEntry t (pif_index st) i = Ok ix ∧ index_ok ix ∧ t_get ix i = Ok ie ∧ is_Some (w_data ie) ∧
    t_entries (pif_index st) !! i = Some ie.
Proof using RL.
  intros [Hok Ha] Hf t. destruct (t_find_total (pif_index st) e Hok) as [E|(j & ie & [E He] & Hm)]; [congruence|].
  rewrite E in Hf. injection Hf as ->. destruct (t_access_spec t _ e i ie Hok (conj E He)) as (ix & -> & Hu & Ee & _).
  exists ix, ie. split_and!; [done|split; [by eapply t_upd_ok|by rewrite Ee]|apply t_get_ok; by rewrite Ee| |done].
  apply (Forall_lookup_1 _ _ _ _ Ha He). cbn in Hm. unfold te_match in Hm. by destruct (te_valid (w_base ie)).
Qed.

Lemma pif_access_ok t pfi st : pif_wf st → ∃ st' l, pif_calculatePrefetch t pfi st = Ok (st', l) ∧ pif_wf st'.
Proof using RL.
  intros Hwf. pose proof Hwf as [Hm Hl Hh Hi Hs Hss]. unfold pif_calculatePrefetch, getPC.
  destruct (pfi_validPC pfi); cbn [negb assert_that mbind outcome_bind]; [|by eexists _, _].
  destruct (find_stream_ok (pfi_pc pfi) (lBlkSize (pif_base (pif_cfg st))) _ _ Hh Hs Hss (cq_size (streamAddressBuffer st)) 0 eq_refl) as (o & E & Ho).
  rewrite Nat.add_0_r in E. rewrite E. run_ok. destruct o as [i|].
  - destruct (Ho i eq_refl) as (j & -> & Hj). destruct (lookup_lt_is_Some_2 (contents (streamAddressBuffer st)) j) as [it Hit]; [by rewrite contents_length|].
    rewrite (contents_at _ j it Hs Hit). run_ok. destruct (Forall_lookup_1 _ _ _ _ Hss Hit) as [p ->]. cbn [fmap option_fmap option_map].
    destruct (history_at_ok (historyBuffer st) (Some (S p)) Hh ltac:(by eexists)) as [e ->]. run_ok. eexists _, _. split; [done|]. split; pif_cbn; try done.
    + by apply cq_put_wf.
    + rewrite cq_put_contents by done. apply Forall_insert; [done|by eexists].
  - destruct (t_find_total (pif_index st) (mkKey (pfi_pc pfi) (pfi_secure pfi)) (proj1 Hi)) as [->|(i & ie & [E' _] & _)]; [run_ok; by eexists _, _|].
    rewrite E'. run_ok. destruct (index_get st i _ Hi E' t) as (ix & ie' & -> & Hi' & E2 & Hsome & _). run_ok. rewrite E2. run_ok.
    destruct (cq_push_back_spec (streamAddressBuffer st) (w_data ie') Hs) as (q & -> & Hq & _ & Ec). run_ok.
    destruct (history_at_ok (historyBuffer st) (w_data ie') Hh Hsome) as [e ->]. run_ok. eexists _, _. split; [done|]. split; pif_cbn; try done.
    rewrite Ec. unfold bounded_push. apply Forall_app. split; [|by constructor]. destruct (_ =? _)%nat; [by apply Forall_drop|done].
Qed.
End Facts.

#[export] Instance pif_safe {G R : Type} `{RL : ReplLaws G R} : SafePrefetcher (PIF G R).
Proof. refine {| pf_inv := pif_wf |}. intros t pfi cache st _ Hst. exact (pif_access_ok t pfi st Hst). Defined.

Lemma pif_new_wf {G R : Type} `{RL : ReplLaws G R} base prec succ max hist sab ie ia junk ix sets (g : G) :
  (∀ g, is_ok (rp_instantiate (R := R) g)) → 1 ≤ max → 0 < hist → 0 < sab →
  0 < ia < 2 ^ 32 → 0 ≤ ie < 2 ^ 32 → ie mod ia = 0 → indexing_new ia ie 0 = Ok (ix, sets) →
  ∃ st : PIF G R, pif_new base prec succ max hist sab ie ia junk (TaggedSetAssociative ix) sets g = Ok st ∧ pif_wf st.
Proof.
  intros Hi Hm Hh Hs Hia Hie Hd E. unfold pif_new.
  destruct (t_new_fills ia ie 0 ix sets (mkWith te_new None) g Hi (Z.le_refl 0) Hia Hie Hd E) as (T & -> & HT & _ & ET & _). run_ok.
  eexists. split; [done|]. split; cbn; try done; try lia; [apply cq_new_wf; lia| |apply cq_new_wf; lia].
  split; [done|]. rewrite ET. by apply Forall_replicate.
Qed.

(** ** What a region records *)

Lemma set_bits_elem v : ∀ i d, d ∈ set_bits i v ↔ i ≤ d ∧ v !! Z.to_nat (d - i) = Some true.
Proof.
  induction v as [|b v IH]; intros i d; cbn [set_bits]; [rewrite elem_of_nil; by split; [|intros [_ [=]]]|].
  rewrite elem_of_app, IH. destruct (decide (d = i)) as [->|Hne].
  - rewrite Z.sub_diag. cbn. destruct b; split.
    + intros _. by split; [lia|].
    + intros _. left. left.
    + intros [?%elem_of_nil|[? _]]; [done|lia].
    + by intros [_ [=]].
  - split.
    + intros [Hb|[Hd Hv]]; [destruct b; [apply list_elem_of_singleton in Hb; done|by apply elem_of_nil in Hb]|].
      split; [lia|]. replace (Z.to_nat (d - i)) with (S (Z.to_nat (d - (i + 1)))) by lia. done.
    + intros [Hd Hv]. right. split; [lia|]. replace (Z.to_nat (d - i)) with (S (Z.to_nat (d - (i + 1)))) in Hv by lia. done.
Qed.

Lemma set_bits_sorted v : ∀ i, StronglySorted Z.lt (set_bits i v).
Proof.
  induction v as [|b v IH]; intros i; cbn [set_bits]; [constructor|]. destruct b; cbn [app]; [|apply IH].
  constructor; [apply IH|]. apply Forall_forall. intros d Hd. apply set_bits_elem in Hd. lia.
Qed.

(** One retired instruction of the region. *)
Lemma distance_nonneg p l e : 0 ≤ distanceFromTrigger p l e.
Proof. unfold distanceFromTrigger. destruct (Z.ltb_spec (Z.shiftr (trigger e) l) (Z.shiftr p l)); lia. Qed.

Definition same_shape (e e' : CompactorEntry) : Prop :=
  trigger e' = trigger e ∧ length (prec e') = length (prec e) ∧ length (succ e') = length (succ e).

Lemma same_shape_region e e' p l u : same_shape e e' →
  (inSameSpatialRegion p l u e').1 = (inSameSpatialRegion p l u e).1 ∧ distanceFromTrigger p l e' = distanceFromTrigger p l e.
Proof. intros (E1 & E2 & E3). unfold inSameSpatialRegion, distanceFromTrigger. cbn. rewrite !E1. split; [|done]. f_equal. by destruct (_ <? p); rewrite ?E2, ?E3. Qed.

Lemma mark_bit (v : list bool) d n : (d < length v)%nat → <[d := true]> v !! n = Some true ↔ v !! n = Some true ∨ n = d.
Proof.
  intros Hd. destruct (decide (n = d)) as [->|Hne]; [rewrite list_lookup_insert_eq by done; tauto|]. rewrite list_lookup_insert_ne by done. tauto.
Qed.

Lemma update_bits p l e :
  (inSameSpatialRegion p l true e).1 = true →
  let e' := (inSameSpatialRegion p l true e).2 in
  let d := distanceFromTrigger p l e in
  same_shape e e' ∧
  (∀ n, succ e' !! n = Some true ↔ succ e !! n = Some true ∨ trigger e < p ∧ d = Z.of_nat n) ∧
  (∀ n, prec e' !! n = Some true ↔ prec e !! n = Some true ∨ p < trigger e ∧ d = Z.of_nat n).
Proof.
  intros Hhit e' d. pose proof (distance_nonneg p l e) as Hd0. fold d in Hd0.
  assert (d < Z.of_nat (length (if trigger e <? p then succ e else prec e))) as Hlt by (apply Z.ltb_lt; exact Hhit).
  assert (e' = if trigger e <? p then mkCE (trigger e) (prec e) (<[Z.to_nat d := true]> (succ e))
               else if p <? trigger e then mkCE (trigger e) (<[Z.to_nat d := true]> (prec e)) (succ e) else e) as ->.
  { unfold e', inSameSpatialRegion. cbn [snd]. fold d. by rewrite (proj2 (Z.ltb_lt _ _) Hlt). }
  destruct (Z.ltb_spec (trigger e) p); [|destruct (Z.ltb_spec p (trigger e))]; (split; [by split_and!; cbn; rewrite ?length_insert|]);
    cbn [succ prec]; split; intros n; rewrite ?mark_bit by lia; split; intros; intuition lia.
Qed.

(** The region after a list of them. *)
Definition record_all (l : Z) (ps : list Z) (e : CompactorEntry) : CompactorEntry :=
  foldl (λ e p, (inSameSpatialRegion p l true e).2) e ps.

Lemma record_all_bits l ps : ∀ e, Forall (λ p, (inSameSpatialRegion p l true e).1 = true) ps →
  let e' := record_all l ps e in
  same_shape e e' ∧
  (∀ n, succ e' !! n = Some true ↔ succ e !! n = Some true ∨ ∃ p, p ∈ ps ∧ trigger e < p ∧ distanceFromTrigger p l e = Z.of_nat n) ∧
  (∀ n, prec e' !! n = Some true ↔ prec e !! n = Some true ∨ ∃ p, p ∈ ps ∧ p < trigger e ∧ distanceFromTrigger p l e = Z.of_nat n).
Proof.
  induction ps as [|p ps IH]; intros e Hps; cbn [record_all foldl].
  { split_and!; [done|..]; intros n; (split; [by left|intros [?|(? & []%elem_of_nil & _)]; done]). }
  apply Forall_cons in Hps as [Hp Hps]. destruct (update_bits p l e Hp) as (Hs & H1 & H2). set (e1 := (inSameSpatialRegion p l true e).2) in *.
  destruct (IH e1) as (Hs' & H3 & H4).
  { eapply Forall_impl; [exact Hps|]. intros q Hq. by rewrite (proj1 (same_shape_region e e1 q l true Hs)). }
  change (foldl _ e1 ps) with (record_all l ps e1). destruct Hs as (E1 & E2 & E3) eqn:EHs. clear EHs.
  assert (∀ q, distanceFromTrigger q l e1 = distanceFromTrigger q l e) as Ed by (intros q; by apply (same_shape_region e e1 q l true)).
  split_and!.
  - destruct Hs' as (F1 & F2 & F3). split_and!; by etrans.
  - intros n. rewrite H3, H1, E1. setoid_rewrite Ed. setoid_rewrite elem_of_cons. naive_solver.
  - intros n. rewrite H4, H2, E1. setoid_rewrite Ed. setoid_rewrite elem_of_cons. naive_solver.
Qed.

(** The bits set in a vector that was clear. *)
Lemma set_bits_recorded v k (Q : Z → Prop) : (∀ d, Q d → 0 ≤ d) →
  (∀ n, v !! n = Some true ↔ replicate k false !! n = Some true ∨ Q (Z.of_nat n)) → ∀ d, d ∈ set_bits 0 v ↔ Q d.
Proof.
  intros HQ Hv d. rewrite set_bits_elem, Z.sub_0_r, Hv. split.
  - intros [Hd [[[=] _]%lookup_replicate|Hq]]. by rewrite Z2Nat.id in Hq.
  - intros Hq. pose proof (HQ d Hq). split; [done|]. right. by rewrite Z2Nat.id.
Qed.

(** ** Theorems *)

Section Retire.
Context {G R : Type} `{RL : ReplLaws G R}.
Implicit Types st : PIF G R.

(** Instructions retired one after the other, each with its time. *)
Fixpoint retire_all (l : list (Z * Z)) st : outcome (PIF G R) :=
  match l with
  | [] => Ok st
  | (t, pc) :: l => st ← notifyRetiredInst t pc st; retire_all l st
  end.

Lemma retire_all_ok l : ∀ st, pif_wf st → ∃ st', retire_all l st = Ok st' ∧ pif_wf st'.
Proof using RL.
  induction l as [|[t p] l IH]; intros st Hst; cbn [retire_all]; [by exists st|]. destruct (notify_ok t p st Hst) as (st1 & -> & Hst1 & _). run_ok. by apply IH.
Qed.

Abbreviation lb st := (lBlkSize (pif_base (pif_cfg st))).

(** Those of the region of the spatial compactor only change its bits. *)
Lemma retire_region l : ∀ st, temporalCompactor st ≠ [] →
  Forall (λ p, (inSameSpatialRegion p (lb st) true (spatialCompactor st)).1 = true) l.*2 →
  ∀ k, retire_all (l ++ k) st =
    retire_all k (mkPIF (pif_cfg st) (record_all (lb st) l.*2 (spatialCompactor st)) (temporalCompactor st) (historyBuffer st) (pif_index st)
      (streamAddressBuffer st)).
Proof using Type.
  clear RL. induction l as [|[t p] l IH]; intros st Ht Hl k; [by destruct st|]. cbn [fmap list_fmap snd] in Hl. apply Forall_cons in Hl as [Hp Hl].
  cbn [app retire_all]. unfold notifyRetiredInst at 1. destruct (temporalCompactor st) as [|x tc] eqn:Et; [done|].
  destruct (update_bits p (lb st) (spatialCompactor st) Hp) as (Hs & _).
  destruct (inSameSpatialRegion p (lb st) true (spatialCompactor st)) as [hit sc] eqn:Es. cbn [fst snd] in *. subst hit. run_ok.
  rewrite IH; pif_cbn; [|done|].
  - cbn [fmap list_fmap snd record_all foldl]. by rewrite Es.
  - eapply Forall_impl; [exact Hl|]. intros q Hq. by rewrite (proj1 (same_shape_region _ _ q (lb st) true Hs)).
Qed.

(** The first instruction of another region sends the region to the history. *)
Lemma retire_leaves t p st : pif_wf st → temporalCompactor st ≠ [] →
  (inSameSpatialRegion p (lb st) true (spatialCompactor st)).1 = false →
  Forall (λ x, (inSameSpatialRegion p (lb st) false x).1 = false) (temporalCompactor st) →
  ∃ tc h ix i b, notifyRetiredInst t p st = Ok (mkPIF (pif_cfg st) (ce_at p (precSize (pif_cfg st)) (succSize (pif_cfg st))) tc h ix (streamAddressBuffer st)) ∧
    cq_wf h ∧ index_ok ix ∧ cq_at h (cq_tail h) = Ok (spatialCompactor st) ∧
    t_found ix (mkKey (trigger (spatialCompactor st)) false) i (mkWith b (Some (cq_tail h))).
Proof using RL.
  intros [Hm Hl Hh Hi Hs Hss] Ht Hp Hnone. unfold notifyRetiredInst. destruct (temporalCompactor st) as [|x tc] eqn:Et; [done|].
  destruct (inSameSpatialRegion p (lb st) true (spatialCompactor st)) as [hit sc] eqn:Es. cbn [fst] in Hp. subst hit.
  assert (sc = spatialCompactor st) as ->. { unfold inSameSpatialRegion in Es. injection Es as E1 E2. rewrite E1 in E2. by rewrite <-E2. }
  rewrite (find_region_none _ _ _ Hnone). cbn beta iota.
  destruct (record_region_spec t (spatialCompactor st) (historyBuffer st) (pif_index st) Hh Hi) as (h & ix & E & Hh' & Hi' & Hat & i & b & Hf).
  destruct (_ =? _); cbn [pop_front]; run_ok; rewrite E; run_ok; by eexists _, h, ix, i, b.
Qed.

(** With no stream active, an access by a trigger proposes the region the index leads to. *)
Lemma pif_starts_stream t pfi st i b n e : pif_wf st → contents (streamAddressBuffer st) = [] → pfi_validPC pfi = true →
  t_found (pif_index st) (mkKey (pfi_pc pfi) (pfi_secure pfi)) i (mkWith b (Some n)) → cq_at (historyBuffer st) n = Ok e →
  ∃ st', pif_calculatePrefetch t pfi st = Ok (st', getPredictedAddresses (lb st) e).
Proof using RL.
  intros [Hm Hl Hh Hi Hs Hss] Hc Hpc [Hf He] Hat. unfold pif_calculatePrefetch, getPC. rewrite Hpc. cbn [negb assert_that mbind outcome_bind].
  rewrite <-contents_length, Hc by done. cbn [length find_stream]. run_ok. rewrite Hf. run_ok.
  destruct (index_get st i _ Hi Hf t) as (ix & ie & -> & _ & E2 & _ & E3). run_ok. rewrite E2. run_ok. rewrite He in E3. injection E3 as <-. cbn [w_data].
  destruct (cq_push_back_spec (streamAddressBuffer st) (Some n) Hs) as (q & -> & _). run_ok. cbn [history_at]. rewrite Hat. run_ok. by eexists.
Qed.
End Retire.

(** A recorded region is predicted one block too far.  Instructions of one region retire,
    then one outside of the regions the compactors hold.  An access by the instruction that
    started the region, with no stream active, then proposes for every block of the region
    executed at a distance [d] after, or before, the trigger the block at distance [d + 1],
    in ascending order of the blocks, and nothing else. *)
Theorem pif_predicts_shifted {G R : Type} `{RL : ReplLaws G R} (st : PIF G R) x ps t out pfi t' :
  let cfg := pif_cfg st in
  let l := lBlkSize (pif_base cfg) in
  let region := ce_at x (precSize cfg) (succSize cfg) in
  pif_wf st → temporalCompactor st ≠ [] → spatialCompactor st = region → contents (streamAddressBuffer st) = [] →
  Forall (λ p, (inSameSpatialRegion p l true region).1 = true) ps.*2 →
  (inSameSpatialRegion out l true region).1 = false →
  Forall (λ e, (inSameSpatialRegion out l false e).1 = false) (temporalCompactor st) →
  pfi_validPC pfi = true → pfi_pc pfi = x → pfi_secure pfi = false →
  ∃ st1 st2 Dp Ds, retire_all (ps ++ [(t, out)]) st = Ok st1 ∧
    pif_calculatePrefetch t' pfi st1 =
      Ok (st2, ((λ d, (u64 (Z.shiftl (u64 (Z.shiftr x l - (d + 1))) l), 0)) <$> reverse Dp)
               ++ ((λ d, (u64 (Z.shiftl (u64 (Z.shiftr x l + (d + 1))) l), 0)) <$> Ds)) ∧
    StronglySorted Z.lt Dp ∧ StronglySorted Z.lt Ds ∧
    (∀ d, d ∈ Dp ↔ ∃ p, p ∈ ps.*2 ∧ p < x ∧ distanceFromTrigger p l region = d) ∧
    (∀ d, d ∈ Ds ↔ ∃ p, p ∈ ps.*2 ∧ x < p ∧ distanceFromTrigger p l region = d).
Proof.
  intros cfg l region Hwf Ht Esc Hsab Hps Hout Hnone Hpc Ex Hsec. pose proof (record_all_bits l ps.*2 region Hps) as (Hs & Hsucc & Hprec).
  set (e := record_all l ps.*2 region) in *. rewrite (retire_region ps st Ht) by by rewrite Esc. rewrite Esc. fold cfg l e.
  set (st0 := mkPIF cfg e (temporalCompactor st) (historyBuffer st) (pif_index st) (streamAddressBuffer st)).
  assert (pif_wf st0) as Hwf0 by (by destruct Hwf; split).
  destruct (retire_leaves t out st0 Hwf0) as (tc & h & ix & i & b & E & Hh & Hi & Hat & Hf);
    [done|change ((inSameSpatialRegion out l true e).1 = false); by rewrite (proj1 (same_shape_region _ _ out l true Hs))|done|].
  set (st1 := mkPIF _ _ tc h ix _) in E. destruct (notify_ok t out st0 Hwf0) as (st1' & E' & Hwf1 & _). rewrite E in E'. injection E' as <-.
  assert (trigger e = x) as Etr by apply Hs. change (spatialCompactor st0) with e in Hat, Hf. rewrite Etr, <-Ex, <-Hsec in Hf.
  destruct (pif_starts_stream t' pfi st1 i b (cq_tail h) e Hwf1 Hsab Hpc Hf Hat) as (st2 & E2).
  exists st1, st2, (set_bits 0 (prec e)), (set_bits 0 (succ e)). cbn [retire_all]. rewrite E. split; [done|].
  split; [rewrite E2; unfold getPredictedAddresses; by rewrite Etr|]. split; [apply set_bits_sorted|]. split; [apply set_bits_sorted|].
  split; [refine (set_bits_recorded _ _ (λ d, ∃ p, p ∈ ps.*2 ∧ p < x ∧ distanceFromTrigger p l region = d) _ Hprec)
         |refine (set_bits_recorded _ _ (λ d, ∃ p, p ∈ ps.*2 ∧ x < p ∧ distanceFromTrigger p l region = d) _ Hsucc)];
    intros d (p & _ & _ & <-); apply distance_nonneg.
Qed.

(** A region that is left for one of the temporal compactor is lost.  When the retired
    instruction belongs to another region that the temporal compactor holds, that region
    becomes the current one and the most recent of the compactor; what the current region
    had recorded is in neither compactor, the history nor the index. *)
Theorem pif_region_lost {G R : Type} `{RL : ReplLaws G R} (st : PIF G R) t p a e b :
  let l := lBlkSize (pif_base (pif_cfg st)) in
  pif_wf st → temporalCompactor st = a ++ e :: b →
  (inSameSpatialRegion p l true (spatialCompactor st)).1 = false →
  Forall (λ x, (inSameSpatialRegion p l false x).1 = false) a → (inSameSpatialRegion p l false e).1 = true →
  notifyRetiredInst t p st =
    Ok (mkPIF (pif_cfg st) e (a ++ b ++ [e]) (historyBuffer st) (pif_index st) (streamAddressBuffer st)).
Proof.
  intros l [Hm Hl _ _ _ _] Et Hp Ha He. unfold notifyRetiredInst. fold l. rewrite Et in Hl. rewrite Et.
  destruct (a ++ e :: b) as [|x tc] eqn:Eab; [by destruct a|].
  destruct (inSameSpatialRegion p l true (spatialCompactor st)) as [hit sc]. cbn [fst] in Hp. subst hit.
  rewrite <-Eab, find_region_at by done. cbn beta iota. rewrite <-Eab, !length_app in Hl. cbn [length] in Hl.
  rewrite (proj2 (Z.eqb_neq _ _)) by (rewrite length_app; lia). run_ok. by rewrite <-app_assoc.
Qed.

(** *** Examples *)

Definition ex_pif_base : BaseCfg := mkBaseCfg 64 6 true true true true true 0 4096 true false false.

Definition ex_pif_new : outcome (PIF unit LRUReplData) :=
  pif_new ex_pif_base 2 8 2 16 7 4 4 0 (TaggedSetAssociative (mkIndexing 4 1 0 0 0)) [[None; None; None; None]] tt.

Lemma ex_pif_runs : is_okb ex_pif_new = true.
Proof. by vm_compute. Qed.

Definition ex_pif : PIF unit LRUReplData := the_result ex_pif_new ex_pif_runs.

Lemma ex_pif_wf : pif_wf ex_pif.
Proof.
  destruct (pif_new_wf (G := unit) (R := LRUReplData) ex_pif_base 2 8 2 16 7 4 4 0 (mkIndexing 4 1 0 0 0) [[None; None; None; None]] tt)
    as (st & E & Hst); [by intros; eexists|lia|lia|lia|lia|lia|done|by vm_compute|].
  change (ex_pif_new = Ok st) in E. rewrite (the_result_ok _ ex_pif_runs) in E. by injection E as <-.
Qed.

Definition ex_pif_access (pc : Z) : PrefetchInfo := mkPfi pc pc 0 true false 8 false pc true None.

(** The first instruction. *)
Lemma ex_pif_first_runs : is_okb (retire_all [(1, 0x1000)] ex_pif) = true.
Proof. by vm_compute. Qed.

Definition ex_pif_first : PIF unit LRUReplData := the_result _ ex_pif_first_runs.

Lemma ex_pif_first_wf : pif_wf ex_pif_first.
Proof.
  destruct (retire_all_ok [(1, 0x1000)] ex_pif ex_pif_wf) as (st & E & Hst). rewrite (the_result_ok _ ex_pif_first_runs) in E. by injection E as <-.
Qed.

Lemma pif_predicts_shifted_witness :
  ∃ st1 st2 Dp Ds, retire_all ([(2, 0x1004); (3, 0x10c0); (4, 0xfc0)] ++ [(5, 0x9000)]) ex_pif_first = Ok st1 ∧
    pif_calculatePrefetch 6 (ex_pif_access 0x1000) st1 =
      Ok (st2, ((λ d, (u64 (Z.shiftl (u64 (Z.shiftr 0x1000 6 - (d + 1))) 6), 0)) <$> reverse Dp)
               ++ ((λ d, (u64 (Z.shiftl (u64 (Z.shiftr 0x1000 6 + (d + 1))) 6), 0)) <$> Ds)) ∧
    StronglySorted Z.lt Dp ∧ StronglySorted Z.lt Ds ∧
    (∀ d, d ∈ Dp ↔ ∃ p, p ∈ [0x1004; 0x10c0; 0xfc0] ∧ p < 0x1000 ∧ distanceFromTrigger p 6 (ce_at 0x1000 2 8) = d) ∧
    (∀ d, d ∈ Ds ↔ ∃ p, p ∈ [0x1004; 0x10c0; 0xfc0] ∧ 0x1000 < p ∧ distanceFromTrigger p 6 (ce_at 0x1000 2 8) = d).
Proof.
  apply (pif_predicts_shifted ex_pif_first 0x1000 [(2, 0x1004); (3, 0x10c0); (4, 0xfc0)] 5 0x9000 (ex_pif_access 0x1000) 6 ex_pif_first_wf).
  - by vm_compute.
  - by vm_compute.
  - by vm_compute.
  - repeat (constructor; [by vm_compute|]). constructor.
  - by vm_compute.
  - repeat (constructor; [by vm_compute|]). constructor.
  - done.
  - done.
  - done.
Defined.

(** The region had the blocks at distances 0 and 3 after the trigger and 1 before. *)
Example pif_example_shifted :
  (st ← retire_all [(2, 0x1004); (3, 0x10c0); (4, 0xfc0); (5, 0x9000)] ex_pif_first;
   '(_, c) ← pif_calculatePrefetch 6 (ex_pif_access 0x1000) st; Ok c) = Ok [(0xf80, 0); (0x1040, 0); (0x1100, 0)].
Proof. vm_compute. reflexivity. Qed.

(** A second region, in which the block after the trigger was executed. *)
Lemma ex_pif_second_runs : is_okb (retire_all [(2, 0x9000); (3, 0x9040)] ex_pif_first) = true.
Proof. by vm_compute. Qed.

Definition ex_pif_second : PIF unit LRUReplData := the_result _ ex_pif_second_runs.

Lemma ex_pif_second_wf : pif_wf ex_pif_second.
Proof.
  destruct (retire_all_ok [(2, 0x9000); (3, 0x9040)] ex_pif_first ex_pif_first_wf) as (st & E & Hst).
  rewrite (the_result_ok _ ex_pif_second_runs) in E. by injection E as <-.
Qed.

Lemma pif_region_lost_witness :
  bit_at (succ (spatialCompactor ex_pif_second)) 1 = true ∧
  notifyRetiredInst 4 0x1080 ex_pif_second =
    Ok (mkPIF (pif_cfg ex_pif_second) (ce_at 0x1000 2 8) ([] ++ [ce_at 0x1000 2 8] ++ [ce_at 0x1000 2 8]) (historyBuffer ex_pif_second)
      (pif_index ex_pif_second) (streamAddressBuffer ex_pif_second)).
Proof.
  split; [by vm_compute|].
  apply (pif_region_lost ex_pif_second 4 0x1080 [] (ce_at 0x1000 2 8) [ce_at 0x1000 2 8] ex_pif_second_wf).
  - vm_compute. reflexivity.
  - by vm_compute.
  - constructor.
  - by vm_compute.
Defined.
