(* ===== verification/IndirectMemory.v ===== *)
(** * The indirect memory prefetcher

    [src/src/mem/cache/prefetch/indirect_memory.{hh,cc}].  A table follows the stream of
    addresses of every program counter.  The values a stream reads are taken for the
    indices of another array: the pattern detector combines two of them with the addresses
    of the misses that follow, and when one base address and one shift explain a miss
    after each of the two, the stream gets both and its next values are turned into
    candidates.

    Two things the C++ code leaves open are arguments of the model, kept in the
    configuration: the address of an entry of the prefetch table, by which the
    detector is indexed and which it casts back to a pointer, and the value of a left shift
    by a negative amount or by the width of the operand and more. *)

From Stdlib Require Import ZArith Lia.
From stdpp Require Import base numbers option list strings.
From S2P Require Import Prelude Double SatCounter PrefetchBase PrefetchQueue Children QTable.
From S2P Require Import Replacement Indexing AssocCache Tables.
#[local] Open Scope Z_scope.

(** ** Data *)

Record PTMembers := mkPT {
  pt_address : Z;
  pt_secure : bool;
  streamCounter : Z;
  enabled : bool;
  pt_index : Z;
  pt_baseAddr : Z;
  pt_shift : Z;
  indirectCounter : SatCounter;
  increasedIndirectCounter : bool
}.

#[export] Instance pt_reset : Reset PTMembers :=
  λ m, mkPT 0 false 0 false 0 0 0 (sat_reset (indirectCounter m)) false.

Record IPDMembers := mkIPD {
  idx1 : Z;
  idx2 : Z;
  secondIndexSet : bool;
  numMisses : Z;
  ipd_baseAddr : list (list Z)
}.

(** [invalidate] keeps the recorded addresses. *)
#[export] Instance ipd_reset : Reset IPDMembers := λ m, mkIPD 0 0 false 0 (ipd_baseAddr m).

Abbreviation PrefetchTableEntry := (With TaggedEntry PTMembers).
Abbreviation IndirectPatternDetectorEntry := (With TaggedEntry IPDMembers).

Inductive ByteOrder := big | little.

Record IMCfg := mkIMCfg {
  im_base : BaseCfg;
  maxPrefetchDistance : Z;
  shiftValues : list Z;
  prefetchThreshold : Z;
  streamCounterThreshold : Z;
  streamingDistance : Z;
  byteOrder : ByteOrder;
  pointer : nat → Z;
  shl_undefined : Z → Z → Z
}.

Record IndirectMemory (G R : Type) := mkIM {
  im_cfg : IMCfg;
  prefetchTable : Tbl TaggedKey PrefetchTableEntry G R;
  ipd : Tbl TaggedKey IndirectPatternDetectorEntry G R;
  ipdEntryTrackingMisses : option nat
}.
Arguments mkIM {G R} _ _ _ _.
Arguments im_cfg {G R} _.
Arguments prefetchTable {G R} _.
Arguments ipd {G R} _.
Arguments ipdEntryTrackingMisses {G R} _.

(** [x << shift] for an [int64_t]. *)
Definition shl64 (cfg : IMCfg) (x shift : Z) : Z :=
  if (0 <=? shift) && (shift <? 64) then i64 (Z.shiftl x shift) else shl_undefined cfg x shift.

(** The base address for which [index] and [shift] give [addr]. *)
Definition base_for (cfg : IMCfg) (addr index shift : Z) : Z := u64 (addr - shl64 cfg index shift).

(** [baseAddr + (index << shift)]. *)
Definition indirect_addr (cfg : IMCfg) (m : PTMembers) : Z := u64 (pt_baseAddr m + shl64 cfg (pt_index m) (pt_shift m)).

(** [PrefetchInfo::get<T>] for a [T] of [n] bytes. *)
Definition pfi_get (order : ByteOrder) (n : nat) (pfi : PrefetchInfo) : outcome Z :=
  match pfi_data pfi with
  | None => Stop (Panic "PrefetchInfo::get called with a request with no data.")
  | Some bs => Ok (of_le (match order with big => reverse (take n bs) | little => take n bs end))
  end.

(** The switch over the size of the access: the index that was read. *)
Definition read_index (order : ByteOrder) (pfi : PrefetchInfo) : outcome (option Z) :=
  if pfi_size pfi =? 1 then v ← pfi_get order 1 pfi; Ok (Some v)
  else if pfi_size pfi =? 2 then v ← pfi_get order 2 pfi; Ok (Some v)
  else if pfi_size pfi =? 4 then v ← pfi_get order 4 pfi; Ok (Some v)
  else if pfi_size pfi =? 8 then v ← pfi_get order 8 pfi; Ok (Some (i64 v))
  else Ok None.

(** ** The pattern detector *)

Section IM.
Context {G R : Type} `{ReplPolicy G R}.
Abbreviation PT := (Tbl TaggedKey PrefetchTableEntry G R).
Abbreviation IPD := (Tbl TaggedKey IndirectPatternDetectorEntry G R).
Implicit Types st : IndirectMemory G R.

(** The detector and the tracked entry, after the value [index] was read by the stream of
    entry [i] of the prefetch table. *)
Definition allocateOrUpdateIPDEntry (curTick : Z) (cfg : IMCfg) (i : nat) (index : Z) (T : IPD) : outcome (IPD * option nat) :=
  let key := mkKey (pointer cfg i) false in
  o ← t_findEntry T key;
  match o with
  | Some j =>
      T ← t_accessEntry curTick T j;
      e ← t_get T j;
      let m := w_data e in
      if negb (secondIndexSet m) then
        Ok (t_put T j (mkWith (w_base e) (mkIPD (idx1 m) index true (numMisses m) (ipd_baseAddr m))), Some j)
      else T ← t_invalidate T j; Ok (T, None)
  | None =>
      '(j, T) ← t_findVictim T key;
      T ← t_insertEntry curTick T key j;
      e ← t_get T j;
      let m := w_data e in
      Ok (t_put T j (mkWith (w_base e) (mkIPD index (idx2 m) (secondIndexSet m) (numMisses m) (ipd_baseAddr m))), Some j)
  end.

(** A miss with [entry j] tracked, before and after its second index is set. *)
Definition trackMissIndex1 (cfg : IMCfg) (miss_addr : Z) (j : nat) (T : IPD) : outcome (IPD * option nat) :=
  e ← t_get T j;
  let m := w_data e in
  let n := Z.of_nat (length (ipd_baseAddr m)) in
  _ ← assert_that (numMisses m <? n) "entry->numMisses < entry->baseAddr.size()";
  let row := base_for cfg miss_addr (idx1 m) <$> shiftValues cfg in
  let m := mkIPD (idx1 m) (idx2 m) (secondIndexSet m) (numMisses m + 1) (<[Z.to_nat (numMisses m) := row]> (ipd_baseAddr m)) in
  Ok (t_put T j (mkWith (w_base e) m), if numMisses m =? n then None else Some j).

(** The first base address and shift of a row that explain the miss as well. *)
Fixpoint match_row (cfg : IMCfg) (miss_addr index : Z) (row shifts : list Z) : option (Z * Z) :=
  match row, shifts with
  | b :: row, s :: shifts => if b =? base_for cfg miss_addr index s then Some (b, s) else match_row cfg miss_addr index row shifts
  | _, _ => None
  end.

Fixpoint match_rows (cfg : IMCfg) (miss_addr index : Z) (rows : list (list Z)) : option (Z * Z) :=
  match rows with
  | [] => None
  | row :: rows =>
      match match_row cfg miss_addr index row (shiftValues cfg) with
      | Some p => Some p
      | None => match_rows cfg miss_addr index rows
      end
  end.

(** The entry a pointer points to. *)
Definition entry_at (cfg : IMCfg) (p : Z) (T : PT) : outcome nat :=
  match List.find (λ i, pointer cfg i =? p) (t_indices T) with
  | Some i => Ok i
  | None => Stop (Panic "pointer to no entry")
  end.

Definition enable (m : PTMembers) (base shift : Z) : PTMembers :=
  mkPT (pt_address m) (pt_secure m) (streamCounter m) true (pt_index m) base shift (sat_reset (indirectCounter m)) (increasedIndirectCounter m).

Definition trackMissIndex2 (cfg : IMCfg) (miss_addr : Z) (j : nat) (P : PT) (T : IPD) : outcome (PT * IPD * option nat) :=
  e ← t_get T j;
  let m := w_data e in
  match match_rows cfg miss_addr (idx2 m) (take (Z.to_nat (numMisses m)) (ipd_baseAddr m)) with
  | Some (base, shift) =>
      i ← entry_at cfg (te_tag (w_base e)) P;
      pe ← t_get P i;
      let P := t_put P i (mkWith (w_base pe) (enable (w_data pe) base shift)) in
      T ← t_invalidate T j;
      Ok (P, T, None)
  | None => Ok (P, T, Some j)
  end.

(** ** Accesses *)

(** One entry of the loop of [checkAccessMatchOnActiveEntries]. *)
Definition check_access (cfg : IMCfg) (addr : Z) (m : PTMembers) : PTMembers :=
  if enabled m && (addr =? indirect_addr cfg m) then
    mkPT (pt_address m) (pt_secure m) (streamCounter m) (enabled m) (pt_index m) (pt_baseAddr m) (pt_shift m)
      (sat_inc (indirectCounter m)) true
  else m.

Fixpoint checkAccessMatchOnActiveEntries (cfg : IMCfg) (addr : Z) (l : list nat) (P : PT) : outcome PT :=
  match l with
  | [] => Ok P
  | i :: l =>
      e ← t_get P i;
      checkAccessMatchOnActiveEntries cfg addr l (t_put P i (mkWith (w_base e) (check_access cfg addr (w_data e))))
  end.

(** The candidates of the stream: [delta] is an [int64_t]. *)
Definition stream_candidates (cfg : IMCfg) (addr delta : Z) : list AddrPriority :=
  (λ i, (u64 (addr + delta * i), 0)) <$> seqZ 1 (streamingDistance cfg).

(** An enabled entry takes the new index. *)
Definition new_index (index : Z) (m : PTMembers) : PTMembers :=
  mkPT (pt_address m) (pt_secure m) (streamCounter m) (enabled m) index (pt_baseAddr m) (pt_shift m)
    (if increasedIndirectCounter m then indirectCounter m else sat_dec (indirectCounter m)) false.

(** The loop runs from 1 to below the distance. *)
Definition indirect_candidates (cfg : IMCfg) (m : PTMembers) : list AddrPriority :=
  if prefetchThreshold cfg <? counter (indirectCounter m) then
    let distance := u32 (d_trunc (dmul (d_of_Z (maxPrefetchDistance cfg)) (calcSaturation (indirectCounter m)))) in
    (λ _, (indirect_addr cfg m, 0)) <$> seqZ 1 (distance - 1)
  else [].

(** An access of a stream at a new address: the entry, its candidates, and the index that is
    handed to the detector. *)
Definition stream_access (cfg : IMCfg) (pfi : PrefetchInfo) (m : PTMembers) : outcome (PTMembers * list AddrPriority * option Z) :=
  let addr := pfi_address pfi in
  let c := u32 (streamCounter m + 1) in
  let l := if streamCounterThreshold cfg <=? c then stream_candidates cfg addr (i64 (addr - pt_address m)) else [] in
  let m := mkPT addr (pfi_secure pfi) c (enabled m) (pt_index m) (pt_baseAddr m) (pt_shift m) (indirectCounter m) (increasedIndirectCounter m) in
  if negb (pfi_cacheMiss pfi) && negb (pfi_write pfi) && (pfi_size pfi <=? 8) then
    o ← read_index (byteOrder cfg) pfi;
    match o with
    | Some index =>
        if negb (enabled m) then Ok (m, l, Some index)
        else let m := new_index index m in Ok (m, l ++ indirect_candidates cfg m, None)
    | None => Ok (m, l, None)
    end
  else Ok (m, l, None).

Definition im_stream (curTick : Z) (pfi : PrefetchInfo) (pc : Z) st : outcome (IndirectMemory G R * list AddrPriority) :=
  let cfg := im_cfg st in
  let P := prefetchTable st in
  let key := mkKey pc (pfi_secure pfi) in
  o ← t_findEntry P key;
  match o with
  | Some i =>
      P ← t_accessEntry curTick P i;
      e ← t_get P i;
      if pt_address (w_data e) =? pfi_address pfi then Ok (mkIM cfg P (ipd st) (ipdEntryTrackingMisses st), []) else
      '(m, l, o) ← stream_access cfg pfi (w_data e);
      let P := t_put P i (mkWith (w_base e) m) in
      match o with
      | Some index =>
          '(T, tr) ← allocateOrUpdateIPDEntry curTick cfg i index (ipd st);
          Ok (mkIM cfg P T tr, l)
      | None => Ok (mkIM cfg P (ipd st) (ipdEntryTrackingMisses st), l)
      end
  | None =>
      '(i, P) ← t_findVictim P key;
      P ← t_insertEntry curTick P key i;
      e ← t_get P i;
      let m := w_data e in
      let m := mkPT (pfi_address pfi) (pfi_secure pfi) (streamCounter m) (enabled m) (pt_index m) (pt_baseAddr m) (pt_shift m)
                 (indirectCounter m) (increasedIndirectCounter m) in
      Ok (mkIM cfg (t_put P i (mkWith (w_base e) m)) (ipd st) (ipdEntryTrackingMisses st), [])
  end.

Definition im_calculatePrefetch (curTick : Z) (pfi : PrefetchInfo) st : outcome (IndirectMemory G R * list AddrPriority) :=
  if negb (pfi_validPC pfi) then Ok (st, []) else
  pc ← getPC pfi;
  let cfg := im_cfg st in
  P ← checkAccessMatchOnActiveEntries cfg (pfi_address pfi) (t_indices (prefetchTable st)) (prefetchTable st);
  match ipdEntryTrackingMisses st, pfi_cacheMiss pfi with
  | Some j, true =>
      e ← t_get (ipd st) j;
      if negb (secondIndexSet (w_data e)) then
        '(T, tr) ← trackMissIndex1 cfg (pfi_address pfi) j (ipd st);
        Ok (mkIM cfg P T tr, [])
      else
        '(P, T, tr) ← trackMissIndex2 cfg (pfi_address pfi) j P (ipd st);
        Ok (mkIM cfg P T tr, [])
  | _, _ => im_stream curTick pfi pc (mkIM cfg P (ipd st) (ipdEntryTrackingMisses st))
  end.

#[export] Instance im_prefetcher : CalculatePrefetch (IndirectMemory G R) :=
  λ curTick pfi _ st, im_calculatePrefetch curTick pfi st.

Definition im_new (cfg : IMCfg) (num_indirect_counter_bits addr_array_len pt_entries pt_assoc ipd_entries ipd_assoc : Z)
    (pt_ip ipd_ip : IndexingPolicy TaggedKey) (pt_sets ipd_sets : list (list ref)) (g1 g2 : G) : outcome (IndirectMemory G R) :=
  c ← sat_new 8 num_indirect_counter_bits 0;
  P ← t_new pt_ip pt_entries pt_assoc (mkWith te_new (mkPT 0 false 0 false 0 0 0 c false)) pt_sets g1;
  T ← t_new ipd_ip ipd_entries ipd_assoc
        (mkWith te_new (mkIPD 0 0 false 0 (replicate (Z.to_nat addr_array_len) (replicate (length (shiftValues cfg)) 0)))) ipd_sets g2;
  Ok (mkIM cfg P T None).
End IM.

(** ** Facts *)

Ltac im_cbn := cbn [im_cfg prefetchTable ipd ipdEntryTrackingMisses].

Section Facts.
Context {G R : Type} `{RL : ReplLaws G R}.
Abbreviation PT := (Tbl TaggedKey PrefetchTableEntry G R).
Abbreviation IPD := (Tbl TaggedKey IndirectPatternDetectorEntry G R).
Implicit Types st : IndirectMemory G R.

(** *** The detector *)

(** An entry of the detector has [N] rows; a valid one belongs to one of the [p] entries of
    the prefetch table. *)
Definition ipd_ok (cfg : IMCfg) (N p : nat) (e : IndirectPatternDetectorEntry) : Prop :=
  length (ipd_baseAddr (w_data e)) = N ∧ 0 ≤ numMisses (w_data e) ≤ Z.of_nat N ∧
  (te_valid (w_base e) = true → ∃ i, (i < p)%nat ∧ te_tag (w_base e) = pointer cfg i).

(** The tracked entry is valid and has room until its second index is set.  The tag of a
    pointer is the pointer: the detector has one set, and entries of one byte. *)
Record ipd_wf (cfg : IMCfg) (N p : nat) (T : IPD) (tr : option nat) : Prop := {
  dw_ok : t_ok T;
  dw_entries : Forall (ipd_ok cfg N p) (t_entries T);
  dw_tag i : (i < p)%nat → ip_extractTag (tb_ip T) (pointer cfg i) = pointer cfg i;
  dw_tracked j : tr = Some j → ∃ e, t_entries T !! j = Some e ∧ te_valid (w_base e) = true ∧
    (secondIndexSet (w_data e) = false → numMisses (w_data e) < Z.of_nat N)
}.

Lemma ipd_upd cfg N p T T' tr tr' j e :
  ipd_wf cfg N p T tr → t_upd j T T' → t_entries T' = <[j := e]> (t_entries T) → ipd_ok cfg N p e →
  (tr' = None ∨ tr' = Some j ∧ (j < length (t_entries T))%nat ∧ te_valid (w_base e) = true ∧ (secondIndexSet (w_data e) = false → numMisses (w_data e) < Z.of_nat N)) →
  ipd_wf cfg N p T' tr'.
Proof using Type.
  intros [Hok Ha Ht Htr] Hu Ee He Htr'. split.
  - by eapply t_upd_ok.
  - rewrite Ee. by apply Forall_insert.
  - rewrite (upd_ip _ _ _ Hu). done.
  - intros k Ek. destruct Htr' as [->|(-> & Hj & Hv & Hs)]; [done|]. injection Ek as <-. exists e. rewrite Ee. by rewrite list_lookup_insert_eq.
Qed.

Lemma ipd_ok_invalidate cfg N p e : ipd_ok cfg N p e → ipd_ok cfg N p (e_invalidate (K := TaggedKey) e).
Proof using Type. intros (Hl & _ & _). split_and!; cbn; [done|lia|lia|done]. Qed.

(** A found entry of the detector carries the pointer it was looked up with. *)
Lemma ipd_found_tag (T : IPD) a i e : t_ok T → t_found T (mkKey a false) i e →
  te_valid (w_base e) = true ∧ te_tag (w_base e) = ip_extractTag (tb_ip T) a.
Proof using Type.
  clear RL. intros Hok [Hf He]. destruct (t_find_total T (mkKey a false) Hok) as [E|(j & e' & [E He'] & Hm)]; [congruence|].
  assert (j = i) as -> by congruence. assert (e' = e) as -> by congruence.
  cbn in Hm. unfold te_match in Hm. apply andb_true_iff in Hm as [Hm _]. apply andb_true_iff in Hm as [Hv Ht]. apply Z.eqb_eq in Ht. done.
Qed.

(** What the detector does with an index: the first of a stream, the second, the third. *)
Lemma allocate_first t cfg N p i index T tr :
  (0 < N)%nat → ipd_wf cfg N p T tr → (i < p)%nat → t_findEntry T (mkKey (pointer cfg i) false) = Ok None →
  ∃ j T' b rows, allocateOrUpdateIPDEntry t cfg i index T = Ok (T', Some j) ∧ ipd_wf cfg N p T' (Some j) ∧ length rows = N ∧
    t_found T' (mkKey (pointer cfg i) false) j (mkWith b (mkIPD index 0 false 0 rows)).
Proof using RL.
  intros HN Hwf Hi Hn. pose proof Hwf as [Hok Ha Ht _]. unfold allocateOrUpdateIPDEntry. rewrite Hn. run_ok.
  destruct (t_alloc_plain t T _ Hok Hn) as (j & T1 & T2 & e0 & e2 & -> & E2 & _ & He0 & Ei & Hu & Hf & Ee). run_ok. rewrite E2. run_ok.
  rewrite (t_get_ok T2 j e2) by apply Hf. run_ok. pose proof (with_insert_data _ _ _ _ Ei) as Ed.
  pose proof (Forall_lookup_1 _ _ _ _ Ha He0) as (Hl & _ & _). pose proof (t_upd_ok _ _ _ Hu Hok) as Hok2.
  destruct (ipd_found_tag _ _ _ _ Hok2 Hf) as [Hv Htag]. rewrite (upd_ip _ _ _ Hu), (Ht i Hi) in Htag.
  rewrite Ed. cbn [e_invalidate with_entry w_data reset_members ipd_reset idx2 secondIndexSet numMisses ipd_baseAddr].
  eexists j, _, (w_base e2), (ipd_baseAddr (w_data e0)). split; [done|]. split; [|split; [done|]].
  - eapply (ipd_upd cfg N p T _ tr _ j); [done|eapply t_upd_trans; [done|apply t_put_upd]| | |].
    + rewrite t_put_entries, Ee. apply list_insert_insert_eq.
    + split_and!; cbn; [done|lia|lia|by eauto].
    + right. split_and!; cbn; [done|by eapply lookup_lt_Some|done|lia].
  - by apply (t_put_found T2 _ j e2).
Qed.

Lemma allocate_second t cfg N p i index T tr j e :
  ipd_wf cfg N p T tr → t_found T (mkKey (pointer cfg i) false) j e → secondIndexSet (w_data e) = false →
  let e' := mkWith (w_base e) (mkIPD (idx1 (w_data e)) index true (numMisses (w_data e)) (ipd_baseAddr (w_data e))) in
  ∃ T', allocateOrUpdateIPDEntry t cfg i index T = Ok (T', Some j) ∧ ipd_wf cfg N p T' (Some j) ∧ t_found T' (mkKey (pointer cfg i) false) j e'.
Proof using RL.
  intros Hwf Hf Hs e'. pose proof Hwf as [Hok Ha _ _]. unfold allocateOrUpdateIPDEntry. rewrite (proj1 Hf). run_ok.
  destruct (t_access_spec t T _ j e Hok Hf) as (T1 & -> & Hu & Ee & Hfind). run_ok. pose proof (t_upd_ok _ _ _ Hu Hok) as Hok1.
  assert (t_found T1 (mkKey (pointer cfg i) false) j e) as Hf1 by (split; [rewrite Hfind|rewrite Ee]; apply Hf).
  rewrite (t_get_ok T1 j e) by apply Hf1. run_ok. rewrite Hs. cbn [negb]. eexists. split; [done|]. split; [|by apply (t_put_found T1 _ j e)].
  pose proof (Forall_lookup_1 _ _ _ _ Ha (proj2 Hf)) as He.
  eapply (ipd_upd cfg N p T _ tr _ j e'); [done|eapply t_upd_trans; [done|apply t_put_upd]| |done|].
  - by rewrite t_put_entries, Ee.
  - right. split_and!; [done|eapply lookup_lt_Some; apply Hf| |done]. by apply (ipd_found_tag T (pointer cfg i) j e).
Qed.

Lemma allocate_ok t cfg N p i index T tr :
  (0 < N)%nat → ipd_wf cfg N p T tr → (i < p)%nat →
  ∃ T' tr', allocateOrUpdateIPDEntry t cfg i index T = Ok (T', tr') ∧ ipd_wf cfg N p T' tr'.
Proof using RL.
  intros HN Hwf Hi. destruct (t_find_total T (mkKey (pointer cfg i) false) (dw_ok _ _ _ _ _ Hwf)) as [Hn|(j & e & Hf & _)].
  { destruct (allocate_first t cfg N p i index T tr HN Hwf Hi Hn) as (j & T' & b & rows & E & H' & _). by eexists _, _. }
  destruct (secondIndexSet (w_data e)) eqn:Hs.
  - pose proof Hwf as [Hok Ha _ _]. unfold allocateOrUpdateIPDEntry. rewrite (proj1 Hf). run_ok.
    destruct (t_access_spec t T _ j e Hok Hf) as (T1 & -> & Hu & Ee & _). run_ok.
    assert (t_entries T1 !! j = Some e) as He by (rewrite Ee; apply Hf). rewrite (t_get_ok T1 j e He). run_ok. rewrite Hs. cbn [negb].
    destruct (t_invalidate_spec T1 j e He) as (T2 & -> & Hu2 & Ee2). run_ok. eexists _, _. split; [done|].
    eapply (ipd_upd cfg N p T _ tr _ j); [done|by eapply t_upd_trans|by rewrite Ee2, Ee| |by left].
    apply ipd_ok_invalidate. by apply (Forall_lookup_1 _ _ _ _ Ha (proj2 Hf)).
  - destruct (allocate_second t cfg N p i index T tr j e Hwf Hf Hs) as (T' & E & H' & _). by eexists _, _.
Qed.

(** A miss after the first index is recorded. *)
Lemma track1_spec cfg N p a T j e :
  ipd_wf cfg N p T (Some j) → t_entries T !! j = Some e → secondIndexSet (w_data e) = false →
  let n := numMisses (w_data e) in
  let e' := mkWith (w_base e) (mkIPD (idx1 (w_data e)) (idx2 (w_data e)) false (n + 1)
              (<[Z.to_nat n := base_for cfg a (idx1 (w_data e)) <$> shiftValues cfg]> (ipd_baseAddr (w_data e)))) in
  let tr' := if n + 1 =? Z.of_nat N then None else Some j in
  trackMissIndex1 cfg a j T = Ok (t_put T j e', tr') ∧ ipd_wf cfg N p (t_put T j e') tr' ∧ 0 ≤ n < Z.of_nat N.
Proof using Type.
  clear RL. intros Hwf He Hs n e' tr'. pose proof Hwf as [Hok Ha _ Htr]. destruct (Htr j eq_refl) as (e0 & He0 & Hv & Hroom). assert (e0 = e) as -> by congruence.
  pose proof (Forall_lookup_1 _ _ _ _ Ha He) as (Hl & Hn & Htag). specialize (Hroom Hs). fold n in Hn, Hroom.
  unfold trackMissIndex1. rewrite (t_get_ok T j e He). run_ok. rewrite Hl. fold n. rewrite (proj2 (Z.ltb_lt _ _) Hroom). run_ok. rewrite Hs. cbn [numMisses].
  split; [done|]. split; [|lia]. eapply (ipd_upd cfg N p T _ (Some j) _ j e'); [done|apply t_put_upd|by rewrite t_put_entries| |].
  - split_and!; cbn; [by rewrite length_insert|lia|lia|done].
  - unfold tr'. destruct (Z.eqb_spec (n + 1) (Z.of_nat N)); [by left|right]. split_and!; [done|by eapply lookup_lt_Some|done|]. cbn. lia.
Qed.
(** *** Patterns *)

Lemma match_row_spec cfg a x b y S :
  match match_row cfg b y (base_for cfg a x <$> S) S with
  | Some (base, s) => s ∈ S ∧ base = base_for cfg a x s ∧ base = base_for cfg b y s
  | None => ∀ s, s ∈ S → base_for cfg a x s ≠ base_for cfg b y s
  end.
Proof using Type.
  clear. induction S as [|s S IH]; cbn; [by intros s []%elem_of_nil|].
  destruct (Z.eqb_spec (base_for cfg a x s) (base_for cfg b y s)) as [E|Hne]; [split_and!; [by left|done|done]|].
  destruct (match_row _ _ _ _ _) as [[base s']|]; [destruct IH as (? & ? & ?); split_and!; [by right|done|done]|].
  intros s' [->|Hs]%elem_of_cons; [done|by apply IH].
Qed.

(** The search over the misses [ms] recorded with index [x] finds a base address and a shift
    that explain one of them and the new miss, if there are any. *)
Lemma match_rows_spec cfg x b y ms :
  match match_rows cfg b y ((λ a, base_for cfg a x <$> shiftValues cfg) <$> ms) with
  | Some (base, s) => ∃ a, a ∈ ms ∧ s ∈ shiftValues cfg ∧ base = base_for cfg a x s ∧ base = base_for cfg b y s
  | None => ∀ a s, a ∈ ms → s ∈ shiftValues cfg → base_for cfg a x s ≠ base_for cfg b y s
  end.
Proof using Type.
  clear. induction ms as [|a ms IH]; cbn [fmap list_fmap match_rows]; [by intros a s []%elem_of_nil|].
  pose proof (match_row_spec cfg a x b y (shiftValues cfg)) as Hrow. destruct (match_row _ _ _ _ _) as [[base s]|]; [exists a; split; [by left|done]|].
  destruct (match_rows _ _ _ _) as [[base s]|].
  - destruct IH as (a' & Ha & Hs). exists a'. split; [by right|done].
  - intros a' s [->|Ha]%elem_of_cons Hs; [by apply Hrow|by apply IH].
Qed.

Lemma entry_at_ok cfg (P : PT) i :
  t_ok P → (i < length (t_entries P))%nat → ∃ i', entry_at cfg (pointer cfg i) P = Ok i' ∧ (i' < length (t_entries P))%nat ∧ pointer cfg i' = pointer cfg i.
Proof using Type.
  clear RL. intros Hok Hi. unfold entry_at. rewrite (tok_range _ Hok). destruct (List.find _ _) as [i'|] eqn:Ef.
  - apply List.find_some in Ef as [Hin E%Z.eqb_eq]. apply List.in_seq in Hin. exists i'. split_and!; [done|lia|done].
  - pose proof (List.find_none _ _ Ef i) as E. rewrite List.in_seq, Z.eqb_refl in E. discriminate E. lia.
Qed.

Lemma track2_spec cfg N a P T j e :
  ipd_wf cfg N (length (t_entries P)) T (Some j) → t_ok P → t_entries T !! j = Some e →
  match match_rows cfg a (idx2 (w_data e)) (take (Z.to_nat (numMisses (w_data e))) (ipd_baseAddr (w_data e))) with
  | Some (base, shift) =>
      ∃ i pe T', pointer cfg i = te_tag (w_base e) ∧ t_entries P !! i = Some pe ∧
        trackMissIndex2 cfg a j P T = Ok (t_put P i (mkWith (w_base pe) (enable (w_data pe) base shift)), T', None) ∧
        ipd_wf cfg N (length (t_entries P)) T' None
  | None => trackMissIndex2 cfg a j P T = Ok (P, T, Some j)
  end.
Proof using RL.
  intros Hwf HP He. pose proof Hwf as [Hok Ha _ Htr]. destruct (Htr j eq_refl) as (e0 & He0 & Hv & _). assert (e0 = e) as -> by congruence.
  pose proof (Forall_lookup_1 _ _ _ _ Ha He) as Hok_e. destruct (proj2 (proj2 Hok_e) Hv) as (i & Hi & Ei).
  unfold trackMissIndex2. rewrite (t_get_ok T j e He). run_ok. destruct (match_rows _ _ _ _) as [[base shift]|]; [|done].
  destruct (entry_at_ok cfg P i HP Hi) as (i' & Eat & Hi' & Ep). rewrite <-Ei in Eat, Ep. rewrite Eat. run_ok.
  destruct (lookup_lt_is_Some_2 (t_entries P) i' Hi') as [pe Hpe]. rewrite (t_get_ok P i' pe Hpe). run_ok.
  destruct (t_invalidate_spec T j e He) as (T' & -> & Hu & Ee). run_ok. exists i', pe, T'. split_and!; [done..|].
  eapply (ipd_upd cfg N _ T _ (Some j) _ j); [done|done|done|by apply ipd_ok_invalidate|by left].
Qed.

(** *** The prefetch table *)

(** [P'] finds what [P] finds. *)
Record pt_same (P P' : PT) : Prop := {
  ps_ok : t_ok P';
  ps_find key : t_findEntry P' key = t_findEntry P key;
  ps_length : length (t_entries P') = length (t_entries P)
}.

Lemma pt_same_put P i e m : t_ok P → t_entries P !! i = Some e → pt_same P (t_put P i (mkWith (w_base e) m)).
Proof using Type. intros Hok He. split; [by apply t_put_ok|intros key; by apply (t_put_find P key i e)|by rewrite t_put_entries, length_insert]. Qed.

Lemma pt_same_trans P1 P2 P3 : pt_same P1 P2 → pt_same P2 P3 → pt_same P1 P3.
Proof using Type. intros [A1 A2 A3] [B1 B2 B3]. split; [done|intros key; by rewrite B2|congruence]. Qed.

Lemma check_access_loop cfg a l : ∀ P, t_ok P → NoDup l → Forall (λ i, (i < length (t_entries P))%nat) l →
  ∃ P', checkAccessMatchOnActiveEntries cfg a l P = Ok P' ∧ pt_same P P' ∧
    (∀ i e, i ∈ l → t_entries P !! i = Some e → t_entries P' !! i = Some (mkWith (w_base e) (check_access cfg a (w_data e)))) ∧
    (∀ i, i ∉ l → t_entries P' !! i = t_entries P !! i).
Proof using Type.
  clear RL. induction l as [|i l IH]; intros P Hok Hnd Hl; cbn [checkAccessMatchOnActiveEntries].
  { exists P. split_and!; [done|by split|by intros i e []%elem_of_nil|done]. }
  apply NoDup_cons in Hnd as [Hi Hnd]. apply Forall_cons in Hl as [Hlt Hl]. destruct (lookup_lt_is_Some_2 (t_entries P) i Hlt) as [e He].
  rewrite (t_get_ok P i e He). run_ok. set (e' := mkWith _ _). pose proof (pt_same_put P i e (check_access cfg a (w_data e)) Hok He) as Hs. fold e' in Hs.
  destruct (IH (t_put P i e')) as (P' & E & Hs' & Hin & Hout); [apply Hs|done|by rewrite (ps_length _ _ Hs)|].
  exists P'. split_and!; [done|by eapply pt_same_trans| |].
  - intros k ek [->|Hk]%elem_of_cons Hek.
    + assert (ek = e) as -> by congruence. rewrite Hout, t_put_entries by done. by apply list_lookup_insert_eq.
    + apply Hin; [done|]. rewrite t_put_entries, list_lookup_insert_ne; [done|]. by intros ->.
  - intros k Hk. apply not_elem_of_cons in Hk as [Hki Hk]. rewrite Hout, t_put_entries, list_lookup_insert_ne by done. done.
Qed.

Lemma check_access_spec cfg a P : t_ok P →
  ∃ P', checkAccessMatchOnActiveEntries cfg a (t_indices P) P = Ok P' ∧ pt_same P P' ∧
    ∀ i e, t_entries P !! i = Some e → t_entries P' !! i = Some (mkWith (w_base e) (check_access cfg a (w_data e))).
Proof using Type.
  clear RL. intros Hok. rewrite (tok_range _ Hok). destruct (check_access_loop cfg a (seq 0 (length (t_entries P))) P Hok (NoDup_seq _ _)) as (P' & E & Hs & Hin & _).
  { apply Forall_forall. intros i Hi. apply elem_of_seq in Hi. lia. }
  exists P'. split_and!; [done|done|]. intros i e He. apply Hin; [|done]. apply elem_of_seq. apply lookup_lt_Some in He. lia.
Qed.
(** *** Every access succeeds *)

Record im_wf (N : nat) st : Prop := {
  iw_rows : (0 < N)%nat;
  iw_pt : t_ok (prefetchTable st);
  iw_ipd : ipd_wf (im_cfg st) N (length (t_entries (prefetchTable st))) (ipd st) (ipdEntryTrackingMisses st)
}.

(** A hit of a read brings its data. *)
Definition readable (pfi : PrefetchInfo) : Prop :=
  pfi_cacheMiss pfi = false → pfi_write pfi = false → pfi_size pfi ≤ 8 → is_Some (pfi_data pfi).

Lemma stream_access_ok cfg pfi m : readable pfi → ∃ m' l o, stream_access cfg pfi m = Ok (m', l, o).
Proof using Type.
  clear. intros Hr. unfold stream_access. destruct (pfi_cacheMiss pfi) eqn:Hm; [by eexists _, _, _|]. destruct (pfi_write pfi) eqn:Hw; [by eexists _, _, _|].
  cbn [negb andb]. destruct (Z.leb_spec (pfi_size pfi) 8) as [Hs|]; [|by eexists _, _, _]. destruct (Hr Hm Hw Hs) as [bs Hbs].
  unfold read_index, pfi_get. rewrite Hbs. repeat (destruct (_ =? _); [run_ok; destruct (negb _); by eexists _, _, _|]). run_ok. by eexists _, _, _.
Qed.

Lemma im_wf_pt N st P : im_wf N st → pt_same (prefetchTable st) P → im_wf N (mkIM (im_cfg st) P (ipd st) (ipdEntryTrackingMisses st)).
Proof using Type. intros [H1 H2 H3] [P1 P2 P3]. split; im_cbn; [done|done|by rewrite P3]. Qed.

(** The stream of the program counter is known: what happens to its entry. *)
Lemma im_stream_known t pfi N st i e :
  im_wf N st → t_found (prefetchTable st) (mkKey (pfi_pc pfi) (pfi_secure pfi)) i e → pt_address (w_data e) ≠ pfi_address pfi →
  ∀ m l o, stream_access (im_cfg st) pfi (w_data e) = Ok (m, l, o) →
  ∃ P, im_stream t pfi (pfi_pc pfi) st =
      match o with
      | Some index => '(T, tr) ← allocateOrUpdateIPDEntry t (im_cfg st) i index (ipd st); Ok (mkIM (im_cfg st) P T tr, l)
      | None => Ok (mkIM (im_cfg st) P (ipd st) (ipdEntryTrackingMisses st), l)
      end ∧
    pt_same (prefetchTable st) P ∧ t_found P (mkKey (pfi_pc pfi) (pfi_secure pfi)) i (mkWith (w_base e) m).
Proof using RL.
  intros [_ HP _] Hf Hne m l o Em. unfold im_stream. rewrite (proj1 Hf). run_ok.
  destruct (t_access_spec t _ _ i e HP Hf) as (P1 & -> & Hu & Ee & Hfind). run_ok. pose proof (t_upd_ok _ _ _ Hu HP) as HP1.
  assert (t_found P1 (mkKey (pfi_pc pfi) (pfi_secure pfi)) i e) as Hf1 by (split; [rewrite Hfind|rewrite Ee]; apply Hf).
  rewrite (t_get_ok P1 i e) by apply Hf1. run_ok. rewrite (proj2 (Z.eqb_neq _ _)) by done. rewrite Em. run_ok. eexists. split; [reflexivity|].
  assert (pt_same (prefetchTable st) P1) as Hs by (split; [done|done|by rewrite Ee]).
  split; [eapply pt_same_trans; [done|]; apply pt_same_put; [done|apply Hf1]|by apply (t_put_found P1 _ i e)].
Qed.

Lemma im_stream_ok t pfi N st : im_wf N st → readable pfi →
  ∃ st' l, im_stream t pfi (pfi_pc pfi) st = Ok (st', l) ∧ im_wf N st' ∧ im_cfg st' = im_cfg st.
Proof using RL.
  intros Hwf Hr. pose proof Hwf as [HN HP Hd]. destruct (t_find_total (prefetchTable st) (mkKey (pfi_pc pfi) (pfi_secure pfi)) HP) as [Hn|(i & e & Hf & _)].
  - unfold im_stream. rewrite Hn. run_ok.
    destruct (t_alloc_plain t _ _ HP Hn) as (i & P1 & P2 & e0 & e2 & -> & E2 & _ & _ & _ & Hu & Hf & Ee). run_ok. rewrite E2. run_ok.
    rewrite (t_get_ok P2 i e2) by apply Hf. run_ok. eexists _, _. split; [done|]. split; [|done]. split; im_cbn; [done|apply t_put_ok; by eapply t_upd_ok|].
    by rewrite t_put_entries, length_insert, (upd_length _ _ _ Hu).
  - destruct (Z.eq_dec (pt_address (w_data e)) (pfi_address pfi)) as [Ea|Hne].
    + unfold im_stream. rewrite (proj1 Hf). run_ok. destruct (t_access_spec t _ _ i e HP Hf) as (P1 & -> & Hu & Ee & _). run_ok.
      rewrite (t_get_ok P1 i e) by (rewrite Ee; apply Hf). run_ok. rewrite (proj2 (Z.eqb_eq _ _) Ea). eexists _, _. split; [done|]. split; [|done].
      split; im_cbn; [done|by eapply t_upd_ok|by rewrite Ee].
    + destruct (stream_access_ok (im_cfg st) pfi (w_data e) Hr) as (m & l & o & Em).
      destruct (im_stream_known t pfi N st i e Hwf Hf Hne m l o Em) as (P & -> & Hs & _). destruct o as [index|].
      * destruct (allocate_ok t (im_cfg st) N _ i index _ _ HN Hd ltac:(eapply lookup_lt_Some; apply Hf)) as (T & tr & -> & HT). run_ok.
        eexists _, _. split; [done|]. split; [|done]. split; im_cbn; [done|apply Hs|by rewrite (ps_length _ _ Hs)].
      * eexists _, _. split; [done|]. split; [|done]. by apply im_wf_pt.
Qed.

Lemma im_access_ok t pfi N st : im_wf N st → readable pfi →
  ∃ st' l, im_calculatePrefetch t pfi st = Ok (st', l) ∧ im_wf N st' ∧ im_cfg st' = im_cfg st.
Proof using RL.
  intros Hwf Hr. pose proof Hwf as [HN HP Hd]. unfold im_calculatePrefetch, getPC. destruct (pfi_validPC pfi); cbn [negb assert_that mbind outcome_bind]; [|by eexists _, _].
  destruct (check_access_spec (im_cfg st) (pfi_address pfi) _ HP) as (P & -> & Hs & _). run_ok.
  pose proof (im_wf_pt N st P Hwf Hs) as Hwf'. pose proof (im_stream_ok t pfi N _ Hwf' Hr) as Hstream.
  destruct (ipdEntryTrackingMisses st) as [j|] eqn:Etr; [|done]. destruct (pfi_cacheMiss pfi); [|done].
  destruct (dw_tracked _ _ _ _ _ Hd j eq_refl) as (e & He & _). rewrite (t_get_ok _ j e He). run_ok. destruct (secondIndexSet (w_data e)) eqn:Hsec; cbn [negb].
  - rewrite <-(ps_length _ _ Hs) in Hd. pose proof (track2_spec (im_cfg st) N (pfi_address pfi) P (ipd st) j e Hd (ps_ok _ _ Hs) He) as Ht.
    destruct (match_rows _ _ _ _) as [[base shift]|].
    + destruct Ht as (i & pe & T' & _ & Hpe & -> & HT'). run_ok. eexists _, _. split; [done|]. split; [|done].
      pose proof (pt_same_put P i pe (enable (w_data pe) base shift) (ps_ok _ _ Hs) Hpe) as Hs'. split; im_cbn; [done|apply Hs'|by rewrite (ps_length _ _ Hs')].
    + rewrite Ht. run_ok. eexists _, _. split; [done|]. split; [|done]. split; im_cbn; [done|apply Hs|done].
  - destruct (track1_spec (im_cfg st) N _ (pfi_address pfi) (ipd st) j e Hd He Hsec) as (-> & HT & _). run_ok. eexists _, _. split; [done|]. split; [|done].
    split; im_cbn; [done|apply Hs|by rewrite (ps_length _ _ Hs)].
Qed.
End Facts.

Lemma im_run {G R : Type} `{RL : ReplLaws G R} cache N l : ∀ st : IndirectMemory G R, im_wf N st → Forall (λ x, readable x.2) l →
  ∃ st' os, run_accesses cache l st = Ok (st', os) ∧ im_wf N st' ∧ length os = length l.
Proof.
  induction l as [|[t pfi] l IH]; intros st Hst Hl; [by exists st, []|]. apply Forall_cons in Hl as [Hp Hl].
  destruct (im_access_ok t pfi N st Hst Hp) as (st1 & o & E1 & Hst1 & _). destruct (IH st1 Hst1 Hl) as (st2 & os & E2 & Hst2 & Elen).
  exists st2, (o :: os). split_and!; [by eapply run_accesses_cons|done|cbn; by rewrite Elen].
Qed.

Lemma im_new_wf {G R : Type} `{RL : ReplLaws G R} cfg bits len pe pa de da pix dix ps ds (g1 g2 : G) :
  (∀ g, is_ok (rp_instantiate (R := R) g)) → 1 ≤ bits ≤ 8 → 0 < len →
  0 < pa < 2 ^ 32 → 0 ≤ pe < 2 ^ 32 → pe mod pa = 0 → indexing_new pa pe 0 = Ok (pix, ps) →
  0 < da < 2 ^ 32 → 0 ≤ de < 2 ^ 32 → de mod da = 0 → indexing_new da de 0 = Ok (dix, ds) → ix_tagShift dix = 0 →
  ∃ st : IndirectMemory G R,
    im_new cfg bits len pe pa de da (TaggedSetAssociative pix) (TaggedSetAssociative dix) ps ds g1 g2 = Ok st ∧ im_wf (Z.to_nat len) st ∧ im_cfg st = cfg.
Proof.
  intros Hi Hb Hlen Hpa Hpe Hpm Ep Hda Hde Hdm Ed Htag. unfold im_new.
  assert (∃ c, sat_new 8 bits 0 = Ok c) as [c ->].
  { unfold sat_new, fatal_if. rewrite (proj2 (Z.ltb_ge 8 bits)) by lia. run_ok. cbn [maxVal]. destruct (Z.ltb_spec (wrap 8 (u64 (Z.shiftl 1 bits) - 1)) 0) as [Hlt|]; [|by eexists].
    pose proof (wrap_range 8 (u64 (Z.shiftl 1 bits) - 1) ltac:(lia)) as Hw. unfold in_u in Hw. lia. }
  run_ok. destruct (t_new_fills pa pe 0 pix ps (mkWith te_new (mkPT 0 false 0 false 0 0 0 c false)) g1 Hi (Z.le_refl 0) Hpa Hpe Hpm Ep) as (P & -> & HP & _). run_ok.
  set (e := mkWith te_new (mkIPD _ _ _ _ _)).
  destruct (t_new_fills da de 0 dix ds e g2 Hi (Z.le_refl 0) Hda Hde Hdm Ed) as (T & -> & HT & EipT & ET & _). run_ok.
  eexists. split; [done|]. split; [|done]. split; im_cbn; [lia|done|]. split; [done| | |done].
  - rewrite ET. apply Forall_replicate. split_and!; cbn; [by rewrite length_replicate|lia|lia|done].
  - intros i _. rewrite EipT. cbn. unfold extractTag. by rewrite Htag, Z.shiftr_0_r.
Qed.

(** ** The detection of a pattern *)

(** The access is a hit that reads the value [v]. *)
Definition reads (cfg : IMCfg) (pfi : PrefetchInfo) (v : Z) : Prop :=
  pfi_validPC pfi = true ∧ pfi_cacheMiss pfi = false ∧ pfi_write pfi = false ∧ pfi_size pfi ≤ 8 ∧ read_index (byteOrder cfg) pfi = Ok (Some v).

Definition misses (pfi : PrefetchInfo) : Prop := pfi_validPC pfi = true ∧ pfi_cacheMiss pfi = true.

Section Detect.
Context {G R : Type} `{RL : ReplLaws G R} (cfg : IMCfg) (N : nat) (key : TaggedKey) (i : nat).
Implicit Types st : IndirectMemory G R.
Abbreviation ikey := (mkKey (pointer cfg i) false).
Abbreviation rows_of x ms := ((λ a, base_for cfg a x <$> shiftValues cfg) <$> ms).

(** The stream of [key] is entry [i], at address [a] and without a pattern. *)
Definition streaming st (a : Z) : Prop :=
  im_wf N st ∧ im_cfg st = cfg ∧ ∃ e, t_found (prefetchTable st) key i e ∧ enabled (w_data e) = false ∧ pt_address (w_data e) = a.

(** The detector follows it: index [x] was read, then the misses [ms] happened. *)
Definition recording st (x : Z) (ms : list Z) (j : nat) : Prop :=
  ∃ b y rows, t_found (ipd st) ikey j (mkWith b (mkIPD x y false (Z.of_nat (length ms)) rows)) ∧
    take (length ms) rows = rows_of x ms ∧ length rows = N ∧ ipdEntryTrackingMisses st = (if decide (length ms = N) then None else Some j).

(** The table is looked through first; an entry without pattern stays as it is. *)
Lemma streaming_check st a addr : streaming st a →
  ∃ P, checkAccessMatchOnActiveEntries (im_cfg st) addr (t_indices (prefetchTable st)) (prefetchTable st) = Ok P ∧
    streaming (mkIM (im_cfg st) P (ipd st) (ipdEntryTrackingMisses st)) a.
Proof using Type.
  clear RL. intros (Hwf & Ec & e & [Hf He] & Hen & Ea). destruct (check_access_spec (im_cfg st) addr _ (iw_pt _ _ Hwf)) as (P & E & Hs & Hent).
  exists P. split; [done|]. split; [by apply im_wf_pt|]. split; [done|]. exists e. split_and!; [|done..]. split; im_cbn; [by rewrite (ps_find _ _ Hs)|].
  rewrite (Hent i e He). unfold check_access. rewrite Hen. by destruct e.
Qed.

Lemma streaming_ipd st a T tr : streaming st a → ipd_wf cfg N (length (t_entries (prefetchTable st))) T tr →
  streaming (mkIM cfg (prefetchTable st) T tr) a.
Proof using Type. intros ([H1 H2 _] & _ & Hs) HT. split; [by split|]. by split. Qed.

(** A value read by the stream goes to the detector. *)
Lemma streaming_reads t st a pfi v : streaming st a → key = mkKey (pfi_pc pfi) (pfi_secure pfi) → reads cfg pfi v → a ≠ pfi_address pfi →
  ∃ P l, im_calculatePrefetch t pfi st = ('(T, tr) ← allocateOrUpdateIPDEntry t cfg i v (ipd st); Ok (mkIM cfg P T tr, l)) ∧
    streaming (mkIM cfg P (ipd st) (ipdEntryTrackingMisses st)) (pfi_address pfi).
Proof using RL.
  intros Hst Ek (Hpc & Hm & Hw & Hsz & Hr) Hne. destruct (streaming_check st a (pfi_address pfi) Hst) as (P0 & E0 & Hst0). pose proof Hst as (_ & Ec & _).
  destruct Hst0 as (Hwf0 & _ & e & Hf & Hen & Ea). rewrite Ek in Hf.
  set (m := mkPT (pfi_address pfi) (pfi_secure pfi) (u32 (streamCounter (w_data e) + 1)) (enabled (w_data e)) (pt_index (w_data e)) (pt_baseAddr (w_data e))
              (pt_shift (w_data e)) (indirectCounter (w_data e)) (increasedIndirectCounter (w_data e))).
  assert (∃ l, stream_access cfg pfi (w_data e) = Ok (m, l, Some v)) as [l El].
  { unfold stream_access. rewrite Hm, Hw, (proj2 (Z.leb_le _ _) Hsz), Hr. cbn [negb andb]. run_ok. cbn [enabled]. rewrite Hen. cbn [negb]. eexists. unfold m. by rewrite Hen. }
  assert (pt_address (w_data e) ≠ pfi_address pfi) as Hne' by congruence. set (st0 := mkIM _ P0 _ _) in Hwf0, Hf.
  destruct (im_stream_known t pfi N st0 i e Hwf0 Hf Hne' m l (Some v)) as (P & Es & Hs & Hf'); [cbn; by rewrite Ec|].
  exists P, l. split.
  - unfold im_calculatePrefetch, getPC. rewrite Hpc, Hm. cbn [negb assert_that mbind outcome_bind]. rewrite E0. run_ok. fold st0.
    destruct (ipdEntryTrackingMisses st); rewrite Es; unfold st0; im_cbn; by rewrite Ec.
  - split; [|split; [done|exists (mkWith (w_base e) m); rewrite Ek; by split_and!]]. rewrite <-Ec. exact (im_wf_pt N st0 P Hwf0 Hs).
Qed.

(** The first value starts the recording. *)
Lemma recording_starts t st a pfi x : streaming st a → key = mkKey (pfi_pc pfi) (pfi_secure pfi) → reads cfg pfi x → a ≠ pfi_address pfi →
  t_findEntry (ipd st) ikey = Ok None →
  ∃ st' l j, im_calculatePrefetch t pfi st = Ok (st', l) ∧ streaming st' (pfi_address pfi) ∧ recording st' x [] j.
Proof using RL.
  intros Hst Ek Hr Hne Hn. destruct (streaming_reads t st a pfi x Hst Ek Hr Hne) as (P & l & -> & Hst'). pose proof Hst' as ([HN HP Hd] & _ & e & Hf & _).
  cbn [im_cfg prefetchTable ipd ipdEntryTrackingMisses] in Hd, Hf. destruct (allocate_first t cfg N _ i x _ _ HN Hd ltac:(eapply lookup_lt_Some; apply Hf) Hn) as (j & T & b & rows & -> & HT & Hlen & Hfj). run_ok.
  eexists _, l, j. split; [done|]. split; [by apply (streaming_ipd _ _ T (Some j) Hst')|]. exists b, 0, rows. im_cbn. split_and!; [done|done|done|].
  cbn [length]. rewrite decide_False by lia. done.
Qed.

(** A miss is recorded. *)
Lemma recording_miss t st a pfi x ms j : streaming st a → recording st x ms j → misses pfi → (length ms < N)%nat →
  ∃ st', im_calculatePrefetch t pfi st = Ok (st', []) ∧ streaming st' a ∧ recording st' x (ms ++ [pfi_address pfi]) j.
Proof using Type.
  clear RL. intros Hst (b & y & rows & Hf & Htake & Hlen & Htr) [Hpc Hm] Hlt. rewrite decide_False in Htr by lia.
  destruct (streaming_check st a (pfi_address pfi) Hst) as (P & E0 & Hst0). pose proof Hst0 as ([_ _ Hd] & Ec & _). cbn in Ec.
  unfold im_calculatePrefetch, getPC. rewrite Hpc, Hm. cbn [negb assert_that mbind outcome_bind]. rewrite E0. run_ok. rewrite Htr.
  rewrite (t_get_ok (ipd st) j _ (proj2 Hf)). run_ok. cbn [w_data secondIndexSet negb]. cbn in Hd. rewrite Htr, Ec in Hd.
  destruct (track1_spec cfg N _ (pfi_address pfi) (ipd st) j _ Hd (proj2 Hf) eq_refl) as (E1 & HT & _). cbn [w_data w_base idx1 idx2 numMisses ipd_baseAddr] in E1, HT.
  rewrite Ec, E1. run_ok. eexists. split; [done|]. split; [by apply (streaming_ipd _ _ _ _ Hst0)|].
  eexists b, y, _. im_cbn. split; [|split_and!].
  - rewrite length_app. cbn [length]. replace (Z.of_nat (length ms + 1)) with (Z.of_nat (length ms) + 1) by lia. by apply (t_put_found (ipd st) _ j _ _ (dw_ok _ _ _ _ _ Hd) Hf).
  - rewrite Nat2Z.id, length_app, fmap_app. cbn [length fmap list_fmap]. rewrite Nat.add_1_r.
    rewrite (take_S_r _ _ (base_for cfg (pfi_address pfi) x <$> shiftValues cfg)) by (apply list_lookup_insert_eq; lia).
    rewrite take_insert_ge by lia. by rewrite Htake.
  - by rewrite length_insert.
  - rewrite length_app. cbn [length]. destruct (Z.eqb_spec (Z.of_nat (length ms) + 1) (Z.of_nat N)); [rewrite decide_True by lia|rewrite decide_False by lia]; done.
Qed.
Lemma recording_misses cache a x j l : ∀ st ms, streaming st a → recording st x ms j → Forall (λ p, misses p.2) l → (length ms + length l ≤ N)%nat →
  ∃ st' os, run_accesses cache l st = Ok (st', os) ∧ streaming st' a ∧ recording st' x (ms ++ (pfi_address <$> l.*2)) j.
Proof using Type.
  clear RL. induction l as [|[t pfi] l IH]; intros st ms Hst Hrec Hl Hlen; [exists st, []; cbn; by rewrite app_nil_r|].
  apply Forall_cons in Hl as [Hp Hl]. cbn [length] in Hlen. destruct (recording_miss t st a pfi x ms j Hst Hrec Hp ltac:(lia)) as (st1 & E1 & Hst1 & Hrec1).
  destruct (IH st1 _ Hst1 Hrec1 Hl) as (st2 & os & E2 & Hst2 & Hrec2); [rewrite length_app; cbn [length]; lia|].
  exists st2, ([] :: os). split; [by eapply run_accesses_cons|]. split; [done|]. by rewrite <-app_assoc in Hrec2.
Qed.

(** The second value: misses are compared from now on. *)
Definition armed st (x y : Z) (ms : list Z) (j : nat) : Prop :=
  ∃ b rows, t_found (ipd st) ikey j (mkWith b (mkIPD x y true (Z.of_nat (length ms)) rows)) ∧
    take (length ms) rows = rows_of x ms ∧ ipdEntryTrackingMisses st = Some j.

Lemma recording_second t st a pfi x ms j y : streaming st a → recording st x ms j → key = mkKey (pfi_pc pfi) (pfi_secure pfi) → reads cfg pfi y →
  a ≠ pfi_address pfi → ∃ st' l, im_calculatePrefetch t pfi st = Ok (st', l) ∧ streaming st' (pfi_address pfi) ∧ armed st' x y ms j.
Proof using RL.
  intros Hst (b & y0 & rows & Hfj & Htake & _) Ek Hr Hne. destruct (streaming_reads t st a pfi y Hst Ek Hr Hne) as (P & l & -> & Hst').
  pose proof Hst' as ([HN HP Hd] & _). cbn [im_cfg prefetchTable ipd ipdEntryTrackingMisses] in Hd.
  destruct (allocate_second t cfg N _ i y _ _ j _ Hd Hfj eq_refl) as (T & -> & HT & Hfj'). run_ok. eexists _, l. split; [done|].
  split; [by apply (streaming_ipd _ _ T (Some j) Hst')|]. by exists b, rows.
Qed.

(** A miss then enables the stream with the first pattern that explains it. *)
Lemma armed_miss t st a pfi x y ms j :
  (∀ k, (k < length (t_entries (prefetchTable st)))%nat → pointer cfg k = pointer cfg i → k = i) →
  streaming st a → armed st x y ms j → misses pfi →
  ∃ st' e, im_calculatePrefetch t pfi st = Ok (st', []) ∧ t_found (prefetchTable st') key i e ∧
    match match_rows cfg (pfi_address pfi) y (rows_of x ms) with
    | Some (base, s) => enabled (w_data e) = true ∧ pt_baseAddr (w_data e) = base ∧ pt_shift (w_data e) = s
    | None => enabled (w_data e) = false
    end.
Proof using RL.
  intros Hinj Hst (b & rows & Hfj & Htake & Htr) [Hpc Hm]. destruct (streaming_check st a (pfi_address pfi) Hst) as (P & E0 & Hst0).
  destruct Hst as ([_ HP0 Hd0] & Ec & e0 & Hf0 & _). destruct Hst0 as ([_ HP Hd] & _ & e & Hf & Hen & _).
  cbn [im_cfg prefetchTable ipd ipdEntryTrackingMisses] in *. rewrite Htr, Ec in *.
  unfold im_calculatePrefetch, getPC. rewrite Hpc, Hm. cbn [negb assert_that mbind outcome_bind]. rewrite Ec, E0. run_ok. rewrite Htr.
  rewrite (t_get_ok (ipd st) j _ (proj2 Hfj)). run_ok. cbn [w_data secondIndexSet negb].
  pose proof (track2_spec cfg N (pfi_address pfi) P (ipd st) j _ Hd HP (proj2 Hfj)) as Ht. cbn [w_data idx2 numMisses ipd_baseAddr] in Ht.
  rewrite Nat2Z.id, Htake in Ht. destruct (match_rows _ _ _ _) as [[base s]|].
  - destruct Ht as (k & pe & T' & Ek & Hpe & -> & _). run_ok.
    destruct (ipd_found_tag _ _ _ _ (dw_ok _ _ _ _ _ Hd) Hfj) as [_ Etag]. cbn [w_base] in Etag, Ek.
    assert (i < length (t_entries P))%nat as Hi by (eapply lookup_lt_Some; apply Hf). rewrite (dw_tag _ _ _ _ _ Hd i Hi) in Etag. rewrite Etag in Ek.
    assert (length (t_entries P) = length (t_entries (prefetchTable st))) as El.
    { destruct (check_access_spec cfg (pfi_address pfi) _ HP0) as (P' & E' & Hs & _). assert (P' = P) as -> by congruence. apply Hs. }
    assert (k = i) as -> by (apply Hinj; [rewrite <-El; by eapply lookup_lt_Some|done]). assert (pe = e) as -> by (destruct Hf; congruence).
    eexists _, _. split; [done|]. im_cbn. split; [by apply (t_put_found P _ i e)|done].
  - rewrite Ht. run_ok. by eexists _, e.
Qed.
End Detect.

(** ** Theorems *)

(** No access stops the prefetcher.  With a detector of one set, so that the tag of an entry
    is the pointer it was made from, every sequence of accesses succeeds in which the hits of
    reads of at most eight bytes bring their data: the assertion on the number of recorded
    misses holds, and the pointer the detector restores leads to an entry. *)
Theorem im_never_stops {G R : Type} `{RL : ReplLaws G R} cfg bits len pe pa de da pix dix ps ds (g1 g2 : G) cache l :
  (∀ g, is_ok (rp_instantiate (R := R) g)) → 1 ≤ bits ≤ 8 → 0 < len →
  0 < pa < 2 ^ 32 → 0 ≤ pe < 2 ^ 32 → pe mod pa = 0 → indexing_new pa pe 0 = Ok (pix, ps) →
  0 < da < 2 ^ 32 → 0 ≤ de < 2 ^ 32 → de mod da = 0 → indexing_new da de 0 = Ok (dix, ds) → ix_tagShift dix = 0 →
  Forall (λ x, readable x.2) l →
  ∃ (st st' : IndirectMemory G R) os,
    im_new cfg bits len pe pa de da (TaggedSetAssociative pix) (TaggedSetAssociative dix) ps ds g1 g2 = Ok st ∧
    run_accesses cache l st = Ok (st', os) ∧ length os = length l.
Proof.
  intros Hi Hb Hlen Hpa Hpe Hpm Ep Hda Hde Hdm Ed Ht Hl.
  destruct (im_new_wf cfg bits len pe pa de da pix dix ps ds g1 g2 Hi Hb Hlen Hpa Hpe Hpm Ep Hda Hde Hdm Ed Ht) as (st & E & Hwf & _).
  destruct (im_run cache _ l st Hwf Hl) as (st' & os & E' & _ & El). by exists st, st', os.
Qed.


(** *** Examples *)

Definition ex_im_cfg : IMCfg :=
  mkIMCfg (mkBaseCfg 64 6 true true true true true 0 4096 true false false) 16 [2; 3; 4] 2 4 4 little (λ i, 0x7000 + 96 * Z.of_nat i) (λ _ _, 0).

Definition ex_im_new : outcome (IndirectMemory unit LRUReplData) :=
  im_new ex_im_cfg 3 4 4 4 4 4 (TaggedSetAssociative (mkIndexing 4 1 0 0 0)) (TaggedSetAssociative (mkIndexing 4 1 0 0 0))
    [[None; None; None; None]] [[None; None; None; None]] tt tt.

(** A hit that reads the four bytes of [v], and a miss. *)
Definition ex_im_read (pc addr v : Z) : PrefetchInfo := mkPfi addr pc 0 true false 4 false addr false (Some (le_bytes 4 v)).
Definition ex_im_miss (addr : Z) : PrefetchInfo := mkPfi addr 0x999 0 true false 4 false addr true None.

Lemma im_never_stops_witness :
  ∃ (st st' : IndirectMemory unit LRUReplData) os,
    ex_im_new = Ok st ∧
    run_accesses empty_cache [(1, ex_im_read 0x400 0x1000 5); (2, ex_im_read 0x400 0x1004 7); (3, ex_im_miss 0x80001c)] st = Ok (st', os) ∧ length os = 3%nat.
Proof.
  apply (im_never_stops ex_im_cfg 3 4 4 4 4 4 (mkIndexing 4 1 0 0 0) (mkIndexing 4 1 0 0 0) [[None; None; None; None]] [[None; None; None; None]] tt tt empty_cache
    [(1, ex_im_read 0x400 0x1000 5); (2, ex_im_read 0x400 0x1004 7); (3, ex_im_miss 0x80001c)]);
    [by intros; eexists|lia|lia|lia|lia|done|by vm_compute|lia|lia|done|by vm_compute|done|].
  repeat (constructor; [first [by intros [=]|intros; by eexists]|]). constructor.
Defined.

(** The stream of program counter 0x400 has been seen once. *)
Lemma ex_im_runs : is_okb (st ← ex_im_new; run_accesses empty_cache [(1, ex_im_read 0x400 0x1000 5)] st) = true.
Proof. by vm_compute. Qed.

Definition ex_im : IndirectMemory unit LRUReplData := (the_result _ ex_im_runs).1.

Lemma ex_im_wf : im_wf 4 ex_im.
Proof.
  destruct (im_new_wf (G := unit) (R := LRUReplData) ex_im_cfg 3 4 4 4 4 4 (mkIndexing 4 1 0 0 0) (mkIndexing 4 1 0 0 0)
    [[None; None; None; None]] [[None; None; None; None]] tt tt) as (st & E & Hst & _);
    [by intros; eexists|lia|lia|lia|lia|done|by vm_compute|lia|lia|done|by vm_compute|done|].
  destruct (im_run empty_cache 4 [(1, ex_im_read 0x400 0x1000 5)] st Hst) as (st' & os & E' & Hst' & _).
  { repeat (constructor; [first [by intros [=]|intros; by eexists]|]). constructor. }
  assert ((st ← ex_im_new; run_accesses empty_cache [(1, ex_im_read 0x400 0x1000 5)] st) = Ok (st', os)) as E2.
  { change ex_im_new with (im_new (R := LRUReplData) ex_im_cfg 3 4 4 4 4 4 (TaggedSetAssociative (mkIndexing 4 1 0 0 0)) (TaggedSetAssociative (mkIndexing 4 1 0 0 0))
      [[None; None; None; None]] [[None; None; None; None]] tt tt). rewrite E. exact E'. }
  pose proof (the_result_ok _ ex_im_runs) as E3. assert (the_result _ ex_im_runs = (st', os)) as E4 by congruence. unfold ex_im. rewrite E4. exact Hst'.
Qed.

Definition ex_im_entry : PrefetchTableEntry := mkWith (mkTagEntry true false 0x400) (mkPT 0x1000 false 0 false 0 0 0 (mkSat 0 7 0) false).


(** The pattern of the example: elements of four bytes from 0x800000. *)
Example im_example_pattern :
  match run_accesses empty_cache [(2, ex_im_read 0x400 0x1004 7); (3, ex_im_miss 0x80001c); (4, ex_im_read 0x400 0x1008 11); (5, ex_im_miss 0x80002c)] ex_im with
  | Ok (st, _) => (λ e, (enabled (w_data e), pt_baseAddr (w_data e), pt_shift (w_data e))) <$> t_entries (prefetchTable st) !! 0%nat
  | Stop _ => None
  end = Some (true, 0x800000, 2).
Proof. vm_compute. reflexivity. Qed.

(** With a detector of two sets the tag is not the pointer, and the match writes through a
    pointer to no entry. *)
Example im_example_two_sets :
  match
    (st ← im_new (R := LRUReplData) ex_im_cfg 3 4 4 4 4 2 (TaggedSetAssociative (mkIndexing 4 1 0 0 0)) (TaggedSetAssociative (mkIndexing 2 2 0 1 1))
       [[None; None; None; None]] [[None; None]; [None; None]] tt tt;
     run_accesses empty_cache [(1, ex_im_read 0x400 0x1000 5); (2, ex_im_read 0x400 0x1004 7); (3, ex_im_miss 0x80001c); (4, ex_im_read 0x400 0x1008 11);
       (5, ex_im_miss 0x80002c)] st)
  with Stop e => Some e | Ok _ => None end = Some (Panic "pointer to no entry").
Proof. vm_compute. reflexivity. Qed.
