(* ===== verification/FDP.v ===== *)
(** * Fetch directed prefetching

    [src/src/mem/cache/prefetch/fdp.{hh,cc}].  The front end announces the fetch targets it
    enters in its queue; the blocks of a target are translated and then wait in the prefetch
    queue for the cache to take them.  A target that leaves the queue takes its
    prefetches with it.

    The prefetcher is a state machine: targets come and go, translations end in any order and
    the cache asks for packets ([fdp_step]).  A translation that ends within the
    call that starts it is an answer of the argument [mmu]; the others end with an event
    of their own.  A request is identified by a number in place of its address.  The
    distributions of the statistics are not modelled. *)

From Stdlib Require Import ZArith Lia.
From stdpp Require Import base numbers option list strings.
From S2P Require Import Prelude PrefetchBase.
#[local] Open Scope Z_scope.

(** ** Data *)

(** What the prefetcher reads of [o3::FetchTarget]. *)
Record FetchTarget := mkFT { startAddress : Z; endAddress : Z; ftNum : Z; getTid : Z }.

Record PrefetchRequest := mkPR {
  pr_id : nat;
  pr_addr : Z;
  pr_ftn : Z;
  pr_contextId : Z;
  pr_prefetch : bool;        (** [Request::PREFETCH] is set *)
  pr_readyTime : Z;
  pr_canceled : bool;
  pr_pkt : option Z          (** the physical address of the packet *)
}.

(** What a translation leaves in the request. *)
Record Translated := mkTr { tr_paddr : Z; tr_uncacheable : bool; tr_secure : bool }.

Inductive fdp_stat :=
| pfIdentified | pfSquashed | pfInPFQ | pfInTQ | pfInCache | pfPacketsCreated | pfCandidatesAdded
| translationFail | translationSuccess | pfqInserts | pfqPops | pfqDrops | tqInserts | tqPops | tqDrops | fdp_pfIssued.

#[export] Instance fdp_stat_eq_dec : EqDecision fdp_stat.
Proof. solve_decision. Defined.

Record FDPCfg := mkFDPCfg {
  fdp_base : BaseCfg;
  markReqAsPrefetch : bool;
  squashPrefetches : bool;
  fdp_latency : Z;
  pfqSize : Z;
  tqSize : Z;
  cacheSnoop : bool;
  has_mmu : bool;
  contextOf : Z → Z          (** the context of a thread of the CPU *)
}.

Record FDP := mkFDP {
  fdp_cfg : FDPCfg;
  pfq : list PrefetchRequest;
  translationq : list PrefetchRequest;
  next_id : nat;
  fdp_stats : fdp_stat → Z
}.

Definition count (k : fdp_stat) (st : FDP) : FDP :=
  mkFDP (fdp_cfg st) (pfq st) (translationq st) (next_id st) (λ x, fdp_stats st x + (if decide (x = k) then 1 else 0)).

Definition count_n (k : fdp_stat) (n : nat) (st : FDP) : FDP := Nat.iter n (count k) st.

Definition set_pfq (q : list PrefetchRequest) (st : FDP) : FDP := mkFDP (fdp_cfg st) q (translationq st) (next_id st) (fdp_stats st).
Definition set_tq (q : list PrefetchRequest) (st : FDP) : FDP := mkFDP (fdp_cfg st) (pfq st) q (next_id st) (fdp_stats st).

(** ** Operations *)

(** [std::find(q.begin(), q.end(), blk_addr)]: the comparison takes an [int]. *)
Definition pr_equals (r : PrefetchRequest) (a : Z) : bool := pr_addr r =? u64 (i32 a).
Definition in_queue (blk_addr : Z) (q : list PrefetchRequest) : bool := existsb (λ r, pr_equals r blk_addr) q.

Definition pr_new (cfg : FDPCfg) (id : nat) (blk_addr : Z) (ft : FetchTarget) : PrefetchRequest :=
  mkPR id blk_addr (ftNum ft) (contextOf cfg (getTid ft)) (markReqAsPrefetch cfg) MaxTick false None.

(** The block is in the cache or on its way there. *)
Definition snooped (cfg : FDPCfg) (cache : option CacheAccessor) (tr : Translated) : bool :=
  match cache with
  | Some c => cacheSnoop cfg && (inCache c (tr_paddr tr) (tr_secure tr) || inMissQueue c (tr_paddr tr) (tr_secure tr))
  | None => false
  end.

(** [createPkt] and the time the packet is ready. *)
Definition pr_ready (curTick : Z) (cfg : FDPCfg) (tr : Translated) (r : PrefetchRequest) : PrefetchRequest :=
  mkPR (pr_id r) (pr_addr r) (pr_ftn r) (pr_contextId r) (pr_prefetch r) (u64 (curTick + fdp_latency cfg)) (pr_canceled r) (Some (tr_paddr tr)).

(** What the result of a translation, or a fault, does with request [r]. *)
Definition translated (curTick : Z) (cache : option CacheAccessor) (r : PrefetchRequest) (res : option Translated) (st : FDP) : FDP :=
  let cfg := fdp_cfg st in
  match res with
  | None => count translationFail st
  | Some tr =>
      let st := count translationSuccess st in
      if pr_canceled r then st
      else if tr_uncacheable tr then st
      else if snooped cfg cache tr then count pfInCache st
      else if Z.of_nat (length (pfq st)) <? pfqSize cfg then
        let st := count pfCandidatesAdded (count pfPacketsCreated st) in
        count pfqInserts (set_pfq (pfq st ++ [pr_ready curTick cfg tr r]) st)
      else count pfqDrops st
  end.

(** The end of the translation of request [id]. *)
Definition translationComplete (curTick : Z) (cache : option CacheAccessor) (id : nat) (res : option Translated) (st : FDP) : outcome FDP :=
  match List.find (λ r, bool_decide (pr_id r = id)) (translationq st) with
  | None => Stop (AssertFail "it != translationq.end()")
  | Some r =>
      let st := translated curTick cache r res st in
      Ok (count tqPops (set_tq (filter (λ r, pr_id r ≠ id) (translationq st)) st))
  end.

(** One block of a fetch target.  [mmu] answers when the translation ends at once. *)
Definition notify_block (curTick : Z) (cache : option CacheAccessor) (mmu : PrefetchRequest → option (option Translated)) (ft : FetchTarget)
    (blk_addr : Z) (st : FDP) : outcome FDP :=
  let cfg := fdp_cfg st in
  if in_queue blk_addr (pfq st) then Ok (count pfInPFQ st)
  else if in_queue blk_addr (translationq st) then Ok (count pfInTQ st)
  else
    let st := count pfIdentified st in
    if tqSize cfg <=? Z.of_nat (length (translationq st)) then Ok (count tqDrops st)
    else
      let r := pr_new cfg (next_id st) blk_addr ft in
      let st := mkFDP cfg (pfq st) (translationq st ++ [r]) (S (next_id st)) (fdp_stats st) in
      _ ← assert_that (has_mmu cfg) "owner.mmu != nullptr";
      st ← match mmu r with Some res => translationComplete curTick cache (pr_id r) res st | None => Ok st end;
      Ok (count tqInserts st).

(** The loop over the blocks, with fuel: [None] while it has not ended. *)
Fixpoint notify_blocks (fuel : nat) (curTick : Z) (cache : option CacheAccessor) (mmu : PrefetchRequest → option (option Translated))
    (ft : FetchTarget) (blk_addr end_blk_addr : Z) (st : FDP) : outcome (option FDP) :=
  if blk_addr <=? end_blk_addr then
    match fuel with
    | O => Ok None
    | S fuel =>
        st ← notify_block curTick cache mmu ft blk_addr st;
        notify_blocks fuel curTick cache mmu ft (u64 (blk_addr + blkSize (fdp_base (fdp_cfg st)))) end_blk_addr st
    end
  else Ok (Some st).

Definition notifyFTQInsert (fuel : nat) (curTick : Z) (cache : option CacheAccessor) (mmu : PrefetchRequest → option (option Translated))
    (ft : FetchTarget) (st : FDP) : outcome (option FDP) :=
  let base := fdp_base (fdp_cfg st) in
  notify_blocks fuel curTick cache mmu ft (blockAddress base (startAddress ft)) (blockAddress base (endAddress ft)) st.

Definition of_target (ft : FetchTarget) (r : PrefetchRequest) : bool := pr_ftn r =? ftNum ft.

Definition markCanceled (r : PrefetchRequest) : PrefetchRequest :=
  mkPR (pr_id r) (pr_addr r) (pr_ftn r) (pr_contextId r) (pr_prefetch r) (pr_readyTime r) true (pr_pkt r).

Definition notifyFTQRemove (ft : FetchTarget) (st : FDP) : FDP :=
  if negb (squashPrefetches (fdp_cfg st)) then st else
  let hit q := length (filter (λ r, of_target ft r = true) q) in
  let st := count_n pfSquashed (hit (translationq st)) (set_tq ((λ r, if of_target ft r then markCanceled r else r) <$> translationq st) st) in
  count_n pfSquashed (hit (pfq st)) (set_pfq (filter (λ r, of_target ft r = false) (pfq st)) st).

Definition fdp_getPacket (st : FDP) : option PrefetchRequest * FDP :=
  match pfq st with
  | [] => (None, st)
  | r :: q => (Some r, count fdp_pfIssued (count pfqPops (set_pfq q st)))
  end.

Definition fdp_nextPrefetchReadyTime (st : FDP) : Z :=
  match pfq st with [] => MaxTick | r :: _ => pr_readyTime r end.

Definition fdp_new (cfg : FDPCfg) : FDP := mkFDP cfg [] [] 0 (λ _, 0).

(** ** The state machine *)

Inductive fdp_event :=
| FTQInsert (ft : FetchTarget)
| FTQRemove (ft : FetchTarget)
| TranslationEnds (id : nat)
| CacheTakes (pkt : option PrefetchRequest).

Inductive fdp_step : fdp_event → FDP → FDP → Prop :=
| step_insert fuel t cache mmu ft st st' :
    notifyFTQInsert fuel t cache mmu ft st = Ok (Some st') → fdp_step (FTQInsert ft) st st'
| step_remove ft st : fdp_step (FTQRemove ft) st (notifyFTQRemove ft st)
| step_translated t cache id res st st' :
    translationComplete t cache id res st = Ok st' → fdp_step (TranslationEnds id) st st'
| step_packet st o st' : fdp_getPacket st = (o, st') → fdp_step (CacheTakes o) st st'.

Inductive fdp_run : FDP → list fdp_event → FDP → Prop :=
| run_nil st : fdp_run st [] st
| run_cons e st st1 es st2 : fdp_step e st st1 → fdp_run st1 es st2 → fdp_run st (e :: es) st2.

(** ** Facts *)

Ltac fdp_cbn := cbn [fdp_cfg pfq translationq next_id fdp_stats count set_pfq set_tq].
Ltac fdp_stats :=
  repeat match goal with
  | |- context [decide (?x = ?y)] =>
      first [rewrite (decide_True (P := x = y)) by reflexivity | rewrite (decide_False (P := x = y)) by discriminate]
  end.

Lemma count_n_stats k n st x : fdp_stats (count_n k n st) x = fdp_stats st x + (if decide (x = k) then Z.of_nat n else 0).
Proof.
  induction n as [|n IH]; [cbn; case_decide; lia|]. change (count_n k (S n) st) with (count k (count_n k n st)). fdp_cbn.
  rewrite IH. case_decide; lia.
Qed.

Lemma count_n_queues k n st :
  fdp_cfg (count_n k n st) = fdp_cfg st ∧ pfq (count_n k n st) = pfq st ∧ translationq (count_n k n st) = translationq st ∧ next_id (count_n k n st) = next_id st.
Proof. induction n as [|n IH]; [done|]. exact IH. Qed.

(** A request that was translated may enter the prefetch queue. *)
Lemma translated_queues t cache r res st :
  let st' := translated t cache r res st in
  fdp_cfg st' = fdp_cfg st ∧ translationq st' = translationq st ∧ next_id st' = next_id st ∧
  (pfq st' = pfq st ∨ ∃ tr, pr_canceled r = false ∧ pfq st' = pfq st ++ [pr_ready t (fdp_cfg st) tr r]).
Proof.
  unfold translated. destruct res as [tr|]; [|auto]. destruct (pr_canceled r) eqn:Hc; [auto|]. destruct (tr_uncacheable tr); [auto|].
  destruct (snooped _ _ _); [auto|]. destruct (_ <? _); [|auto]. split_and!; [done..|]. right. by exists tr.
Qed.

(** What holds of all elements holds of those a filter keeps. *)
Lemma keep_all {A} (P Q : A → Prop) `{∀ x, Decision (Q x)} l : Forall P l → Forall P (filter Q l).
Proof. rewrite !Forall_forall. intros Hl x [_ Hx]%list_elem_of_filter. by apply Hl. Qed.

(** A property of the requests of the two queues that the operations keep: it holds for the
    requests of the blocks that are announced, and survives the changes of a request. *)
Section Queues.
Context (T Q : PrefetchRequest → Prop).

Definition queues_ok (st : FDP) : Prop := Forall T (translationq st) ∧ Forall Q (pfq st).

Context (HTQ : ∀ t cfg tr r, T r → pr_canceled r = false → Q (pr_ready t cfg tr r)).

Lemma complete_queues t cache id res st st' : translationComplete t cache id res st = Ok st' → queues_ok st → queues_ok st'.
Proof using HTQ.
  unfold translationComplete. destruct (List.find _ _) as [r|] eqn:Ef; [|done]. apply List.find_some in Ef as [Hr%list_elem_of_In _].
  intros [= <-] [Ht Hq]. pose proof (proj1 (Forall_forall _ _) Ht r Hr) as Tr. destruct (translated_queues t cache r res st) as (_ & Etq & _ & Hpfq).
  split; fdp_cbn; [rewrite Etq; by apply keep_all|]. destruct Hpfq as [->|(tr & Hc & ->)]; [done|]. apply Forall_app. split; [done|]. constructor; [by apply HTQ|constructor].
Qed.

Lemma block_queues t cache mmu ft a st st' :
  notify_block t cache mmu ft a st = Ok st' → (∀ id, T (pr_new (fdp_cfg st) id a ft)) → queues_ok st → queues_ok st'.
Proof using HTQ.
  intros E HT [Ht Hq]. revert E. unfold notify_block. destruct (in_queue a (pfq st)); [by intros [= <-]|].
  destruct (in_queue a (translationq st)); [by intros [= <-]|]. destruct (_ <=? _); [by intros [= <-]|].
  intros (_ & _ & (st1 & E1 & [= <-])%outcome_bind_ok)%outcome_bind_ok. set (st0 := mkFDP _ _ _ _ _) in E1.
  assert (queues_ok st0) as H0 by (split; [apply Forall_app; split; [done|]; constructor; [apply HT|constructor]|done]).
  destruct (mmu _) as [res|]; [|injection E1 as <-; exact H0]. destruct (complete_queues _ _ _ _ _ _ E1 H0). by split.
Qed.
End Queues.

(** *** The invariant *)

(** The queues are bounded, the requests in translation have distinct numbers and those that
    wait for the cache a packet. *)
Record fdp_wf (st : FDP) : Prop := {
  fw_ids : NoDup (pr_id <$> translationq st);
  fw_fresh : Forall (λ r, (pr_id r < next_id st)%nat) (translationq st);
  fw_tq : Z.of_nat (length (translationq st)) ≤ Z.max 0 (tqSize (fdp_cfg st));
  fw_pfq : Z.of_nat (length (pfq st)) ≤ Z.max 0 (pfqSize (fdp_cfg st));
  fw_ready : Forall (λ r, pr_canceled r = false ∧ is_Some (pr_pkt r)) (pfq st)
}.

(** The statistics add up; [d] requests have entered the translation queue and are not
    counted yet. *)
Record fdp_counts (d : Z) (st : FDP) : Prop := {
  fc_inserts : fdp_stats st tqInserts + d = fdp_stats st tqPops + Z.of_nat (length (translationq st));
  fc_identified : fdp_stats st pfIdentified = fdp_stats st tqInserts + d + fdp_stats st tqDrops;
  fc_ends : fdp_stats st tqPops = fdp_stats st translationFail + fdp_stats st translationSuccess;
  fc_packets : fdp_stats st pfPacketsCreated = fdp_stats st pfqInserts;
  fc_candidates : fdp_stats st pfCandidatesAdded = fdp_stats st pfqInserts;
  fc_issued : fdp_stats st fdp_pfIssued = fdp_stats st pfqPops;
  fc_waiting : fdp_stats st pfqPops + Z.of_nat (length (pfq st)) ≤ fdp_stats st pfqInserts;
  fc_squashed : fdp_stats st pfqInserts ≤ fdp_stats st pfqPops + Z.of_nat (length (pfq st)) + fdp_stats st pfSquashed
}.

Ltac fdp_counts := split; fdp_cbn; rewrite ?length_app; fdp_stats; cbn [length]; lia.

(** A request among others with distinct numbers is found by its number, and taken out. *)
Lemma request_found r l : NoDup (pr_id <$> l) → r ∈ l →
  List.find (λ x, bool_decide (pr_id x = pr_id r)) l = Some r ∧ S (length (filter (λ x, pr_id x ≠ pr_id r) l)) = length l.
Proof.
  induction l as [|x l IH]; cbn [fmap list_fmap]; intros Hnd Hr; [by apply elem_of_nil in Hr|]. apply NoDup_cons in Hnd as [Hx Hnd].
  apply elem_of_cons in Hr as [->|Hr].
  - cbn [List.find]. rewrite bool_decide_true by done. rewrite filter_cons_False by (intros H; by apply H). split; [done|]. cbn [length]. f_equal.
    clear IH Hnd. induction l as [|y l IH]; [done|]. cbn [fmap list_fmap] in Hx. apply not_elem_of_cons in Hx as [Hy Hx].
    rewrite filter_cons_True by congruence. cbn [length]. f_equal. by apply IH.
  - assert (pr_id x ≠ pr_id r) as Hne. { intros E. apply Hx. rewrite E. by apply list_elem_of_fmap_2. }
    cbn [List.find]. rewrite bool_decide_false by done. rewrite filter_cons_True by done. destruct (IH Hnd Hr) as [E1 E2]. split; [done|]. cbn [length]. by rewrite E2.
Qed.

Lemma keep_ids P `{∀ x, Decision (P x)} l : NoDup (pr_id <$> l) → NoDup (pr_id <$> filter P l).
Proof.
  induction l as [|x l IH]; [done|]. cbn [fmap list_fmap]. intros [Hx Hl]%NoDup_cons. rewrite filter_cons. case_decide; [|by apply IH].
  cbn [fmap list_fmap]. apply NoDup_cons. split; [|by apply IH]. intros (y & E & [_ Hy]%list_elem_of_filter)%list_elem_of_fmap.
  apply Hx. rewrite E. by apply list_elem_of_fmap_2.
Qed.

(** The number of a request that ends its translation is the one of a request in translation. *)
Lemma complete_at t cache id res st st' : translationComplete t cache id res st = Ok st' → ∃ r, r ∈ translationq st ∧ pr_id r = id.
Proof.
  unfold translationComplete. destruct (List.find _ _) as [r|] eqn:Ef; [|done]. apply List.find_some in Ef as [Hr%list_elem_of_In Hid].
  apply bool_decide_eq_true in Hid. intros _. by exists r.
Qed.

Lemma complete_eq t cache r res st : fdp_wf st → r ∈ translationq st →
  translationComplete t cache (pr_id r) res st =
    Ok (let st := translated t cache r res st in count tqPops (set_tq (filter (λ x, pr_id x ≠ pr_id r) (translationq st)) st)).
Proof. intros Hwf Hr. unfold translationComplete. by rewrite (proj1 (request_found r _ (fw_ids _ Hwf) Hr)). Qed.

Lemma complete_wf t cache id res st st' : translationComplete t cache id res st = Ok st' → fdp_wf st → fdp_wf st' ∧ fdp_cfg st' = fdp_cfg st.
Proof.
  intros E Hwf. destruct (complete_at _ _ _ _ _ _ E) as (r & Hr & <-). rewrite (complete_eq t cache r res st Hwf Hr) in E. injection E as <-.
  destruct Hwf as [H1 H2 H3 H4 H5]. destruct (request_found r _ H1 Hr) as [_ Hlen]. destruct (translated_queues t cache r res st) as (Ec & Etq & Eid & Hpfq).
  split; [|done]. split; fdp_cbn; rewrite ?Ec, ?Etq, ?Eid; [by apply keep_ids|by apply keep_all|lia|..].
  - unfold translated. destruct res as [tr|]; [|done]. destruct (pr_canceled r); [done|]. destruct (tr_uncacheable tr); [done|]. destruct (snooped _ _ _); [done|].
    fdp_cbn. destruct (Z.ltb_spec (Z.of_nat (length (pfq st))) (pfqSize (fdp_cfg st))); [|done]. fdp_cbn. rewrite length_app. cbn. lia.
  - destruct Hpfq as [->|(tr & Hc & ->)]; [done|]. apply Forall_app. split; [done|]. constructor; [|constructor]. split; [done|by eexists].
Qed.

Lemma complete_counts t cache id res d st st' : translationComplete t cache id res st = Ok st' → fdp_wf st → fdp_counts d st → fdp_counts d st'.
Proof.
  intros E Hwf [C1 C2 C3 C4 C5 C6 C7 C8]. destruct (complete_at _ _ _ _ _ _ E) as (r & Hr & <-). rewrite (complete_eq t cache r res st Hwf Hr) in E. injection E as <-.
  destruct (request_found r _ (fw_ids _ Hwf) Hr) as [_ Hlen]. destruct (translated_queues t cache r res st) as (_ & -> & _ & _).
  unfold translated. destruct res as [tr|]; [|fdp_counts]. destruct (pr_canceled r); [fdp_counts|]. destruct (tr_uncacheable tr); [fdp_counts|].
  destruct (snooped _ _ _); [fdp_counts|]. destruct (_ <? _); fdp_counts.
Qed.

(** *** A fetch target *)

Lemma block_ok t cache mmu ft a st : has_mmu (fdp_cfg st) = true → fdp_wf st →
  ∃ st', notify_block t cache mmu ft a st = Ok st' ∧ fdp_wf st' ∧ fdp_cfg st' = fdp_cfg st ∧ (fdp_counts 0 st → fdp_counts 0 st').
Proof.
  intros Hmmu Hwf. unfold notify_block. destruct (in_queue a (pfq st)); [eexists; split; [done|]; split; [by destruct Hwf|]; split; [done|]; intros []; fdp_counts|].
  destruct (in_queue a (translationq st)); [eexists; split; [done|]; split; [by destruct Hwf|]; split; [done|]; intros []; fdp_counts|].
  fdp_cbn. destruct (Z.leb_spec (tqSize (fdp_cfg st)) (Z.of_nat (length (translationq st)))) as [|Hroom];
    [eexists; split; [done|]; split; [by destruct Hwf|]; split; [done|]; intros []; fdp_counts|].
  rewrite Hmmu. cbn [assert_that mbind outcome_bind]. set (r := pr_new _ _ _ _). set (st0 := mkFDP _ _ _ _ _).
  assert (fdp_wf st0) as Hwf0.
  { destruct Hwf as [H1 H2 H3 H4 H5]. split; unfold st0; fdp_cbn; [| |rewrite length_app; cbn; lia|done|done].
    - rewrite fmap_app. apply NoDup_app. split_and!; [done| |apply NoDup_singleton]. intros i (x & -> & Hx)%list_elem_of_fmap Hi. apply list_elem_of_singleton in Hi.
      rewrite Forall_forall in H2. specialize (H2 x Hx). cbn in Hi. lia.
    - apply Forall_app. split; [eapply Forall_impl; [exact H2|cbn; lia]|]. constructor; [cbn; lia|constructor]. }
  assert (fdp_counts 0 st → fdp_counts 1 st0) as Hc0 by (intros [C1 C2 C3 C4 C5 C6 C7 C8]; unfold st0; fdp_counts).
  destruct (mmu r) as [res|].
  - assert (r ∈ translationq st0) as Hr by (apply elem_of_app; right; by apply list_elem_of_singleton).
    assert (∃ st1, translationComplete t cache (pr_id r) res st0 = Ok st1) as [st1 E] by (eexists; by apply complete_eq). rewrite E. cbn [mbind outcome_bind].
    destruct (complete_wf _ _ _ _ _ _ E Hwf0) as [Hwf1 Ec1]. exists (count tqInserts st1). split; [done|]. split; [by destruct Hwf1|]. split; [done|].
    intros Hc. destruct (complete_counts _ _ _ _ 1 _ _ E Hwf0 (Hc0 Hc)) as [C1 C2 C3 C4 C5 C6 C7 C8]. fdp_counts.
  - cbn [mbind outcome_bind]. exists (count tqInserts st0). split; [done|]. split; [by destruct Hwf0|]. split; [done|].
    intros Hc. destruct (Hc0 Hc) as [C1 C2 C3 C4 C5 C6 C7 C8]. fdp_counts.
Qed.

(** A target that leaves the queue of the front end. *)
Lemma remove_queues ft st :
  let st' := notifyFTQRemove ft st in
  squashPrefetches (fdp_cfg st) = true →
  fdp_cfg st' = fdp_cfg st ∧ next_id st' = next_id st ∧
  translationq st' = (λ r, if of_target ft r then markCanceled r else r) <$> translationq st ∧
  pfq st' = filter (λ r, of_target ft r = false) (pfq st) ∧
  fdp_stats st' pfSquashed = fdp_stats st pfSquashed + Z.of_nat (length (filter (λ r, of_target ft r = true) (translationq st)))
                             + Z.of_nat (length (filter (λ r, of_target ft r = true) (pfq st))) ∧
  ∀ k, k ≠ pfSquashed → fdp_stats st' k = fdp_stats st k.
Proof.
  intros st' Hs. unfold st', notifyFTQRemove. rewrite Hs. cbn [negb]. set (n := length (filter _ (translationq st))). set (q := fmap _ _).
  destruct (count_n_queues pfSquashed n (set_tq q st)) as (E1 & E2 & E3 & E4). set (st1 := count_n pfSquashed n (set_tq q st)) in *.
  set (m := length _). set (q' := filter _ (pfq st1)). destruct (count_n_queues pfSquashed m (set_pfq q' st1)) as (F1 & F2 & F3 & F4).
  rewrite F1, F2, F3, F4. fdp_cbn. rewrite E1, E3, E4. split_and!; [done|done|done|by unfold q'; rewrite E2|..].
  - rewrite count_n_stats. fdp_cbn. unfold st1. rewrite count_n_stats. fdp_stats. fdp_cbn. unfold m. by rewrite E2.
  - intros k Hk. rewrite count_n_stats. fdp_cbn. unfold st1. rewrite count_n_stats. rewrite !decide_False by done. fdp_cbn. lia.
Qed.

Lemma filter_lengths ft l : (length (filter (λ r, of_target ft r = true) l) + length (filter (λ r, of_target ft r = false) l))%nat = length l.
Proof.
  induction l as [|r l IH]; [done|]. destruct (of_target ft r) eqn:E.
  - rewrite filter_cons_True, filter_cons_False by congruence. cbn [length]. lia.
  - rewrite filter_cons_False, filter_cons_True by congruence. cbn [length]. lia.
Qed.

Lemma remove_ok ft st : fdp_wf st → fdp_wf (notifyFTQRemove ft st) ∧ fdp_cfg (notifyFTQRemove ft st) = fdp_cfg st ∧
  (fdp_counts 0 st → fdp_counts 0 (notifyFTQRemove ft st)).
Proof.
  intros Hwf. destruct (squashPrefetches (fdp_cfg st)) eqn:Hs; [|unfold notifyFTQRemove; by rewrite Hs].
  destruct (remove_queues ft st Hs) as (E1 & E2 & E3 & E4 & E5 & E6). pose proof (filter_lengths ft (pfq st)) as Hl. destruct Hwf as [H1 H2 H3 H4 H5].
  split_and!; [|done|].
  - split; rewrite ?E1, ?E2, ?E3, ?E4; [| |by rewrite length_fmap|lia|by apply keep_all].
    + rewrite <-list_fmap_compose. rewrite (list_fmap_ext _ pr_id); [done|]. intros i r _. unfold compose. by destruct (of_target ft r).
    + rewrite Forall_fmap. eapply Forall_impl; [exact H2|]. intros r Hr. unfold compose. by destruct (of_target ft r).
  - intros [C1 C2 C3 C4 C5 C6 C7 C8]. split; rewrite ?E3, ?E4, ?E5, ?length_fmap, !E6 by done; (done || lia).
Qed.

Lemma packet_ok st o st' : fdp_getPacket st = (o, st') → fdp_wf st → fdp_wf st' ∧ fdp_cfg st' = fdp_cfg st ∧ (fdp_counts 0 st → fdp_counts 0 st').
Proof.
  unfold fdp_getPacket. intros E [H1 H2 H3 H4 H5]. destruct (pfq st) as [|r q] eqn:Eq; injection E as <- <-; [by split_and!; [split; rewrite ?Eq|..]|].
  cbn [length] in H4. apply Forall_cons in H5 as [_ H5]. split_and!; [split; fdp_cbn; (done || lia)|done|].
  intros [C1 C2 C3 C4 C5 C6 C7 C8]. rewrite Eq in *. cbn [length] in *. fdp_counts.
Qed.

(** ** The loop over the blocks of a target *)

Section Loop.
Context (t : Z) (cache : option CacheAccessor) (mmu : PrefetchRequest → option (option Translated)) (ft : FetchTarget).

(** Below the last block of the address space it visits each block once. *)
Lemma blocks_end e : ∀ fuel a st, let B := blkSize (fdp_base (fdp_cfg st)) in
  has_mmu (fdp_cfg st) = true → fdp_wf st → 0 < B → 0 ≤ a → e + B < 2 ^ 64 → e < a + Z.of_nat fuel * B →
  ∃ st', notify_blocks fuel t cache mmu ft a e st = Ok (Some st').
Proof using Type.
  induction fuel as [|fuel IH]; intros a st B Hm Hwf HB Ha He Hf; cbn [notify_blocks].
  - destruct (Z.leb_spec a e); [lia|]. by exists st.
  - destruct (Z.leb_spec a e); [|by exists st]. destruct (block_ok t cache mmu ft a st Hm Hwf) as (st1 & -> & Hwf1 & Ec & _). cbn [mbind outcome_bind].
    rewrite Ec. fold B. rewrite wrap_id by (unfold in_u; lia). apply IH; rewrite ?Ec; fold B; try done; lia.
Qed.

(** In the last block the counter wraps around, and the loop never ends. *)
Lemma blocks_endless e : ∀ fuel a st, let B := blkSize (fdp_base (fdp_cfg st)) in
  has_mmu (fdp_cfg st) = true → fdp_wf st → 0 < B → 0 ≤ a ≤ e → (B | a) → (B | 2 ^ 64) → e + B = 2 ^ 64 →
  notify_blocks fuel t cache mmu ft a e st = Ok None.
Proof using Type.
  induction fuel as [|fuel IH]; intros a st B Hm Hwf HB Ha Hda Hd He; cbn [notify_blocks]; rewrite (proj2 (Z.leb_le _ _)) by lia; [done|].
  destruct (block_ok t cache mmu ft a st Hm Hwf) as (st1 & -> & Hwf1 & Ec & _). cbn [mbind outcome_bind]. rewrite Ec. fold B.
  destruct (decide (a = e)) as [->|Hne].
  - replace (u64 (e + B)) with 0 by (unfold wrap; by rewrite He, Z.mod_same). apply IH; rewrite ?Ec; fold B; try done; [lia|apply Z.divide_0_r].
  - assert (a + B ≤ e) as Hle. { destruct Hda as [x ->], Hd as [y Ey]. rewrite Ey in He. assert (x < y - 1) as Hxy; nia. }
    rewrite wrap_id by (unfold in_u; lia). apply IH; rewrite ?Ec; fold B; try done; [lia|]. by apply Z.divide_add_r.
Qed.

(** What each block keeps, the loop keeps. *)
Lemma blocks_keep (I : FDP → Prop) e s : ∀ fuel a st st', let B := blkSize (fdp_base (fdp_cfg st)) in
  (∀ a st st', (∃ k, 0 ≤ k ∧ a = s + k * B ∧ a ≤ e) → I st → notify_block t cache mmu ft a st = Ok st' → I st' ∧ fdp_cfg st' = fdp_cfg st) →
  0 < B → 0 ≤ s → e + B < 2 ^ 64 → (∃ k, 0 ≤ k ∧ a = s + k * B) → I st → notify_blocks fuel t cache mmu ft a e st = Ok (Some st') → I st' ∧ fdp_cfg st' = fdp_cfg st.
Proof using Type.
  induction fuel as [|fuel IH]; intros a st st' B Hk HB Hs He Ha HI; cbn [notify_blocks]; (destruct (Z.leb_spec a e); [|by intros [= <-]]); [done|].
  destruct Ha as (k & Hk0 & Ea). intros (st1 & E1 & E2)%outcome_bind_ok. destruct (Hk a st st1) as [HI1 Ec]; [by exists k|done|done|]. rewrite Ec in E2. fold B in E2.
  rewrite wrap_id in E2 by (unfold in_u; nia). rewrite <-Ec. eapply (IH (a + B)); rewrite ?Ec; fold B; try done. exists (k + 1). lia.
Qed.
End Loop.

(** ** Runs *)

(** The targets are below the last block of the address space. *)
Definition target_ok (cfg : FDPCfg) (ft : FetchTarget) : Prop :=
  in_u 64 (startAddress ft) ∧ blockAddress (fdp_base cfg) (endAddress ft) + blkSize (fdp_base cfg) < 2 ^ 64.

(** [a] is one of the blocks from the first to the last of a target. *)
Definition block_of (cfg : FDPCfg) (ft : FetchTarget) (a : Z) : Prop :=
  ∃ k, 0 ≤ k ∧ a = blockAddress (fdp_base cfg) (startAddress ft) + k * blkSize (fdp_base cfg) ∧ a ≤ blockAddress (fdp_base cfg) (endAddress ft).

(** A request is for a block of a target that was announced in [h] and that has not left
    since. *)
Definition announced (cfg : FDPCfg) (h : list fdp_event) (r : PrefetchRequest) : Prop :=
  ∃ a ft b, h = a ++ FTQInsert ft :: b ∧ pr_ftn r = ftNum ft ∧ block_of cfg ft (pr_addr r) ∧
    (squashPrefetches cfg = true → ∀ ft', FTQRemove ft' ∈ b → ftNum ft' ≠ ftNum ft).

Lemma announced_snoc cfg h r e :
  announced cfg h r → (∀ ft, e = FTQRemove ft → squashPrefetches cfg = true → ftNum ft ≠ pr_ftn r) → announced cfg (h ++ [e]) r.
Proof.
  intros (a & ft & b & -> & E1 & E2 & E3) He. exists a, ft, (b ++ [e]). rewrite <-app_assoc. split_and!; [done..|].
  intros Hs ft' [Hb|Hb%list_elem_of_singleton]%elem_of_app; [by apply E3|]. rewrite <-E1. by apply He.
Qed.

(** After the history [h]. *)
Record fdp_after (cfg : FDPCfg) (h : list fdp_event) (st : FDP) : Prop := {
  fa_cfg : fdp_cfg st = cfg;
  fa_wf : fdp_wf st;
  fa_counts : fdp_counts 0 st;
  fa_queues : queues_ok (λ r, pr_canceled r = false → announced cfg h r) (announced cfg h) st
}.

Section Runs.
Context (cfg : FDPCfg) (Hbase : cfg_wf (fdp_base cfg)) (Hmmu : has_mmu cfg = true).

Lemma after_quiet h e st : (∀ ft, e ≠ FTQRemove ft) → fdp_after cfg h st → fdp_after cfg (h ++ [e]) st.
Proof using Type.
  intros He [H1 H2 H3 [H4 H5]]. split; [done..|]. split; (eapply Forall_impl; [eassumption|]); cbn; intros; apply announced_snoc; (by auto || by intros ft ->; destruct (He ft)).
Qed.

Lemma after_insert h fuel t cache mmu ft st st' : target_ok cfg ft → fdp_after cfg h st → notifyFTQInsert fuel t cache mmu ft st = Ok (Some st') →
  fdp_after cfg (h ++ [FTQInsert ft]) st'.
Proof using Hbase Hmmu.
  intros [Hs He] Ha E. apply (after_quiet h (FTQInsert ft)) in Ha; [|done]. unfold notifyFTQInsert in E. rewrite (fa_cfg _ _ _ Ha) in E.
  pose proof (blkSize_pos _ Hbase) as HB. pose proof (blockAddress_range _ Hbase _ Hs) as [Hs0 _].
  eapply (blocks_keep t cache mmu ft (fdp_after cfg (h ++ [FTQInsert ft]))); [|..|exact E]; rewrite ?(fa_cfg _ _ _ Ha); try done; [|exists 0; lia].
  clear st st' Ha E. intros a st st' Hk [H1 H2 H3 H4] E. rewrite <-H1 in Hmmu. destruct (block_ok t cache mmu ft a st Hmmu H2) as (st1 & E1 & Hwf1 & Ec & Hc).
  rewrite E in E1. injection E1 as <-. split; [|done]. split; [congruence|done|by apply Hc|]. eapply block_queues; [|exact E| |exact H4].
  - intros t' cfg' tr r Hr Hc'. exact (Hr Hc').
  - intros id _. exists h, ft, []. split_and!; [done|done|exact Hk|]. by intros _ ? ?%elem_of_nil.
Qed.

Lemma after_remove h ft st : fdp_after cfg h st → fdp_after cfg (h ++ [FTQRemove ft]) (notifyFTQRemove ft st).
Proof using Type.
  intros [H1 H2 H3 [H4 H5]]. destruct (remove_ok ft st H2) as (Hwf & Ec & Hc). split; [congruence|done|by apply Hc|].
  destruct (squashPrefetches (fdp_cfg st)) eqn:Hs.
  - destruct (remove_queues ft st Hs) as (_ & _ & E3 & E4 & _). split; rewrite ?E3, ?E4.
    + rewrite Forall_fmap. eapply Forall_impl; [exact H4|]. intros r Hr. unfold compose. destruct (of_target ft r) eqn:Et; [done|]. intros Hn. apply announced_snoc; [by apply Hr|].
      intros ft' [= <-] _. unfold of_target in Et. apply Z.eqb_neq in Et. by apply not_eq_sym.
    + apply Forall_forall. intros r [Et Hr]%list_elem_of_filter. rewrite Forall_forall in H5. apply announced_snoc; [by apply H5|].
      intros ft' [= <-] _. unfold of_target in Et. apply Z.eqb_neq in Et. by apply not_eq_sym.
  - unfold notifyFTQRemove. rewrite Hs. cbn [negb]. rewrite H1 in Hs.
    split; (eapply Forall_impl; [eassumption|]); cbn; intros; (apply announced_snoc; [by auto|intros ? _; congruence]).
Qed.

Lemma after_step h e st st' : (∀ ft, e = FTQInsert ft → target_ok cfg ft) → fdp_after cfg h st → fdp_step e st st' →
  fdp_after cfg (h ++ [e]) st' ∧ ∀ r, e = CacheTakes (Some r) → announced cfg h r.
Proof using Hbase Hmmu.
  intros He Ha Hstep. destruct Hstep as [fuel t cache mmu ft st st' E|ft st|t cache id res st st' E|st o st' E].
  - split; [|done]. eapply after_insert; [by apply He|exact Ha|exact E].
  - split; [by apply after_remove|done].
  - split; [|done]. apply after_quiet; [done|]. destruct Ha as [H1 H2 H3 H4]. destruct (complete_wf _ _ _ _ _ _ E H2) as [Hwf Ec].
    split; [congruence|done|by eapply complete_counts|]. eapply complete_queues; [|exact E|exact H4]. intros t' cfg' tr r Hr Hc'. exact (Hr Hc').
  - pose proof (packet_ok st o st' E (fa_wf _ _ _ Ha)) as (Hwf & Ec & Hc). destruct Ha as [H1 H2 H3 [H4 H5]]. unfold fdp_getPacket in E.
    destruct (pfq st) as [|r q] eqn:Eq; injection E as <- <-.
    + split; [|done]. apply after_quiet; [done|]. split; [done..|]. split; [done|by rewrite Eq].
    + apply Forall_cons in H5 as [Hr H5]. split; [|by intros ? [= <-]]. apply after_quiet; [done|]. split; [done|done|by apply Hc|]. by split.
Qed.

Lemma after_run es : ∀ h st st', (∀ ft, FTQInsert ft ∈ es → target_ok cfg ft) → fdp_after cfg h st → fdp_run st es st' →
  fdp_after cfg (h ++ es) st' ∧ ∀ es1 r es2, es = es1 ++ CacheTakes (Some r) :: es2 → announced cfg (h ++ es1) r.
Proof using Hbase Hmmu.
  intros h st st' Hes Ha Hrun. revert h Hes Ha. induction Hrun as [st|e st st1 es st2 Hstep _ IH]; intros h Hes Ha.
  - rewrite app_nil_r. split; [done|]. by intros [|? ?] r es2 [=].
  - destruct (after_step h e st st1) as [Ha1 Hr]; [intros ft ->; apply Hes; by left|done|done|].
    destruct (IH (h ++ [e])) as [Ha2 Hr2]; [intros ft Hft; apply Hes; by right|done|]. rewrite <-app_assoc in Ha2. split; [exact Ha2|].
    intros [|x es1] r es2 [= -> ->]; [rewrite app_nil_r; by apply Hr|]. specialize (Hr2 es1 r es2 eq_refl). by rewrite <-app_assoc in Hr2.
Qed.
End Runs.

Lemma after_new cfg : fdp_after cfg [] (fdp_new cfg).
Proof. split; [done| | |by split]; split; cbn; (done || lia || constructor). Qed.

(** ** Theorems *)

(** C26: the queues stay within their sizes and the statistics add up, in every state that
    can be reached by targets that come and go, translations that end in any order and at any
    time, and packets that are taken.  The requests in translation are those inserted and not
    ended; identified are those inserted and dropped; every request in the prefetch queue has a
    packet and is not canceled. *)
Theorem fdp_accounting cfg es st :
  cfg_wf (fdp_base cfg) → has_mmu cfg = true → (∀ ft, FTQInsert ft ∈ es → target_ok cfg ft) → fdp_run (fdp_new cfg) es st →
  fdp_wf st ∧ fdp_counts 0 st.
Proof. intros Hb Hm Hes Hrun. by destruct (after_run cfg Hb Hm es [] _ _ Hes (after_new cfg) Hrun) as [[_ H1 H2 _] _]. Qed.

(** C24: a packet the cache takes is for a block of a fetch target that was announced before
    and, where prefetches are squashed, has not left the queue of the front end since,
    whatever happened while the block was translated. *)
Theorem fdp_issues_announced cfg es1 r es2 st :
  cfg_wf (fdp_base cfg) → has_mmu cfg = true → let es := es1 ++ CacheTakes (Some r) :: es2 in
  (∀ ft, FTQInsert ft ∈ es → target_ok cfg ft) → fdp_run (fdp_new cfg) es st → announced cfg es1 r.
Proof. intros Hb Hm es Hes Hrun. by apply (proj2 (after_run cfg Hb Hm es [] _ _ Hes (after_new cfg) Hrun) es1 r es2). Qed.

(** The announcement of a target returns, after one round for each of its blocks, unless
    the target ends in the last block of the address space: then the address of the next
    block wraps around and the loop has no end. *)
Theorem fdp_insert_returns t cache mmu ft st :
  let cfg := fdp_cfg st in
  let base := fdp_base cfg in
  let first := blockAddress base (startAddress ft) in
  let last := blockAddress base (endAddress ft) in
  cfg_wf base → has_mmu cfg = true → fdp_wf st → in_u 64 (startAddress ft) → in_u 64 (endAddress ft) → first ≤ last →
  (last + blkSize base < 2 ^ 64 → ∀ fuel, (last - first) / blkSize base < Z.of_nat fuel → ∃ st', notifyFTQInsert fuel t cache mmu ft st = Ok (Some st')) ∧
  (last + blkSize base = 2 ^ 64 → ∀ fuel, notifyFTQInsert fuel t cache mmu ft st = Ok None).
Proof.
  intros cfg base first last Hb Hm Hwf Hs He Hle. pose proof (blkSize_pos _ Hb) as HB. pose proof (blockAddress_range _ Hb _ Hs) as [Hs0 _]. split.
  - intros Hlast fuel Hf. apply blocks_end; try done. fold cfg base first last.
    pose proof (Z.div_mod (last - first) (blkSize base) ltac:(lia)). pose proof (Z.mod_pos_bound (last - first) (blkSize base) HB). nia.
  - intros Hlast fuel. apply blocks_endless; try done.
    + fold cfg base. rewrite (blockAddress_index _ Hb) by done. apply Z.divide_factor_l.
    + fold cfg base. exists (2 ^ (64 - lBlkSize base)). rewrite (wf_blk _ Hb). pose proof (wf_lblk _ Hb). rewrite <-Z.pow_add_r by lia. f_equal. lia.
Qed.

(** An address is compared as an [int].  The block of a target between 2 GiB and the top
    2 GiB of the address space is not found among the requests when it is announced again, so
    that it is translated, and will be prefetched, twice. *)
Theorem fdp_announces_twice cfg t1 t2 cache ft a :
  cfg_wf (fdp_base cfg) → has_mmu cfg = true → 2 ≤ tqSize cfg → blockAddress (fdp_base cfg) (startAddress ft) = a → blockAddress (fdp_base cfg) (endAddress ft) = a →
  2 ^ 31 ≤ a < 2 ^ 64 - 2 ^ 31 - blkSize (fdp_base cfg) →
  ∃ st1 st2, notifyFTQInsert 1 t1 cache (λ _, None) ft (fdp_new cfg) = Ok (Some st1) ∧ notifyFTQInsert 1 t2 cache (λ _, None) ft st1 = Ok (Some st2) ∧
    translationq st2 = [pr_new cfg 0 a ft; pr_new cfg 1 a ft].
Proof.
  intros Hb Hm Htq Es Ee Ha. pose proof (blkSize_pos _ Hb) as HB.
  assert (u64 (i32 a) ≠ a) as Hne.
  { pose proof (swrap_range 32 a ltac:(lia)) as Hr. unfold in_s in Hr. destruct (Z.lt_ge_cases (i32 a) 0).
    - unfold wrap. rewrite <-(Z_mod_plus_full _ 1), Z.mod_small by lia. lia.
    - rewrite wrap_id by (unfold in_u; lia). lia. }
  assert (∀ k t st, fdp_cfg st = cfg → pfq st = [] → in_queue a (translationq st) = false → Z.of_nat (length (translationq st)) < tqSize cfg → next_id st = k →
    ∃ st', notifyFTQInsert 1 t cache (λ _, None) ft st = Ok (Some st') ∧ fdp_cfg st' = cfg ∧ pfq st' = [] ∧ translationq st' = translationq st ++ [pr_new cfg k a ft] ∧ next_id st' = S k) as Hone.
  { intros k t st Ec Ep Hq Hroom Ek. unfold notifyFTQInsert. rewrite Ec, Es, Ee. cbn [notify_blocks]. rewrite (proj2 (Z.leb_le _ _)) by lia.
    unfold notify_block. rewrite Ep, Hq. cbn [in_queue existsb]. fdp_cbn. rewrite Ec, (proj2 (Z.leb_gt _ _)) by done. rewrite Hm. cbn [assert_that mbind outcome_bind]. fdp_cbn.
    rewrite wrap_id by (unfold in_u; lia). rewrite (proj2 (Z.leb_gt _ _)) by lia. eexists. split; [done|]. fdp_cbn. by rewrite Ep, Ek. }
  destruct (Hone 0%nat t1 (fdp_new cfg)) as (st1 & E1 & Ec1 & Ep1 & Eq1 & Ek1); [done|done|done|cbn; lia|done|].
  destruct (Hone 1%nat t2 st1) as (st2 & E2 & _ & _ & Eq2 & _); [done|done| |rewrite Eq1; cbn; lia|done|].
  { rewrite Eq1. cbn [fdp_new translationq app in_queue existsb]. unfold pr_equals. cbn [pr_addr pr_new]. rewrite (proj2 (Z.eqb_neq _ _)) by done. done. }
  exists st1, st2. split_and!; [done|done|]. by rewrite Eq2, Eq1.
Qed.

(** *** Examples *)

Definition ex_fdp_cfg : FDPCfg :=
  mkFDPCfg (mkBaseCfg 64 6 true true true true true 0 4096 true false false) true true 500 4 4 true true (λ tid, tid).

Lemma ex_fdp_base_wf : cfg_wf (fdp_base ex_fdp_cfg).
Proof. split; [by vm_compute|done|]. exists 12. split; [by vm_compute|done]. Qed.

(** Two targets of two blocks; one is translated at once, the other leaves while its blocks
    are in translation. *)
Definition ex_ft1 : FetchTarget := mkFT 0x1010 0x1050 1 0.
Definition ex_ft2 : FetchTarget := mkFT 0x2000 0x2044 2 0.
Definition ex_mmu (r : PrefetchRequest) : option (option Translated) := Some (Some (mkTr (pr_addr r + 0x100000) false false)).

(** The state after an operation that is known to return. *)
Definition state_after (o : outcome (option FDP)) : FDP := match o with Ok (Some st) => st | _ => fdp_new ex_fdp_cfg end.
Definition returns (o : outcome (option FDP)) : bool := match o with Ok (Some _) => true | _ => false end.

Lemma returns_state o : returns o = true → o = Ok (Some (state_after o)).
Proof. by destruct o as [[st|]|]. Qed.

Definition ex_fdp1 : FDP := state_after (notifyFTQInsert 2 10 None ex_mmu ex_ft1 (fdp_new ex_fdp_cfg)).
Definition ex_fdp2 : FDP := state_after (notifyFTQInsert 2 11 None (λ _, None) ex_ft2 ex_fdp1).
Definition ex_fdp3 : FDP := notifyFTQRemove ex_ft2 ex_fdp2.

Lemma ex_fdp4_runs : is_okb (translationComplete 12 None 2 (Some (mkTr 0x302000 false false)) ex_fdp3) = true.
Proof. by vm_compute. Qed.

Definition ex_fdp4 : FDP := the_result _ ex_fdp4_runs.
Definition ex_packet : PrefetchRequest := mkPR 0 0x1000 1 0 true 510 false (Some 0x101000).

Definition ex_fdp_before : list fdp_event := [FTQInsert ex_ft1; FTQInsert ex_ft2; FTQRemove ex_ft2; TranslationEnds 2].
Definition ex_fdp_events : list fdp_event := ex_fdp_before ++ CacheTakes (Some ex_packet) :: [].

Lemma ex_fdp_run : fdp_run (fdp_new ex_fdp_cfg) ex_fdp_events (fdp_getPacket ex_fdp4).2.
Proof.
  apply (run_cons _ _ ex_fdp1); [apply (step_insert 2 10 None ex_mmu), returns_state; by vm_compute|].
  apply (run_cons _ _ ex_fdp2); [apply (step_insert 2 11 None (λ _, None)), returns_state; by vm_compute|].
  apply (run_cons _ _ ex_fdp3); [apply step_remove|]. apply (run_cons _ _ ex_fdp4); [eapply step_translated, the_result_ok|].
  eapply run_cons; [apply step_packet|apply run_nil]. rewrite (surjective_pairing (fdp_getPacket ex_fdp4)). f_equal.
Qed.

Lemma ex_fdp_targets ft : FTQInsert ft ∈ ex_fdp_events → target_ok ex_fdp_cfg ft.
Proof.
  unfold ex_fdp_events, ex_fdp_before. cbn [app]. intros Hft.
  repeat (apply elem_of_cons in Hft as [Hft|Hft]; [first [discriminate Hft|injection Hft as ->; split; by vm_compute]|]). by apply elem_of_nil in Hft.
Qed.

Lemma fdp_accounting_witness : fdp_wf (fdp_getPacket ex_fdp4).2 ∧ fdp_counts 0 (fdp_getPacket ex_fdp4).2.
Proof. exact (fdp_accounting ex_fdp_cfg ex_fdp_events _ ex_fdp_base_wf eq_refl ex_fdp_targets ex_fdp_run). Defined.

Lemma fdp_issues_announced_witness : announced ex_fdp_cfg ex_fdp_before ex_packet.
Proof. exact (fdp_issues_announced ex_fdp_cfg ex_fdp_before ex_packet [] _ ex_fdp_base_wf eq_refl ex_fdp_targets ex_fdp_run). Defined.

(** The statistics of the example: four requests inserted, three of them ended, two squashed
    in translation, two in the prefetch queue and one of these taken. *)
Example fdp_example_stats :
  (fdp_stats (fdp_getPacket ex_fdp4).2 <$> [tqInserts; tqPops; pfSquashed; pfqInserts; pfqPops], length (pfq (fdp_getPacket ex_fdp4).2)) = ([4; 3; 2; 2; 1], 1%nat).
Proof. vm_compute. reflexivity. Qed.

Lemma fdp_insert_returns_witness :
  (0x1040 + 64 < 2 ^ 64 → ∀ fuel, (0x1040 - 0x1000) / 64 < Z.of_nat fuel → ∃ st', notifyFTQInsert fuel 10 None ex_mmu ex_ft1 (fdp_new ex_fdp_cfg) = Ok (Some st')) ∧
  (∀ fuel, notifyFTQInsert fuel 10 None ex_mmu (mkFT (2 ^ 64 - 64) (2 ^ 64 - 4) 1 0) (fdp_new ex_fdp_cfg) = Ok None).
Proof.
  split.
  - exact (proj1 (fdp_insert_returns 10 None ex_mmu ex_ft1 (fdp_new ex_fdp_cfg) ex_fdp_base_wf eq_refl (fa_wf _ _ _ (after_new ex_fdp_cfg))
      ltac:(by vm_compute) ltac:(by vm_compute) ltac:(by vm_compute))).
  - exact (proj2 (fdp_insert_returns 10 None ex_mmu (mkFT (2 ^ 64 - 64) (2 ^ 64 - 4) 1 0) (fdp_new ex_fdp_cfg) ex_fdp_base_wf eq_refl
      (fa_wf _ _ _ (after_new ex_fdp_cfg)) ltac:(by vm_compute) ltac:(by vm_compute) ltac:(by vm_compute)) eq_refl).
Defined.

Lemma fdp_announces_twice_witness :
  ∃ st1 st2, notifyFTQInsert 1 1 None (λ _, None) (mkFT 0x80001000 0x80001004 3 0) (fdp_new ex_fdp_cfg) = Ok (Some st1) ∧
    notifyFTQInsert 1 2 None (λ _, None) (mkFT 0x80001000 0x80001004 3 0) st1 = Ok (Some st2) ∧
    translationq st2 = [pr_new ex_fdp_cfg 0 0x80001000 (mkFT 0x80001000 0x80001004 3 0); pr_new ex_fdp_cfg 1 0x80001000 (mkFT 0x80001000 0x80001004 3 0)].
Proof.
  exact (fdp_announces_twice ex_fdp_cfg 1 2 None (mkFT 0x80001000 0x80001004 3 0) 0x80001000 ex_fdp_base_wf eq_refl ltac:(by vm_compute) eq_refl eq_refl ltac:(by vm_compute)).
Defined.
