(* ===== verification/SBOOE.v ===== *)
(** * The sandbox prefetcher

    [src/src/mem/cache/prefetch/sbooe.{hh,cc}]: one sandbox per sequential stride
    records which lines that stride would have prefetched; the stride whose
    sandbox has the best score is used.  The average access latency is kept over a
    circular buffer of recent fills.  The theorem is the invariant of any sequence
    of accesses and fills: the sum is the sum of the buffer, and the chosen sandbox
    has the best score. *)

From Stdlib Require Import ZArith Lia.
From stdpp Require Import base numbers option list strings gmap.
From S2P Require Import Prelude PrefetchBase PrefetchQueue CircularQueue.
#[local] Open Scope Z_scope.

Record SandboxEntry := mkSandboxEntry { line : Z; expectedArrivalTick : Z; sbe_valid : bool }.

Record Sandbox := mkSandbox {
  sb_entries : CircularQueue SandboxEntry;
  sandboxScore : Z;
  lateScore : Z;
  sb_stride : Z
}.

Definition sandbox_new (max_entries : nat) (stride : Z) : Sandbox :=
  mkSandbox (cq_new (mkSandboxEntry 0 0 false) max_entries) 0 0 stride.

Definition score (sb : Sandbox) : Z := u32 (sandboxScore sb - lateScore sb).

Record SBOOE := mkSBOOE {
  sbo_base : BaseCfg;
  scoreThreshold : Z;
  demandAddresses : gmap Z Z;
  latencyBuffer : CircularQueue Z;
  averageAccessLatency : Z;
  latencyBufferSum : Z;
  sandboxes : list Sandbox;
  bestSandbox : option nat;
  accesses : Z
}.

Definition sbooe_new (base : BaseCfg) (sequential_prefetchers sandbox_entries score_threshold_pct
    latency_buffer_size : Z) : SBOOE :=
  mkSBOOE base (u32 (sandbox_entries * score_threshold_pct) / 100) ∅
    (cq_new 0 (Z.to_nat latency_buffer_size)) 0 0
    ((λ i, sandbox_new (Z.to_nat sandbox_entries) (i - 1)) <$> seqZ 0 sequential_prefetchers)
    None 0.

(** The search of [Sandbox::access]: every recorded line that matches scores, and
    scores as late if it would not have arrived yet. *)
Definition sandbox_hit (curTick addr : Z) (s : Z * Z) (e : SandboxEntry) : Z * Z :=
  if sbe_valid e && (line e =? addr)
  then (u32 (s.1 + 1), if curTick <? expectedArrivalTick e then u32 (s.2 + 1) else s.2)
  else s.

Definition sandbox_access (curTick addr tick : Z) (sb : Sandbox) : outcome Sandbox :=
  let s := foldl (sandbox_hit curTick addr) (sandboxScore sb, lateScore sb) (contents (sb_entries sb)) in
  q ← cq_push_back (sb_entries sb) (mkSandboxEntry (u64 (addr + sb_stride sb)) tick true);
  Ok (mkSandbox q s.1 s.2 (sb_stride sb)).

(** The loop of [SBOOE::access] over the sandboxes; [bestSandbox] points into the
    vector that is being updated. *)
Fixpoint access_loop (curTick line tick : Z) (k : nat) (i : nat) (sbs : list Sandbox)
    (best : option nat) : outcome (list Sandbox * option nat) :=
  match k with
  | O => Ok (sbs, best)
  | S k =>
      match sbs !! i with
      | None => Stop (Panic "sandbox out of range")
      | Some sb =>
          sb ← sandbox_access curTick line tick sb;
          let sbs := <[i := sb]> sbs in
          let best := match best ≫= (λ b, sbs !! b) with
                      | None => Some i
                      | Some bs => if score bs <? score sb then Some i else best
                      end in
          access_loop curTick line tick k (S i) sbs best
      end
  end.

Definition sbooe_access (curTick access_line : Z) (st : SBOOE) : outcome (bool * SBOOE) :=
  '(sbs, best) ← access_loop curTick access_line (u64 (curTick + averageAccessLatency st))
                   (length (sandboxes st)) 0 (sandboxes st) (bestSandbox st);
  let accesses := u32 (accesses st + 1) in
  Ok (Z.of_nat (length sbs) <=? accesses,
      mkSBOOE (sbo_base st) (scoreThreshold st) (demandAddresses st) (latencyBuffer st)
        (averageAccessLatency st) (latencyBufferSum st) sbs best accesses).

Definition sbooe_notifyFill (curTick : Z) (arg : CacheAccessProbeArg) (st : SBOOE) : outcome SBOOE :=
  let addr := pkt_addr (acc_pkt arg) in
  match demandAddresses st !! addr with
  | None => Ok st
  | Some t =>
      let elapsed_ticks := u64 (curTick - t) in
      sum ← (if cq_full (latencyBuffer st)
             then f ← cq_front (latencyBuffer st); Ok (u64 (latencyBufferSum st - f))
             else Ok (latencyBufferSum st));
      q ← cq_push_back (latencyBuffer st) elapsed_ticks;
      let sum := u64 (sum + elapsed_ticks) in
      Ok (mkSBOOE (sbo_base st) (scoreThreshold st) (delete addr (demandAddresses st)) q
            (sum / Z.of_nat (cq_size q)) sum (sandboxes st) (bestSandbox st) (accesses st))
  end.

Definition sbooe_calculatePrefetch (curTick : Z) (pfi : PrefetchInfo) (st : SBOOE)
    : outcome (SBOOE * list AddrPriority) :=
  let pfi_addr := pfi_address pfi in
  let pfi_line := Z.shiftr pfi_addr (lBlkSize (sbo_base st)) in
  let demands := match demandAddresses st !! pfi_addr with
                 | None => <[pfi_addr := curTick]> (demandAddresses st)
                 | Some _ => demandAddresses st
                 end in
  let st := mkSBOOE (sbo_base st) (scoreThreshold st) demands (latencyBuffer st)
              (averageAccessLatency st) (latencyBufferSum st) (sandboxes st) (bestSandbox st)
              (accesses st) in
  '(evaluationFinished, st) ← sbooe_access curTick pfi_line st;
  if evaluationFinished : bool then
    match bestSandbox st ≫= (λ b, sandboxes st !! b) with
    | None => Stop (Panic "null sandbox")
    | Some bs =>
        Ok (st, if scoreThreshold st <? score bs
                then [(u64 (Z.shiftl (u64 (pfi_line + sb_stride bs)) (lBlkSize (sbo_base st))), 0)]
                else [])
    end
  else Ok (st, []).

#[export] Instance sbooe_prefetcher : CalculatePrefetch SBOOE :=
  λ curTick pfi _ st, sbooe_calculatePrefetch curTick pfi st.

(** ** The invariant *)

(** Sandboxes of [ent] entries after [k] accesses. *)
Record sandbox_wf (ent k : Z) (sb : Sandbox) : Prop := {
  sbw_cq : cq_wf (sb_entries sb);
  sbw_cap : Z.of_nat (cq_capacity (sb_entries sb)) = ent;
  sbw_late : 0 ≤ lateScore sb ≤ sandboxScore sb;
  sbw_score : sandboxScore sb ≤ k * ent
}.

Definition is_best (sbs : list Sandbox) (best : option nat) : Prop :=
  ∃ b bs, best = Some b ∧ sbs !! b = Some bs ∧ Forall (λ sb, score sb ≤ score bs) sbs.

Record sbooe_inv (ent k : Z) (st : SBOOE) : Prop := {
  sbi_ne : sandboxes st ≠ [];
  sbi_sandboxes : Forall (sandbox_wf ent k) (sandboxes st);
  sbi_best : 0 < k → is_best (sandboxes st) (bestSandbox st);
  sbi_none : k = 0 → bestSandbox st = None;
  sbi_cq : cq_wf (latencyBuffer st);
  sbi_sum : latencyBufferSum st = u64 (foldr Z.add 0 (contents (latencyBuffer st)));
  sbi_avg : contents (latencyBuffer st) ≠ [] →
    averageAccessLatency st = latencyBufferSum st / Z.of_nat (length (contents (latencyBuffer st)))
}.

Lemma sandbox_hits t addr s l l' :
  0 ≤ l ≤ s → s + Z.of_nat (length l') < 2 ^ 32 →
  let r := foldl (sandbox_hit t addr) (s, l) l' in
  s ≤ r.1 ≤ s + Z.of_nat (length l') ∧ s - l ≤ r.1 - r.2 ∧ 0 ≤ r.2 ≤ r.1.
Proof.
  revert s l. induction l' as [|e l' IH]; intros s l Hl Hb; simpl in *; [lia|].
  unfold sandbox_hit at 2 4 6 8 10 12 14. cbn [fst snd].
  destruct (sbe_valid e && (line e =? addr)).
  - assert (∀ x, 0 ≤ x ≤ s → u32 (x + 1) = x + 1) as Hw by (intros; apply wrap_id; unfold in_u; lia).
    rewrite (Hw s) by lia. destruct (t <? expectedArrivalTick e).
    + rewrite (Hw l) by lia. specialize (IH (s + 1) (l + 1)). simpl in IH. lia.
    + specialize (IH (s + 1) l). simpl in IH. lia.
  - specialize (IH s l). simpl in IH. lia.
Qed.

Lemma sandbox_access_wf ent k t addr tick sb :
  sandbox_wf ent k sb → (k + 1) * ent < 2 ^ 32 →
  ∃ sb', sandbox_access t addr tick sb = Ok sb' ∧ sandbox_wf ent (k + 1) sb' ∧
    sb_stride sb' = sb_stride sb ∧ score sb ≤ score sb'.
Proof.
  intros [Hq Hc Hl Hs] Hb. unfold sandbox_access.
  destruct (cq_push_back_spec (sb_entries sb) (mkSandboxEntry (u64 (addr + sb_stride sb)) tick true) Hq)
    as (q & -> & Hq' & Hc' & _). run_ok.
  pose proof (contents_length _ Hq) as Hlen. pose proof Hq as (_ & _ & Hsz & _).
  pose proof (sandbox_hits t addr (sandboxScore sb) (lateScore sb) (contents (sb_entries sb)) Hl) as Hh.
  destruct Hh as (H1 & H2 & H3); [lia|].
  set (r := foldl (sandbox_hit t addr) _ _) in *. eexists. split; [done|].
  split; [|split; [done|]].
  - split; simpl; [done|lia|lia|lia].
  - unfold score. simpl. rewrite !wrap_id by in_word. lia.
Qed.

(** Going through the sandboxes: those before [i] have been updated, the best one is
    best among them and among its own past. *)
Lemma access_loop_spec ent k t addr tick n i sbs best :
  (k + 1) * ent < 2 ^ 32 → 0 ≤ k → 0 ≤ ent → (i + n = length sbs)%nat →
  Forall (sandbox_wf ent (k + 1)) (take i sbs) → Forall (sandbox_wf ent k) (drop i sbs) →
  (if decide (best = None) then i = 0%nat
   else ∃ b bs, best = Some b ∧ sbs !! b = Some bs ∧ Forall (λ sb, score sb ≤ score bs) (take i sbs)) →
  ∃ sbs' best', access_loop t addr tick n i sbs best = Ok (sbs', best') ∧
    Forall (sandbox_wf ent (k + 1)) sbs' ∧ length sbs' = length sbs ∧
    (sbs ≠ [] → is_best sbs' best').
Proof.
  intros Hb Hk He. revert i sbs best. induction n as [|n IH]; intros i sbs best Hlen Hw1 Hw2 Hbest.
  { exists sbs, best. simpl. rewrite take_ge in * by lia. split_and!; [done|done|done|].
    intros Hne. destruct (decide (best = None)) as [->|]; [|done].
    destruct sbs; [done|]. simpl in Hlen. lia. }
  cbn [access_loop]. destruct (lookup_lt_is_Some_2 sbs i) as [sb Hi]; [lia|]. rewrite Hi.
  assert (sandbox_wf ent k sb) as Hsb.
  { rewrite (drop_S _ _ _ Hi) in Hw2. by inversion Hw2. }
  destruct (sandbox_access_wf ent k t addr tick sb Hsb Hb) as (sb' & -> & Hsb' & _ & Hsc).
  run_ok. set (sbs1 := <[i := sb']> sbs).
  assert (sbs1 !! i = Some sb') as Hi1 by (apply list_lookup_insert_eq; by eapply lookup_lt_Some).
  assert (take (S i) sbs1 = take i sbs ++ [sb']) as Et.
  { rewrite (take_S_r _ _ _ Hi1). unfold sbs1. by rewrite take_insert_ge by lia. }
  assert (length sbs1 = length sbs) as Hl1 by apply length_insert.
  destruct (IH (S i) sbs1 (match best ≫= (λ b, sbs1 !! b) with
     | None => Some i | Some bs => if score bs <? score sb' then Some i else best end))
    as (sbs' & best' & E & Hw' & Hl' & Hb').
  - lia.
  - rewrite Et. apply Forall_app. split; [done|by constructor].
  - unfold sbs1. rewrite drop_insert_lt by lia.
    rewrite (drop_S _ _ _ Hi) in Hw2. by inversion Hw2.
  - rewrite Et. destruct best as [b|]; cbn [mbind option_bind].
    + rewrite decide_False in Hbest by done. destruct Hbest as (b' & bs & [= <-] & Hbs & Hall).
      assert (∃ bs1, sbs1 !! b = Some bs1 ∧ score bs ≤ score bs1) as (bs1 & Hbs1 & Hle).
      { unfold sbs1. destruct (decide (i = b)) as [<-|].
        - exists sb'. split; [done|]. by rewrite Hi in Hbs; injection Hbs as <-.
        - exists bs. rewrite list_lookup_insert_ne by done. done. }
      rewrite Hbs1. destruct (Z.ltb_spec (score bs1) (score sb')).
      * rewrite decide_False by done. exists i, sb'. split_and!; [done|done|].
        apply Forall_app. split; [|by constructor; [lia|]].
        eapply Forall_impl; [exact Hall|]. simpl. lia.
      * rewrite decide_False by done. exists b, bs1. split_and!; [done|done|].
        apply Forall_app. split; [|by constructor; [lia|]].
        eapply Forall_impl; [exact Hall|]. simpl. lia.
    + rewrite decide_True in Hbest by done. subst i. rewrite decide_False by done.
      exists 0%nat, sb'. split_and!; [done|done|]. simpl. constructor; [lia|constructor].
  - exists sbs', best'. split_and!; [done|done|lia|].
    intros Hne. apply Hb'. intros E1. apply (f_equal length) in E1. rewrite Hl1 in E1.
    by destruct sbs.
Qed.

(** ** Sequences of accesses and fills *)

Inductive sbooe_event :=
| Access (curTick : Z) (pfi : PrefetchInfo)
| Fill (curTick : Z) (arg : CacheAccessProbeArg).

(** The state and the prefetches of each access. *)
Fixpoint sbooe_run (evs : list sbooe_event) (st : SBOOE) : outcome (SBOOE * list (list AddrPriority)) :=
  match evs with
  | [] => Ok (st, [])
  | Access t pfi :: evs =>
      '(st, o) ← sbooe_calculatePrefetch t pfi st; '(st, os) ← sbooe_run evs st; Ok (st, o :: os)
  | Fill t arg :: evs => st ← sbooe_notifyFill t arg st; sbooe_run evs st
  end.

Fixpoint n_accesses (evs : list sbooe_event) : Z :=
  match evs with
  | [] => 0
  | Access _ _ :: evs => 1 + n_accesses evs
  | Fill _ _ :: evs => n_accesses evs
  end.

Lemma n_accesses_nonneg evs : 0 ≤ n_accesses evs.
Proof. induction evs as [|[]]; simpl; lia. Qed.

Lemma sbooe_new_inv base n ent pct lat :
  0 < n → 0 < ent → 0 < lat → sbooe_inv ent 0 (sbooe_new base n ent pct lat).
Proof.
  intros Hn He Hl. split; simpl; try done.
  - intros E. apply (f_equal length) in E. rewrite length_fmap, length_seqZ in E. simpl in E. lia.
  - apply Forall_fmap, Forall_true. intros i. split; simpl; [apply cq_new_wf; lia|lia|lia|lia].
  - apply cq_new_wf. lia.
Qed.

Lemma foldr_add_app (l : list Z) x : foldr Z.add 0 (l ++ [x]) = foldr Z.add 0 l + x.
Proof. induction l as [|y l IH]; simpl; [lia|]. rewrite IH. lia. Qed.

Lemma notifyFill_inv ent k t arg st :
  sbooe_inv ent k st → ∃ st', sbooe_notifyFill t arg st = Ok st' ∧ sbooe_inv ent k st'.
Proof.
  intros Hi. pose proof Hi as [H1 H2 H3 H4 Hq Hs Ha]. unfold sbooe_notifyFill.
  destruct (demandAddresses st !! pkt_addr (acc_pkt arg)) as [t0|]; [|by exists st].
  set (x := u64 (t - t0)).
  pose proof (contents_length _ Hq) as Hlen. pose proof Hq as (Hcap & _ & Hsz & _).
  destruct (cq_push_back_spec (latencyBuffer st) x Hq) as (q & Eq & Hq' & Hc' & Ec').
  assert (∃ sum, (if cq_full (latencyBuffer st)
      then f ← cq_front (latencyBuffer st); Ok (u64 (latencyBufferSum st - f))
      else Ok (latencyBufferSum st)) = Ok sum ∧
    u64 (sum + x) = u64 (foldr Z.add 0 (contents q))) as (sum & -> & Hsum).
  { rewrite Ec'. unfold bounded_push. rewrite Hlen. unfold cq_full.
    destruct (Nat.eqb_spec (cq_size (latencyBuffer st)) (cq_capacity (latencyBuffer st))) as [Ef|].
    - destruct (contents (latencyBuffer st)) as [|f l] eqn:El; [simpl in Hlen; lia|].
      rewrite (cq_front_spec _ f l) by done. eexists. split; [done|].
      rewrite Hs, foldr_add_app. autorewrite with word. simpl. rewrite drop_0.
      replace (u64 (f + foldr Z.add 0 l) - f + x) with (u64 (f + foldr Z.add 0 l) + (x - f)) by lia.
      autorewrite with word. f_equal. lia.
    - eexists. split; [done|]. rewrite Hs, foldr_add_app. apply wrap_add_l. }
  run_ok. rewrite Eq. run_ok. eexists. split; [done|].
  split; simpl; try done. intros _. by rewrite (contents_length _ Hq').
Qed.

Lemma calculate_inv ent k t pfi st :
  sbooe_inv ent k st → (k + 1) * ent < 2 ^ 32 → 0 ≤ k → 0 ≤ ent →
  ∃ st' o, sbooe_calculatePrefetch t pfi st = Ok (st', o) ∧ sbooe_inv ent (k + 1) st'.
Proof.
  intros [H1 H2 H3 H4 Hq Hs Ha] Hb Hk He. unfold sbooe_calculatePrefetch, sbooe_access. simpl.
  set (ln := Z.shiftr _ _). set (tick := u64 (t + _)).
  destruct (access_loop_spec ent k t ln tick (length (sandboxes st)) 0 (sandboxes st) (bestSandbox st))
    as (sbs & best & -> & Hw & Hl & Hbest); try done.
  { destruct (decide (k = 0)) as [->|].
    - by rewrite H4, decide_True.
    - destruct (H3 ltac:(lia)) as (b & bs & -> & Hbs & _). rewrite decide_False by done.
      exists b, bs. split_and!; [done|done|]. by rewrite take_0. }
  specialize (Hbest H1). run_ok. simpl.
  pose proof Hbest as (b & bs & -> & Hbs & _). cbn [mbind option_bind]. rewrite Hbs.
  destruct (Z.of_nat (length sbs) <=? u32 (accesses st + 1)); eexists _, _; (split; [done|]);
    (split; simpl; [|done|done|lia|done|done|done]);
    (intros ->; by destruct (sandboxes st)).
Qed.

Lemma run_inv ent evs st k :
  sbooe_inv ent k st → (k + n_accesses evs) * ent < 2 ^ 32 → 0 ≤ k → 0 ≤ ent →
  ∃ st' os, sbooe_run evs st = Ok (st', os) ∧ sbooe_inv ent (k + n_accesses evs) st'.
Proof.
  revert st k. induction evs as [|[t pfi|t arg] evs IH]; intros st k Hi Hb Hk He.
  - exists st, []. simpl. by rewrite Z.add_0_r.
  - cbn [sbooe_run n_accesses] in *. pose proof (n_accesses_nonneg evs).
    destruct (calculate_inv ent k t pfi st) as (st1 & o & -> & Hi1); [done|nia|done|done|].
    destruct (IH st1 (k + 1)) as (st' & os & E & Hi'); [done|lia|lia|done|].
    run_ok. rewrite E. run_ok. eexists _, _. split; [done|].
    by rewrite Z.add_assoc.
  - cbn [sbooe_run n_accesses] in *.
    destruct (notifyFill_inv ent k t arg st Hi) as (st1 & -> & Hi1).
    run_ok. by apply IH.
Qed.

(** ** Theorems *)

(** Whatever the accesses and fills are, the sandbox prefetcher never stops the
    simulation, its latency sum is the sum of the buffered latencies and its
    average their mean, and from the first access on the sandbox it prefetches
    with has the best score of all; as long as the 32-bit score counters cannot
    overflow. *)
Theorem sbooe_best_sandbox (base : BaseCfg) (n ent pct lat : Z) (evs : list sbooe_event) :
  0 < n → 0 < ent → 0 < lat → n_accesses evs * ent < 2 ^ 32 →
  ∃ st os, sbooe_run evs (sbooe_new base n ent pct lat) = Ok (st, os) ∧
    latencyBufferSum st = u64 (foldr Z.add 0 (contents (latencyBuffer st))) ∧
    (contents (latencyBuffer st) ≠ [] → averageAccessLatency st
       = latencyBufferSum st / Z.of_nat (length (contents (latencyBuffer st)))) ∧
    (0 < n_accesses evs → is_best (sandboxes st) (bestSandbox st)).
Proof.
  intros Hn He Hl Hb.
  destruct (run_inv ent evs (sbooe_new base n ent pct lat) 0) as (st & os & E & Hi);
    [by apply sbooe_new_inv|lia|lia|lia|].
  exists st, os. rewrite Z.add_0_l in Hi. split_and!; [done|apply Hi..].
Qed.

Definition ex_sb_base : BaseCfg := mkBaseCfg 64 6 false true true true true 1 4096 false false false.
Definition ex_sb_access (a t : Z) : sbooe_event :=
  Access t (mkPfi a 0 0 false false 8 false a true None).

Lemma sbooe_best_sandbox_witness :
  ∃ st os, sbooe_run (ex_sb_access 0 1 :: ex_sb_access 64 2 :: [ex_sb_access 128 3])
      (sbooe_new ex_sb_base 3 8 25 4) = Ok (st, os) ∧
    is_best (sandboxes st) (bestSandbox st).
Proof.
  destruct (sbooe_best_sandbox ex_sb_base 3 8 25 4
    (ex_sb_access 0 1 :: ex_sb_access 64 2 :: [ex_sb_access 128 3]))
    as (st & os & E & _ & _ & Hb); [lia|lia|lia|vm_compute; reflexivity|].
  exists st, os. split; [exact E|apply Hb; vm_compute; reflexivity].
Defined.
