(* ===== verification/BOP.v ===== *)
(** * The best-offset prefetcher

    [src/src/mem/cache/prefetch/bop.{hh,cc}]: it learns the offset whose subtraction
    from the current address most often leads to a recently requested line, and
    prefetches with that offset.  Requests enter the recent-requests tables through
    a delay queue served by an event.  The theorems: the constructor's loop
    terminates and lists the numbers with no prime factor but 2, 3 and 5; a
    learning phase ends with the offset of the highest score; the event is always
    scheduled for the front of the delay queue. *)

From Stdlib Require Import ZArith Znumtheory Lia.
From stdpp Require Import base numbers option list strings.
From S2P Require Import Prelude IntMath PrefetchBase PrefetchQueue.
#[local] Open Scope Z_scope.

Record BOPCfg := mkBOPCfg {
  bop_base : BaseCfg;
  scoreMax : Z;
  roundMax : Z;
  badScore : Z;
  rrEntries : Z;
  tagMask : Z;
  delayQueueEnabled : bool;
  delayQueueSize : Z;
  delayTicks : Z;
  bop_degree : Z
}.

Inductive RRWay := RRLeft | RRRight.

(** [OffsetListEntry]: an [int16_t] offset and a [uint8_t] score. *)
Abbreviation OffsetListEntry := (Z * Z)%type.

Record DelayQueueEntry := mkDelay { baseAddr : Z; processTick : Z }.

Record BOP := mkBOP {
  bop_cfg : BOPCfg;
  rrLeft : list Z;
  rrRight : list Z;
  offsetsList : list OffsetListEntry;
  delayQueue : list DelayQueueEntry;
  delayEvent : option Z;             (* when [delayQueueEvent] is scheduled *)
  issuePrefetchRequests : bool;
  bestOffset : Z;
  phaseBestOffset : Z;
  offsetsListIterator : nat;
  bestScore : Z;
  round : Z
}.

(** ** The offsets *)

(** [while ((offset % n) == 0) offset /= n]; the argument is positive and at least
    halved by each round, so its logarithm bounds the rounds. *)
Fixpoint divide_out (fuel : nat) (n offset : Z) : Z :=
  match fuel with
  | O => offset
  | S fuel => if offset mod n =? 0 then divide_out fuel n (offset / n) else offset
  end.

Definition divide_all (offset : Z) : Z :=
  let rounds x := S (Z.to_nat (Z.log2 x)) in
  let o := divide_out (rounds offset) 2 offset in
  let o := divide_out (rounds o) 3 o in
  divide_out (rounds o) 5 o.

Definition offset_entries (negative : bool) (offset_i : Z) : list OffsetListEntry :=
  (swrap 16 offset_i, 0) :: if negative then [(swrap 16 (- offset_i), 0)] else [].

(** The loop of the constructor; [None] when the fuel is used up. *)
Fixpoint offsets_loop (fuel : nat) (negative : bool) (size i offset_i : Z)
    (acc : list OffsetListEntry) : option (list OffsetListEntry) :=
  match fuel with
  | O => None
  | S fuel =>
      if i <? size then
        if divide_all offset_i =? 1
        then offsets_loop fuel negative size (i + (if negative then 2 else 1)) (offset_i + 1)
               (acc ++ offset_entries negative offset_i)
        else offsets_loop fuel negative size i (offset_i + 1) acc
      else Some acc
  end.

Definition bop_new (fuel : nat) (base : BaseCfg) (score_max round_max bad_score rr_size tag_bits
    offset_list_size : Z) (negative_offsets_enable delay_queue_enable : bool)
    (delay_queue_size delay_ticks deg : Z) : outcome BOP :=
  _ ← fatal_if (negb (isPowerOf2 rr_size)) "number of RR entries is not power of 2";
  _ ← fatal_if (negb (isPowerOf2 (blkSize base))) "cache line size is not power of 2";
  _ ← fatal_if (negative_offsets_enable && negb (offset_list_size mod 2 =? 0))
        "negative offsets enabled with odd offset list size";
  _ ← fatal_if (deg <=? 0) "prefetch degree must be strictly greater than zero";
  match offsets_loop fuel negative_offsets_enable offset_list_size 0 1 [] with
  | None => Stop (Panic "offset list does not end")
  | Some l =>
      Ok (mkBOP
            (mkBOPCfg base score_max round_max bad_score rr_size (u32 (Z.shiftl 1 tag_bits - 1))
               delay_queue_enable delay_queue_size (u32 delay_ticks) deg)
            (replicate (Z.to_nat rr_size) 0) (replicate (Z.to_nat rr_size) 0) l [] None
            false 1 0 0 0 0)
  end.

(** ** The recent requests *)

Definition way_num (way : RRWay) : Z := match way with RRLeft => 0 | RRRight => 1 end.

Definition bop_index (cfg : BOPCfg) (addr : Z) (way : RRWay) : outcome Z :=
  log_rr_entries ← floorLog2 4 (rrEntries cfg);
  let line_addr := Z.shiftr addr (lBlkSize (bop_base cfg)) in
  let hash := Z.lxor line_addr (Z.shiftr line_addr (Z.shiftl log_rr_entries (way_num way))) in
  let hash := Z.land hash (u64 (Z.shiftl 1 log_rr_entries - 1)) in
  Ok (u32 (hash mod rrEntries cfg)).

Definition bop_tag (cfg : BOPCfg) (addr : Z) : Z :=
  Z.land (Z.shiftr addr (lBlkSize (bop_base cfg))) (tagMask cfg).

Definition set_rr (st : BOP) (l r : list Z) : BOP :=
  mkBOP (bop_cfg st) l r (offsetsList st) (delayQueue st) (delayEvent st)
    (issuePrefetchRequests st) (bestOffset st) (phaseBestOffset st) (offsetsListIterator st)
    (bestScore st) (round st).

Definition insertIntoRR (addr tag : Z) (way : RRWay) (st : BOP) : outcome BOP :=
  i ← bop_index (bop_cfg st) addr way;
  match way with
  | RRLeft => Ok (set_rr st (<[Z.to_nat i := tag]> (rrLeft st)) (rrRight st))
  | RRRight => Ok (set_rr st (rrLeft st) (<[Z.to_nat i := tag]> (rrRight st)))
  end.

Definition testRR (addr_tag : Z) (st : BOP) : bool :=
  existsb (λ t, t =? addr_tag) (rrLeft st) || existsb (λ t, t =? addr_tag) (rrRight st).

(** ** The delay queue *)

Definition set_delay (st : BOP) (q : list DelayQueueEntry) (ev : option Z) : BOP :=
  mkBOP (bop_cfg st) (rrLeft st) (rrRight st) (offsetsList st) q ev
    (issuePrefetchRequests st) (bestOffset st) (phaseBestOffset st) (offsetsListIterator st)
    (bestScore st) (round st).

(** [schedule(delayQueueEvent, when)], with the event queue's assertions. *)
Definition schedule_delay (curTick when : Z) (st : BOP) : outcome BOP :=
  _ ← assert_that (curTick <=? when) "when >= getCurTick()";
  _ ← assert_that (match delayEvent st with None => true | Some _ => false end) "!event->scheduled()";
  Ok (set_delay st (delayQueue st) (Some when)).

(** The [while] loop of [delayQueueEventWrapper]. *)
Fixpoint drain (curTick : Z) (q : list DelayQueueEntry) (st : BOP) : outcome BOP :=
  match q with
  | e :: q' =>
      if processTick e <=? curTick then
        st ← insertIntoRR (baseAddr e) (bop_tag (bop_cfg st) (baseAddr e)) RRLeft st;
        drain curTick q' (set_delay st q' (delayEvent st))
      else Ok st
  | [] => Ok st
  end.

(** The event; it is no longer scheduled when its function runs. *)
Definition delayQueueEventWrapper (curTick : Z) (st : BOP) : outcome BOP :=
  let st := set_delay st (delayQueue st) None in
  st ← drain curTick (delayQueue st) st;
  match delayQueue st with
  | [] => Ok st
  | e :: _ => schedule_delay curTick (processTick e) st
  end.

Definition insertIntoDelayQueue (curTick x : Z) (st : BOP) : outcome BOP :=
  if Z.of_nat (length (delayQueue st)) =? delayQueueSize (bop_cfg st) then Ok st
  else
    let process_tick := u64 (curTick + delayTicks (bop_cfg st)) in
    let st := set_delay st (delayQueue st ++ [mkDelay x process_tick]) (delayEvent st) in
    match delayEvent st with
    | Some _ => Ok st
    | None => schedule_delay curTick process_tick st
    end.

(** ** Learning *)

Definition resetScores (l : list OffsetListEntry) : list OffsetListEntry :=
  (λ e : OffsetListEntry, (e.1, 0)) <$> l.

(** The score of the offset under test, and the best so far. *)
Definition score_offset (hit : bool) (st : BOP) (e : OffsetListEntry) : BOP :=
  if hit then
    let s := u8 (e.2 + 1) in
    let l := <[offsetsListIterator st := (e.1, s)]> (offsetsList st) in
    let better := bestScore st <? s in
    mkBOP (bop_cfg st) (rrLeft st) (rrRight st) l (delayQueue st) (delayEvent st)
      (issuePrefetchRequests st) (bestOffset st)
      (if better then u64 e.1 else phaseBestOffset st) (offsetsListIterator st)
      (if better then s else bestScore st) (round st)
  else st.

(** Moving on to the next offset, and the end of a phase. *)
Definition next_offset (st : BOP) : BOP :=
  let it := S (offsetsListIterator st) in
  let wraps := Nat.eqb it (length (offsetsList st)) in
  let it := if wraps then 0%nat else it in
  let rnd := if wraps then u32 (round st + 1) else round st in
  let cfg := bop_cfg st in
  if (scoreMax cfg <=? bestScore st) || (roundMax cfg <=? rnd) then
    let good := badScore cfg <? bestScore st in
    mkBOP cfg (rrLeft st) (rrRight st) (resetScores (offsetsList st)) (delayQueue st) (delayEvent st)
      good (if good then phaseBestOffset st else bestOffset st) 0 it 0 0
  else
    mkBOP cfg (rrLeft st) (rrRight st) (offsetsList st) (delayQueue st) (delayEvent st)
      (issuePrefetchRequests st) (bestOffset st) (phaseBestOffset st) it (bestScore st) rnd.

Definition lookup_tag (cfg : BOPCfg) (addr offset : Z) : Z :=
  bop_tag cfg (u64 (addr - u64 (Z.shiftl (u64 offset) (lBlkSize (bop_base cfg))))).

Definition bestOffsetLearning (addr : Z) (st : BOP) : outcome BOP :=
  match offsetsList st !! offsetsListIterator st with
  | None => Stop (Panic "offset iterator out of range")
  | Some e =>
      let hit := testRR (lookup_tag (bop_cfg st) addr e.1) st in
      Ok (next_offset (score_offset hit st e))
  end.

Definition bop_candidate (cfg : BOPCfg) (addr offset i : Z) : AddrPriority :=
  (u64 (addr + u64 (Z.shiftl (u64 (i * offset)) (lBlkSize (bop_base cfg)))), 0).

Definition bop_calculatePrefetch (curTick : Z) (pfi : PrefetchInfo) (st : BOP)
    : outcome (BOP * list AddrPriority) :=
  let addr := pfi_address pfi in
  let tag_x := bop_tag (bop_cfg st) addr in
  st ← (if delayQueueEnabled (bop_cfg st) then insertIntoDelayQueue curTick addr st
        else insertIntoRR addr tag_x RRLeft st);
  st ← bestOffsetLearning addr st;
  Ok (st, if issuePrefetchRequests st
          then bop_candidate (bop_cfg st) addr (bestOffset st) <$> seqZ 1 (bop_degree (bop_cfg st))
          else []).

Definition bop_notifyFill (isHWPrefetch : bool) (arg : CacheAccessProbeArg) (st : BOP) : outcome BOP :=
  if negb isHWPrefetch then Ok st
  else
    let addr := pkt_addr (acc_pkt arg) in
    let tag_y := bop_tag (bop_cfg st) addr in
    if issuePrefetchRequests st
    then insertIntoRR addr (u64 (tag_y - bestOffset st)) RRRight st
    else Ok st.

#[export] Instance bop_prefetcher : CalculatePrefetch BOP :=
  λ curTick pfi _ st, bop_calculatePrefetch curTick pfi st.

(** ** The offset list *)

(** No prime factor but 2, 3 and 5. *)
Definition smooth (x : Z) : Prop := ∃ a b c, 0 ≤ a ∧ 0 ≤ b ∧ 0 ≤ c ∧ x = 2 ^ a * 3 ^ b * 5 ^ c.

Lemma divide_out_spec fuel n x :
  2 ≤ n → 0 < x → x < 2 ^ Z.of_nat fuel →
  0 < divide_out fuel n x ∧ ¬ (n | divide_out fuel n x) ∧
  ∃ k, 0 ≤ k ∧ x = divide_out fuel n x * n ^ k.
Proof.
  intros Hn. revert x. induction fuel as [|fuel IH]; intros x Hx Hf; [simpl in Hf; lia|].
  cbn [divide_out]. destruct (Z.eqb_spec (x mod n) 0) as [E|E].
  - apply Z.mod_divide in E as [y ->]; [|lia]. rewrite Z.div_mul by lia.
    assert (0 < y) by nia.
    destruct (IH y) as (H1 & H2 & k & Hk & E); [done| |].
    { rewrite Nat2Z.inj_succ, Z.pow_succ_r in Hf by lia. nia. }
    split_and!; [done|done|]. exists (k + 1). split; [lia|].
    rewrite Z.pow_add_r, Z.pow_1_r, Z.mul_assoc, <-E by lia. done.
  - split_and!; [done| |].
    + intros Hd. apply E, Z.mod_divide; [lia|done].
    + exists 0. split; [lia|]. by rewrite Z.pow_0_r, Z.mul_1_r.
Qed.

Lemma log2_fuel x : 0 < x → x < 2 ^ Z.of_nat (S (Z.to_nat (Z.log2 x))).
Proof.
  intros Hx. pose proof (Z.log2_nonneg x). pose proof (Z.log2_spec x Hx) as [_ Hl].
  by replace (Z.of_nat (S (Z.to_nat (Z.log2 x)))) with (Z.succ (Z.log2 x)) by lia.
Qed.

Lemma prime_5 : Z.prime 5.
Proof.
  split; [lia|]. intros m Hm [q Hq]. assert (m = 2 ∨ m = 3 ∨ m = 4) as Hc by lia.
  destruct Hc as [-> | [-> | ->]]; lia.
Qed.

Lemma coprime_pow r p k : Z.prime p → ¬ (p | r) → 0 ≤ k → Z.coprime r (p ^ k).
Proof.
  intros Hp Hd Hk. apply Z.coprime_pow_r; [done|]. apply Z.Symmetric_coprime.
  by apply Z.coprime_prime_l.
Qed.

Lemma divide_all_spec x : 0 < x → divide_all x = 1 ↔ smooth x.
Proof.
  intros Hx. unfold divide_all. set (r2 := divide_out _ 2 x).
  destruct (divide_out_spec (S (Z.to_nat (Z.log2 x))) 2 x) as (P2 & D2 & a & Ha & E2);
    [lia|done|by apply log2_fuel|]. fold r2 in P2, D2, E2.
  set (r3 := divide_out _ 3 r2).
  destruct (divide_out_spec (S (Z.to_nat (Z.log2 r2))) 3 r2) as (P3 & D3 & b & Hb & E3);
    [lia|done|by apply log2_fuel|]. fold r3 in P3, D3, E3.
  set (r5 := divide_out _ 5 r3).
  destruct (divide_out_spec (S (Z.to_nat (Z.log2 r3))) 5 r3) as (P5 & D5 & c & Hc & E5);
    [lia|done|by apply log2_fuel|]. fold r5 in P5, D5, E5.
  split.
  - intros E. rewrite E in E5. exists a, b, c. split_and!; [done..|]. lia.
  - intros (a' & b' & c' & Ha' & Hb' & Hc' & E).
    assert ((r5 | 2 ^ a' * (3 ^ b' * 5 ^ c'))) as Hd.
    { rewrite Z.mul_assoc, <-E, E2, E3, E5. exists (5 ^ c * 3 ^ b * 2 ^ a). lia. }
    assert (¬ (2 | r5)) as N2.
    { intros [y Hy]. apply D2. exists (y * 5 ^ c * 3 ^ b). lia. }
    assert (¬ (3 | r5)) as N3.
    { intros [y Hy]. apply D3. exists (y * 5 ^ c). lia. }
    apply Z.gauss in Hd; [|by apply coprime_pow; [apply Z.prime_2|..]].
    apply Z.gauss in Hd; [|by apply coprime_pow; [apply Z.prime_3|..]].
    rewrite <-(Z.mul_1_r (5 ^ c')) in Hd.
    apply Z.gauss in Hd; [|by apply coprime_pow; [apply prime_5|..]].
    apply Z.divide_1_r_nonneg; [lia|done].
Qed.

(** The numbers below [o] that are listed. *)
Definition smooths (o : Z) : list Z := filter (λ x, divide_all x = 1) (seqZ 1 (o - 1)).

Definition entries_of (negative : bool) (l : list Z) : list OffsetListEntry :=
  mjoin (offset_entries negative <$> l).

Lemma smooths_next o : 1 ≤ o →
  smooths (o + 1) = smooths o ++ (if divide_all o =? 1 then [o] else []).
Proof.
  intros Ho. unfold smooths. replace (o + 1 - 1) with (o - 1 + 1) by lia.
  rewrite seqZ_app, filter_app by lia. f_equal. replace (1 + (o - 1)) with o by lia.
  destruct (Z.eqb_spec (divide_all o) 1).
  - change (seqZ o 1) with [0 + o]. simpl. by rewrite filter_cons_True.
  - change (seqZ o 1) with [0 + o]. simpl. by rewrite filter_cons_False.
Qed.

Lemma entries_of_app neg l k : entries_of neg (l ++ k) = entries_of neg l ++ entries_of neg k.
Proof. unfold entries_of. by rewrite fmap_app, join_app. Qed.

Lemma entries_of_length neg l :
  Z.of_nat (length (entries_of neg l)) = (if neg then 2 else 1) * Z.of_nat (length l).
Proof.
  induction l as [|x l IH]; [by destruct neg|]. unfold entries_of in *. rewrite fmap_cons, join_cons.
  rewrite length_app. destruct neg; simpl length in *; lia.
Qed.

(** The next power of two is listed, so an unlisted number is below it. *)
Lemma pow2_listed o : 1 ≤ o → divide_all o ≠ 1 → o < 2 ^ Z.log2_up o ∧ Z.log2_up (o + 1) = Z.log2_up o.
Proof.
  intros Ho Hd. assert (1 < o) as H1.
  { destruct (decide (o = 1)) as [->|]; [|lia]. by destruct Hd. }
  pose proof (Z.log2_up_spec o H1) as [Hlo Hhi].
  assert (o ≠ 2 ^ Z.log2_up o) as Hne.
  { intros E. apply Hd, divide_all_spec; [lia|]. exists (Z.log2_up o), 0, 0.
    pose proof (Z.log2_up_nonneg o). rewrite !Z.pow_0_r. lia. }
  split; [lia|]. apply Z.log2_up_unique; [apply Z.log2_up_pos; lia|]. lia.
Qed.

Lemma offsets_loop_spec neg size (r : nat) :
  ∀ i o, 1 ≤ o → 0 ≤ i → size - i ≤ Z.of_nat r →
    i = Z.of_nat (length (entries_of neg (smooths o))) →
    ∃ f0 m, o ≤ m ∧ (size ≤ Z.of_nat (length (entries_of neg (smooths m)))) ∧
      (m = o ∨ Z.of_nat (length (entries_of neg (smooths (m - 1)))) < size) ∧
      ∀ fuel, (f0 ≤ fuel)%nat →
        offsets_loop fuel neg size i o (entries_of neg (smooths o)) = Some (entries_of neg (smooths m)).
Proof.
  induction r as [|r IHr]; intros i o Ho Hi Hr Hlen.
  { exists 1%nat, o. split_and!; [lia|lia|by left|]. intros [|fuel] Hf; [lia|]. simpl.
    by destruct (Z.ltb_spec i size); [lia|]. }
  remember (Z.to_nat (2 ^ Z.log2_up o - o)) as d eqn:Ed. revert o Ho Hlen Ed.
  induction d as [d IHd] using lt_wf_ind. intros o Ho Hlen Ed.
  destruct (Z.ltb_spec i size) as [Hlt|Hge].
  2: { exists 1%nat, o. split_and!; [lia|lia|by left|]. intros [|fuel] Hf; [lia|]. simpl.
       by destruct (Z.ltb_spec i size); [lia|]. }
  pose proof (smooths_next o Ho) as Hn.
  destruct (Z.eqb_spec (divide_all o) 1) as [Es|Es].
  - assert (entries_of neg (smooths (o + 1)) = entries_of neg (smooths o) ++ offset_entries neg o) as En.
    { rewrite Hn, entries_of_app. f_equal. unfold entries_of. simpl. by rewrite app_nil_r. }
    destruct (IHr (i + (if neg then 2 else 1)) (o + 1)) as (f0 & m & Hm & Hsz & Hmin & Hf);
      [lia|by destruct neg; lia|destruct neg; lia| |].
    { rewrite En, length_app. destruct neg; simpl; lia. }
    exists (S f0), m. split_and!; [lia|done| |].
    + right. destruct Hmin as [->|]; [|done]. replace (o + 1 - 1) with o by lia. lia.
    + intros [|fuel] Hfu; [lia|]. cbn [offsets_loop]. rewrite (proj2 (Z.ltb_lt _ _)), Es by done. cbn [Z.eqb Pos.eqb].
      rewrite <-En. apply Hf. lia.
  - destruct (pow2_listed o Ho Es) as [Hp Hl]. rewrite app_nil_r in Hn.
    destruct (IHd (Z.to_nat (2 ^ Z.log2_up (o + 1) - (o + 1)))) with (o := o + 1)
      as (f0 & m & Hm & Hsz & Hmin & Hf); [rewrite Hl; lia|lia|by rewrite Hn|done|].
    exists (S f0), m. split_and!; [lia|done| |].
    + right. destruct Hmin as [->|]; [|done]. replace (o + 1 - 1) with o by lia. lia.
    + intros [|fuel] Hfu; [lia|]. cbn [offsets_loop]. rewrite (proj2 (Z.ltb_lt _ _)) by done.
      rewrite (proj2 (Z.eqb_neq _ 1)) by done. rewrite <-Hn. apply Hf. lia.
Qed.

(** ** The invariant *)

Record bop_cfg_ok (cfg : BOPCfg) : Prop := {
  bc_rr : 0 < rrEntries cfg < 2 ^ 32;
  bc_max : scoreMax cfg ≤ 255;
  bc_bad : 0 ≤ badScore cfg;
  bc_delay : 0 ≤ delayTicks cfg
}.

(** The learning state: scores are at most the best score, which some offset has
    reached. *)
Record learn_inv (st : BOP) : Prop := {
  bi_it : (offsetsListIterator st < length (offsetsList st))%nat;
  bi_scores : Forall (λ e : OffsetListEntry, 0 ≤ e.2 ≤ bestScore st) (offsetsList st);
  bi_best : bestScore st = 0 ∨
    ∃ e, e ∈ offsetsList st ∧ e.2 = bestScore st ∧ phaseBestOffset st = u64 e.1;
  bi_small : bestScore st = 0 ∨ bestScore st < scoreMax (bop_cfg st)
}.

Record bop_inv (st : BOP) : Prop := {
  bi_cfg : bop_cfg_ok (bop_cfg st);
  bi_learn : learn_inv st;
  bi_event : delayEvent st = processTick <$> head (delayQueue st)
}.

Lemma resetScores_length l : length (resetScores l) = length l.
Proof. apply length_fmap. Qed.

Lemma resetScores_zero l : Forall (λ e : OffsetListEntry, 0 ≤ e.2 ≤ 0) (resetScores l).
Proof. apply Forall_fmap, Forall_true. simpl. lia. Qed.

(** Scoring keeps the state, but for the bound on the best score. *)
Lemma score_offset_spec hit st e :
  bop_cfg_ok (bop_cfg st) → learn_inv st → offsetsList st !! offsetsListIterator st = Some e →
  let st1 := score_offset hit st e in
  length (offsetsList st1) = length (offsetsList st) ∧
  Forall (λ e : OffsetListEntry, 0 ≤ e.2 ≤ bestScore st1) (offsetsList st1) ∧
  (bestScore st1 = 0 ∨ ∃ e, e ∈ offsetsList st1 ∧ e.2 = bestScore st1 ∧ phaseBestOffset st1 = u64 e.1) ∧
  bop_cfg st1 = bop_cfg st ∧ offsetsListIterator st1 = offsetsListIterator st ∧
  bestOffset st1 = bestOffset st ∧ issuePrefetchRequests st1 = issuePrefetchRequests st ∧
  delayQueue st1 = delayQueue st ∧ delayEvent st1 = delayEvent st.
Proof.
  intros Hc [Hit Hs Hb Hsm] He. unfold score_offset. destruct hit; [|by split_and!].
  pose proof (Forall_lookup_1 _ _ _ _ Hs He) as Hle. simpl in Hle.
  pose proof (bc_max _ Hc). rewrite wrap_id by in_word.
  assert (e.2 + 1 ≤ bestScore st ∨ bestScore st < e.2 + 1) as Hcase by lia. simpl.
  split; [apply length_insert|]. split; [|split; [|by split_and!]].
  - apply Forall_insert.
    + eapply Forall_impl; [exact Hs|]. simpl. intros x Hx. destruct (Z.ltb_spec (bestScore st) (e.2 + 1)); lia.
    + simpl. destruct (Z.ltb_spec (bestScore st) (e.2 + 1)); lia.
  - right. destruct (Z.ltb_spec (bestScore st) (e.2 + 1)).
    + exists (e.1, e.2 + 1). split; [|done]. apply list_elem_of_insert. done.
    + destruct Hb as [Hz|(x & Hx & Ex & Ep)]; [lia|].
      apply list_elem_of_lookup in Hx as [j Hj]. exists x. split; [|done].
      apply list_elem_of_lookup. exists j. rewrite list_lookup_insert_ne; [done|].
      intros <-. rewrite He in Hj. injection Hj as <-. lia.
Qed.

(** What a learning step does with the scores it ends up with. *)
Definition phase_result (scored : list OffsetListEntry) (st st' : BOP) : Prop :=
  offsetsList st' = scored ∧ bestOffset st' = bestOffset st ∧
    issuePrefetchRequests st' = issuePrefetchRequests st ∨
  offsetsList st' = resetScores scored ∧ round st' = 0 ∧
    if issuePrefetchRequests st'
    then ∃ e, e ∈ scored ∧ bestOffset st' = u64 e.1 ∧ badScore (bop_cfg st) < e.2 ∧
           Forall (λ x : OffsetListEntry, x.2 ≤ e.2) scored
    else bestOffset st' = bestOffset st ∧
         Forall (λ x : OffsetListEntry, x.2 ≤ badScore (bop_cfg st)) scored.

Lemma learning_spec addr st :
  bop_inv st →
  ∃ st' e, bestOffsetLearning addr st = Ok st' ∧ bop_inv st' ∧ bop_cfg st' = bop_cfg st ∧
    offsetsList st !! offsetsListIterator st = Some e ∧
    phase_result (offsetsList (score_offset (testRR (lookup_tag (bop_cfg st) addr e.1) st) st e)) st st'.
Proof.
  intros [Hc Hl Hev]. unfold bestOffsetLearning.
  destruct (lookup_lt_is_Some_2 _ _ (bi_it _ Hl)) as [e He]. rewrite He.
  set (hit := testRR _ _). eexists _, e. split; [done|].
  destruct (score_offset_spec hit st e Hc Hl He) as (Hlen & Hs & Hb & Ec & Ei & Ebo & Eis & Edq & Ede).
  set (st1 := score_offset hit st e) in *.
  assert ((if S (offsetsListIterator st1) =? length (offsetsList st1)
           then 0 else S (offsetsListIterator st1)) < length (offsetsList st1))%nat as Hit.
  { rewrite Ei, Hlen. pose proof (bi_it _ Hl). destruct (Nat.eqb_spec (S (offsetsListIterator st)) (length (offsetsList st))); lia. }
  assert (0 ≤ bestScore st1) as Hnn.
  { destruct Hb as [->|(x & Hx & _ & _)]; [lia|]. rewrite Forall_forall in Hs. apply Hs in Hx. lia. }
  unfold next_offset. set (it := if (S _ =? _)%nat then _ else _) in *.
  set (rnd := if (S _ =? _)%nat then _ else _).
  destruct (scoreMax (bop_cfg st1) <=? bestScore st1) eqn:Em; simpl;
    [|destruct (roundMax (bop_cfg st1) <=? rnd) eqn:Er]; simpl.
  3: { split; [|split; [exact Ec|split; [done|left; split_and!; [done|exact Ebo|exact Eis]]]].
       split; simpl; [by rewrite Ec| |by rewrite Edq, Ede].
       split; simpl; [done|done|done|]. right. lia. }
  all: split; [split; simpl; [by rewrite Ec| |by rewrite Edq, Ede];
    split; simpl; [by rewrite resetScores_length|apply resetScores_zero|by left|by left]|];
    split; [exact Ec|]; split; [done|]; right; simpl; split; [done|]; split; [done|].
  all: destruct (Z.ltb_spec (badScore (bop_cfg st1)) (bestScore st1)) as [Hgt|Hle].
  1,3: destruct Hb as [Hz|(x & Hx & Ex & Ep)]; [pose proof (bc_bad _ Hc); rewrite Ec in *; lia|];
    exists x; split_and!; [done|done|rewrite <-Ec; lia|];
    eapply Forall_impl; [exact Hs|]; simpl; lia.
  all: split; [exact Ebo|]; rewrite Ec in Hle; eapply Forall_impl; [exact Hs|]; simpl; lia.
Qed.

(** ** The tables and the delay queue do not disturb learning *)

Record same_learning (st st' : BOP) : Prop := {
  sl_cfg : bop_cfg st' = bop_cfg st;
  sl_list : offsetsList st' = offsetsList st;
  sl_issue : issuePrefetchRequests st' = issuePrefetchRequests st;
  sl_best : bestOffset st' = bestOffset st;
  sl_phase : phaseBestOffset st' = phaseBestOffset st;
  sl_it : offsetsListIterator st' = offsetsListIterator st;
  sl_score : bestScore st' = bestScore st
}.

Lemma same_learning_inv st st' : same_learning st st' → learn_inv st → learn_inv st'.
Proof.
  intros [E1 E2 E3 E4 E5 E6 E7] [? ? ? ?]. split; rewrite ?E1, ?E2, ?E5, ?E6, ?E7; assumption.
Qed.

Lemma same_learning_trans st1 st2 st3 :
  same_learning st1 st2 → same_learning st2 st3 → same_learning st1 st3.
Proof. intros [] []. split; congruence. Qed.

Lemma same_learning_bop st st' :
  bop_inv st → same_learning st st' → delayQueue st' = delayQueue st →
  delayEvent st' = delayEvent st → bop_inv st'.
Proof.
  intros [Hc Hl He] Hs Eq Ee. split; [by rewrite (sl_cfg _ _ Hs)|by eapply same_learning_inv|].
  by rewrite Eq, Ee.
Qed.

Lemma insertIntoRR_spec addr tag way st :
  bop_cfg_ok (bop_cfg st) →
  ∃ st', insertIntoRR addr tag way st = Ok st' ∧ same_learning st st' ∧
    delayQueue st' = delayQueue st ∧ delayEvent st' = delayEvent st.
Proof.
  intros Hc. unfold insertIntoRR, bop_index. pose proof (bc_rr _ Hc).
  rewrite floorLog2_log2; [|by repeat constructor|simpl; lia]. run_ok.
  destruct way; eexists; (split; [done|]); (split; [by split|done]).
Qed.

Lemma drain_spec t q st :
  bop_cfg_ok (bop_cfg st) → delayQueue st = q →
  ∃ st', drain t q st = Ok st' ∧ same_learning st st' ∧ delayEvent st' = delayEvent st ∧
    (∀ e, head (delayQueue st') = Some e → t < processTick e).
Proof.
  revert st. induction q as [|e q IH]; intros st Hc Hq; simpl.
  - exists st. split_and!; try done. by rewrite Hq.
  - destruct (Z.leb_spec (processTick e) t) as [Hle|Hgt].
    + destruct (insertIntoRR_spec (baseAddr e) (bop_tag (bop_cfg st) (baseAddr e)) RRLeft st Hc)
        as (st1 & -> & Hs & _ & Hev). run_ok.
      destruct (IH (set_delay st1 q (delayEvent st1))) as (st' & -> & Hs' & Hev' & Hh);
        [by simpl; rewrite (sl_cfg _ _ Hs)|done|].
      exists st'. split_and!; [done| |by rewrite Hev'|done].
      eapply same_learning_trans; [exact Hs|]. destruct Hs'. by split.
    + exists st. split_and!; [done|by split|done|]. rewrite Hq. intros ? [= <-]. done.
Qed.

Lemma wrapper_spec t st :
  bop_inv st →
  ∃ st', delayQueueEventWrapper t st = Ok st' ∧ bop_inv st' ∧ same_learning st st' ∧
    (∀ e, head (delayQueue st') = Some e → t < processTick e).
Proof.
  intros [Hc Hl Hev]. unfold delayQueueEventWrapper.
  destruct (drain_spec t (delayQueue st) (set_delay st (delayQueue st) None)) as (st1 & E & Hs & Hev1 & Hh);
    [done|done|]. simpl. rewrite E. run_ok.
  assert (same_learning st st1) as Hs0 by (destruct Hs; by split).
  assert (learn_inv st1) as Hl1 by by eapply same_learning_inv.
  assert (bop_cfg_ok (bop_cfg st1)) as Hc1 by by rewrite (sl_cfg _ _ Hs0).
  destruct (delayQueue st1) as [|e q] eqn:Eq.
  - exists st1. split_and!; [done| |done|by rewrite Eq]. split; [done|done|]. by rewrite Hev1, Eq.
  - specialize (Hh e eq_refl). unfold schedule_delay, assert_that.
    rewrite (proj2 (Z.leb_le _ _)), Hev1 by lia. run_ok. eexists. split; [done|].
    split_and!.
    + split; [done| |simpl; by rewrite Eq]. destruct Hl1; by split.
    + destruct Hs0; by split.
    + simpl. rewrite Eq. by intros ? [= <-].
Qed.

Lemma delay_insert_spec t x st :
  bop_inv st → 0 ≤ t → t + delayTicks (bop_cfg st) < 2 ^ 64 →
  ∃ st', insertIntoDelayQueue t x st = Ok st' ∧ bop_inv st' ∧ same_learning st st'.
Proof.
  intros [Hc Hl Hev] Ht Hb. unfold insertIntoDelayQueue.
  destruct (_ =? _); [by exists st|]. pose proof (bc_delay _ Hc).
  rewrite wrap_id by in_word. set (p := t + delayTicks (bop_cfg st)).
  simpl. destruct (delayEvent st) as [ev|] eqn:Ee.
  - eexists. split; [done|]. split; [|by split]. split; [done|by destruct Hl; split|].
    simpl. destruct (delayQueue st); done.
  - unfold schedule_delay, assert_that. simpl. rewrite (proj2 (Z.leb_le _ _)) by (subst p; lia).
    run_ok. eexists. split; [done|]. split; [|by split].
    split; [done|by destruct Hl; split|]. simpl. destruct (delayQueue st); done.
Qed.

(** ** Theorems *)

(** The constructor's loop always ends, with exactly as many offsets as
    asked for, which are the numbers without prime factors other than 2, 3 and 5
    in increasing order, none left out, each followed by its negation when negative
    offsets are enabled. *)
Theorem bop_offsets_smooth (negative : bool) (size : Z) :
  0 ≤ size → (negative = true → size mod 2 = 0) →
  ∃ f0 m, (∀ fuel, (f0 ≤ fuel)%nat →
      offsets_loop fuel negative size 0 1 [] = Some (entries_of negative (smooths m))) ∧
    Z.of_nat (length (entries_of negative (smooths m))) = size ∧
    smooths m `sublist_of` seqZ 1 (m - 1) ∧
    ∀ x, x ∈ smooths m ↔ 1 ≤ x < m ∧ smooth x.
Proof.
  intros Hs Hev. destruct (offsets_loop_spec negative size (Z.to_nat size) 0 1)
    as (f0 & m & Hm & Hsz & Hmin & Hf); [lia|lia|lia|done|].
  exists f0, m. split_and!; [exact Hf| |apply sublist_filter|].
  - destruct Hmin as [->|Hlt]; [change (entries_of negative (smooths 1)) with (@nil OffsetListEntry) in *; simpl in *; lia|].
    rewrite !entries_of_length in *. destruct (decide (m = 1)) as [->|]; [simpl in *; lia|].
    pose proof (smooths_next (m - 1) ltac:(lia)) as E. replace (m - 1 + 1) with m in E by lia.
    rewrite E, length_app in *. destruct negative.
    + specialize (Hev eq_refl). destruct (_ =? 1); simpl in *; Z.div_mod_to_equations; lia.
    + destruct (_ =? 1); simpl in *; lia.
  - intros x. unfold smooths. rewrite list_elem_of_filter, elem_of_seqZ. split.
    + intros [Hx Hr]. split; [lia|]. by apply divide_all_spec; [lia|].
    + intros [Hr Hx]. split; [by apply divide_all_spec; [lia|]|lia].
Qed.

Lemma bop_offsets_smooth_witness :
  ∃ m, Z.of_nat (length (entries_of true (smooths m))) = 8 ∧
    smooths m `sublist_of` seqZ 1 (m - 1).
Proof.
  destruct (bop_offsets_smooth true 8 ltac:(lia) ltac:(done)) as (f0 & m & _ & Hl & Hs & _).
  exists m. split; [exact Hl|exact Hs].
Defined.

(** Accesses, fills and the delay event never stop the simulation and
    preserve the prefetcher's invariant, in which the delay event is scheduled
    for the front of the delay queue exactly when the queue is not empty, and the
    event leaves no request that is due. *)
Theorem bop_invariant (st : BOP) (t : Z) (pfi : PrefetchInfo) (hw : bool) (arg : CacheAccessProbeArg) :
  bop_inv st → 0 ≤ t → t + delayTicks (bop_cfg st) < 2 ^ 64 →
  (∃ st' l, bop_calculatePrefetch t pfi st = Ok (st', l) ∧ bop_inv st') ∧
  (∃ st', bop_notifyFill hw arg st = Ok st' ∧ bop_inv st') ∧
  (∃ st', delayQueueEventWrapper t st = Ok st' ∧ bop_inv st' ∧
     ∀ e, head (delayQueue st') = Some e → t < processTick e).
Proof.
  intros Hi Ht Hb. pose proof (bi_cfg _ Hi) as Hc. split_and!.
  - unfold bop_calculatePrefetch. destruct (delayQueueEnabled (bop_cfg st)).
    + destruct (delay_insert_spec t (pfi_address pfi) st Hi Ht Hb) as (st1 & -> & Hi1 & _).
      run_ok. destruct (learning_spec (pfi_address pfi) st1 Hi1) as (st2 & e & -> & Hi2 & _).
      run_ok. eauto.
    + destruct (insertIntoRR_spec (pfi_address pfi) (bop_tag (bop_cfg st) (pfi_address pfi)) RRLeft st Hc)
        as (st1 & -> & Hs & Hq & Hev).
      assert (bop_inv st1) as Hi1 by (eapply same_learning_bop; eauto).
      run_ok.
      destruct (learning_spec (pfi_address pfi) st1 Hi1) as (st2 & e & -> & Hi2 & _).
      run_ok. eauto.
  - unfold bop_notifyFill. destruct (negb hw); [eauto|].
    destruct (issuePrefetchRequests st); [|eauto].
    destruct (insertIntoRR_spec (pkt_addr (acc_pkt arg))
      (u64 (bop_tag (bop_cfg st) (pkt_addr (acc_pkt arg)) - bestOffset st)) RRRight st Hc)
      as (st1 & -> & Hs & Hq & Hev).
    exists st1. split; [done|]. eapply same_learning_bop; eauto.
  - destruct (wrapper_spec t st Hi) as (st' & E & Hi' & _ & Hh). eauto.
Qed.

(** A prefetcher with the default parameters and the offsets up to 8. *)
Definition ex_bop_cfg : BOPCfg :=
  mkBOPCfg (mkBaseCfg 64 6 true true true true false 1 4096 false true false) 31 100 10 64 4095
    true 15 60000 1.

Definition ex_bop : BOP :=
  mkBOP ex_bop_cfg (replicate 64 0) (replicate 64 0)
    (entries_of true [1; 2; 3; 4; 5; 6; 8]) [] None false 1 0 0 0 0.

Lemma ex_bop_inv : bop_inv ex_bop.
Proof.
  split; [split; simpl; lia| |done]. split; simpl; [lia| |by left|by left].
  repeat (constructor; [simpl; lia|]). constructor.
Qed.

Definition ex_bop_access (a : Z) : PrefetchInfo := mkPfi a 0 0 false false 8 false a true None.

Definition ex_bop_fill : CacheAccessProbeArg :=
  mkProbeArg (mkPacket (mkRequest (Some 64) (Some 64) 8 0 0 None None false false false)
    64 false true false false false false false None)
    (mkAccessor (λ _ _, false) (λ _ _, false) (λ _ _ _, false) (λ _ _, false) false).

Lemma bop_invariant_witness :
  ∃ st' l, bop_calculatePrefetch 1000 (ex_bop_access 64) ex_bop = Ok (st', l) ∧ bop_inv st'.
Proof.
  destruct (bop_invariant ex_bop 1000 (ex_bop_access 64) true ex_bop_fill)
    as [(st' & l & E & Hi) _]; [apply ex_bop_inv|lia|simpl; lia|].
  exists st', l. split; [exact E|exact Hi].
Defined.



(** The recent-requests tables start out full of the tag zero, so the first access
    to the line of an offset scores although nothing was requested yet. *)
Example bop_empty_tables_hit : testRR (lookup_tag ex_bop_cfg 64 1) ex_bop = true.
Proof. by vm_compute. Qed.

(** The tag inserted on a fill is not reduced to the width of tags: a line below the
    best offset leaves a tag that no lookup can match. *)
Example bop_fill_tag_unmasked :
  let st := mkBOP ex_bop_cfg (replicate 64 1) (replicate 64 1) (offsetsList ex_bop) [] None true 2 0 0 0 0 in
  match bop_notifyFill true ex_bop_fill st with
  | Ok st' => existsb (λ t, 4095 <? t) (rrRight st')
  | Stop _ => false
  end = true.
Proof. by vm_compute. Qed.
