(* ===== verification/Multi.v ===== *)
(** * The multi prefetcher

    [src/src/mem/cache/prefetch/multi.{hh,cc}]: a prefetcher that owns several others
    and asks them for packets in turn.  What it needs of them is an interface,
    [SubPrefetcher], which the queued prefetchers implement. *)

From Stdlib Require Import ZArith Lia.
From stdpp Require Import base numbers option list strings.
From S2P Require Import Prelude PrefetchBase PrefetchQueue PrefetchQueueFacts Tagged QueueTheorems.
#[local] Open Scope Z_scope.

(** The virtual methods of [Base] that [Multi] calls on its children. *)
Class SubPrefetcher (C P : Type) := {
  sub_ready : C → Z;
  sub_getPacket : Z → C → outcome (option P * C);
  sub_prefetchUnused : C → C;
  sub_incrDemandMhsrMisses : C → C
}.

Record Multi (C : Type) := mkMulti {
  prefetchers : list C;
  lastChosenPf : Z;
  m_base : BaseState
}.
Arguments mkMulti {C} _ _ _.
Arguments prefetchers {C} _.
Arguments lastChosenPf {C} _.
Arguments m_base {C} _.

(** [setParentInfo] hands the parent on to every child; a child's part is whether it
    has a parent, and its configuration. *)
Fixpoint multi_setParentInfo (blk_size : Z) (cs : list (bool * BaseCfg))
    : outcome (list (bool * BaseCfg)) :=
  match cs with
  | [] => Ok []
  | (set, c) :: cs =>
      c ← setParentInfo set c blk_size; cs ← multi_setParentInfo blk_size cs; Ok (c :: cs)
  end.

Section Multi.
Context {C P : Type} `{SubPrefetcher C P}.

Definition multi_new (children : list C) (b : BaseState) : Multi C := mkMulti children 0 b.

Definition multi_nextPrefetchReadyTime (m : Multi C) : Z :=
  foldl (λ next_ready pf, Z.min next_ready (sub_ready pf)) MaxTick (prefetchers m).

(** The loop of [getPacket]: [k] children are left to ask, [pf_turn] is next. *)
Fixpoint ask (curTick : Z) (k : nat) (pf_turn : Z) (cs : list C) : outcome (option P * list C) :=
  match k with
  | O => Ok (None, cs)
  | S k =>
      match cs !! Z.to_nat pf_turn with
      | None => Stop (Panic "prefetcher out of range")
      | Some c =>
          if sub_ready c <=? curTick then
            '(pkt, c) ← sub_getPacket curTick c;
            _ ← panic_if (match pkt with None => true | Some _ => false end)
                  "Prefetcher is ready but didn't return a packet.";
            Ok (pkt, <[Z.to_nat pf_turn := c]> cs)
          else ask curTick k (u8 ((pf_turn + 1) mod Z.of_nat (length cs))) cs
      end
  end.

Definition multi_getPacket (curTick : Z) (m : Multi C) : outcome (option P * Multi C) :=
  let n := Z.of_nat (length (prefetchers m)) in
  _ ← panic_if (n =? 0) "division by zero";
  let last := u8 ((lastChosenPf m + 1) mod n) in
  '(pkt, cs) ← ask curTick (length (prefetchers m)) last (prefetchers m);
  let b := m_base m in
  let b := match pkt with
           | None => b
           | Some _ => mkBase (stat_issued (stats b)) (u64 (issuedPrefetches b + 1))
                         (usefulPrefetches b) (mmu b)
           end in
  Ok (pkt, mkMulti cs last b).

Definition multi_prefetchUnused (m : Multi C) : Multi C :=
  mkMulti (sub_prefetchUnused <$> prefetchers m) (lastChosenPf m) (m_base m).

Definition multi_incrDemandMhsrMisses (m : Multi C) : Multi C :=
  mkMulti (sub_incrDemandMhsrMisses <$> prefetchers m) (lastChosenPf m) (m_base m).
End Multi.

(** ** What the children promise *)

(** A child that says it is ready has a packet. *)
Class SubLaws (C P : Type) `{SubPrefetcher C P} (ok : C → Prop) := {
  law_ready t c : ok c → sub_ready c ≤ t → t < MaxTick →
    ∃ pkt c', sub_getPacket t c = Ok (Some pkt, c') ∧ ok c'
}.

(** The queued prefetchers. *)
Section Queued.
Context (translateTiming : TransReq → option (option Z)) (cfg : QueuedCfg) (cache : CacheAccessor).

Definition queued_sub : SubPrefetcher (BaseState * QState) PfPacket := {|
  sub_ready c := nextPrefetchReadyTime c.2;
  sub_getPacket t c := '(p, b, q) ← getPacket translateTiming cfg t cache c.1 c.2; Ok (p, (b, q));
  sub_prefetchUnused c :=
    (mkBase (stat_unused (stats c.1)) (issuedPrefetches c.1) (usefulPrefetches c.1) (mmu c.1), c.2);
  sub_incrDemandMhsrMisses c :=
    (mkBase (stat_demand_miss (stats c.1)) (issuedPrefetches c.1) (usefulPrefetches c.1) (mmu c.1), c.2)
|}.

Lemma queued_sub_laws (Hs : 2 ≤ queueSize cfg) :
  @SubLaws (BaseState * QState) PfPacket queued_sub (λ c, q_wf cfg c.2).
Proof.
  constructor. intros t [b q] Hw Hr Ht. simpl in *.
  pose proof (getPacket_wf cfg Hs translateTiming t cache b q Hw) as Hg.
  unfold getPacket, nextPrefetchReadyTime in *.
  destruct (pfq q) as [|[l dp] rest] eqn:Eq; [unfold MaxTick in *; lia|].
  cbn [mbind outcome_bind] in *. rewrite Eq in *.
  destruct (dp_pkt dp) as [pkt|]; [|done].
  destruct (processMissingTranslations _ _ _ _ _ _) as [q'|]; [|done].
  cbn [mbind outcome_bind succeeds] in *. by eexists pkt, _.
Qed.
End Queued.

(** ** Round robin *)

Section RoundRobin.
Context {C P : Type} `{SL : SubLaws C P ok}.

(** The first child that is ready at or after [start], in cyclic order. *)
Lemma ask_spec t (k : nat) start cs :
  Forall ok cs → t < MaxTick → Z.of_nat (length cs) ≤ 256 → 0 ≤ start < Z.of_nat (length cs) →
  let idx j := Z.to_nat ((start + Z.of_nat j) mod Z.of_nat (length cs)) in
  (∃ j c pkt c', (j < k)%nat ∧ cs !! idx j = Some c ∧ sub_ready c ≤ t ∧
     (∀ i x, (i < j)%nat → cs !! idx i = Some x → t < sub_ready x) ∧
     sub_getPacket t c = Ok (Some pkt, c') ∧ ok c' ∧
     ask t k start cs = Ok (Some pkt, <[idx j := c']> cs)) ∨
  (∀ i x, (i < k)%nat → cs !! idx i = Some x → t < sub_ready x) ∧ ask t k start cs = Ok (None, cs).
Proof using SL.
  intros Hok Ht Hn. revert start. induction k as [|k IH]; intros start Hs idx.
  { right. split; [lia|done]. }
  cbn [ask]. destruct (lookup_lt_is_Some_2 cs (Z.to_nat start)) as [c Hc]; [lia|]. rewrite Hc.
  assert (idx 0%nat = Z.to_nat start) as E0.
  { unfold idx. simpl. by rewrite Z.add_0_r, Z.mod_small. }
  destruct (Z.leb_spec (sub_ready c) t) as [Hle|Hgt].
  - left. destruct (law_ready t c) as (pkt & c' & E & Hok'); [by eapply Forall_lookup_1|done|done|].
    exists 0%nat, c, pkt, c'. rewrite E0, E. split_and!; try done; lia.
  - set (n := Z.of_nat (length cs)) in *.
    pose proof (Z.mod_pos_bound (start + 1) n ltac:(lia)) as Hm.
    rewrite wrap_id by in_word.
    assert (∀ j, Z.to_nat (((start + 1) mod n + Z.of_nat j) mod n) = idx (S j)) as Ej.
    { intros j. unfold idx. rewrite Zplus_mod_idemp_l. f_equal. f_equal. lia. }
    destruct (IH ((start + 1) mod n) Hm) as [(j & x & pkt & c' & Hj & Hx & Hr & Hb & E & Ho & Ea)|[Hall Ea]].
    + left. exists (S j), x, pkt, c'. rewrite <-Ej. split_and!; [lia|done|done| |done|done|done].
      intros [|i] y Hi Hy; [rewrite E0, Hc in Hy; by injection Hy as <-|].
      apply (Hb i); [lia|by rewrite Ej].
    + right. split; [|done]. intros [|i] y Hi Hy; [rewrite E0, Hc in Hy; by injection Hy as <-|].
      apply (Hall i); [lia|by rewrite Ej].
Qed.
End RoundRobin.

(** ** Theorems *)

(** The multi prefetcher serves its children round robin.  Every call
    advances the turn by one; the packet comes from the first child that is ready
    in cyclic order from the turn, only that child changes, and there is no packet
    only if no child is ready.  In particular a child that is ready when its turn
    comes is served. *)
Theorem multi_round_robin {C P : Type} `{SL : SubLaws C P ok} (t : Z) (m : Multi C) :
  let n := Z.of_nat (length (prefetchers m)) in
  Forall ok (prefetchers m) → t < MaxTick → 0 < n ≤ 256 → 0 ≤ lastChosenPf m →
  let turn := (lastChosenPf m + 1) mod n in
  let idx j := Z.to_nat ((turn + Z.of_nat j) mod n) in
  ∃ pkt m', multi_getPacket t m = Ok (pkt, m') ∧ lastChosenPf m' = turn ∧ Forall ok (prefetchers m') ∧
    ((∃ j c p c', (j < length (prefetchers m))%nat ∧ prefetchers m !! idx j = Some c ∧
        sub_ready c ≤ t ∧
        (∀ i x, (i < j)%nat → prefetchers m !! idx i = Some x → t < sub_ready x) ∧
        pkt = Some p ∧ sub_getPacket t c = Ok (Some p, c') ∧
        prefetchers m' = <[idx j := c']> (prefetchers m)) ∨
     (∀ i x, (i < length (prefetchers m))%nat → prefetchers m !! idx i = Some x → t < sub_ready x) ∧
       pkt = None ∧ prefetchers m' = prefetchers m).
Proof.
  intros n Hok Ht Hn Hl turn idx. unfold multi_getPacket, panic_if. fold n.
  rewrite (proj2 (Z.eqb_neq _ 0)) by lia. run_ok. fold turn.
  pose proof (Z.mod_pos_bound (lastChosenPf m + 1) n ltac:(lia)) as Htu. fold turn in Htu.
  rewrite wrap_id by in_word.
  destruct (ask_spec t (length (prefetchers m)) turn (prefetchers m) Hok Ht ltac:(lia) Htu)
    as [(j & c & p & c' & Hj & Hc & Hr & Hb & E & Ho & ->)|[Hall ->]]; run_ok.
  - eexists _, _. split; [done|]. split; [done|]. split; [by apply Forall_insert|].
    left. exists j, c, p, c'. by split_and!.
  - eexists _, _. split; [done|]. split; [done|]. split; [done|]. right. by split_and!.
Qed.

(** Two queued children, of which the second has prefetches. *)
Definition ex_multi : Multi (BaseState * QState) :=
  mkMulti [(ex_base_state, q_empty); (ex_base_state, s_q ex_sys)] 1 ex_base_state.

Lemma multi_round_robin_witness :
  ∃ pkt m', @multi_getPacket _ _ (queued_sub (λ _, None) (ex_cfg 4 false) ex_cache) 100 ex_multi
      = Ok (pkt, m') ∧ lastChosenPf m' = 0.
Proof.
  pose proof (reachable_wf (ex_cfg 4 false) (λ _, None) (mkTagged (ex_base false) 2) ex_base_state
    ltac:(simpl; lia) (ex_base_wf false) ex_sys ex_sys_reachable) as Hw.
  destruct (@multi_round_robin _ _ (queued_sub (λ _, None) (ex_cfg 4 false) ex_cache)
    (λ c, q_wf (ex_cfg 4 false) c.2)
    (queued_sub_laws (λ _, None) (ex_cfg 4 false) ex_cache ltac:(simpl; lia)) 100 ex_multi)
    as (pkt & m' & E & Hl & _).
  - constructor; [|constructor; [exact Hw|constructor]]. apply q_empty_wf. simpl. lia.
  - unfold MaxTick. lia.
  - simpl. lia.
  - simpl. lia.
  - exists pkt, m'. split; [exact E|exact Hl].
Defined.
