(* ===== verification/Evaluated.v ===== *)
(** * The controller over its children

    The controller's transition system closed with children that keep the promise of
    [Children]: the theorem of the system is proved from those of its parts, the invariant of
    the controller and its queue ([MLTheorems]) and the children's own, which every prefetcher
    of the library discharges with an instance.

    [src/configs/machsuite/machsuite_config.py] puts the controller on the second-level
    cache with three children: a stride prefetcher of degree and distance one, one of
    degree four and distance two, and a tagged prefetcher, the stride tables with
    random replacement ([Stride], [AssocCache], [Replacement]). *)

From Stdlib Require Import ZArith QArith Lia.
From stdpp Require Import base numbers option list strings gmap.
From S2P Require Import Prelude Double Interval SatCounter PrefetchBase PrefetchQueue PrefetchQueueFacts.
From S2P Require Import Replacement Indexing AssocCache Tables Children DCPT AMPM SPP ISB SMS STeMS PIF Stride Tagged QueueTheorems.
From S2P Require Import QTable CacheCounters MLController MLFacts MLTheorems.
#[local] Open Scope Z_scope.

(** ** The controller over safe children *)

Section System.
Context {D : Type} `{SP : SafePrefetcher D}.
Context (random : nat → Z) (cfg : MLCfg) (qcfg : QueuedCfg) (translateTiming : TransReq → option (option Z)).

Definition child_wf (c : Child D) : Prop := match c.2 with Some d => pf_inv d | None => True end.

Definition arms_ok (s : @mlsys D) : Prop := Forall child_wf (children (x_ml s)).

Lemma arms_trained t pfi cache (cs cs' : list (Child D)) :
  in_u 64 (pfi_address pfi) → Forall2 (trained t pfi cache) cs cs' → Forall child_wf cs → Forall child_wf cs'.
Proof.
  intros Hp. induction 1 as [|[n o] [n' o'] cs cs' [_ Ht] _ IH]; [done|]. inversion 1 as [|?? Hc Hcs]; subst.
  constructor; [|by apply IH]. unfold child_wf in *. simpl in *.
  destruct o as [a|], o' as [a'|]; try done.
  destruct Ht as [l Ht]. destruct (pf_step t pfi cache a Hp Hc) as (a2 & l2 & E & Ha2).
  rewrite E in Ht. by injection Ht as <- _.
Qed.

Lemma updateModel_children i (m m' : ML D) w w' :
  updateModel random cfg i m w = Ok (m', w') → children m' = children m.
Proof.
  unfold updateModel. intros E.
  assert (children (endEpoch random cfg i (unschedule m) w).1 = children m) as He
    by (unfold endEpoch; by repeat case_match).
  destruct (endEpoch random cfg i (unschedule m) w) as [m1 w1]. cbn [fst] in He.
  apply outcome_bind_ok in E as (m2 & Es & [= <- <-]). unfold schedule in Es.
  apply outcome_bind_ok in Es as (? & _ & Es). apply outcome_bind_ok in Es as (? & _ & [= <-]).
  done.
Qed.

Lemma calculate_arms t pfi cache (m m' : ML D) l :
  in_u 64 (pfi_address pfi) → calculatePrefetch t pfi cache m = Ok (m', l) →
  Forall child_wf (children m) → Forall child_wf (children m').
Proof.
  intros Hp E. unfold calculatePrefetch, ml_prefetcher in E.
  apply outcome_bind_ok in E as ([[cs ad] t'] & Et & [= <- <-]).
  apply train_children_spec in Et as (Hf & _); [|lia]. simpl. by eapply arms_trained.
Qed.

Lemma ml_calculate_total t pfi cache (m : ML D) :
  in_u 64 (pfi_address pfi) → Forall child_wf (children m) → is_ok (calculatePrefetch t pfi cache (ml_observe pfi m)).
Proof.
  intros Hp Hm. unfold calculatePrefetch, ml_prefetcher.
  destruct (train_children_total t pfi cache (currentAction (ml_observe pfi m)) 0
    (children (ml_observe pfi m)) (tracker (ml_observe pfi m))) as [[[cs ad] t'] E].
  - intros nm d Hin. simpl in Hin. rewrite Forall_forall in Hm. specialize (Hm _ Hin).
    destruct (pf_step t pfi cache d Hp Hm) as (a' & l & E & _). by exists (a', l).
  - rewrite E. by eexists.
Qed.

Lemma ml_step_arms s s' :
  ml_step random cfg qcfg translateTiming s s' → arms_ok s → arms_ok s'.
Proof.
  unfold arms_ok. intros [t acc pfi b q m w b' q' m' _ Hp E|t c b q m w p b' q' E
    |t c loc dp a b q m w q' Hin Ho E|i b q m w m' w' Hi E]; cbn [x_ml]; try done.
  - unfold ml_notify in E. apply notify_d in E as [l El]. intros Hm.
    by eapply calculate_arms; [|exact El|].
  - intros Hm. by rewrite (updateModel_children _ _ _ _ _ E).
Qed.

Lemma ml_reachable_arms s0 s :
  ml_reachable random cfg qcfg translateTiming s0 s → arms_ok s0 → arms_ok s.
Proof. induction 1 as [|s s' _ IH Hs]; [done|]. intros H0. eapply ml_step_arms; eauto. Qed.

(** What can be done in a state without failing. *)
Definition goes_on (s : @mlsys D) : Prop :=
  ml_ok cfg (x_ml s) ∧ q_wf qcfg (x_q s) ∧ arms_ok s ∧
  (∀ t acc pfi, pkt_wf qcfg (acc_pkt acc) pfi → in_u 64 (pfi_address pfi) →
     is_ok (ml_notify qcfg t acc pfi (x_base s, (x_q s, x_ml s)))) ∧
  (∀ t cache, is_ok (getPacket translateTiming qcfg t cache (x_base s) (x_q s))) ∧
  (∀ t cache loc dp answer, (loc, dp) ∈ pfqMissing (x_q s) → dp_ongoing dp = true →
     is_ok (finish qcfg t cache loc answer (x_q s))) ∧
  (∀ i, inputs_ok (hasCache (x_ml s)) i (miss_hist (x_ml s)) →
     0 ≤ in_tick i → 0 ≤ epoch_ticks cfg → in_tick i + epoch_ticks cfg < 2 ^ 64 →
     is_ok (updateModel random cfg i (x_ml s) (x_world s))).

Lemma reachable_goes_on s0 s :
  (∀ k, 0 ≤ random k ≤ RAND_MAX) → cfg_ok cfg → 2 ≤ queueSize qcfg → cfg_wf (base_cfg qcfg) → sys_ok cfg qcfg s0 → arms_ok s0 →
  ml_reachable random cfg qcfg translateTiming s0 s → goes_on s.
Proof.
  intros Hr Hcfg Hs Hb H0 Ha0 Hreach. destruct (ml_reachable_ok random cfg qcfg translateTiming Hr Hcfg Hs Hb s0 s H0 Hreach) as [Hq Hm].
  pose proof (ml_reachable_arms s0 s Hreach Ha0) as Ha. split_and!; try done.
  - intros t acc pfi Hp Haddr. unfold ml_notify.
    assert (is_ok (calculatePrefetch t pfi (acc_cache acc) (ml_observe pfi (x_ml s)))) as Hok.
    { by apply ml_calculate_total. }
    destruct (proj1 (succeeds_ok _ _)
      (notify_wf qcfg Hs t acc pfi (x_base s) (x_q s) _ Hb Hp Hq Hok)) as (x & E & _). by exists x.
  - intros t cache. destruct (proj1 (succeeds_ok _ _)
      (getPacket_wf qcfg Hs translateTiming t cache (x_base s) (x_q s) Hq)) as (x & E & _). by exists x.
  - intros t cache loc dp a Hin Ho. destruct (proj1 (succeeds_ok _ _)
      (finish_wf qcfg Hs t cache loc dp a (x_q s) Hq Hin Ho)) as (x & E & _). by exists x.
  - intros i Hi Ht Hep Hov. destruct (updateModel_total D random cfg i (x_ml s) (x_world s)
      Hr Hcfg Hm Hi Ht Hep Hov) as (m' & w' & E & _). by exists (m', w').
Qed.
End System.

(** ** The configured children *)

Definition evaluated_stride (base : BaseCfg) (deg dist : Z) : outcome (Stride nat RandomReplData) :=
  '(ix, sets) ← indexing_new 4 64 0;
  stride_new base 3 4 50 true deg dist 4 64 ix sets true 0%nat.

(** Two stride prefetchers, each with the random stream of its tables' replacement policy, and
    a tagged prefetcher. *)
Definition stride_arm (gen : nat → Z) (s : Stride nat RandomReplData) : AnyPrefetcher :=
  @Any _ (@stride_prefetcher nat RandomReplData (RandomRP gen)) (@stride_child nat RandomReplData (RandomRP gen) (random_laws gen)) s.

Definition evaluated_children (base : BaseCfg) (gen0 gen1 : nat → Z) : outcome (list (Child AnyPrefetcher)) :=
  s0 ← evaluated_stride base 1 1;
  s1 ← evaluated_stride base 4 2;
  Ok [("children0"%string, Some (stride_arm gen0 s0)); ("children1"%string, Some (stride_arm gen1 s1));
      ("children2"%string, Some (Any (mkTagged base 2)))].

Lemma evaluated_stride_wf base deg dist s : evaluated_stride base deg dist = Ok s → stride_wf s.
Proof.
  unfold evaluated_stride. intros E. apply outcome_bind_ok in E as ([ix sets] & Eix & E).
  eapply stride_new_wf; [..|exact Eix|exact E]; lia || done.
Qed.

Lemma stride_arm_inv gen s : stride_wf s → pf_inv (stride_arm gen s).
Proof. intros Hs. split; [exact Hs|]. intros g. by eexists. Qed.

Lemma evaluated_children_wf base g0 g1 cs :
  evaluated_children base g0 g1 = Ok cs → Forall child_wf cs ∧ length cs = 3%nat.
Proof.
  unfold evaluated_children. intros E. apply outcome_bind_ok in E as (s0 & E0 & E).
  apply outcome_bind_ok in E as (s1 & E1 & [= <-]). apply evaluated_stride_wf in E0, E1.
  split; [|done].
  constructor; [by apply stride_arm_inv|]. constructor; [by apply stride_arm_inv|]. constructor; [exact I|constructor].
Qed.

(** ** Theorems *)

Lemma new_goes_on {D : Type} `{SP : SafePrefetcher D} (random : nat → Z) (qcfg : QueuedCfg)
    (translateTiming : TransReq → option (option Z)) (p : MLParams D) (t0 : Z) (w0 : World) (b0 : BaseState) (s : @mlsys D) :
  p_children p ≠ [] → Forall child_wf (p_children p) →
  within (p_learning_rate p) 0 1 → within (p_explore_rate p) 0 1 →
  (∀ k, 0 ≤ random k ≤ RAND_MAX) → 2 ≤ queueSize qcfg → cfg_wf (base_cfg qcfg) →
  let '(cfg, m0, w) := ml_new p t0 w0 in
  ml_reachable random cfg qcfg translateTiming (mkMlsys b0 q_empty m0 w) s → goes_on random cfg qcfg translateTiming s.
Proof.
  intros Hne Hch Hl He Hr Hs Hb. pose proof (ml_new_ok p t0 w0 Hne Hl He) as Hnew.
  assert (children (ml_new p t0 w0).1.2 = p_children p) as Ech by done.
  destruct (ml_new p t0 w0) as [[cfg m0] w]. simpl in Ech. destruct Hnew as [Hcfg Hm0]. apply reachable_goes_on; try done.
  - split; [apply (q_empty_wf qcfg Hs)|done].
  - unfold arms_ok. simpl. by rewrite Ech.
Qed.


(** The evaluated system never stops: the controller built over its three configured
    children, whose construction succeeds, can always do its next step. *)
Theorem evaluated_never_stops (random gen0 gen1 : nat → Z) (base : BaseCfg) (qcfg : QueuedCfg)
    (translateTiming : TransReq → option (option Z)) (p : MLParams AnyPrefetcher) (t0 : Z) (w0 : World)
    (b0 : BaseState) (s : @mlsys AnyPrefetcher) :
  evaluated_children base gen0 gen1 = Ok (p_children p) →
  within (p_learning_rate p) 0 1 → within (p_explore_rate p) 0 1 →
  (∀ k, 0 ≤ random k ≤ RAND_MAX) → 2 ≤ queueSize qcfg → cfg_wf (base_cfg qcfg) →
  let '(cfg, m0, w) := ml_new p t0 w0 in
  ml_reachable random cfg qcfg translateTiming (mkMlsys b0 q_empty m0 w) s → goes_on random cfg qcfg translateTiming s.
Proof.
  intros Hch. apply evaluated_children_wf in Hch as [Hwf Hlen]. apply new_goes_on; [|done]. by destruct (p_children p).
Qed.

(** The configuration's parameters: a learning rate and an exploration rate of zero. *)
Definition ex_children : list (Child AnyPrefetcher) :=
  match evaluated_children (ex_base false) (λ _, 0) (λ _, 0) with Ok cs => cs | Stop _ => [] end.

Definition ex_params (cs : list (Child AnyPrefetcher)) : MLParams AnyPrefetcher :=
  mkMLParams "system.l2cache.prefetcher"%string ""%string cs 0 2000000 d0 d0 false None.

Definition ex_world : World := (ml_new (ex_params ex_children) 0 (mkWorld (mkFS ∅ (λ _, true)) 0 false None 0)).2.

Definition ex_controller (cs : list (Child AnyPrefetcher)) : ML AnyPrefetcher := (ml_new (ex_params cs) 0 ex_world).1.2.

Lemma evaluated_never_stops_witness :
  is_ok (ml_notify (ex_cfg 4 false) 10 (ex_acc 8192) (ex_pfi 8192) (ex_base_state, (q_empty, ex_controller ex_children))).
Proof.
  pose proof (evaluated_never_stops (λ _, 0) (λ _, 0) (λ _, 0) (ex_base false) (ex_cfg 4 false)
    (λ _, None) (ex_params ex_children) 0 ex_world ex_base_state
    (mkMlsys ex_base_state q_empty (ex_controller ex_children) (ml_new (ex_params ex_children) 0 ex_world).2)
    eq_refl) as H.
  destruct H as (_ & _ & _ & H & _).
  - unfold within. vm_compute. intuition discriminate.
  - unfold within. vm_compute. intuition discriminate.
  - intros k. unfold RAND_MAX. lia.
  - simpl. lia.
  - apply ex_base_wf.
  - apply ml_start.
  - apply (H 10 (ex_acc 8192) (ex_pfi 8192)); [apply ex_pkt_wf|done].
Defined.

(** One child of each class. *)
Definition ex_all_children : list (Child AnyPrefetcher) :=
  ex_children ++
  [("dcpt"%string, Some (Any ex_dcpt)); ("ampm"%string, Some (Any ex_ampm)); ("spp"%string, Some (Any ex_spp1));
   ("isb"%string, Some (Any ex_isb)); ("sms"%string, Some (Any ex_sms)); ("stems"%string, Some (Any ex_stems)); ("pif"%string, Some (Any ex_pif))].

Lemma ex_all_children_wf : Forall child_wf ex_all_children.
Proof.
  apply Forall_app. split; [by apply (evaluated_children_wf (ex_base false) (λ _, 0) (λ _, 0))|].
  repeat apply Forall_cons_2; [by exists 8%nat; apply ex_dcpt_wf|apply ex_ampm_wf|apply ex_spp1_ok|apply ex_isb_wf|apply ex_sms_wf|apply ex_stems_wf|apply ex_pif_wf|constructor].
Qed.

