(* ===== verification/Simulation.v ===== *)
(** * The controller in the simulation

    The controller's [update_event] lives in the event queue beside the events of the rest of
    the machine: the queue calls [updateModel], which schedules the event one epoch later, and
    the other events use the controller through its interface (accesses, packet requests, MMU
    answers).  The machine around the controller is a parameter; the theorem is that epochs
    keep coming ([epochs_recur]). *)

From Stdlib Require Import ZArith Lia QArith.
From stdpp Require Import base numbers option list strings gmap sorting relations.
From S2P Require Import Prelude Double Interval PrefetchBase PrefetchQueue PrefetchQueueFacts Children Tagged QTable MLController MLFacts QueueTheorems MLTheorems.
From S2P Require Import EventQ EventQFacts EventQRef EventQTheorems.
#[local] Open Scope Z_scope.

(** ** What the end of an epoch leaves alone *)

Lemma endEpoch_keeps {D} random cfg i (m : ML D) w :
  w_epoch (endEpoch random cfg i m w).2 = u64 (w_epoch w + 1) ∧ hasCache (endEpoch random cfg i m w).1 = hasCache m ∧
  (hasCache m = true → lastMisses (miss_hist (endEpoch random cfg i m w).1) = in_misses i ∧
                       lastAccesses (miss_hist (endEpoch random cfg i m w).1) = in_accesses i).
Proof.
  unfold endEpoch, epoch_missRate, epoch_smooth, csv_log. destruct (epoch_ipc _ _ _) as [[nipc dipc] ih].
  destruct (hasCache m); cbn [haveSmoothedMiss]; destruct (haveSmoothedMiss (miss_hist m)); destruct (selectAction _ _ _ _ _) as [[idx l] rng]; done.
Qed.

Lemma updateModel_keeps {D} random cfg i (m m' : ML D) w w' :
  updateModel random cfg i m w = Ok (m', w') →
  w_epoch w' = u64 (w_epoch w + 1) ∧ hasCache m' = hasCache m ∧
  (hasCache m = true → lastMisses (miss_hist m') = in_misses i ∧ lastAccesses (miss_hist m') = in_accesses i).
Proof.
  unfold updateModel. pose proof (endEpoch_keeps random cfg i (unschedule m) w) as Hk. destruct (endEpoch random cfg i (unschedule m) w) as [m1 w1].
  cbn [fst snd] in Hk. intros E. apply outcome_bind_ok in E as (m2 & Es & [= <- <-]). unfold MLController.schedule in Es.
  apply outcome_bind_ok in Es as (? & _ & Es). apply outcome_bind_ok in Es as (? & _ & [= <-]). exact Hk.
Qed.

Section Machine.
Context `{CalculatePrefetch D}.
Context (random : nat → Z) (cfg : MLCfg) (qcfg : QueuedCfg) (translateTiming : TransReq → option (option Z)).

(** A use of the controller by the rest of the machine: any step but the end of an epoch,
    which alone changes the world. *)
Definition use (s s' : @mlsys D) : Prop := ml_step random cfg qcfg translateTiming s s' ∧ x_world s' = x_world s.

(** What a use does not change. *)
Definition held (s s' : @mlsys D) : Prop :=
  update_event (x_ml s') = update_event (x_ml s) ∧ hasCache (x_ml s') = hasCache (x_ml s) ∧ miss_hist (x_ml s') = miss_hist (x_ml s) ∧ x_world s' = x_world s.

Lemma csv_epoch_moves (n : Z) : in_u 64 n → u64 (n + 1) ≠ n.
Proof. unfold in_u, wrap. intros Hn E. destruct (decide (n + 1 = 2 ^ 64)) as [E1|]; [rewrite E1 in E; change (2 ^ 64 mod 2 ^ 64) with 0 in E; lia|]. rewrite Z.mod_small in E; lia. Qed.

Lemma use_held s s' : in_u 64 (w_epoch (x_world s)) → use s s' → held s s'.
Proof.
  intros Hw [Hs Ew]. destruct Hs as [t acc pfi b q m w b' q' m' _ _ E|t c b q m w p b' q' E
    |t c loc dp a b q m w q' Hin Ho E|i b q m w m' w' Hi E]; cbn [x_world] in *; try by split_and!.
  - unfold ml_notify in E. apply notify_d in E as [l El]. unfold calculatePrefetch, ml_prefetcher in El.
    apply outcome_bind_ok in El as ([[cs ad] t'] & _ & [= <- <-]). by split_and!.
  - destruct (updateModel_keeps _ _ _ _ _ _ _ E) as (E1 & _). rewrite Ew in E1. by destruct (csv_epoch_moves _ Hw).
Qed.

Lemma uses_held s s' : in_u 64 (w_epoch (x_world s)) → rtc use s s' → held s s'.
Proof.
  intros Hw. induction 1 as [s|s s1 s' Hu _ IH]; [by split_and!|]. destruct (use_held s s1 Hw Hu) as (E1 & E2 & E3 & E4).
  destruct IH as (F1 & F2 & F3 & F4); [by rewrite E4|]. split_and!; congruence.
Qed.
End Machine.

Lemma rounds_add {W} (act : ptr → W → Z → list cmd * W) n m w s w1 s1 r :
  ref_rounds act n w s = Some (None, w1, s1) → ref_rounds act m w1 s1 = r → ref_rounds act (n + m) w s = r.
Proof.
  revert w s. induction n as [|n IH]; intros w s; cbn [ref_rounds Nat.add]; [by intros [= -> ->]|].
  destruct (ref_service act w s) as [[[[z|] w2] s2]|]; cbn [mbind option_bind]; [done| |done]. apply IH.
Qed.

(** ** The machine *)

Section Epochs.
Context `{CalculatePrefetch D}.
Context (random : nat → Z) (cfg : MLCfg) (qcfg : QueuedCfg) (translateTiming : TransReq → option (option Z)).

(** The rest of the machine: its state, what the controller reads of it (the operations of the
    CPU and the accesses and misses of the cache), and what an event of it does at a tick: the
    tick for which the event schedules itself again, and the new state. *)
Context {E : Type} (read : E → Z * Z * Z) (env : ptr → Z → @mlsys D * E → option Z * (@mlsys D * E)).

(** The controller's event, and the accesses an event can make. *)
Context (U : ptr) (R : Z).

(** The machine, or why it stopped. *)
Definition sim_act (y : ptr) (w : outcome (@mlsys D * E)) (t : Z) : list cmd * outcome (@mlsys D * E) :=
  match w with
  | Stop r => ([], Stop r)
  | Ok (s, e) =>
      if decide (y = U) then
        let '(ops, acc, mis) := read e in
        match updateModel random cfg (mkInputs t ops acc mis) (x_ml s) (x_world s) with
        | Ok (m, w) => (match update_event m with Some t' => [CSchedule U t'] | None => [] end, Ok (mkMlsys (x_base s) (x_q s) m w, e))
        | Stop r => ([], Stop r)
        end
      else
        let '(next, st) := env y t (s, e) in
        (match next with Some t' => [CSchedule y t'] | None => [] end, Ok st)
  end.

(** Since the controller has last read the counters of the cache, there were at most [b]
    accesses, and not more misses than accesses. *)
Definition counted (b : Z) (m : ML D) (e : E) : Prop :=
  let '(_, acc, mis) := read e in
  hasCache m = true → u64 (mis - lastMisses (miss_hist m)) ≤ u64 (acc - lastAccesses (miss_hist m)) ≤ b.

(** What is required of the machine around the controller: its events look ahead, use the
    controller through its interface, and count at most [R] accesses each and not more misses
    than accesses. *)
Record machine_ok : Prop := {
  mk_later y t st t' st' : env y t st = (Some t', st') → t < t';
  mk_uses y t s e o s' e' : env y t (s, e) = (o, (s', e')) → rtc (use random cfg qcfg translateTiming) s s';
  mk_counts y t s e o s' e' : env y t (s, e) = (o, (s', e')) →
    u64 ((read e').2 - (read e).2) ≤ u64 ((read e').1.2 - (read e).1.2) ≤ R
}.

Context (Henv : machine_ok).
Context (Hrandom : ∀ k, 0 ≤ random k ≤ RAND_MAX) (Hcfg : cfg_ok cfg).
Context (Hsize : 2 ≤ queueSize qcfg) (Hbase : cfg_wf (base_cfg qcfg)).
Context (Hticks : 0 ≤ epoch_ticks cfg).

(** The state after [k] epochs. *)
Definition after_epochs (w0 : Z) (iU : Info) (k : nat) (b : Z) (w : outcome (@mlsys D * E)) (s : Ref) : Prop :=
  ∃ st e, w = Ok (st, e) ∧ sys_ok cfg qcfg st ∧ counted b (x_ml st) e ∧
    update_event (x_ml st) = Some ((Z.of_nat k + 1) * epoch_ticks cfg) ∧ w_epoch (x_world st) = u64 (w0 + Z.of_nat k) ∧
    plain_infos s ∧ infos s !! U = Some iU.

Lemma uses_ok s s' : rtc (use random cfg qcfg translateTiming) s s' → sys_ok cfg qcfg s → sys_ok cfg qcfg s'.
Proof using Hrandom Hcfg Hsize Hbase. induction 1 as [|s s1 s' [Hu _] _ IH]; [done|]. intros Hok. apply IH. by eapply ml_step_ok. Qed.

(** An event of the rest of the machine looks ahead and keeps the state of the epochs. *)
Lemma env_acts y w t :
  y ≠ U → (sim_act y w t).1 = [] ∨ ∃ t', t < t' ∧ (sim_act y w t).1 = [CSchedule y t'].
Proof using Henv.
  intros Hne. unfold sim_act. destruct w as [[s e]|]; [|by left]. rewrite decide_False by done. destruct (env y t (s, e)) as [[t'|] st] eqn:Ee; [right|by left].
  exists t'. split; [|done]. by eapply mk_later.
Qed.

Lemma counted_more b m e e' :
  u64 ((read e').2 - (read e).2) ≤ u64 ((read e').1.2 - (read e).1.2) ≤ R → b + R < 2 ^ 64 → counted b m e → counted (b + R) m e'.
Proof using.
  unfold counted. destruct (read e) as [[ops acc] mis], (read e') as [[ops' acc'] mis']. cbn [fst snd]. intros Hd Hb Hc Hh. specialize (Hc Hh).
  set (la := lastAccesses (miss_hist m)) in *. set (lm := lastMisses (miss_hist m)) in *.
  assert (∀ x y z, u64 (y - x) + u64 (z - y) < 2 ^ 64 → u64 (z - x) = u64 (y - x) + u64 (z - y)) as Hsum.
  { intros x y z Hlt. pose proof (wrap_range 64 (y - x) ltac:(lia)). pose proof (wrap_range 64 (z - y) ltac:(lia)).
    rewrite <-(wrap_id 64 (u64 (y - x) + u64 (z - y))) by (unfold in_u in *; lia). unfold wrap. rewrite <-Zplus_mod. f_equal. lia. }
  rewrite (Hsum la acc acc'), (Hsum lm mis mis') by lia. lia.
Qed.

Lemma env_keeps w0 iU k b y w t s :
  y ≠ U → b + R < 2 ^ 64 → after_epochs w0 iU k b w s → after_epochs w0 iU k (b + R) (sim_act y w t).2 s.
Proof using Henv Hrandom Hcfg Hsize Hbase.
  intros Hne Hb (st & e & -> & Hok & Hc & Hu & Hw & Hp & Hsq). unfold sim_act. rewrite decide_False by done.
  destruct (env y t (st, e)) as [o [st' e']] eqn:Ee. pose proof (mk_uses Henv _ _ _ _ _ _ _ Ee) as Hs.
  destruct (uses_held random cfg qcfg translateTiming st st') as (E1 & E2 & E3 & E4); [rewrite Hw; by apply wrap_range|done|].
  exists st', e'. split; [done|]. split; [by eapply uses_ok|]. split_and!; try done; [|by rewrite E1|by rewrite E4].
  pose proof (counted_more b (x_ml st) e e' (mk_counts Henv _ _ _ _ _ _ _ Ee) Hb Hc) as Hc'. unfold counted in *. destruct (read e') as [[ops acc] mis]. by rewrite E2, E3.
Qed.

Lemma after_weaken w0 iU k b b' w s : b ≤ b' → after_epochs w0 iU k b w s → after_epochs w0 iU k b' w s.
Proof using.
  intros Hb (st & e & -> & Hok & Hc & Hr). exists st, e. split; [done|]. split; [done|]. split; [|done]. unfold counted in *.
  destruct (read e) as [[ops acc] mis]. intros Hh. specialize (Hc Hh). lia.
Qed.

(** The controller's event at its tick. *)
Lemma epoch_acts w0 iU k b w s :
  after_epochs w0 iU k b w s → b < 2 ^ 53 → (Z.of_nat k + 2) * epoch_ticks cfg < 2 ^ 64 →
  (sim_act U w ((Z.of_nat k + 1) * epoch_ticks cfg)).1 = [CSchedule U ((Z.of_nat (S k) + 1) * epoch_ticks cfg)] ∧
  after_epochs w0 iU (S k) 0 (sim_act U w ((Z.of_nat k + 1) * epoch_ticks cfg)).2 s.
Proof using Hrandom Hcfg Hticks.
  intros (st & e & -> & [Hq Hm] & Hc & Hu & Hw & Hp & Hsq) Hb Hov. unfold sim_act. rewrite decide_True by done. unfold counted in Hc.
  destruct (read e) as [[ops acc] mis] eqn:Er. set (i := mkInputs _ ops acc mis).
  assert (inputs_ok (hasCache (x_ml st)) i (miss_hist (x_ml st))) as Hin by (intros Hh; specialize (Hc Hh); cbn; lia).
  destruct (updateModel_total D random cfg i (x_ml st) (x_world st) Hrandom Hcfg Hm Hin) as (m' & w' & Eu & Eev & _); [cbn; nia|done|cbn; lia|].
  rewrite Eu. assert (in_tick i + epoch_ticks cfg = (Z.of_nat (S k) + 1) * epoch_ticks cfg) as Et by (cbn [in_tick i]; lia). rewrite Eev, Et.
  split; [done|]. exists (mkMlsys (x_base st) (x_q st) m' w'), e. split; [done|]. pose proof (updateModel_keeps _ _ _ _ _ _ _ Eu) as (K1 & K2 & K3).
  split; [split; [done|]; by eapply updateModel_ok|]. cbn [x_ml x_world]. split_and!; try done.
  - unfold counted. rewrite Er. intros Hh. rewrite K2 in Hh. destruct (K3 Hh) as [-> ->]. cbn [in_misses in_accesses i]. rewrite !Z.sub_diag. done.
  - by rewrite Eev, Et.
  - rewrite K1, Hw. unfold wrap. rewrite Zplus_mod_idemp_l. f_equal. lia.
Qed.

(** After the service of an event the heap's events are the same. *)
Lemma after_serviced w0 iU k b w s s' y i :
  i_squashed iU = false → infos s !! y = Some i → infos s' = <[y := set_squashed false i]> (infos s) → plain_infos s' →
  after_epochs w0 iU k b w s → after_epochs w0 iU k b w s'.
Proof using.
  intros Hsq Hi Ein Hp' (st & e & -> & Hok & Hc & Hu & Hw & Hp & HU). exists st, e. split_and!; try done. rewrite Ein. destruct (decide (y = U)) as [->|Hne].
  - rewrite lookup_insert_eq. rewrite HU in Hi. injection Hi as <-. destruct iU. cbn in Hsq. by subst.
  - by rewrite lookup_insert_ne.
Qed.

(** The rounds an epoch can take before the controller's event is served. *)
Definition epoch_rounds (N : nat) : nat := (Z.to_nat (epoch_ticks cfg) + 1) * S N.

(** One epoch: the rounds until the controller's event is served. *)
Lemma next_epoch w0 iU k N w q s :
  i_squashed iU = false → 0 ≤ R → R * Z.of_nat (epoch_rounds N) < 2 ^ 53 →
  sim q s → after_epochs w0 iU k 0 w s → (size (infos s) ≤ N)%nat → now s = Z.of_nat k * epoch_ticks cfg →
  (U, ((Z.of_nat k + 1) * epoch_ticks cfg, i_priority iU)) ∈ pend s → (Z.of_nat k + 2) * epoch_ticks cfg < 2 ^ 64 →
  ∃ n w' q' s', (n ≤ epoch_rounds N + 1)%nat ∧ ref_rounds sim_act n w s = Some (None, w', s') ∧
    sim q' s' ∧ after_epochs w0 iU (S k) 0 w' s' ∧ (size (infos s') ≤ N)%nat ∧ now s' = Z.of_nat (S k) * epoch_ticks cfg ∧
    (U, ((Z.of_nat (S k) + 1) * epoch_ticks cfg, i_priority iU)) ∈ pend s'.
Proof using Henv Hrandom Hcfg Hsize Hbase Hticks.
  intros Hsq HR HRB Hsim Ha HN Hnow Hx Hov. set (B := epoch_rounds N) in *.
  assert (rounds_left ((Z.of_nat k + 1) * epoch_ticks cfg) N s ≤ B)%nat as Hleft.
  { destruct (sim_wf _ _ Hsim) as (_ & _ & _ & Hfu). pose proof (pend_length _ _ Hsim) as Hlen.
    pose proof (rounds_left_bound ((Z.of_nat k + 1) * epoch_ticks cfg) N s ltac:(lia) Hfu) as Hb. rewrite Hnow in Hb.
    replace ((Z.of_nat k + 1) * epoch_ticks cfg - Z.of_nat k * epoch_ticks cfg) with (epoch_ticks cfg) in Hb by lia. exact Hb. }
  destruct (comes_to_front sim_act (λ j w s, (j ≤ B)%nat ∧ after_epochs w0 iU k (R * (Z.of_nat B - Z.of_nat j)) w s)
    U ((Z.of_nat k + 1) * epoch_ticks cfg) (i_priority iU) N) with (m := B) (w := w) (q := q) (s := s)
    as (n & w1 & q1 & s1 & rest & Hn & Er & Hsim1 & [_ Ha1] & HN1 & Ep); try done.
  - intros y v T Hne. destruct (env_acts y v T Hne) as [->|(t' & Ht & ->)]; [constructor|]. repeat constructor; done.
  - intros j v q1 s1 y [T p1] rest Hs1 [Hj Ha1] Ep Hne. pose proof Ha1 as (_ & _ & _ & _ & _ & _ & _ & Hp1 & _).
    destruct (self_round sim_act v q1 s1 y T p1 rest) as (i & w' & s' & Hi & E1 & Hp' & Ei & Hend); try done.
    { destruct (env_acts y v T Hne) as [|(t' & Ht & E1)]; [by left|right]. exists t'. split; [lia|done]. }
    exists w', s'. split; [done|]. split; [lia|]. eapply after_serviced; [done|exact Hi|done|done|]. destruct (i_squashed i); destruct Hend as [-> _].
    + eapply after_weaken, Ha1. nia.
    + eapply after_weaken, env_keeps, Ha1; [nia|done|]. nia.
  - split; [done|]. eapply after_weaken, Ha. nia.
  - pose proof Ha1 as (_ & _ & _ & _ & _ & _ & _ & Hp1 & HU1). destruct (epoch_acts w0 iU k _ w1 s1 Ha1 ltac:(nia) Hov) as [Eact Ha2].
    destruct (self_round sim_act w1 q1 s1 U ((Z.of_nat k + 1) * epoch_ticks cfg) (i_priority iU) rest) as (i & w' & s' & Hi & E1 & Hp' & Ei & Hend); [|done..|].
    { right. eexists. split; [|exact Eact]. lia. }
    rewrite HU1 in Hi. injection Hi as <-. rewrite Hsq in Hend. destruct Hend as (-> & Hnow' & [[E0 _]|(t' & Et & Epend)]); [by rewrite E0 in Eact|].
    rewrite Eact in Et. injection Et as <-. pose proof (service_sim sim_act w1 q1 s1 Hsim1) as Hss. rewrite E1 in Hss. destruct Hss as ([y2 q2] & _ & _ & Hsim2).
    exists (n + 1)%nat, (sim_act U w1 ((Z.of_nat k + 1) * epoch_ticks cfg)).2, q2, s'. split_and!.
    + lia.
    + eapply rounds_add; [exact Er|]. cbn [ref_rounds]. by rewrite E1.
    + done.
    + by eapply after_serviced.
    + rewrite Ei, map_size_insert_Some; [done|]. by rewrite HU1.
    + rewrite Hnow'. lia.
    + rewrite Epend. apply enqueue_elem. by left.
Qed.

(** [k] epochs. *)
Lemma epochs_pass w0 iU N w q s :
  i_squashed iU = false → 0 ≤ R → R * Z.of_nat (epoch_rounds N) < 2 ^ 53 → sim q s → after_epochs w0 iU 0 0 w s → (size (infos s) ≤ N)%nat → now s = 0 → (U, (epoch_ticks cfg, i_priority iU)) ∈ pend s →
  ∀ k, (Z.of_nat k + 1) * epoch_ticks cfg < 2 ^ 64 →
  ∃ n w' q' s', (n ≤ k * (epoch_rounds N + 1))%nat ∧ ref_rounds sim_act n w s = Some (None, w', s') ∧
    sim q' s' ∧ after_epochs w0 iU k 0 w' s' ∧ (size (infos s') ≤ N)%nat ∧ now s' = Z.of_nat k * epoch_ticks cfg ∧
    (U, ((Z.of_nat k + 1) * epoch_ticks cfg, i_priority iU)) ∈ pend s'.
Proof using Henv Hrandom Hcfg Hsize Hbase Hticks.
  intros Hsq HR HRB Hsim Ha HN Hnow Hx. induction k as [|k IH]; intros Hov.
  - exists 0%nat, w, q, s. split_and!; try done. by rewrite Z.mul_1_l.
  - destruct IH as (n & w1 & q1 & s1 & Hn & Er & Hsim1 & Ha1 & HN1 & Hnow1 & Hx1); [nia|].
    destruct (next_epoch w0 iU k N w1 q1 s1) as (m & w2 & q2 & s2 & Hm & Er2 & Hrest); try done; [lia|].
    exists (n + m)%nat, w2, q2, s2. split; [nia|]. split; [by eapply rounds_add|done].
Qed.
End Epochs.

(** C3: epochs keep coming.  In a machine whose other events look ahead and use the controller
    through its interface, with the controller's event scheduled one epoch ahead at the start,
    the simulation passes the end of the [k]-th epoch after a bounded number of rounds, for
    every [k] the tick counter has room for, as long as the accesses of an epoch (at most [R]
    for an event) fit in a double: no round fails, the controller has then been
    updated [k] times, at tick [k * epoch_ticks] the last time, its invariant holds, and its
    event is scheduled for the end of the next epoch. *)
Theorem epochs_recur `{CalculatePrefetch D} {E : Type} (random : nat → Z) (cfg : MLCfg) (qcfg : QueuedCfg)
    (translateTiming : TransReq → option (option Z)) (read : E → Z * Z * Z) (env : ptr → Z → @mlsys D * E → option Z * (@mlsys D * E))
    (U : ptr) (R id : Z) (h : heap) (cs : list cmd) (q0 : EventQueue) (eU : Event) (st0 : @mlsys D) (e0 : E) (k : nat) :
  machine_ok random cfg qcfg translateTiming read env R → (∀ j, 0 ≤ random j ≤ RAND_MAX) → cfg_ok cfg → 2 ≤ queueSize qcfg → cfg_wf (base_cfg qcfg) →
  fresh h → plain h → eq_run cs (eventq_new id h) = Ok q0 →
  eq_heap q0 !! U = Some eU → scheduled eU = true → squashed eU = false → _when eU = epoch_ticks cfg →
  sys_ok cfg qcfg st0 → counted read 0 (x_ml st0) e0 → update_event (x_ml st0) = Some (epoch_ticks cfg) → in_u 64 (w_epoch (x_world st0)) →
  0 ≤ R → R * Z.of_nat (epoch_rounds cfg (size (eq_heap q0))) < 2 ^ 53 →
  0 ≤ epoch_ticks cfg → (Z.of_nat k + 1) * epoch_ticks cfg < 2 ^ 64 →
  ∃ n st e q eU', (n ≤ k * (epoch_rounds cfg (size (eq_heap q0)) + 1))%nat ∧
    sim_rounds (act_process (sim_act random cfg read env U)) n (Ok (st0, e0)) q0 = Ok (None, Ok (st, e), q) ∧
    _curTick q = Z.of_nat k * epoch_ticks cfg ∧ w_epoch (x_world st) = u64 (w_epoch (x_world st0) + Z.of_nat k) ∧ sys_ok cfg qcfg st ∧
    update_event (x_ml st) = Some ((Z.of_nat k + 1) * epoch_ticks cfg) ∧
    eq_heap q !! U = Some eU' ∧ scheduled eU' = true ∧ _when eU' = (Z.of_nat k + 1) * epoch_ticks cfg.
Proof.
  intros Henv Hr Hcfg Hs Hb Hf Hp Eq HU Hsch Hsq Hw Hok Hc Hu Hw0 HR HRB Ht Hov.
  pose proof (run_sim cs _ _ (sim_new id h Hf)) as Ha. destruct (ref_run cs _) as [s0|] eqn:Er; [|destruct Ha as [r Ea]; by rewrite Eq in Ea].
  destruct Ha as (q1 & Eq1 & Hsim). rewrite Eq in Eq1. injection Eq1 as <-. pose proof Hsim as (_ & Hnow & Hin).
  assert (plain_infos s0) as Hpl.
  { eapply plain_run, Er. intros y i. cbn. rewrite lookup_fmap. destruct (h !! y) as [e|] eqn:He; [|done]. cbn. intros [= <-]. exact (Hp y e He). }
  assert (size (infos s0) = size (eq_heap q0)) as Hsz by (rewrite Hin; apply map_size_fmap).
  destruct (epochs_pass random cfg qcfg translateTiming read env U R Henv Hr Hcfg Hs Hb Ht (w_epoch (x_world st0)) (info eU) (size (eq_heap q0)) (Ok (st0, e0)) q0 s0)
    with (k := k) as (n & w' & q' & s' & Hn & En & _ & (st & e & -> & Hok' & _ & Hu' & Hw' & _ & _) & _ & Hnow' & Hx'); try done; [..|lia| | |].
  - exists st0, e0. rewrite Z.add_0_r, (wrap_id 64) by done. split_and!; try done; [by rewrite Z.mul_1_l|]. by rewrite Hin, lookup_fmap, HU.
  - apply ref_run_now in Er. done.
  - apply (pend_scheduled q0 s0 U _ Hsim). exists eU. split_and!; try done. unfold key. by rewrite Hw.
  - pose proof (rounds_sim (sim_act random cfg read env U) n (Ok (st0, e0)) q0 s0 Hsim) as Ha. rewrite En in Ha.
    destruct Ha as ([[o2 w2] q2] & E2 & Ew & Hsim2). cbn in Ew, Hsim2. injection Ew as -> ->. destruct (proj1 (pend_scheduled _ _ _ _ Hsim2) Hx') as (eU' & HeU' & Hs' & Hk').
    exists n, st, e, q2, eU'. pose proof Hsim2 as (_ & Hn2 & _). split_and!; try done; [by rewrite <-Hn2|]. unfold key in Hk'. congruence.
Qed.

(** ** A machine *)

(** A CPU that accesses one block every 400000 ticks, missing each time; its state is the number
    of accesses. *)
Definition cpu_env (y : ptr) (t : Z) (st : @mlsys Tagged * Z) : option Z * (@mlsys Tagged * Z) :=
  let '(s, n) := st in
  (Some (t + 400000),
   (match ml_notify (ex_cfg 4 false) t (ex_acc 8192) (ex_pfi 8192) (x_base s, (x_q s, x_ml s)) with
    | Ok (b, (q, m)) => mkMlsys b q m (x_world s)
    | Stop _ => s
    end, u64 (n + 1))).

Definition cpu_read (n : Z) : Z * Z * Z := (u64 (10 * n), n, n).

Lemma cpu_machine : machine_ok ex_random ex_mlcfg (ex_cfg 4 false) (λ _, None) cpu_read cpu_env 1.
Proof.
  split.
  - intros y t [s n] t' st'. unfold cpu_env. intros [= <- _]. lia.
  - intros y t s e o s' e'. unfold cpu_env. destruct s as [b q m w]. cbn [x_base x_q x_ml x_world].
    destruct (ml_notify (ex_cfg 4 false) t (ex_acc 8192) (ex_pfi 8192) (b, (q, m))) as [[b' [q' m']]|] eqn:En; intros [= _ <- _]; [|apply rtc_refl].
    apply rtc_once. split; [|done]. eapply ml_access; [| |exact En]; [apply ex_pkt_wf|done].
  - intros y t s e o s' e'. unfold cpu_env, cpu_read. intros [= _ _ <-]. cbn [fst snd]. unfold wrap. rewrite Zminus_mod_idemp_l. replace (e + 1 - e) with 1 by lia. done.
Qed.

Definition cpu_start : @mlsys Tagged :=
  match startup ex_mlcfg 0 (λ _, Some (0, 0)) ex_ml ex_world with
  | Some (Ok m) => mkMlsys ex_base_state q_empty m ex_world
  | _ => ex_start
  end.

Definition cpu_setup : list cmd := [CSchedule 1%positive 400000; CSchedule 2%positive 1000000].

Definition cpu_boot : outcome EventQueue := eq_run cpu_setup (eventq_new 0 (ex_events Default_Pri)).

Lemma cpu_boots : is_okb cpu_boot = true.
Proof. by vm_compute. Qed.

Definition cpu_queue : EventQueue := the_result cpu_boot cpu_boots.
Definition cpu_event : Event := the_result (deref (eq_heap cpu_queue) 2%positive) ltac:(by vm_compute).

Lemma cpu_start_ok : sys_ok ex_mlcfg (ex_cfg 4 false) cpu_start.
Proof.
  split; [apply (q_empty_wf (ex_cfg 4 false) ltac:(done))|]. destruct (proj2 ex_ml_ok) as [H1 H2 H3 [L1 L2 L3 L4] H5].
  split; [exact H1|exact H2|exact H3|split; [exact L1|exact L2|exact L3|exact L4]|exact H5].
Qed.

Lemma epochs_recur_witness :
  ∃ n st e q eU', (n ≤ 3 * (epoch_rounds ex_mlcfg (size (eq_heap cpu_queue)) + 1))%nat ∧
    sim_rounds (act_process (sim_act ex_random ex_mlcfg cpu_read cpu_env 2%positive)) n (Ok (cpu_start, 0)) cpu_queue = Ok (None, Ok (st, e), q) ∧
    _curTick q = 3 * 1000000 ∧ w_epoch (x_world st) = 3 ∧ sys_ok ex_mlcfg (ex_cfg 4 false) st ∧
    update_event (x_ml st) = Some (4 * 1000000) ∧
    eq_heap q !! 2%positive = Some eU' ∧ scheduled eU' = true ∧ _when eU' = 4 * 1000000.
Proof.
  apply (epochs_recur ex_random ex_mlcfg (ex_cfg 4 false) (λ _, None) cpu_read cpu_env 2%positive 1 0 (ex_events Default_Pri) cpu_setup cpu_queue cpu_event cpu_start 0 3
    cpu_machine ex_random_ok (proj1 ex_ml_ok) ltac:(done) (ex_base_wf false) (ex_fresh _) (ex_plain _) ltac:(by vm_compute) ltac:(by vm_compute) ltac:(by vm_compute)
    ltac:(by vm_compute) ltac:(by vm_compute) cpu_start_ok).
  - intros _. vm_compute. split; discriminate.
  - by vm_compute.
  - vm_compute. split; [discriminate|done].
  - done.
  - unfold epoch_rounds. change (epoch_ticks ex_mlcfg) with 1000000. change (size (eq_heap cpu_queue)) with 2%nat. lia.
  - done.
  - done.
Defined.
